(* ===== verification/_CoqProject ===== *)
-Q . S2P
Prelude.v
Strings.v
Trim.v
Show.v
Vec.v
Trie.v
TrieSealed.v
TrieLayout.v
DomainTrie.v
TrieSpec.v
TrieTheorems.v
Ip.v
IpSet.v
GeoIndex.v
Bits.v
MrsRanges.v
Stream.v
MrsCodec.v
RankSelect.v
DomainSet.v
Upstream.v
DomainSetLayout.v
DomainSetRoundtrip.v
Ports.v
Regex.v
Wildcard.v
Metadata.v
Geosite.v
GeositeLoad.v
Rules.v
RuleParser.v
RuleGrammar.v
RuleSets.v
MrsRuleSets.v
RuleOp.v
RulePrune.v
DomainKey.v
RuleConfig.v
DomainIndex.v
RuleIr.v
RuleIrCorrect.v
ReplayWindow.v
Kcp.v
KcpWire.v
KcpInv.v
KcpOps.v
KcpNet.v
KcpLive.v
Lru.v
FakeIp.v
FakeIpStores.v
FakeIpPool.v
FakeIpTheorems.v
DnsCache.v
DnsCacheRun.v
DnsCacheForward.v
DnsCacheReverse.v
HostNames.v
Sniffer.v
SnifferTls.v
SnifferFlow.v
KcpSized.v
KcpCrypt.v
Fec.v
FecEncode.v
FecDecode.v
KcpStream.v
KcpStreamNet.v
FecTheorems.v
KcpStreamTheorems.v
Errors.v
ChainHealth.v
ChainTheorems.v
SelectorStore.v
Groups.v
Fallback.v
UrlTest.v
SelectorGroup.v
LoadBalance.v
GroupTheorems.v
