(* ===== verification/Prelude.v ===== *)
(** * A verification development for meow-rs

    meow-rs is a rule-based proxy. A listener accepts a connection and
    describes it in a [Metadata] record; the tunnel asks the rule engine which
    outbound to use; an outbound adapter dials through some transport. The
    rule engine is built from configuration lines, rule-set files and
    geographic databases. This library models that engine, from the bytes of
    its inputs to the outbound it names, the DNS cache and the fake addresses
    the names of connections come from, the groups that choose an outbound,
    and stand-alone protocol parts of the transports. Definitions are executable and carry the names of
    the source; each file says which part of crates/ it models.

    ** Conventions

    - A Rust string is the list of its bytes ([bytes], Strings.v). Unicode
      case mapping beyond ASCII is a class ([UnicodeLower], [UnicodeUpper]).
    - An unsigned word is an integer in its range, with wrap-around, [as]
      casts and checked operations written out.
    - [Result] is [result]; an outer [option] whose [None] is a panic wraps
      what can panic (indexing, overflow checks, capacity limits). Theorems
      that say "never panics" show it is [Some].
    - [Arc] handles are addresses into a store, so that sharing, pointer
      comparison and refreshes of shared objects are visible.
    - Third-party crates are classes whose fields are their functions and
      whose laws are their documented behaviour: [RegexOps]/[RegexLaws]
      (regex), [IpNetLib]/[IpNetNew] (ipnet), [ZstdLib] (zstd), [LruLib]
      (lru), [HttpParse] (httparse), [CryptoLib]/[CryptoLaws] (ciphers and
      digests), [RsLib]/[RsLaws] (reed-solomon-erasure), the database reader
      (maxminddb), the public suffix list ([PublicSuffix]), what is known of
      an errno ([OsErrors]), hash iteration orders ([HashOrder], [KeyOrder],
      [EntryOrder], [HealthOrder]).
      Each has a concrete instance, at which the witnesses run.

    ** The parts and their files

    - Host names to values (meow-trie): Trie (the builder), TrieSealed and
      TrieLayout (the frozen arena), DomainTrie (the public type), TrieSpec
      (the abstract map and the simulation), TrieTheorems.
    - Addresses (meow-rules/ip_set.rs, rule_ir.rs): Ip, IpSet.
      Country and ASN indexes: GeoIndex.
    - Rule-set files (meow-rules/mrs_parser.rs): Bits, Stream (bounded frame
      reader), MrsCodec (the container of the program), MrsRanges (ranges to
      networks), RankSelect and DomainSet (the succinct set and its walk),
      Upstream (upstream files), DomainSetLayout and DomainSetRoundtrip (the
      reference encoder and the round trip), MrsRuleSets (the loader).
    - Rules (meow-rules): Ports, Regex, Wildcard, Metadata, Geosite and
      GeositeLoad, Rules (every rule kind), RuleParser and RuleGrammar (text
      to rules and back), RuleSets, DomainKey (dead patterns).
    - Configuration lists (meow-config): RuleConfig.
    - The engines (meow-tunnel): DomainIndex (the linear engine with its
      index), RuleOp (lowering), RulePrune (what is dropped), RuleIr (the
      compiled table), RuleIrCorrect (its correctness).
    - Replay protection (meow-common/replay_window.rs): ReplayWindow.
    - KCP (meow-transport/kcptun/kcp_go.rs): Kcp (one endpoint), KcpWire
      (datagrams), KcpInv (the invariant), KcpOps (each operation keeps it),
      KcpNet (two endpoints over a network), KcpLive, KcpSized (sizes of
      segments and datagrams).
    - kcptun (meow-transport/kcptun): KcpCrypt (crypt.rs), Fec (fec.rs) with
      FecEncode (what the encoder sends, and a concrete code) and FecDecode
      (what the decoder gives back), KcpStream (conn.rs and mod.rs),
      KcpStreamNet (two streams over a network), FecTheorems,
      KcpStreamTheorems (the streams, reduced to two KCP endpoints).
    - DNS answers (meow-dns): Lru (the interface of the lru crate), DnsCache
      (cache.rs), DnsCacheRun (lists of entries, calls and the invariant, an
      entry as a record for each family), DnsCacheForward (names) and
      DnsCacheReverse (addresses). FakeIp (fakeip.rs), FakeIpStores (what a
      store promises to the pool, and that both stores keep it), FakeIpPool,
      FakeIpTheorems (the pool and the skipper).
    - Sniffed names: HostNames (meow-common/metadata.rs, and the address
      parser of the standard library), Sniffer (meow-common/sniffer and
      meow-listener/sniffer.rs), SnifferTls (ClientHellos), SnifferFlow (what
      becomes of a flow).
    - Outbound groups (meow-proxy/group): Groups (mod.rs: dial failures, the
      choice for a front hop and the verdict on it), Fallback, UrlTest,
      LoadBalance, SelectorGroup, SelectorStore (selector_store.rs),
      GroupTheorems. They use ChainHealth (meow-common/chain_health.rs: which
      member failed to carry chains to which server) with ChainTheorems, and
      Errors (meow-common/error.rs and backoff.rs).

    ** What the theorems show

    - Engines: for tables as the parser makes them and normalized ASCII hosts,
      the compiled table and the linear engine return what the first matching
      rule with a usable target returns, whatever was lowered, folded, dropped
      or indexed; the lazy scan agrees with the strict one. Tables in which a
      logic rule folds to a single leaf with a fingerprint are excluded, and
      [collapsed_duplicate_lost] shows a rule of such a table lost.
    - Matching structures: the trie returns the most specific match after any
      history of inserts and seals; range sets, port matchers, wildcards,
      geosite buckets and the geographic indexes decide exactly the union of
      what was put in.
    - Text and files: rules written as text parse to what they denote; loading
      rule sets, geosite files (in any case of letters) and domain sets gives
      what was encoded, save the networks of the program's own container; every decoder ends on
      any input and keeps its bounds; strict and lenient loading differ only
      in what they report.
    - Replay window: the bitmap implements the abstract filter, and no packet
      passes twice.
    - KCP: two endpoints over a network that loses, repeats and reorders
      datagrams deliver the sent bytes in order and lose none, keep message
      boundaries in message mode, accept each other's datagrams, and write
      again, in a new datagram, what the peer lacks. A call may be refused;
      what a refused send leaves in the queue counts as sent.
    - kcptun: what is sealed opens to the same datagram under every cipher;
      the decoder hands over only datagrams that were sent and every datagram
      of a generation of which enough packets arrive; two streams, with both
      in between, never panic and deliver the written bytes.
    - DNS cache: what is answered for a name or an address is what was last
      written for it and is still fresh, whatever was evicted, and a NODATA
      answer never takes the place of a fresh better one; what is
      written is answered while its shard is not used for more than its cap;
      the names of addresses survive a snapshot; the size is bounded.
    - Fake addresses: over any store that keeps the contract, answers are
      addresses of the range, one to one with hosts; a host keeps its address
      until the range is used up; a restart from the file continues the pool.
      The skipper decides by its patterns exactly.
    - Sniffed names: the ClientHello parser never indexes out of range; a
      hello that arrives in any pieces names its flow; a name is adopted
      exactly when the lists and the flow's own name allow it.
    - Outbound groups: the table of verdicts is a machine for each server,
      which blocks a member for doubling times and blames the server when
      enough members failed; a group takes a blocked member only if nothing
      else can be used; url-test keeps to its tolerance and its incumbent;
      the jump hash is consistent in spite of rounding; round robin is fair.
      Errors keep their class across a transport, and choices saved by
      concurrent calls reach the file.

    ** Fuel and bounds

    Recursion that is not structural takes fuel, and a theorem shows that the
    fuel passed is enough: the length of the input for parsers (every step
    consumes a byte), the number of bits for the walk of a domain set, 129
    steps per family for range splitting (each step fixes one more bit), the
    number of nodes for graph searches. Theorems about the trie assume that
    the labels inserted fit the 29-bit node index, beyond which the code
    panics.
    The theorems about KCP hold while each side has sent fewer than [2 ^ 30]
    bytes and receive windows are at most [2 ^ 30] segments, so that no comparison of
    32-bit sequence numbers wraps; the loop over a datagram has one unit of
    fuel per byte and takes at least 24 bytes per round.

    The theorems about kcptun streams add that each side wrote fewer than
    [2 ^ 22] datagrams, so that no sequence number of error correction wraps;
    moving received data to the inbox has fuel for every waiting segment
    ([stage_enough]), and the CFB loop one unit per byte.

    The pool's theorems assume that the first addresses of the range do not
    run over the end of the address family ([pool_fits]), where the code
    wraps. Times of the DNS cache are unbounded integers.

    The loops of the ClientHello parser have one unit of fuel per byte and
    take at least three bytes per round; a record longer than the peek buffer
    of 8192 bytes is not read, so the theorem about fragments excludes it.

    The table of verdicts keeps servers apart while no more than 64 are known,
    beyond which it forgets the one used longest ago. The jump hash has one
    unit of fuel per member, and its theorem is about fewer than [2 ^ 32]
    members; a float of it is a significand and a scale, rounded to nearest
    even. Concurrent calls that save choices are steps between lock
    operations; the order of the steps is arbitrary.

    ** Not modelled

    Asynchronous code, sockets, TLS and cipher streams, HTTP routes, YAML
    deserialisation, the file system, the operating system's process tables
    and routing, the C stack behind meow-lwip, the command line and the
    benchmarks: they are calls of third-party crates or of the operating
    system, whose behaviour is outside of the repository. Log output and the
    wording of error messages are left out; an error is the constructor that
    the message stands for. *)

From stdpp Require Export base list gmap numbers.
From Stdlib Require Export ZArith Lia.
From stdpp Require Export list.

#[export] Set Default Goal Selector "!".

(** ** Results

    [Result<A, E>] of Rust, with [?] as the bind of its monad. *)

Inductive result (E A : Type) :=
  | Ok (a : A)
  | Err (e : E).
Arguments Ok {E A} a.
Arguments Err {E A} e.

#[export] Instance result_ret E : MRet (result E) := fun A a => Ok a.
#[export] Instance result_bind E : MBind (result E) := fun A B f r =>
  match r with Ok a => f a | Err e => Err e end.
#[export] Instance result_fmap E : FMap (result E) := fun A B f r =>
  match r with Ok a => Ok (f a) | Err e => Err e end.

Definition ok_or {E A} (e : E) (o : option A) : result E A :=
  match o with Some a => Ok a | None => Err e end.

(** [Result::ok]. *)
Definition to_option {E A} (r : result E A) : option A :=
  match r with Ok a => Some a | Err _ => None end.

Lemma bind_Ok {E A B} (r : result E A) (f : A -> result E B) b :
  r ≫= f = Ok b <-> exists a, r = Ok a /\ f a = Ok b.
Proof. destruct r as [a|e]; cbn; naive_solver. Qed.

Lemma ok_or_Ok {E A} (e : E) (o : option A) a : ok_or e o = Ok a <-> o = Some a.
Proof. destruct o; simpl; naive_solver. Qed.

(** A loop that stops at the first error. *)
Fixpoint try_map {E A B} (f : A -> result E B) (l : list A) : result E (list B) :=
  match l with
  | [] => Ok []
  | x :: l => y ← f x; ys ← try_map f l; Ok (y :: ys)
  end.

Lemma try_map_Ok {E A B} (f : A -> result E B) l k :
  try_map f l = Ok k <-> Forall2 (fun x y => f x = Ok y) l k.
Proof.
  revert k. induction l as [|x l IH]; intros k; cbn [try_map].
  { split; [intros [= <-]; constructor|]. by inversion 1. }
  rewrite bind_Ok. split.
  - intros (y & Hy & (ys & Hys & [= <-])%bind_Ok). constructor; [done|by apply IH].
  - intros H. inversion H as [|? y ? ys Hy Hys]; subst. exists y. split; [done|].
    apply bind_Ok. exists ys. split; [by apply IH|done].
Qed.

(** A loop with a state that stops at the first error. *)
Fixpoint try_fold {E S A} (f : S -> A -> result E S) (s : S) (l : list A) : result E S :=
  match l with
  | [] => Ok s
  | x :: l => s ← f s x; try_fold f s l
  end.

Lemma try_fold_app {E S A} (f : S -> A -> result E S) s l k :
  try_fold f s (l ++ k) = s ← try_fold f s l; try_fold f s k.
Proof. revert s. induction l as [|x l IH]; intros s; [done|]. cbn. by destruct (f s x); cbn. Qed.

(** A list of pairs with different keys is a map. *)
Lemma NoDup_lookup_pairs {A B} (l : list (A * B)) a b b' :
  NoDup l.*1 -> (a, b) ∈ l -> (a, b') ∈ l -> b = b'.
Proof.
  induction l as [|[x y] l IH]; intros Hnd Hb Hb'; [by apply not_elem_of_nil in Hb|].
  apply NoDup_cons in Hnd as [Hx Hnd].
  assert (Hno : forall z, (x, z) ∉ l) by (intros z Hz; apply Hx, list_elem_of_fmap; by exists (x, z)).
  apply elem_of_cons in Hb as [Hb|Hb], Hb' as [Hb'|Hb']; simplify_eq; try done; [by apply Hno in Hb'|by apply Hno in Hb|by apply IH].
Qed.

(** ** Machine integers *)

Definition u64_max : Z := 18446744073709551615.
Definition u16_max : Z := 65535.
Definition u32_max : Z := 4294967295.
Definition wrap64 (z : Z) : Z := z `mod` 2 ^ 64.

Definition is_u64 (z : Z) : Prop := (0 <= z < 2 ^ 64)%Z.

Lemma is_u64_testbit_high z n : is_u64 z -> (64 <= n)%Z -> Z.testbit z n = false.
Proof.
  intros [Hz1 Hz2] Hn. rewrite <- (Z.mod_small z (2 ^ 64)) by lia.
  by apply Z.mod_pow2_bits_high.
Qed.

Lemma testbit_wrap64 z n :
  (0 <= n)%Z -> Z.testbit (wrap64 z) n = ((n <? 64)%Z && Z.testbit z n).
Proof.
  intros Hn. unfold wrap64. destruct (Z.ltb_spec n 64); simpl.
  - by apply Z.mod_pow2_bits_low.
  - by apply Z.mod_pow2_bits_high.
Qed.

Lemma is_u64_wrap64 z : is_u64 (wrap64 z).
Proof. apply Z.mod_pos_bound. lia. Qed.

(** A non-negative integer whose bits from 64 up are clear fits in 64 bits. *)
Lemma is_u64_of_bits z :
  (0 <= z)%Z -> (forall n, (64 <= n)%Z -> Z.testbit z n = false) -> is_u64 z.
Proof.
  intros Hz Hb. rewrite <- (Z.mod_small z (2 ^ 64)); [apply is_u64_wrap64|].
  split; [done|]. destruct (decide (z = 0%Z)) as [->|Hnz]; [lia|].
  destruct (Z.lt_ge_cases z (2 ^ 64)) as [|Hge]; [done|].
  assert (Hlog : (64 <= Z.log2 z)%Z) by (apply Z.log2_le_pow2; lia).
  specialize (Hb _ Hlog). by rewrite Z.bit_log2 in Hb by lia.
Qed.

Lemma is_u64_lor x y : is_u64 x -> is_u64 y -> is_u64 (Z.lor x y).
Proof.
  intros Hx Hy. apply is_u64_of_bits.
  - unfold is_u64 in *. apply Z.lor_nonneg; lia.
  - intros n Hn. rewrite Z.lor_spec.
    by rewrite !is_u64_testbit_high by done.
Qed.

Lemma is_u64_shiftr x n : is_u64 x -> (0 <= n)%Z -> is_u64 (Z.shiftr x n).
Proof.
  intros Hx Hn. apply is_u64_of_bits.
  - apply Z.shiftr_nonneg. unfold is_u64 in *; lia.
  - intros m Hm. rewrite Z.shiftr_spec by lia. apply is_u64_testbit_high; [done|lia].
Qed.

Lemma land_pow2_eqb x n :
  (0 <= n)%Z -> (Z.land x (Z.shiftl 1 n) =? 0)%Z = negb (Z.testbit x n).
Proof.
  intros Hn. destruct (Z.testbit x n) eqn:E; simpl.
  - apply Z.eqb_neq. intros H0. apply (f_equal (fun z => Z.testbit z n)) in H0.
    rewrite Z.land_spec, E, Z.shiftl_spec, Z.sub_diag, Z.bits_0 in H0 by lia. done.
  - apply Z.eqb_eq, Z.bits_inj'. intros m Hm.
    rewrite Z.land_spec, Z.bits_0, Z.shiftl_spec by lia.
    destruct (Z.eq_dec m n) as [->|Hne]; [by rewrite E|].
    destruct (Z.lt_ge_cases m n).
    + rewrite (Z.testbit_neg_r 1) by lia. apply andb_false_r.
    + rewrite (Z.bits_above_log2 1 (m - n)); [apply andb_false_r|lia|simpl; lia].
Qed.

(** The quotient and remainder read off a decomposition. *)
Lemma div_mod_decomp a b q r :
  a = (q * b + r)%Z -> (0 <= r < b)%Z -> (a / b = q /\ a `mod` b = r)%Z.
Proof.
  intros Ha Hr. split; symmetry.
  - apply (Z.div_unique_pos a b q r); lia.
  - apply (Z.mod_unique_pos a b q r); lia.
Qed.

(** ** Tabulated lists *)

(** The vector whose entry [i] is [f i], for [i < n]. *)
Definition tabulate {A} (n : nat) (f : nat -> A) : list A := f <$> seq 0 n.

Lemma length_tabulate {A} n (f : nat -> A) : length (tabulate n f) = n.
Proof. unfold tabulate. by rewrite length_fmap, length_seq. Qed.

Lemma lookup_tabulate {A} n (f : nat -> A) i : i < n -> tabulate n f !! i = Some (f i).
Proof. intros H. unfold tabulate. rewrite list_lookup_fmap, lookup_seq_lt by done. done. Qed.

Lemma lookup_tabulate_ge {A} n (f : nat -> A) i : n <= i -> tabulate n f !! i = None.
Proof. intros H. apply lookup_ge_None. by rewrite length_tabulate. Qed.

Lemma tabulate_ext {A} n (f g : nat -> A) :
  (forall i, i < n -> f i = g i) -> tabulate n f = tabulate n g.
Proof.
  intros H. apply list_eq. intros i. destruct (decide (i < n)).
  - rewrite !lookup_tabulate by done. by rewrite H.
  - by rewrite !lookup_tabulate_ge by lia.
Qed.

Lemma insert_tabulate {A} n (f : nat -> A) i x :
  i < n -> <[i := x]> (tabulate n f) = tabulate n (fun j => if decide (j = i) then x else f j).
Proof.
  intros H. apply list_eq. intros j. destruct (decide (j < n)).
  - rewrite lookup_tabulate by done. case_decide as E.
    + subst. by rewrite list_lookup_insert_eq by (by rewrite length_tabulate).
    + by rewrite list_lookup_insert_ne, lookup_tabulate.
  - rewrite lookup_tabulate_ge by lia. apply lookup_ge_None.
    rewrite length_insert, length_tabulate. lia.
Qed.

Lemma replicate_tabulate {A} n (x : A) : replicate n x = tabulate n (fun _ => x).
Proof.
  apply list_eq. intros i. destruct (decide (i < n)).
  - rewrite lookup_tabulate by done. by apply lookup_replicate_2.
  - rewrite lookup_tabulate_ge by lia. apply lookup_ge_None. rewrite length_replicate. lia.
Qed.
