(* ===== verification/Strings.v ===== *)
(** * Rust strings as byte lists

    The operations of [str] and of byte slices that the modelled crates use,
    on the UTF-8 bytes of the string, and the lemmas about splitting a host
    name at its dots. *)

From S2P Require Import Prelude.
From stdpp Require Import strings.
From Stdlib Require Export Ascii.
From Stdlib Require String.
Export String.StringSyntax.

Notation bytes := (list ascii).

Declare Scope bytes_scope.
Delimit Scope bytes_scope with bytes.
Notation "'b!' s" := (String.list_ascii_of_string s%string)
  (at level 1, s at level 0) : bytes_scope.
Open Scope bytes_scope.

Definition dot : ascii := "."%char.
Definition byte_val (c : ascii) : N := N_of_ascii c.

(** ** ASCII classes and case folding *)

Definition in_range (lo hi : N) (c : ascii) : bool :=
  ((lo <=? byte_val c) && (byte_val c <=? hi))%N.

Definition is_ascii_byte (c : ascii) : bool := (byte_val c <? 128)%N.
Definition is_ascii_uppercase (c : ascii) : bool := in_range 65 90 c.
Definition is_ascii_lowercase (c : ascii) : bool := in_range 97 122 c.
Definition is_ascii_digit (c : ascii) : bool := in_range 48 57 c.
Definition is_ascii_alphanumeric (c : ascii) : bool :=
  is_ascii_uppercase c || is_ascii_lowercase c || is_ascii_digit c.

(** [u8::to_ascii_lowercase] and [u8::to_ascii_uppercase]. *)
Definition byte_lower (c : ascii) : ascii :=
  if is_ascii_uppercase c then ascii_of_N (byte_val c + 32) else c.
Definition byte_upper (c : ascii) : ascii :=
  if is_ascii_lowercase c then ascii_of_N (byte_val c - 32) else c.

Definition to_ascii_lowercase (s : bytes) : bytes := byte_lower <$> s.
Definition to_ascii_uppercase (s : bytes) : bytes := byte_upper <$> s.
Definition is_ascii (s : bytes) : bool := forallb is_ascii_byte s.
Definition has_uppercase (s : bytes) : bool := existsb is_ascii_uppercase s.

(** [eq_ignore_ascii_case]: equal lengths and bytewise equal after folding. *)
Definition eq_ignore_ascii_case (a b : bytes) : bool :=
  bool_decide (to_ascii_lowercase a = to_ascii_lowercase b).

(** ** Prefixes, suffixes, substrings *)

Fixpoint strip_prefix (p s : bytes) : option bytes :=
  match p, s with
  | [], _ => Some s
  | c :: p, d :: s => if decide (c = d) then strip_prefix p s else None
  | _ :: _, [] => None
  end.

Definition starts_with (p s : bytes) : bool := bool_decide (is_Some (strip_prefix p s)).

Definition strip_suffix (p s : bytes) : option bytes :=
  reverse <$> strip_prefix (reverse p) (reverse s).

Definition ends_with (p s : bytes) : bool := bool_decide (is_Some (strip_suffix p s)).

Definition contains_byte (c : ascii) (s : bytes) : bool := existsb (fun d => bool_decide (d = c)) s.

(** [str::contains] with a string pattern: some position starts the needle. *)
Fixpoint contains (needle s : bytes) : bool :=
  starts_with needle s || match s with [] => false | _ :: s => contains needle s end.

(** [str::find] of one byte. *)
Fixpoint find_byte (c : ascii) (s : bytes) : option nat :=
  match s with
  | [] => None
  | d :: s => if decide (d = c) then Some 0 else S <$> find_byte c s
  end.

Definition split_once (c : ascii) (s : bytes) : option (bytes * bytes) :=
  i ← find_byte c s; Some (take i s, drop (S i) s).

(** [trim_end_matches(c)] for one byte. *)
Fixpoint drop_while (p : ascii -> bool) (s : bytes) : bytes :=
  match s with
  | [] => []
  | c :: s' => if p c then drop_while p s' else s
  end.

Definition trim_end_byte (c : ascii) (s : bytes) : bytes :=
  reverse (drop_while (fun d => bool_decide (d = c)) (reverse s)).

(** [str::from_utf8] succeeds: the well-formed byte sequences of Unicode. *)
Definition utf8_cont (c : ascii) : bool := in_range 128 191 c.
Definition utf8_second3 (a b : ascii) : bool :=
  if (byte_val a =? 224)%N then in_range 160 191 b
  else if (byte_val a =? 237)%N then in_range 128 159 b
  else in_range 225 239 a && utf8_cont b.
Definition utf8_second4 (a b : ascii) : bool :=
  if (byte_val a =? 240)%N then in_range 144 191 b
  else if (byte_val a =? 244)%N then in_range 128 143 b
  else in_range 241 243 a && utf8_cont b.

Fixpoint from_utf8_ok (s : bytes) : bool :=
  match s with
  | [] => true
  | a :: s1 =>
      if is_ascii_byte a then from_utf8_ok s1
      else match s1 with
           | [] => false
           | b :: s2 =>
               if in_range 194 223 a then utf8_cont b && from_utf8_ok s2
               else match s2 with
                    | [] => false
                    | c :: s3 =>
                        if in_range 224 239 a then utf8_second3 a b && utf8_cont c && from_utf8_ok s3
                        else match s3 with
                             | [] => false
                             | d :: s4 => utf8_second4 a b && utf8_cont c && utf8_cont d && from_utf8_ok s4
                             end
                    end
           end
  end.

Lemma byte_upper_ascii c : is_ascii_byte (byte_upper c) = is_ascii_byte c.
Proof. by destruct c as [[] [] [] [] [] [] [] []]. Qed.

Lemma upper_ascii s : is_ascii (to_ascii_uppercase s) = is_ascii s.
Proof.
  unfold is_ascii. induction s as [|c s IH]; [done|]. cbn. rewrite byte_upper_ascii. by f_equal.
Qed.

Lemma ascii_utf8 s : is_ascii s = true -> from_utf8_ok s = true.
Proof.
  induction s as [|a s IH]; [done|]. cbn [is_ascii forallb from_utf8_ok].
  intros [-> H]%andb_true_iff. by apply IH.
Qed.

(** [chars] of a valid string, each as its bytes. *)
Fixpoint chars (s : bytes) : list bytes :=
  match s with
  | [] => []
  | a :: s1 =>
      if is_ascii_byte a then [a] :: chars s1
      else match s1 with
           | [] => [[a]]
           | b :: s2 =>
               if in_range 194 223 a then [a; b] :: chars s2
               else match s2 with
                    | [] => [[a; b]]
                    | c :: s3 =>
                        if in_range 224 239 a then [a; b; c] :: chars s3
                        else match s3 with
                             | [] => [[a; b; c]]
                             | d :: s4 => [a; b; c; d] :: chars s4
                             end
                    end
           end
  end.

(** [s.chars().rev().collect()]. *)
Definition rev_chars (s : bytes) : bytes := mjoin (reverse (chars s)).

(** A string that is one character. *)
Definition char_ok (c : bytes) : Prop := from_utf8_ok c = true /\ chars c = [c].

Lemma chars_valid s : from_utf8_ok s = true -> mjoin (chars s) = s /\ Forall char_ok (chars s).
Proof.
  remember (length s) as n eqn:En. revert s En. induction (lt_wf n) as [n _ IH]. intros s -> Hs.
  destruct s as [|a s1]; [by split|]. cbn [from_utf8_ok chars] in *.
  destruct (is_ascii_byte a) eqn:Ea.
  { destruct (IH (length s1) ltac:(simpl; lia) s1 eq_refl Hs) as [H1 H2]. split; [simpl; by f_equal|].
    constructor; [|done]. unfold char_ok. simpl. by rewrite Ea. }
  destruct s1 as [|b s2]; [done|]. destruct (in_range 194 223 a) eqn:E2.
  { apply andb_true_iff in Hs as [Hb Hs]. destruct (IH (length s2) ltac:(simpl; lia) s2 eq_refl Hs) as [H1 H2].
    split; [simpl; by do 2 f_equal|]. constructor; [|done]. unfold char_ok. simpl. by rewrite Ea, E2, Hb. }
  destruct s2 as [|c s3]; [done|]. destruct (in_range 224 239 a) eqn:E3.
  { apply andb_true_iff in Hs as [[Hb Hc]%andb_true_iff Hs].
    destruct (IH (length s3) ltac:(simpl; lia) s3 eq_refl Hs) as [H1 H2].
    split; [simpl; by do 3 f_equal|]. constructor; [|done]. unfold char_ok. simpl. by rewrite Ea, E2, E3, Hb, Hc. }
  destruct s3 as [|d s4]; [done|]. apply andb_true_iff in Hs as [[[Hb Hc]%andb_true_iff Hd]%andb_true_iff Hs].
  destruct (IH (length s4) ltac:(simpl; lia) s4 eq_refl Hs) as [H1 H2].
  split; [simpl; by do 4 f_equal|]. constructor; [|done]. unfold char_ok. simpl. by rewrite Ea, E2, E3, Hb, Hc, Hd.
Qed.

Lemma char_app c s :
  char_ok c -> from_utf8_ok (c ++ s) = from_utf8_ok s /\ chars (c ++ s) = c :: chars s.
Proof.
  intros [Hc Hs]. destruct c as [|a c]; [done|]. cbn [from_utf8_ok chars app] in *.
  destruct (is_ascii_byte a).
  { destruct c as [|? c]; [done|]. by injection Hs. }
  destruct c as [|b c]; [done|]. cbn [app]. destruct (in_range 194 223 a).
  { apply andb_true_iff in Hc as [-> Hc]. destruct c as [|? c]; [done|]. by injection Hs. }
  destruct c as [|x c]; [done|]. cbn [app]. destruct (in_range 224 239 a).
  { apply andb_true_iff in Hc as [-> Hc]. destruct c as [|? c]; [done|]. by injection Hs. }
  destruct c as [|y c]; [done|]. cbn [app]. apply andb_true_iff in Hc as [-> Hc].
  destruct c as [|? c]; [done|]. by injection Hs.
Qed.

Lemma chars_join cs : Forall char_ok cs -> from_utf8_ok (mjoin cs) = true /\ chars (mjoin cs) = cs.
Proof.
  induction 1 as [|c cs Hc _ [IH1 IH2]]; [done|].
  change (mjoin (c :: cs)) with (c ++ mjoin cs). destruct (char_app c (mjoin cs) Hc) as [-> ->].
  split; [done|]. by rewrite IH2.
Qed.

(** Reversing a valid string by characters gives a valid string, and doing it
    twice gives it back. *)
Lemma rev_chars_valid s : from_utf8_ok s = true -> from_utf8_ok (rev_chars s) = true /\ rev_chars (rev_chars s) = s.
Proof.
  intros [Hj Hc]%chars_valid. unfold rev_chars.
  destruct (chars_join (reverse (chars s))) as [H1 H2]; [by apply Forall_reverse|].
  split; [done|]. by rewrite H2, reverse_involutive.
Qed.

(** The only character that ends in an ASCII byte is that byte. *)
Lemma char_last_ascii c x : char_ok c -> last c = Some x -> is_ascii_byte x = true -> c = [x].
Proof.
  assert (Hcont : forall y, utf8_cont y = true -> is_ascii_byte y = false)
    by (intros [[] [] [] [] [] [] [] []]; (done || by intros [=])).
  intros [Hc Hs] Hl Hx. destruct c as [|a c]; [done|]. cbn [from_utf8_ok chars] in *.
  destruct (is_ascii_byte a).
  { destruct c as [|? c]; [by injection Hl as ->|done]. }
  destruct c as [|b c]; [done|]. destruct (in_range 194 223 a).
  { apply andb_true_iff in Hc as [Hb _]. destruct c as [|? c]; [|done]. injection Hl as ->. by rewrite Hcont in Hx. }
  destruct c as [|y c]; [done|]. destruct (in_range 224 239 a).
  { apply andb_true_iff in Hc as [[_ Hb]%andb_true_iff _]. destruct c as [|? c]; [|done]. injection Hl as ->.
    by rewrite Hcont in Hx. }
  destruct c as [|z c]; [done|]. apply andb_true_iff in Hc as [[_ Hb]%andb_true_iff _].
  destruct c as [|? c]; [|done]. injection Hl as ->. by rewrite Hcont in Hx.
Qed.

(** ** Splitting *)

(** [str::split] on a byte class: always at least one piece. *)
Fixpoint split_by (p : ascii -> bool) (s : bytes) : list bytes :=
  match s with
  | [] => [[]]
  | c :: s =>
      if p c then [] :: split_by p s
      else match split_by p s with
           | w :: ws => (c :: w) :: ws
           | [] => [[c]]
           end
  end.

Definition split (c : ascii) : bytes -> list bytes := split_by (fun d => bool_decide (d = c)).
Definition rsplit (c : ascii) (s : bytes) : list bytes := reverse (split c s).

(** ** Trimming Unicode white space

    The UTF-8 encodings of the characters with the [White_Space] property,
    the ones [char::is_whitespace] accepts. *)
Definition of_codes (l : list N) : bytes := ascii_of_N <$> l.

Definition white_space : list bytes :=
  map of_codes
    [[9]; [10]; [11]; [12]; [13]; [32]; [194; 133]; [194; 160]; [225; 154; 128];
     [226; 128; 128]; [226; 128; 129]; [226; 128; 130]; [226; 128; 131];
     [226; 128; 132]; [226; 128; 133]; [226; 128; 134]; [226; 128; 135];
     [226; 128; 136]; [226; 128; 137]; [226; 128; 138]; [226; 128; 168];
     [226; 128; 169]; [226; 128; 175]; [226; 129; 159]; [227; 128; 128]]%N.

Fixpoint strip_any (ps : list bytes) (s : bytes) : option bytes :=
  match ps with
  | [] => None
  | p :: ps => match strip_prefix p s with Some r => Some r | None => strip_any ps s end
  end.

Fixpoint trim_start_fuel (ps : list bytes) (fuel : nat) (s : bytes) : bytes :=
  match fuel with
  | O => s
  | S fuel => match strip_any ps s with Some r => trim_start_fuel ps fuel r | None => s end
  end.

(** [str::trim]: every step drops at least one byte, so the length is
    enough fuel. *)
Definition trim_start (s : bytes) : bytes := trim_start_fuel white_space (length s) s.
Definition trim_end (s : bytes) : bytes :=
  reverse (trim_start_fuel (map reverse white_space) (length s) (reverse s)).
Definition trim (s : bytes) : bytes := trim_end (trim_start s).

(** ** Parsing unsigned integers ([str::parse] for [u8], [u16], [u32])

    An optional [+], then at least one digit; overflow is an error. *)
Fixpoint parse_digits (max acc : Z) (s : bytes) : option Z :=
  match s with
  | [] => Some acc
  | c :: s =>
      if is_ascii_digit c then
        let acc := (acc * 10 + (Z.of_N (byte_val c) - 48))%Z in
        if (acc <=? max)%Z then parse_digits max acc s else None
      else None
  end.

Definition parse_uint (max : Z) (s : bytes) : option Z :=
  match s with
  | [] => None
  | c :: s' =>
      let digits := if decide (c = "+"%char) then s' else s in
      match digits with [] => None | _ => parse_digits max 0 digits end
  end.

Definition parse_u8 : bytes -> option Z := parse_uint 255.
Definition parse_u16 : bytes -> option Z := parse_uint 65535.
Definition parse_u32 : bytes -> option Z := parse_uint u32_max.

Example split_ex : split dot (b! "a..b") = [b! "a"; b! ""; b! "b"].
Proof. reflexivity. Qed.
Example trim_ex : trim (b! "  x y ") = b! "x y".
Proof. reflexivity. Qed.
Example parse_ex : (parse_u16 (b! "65535"), parse_u16 (b! "+7"), parse_u16 (b! "65536"), parse_u16 (b! "-1"))
  = (Some 65535%Z, Some 7%Z, None, None).
Proof. reflexivity. Qed.

(** [str::to_lowercase] folds the whole of Unicode. Its tables are not
    modelled: it is a function that agrees with ASCII folding on ASCII. *)
Class UnicodeLower := {
  to_lowercase : bytes -> bytes;
  to_lowercase_ascii s : is_ascii s = true -> to_lowercase s = to_ascii_lowercase s;
}.

(** The instance that folds ASCII letters and keeps every other byte. *)
#[export] Program Instance ascii_only_lower : UnicodeLower | 100 :=
  {| to_lowercase := to_ascii_lowercase |}.
Next Obligation. done. Qed.

(** ** Lemmas *)

Lemma byte_lower_idemp c : byte_lower (byte_lower c) = byte_lower c.
Proof. destruct c as [[] [] [] [] [] [] [] []]; reflexivity. Qed.

Lemma to_ascii_lowercase_idemp s :
  to_ascii_lowercase (to_ascii_lowercase s) = to_ascii_lowercase s.
Proof.
  unfold to_ascii_lowercase. rewrite <- list_fmap_compose.
  apply list_fmap_ext. intros i c _. apply byte_lower_idemp.
Qed.

Lemma byte_lower_id c : is_ascii_uppercase c = false -> byte_lower c = c.
Proof. unfold byte_lower. by intros ->. Qed.

Lemma byte_lower_not_upper c : is_ascii_uppercase (byte_lower c) = false.
Proof. destruct c as [[] [] [] [] [] [] [] []]; reflexivity. Qed.

Lemma byte_lower_dot c : byte_lower c = dot <-> c = dot.
Proof.
  unfold dot. split; [|by intros ->].
  destruct c as [[] [] [] [] [] [] [] []]; vm_compute; intros; (discriminate || reflexivity).
Qed.

Lemma lowercase_id s : has_uppercase s = false -> to_ascii_lowercase s = s.
Proof.
  unfold has_uppercase. induction s as [|c s IH]; simpl; [done|].
  rewrite orb_false_iff. intros [Hc Hs].
  change (byte_lower c :: to_ascii_lowercase s = c :: s).
  f_equal; [by apply byte_lower_id|by apply IH].
Qed.

Lemma length_lowercase s : length (to_ascii_lowercase s) = length s.
Proof. apply length_fmap. Qed.

Lemma lowercase_app a b :
  to_ascii_lowercase (a ++ b) = to_ascii_lowercase a ++ to_ascii_lowercase b.
Proof. apply fmap_app. Qed.

Lemma eq_ignore_ascii_case_spec a b :
  eq_ignore_ascii_case a b = true <-> to_ascii_lowercase a = to_ascii_lowercase b.
Proof. apply bool_decide_eq_true. Qed.

Lemma strip_prefix_Some p s r : strip_prefix p s = Some r <-> s = p ++ r.
Proof.
  revert s. induction p as [|c p IH]; intros s; simpl; [naive_solver|].
  destruct s as [|d s]; [naive_solver|]. case_decide; [rewrite IH|]; naive_solver.
Qed.

Lemma strip_suffix_Some p s r : strip_suffix p s = Some r <-> s = r ++ p.
Proof.
  unfold strip_suffix. rewrite fmap_Some. split.
  - intros (x & Hx & ->). apply strip_prefix_Some in Hx.
    rewrite <- (reverse_involutive s), Hx, reverse_app, !reverse_involutive. done.
  - intros ->. exists (reverse r). rewrite reverse_involutive. split; [|done].
    apply strip_prefix_Some. apply reverse_app.
Qed.

Lemma starts_with_spec p s : starts_with p s = true <-> exists r, s = p ++ r.
Proof.
  unfold starts_with. rewrite bool_decide_eq_true. unfold is_Some.
  by setoid_rewrite strip_prefix_Some.
Qed.

Lemma ends_with_spec p s : ends_with p s = true <-> exists r, s = r ++ p.
Proof.
  unfold ends_with. rewrite bool_decide_eq_true. unfold is_Some.
  by setoid_rewrite strip_suffix_Some.
Qed.

Lemma contains_spec needle s :
  contains needle s = true <-> exists a b, s = a ++ needle ++ b.
Proof.
  induction s as [|c s IH]; simpl; rewrite orb_true_iff, starts_with_spec.
  - split; [intros [[r Hr]|]; [by exists [], r|done]|].
    intros (a & b & H). left. destruct a; [|done]. by exists b.
  - rewrite IH. split.
    + intros [[r Hr]|(a & b & ->)]; [by exists [], r|by exists (c :: a), b].
    + intros ([|d a] & b & H); [left; by exists b|right]. simplify_eq/=. by exists a, b.
Qed.

Lemma contains_byte_spec c s : contains_byte c s = true <-> c ∈ s.
Proof.
  unfold contains_byte. rewrite existsb_exists. setoid_rewrite bool_decide_eq_true.
  setoid_rewrite <- list_elem_of_In. naive_solver.
Qed.

Lemma contains_byte_false c s : contains_byte c s = false <-> c ∉ s.
Proof. rewrite <- not_true_iff_false, contains_byte_spec. done. Qed.

Lemma drop_while_spec p s :
  exists k, s = k ++ drop_while p s /\ Forall (fun c => p c = true) k /\
    forall c, head (drop_while p s) = Some c -> p c = false.
Proof.
  induction s as [|c s (k & Hk & Hall & Hhd)]; simpl.
  - by exists [].
  - destruct (p c) eqn:E.
    + exists (c :: k). split_and!; [simpl; by f_equal|by constructor|done].
    + exists []. split_and!; [done|done|]. by intros ? [= <-].
Qed.

(** Trimming removes exactly the trailing run of the byte. *)
Lemma trim_end_byte_spec c s :
  exists n, s = trim_end_byte c s ++ replicate n c /\ last (trim_end_byte c s) <> Some c.
Proof.
  unfold trim_end_byte.
  destruct (drop_while_spec (fun d => bool_decide (d = c)) (reverse s)) as (k & Hk & Hall & Hhd).
  exists (length k). split.
  - rewrite <- (reverse_involutive s) at 1. rewrite Hk at 1. rewrite reverse_app. f_equal.
    assert (E : k = replicate (length k) c).
    { clear Hk. induction Hall as [|d k Hd _ IH]; [done|]. simpl.
      apply bool_decide_eq_true in Hd as ->. by f_equal. }
    rewrite E at 1. apply reverse_replicate.
  - rewrite last_reverse. intros H. apply Hhd in H. by rewrite bool_decide_eq_true_2 in H.
Qed.

Lemma trim_end_byte_id c s : last s <> Some c -> trim_end_byte c s = s.
Proof.
  intros H. destruct (trim_end_byte_spec c s) as ([|n] & E & _); [by rewrite app_nil_r in E|].
  exfalso. apply H. rewrite E. rewrite replicate_S_end, app_assoc. by rewrite last_snoc.
Qed.

Lemma has_uppercase_app a b : has_uppercase (a ++ b) = has_uppercase a || has_uppercase b.
Proof. apply existsb_app. Qed.

(** ** Splitting at a byte and joining again *)

Fixpoint join (c : ascii) (ws : list bytes) : bytes :=
  match ws with
  | [] => []
  | [w] => w
  | w :: ws => w ++ c :: join c ws
  end.

Lemma split_ne c s : split c s <> [].
Proof.
  unfold split. destruct s as [|d s]; simpl; [done|].
  case_bool_decide; [done|]. by destruct (split_by _ s).
Qed.

Lemma split_cons_sep c s : split c (c :: s) = [] :: split c s.
Proof. unfold split; simpl. by rewrite bool_decide_eq_true_2. Qed.

Lemma split_cons_other c d s :
  d <> c -> exists w ws, split c s = w :: ws /\ split c (d :: s) = (d :: w) :: ws.
Proof.
  intros Hne. pose proof (split_ne c s) as Hs. unfold split in *; simpl.
  rewrite bool_decide_eq_false_2 by done.
  destruct (split_by _ s) as [|w ws]; [done|]. by exists w, ws.
Qed.

Lemma split_app_sep c a b : split c (a ++ c :: b) = split c a ++ split c b.
Proof.
  induction a as [|d a IH]; simpl; [apply split_cons_sep|].
  destruct (decide (d = c)) as [->|Hne].
  - by rewrite !split_cons_sep, IH.
  - destruct (split_cons_other c d a Hne) as (w & ws & E1 & ->).
    destruct (split_cons_other c d (a ++ c :: b) Hne) as (w' & ws' & E2 & ->).
    rewrite IH, E1 in E2. by simplify_eq/=.
Qed.

Lemma split_no_sep c s : c ∉ s -> split c s = [s].
Proof.
  induction s as [|d s IH]; [done|]. intros [Hd Hs]%not_elem_of_cons.
  destruct (split_cons_other c d s) as (w & ws & E & ->); [done|].
  rewrite IH in E by done. by simplify_eq.
Qed.

Lemma split_pieces c s : Forall (fun w => c ∉ w) (split c s).
Proof.
  induction s as [|d s IH]; [repeat constructor; by apply not_elem_of_nil|].
  destruct (decide (d = c)) as [->|Hne].
  - rewrite split_cons_sep. constructor; [by apply not_elem_of_nil|done].
  - destruct (split_cons_other c d s Hne) as (w & ws & E & ->).
    rewrite E in IH. inversion IH; subst. constructor; [|done].
    by apply not_elem_of_cons.
Qed.

Lemma join_cons c w ws : ws <> [] -> join c (w :: ws) = w ++ c :: join c ws.
Proof. by destruct ws. Qed.

Lemma join_app c ws vs :
  ws <> [] -> vs <> [] -> join c (ws ++ vs) = join c ws ++ c :: join c vs.
Proof.
  intros Hws Hvs. induction ws as [|w ws IH]; [done|].
  destruct ws as [|w' ws]; [by destruct vs|].
  change ((w :: w' :: ws) ++ vs) with (w :: (w' :: ws) ++ vs).
  rewrite !join_cons by done. rewrite IH by done. by rewrite <- app_assoc.
Qed.

Lemma join_split c s : join c (split c s) = s.
Proof.
  induction s as [|d s IH]; [done|]. destruct (decide (d = c)) as [->|Hne].
  - rewrite split_cons_sep, join_cons by apply split_ne. by rewrite IH.
  - destruct (split_cons_other c d s Hne) as (w & ws & E & ->).
    rewrite E in IH. destruct ws as [|w' ws]; simpl in *; by rewrite IH.
Qed.

Lemma split_join c ws : ws <> [] -> Forall (fun w => c ∉ w) ws -> split c (join c ws) = ws.
Proof.
  intros Hne Hall. induction Hall as [|w ws Hw Hws IH]; [done|].
  destruct ws as [|w' ws]; [by apply split_no_sep|].
  rewrite join_cons, split_app_sep, IH, split_no_sep by done. done.
Qed.

Lemma split_inj c a b : split c a = split c b -> a = b.
Proof. intros H. by rewrite <- (join_split c a), <- (join_split c b), H. Qed.

Lemma rsplit_inj c a b : rsplit c a = rsplit c b -> a = b.
Proof. unfold rsplit. intros H%(inj reverse). by apply (split_inj c). Qed.

Lemma rsplit_ne c s : rsplit c s <> [].
Proof.
  unfold rsplit. intros H. apply (f_equal reverse) in H.
  rewrite reverse_involutive in H. by apply (split_ne c s).
Qed.

Lemma rsplit_pieces c s : Forall (fun w => c ∉ w) (rsplit c s).
Proof. apply Forall_reverse, split_pieces. Qed.

Lemma rsplit_app_sep c a b : rsplit c (a ++ c :: b) = rsplit c b ++ rsplit c a.
Proof. unfold rsplit. by rewrite split_app_sep, reverse_app. Qed.

(** Case folding keeps the dots. *)
Lemma split_lower s : split dot (to_ascii_lowercase s) = to_ascii_lowercase <$> split dot s.
Proof.
  induction s as [|d s IH]; [done|].
  change (to_ascii_lowercase (d :: s)) with (byte_lower d :: to_ascii_lowercase s).
  destruct (decide (d = dot)) as [->|Hne].
  - change (byte_lower dot) with dot. rewrite !split_cons_sep, IH. done.
  - destruct (split_cons_other dot d s Hne) as (w & ws & E & ->).
    destruct (split_cons_other dot (byte_lower d) (to_ascii_lowercase s)) as (w' & ws' & E' & ->).
    { by rewrite byte_lower_dot. }
    rewrite IH, E in E'. by simplify_eq/=.
Qed.

Lemma rsplit_lower s : rsplit dot (to_ascii_lowercase s) = to_ascii_lowercase <$> rsplit dot s.
Proof. unfold rsplit. by rewrite split_lower, fmap_reverse. Qed.

(** A host's labels, read from the top-level domain, extend those of a
    suffix exactly when the host ends with a dot and the suffix. *)
Lemma rsplit_extends c host suf :
  (exists ls, ls <> [] /\ rsplit c host = rsplit c suf ++ ls) <->
  (exists pre, host = pre ++ c :: suf).
Proof.
  split.
  - intros (ls & Hls & H). exists (join c (reverse ls)).
    apply (f_equal reverse) in H. unfold rsplit in H.
    rewrite reverse_app, !reverse_involutive in H.
    rewrite <- (join_split c host), H, join_app, join_split; [done| |apply split_ne].
    intros E. apply Hls. by rewrite <- (reverse_involutive ls), E.
  - intros [pre ->]. exists (rsplit c pre). split; [apply rsplit_ne|].
    apply rsplit_app_sep.
Qed.

(** The number of pieces is the number of separators plus one. *)
Definition count_byte (c : ascii) (s : bytes) : nat :=
  length (filter (fun d => d = c) s).

Lemma length_split c s : length (split c s) = S (count_byte c s).
Proof.
  unfold count_byte. induction s as [|d s IH]; [done|].
  destruct (decide (d = c)) as [->|Hne].
  - rewrite split_cons_sep, filter_cons_True by done. simpl. by rewrite IH.
  - destruct (split_cons_other c d s Hne) as (w & ws & E & ->).
    rewrite filter_cons_False by done. rewrite <- IH, E. done.
Qed.

Lemma length_rsplit c s : length (rsplit c s) = S (count_byte c s).
Proof. unfold rsplit. by rewrite length_reverse, length_split. Qed.

(** ** Byte-wise lexicographic order ([[u8]::cmp]) *)

Fixpoint bytes_cmp (a b : bytes) : comparison :=
  match a, b with
  | [], [] => Eq
  | [], _ :: _ => Lt
  | _ :: _, [] => Gt
  | x :: a, y :: b =>
      match (byte_val x ?= byte_val y)%N with Eq => bytes_cmp a b | c => c end
  end.

Definition bytes_le (a b : bytes) : Prop := bytes_cmp a b <> Gt.

#[export] Instance bytes_le_dec : RelDecision bytes_le.
Proof. intros a b. unfold bytes_le. apply _. Defined.

Lemma byte_val_inj x y : byte_val x = byte_val y -> x = y.
Proof.
  unfold byte_val. intros H. rewrite <- (ascii_N_embedding x), <- (ascii_N_embedding y).
  by rewrite H.
Qed.

Lemma bytes_cmp_eq a b : bytes_cmp a b = Eq <-> a = b.
Proof.
  revert b. induction a as [|x a IH]; intros [|y b]; simpl; try done.
  destruct (N.compare_spec (byte_val x) (byte_val y)) as [E|E|E].
  - rewrite IH. apply byte_val_inj in E. naive_solver.
  - split; [done|]. intros; simplify_eq. lia.
  - split; [done|]. intros; simplify_eq. lia.
Qed.

Lemma bytes_cmp_antisym a b : bytes_cmp b a = CompOpp (bytes_cmp a b).
Proof.
  revert b. induction a as [|x a IH]; intros [|y b]; simpl; try done.
  rewrite (N.compare_antisym (byte_val x)).
  destruct (byte_val x ?= byte_val y)%N; simpl; [apply IH|done|done].
Qed.

Lemma bytes_cmp_lt_trans a b c : bytes_cmp a b = Lt -> bytes_cmp b c = Lt -> bytes_cmp a c = Lt.
Proof.
  revert b c. induction a as [|x a IH]; intros [|y b] [|z c]; simpl; try done.
  destruct (N.compare_spec (byte_val x) (byte_val y)) as [E|E|E],
    (N.compare_spec (byte_val y) (byte_val z)) as [E'|E'|E'],
    (N.compare_spec (byte_val x) (byte_val z)) as [E''|E''|E'']; try done; try lia.
  apply IH.
Qed.

#[export] Instance bytes_le_total : Total bytes_le.
Proof.
  intros a b. unfold bytes_le. rewrite (bytes_cmp_antisym a b).
  destruct (bytes_cmp a b); simpl; auto.
Qed.

#[export] Instance bytes_le_trans : Transitive bytes_le.
Proof.
  intros a b c. unfold bytes_le. intros H1 H2.
  destruct (bytes_cmp a b) eqn:E1; [|clear H1|done].
  - apply bytes_cmp_eq in E1. by subst.
  - destruct (bytes_cmp b c) eqn:E2; [|clear H2|done].
    + apply bytes_cmp_eq in E2. subst. by rewrite E1.
    + by rewrite (bytes_cmp_lt_trans _ _ _ E1 E2).
Qed.

(** ** Trimming ASCII text *)

Definition is_ascii_space (c : ascii) : bool := in_range 9 13 c || bool_decide (c = " "%char).

Lemma strip_any_ascii c s :
  is_ascii_byte c = true ->
  strip_any white_space (c :: s) = if is_ascii_space c then Some s else None.
Proof. by destruct c as [[] [] [] [] [] [] [] []]. Qed.

Lemma strip_any_ascii_rev c s :
  is_ascii_byte c = true ->
  strip_any (map reverse white_space) (c :: s) = if is_ascii_space c then Some s else None.
Proof. by destruct c as [[] [] [] [] [] [] [] []]. Qed.

Lemma trim_start_fuel_length ps fuel s : length (trim_start_fuel ps fuel s) <= length s.
Proof.
  assert (Hstrip : forall ps s r, strip_any ps s = Some r -> length r <= length s).
  { clear. induction ps as [|p ps IH]; intros s r; simpl; [done|].
    destruct (strip_prefix p s) as [r'|] eqn:E; [|apply IH].
    intros [= ->]. apply strip_prefix_Some in E as ->. rewrite length_app. lia. }
  revert s. induction fuel as [|fuel IH]; intros s; simpl; [done|].
  destruct (strip_any ps s) as [r|] eqn:E; [|done]. apply Hstrip in E. specialize (IH r). lia.
Qed.

Lemma trim_start_head c s :
  is_ascii_byte c = true -> is_ascii_space c = false -> trim_start (c :: s) = c :: s.
Proof. intros Ha Hc. unfold trim_start. cbn [trim_start_fuel length]. by rewrite strip_any_ascii, Hc. Qed.

Lemma trim_start_space c s :
  is_ascii_byte c = true -> is_ascii_space c = true -> length (trim_start (c :: s)) <= length s.
Proof.
  intros Ha Hc. unfold trim_start. cbn [trim_start_fuel length]. rewrite strip_any_ascii, Hc by done.
  apply trim_start_fuel_length.
Qed.

Lemma trim_end_length s : length (trim_end s) <= length s.
Proof.
  unfold trim_end. rewrite length_reverse.
  pose proof (trim_start_fuel_length (map reverse white_space) (length s) (reverse s)) as H.
  by rewrite length_reverse in H.
Qed.

Lemma trim_end_last c s :
  is_ascii_byte c = true -> is_ascii_space c = false -> trim_end (s ++ [c]) = s ++ [c].
Proof.
  intros Ha Hc. unfold trim_end. rewrite reverse_snoc, length_app, Nat.add_1_r. cbn [trim_start_fuel].
  rewrite strip_any_ascii_rev, Hc by done. by rewrite <- reverse_snoc, reverse_involutive.
Qed.

Lemma trim_end_space c s :
  is_ascii_byte c = true -> is_ascii_space c = true -> length (trim_end (s ++ [c])) <= length s.
Proof.
  intros Ha Hc. unfold trim_end. rewrite reverse_snoc, length_app, Nat.add_1_r. cbn [trim_start_fuel].
  rewrite strip_any_ascii_rev, Hc by done. rewrite length_reverse.
  pose proof (trim_start_fuel_length (map reverse white_space) (length s) (reverse s)) as H.
  by rewrite length_reverse in H.
Qed.

Lemma trim_ascii s :
  is_ascii s = true -> s <> [] ->
  trim s = s <-> (forall c, head s = Some c -> is_ascii_space c = false) /\
    (forall c, last s = Some c -> is_ascii_space c = false).
Proof.
  intros Ha Hne. unfold is_ascii in Ha. rewrite forallb_forall in Ha.
  assert (Hin : forall c, c ∈ s -> is_ascii_byte c = true) by (intros c Hc; by apply Ha, list_elem_of_In).
  clear Ha. unfold trim. destruct s as [|c s]; [done|]. split.
  - intros E. assert (Hc : is_ascii_space c = false).
    { destruct (is_ascii_space c) eqn:Ec; [|done]. apply (f_equal length) in E.
      pose proof (trim_end_length (trim_start (c :: s))).
      pose proof (trim_start_space c s (Hin c ltac:(set_solver)) Ec). simpl in E. lia. }
    split; [by intros d [= <-]|]. intros d Hd.
    rewrite trim_start_head in E by (done || apply Hin; set_solver).
    apply last_Some in Hd as [init Hd]. rewrite Hd in E. destruct (is_ascii_space d) eqn:Ed; [|done].
    apply (f_equal length) in E. rewrite length_app in E. simpl in E.
    pose proof (trim_end_space d init (Hin d ltac:(rewrite Hd; set_solver)) Ed). lia.
  - intros [Hh Hl]. rewrite trim_start_head by (by apply Hh || apply Hin; set_solver).
    destruct (last (c :: s)) as [d|] eqn:Ed; [|by apply last_None in Ed].
    apply last_Some in Ed as [init Ed]. rewrite Ed in *. apply trim_end_last; [apply Hin; set_solver|].
    by apply Hl.
Qed.

(** A prefix that is no space in front of trimmed text. *)
Lemma trim_app_ascii p s :
  is_ascii p = true -> is_ascii s = true -> p <> [] -> s <> [] ->
  (forall c, head p = Some c -> is_ascii_space c = false) -> trim s = s -> trim (p ++ s) = p ++ s.
Proof.
  intros Hp Hs Hpn Hsn Hh Ht. apply trim_ascii in Ht as [_ Hl]; [|done..].
  apply trim_ascii.
  - unfold is_ascii in *. by rewrite forallb_app, Hp, Hs.
  - by destruct p.
  - split.
    + destruct p as [|x p]; [done|]. done.
    + intros c. destruct s as [|x s]; [done|]. rewrite last_app_cons. apply Hl.
Qed.

(** Trimming only removes. *)
Lemma trim_start_fuel_incl ps fuel s c : c ∈ trim_start_fuel ps fuel s -> c ∈ s.
Proof.
  assert (Hstrip : forall ps s r, strip_any ps s = Some r -> exists p, s = p ++ r).
  { clear. induction ps as [|p ps IH]; intros s r; simpl; [done|].
    destruct (strip_prefix p s) as [r'|] eqn:E; [|apply IH].
    intros [= ->]. apply strip_prefix_Some in E. by exists p. }
  revert s. induction fuel as [|fuel IH]; intros s; simpl; [done|].
  destruct (strip_any ps s) as [r|] eqn:E; [|done]. intros H%IH.
  apply Hstrip in E as [p ->]. apply elem_of_app. by right.
Qed.

Lemma trim_incl s c : c ∈ trim s -> c ∈ s.
Proof.
  unfold trim, trim_end. rewrite elem_of_reverse. intros H%trim_start_fuel_incl.
  rewrite elem_of_reverse in H. by apply trim_start_fuel_incl in H.
Qed.
