(* ===== verification/Trim.v ===== *)
(** * White space at the ends of a string, and bounded splitting

    [str::trim] removes exactly the white space around the text: the
    encodings of white space form a prefix-free and suffix-free code, so
    removing it is insensitive to how it is cut. [splitn] is the bounded
    split of the rule parsers. *)

From S2P Require Import Prelude Strings.

(** ** Stripping the words of a code *)

Section Code.
Variable ps : list bytes.
Hypothesis ps_ne : forall p, p ∈ ps -> p <> [].
Hypothesis ps_free : forall p s, p ∈ ps -> strip_any ps (p ++ s) = Some s.

Lemma strip_any_Some qs s r : strip_any qs s = Some r -> exists p, p ∈ qs /\ s = p ++ r.
Proof.
  induction qs as [|q qs IH]; simpl; [done|]. destruct (strip_prefix q s) as [r'|] eqn:E.
  - intros [= ->]. apply strip_prefix_Some in E. exists q. split; [by left|done].
  - intros (p & Hp & ->)%IH. exists p. split; [by right|done].
Qed.

Lemma strip_any_None s : strip_any ps s = None <-> forall p r, p ∈ ps -> s <> p ++ r.
Proof.
  split.
  - intros H p r Hp ->. by rewrite ps_free in H.
  - intros H. destruct (strip_any ps s) as [r|] eqn:E; [|done].
    apply strip_any_Some in E as (p & Hp & ->). by destruct (H p r Hp).
Qed.

Lemma strip_any_nil : strip_any ps [] = None.
Proof.
  apply strip_any_None. intros p r Hp E. symmetry in E. apply app_eq_nil in E as [-> _]. by apply (ps_ne []).
Qed.

Lemma trim_fuel_spec fuel s :
  length s <= fuel ->
  strip_any ps (trim_start_fuel ps fuel s) = None /\
  exists l, Forall (.∈ ps) l /\ s = mjoin l ++ trim_start_fuel ps fuel s.
Proof.
  revert s. induction fuel as [|fuel IH]; intros s Hs; simpl.
  { destruct s; [|simpl in Hs; lia]. split; [apply strip_any_nil|]. by exists []. }
  destruct (strip_any ps s) as [r|] eqn:E; [|split; [done|by exists []]].
  apply strip_any_Some in E as (p & Hp & ->). pose proof (ps_ne p Hp).
  destruct (IH r) as (Hn & l & Hl & E).
  { rewrite length_app in Hs. destruct p; [done|]. simpl in Hs. lia. }
  split; [done|]. exists (p :: l). split; [by constructor|]. simpl. rewrite <- app_assoc. by rewrite <- E.
Qed.

Lemma trim_fuel_unique fuel l r :
  length (mjoin l ++ r) <= fuel -> Forall (.∈ ps) l -> strip_any ps r = None ->
  trim_start_fuel ps fuel (mjoin l ++ r) = r.
Proof.
  intros Hf Hl Hr. revert fuel Hf. induction Hl as [|p l Hp _ IH]; intros fuel Hf; simpl in *.
  { destruct fuel; simpl; [done|]. by rewrite Hr. }
  rewrite <- app_assoc in *. pose proof (ps_ne p Hp). rewrite length_app in Hf. destruct fuel as [|fuel].
  { destruct p; [done|]. simpl in Hf. lia. }
  simpl. rewrite ps_free by done. apply IH. destruct p; [done|]. simpl in Hf. lia.
Qed.

End Code.

(** ** The code of white space *)

Definition spaces (s : bytes) : Prop := exists l, Forall (.∈ white_space) l /\ s = mjoin l.

Lemma white_space_cases (P : bytes -> Prop) :
  Forall P white_space -> forall p, p ∈ white_space -> P p.
Proof. rewrite Forall_forall. auto. Qed.

Lemma white_ne p : p ∈ white_space -> p <> [].
Proof. revert p. apply white_space_cases. by repeat constructor. Qed.

Lemma white_free p s : p ∈ white_space -> strip_any white_space (p ++ s) = Some s.
Proof. intros Hp. revert p Hp. apply white_space_cases. repeat constructor. Qed.

Abbreviation rev_space := (map reverse white_space).

Lemma rev_white_ne p : p ∈ rev_space -> p <> [].
Proof.
  intros (q & -> & Hq)%list_elem_of_fmap E. apply (white_ne q Hq).
  by rewrite <- (reverse_involutive q), E.
Qed.

Lemma rev_white_free p s : p ∈ rev_space -> strip_any rev_space (p ++ s) = Some s.
Proof.
  intros (q & -> & Hq)%list_elem_of_fmap. revert q Hq. apply white_space_cases. repeat constructor.
Qed.

(** No white space starts with a byte that continues another. *)
Lemma white_boundary p q c x r :
  p ∈ white_space -> q ∈ white_space -> p = x :: r -> c ∈ r -> head q <> Some c.
Proof.
  intros Hp Hq -> Hc Hh. destruct q as [|d q]; [done|]. injection Hh as ->.
  assert (H : forallb (fun p => forallb (fun q =>
    negb (contains_byte (default zero (head q)) (tail p))) white_space) white_space = true) by reflexivity.
  rewrite forallb_forall in H. specialize (H _ (proj1 (list_elem_of_In _ _) Hp)).
  rewrite forallb_forall in H. specialize (H _ (proj1 (list_elem_of_In _ _) Hq)).
  apply negb_true_iff, contains_byte_false in H. by apply H.
Qed.

Lemma spaces_nil : spaces [].
Proof. by exists []. Qed.

Lemma spaces_app a b : spaces a -> spaces b -> spaces (a ++ b).
Proof.
  intros (l & Hl & ->) (k & Hk & ->). exists (l ++ k). split; [by apply Forall_app|]. by rewrite list.join_app.
Qed.


Lemma spaces_not c a : spaces a -> (forall p, p ∈ white_space -> c ∉ p) -> c ∉ a.
Proof.
  intros (l & Hl & ->) Hc (p & Hp & Hin)%list_elem_of_join. rewrite Forall_forall in Hl. by apply (Hc p), Hp; auto.
Qed.

Lemma trim_start_spec s : strip_any white_space (trim_start s) = None /\ exists a, spaces a /\ s = a ++ trim_start s.
Proof.
  destruct (trim_fuel_spec white_space white_ne white_free (length s) s) as (Hn & l & Hl & E); [done|].
  split; [done|]. exists (mjoin l). split; [by exists l|done].
Qed.

Lemma trim_start_unique a r :
  spaces a -> strip_any white_space r = None -> trim_start (a ++ r) = r.
Proof. intros (l & Hl & ->) Hr. by apply trim_fuel_unique; auto using white_ne, white_free. Qed.

Lemma trim_start_spaces a s : spaces a -> trim_start (a ++ s) = trim_start s.
Proof.
  intros Ha. destruct (trim_start_spec s) as (Hn & b & Hb & E). rewrite E at 1. rewrite app_assoc.
  apply trim_start_unique; [by apply spaces_app|done].
Qed.

Lemma mjoin_rev l : reverse (mjoin l) = mjoin (reverse <$> reverse l) :> bytes.
Proof.
  induction l as [|w l IH]; [done|]. simpl. rewrite reverse_app, reverse_cons, fmap_app, list.join_app, IH.
  simpl. by rewrite app_nil_r.
Qed.

Lemma trim_end_spec s :
  strip_any rev_space (reverse (trim_end s)) = None /\ exists b, spaces b /\ s = trim_end s ++ b.
Proof.
  unfold trim_end. rewrite reverse_involutive.
  destruct (trim_fuel_spec rev_space rev_white_ne rev_white_free (length s) (reverse s)) as (Hn & l & Hl & E).
  { by rewrite length_reverse. }
  split; [done|]. exists (reverse (mjoin l)). split.
  - rewrite mjoin_rev. eexists. split; [|done]. apply Forall_fmap, Forall_reverse.
    eapply Forall_impl; [exact Hl|]. intros p (q & -> & Hq)%list_elem_of_fmap. simpl. by rewrite reverse_involutive.
  - rewrite <- reverse_app, <- E. by rewrite reverse_involutive.
Qed.

Lemma trim_end_unique r b :
  spaces b -> strip_any rev_space (reverse r) = None -> trim_end (r ++ b) = r.
Proof.
  intros (l & Hl & ->) Hr. unfold trim_end. rewrite reverse_app, mjoin_rev.
  rewrite trim_fuel_unique; [apply reverse_involutive|apply rev_white_ne|apply rev_white_free| | |done].
  - rewrite <- mjoin_rev, <- reverse_app. by rewrite length_reverse.
  - apply Forall_fmap, Forall_reverse. eapply Forall_impl; [exact Hl|]. intros p Hp. by apply list_elem_of_fmap_2.
Qed.

Lemma trim_end_spaces s b : spaces b -> trim_end (s ++ b) = trim_end s.
Proof.
  intros Hb. destruct (trim_end_spec s) as (Hn & a & Ha & E). rewrite E at 1. rewrite <- app_assoc.
  apply trim_end_unique; [by apply spaces_app|done].
Qed.

(** Text that does not start with white space still does not when white
    space follows. *)
Lemma strip_any_spaces r b :
  r <> [] -> spaces b -> strip_any white_space r = None -> strip_any white_space (r ++ b) = None.
Proof.
  intros Hr (l & Hl & ->) Hn. apply strip_any_None; [apply white_free|]. intros p x Hp E.
  rewrite (strip_any_None _ white_free) in Hn. apply app_eq_app in E as (k & [[-> E]|[-> E]]).
  { by apply (Hn p k Hp). }
  destruct k as [|c k]; [rewrite app_nil_r in Hp; apply (Hn r [] Hp); by rewrite app_nil_r|].
  destruct Hl as [|q l Hq Hl]; [done|]. simpl in E. pose proof (white_ne q Hq). destruct q as [|d q]; [done|].
  injection E as -> _. destruct r as [|y r]; [done|].
  eapply (white_boundary _ _ c y (r ++ c :: k) Hp Hq); [reflexivity| |reflexivity].
  apply elem_of_app. right. left.
Qed.

(** [trim] forgets white space around the text. *)
Lemma trim_spaces a s b : spaces a -> spaces b -> trim (a ++ s ++ b) = trim s.
Proof.
  intros Ha Hb. unfold trim. rewrite trim_start_spaces by done.
  destruct (trim_start_spec s) as (Hn & c & Hc & E). destruct (decide (trim_start s = [])) as [E0|Hne].
  - rewrite E0 in *. rewrite app_nil_r in E. subst s.
    pose proof (trim_start_unique (c ++ b) [] (spaces_app _ _ Hc Hb) eq_refl) as E.
    rewrite app_nil_r in E. by rewrite E.
  - rewrite E at 1. rewrite <- app_assoc, trim_start_unique; [|done|by apply strip_any_spaces].
    by apply trim_end_spaces.
Qed.

Lemma trim_spec s : exists a b, spaces a /\ spaces b /\ s = a ++ trim s ++ b.
Proof.
  destruct (trim_start_spec s) as (_ & a & Ha & E). destruct (trim_end_spec (trim_start s)) as (_ & b & Hb & E').
  exists a, b. split_and!; [done|done|]. unfold trim. by rewrite <- E', <- E.
Qed.

Lemma trim_idemp s : trim (trim s) = trim s.
Proof. destruct (trim_spec s) as (a & b & Ha & Hb & E). rewrite E at 2. by rewrite trim_spaces. Qed.

Lemma trim_length s : length (trim s) <= length s.
Proof. destruct (trim_spec s) as (a & b & _ & _ & E). rewrite E at 2. rewrite !length_app. lia. Qed.

Lemma trim_start_trim s : trim s = s -> trim_start s = s.
Proof.
  intros E. destruct (trim_start_spec s) as (_ & a & _ & E').
  pose proof (trim_end_length (trim_start s)) as Hl. unfold trim in E. rewrite E in Hl.
  rewrite E' in Hl at 1. rewrite length_app in Hl. destruct a; [done|]. simpl in Hl. lia.
Qed.

(** ** Bounded splitting *)

(** [str::splitn]: at most [n] pieces, the last one unsplit. *)
Fixpoint splitn (n : nat) (c : ascii) (s : bytes) : list bytes :=
  match n with
  | 0 => []
  | 1 => [s]
  | S n =>
      match split_once c s with
      | Some (w, rest) => w :: splitn n c rest
      | None => [s]
      end
  end.

Lemma split_once_Some c s a b : split_once c s = Some (a, b) <-> s = a ++ c :: b /\ c ∉ a.
Proof.
  unfold split_once. revert a. induction s as [|d s IH]; intros a; simpl.
  { split; [done|]. intros [E _]. by destruct a. }
  case_decide as Hd.
  - subst d. simpl. split.
    + intros [= <- <-]. split; [done|apply not_elem_of_nil].
    + intros [E Hc]. destruct a as [|x a]; [by simplify_eq/=|]. simplify_eq/=. destruct Hc. by left.
  - destruct (find_byte c s) as [i|] eqn:E; simpl in *.
    + split.
      * intros [= <- <-]. destruct (IH (take i s)) as [[E' Hc] _]; [done|]. split; [simpl; by f_equal|].
        rewrite not_elem_of_cons. by split.
      * intros [E' Hc]. destruct a as [|x a]; [by simplify_eq/=|]. simplify_eq/=.
        apply not_elem_of_cons in Hc as [Hc1 Hc2]. pose proof (proj2 (IH a) (conj eq_refl Hc2)) as [= E1 E2]. by rewrite E1, E2.
    + split; [done|]. intros [E' Hc]. destruct a as [|x a]; [by simplify_eq/=|]. simplify_eq/=.
      apply not_elem_of_cons in Hc as [Hc1 Hc2]. by pose proof (proj2 (IH a) (conj eq_refl Hc2)).
Qed.

Lemma split_once_None c s : split_once c s = None <-> c ∉ s.
Proof.
  split.
  - intros H Hc. apply list_elem_of_split in Hc as (a & b & ->).
    revert a H. cut (forall a, split_once c (a ++ c :: b) <> None); [naive_solver|].
    intros a H. unfold split_once in H. destruct (find_byte c (a ++ c :: b)) eqn:E; [done|]. clear H.
    induction a as [|x a IH]; simpl in E; case_decide; try done. destruct (find_byte c (a ++ c :: b)); [done|auto].
  - intros Hc. destruct (split_once c s) as [[a b]|] eqn:E; [|done]. apply split_once_Some in E as [-> _].
    destruct Hc. apply elem_of_app. right. left.
Qed.

Lemma splitn_sep n c a b : 2 <= n -> c ∉ a -> splitn n c (a ++ c :: b) = a :: splitn (n - 1) c b.
Proof.
  intros Hn Ha. destruct n as [|[|n]]; [lia..|]. simpl.
  by rewrite (proj2 (split_once_Some c (a ++ c :: b) a b)).
Qed.

Lemma splitn_none n c s : 1 <= n -> c ∉ s -> splitn n c s = [s].
Proof.
  intros Hn Hs. destruct n as [|[|n]]; [lia|done|]. cbn [splitn]. by rewrite (proj2 (split_once_None c s)).
Qed.
