(* ===== verification/Show.v ===== *)
(** * Printing numbers

    [to_string] of unsigned integers and [{:p}] of addresses, as far as the
    rule compiler's fingerprints use them: different numbers print
    differently, with digits only. *)

From S2P Require Import Prelude Strings.

Definition digit_char (d : N) : ascii := ascii_of_N (if (d <? 10)%N then 48 + d else 87 + d).
Definition char_digit (c : ascii) : N :=
  if is_ascii_digit c then byte_val c - 48 else byte_val c - 87.

Fixpoint digits (fuel : nat) (b n : N) (acc : list N) : list N :=
  match fuel with
  | O => acc
  | S fuel =>
      let acc := (n `mod` b)%N :: acc in
      if (n / b =? 0)%N then acc else digits fuel b (n / b) acc
  end.

(** The fuel is the number of bits, which no radix exceeds. *)
Definition show_radix (b n : N) : bytes := digit_char <$> digits (S (N.size_nat n)) b n [].

(** Decimal, for the integers of the model that print: never negative. *)
Definition show_dec (z : Z) : bytes := show_radix 10 (Z.to_N z).

(** [{:p}]. *)
Definition show_ptr (p : N) : bytes := b! "0x" ++ show_radix 16 p.

Example show_dec_ex : (show_dec 0, show_dec 65535) = (b! "0", b! "65535").
Proof. reflexivity. Qed.
Example show_ptr_ex : show_ptr 48879 = b! "0xbeef".
Proof. reflexivity. Qed.

Definition value (b : N) (ds : list N) (a : N) : N := foldl (fun a d => a * b + d)%N a ds.

Lemma digits_value fuel b n acc :
  (2 <= b)%N -> (n < 2 ^ N.of_nat fuel)%N ->
  0 < fuel -> value b (digits fuel b n acc) 0 = value b acc n.
Proof.
  intros Hb. revert n acc. induction fuel as [|fuel IH]; intros n acc Hn Hf; [lia|].
  cbn [digits]. pose proof (N.div_mod n b ltac:(lia)) as Hdm.
  destruct (N.eqb_spec (n / b) 0) as [E|E].
  - unfold value. cbn [foldl]. f_equal. lia.
  - rewrite IH.
    + unfold value. cbn [foldl]. f_equal. lia.
    + apply N.Div0.div_lt_upper_bound. rewrite Nat2N.inj_succ, N.pow_succ_r' in Hn. nia.
    + destruct fuel; [|lia]. simpl in Hn. rewrite N.div_small in E by lia. done.
Qed.

Lemma digits_small fuel b n acc :
  (0 < b)%N -> Forall (fun d => d < b)%N acc -> Forall (fun d => d < b)%N (digits fuel b n acc).
Proof.
  intros Hb. revert n acc. induction fuel as [|fuel IH]; intros n acc Hacc; [done|].
  cbn [digits]. pose proof (N.mod_upper_bound n b ltac:(lia)).
  destruct (_ =? _)%N; [by constructor|]. apply IH. by constructor.
Qed.

Lemma size_nat_bound n : (n < 2 ^ N.of_nat (N.size_nat n))%N.
Proof.
  destruct n as [|p]; [done|]. simpl.
  assert (H : forall p, (N.pos p < 2 ^ N.of_nat (Pos.size_nat p))%N).
  { clear p. induction p as [p IH|p IH|]; cbn [Pos.size_nat]; rewrite ?Nat2N.inj_succ, ?N.pow_succ_r';
      [|..]; try lia; simpl; lia. }
  apply H.
Qed.

Definition all_digits : list N := [0; 1; 2; 3; 4; 5; 6; 7; 8; 9; 10; 11; 12; 13; 14; 15]%N.

Lemma digit_cases d : (d < 16)%N -> d ∈ all_digits.
Proof.
  intros H. unfold all_digits. rewrite !elem_of_cons.
  destruct (decide (d = 15)%N); [tauto|].
  lia.
Qed.

Lemma digit_forall (P : N -> Prop) : Forall P all_digits -> forall d, (d < 16)%N -> P d.
Proof. rewrite Forall_forall. intros H d Hd. apply H. by apply digit_cases. Qed.

Lemma char_digit_char : forall d, (d < 16)%N -> char_digit (digit_char d) = d.
Proof. apply digit_forall. repeat constructor. Qed.

Lemma digit_char_alnum : forall d, (d < 16)%N -> is_ascii_alphanumeric (digit_char d) = true.
Proof. apply digit_forall. repeat constructor. Qed.

Lemma show_radix_value b n :
  (2 <= b <= 16)%N -> value b (char_digit <$> show_radix b n) 0 = n.
Proof.
  intros Hb. unfold show_radix. rewrite <- list_fmap_compose.
  assert (Hs := digits_small (S (N.size_nat n)) b n [] ltac:(lia) (Forall_nil_2 _)).
  assert (E : (char_digit ∘ digit_char) <$> digits (S (N.size_nat n)) b n [] = digits (S (N.size_nat n)) b n []).
  { induction Hs as [|d l Hd _ IH]; [done|]. rewrite fmap_cons, IH. f_equal. apply char_digit_char. lia. }
  rewrite E. apply digits_value; [lia| |lia].
  rewrite Nat2N.inj_succ, N.pow_succ_r'. pose proof (size_nat_bound n). lia.
Qed.

Lemma show_radix_inj b n n' : (2 <= b <= 16)%N -> show_radix b n = show_radix b n' -> n = n'.
Proof. intros Hb E. by rewrite <- (show_radix_value b n), <- (show_radix_value b n'), E. Qed.

Lemma show_radix_alnum b n c :
  (2 <= b <= 16)%N -> is_ascii_alphanumeric c = false -> c ∉ show_radix b n.
Proof.
  intros Hb Hc Hin. unfold show_radix in Hin. apply list_elem_of_fmap in Hin as (d & -> & Hd).
  pose proof (digits_small (S (N.size_nat n)) b n [] ltac:(lia) (Forall_nil_2 _)) as Hs.
  rewrite Forall_forall in Hs. specialize (Hs _ Hd). rewrite digit_char_alnum in Hc; [done|lia].
Qed.

Lemma show_dec_inj z z' : (0 <= z)%Z -> (0 <= z')%Z -> show_dec z = show_dec z' -> z = z'.
Proof. intros H H' E. apply show_radix_inj in E; lia. Qed.

Lemma show_dec_alnum z c : is_ascii_alphanumeric c = false -> c ∉ show_dec z.
Proof. apply show_radix_alnum. lia. Qed.

Lemma show_ptr_inj p q : show_ptr p = show_ptr q -> p = q.
Proof. intros E. apply app_inv_head in E. apply show_radix_inj in E; [done|lia]. Qed.

Lemma show_ptr_alnum p c : is_ascii_alphanumeric c = false -> c ∉ show_ptr p.
Proof.
  intros Hc. unfold show_ptr. rewrite elem_of_app. intros [H|H]; [|by eapply show_radix_alnum in H; [|lia|]].
  change (b! "0x") with ["0"%char; "x"%char] in H.
  rewrite !elem_of_cons in H. destruct H as [->|[->|H]]; [done|done|by apply not_elem_of_nil in H].
Qed.
