(* ===== verification/Vec.v ===== *)
(** * Vectors and slices: indexing, binary search, sorting

    [Vec] and slice operations of the Rust standard library. An operation
    that can panic returns an [option] whose [None] is the panic. *)

From S2P Require Import Prelude.
From stdpp Require Import sorting.

Section Vec.
Context {A : Type}.
Implicit Types l : list A.

(** [l[i] = x]. *)
Definition vset (i : nat) (x : A) (l : list A) : option (list A) :=
  if i <? length l then Some (<[i := x]> l) else None.

(** [&l[start..end]]. *)
Definition slice (start stop : nat) (l : list A) : option (list A) :=
  if (start <=? stop) && (stop <=? length l) then Some (take (stop - start) (drop start l))
  else None.

(** A loop whose body can panic. *)
Fixpoint foldlM {S} (f : S -> A -> option S) (s : S) (l : list A) : option S :=
  match l with
  | [] => Some s
  | x :: l => s' ← f s x; foldlM f s' l
  end.

Lemma vset_Some i x l : i < length l -> vset i x l = Some (<[i := x]> l).
Proof. intros H. unfold vset. by rewrite (proj2 (Nat.ltb_lt _ _) H). Qed.

Lemma slice_Some start stop l :
  start <= stop <= length l -> slice start stop l = Some (take (stop - start) (drop start l)).
Proof.
  intros [H1 H2]. unfold slice.
  by rewrite (proj2 (Nat.leb_le _ _) H1), (proj2 (Nat.leb_le _ _) H2).
Qed.

(** A slice is determined by its entries. *)
Lemma slice_intro start stop l k :
  stop = start + length k -> stop <= length l ->
  (forall j, j < length k -> l !! (start + j) = k !! j) ->
  slice start stop l = Some k.
Proof.
  intros -> Hlen Hk. rewrite slice_Some by lia. f_equal.
  apply list_eq. intros j. replace (start + length k - start) with (length k) by lia.
  destruct (decide (j < length k)).
  - by rewrite lookup_take_lt, lookup_drop, Hk by done.
  - rewrite lookup_take_ge, lookup_ge_None_2 by lia. done.
Qed.

Lemma slice_lookup start stop l k :
  slice start stop l = Some k ->
  stop = start + length k /\ stop <= length l /\
  forall j, j < length k -> l !! (start + j) = k !! j.
Proof.
  unfold slice. destruct (Nat.leb_spec start stop), (Nat.leb_spec stop (length l));
    simpl; intros; simplify_eq.
  assert (Hk : length (take (stop - start) (drop start l)) = stop - start).
  { rewrite length_take, length_drop. lia. }
  rewrite Hk. split_and!; [lia|done|].
  intros j Hj. by rewrite lookup_take_lt, lookup_drop.
Qed.

(** Overwriting [start..stop] with as many elements. *)
Lemma slice_splice_eq start stop l g :
  start <= stop <= length l -> length g = stop - start ->
  slice start stop (take start l ++ g ++ drop stop l) = Some g.
Proof.
  intros Hs Hg. apply slice_intro; [lia| |].
  - rewrite !length_app, length_take, length_drop. lia.
  - intros j Hj. rewrite lookup_app_r, lookup_app_l; rewrite length_take; [|lia..].
    f_equal. lia.
Qed.

Lemma slice_splice_ne start stop l g a b k :
  start <= stop <= length l -> length g = stop - start -> b <= start \/ stop <= a ->
  slice a b l = Some k ->
  slice a b (take start l ++ g ++ drop stop l) = Some k.
Proof.
  intros Hs Hg Hab (E & Hb & Hk)%slice_lookup. apply slice_intro; [done| |].
  - rewrite !length_app, length_take, length_drop. lia.
  - intros j Hj. rewrite <- Hk by done. destruct Hab.
    + rewrite lookup_app_l, lookup_take_lt by (rewrite ?length_take; lia). done.
    + rewrite !lookup_app_r, lookup_drop by (rewrite ?length_take; lia).
      rewrite length_take. f_equal. lia.
Qed.

Lemma foldlM_app {S} (f : S -> A -> option S) s l k :
  foldlM f s (l ++ k) = s' ← foldlM f s l; foldlM f s' k.
Proof.
  revert s. induction l as [|x l IH]; intros s; [done|]; simpl.
  by destruct (f s x); simpl.
Qed.

(** A loop invariant: [P] holds of the elements seen so far and the state. *)
Lemma foldlM_invariant {S} (P : list A -> S -> Prop) (f : S -> A -> option S) s l :
  P [] s ->
  (forall seen x rest s, l = seen ++ x :: rest -> P seen s ->
    exists s', f s x = Some s' /\ P (seen ++ [x]) s') ->
  exists s', foldlM f s l = Some s' /\ P l s'.
Proof.
  intros H0 Hstep.
  cut (forall rest seen s, l = seen ++ rest -> P seen s ->
         exists s', foldlM f s rest = Some s' /\ P l s').
  { intros H. by apply (H l []). }
  induction rest as [|x rest IH]; intros seen s' -> Hs; simpl.
  - rewrite app_nil_r in *. by exists s'.
  - destruct (Hstep seen x rest s' eq_refl Hs) as (s'' & -> & Hs''). simpl.
    apply (IH (seen ++ [x])); [by rewrite <- app_assoc|done].
Qed.

(** ** [slice::binary_search_by]

    The loop keeps a window of [size] elements from [base] and halves it;
    [inl] is [Ok] and [inr] is [Err]. The comparator can panic. *)
Fixpoint bisect (f : A -> option comparison) (l : list A) (fuel base size : nat) : option nat :=
  if size <=? 1 then Some base
  else match fuel with
  | O => None
  | S fuel =>
      let half := Nat.div2 size in
      let mid := base + half in
      x ← l !! mid;
      c ← f x;
      bisect f l fuel (match c with Gt => base | _ => mid end) (size - half)
  end.

Definition binary_search_by (f : A -> option comparison) (l : list A) : option (nat + nat) :=
  match l with
  | [] => Some (inr 0)
  | _ =>
      base ← bisect f l (length l) 0 (length l);
      x ← l !! base;
      c ← f x;
      Some (match c with
            | Eq => inl base
            | Lt => inr (S base)
            | Gt => inr base
            end)
  end.

(** [slice::partition_point]: a binary search that never answers [Equal]. *)
Definition partition_point (p : A -> bool) (l : list A) : nat :=
  match binary_search_by (fun x => Some (if p x then Lt else Gt)) l with
  | Some (inl i) | Some (inr i) => i
  | None => 0
  end.

(** The list is split by the comparator: first [Lt], then [Eq], then [Gt]. *)
Definition ordered_by (f : A -> comparison) (l : list A) : Prop :=
  forall i j x y, i < j -> l !! i = Some x -> l !! j = Some y ->
    (f x = Gt -> f y = Gt) /\ (f y = Lt -> f x = Lt).

(** The loop keeps: nothing before [base] is [Gt] unless [base] is 0, and
    everything from [base + size] on is [Gt]. *)
Lemma bisect_spec (g : A -> comparison) l fuel base size :
  ordered_by g l -> 1 <= size -> size <= S fuel -> base + size <= length l ->
  (base <> 0 -> exists x, l !! base = Some x /\ g x <> Gt) ->
  (forall i x, base + size <= i -> l !! i = Some x -> g x = Gt) ->
  exists r, bisect (fun x => Some (g x)) l fuel base size = Some r /\
    r < length l /\
    (r <> 0 -> exists x, l !! r = Some x /\ g x <> Gt) /\
    (forall i x, S r <= i -> l !! i = Some x -> g x = Gt).
Proof.
  intros Hord. revert base size.
  induction fuel as [|fuel IH]; intros base size Hs Hf Hb Hlo Hhi; simpl;
    destruct (Nat.leb_spec size 1).
  - exists base. split_and!; [done|lia|done|]. intros i x Hi. apply Hhi. lia.
  - lia.
  - exists base. split_and!; [done|lia|done|]. intros i x Hi. apply Hhi. lia.
  - pose proof (Nat.div2_odd size) as Hodd.
    assert (Hhalf : 1 <= Nat.div2 size < size) by (destruct (Nat.odd size); simpl in *; lia).
    destruct (lookup_lt_is_Some_2 l (base + Nat.div2 size)) as [x Hx]; [lia|].
    rewrite Hx. simpl. destruct (g x) eqn:Egx.
    + apply IH; [lia|lia|lia| |].
      * intros _. exists x. by rewrite Egx.
      * intros i y Hi. apply Hhi. lia.
    + apply IH; [lia|lia|lia| |].
      * intros _. exists x. by rewrite Egx.
      * intros i y Hi. apply Hhi. lia.
    + apply IH; [lia|lia|lia|done|].
      intros i y Hi Hy. destruct (decide (i = base + Nat.div2 size)) as [->|Hne].
      { by simplify_eq. }
      destruct (decide (base + Nat.div2 size < i)) as [Hgt|Hgt].
      * by apply (Hord _ _ _ _ Hgt Hx Hy).
      * lia.
Qed.

Lemma binary_search_by_spec (g : A -> comparison) l :
  ordered_by g l ->
  exists r, binary_search_by (fun x => Some (g x)) l = Some r /\
  match r with
  | inl i => exists x, l !! i = Some x /\ g x = Eq
  | inr i =>
      i <= length l /\
      (forall j x, j < i -> l !! j = Some x -> g x = Lt) /\
      (forall j x, i <= j -> l !! j = Some x -> g x = Gt)
  end.
Proof.
  intros Hord. destruct l as [|a l'].
  { exists (inr 0). split_and!; simpl; [done|lia|by intros ? ? ?; lia|by intros ? ? _ ?]. }
  set (l := a :: l') in *. unfold binary_search_by.
  destruct (bisect_spec g l (length l) 0 (length l)) as (r & Hr & Hlt & Hlo & Hhi);
    [done|simpl; lia|lia|lia|done| |].
  { intros i x Hi Hx. apply lookup_lt_Some in Hx. lia. }
  destruct (lookup_lt_is_Some_2 l r Hlt) as [x Hx].
  assert (Hbefore : g x = Lt -> forall j y, j < S r -> l !! j = Some y -> g y = Lt).
  { intros Hg j y Hj Hy. destruct (decide (j = r)) as [->|Hne]; [by simplify_eq|].
    by apply (Hord j r y x); [lia|..]. }
  subst l. cbn [length] in *. rewrite Hr. cbn [mbind option_bind]. rewrite Hx. cbn [mbind option_bind].
  eexists. split; [reflexivity|]. destruct (g x) eqn:Egx.
  - by exists x.
  - split_and!; [lia|by apply Hbefore|done].
  - assert (r = 0) as ->.
    { destruct (decide (r = 0)) as [|Hr0]; [done|].
      destruct (Hlo Hr0) as (y & Hy & Hg). simplify_eq. }
    split_and!; [lia|by intros; lia|].
    intros j y _ Hy. destruct j as [|j]; [by simplify_eq|]. apply (Hhi (S j)); [lia|done].
Qed.

(** Only the answers on the elements matter. *)
Lemma bisect_ext f g l fuel base size :
  (forall x, x ∈ l -> f x = g x) -> bisect f l fuel base size = bisect g l fuel base size.
Proof.
  intros H. revert base size. induction fuel as [|fuel IH]; intros base size; [done|]; simpl.
  destruct (size <=? 1); [done|].
  destruct (l !! _) as [x|] eqn:E; [|done]; simpl.
  rewrite (H x) by (by eapply list_elem_of_lookup_2). destruct (g x); [apply IH|done].
Qed.

Lemma binary_search_by_ext f g l :
  (forall x, x ∈ l -> f x = g x) -> binary_search_by f l = binary_search_by g l.
Proof.
  intros H. unfold binary_search_by. destruct l as [|a l']; [done|].
  rewrite (bisect_ext f g _ _ _ _ H). destruct (bisect _ _ _ _ _); [|done].
  cbn [mbind option_bind]. destruct (_ !! _) as [x|] eqn:E; [|done]. cbn [mbind option_bind].
  by rewrite (H x) by (by eapply list_elem_of_lookup_2).
Qed.

(** The predicate holds of a prefix and of nothing else. *)
Definition partitioned (p : A -> bool) (l : list A) : Prop :=
  forall i j x y, i < j -> l !! i = Some x -> l !! j = Some y -> p y = true -> p x = true.

Lemma partition_point_spec p l :
  partitioned p l ->
  partition_point p l <= length l /\
  (forall j x, j < partition_point p l -> l !! j = Some x -> p x = true) /\
  (forall j x, partition_point p l <= j -> l !! j = Some x -> p x = false).
Proof.
  intros Hp. unfold partition_point.
  destruct (binary_search_by_spec (fun x => if p x then Lt else Gt) l) as (r & -> & Hr).
  { intros i j x y Hij Hx Hy. pose proof (Hp i j x y Hij Hx Hy) as H.
    destruct (p x), (p y); naive_solver. }
  destruct r as [i|i].
  - destruct Hr as (x & _ & Hx). by destruct (p x).
  - destruct Hr as (Hi & Hlo & Hhi). split_and!; [done|..].
    + intros j x Hj Hx. specialize (Hlo j x Hj Hx). by destruct (p x).
    + intros j x Hj Hx. specialize (Hhi j x Hj Hx). by destruct (p x).
Qed.

End Vec.

Lemma bisect_fmap {A B} (g : A -> B) f l fuel base size :
  bisect f (g <$> l) fuel base size = bisect (fun x => f (g x)) l fuel base size.
Proof.
  revert base size. induction fuel as [|fuel IH]; intros base size; [done|]; simpl.
  destruct (size <=? 1); [done|]. rewrite list_lookup_fmap.
  destruct (l !! _) as [x|]; [|done]; simpl. destruct (f (g x)); [apply IH|done].
Qed.

Lemma partition_point_fmap {A B} (g : A -> B) p l :
  partition_point p (g <$> l) = partition_point (fun x => p (g x)) l.
Proof.
  unfold partition_point, binary_search_by. destruct l as [|a l']; [done|].
  set (l := a :: l'). rewrite bisect_fmap, length_fmap.
  change (g <$> l) with (g a :: (g <$> l')). change (g a :: (g <$> l')) with (g <$> l).
  destruct (bisect _ _ _ _ _) as [base|]; [|done]. cbn [mbind option_bind].
  rewrite list_lookup_fmap. subst l. by destruct ((a :: l') !! base).
Qed.

Example partition_point_ex : partition_point (fun x => x <=? 5) [1; 3; 5; 7; 9] = 3.
Proof. reflexivity. Qed.
