(* ===== verification/Trie.v ===== *)
(** * The domain trie while it is being built (crates/meow-trie/src/trie.rs)

    The builder ([Builder]) is a node vector, a map of labelled edges and a
    label interner. This file models inserts and the walks that answer
    queries, and shows that the structure is a map from slots (a reversed
    label path and a match kind) to values. *)

From S2P Require Import Prelude Strings.

Module Trie.

Definition MASK_EXACT : Z := 1.
Definition MASK_STAR : Z := 2.
Definition MASK_DOT : Z := 4.

Inductive MatchKind := Exact | Star | Dot.
Inductive InsertMode := FirstWins | Overwrite.

#[export] Instance MatchKind_eq_dec : EqDecision MatchKind.
Proof. solve_decision. Defined.

(** [u32::try_from(len)]; [None] stands for the panic of [expect]. *)
Definition u32_try_from (n : nat) : option nat :=
  if (Z.of_nat n <=? u32_max)%Z then Some n else None.

Section Builder.
Context {T : Type}.

Record BuildNode := mkBuildNode {
  bn_label : nat;
  bn_exact : option T;
  bn_star : option T;
  bn_dot : option T;
}.

Record Builder := mkBuilder {
  nodes : list BuildNode;
  edges : gmap (nat * nat) nat;
  labels : gmap bytes nat;
}.

Definition empty_node (label : nat) : BuildNode := mkBuildNode label None None None.

Definition new_builder : Builder := mkBuilder [] ∅ ∅.

Definition ensure_root (b : Builder) : Builder :=
  match nodes b with
  | [] => mkBuilder (nodes b ++ [empty_node 0]) (edges b) (<[ [] := 0 ]> (labels b))
  | _ :: _ => b
  end.

(** The interner half of [child_or_insert]. *)
Definition intern_label (ls : gmap bytes nat) (label : bytes) : option (nat * gmap bytes nat) :=
  match ls !! label with
  | Some id => Some (id, ls)
  | None => id ← u32_try_from (size ls); Some (id, <[label := id]> ls)
  end.

Definition child_or_insert (b : Builder) (parent : nat) (label : bytes) :
    option (nat * Builder) :=
  '(id, ls) ← intern_label (labels b) label;
  match edges b !! (parent, id) with
  | Some c => Some (c, mkBuilder (nodes b) (edges b) ls)
  | None =>
      next ← u32_try_from (length (nodes b));
      Some (next, mkBuilder (nodes b ++ [empty_node id]) (<[(parent, id) := next]> (edges b)) ls)
  end.

Definition child (b : Builder) (parent : nat) (label : bytes) : option nat :=
  id ← labels b !! label; edges b !! (parent, id).

(** The stack buffer and the heap copy hold the same folded label. *)
Definition child_ci (b : Builder) (parent : nat) (label : bytes) : option nat :=
  if negb (has_uppercase label) then child b parent label
  else child b parent (to_ascii_lowercase label).

(** [nodes[i]]; the index is in range for every node a walk reaches. *)
Definition node_at (b : Builder) (i : nat) : BuildNode :=
  default (empty_node 0) (nodes b !! i).

Definition node_slot (kind : MatchKind) (n : BuildNode) : option T :=
  match kind with Exact => bn_exact n | Star => bn_star n | Dot => bn_dot n end.

Definition write_slot (mode : InsertMode) (old : option T) (value : T) : option T :=
  match mode with
  | FirstWins => match old with Some v => Some v | None => Some value end
  | Overwrite => Some value
  end.

Definition set_slot (kind : MatchKind) (mode : InsertMode) (value : T) (n : BuildNode) : BuildNode :=
  match kind with
  | Exact => mkBuildNode (bn_label n) (write_slot mode (bn_exact n) value) (bn_star n) (bn_dot n)
  | Star => mkBuildNode (bn_label n) (bn_exact n) (write_slot mode (bn_star n) value) (bn_dot n)
  | Dot => mkBuildNode (bn_label n) (bn_exact n) (bn_star n) (write_slot mode (bn_dot n) value)
  end.

(** The label loop of [insert_into_tree]. *)
Fixpoint descend (b : Builder) (node : nat) (path : list bytes) : option (nat * Builder) :=
  match path with
  | [] => Some (node, b)
  | label :: path => '(c, b) ← child_or_insert b node label; descend b c path
  end.

Definition update_node (b : Builder) (i : nat) (f : BuildNode -> BuildNode) : Builder :=
  mkBuilder (alter f i (nodes b)) (edges b) (labels b).

Definition builder_insert (b : Builder) (base_domain : bytes) (value : T)
    (kind : MatchKind) (mode : InsertMode) : option Builder :=
  '(node, b) ← descend (ensure_root b) 0 (rsplit dot base_domain);
  Some (update_node b node (set_slot kind mode value)).

(** ** The representation invariant *)

Record wf (b : Builder) : Prop := {
  wf_empty : nodes b = [] -> edges b = ∅ /\ labels b = ∅;
  wf_root : nodes b <> [] -> labels b !! [] = Some 0;
  wf_root_label : bn_label (node_at b 0) = 0;
  wf_labels_bound a i : labels b !! a = Some i -> i < size (labels b);
  wf_labels_inj a a' i : labels b !! a = Some i -> labels b !! a' = Some i -> a = a';
  wf_labels_surj i : i < size (labels b) -> exists a, labels b !! a = Some i;
  wf_labels_dot a i : labels b !! a = Some i -> dot ∉ a;
  wf_edges p l c : edges b !! (p, l) = Some c ->
    p < c < length (nodes b) /\ l < size (labels b) /\ bn_label (node_at b c) = l;
  wf_edges_inj pl pl' c :
    edges b !! pl = Some c -> edges b !! pl' = Some c -> pl = pl';
  wf_reached c : 0 < c < length (nodes b) -> exists pl, edges b !! pl = Some c;
}.

Lemma wf_new : wf new_builder.
Proof.
  split; simpl; intros; try done; try (rewrite lookup_empty in *; done); try lia.
  rewrite map_size_empty in *. lia.
Qed.

Lemma wf_ensure_root b : wf b -> wf (ensure_root b).
Proof.
  intros Hwf. unfold ensure_root. destruct (nodes b) eqn:E; [|done].
  destruct (wf_empty b Hwf E) as [He Hl]. rewrite He, Hl.
  split; simpl; intros; try done; try lia.
  - rewrite insert_empty, map_size_singleton in *.
    apply lookup_singleton_Some in H as [_ <-]. lia.
  - rewrite insert_empty in *.
    apply lookup_singleton_Some in H as [<- _], H0 as [<- _]. done.
  - rewrite insert_empty, map_size_singleton in *. exists [].
    rewrite lookup_singleton_eq. f_equal. lia.
  - rewrite insert_empty in *. apply lookup_singleton_Some in H as [<- _].
    by apply not_elem_of_nil.
Qed.

Lemma ensure_root_nodes b : nodes (ensure_root b) <> [].
Proof. unfold ensure_root. destruct (nodes b) eqn:E; simpl; [done|by rewrite E]. Qed.

Lemma node_label_bound b i :
  wf b -> nodes b <> [] -> i < length (nodes b) -> bn_label (node_at b i) < size (labels b).
Proof.
  intros Hwf Hne Hi. destruct (decide (i = 0)) as [->|Hi0].
  - rewrite (wf_root_label b Hwf). eapply (wf_labels_bound b Hwf), (wf_root b Hwf Hne).
  - destruct (wf_reached b Hwf i) as [[p l] Hpl]; [lia|].
    destruct (wf_edges b Hwf _ _ _ Hpl) as (_ & ? & ->). done.
Qed.

(** Following an edge. *)
Lemma child_Some b p l c :
  child b p l = Some c <-> exists i, labels b !! l = Some i /\ edges b !! (p, i) = Some c.
Proof. unfold child. rewrite bind_Some. done. Qed.

Lemma child_bounds b p l c : wf b -> child b p l = Some c -> p < c < length (nodes b).
Proof. intros Hwf (i & _ & He)%child_Some. by apply (wf_edges b Hwf) in He as [? _]. Qed.

Lemma child_inj b p l p' l' c :
  wf b -> child b p l = Some c -> child b p' l' = Some c -> p = p' /\ l = l'.
Proof.
  intros Hwf (i & Hi & He)%child_Some (i' & Hi' & He')%child_Some.
  pose proof (wf_edges_inj b Hwf _ _ _ He He'). simplify_eq. split; [done|].
  by eapply wf_labels_inj.
Qed.

(** Walking a path of labels from a node. *)
Fixpoint walk (b : Builder) (node : nat) (path : list bytes) : option nat :=
  match path with
  | [] => Some node
  | l :: path => c ← child b node l; walk b c path
  end.

Lemma walk_app b node p q :
  walk b node (p ++ q) = n ← walk b node p; walk b n q.
Proof.
  revert node. induction p as [|l p IH]; intros node; [done|]; simpl.
  destruct (child b node l); [apply IH|done].
Qed.

Lemma walk_snoc b node p l :
  walk b node (p ++ [l]) = n ← walk b node p; child b n l.
Proof. rewrite walk_app. destruct (walk b node p); [|done]. simpl. by destruct (child _ _ _). Qed.

Lemma walk_ge b node p n : wf b -> walk b node p = Some n -> node + length p <= n.
Proof.
  intros Hwf. revert node. induction p as [|l p IH]; simpl; intros node.
  - intros; simplify_eq; lia.
  - intros (c & Hc & H)%bind_Some. apply child_bounds in Hc; [|done].
    apply IH in H. lia.
Qed.

Lemma walk_lt b node p n :
  wf b -> node < length (nodes b) -> walk b node p = Some n -> n < length (nodes b).
Proof.
  intros Hwf. revert node. induction p as [|l p IH]; simpl; intros node Hn.
  - by intros; simplify_eq.
  - intros (c & Hc & H)%bind_Some. apply child_bounds in Hc; [|done].
    eapply IH; [|done]. lia.
Qed.

(** Distinct paths end at distinct nodes. *)
Lemma walk_inj b p q n :
  wf b -> walk b 0 p = Some n -> walk b 0 q = Some n -> p = q.
Proof.
  intros Hwf. revert q n. induction p as [|l p IH] using rev_ind; intros q n Hp Hq.
  - simplify_eq/=. destruct q as [|l q]; [done|].
    apply walk_ge in Hq; [|done]. simpl in Hq. lia.
  - destruct q as [|l' q _] using rev_ind.
    { simplify_eq/=. apply walk_ge in Hp; [|done]. rewrite length_app in Hp. simpl in Hp. lia. }
    rewrite walk_snoc, bind_Some in Hp, Hq.
    destruct Hp as (m & Hm & Hc), Hq as (m' & Hm' & Hc').
    destruct (child_inj b _ _ _ _ _ Hwf Hc Hc') as [-> ->].
    by rewrite (IH _ _ Hm Hm').
Qed.

(** The contents of the trie: the value in the slot of a path and a kind. *)
Definition slot (b : Builder) (path : list bytes) (kind : MatchKind) : option T :=
  n ← walk b 0 path; node_slot kind (node_at b n).

(** ** Growing the builder keeps its contents *)

Record extends (b b' : Builder) : Prop := {
  ext_labels : labels b ⊆ labels b';
  ext_edges : edges b ⊆ edges b';
  ext_nodes : exists k, nodes b' = nodes b ++ k /\ Forall (fun n => exists l, n = empty_node l) k;
  ext_old p l c : edges b' !! (p, l) = Some c -> c < length (nodes b) ->
    edges b !! (p, l) = Some c;
}.

Lemma extends_refl b : extends b b.
Proof. split; try done. exists []. by rewrite app_nil_r. Qed.

Lemma extends_length b b' : extends b b' -> length (nodes b) <= length (nodes b').
Proof. intros He. destruct (ext_nodes _ _ He) as (k & -> & _). rewrite length_app. lia. Qed.

Lemma extends_trans b1 b2 b3 : extends b1 b2 -> extends b2 b3 -> extends b1 b3.
Proof.
  intros H1 H2. pose proof (extends_length _ _ H1). split.
  - etrans; [apply H1|apply H2].
  - etrans; [apply H1|apply H2].
  - destruct (ext_nodes _ _ H1) as (k1 & E1 & Hk1), (ext_nodes _ _ H2) as (k2 & E2 & Hk2).
    exists (k1 ++ k2). rewrite E2, E1, app_assoc. split; [done|]. by apply Forall_app.
  - intros p l c Hc Hlt. apply (ext_old _ _ H1); [|done].
    apply (ext_old _ _ H2); [done|lia].
Qed.

Lemma extends_child b b' p l c : extends b b' -> child b p l = Some c -> child b' p l = Some c.
Proof.
  intros He (i & Hi & Hc)%child_Some. apply child_Some. exists i. split.
  - by eapply lookup_weaken; [|apply He].
  - by eapply lookup_weaken; [|apply He].
Qed.

Lemma extends_walk b b' n p m : extends b b' -> walk b n p = Some m -> walk b' n p = Some m.
Proof.
  intros He. revert n. induction p as [|l p IH]; simpl; [done|]. intros n.
  intros (c & Hc & H)%bind_Some. rewrite (extends_child _ _ _ _ _ He Hc). simpl. by apply IH.
Qed.

Lemma extends_child_old b b' p l c :
  wf b -> wf b' -> extends b b' ->
  child b' p l = Some c -> c < length (nodes b) -> child b p l = Some c.
Proof.
  intros Hwf Hwf' He (i & Hi & Hc)%child_Some Hlt.
  pose proof (ext_old _ _ He _ _ _ Hc Hlt) as Hc'.
  destruct (wf_edges b Hwf _ _ _ Hc') as (_ & Hil & _).
  destruct (wf_labels_surj b Hwf i Hil) as [a Ha].
  pose proof (lookup_weaken _ _ _ _ Ha (ext_labels _ _ He)) as Ha'.
  rewrite (wf_labels_inj b' Hwf' _ _ _ Hi Ha'). apply child_Some. by exists i.
Qed.

Lemma extends_walk_old b b' p n :
  wf b -> wf b' -> extends b b' ->
  walk b' 0 p = Some n -> n < length (nodes b) -> walk b 0 p = Some n.
Proof.
  intros Hwf Hwf' He. revert n.
  induction p as [|l p IH] using rev_ind; intros n; [done|].
  rewrite !walk_snoc. intros (m & Hm & Hc)%bind_Some Hlt.
  pose proof (child_bounds _ _ _ _ Hwf' Hc).
  rewrite (IH m Hm) by lia. simpl. by eapply extends_child_old.
Qed.

Lemma extends_node_old b b' n :
  extends b b' -> n < length (nodes b) -> node_at b' n = node_at b n.
Proof.
  intros He Hn. unfold node_at. destruct (ext_nodes _ _ He) as (k & -> & _).
  by rewrite lookup_app_l.
Qed.

Lemma extends_node_new b b' n kind :
  extends b b' -> length (nodes b) <= n -> node_slot kind (node_at b' n) = None.
Proof.
  intros He Hn. unfold node_at. destruct (ext_nodes _ _ He) as (k & -> & Hk).
  rewrite lookup_app_r by done.
  destruct (k !! (n - length (nodes b))) as [x|] eqn:E; simpl; [|by destruct kind].
  destruct (Forall_lookup_1 _ _ _ _ Hk E) as [l ->]. by destruct kind.
Qed.

Lemma extends_slot b b' path kind :
  wf b -> wf b' -> nodes b <> [] -> extends b b' -> slot b' path kind = slot b path kind.
Proof.
  intros Hwf Hwf' Hne He. unfold slot.
  assert (0 < length (nodes b)) by (destruct (nodes b); simpl; [done|lia]).
  destruct (walk b 0 path) as [n|] eqn:E.
  - rewrite (extends_walk _ _ _ _ _ He E). simpl. f_equal.
    apply extends_node_old; [done|]. by eapply walk_lt; [| |exact E].
  - destruct (walk b' 0 path) as [n|] eqn:E'; [|done]. simpl.
    destruct (decide (n < length (nodes b))).
    + by rewrite (extends_walk_old b b' path n) in E.
    + apply (extends_node_new b); [done|lia].
Qed.

Lemma u32_try_from_Some n m : u32_try_from n = Some m -> m = n.
Proof. unfold u32_try_from. by destruct (_ <=? _)%Z; intros; simplify_eq. Qed.

(** Interning a fresh label. *)
Lemma wf_intern b label :
  wf b -> nodes b <> [] -> dot ∉ label -> labels b !! label = None ->
  wf (mkBuilder (nodes b) (edges b) (<[label := size (labels b)]> (labels b))).
Proof.
  intros Hwf Hne Hdot Hnone.
  assert (Hsz : size (<[label := size (labels b)]> (labels b)) = S (size (labels b)))
    by by apply map_size_insert_None.
  split; simpl; rewrite ?Hsz.
  - done.
  - intros _. rewrite lookup_insert_ne; [by apply wf_root|].
    intros ->. by rewrite (wf_root b Hwf Hne) in Hnone.
  - apply (wf_root_label b Hwf).
  - intros a i [[<- <-]|[_ H]]%lookup_insert_Some; [lia|].
    apply (wf_labels_bound b Hwf) in H. lia.
  - intros a a' i [[<- <-]|[Hn H]]%lookup_insert_Some
      [[<- Hi]|[Hn' H']]%lookup_insert_Some; try done.
    + apply (wf_labels_bound b Hwf) in H'. lia.
    + apply (wf_labels_bound b Hwf) in H. lia.
    + by eapply wf_labels_inj.
  - intros i Hi. destruct (decide (i = size (labels b))) as [->|Hn].
    + exists label. apply lookup_insert_eq.
    + destruct (wf_labels_surj b Hwf i) as [a Ha]; [lia|]. exists a.
      rewrite lookup_insert_ne; [done|]. intros ->. by rewrite Hnone in Ha.
  - intros a i [[<- _]|[_ H]]%lookup_insert_Some; [done|]. by eapply wf_labels_dot.
  - intros p l c H. destruct (wf_edges b Hwf _ _ _ H) as (? & ? & ?). split_and!; try done; lia.
  - apply (wf_edges_inj b Hwf).
  - apply (wf_reached b Hwf).
Qed.

(** Adding a fresh child under [parent]. *)
Lemma wf_add_child b parent id :
  wf b -> parent < length (nodes b) -> id < size (labels b) ->
  edges b !! (parent, id) = None ->
  wf (mkBuilder (nodes b ++ [empty_node id])
        (<[(parent, id) := length (nodes b)]> (edges b)) (labels b)).
Proof.
  intros Hwf Hp Hid Hnone.
  split; simpl; rewrite ?length_app; simpl.
  - intros H. apply app_nil in H as [? ?]. done.
  - intros _. apply (wf_root b Hwf). intros E. rewrite E in Hp. simpl in Hp. lia.
  - pose proof (wf_root_label b Hwf) as Hr. unfold node_at in *; simpl.
    by rewrite lookup_app_l by lia.
  - apply (wf_labels_bound b Hwf).
  - apply (wf_labels_inj b Hwf).
  - apply (wf_labels_surj b Hwf).
  - apply (wf_labels_dot b Hwf).
  - intros p l c [[E <-]|[_ H]]%lookup_insert_Some.
    + simplify_eq. split_and!; [lia|lia|done|]. unfold node_at; simpl.
      by rewrite lookup_app_r, Nat.sub_diag by lia.
    + destruct (wf_edges b Hwf _ _ _ H) as (? & ? & Hl). split_and!; [lia|lia|done|].
      unfold node_at in *; simpl. by rewrite lookup_app_l by lia.
  - intros pl pl' c [[<- <-]|[_ H]]%lookup_insert_Some
      [[<- Hc]|[_ H']]%lookup_insert_Some; try done.
    + destruct pl' as [p' l']. apply (wf_edges b Hwf) in H'. lia.
    + destruct pl as [p' l']. apply (wf_edges b Hwf) in H. lia.
    + by eapply wf_edges_inj.
  - intros c Hc. destruct (decide (c = length (nodes b))) as [->|Hn].
    + exists (parent, id). apply lookup_insert_eq.
    + destruct (wf_reached b Hwf c) as [pl Hpl]; [lia|]. exists pl.
      rewrite lookup_insert_ne; [done|]. intros <-. by rewrite Hnone in Hpl.
Qed.

Lemma intern_label_spec b label id ls :
  wf b -> nodes b <> [] -> dot ∉ label ->
  intern_label (labels b) label = Some (id, ls) ->
  let b' := mkBuilder (nodes b) (edges b) ls in
  wf b' /\ extends b b' /\ ls !! label = Some id.
Proof.
  intros Hwf Hne Hdot. unfold intern_label.
  destruct (labels b !! label) as [i|] eqn:E; simpl.
  - intros [= -> <-]. destruct b; simpl in *. split_and!; [done|apply extends_refl|done].
  - intros (i & ->%u32_try_from_Some & [= <- <-])%bind_Some. split_and!.
    + by apply wf_intern.
    + split; simpl; try done.
      * by apply insert_subseteq.
      * exists []. by rewrite app_nil_r.
    + apply lookup_insert_eq.
Qed.

Lemma child_or_insert_spec b parent label c b' :
  wf b -> parent < length (nodes b) -> dot ∉ label ->
  child_or_insert b parent label = Some (c, b') ->
  wf b' /\ extends b b' /\ child b' parent label = Some c.
Proof.
  intros Hwf Hp Hdot. unfold child_or_insert.
  intros ([id ls] & Hintern & H)%bind_Some.
  assert (Hne : nodes b <> []) by (intros E; rewrite E in Hp; simpl in Hp; lia).
  destruct (intern_label_spec b label id ls Hwf Hne Hdot Hintern) as (Hwf1 & He1 & Hid).
  destruct (edges b !! (parent, id)) as [c'|] eqn:Ee.
  - simplify_eq. split_and!; [done|done|]. apply child_Some. by exists id.
  - apply bind_Some in H as (next & ->%u32_try_from_Some & [= <- <-]).
    pose proof (wf_labels_bound _ Hwf1 _ _ Hid) as Hb.
    split_and!.
    + apply (wf_add_child _ parent id Hwf1); done.
    + eapply extends_trans; [exact He1|]. split; simpl; try done.
      * by apply insert_subseteq.
      * exists [empty_node id]. split; [done|]. repeat constructor. by eexists.
      * intros p l c [[E <-]|[_ H]]%lookup_insert_Some ?; [lia|done].
    + apply child_Some. exists id. split; [done|]. apply lookup_insert_eq.
Qed.

Lemma descend_spec b node path n b' :
  wf b -> node < length (nodes b) -> Forall (fun l => dot ∉ l) path ->
  descend b node path = Some (n, b') ->
  wf b' /\ extends b b' /\ walk b' node path = Some n.
Proof.
  intros Hwf Hn Hpath. revert b node Hwf Hn.
  induction Hpath as [|l path Hl Hpath IH]; intros b node Hwf Hn; simpl.
  - intros; simplify_eq. split_and!; [done|apply extends_refl|done].
  - intros ([c b1] & Hc & H)%bind_Some.
    destruct (child_or_insert_spec _ _ _ _ _ Hwf Hn Hl Hc) as (Hwf1 & He1 & Hch).
    pose proof (child_bounds _ _ _ _ Hwf1 Hch).
    destruct (IH b1 c Hwf1 ltac:(lia) H) as (Hwf2 & He2 & Hw).
    split_and!; [done|by eapply extends_trans|].
    by rewrite (extends_child _ _ _ _ _ He2 Hch).
Qed.

(** ** Writing a slot *)

Lemma set_slot_label kind mode v n : bn_label (set_slot kind mode v n) = bn_label n.
Proof. by destruct kind. Qed.

Lemma node_slot_set kind kind' mode v n :
  node_slot kind' (set_slot kind mode v n) =
  if decide (kind' = kind) then write_slot mode (node_slot kind n) v else node_slot kind' n.
Proof. by destruct kind, kind'. Qed.

Lemma node_at_update b i f j :
  node_at (update_node b i f) j =
  if decide (i = j /\ j < length (nodes b)) then f (node_at b j) else node_at b j.
Proof.
  unfold node_at, update_node; simpl. case_decide as H.
  - destruct H as [-> H]. rewrite list_lookup_alter_eq.
    destruct (lookup_lt_is_Some_2 _ _ H) as [x ->]. done.
  - destruct (decide (i = j)) as [->|Hne]; [|by rewrite list_lookup_alter_ne].
    rewrite list_lookup_alter_eq. destruct (nodes b !! j) eqn:E; [|done].
    exfalso. apply H. split; [done|]. by eapply lookup_lt_Some.
Qed.

Lemma wf_update b i f :
  wf b -> (forall n, bn_label (f n) = bn_label n) -> wf (update_node b i f).
Proof.
  intros Hwf Hf. destruct Hwf. split; simpl; rewrite ?length_alter; try done.
  - intros H. apply wf_empty0. apply (f_equal length) in H.
    rewrite length_alter in H. by apply nil_length_inv.
  - intros H. apply wf_root0. intros E. apply H. by rewrite E.
  - rewrite node_at_update. case_decide; by rewrite ?Hf.
  - intros p l c H. destruct (wf_edges0 _ _ _ H) as ([? ?] & ? & ?). split_and!; try done.
    rewrite node_at_update. case_decide; by rewrite ?Hf.
Qed.

Lemma walk_update b i f n p : walk (update_node b i f) n p = walk b n p.
Proof.
  revert n. induction p as [|l p IH]; intros n; [done|]; simpl.
  change (child (update_node b i f) n l) with (child b n l).
  by destruct (child b n l); simpl.
Qed.

(** ** Inserting writes exactly one slot *)

Lemma ensure_root_slot b path kind : wf b -> slot (ensure_root b) path kind = slot b path kind.
Proof.
  intros Hwf. unfold ensure_root. destruct (nodes b) eqn:E; [|done].
  destruct (wf_empty b Hwf E) as [He Hl]. unfold slot.
  destruct path as [|l path]; simpl.
  - unfold node_at; simpl. rewrite E. by destruct kind.
  - assert (Hc : forall ls, child (mkBuilder [empty_node 0] (edges b) ls) 0 l = None).
    { intros ls. unfold child. rewrite He. simpl. by destruct (ls !! l). }
    rewrite Hc. unfold child. by rewrite Hl, lookup_empty.
Qed.

Lemma builder_insert_spec b base v kind mode b' :
  wf b -> builder_insert b base v kind mode = Some b' ->
  wf b' /\ nodes b' <> [] /\
  forall path k, slot b' path k =
    if decide (path = rsplit dot base /\ k = kind)
    then write_slot mode (slot b path k) v else slot b path k.
Proof.
  intros Hwf. unfold builder_insert. intros ([n b1] & Hd & [= <-])%bind_Some.
  pose proof (wf_ensure_root b Hwf) as Hwf0.
  assert (H0 : 0 < length (nodes (ensure_root b))).
  { pose proof (ensure_root_nodes b). destruct (nodes (ensure_root b)); simpl; [done|lia]. }
  destruct (descend_spec _ _ _ _ _ Hwf0 H0 (rsplit_pieces dot base) Hd) as (Hwf1 & He & Hw).
  pose proof (extends_length _ _ He) as Hlen.
  split_and!.
  - apply wf_update; [done|]. apply set_slot_label.
  - simpl. intros H. apply (f_equal length) in H. rewrite length_alter in H. simpl in H. lia.
  - intros path k. unfold slot at 1. rewrite walk_update.
    rewrite <- (ensure_root_slot b path k Hwf).
    rewrite <- (extends_slot _ b1 path k Hwf0 Hwf1 (ensure_root_nodes b) He). unfold slot.
    destruct (walk b1 0 path) as [m|] eqn:Em; simpl.
    + rewrite node_at_update. assert (H1 : 0 < length (nodes b1)) by lia.
      pose proof (walk_lt _ _ _ _ Hwf1 H1 Em) as Hm.
      case_decide as Hnm.
      * destruct Hnm as [-> _]. pose proof (walk_inj _ _ _ _ Hwf1 Hw Em) as <-.
        rewrite node_slot_set. repeat case_decide; naive_solver.
      * rewrite decide_False; [done|]. intros [-> _]. rewrite Hw in Em. naive_solver.
    + rewrite decide_False; [done|]. intros [-> _]. by rewrite Hw in Em.
Qed.

(** Inserting does not panic while node and label ids fit in 32 bits. *)
Lemma descend_total b node path :
  (Z.of_nat (length (nodes b) + length path) <= u32_max)%Z ->
  (Z.of_nat (size (labels b) + length path) <= u32_max)%Z ->
  is_Some (descend b node path).
Proof.
  revert b node. induction path as [|l path IH]; intros b node Hn Hl; simpl in *; [done|].
  unfold child_or_insert, intern_label, u32_try_from.
  destruct (labels b !! l) as [id|] eqn:El; simpl.
  - destruct (edges b !! (node, id)) eqn:Ee; simpl.
    + apply IH; simpl; lia.
    + destruct (Z.leb_spec (Z.of_nat (length (nodes b))) u32_max); simpl; [|lia].
      apply IH; simpl; rewrite ?length_app; simpl; lia.
  - destruct (Z.leb_spec (Z.of_nat (size (labels b))) u32_max); simpl; [|lia].
    destruct (edges b !! (node, _)) eqn:Ee; simpl.
    + apply IH; simpl; rewrite ?map_size_insert_None by done; lia.
    + destruct (Z.leb_spec (Z.of_nat (length (nodes b))) u32_max); simpl; [|lia].
      apply IH; simpl; rewrite ?length_app, ?map_size_insert_None by done; simpl; lia.
Qed.

Lemma builder_insert_total b base v kind mode :
  (Z.of_nat (length (nodes b) + length base) + 2 <= u32_max)%Z ->
  (Z.of_nat (size (labels b) + length base) + 2 <= u32_max)%Z ->
  is_Some (builder_insert b base v kind mode).
Proof.
  intros Hn Hl. unfold builder_insert.
  assert (Hlen : length (rsplit dot base) <= S (length base)).
  { rewrite length_rsplit. unfold count_byte. pose proof (length_filter (fun d => d = dot) base). lia. }
  destruct (descend_total (ensure_root b) 0 (rsplit dot base)) as [[n b1] ->]; [..|done].
  - unfold ensure_root. destruct (nodes b) eqn:E; simpl in *; rewrite ?E; simpl; lia.
  - unfold ensure_root. destruct (nodes b) eqn:E; simpl in *; [|lia].
    destruct (labels b !! []) eqn:E0.
    + rewrite map_size_insert_Some by done. lia.
    + rewrite map_size_insert_None by done. lia.
Qed.

End Builder.
Arguments BuildNode : clear implicits.
Arguments Builder : clear implicits.

End Trie.
