(* ===== verification/TrieSealed.v ===== *)
(** * The sealed domain trie (crates/meow-trie/src/trie.rs)

    [into_sealed] freezes a builder into a breadth-first node array with a
    label arena and a sampled rank over value masks. This file models the
    conversion and the accessors of the frozen form; TrieLayout.v shows that
    they answer like the builder. *)

From S2P Require Import Prelude Strings Vec Trie.
From stdpp Require Import sorting.

Module Sealed.
Import Trie.

Definition MASK_SHIFT : Z := 29.
Definition CHILD_MASK : Z := Z.shiftl 1 MASK_SHIFT - 1.
Definition VALUE_BLOCK : nat := 32.

(** The iteration order of a [HashMap] is not specified: any enumeration of
    its entries. *)
Class HashOrder := {
  edge_order : gmap (nat * nat) nat -> list ((nat * nat) * nat);
  edge_order_perm m : edge_order m ≡ₚ map_to_list m;
  label_order : gmap bytes nat -> list (bytes * nat);
  label_order_perm m : label_order m ≡ₚ map_to_list m;
}.

#[export] Program Instance default_hash_order : HashOrder | 100 :=
  {| edge_order := map_to_list; label_order := map_to_list |}.
Solve All Obligations with done.

Record Node := mkNode { n_label : Z; child_mask : Z }.

Definition first_child (n : Node) : nat := Z.to_nat (Z.land (child_mask n) CHILD_MASK).
Definition mask (n : Node) : Z := Z.shiftr (child_mask n) MASK_SHIFT.

(** [count_ones] of a three-bit value mask. *)
Definition count_ones (m : Z) : nat :=
  (if Z.testbit m 0 then 1 else 0) + (if Z.testbit m 1 then 1 else 0) +
  (if Z.testbit m 2 then 1 else 0).

Section Sealed.
Context {T : Type} `{HO : HashOrder}.

Record Sealed := mkSealed {
  s_nodes : list Node;
  values : list T;
  value_base : list nat;
  arena : bytes;
}.

(** ** Freezing *)

(** CSR grouping: count the children of each parent... *)
Definition count_children (n : nat) (es : list ((nat * nat) * nat)) : option (list nat) :=
  foldlM (fun bounds e =>
    x ← bounds !! S e.1.1; vset (S e.1.1) (S x) bounds) (replicate (S n) 0) es.

(** ...turn the counts into start offsets... *)
Definition prefix_sums (n : nat) (bounds : list nat) : option (list nat) :=
  foldlM (fun bounds i =>
    x ← bounds !! S i; y ← bounds !! i; vset (S i) (x + y) bounds) bounds (seq 0 n).

(** ...and place every child at its parent's cursor. *)
Definition fill_children (n : nat) (bounds : list nat) (es : list ((nat * nat) * nat)) :
    option (list nat * list nat) :=
  foldlM (fun '(bounds, children_old) e =>
    slot ← bounds !! e.1.1;
    children_old ← vset slot e.2 children_old;
    bounds ← vset e.1.1 (S slot) bounds;
    Some (bounds, children_old)) (bounds, replicate (n - 1) 0) es.

(** The run of parent [p] in [children_old]. *)
Definition run (bounds : list nat) (p : nat) : option (nat * nat) :=
  start ← (if p =? 0 then Some 0 else bounds !! (p - 1));
  stop ← bounds !! p;
  Some (start, stop).

Definition label_by_id (ls : gmap bytes nat) : option (list bytes) :=
  foldlM (fun v '(label, id) => vset id label v) (replicate (size ls) []) (label_order ls).

Definition node_label (bns : list (BuildNode T)) (lbl : list bytes) (i : nat) : bytes :=
  default [] (n ← bns !! i; lbl !! bn_label n).

Definition sort_group (bns : list (BuildNode T)) (lbl : list bytes) (group : list nat) : list nat :=
  merge_sort (fun a b => bytes_le (node_label bns lbl a) (node_label bns lbl b)) group.

Definition sort_groups (bns : list (BuildNode T)) (lbl : list bytes) (bounds : list nat)
    (children_old : list nat) : option (list nat) :=
  foldlM (fun ch p =>
    '(start, stop) ← run bounds p;
    group ← slice start stop ch;
    Some (take start ch ++ sort_group bns lbl group ++ drop stop ch))
    children_old (seq 0 (length bns)).

(** Breadth-first renumbering; the loop ends when the queue is used up. *)
Fixpoint bfs (bounds children_old : list nat) (fuel i : nat) (order first : list nat) :
    option (list nat * list nat) :=
  if i <? length order then
    match fuel with
    | O => None
    | S fuel =>
        old ← order !! i;
        '(start, stop) ← run bounds old;
        kids ← slice start stop children_old;
        bfs bounds children_old fuel (S i) (order ++ kids) (first ++ [length order])
    end
  else Some (order, first).

(** The arena: every label followed by a dot. *)
Definition build_arena (lbl : list bytes) : list Z * bytes :=
  foldl (fun '(offs, ar) label => (offs ++ [Z.of_nat (length ar)], ar ++ label ++ [dot]))
    ([], []) lbl.

Definition node_values (n : BuildNode T) : list T :=
  option_list (bn_exact n) ++ option_list (bn_star n) ++ option_list (bn_dot n).

Definition value_mask (n : BuildNode T) : Z :=
  let bit (o : option T) (m : Z) := match o with Some _ => m | None => 0%Z end in
  Z.lor (Z.lor (bit (bn_exact n) MASK_EXACT) (bit (bn_star n) MASK_STAR))
    (bit (bn_dot n) MASK_DOT).

(** One pass over the new order emits nodes, values and rank samples. *)
Definition emit_node (bns : list (BuildNode T)) (offs : list Z) (first : list nat)
    (acc : list Node * list T * list nat) (new_old : nat * nat) :
    option (list Node * list T * list nat) :=
  let '(ns, vs, vb) := acc in
  let '(new_idx, old) := new_old in
  vb ← (if new_idx mod VALUE_BLOCK =? 0
        then base ← u32_try_from (length vs); Some (vb ++ [base])
        else Some vb);
  n ← bns !! old;
  off ← offs !! bn_label n;
  fc ← first !! new_idx;
  Some (ns ++ [mkNode off (Z.lor (Z.of_nat fc) (Z.shiftl (value_mask n) MASK_SHIFT))],
        vs ++ node_values n, vb).

Definition total_label_bytes (lbl : list bytes) : Z :=
  foldr (fun l acc => (Z.of_nat (length l) + 1 + acc)%Z) 0%Z lbl.

Definition into_sealed (b : Builder T) : option Sealed :=
  let b := ensure_root b in
  let n := length (nodes b) in
  if negb (Z.of_nat n <? Z.shiftl 1 MASK_SHIFT)%Z then None
  else
    let es := edge_order (edges b) in
    bounds ← count_children n es;
    bounds ← prefix_sums n bounds;
    '(bounds, children_old) ← fill_children n bounds es;
    lbl ← label_by_id (labels b);
    children_old ← sort_groups (nodes b) lbl bounds children_old;
    '(order, first) ← bfs bounds children_old n 0 [0] [];
    if negb (total_label_bytes lbl <=? u32_max)%Z then None
    else
      let '(offs, ar) := build_arena lbl in
      '(ns, vs, vb) ←
        foldlM (emit_node (nodes b) offs first) ([], [], []) (imap pair order);
      Some (mkSealed (ns ++ [mkNode 0 (Z.of_nat n)]) vs vb ar).

(** ** Accessors of the frozen form *)

(** [stored.cmp(query)] read off the dot-terminated arena. *)
Fixpoint cmp_stored (ci : bool) (stored query : bytes) : option comparison :=
  match query with
  | [] => s ← head stored; Some (if decide (s = dot) then Eq else Gt)
  | q :: query =>
      s ← head stored;
      if decide (s = dot) then Some Lt
      else
        let q := if ci then byte_lower q else q in
        match (byte_val s ?= byte_val q)%N with
        | Eq => cmp_stored ci (tail stored) query
        | c => Some c
        end
  end.

Definition cmp_label (s : Sealed) (ci : bool) (offset : Z) (query : bytes) : option comparison :=
  stored ← slice (Z.to_nat offset) (length (arena s)) (arena s);
  cmp_stored ci stored query.

Definition children (s : Sealed) (node : nat) : option (nat * list Node) :=
  a ← s_nodes s !! node;
  b ← s_nodes s !! S node;
  let start := first_child a in
  kids ← slice start (first_child b) (s_nodes s);
  Some (start, kids).

Definition find_child (s : Sealed) (ci : bool) (node : nat) (label : bytes) :
    option (option nat) :=
  '(start, kids) ← children s node;
  r ← binary_search_by (fun c => cmp_label s ci (n_label c) label) kids;
  Some (match r with inl i => Some (start + i) | inr _ => None end).

(** [size_of::<T>() == 0] is known when the code is compiled. *)
Definition value_index (zst : bool) (s : Sealed) (node : nat) : option nat :=
  if zst then Some 0
  else
    let block := node / VALUE_BLOCK in
    idx ← value_base s !! block;
    ns ← slice (block * VALUE_BLOCK) node (s_nodes s);
    Some (foldl (fun idx n => idx + count_ones (Z.shiftr (child_mask n) MASK_SHIFT)) idx ns).

Definition sealed_exact (zst : bool) (s : Sealed) (node : nat) : option (option T) :=
  n ← s_nodes s !! node;
  if (Z.land (mask n) MASK_EXACT =? 0)%Z then Some None
  else i ← value_index zst s node; v ← values s !! i; Some (Some v).

Definition sealed_star (zst : bool) (s : Sealed) (node : nat) : option (option T) :=
  n ← s_nodes s !! node;
  if (Z.land (mask n) MASK_STAR =? 0)%Z then Some None
  else
    i ← value_index zst s node;
    v ← values s !! (i + Z.to_nat (Z.land (mask n) MASK_EXACT));
    Some (Some v).

Definition sealed_dot (zst : bool) (s : Sealed) (node : nat) : option (option T) :=
  n ← s_nodes s !! node;
  if (Z.land (mask n) MASK_DOT =? 0)%Z then Some None
  else
    i ← value_index zst s node;
    v ← values s !! (i + count_ones (Z.land (mask n) (Z.lor MASK_EXACT MASK_STAR)));
    Some (Some v).

Definition sealed_slot (zst : bool) (s : Sealed) (kind : MatchKind) (node : nat) :
    option (option T) :=
  match kind with
  | Exact => sealed_exact zst s node
  | Star => sealed_star zst s node
  | Dot => sealed_dot zst s node
  end.

End Sealed.
Arguments Sealed : clear implicits.

End Sealed.
