(* ===== verification/TrieLayout.v ===== *)
(** * The layout of the sealed domain trie

    What [into_sealed] computes: the children runs, the breadth-first order,
    the label arena, the packed nodes and the sampled value ranks, and that
    the accessors of the frozen form answer like the builder's. *)

From S2P Require Import Prelude Strings Vec Trie TrieSealed.
From stdpp Require Import sorting.

Module Layout.
Import Trie Sealed.

(** ** CSR grouping of the children *)

Abbreviation edge := ((nat * nat) * nat)%type.

(** The children of [p] among [es], in the order of [es]. *)
Definition kids_of (es : list edge) (p : nat) : list nat :=
  (filter (fun e => e.1.1 = p) es).*2.

Definition cnt (es : list edge) (p : nat) : nat := length (kids_of es p).

Fixpoint start_of (es : list edge) (p : nat) : nat :=
  match p with O => 0 | S p => start_of es p + cnt es p end.

Lemma kids_of_app es es' p : kids_of (es ++ es') p = kids_of es p ++ kids_of es' p.
Proof. unfold kids_of. by rewrite filter_app, fmap_app. Qed.

Lemma kids_of_snoc es e p :
  kids_of (es ++ [e]) p = kids_of es p ++ (if decide (e.1.1 = p) then [e.2] else []).
Proof.
  rewrite kids_of_app. f_equal. unfold kids_of. rewrite filter_cons. by case_decide.
Qed.

Lemma cnt_snoc es e p :
  cnt (es ++ [e]) p = cnt es p + (if decide (e.1.1 = p) then 1 else 0).
Proof. unfold cnt. rewrite kids_of_snoc, length_app. by case_decide. Qed.

Lemma cnt_prefix es es' p : cnt es p <= cnt (es ++ es') p.
Proof. unfold cnt. rewrite kids_of_app, length_app. lia. Qed.

Lemma start_of_mono es p q : p < q -> start_of es p + cnt es p <= start_of es q.
Proof.
  intros H. induction H as [|q H IH]; simpl; [done|]. lia.
Qed.

(** Positions in the runs of different parents differ. *)
Lemma start_of_inj es p q i j :
  i < cnt es p -> j < cnt es q -> start_of es p + i = start_of es q + j -> p = q /\ i = j.
Proof.
  intros Hi Hj E. destruct (Nat.lt_trichotomy p q) as [Hlt|[->|Hlt]].
  - pose proof (start_of_mono es p q Hlt). lia.
  - lia.
  - pose proof (start_of_mono es q p Hlt). lia.
Qed.

Lemma start_of_total es n :
  Forall (fun e => e.1.1 < n) es -> start_of es n = length es.
Proof.
  induction es as [|e es IH] using rev_ind; intros Hall.
  - clear. induction n; simpl; [done|]. by rewrite IHn.
  - apply Forall_app in Hall as [Hall He]. inversion He as [|? ? Hlt _]; subst.
    rewrite length_app, <- (IH Hall). simpl.
    assert (Hs : forall m, start_of (es ++ [e]) m =
      start_of es m + if decide (e.1.1 < m) then 1 else 0).
    { induction m as [|m IHm]; cbn [start_of]; [by rewrite decide_False by lia|].
      rewrite IHm, cnt_snoc. repeat case_decide; lia. }
    rewrite Hs. by rewrite decide_True.
Qed.

Lemma count_children_spec n es :
  Forall (fun e => e.1.1 < n) es ->
  count_children n es =
    Some (tabulate (S n) (fun j => match j with O => 0 | S p => cnt es p end)).
Proof.
  intros Hall. unfold count_children. rewrite replicate_tabulate.
  edestruct (foldlM_invariant (fun seen bounds =>
    bounds = tabulate (S n) (fun j => match j with O => 0 | S p => cnt seen p end))
    (fun bounds e => x ← bounds !! S e.1.1; vset (S e.1.1) (S x) bounds)) as (r & Hr & ->);
    [..|exact Hr].
  - apply tabulate_ext. intros [|i] _; done.
  - intros seen e rest bounds Hes ->. rewrite Hes in Hall.
    apply Forall_app in Hall as [_ He]. inversion He as [|? ? Hlt _]; subst.
    rewrite lookup_tabulate by lia. simpl.
    rewrite vset_Some by (rewrite length_tabulate; lia). eexists. split; [done|].
    rewrite insert_tabulate by lia. apply tabulate_ext. intros [|p] _; cbn beta iota.
    + by rewrite decide_False.
    + rewrite cnt_snoc. repeat case_decide; simplify_eq; lia.
Qed.

Lemma prefix_sums_spec n es :
  prefix_sums n (tabulate (S n) (fun j => match j with O => 0 | S p => cnt es p end)) =
    Some (tabulate (S n) (start_of es)).
Proof.
  unfold prefix_sums.
  edestruct (foldlM_invariant (fun seen bounds => bounds = tabulate (S n) (fun j =>
      if decide (j <= length seen) then start_of es j
      else match j with O => 0 | S p => cnt es p end))
    (fun bounds i => x ← bounds !! S i; y ← bounds !! i; vset (S i) (x + y) bounds))
    as (r & Hr & E); [..|rewrite Hr, E].
  - apply tabulate_ext. intros [|i] _;
      [by rewrite decide_True by (simpl; lia)|by rewrite decide_False by (simpl; lia)].
  - intros seen i rest bounds Hseq ->.
    assert (Hi : i = length seen /\ i < n).
    { pose proof (f_equal (fun l => l !! length seen) Hseq) as Hl. simpl in Hl.
      rewrite list_lookup_middle in Hl by done.
      apply lookup_seq in Hl. lia. }
    destruct Hi as [-> Hi].
    rewrite !lookup_tabulate by lia. simpl.
    rewrite decide_False, decide_True by lia.
    rewrite vset_Some by (rewrite length_tabulate; lia). eexists. split; [done|].
    rewrite insert_tabulate by lia. apply tabulate_ext. intros j _.
    rewrite length_app. simpl.
    destruct (decide (j = S (length seen))) as [->|Hne].
    + rewrite decide_True by lia. simpl. lia.
    + repeat case_decide; try lia; done.
  - f_equal. apply tabulate_ext. intros i Hi. rewrite length_seq. by rewrite decide_True by lia.
Qed.

Lemma fill_children_spec n es :
  0 < n -> Forall (fun e => e.1.1 < n) es -> length es = n - 1 ->
  exists ch,
    fill_children n (tabulate (S n) (start_of es)) es =
      Some (tabulate (S n) (fun j => start_of es (S j)), ch) /\
    length ch = n - 1 /\
    forall p, p < n -> slice (start_of es p) (start_of es (S p)) ch = Some (kids_of es p).
Proof.
  intros Hn Hall Hlen. unfold fill_children.
  pose proof (start_of_total es n Hall) as Htot.
  edestruct (foldlM_invariant (fun seen st =>
      st.1 = tabulate (S n) (fun j => start_of es j + cnt seen j) /\
      length st.2 = n - 1 /\
      forall p j, j < cnt seen p -> st.2 !! (start_of es p + j) = kids_of seen p !! j)
    (fun '(bounds, children_old) e =>
      slot ← bounds !! e.1.1;
      children_old ← vset slot e.2 children_old;
      bounds ← vset e.1.1 (S slot) bounds;
      Some (bounds, children_old)) (tabulate (S n) (start_of es), replicate (n - 1) 0) es)
    as ([bounds ch] & Hr & Hb & Hch & Hkids).
  - split_and!; simpl.
    + apply tabulate_ext. intros i _. unfold cnt; simpl. lia.
    + apply length_replicate.
    + intros p j Hj. unfold cnt in Hj; simpl in Hj. lia.
  - intros seen e rest [bounds ch] Hes (Hb & Hch & Hk).
    cbn [fst snd] in Hb, Hch, Hk. subst bounds.
    assert (Hp : e.1.1 < n).
    { rewrite Hes in Hall. apply Forall_app in Hall as [_ He]. by inversion He. }
    assert (Hcnt : cnt seen e.1.1 < cnt es e.1.1).
    { rewrite Hes, (app_assoc seen [e] rest : seen ++ e :: rest = _).
      eapply Nat.lt_le_trans; [|apply cnt_prefix]. rewrite cnt_snoc, decide_True by done. lia. }
    pose proof (start_of_mono es e.1.1 n Hp).
    assert (start_of es e.1.1 + cnt seen e.1.1 < n - 1) by lia.
    rewrite lookup_tabulate by lia. simpl.
    rewrite (vset_Some _ _ ch) by lia. simpl.
    rewrite vset_Some by (rewrite length_tabulate; lia). simpl.
    eexists. split; [done|]. simpl. split_and!.
    + rewrite insert_tabulate by lia. apply tabulate_ext. intros j _.
      rewrite cnt_snoc. repeat case_decide; simplify_eq; lia.
    + rewrite length_insert. done.
    + intros p j Hj. rewrite cnt_snoc in Hj. rewrite kids_of_snoc.
      case_decide as Hep.
      * subst p. destruct (decide (j = cnt seen e.1.1)) as [->|Hne].
        -- rewrite list_lookup_insert_eq by lia.
           unfold cnt. by rewrite list_lookup_middle.
        -- rewrite list_lookup_insert_ne by lia. rewrite (Hk e.1.1 j) by lia.
           rewrite lookup_app_l; [done|]. unfold cnt in *. lia.
      * rewrite app_nil_r, list_lookup_insert_ne.
        -- apply Hk. lia.
        -- intros E. apply Hep.
           assert (Hj' : j < cnt es p).
           { eapply Nat.lt_le_trans; [|rewrite Hes; apply cnt_prefix]. lia. }
           by destruct (start_of_inj es _ _ _ _ Hcnt Hj' E).
  - simpl in *. exists ch. split_and!; [|done|].
    + rewrite Hr, Hb. done.
    + intros p Hp. apply slice_intro.
      * done.
      * pose proof (start_of_mono es p n Hp) as Hm. simpl. lia.
      * intros j Hj. by apply Hkids.
Qed.

Lemma run_spec es n p :
  p <= n ->
  run (tabulate (S n) (fun j => start_of es (S j))) p = Some (start_of es p, start_of es (S p)).
Proof.
  intros Hp. unfold run. destruct p as [|p]; cbn [Nat.eqb].
  - rewrite lookup_tabulate by lia. done.
  - replace (S p - 1) with p by lia. rewrite !lookup_tabulate by lia. done.
Qed.


(** ** The edges of a well-formed builder *)

Section Edges.
Context {T : Type} `{HO : HashOrder} (b : Builder T).
Hypothesis (Hwf : wf b) (Hne : nodes b <> []).
Let n := length (nodes b).
Let es := edge_order (edges b).

Lemma nodes_pos : 0 < n.
Proof. unfold n. destruct (nodes b); simpl; [done|lia]. Qed.

Lemma elem_of_es pl c : (pl, c) ∈ es <-> edges b !! pl = Some c.
Proof. unfold es. rewrite edge_order_perm. apply elem_of_map_to_list. Qed.

Lemma es_parents : Forall (fun e => e.1.1 < n) es.
Proof.
  apply Forall_forall. intros [[p l] c] H%elem_of_es. simpl.
  apply (wf_edges b Hwf) in H. unfold n. lia.
Qed.

Lemma NoDup_es : NoDup es.
Proof. unfold es. rewrite edge_order_perm. apply NoDup_map_to_list. Qed.

Lemma NoDup_es_snd : NoDup es.*2.
Proof.
  apply NoDup_fmap_2_strong; [|apply NoDup_es].
  intros [pl c] [pl' c'] H%elem_of_es H'%elem_of_es E. simpl in E. subst c'.
  by rewrite (wf_edges_inj b Hwf _ _ _ H H').
Qed.

Lemma es_children : es.*2 ≡ₚ seq 1 (n - 1).
Proof.
  apply NoDup_Permutation; [apply NoDup_es_snd|apply NoDup_seq|].
  intros c. rewrite list_elem_of_fmap, elem_of_seq. split.
  - intros ([[p l] c'] & -> & H%elem_of_es). simpl.
    apply (wf_edges b Hwf) in H. unfold n. lia.
  - intros Hc. destruct (wf_reached b Hwf c) as [pl Hpl]; [unfold n in Hc; lia|].
    exists (pl, c). split; [done|]. by apply elem_of_es.
Qed.

Lemma length_es : length es = n - 1.
Proof. by rewrite <- (length_fmap snd), es_children, length_seq. Qed.

Lemma elem_of_kids p c : c ∈ kids_of es p <-> exists l, edges b !! (p, l) = Some c.
Proof.
  unfold kids_of. rewrite list_elem_of_fmap. split.
  - intros ([[p' l] c'] & -> & [E H]%list_elem_of_filter). simpl in *. subst p'.
    exists l. by apply elem_of_es.
  - intros [l H%elem_of_es]. exists (p, l, c). split; [done|]. by apply list_elem_of_filter.
Qed.

Lemma NoDup_kids p : NoDup (kids_of es p).
Proof.
  unfold kids_of. eapply sublist_NoDup; [apply NoDup_es_snd|].
  apply fmap_sublist, sublist_filter.
Qed.

End Edges.

(** ** Sorting the children runs *)

Section Sorting.
Context {T : Type} (bns : list (BuildNode T)) (lbl : list bytes).

Lemma sort_group_perm g : sort_group bns lbl g ≡ₚ g.
Proof. apply merge_sort_Permutation. Qed.

Lemma length_sort_group g : length (sort_group bns lbl g) = length g.
Proof. by rewrite sort_group_perm. Qed.

Lemma sort_group_sorted g i j x y :
  i < j -> sort_group bns lbl g !! i = Some x -> sort_group bns lbl g !! j = Some y ->
  bytes_le (node_label bns lbl x) (node_label bns lbl y).
Proof.
  intros Hij Hx Hy.
  set (R := fun a b => bytes_le (node_label bns lbl a) (node_label bns lbl b)).
  assert (HS : StronglySorted R (sort_group bns lbl g)).
  { apply StronglySorted_merge_sort.
    - intros a c d. unfold R. apply bytes_le_trans.
    - intros a c. unfold R. apply bytes_le_total. }
  rewrite <- (take_drop_middle _ _ _ Hx) in HS, Hy.
  apply StronglySorted_app in HS as (_ & _ & HS). apply StronglySorted_cons in HS as [HS _].
  pose proof (lookup_lt_Some _ _ _ Hx) as Hlen.
  rewrite lookup_app_r in Hy by (rewrite length_take; lia).
  rewrite length_take, Nat.min_l in Hy by lia.
  destruct (j - i) as [|k] eqn:E; [lia|]. simpl in Hy.
  by apply (Forall_lookup_1 _ _ _ _ HS Hy).
Qed.

Lemma sort_groups_spec es ch :
  start_of es (length bns) <= length ch ->
  (forall p, p < length bns ->
    slice (start_of es p) (start_of es (S p)) ch = Some (kids_of es p)) ->
  exists ch',
    sort_groups bns lbl (tabulate (S (length bns)) (fun j => start_of es (S j))) ch = Some ch' /\
    forall p, p < length bns ->
      slice (start_of es p) (start_of es (S p)) ch' = Some (sort_group bns lbl (kids_of es p)).
Proof.
  intros Hlen Hch. unfold sort_groups.
  edestruct (foldlM_invariant (fun seen ch' => length ch' = length ch /\
      forall p, p < length bns -> slice (start_of es p) (start_of es (S p)) ch' =
        Some (if decide (p < length seen) then sort_group bns lbl (kids_of es p)
              else kids_of es p))
    (fun ch p =>
      '(start, stop) ← run (tabulate (S (length bns)) (fun j => start_of es (S j))) p;
      group ← slice start stop ch;
      Some (take start ch ++ sort_group bns lbl group ++ drop stop ch)) ch
    (seq 0 (length bns))) as (ch' & Hr & _ & Hch').
  - split; [done|]. intros p Hp. rewrite decide_False by (simpl; lia). by apply Hch.
  - intros seen p rest ch1 Hseq [Hl Hs].
    assert (Hp : p = length seen /\ p < length bns).
    { pose proof (f_equal (fun l => l !! length seen) Hseq) as Hk. simpl in Hk.
      rewrite list_lookup_middle in Hk by done. apply lookup_seq in Hk. lia. }
    destruct Hp as [-> Hp]. rewrite run_spec by lia. cbn [mbind option_bind].
    rewrite (Hs _ Hp), decide_False by lia. cbn [mbind option_bind].
    eexists. split; [done|].
    assert (Hb : start_of es (length seen) <= start_of es (S (length seen)) <= length ch1).
    { pose proof (start_of_mono es _ _ Hp). simpl. lia. }
    assert (Hg : length (sort_group bns lbl (kids_of es (length seen))) =
      start_of es (S (length seen)) - start_of es (length seen)).
    { rewrite length_sort_group. simpl. unfold cnt. lia. }
    split.
    + rewrite !length_app, length_take, length_drop. lia.
    + intros p Hpn. rewrite length_app, Nat.add_1_r.
      destruct (decide (p = length seen)) as [->|Hne].
      * rewrite decide_True by lia. by apply slice_splice_eq.
      * apply slice_splice_ne; [done|done| |].
        -- destruct (decide (p < length seen)) as [Hlt|Hge].
           ++ left. by apply start_of_mono.
           ++ right. apply (start_of_mono es (length seen) p). lia.
        -- rewrite Hs by done. f_equal. repeat case_decide; try lia; done.
  - exists ch'. split; [done|]. intros p Hp. rewrite Hch' by done.
    by rewrite length_seq, decide_True by done.
Qed.

End Sorting.

(** ** Breadth-first renumbering

    [K p] is the sorted run of parent [p]. *)

Section Bfs.
Context (n : nat) (bounds ch : list nat) (K : nat -> list nat).
Hypothesis (Hn : 0 < n).
Hypothesis (HK : forall p, p < n ->
  ('(start, stop) ← run bounds p; slice start stop ch) = Some (K p)).
Hypothesis (HKnd : forall p, NoDup (K p)).
Hypothesis (HKlt : forall p c, c ∈ K p -> p < c < n).
Hypothesis (HKinj : forall p q c, c ∈ K p -> c ∈ K q -> p = q).
Hypothesis (HKall : forall c, 0 < c < n -> exists p, c ∈ K p).

(** First child of the [i]-th node of [order]. *)
Definition first_of (order : list nat) (i : nat) : nat := S (length (take i order ≫= K)).

(** The queue after [i] nodes have been expanded. *)
Record bfs_inv (i : nat) (order first : list nat) : Prop := {
  bi_le : i <= length order;
  bi_order : order = 0 :: (take i order ≫= K);
  bi_first : first = first_of order <$> seq 0 i;
  bi_nodup : NoDup order;
  bi_bound : Forall (fun c => c < n) order;
}.

Lemma bfs_inv_init : bfs_inv 0 [0] [].
Proof. split; simpl; [lia|done|done|apply NoDup_singleton|by repeat constructor]. Qed.

Lemma bfs_inv_length i order first : bfs_inv i order first -> length order <= n.
Proof.
  intros [_ _ _ Hnd Hb]. rewrite <- (length_seq n 0) at 1.
  apply submseteq_length, NoDup_submseteq; [done|].
  intros c Hc. apply elem_of_seq. rewrite Forall_forall in Hb. specialize (Hb c Hc). lia.
Qed.

Lemma bfs_inv_step i order first old :
  bfs_inv i order first -> order !! i = Some old ->
  bfs_inv (S i) (order ++ K old) (first ++ [length order]).
Proof.
  intros [Hi Ho Hf Hnd Hb] Hold. pose proof (lookup_lt_Some _ _ _ Hold) as Hlt.
  assert (Htake : forall j, j <= length order -> take j (order ++ K old) = take j order).
  { intros j Hj. by rewrite take_app_le. }
  assert (Hsnoc : take (S i) order = take i order ++ [old]) by by apply take_S_r.
  split.
  - rewrite length_app. lia.
  - rewrite Htake, Hsnoc, bind_app by lia. simpl. rewrite app_nil_r, app_comm_cons.
    by rewrite <- Ho.
  - rewrite seq_S, fmap_app. simpl. f_equal.
    + rewrite Hf. apply list_fmap_ext. intros k x Hk%lookup_seq. unfold first_of.
      by rewrite Htake by lia.
    + unfold first_of. rewrite Htake by lia. by rewrite Ho at 1.
  - apply NoDup_app. split_and!; [done| |done].
    intros c Hc Hck. rewrite Ho in Hc. apply elem_of_cons in Hc as [->|Hc].
    + apply HKlt in Hck. lia.
    + apply list_elem_of_bind in Hc as (p & Hcp & Hp).
      rewrite (HKinj _ _ _ Hcp Hck) in Hp.
      apply list_elem_of_lookup in Hp as [j Hj]. apply lookup_take_Some in Hj as [Hj Hji].
      pose proof (NoDup_lookup _ _ _ _ Hnd Hj Hold). lia.
  - apply Forall_app. split; [done|]. apply Forall_forall. intros c Hc.
    apply HKlt in Hc. lia.
Qed.

Lemma bfs_inv_run fuel i order first :
  bfs_inv i order first -> n <= i + fuel ->
  exists order' first', bfs bounds ch fuel i order first = Some (order', first') /\
    bfs_inv (length order') order' first'.
Proof.
  revert i order first. induction fuel as [|fuel IH]; intros i order first Hinv Hfuel;
    simpl; pose proof (bfs_inv_length _ _ _ Hinv) as Hlen; pose proof (bi_le _ _ _ Hinv) as Hi;
    destruct (Nat.ltb_spec i (length order)) as [Hlt|Hge].
  - lia.
  - exists order, first. split; [done|]. by replace (length order) with i by lia.
  - destruct (lookup_lt_is_Some_2 _ _ Hlt) as [old Hold]. rewrite Hold. cbn [mbind option_bind].
    assert (Hon : old < n).
    { pose proof (bi_bound _ _ _ Hinv) as Hb. by apply (Forall_lookup_1 _ _ _ _ Hb Hold). }
    pose proof (HK old Hon) as Hk. destruct (run bounds old) as [[s e]|]; [|done].
    cbn [mbind option_bind] in *. rewrite Hk. cbn [mbind option_bind].
    apply IH; [|lia]. by apply bfs_inv_step.
  - exists order, first. split; [done|]. by replace (length order) with i by lia.
Qed.

(** What the accessors need of the finished order. *)
Record bfs_done (order first : list nat) : Prop := {
  bd_root : order !! 0 = Some 0;
  bd_length : length order = n;
  bd_bound i old : order !! i = Some old -> old < n;
  bd_first i : i < n -> first !! i = Some (first_of order i);
  bd_next i old : order !! i = Some old -> first_of order (S i) = first_of order i + length (K old);
  bd_last : first_of order n = n;
  bd_kids i old j : order !! i = Some old -> j < length (K old) ->
    order !! (first_of order i + j) = K old !! j;
}.

Lemma first_of_S order i old :
  order !! i = Some old -> first_of order (S i) = first_of order i + length (K old).
Proof.
  intros H. unfold first_of. rewrite (take_S_r _ _ _ H), bind_app, length_app. simpl.
  by rewrite app_nil_r.
Qed.

Lemma bfs_spec :
  exists order first, bfs bounds ch n 0 [0] [] = Some (order, first) /\ bfs_done order first.
Proof.
  destruct (bfs_inv_run n 0 [0] [] bfs_inv_init) as (order & first & Hr & Hinv); [lia|].
  exists order, first. split; [done|]. destruct Hinv as [_ Ho Hf Hnd Hb].
  rewrite firstn_all in Ho.
  assert (Hall : forall c, c < n -> c ∈ order).
  { induction c as [c IH] using lt_wf_ind. intros Hc. rewrite Ho. apply elem_of_cons.
    destruct (decide (c = 0)) as [->|Hc0]; [by left|right].
    destruct (HKall c) as [p Hp]; [lia|]. apply list_elem_of_bind. exists p. split; [done|].
    apply HKlt in Hp as Hlt. apply IH; lia. }
  assert (Hlen : length order = n).
  { apply Nat.le_antisymm.
    - rewrite <- (length_seq n 0) at 1. apply submseteq_length, NoDup_submseteq; [done|].
      intros c Hc. apply elem_of_seq. rewrite Forall_forall in Hb. specialize (Hb c Hc). lia.
    - rewrite <- (length_seq n 0) at 1. apply submseteq_length, NoDup_submseteq; [apply NoDup_seq|].
      intros c Hc%elem_of_seq. apply Hall. lia. }
  split.
  - by rewrite Ho.
  - done.
  - intros i old Hi. by apply (Forall_lookup_1 _ _ _ _ Hb Hi).
  - intros i Hi. rewrite Hf, list_lookup_fmap, lookup_seq_lt by lia. done.
  - apply first_of_S.
  - unfold first_of. rewrite take_ge by lia. by rewrite Ho in Hlen.
  - intros i old j Hi Hj.
    assert (Hk : forall k, order !! S k = (order ≫= K) !! k) by (intros k; by rewrite Ho at 1).
    assert (Hb' : order ≫= K = (take i order ≫= K) ++ K old ++ (drop (S i) order ≫= K)).
    { rewrite <- (take_drop_middle _ _ _ Hi) at 1. by rewrite bind_app. }
    unfold first_of. rewrite Nat.add_succ_l, Hk, Hb'.
    rewrite lookup_app_r by lia. rewrite lookup_app_l by lia. f_equal. lia.
Qed.

End Bfs.

(** ** Labels *)

Section Labels.
Context {T : Type} `{HO : HashOrder}.

Lemma label_by_id_spec (b : Builder T) :
  wf b ->
  exists lbl, label_by_id (labels b) = Some lbl /\ length lbl = size (labels b) /\
    forall a i, labels b !! a = Some i <-> lbl !! i = Some a.
Proof.
  intros Hwf. unfold label_by_id.
  assert (Hin : forall a i, (a, i) ∈ label_order (labels b) <-> labels b !! a = Some i).
  { intros a i. rewrite label_order_perm. apply elem_of_map_to_list. }
  edestruct (foldlM_invariant (fun seen v => length v = size (labels b) /\
      forall a i, (a, i) ∈ seen -> v !! i = Some a)
    (fun v '(label, id) => vset id label v) (replicate (size (labels b)) [])
    (label_order (labels b))) as (lbl & Hr & Hlen & Hl).
  - split; [apply length_replicate|]. intros a i H. by apply not_elem_of_nil in H.
  - intros seen [a i] rest v Hes [Hlen Hv].
    assert (Hai : labels b !! a = Some i) by (apply Hin; rewrite Hes; set_solver).
    pose proof (wf_labels_bound b Hwf _ _ Hai).
    rewrite vset_Some by lia. eexists. split; [done|]. split; [by rewrite length_insert|].
    intros a' i' [H'|H']%elem_of_app.
    + destruct (decide (i = i')) as [<-|Hne].
      * assert (Ha' : labels b !! a' = Some i) by (apply Hin; rewrite Hes; set_solver).
        rewrite (wf_labels_inj b Hwf _ _ _ Ha' Hai). apply list_lookup_insert_eq. lia.
      * rewrite list_lookup_insert_ne by done. by apply Hv.
    + apply list_elem_of_singleton in H'. simplify_eq. apply list_lookup_insert_eq. lia.
  - exists lbl. split_and!; [done|done|]. intros a i. split.
    + intros H. apply Hl. by apply Hin.
    + intros H. pose proof (lookup_lt_Some _ _ _ H) as Hi. rewrite Hlen in Hi.
      destruct (wf_labels_surj b Hwf i Hi) as [a' Ha'].
      pose proof (Hl _ _ (proj2 (Hin _ _) Ha')) as Hl'. by simplify_eq.
Qed.

Lemma build_arena_spec lbl offs ar :
  build_arena lbl = (offs, ar) ->
  Z.of_nat (length ar) = total_label_bytes lbl /\
  forall i a, lbl !! i = Some a ->
    exists o rest, offs !! i = Some (Z.of_nat o) /\ o <= length ar /\ drop o ar = a ++ dot :: rest.
Proof.
  unfold build_arena. revert offs ar. induction lbl as [|l lbl IH] using rev_ind.
  { intros offs ar [= <- <-]. split; [done|]. intros i a H. by rewrite lookup_nil in H. }
  intros offs ar. rewrite foldl_app. simpl.
  destruct (foldl _ _ lbl) as [offs0 ar0] eqn:E. intros [= <- <-].
  destruct (IH _ _ eq_refl) as [Htot Hl].
  assert (Hlen : length offs0 = length lbl).
  { clear -E. revert offs0 ar0 E. induction lbl as [|l lbl IH] using rev_ind; simpl.
    - by intros ? ? [= <- <-].
    - intros o r. rewrite foldl_app. simpl. destruct (foldl _ _ lbl) as [o' r'].
      intros [= <- <-]. rewrite !length_app. simpl. by rewrite (IH _ _ eq_refl). }
  split.
  - rewrite !length_app. simpl. unfold total_label_bytes in *. rewrite foldr_app. simpl.
    clear -Htot. revert Htot.
    assert (Hacc : forall z, foldr (fun l acc => (Z.of_nat (length l) + 1 + acc)%Z) z lbl =
      (foldr (fun l acc => (Z.of_nat (length l) + 1 + acc)%Z) 0 lbl + z)%Z).
    { intros z. induction lbl as [|x lbl IH]; simpl; [lia|]. rewrite IH. lia. }
    intros Htot. rewrite Hacc. lia.
  - intros i a [H|[Hi H]]%lookup_app_Some.
    + destruct (Hl i a H) as (o & rest & Ho & Hle & Hd). exists o, (rest ++ l ++ [dot]).
      split_and!.
      * rewrite lookup_app_l; [done|]. by eapply lookup_lt_Some.
      * rewrite length_app. lia.
      * rewrite drop_app_le by done. rewrite Hd. by rewrite <- app_assoc.
    + apply list_lookup_singleton_Some in H as [Hi0 <-].
      exists (length ar0), []. split_and!.
      * rewrite lookup_app_r by lia. by rewrite Hlen, Hi0.
      * rewrite length_app. lia.
      * by rewrite drop_app_length.
Qed.

(** The comparison with the arena is the comparison with the label. *)
Lemma cmp_stored_spec ci a rest q :
  dot ∉ a ->
  cmp_stored ci (a ++ dot :: rest) q =
    Some (bytes_cmp a (if ci then to_ascii_lowercase q else q)).
Proof.
  revert a. induction q as [|q0 q IH]; intros a Ha; destruct a as [|x a];
    cbn [cmp_stored head mbind option_bind tail app].
  - rewrite decide_True by done. by destruct ci.
  - rewrite decide_False by set_solver. by destruct ci.
  - rewrite decide_True by done. by destruct ci.
  - rewrite decide_False by set_solver.
    destruct ci; simpl; destruct (_ ?= _)%N; try done; apply IH; set_solver.
Qed.

Lemma cmp_label_spec (s : Sealed T) ci o a rest q :
  dot ∉ a -> o <= length (arena s) -> drop o (arena s) = a ++ dot :: rest ->
  cmp_label s ci (Z.of_nat o) q = Some (bytes_cmp a (if ci then to_ascii_lowercase q else q)).
Proof.
  intros Ha Ho Hd. unfold cmp_label. rewrite Nat2Z.id, slice_Some by lia. cbn [mbind option_bind].
  rewrite Hd, take_ge; [by apply cmp_stored_spec|].
  rewrite <- Hd, length_drop. lia.
Qed.

End Labels.

(** ** Packed nodes *)

Lemma pack_low f m :
  (0 <= f < 2 ^ 29)%Z -> Z.land (Z.lor f (Z.shiftl m MASK_SHIFT)) CHILD_MASK = f.
Proof.
  intros Hf. change CHILD_MASK with (Z.ones 29). unfold MASK_SHIFT.
  rewrite Z.land_lor_distr_l, Z.shiftl_mul_pow2, !Z.land_ones by lia.
  rewrite Z.mod_mul, Z.lor_0_r by lia. by apply Z.mod_small.
Qed.

Lemma pack_high f m :
  (0 <= f < 2 ^ 29)%Z -> Z.shiftr (Z.lor f (Z.shiftl m MASK_SHIFT)) MASK_SHIFT = m.
Proof.
  intros Hf. unfold MASK_SHIFT. rewrite Z.shiftr_lor, Z.shiftr_shiftl_l by lia.
  rewrite Z.shiftr_div_pow2, Z.div_small by lia. simpl. apply Z.shiftl_0_r.
Qed.

Section Emit.
Context {T : Type} `{HO : HashOrder}.
Implicit Types n : BuildNode T.

Lemma count_ones_mask n : count_ones (value_mask n) = length (node_values n).
Proof. destruct n as [l [e|] [s|] [d|]]; reflexivity. Qed.

Lemma length_node_values n : length (node_values n) <= 3.
Proof. destruct n as [l [e|] [s|] [d|]]; simpl; lia. Qed.

Context (b : Builder T) (offs : list Z) (K : nat -> list nat) (order first : list nat).
Let N := length (nodes b).
Hypothesis (HN : (Z.of_nat N < 2 ^ 29)%Z).
Hypothesis (Hoffs : forall i, i < N -> is_Some (offs !! bn_label (node_at b i))).
Hypothesis (Hdone : bfs_done N K order first).

Lemma nodes_lookup i : i < N -> nodes b !! i = Some (node_at b i).
Proof. intros H. unfold node_at. by destruct (lookup_lt_is_Some_2 _ _ H) as [x ->]. Qed.

Definition vals (old : nat) : list T := node_values (node_at b old).

(** Number of values before the [i]-th node. *)
Definition rank (i : nat) : nat := length (take i order ≫= vals).

Definition sealed_node (off : Z) (i old : nat) : Node :=
  mkNode off (Z.lor (Z.of_nat (first_of K order i))
    (Z.shiftl (value_mask (node_at b old)) MASK_SHIFT)).

Record emitted (k : nat) (acc : list Node * list T * list nat) : Prop := {
  em_length : length acc.1.1 = k;
  em_node i old : i < k -> order !! i = Some old -> exists off,
    offs !! bn_label (node_at b old) = Some off /\ acc.1.1 !! i = Some (sealed_node off i old);
  em_values : acc.1.2 = take k order ≫= vals;
  em_blocks : length acc.2 = (k + 31) / 32;
  em_base blk : blk * 32 < k -> acc.2 !! blk = Some (rank (blk * 32));
}.

Lemma rank_S i old : order !! i = Some old -> rank (S i) = rank i + length (vals old).
Proof.
  intros H. unfold rank. rewrite (take_S_r _ _ _ H), bind_app, length_app. simpl.
  by rewrite app_nil_r.
Qed.

Lemma rank_le i : rank i <= 3 * i.
Proof.
  unfold rank. assert (H : forall l, length (l ≫= vals) <= 3 * length l).
  { induction l as [|x l IH]; [done|]. rewrite bind_cons, length_app. cbn [length].
    pose proof (length_node_values (node_at b x)). unfold vals at 1. lia. }
  etrans; [apply H|]. rewrite length_take. lia.
Qed.

Lemma emit_blocks k : (if k mod 32 =? 0 then S ((k + 31) / 32) else (k + 31) / 32) = (S k + 31) / 32.
Proof.
  pose proof (Nat.div_mod k 32 ltac:(lia)). pose proof (Nat.mod_upper_bound k 32 ltac:(lia)).
  destruct (Nat.eqb_spec (k mod 32) 0) as [E|E].
  - replace (k + 31) with (31 + (k / 32) * 32) by lia.
    replace (S k + 31) with (0 + S (k / 32) * 32) by lia.
    rewrite !Nat.div_add by lia. simpl. lia.
  - replace (k + 31) with ((k mod 32 - 1) + S (k / 32) * 32) by lia.
    replace (S k + 31) with (k mod 32 + S (k / 32) * 32) by lia.
    rewrite !Nat.div_add by lia. rewrite (Nat.div_small (k mod 32)), Nat.div_small by lia. done.
Qed.

Lemma emit_node_spec k acc old :
  emitted k acc -> order !! k = Some old ->
  exists acc', emit_node (nodes b) offs first acc (k, old) = Some acc' /\ emitted (S k) acc'.
Proof.
  destruct acc as [[ns vs] vb]. intros [Hl Hnode Hv Hbl Hbase] Hk. cbn [fst snd] in *.
  pose proof (bd_bound _ _ _ _ Hdone _ _ Hk) as Hold.
  assert (HkN : k < N) by (rewrite <- (bd_length _ _ _ _ Hdone); by eapply lookup_lt_Some).
  assert (Hlen : length vs = rank k) by by rewrite Hv.
  assert (Hvb : exists vb', (if k mod VALUE_BLOCK =? 0
      then base ← u32_try_from (length vs); Some (vb ++ [base]) else Some vb) = Some vb' /\
    length vb' = (S k + 31) / 32 /\
    forall blk, blk * 32 < S k -> vb' !! blk = Some (rank (blk * 32))).
  { rewrite <- emit_blocks. change VALUE_BLOCK with 32.
    destruct (Nat.eqb_spec (k mod 32) 0) as [E|E].
    - unfold u32_try_from. rewrite Hlen. pose proof (rank_le k).
      destruct (Z.leb_spec (Z.of_nat (rank k)) u32_max); [|unfold u32_max in *; lia].
      cbn [mbind option_bind]. eexists. split; [done|]. split; [rewrite length_app; cbn [length]; lia|].
      intros blk Hblk. pose proof (Nat.div_mod k 32 ltac:(lia)) as Hdm.
      assert (Hkb : (k + 31) / 32 = k / 32).
      { replace (k + 31) with (31 + (k / 32) * 32) by lia. rewrite Nat.div_add by lia. done. }
      destruct (decide (blk = k / 32)) as [->|Hne].
      + rewrite lookup_app_r, Hbl, Hkb, Nat.sub_diag by lia. by replace (k / 32 * 32) with k by lia.
      + rewrite lookup_app_l by lia. apply Hbase. lia.
    - eexists. split_and!; [done|done|]. intros blk Hblk. apply Hbase.
      pose proof (Nat.div_mod k 32 ltac:(lia)).
      destruct (decide (blk * 32 = k)) as [<-|]; [|lia].
      by rewrite Nat.mod_mul in E by lia. }
  destruct Hvb as (vb' & Hvb & Hbl' & Hbase').
  unfold emit_node. rewrite Hvb. cbn [mbind option_bind].
  rewrite nodes_lookup by done. cbn [mbind option_bind].
  destruct (Hoffs old Hold) as [off Hoff]. rewrite Hoff. cbn [mbind option_bind].
  rewrite (bd_first _ _ _ _ Hdone k HkN). cbn [mbind option_bind].
  eexists. split; [done|]. split; cbn [fst snd].
  - rewrite length_app. simpl. lia.
  - intros i old' Hi Hold'. destruct (decide (i = k)) as [->|Hne].
    + simplify_eq. exists off. split; [done|]. by rewrite list_lookup_middle.
    + rewrite lookup_app_l by lia. apply Hnode; [lia|done].
  - rewrite Hv, (take_S_r _ _ _ Hk), bind_app. simpl. by rewrite app_nil_r.
  - done.
  - done.
Qed.

Lemma emit_spec :
  exists acc, foldlM (emit_node (nodes b) offs first) ([], [], []) (imap pair order) = Some acc /\
    emitted N acc.
Proof.
  edestruct (foldlM_invariant (fun seen acc => emitted (length seen) acc)
    (emit_node (nodes b) offs first) ([], [], []) (imap pair order)) as (acc & Hr & He).
  - split; simpl; try done; intros; lia.
  - intros seen [k old] rest acc Hes Hinv.
    assert (Hk : imap pair order !! length seen = Some (k, old)).
    { rewrite Hes. by apply list_lookup_middle. }
    rewrite list_lookup_imap in Hk. apply fmap_Some in Hk as (old' & Ho & [= -> <-]).
    destruct (emit_node_spec _ _ _ Hinv Ho) as (acc' & Hr & He). exists acc'. split; [done|].
    by rewrite length_app, Nat.add_1_r.
  - exists acc. split; [done|]. by rewrite length_imap, (bd_length _ _ _ _ Hdone) in He.
Qed.

End Emit.

(** ** The frozen form of a builder *)

Section Frozen.
Context {T : Type} `{HO : HashOrder}.

Definition group (b : Builder T) (lbl : list bytes) (p : nat) : list nat :=
  sort_group (nodes b) lbl (kids_of (edge_order (edges b)) p).

(** [s] is the layout of [b] with nodes renumbered by [order]. *)
Record frozen (b : Builder T) (s : Sealed T) (lbl : list bytes) (order first : list nat) : Prop := {
  fz_size : (Z.of_nat (length (nodes b)) < 2 ^ 29)%Z;
  fz_labels a i : labels b !! a = Some i <-> lbl !! i = Some a;
  fz_done : bfs_done (length (nodes b)) (group b lbl) order first;
  fz_length : length (s_nodes s) = S (length (nodes b));
  fz_node i old : order !! i = Some old -> exists o a rest,
    lbl !! bn_label (node_at b old) = Some a /\
    o <= length (arena s) /\ drop o (arena s) = a ++ dot :: rest /\
    s_nodes s !! i = Some (sealed_node b (group b lbl) order (Z.of_nat o) i old);
  fz_sentinel : s_nodes s !! length (nodes b) = Some (mkNode 0 (Z.of_nat (length (nodes b))));
  fz_values : values s = order ≫= vals b;
  fz_base blk : blk * 32 < length (nodes b) -> value_base s !! blk = Some (rank b order (blk * 32));
}.

Lemma group_facts b lbl :
  wf b -> nodes b <> [] ->
  (forall p, NoDup (group b lbl p)) /\
  (forall p c, c ∈ group b lbl p <-> exists l, edges b !! (p, l) = Some c) /\
  (forall p c, c ∈ group b lbl p -> p < c < length (nodes b)) /\
  (forall p q c, c ∈ group b lbl p -> c ∈ group b lbl q -> p = q) /\
  (forall c, 0 < c < length (nodes b) -> exists p, c ∈ group b lbl p).
Proof.
  intros Hwf Hne.
  assert (Hin : forall p c, c ∈ group b lbl p <-> exists l, edges b !! (p, l) = Some c).
  { intros p c. unfold group. rewrite sort_group_perm. by apply elem_of_kids. }
  split_and!; [|done|..].
  - intros p. unfold group. rewrite sort_group_perm. by apply NoDup_kids.
  - intros p c [l Hl]%Hin. by apply (wf_edges b Hwf) in Hl as [? _].
  - intros p q c [l Hl]%Hin [l' Hl']%Hin.
    pose proof (wf_edges_inj b Hwf _ _ _ Hl Hl'). by simplify_eq.
  - intros c Hc. destruct (wf_reached b Hwf c Hc) as [[p l] Hl]. exists p. apply Hin. by exists l.
Qed.

(** Freezing does not panic within the documented limits. *)
Lemma into_sealed_frozen b :
  wf b -> nodes b <> [] ->
  (Z.of_nat (length (nodes b)) < 2 ^ 29)%Z ->
  (forall lbl, label_by_id (labels b) = Some lbl -> (total_label_bytes lbl <= u32_max)%Z) ->
  exists s lbl order first, into_sealed b = Some s /\ frozen b s lbl order first.
Proof.
  intros Hwf Hne HN Hbytes. unfold into_sealed.
  replace (ensure_root b) with b by (unfold ensure_root; by destruct (nodes b)).
  change (Z.shiftl 1 MASK_SHIFT) with (2 ^ 29)%Z.
  rewrite (proj2 (Z.ltb_lt _ _) HN). cbn [negb].
  set (n := length (nodes b)) in *. set (es := edge_order (edges b)).
  pose proof (nodes_pos b Hne) as Hpos. fold n in Hpos.
  rewrite count_children_spec by (by apply es_parents). cbn [mbind option_bind].
  rewrite prefix_sums_spec. cbn [mbind option_bind].
  destruct (fill_children_spec n es) as (ch & -> & Hlch & Hch);
    [done|by apply es_parents|by apply length_es|]. cbn [mbind option_bind].
  destruct (label_by_id_spec b Hwf) as (lbl & Hlbl & Hllen & Hl). rewrite Hlbl. cbn [mbind option_bind].
  destruct (sort_groups_spec (nodes b) lbl es ch) as (ch' & Hsg & Hch').
  { fold n. rewrite start_of_total by (by apply es_parents). rewrite Hlch. unfold es.
    rewrite length_es by done. done. }
  { done. }
  fold n in Hsg. rewrite Hsg. cbn [mbind option_bind].
  destruct (group_facts b lbl Hwf Hne) as (G1 & _ & G3 & G4 & G5).
  destruct (bfs_spec n (tabulate (S n) (fun j => start_of es (S j))) ch' (group b lbl)
    Hpos) as (order & first & -> & Hdone); [|done..|].
  { intros p Hp. rewrite run_spec by lia. cbn [mbind option_bind]. by apply Hch'. }
  cbn [mbind option_bind]. rewrite (proj2 (Z.leb_le _ _) (Hbytes lbl Hlbl)). cbn [negb].
  destruct (build_arena lbl) as [offs ar] eqn:Ear.
  destruct (build_arena_spec _ _ _ Ear) as [_ Har].
  assert (Hlab : forall i, i < n -> exists a, lbl !! bn_label (node_at b i) = Some a).
  { intros i Hi. apply lookup_lt_is_Some_2. rewrite Hllen. by apply node_label_bound. }
  destruct (emit_spec b offs (group b lbl) order first HN) as ([[ns vs] vb] & -> & He); [|done|].
  { intros i Hi. destruct (Hlab i Hi) as [a Ha]. destruct (Har _ _ Ha) as (o & rest & Ho & _).
    rewrite Ho. by eexists. }
  cbn [mbind option_bind]. eexists _, lbl, order, first. split; [reflexivity|].
  destruct He as [Hlns Hns Hvs Hlvb Hvb]. cbn [fst snd] in *. fold n in Hlns, Hns, Hvb, Hvs.
  split; cbn [s_nodes values value_base arena]; fold n; try done.
  - rewrite length_app, Hlns. simpl. lia.
  - intros i old Hi. pose proof (bd_bound _ _ _ _ Hdone _ _ Hi) as Hold.
    assert (Hin : i < n) by (rewrite <- (bd_length _ _ _ _ Hdone); by eapply lookup_lt_Some).
    destruct (Hlab old Hold) as [a Ha]. destruct (Har _ _ Ha) as (o & rest & Ho & Hole & Hd).
    exists o, a, rest. split_and!; [done|done|done|].
    rewrite lookup_app_l by lia. destruct (Hns i old Hin Hi) as (off & Hoff & ->).
    by simplify_eq.
  - by rewrite list_lookup_middle by done.
  - rewrite Hvs, take_ge; [done|]. by rewrite (bd_length _ _ _ _ Hdone).
Qed.

(** ** The accessors answer like the builder *)

Context (b : Builder T) (s : Sealed T) (lbl : list bytes) (order first : list nat).
Hypothesis (Hwf : wf b) (Hne : nodes b <> []) (Hfz : frozen b s lbl order first).
Let N := length (nodes b).
Let K := group b lbl.

Lemma order_lt i old : order !! i = Some old -> i < N.
Proof.
  intros H. unfold N. rewrite <- (bd_length _ _ _ _ (fz_done _ _ _ _ _ Hfz)).
  by eapply lookup_lt_Some.
Qed.

Lemma order_lookup i : i < N -> exists old, order !! i = Some old.
Proof.
  intros H. apply lookup_lt_is_Some_2. by rewrite (bd_length _ _ _ _ (fz_done _ _ _ _ _ Hfz)).
Qed.

Lemma first_of_le i : i <= N -> first_of K order i <= N.
Proof.
  intros Hi. pose proof (bd_last _ _ _ _ (fz_done _ _ _ _ _ Hfz)) as Hlast.
  fold N K in Hlast. rewrite <- Hlast. unfold first_of. apply le_n_S.
  rewrite <- (take_drop i (take N order)) at 1. rewrite take_take, Nat.min_l by done.
  rewrite bind_app, length_app. lia.
Qed.

Lemma sealed_first_child i :
  i <= N -> exists nd, s_nodes s !! i = Some nd /\ first_child nd = first_of K order i.
Proof.
  intros Hi. pose proof (fz_size _ _ _ _ _ Hfz) as HN. fold N in HN.
  pose proof (first_of_le i Hi) as Hf. destruct (decide (i = N)) as [->|HiN].
  - eexists. split; [apply (fz_sentinel _ _ _ _ _ Hfz)|]. unfold first_child. simpl.
    pose proof (pack_low (Z.of_nat N) 0 ltac:(lia)) as Hp. fold N.
    rewrite Z.shiftl_0_l, Z.lor_0_r in Hp. rewrite Hp, Nat2Z.id. symmetry.
    apply (bd_last _ _ _ _ (fz_done _ _ _ _ _ Hfz)).
  - destruct (order_lookup i) as [old Hold]; [lia|].
    destruct (fz_node _ _ _ _ _ Hfz i old Hold) as (o & a & rest & _ & _ & _ & Hnd).
    eexists. split; [exact Hnd|]. unfold first_child, sealed_node; simpl.
    rewrite pack_low by (fold K; lia). by rewrite Nat2Z.id.
Qed.

Lemma sealed_children i old :
  order !! i = Some old ->
  exists kids, children s i = Some (first_of K order i, kids) /\
    length kids = length (K old) /\
    forall j, j < length (K old) -> kids !! j = s_nodes s !! (first_of K order i + j).
Proof.
  intros Hi. pose proof (order_lt _ _ Hi) as HiN.
  destruct (sealed_first_child i) as (nd & Hnd & Hf); [lia|].
  destruct (sealed_first_child (S i)) as (nd' & Hnd' & Hf'); [lia|].
  unfold children. rewrite Hnd. cbn [mbind option_bind]. rewrite Hnd'. cbn [mbind option_bind].
  pose proof (first_of_le (S i) HiN) as Hle.
  pose proof (bd_next _ _ _ _ (fz_done _ _ _ _ _ Hfz) _ _ Hi) as Hnext. fold K in Hnext.
  pose proof (fz_length _ _ _ _ _ Hfz) as Hlen. fold N in Hlen.
  rewrite Hf, Hf', slice_Some by lia. eexists. split; [reflexivity|]. split.
  - rewrite length_take, length_drop. lia.
  - intros j Hj. by rewrite lookup_take_lt, lookup_drop by lia.
Qed.

(** The label a sealed child node carries. *)
Lemma sealed_kid i old j c :
  order !! i = Some old -> K old !! j = Some c ->
  order !! (first_of K order i + j) = Some c /\
  exists nd a l, s_nodes s !! (first_of K order i + j) = Some nd /\
    edges b !! (old, l) = Some c /\ labels b !! a = Some l /\ node_label (nodes b) lbl c = a /\
    forall ci q, cmp_label s ci (n_label nd) q =
      Some (bytes_cmp a (if ci then to_ascii_lowercase q else q)).
Proof.
  intros Hi Hj. pose proof (lookup_lt_Some _ _ _ Hj) as Hlt.
  assert (Ho : order !! (first_of K order i + j) = Some c).
  { etrans; [apply (bd_kids _ _ _ _ (fz_done _ _ _ _ _ Hfz) _ _ _ Hi Hlt)|done]. }
  split; [done|].
  destruct (fz_node _ _ _ _ _ Hfz _ _ Ho) as (o & a & rest & Ha & Hole & Hd & Hnd).
  destruct (group_facts b lbl Hwf Hne) as (_ & Hin & _).
  destruct (proj1 (Hin old c)) as [l Hl]; [by eapply list_elem_of_lookup_2|].
  destruct (wf_edges b Hwf _ _ _ Hl) as (Hcb & _ & Hlc).
  assert (Hla : labels b !! a = Some l).
  { apply (fz_labels _ _ _ _ _ Hfz). by rewrite <- Hlc. }
  eexists _, a, l. split_and!; [exact Hnd|done|done| |].
  - unfold node_label. rewrite nodes_lookup by lia. cbn [mbind option_bind]. by rewrite Ha.
  - intros ci q. simpl. eapply cmp_label_spec; [by eapply wf_labels_dot|done|done].
Qed.

Lemma bytes_le_cmp x y q : bytes_le x y -> bytes_cmp x q = Gt -> bytes_cmp y q = Gt.
Proof.
  intros Hle Hgt. destruct (bytes_cmp y q) eqn:E; [| |done]; exfalso.
  - apply bytes_cmp_eq in E as ->. by apply Hle.
  - assert (H : bytes_le x q); [|by apply H].
    etrans; [exact Hle|]. unfold bytes_le. by rewrite E.
Qed.

Lemma bytes_le_cmp_lt x y q : bytes_le x y -> bytes_cmp y q = Lt -> bytes_cmp x q = Lt.
Proof.
  intros Hle Hlt. destruct (bytes_cmp x q) eqn:E; [| |]; [exfalso|done|exfalso].
  - apply bytes_cmp_eq in E as ->. apply Hle. by rewrite bytes_cmp_antisym, Hlt.
  - rewrite (bytes_le_cmp _ _ _ Hle E) in Hlt. done.
Qed.

(** [find_child] is the builder's [child], renumbered. *)
Lemma find_child_sim ci i old q :
  order !! i = Some old ->
  exists r, find_child s ci i q = Some r /\
    match child b old (if ci then to_ascii_lowercase q else q) with
    | Some c => exists i', r = Some i' /\ order !! i' = Some c
    | None => r = None
    end.
Proof.
  intros Hi. destruct (sealed_children _ _ Hi) as (kids & Hch & Hlen & Hkids).
  unfold find_child. rewrite Hch. cbn [mbind option_bind].
  set (q' := if ci then to_ascii_lowercase q else q).
  set (g := fun c => default Lt (cmp_label s ci (n_label c) q)).
  assert (Hk : forall j nd, kids !! j = Some nd -> exists c l,
    K old !! j = Some c /\ order !! (first_of K order i + j) = Some c /\
    edges b !! (old, l) = Some c /\ labels b !! node_label (nodes b) lbl c = Some l /\
    cmp_label s ci (n_label nd) q = Some (bytes_cmp (node_label (nodes b) lbl c) q')).
  { intros j nd Hj. pose proof (lookup_lt_Some _ _ _ Hj) as Hlt. rewrite Hlen in Hlt.
    destruct (lookup_lt_is_Some_2 _ _ Hlt) as [c Hc].
    destruct (sealed_kid _ _ _ _ Hi Hc) as (Ho & nd' & a & l & Hnd & He & Hl & <- & Hcmp).
    rewrite Hkids, Hnd in Hj by done. simplify_eq. by exists c, l. }
  rewrite (binary_search_by_ext _ (fun c => Some (g c))).
  2:{ intros nd [j Hj]%list_elem_of_lookup. destruct (Hk j nd Hj) as (c & l & _ & _ & _ & _ & E).
      unfold g. by rewrite E. }
  assert (Hg : forall j nd, kids !! j = Some nd -> exists c,
    K old !! j = Some c /\ g nd = bytes_cmp (node_label (nodes b) lbl c) q').
  { intros j nd Hj. destruct (Hk j nd Hj) as (c & l & Hc & _ & _ & _ & E).
    exists c. split; [done|]. unfold g. by rewrite E. }
  destruct (binary_search_by_spec g kids) as (r & -> & Hr).
  { intros j j' x y Hjj Hx Hy. destruct (Hg _ _ Hx) as (c & Hc & ->), (Hg _ _ Hy) as (c' & Hc' & ->).
    pose proof (sort_group_sorted _ _ _ _ _ _ _ Hjj Hc Hc') as Hle.
    split; [by apply bytes_le_cmp|by apply bytes_le_cmp_lt]. }
  cbn [mbind option_bind]. eexists. split; [reflexivity|]. destruct r as [j|j].
  - destruct Hr as (nd & Hnd & Hgnd). destruct (Hk _ _ Hnd) as (c & l & Hc & Ho & He & Hl & E).
    unfold g in Hgnd. rewrite E in Hgnd. simpl in Hgnd. apply bytes_cmp_eq in Hgnd.
    rewrite Hgnd in Hl. unfold child. rewrite Hl. cbn [mbind option_bind]. rewrite He.
    by eexists.
  - destruct Hr as (_ & Hlo & Hhi). destruct (child b old q') as [c|] eqn:Ec; [exfalso|done].
    apply child_Some in Ec as (l & Hl & He).
    destruct (group_facts b lbl Hwf Hne) as (_ & Hin & _).
    assert (Hc : c ∈ K old) by (apply Hin; by exists l).
    apply list_elem_of_lookup in Hc as [j' Hj']. pose proof (lookup_lt_Some _ _ _ Hj') as Hlt.
    rewrite <- Hlen in Hlt. destruct (lookup_lt_is_Some_2 _ _ Hlt) as [nd Hnd].
    destruct (Hk _ _ Hnd) as (c' & l' & Hc' & _ & He' & Hl' & E). simplify_eq.
    pose proof (wf_edges_inj b Hwf _ _ _ He He') as [= ->].
    rewrite (wf_labels_inj b Hwf _ _ _ Hl' Hl) in E.
    assert (Heq : g nd = Eq) by (unfold g; rewrite E; by apply bytes_cmp_eq).
    destruct (decide (j' < j)) as [Hd|Hd].
    + by rewrite (Hlo _ _ Hd Hnd) in Heq.
    + rewrite (Hhi j' nd) in Heq; [done|lia|done].
Qed.

Lemma sealed_mask i old :
  order !! i = Some old ->
  exists nd, s_nodes s !! i = Some nd /\ mask nd = value_mask (node_at b old).
Proof.
  intros Hi. pose proof (order_lt _ _ Hi) as HiN.
  destruct (fz_node _ _ _ _ _ Hfz _ _ Hi) as (o & a & rest & _ & _ & _ & Hnd).
  eexists. split; [exact Hnd|]. unfold mask, sealed_node; simpl. apply pack_high.
  pose proof (first_of_le i ltac:(lia)). pose proof (fz_size _ _ _ _ _ Hfz).
  fold K. fold N in H0. lia.
Qed.

(** The sampled rank counts the values before a node. *)
Lemma value_index_rank i old :
  order !! i = Some old -> value_index false s i = Some (rank b order i).
Proof.
  intros Hi. pose proof (order_lt _ _ Hi) as HiN. unfold value_index.
  change VALUE_BLOCK with 32. set (blk := i / 32).
  assert (Hblk : blk * 32 <= i) by (pose proof (Nat.div_mod i 32 ltac:(lia)); unfold blk; lia).
  rewrite (fz_base _ _ _ _ _ Hfz) by (fold N; lia). cbn [mbind option_bind].
  pose proof (fz_length _ _ _ _ _ Hfz) as Hlen. fold N in Hlen.
  rewrite slice_Some by lia. cbn [mbind option_bind]. f_equal.
  assert (Hcount : forall d, blk * 32 + d <= i ->
    foldl (fun idx n => idx + count_ones (Z.shiftr (child_mask n) MASK_SHIFT))
      (rank b order (blk * 32)) (take d (drop (blk * 32) (s_nodes s))) =
    rank b order (blk * 32 + d)).
  { induction d as [|d IH]; intros Hd; [by rewrite Nat.add_0_r|].
    destruct (order_lookup (blk * 32 + d)) as [o Ho]; [lia|].
    destruct (sealed_mask _ _ Ho) as (nd & Hnd & Hm). unfold mask in Hm.
    rewrite (take_S_r _ d nd) by (by rewrite lookup_drop).
    rewrite foldl_app, IH by lia. simpl. rewrite Hm, count_ones_mask.
    replace (blk * 32 + S d) with (S (blk * 32 + d)) by lia.
    by rewrite (rank_S _ _ _ _ Ho). }
  rewrite Hcount by lia. f_equal. lia.
Qed.

Lemma values_lookup i old j v :
  order !! i = Some old -> vals b old !! j = Some v -> values s !! (rank b order i + j) = Some v.
Proof.
  intros Hi Hj. rewrite (fz_values _ _ _ _ _ Hfz).
  rewrite <- (take_drop_middle _ _ _ Hi), bind_app, bind_cons. unfold rank.
  rewrite take_app_le, take_take, Nat.min_id by (rewrite length_take; pose proof (lookup_lt_Some _ _ _ Hi); lia).
  rewrite lookup_app_r by lia. rewrite Nat.add_comm, Nat.add_sub.
  rewrite lookup_app_l; [done|]. by eapply lookup_lt_Some.
Qed.

(** A present value is found at its rank; zero-sized values need no index. *)
Lemma values_at zst i old j v :
  (zst = true -> forall x y : T, x = y) ->
  order !! i = Some old -> vals b old !! j = Some v ->
  (k ← value_index zst s i; w ← values s !! (k + j); Some (Some w)) = Some (Some v).
Proof.
  intros Hz Hi Hj. pose proof (values_lookup _ _ _ _ Hi Hj) as Hv. destruct zst.
  - cbn [value_index mbind option_bind].
    destruct (lookup_lt_is_Some_2 (values s) (0 + j)) as [w Hw].
    { apply lookup_lt_Some in Hv. lia. }
    rewrite Hw. cbn [mbind option_bind]. by rewrite (Hz eq_refl w v).
  - rewrite (value_index_rank _ _ Hi). cbn [mbind option_bind]. rewrite Hv. done.
Qed.

Lemma sealed_slot_sim zst kind i old :
  (zst = true -> forall x y : T, x = y) -> order !! i = Some old ->
  sealed_slot zst s kind i = Some (node_slot kind (node_at b old)).
Proof.
  intros Hz Hi. destruct (sealed_mask _ _ Hi) as (nd & Hnd & Hm).
  pose proof (fun j v => values_at zst i old j v Hz Hi) as Hv. unfold vals in Hv.
  unfold sealed_slot, sealed_exact, sealed_star, sealed_dot. rewrite Hnd. cbn [mbind option_bind].
  rewrite Hm. destruct (node_at b old) as [l [e|] [st|] [d|]];
    destruct kind; try done.
  all: cbn [bn_exact bn_star bn_dot node_slot node_values option_list app] in *.
  all: try (rewrite <- (Hv 0 _ eq_refl);
    destruct (value_index zst s i) as [k|]; cbn [mbind option_bind]; by rewrite ?Nat.add_0_r).
  all: try (rewrite <- (Hv 1 _ eq_refl); done).
  all: try (rewrite <- (Hv 2 _ eq_refl); done).
Qed.

End Frozen.

End Layout.
