(* ===== verification/DomainTrie.v ===== *)
(** * The domain trie (crates/meow-trie/src/trie.rs)

    The public type: a builder that [seal] freezes, with its key syntax
    ([+.x], [*.x], [.x], [x]) and its three searches. The theorems relate
    both representations to one abstract map from slots to values, and that
    map to string matching on host names. *)

From S2P Require Import Prelude Strings Vec Trie TrieSealed TrieLayout.

Module DomainTrie.
Import Trie Sealed Layout.

(** [size_of::<T>() == 0]: the values of a zero-sized type are all alike. *)
Class Sized (T : Type) := {
  is_zst : bool;
  zst_unique : is_zst = true -> forall x y : T, x = y;
}.

(** [T: Ord], as far as [<=] goes. *)
Class RustOrd (T : Type) := {
  ord_leb : T -> T -> bool;
  ord_leb_total x y : ord_leb x y = true \/ ord_leb y x = true;
  ord_leb_trans x y z : ord_leb x y = true -> ord_leb y z = true -> ord_leb x z = true;
}.

#[export] Program Instance sized_nat : Sized nat := {| is_zst := false |}.
Next Obligation. done. Qed.
#[export] Program Instance sized_unit : Sized unit := {| is_zst := true |}.
Next Obligation. by destruct x, y. Qed.
#[export] Program Instance ord_nat : RustOrd nat := {| ord_leb := Nat.leb |}.
Next Obligation. intros x y. rewrite !Nat.leb_le. lia. Qed.
Next Obligation. intros x y z. rewrite !Nat.leb_le. lia. Qed.

Section DomainTrie.
Context {T : Type} `{HO : HashOrder, UL : UnicodeLower, SZ : Sized T}.

Inductive TrieState :=
  | Building (b : Builder T)
  | Frozen (s : Sealed T).

Record DomainTrie := mkTrie { state : TrieState; len : nat }.

Definition new : DomainTrie := mkTrie (Building new_builder) 0.

Definition insert_into_tree (t : DomainTrie) (base_domain : bytes) (value : T)
    (kind : MatchKind) (mode : InsertMode) : option DomainTrie :=
  match state t with
  | Frozen _ => Some t
  | Building b =>
      b ← builder_insert b base_domain value kind mode;
      Some (mkTrie (Building b) (len t))
  end.

Definition add_len (k : nat) (t : DomainTrie) : DomainTrie := mkTrie (state t) (len t + k).

Definition insert_inner (t : DomainTrie) (domain : bytes) (data : T) (mode : InsertMode) :
    option (bool * DomainTrie) :=
  let trimmed := trim domain in
  let domain :=
    if existsb (fun c => is_ascii_uppercase c || negb (is_ascii_byte c)) trimmed
    then to_lowercase trimmed else trimmed in
  if bool_decide (trim_end_byte dot domain = []) then Some (false, t)
  else match strip_prefix (b! "+.") domain with
  | Some rest =>
      let rest := trim_end_byte dot rest in
      if bool_decide (rest = []) then Some (false, t)
      else
        t ← insert_into_tree t rest data Exact mode;
        t ← insert_into_tree t rest data Dot mode;
        Some (true, add_len 2 t)
  | None =>
  match strip_prefix (b! "*.") domain with
  | Some rest =>
      let rest := trim_end_byte dot rest in
      if bool_decide (rest = []) then Some (false, t)
      else t ← insert_into_tree t rest data Star mode; Some (true, add_len 1 t)
  | None =>
  match strip_prefix [dot] domain with
  | Some rest =>
      let rest := trim_end_byte dot rest in
      if bool_decide (rest = []) then Some (false, t)
      else t ← insert_into_tree t rest data Dot mode; Some (true, add_len 1 t)
  | None =>
      t ← insert_into_tree t (trim_end_byte dot domain) data Exact mode;
      Some (true, add_len 1 t)
  end end end.

Definition insert (t : DomainTrie) (domain : bytes) (data : T) : option (bool * DomainTrie) :=
  insert_inner t domain data FirstWins.
Definition insert_overwrite (t : DomainTrie) (domain : bytes) (data : T) :
    option (bool * DomainTrie) :=
  insert_inner t domain data Overwrite.

Definition seal (t : DomainTrie) : option DomainTrie :=
  match state t with
  | Building b => s ← into_sealed b; Some (mkTrie (Frozen s) (len t))
  | Frozen _ => Some t
  end.

(** ** Searching

    The two arms of each search run one loop over different accessors. *)
Record View := mkView {
  v_child : bool -> nat -> bytes -> option (option nat);
  v_slot : MatchKind -> nat -> option (option T);
}.

Definition builder_view (b : Builder T) : View :=
  mkView
    (fun ci node label => Some (if ci then child_ci b node label else child b node label))
    (fun kind node => n ← nodes b !! node; Some (node_slot kind n)).

Definition sealed_view (s : Sealed T) : View :=
  mkView (find_child s) (sealed_slot is_zst s).

Definition view_of (t : DomainTrie) : View :=
  match state t with Building b => builder_view b | Frozen s => sealed_view s end.

Definition label_count (query : bytes) : nat := count_byte dot query + 1.

(** One round of the loop of [search_best] at node [child]: [inl] returns. *)
Definition best_step (v : View) (remaining child : nat) (best : option T) :
    option (T + option T) :=
  if remaining =? 0 then
    e ← v_slot v Exact child;
    Some (match e with Some x => inl x | None => inr best end)
  else if remaining =? 1 then
    st ← v_slot v Star child;
    match st with
    | Some x => Some (inr (Some x))
    | None =>
        d ← v_slot v Dot child;
        Some (inr (match d with Some x => Some x | None => best end))
    end
  else
    d ← v_slot v Dot child;
    Some (inr (match d with Some x => Some x | None => best end)).

Fixpoint best_loop (v : View) (ci : bool) (n d node : nat) (ls : list bytes) (best : option T) :
    option (option T) :=
  match ls with
  | [] => Some best
  | label :: ls =>
      c ← v_child v ci node label;
      match c with
      | None => Some best
      | Some child =>
          r ← best_step v (n - d - 1) child best;
          match r with
          | inl x => Some (Some x)
          | inr best => best_loop v ci n (S d) child ls best
          end
      end
  end.

Definition search_best (t : DomainTrie) (ci : bool) (query : bytes) : option (option T) :=
  best_loop (view_of t) ci (label_count query) 0 0 (rsplit dot query) None.

Definition search (t : DomainTrie) (domain : bytes) : option (option T) :=
  if len t =? 0 then Some None
  else
    let trimmed := trim domain in
    let query := trim_end_byte dot trimmed in
    if bool_decide (query = []) then Some None
    else search_best t (has_uppercase trimmed) query.

Definition search_normalized (t : DomainTrie) (domain_lower : bytes) : option (option T) :=
  if len t =? 0 then Some None
  else
    let query := trim_end_byte dot domain_lower in
    if bool_decide (query = []) then Some None else search_best t false query.

Definition is_empty (t : DomainTrie) : bool := len t =? 0.

Section Min.
Context `{RO : RustOrd T}.

Definition fold_min (best candidate : option T) : option T :=
  match candidate with
  | None => best
  | Some c =>
      match best with
      | Some current => if ord_leb current c then best else Some c
      | None => Some c
      end
  end.

Definition min_step (v : View) (remaining child : nat) (best : option T) : option (option T) :=
  if remaining =? 0 then
    e ← v_slot v Exact child; Some (fold_min best e)
  else
    best ← (if remaining =? 1 then st ← v_slot v Star child; Some (fold_min best st)
            else Some best);
    d ← v_slot v Dot child; Some (fold_min best d).

Fixpoint min_loop (v : View) (n d node : nat) (ls : list bytes) (best : option T) :
    option (option T) :=
  match ls with
  | [] => Some best
  | label :: ls =>
      c ← v_child v false node label;
      match c with
      | None => Some best
      | Some child =>
          best ← min_step v (n - d - 1) child best;
          min_loop v n (S d) child ls best
      end
  end.

Definition search_min_normalized (t : DomainTrie) (domain_lower : bytes) : option (option T) :=
  if len t =? 0 then Some None
  else
    let query := trim_end_byte dot domain_lower in
    if bool_decide (query = []) then Some None
    else min_loop (view_of t) (label_count query) 0 0 (rsplit dot query) None.

End Min.

End DomainTrie.
Arguments TrieState : clear implicits.
Arguments DomainTrie : clear implicits.
Arguments View : clear implicits.

End DomainTrie.
