(* ===== verification/TrieSpec.v ===== *)
(** * What the domain trie promises

    The abstract trie is a finite map from slots (a match kind and a base
    domain) to values. A query is answered from the list of slots that match
    it, most specific first. The theorems show that both representations of
    the trie implement this map, through every sequence of inserts and
    seals. *)

From S2P Require Import Prelude Strings Vec Trie TrieSealed TrieLayout DomainTrie.

Module TrieSpec.
Import Trie Sealed Layout DomainTrie.

(** ** The abstract trie *)

#[export] Instance MatchKind_countable : Countable MatchKind.
Proof.
  refine (inj_countable' (fun k => match k with Exact => 0 | Star => 1 | Dot => 2 end)
    (fun n => match n with 0 => Exact | 1 => Star | _ => Dot end) _).
  by intros [].
Defined.

Abbreviation key := (MatchKind * bytes)%type.

(** The parent domains of a host, longest first. *)
Fixpoint parents (host : bytes) : list bytes :=
  match host with
  | [] => []
  | c :: host => if decide (c = dot) then host :: parents host else parents host
  end.

(** The slots that match a host, most specific first: the host itself, then
    its parents from the deepest up; [*.] reaches one label down only. *)
Definition priority (host : bytes) : list key :=
  (Exact, host) ::
  match parents host with
  | [] => []
  | p :: ps => (Star, p) :: (Dot, p) :: (pair Dot <$> ps)
  end.

(** When a slot matches a host. *)
Definition key_matches (k : key) (host : bytes) : Prop :=
  match k with
  | (Exact, base) => host = base
  | (Star, base) => exists pre, dot ∉ pre /\ host = pre ++ dot :: base
  | (Dot, base) => exists pre, host = pre ++ dot :: base
  end.

Lemma elem_of_parents host base :
  base ∈ parents host <-> exists pre, host = pre ++ dot :: base.
Proof.
  induction host as [|c host IH]; simpl.
  - split; [by intros ?%not_elem_of_nil|]. intros [[|? ?] ?]; done.
  - case_decide as Hc; [rewrite elem_of_cons|]; rewrite IH; clear IH; split.
    + intros [->|[pre ->]]; [exists []; by subst|by exists (c :: pre)].
    + intros [[|d pre] E]; simplify_eq/=; [by left|right; by exists pre].
    + intros [pre ->]. by exists (c :: pre).
    + intros [[|d pre] E]; simplify_eq/=. by exists pre.
Qed.

Lemma head_parents host base ps :
  parents host = base :: ps <->
  exists pre, dot ∉ pre /\ host = pre ++ dot :: base /\ ps = parents base.
Proof.
  induction host as [|c host IH]; simpl.
  - split; [done|]. by intros ([|? ?] & _ & ? & _).
  - case_decide as Hc.
    + subst c. split.
      * intros [= <- <-]. exists []. split_and!; [apply not_elem_of_nil|done|done].
      * intros ([|d pre] & Hd & E & ->); simplify_eq/=; [done|]. set_solver.
    + rewrite IH. split.
      * intros (pre & Hp & -> & ->). exists (c :: pre). split_and!; [set_solver|done|done].
      * intros ([|d pre] & Hd & E & ->); simplify_eq/=. exists pre. split_and!; [set_solver|done|done].
Qed.

(** The priority list holds exactly the matching slots. *)
Lemma elem_of_priority k host : k ∈ priority host <-> key_matches k host.
Proof.
  unfold priority. rewrite elem_of_cons. destruct (parents host) as [|p ps] eqn:E.
  - assert (Hno : forall pre base, host <> pre ++ dot :: base).
    { intros pre base Eh. assert (H : base ∈ parents host) by (apply elem_of_parents; by exists pre).
      rewrite E in H. by apply not_elem_of_nil in H. }
    destruct k as [[] base]; simpl.
    + split; [intros [?|?%not_elem_of_nil]; by simplify_eq|intros ->; by left].
    + split; [intros [?|?%not_elem_of_nil]; done|]. intros (pre & _ & Eh). by apply Hno in Eh.
    + split; [intros [?|?%not_elem_of_nil]; done|]. intros (pre & Eh). by apply Hno in Eh.
  - rewrite !elem_of_cons, list_elem_of_fmap. destruct k as [[] base]; simpl.
    + split; [|intros ->; by left]. intros [?|[?|[?|(? & ? & ?)]]]; by simplify_eq.
    + split.
      * intros [?|[?|[?|(? & ? & ?)]]]; simplify_eq.
        apply head_parents in E as (pre & ? & ? & _). by exists pre.
      * intros (pre & Hp & Eh). right; left. f_equal.
        assert (H : parents host = base :: parents base) by (apply head_parents; by exists pre).
        rewrite E in H. by simplify_eq.
    + rewrite <- elem_of_parents, E, elem_of_cons. split.
      * intros [?|[?|[?|(? & ? & ?)]]]; simplify_eq; auto.
      * intros [->|H]; right; right; [by left|right; by exists base].
Qed.

Section Spec.
Context {T : Type}.
Implicit Types m : gmap key T.

(** The slots a domain key writes; none when the key is rejected. *)
Context `{UL : UnicodeLower}.

Definition normal_key (domain : bytes) : bytes :=
  let trimmed := trim domain in
  if existsb (fun c => is_ascii_uppercase c || negb (is_ascii_byte c)) trimmed
  then to_lowercase trimmed else trimmed.

Definition base_slots (kinds : list MatchKind) (base : bytes) : list key :=
  let base := trim_end_byte dot base in
  if bool_decide (base = []) then [] else (fun k => (k, base)) <$> kinds.

Definition key_slots (domain : bytes) : list key :=
  let domain := normal_key domain in
  match strip_prefix (b! "+.") domain, strip_prefix (b! "*.") domain,
        strip_prefix (b! ".") domain with
  | Some rest, _, _ => base_slots [Exact; Dot] rest
  | None, Some rest, _ => base_slots [Star] rest
  | None, None, Some rest => base_slots [Dot] rest
  | None, None, None => base_slots [Exact] domain
  end.

Definition write_key (mode : InsertMode) (v : T) (m : gmap key T) (k : key) : gmap key T :=
  match mode with
  | Overwrite => <[k := v]> m
  | FirstWins => match m !! k with Some _ => m | None => <[k := v]> m end
  end.

Definition abs_insert (m : gmap key T) (domain : bytes) (v : T) (mode : InsertMode) : gmap key T :=
  foldl (write_key mode v) m (key_slots domain).

(** The most specific value for a host. *)
Definition first_hit {A} (f : A -> option T) (l : list A) : option T := head (omap f l).
Definition best_match (m : gmap key T) (host : bytes) : option T :=
  first_hit (fun k => m !! k) (priority host).

Lemma first_hit_app {A} (f : A -> option T) l k :
  first_hit f (l ++ k) = match first_hit f l with Some x => Some x | None => first_hit f k end.
Proof.
  unfold first_hit. rewrite omap_app. by destruct (omap f l).
Qed.

Lemma first_hit_cons {A} (f : A -> option T) x l :
  first_hit f (x :: l) = match f x with Some y => Some y | None => first_hit f l end.
Proof. unfold first_hit. simpl. by destruct (f x). Qed.

Lemma first_hit_fmap {A B} (g : A -> B) (f : B -> option T) l :
  first_hit f (g <$> l) = first_hit (fun x => f (g x)) l.
Proof. induction l as [|x l IH]; [done|]. rewrite fmap_cons, !first_hit_cons. by rewrite IH. Qed.

Lemma first_hit_ext {A} (f g : A -> option T) l :
  (forall x, x ∈ l -> f x = g x) -> first_hit f l = first_hit g l.
Proof.
  induction l as [|x l IH]; intros H; [done|]. rewrite !first_hit_cons, H by set_solver.
  rewrite IH; [done|]. intros; apply H; set_solver.
Qed.

Lemma first_hit_None {A} (f : A -> option T) l :
  first_hit f l = None <-> forall x, x ∈ l -> f x = None.
Proof.
  induction l as [|x l IH]; [split; [intros _ ? ?%not_elem_of_nil|]; done|].
  rewrite first_hit_cons. setoid_rewrite elem_of_cons.
  destruct (f x) eqn:E; [|rewrite IH; naive_solver].
  split; [done|]. intros H. rewrite (H x) in E by (by left). done.
Qed.

End Spec.

(** ** The search loops over the builder *)

(** The priority list on label paths: the wildcard slots of the prefixes of
    length [k] down to 1, then the whole list. *)
Fixpoint wild (path : list bytes) (k : nat) : list (MatchKind * list bytes) :=
  match k with
  | O => []
  | S k' =>
      (if length path =? S k then [(Star, take k path); (Dot, take k path)]
       else [(Dot, take k path)]) ++ wild path k'
  end.

Definition priority_path (path : list bytes) : list (MatchKind * list bytes) :=
  (Exact, path) :: wild path (length path - 1).

Fixpoint dots (path : list bytes) (k : nat) : list (MatchKind * list bytes) :=
  match k with O => [] | S k' => (Dot, take k path) :: dots path k' end.

Lemma wild_dots path k : S k < length path -> wild path k = dots path k.
Proof.
  induction k as [|k IH]; intros H; [done|]. cbn [wild dots].
  rewrite (proj2 (Nat.eqb_neq _ _)) by lia. by rewrite IH by lia.
Qed.

Lemma dots_app path x k : k <= length path -> dots (path ++ x) k = dots path k.
Proof.
  induction k as [|k IH]; intros H; [done|]. cbn [dots].
  rewrite take_app_le by lia. by rewrite IH by lia.
Qed.

(** A host either has no dot or splits at its first one. *)
Lemma first_dot host :
  dot ∉ host \/ exists pre base, dot ∉ pre /\ host = pre ++ dot :: base.
Proof.
  induction host as [|c host IH]; [left; apply not_elem_of_nil|].
  destruct (decide (c = dot)) as [->|Hc].
  - right. exists [], host. split; [apply not_elem_of_nil|done].
  - destruct IH as [IH|(pre & base & Hp & ->)]; [left; set_solver|].
    right. exists (c :: pre), base. split; [set_solver|done].
Qed.

Lemma parents_no_dot host : dot ∉ host -> parents host = [].
Proof.
  intros H. destruct (parents host) as [|p ps] eqn:E; [done|].
  assert (Hp : p ∈ parents host) by (rewrite E; by left).
  apply elem_of_parents in Hp as [pre ->]. set_solver.
Qed.

Lemma parents_split pre base : dot ∉ pre -> parents (pre ++ dot :: base) = base :: parents base.
Proof. intros H. apply head_parents. by exists pre. Qed.

Definition path_key (k : key) : MatchKind * list bytes := (k.1, rsplit dot k.2).

Lemma rsplit_split pre base :
  dot ∉ pre -> rsplit dot (pre ++ dot :: base) = rsplit dot base ++ [pre].
Proof.
  intros H. rewrite rsplit_app_sep. f_equal. unfold rsplit. by rewrite split_no_sep.
Qed.

Lemma rsplit_pos host : 1 <= length (rsplit dot host).
Proof. rewrite length_rsplit. lia. Qed.

Lemma dots_parents host :
  dots (rsplit dot host) (length (rsplit dot host) - 1) = (fun p => path_key (Dot, p)) <$> parents host.
Proof.
  remember (length host) as n eqn:Hn. revert host Hn.
  induction n as [n IH] using lt_wf_ind. intros host ->.
  destruct (first_dot host) as [H|(pre & base & Hp & ->)].
  - rewrite parents_no_dot by done. unfold rsplit. by rewrite split_no_sep.
  - rewrite parents_split, rsplit_split by done. rewrite length_app. cbn [length].
    pose proof (rsplit_pos base). rewrite Nat.add_sub, dots_app by done.
    specialize (IH (length base) ltac:(rewrite length_app; simpl; lia) base eq_refl).
    rewrite fmap_cons, <- IH.
    destruct (length (rsplit dot base)) as [|k] eqn:E; [lia|]. cbn [dots].
    rewrite take_ge by lia. unfold path_key; cbn [fst snd]. by rewrite Nat.sub_succ, Nat.sub_0_r.
Qed.

(** The two priority lists agree. *)
Lemma priority_path_rsplit host : priority_path (rsplit dot host) = path_key <$> priority host.
Proof.
  unfold priority_path, priority. rewrite fmap_cons. unfold path_key at 1; cbn [fst snd]. f_equal.
  destruct (first_dot host) as [H|(pre & base & Hp & ->)].
  - rewrite parents_no_dot by done. unfold rsplit. by rewrite split_no_sep.
  - rewrite parents_split, rsplit_split by done. rewrite length_app. cbn [length].
    pose proof (rsplit_pos base). rewrite Nat.add_sub.
    destruct (length (rsplit dot base)) as [|k] eqn:E; [lia|]. cbn [wild].
    rewrite length_app, E, (proj2 (Nat.eqb_eq _ _)) by (simpl; lia).
    rewrite take_app_le, take_ge by lia. cbn [app]. rewrite !fmap_cons. do 2 f_equal.
    rewrite wild_dots by (rewrite length_app; simpl; lia). rewrite dots_app by lia.
    rewrite <- list_fmap_compose. pose proof (dots_parents base) as Hd.
    rewrite E, Nat.sub_succ, Nat.sub_0_r in Hd. exact Hd.
Qed.

Section Walk.
Context {T : Type} `{HO : HashOrder, SZ : Sized T} (b : Builder T).
Hypothesis (Hwf : wf b).

Definition path_slot (k : MatchKind * list bytes) : option T := slot b k.2 k.1.

Lemma path_slot_eq k p : path_slot (k, p) = slot b p k.
Proof. done. Qed.

Lemma slot_walk pre node kind :
  walk b 0 pre = Some node -> slot b pre kind = node_slot kind (node_at b node).
Proof. intros H. unfold slot. by rewrite H. Qed.

Lemma builder_slot node kind :
  node < length (nodes b) ->
  v_slot (builder_view b) kind node = Some (node_slot kind (node_at b node)).
Proof.
  intros H. simpl. unfold node_at. by destruct (lookup_lt_is_Some_2 _ _ H) as [x ->].
Qed.

(** Past a missing child there is nothing. *)
Lemma slot_beyond pre l rest kind node :
  walk b 0 pre = Some node -> child b node l = None -> slot b (pre ++ l :: rest) kind = None.
Proof. intros Hw Hc. unfold slot. rewrite walk_app, Hw. simpl. by rewrite Hc. Qed.

Lemma wild_beyond pre l rest node k :
  walk b 0 pre = Some node -> child b node l = None ->
  length pre <= k -> k <= length (pre ++ l :: rest) ->
  first_hit path_slot (wild (pre ++ l :: rest) k) =
  first_hit path_slot (wild (pre ++ l :: rest) (length pre)).
Proof.
  intros Hw Hc. induction k as [|k IH]; intros Hle Hk.
  - by replace (length pre) with 0 by lia.
  - destruct (decide (length pre = S k)) as [->|Hne]; [done|].
    cbn [wild]. rewrite first_hit_app, IH by lia.
    assert (Ht : take (S k) (pre ++ l :: rest) = pre ++ l :: take (k - length pre) rest).
    { rewrite take_app_ge by lia. by replace (S k - length pre) with (S (k - length pre)) by lia. }
    assert (Hn : forall kd, path_slot (kd, take (S k) (pre ++ l :: rest)) = None).
    { intros kd. unfold path_slot. cbn [fst snd]. rewrite Ht. by eapply slot_beyond. }
    destruct (_ =? _); by rewrite !first_hit_cons, !Hn.
Qed.

Lemma best_loop_builder path pre node ls :
  path = pre ++ ls -> walk b 0 pre = Some node -> node < length (nodes b) ->
  best_loop (builder_view b) false (length path) (length pre) node ls
    (first_hit path_slot (wild path (Nat.min (length pre) (length path - 1)))) =
  Some (match ls with
        | [] => first_hit path_slot (wild path (length path - 1))
        | _ => first_hit path_slot (priority_path path)
        end).
Proof.
  revert pre node. induction ls as [|l ls IH]; intros pre node -> Hw Hn.
  { simpl. rewrite app_nil_r, Nat.min_r by lia. done. }
  cbn [best_loop builder_view v_child mbind option_bind].
  rewrite length_app, Nat.min_l by (simpl; lia). cbn [length].
  destruct (child b node l) as [c|] eqn:Ec.
  2:{ unfold priority_path. rewrite first_hit_cons, path_slot_eq.
      rewrite (slot_beyond _ _ _ _ _ Hw Ec).
      erewrite (wild_beyond _ _ _ _ (length (pre ++ l :: ls) - 1)); [done|done|done|..];
        rewrite length_app; simpl; lia. }
  pose proof (child_bounds _ _ _ _ Hwf Ec) as Hc.
  assert (Hw' : walk b 0 (pre ++ [l]) = Some c) by (by rewrite walk_snoc, Hw).
  assert (Hpath : pre ++ l :: ls = (pre ++ [l]) ++ ls) by (by rewrite <- app_assoc).
  assert (Htake : take (S (length pre)) (pre ++ l :: ls) = pre ++ [l]).
  { rewrite Hpath. replace (S (length pre)) with (length (pre ++ [l])) by (rewrite length_app; simpl; lia).
    apply take_app_length. }
  specialize (IH (pre ++ [l]) c Hpath Hw' ltac:(lia)).
  rewrite !length_app in IH. cbn [length] in IH. rewrite Nat.add_1_r in IH.
  unfold best_step. rewrite !builder_slot by lia.
  rewrite <- !(slot_walk _ _ _ Hw').
  destruct ls as [|l' ls].
  - (* the last label *)
    cbn [length]. replace (length pre + 1 - length pre - 1) with 0 by lia.
    cbn [Nat.eqb mbind option_bind]. unfold priority_path. rewrite first_hit_cons.
    rewrite path_slot_eq.
    destruct (slot b (pre ++ [l]) Exact); [done|]. simpl.
    rewrite length_app. simpl. by replace (length pre + 1 - 1) with (length pre) by lia.
  - rewrite Nat.min_l in IH by (simpl; lia). cbn [wild] in IH.
    rewrite first_hit_app, Htake in IH. rewrite <- IH. clear IH. rewrite length_app.
    cbn [length]. replace (length pre + S (S (length ls)) - length pre - 1) with (S (length ls)) by lia.
    cbn [Nat.eqb]. destruct ls as [|l'' ls].
    + cbn [length Nat.eqb]. rewrite (proj2 (Nat.eqb_eq _ _)) by lia.
      rewrite !first_hit_cons, !path_slot_eq. cbn [mbind option_bind].
      by destruct (slot b (pre ++ [l]) Star), (slot b (pre ++ [l]) Dot).
    + cbn [length Nat.eqb]. rewrite (proj2 (Nat.eqb_neq _ _)) by lia.
      rewrite !first_hit_cons, !path_slot_eq. cbn [mbind option_bind].
      by destruct (slot b (pre ++ [l]) Dot).
Qed.

Lemma child_ci_lower node l : child_ci b node l = child b node (to_ascii_lowercase l).
Proof.
  unfold child_ci. destruct (has_uppercase l) eqn:E; simpl; [done|].
  by rewrite lowercase_id.
Qed.

Lemma best_loop_ci n d node ls best :
  best_loop (builder_view b) true n d node ls best =
  best_loop (builder_view b) false n d node (to_ascii_lowercase <$> ls) best.
Proof.
  revert d node best. induction ls as [|l ls IH]; intros d node best; [done|].
  cbn [fmap list_fmap best_loop builder_view v_child mbind option_bind].
  rewrite child_ci_lower. destruct (child b node _) as [c|]; [|done].
  destruct (best_step _ _ _ _) as [[x|best']|]; cbn [mbind option_bind]; [done|apply IH|done].
Qed.

(** A query on the builder: the first filled slot of the priority list. *)
Lemma best_search_builder ci query :
  nodes b <> [] ->
  best_loop (builder_view b) ci (label_count query) 0 0 (rsplit dot query) None =
  Some (first_hit (fun k => slot b (rsplit dot k.2) k.1)
    (priority (if ci then to_ascii_lowercase query else query))).
Proof.
  intros Hne. assert (H0 : 0 < length (nodes b)) by (destruct (nodes b); simpl; [done|lia]).
  set (q := if ci then to_ascii_lowercase query else query).
  assert (E : best_loop (builder_view b) ci (label_count query) 0 0 (rsplit dot query) None =
    best_loop (builder_view b) false (length (rsplit dot q)) 0 0 (rsplit dot q) None).
  { unfold q. destruct ci.
    - rewrite best_loop_ci, <- rsplit_lower. unfold label_count.
      rewrite Nat.add_1_r, <- length_rsplit. rewrite rsplit_lower at 2. by rewrite length_fmap.
    - unfold label_count. by rewrite Nat.add_1_r, <- length_rsplit. }
  rewrite E. pose proof (best_loop_builder (rsplit dot q) [] 0 (rsplit dot q) eq_refl eq_refl H0) as H.
  cbn [length Nat.min wild] in H. etrans; [exact H|]. clear H. f_equal. pose proof (rsplit_ne dot q).
  destruct (rsplit dot q) eqn:Eq; [done|]. rewrite <- Eq, priority_path_rsplit.
  by rewrite first_hit_fmap.
Qed.

(** *** The minimum search *)

Context `{RO : RustOrd T}.

Definition is_min (P : T -> Prop) (r : option T) : Prop :=
  match r with
  | None => forall x, ~ P x
  | Some v => P v /\ forall x, P x -> ord_leb v x = true
  end.

Lemma is_min_ext P Q r : (forall x, P x <-> Q x) -> is_min P r -> is_min Q r.
Proof. intros H. destruct r as [v|]; simpl; [|naive_solver]. intros [Hv Hx]. naive_solver. Qed.

Lemma ord_leb_refl (x : T) : ord_leb x x = true.
Proof. by destruct (ord_leb_total x x). Qed.

Lemma fold_min_spec P best c :
  is_min P best -> is_min (fun x => P x \/ c = Some x) (fold_min best c).
Proof.
  intros H. destruct c as [c|]; simpl; [|by eapply is_min_ext; [|exact H]; naive_solver].
  destruct best as [v|]; simpl in *.
  - destruct H as [Hv Hx]. destruct (ord_leb v c) eqn:E; simpl.
    + split; [by left|]. intros x [?|[= <-]]; [by apply Hx|done].
    + split; [by right|]. intros x [?|[= <-]]; [|apply ord_leb_refl].
      destruct (ord_leb_total v c) as [?|Hc]; [congruence|].
      eapply ord_leb_trans; [exact Hc|by apply Hx].
  - split; [by right|]. intros x [?|[= <-]]; [by exfalso; eapply H|apply ord_leb_refl].
Qed.

(** The slots reached at depth [k]. *)
Definition hit_at (path : list bytes) (k : nat) (x : T) : Prop :=
  (k = length path /\ slot b path Exact = Some x) \/
  (S k = length path /\ slot b (take k path) Star = Some x) \/
  (k < length path /\ slot b (take k path) Dot = Some x).

Lemma min_step_spec P path pre l ls c best :
  path = pre ++ l :: ls -> walk b 0 (pre ++ [l]) = Some c -> c < length (nodes b) ->
  is_min P best ->
  exists r, min_step (builder_view b) (length path - length pre - 1) c best = Some r /\
    is_min (fun x => P x \/ hit_at path (S (length pre)) x) r.
Proof.
  intros -> Hw Hc Hbest. unfold min_step. rewrite !builder_slot by done.
  rewrite <- !(slot_walk _ _ _ Hw). cbn [mbind option_bind].
  assert (Htake : take (S (length pre)) (pre ++ l :: ls) = pre ++ [l]).
  { replace (S (length pre)) with (length pre + 1) by lia.
    by rewrite take_app_add. }
  assert (Hlen : length (pre ++ l :: ls) = length pre + S (length ls)) by (by rewrite length_app).
  unfold hit_at. rewrite Htake, Hlen. destruct ls as [|l' ls].
  - replace (_ - _ - 1) with 0 by (simpl; lia). cbn [Nat.eqb]. eexists. split; [done|].
    eapply is_min_ext; [|by apply fold_min_spec]. intros x. simpl.
    assert (length pre + 1 = S (length pre)) by lia. naive_solver lia.
  - replace (_ - _ - 1) with (S (length ls)) by (simpl; lia). cbn [Nat.eqb].
    destruct ls as [|l'' ls]; cbn [length Nat.eqb mbind option_bind].
    + eexists. split; [done|].
      eapply is_min_ext; [|by apply fold_min_spec, fold_min_spec].
      intros x. split.
      * intros [[?|?]|?]; [by left|right;right;left|right;right;right]; (split; [lia|done]).
      * intros [?|[[? ?]|[[? ?]|[? ?]]]]; [by left;left|lia|by left;right|by right].
    + eexists. split; [done|]. eapply is_min_ext; [|by apply fold_min_spec].
      intros x. split.
      * intros [?|?]; [by left|right;right;right]. split; [lia|done].
      * intros [?|[[? ?]|[[? ?]|[? ?]]]]; [by left|lia|lia|by right].
Qed.

Lemma min_loop_builder P path pre node ls best :
  path = pre ++ ls -> walk b 0 pre = Some node -> node < length (nodes b) -> is_min P best ->
  exists r, min_loop (builder_view b) (length path) (length pre) node ls best = Some r /\
    is_min (fun x => P x \/ exists k, length pre < k <= length path /\ hit_at path k x) r.
Proof.
  revert P pre node best. induction ls as [|l ls IH]; intros P pre node best -> Hw Hn Hbest.
  { exists best. split; [done|]. eapply is_min_ext; [|exact Hbest]. intros x.
    rewrite app_nil_r. split; [by left|]. intros [?|(k & ? & _)]; [done|lia]. }
  cbn [min_loop builder_view v_child mbind option_bind].
  destruct (child b node l) as [c|] eqn:Ec.
  2:{ exists best. split; [done|]. eapply is_min_ext; [|exact Hbest]. intros x. split; [by left|].
      intros [?|(k & Hk & Hh)]; [done|]. exfalso.
      assert (Hnone : forall kd, slot b (take k (pre ++ l :: ls)) kd = None).
      { intros kd. rewrite take_app_ge by lia.
        replace (k - length pre) with (S (k - length pre - 1)) by lia. by eapply slot_beyond. }
      destruct Hh as [[-> Hh]|[[_ Hh]|[_ Hh]]]; [|by rewrite Hnone in Hh..].
      specialize (Hnone Exact). by rewrite take_ge, Hh in Hnone. }
  pose proof (child_bounds _ _ _ _ Hwf Ec) as Hc.
  assert (Hw' : walk b 0 (pre ++ [l]) = Some c) by (by rewrite walk_snoc, Hw).
  destruct (min_step_spec P _ pre l ls c best eq_refl Hw' ltac:(lia) Hbest) as (r & Hr & Hmin).
  cbn [builder_view] in Hr. rewrite Hr. cbn [mbind option_bind].
  destruct (IH _ (pre ++ [l]) c r ltac:(by rewrite <- app_assoc) Hw' ltac:(lia) Hmin)
    as (r' & Hr' & Hmin').
  replace (length (pre ++ [l])) with (S (length pre)) in Hr' by (rewrite length_app; simpl; lia).
  exists r'. split; [exact Hr'|].
  eapply is_min_ext; [|exact Hmin']. intros x. rewrite !length_app. cbn [length]. split.
  - intros [[?|?]|(k & ? & ?)]; [by left|right; exists (S (length pre)); split; [lia|done]|].
    right. exists k. split; [lia|done].
  - intros [?|(k & Hk & ?)]; [by left;left|].
    destruct (decide (k = S (length pre))) as [->|]; [by left;right|].
    right. exists k. split; [lia|done].
Qed.

Lemma elem_of_wild kd p path k :
  (kd, p) ∈ wild path k <->
  exists j, 0 < j <= k /\ p = take j path /\ (kd = Dot \/ kd = Star /\ length path = S j).
Proof.
  induction k as [|k IH]; cbn [wild].
  - split; [by intros ?%not_elem_of_nil|]. intros (j & ? & _). lia.
  - rewrite elem_of_app, IH. split.
    + intros [H|(j & ? & ?)]; [|exists j; split; [lia|done]].
      exists (S k). split; [lia|]. destruct (Nat.eqb_spec (length path) (S (S k))); set_solver.
    + intros (j & Hj & -> & Hkd). destruct (decide (j = S k)) as [->|]; [left|right].
      * destruct (Nat.eqb_spec (length path) (S (S k))); set_solver.
      * exists j. split; [lia|done].
Qed.

(** The minimum search sees exactly the slots of the priority list. *)
Lemma hit_priority path x :
  path <> [] ->
  (exists k, 0 < k <= length path /\ hit_at path k x) <->
  (exists k, k ∈ priority_path path /\ path_slot k = Some x).
Proof.
  intros Hne. assert (0 < length path) by (destruct path; simpl; [done|lia]).
  unfold priority_path. setoid_rewrite elem_of_cons. split.
  - intros (k & Hk & [[-> Hh]|[[E Hh]|[Hlt Hh]]]).
    + exists (Exact, path). auto.
    + exists (Star, take k path). split; [right|done]. apply elem_of_wild.
      exists k. split_and!; [lia|lia|done|]. auto.
    + exists (Dot, take k path). split; [right|done]. apply elem_of_wild.
      exists k. split_and!; [lia|lia|done|]. auto.
  - intros ([kd p] & [E|Hin] & Hh).
    + simplify_eq. exists (length path). split; [lia|]. left. done.
    + apply elem_of_wild in Hin as (j & Hj & -> & [->|[-> E]]); rewrite path_slot_eq in Hh.
      * exists j. split; [lia|]. right; right. split; [lia|done].
      * exists j. split; [lia|]. right; left. done.
Qed.

Lemma min_search_builder query :
  nodes b <> [] ->
  exists r, min_loop (builder_view b) (label_count query) 0 0 (rsplit dot query) None = Some r /\
    is_min (fun x => exists k, k ∈ priority query /\ slot b (rsplit dot k.2) k.1 = Some x) r.
Proof.
  intros Hne. assert (H0 : 0 < length (nodes b)) by (destruct (nodes b); simpl; [done|lia]).
  destruct (min_loop_builder (fun _ => False) (rsplit dot query) [] 0 (rsplit dot query) None)
    as (r & Hr & Hmin); [done|done|done|by intros x []|].
  exists r. split.
  { unfold label_count. by rewrite Nat.add_1_r, <- length_rsplit. }
  eapply is_min_ext; [|exact Hmin]. intros x. cbn [length].
  rewrite (hit_priority _ _ (rsplit_ne dot query)), priority_path_rsplit.
  setoid_rewrite list_elem_of_fmap. split.
  - intros [[]|(k & (k' & -> & Hk') & Hs)]. exists k'. split; [done|exact Hs].
  - intros (k & Hk & Hs). right. exists (path_key k). split; [by exists k|exact Hs].
Qed.

End Walk.

(** ** Refinement *)

Section Refinement.
Context {T : Type} `{HO : HashOrder, UL : UnicodeLower, SZ : Sized T}.
Implicit Types (b : Builder T) (v : T) (mode : InsertMode) (t : DomainTrie T) (k : key)
  (ks : list key) (m : gmap key T) (domain : bytes).

(** The frozen accessors drive the loops to the same answers. *)
Section SealedLoops.
Context (b : Builder T) (s : Sealed T) (lbl : list bytes) (order first : list nat).
Hypothesis (Hwf : wf b) (Hne : nodes b <> []) (Hfz : frozen b s lbl order first).

Lemma order_bound i old : order !! i = Some old -> old < length (nodes b).
Proof. apply (bd_bound _ _ _ _ (fz_done _ _ _ _ _ Hfz)). Qed.

Lemma sealed_view_slot kind i old :
  order !! i = Some old ->
  v_slot (sealed_view s) kind i = v_slot (builder_view b) kind old.
Proof.
  intros Hi. rewrite builder_slot by (by eapply order_bound). simpl.
  eapply sealed_slot_sim; [done|apply zst_unique|done].
Qed.

(** One step of either walk, as the loops consume it. *)
Lemma sealed_view_child ci i old l :
  order !! i = Some old ->
  (v_child (sealed_view s) ci i l = Some None /\ v_child (builder_view b) ci old l = Some None) \/
  (exists i' c, v_child (sealed_view s) ci i l = Some (Some i') /\
    v_child (builder_view b) ci old l = Some (Some c) /\ order !! i' = Some c).
Proof.
  intros Hi. simpl.
  destruct (find_child_sim _ _ _ _ _ Hwf Hne Hfz ci i old l Hi) as (r & -> & Hr).
  assert (E : (if ci then child_ci b old l else child b old l) =
    child b old (if ci then to_ascii_lowercase l else l)).
  { destruct ci; [apply child_ci_lower|done]. }
  rewrite E. destruct (child b old _) as [c|]; [|left; by subst].
  right. destruct Hr as (i' & -> & Hi'). by exists i', c.
Qed.

Lemma best_loop_sealed ci n d i old ls best :
  order !! i = Some old ->
  best_loop (sealed_view s) ci n d i ls best = best_loop (builder_view b) ci n d old ls best.
Proof.
  revert d i old best. induction ls as [|l ls IH]; intros d i old best Hi; [done|].
  cbn [best_loop].
  destruct (sealed_view_child ci i old l Hi) as [[-> ->]|(i' & c & -> & -> & Hi')]; [done|].
  cbn [mbind option_bind]. unfold best_step. rewrite !(sealed_view_slot _ _ _ Hi').
  destruct (if n - d - 1 =? 0 then _ else _) as [[x|best']|]; cbn [mbind option_bind];
    [done|by apply IH|done].
Qed.

Lemma min_loop_sealed `{RO : RustOrd T} n d i old ls best :
  order !! i = Some old ->
  min_loop (sealed_view s) n d i ls best = min_loop (builder_view b) n d old ls best.
Proof.
  revert d i old best. induction ls as [|l ls IH]; intros d i old best Hi; [done|].
  cbn [min_loop].
  destruct (sealed_view_child false i old l Hi) as [[-> ->]|(i' & c & -> & -> & Hi')]; [done|].
  cbn [mbind option_bind]. unfold min_step. rewrite !(sealed_view_slot _ _ _ Hi').
  destruct (if n - d - 1 =? 0 then _ else _) as [best'|]; cbn [mbind option_bind];
    [by apply IH|done].
Qed.

End SealedLoops.

(** The trie [t] holds the map [m]. *)
Record repr (t : DomainTrie T) (m : gmap key T) (b : Builder T) : Prop := {
  repr_wf : wf b;
  repr_slots k : slot b (rsplit dot k.2) k.1 = m !! k;
  repr_len : len t = 0 -> m = ∅;
  repr_nodes : len t <> 0 -> nodes b <> [];
  repr_state :
    match state t with
    | Building b' => b' = b
    | Frozen s => nodes b <> [] /\ exists lbl order first, frozen b s lbl order first
    end;
}.

Lemma repr_new : repr new ∅ new_builder.
Proof.
  split; simpl; try done; [apply wf_new|].
  intros [kind base]. rewrite lookup_empty. unfold slot. cbn [fst snd].
  pose proof (rsplit_ne dot base). destruct (rsplit dot base) as [|l ls]; [done|].
  simpl. unfold child. simpl. by rewrite lookup_empty.
Qed.

Lemma repr_best t m b ci query :
  repr t m b -> len t <> 0 ->
  search_best t ci query = Some (best_match m (if ci then to_ascii_lowercase query else query)).
Proof.
  intros [Hwf Hs _ Hn Hst] Hlen. specialize (Hn Hlen). unfold search_best, best_match.
  rewrite (first_hit_ext _ (fun k => slot b (rsplit dot k.2) k.1)) by done.
  unfold view_of. destruct (state t) as [b'|s].
  - subst b'. by apply best_search_builder.
  - destruct Hst as (_ & lbl & order & first & Hfz).
    rewrite (best_loop_sealed b s lbl order first Hwf Hn Hfz _ _ _ _ 0).
    + by apply best_search_builder.
    + apply (bd_root _ _ _ _ (fz_done _ _ _ _ _ Hfz)).
Qed.

Lemma repr_min `{RO : RustOrd T} t m b query :
  repr t m b -> len t <> 0 ->
  exists r, min_loop (view_of t) (label_count query) 0 0 (rsplit dot query) None = Some r /\
    is_min (fun x => exists k, key_matches k query /\ m !! k = Some x) r.
Proof.
  intros [Hwf Hs _ Hn Hst] Hlen. specialize (Hn Hlen).
  destruct (min_search_builder b Hwf query Hn) as (r & Hr & Hmin). exists r. split.
  - unfold view_of. destruct (state t) as [b'|s]; [by subst b'|].
    destruct Hst as (_ & lbl & order & first & Hfz).
    rewrite (min_loop_sealed b s lbl order first Hwf Hn Hfz _ _ _ 0); [done|].
    apply (bd_root _ _ _ _ (fz_done _ _ _ _ _ Hfz)).
  - eapply is_min_ext; [|exact Hmin]. intros x. setoid_rewrite elem_of_priority.
    by setoid_rewrite Hs.
Qed.

(** *** Inserting *)

Definition builder_inserts (b : Builder T) (ks : list key) (v : T) (mode : InsertMode) :
    option (Builder T) :=
  foldlM (fun b k => builder_insert b k.2 v k.1 mode) b ks.

Lemma trim_dots_nil n : trim_end_byte dot (replicate n dot) = [].
Proof.
  destruct (trim_end_byte_spec dot (replicate n dot)) as (m & E & Hl).
  destruct (trim_end_byte dot (replicate n dot)) as [|x l _] using rev_ind; [done|].
  exfalso. apply Hl. rewrite last_snoc. f_equal.
  assert (Hin : x ∈ replicate n dot) by (rewrite E; set_solver).
  by apply elem_of_replicate in Hin as [-> _].
Qed.

(** A key of dots only is rejected whatever its prefix form. *)
Lemma key_slots_dots domain :
  trim_end_byte dot (normal_key domain) = [] -> key_slots domain = [].
Proof.
  intros H. unfold key_slots. destruct (trim_end_byte_spec dot (normal_key domain)) as (n & E & _).
  rewrite H in E. simpl in E. rewrite E.
  destruct n as [|n]; [reflexivity|].
  change (strip_prefix (b! "+.") (replicate (S n) dot)) with (@None bytes).
  change (strip_prefix (b! "*.") (replicate (S n) dot)) with (@None bytes).
  assert (Hd : strip_prefix (b! ".") (replicate (S n) dot) = Some (replicate n dot))
    by (by apply strip_prefix_Some).
  rewrite Hd. unfold base_slots. by rewrite trim_dots_nil.
Qed.

Lemma insert_inner_slots t domain v mode :
  insert_inner t domain v mode =
  if bool_decide (key_slots domain = []) then Some (false, t)
  else match state t with
  | Building b =>
      b ← builder_inserts b (key_slots domain) v mode;
      Some (true, mkTrie (Building b) (len t + length (key_slots domain)))
  | Frozen _ => Some (true, add_len (length (key_slots domain)) t)
  end.
Proof.
  unfold insert_inner. fold (normal_key domain).
  destruct (decide (trim_end_byte dot (normal_key domain) = [])) as [E|E].
  { rewrite (bool_decide_eq_true_2 _ E). by rewrite (key_slots_dots _ E). }
  rewrite (bool_decide_eq_false_2 _ E). unfold key_slots, base_slots, insert_into_tree, add_len.
  change [dot] with (b! ".").
  destruct (strip_prefix (b! "+.") (normal_key domain)) as [r|];
    [|destruct (strip_prefix (b! "*.") (normal_key domain)) as [r|];
      [|destruct (strip_prefix (b! ".") (normal_key domain)) as [r|]]].
  1-3: destruct (decide (trim_end_byte dot r = [])) as [Hr|Hr];
    [by rewrite !(bool_decide_eq_true_2 _ Hr)|rewrite !(bool_decide_eq_false_2 _ Hr)].
  4: rewrite !(bool_decide_eq_false_2 _ E).
  all: rewrite bool_decide_eq_false_2 by done.
  all: destruct t as [[b|s] l]; cbn [state len mbind option_bind]; [|done].
  all: unfold builder_inserts; cbn [fmap list_fmap foldlM fst snd length].
  all: destruct (builder_insert b _ v _ mode) as [b'|]; cbn [mbind option_bind state len]; try done.
  by destruct (builder_insert b' _ v _ mode).
Qed.

Lemma write_key_lookup (mode : InsertMode) (v : T) (m : gmap key T) (k k' : key) :
  write_key mode v m k !! k' =
  if decide (k' = k) then write_slot mode (m !! k') v else m !! k'.
Proof.
  unfold write_key, write_slot. case_decide as E; [subst k'|].
  - destruct mode; [|by rewrite lookup_insert_eq].
    destruct (m !! k) eqn:Em; [done|]. by rewrite lookup_insert_eq.
  - destruct mode; [|by rewrite lookup_insert_ne].
    destruct (m !! k) eqn:Em; [done|]. by rewrite lookup_insert_ne.
Qed.

Lemma builder_inserts_spec ks b (m : gmap key T) v mode b' :
  wf b -> (forall k, slot b (rsplit dot k.2) k.1 = m !! k) ->
  builder_inserts b ks v mode = Some b' ->
  wf b' /\ (ks <> [] -> nodes b' <> []) /\
  forall k, slot b' (rsplit dot k.2) k.1 = foldl (write_key mode v) m ks !! k.
Proof.
  unfold builder_inserts. revert b m.
  induction ks as [|k ks IH]; intros b m Hwf Hs; cbn [foldlM foldl].
  { intros; simplify_eq. split_and!; [done|by intros []|apply Hs]. }
  intros (b1 & H1 & H2)%bind_Some.
  destruct (builder_insert_spec _ _ _ _ _ _ Hwf H1) as (Hwf1 & Hne & Hslot).
  destruct (IH b1 (write_key mode v m k) Hwf1) as (Hwf' & Hne' & Hs'); [|exact H2|].
  - intros k'. rewrite Hslot, write_key_lookup, Hs.
    destruct k as [kd base], k' as [kd' base']; cbn [fst snd].
    destruct (decide ((kd', base') = (kd, base))) as [[= -> ->]|Hk]; [by rewrite decide_True|].
    rewrite decide_False; [done|]. by intros [->%rsplit_inj ->].
  - split_and!; [done| |done]. intros _. destruct ks as [|k2 ks]; [by simplify_eq/=|by apply Hne'].
Qed.

(** *** Size limits *)

(** Bytes of the labels, each with its terminator. *)
Definition label_bytes (ls : gmap bytes nat) : nat :=
  sum_list_with (fun p => S (length p.1)) (map_to_list ls).

Definition path_bytes (path : list bytes) : nat := sum_list_with (fun l => S (length l)) path.

(** A builder of at most [N] nodes and label bytes besides the root's. *)
Record within (N : nat) b : Prop := {
  within_nodes : length (nodes b) <= S N;
  within_labels : label_bytes (labels b) <= S N;
}.

Lemma size_label_bytes (ls : gmap bytes nat) : size ls <= label_bytes ls.
Proof.
  unfold label_bytes. rewrite <- length_map_to_list.
  induction (map_to_list ls) as [|p l IH]; simpl; lia.
Qed.

Lemma label_bytes_insert (ls : gmap bytes nat) l i :
  ls !! l = None -> label_bytes (<[l := i]> ls) = S (length l) + label_bytes ls.
Proof. intros H. unfold label_bytes. by rewrite map_to_list_insert by done. Qed.

Lemma path_bytes_rsplit base : path_bytes (rsplit dot base) = S (length base).
Proof.
  unfold path_bytes, rsplit. rewrite sum_list_with_reverse.
  rewrite <- (join_split dot base) at 2. pose proof (split_ne dot base) as Hne.
  induction (split dot base) as [|w ws IH]; [done|].
  destruct ws as [|w' ws]; [simpl; lia|]. rewrite join_cons, length_app by done.
  cbn [sum_list_with] in *. rewrite IH by done. simpl. lia.
Qed.

Lemma u32_try_from_small n : (Z.of_nat n < 2 ^ 30)%Z -> u32_try_from n = Some n.
Proof. intros H. unfold u32_try_from, u32_max. destruct (Z.leb_spec (Z.of_nat n) 4294967295); [done|lia]. Qed.

Lemma child_or_insert_within N b node l :
  within N b -> (Z.of_nat (N + S (length l)) < 2 ^ 29)%Z ->
  exists c b', child_or_insert b node l = Some (c, b') /\ within (N + S (length l)) b'.
Proof.
  intros [Hn Hl] HN. pose proof (size_label_bytes (labels b)).
  assert (Hi : exists id ls, intern_label (labels b) l = Some (id, ls) /\
    label_bytes ls <= S (N + S (length l))).
  { unfold intern_label. destruct (labels b !! l) as [id|] eqn:E.
    - exists id, (labels b). split; [done|lia].
    - rewrite u32_try_from_small by lia. eexists _, _. split; [done|].
      rewrite label_bytes_insert by done. lia. }
  destruct Hi as (id & ls & Hi & Hls). unfold child_or_insert. rewrite Hi. cbn [mbind option_bind].
  destruct (edges b !! (node, id)) as [c|].
  - eexists _, _. split; [done|]. split; simpl; lia.
  - rewrite u32_try_from_small by lia. eexists _, _. split; [done|].
    split; simpl; [rewrite length_app; simpl|]; lia.
Qed.

Lemma descend_within N b node path :
  within N b -> (Z.of_nat (N + path_bytes path) < 2 ^ 29)%Z ->
  exists n b', descend b node path = Some (n, b') /\ within (N + path_bytes path) b'.
Proof.
  revert N b node. induction path as [|l path IH]; intros N b node Hw Hb.
  { exists node, b. unfold path_bytes. simpl. by rewrite Nat.add_0_r. }
  change (path_bytes (l :: path)) with (S (length l) + path_bytes path) in *.
  destruct (child_or_insert_within N b node l Hw) as (c & b1 & Hc & Hw1); [lia|].
  cbn [descend]. rewrite Hc. cbn [mbind option_bind].
  destruct (IH _ b1 c Hw1) as (n & b' & Hd & Hw'); [lia|].
  exists n, b'. split; [done|]. by rewrite Nat.add_assoc.
Qed.

Lemma builder_insert_within N b base v kind mode :
  wf b -> within N b -> (Z.of_nat (N + S (length base)) < 2 ^ 29)%Z ->
  exists b', builder_insert b base v kind mode = Some b' /\ within (N + S (length base)) b'.
Proof.
  intros Hwf Hw HN. unfold builder_insert.
  assert (Hr : within N (ensure_root b)).
  { unfold ensure_root. destruct (nodes b) as [|x l] eqn:E; [|done].
    destruct (wf_empty b Hwf E) as [_ Hl]. split; simpl; [lia|].
    rewrite Hl, label_bytes_insert by apply lookup_empty. unfold label_bytes.
    rewrite map_to_list_empty. simpl. lia. }
  destruct (descend_within N (ensure_root b) 0 (rsplit dot base)) as (n & b' & -> & Hw').
  { done. } { by rewrite path_bytes_rsplit. }
  cbn [mbind option_bind]. eexists. split; [done|]. rewrite path_bytes_rsplit in Hw'.
  destruct Hw'. split; simpl; [by rewrite length_alter|done].
Qed.

(** What a key costs. *)
Definition slots_cost ks : nat := sum_list_with (fun k => S (length k.2)) ks.

Lemma builder_inserts_within N ks b v mode :
  wf b -> within N b -> (Z.of_nat (N + slots_cost ks) < 2 ^ 29)%Z ->
  exists b', builder_inserts b ks v mode = Some b' /\ within (N + slots_cost ks) b'.
Proof.
  unfold builder_inserts. revert N b.
  induction ks as [|k ks IH]; intros N b Hwf Hw HN; cbn [foldlM].
  { exists b. unfold slots_cost. simpl. by rewrite Nat.add_0_r. }
  change (slots_cost (k :: ks)) with (S (length k.2) + slots_cost ks) in *.
  destruct (builder_insert_within N b k.2 v k.1 mode Hwf Hw) as (b1 & Hb1 & Hw1); [lia|].
  rewrite Hb1. cbn [mbind option_bind].
  destruct (builder_insert_spec _ _ _ _ _ _ Hwf Hb1) as (Hwf1 & _).
  destruct (IH _ b1 Hwf1 Hw1) as (b' & Hb' & Hw'); [lia|].
  exists b'. split; [done|]. by rewrite Nat.add_assoc.
Qed.

(** The arena of the frozen form holds the label bytes. *)
Lemma total_label_bytes_eq b lbl :
  wf b -> label_by_id (labels b) = Some lbl ->
  total_label_bytes lbl = Z.of_nat (label_bytes (labels b)).
Proof.
  intros Hwf Hl. destruct (label_by_id_spec b Hwf) as (lbl' & Hl' & _ & Hspec). simplify_eq.
  assert (Hperm : lbl ≡ₚ (map_to_list (labels b)).*1).
  { apply NoDup_Permutation.
    - apply NoDup_alt. intros i j a Hi Hj. apply Hspec in Hi, Hj. by simplify_eq.
    - apply NoDup_fst_map_to_list.
    - intros a. rewrite list_elem_of_fmap, list_elem_of_lookup. split.
      + intros [i Hi%Hspec]. exists (a, i). split; [done|]. by apply elem_of_map_to_list.
      + intros ([a' i] & -> & Hi%elem_of_map_to_list). exists i. by apply Hspec. }
  assert (Hsum : forall l, total_label_bytes l = Z.of_nat (path_bytes l)).
  { unfold total_label_bytes, path_bytes. induction l as [|x l IH]; simpl; [done|]. rewrite IH. lia. }
  rewrite Hsum. f_equal. unfold path_bytes. rewrite Hperm. unfold label_bytes.
  clear. induction (map_to_list (labels b)) as [|p l IH]; [done|].
  rewrite fmap_cons. cbn [sum_list_with]. by rewrite IH.
Qed.

(** *** Sealing *)

Lemma seal_repr N t m b :
  repr t m b -> within N b -> (Z.of_nat (S N) < 2 ^ 29)%Z ->
  exists t', seal t = Some t' /\ len t' = len t /\ (exists s, state t' = Frozen s) /\
    exists b', repr t' m b' /\ within N b' /\ (nodes b <> [] -> b' = b).
Proof.
  intros Hr Hw HN. pose proof Hr as [Hwf Hs Hlen Hn Hst]. unfold seal.
  destruct (state t) as [b0|s] eqn:Est.
  2:{ exists t. split_and!; [done|done|by exists s|]. by exists b. }
  subst b0. pose proof (wf_ensure_root b Hwf) as Hwf'. pose proof (ensure_root_nodes b) as Hne.
  assert (Hw' : within N (ensure_root b)).
  { unfold ensure_root. destruct (nodes b) as [|x l] eqn:E; [|done].
    destruct (wf_empty b Hwf E) as [_ Hl]. split; simpl; [lia|].
    rewrite Hl, label_bytes_insert by apply lookup_empty. unfold label_bytes.
    rewrite map_to_list_empty. simpl. lia. }
  destruct (into_sealed_frozen (ensure_root b) Hwf' Hne) as (s & lbl & order & first & Hsl & Hfz).
  { destruct Hw'. lia. }
  { intros lbl Hl. rewrite (total_label_bytes_eq _ _ Hwf' Hl). destruct Hw'. unfold u32_max. lia. }
  assert (E : into_sealed b = into_sealed (ensure_root b)).
  { unfold into_sealed. do 2 f_equal. unfold ensure_root. destruct (nodes b) eqn:E; simpl; by rewrite ?E. }
  rewrite E, Hsl. cbn [mbind option_bind]. eexists. split_and!; [done|done|by exists s|].
  exists (ensure_root b). split_and!; [|done|].
  - split; simpl; try done.
    + intros k. rewrite ensure_root_slot by done. apply Hs.
    + split; [done|]. by exists lbl, order, first.
  - intros Hnb. unfold ensure_root. by destruct (nodes b).
Qed.

(** ** Every history of a trie *)

Inductive op :=
  | Insert (domain : bytes) (v : T)
  | InsertOverwrite (domain : bytes) (v : T)
  | Seal.

Definition step (t : DomainTrie T) (o : op) : option (DomainTrie T) :=
  match o with
  | Insert d v => snd <$> insert t d v
  | InsertOverwrite d v => snd <$> insert_overwrite t d v
  | Seal => seal t
  end.

Definition run_ops (ops : list op) : option (DomainTrie T) := foldlM step new ops.

(** The abstract history: whether the trie is sealed, and what it holds. *)
Definition abs_step (st : bool * gmap key T) (o : op) : bool * gmap key T :=
  match o, st with
  | Seal, (_, m) => (true, m)
  | _, (true, m) => (true, m)
  | Insert d v, (false, m) => (false, abs_insert m d v FirstWins)
  | InsertOverwrite d v, (false, m) => (false, abs_insert m d v Overwrite)
  end.

Definition contents (ops : list op) : gmap key T := (foldl abs_step (false, ∅) ops).2.

Definition op_cost (o : op) : nat :=
  match o with
  | Insert d _ | InsertOverwrite d _ => slots_cost (key_slots d)
  | Seal => 0
  end.

(** A history is small when its labels fit the sealed node index. *)
Definition small (ops : list op) : Prop :=
  (Z.of_nat (S (sum_list_with op_cost ops)) < 2 ^ 29)%Z.

Definition sealed_flag t : bool := match state t with Frozen _ => true | Building _ => false end.

Lemma insert_step N t m b domain v mode :
  repr t m b -> within N b -> (Z.of_nat (S (N + slots_cost (key_slots domain))) < 2 ^ 29)%Z ->
  exists t' b', snd <$> insert_inner t domain v mode = Some t' /\
    repr t' (if sealed_flag t then m else abs_insert m domain v mode) b' /\
    sealed_flag t' = sealed_flag t /\ within (N + slots_cost (key_slots domain)) b'.
Proof.
  intros Hr Hw HN. pose proof Hr as [Hwf Hs Hlen Hn Hst].
  assert (Hmono : forall b, within N b -> within (N + slots_cost (key_slots domain)) b).
  { intros b0 [? ?]. split; lia. }
  rewrite insert_inner_slots. unfold sealed_flag. case_bool_decide as Hks; simpl.
  { exists t, b. split_and!; [done| |done|by apply Hmono]. unfold abs_insert. rewrite Hks. simpl.
    by destruct (state t). }
  assert (Hpos : length (key_slots domain) <> 0) by (by destruct (key_slots domain)).
  destruct (state t) as [b0|s] eqn:Est.
  - subst b0. destruct (builder_inserts_within N (key_slots domain) b v mode Hwf Hw)
      as (b' & Hb' & Hw'); [lia|].
    destruct (builder_inserts_spec _ _ m _ _ _ Hwf Hs Hb') as (Hwf' & Hne' & Hs').
    rewrite Hb'. simpl. eexists _, b'. split_and!; [done| |done|done].
    split; simpl; [done|done|lia|by auto|done].
  - simpl. eexists _, b. split_and!; [done| |by simpl; rewrite Est|by apply Hmono].
    split; simpl; [done|done|lia|by destruct Hst|]. by rewrite Est.
Qed.

(** Small histories do not panic, and the trie holds the abstract contents. *)
Lemma run_repr ops :
  small ops -> exists t b, run_ops ops = Some t /\ repr t (contents ops) b /\
    within (sum_list_with op_cost ops) b.
Proof.
  intros Hsmall.
  destruct (foldlM_invariant (fun seen t => exists b,
    repr t (foldl abs_step (false, ∅) seen).2 b /\
    (foldl abs_step (false, ∅) seen).1 = sealed_flag t /\
    within (sum_list_with op_cost seen) b) step new ops) as (t & Ht & b & Hr & _ & Hw).
  - exists new_builder. split_and!; [apply repr_new|done|]. split; simpl; [lia|].
    unfold label_bytes. rewrite map_to_list_empty. simpl. lia.
  - intros seen o rest t Hops (b & Hr & Hf & Hw).
    assert (HN : (Z.of_nat (S (sum_list_with op_cost seen + op_cost o)) < 2 ^ 29)%Z).
    { unfold small in Hsmall. rewrite Hops, sum_list_with_app in Hsmall. simpl in Hsmall. lia. }
    rewrite foldl_app, sum_list_with_app. cbn [foldl sum_list_with]. rewrite Nat.add_0_r.
    destruct (foldl abs_step (false, ∅) seen) as [fl m]. cbn [fst snd] in *. subst fl.
    destruct o as [d v|d v|]; cbn [step op_cost abs_step];
      unfold DomainTrie.insert, insert_overwrite.
    + destruct (insert_step _ t m b d v FirstWins Hr Hw HN) as (t' & b' & -> & Hr' & Hf' & Hw').
      exists t'. split; [done|]. exists b'. rewrite <- Hf'. by destruct (sealed_flag t), (sealed_flag t').
    + destruct (insert_step _ t m b d v Overwrite Hr Hw HN) as (t' & b' & -> & Hr' & Hf' & Hw').
      exists t'. split; [done|]. exists b'. rewrite <- Hf'. by destruct (sealed_flag t), (sealed_flag t').
    + simpl in HN. rewrite Nat.add_0_r in *.
      destruct (seal_repr _ t m b Hr Hw) as (t' & -> & _ & [s Hs] & b' & Hr' & Hw' & _); [lia|].
      exists t'. split; [done|]. exists b'. split_and!; [by destruct (sealed_flag t)| |done].
      assert (Hf' : sealed_flag t' = true) by (unfold sealed_flag; by rewrite Hs).
      rewrite Hf'. by destruct (sealed_flag t).
  - exists t, b. done.
Qed.

End Refinement.

End TrieSpec.
