(* ===== verification/TrieTheorems.v ===== *)
(** * Correctness of the domain trie

    The properties of [DomainTrie]: the answers of its three searches after
    any history of inserts and seals, the transparency of sealing, and the
    agreement with the string matcher that the crate tests against. *)

From S2P Require Import Prelude Strings Vec Trie TrieSealed TrieLayout DomainTrie TrieSpec.

Module TrieTheorems.
Import Trie Sealed Layout DomainTrie TrieSpec.

(** The reference matcher of the crate's property tests. *)
Definition naive_matches_one `{UnicodeLower} (pat q : bytes) : bool :=
  match strip_prefix (b! "+.") pat with
  | Some rest => bool_decide (q = rest) || ends_with (dot :: rest) q
  | None =>
  match strip_prefix (b! "*.") pat with
  | Some rest =>
      match strip_suffix (dot :: rest) q with
      | Some prefix => negb (bool_decide (prefix = [])) && negb (contains_byte dot prefix)
      | None => false
      end
  | None =>
  match strip_prefix (b! ".") pat with
  | Some rest => ends_with (dot :: rest) q
  | None => bool_decide (q = pat)
  end end end.

Definition naive_matches `{UnicodeLower} (patterns : list bytes) (query : bytes) : bool :=
  existsb (fun pat => naive_matches_one (to_lowercase pat) (to_lowercase query)) patterns.

Section Theorems.
Context {T : Type} `{HO : HashOrder, UL : UnicodeLower, SZ : Sized T}.
Implicit Types (k : key) (ks : list key) (mode : InsertMode).

Lemma contents_base ops kind : contents (T := T) ops !! (kind, []) = None.
Proof.
  assert (Hslots : forall kinds base, Forall (fun k : key => k.2 <> []) (base_slots kinds base)).
  { intros kinds base. unfold base_slots. case_bool_decide; [done|].
    apply Forall_fmap, Forall_forall. done. }
  assert (Hkey : forall d, Forall (fun k : key => k.2 <> []) (key_slots d)).
  { intros d. unfold key_slots. by repeat case_match. }
  assert (Hins : forall ks mode (v : T) (m : gmap key T), Forall (fun k : key => k.2 <> []) ks ->
    m !! (kind, []) = None -> foldl (write_key mode v) m ks !! (kind, []) = None).
  { intros ks mode v m Hks. revert m. induction Hks as [|k ks Hk _ IH]; intros m Hm; [done|].
    apply IH. rewrite write_key_lookup, decide_False; [done|]. by intros <-. }
  unfold contents. induction ops as [|o ops IH] using rev_ind; [done|].
  rewrite foldl_app. simpl. destruct (foldl abs_step (false, ∅) ops) as [[] m]; simpl in *;
    destruct o; simpl; try done; by apply Hins.
Qed.

(** The answer to a query, with the length check and the empty query. *)
Lemma repr_search ops t b ci query :
  repr t (contents ops) b ->
  (if len t =? 0 then Some None
   else if bool_decide (query = []) then Some None else search_best t ci query) =
  Some (best_match (contents ops) (if ci then to_ascii_lowercase query else query)).
Proof.
  intros Hr. destruct (Nat.eqb_spec (len t) 0) as [Hl|Hl].
  { rewrite (repr_len _ _ _ Hr Hl). f_equal. symmetry. apply first_hit_None.
    intros k _. apply lookup_empty. }
  case_bool_decide as Hq; [|by eapply repr_best].
  subst query. f_equal. symmetry.
  assert (E : best_match (contents ops) [] = None).
  { unfold best_match. apply first_hit_None. intros k Hk. apply list_elem_of_singleton in Hk as ->.
    apply contents_base. }
  by destruct ci.
Qed.

Lemma search_run ops t b host :
  repr t (contents ops) b ->
  search t host =
    Some (best_match (contents ops) (to_ascii_lowercase (trim_end_byte dot (trim host)))).
Proof.
  intros Hr. unfold search. rewrite (repr_search _ _ _ _ _ Hr).
  destruct (has_uppercase (trim host)) eqn:E; [done|]. rewrite lowercase_id; [done|].
  destruct (trim_end_byte_spec dot (trim host)) as (n & En & _).
  rewrite En, has_uppercase_app in E. by apply orb_false_iff in E as [? _].
Qed.

Lemma search_min_run `{RO : RustOrd T} ops t b host :
  repr t (contents ops) b ->
  exists r, search_min_normalized t host = Some r /\
    is_min (fun v => exists k, key_matches k (trim_end_byte dot host) /\ contents ops !! k = Some v) r.
Proof.
  intros Hr. unfold search_min_normalized.
  destruct (Nat.eqb_spec (len t) 0) as [Hl|Hl].
  { exists None. split; [done|]. intros v (k & _ & Hk).
    by rewrite (repr_len _ _ _ Hr Hl), lookup_empty in Hk. }
  case_bool_decide as Hq; [|by eapply repr_min].
  exists None. split; [done|]. rewrite Hq. intros v (k & Hm & Hk).
  apply elem_of_priority, list_elem_of_singleton in Hm as ->.
  by rewrite contents_base in Hk.
Qed.

(** C3: after any history of inserts, overwriting inserts and seals whose
    labels fit the 29-bit node index, nothing has panicked, and [search]
    returns the value of the most specific filled slot for the folded,
    dot-trimmed host: the host itself, else its deepest wildcard parent with
    [*.] before [.]; [search_normalized] does so without folding. *)
Theorem trie_search_most_specific ops :
  small ops ->
  exists t : DomainTrie T, run_ops ops = Some t /\
    (forall host, search t host =
      Some (best_match (contents ops) (to_ascii_lowercase (trim_end_byte dot (trim host))))) /\
    (forall host, search_normalized t host =
      Some (best_match (contents ops) (trim_end_byte dot host))).
Proof.
  intros Hs. destruct (run_repr ops Hs) as (t & b & Ht & Hr & _).
  exists t. split_and!; [done| |].
  - intros host. by eapply search_run.
  - intros host. unfold search_normalized. apply (repr_search _ _ _ false _ Hr).
Qed.

(** [search_min_normalized] returns a least value among all slots that
    match the host, and nothing exactly when no slot matches. *)
Theorem trie_search_min `{RO : RustOrd T} ops :
  small ops ->
  exists t : DomainTrie T, run_ops ops = Some t /\
    forall host, exists r, search_min_normalized t host = Some r /\
      is_min (fun v => exists k, key_matches k (trim_end_byte dot host) /\
        contents ops !! k = Some v) r.
Proof.
  intros Hs. destruct (run_repr ops Hs) as (t & b & Ht & Hr & _).
  exists t. split; [done|]. intros host. by eapply search_min_run.
Qed.

(** Sealing never panics on a small history and changes no answer, for
    any query and any of the three searches. *)
Theorem trie_seal_transparent `{RO : RustOrd T} ops :
  small ops ->
  exists t t' : DomainTrie T, run_ops ops = Some t /\ seal t = Some t' /\
    (exists s, state t' = Frozen s) /\
    forall host, search t' host = search t host /\
      search_normalized t' host = search_normalized t host /\
      search_min_normalized t' host = search_min_normalized t host.
Proof.
  intros Hs. destruct (run_repr ops Hs) as (t & b & Ht & Hr & Hw).
  destruct (seal_repr _ _ _ _ Hr Hw Hs) as (t' & Ht' & Hlen & Hst' & b' & Hr' & _ & Hb).
  exists t, t'. split_and!; [done|done|done|]. intros host.
  unfold search, search_normalized. rewrite !(repr_search _ _ _ _ _ Hr), !(repr_search _ _ _ _ _ Hr').
  split_and!; [done|done|]. unfold search_min_normalized. rewrite Hlen.
  destruct (Nat.eqb_spec (len t) 0) as [Hl|Hl]; [done|]. case_bool_decide; [done|].
  pose proof (repr_nodes _ _ _ Hr Hl) as Hne. rewrite (Hb Hne) in Hr'.
  destruct Hst' as [s' Est']. pose proof (repr_state _ _ _ Hr') as Hfz'. unfold view_of.
  rewrite Est' in Hfz' |- *. destruct Hfz' as (_ & lbl' & order' & first' & Hfz').
  rewrite (min_loop_sealed b s' lbl' order' first' (repr_wf _ _ _ Hr) Hne Hfz' _ _ 0 0)
    by (apply (bd_root _ _ _ _ (fz_done _ _ _ _ _ Hfz'))).
  pose proof (repr_state _ _ _ Hr) as Hfz. destruct (state t) as [b0|s]; [by subst b0|].
  destruct Hfz as (_ & lbl & order & first & Hfz).
  by rewrite (min_loop_sealed b s lbl order first (repr_wf _ _ _ Hr) Hne Hfz _ _ 0 0)
    by (apply (bd_root _ _ _ _ (fz_done _ _ _ _ _ Hfz))).
Qed.

(** *** Agreement with the reference matcher *)

(** Keys and hosts as the property tests generate them, in any case: ASCII,
    trimmed, no trailing dot; a host also is not empty and has no leading
    dot. *)
Definition clean_pattern (p : bytes) : bool :=
  is_ascii p && bool_decide (trim p = p) && bool_decide (last p <> Some dot).
Definition clean_host (q : bytes) : bool :=
  clean_pattern q && bool_decide (q <> []) && bool_decide (head q <> Some dot).

Definition build_ops (patterns : list bytes) (v : T) : list op := (fun p => Insert p v) <$> patterns.

Lemma foldl_write_Some ks mode (v : T) (m : gmap key T) k :
  is_Some (foldl (write_key mode v) m ks !! k) <-> is_Some (m !! k) \/ k ∈ ks.
Proof.
  revert m. induction ks as [|k' ks IH]; intros m; simpl.
  - split; [by left|]. intros [?|?%not_elem_of_nil]; done.
  - rewrite IH, write_key_lookup, elem_of_cons. case_decide as E; [subst k'|naive_solver].
    assert (is_Some (write_slot mode (m !! k) v)); [|naive_solver].
    unfold write_slot. destruct mode; [destruct (m !! k)|]; done.
Qed.

(** The filled slots are those of the keys. *)
Lemma contents_build patterns (v : T) k :
  is_Some (contents (build_ops patterns v) !! k) <-> exists p, p ∈ patterns /\ k ∈ key_slots p.
Proof.
  assert (H : foldl abs_step (false, ∅) (build_ops patterns v) =
    (false, foldl (fun m p => abs_insert m p v FirstWins) ∅ patterns)).
  { unfold build_ops. generalize (∅ : gmap key T) as m.
    induction patterns as [|p ps IH]; intros m; [done|]. apply IH. }
  unfold contents. rewrite H. simpl.
  induction patterns as [|p ps IH] using rev_ind; simpl.
  - rewrite lookup_empty. split; [by intros [? ?]|]. by intros (? & ?%not_elem_of_nil & _).
  - rewrite foldl_app. simpl. unfold abs_insert at 1. rewrite foldl_write_Some, IH.
    2:{ unfold build_ops. clear. generalize (∅ : gmap key T) as m.
        induction ps as [|p ps IH]; intros m; [done|]. apply IH. }
    set_solver.
Qed.

Lemma foldl_write_first ks (v : T) (m : gmap key T) k :
  foldl (write_key FirstWins v) m ks !! k =
  match m !! k with Some x => Some x | None => if decide (k ∈ ks) then Some v else None end.
Proof.
  revert m. induction ks as [|k' ks IH]; intros m; cbn [foldl].
  { by destruct (m !! k). }
  rewrite IH, write_key_lookup. destruct (decide (k = k')) as [->|Hne].
  - destruct (decide (k' ∈ k' :: ks)); [|set_solver]. unfold write_slot. by destruct (m !! k').
  - destruct (m !! k); [done|]. by destruct (decide (k ∈ ks)), (decide (k ∈ k' :: ks)); set_solver.
Qed.

(** With first-write inserts only, a slot holds the first value of a key
    that has it. *)
Lemma contents_first (l : list (bytes * T)) k :
  contents ((fun e => Insert e.1 e.2) <$> l) !! k =
  head (omap (fun e => if decide (k ∈ key_slots e.1) then Some e.2 else None) l).
Proof.
  unfold contents.
  assert (H : foldl abs_step (false, ∅) ((fun e => Insert e.1 e.2) <$> l) =
    (false, foldl (fun m e => abs_insert m e.1 e.2 FirstWins) ∅ l)).
  { generalize (∅ : gmap key T) as m. induction l as [|e l IH]; intros m; [done|]. apply IH. }
  rewrite H. simpl. clear H. induction l as [|e l IH] using rev_ind; [apply lookup_empty|].
  rewrite foldl_app, omap_app. cbn [foldl omap list_omap]. unfold abs_insert at 1.
  rewrite foldl_write_first, IH.
  destruct (omap _ l) as [|x xs]; [|done]. simpl. by case_decide.
Qed.

Lemma contents_seal ops : contents (ops ++ [Seal]) = contents (T := T) ops.
Proof. unfold contents. rewrite foldl_app. by destruct (foldl abs_step (false, ∅) ops) as [[] m]. Qed.

Lemma best_match_Some (m : gmap key T) host :
  is_Some (best_match m host) <-> exists k, key_matches k host /\ is_Some (m !! k).
Proof.
  destruct (best_match m host) as [v|] eqn:E; unfold best_match in E.
  - split; [intros _|done]. unfold first_hit in E. apply head_Some_elem_of in E.
    apply list_elem_of_omap in E as (k & Hk & Hm). exists k. by rewrite <- elem_of_priority, Hm.
  - split; [by intros [? ?]|]. intros (k & Hk%elem_of_priority & Hm).
    rewrite (proj1 (first_hit_None _ _) E k Hk) in Hm. by destruct Hm.
Qed.

Lemma small_seal (ops : list (op (T := T))) : small ops -> small (ops ++ [Seal]).
Proof. unfold small. rewrite sum_list_with_app. simpl. by rewrite Nat.add_0_r. Qed.

Lemma small_app (a b : list (op (T := T))) : small (a ++ b) -> small a.
Proof. unfold small. rewrite sum_list_with_app. lia. Qed.

(** A host matches a pattern through one of the slots the pattern writes. *)
Definition pattern_matches (p host : bytes) : Prop :=
  exists k, k ∈ key_slots p /\ key_matches k (to_ascii_lowercase (trim_end_byte dot (trim host))).

(** A sealed trie of patterns finds the hosts that match one of them. *)
Lemma sealed_patterns patterns (v : T) :
  small (build_ops patterns v) ->
  exists t0 t, run_ops (build_ops patterns v) = Some t0 /\ seal t0 = Some t /\
    forall host, exists r, search t host = Some r /\
      (is_Some r <-> exists p, p ∈ patterns /\ pattern_matches p host).
Proof.
  intros Hsmall. destruct (run_repr _ (small_seal _ Hsmall)) as (t & b & Ht & Hr & _).
  rewrite contents_seal in Hr. unfold run_ops in Ht. rewrite foldlM_app in Ht.
  apply bind_Some in Ht as (t0 & Ht0 & Ht). cbn [foldlM step] in Ht. apply bind_Some in Ht as (t1 & Ht1 & [= ->]).
  exists t0, t. split; [done|]. split; [done|]. intros host. eexists. split; [by apply (search_run _ _ _ host Hr)|].
  rewrite best_match_Some. setoid_rewrite contents_build. unfold pattern_matches. naive_solver.
Qed.

Lemma last_lower s : last (to_ascii_lowercase s) <> Some dot <-> last s <> Some dot.
Proof.
  unfold to_ascii_lowercase. rewrite fmap_last. destruct (last s) as [c|]; simpl; [|done].
  split; intros H E; apply H; injection E as E; f_equal; [by rewrite E|by apply byte_lower_dot].
Qed.

Lemma normal_key_clean p : clean_pattern p = true -> normal_key p = to_ascii_lowercase p.
Proof.
  unfold clean_pattern, normal_key. rewrite !andb_true_iff, !bool_decide_eq_true.
  intros [[Ha Ht] _]. rewrite Ht. destruct (existsb _ p) eqn:E; [by apply to_lowercase_ascii|].
  symmetry. apply lowercase_id. unfold has_uppercase. apply not_true_iff_false.
  rewrite <- not_true_iff_false in E. intros H. apply E. rewrite existsb_exists in *.
  destruct H as (c & Hc & Hu). exists c. by rewrite Hu.
Qed.

Lemma base_slots_clean kinds base :
  last base <> Some dot -> base <> [] -> base_slots kinds base = map (fun kd => (kd, base)) kinds.
Proof.
  intros Hl Hn. unfold base_slots. rewrite trim_end_byte_id by done.
  by rewrite bool_decide_eq_false_2.
Qed.

(** A key matches a host exactly when the reference matcher says so. *)
Lemma naive_one p q :
  clean_pattern p = true -> q <> [] -> head q <> Some dot ->
  naive_matches_one (to_ascii_lowercase p) q = true <->
  exists k, k ∈ key_slots p /\ key_matches k q.
Proof.
  intros Hp Hq Hhd. unfold key_slots. rewrite normal_key_clean by done.
  unfold clean_pattern in Hp. rewrite !andb_true_iff, !bool_decide_eq_true in Hp.
  destruct Hp as [_ Hlast%last_lower]. set (p' := to_ascii_lowercase p) in *.
  unfold naive_matches_one.
  assert (Hrest : forall x y r, strip_prefix [x; y] p' = Some r -> y = dot ->
    r <> [] /\ last r <> Some dot).
  { intros x y r ->%strip_prefix_Some ->. destruct r as [|c r]; [done|]. split; [done|].
    change ([x; dot] ++ c :: r) with ([x; dot] ++ (c :: r)) in Hlast. by rewrite last_app_cons in Hlast. }
  destruct (strip_prefix (b! "+.") p') as [r|] eqn:E1;
    [|destruct (strip_prefix (b! "*.") p') as [r|] eqn:E2;
      [|destruct (strip_prefix (b! ".") p') as [r|] eqn:E3]].
  - destruct (Hrest _ _ _ E1 eq_refl) as [Hr Hl]. rewrite base_slots_clean by done.
    rewrite orb_true_iff, bool_decide_eq_true, ends_with_spec. simpl.
    setoid_rewrite elem_of_cons. setoid_rewrite elem_of_cons. split.
    + intros [->|[pre ->]]; [exists (Exact, r)|exists (Dot, r)]; simpl; eauto 6.
    + intros (k & [->|[->|?%not_elem_of_nil]] & Hk); simpl in Hk; [by left|by right|done].
  - destruct (Hrest _ _ _ E2 eq_refl) as [Hr Hl]. rewrite base_slots_clean by done.
    setoid_rewrite list_elem_of_singleton.
    destruct (strip_suffix (dot :: r) q) as [pre|] eqn:Es.
    + apply strip_suffix_Some in Es. rewrite andb_true_iff, !negb_true_iff, bool_decide_eq_false,
        contains_byte_false. split.
      * intros [_ Hd]. exists (Star, r). split; [done|]. by exists pre.
      * intros (k & -> & pre' & Hd & E). simpl in *. rewrite E in Es.
        apply app_inj_2 in Es as [-> _]; [|done]. split; [|done]. intros ->. by rewrite E in Hhd.
    + split; [done|]. intros (k & -> & pre & _ & E). simpl in E.
      apply strip_suffix_Some in E. by rewrite E in Es.
  - assert (Hr : r <> [] /\ last r <> Some dot).
    { apply strip_prefix_Some in E3. rewrite E3 in Hlast. destruct r as [|c r]; [done|].
      split; [done|]. by rewrite last_app_cons in Hlast. }
    destruct Hr as [Hr Hl]. rewrite base_slots_clean by done. rewrite ends_with_spec.
    setoid_rewrite list_elem_of_singleton. split.
    + intros [pre ->]. exists (Dot, r). split; [done|]. by exists pre.
    + intros (k & -> & Hk). done.
  - rewrite bool_decide_eq_true. destruct (decide (p' = [])) as [E|E].
    + rewrite E. split; [done|]. by intros (k & ?%not_elem_of_nil & _).
    + rewrite base_slots_clean by done. setoid_rewrite list_elem_of_singleton. split.
      * intros ->. by exists (Exact, p').
      * by intros (k & -> & Hk).
Qed.

(** for clean keys and a clean host the trie built from the keys, sealed
    or not, hits exactly when the reference matcher of the crate's property
    tests does. *)
Theorem trie_agrees_with_naive patterns host (v : T) (sealed : bool) :
  forallb clean_pattern patterns = true -> clean_host host = true ->
  small (build_ops patterns v) ->
  exists t, run_ops (build_ops patterns v ++ (if sealed then [Seal] else [])) = Some t /\
    exists r, search t host = Some r /\
      (is_Some r <-> naive_matches patterns host = true).
Proof.
  intros Hps Hhost Hsmall.
  set (ops := build_ops patterns v ++ (if sealed then [Seal] else [])).
  assert (Hs : small ops).
  { unfold small, ops. rewrite sum_list_with_app. destruct sealed; simpl; by rewrite Nat.add_0_r. }
  assert (Hc : contents ops = contents (build_ops patterns v)).
  { unfold contents, ops. rewrite foldl_app. destruct sealed; [|done]. simpl.
    by destruct (foldl abs_step _ _). }
  destruct (run_repr ops Hs) as (t & b & Ht & Hr & _). exists t. split; [done|].
  unfold clean_host in Hhost. rewrite !andb_true_iff, !bool_decide_eq_true in Hhost.
  destruct Hhost as [[Hcl Hne] Hhd]. pose proof Hcl as Hcl'.
  unfold clean_pattern in Hcl'. rewrite !andb_true_iff, !bool_decide_eq_true in Hcl'.
  destruct Hcl' as [[Hascii Htrim] Hlast].
  unfold search. rewrite Htrim, (trim_end_byte_id _ _ Hlast), (repr_search _ _ _ _ _ Hr).
  assert (E : (if has_uppercase host then to_ascii_lowercase host else host) = to_ascii_lowercase host).
  { destruct (has_uppercase host) eqn:E; [done|]. by rewrite lowercase_id. }
  eexists. split; [reflexivity|]. rewrite E, best_match_Some, Hc.
  setoid_rewrite contents_build. unfold naive_matches. rewrite existsb_exists.
  assert (Hall : forall p, p ∈ patterns -> clean_pattern p = true).
  { intros p Hp. rewrite forallb_forall in Hps. apply Hps. by apply list_elem_of_In. }
  assert (Hq : to_ascii_lowercase host <> [] /\ head (to_ascii_lowercase host) <> Some dot).
  { destruct host as [|c host]; [done|]. split; [done|]. simpl. intros H. apply Hhd. simpl.
    f_equal. apply byte_lower_dot. by injection H. }
  assert (Hlow : forall p, clean_pattern p = true -> to_lowercase p = to_ascii_lowercase p).
  { intros p Hp. apply to_lowercase_ascii. unfold clean_pattern in Hp.
    rewrite !andb_true_iff in Hp. apply Hp. }
  split.
  - intros (k & Hk & p & Hp & Hks). exists p. split; [by apply list_elem_of_In|].
    rewrite !Hlow by auto. apply naive_one; [auto|apply Hq..|]. by exists k.
  - intros (p & Hp%list_elem_of_In & Hn). rewrite !Hlow in Hn by auto.
    apply naive_one in Hn as (k & Hk & Hm); [|auto|apply Hq..]. exists k. eauto.
Qed.

End Theorems.

(** ** Concrete tries *)

Definition demo_ops : list op :=
  [Insert (b! "+.example.com") 7; Insert (b! "*.Example.com") 5; Insert (b! "www.example.com.") 9;
   Insert (b! "www.example.com") 1; InsertOverwrite (b! ".net") 3; Seal; Insert (b! "org") 4].

Lemma trie_search_most_specific_witness :
  exists t, run_ops demo_ops = Some t /\
    search t (b! " WWW.example.com. ") = Some (Some 9) /\
    search t (b! "a.b.example.com") = Some (Some 7) /\
    search t (b! "ftp.example.com") = Some (Some 5) /\
    search_normalized t (b! "org") = Some None.
Proof.
  destruct (trie_search_most_specific (T := nat) demo_ops) as (t & Ht & H1 & H2); [reflexivity|].
  exists t. rewrite !H1, H2. split; [exact Ht|]. split_and!; vm_compute; reflexivity.
Defined.

Lemma trie_search_min_witness :
  exists t, run_ops demo_ops = Some t /\
    exists r, search_min_normalized t (b! "www.example.com") = Some r /\
    is_min (fun v => exists k, key_matches k (b! "www.example.com") /\ contents demo_ops !! k = Some v) r.
Proof.
  destruct (trie_search_min (T := nat) demo_ops) as (t & Ht & H); [reflexivity|].
  exists t. split; [exact Ht|]. exact (H (b! "www.example.com")).
Defined.

Lemma trie_seal_transparent_witness :
  exists t t', run_ops (take 5 demo_ops) = Some t /\ seal t = Some t' /\
    search t' (b! "x.net") = search t (b! "x.net").
Proof.
  destruct (trie_seal_transparent (T := nat) (take 5 demo_ops)) as (t & t' & Ht & Ht' & _ & H);
    [reflexivity|].
  exists t, t'. split_and!; [exact Ht|exact Ht'|]. apply H.
Defined.

Lemma trie_agrees_with_naive_witness :
  exists t, run_ops (build_ops [b! "+.example.com"; b! "*.Net"] tt ++ [Seal]) = Some t /\
    exists r, search t (b! "www.NET") = Some r /\
      (is_Some r <-> naive_matches [b! "+.example.com"; b! "*.Net"] (b! "www.NET") = true).
Proof. apply (trie_agrees_with_naive _ _ tt true); reflexivity. Defined.

(** The whole machinery runs: insert, seal and search. *)
Example trie_runs :
  (t ← run_ops demo_ops;
   x ← search t (b! "WWW.example.com");
   y ← search_min_normalized t (b! "ftp.example.com");
   z ← search t (b! "example.com");
   Some (x, y, z)) = Some (Some 9, Some 5, Some 7).
Proof. vm_compute. reflexivity. Qed.

End TrieTheorems.
