(* ===== verification/Ip.v ===== *)
(** * IP addresses and networks

    Addresses are the integers their conversions ([u32::from],
    [u128::from]) give. Networks belong to the ipnet crate: an interface
    states the documented behaviour the code relies on, and a concrete
    prefix network shows that it can be met. *)

From S2P Require Import Prelude Strings.
From stdpp Require Import countable.

Inductive IpAddr :=
  | V4 (a : Z)
  | V6 (a : Z).

#[export] Instance IpAddr_eq_dec : EqDecision IpAddr.
Proof. solve_decision. Defined.

Definition is_v6 (a : IpAddr) : bool := match a with V4 _ => false | V6 _ => true end.
Definition addr_num (a : IpAddr) : Z := match a with V4 a => a | V6 a => a end.

Definition u128_max : Z := 2 ^ 128 - 1.
Definition family_max (v6 : bool) : Z := if v6 then u128_max else u32_max.

Definition family_width (v6 : bool) : Z := if v6 then 128 else 32.

(** [checked_add(1)] in a family. *)
Definition next_addr (max a : Z) : option Z := if (a <? max)%Z then Some (a + 1)%Z else None.

(** The [IpNet] type of ipnet. [net_contains] holds of the addresses of the
    network's family between its network and broadcast addresses; [trunc]
    drops host bits; a prefix length is at most its family's width; printing
    and parsing round-trip. *)
Class IpNetLib := {
  IpNet : Type;
  net_v6 : IpNet -> bool;
  network : IpNet -> Z;
  broadcast : IpNet -> Z;
  net_contains : IpNet -> IpAddr -> bool;
  trunc : IpNet -> IpNet;
  net_addr : IpNet -> Z;
  prefix_len : IpNet -> Z;
  parse_net : bytes -> option IpNet;
  show_net : IpNet -> bytes;
  network_bounds n : (0 <= network n <= broadcast n /\ broadcast n <= family_max (net_v6 n))%Z;
  net_contains_spec n a :
    net_contains n a = true <->
    net_v6 n = is_v6 a /\ (network n <= addr_num a <= broadcast n)%Z;
  trunc_net n :
    net_v6 (trunc n) = net_v6 n /\ network (trunc n) = network n /\ broadcast (trunc n) = broadcast n;
  prefix_len_bounds n : (0 <= prefix_len n <= family_width (net_v6 n))%Z;
  parse_show n : parse_net (show_net n) = Some n;
}.

(** [Ipv4Net::new] and [Ipv6Net::new]: an address with a prefix length of at
    most its family's width gives the network of the block that holds it; a
    longer prefix is an error. *)
Definition prefix_block (v6 : bool) (prefix : Z) : Z := 2 ^ (family_width v6 - prefix).

Class IpNetNew `{NL : IpNetLib} := {
  net_new : IpAddr -> Z -> option IpNet;
  net_new_valid a p : is_Some (net_new a p) <-> (0 <= p <= family_width (is_v6 a))%Z;
  net_new_family a p n : net_new a p = Some n -> net_v6 n = is_v6 a;
  net_new_block a p n :
    (0 <= addr_num a <= family_max (is_v6 a))%Z -> net_new a p = Some n ->
    network n = (addr_num a / prefix_block (is_v6 a) p * prefix_block (is_v6 a) p)%Z /\
    broadcast n = (network n + prefix_block (is_v6 a) p - 1)%Z;
}.

(** ** A concrete network library *)

Record PrefixNet := mkNet { pn_v6 : bool; pn_addr : Z; pn_prefix : nat }.

#[export] Instance PrefixNet_eq_dec : EqDecision PrefixNet.
Proof. solve_decision. Defined.

#[export] Instance PrefixNet_countable : Countable PrefixNet.
Proof.
  refine (inj_countable' (fun n => (pn_v6 n, pn_addr n, pn_prefix n))
    (fun '(v, a, p) => mkNet v a p) _). by intros [].
Defined.

(** Size of the block of a prefix. *)
Definition pn_block (n : PrefixNet) : Z :=
  2 ^ (family_width (pn_v6 n) - Z.min (Z.of_nat (pn_prefix n)) (family_width (pn_v6 n))).
Definition pn_network (n : PrefixNet) : Z :=
  (pn_addr n `mod` 2 ^ family_width (pn_v6 n)) / pn_block n * pn_block n.
Definition pn_broadcast (n : PrefixNet) : Z := pn_network n + pn_block n - 1.

(** Networks print as the bits of their code. *)
Fixpoint show_pos (p : positive) : bytes :=
  match p with xH => [] | xO p => "0"%char :: show_pos p | xI p => "1"%char :: show_pos p end.
Fixpoint parse_pos (s : bytes) : option positive :=
  match s with
  | [] => Some xH
  | c :: s =>
      p ← parse_pos s;
      if decide (c = "0"%char) then Some (xO p)
      else if decide (c = "1"%char) then Some (xI p) else None
  end.

Lemma parse_show_pos p : parse_pos (show_pos p) = Some p.
Proof. by induction p as [p IH|p IH|]; simpl; rewrite ?IH. Qed.

Lemma pn_block_spec n :
  (0 < pn_block n)%Z /\ exists q, (0 < q /\ 2 ^ family_width (pn_v6 n) = pn_block n * q)%Z.
Proof.
  unfold pn_block. set (w := family_width (pn_v6 n)).
  set (p := Z.min (Z.of_nat (pn_prefix n)) w).
  assert (0 <= p <= w)%Z by (unfold p, w, family_width; destruct (pn_v6 n); lia).
  split; [apply Z.pow_pos_nonneg; lia|]. exists (2 ^ p)%Z. split; [apply Z.pow_pos_nonneg; lia|].
  rewrite <- Z.pow_add_r by lia. f_equal. lia.
Qed.

Lemma pn_bounds n :
  (0 <= pn_network n <= pn_broadcast n /\ pn_broadcast n <= family_max (pn_v6 n))%Z.
Proof.
  unfold pn_broadcast, pn_network. destruct (pn_block_spec n) as (Hb & q & Hq & E).
  set (w := (2 ^ family_width (pn_v6 n))%Z) in *.
  assert (Hw : (0 < w)%Z) by (rewrite E; nia).
  pose proof (Z.mod_pos_bound (pn_addr n) w Hw) as Hm. set (a := (pn_addr n `mod` w)%Z) in *.
  assert (Hfam : family_max (pn_v6 n) = (w - 1)%Z).
  { unfold family_max, w, family_width, u128_max, u32_max. destruct (pn_v6 n); lia. }
  rewrite Hfam. clear Hfam.
  pose proof (Z.div_pos a (pn_block n) ltac:(lia) Hb).
  assert (Hlt : (a / pn_block n < q)%Z) by (apply Z.div_lt_upper_bound; lia).
  split; [|]; nia.
Qed.

Definition pn_trunc (n : PrefixNet) : PrefixNet := mkNet (pn_v6 n) (pn_network n) (pn_prefix n).

Lemma pn_trunc_network n : pn_network (pn_trunc n) = pn_network n.
Proof.
  pose proof (pn_bounds n) as Hn. destruct (pn_block_spec n) as (Hb & _).
  unfold pn_network at 1. change (pn_block (pn_trunc n)) with (pn_block n).
  cbn [pn_v6 pn_addr pn_trunc]. rewrite Z.mod_small.
  - unfold pn_network. by rewrite Z.div_mul by lia.
  - unfold family_max, family_width, u128_max, u32_max in *. destruct (pn_v6 n); lia.
Qed.

#[export] Program Instance prefix_net_lib : IpNetLib | 100 := {|
  IpNet := PrefixNet;
  net_v6 := pn_v6;
  network := pn_network;
  broadcast := pn_broadcast;
  net_contains n a :=
    Bool.eqb (pn_v6 n) (is_v6 a) &&
    ((pn_network n <=? addr_num a) && (addr_num a <=? pn_broadcast n))%Z;
  trunc := pn_trunc;
  net_addr n := (pn_addr n `mod` 2 ^ family_width (pn_v6 n))%Z;
  prefix_len n := Z.min (Z.of_nat (pn_prefix n)) (family_width (pn_v6 n));
  parse_net s := p ← parse_pos s; decode p;
  show_net n := show_pos (encode n);
|}.
Next Obligation. apply pn_bounds. Qed.
Next Obligation.
  intros n a. simpl. rewrite !andb_true_iff, eqb_true_iff, !Z.leb_le. done.
Qed.
Next Obligation.
  intros n. unfold pn_broadcast. rewrite pn_trunc_network. done.
Qed.
Next Obligation. intros n. simpl. unfold family_width. destruct (pn_v6 n); lia. Qed.
Next Obligation. intros n. simpl. rewrite parse_show_pos. simpl. apply decode_encode. Qed.

#[export] Program Instance prefix_net_new : IpNetNew (NL := prefix_net_lib) | 100 := {|
  net_new a p :=
    if ((0 <=? p) && (p <=? family_width (is_v6 a)))%Z
    then Some (mkNet (is_v6 a) (addr_num a) (Z.to_nat p)) else None;
|}.
Next Obligation.
  intros a p. cbn beta.
  destruct (Z.leb_spec 0 p), (Z.leb_spec p (family_width (is_v6 a))); cbn; split; try lia;
    first [by intros [] | by eexists].
Qed.
Next Obligation. intros a p n. cbn beta. case_match; [by intros [= <-]|done]. Qed.
Next Obligation.
  intros a p n Ha. cbn beta.
  destruct (Z.leb_spec 0 p), (Z.leb_spec p (family_width (is_v6 a))); cbn [andb]; [|done..].
  intros [= <-]. cbn [network broadcast prefix_net_lib]. unfold pn_broadcast, pn_network, pn_block, prefix_block.
  cbn [pn_v6 pn_addr pn_prefix]. rewrite Z2Nat.id, Z.min_l by lia.
  rewrite Z.mod_small; [done|]. unfold family_max, family_width, u128_max, u32_max in *. destruct (is_v6 a); lia.
Qed.
