(* ===== verification/IpSet.v ===== *)
(** * Interval sets of addresses

    [IpRangeSet] of crates/meow-rules/src/ip_set.rs (sorted, coalesced
    intervals with binary search) and [CidrCoverage] of
    crates/meow-tunnel/src/rule_ir.rs (the same idea, grown one network at
    a time). Both decide membership in a union of networks exactly. *)

From S2P Require Import Prelude Strings Vec Ip.
From stdpp Require Import sorting.

Module IpSet.

Abbreviation interval := (Z * Z)%type.

(** ** [IpRangeSet] *)

Record Intervals := mkIntervals { starts : list Z; ends : list Z }.

(** [self.ends[idx - 1]] is in range whenever the two arrays are. *)
Definition contains_iv (i : Intervals) (addr : Z) : bool :=
  let idx := partition_point (fun start => start <=? addr)%Z (starts i) in
  (0 <? idx) && from_option (fun e => addr <=? e)%Z false (ends i !! (idx - 1)).

Definition covers_iv (i : Intervals) (start stop : Z) : bool :=
  let idx := partition_point (fun s => s <=? start)%Z (starts i) in
  (0 <? idx) && from_option (fun e => stop <=? e)%Z false (ends i !! (idx - 1)).

(** The order of [sort_unstable] on pairs. *)
Definition pair_le (p q : interval) : Prop := (p.1 < q.1 \/ p.1 = q.1 /\ p.2 <= q.2)%Z.

#[export] Instance pair_le_dec : RelDecision pair_le.
Proof. intros p q. unfold pair_le. apply _. Defined.

Section Family.
(** The family's greatest address. *)
Variable max : Z.

(** One round of the merge loop of [from_unsorted]. *)
Definition merge_step (acc : Intervals) (r : interval) : Intervals :=
  let '(start, stop) := r in
  match last (ends acc) with
  | Some last_end =>
      if (start <=? last_end)%Z || bool_decide (next_addr max last_end = Some start) then
        if (last_end <? stop)%Z
        then mkIntervals (starts acc) (<[length (ends acc) - 1 := stop]> (ends acc))
        else acc
      else mkIntervals (starts acc ++ [start]) (ends acc ++ [stop])
  | None => mkIntervals (starts acc ++ [start]) (ends acc ++ [stop])
  end.

Definition from_unsorted (ranges : list interval) : Intervals :=
  foldl merge_step (mkIntervals [] []) (merge_sort pair_le ranges).

Definition push_merging (pending : list interval) (start stop : Z) : list interval :=
  match last pending with
  | Some (l0, l1) =>
      if (l0 <=? start)%Z && ((start <=? l1)%Z || bool_decide (next_addr max l1 = Some start)) then
        if (l1 <? stop)%Z then <[length pending - 1 := (l0, stop)]> pending else pending
      else pending ++ [(start, stop)]
  | None => pending ++ [(start, stop)]
  end.

(** ** [interval_covers] and [interval_insert] of the rule compiler *)

Definition interval_covers (l : list interval) (start stop : Z) : bool :=
  let idx := partition_point (fun p => p.1 <=? start)%Z l in
  (0 <? idx) && from_option (fun p => stop <=? p.2)%Z false (l !! (idx - 1)).

Definition interval_insert (l : list interval) (start stop : Z) : list interval :=
  let first := partition_point
    (fun p => match next_addr max p.2 with Some n => (n <? start)%Z | None => false end) l in
  let last := first + partition_point
    (fun p => match next_addr max stop with Some n => (p.1 <=? n)%Z | None => true end)
    (drop first l) in
  if first =? last then take first l ++ (start, stop) :: drop first l
  else
    let merged_start := Z.min start (from_option fst start (l !! first)) in
    let merged_end := Z.max stop (from_option snd stop (l !! (last - 1))) in
    take first l ++ (merged_start, merged_end) :: drop last l.

End Family.

Section Nets.
Context `{NL : IpNetLib}.

Record IpRangeSet := mkRangeSet { set_v4 : Intervals; set_v6 : Intervals }.
Record IpRangeSetBuilder := mkSetBuilder { pend_v4 : list interval; pend_v6 : list interval }.

Definition add_v4 (b : IpRangeSetBuilder) (net : IpNet) : IpRangeSetBuilder :=
  mkSetBuilder (push_merging u32_max (pend_v4 b) (network net) (broadcast net)) (pend_v6 b).
Definition add_v6 (b : IpRangeSetBuilder) (net : IpNet) : IpRangeSetBuilder :=
  mkSetBuilder (pend_v4 b) (push_merging u128_max (pend_v6 b) (network net) (broadcast net)).

Definition builder_add (b : IpRangeSetBuilder) (net : IpNet) : IpRangeSetBuilder :=
  if net_v6 net then add_v6 b net else add_v4 b net.

Definition builder_is_empty (b : IpRangeSetBuilder) : bool :=
  match pend_v4 b, pend_v6 b with [], [] => true | _, _ => false end.

Definition builder_build (b : IpRangeSetBuilder) : IpRangeSet :=
  mkRangeSet (from_unsorted u32_max (pend_v4 b)) (from_unsorted u128_max (pend_v6 b)).

Definition from_nets (nets : list IpNet) : IpRangeSet :=
  builder_build (foldl builder_add (mkSetBuilder [] []) nets).

Definition set_contains (s : IpRangeSet) (addr : IpAddr) : bool :=
  match addr with V4 a => contains_iv (set_v4 s) a | V6 a => contains_iv (set_v6 s) a end.

Definition set_covers (s : IpRangeSet) (net : IpNet) : bool :=
  if net_v6 net then covers_iv (set_v6 s) (network net) (broadcast net)
  else covers_iv (set_v4 s) (network net) (broadcast net).

Definition intervals_is_empty (i : Intervals) : bool := match starts i with [] => true | _ => false end.
Definition set_is_empty (s : IpRangeSet) : bool :=
  intervals_is_empty (set_v4 s) && intervals_is_empty (set_v6 s).

(** [CidrCoverage]. *)
Record CidrCoverage := mkCoverage { cov_v4 : list interval; cov_v6 : list interval }.

Definition coverage_new : CidrCoverage := mkCoverage [] [].

Definition coverage_covers (c : CidrCoverage) (net : IpNet) : bool :=
  if net_v6 net then interval_covers (cov_v6 c) (network net) (broadcast net)
  else interval_covers (cov_v4 c) (network net) (broadcast net).

Definition coverage_absorb (c : CidrCoverage) (net : IpNet) : CidrCoverage :=
  if net_v6 net
  then mkCoverage (cov_v4 c) (interval_insert u128_max (cov_v6 c) (network net) (broadcast net))
  else mkCoverage (interval_insert u32_max (cov_v4 c) (network net) (broadcast net)) (cov_v6 c).

End Nets.

(** ** Interval lists and the addresses they hold *)

Definition covered (l : list interval) (x : Z) : Prop :=
  exists p, p ∈ l /\ (p.1 <= x <= p.2)%Z.

(** Sorted, disjoint and not even adjacent. *)
Fixpoint separated (l : list interval) : Prop :=
  match l with
  | [] => True
  | p :: l => (p.1 <= p.2)%Z /\ (forall q, q ∈ l -> (p.2 + 1 < q.1)%Z) /\ separated l
  end.

Lemma covered_nil x : ~ covered [] x.
Proof. by intros (p & ?%not_elem_of_nil & _). Qed.

Lemma covered_app l k x : covered (l ++ k) x <-> covered l x \/ covered k x.
Proof. unfold covered. setoid_rewrite elem_of_app. naive_solver. Qed.

Lemma covered_cons p l x : covered (p :: l) x <-> (p.1 <= x <= p.2)%Z \/ covered l x.
Proof. unfold covered. setoid_rewrite elem_of_cons. naive_solver. Qed.

Lemma covered_perm l k x : l ≡ₚ k -> covered l x <-> covered k x.
Proof. intros H. unfold covered. by setoid_rewrite H. Qed.

Lemma separated_app l k :
  separated (l ++ k) <->
  separated l /\ separated k /\ forall p q, p ∈ l -> q ∈ k -> (p.2 + 1 < q.1)%Z.
Proof.
  induction l as [|p l IH]; simpl.
  - split; [|tauto]. intros H. split_and!; [done|done|]. by intros p q ?%not_elem_of_nil.
  - rewrite IH. split.
    + intros (Hp & Hq & Hl & Hk & Hlk). split_and!; try done.
      * intros q Hin. apply Hq. set_solver.
      * intros p' q [->|Hin]%elem_of_cons Hin'; [apply Hq; set_solver|by apply Hlk].
    + intros ((Hp & Hq & Hl) & Hk & Hlk). split_and!; try done.
      * intros q [Hin|Hin]%elem_of_app; [by apply Hq|apply Hlk; set_solver].
      * intros; apply Hlk; set_solver.
Qed.

Lemma separated_lookup l i p : separated l -> l !! i = Some p -> (p.1 <= p.2)%Z.
Proof.
  revert i. induction l as [|q l IH]; intros [|i] Hs Hi; simplify_eq/=; [tauto|].
  apply (IH i); tauto.
Qed.

Lemma separated_lt l i j p q :
  separated l -> i < j -> l !! i = Some p -> l !! j = Some q -> (p.2 + 1 < q.1)%Z.
Proof.
  intros Hs Hij Hp Hq. rewrite <- (take_drop j l) in Hs. apply separated_app in Hs as (_ & _ & H).
  apply H.
  - apply list_elem_of_lookup. exists i. by rewrite lookup_take_lt.
  - apply list_elem_of_lookup. exists 0. by rewrite lookup_drop, Nat.add_0_r.
Qed.

(** Binary search on the starts of a separated list. *)
Lemma partition_starts l a :
  separated l ->
  let idx := partition_point (fun p : interval => p.1 <=? a)%Z l in
  idx <= length l /\
  (forall j p, j < idx -> l !! j = Some p -> (p.1 <= a)%Z) /\
  (forall j p, idx <= j -> l !! j = Some p -> (a < p.1)%Z).
Proof.
  intros Hs idx. destruct (partition_point_spec (fun p : interval => p.1 <=? a)%Z l) as (H1 & H2 & H3).
  { intros i j p q Hij Hp Hq Hle%Z.leb_le. apply Z.leb_le.
    pose proof (separated_lt _ _ _ _ _ Hs Hij Hp Hq). pose proof (separated_lookup _ _ _ Hs Hp). lia. }
  split_and!; [done| |].
  - intros j p Hj Hp. apply Z.leb_le. by eapply H2.
  - intros j p Hj Hp. apply Z.leb_gt. by eapply H3.
Qed.

(** A separated list covers a range exactly when every address of the range
    is in it. *)
Lemma interval_covers_spec l start stop :
  separated l -> (start <= stop)%Z ->
  interval_covers l start stop = true <-> forall x, (start <= x <= stop)%Z -> covered l x.
Proof.
  intros Hs Hle. unfold interval_covers.
  destruct (partition_starts l start Hs) as (Hidx & Hlo & Hhi).
  set (idx := partition_point _ l) in *. rewrite andb_true_iff, Nat.ltb_lt. split.
  - intros [Hpos He] x Hx. destruct (l !! (idx - 1)) as [p|] eqn:Ep; simpl in He; [|done].
    apply Z.leb_le in He. exists p. split; [by eapply list_elem_of_lookup_2|].
    pose proof (Hlo (idx - 1) p ltac:(lia) Ep). lia.
  - intros Hall. destruct (Hall start ltac:(lia)) as (p & Hp & Hrange).
    apply list_elem_of_lookup in Hp as [i Hi].
    assert (Hlt : i < idx).
    { destruct (decide (i < idx)) as [|Hge]; [done|]. pose proof (Hhi i p ltac:(lia) Hi). lia. }
    split; [lia|].
    assert (Hlast : i = idx - 1).
    { destruct (decide (i = idx - 1)) as [|Hne]; [done|].
      destruct (lookup_lt_is_Some_2 l (idx - 1)) as [q Hq]; [lia|].
      assert (Hij : i < idx - 1) by lia.
      pose proof (separated_lt _ _ _ _ _ Hs Hij Hi Hq).
      pose proof (Hlo (idx - 1) q ltac:(lia) Hq). lia. }
    rewrite <- Hlast, Hi. simpl. apply Z.leb_le.
    destruct (Z.le_gt_cases stop p.2) as [|Hgt]; [done|exfalso].
    destruct (Hall (p.2 + 1)%Z ltac:(lia)) as (q & Hq & Hr).
    apply list_elem_of_lookup in Hq as [j Hj].
    destruct (Nat.lt_trichotomy i j) as [Hij|[->|Hij]].
    + pose proof (separated_lt _ _ _ _ _ Hs Hij Hi Hj). lia.
    + simplify_eq. lia.
    + pose proof (separated_lt _ _ _ _ _ Hs Hij Hj Hi). pose proof (separated_lookup _ _ _ Hs Hi). lia.
Qed.

(** ** Coalescing an unordered list *)

Lemma next_addr_Some max a b : next_addr max a = Some b <-> (a < max /\ b = a + 1)%Z.
Proof.
  unfold next_addr. destruct (Z.ltb_spec a max); split; intros; simplify_eq; try lia.
  f_equal. lia.
Qed.

(** The pairs of the two arrays. *)
Definition pairs_of (i : Intervals) (l : list interval) : Prop :=
  starts i = l.*1 /\ ends i = l.*2.

Lemma contains_iv_spec i l a :
  pairs_of i l -> separated l -> contains_iv i a = true <-> covered l a.
Proof.
  intros [Hst He] Hs.
  assert (E : contains_iv i a = interval_covers l a a).
  { unfold contains_iv, interval_covers. rewrite Hst, He.
    rewrite (partition_point_fmap fst (fun start => start <=? a)%Z l).
    rewrite list_lookup_fmap. by destruct (l !! _). }
  rewrite E, interval_covers_spec by (done || lia). split.
  - intros H. apply H. lia.
  - intros H x Hx. by replace x with a by lia.
Qed.

Lemma covers_iv_spec i l a b :
  pairs_of i l -> separated l -> (a <= b)%Z ->
  covers_iv i a b = true <-> forall x, (a <= x <= b)%Z -> covered l x.
Proof.
  intros [Hst He] Hs Hab. rewrite <- interval_covers_spec by done.
  unfold covers_iv, interval_covers. rewrite Hst, He.
  rewrite (partition_point_fmap fst (fun start => start <=? a)%Z l).
  rewrite list_lookup_fmap. by destruct (l !! _).
Qed.

Section Coalesce.
Context (max : Z).
Definition range_ok (p : interval) : Prop := (p.1 <= p.2 /\ p.2 <= max)%Z.

(** Invariant of the merge loop after the sorted prefix [seen]. *)
Record merged (seen : list interval) (acc : Intervals) (l : list interval) : Prop := {
  mg_pairs : pairs_of acc l;
  mg_sep : separated l;
  mg_covered x : covered l x <-> covered seen x;
  mg_bound : Forall (fun p => (p.2 <= max)%Z) l;
  mg_last p : last l = Some p -> exists q, q ∈ seen /\ p.1 = q.1;
}.

Lemma merge_step_spec seen acc l r :
  merged seen acc l -> range_ok r -> (forall q, q ∈ seen -> (q.1 <= r.1)%Z) ->
  exists l', merged (seen ++ [r]) (merge_step max acc r) l'.
Proof.
  intros [[Hst He] Hs Hc Hb Hl] [Hr Hrm] Hsorted. destruct r as [a b]. cbn [fst snd] in *.
  unfold merge_step. rewrite He, fmap_last.
  destruct l as [|[s0 e0] l0 _] using rev_ind; cbn [last fmap option_fmap option_map].
  { exists [(a, b)]. split.
    - split; cbn [starts ends]; by rewrite ?Hst.
    - simpl. split_and!; [done| |done]. by intros q ?%not_elem_of_nil.
    - intros x. rewrite covered_app, <- Hc. clear. pose proof (covered_nil x).
      tauto.
    - by repeat constructor.
    - intros p [= <-]. exists (a, b). split; [set_solver|done]. }
  rewrite last_snoc. cbn [fmap option_fmap option_map snd].
  apply separated_app in Hs as (Hs0 & (Hse & _) & Hsep). cbn [fst snd] in Hse.
  assert (Hs0a : (s0 <= a)%Z).
  { destruct (Hl (s0, e0)) as (q & Hq & E); [by rewrite last_snoc|]. simpl in E.
    specialize (Hsorted q Hq). lia. }
  assert (He0 : (e0 <= max)%Z) by (apply Forall_app in Hb as [_ Hb]; by inversion Hb).
  assert (Hcov : forall x, covered (l0 ++ [(s0, e0)]) x <-> covered seen x) by done.
  case_match eqn:Et.
  - assert (Htouch : (a <= e0 + 1)%Z).
    { apply orb_true_iff in Et as [?%Z.leb_le|H%bool_decide_eq_true]; [lia|].
      apply next_addr_Some in H. lia. }
    exists (l0 ++ [(s0, Z.max e0 b)]). split.
    + destruct (Z.ltb_spec e0 b) as [Hlt|Hge].
      * rewrite Z.max_r by lia. split; cbn [starts ends].
        -- rewrite Hst, !fmap_app. done.
        -- rewrite !fmap_app, length_app, length_fmap. cbn [length fmap list_fmap].
           replace (length l0 + 1 - 1) with (length (l0.*2) + 0) by (rewrite length_fmap; lia).
           by rewrite insert_app_r.
      * rewrite Z.max_l by lia. done.
    + apply separated_app. split_and!; [done| |].
      * simpl. split_and!; [lia| |done]. by intros q ?%not_elem_of_nil.
      * intros p q Hp ->%list_elem_of_singleton. apply (Hsep p (s0, e0)); [done|set_solver].
    + intros x. rewrite !covered_app, <- Hcov, !covered_app, !covered_cons. cbn [fst snd].
      pose proof (covered_nil x). split; [|naive_solver lia].
      intros [?|[?|?]]; [tauto| |tauto].
      destruct (Z.le_gt_cases x e0); [left; right; left; lia|right; left; lia].
    + apply Forall_app in Hb as [Hb _]. apply Forall_app. split; [done|].
      repeat constructor. simpl. lia.
    + intros p. rewrite last_snoc. intros [= <-].
      destruct (Hl (s0, e0)) as (q & Hq & E); [by rewrite last_snoc|].
      exists q. split; [set_solver|done].
  - assert (Hfar : (e0 + 1 < a)%Z).
    { apply orb_false_iff in Et as [?%Z.leb_gt H%bool_decide_eq_false].
      destruct (decide (a = e0 + 1)%Z) as [->|]; [|lia]. exfalso. apply H.
      apply next_addr_Some. lia. }
    exists ((l0 ++ [(s0, e0)]) ++ [(a, b)]). split.
    + split; cbn [starts ends]; rewrite ?Hst, (fmap_app _ (l0 ++ [(s0, e0)])); done.
    + apply separated_app. split_and!.
      * apply separated_app. split_and!; [done| |done]. simpl. split_and!; [done| |done].
        by intros q ?%not_elem_of_nil.
      * simpl. split_and!; [done| |done]. by intros q ?%not_elem_of_nil.
      * intros p q [Hp|Hp]%elem_of_app ->%list_elem_of_singleton; cbn [fst].
        -- pose proof (Hsep p (s0, e0) Hp ltac:(set_solver)). cbn [fst] in *. lia.
        -- apply list_elem_of_singleton in Hp as ->. done.
    + intros x. by rewrite (covered_app _ [(a, b)]), (covered_app seen), Hcov.
    + apply Forall_app. split; [done|]. by repeat constructor.
    + intros p. rewrite last_snoc. intros [= <-]. exists (a, b). split; [set_solver|done].
Qed.

#[export] Instance pair_le_total : Total pair_le.
Proof. intros p q. unfold pair_le. lia. Qed.
#[export] Instance pair_le_trans : Transitive pair_le.
Proof. intros p q r. unfold pair_le. lia. Qed.

Lemma from_unsorted_spec ranges :
  Forall range_ok ranges ->
  exists l, pairs_of (from_unsorted max ranges) l /\ separated l /\
    forall x, covered l x <-> covered ranges x.
Proof.
  intros Hok. unfold from_unsorted.
  pose proof (merge_sort_Permutation pair_le ranges) as Hperm.
  pose proof (StronglySorted_merge_sort pair_le ranges) as Hss.
  rewrite <- Hperm in Hok. setoid_rewrite <- (fun x => covered_perm _ _ x Hperm).
  clear Hperm.
  cut (exists l, merged (merge_sort pair_le ranges)
    (foldl (merge_step max) (mkIntervals [] []) (merge_sort pair_le ranges)) l).
  { intros [l [Hp Hs Hc _ _]]. by exists l. }
  induction (merge_sort pair_le ranges) as [|r rs IH] using rev_ind.
  - exists []. split; [done|done| |constructor|done]. intros x. tauto.
  - apply Forall_app in Hok as [Hok Hr]. inversion Hr as [|? ? Hr' _]; subst.
    apply StronglySorted_app in Hss as (Hle & Hss & _).
    destruct (IH Hok Hss) as [l Hl]. rewrite foldl_app. simpl.
    apply merge_step_spec with l; [done|done|].
    intros q Hq. specialize (Hle q r Hq ltac:(set_solver)). unfold pair_le in Hle. lia.
Qed.

Lemma push_merging_spec pending a b :
  Forall range_ok pending -> range_ok (a, b) ->
  Forall range_ok (push_merging max pending a b) /\
  forall x, covered (push_merging max pending a b) x <-> covered pending x \/ (a <= x <= b)%Z.
Proof.
  intros Hok Hab. assert (Hpush : Forall range_ok (pending ++ [(a, b)]) /\
    forall x, covered (pending ++ [(a, b)]) x <-> covered pending x \/ (a <= x <= b)%Z).
  { split; [apply Forall_app; split; [done|]; constructor; [done|constructor]|]. intros x.
    rewrite covered_app, covered_cons. cbn [fst snd]. pose proof (covered_nil x). tauto. }
  unfold push_merging. destruct pending as [|[l0 l1] p _] using rev_ind; [done|].
  rewrite last_snoc. case_match eqn:Et; [|done]. clear Hpush.
  apply Forall_app in Hok as [Hok Hl]. inversion Hl as [|? ? [Hl01 Hl1] _]; subst.
  destruct Hab as [Hab Hb]. cbn [fst snd] in *.
  apply andb_true_iff in Et as [Hla%Z.leb_le Et].
  assert (Htouch : (a <= l1 + 1)%Z).
  { apply orb_true_iff in Et as [?%Z.leb_le|H%bool_decide_eq_true]; [lia|].
    apply next_addr_Some in H. lia. }
  assert (E : (if (l1 <? b)%Z then <[length (p ++ [(l0, l1)]) - 1 := (l0, b)]> (p ++ [(l0, l1)])
      else p ++ [(l0, l1)]) = p ++ [(l0, Z.max l1 b)]).
  { destruct (Z.ltb_spec l1 b).
    - rewrite Z.max_r by lia. rewrite length_app. cbn [length].
      replace (length p + 1 - 1) with (length p + 0) by lia. by rewrite insert_app_r.
    - by rewrite Z.max_l by lia. }
  rewrite E. split.
  - apply Forall_app. split; [done|]. constructor; [|constructor]. split; cbn [fst snd]; lia.
  - intros x. rewrite !covered_app, !covered_cons. cbn [fst snd]. pose proof (covered_nil x).
    split; [|naive_solver lia]. intros [?|[?|?]]; [tauto| |tauto].
    destruct (Z.le_gt_cases x l1); [left; right; left; lia|right; lia].
Qed.

(** ** Inserting one range *)

(** The three parts of the list around a new range. *)
Lemma insert_split l a b :
  separated l -> Forall (fun p => (p.2 <= max)%Z) l -> range_ok (a, b) ->
  exists L M R, l = L ++ M ++ R /\
    (forall p, p ∈ L -> (p.2 + 1 < a)%Z) /\
    (forall p, p ∈ M -> (a <= p.2 + 1 /\ p.1 <= b + 1)%Z) /\
    (forall p, p ∈ R -> (b + 1 < p.1)%Z) /\
    interval_insert max l a b =
      L ++ (match M with
            | [] => (a, b)
            | m :: _ => (Z.min a m.1, Z.max b (from_option snd b (last M)))
            end) :: R.
Proof.
  intros Hs Hb [Hab Hbm]. cbn [fst snd] in *. unfold interval_insert.
  set (pf := fun p : interval => match next_addr max p.2 with Some n => (n <? a)%Z | None => false end).
  assert (Hpf : forall p, p ∈ l -> pf p = true <-> (p.2 + 1 < a)%Z).
  { intros p Hp. rewrite Forall_forall in Hb. specialize (Hb p Hp). unfold pf, next_addr.
    destruct (Z.ltb_spec p.2 max); [apply Z.ltb_lt|]. split; [done|lia]. }
  destruct (partition_point_spec pf l) as (F1 & F2 & F3).
  { intros i j p q Hij Hp Hq H. pose proof (separated_lt _ _ _ _ _ Hs Hij Hp Hq).
    pose proof (separated_lookup _ _ _ Hs Hq).
    apply Hpf; [by eapply list_elem_of_lookup_2|]. apply Hpf in H; [lia|by eapply list_elem_of_lookup_2]. }
  set (first := partition_point pf l) in *. set (l' := drop first l).
  set (pl := fun p : interval => match next_addr max b with Some n => (p.1 <=? n)%Z | None => true end).
  assert (Hs' : separated l').
  { rewrite <- (take_drop first l) in Hs. by apply separated_app in Hs as (_ & ? & _). }
  assert (Hpl : forall i p, l' !! i = Some p -> pl p = true <-> (p.1 <= b + 1)%Z).
  { intros i p Hp. pose proof (separated_lookup _ _ _ Hs' Hp).
    assert (p.2 <= max)%Z.
    { rewrite Forall_forall in Hb. apply Hb. unfold l' in Hp. rewrite lookup_drop in Hp.
      by eapply list_elem_of_lookup_2. }
    unfold pl, next_addr. destruct (Z.ltb_spec b max); [apply Z.leb_le|]. split; [lia|done]. }
  destruct (partition_point_spec pl l') as (P1 & P2 & P3).
  { intros i j p q Hij Hp Hq H. pose proof (separated_lt _ _ _ _ _ Hs' Hij Hp Hq).
    pose proof (separated_lookup _ _ _ Hs' Hp).
    apply (Hpl i p Hp). apply (Hpl j q Hq) in H. lia. }
  set (k := partition_point pl l') in *.
  exists (take first l), (take k l'), (drop k l'). split_and!.
  - rewrite (take_drop k l'). unfold l'. by rewrite take_drop.
  - intros p [i Hi]%list_elem_of_lookup. apply lookup_take_Some in Hi as [Hi Hlt].
    apply Hpf; [by eapply list_elem_of_lookup_2|]. by eapply F2.
  - intros p [i Hi]%list_elem_of_lookup. apply lookup_take_Some in Hi as [Hi Hlt]. split.
    + unfold l' in Hi. rewrite lookup_drop in Hi. assert (pf p = false) by (eapply F3; [|exact Hi]; lia).
      destruct (decide (p.2 + 1 < a)%Z) as [H'|]; [|lia].
      apply Hpf in H'; [congruence|by eapply list_elem_of_lookup_2].
    + apply (Hpl i p Hi). by eapply P2.
  - intros p [i Hi]%list_elem_of_lookup. rewrite lookup_drop in Hi.
    assert (pl p = false) by (eapply P3; [|exact Hi]; lia).
    destruct (decide (b + 1 < p.1)%Z) as [|H']; [done|].
    assert (pl p = true) by (apply (Hpl _ p Hi); lia). congruence.
  - assert (Hlen : length (take k l') = k) by (rewrite length_take; lia).
    destruct (Nat.eqb_spec first (first + k)) as [E|E].
    + replace k with 0 by lia. simpl. done.
    + destruct (take k l') as [|m M] eqn:EM; [simpl in Hlen; lia|].
      unfold l'. rewrite drop_drop. do 2 f_equal. f_equal.
      * assert (Hm : l' !! 0 = Some m).
        { rewrite <- (take_drop k l'), EM. done. }
        unfold l' in Hm. rewrite lookup_drop, Nat.add_0_r in Hm. by rewrite Hm.
      * assert (Hl : l !! (first + k - 1) = last (m :: M)); [|by rewrite Hl].
        rewrite last_lookup, Hlen, <- EM, lookup_take_lt by lia.
        unfold l'. rewrite lookup_drop. f_equal. lia.
Qed.

Lemma interval_insert_spec l a b :
  separated l -> Forall (fun p => (p.2 <= max)%Z) l -> range_ok (a, b) ->
  separated (interval_insert max l a b) /\
  Forall (fun p => (p.2 <= max)%Z) (interval_insert max l a b) /\
  forall x, covered (interval_insert max l a b) x <-> covered l x \/ (a <= x <= b)%Z.
Proof.
  intros Hs Hb Hab. destruct (insert_split l a b Hs Hb Hab) as (L & M & R & -> & HL & HM & HR & ->).
  destruct Hab as [Hab Hbm]. cbn [fst snd] in *.
  apply separated_app in Hs as (HsL & (HsM & HsR & HMR)%separated_app & HLMR).
  apply Forall_app in Hb as (HbL & (HbM & HbR)%Forall_app).
  destruct M as [|m M].
  { split_and!.
    - apply separated_app. split_and!; [done| |].
      + simpl. split_and!; [done|apply HR|done].
      + intros p q Hp [->|Hq]%elem_of_cons; [by apply HL|]. specialize (HL p Hp).
        specialize (HR q Hq). lia.
    - apply Forall_app. split; [done|]. constructor; [done|done].
    - intros x. rewrite !covered_app, covered_cons. cbn [fst snd].
      pose proof (covered_nil x). tauto. }
  set (M' := m :: M) in *. assert (Hml : exists e, last M' = Some e /\ e ∈ M').
  { destruct (last M') as [e|] eqn:E; [|by apply last_None in E].
    exists e. split; [done|]. apply last_Some in E as [k ->]. set_solver. }
  destruct Hml as (e & Hlast & He). rewrite Hlast. cbn [from_option].
  assert (Hm : m ∈ M') by (unfold M'; set_solver).
  assert (Hwithin : forall p, p ∈ M' -> (m.1 <= p.1 /\ p.2 <= e.2)%Z).
  { intros p [i Hi]%list_elem_of_lookup. rewrite last_lookup in Hlast.
    pose proof (separated_lookup _ _ _ HsM Hi). pose proof (separated_lookup _ _ _ HsM Hlast).
    pose proof (lookup_lt_Some _ _ _ Hi). split.
    - destruct i as [|i]; [by simplify_eq/=|].
      assert (Hm0 : M' !! 0 = Some m) by done. assert (0 < S i) as Hi0 by lia.
      pose proof (separated_lt _ _ _ _ _ HsM Hi0 Hm0 Hi). pose proof (separated_lookup _ _ _ HsM Hm0). lia.
    - destruct (decide (i = pred (length M'))) as [->|Hne]; [by simplify_eq|].
      assert (Hlt : i < pred (length M')) by lia.
      pose proof (separated_lt _ _ _ _ _ HsM Hlt Hi Hlast). lia. }
  pose proof (HM m Hm) as [Hm1 Hm2]. pose proof (HM e He) as [He1 He2].
  assert (Hmle : (m.1 <= m.2)%Z) by (apply (separated_lookup M' 0 m HsM eq_refl)).
  assert (Hele : (e.1 <= e.2)%Z).
  { apply list_elem_of_lookup in He as [i Hi]. by apply (separated_lookup M' i e HsM). }
  split_and!.
  - apply separated_app. split_and!; [done| |].
    + simpl. split_and!; [lia| |done]. intros q Hq. specialize (HR q Hq).
      pose proof (HMR e q He Hq). lia.
    + intros p q Hp [->|Hq]%elem_of_cons; cbn [fst].
      * specialize (HL p Hp). pose proof (HLMR p m Hp ltac:(set_solver)). lia.
      * apply HLMR; [done|set_solver].
  - apply Forall_app. split; [done|]. constructor; [|done]. cbn [snd].
    rewrite Forall_forall in HbM. specialize (HbM e He). cbn beta in HbM. lia.
  - intros x. rewrite !covered_app, covered_cons. cbn [fst snd]. split.
    + intros [?|[?|?]]; [tauto| |tauto].
      destruct (Z.le_gt_cases a x); [destruct (Z.le_gt_cases x b); [tauto|]|].
      * left; right; left. exists e. split; [done|lia].
      * left; right; left. exists m. split; [done|lia].
    + intros [[?|[(p & Hp & Hx)|?]]|?]; [tauto| |tauto|right; left; lia].
      destruct (Hwithin p Hp). right; left. lia.
Qed.

End Coalesce.

(** ** Unions of networks *)

Section Unions.
Context `{NL : IpNetLib}.

(** Some network of the list contains the address. *)
Definition nets_contain (nets : list IpNet) (addr : IpAddr) : bool :=
  existsb (fun n => net_contains n addr) nets.

(** The ranges of the networks of one family. *)
Definition net_range (n : IpNet) : interval := (network n, broadcast n).
Definition family_nets (v6 : bool) (nets : list IpNet) : list interval :=
  net_range <$> filter (fun n => net_v6 n = v6) nets.

Definition mk_addr (v6 : bool) (x : Z) : IpAddr := if v6 then V6 x else V4 x.

Lemma nets_contain_covered nets v6 x :
  nets_contain nets (mk_addr v6 x) = true <-> covered (family_nets v6 nets) x.
Proof.
  unfold nets_contain, covered, family_nets. rewrite existsb_exists.
  setoid_rewrite list_elem_of_fmap. setoid_rewrite list_elem_of_filter.
  setoid_rewrite net_contains_spec. setoid_rewrite <- list_elem_of_In.
  assert (Hf : is_v6 (mk_addr v6 x) = v6 /\ addr_num (mk_addr v6 x) = x) by (by destruct v6).
  destruct Hf as [-> ->]. split.
  - intros (n & Hn & Hv & Hr). exists (net_range n). split; [by exists n|done].
  - intros (p & (n & -> & Hv & Hn) & Hr). by exists n.
Qed.

Lemma family_nets_app v6 a b : family_nets v6 (a ++ b) = family_nets v6 a ++ family_nets v6 b.
Proof. unfold family_nets. by rewrite filter_app, fmap_app. Qed.

Lemma family_nets_one v6 n :
  family_nets v6 [n] = if decide (net_v6 n = v6) then [net_range n] else [].
Proof. unfold family_nets. rewrite filter_cons. by case_decide. Qed.

Lemma net_range_ok n : range_ok (family_max (net_v6 n)) (net_range n).
Proof. pose proof (network_bounds n). split; simpl; lia. Qed.

(** Adding networks keeps the pending lists equivalent to the networks. *)
Lemma builder_add_spec nets :
  let b := foldl builder_add (mkSetBuilder [] []) nets in
  Forall (range_ok u32_max) (pend_v4 b) /\ Forall (range_ok u128_max) (pend_v6 b) /\
  (forall x, covered (pend_v4 b) x <-> covered (family_nets false nets) x) /\
  (forall x, covered (pend_v6 b) x <-> covered (family_nets true nets) x).
Proof.
  induction nets as [|n nets IH] using rev_ind; [by split_and!|].
  rewrite foldl_app. simpl. destruct IH as (H4 & H6 & C4 & C6).
  set (b := foldl builder_add _ nets) in *. pose proof (net_range_ok n) as Hok.
  unfold builder_add. rewrite !family_nets_app, !family_nets_one.
  destruct (net_v6 n) eqn:Ev; cbn [pend_v4 pend_v6];
    repeat first [rewrite decide_True by done|rewrite decide_False by done].
  - destruct (push_merging_spec u128_max (pend_v6 b) _ _ H6 Hok) as [Hp Hc].
    split_and!; [done|done|by rewrite app_nil_r|]. intros x.
    rewrite Hc, C6, covered_app, covered_cons. pose proof (covered_nil x). simpl. tauto.
  - destruct (push_merging_spec u32_max (pend_v4 b) _ _ H4 Hok) as [Hp Hc].
    split_and!; [done|done| |by rewrite app_nil_r]. intros x.
    rewrite Hc, C4, covered_app, covered_cons. pose proof (covered_nil x). simpl. tauto.
Qed.

Lemma from_nets_spec nets :
  exists l4 l6, pairs_of (set_v4 (from_nets nets)) l4 /\ separated l4 /\
    pairs_of (set_v6 (from_nets nets)) l6 /\ separated l6 /\
    (forall x, covered l4 x <-> covered (family_nets false nets) x) /\
    (forall x, covered l6 x <-> covered (family_nets true nets) x).
Proof.
  destruct (builder_add_spec nets) as (H4 & H6 & C4 & C6). unfold from_nets, builder_build.
  destruct (from_unsorted_spec u32_max _ H4) as (l4 & P4 & S4 & D4).
  destruct (from_unsorted_spec u128_max _ H6) as (l6 & P6 & S6 & D6).
  exists l4, l6. split_and!; [done..| |]; intros x; [rewrite D4|rewrite D6]; auto.
Qed.

(** The coverage of a list of networks. *)
Definition coverage_of (nets : list IpNet) : CidrCoverage := foldl coverage_absorb coverage_new nets.

Lemma coverage_spec nets :
  let c := coverage_of nets in
  separated (cov_v4 c) /\ Forall (fun p => (p.2 <= u32_max)%Z) (cov_v4 c) /\
  separated (cov_v6 c) /\ Forall (fun p => (p.2 <= u128_max)%Z) (cov_v6 c) /\
  (forall x, covered (cov_v4 c) x <-> covered (family_nets false nets) x) /\
  (forall x, covered (cov_v6 c) x <-> covered (family_nets true nets) x).
Proof.
  unfold coverage_of. induction nets as [|n nets IH] using rev_ind; [by split_and!|].
  rewrite foldl_app. simpl. destruct IH as (S4 & B4 & S6 & B6 & C4 & C6).
  set (c := foldl coverage_absorb _ nets) in *. pose proof (net_range_ok n) as Hok.
  unfold coverage_absorb. rewrite !family_nets_app, !family_nets_one.
  destruct (net_v6 n) eqn:Ev; cbn [cov_v4 cov_v6];
    repeat first [rewrite decide_True by done|rewrite decide_False by done].
  - destruct (interval_insert_spec u128_max (cov_v6 c) _ _ S6 B6 Hok) as (Hs & Hb & Hc).
    split_and!; [done..|by rewrite app_nil_r|]. intros x.
    rewrite Hc, C6, covered_app, covered_cons. pose proof (covered_nil x). simpl. tauto.
  - destruct (interval_insert_spec u32_max (cov_v4 c) _ _ S4 B4 Hok) as (Hs & Hb & Hc).
    split_and!; [done..| |by rewrite app_nil_r]. intros x.
    rewrite Hc, C4, covered_app, covered_cons. pose proof (covered_nil x). simpl. tauto.
Qed.

(** Every address of a network, by family. *)
Lemma net_addresses n (P : IpAddr -> Prop) :
  (forall addr, net_contains n addr = true -> P addr) <->
  (forall x, (network n <= x <= broadcast n)%Z -> P (mk_addr (net_v6 n) x)).
Proof.
  setoid_rewrite net_contains_spec. split.
  - intros H x Hx. apply H. by destruct (net_v6 n).
  - intros H addr [Hv Hx]. specialize (H _ Hx). rewrite Hv in H. by destruct addr.
Qed.

Lemma set_contains_nets nets addr : set_contains (from_nets nets) addr = nets_contain nets addr.
Proof.
  destruct (from_nets_spec nets) as (l4 & l6 & P4 & S4 & P6 & S6 & C4 & C6).
  apply eq_bool_prop_intro. rewrite !Is_true_true. destruct addr as [x|x]; simpl.
  - rewrite (contains_iv_spec _ _ _ P4 S4), C4. symmetry. apply (nets_contain_covered nets false).
  - rewrite (contains_iv_spec _ _ _ P6 S6), C6. symmetry. apply (nets_contain_covered nets true).
Qed.

(** Soundness and completeness of the coverage. *)
Lemma coverage_covers_iff nets net :
  coverage_covers (coverage_of nets) net = true <->
  forall addr, net_contains net addr = true -> nets_contain nets addr = true.
Proof.
  destruct (coverage_spec nets) as (S4 & _ & S6 & _ & C4 & C6). rewrite net_addresses.
  pose proof (network_bounds net). unfold coverage_covers. destruct (net_v6 net).
  - rewrite interval_covers_spec by (done || lia).
    by setoid_rewrite (nets_contain_covered nets true); setoid_rewrite C6.
  - rewrite interval_covers_spec by (done || lia).
    by setoid_rewrite (nets_contain_covered nets false); setoid_rewrite C4.
Qed.

(** A range set built from networks in any order contains an address
    exactly when one of the networks does, whatever was merged. *)
Theorem range_set_membership nets addr :
  set_contains (from_nets nets) addr = existsb (fun n => net_contains n addr) nets.
Proof. apply set_contains_nets. Qed.

(** A range set covers a network exactly when it contains each of the
    network's addresses; coalescing makes the one-interval test complete. *)
Theorem range_set_covers nets net :
  set_covers (from_nets nets) net = true <->
  forall addr, net_contains net addr = true -> set_contains (from_nets nets) addr = true.
Proof.
  setoid_rewrite set_contains_nets. rewrite net_addresses.
  destruct (from_nets_spec nets) as (l4 & l6 & P4 & S4 & P6 & S6 & C4 & C6).
  pose proof (network_bounds net). unfold set_covers. destruct (net_v6 net).
  - rewrite (covers_iv_spec _ _ _ _ P6 S6) by lia.
    by setoid_rewrite (nets_contain_covered nets true); setoid_rewrite C6.
  - rewrite (covers_iv_spec _ _ _ _ P4 S4) by lia.
    by setoid_rewrite (nets_contain_covered nets false); setoid_rewrite C4.
Qed.

(** The rule compiler's CIDR coverage answers "covered" exactly when
    every address of the network lies in some network absorbed before. *)
Theorem cidr_coverage_exact nets net :
  coverage_covers (coverage_of nets) net = true <->
  forall addr, net_contains net addr = true ->
    exists n, n ∈ nets /\ net_contains n addr = true.
Proof.
  rewrite coverage_covers_iff. unfold nets_contain. setoid_rewrite existsb_exists.
  by setoid_rewrite <- list_elem_of_In.
Qed.

End Unions.

Example coverage_ex :
  coverage_covers (coverage_of [mkNet false 167772160 9; mkNet false 176160768 9])
    (mkNet false 167772160 8) = true.
Proof. vm_compute. reflexivity. Qed.

End IpSet.
