(* ===== verification/GeoIndex.v ===== *)
(** * Country and ASN indexes (crates/meow-rules/src/country_index.rs, asn_index.rs)

    A MaxMind database is walked once and its networks are binned by country
    code, or by AS number, into range sets. Both walks are the same loop over
    different keys. The reader belongs to the maxminddb crate: starting the
    walk may fail, any item of it may fail, and an item carries its data
    offset, the field its record decodes to and its network. *)

From stdpp Require Import strings gmap.
From S2P Require Import Prelude Strings Ip IpSet.

Module GeoIndex.
Import IpSet.

(** One item of the walk. [lk_field] is [decode_path]'s value when it is
    [Ok(Some(_))], [lk_net] the address and prefix of [network()]. *)
Record Lookup (F : Type) := mkLookup {
  lk_offset : option N;
  lk_field : option F;
  lk_net : option (IpAddr * Z);
}.
Arguments mkLookup {F}.
Arguments lk_offset {F}.
Arguments lk_field {F}.
Arguments lk_net {F}.

Abbreviation Walk F := (list (option (Lookup F))).

Inductive GeoError :=
  | AllowlistTooLong (n : nat)
  | IterateFailed (e : bytes).

Section GeoIndex.
Context `{NN : IpNetNew}.

(** ** The loop over the networks *)

(** [iter().position(|k| k == key)]. *)
Fixpoint position {K} `{EqDecision K} (keys : list K) (key : K) : option nat :=
  match keys with
  | [] => None
  | k :: keys => if decide (k = key) then Some 0 else S <$> position keys key
  end.

(** [idx as u16]. *)
Definition as_u16 (idx : nat) : nat := Z.to_nat (Z.of_nat idx `mod` 65536).

Record Bins := mkBins { buckets : list IpRangeSetBuilder; offset_cache : gmap N (option nat) }.

Definition bucket_new : IpRangeSetBuilder := mkSetBuilder [] [].

Definition bucket_add (b : IpRangeSetBuilder) (a : IpAddr) (prefix : Z) : IpRangeSetBuilder :=
  match net_new a prefix with
  | Some net => match a with V4 _ => add_v4 b net | V6 _ => add_v6 b net end
  | None => b
  end.

(** One round of the loop. A bucket index is a position in the allowlist, so
    [buckets[bucket_idx]] is in range. *)
Definition bin_step {F} (resolve : F -> option nat) (s : Bins) (item : option (Lookup F)) : Bins :=
  match item with
  | None => s
  | Some lookup =>
      match lk_offset lookup with
      | None => s
      | Some offset =>
          let '(bucket_idx, cache) :=
            match offset_cache s !! offset with
            | Some cached => (cached, offset_cache s)
            | None =>
                let resolved := as_u16 <$> (lk_field lookup ≫= resolve) in
                (resolved, <[offset := resolved]> (offset_cache s))
            end in
          match bucket_idx, lk_net lookup with
          | Some i, Some (a, prefix) => mkBins (alter (fun b => bucket_add b a prefix) i (buckets s)) cache
          | _, _ => mkBins (buckets s) cache
          end
      end
  end.

Definition bin_walk {F} (resolve : F -> option nat) (n : nat) (walk : Walk F) : Bins :=
  foldl (bin_step resolve) (mkBins (replicate n bucket_new) ∅) walk.

Definition index_insert {K} `{Countable K} (m : gmap K IpRangeSet) (kb : K * IpRangeSetBuilder) : gmap K IpRangeSet :=
  if builder_is_empty kb.2 then m else <[kb.1 := builder_build kb.2]> m.

Definition empty_set : IpRangeSet := mkRangeSet (mkIntervals [] []) (mkIntervals [] []).

(** ** Countries *)

(** [CountryKey]: eight bytes, padded with NUL. *)
Definition from_str_upper (s : bytes) : bytes :=
  let n := Nat.min (length s) 8 in
  to_ascii_uppercase (take n s) ++ replicate (8 - n) Ascii.zero.

Definition as_str (key : bytes) : bytes :=
  let s := take (default (length key) (find_byte Ascii.zero key)) key in
  if from_utf8_ok s then s else [].

(** [allowed] lists the hash set in its iteration order. *)
Definition country_build (networks : result bytes (Walk bytes)) (allowed : list bytes) :
    result GeoError (gmap bytes IpRangeSet) :=
  match allowed with
  | [] => Ok ∅
  | _ =>
      let allowed_keys := map from_str_upper allowed in
      if (u16_max <? Z.of_nat (length allowed_keys))%Z then Err (AllowlistTooLong (length allowed_keys))
      else match networks with
           | Err e => Err (IterateFailed e)
           | Ok walk =>
               let bins := bin_walk (fun iso => position allowed_keys (from_str_upper iso))
                             (length allowed_keys) walk in
               Ok (foldl index_insert ∅ (zip (map as_str allowed_keys) (buckets bins)))
           end
  end.

Definition country_ranges_for (index : gmap bytes IpRangeSet) (country : bytes) : IpRangeSet :=
  default empty_set (index !! to_ascii_uppercase country).

(** ** Autonomous systems *)

Definition asn_build (networks : result bytes (Walk Z)) (allowed : list Z) :
    result GeoError (gmap Z IpRangeSet) :=
  match allowed with
  | [] => Ok ∅
  | _ =>
      if (u16_max <? Z.of_nat (length allowed))%Z then Err (AllowlistTooLong (length allowed))
      else match networks with
           | Err e => Err (IterateFailed e)
           | Ok walk =>
               let bins := bin_walk (position allowed) (length allowed) walk in
               Ok (foldl index_insert ∅ (zip allowed (buckets bins)))
           end
  end.

Definition asn_ranges_for (index : gmap Z IpRangeSet) (asn : Z) : IpRangeSet :=
  default empty_set (index !! asn).

(** ** What the loop leaves in the buckets *)

Lemma position_Some {K} `{EqDecision K} (keys : list K) key i :
  position keys key = Some i -> keys !! i = Some key.
Proof.
  revert i. induction keys as [|k keys IH]; intros i; cbn [position]; [done|].
  case_decide as E; [intros [= <-]; by subst|].
  intros (j & Hj & ->)%fmap_Some. by apply IH.
Qed.

Lemma position_elem {K} `{EqDecision K} (keys : list K) key :
  key ∈ keys -> is_Some (position keys key).
Proof.
  induction keys as [|k keys IH]; [by intros ?%not_elem_of_nil|]. cbn [position].
  case_decide as E; [eauto|]. intros [->|H]%elem_of_cons; [done|].
  destruct (IH H) as [i ->]. by eexists.
Qed.

Lemma as_u16_id i n : (Z.of_nat n <= u16_max)%Z -> i < n -> as_u16 i = i.
Proof. intros Hn Hi. unfold as_u16, u16_max in *. rewrite Z.mod_small; lia. Qed.

Lemma bucket_add_net b a p : bucket_add b a p = from_option (builder_add b) b (net_new a p).
Proof.
  unfold bucket_add, builder_add. destruct (net_new a p) as [n|] eqn:H; [|done]. simpl.
  rewrite (net_new_family _ _ _ H). by destruct a.
Qed.

(** Records are identified by their offset: a database decodes one offset
    to one value. *)
Definition consistent {F} (walk : Walk F) : Prop :=
  forall l l', Some l ∈ walk -> Some l' ∈ walk -> is_Some (lk_offset l) ->
  lk_offset l = lk_offset l' -> lk_field l = lk_field l'.

(** The network an item adds to bucket [i]. *)
Definition selected {F} (resolve : F -> option nat) (i : nat) (item : option (Lookup F)) : option IpNet :=
  l ← item;
  _ ← lk_offset l;
  j ← lk_field l ≫= resolve;
  if decide (j = i) then '(a, p) ← lk_net l; net_new a p else None.

Section Walk.
Context {F : Type} (resolve : F -> option nat) (n : nat).
Hypothesis n_u16 : (Z.of_nat n <= u16_max)%Z.
Hypothesis resolve_lt : forall f i, resolve f = Some i -> i < n.

Record bins_ok (walk : Walk F) (s : Bins) : Prop := {
  ok_length : length (buckets s) = n;
  ok_bucket i : i < n -> buckets s !! i = Some (foldl builder_add bucket_new (omap (selected resolve i) walk));
  ok_cache off c : offset_cache s !! off = Some c ->
    exists l, Some l ∈ walk /\ lk_offset l = Some off /\ c = lk_field l ≫= resolve;
}.

Lemma resolve_u16 l : as_u16 <$> (lk_field l ≫= resolve) = (lk_field l ≫= resolve).
Proof.
  destruct (lk_field l ≫= resolve) as [i|] eqn:E; [|done]. simpl. f_equal.
  apply bind_Some in E as (f & _ & Hf). eapply as_u16_id; eauto.
Qed.

(** The bucket an item resolves to, whether or not it is cached. *)
Lemma bin_step_idx walk s l off :
  consistent (walk ++ [Some l]) -> bins_ok walk s -> lk_offset l = Some off ->
  exists cache,
    bin_step resolve s (Some l) =
      match lk_field l ≫= resolve, lk_net l with
      | Some i, Some (a, p) => mkBins (alter (fun b => bucket_add b a p) i (buckets s)) cache
      | _, _ => mkBins (buckets s) cache
      end /\
    (forall o c, cache !! o = Some c ->
       exists l', Some l' ∈ walk ++ [Some l] /\ lk_offset l' = Some o /\ c = lk_field l' ≫= resolve).
Proof.
  intros Hc Hok Ho. unfold bin_step. rewrite Ho, resolve_u16.
  assert (Hin : forall o c, offset_cache s !! o = Some c ->
    exists l', Some l' ∈ walk ++ [Some l] /\ lk_offset l' = Some o /\ c = lk_field l' ≫= resolve).
  { intros o c (l' & Hl & H)%(ok_cache _ _ Hok). exists l'. split; [set_solver|done]. }
  destruct (offset_cache s !! off) as [c|] eqn:E.
  - exists (offset_cache s). split; [|done]. destruct (Hin _ _ E) as (l' & Hl & Ho' & ->).
    rewrite (Hc l l'); [done|set_solver|done|by rewrite Ho|congruence].
  - eexists. split; [done|]. intros o c [[<- <-]|[_ H]]%lookup_insert_Some; [|by apply Hin].
    exists l. split; [set_solver|done].
Qed.

Lemma bin_step_ok walk s item :
  consistent (walk ++ [item]) -> bins_ok walk s -> bins_ok (walk ++ [item]) (bin_step resolve s item).
Proof.
  intros Hc Hok.
  assert (Hskip : (forall i, selected resolve i item = None) -> forall s', buckets s' = buckets s ->
    (forall o c, offset_cache s' !! o = Some c ->
       exists l', Some l' ∈ walk ++ [item] /\ lk_offset l' = Some o /\ c = lk_field l' ≫= resolve) ->
    bins_ok (walk ++ [item]) s').
  { intros Hn s' Hs Hcache. split; [rewrite Hs; apply Hok| |done].
    intros i Hi. rewrite Hs, omap_app. cbn [omap list_omap]. rewrite Hn, app_nil_r. by apply Hok. }
  assert (Hold : forall o c, offset_cache s !! o = Some c ->
    exists l', Some l' ∈ walk ++ [item] /\ lk_offset l' = Some o /\ c = lk_field l' ≫= resolve).
  { intros o c (l' & Hl & H)%(ok_cache _ _ Hok). exists l'. split; [set_solver|done]. }
  destruct item as [l|]; [|by apply Hskip].
  destruct (lk_offset l) as [off|] eqn:Ho.
  2: { unfold bin_step. rewrite Ho. apply Hskip; [|done|done]. intros i. cbn. by rewrite Ho. }
  destruct (bin_step_idx _ _ _ _ Hc Hok Ho) as (cache & -> & Hcache).
  destruct (lk_field l ≫= resolve) as [j|] eqn:Ej.
  2: { apply Hskip; [|done|done]. intros i. cbn. by rewrite Ho, Ej. }
  destruct (lk_net l) as [[a p]|] eqn:En.
  2: { apply Hskip; [|done|done]. intros i. cbn. rewrite Ho, Ej. cbn. rewrite En. by case_decide. }
  split; [cbn [buckets]; rewrite length_alter; apply Hok| |done].
  intros i Hi. rewrite omap_app, foldl_app. cbn [buckets omap list_omap selected mbind option_bind].
  rewrite Ho, Ej, En. cbn. case_decide as Eij.
  - subst j. rewrite list_lookup_alter, (ok_bucket _ _ Hok i Hi). cbn.
    rewrite decide_True, bucket_add_net by done. by destruct (net_new a p).
  - rewrite list_lookup_alter_ne by done. by apply Hok.
Qed.

Lemma bin_walk_ok walk : consistent walk -> bins_ok walk (bin_walk resolve n walk).
Proof.
  unfold bin_walk. induction walk as [|item walk IH] using rev_ind; intros Hc.
  - split; [apply length_replicate| |done].
    intros i Hi. cbn. by apply lookup_replicate.
  - rewrite foldl_app. apply bin_step_ok; [done|]. apply IH.
    intros l l' Hl Hl'. apply Hc; set_solver.
Qed.

End Walk.

(** ** The index over the buckets *)

Lemma index_skip {K} `{Countable K} (k : K) l m :
  (forall b, (k, b) ∈ l -> builder_is_empty b = true) -> foldl index_insert m l !! k = m !! k.
Proof.
  revert m. induction l as [|[k' b] l IH]; intros m H'; [done|]. cbn [foldl].
  rewrite IH by (intros; apply H'; set_solver). unfold index_insert. cbn [fst snd].
  destruct (builder_is_empty b) eqn:E; [done|].
  apply lookup_insert_ne. intros ->. rewrite H' in E; [done|set_solver].
Qed.

(** Only one entry for [k] has networks: the index holds that entry. *)
Lemma index_lookup {K} `{Countable K} (l : list (K * IpRangeSetBuilder)) i k b :
  l !! i = Some (k, b) ->
  (forall j b', l !! j = Some (k, b') -> j <> i -> builder_is_empty b' = true) ->
  foldl index_insert ∅ l !! k = if builder_is_empty b then None else Some (builder_build b).
Proof.
  intros Hi Hother. rewrite <- (take_drop_middle l i (k, b) Hi), foldl_app. cbn [foldl].
  rewrite index_skip.
  2: { intros b' [j Hj]%list_elem_of_lookup. rewrite lookup_drop in Hj. eapply Hother; [done|lia]. }
  unfold index_insert at 1. cbn [fst snd]. destruct (builder_is_empty b).
  - rewrite index_skip; [apply lookup_empty|].
    intros b' [j Hj]%list_elem_of_lookup. apply lookup_take_Some in Hj as [Hj ?].
    eapply Hother; [done|lia].
  - by rewrite lookup_insert_eq.
Qed.

Lemma bucket_contains nets addr :
  let b := foldl builder_add bucket_new nets in
  set_contains (default empty_set (if builder_is_empty b then None else Some (builder_build b))) addr =
  nets_contain nets addr.
Proof.
  intros b. rewrite <- set_contains_nets. unfold from_nets. fold bucket_new. fold b.
  destruct b as [[|] [|]]; cbn [builder_is_empty pend_v4 pend_v6 default from_option id]; [|done..].
  by destruct addr.
Qed.

(** A record of the walk that names [k] and whose network holds [addr]. *)
Definition record_holds {F K} (pack : F -> K) (walk : Walk F) (k : K) (addr : IpAddr) : Prop :=
  exists l f a p net,
    Some l ∈ walk /\ is_Some (lk_offset l) /\ lk_field l = Some f /\ pack f = k /\
    lk_net l = Some (a, p) /\ net_new a p = Some net /\ net_contains net addr = true.

Lemma selected_Some {F} (resolve : F -> option nat) i item net :
  selected resolve i item = Some net <->
  exists l f a p, item = Some l /\ is_Some (lk_offset l) /\ lk_field l = Some f /\
    resolve f = Some i /\ lk_net l = Some (a, p) /\ net_new a p = Some net.
Proof.
  unfold selected. split.
  - intros (l & -> & (off & Ho & (j & (f & Hf & Hj)%bind_Some & H)%bind_Some)%bind_Some)%bind_Some.
    case_decide; [subst j|done]. apply bind_Some in H as ([a p] & Hn & H).
    exists l, f, a, p. rewrite Ho. eauto 8.
  - intros (l & f & a & p & -> & [off Ho] & Hf & Hr & Hn & H). cbn.
    rewrite Ho, Hf. cbn. rewrite Hr. cbn. rewrite decide_True, Hn by done. done.
Qed.

Lemma nets_contain_elem nets addr :
  nets_contain nets addr = true <-> exists net, net ∈ nets /\ net_contains net addr = true.
Proof.
  unfold nets_contain. rewrite existsb_exists. split; intros (n & Hn & H); exists n; (split; [|done]);
    by apply list_elem_of_In.
Qed.

Section Index.
Context {F K N' : Type} `{EqDecision K} `{Countable N'}.
Variables (pack : F -> K) (name : K -> N') (keys : list K).
Hypothesis keys_u16 : (Z.of_nat (length keys) <= u16_max)%Z.

Let resolve (f : F) : option nat := position keys (pack f).

Let bucket (walk : Walk F) (j : nat) : IpRangeSetBuilder :=
  foldl builder_add bucket_new (omap (selected resolve j) walk).
Let entries (walk : Walk F) : list (N' * IpRangeSetBuilder) :=
  zip (map name keys) (buckets (bin_walk resolve (length keys) walk)).

Lemma resolve_lt f i : resolve f = Some i -> i < length keys.
Proof. intros H'%position_Some. by eapply lookup_lt_Some. Qed.

Lemma entries_lookup walk j nm b :
  consistent walk ->
  entries walk !! j = Some (nm, b) <-> exists k, keys !! j = Some k /\ nm = name k /\ b = bucket walk j.
Proof.
  intros Hc. pose proof (bin_walk_ok resolve (length keys) keys_u16 resolve_lt walk Hc) as Hok.
  unfold entries. change (map name keys) with (name <$> keys). rewrite lookup_zip_with_Some. split.
  - intros (nm' & b' & [= <- <-] & (k & -> & Hk)%list_lookup_fmap_Some & Hb). exists k.
    pose proof (ok_bucket _ _ _ _ Hok j (lookup_lt_Some _ _ _ Hk)) as Hj.
    unfold bucket. split_and!; congruence.
  - intros (k & Hk & -> & ->). exists (name k), (bucket walk j).
    split; [done|]. rewrite list_lookup_fmap, Hk. split; [done|].
    apply (ok_bucket _ _ _ _ Hok). by eapply lookup_lt_Some.
Qed.

(** Only the first position of a key receives networks. *)
Lemma bucket_later walk k i j :
  position keys k = Some i -> keys !! j = Some k -> j <> i -> bucket walk j = bucket_new.
Proof.
  intros Hi Hj Hne. unfold bucket.
  destruct (omap (selected resolve j) walk) as [|net nets] eqn:E; [done|].
  assert (Hnet : net ∈ omap (selected resolve j) walk) by (rewrite E; left).
  apply list_elem_of_omap in Hnet as (item & _ & (l & f & a & p & _ & _ & _ & Hr & _)%selected_Some).
  pose proof (position_Some _ _ _ Hr). unfold resolve in Hr. congruence.
Qed.

Lemma selected_holds walk k i addr :
  position keys k = Some i ->
  nets_contain (omap (selected resolve i) walk) addr = true <-> record_holds pack walk k addr.
Proof.
  intros Hi. pose proof (position_Some _ _ _ Hi) as Hki. rewrite nets_contain_elem. split.
  - intros (net & (item & Hit & (l & f & a & p & -> & Ho & Hf & Hr & Hn & Hnew)%selected_Some)%list_elem_of_omap & Hcon).
    apply position_Some in Hr. exists l, f, a, p, net. split_and!; congruence || done.
  - intros (l & f & a & p & net & Hl & Ho & Hf & Hp & Hn & Hnew & Hcon). exists net. split; [|done].
    apply list_elem_of_omap. exists (Some l). split; [done|]. apply selected_Some.
    exists l, f, a, p. unfold resolve. rewrite Hp. by split_and!.
Qed.

Lemma index_exact walk k addr :
  consistent walk ->
  (forall k', k' ∈ keys -> name k' = name k -> k' = k) ->
  set_contains (default empty_set (foldl index_insert ∅ (entries walk) !! name k)) addr = true
  <-> k ∈ keys /\ record_holds pack walk k addr.
Proof.
  intros Hc Hinj.
  assert (Hkey : forall j b, entries walk !! j = Some (name k, b) -> keys !! j = Some k /\ b = bucket walk j).
  { intros j b (k' & Hk & Hn & ->)%entries_lookup; [|done].
    by rewrite <- (Hinj k' (list_elem_of_lookup_2 _ _ _ Hk)). }
  destruct (decide (k ∈ keys)) as [Hin|Hout].
  2: { rewrite index_skip, lookup_empty.
    - split; [by destruct addr|tauto].
    - intros b [j [Hj _]%Hkey]%list_elem_of_lookup. by apply list_elem_of_lookup_2 in Hj. }
  destruct (position_elem keys k Hin) as [i Hi].
  rewrite (index_lookup _ i (name k) (bucket walk i)).
  - unfold bucket. rewrite bucket_contains, (selected_holds _ _ _ _ Hi). tauto.
  - apply entries_lookup; [done|]. exists k. split; [by apply position_Some|done].
  - intros j b' [Hj ->]%Hkey Hne. by rewrite (bucket_later walk k i j).
Qed.

End Index.

(** ** Country codes *)

(** A code the packed key holds whole. *)
Definition plain_code (s : bytes) : bool :=
  is_ascii s && negb (contains_byte Ascii.zero s) && (length s <=? 8).

Lemma plain_code_spec s :
  plain_code s = true <-> is_ascii s = true /\ Ascii.zero ∉ s /\ length s <= 8.
Proof.
  unfold plain_code. rewrite !andb_true_iff, negb_true_iff, Nat.leb_le, contains_byte_false. tauto.
Qed.

Lemma byte_upper_zero c : byte_upper c = Ascii.zero -> c = Ascii.zero.
Proof. by destruct c as [[] [] [] [] [] [] [] []]. Qed.

Lemma upper_zero s : Ascii.zero ∉ s -> Ascii.zero ∉ to_ascii_uppercase s.
Proof. intros H (c & Hc & Hs)%list_elem_of_fmap. symmetry in Hc. apply byte_upper_zero in Hc. congruence. Qed.

Lemma find_byte_app c s k :
  c ∉ s -> find_byte c (s ++ k) = (fun i => length s + i) <$> find_byte c k.
Proof.
  induction s as [|d s IH]; intros H; cbn [app find_byte length].
  - by destruct (find_byte c k).
  - rewrite decide_False, IH by set_solver. by destruct (find_byte c k).
Qed.

Lemma from_str_upper_plain s :
  plain_code s = true -> from_str_upper s = to_ascii_uppercase s ++ replicate (8 - length s) Ascii.zero.
Proof.
  intros (_ & _ & Hl)%plain_code_spec. unfold from_str_upper.
  rewrite Nat.min_l by done. by rewrite take_ge.
Qed.

Lemma as_str_plain s : plain_code s = true -> as_str (from_str_upper s) = to_ascii_uppercase s.
Proof.
  intros H. rewrite (from_str_upper_plain _ H). apply plain_code_spec in H as (Ha & Hz & Hl).
  unfold as_str. rewrite find_byte_app by (by apply upper_zero).
  set (u := to_ascii_uppercase s).
  assert (E : take (default (length (u ++ replicate (8 - length s) Ascii.zero))
    ((fun i => length u + i) <$> find_byte Ascii.zero (replicate (8 - length s) Ascii.zero)))
    (u ++ replicate (8 - length s) Ascii.zero) = u).
  { destruct (8 - length s) as [|r]; cbn [replicate find_byte].
    - cbn. rewrite app_nil_r. by apply take_ge.
    - rewrite decide_True by done. cbn [fmap option_fmap option_map default from_option id].
      rewrite Nat.add_0_r. by apply take_app_length. }
  rewrite E, ascii_utf8; [done|]. unfold u. by rewrite upper_ascii.
Qed.

Lemma plain_key_inj s t :
  plain_code s = true -> plain_code t = true ->
  from_str_upper s = from_str_upper t <-> to_ascii_uppercase s = to_ascii_uppercase t.
Proof.
  intros Hs Ht. split.
  - intros E. by rewrite <- (as_str_plain s Hs), <- (as_str_plain t Ht), E.
  - intros E. rewrite !from_str_upper_plain by done. rewrite E. f_equal. f_equal.
    apply (f_equal length) in E. unfold to_ascii_uppercase in E. rewrite !length_fmap in E. lia.
Qed.

(** The country index is exact. Over a database walk whose offsets
    identify records, and for codes of at most eight ASCII bytes, the build
    succeeds, and the set [ranges_for] gives for a code holds an address
    exactly if the allowlist names the code, case aside, and some record of
    the walk carries it and has a network with that address. The offset
    cache, the packed keys, the bucket positions, duplicate spellings in the
    allowlist and the coalescing of networks do not show. *)
Theorem country_index_exact walk allowed c addr :
  consistent walk ->
  Forall (fun s => plain_code s = true) allowed -> plain_code c = true ->
  (Z.of_nat (length allowed) <= u16_max)%Z ->
  exists idx, country_build (Ok walk) allowed = Ok idx /\
    (set_contains (country_ranges_for idx c) addr = true <->
     (exists a, a ∈ allowed /\ to_ascii_uppercase a = to_ascii_uppercase c) /\
     record_holds from_str_upper walk (from_str_upper c) addr).
Proof.
  intros Hc Hall Hp Hlen. rewrite Forall_forall in Hall.
  assert (Hkeys : from_str_upper c ∈ map from_str_upper allowed <->
    exists a, a ∈ allowed /\ to_ascii_uppercase a = to_ascii_uppercase c).
  { change (map from_str_upper allowed) with (from_str_upper <$> allowed). rewrite list_elem_of_fmap.
    split; intros (a & Ha & Hb); exists a.
    - split; [done|]. by apply plain_key_inj; [apply Hall| |].
    - split; [|done]. symmetry. by apply plain_key_inj; [apply Hall| |]. }
  assert (Hgen : set_contains (default empty_set (foldl index_insert ∅
      (zip (map as_str (map from_str_upper allowed)) (buckets (bin_walk (fun iso => position (map from_str_upper allowed)
        (from_str_upper iso)) (length (map from_str_upper allowed)) walk))) !! to_ascii_uppercase c)) addr = true <->
    from_str_upper c ∈ map from_str_upper allowed /\ record_holds from_str_upper walk (from_str_upper c) addr).
  { rewrite <- (as_str_plain c Hp). apply index_exact; [by rewrite length_map|done|].
    intros k' (a & -> & Ha)%list_elem_of_fmap. rewrite !as_str_plain by auto.
    by intros; apply plain_key_inj; auto. }
  rewrite Hkeys in Hgen. unfold country_build. destruct allowed as [|a allowed]; [by exists ∅|].
  rewrite !length_map in *. destruct (Z.ltb_spec u16_max (Z.of_nat (length (a :: allowed)))); [lia|].
  by eexists.
Qed.

(** The ASN index is exact: over a database walk whose offsets identify
    records the build succeeds, and the set it gives for a number holds an
    address exactly if the allowlist names the number and some record of
    the walk carries it and has a network with that address. *)
Theorem asn_index_exact walk allowed n addr :
  consistent walk -> (Z.of_nat (length allowed) <= u16_max)%Z ->
  exists idx, asn_build (Ok walk) allowed = Ok idx /\
    (set_contains (asn_ranges_for idx n) addr = true <->
     n ∈ allowed /\ record_holds id walk n addr).
Proof.
  intros Hc Hlen. unfold asn_build, asn_ranges_for.
  pose proof (index_exact id id allowed Hlen walk n addr Hc ltac:(done)) as Hgen.
  rewrite map_id in Hgen. destruct allowed as [|a allowed]; [by exists ∅|].
  destruct (Z.ltb_spec u16_max (Z.of_nat (length (a :: allowed)))); [lia|]. by eexists.
Qed.

End GeoIndex.

(** ** Witnesses *)

#[local] Existing Instance prefix_net_lib.

#[local] Existing Instance prefix_net_new.

(** 1.0.0.0/8 and a network with a bad prefix share a record, 2.0.0.0/8 has
    its own; one item fails and one has no record. *)
Definition walk_of {F} (one two : F) : Walk F :=
  [ Some (mkLookup (Some 7%N) (Some one) (Some (V4 16777216, 8%Z)));
    None;
    Some (mkLookup (Some 9%N) (Some two) (Some (V4 33554432, 8%Z)));
    Some (mkLookup (Some 7%N) (Some one) (Some (V6 1, 200%Z)));
    Some (mkLookup None (Some two) (Some (V4 50331648, 8%Z))) ].

Lemma walk_of_consistent {F} (one two : F) : consistent (walk_of one two).
Proof.
  intros l l' Hl Hl' Ho E. unfold walk_of in Hl, Hl'.
  rewrite !elem_of_cons in Hl, Hl'.
  destruct Hl as [[= ->]|[?|[[= ->]|[[= ->]|[[= ->]|?%not_elem_of_nil]]]]]; try done;
    destruct Hl' as [[= ->]|[?|[[= ->]|[[= ->]|[[= ->]|?%not_elem_of_nil]]]]]; try done;
    by destruct Ho.
Qed.

Lemma country_index_exact_witness :
  exists idx, country_build (Ok (walk_of (b! "cn") (b! "US"))) [b! "US"; b! "CN"; b! "Cn"] = Ok idx /\
    set_contains (country_ranges_for idx (b! "cn")) (V4 16909060) = true.
Proof.
  destruct (country_index_exact (walk_of (b! "cn") (b! "US")) [b! "US"; b! "CN"; b! "Cn"] (b! "cn") (V4 16909060))
    as (idx & Hb & Hi).
  - apply walk_of_consistent.
  - by repeat constructor.
  - done.
  - done.
  - exists idx. split; [exact Hb|]. apply Hi. split; [exists (b! "CN"); split; [set_solver|done]|].
    eexists _, (b! "cn"), (V4 16777216), 8%Z, _. split; [left|]. split_and!; done.
Defined.

Lemma asn_index_exact_witness :
  exists idx, asn_build (Ok (walk_of 13335%Z 4134%Z)) [4134; 13335]%Z = Ok idx /\
    set_contains (asn_ranges_for idx 4134) (V4 33554433) = true.
Proof.
  destruct (asn_index_exact (walk_of 13335%Z 4134%Z) [4134; 13335]%Z 4134 (V4 33554433)) as (idx & Hb & Hi).
  - apply walk_of_consistent.
  - done.
  - exists idx. split; [exact Hb|]. apply Hi. split; [left|].
    eexists _, 4134%Z, (V4 33554432), 8%Z, _. split; [right; right; left|]. split_and!; done.
Defined.

End GeoIndex.
