(* ===== verification/Bits.v ===== *)
(** * Machine words as bits and bytes

    The operations of the standard library on words that the decoders use:
    big-endian bytes, bit counts and single bits. A w-bit word is an
    integer in [0, 2^w). *)

From S2P Require Import Prelude Strings.

Definition byte_z (c : ascii) : Z := Z.of_N (byte_val c).
Definition z_byte (z : Z) : ascii := ascii_of_N (Z.to_N (z `mod` 256)).

(** [to_be_bytes] of a word of [n] bytes, [from_be_bytes]. *)
Fixpoint to_be_bytes (n : nat) (z : Z) : bytes :=
  match n with
  | 0 => []
  | S n => z_byte (z / 256 ^ Z.of_nat n) :: to_be_bytes n z
  end.

Definition from_be_bytes (s : bytes) : Z := foldl (fun acc c => acc * 256 + byte_z c)%Z 0%Z s.

(** Little-endian words. *)
Fixpoint to_le_bytes (n : nat) (z : Z) : bytes :=
  match n with
  | 0 => []
  | S n => z_byte z :: to_le_bytes n (z / 256)
  end.

Fixpoint from_le_bytes (s : bytes) : Z :=
  match s with
  | [] => 0
  | c :: s => byte_z c + 256 * from_le_bytes s
  end.

(** [as u8]. *)
Definition w8 (z : Z) : Z := z `mod` 256.

(** [i64::from_be_bytes]. *)
Definition to_i64 (z : Z) : Z := if (z <? 2 ^ 63)%Z then z else (z - 2 ^ 64)%Z.

(** [count_ones], [trailing_zeros] and the index of the highest set bit
    ([w - 1 - leading_zeros]) of a [w]-bit word. *)
Fixpoint count_ones (w : nat) (z : Z) : nat :=
  match w with
  | 0 => 0
  | S w => (if Z.testbit z (Z.of_nat w) then 1 else 0) + count_ones w z
  end.

Fixpoint trailing_zeros_from (n : nat) (i : Z) (z : Z) : Z :=
  match n with
  | 0 => i
  | S n => if Z.testbit z i then i else trailing_zeros_from n (i + 1) z
  end.

Definition trailing_zeros (w : nat) (z : Z) : Z := trailing_zeros_from w 0 z.

Definition leading_zeros (w : nat) (z : Z) : Z :=
  if (z =? 0)%Z then Z.of_nat w else (Z.of_nat w - 1 - Z.log2 z)%Z.

(** ** Bytes *)

Lemma byte_z_bound c : (0 <= byte_z c < 256)%Z.
Proof. unfold byte_z, byte_val. pose proof (N_ascii_bounded c). lia. Qed.

Lemma byte_z_byte z : byte_z (z_byte z) = (z `mod` 256)%Z.
Proof.
  unfold byte_z, z_byte, byte_val. pose proof (Z.mod_pos_bound z 256 ltac:(lia)).
  rewrite N_ascii_embedding by lia. lia.
Qed.

Lemma z_byte_z c : z_byte (byte_z c) = c.
Proof.
  unfold z_byte. rewrite Z.mod_small by apply byte_z_bound.
  unfold byte_z, byte_val. rewrite N2Z.id. apply ascii_N_embedding.
Qed.

Lemma to_be_bytes_length n z : length (to_be_bytes n z) = n.
Proof. induction n as [|n IH]; simpl; [done|]. by rewrite IH. Qed.

Lemma from_be_acc s a :
  foldl (fun acc c => acc * 256 + byte_z c)%Z a s = (a * 256 ^ Z.of_nat (length s) + from_be_bytes s)%Z.
Proof.
  unfold from_be_bytes. revert a. induction s as [|c s IH]; intros a; cbn [foldl length]; [lia|].
  rewrite (IH (a * 256 + byte_z c)%Z), (IH (0 * 256 + byte_z c)%Z), Nat2Z.inj_succ, Z.pow_succ_r by lia. lia.
Qed.

Lemma from_be_cons c s : from_be_bytes (c :: s) = (byte_z c * 256 ^ Z.of_nat (length s) + from_be_bytes s)%Z.
Proof. unfold from_be_bytes at 1. cbn [foldl]. by rewrite from_be_acc. Qed.

Lemma from_be_bound s : (0 <= from_be_bytes s < 256 ^ Z.of_nat (length s))%Z.
Proof.
  induction s as [|c s IH]; [done|]. rewrite from_be_cons. cbn [length].
  rewrite Nat2Z.inj_succ, Z.pow_succ_r by lia. pose proof (byte_z_bound c). nia.
Qed.

Lemma be_roundtrip n z : from_be_bytes (to_be_bytes n z) = (z `mod` 256 ^ Z.of_nat n)%Z.
Proof.
  induction n as [|n IH]; [by rewrite Z.mod_1_r|]. cbn [to_be_bytes].
  rewrite from_be_cons, IH, to_be_bytes_length, byte_z_byte, Nat2Z.inj_succ, Z.pow_succ_r by lia.
  set (p := (256 ^ Z.of_nat n)%Z). assert (0 < p)%Z by (apply Z.pow_pos_nonneg; lia).
  rewrite (Z.mul_comm 256 p), Z.rem_mul_r by lia. lia.
Qed.

Lemma be_roundtrip_small n z : (0 <= z < 256 ^ Z.of_nat n)%Z -> from_be_bytes (to_be_bytes n z) = z.
Proof. intros. rewrite be_roundtrip. by apply Z.mod_small. Qed.

Lemma to_le_bytes_length n z : length (to_le_bytes n z) = n.
Proof. revert z. induction n as [|n IH]; intros z; simpl; [done|]. by rewrite IH. Qed.

Lemma le_roundtrip n z : from_le_bytes (to_le_bytes n z) = (z `mod` 256 ^ Z.of_nat n)%Z.
Proof.
  revert z. induction n as [|n IH]; intros z; [by rewrite Z.mod_1_r|]. cbn [to_le_bytes from_le_bytes].
  rewrite IH, byte_z_byte, Nat2Z.inj_succ, Z.pow_succ_r by lia.
  rewrite (Z.rem_mul_r z 256 (256 ^ Z.of_nat n)); [done|lia|apply Z.pow_pos_nonneg; lia].
Qed.

Lemma le_roundtrip_small n z : (0 <= z < 256 ^ Z.of_nat n)%Z -> from_le_bytes (to_le_bytes n z) = z.
Proof. intros. rewrite le_roundtrip. by apply Z.mod_small. Qed.

(** ** Bits *)

Lemma count_ones_le w z : count_ones w z <= w.
Proof. induction w as [|w IH]; simpl; [done|]. case_match; lia. Qed.

Lemma trailing_zeros_from_spec n i z :
  (0 <= i)%Z ->
  let t := trailing_zeros_from n i z in
  (i <= t <= i + Z.of_nat n)%Z /\ (forall j, (i <= j < t)%Z -> Z.testbit z j = false) /\
  ((t < i + Z.of_nat n)%Z -> Z.testbit z t = true).
Proof.
  revert i. induction n as [|n IH]; intros i Hi t; subst t; cbn [trailing_zeros_from].
  - split; [lia|]. split; [lia|lia].
  - destruct (Z.testbit z i) eqn:E; [split; [lia|]; split; [lia|done]|].
    destruct (IH (i + 1)%Z ltac:(lia)) as (Hb & Hz & Hs). split; [lia|]. split; [|intros; apply Hs; lia].
    intros j Hj. destruct (decide (j = i)) as [->|]; [done|]. apply Hz. lia.
Qed.

Lemma pow2_divide a b : (0 <= a <= b)%Z -> (2 ^ a | 2 ^ b)%Z.
Proof.
  intros H. exists (2 ^ (b - a))%Z. rewrite <- Z.pow_add_r by lia. by rewrite Z.sub_add.
Qed.

(** The low bits of a multiple of a power of two. *)
Lemma low_zero_divide z k :
  (0 <= k)%Z -> (forall j, (0 <= j < k)%Z -> Z.testbit z j = false) -> (2 ^ k | z)%Z.
Proof.
  intros Hk Hz. apply Z.mod_divide; [lia|]. rewrite <- Z.land_ones by done.
  apply Z.bits_inj'. intros j Hj. rewrite Z.land_spec, Z.bits_0.
  destruct (Z.ltb_spec j k); [rewrite Hz by lia; done|].
  rewrite Z.ones_spec_high by lia. apply andb_false_r.
Qed.

Lemma trailing_zeros_divide w z : (2 ^ trailing_zeros w z | z)%Z.
Proof.
  destruct (trailing_zeros_from_spec w 0 z ltac:(lia)) as (Hb & Hz & _).
  apply low_zero_divide; [unfold trailing_zeros; lia|]. exact Hz.
Qed.

Lemma trailing_zeros_bound w z : (0 <= trailing_zeros w z <= Z.of_nat w)%Z.
Proof. by destruct (trailing_zeros_from_spec w 0 z ltac:(lia)) as (Hb & _). Qed.

Lemma trailing_zeros_zero w : trailing_zeros w 0 = Z.of_nat w.
Proof.
  destruct (trailing_zeros_from_spec w 0 0 ltac:(lia)) as (Hb & _ & Hs).
  unfold trailing_zeros. destruct (Z.lt_ge_cases (trailing_zeros_from w 0 0) (0 + Z.of_nat w)) as [H|H]; [|lia].
  specialize (Hs H). by rewrite Z.bits_0 in Hs.
Qed.

(** Appending high bits. *)
Lemma lor_high acc x k :
  (0 <= k)%Z -> (0 <= acc < 2 ^ k)%Z -> Z.lor acc (x * 2 ^ k) = (acc + x * 2 ^ k)%Z.
Proof.
  intros Hk Ha.
  assert (Hl : Z.land acc (x * 2 ^ k) = 0%Z).
  { apply Z.bits_inj'. intros j Hj. rewrite Z.land_spec, Z.bits_0. destruct (Z.ltb_spec j k).
    - rewrite Z.mul_pow2_bits_low by done. apply andb_false_r.
    - rewrite <- (Z.mod_small acc (2 ^ k)) by done. by rewrite Z.mod_pow2_bits_high by lia. }
  by rewrite <- Z.lxor_lor, Z.add_nocarry_lxor.
Qed.

Lemma byte_high_bit c : (Z.land (byte_z c) 128 =? 0)%Z = (byte_z c <? 128)%Z.
Proof. by destruct c as [[] [] [] [] [] [] [] []]. Qed.
