(* ===== verification/MrsRanges.v ===== *)
(** * Address ranges as networks (crates/meow-rules/src/mrs_parser.rs)

    A range record of an upstream rule set is split into aligned blocks:
    [push_range_prefixes], [push_v4_range] and [push_v6_range]. Arithmetic
    that would overflow is [None]; so is a loop that runs out of fuel. *)

From S2P Require Import Prelude Strings Bits Ip IpSet.
From stdpp Require Import sorting.

Module MrsRanges.
Import IpSet.

Definition to_ipv4_mapped (a : Z) : option Z :=
  if (Z.shiftr a 32 =? 65535)%Z then Some (Z.land a u32_max) else None.

Definition to_addr (v6 : bool) (a : Z) : IpAddr := if v6 then V6 a else V4 a.

(** [remaining] is a [u64] for IPv4 and a [u128] for IPv6. *)
Definition remaining_width (v6 : bool) : nat := if v6 then 128 else 64.

Section MrsRanges.
Context `{NN : IpNetNew}.

(** ** One family *)

Section Family.
Variable v6 : bool.

Fixpoint range_loop (fuel : nat) (start stop : Z) : option (list IpNet) :=
  if (start <=? stop)%Z then
    match fuel with
    | 0 => None
    | S fuel =>
        let rw := remaining_width v6 in
        let w := family_width v6 in
        let max_size := trailing_zeros (Z.to_nat w) start in
        let remaining := (stop - start + 1)%Z in
        if (remaining <? 2 ^ Z.of_nat rw)%Z then
          let block_bits := Z.min max_size (Z.of_nat rw - 1 - leading_zeros rw remaining) in
          let prefix := (w - block_bits)%Z in
          let nets := option_list (net_new (to_addr v6 start) (prefix `mod` 256)) in
          if (block_bits <? w)%Z then
            let step := (2 ^ block_bits)%Z in
            if (remaining =? step)%Z then Some nets
            else
              rest ← range_loop fuel (Z.min (start + step) (family_max v6)) stop;
              Some (nets ++ rest)
          else None
        else None
    end
  else Some [].

Definition range_fuel : nat := 2 * Z.to_nat (family_width v6) + 2.

Definition push_range (start stop : Z) : option (list IpNet) :=
  if ((start =? 0) && (stop =? family_max v6))%Z then
    n ← net_new (to_addr v6 0) 0; Some [n]
  else range_loop range_fuel start stop.

End Family.

Definition push_v4_range : Z -> Z -> option (list IpNet) := push_range false.
Definition push_v6_range : Z -> Z -> option (list IpNet) := push_range true.

Definition push_range_prefixes (from to : Z) : option (list IpNet) :=
  match to_ipv4_mapped from, to_ipv4_mapped to with
  | Some a, Some b => push_v4_range a b
  | None, None => push_v6_range from to
  | _, _ => Some []
  end.

(** ** The blocks of a range *)

(** The networks are the blocks of [start .. stop], in order and without a
    gap. *)
Inductive tiles (v6 : bool) : Z -> Z -> list IpNet -> Prop :=
  | tiles_last start stop n :
      net_v6 n = v6 -> network n = start -> broadcast n = stop -> tiles v6 start stop [n]
  | tiles_cons start mid stop n ns :
      net_v6 n = v6 -> network n = start -> broadcast n = (mid - 1)%Z -> (start < mid)%Z ->
      tiles v6 mid stop ns -> tiles v6 start stop (n :: ns).

Lemma tiles_le v6 start stop nets : tiles v6 start stop nets -> (start <= stop)%Z.
Proof. induction 1 as [start stop n|]; [pose proof (network_bounds n)|]; lia. Qed.

Lemma tiles_contain v6 start stop nets x :
  tiles v6 start stop nets ->
  nets_contain nets (to_addr v6 x) = true <-> (start <= x <= stop)%Z.
Proof.
  intros Ht. unfold nets_contain. rewrite existsb_exists.
  assert (Hn : forall n, net_v6 n = v6 ->
    net_contains n (to_addr v6 x) = true <-> (network n <= x <= broadcast n)%Z).
  { intros n Hv. rewrite net_contains_spec. destruct v6; cbn; tauto. }
  induction Ht as [start stop n Hv Hs He|start mid stop n ns Hv Hs He Hlt Ht IH].
  - split; [intros (m & [<-|[]] & H%Hn); [lia|done]|]. intros. exists n. split; [by left|]. apply Hn; [done|lia].
  - pose proof (tiles_le _ _ _ _ Ht). split.
    + intros (m & [<-|Hin] & H'); [apply Hn in H'; [lia|done]|]. assert (mid <= x <= stop)%Z; [|lia].
      apply IH. by exists m.
    + intros Hx. destruct (Z.lt_ge_cases x mid).
      * exists n. split; [by left|]. apply Hn; [done|lia].
      * destruct (proj2 IH ltac:(lia)) as (m & Hm & H'). exists m. split; [by right|done].
Qed.

(** No network of the other family. *)
Lemma tiles_family v6 start stop nets addr :
  tiles v6 start stop nets -> is_v6 addr <> v6 -> nets_contain nets addr = false.
Proof.
  intros Ht Ha. apply not_true_is_false. unfold nets_contain. rewrite existsb_exists.
  intros (m & Hm & [Hf _]%net_contains_spec). apply Ha. rewrite <- Hf. clear Hf.
  induction Ht as [|? ? ? ? ? ? ? ? ? ? IH]; destruct Hm as [<-|Hm]; [done|done|done|by apply IH].
Qed.

Lemma tiles_ordered v6 start stop nets :
  tiles v6 start stop nets -> StronglySorted (fun n m => broadcast n < network m)%Z nets.
Proof.
  assert (Hall : forall start stop ns, tiles v6 start stop ns -> Forall (fun m => start <= network m)%Z ns).
  { clear. induction 1; [by repeat constructor; lia|]. constructor; [lia|].
    eapply Forall_impl; [done|]. intros m. cbn. lia. }
  induction 1 as [|start mid stop n ns Hv Hs He Hlt Ht IH]; [by repeat constructor|].
  constructor; [done|]. eapply Forall_impl; [by eapply Hall|]. intros m. cbn. lia.
Qed.

(** ** One block *)

Lemma trailing_zeros_ge w z k : (0 <= k <= Z.of_nat w)%Z -> (2 ^ k | z)%Z -> (k <= trailing_zeros w z)%Z.
Proof.
  intros Hk Hd. destruct (trailing_zeros_from_spec w 0 z ltac:(lia)) as (Hb & _ & Hs).
  unfold trailing_zeros. destruct (Z.lt_ge_cases (trailing_zeros_from w 0 z) k) as [Hlt|]; [|lia].
  specialize (Hs ltac:(lia)). destruct Hd as [q ->].
  rewrite Z.mul_pow2_bits_low in Hs by lia. done.
Qed.

(** Past a block that its alignment limits, the alignment grows. *)
Lemma trailing_zeros_next w z :
  (trailing_zeros w z < Z.of_nat w)%Z ->
  (trailing_zeros w z < trailing_zeros w (z + 2 ^ trailing_zeros w z))%Z.
Proof.
  intros Hlt. destruct (trailing_zeros_from_spec w 0 z ltac:(lia)) as (Hb & _ & Hs).
  set (t := trailing_zeros w z) in *. specialize (Hs ltac:(unfold t, trailing_zeros in *; lia)).
  assert (t + 1 <= trailing_zeros w (z + 2 ^ t))%Z; [|lia].
  apply trailing_zeros_ge; [unfold t, trailing_zeros in *; lia|].
  destruct (trailing_zeros_divide w z) as [q Hq]. fold t in Hq.
  assert (Hodd : Z.odd q = true).
  { fold (trailing_zeros w z) in Hs. fold t in Hs. rewrite Hq, Z.mul_pow2_bits, Z.sub_diag, Z.bit0_odd in Hs; [done|].
    unfold t, trailing_zeros; lia. }
  apply Z.odd_spec in Hodd as [r ->]. exists (r + 1)%Z. rewrite Hq at 1.
  rewrite Z.pow_add_r by (unfold t, trailing_zeros in *; lia). lia.
Qed.

Lemma width_remaining v6 : (family_width v6 <= Z.of_nat (remaining_width v6))%Z.
Proof. by destruct v6. Qed.

Lemma to_addr_v6 v6 a : is_v6 (to_addr v6 a) = v6.
Proof. by destruct v6. Qed.

Lemma to_addr_num v6 a : addr_num (to_addr v6 a) = a.
Proof. by destruct v6. Qed.

Section Loop.
Variable v6 : bool.
Let w : Z := family_width v6.
Let tz (z : Z) : Z := trailing_zeros (Z.to_nat w) z.

Lemma width_pos : (32 <= w <= 128)%Z.
Proof. unfold w, family_width. destruct v6; lia. Qed.

Lemma family_max_pow : family_max v6 = (2 ^ w - 1)%Z.
Proof. unfold family_max, w, family_width. by destruct v6. Qed.

(** The rounds that are left: the alignment grows to the logarithm of what
    remains, then the logarithm shrinks. *)
Definition rounds (start stop : Z) : Z :=
  let t := tz start in
  let l := Z.log2 (stop - start + 1) in
  if (t <=? l)%Z then (2 * l - t + 2)%Z else (l + 1)%Z.

Lemma rounds_decrease start stop :
  (0 <= start <= stop)%Z -> (stop - start + 1 < 2 ^ w)%Z ->
  let step := (2 ^ Z.min (tz start) (Z.log2 (stop - start + 1)))%Z in
  (step < stop - start + 1)%Z -> (rounds (start + step) stop < rounds start stop)%Z.
Proof.
  intros Hs Hr step Hlt. pose proof width_pos as Hw. unfold rounds.
  set (rem := (stop - start + 1)%Z) in *. set (l := Z.log2 rem) in *.
  replace (stop - (start + step) + 1)%Z with (rem - step)%Z by lia.
  assert (Hl : (0 <= l < w)%Z).
  { split; [apply Z.log2_nonneg|]. apply Z.log2_lt_pow2; lia. }
  pose proof (trailing_zeros_bound (Z.to_nat w) start) as Ht. fold (tz start) in Ht.
  assert (Hpos : (0 < step)%Z) by (apply Z.pow_pos_nonneg; [lia|apply Z.min_glb; lia]).
  assert (Hl' : (0 <= Z.log2 (rem - step) <= l)%Z).
  { split; [apply Z.log2_nonneg|]. apply Z.log2_le_mono. lia. }
  destruct (Z.leb_spec (tz start) l) as [Hc|Hc].
  - assert (Hst : step = (2 ^ tz start)%Z) by (unfold step; by rewrite Z.min_l).
    pose proof (trailing_zeros_next (Z.to_nat w) start) as Hn. fold (tz start) in Hn.
    specialize (Hn ltac:(lia)). rewrite <- Hst in Hn. fold (tz (start + step)) in Hn.
    destruct (Z.leb_spec (tz (start + step)) (Z.log2 (rem - step))); lia.
  - assert (Hst : step = (2 ^ l)%Z) by (unfold step; rewrite Z.min_r by lia; done).
    assert (Hlog : (Z.log2 (rem - step) < l)%Z).
    { pose proof (Z.log2_spec rem ltac:(lia)) as Hsp. fold l in Hsp. rewrite Z.pow_succ_r in Hsp by lia.
      apply Z.log2_lt_pow2; lia. }
    assert (Hd : (l <= tz (start + step))%Z).
    { apply trailing_zeros_ge; [lia|]. rewrite Hst. apply Z.divide_add_r; [|apply Z.divide_refl].
      etrans; [apply (pow2_divide l (tz start)); lia|apply trailing_zeros_divide]. }
    destruct (Z.leb_spec (tz (start + step)) (Z.log2 (rem - step))); lia.
Qed.

(** What one round computes: a block inside the range, aligned, whose network
    the library accepts. *)
Lemma block_net start stop :
  (0 <= start <= stop)%Z -> (stop <= family_max v6)%Z -> (stop - start + 1 < 2 ^ w)%Z ->
  let b := Z.min (tz start) (Z.log2 (stop - start + 1)) in
  (0 <= b < w)%Z /\ (2 ^ b <= stop - start + 1)%Z /\
  exists n, net_new (to_addr v6 start) ((w - b) `mod` 256) = Some n /\ net_v6 n = v6 /\
    network n = start /\ broadcast n = (start + 2 ^ b - 1)%Z.
Proof.
  intros Hs Hm Hr b. pose proof width_pos as Hw.
  pose proof (trailing_zeros_bound (Z.to_nat w) start) as Ht. fold (tz start) in Ht.
  assert (Hl : (0 <= Z.log2 (stop - start + 1) < w)%Z).
  { split; [apply Z.log2_nonneg|]. apply Z.log2_lt_pow2; lia. }
  assert (Hb : (0 <= b < w)%Z) by (unfold b; lia). split; [done|]. split.
  { etrans; [apply (Z.pow_le_mono_r 2 b (Z.log2 (stop - start + 1))); unfold b; lia|].
    apply Z.log2_spec. lia. }
  pose proof (to_addr_v6 v6 start) as Ha1. pose proof (to_addr_num v6 start) as Ha2. rewrite Z.mod_small by lia.
  destruct (proj2 (net_new_valid (to_addr v6 start) (w - b))) as [n Hn]; [rewrite Ha1; fold w; lia|].
  exists n. split; [done|]. split; [by rewrite (net_new_family _ _ _ Hn)|].
  destruct (net_new_block _ _ _ ltac:(rewrite Ha1, Ha2; lia) Hn) as [Hnet Hbr].
  rewrite Ha1, Ha2 in *. unfold prefix_block in *. fold w in Hnet, Hbr.
  replace (w - (w - b))%Z with b in * by lia.
  assert (Hd : (2 ^ b | start)%Z).
  { etrans; [apply (pow2_divide b (tz start)); unfold b; lia|apply trailing_zeros_divide]. }
  destruct Hd as [q Hq]. rewrite Hq, Z.div_mul in Hnet by (apply Z.pow_nonzero; lia). lia.
Qed.

Lemma range_loop_tiles fuel start stop :
  (0 <= start <= stop)%Z -> (stop <= family_max v6)%Z -> (stop - start + 1 < 2 ^ w)%Z ->
  (rounds start stop <= Z.of_nat fuel)%Z ->
  exists nets, range_loop v6 fuel start stop = Some nets /\ tiles v6 start stop nets /\
    length nets <= fuel.
Proof.
  revert start. induction fuel as [|fuel IH]; intros start Hs Hm Hr Hf.
  { exfalso. unfold rounds in Hf. pose proof (Z.log2_nonneg (stop - start + 1)).
    destruct (Z.leb_spec (tz start) (Z.log2 (stop - start + 1))); lia. }
  cbn [range_loop]. cbv zeta. fold w. fold (tz start). rewrite (proj2 (Z.leb_le start stop)) by lia.
  pose proof width_pos as Hw.
  pose proof (width_remaining v6) as Hrw. fold w in Hrw.
  rewrite (proj2 (Z.ltb_lt (stop - start + 1) _)).
  2: { eapply Z.lt_le_trans; [done|]. apply Z.pow_le_mono_r; lia. }
  replace (Z.of_nat (remaining_width v6) - 1 - leading_zeros (remaining_width v6) (stop - start + 1))%Z
    with (Z.log2 (stop - start + 1)).
  2: { unfold leading_zeros. rewrite (proj2 (Z.eqb_neq _ 0)) by lia. lia. }
  destruct (block_net start stop Hs Hm Hr) as (Hb & Hle & n & Hn & Hv & Hnet & Hbr).
  pose proof (rounds_decrease start stop Hs Hr) as Hdec. cbn zeta in Hdec.
  set (b := Z.min _ _) in *. cbn zeta. rewrite Hn, (proj2 (Z.ltb_lt b w)) by lia. cbn [option_list].
  assert (Hp : (0 < 2 ^ b)%Z) by (apply Z.pow_pos_nonneg; lia).
  destruct (Z.eqb_spec (stop - start + 1) (2 ^ b)).
  - exists [n]. split; [done|]. split; [by apply tiles_last; [..|lia]|simpl; lia].
  - rewrite Z.min_l by lia.
    destruct (IH (start + 2 ^ b)%Z) as (ns & -> & Ht & Hlen); [lia|done|lia|lia|].
    exists (n :: ns). split; [done|]. split; [|simpl; lia].
    eapply tiles_cons; [done|done| | |exact Ht]; lia.
Qed.

Lemma rounds_fuel start stop :
  (0 <= start <= stop)%Z -> (stop - start + 1 < 2 ^ w)%Z ->
  (rounds start stop <= Z.of_nat (range_fuel v6))%Z.
Proof.
  intros Hs Hr. pose proof width_pos. unfold rounds, range_fuel. fold w.
  pose proof (trailing_zeros_bound (Z.to_nat w) start) as Ht. fold (tz start) in Ht.
  assert (Z.log2 (stop - start + 1) < w)%Z by (apply Z.log2_lt_pow2; lia).
  destruct (Z.leb_spec (tz start) (Z.log2 (stop - start + 1))); lia.
Qed.

(** The whole of a family's walk; a range that ends before it starts is
    empty. *)
Lemma push_range_spec start stop :
  (0 <= start <= family_max v6)%Z -> (0 <= stop <= family_max v6)%Z ->
  exists nets, push_range v6 start stop = Some nets /\ length nets <= range_fuel v6 /\
    (if (start <=? stop)%Z then tiles v6 start stop nets else nets = []).
Proof.
  intros Hs He. unfold push_range. pose proof family_max_pow as Hmax. pose proof width_pos as Hw.
  destruct (Z.leb_spec start stop) as [Hle|Hgt].
  2: { exists []. split; [|split; [simpl; lia|done]].
    rewrite (proj2 (Z.eqb_neq stop (family_max v6))), andb_false_r by lia.
    unfold range_fuel. rewrite Nat.add_comm. cbn. by rewrite (proj2 (Z.leb_gt start stop)). }
  destruct (Z.eqb_spec start 0), (Z.eqb_spec stop (family_max v6)); cbn [andb]; subst.
  - pose proof (to_addr_v6 v6 0) as Ha1. pose proof (to_addr_num v6 0) as Ha2.
    destruct (proj2 (net_new_valid (to_addr v6 0) 0)) as [n Hn]; [rewrite Ha1; fold w; lia|].
    rewrite Hn. exists [n]. split; [done|]. split; [unfold range_fuel; simpl; lia|].
    destruct (net_new_block _ _ _ ltac:(rewrite Ha1, Ha2; lia) Hn) as [Hnet Hbr].
    rewrite Ha1, Ha2 in *. rewrite Zdiv_0_l in Hnet. unfold prefix_block in Hbr. fold w in Hbr.
    rewrite Z.sub_0_r in Hbr.
    apply tiles_last; [by rewrite (net_new_family _ _ _ Hn)|lia|lia].
  - all: destruct (range_loop_tiles (range_fuel v6) 0 stop) as (ns & ? & ? & ?); [lia..|by apply rounds_fuel; lia|eauto].
  - all: destruct (range_loop_tiles (range_fuel v6) start (family_max v6)) as (ns & ? & ? & ?); [lia..|by apply rounds_fuel; lia|eauto].
  - all: destruct (range_loop_tiles (range_fuel v6) start stop) as (ns & ? & ? & ?); [lia..|by apply rounds_fuel; lia|eauto].
Qed.

End Loop.

(** ** A range record *)

(** The addresses a record stands for: those between its ends if both are
    IPv4-mapped, or neither is; none if the record mixes the two. *)
Definition range_holds (from to : Z) (addr : IpAddr) : bool :=
  match to_ipv4_mapped from, to_ipv4_mapped to, addr with
  | Some a, Some b, V4 x => (a <=? x)%Z && (x <=? b)%Z
  | None, None, V6 x => (from <=? x)%Z && (x <=? to)%Z
  | _, _, _ => false
  end.

Lemma mapped_bound a b : to_ipv4_mapped a = Some b -> (0 <= b <= u32_max)%Z.
Proof.
  unfold to_ipv4_mapped. case_match; [|done]. intros [= <-].
  change u32_max with (Z.ones 32). rewrite Z.land_ones by lia.
  pose proof (Z.mod_pos_bound a (2 ^ 32) ltac:(lia)). change (Z.ones 32) with (2 ^ 32 - 1)%Z. lia.
Qed.

Lemma push_range_contain v6 start stop nets addr :
  (0 <= start <= family_max v6)%Z -> (0 <= stop <= family_max v6)%Z ->
  push_range v6 start stop = Some nets ->
  nets_contain nets addr =
  Bool.eqb (is_v6 addr) v6 && ((start <=? addr_num addr)%Z && (addr_num addr <=? stop)%Z).
Proof.
  intros Hs He Hp. destruct (push_range_spec v6 start stop Hs He) as (nets' & Hp' & _ & Ht).
  assert (nets' = nets) as -> by congruence.
  destruct (Z.leb_spec start stop) as [Hle|Hgt].
  2: { subst nets. cbn. symmetry. apply not_true_is_false. rewrite !andb_true_iff, !Z.leb_le. lia. }
  destruct (Bool.eqb (is_v6 addr) v6) eqn:Ev.
  - apply Bool.eqb_prop in Ev. replace addr with (to_addr v6 (addr_num addr)) at 1 by (subst v6; by destruct addr).
    apply eq_true_iff_eq. rewrite (tiles_contain _ _ _ _ _ Ht). cbn. rewrite andb_true_iff, !Z.leb_le. lia.
  - eapply tiles_family; [done|]. intros E. by rewrite E, Bool.eqb_reflx in Ev.
Qed.

Lemma push_range_ordered v6 start stop nets :
  (0 <= start <= family_max v6)%Z -> (0 <= stop <= family_max v6)%Z ->
  push_range v6 start stop = Some nets ->
  length nets <= 258 /\ StronglySorted (fun n m => broadcast n < network m)%Z nets.
Proof.
  intros Hs He Hp. destruct (push_range_spec v6 start stop Hs He) as (nets' & Hp' & Hlen & Ht).
  assert (nets' = nets) as -> by congruence. split.
  - etrans; [done|]. destruct v6; cbn; lia.
  - destruct (start <=? stop)%Z; [by eapply tiles_ordered|]. subst. constructor.
Qed.

Lemma push_range_prefixes_spec from to :
  (0 <= from <= u128_max)%Z -> (0 <= to <= u128_max)%Z ->
  exists nets, push_range_prefixes from to = Some nets /\ length nets <= 258 /\
    StronglySorted (fun n m => broadcast n < network m)%Z nets /\
    forall addr, nets_contain nets addr = range_holds from to addr.
Proof.
  intros Hf Ht. unfold push_range_prefixes, range_holds.
  destruct (to_ipv4_mapped from) as [a|] eqn:Ea, (to_ipv4_mapped to) as [b|] eqn:Eb.
  2,3: exists []; split; [done|]; split; [simpl; lia|]; split; [constructor|done].
  - apply mapped_bound in Ea, Eb. destruct (push_range_spec false a b) as (nets & Hp & _); [done..|].
    exists nets. split; [done|]. destruct (push_range_ordered false a b nets) as [Hl Ho]; [done..|].
    split; [done|]. split; [done|]. intros addr. rewrite (push_range_contain false a b nets) by done. by destruct addr.
  - destruct (push_range_spec true from to) as (nets & Hp & _); [done..|].
    exists nets. split; [done|]. destruct (push_range_ordered true from to nets) as [Hl Ho]; [done..|].
    split; [done|]. split; [done|]. intros addr. rewrite (push_range_contain true from to nets) by done. by destruct addr.
Qed.

(** Splitting a range record of an upstream rule set into networks is
    exact. For any two 128-bit ends no step overflows and the loop ends; at
    most 258 networks come out, in order and pairwise disjoint, and they
    hold exactly the addresses the record stands for: the IPv4 range of two
    mapped ends, the IPv6 range of two unmapped ones, nothing for a mixed
    record or one that ends before it starts. *)
Theorem range_prefixes_exact from to :
  (0 <= from <= u128_max)%Z -> (0 <= to <= u128_max)%Z ->
  exists nets, push_range_prefixes from to = Some nets /\ length nets <= 258 /\
    StronglySorted (fun n m => broadcast n < network m)%Z nets /\
    forall addr, nets_contain nets addr = range_holds from to addr.
Proof. apply push_range_prefixes_spec. Qed.

End MrsRanges.

#[local] Existing Instance prefix_net_new.

(** 1.0.0.1 to 1.0.0.6, mapped. *)
Lemma range_prefixes_exact_witness :
  exists nets, push_range_prefixes (281470698520577) (281470698520582) = Some nets /\
    nets_contain nets (V4 16777221) = true /\ nets_contain nets (V4 16777223) = false.
Proof.
  destruct (range_prefixes_exact 281470698520577 281470698520582) as (nets & Hp & _ & _ & H); [done|done|].
  exists nets. split; [exact Hp|]. rewrite !H. split; reflexivity.
Defined.

End MrsRanges.
