(* ===== verification/Stream.v ===== *)
(** * Byte streams and the frame reader (crates/meow-rules/src/mrs_parser.rs)

    A reader delivers its bytes in chunks of its own choosing; a read may be
    interrupted and the stream may end in an error. [FrameReader] reads
    big-endian fields from such a stream and bounds what it takes. The lemmas
    show that what it reads depends on the bytes alone. *)

From S2P Require Import Prelude Strings Bits.

Module Stream.

(** ** [std::io::Read] *)

(** An error by its kind; all kinds but one are treated alike. *)
Inductive IoError := UnexpectedEof | OtherError (e : bytes).

(** A failing reader may itself report an unexpected end, as a decompressor
    does for a frame that is cut short. *)
Inductive Event :=
  | Data (chunk : bytes)
  | Interrupted
  | Failure (e : IoError).

Definition stream : Type := list Event.

(** One call of [read] on a buffer of [n] > 0 bytes: [None] is an
    interruption. The end of the stream reads nothing. *)
Definition read (n : nat) (s : stream) : option (result IoError bytes) * stream :=
  match s with
  | [] => (Some (Ok []), [])
  | Data c :: s => (Some (Ok (take n c)), match drop n c with [] => s | c => Data c :: s end)
  | Interrupted :: s => (None, s)
  | Failure e :: s => (Some (Err e), s)
  end.

(** [Read::read_exact]: read until the buffer is full, again after an
    interruption. *)
Fixpoint read_exact (n : nat) (s : stream) : result IoError (bytes * stream) :=
  match n with
  | 0 => Ok ([], s)
  | _ =>
      match s with
      | [] | Data [] :: _ => Err UnexpectedEof
      | Interrupted :: s => read_exact n s
      | Failure e :: _ => Err e
      | Data c :: s =>
          match drop n c with
          | [] => '(more, s) ← read_exact (n - length c) s; Ok (c ++ more, s)
          | rest => Ok (take n c, Data rest :: s)
          end
      end
  end.

(** [take(limit).read_to_end]. *)
Fixpoint read_to_end (limit : Z) (s : stream) : result IoError bytes :=
  match s with
  | [] | Data [] :: _ => Ok []
  | Interrupted :: s => if (limit <=? 0)%Z then Ok [] else read_to_end limit s
  | Failure e :: _ => if (limit <=? 0)%Z then Ok [] else Err e
  | Data c :: s =>
      if (limit <? Z.of_nat (length c))%Z then Ok (take (Z.to_nat limit) c)
      else more ← read_to_end (limit - Z.of_nat (length c)) s; Ok (c ++ more)
  end.

(** ** [FrameReader] *)

Inductive MrsError :=
  | WrongFormat (magic : bytes)
  | UnsupportedVersion (v : Z)
  | UnsupportedType (t : Z)
  | InvalidBehavior (b : Z)
  | InvalidReservedLength (n : Z)
  | Truncated (what : bytes) (offset need have : Z)
  | Zstd (e : IoError)
  | Utf8 (what : bytes)
  | InvalidDomainSetVersion (v : Z)
  | InvalidIpCidrSetVersion (v : Z)
  | InvalidLength (what : bytes) (n : Z).

Definition MAX_DECOMPRESSED_BYTES : Z := 268435456.

Record FrameReader := mkFrame { inner : stream; pos : Z }.

Definition frame_new (s : stream) : FrameReader := mkFrame s 0.

(** A computation on the reader: [None] is a panic of a callback. *)
Definition Reading (A : Type) : Type := FrameReader -> option (result MrsError (A * FrameReader)).

#[export] Instance reading_ret : MRet Reading := fun A a r => Some (Ok (a, r)).
#[export] Instance reading_bind : MBind Reading := fun A B f m r =>
  match m r with
  | Some (Ok (a, r)) => f a r
  | Some (Err e) => Some (Err e)
  | None => None
  end.

Definition throw {A} (e : MrsError) : Reading A := fun _ => Some (Err e).
Definition callback {A} (x : option A) : Reading A :=
  fun r => match x with Some a => Some (Ok (a, r)) | None => None end.

Definition fill (what : bytes) (n : nat) : Reading bytes := fun r =>
  if (MAX_DECOMPRESSED_BYTES <? pos r + Z.of_nat n)%Z
  then Some (Err (InvalidLength (b! "decompressed_payload") MAX_DECOMPRESSED_BYTES))
  else match read_exact n (inner r) with
  | Ok (buf, s) => Some (Ok (buf, mkFrame s (pos r + Z.of_nat n)))
  | Err UnexpectedEof => Some (Err (Truncated what (pos r) (Z.of_nat n) 0))
  | Err e => Some (Err (Zstd e))
  end.

Definition read_u8 (what : bytes) : Reading Z := b ← fill what 1; mret (from_be_bytes b).
Definition read_u16_be (what : bytes) : Reading Z := b ← fill what 2; mret (from_be_bytes b).
Definition read_u32_be (what : bytes) : Reading Z := b ← fill what 4; mret (from_be_bytes b).
Definition read_array (what : bytes) (n : nat) : Reading bytes := fill what n.
Definition read_into (what : bytes) (len : nat) : Reading bytes := fill what len.

(** The loop of [read_u16_be_or_eof]: [got] bytes are in the buffer. *)
Fixpoint read_pair (what : bytes) (position : Z) (got : bytes) (s : stream) {struct s} :
    result MrsError (option bytes * stream) :=
  let truncated := Err (Truncated what (position + Z.of_nat (length got)) 2 (Z.of_nat (length got))) in
  let eof := if (length got =? 0) then Ok (None, s) else truncated in
  match s with
  | [] | Data [] :: _ => eof
  | Interrupted :: s => read_pair what position got s
  | Failure e :: _ => Err (Zstd e)
  | Data c :: s' =>
      let got' := got ++ take (2 - length got) c in
      if (2 <=? length got')
      then Ok (Some got', match drop (2 - length got) c with [] => s' | rest => Data rest :: s' end)
      else read_pair what position got' s'
  end.

Definition read_u16_be_or_eof (what : bytes) : Reading (option Z) := fun r =>
  match read_pair what (pos r) [] (inner r) with
  | Ok (Some b, s) => Some (Ok (Some (from_be_bytes b), mkFrame s (pos r + 2)))
  | Ok (None, s) => Some (Ok (None, mkFrame s (pos r)))
  | Err e => Some (Err e)
  end.

(** [skip] in pieces of 256 bytes. *)
Fixpoint skip_loop (fuel : nat) (what : bytes) (len : nat) : Reading unit :=
  match fuel with
  | 0 => mret tt
  | S fuel =>
      if (len =? 0) then mret tt
      else let n := Nat.min len 256 in _ ← fill what n; skip_loop fuel what (len - n)
  end.

Definition skip (what : bytes) (len : nat) : Reading unit := skip_loop len what len.

Definition utf8 (what : bytes) (s : bytes) : Reading bytes :=
  if from_utf8_ok s then mret s else throw (Utf8 what).

(** ** What a stream delivers *)

Fixpoint contents (s : stream) : bytes * option IoError :=
  match s with
  | [] => ([], None)
  | Data c :: s => let '(b, e) := contents s in (c ++ b, e)
  | Interrupted :: s => contents s
  | Failure e :: _ => ([], Some e)
  end.

(** A chunk is not empty: reading nothing means the end. *)
Definition stream_ok (s : stream) : Prop := Forall (fun e => e <> Data []) s.

Lemma read_to_end_all limit s b :
  stream_ok s -> contents s = (b, None) -> (Z.of_nat (length b) < limit)%Z -> read_to_end limit s = Ok b.
Proof.
  revert limit b. induction s as [|ev s IH]; intros limit b Hok Hc Hl; cbn [contents] in Hc.
  { by injection Hc as <-. }
  apply Forall_cons in Hok as [Hev Hok]. destruct ev as [c| |err]; cbn [read_to_end]; [| |done].
  - destruct c as [|x c]; [done|]. destruct (contents s) as [b' e'] eqn:E. injection Hc as <- ->.
    cbn [length app] in Hl. rewrite length_app in Hl.
    rewrite (proj2 (Z.ltb_ge _ _)) by (cbn [length] in *; lia). rewrite (IH _ b'); [done..|cbn [length]; lia].
  - rewrite (proj2 (Z.leb_gt _ _)) by lia. by apply IH.
Qed.

(** The bytes [b] follow in the reader, and then [rest] and the end [e]. *)
Definition holds (r : FrameReader) (b : bytes) (e : option IoError) (p : Z) : Prop :=
  stream_ok (inner r) /\ contents (inner r) = (b, e) /\ pos r = p.

Lemma read_exact_ok n s b e :
  stream_ok s -> contents s = (b, e) -> n <= length b ->
  exists s', read_exact n s = Ok (take n b, s') /\ stream_ok s' /\ contents s' = (drop n b, e).
Proof.
  revert n b. induction s as [|ev s IH]; intros n b Hok Hc Hn.
  - injection Hc as <- <-. destruct n; [|simpl in Hn; lia]. by exists [].
  - apply Forall_cons in Hok as [Hev Hok]. destruct n as [|n]; [exists (ev :: s); by repeat constructor|].
    destruct ev as [c| |err]; cbn [contents] in Hc.
    + destruct (contents s) as [b' e'] eqn:E. injection Hc as <- <-.
      destruct c as [|x c]; [done|]. cbn [read_exact].
      destruct (drop (S n) (x :: c)) as [|y rest] eqn:Ed.
      * assert (Hlen : length (x :: c) <= S n).
        { apply (f_equal length) in Ed. rewrite length_drop in Ed. simpl in *. lia. }
        rewrite length_app in Hn.
        destruct (IH (S n - length (x :: c)) b' Hok eq_refl ltac:(lia)) as (s' & -> & Hs' & Hc').
        exists s'. cbn [mbind result_bind]. rewrite take_app_ge, drop_app_ge by lia. done.
      * assert (Hlen : S n < length (x :: c)).
        { destruct (Nat.le_gt_cases (length (x :: c)) (S n)); [by rewrite drop_ge in Ed|done]. }
        exists (Data (y :: rest) :: s). rewrite take_app_le, drop_app_le, Ed by lia.
        split; [done|]. split; [by constructor|]. cbn [contents]. by rewrite E.
    + cbn [read_exact]. by apply IH.
    + injection Hc as <- <-. simpl in Hn. lia.
Qed.

Lemma read_pair_ok what p s b e x y :
  stream_ok s -> contents s = (x :: y :: b, e) ->
  exists s', read_pair what p [] s = Ok (Some [x; y], s') /\ stream_ok s' /\ contents s' = (b, e).
Proof.
  assert (Hone : forall s z, stream_ok s -> contents s = (y :: b, e) ->
    exists s', read_pair what p [z] s = Ok (Some [z; y], s') /\ stream_ok s' /\ contents s' = (b, e)).
  { clear. intros s z. induction s as [|ev s IH]; intros Hok Hc; [done|].
    apply Forall_cons in Hok as [Hev Hok]. destruct ev as [c| |err]; cbn [contents] in Hc; [| |done].
    - destruct (contents s) as [b' e'] eqn:E. destruct c as [|x c]; [done|]. injection Hc as -> <- <-.
      cbn. destruct c as [|x' c]; [by exists s|]. exists (Data (x' :: c) :: s).
      split; [done|]. split; [by constructor|]. cbn [contents]. by rewrite E.
    - cbn. by apply IH. }
  revert b Hone. induction s as [|ev s IH]; intros b Hone Hok Hc; [done|].
  apply Forall_cons in Hok as [Hev Hok]. destruct ev as [c| |err]; cbn [contents] in Hc; [| |done].
  - destruct (contents s) as [b' e'] eqn:E. destruct c as [|x1 c]; [done|]. injection Hc as -> Hc <-.
    destruct c as [|x2 c]; cbn.
    + apply Hone; [done|]. by rewrite E, <- Hc.
    + injection Hc as -> <-. destruct c as [|x3 c]; [by exists s|]. exists (Data (x3 :: c) :: s).
      split; [done|]. split; [by constructor|]. cbn [contents]. by rewrite E.
  - cbn. by apply IH.
Qed.

Lemma read_pair_eof what p s :
  stream_ok s -> contents s = ([], None) ->
  exists s', read_pair what p [] s = Ok (None, s').
Proof.
  induction s as [|ev s IH]; intros Hok Hc; [by exists []|].
  apply Forall_cons in Hok as [Hev Hok]. destruct ev as [c| |err]; cbn [contents] in Hc; [| |done].
  - destruct (contents s) as [b' e'] eqn:E. destruct c; by simplify_eq/=.
  - cbn. by apply IH.
Qed.

(** ** Reading known bytes *)

(** On a reader that holds [b] next, [m] consumes [b] and returns [a], or a
    callback panics and [a] is [None]. *)
Definition reads {A} (m : Reading A) (b : bytes) (a : option A) : Prop :=
  forall r rest e p, holds r (b ++ rest) e p -> (0 <= p)%Z ->
  (p + Z.of_nat (length b) <= MAX_DECOMPRESSED_BYTES)%Z ->
  match a with
  | Some a => exists r', m r = Some (Ok (a, r')) /\ holds r' rest e (p + Z.of_nat (length b))
  | None => m r = None
  end.

Lemma reads_ret {A} (a : A) : reads (mret a) [] (Some a).
Proof. intros r rest e p H Hp Hb. exists r. by rewrite Z.add_0_r. Qed.

Lemma reads_callback {A} (x : option A) : reads (callback x) [] x.
Proof. intros r rest e p H Hp Hb. destruct x; [exists r; by rewrite Z.add_0_r|done]. Qed.

Lemma reads_bind {A B} (m : Reading A) (f : A -> Reading B) b1 b2 x y :
  reads m b1 (Some x) -> reads (f x) b2 y -> reads (m ≫= f) (b1 ++ b2) y.
Proof.
  intros Hm Hf r rest e p H Hp Hb. rewrite <- app_assoc in H. rewrite length_app in *.
  destruct (Hm r _ e p H Hp ltac:(lia)) as (r1 & E & H1).
  assert (Eb : (m ≫= f) r = f x r1) by (unfold mbind, reading_bind; by rewrite E). rewrite Eb.
  specialize (Hf r1 rest e _ H1 ltac:(lia) ltac:(lia)).
  by rewrite Nat2Z.inj_add, Z.add_assoc.
Qed.

(** A step that reads nothing, before or after. *)
Lemma reads_bind_l {A B} (m : Reading A) (f : A -> Reading B) b x y :
  reads m [] (Some x) -> reads (f x) b y -> reads (m ≫= f) b y.
Proof. apply (reads_bind m f [] b). Qed.

Lemma reads_bind_r {A B} (m : Reading A) (f : A -> Reading B) b x y :
  reads m b (Some x) -> reads (f x) [] y -> reads (m ≫= f) b y.
Proof. rewrite <- (app_nil_r b) at 2. apply (reads_bind m f b []). Qed.

Lemma reads_bind_panic {A B} (m : Reading A) (f : A -> Reading B) b1 b2 :
  reads m b1 None -> reads (m ≫= f) (b1 ++ b2) None.
Proof.
  intros Hm r rest e p H Hp Hb. rewrite <- app_assoc in H. rewrite length_app in *.
  unfold mbind, reading_bind. by rewrite (Hm r _ e p H Hp ltac:(lia)).
Qed.

(** A step that may panic and what follows it. *)
Lemma reads_bind_opt {A B} (m : Reading A) (f : A -> Reading B) b1 b2 (x : option A) (g : A -> option B) :
  reads m b1 x -> (forall a, x = Some a -> reads (f a) b2 (g a)) ->
  reads (m ≫= f) (b1 ++ b2) (x ≫= g).
Proof.
  intros Hm Hf. destruct x as [a|]; cbn [mbind option_bind].
  - by eapply reads_bind; [|apply Hf].
  - by apply reads_bind_panic.
Qed.

Lemma reads_fill what b : reads (fill what (length b)) b (Some b).
Proof.
  intros r rest e p (Hok & Hc & Hp) Hp0 Hb. unfold fill. rewrite Hp, (proj2 (Z.ltb_ge _ _)) by lia.
  destruct (read_exact_ok (length b) (inner r) _ e Hok Hc) as (s' & -> & Hs & Hc').
  { rewrite length_app. lia. }
  rewrite take_app_length, drop_app_length in *. by eexists.
Qed.

Lemma reads_fill_n what n b : length b = n -> reads (fill what n) b (Some b).
Proof. intros <-. apply reads_fill. Qed.

Lemma reads_be (f : bytes -> Reading Z) what k n :
  (forall w, f w = (b ← fill w k; mret (from_be_bytes b))) ->
  (0 <= n < 256 ^ Z.of_nat k)%Z -> reads (f what) (to_be_bytes k n) (Some n).
Proof.
  intros Hf Hn. rewrite Hf, <- (app_nil_r (to_be_bytes k n)). eapply reads_bind.
  - apply reads_fill_n. apply to_be_bytes_length.
  - rewrite be_roundtrip_small by done. apply reads_ret.
Qed.

Lemma reads_u16 what n : (0 <= n < 65536)%Z -> reads (read_u16_be what) (to_be_bytes 2 n) (Some n).
Proof. by apply (reads_be read_u16_be what 2). Qed.

Lemma reads_u32 what n : (0 <= n < 4294967296)%Z -> reads (read_u32_be what) (to_be_bytes 4 n) (Some n).
Proof. by apply (reads_be read_u32_be what 4). Qed.

Lemma reads_u8 what c : reads (read_u8 what) [c] (Some (byte_z c)).
Proof.
  unfold read_u8. rewrite <- (app_nil_r [c]). eapply reads_bind; [by apply reads_fill_n|].
  rewrite from_be_cons. cbn. rewrite Z.mul_1_r, Z.add_0_r. apply reads_ret.
Qed.

Lemma reads_utf8 what s : from_utf8_ok s = true -> reads (utf8 what s) [] (Some s).
Proof. intros H. unfold utf8. rewrite H. apply reads_ret. Qed.

Lemma reads_skip_loop what fuel b :
  length b <= fuel -> reads (skip_loop fuel what (length b)) b (Some tt).
Proof.
  revert b. induction fuel as [|fuel IH]; intros b Hb; cbn [skip_loop].
  { destruct b; [apply reads_ret|simpl in Hb; lia]. }
  destruct b as [|c b]; [apply reads_ret|]. set (l := c :: b) in *.
  replace (length l =? 0) with false by done. cbn zeta.
  set (n := Nat.min (length l) 256).
  assert (H : reads (_ ← fill what n; skip_loop fuel what (length (drop n l))) (take n l ++ drop n l) (Some tt)).
  { eapply reads_bind; [apply reads_fill_n; rewrite length_take; lia|].
    apply IH. rewrite length_drop. unfold n. simpl in *. lia. }
  by rewrite take_drop, length_drop in H.
Qed.

Lemma reads_skip what b : reads (skip what (length b)) b (Some tt).
Proof. by apply reads_skip_loop. Qed.

Lemma reads_u16_or_eof what n :
  (0 <= n < 65536)%Z -> reads (read_u16_be_or_eof what) (to_be_bytes 2 n) (Some (Some n)).
Proof.
  intros Hn r rest e p (Hok & Hc & Hp) Hp0 Hb. cbn [to_be_bytes app] in Hc.
  destruct (read_pair_ok what (pos r) (inner r) _ e _ _ Hok Hc) as (s' & E & Hs & Hc').
  unfold read_u16_be_or_eof. rewrite E. eexists. split.
  - do 4 f_equal. exact (be_roundtrip_small 2 n Hn).
  - split; [done|]. split; [done|]. cbn. by rewrite Hp.
Qed.

(** ** Reading consumes *)

(** A read that succeeds took its bytes off the front of the stream. *)
Lemma read_exact_split n s b s' :
  stream_ok s -> read_exact n s = Ok (b, s') ->
  stream_ok s' /\ length b = n /\ contents s = (b ++ (contents s').1, (contents s').2).
Proof.
  revert n b. induction s as [|ev s IH]; intros n b Hok H.
  { destruct n; [|done]. by injection H as <- <-. }
  destruct n as [|n]; [injection H as <- <-; split; [done|]; split; [done|by destruct (contents (ev :: s))]|].
  pose proof Hok as [Hev Hok']%Forall_cons. destruct ev as [c| |err]; cbn [read_exact] in H; [| |done].
  - destruct c as [|x c]; [done|]. destruct (drop (S n) (x :: c)) as [|y rest] eqn:Ed.
    + destruct (read_exact (S n - length (x :: c)) s) as [[more s1]|] eqn:E; [|done]. injection H as <- <-.
      destruct (IH _ _ Hok' E) as (Hs & Hl & Hc). split; [done|]. cbn [contents]. rewrite Hc.
      assert (length (x :: c) <= S n).
      { apply (f_equal length) in Ed. rewrite length_drop in Ed. simpl in *. lia. }
      split; [|cbn [app]; by rewrite app_assoc].
      cbn [length] in *. rewrite length_app, Hl. lia.
    + injection H as <- <-. split; [by constructor|].
      assert (S n < length (x :: c)).
      { destruct (Nat.le_gt_cases (length (x :: c)) (S n)); [by rewrite drop_ge in Ed|done]. }
      split; [change (x :: take n c) with (take (S n) (x :: c)); rewrite length_take; lia|].
      cbn [contents]. destruct (contents s) as [b' e']. cbn [fst snd]. rewrite app_assoc. f_equal. f_equal.
      rewrite <- (take_drop (S n) (x :: c)), Ed at 1. done.
  - by apply IH.
Qed.

Definition size (r : FrameReader) : nat := length (contents (inner r)).1.

(** [m] keeps the stream well-formed and takes at least [k] bytes when it
    succeeds with a value of [P]. *)
Definition takes {A} (m : Reading A) (k : nat) (P : A -> Prop) : Prop :=
  forall r a r', stream_ok (inner r) -> m r = Some (Ok (a, r')) ->
  stream_ok (inner r') /\ size r' <= size r /\ (P a -> size r' + k <= size r).

Lemma takes_bind {A B} (m : Reading A) (f : A -> Reading B) k P (Q : B -> Prop) :
  takes m k P -> (forall a, takes (f a) 0 (fun _ => True)) ->
  (forall a r b r', f a r = Some (Ok (b, r')) -> Q b -> P a) ->
  takes (m ≫= f) k Q.
Proof.
  intros Hm Hf HQ r b r' Hok H. unfold mbind, reading_bind in H.
  destruct (m r) as [[[a r1]|]|] eqn:E; [|done|done].
  destruct (Hm _ _ _ Hok E) as (Hok1 & Hle & Hp). destruct (Hf a _ _ _ Hok1 H) as (Hok2 & Hle2 & _).
  split; [done|]. split; [lia|]. intros Hq. pose proof (Hp (HQ _ _ _ _ H Hq)). lia.
Qed.

Lemma takes_ret {A} (a : A) : takes (mret a) 0 (fun _ => True).
Proof. intros r b r' Hok H. injection H as <- <-. split_and!; [done|lia|lia]. Qed.

Lemma takes_throw {A} e : takes (throw (A := A) e) 0 (fun _ => True).
Proof. by intros r b r' Hok H. Qed.

Lemma takes_callback {A} (x : option A) : takes (callback x) 0 (fun _ => True).
Proof. intros r b r' Hok H. unfold callback in H. destruct x; [|done]. injection H as <- <-. split_and!; [done|lia|lia]. Qed.

Lemma takes_utf8 what s : takes (utf8 what s) 0 (fun _ => True).
Proof. unfold utf8. case_match; [apply takes_ret|apply takes_throw]. Qed.

Lemma takes_fill what n : takes (fill what n) n (fun _ => True).
Proof.
  intros r b r' Hok H. unfold fill in H. case_match; [done|].
  destruct (read_exact n (inner r)) as [[buf s]|[]] eqn:E; [|done..]. injection H as <- <-.
  destruct (read_exact_split _ _ _ _ Hok E) as (Hs & Hl & Hc). unfold size. cbn [inner]. rewrite Hc. cbn [fst].
  rewrite length_app. split_and!; [done|lia|lia].
Qed.

Lemma read_pair_split what p got s b s' :
  length got < 2 -> stream_ok s -> read_pair what p got s = Ok (Some b, s') ->
  stream_ok s' /\ length (contents s').1 + 2 <= length (contents s).1 + length got.
Proof.
  revert got. induction s as [|ev s IH]; intros got Hg Hok H; cbn [read_pair] in H; [by case_match|].
  pose proof Hok as [Hev Hok']%Forall_cons. destruct ev as [c| |err]; [| |done].
  - destruct c as [|x c]; [done|]. set (got' := got ++ take (2 - length got) (x :: c)) in *.
    assert (Hlen : length got' = length got + Nat.min (2 - length got) (length (x :: c))).
    { unfold got'. by rewrite length_app, length_take. }
    cbn [contents]. destruct (contents s) as [b' e'] eqn:Es. cbn [fst]. rewrite length_app.
    destruct (Nat.leb_spec 2 (length got')).
    + injection H as _ Hs'. assert (Hd : length (drop (2 - length got) (x :: c)) = length (x :: c) - (2 - length got))
        by apply length_drop.
      destruct (drop (2 - length got) (x :: c)) as [|y rest]; subst s'.
      * split; [done|]. rewrite Es. simpl in *. lia.
      * split; [by constructor|]. cbn [contents]. rewrite Es. cbn [fst]. rewrite length_app. simpl in *. lia.
    + destruct (IH got' ltac:(lia) Hok' H) as [? Hle]. split; [done|]. rewrite ?Es in Hle. cbn [fst] in Hle.
      simpl in *. lia.
  - by apply IH.
Qed.

Lemma read_pair_none what p s s' :
  stream_ok s -> read_pair what p [] s = Ok (None, s') ->
  stream_ok s' /\ length (contents s').1 <= length (contents s).1.
Proof.
  intros Hok. assert (Hno : forall got s s', 0 < length got -> read_pair what p got s = Ok (None, s') -> False).
  { clear. intros got s. revert got. induction s as [|[[|x c]| |] s IH]; intros got s' Hg H; cbn [read_pair] in H.
    - destruct got; simpl in *; [lia|done].
    - destruct got; simpl in *; [lia|done].
    - case_match; [done|]. eapply IH; [|exact H]. rewrite length_app. lia.
    - by eapply IH.
    - done. }
  induction s as [|[[|x c]| |] s IH]; intros H; cbn [read_pair] in H.
  - by injection H as <-.
  - by apply Forall_cons in Hok as [? _].
  - exfalso. case_match; [done|]. eapply Hno; [|exact H]. cbn. lia.
  - apply Forall_cons in Hok as [_ Hok]. by apply IH.
  - done.
Qed.

Lemma takes_u16_or_eof what : takes (read_u16_be_or_eof what) 2 is_Some.
Proof.
  intros r a r' Hok H. unfold read_u16_be_or_eof in H.
  destruct (read_pair what (pos r) [] (inner r)) as [[[b|] s]|] eqn:E; [| |done]; injection H as <- <-; unfold size; cbn [inner].
  - destruct (read_pair_split _ _ [] _ _ _ (Nat.lt_0_succ 1) Hok E) as [Hs Hle]. cbn [length] in Hle. split_and!; [done|lia|lia].
  - destruct (read_pair_none _ _ _ _ Hok E) as [Hs Hle]. split_and!; [done|lia|by intros []].
Qed.

End Stream.
