(* ===== verification/MrsCodec.v ===== *)
(** * The MRS container (crates/meow-rules/src/mrs_parser.rs)

    The header, the payloads of geosite files and of rule sets as they stream
    from the decompressor, and the encoders. Compression belongs to the zstd
    crate: a decoder is a stream, and decoding what was encoded gives it
    back. Streams hand their items to a callback that may panic. *)

From S2P Require Import Prelude Strings Vec Bits Ip Stream.

Module MrsCodec.
Import Stream.

(** The first bytes of a zstd frame. *)
Definition ZSTD_MAGIC : bytes := map z_byte [40; 181; 47; 253]%Z.

Class ZstdLib := {
  decoder_new : bytes -> result bytes stream;
  encode_all : bytes -> result bytes bytes;
  encode_decode x c : encode_all x = Ok c ->
    exists s, decoder_new c = Ok s /\ stream_ok s /\ contents s = (x, None);
  encode_magic x c : encode_all x = Ok c -> take 4 c = ZSTD_MAGIC;
}.

(** Compression that stores the bytes; its decoder is interrupted once and
    then delivers byte by byte. *)
#[export] Program Instance raw_zstd : ZstdLib | 100 := {|
  decoder_new c :=
    if bool_decide (take 4 c = ZSTD_MAGIC) then Ok (Interrupted :: map (fun x => Data [x]) (drop 4 c))
    else Err (b! "Unknown frame descriptor");
  encode_all x := Ok (ZSTD_MAGIC ++ x);
|}.
Next Obligation.
  intros x c [= <-]. rewrite bool_decide_eq_true_2 by done. eexists. split; [done|].
  change (drop 4 _) with x. split.
  - constructor; [done|]. induction x; by constructor.
  - cbn [contents]. induction x as [|y x IH]; [done|]. cbn [map contents]. by rewrite IH.
Qed.
Next Obligation. by intros x c [= <-]. Qed.

(** ** Header *)

Definition MRS_MAGIC : bytes := b! "MRS!".
Definition MRS_VERSION : Z := 1.
Definition UPSTREAM_MRS_MAGIC : bytes := b! "MRS" ++ [z_byte 1].
Definition TYPE_DOMAIN : Z := 0.
Definition TYPE_IPCIDR : Z := 1.
Definition TYPE_CLASSICAL : Z := 2.

Record MrsHeader := mkHeader { version : Z; type_tag : Z; count : Z }.

Definition parse_header (data : bytes) : result MrsError (MrsHeader * bytes) :=
  if (length data <? 4) then Err (WrongFormat MRS_MAGIC)
  else if negb (bool_decide (take 4 data = MRS_MAGIC)) then Err (WrongFormat MRS_MAGIC)
  else if (length data <? 10) then Err (Truncated (b! "header") 4 6 (Z.of_nat (length data - 4)))
  else
    let version := from_be_bytes (take 1 (drop 4 data)) in
    if negb (version =? MRS_VERSION)%Z then Err (UnsupportedVersion version)
    else
      let type_tag := from_be_bytes (take 1 (drop 5 data)) in
      let count := from_be_bytes (take 4 (drop 6 data)) in
      Ok (mkHeader version type_tag count, drop 10 data).

Definition header_bytes (type_tag count : Z) : bytes :=
  MRS_MAGIC ++ to_be_bytes 1 MRS_VERSION ++ to_be_bytes 1 type_tag ++ to_be_bytes 4 count.

(** ** Streaming a geosite payload *)

Inductive GeositeItem :=
  | Category (name : bytes) (domains : Z)
  | Domain (domain : bytes).

Section Stream.
Context {S : Type}.

Section Geosite.
Variable on_item : S -> GeositeItem -> option (S * bool).

Definition stream_domain (load : bool) (s : S) : Reading S :=
  dom_len ← read_u16_be (b! "domain_len");
  if load then
    buf ← read_into (b! "domain") (Z.to_nat dom_len);
    d ← utf8 (b! "domain") buf;
    x ← callback (on_item s (Domain d));
    mret x.1
  else
    _ ← skip (b! "domain") (Z.to_nat dom_len);
    mret s.

Fixpoint stream_domains (n : nat) (load : bool) (s : S) : Reading S :=
  match n with
  | 0 => mret s
  | Datatypes.S n => s ← stream_domain load s; stream_domains n load s
  end.

Definition stream_category (s : S) : Reading S :=
  name_len ← read_u16_be (b! "category_name_len");
  name_buf ← read_into (b! "category_name") (Z.to_nat name_len);
  _ ← utf8 (b! "category_name") name_buf;
  name ← utf8 (b! "category_name") (to_ascii_lowercase name_buf);
  dom_count ← read_u32_be (b! "domain_count");
  x ← callback (on_item s (Category name dom_count));
  stream_domains (Z.to_nat dom_count) x.2 x.1.

Fixpoint stream_categories (n : nat) (s : S) : Reading S :=
  match n with
  | 0 => mret s
  | Datatypes.S n => s ← stream_category s; stream_categories n s
  end.

Definition geosite_reading (s : S) : Reading S :=
  cat_count ← read_u32_be (b! "category_count"); stream_categories (Z.to_nat cat_count) s.

(** The final state of the callback. *)
Definition run_reading {A} (m : Reading A) (reader : stream) : option (result MrsError A) :=
  match m (frame_new reader) with
  | Some (Ok (a, _)) => Some (Ok a)
  | Some (Err e) => Some (Err e)
  | None => None
  end.

Definition stream_geosite_payload (reader : stream) (s : S) : option (result MrsError S) :=
  run_reading (geosite_reading s) reader.

End Geosite.

(** ** Streaming rule-set payloads *)

(** Rounds up to the end of the stream. Every round takes a byte at least, so
    one more round than the stream has bytes is enough. *)
Fixpoint repeat_until_end (entry : S -> Reading (option S)) (fuel : nat) (s : S) : Reading S :=
  match fuel with
  | 0 => mret s
  | Datatypes.S fuel =>
      x ← entry s;
      match x with
      | None => mret s
      | Some s => repeat_until_end entry fuel s
      end
  end.

Section Strings.
Variable on_entry : S -> bytes -> option S.

(** One round of the loop: [None] at the end of the stream. *)
Definition string_entry (s : S) : Reading (option S) :=
  len ← read_u16_be_or_eof (b! "string length");
  match len with
  | None => mret None
  | Some len =>
      buf ← read_into (b! "string entry") (Z.to_nat len);
      e ← utf8 (b! "string entry") buf;
      s ← callback (on_entry s e);
      mret (Some s)
  end.

Definition stream_string_list (reader : stream) (s : S) : option (result MrsError S) :=
  run_reading (repeat_until_end string_entry (Datatypes.S (length (contents reader).1)) s) reader.

End Strings.

Section Nets.
Context `{NN : IpNetNew}.
Variable on_net : S -> IpNet -> option S.

(** [r.inner.read(&mut family)], again after an interruption. *)
Fixpoint read_family_byte (s : stream) : result MrsError (option ascii * stream) :=
  match s with
  | [] | Data [] :: _ => Ok (None, s)
  | Data (c :: rest) :: s => Ok (Some c, match rest with [] => s | _ => Data rest :: s end)
  | Interrupted :: s => read_family_byte s
  | Failure e :: _ => Err (Zstd e)
  end.

Definition read_family : Reading (option Z) := fun r =>
  match read_family_byte (inner r) with
  | Ok (Some c, s) => Some (Ok (Some (byte_z c), mkFrame s (pos r + 1)))
  | Ok (None, s) => Some (Ok (None, mkFrame s (pos r)))
  | Err e => Some (Err e)
  end.

Definition read_net (addr : Z -> IpAddr) (bytes : nat) (what_addr what_prefix : Strings.bytes) : Reading IpNet :=
  a ← read_array what_addr bytes;
  prefix ← read_u8 what_prefix;
  match net_new (addr (from_be_bytes a)) prefix with
  | Some net => mret net
  | None => throw (InvalidLength what_prefix prefix)
  end.

Definition ipcidr_entry (s : S) : Reading (option S) :=
  family ← read_family;
  match family with
  | None => mret None
  | Some family =>
      net ← (if (family =? 4)%Z then read_net V4 4 (b! "ipv4 address") (b! "ipv4 prefix")
             else if (family =? 16)%Z then read_net V6 16 (b! "ipv6 address") (b! "ipv6 prefix")
             else throw (InvalidBehavior family));
      s ← callback (on_net s net);
      mret (Some s)
  end.

Definition stream_ipcidr_list (reader : stream) (s : S) : option (result MrsError S) :=
  run_reading (repeat_until_end ipcidr_entry (Datatypes.S (length (contents reader).1)) s) reader.

End Nets.
End Stream.

(** ** Materialised payloads and encoders *)

Record GeositePayload := mkPayload { categories : list (bytes * list bytes) }.

(** [categories.last_mut()] gets the domain. *)
Definition push_domain (cats : list (bytes * list bytes)) (d : bytes) : list (bytes * list bytes) :=
  match last cats with
  | Some (name, ds) => take (length cats - 1) cats ++ [(name, ds ++ [to_ascii_lowercase d])]
  | None => cats
  end.

Definition payload_item (allowed : option (list bytes)) (cats : list (bytes * list bytes)) (item : GeositeItem) :
    option (list (bytes * list bytes) * bool) :=
  Some (match item with
  | Category name _ =>
      if match allowed with Some set => negb (bool_decide (name ∈ set)) | None => false end
      then (cats, false) else (cats ++ [(name, [])], true)
  | Domain d => (push_domain cats d, true)
  end).

Definition parse_geosite_payload (decompressed : bytes) (allowed : option (list bytes)) :
    option (result MrsError GeositePayload) :=
  match stream_geosite_payload (payload_item allowed)
          (match decompressed with [] => [] | _ => [Data decompressed] end) [] with
  | Some (Ok cats) => Some (Ok (mkPayload cats))
  | Some (Err e) => Some (Err e)
  | None => None
  end.

(** A length-prefixed string. *)
Definition encode_string (s : bytes) : bytes := to_be_bytes 2 (Z.of_nat (length s)) ++ s.

Definition encode_category (c : bytes * list bytes) : bytes :=
  encode_string c.1 ++ to_be_bytes 4 (Z.of_nat (length c.2)) ++ mjoin (map encode_string c.2).

Definition encode_geosite_payload (p : GeositePayload) : bytes :=
  to_be_bytes 4 (Z.of_nat (length (categories p))) ++ mjoin (map encode_category (categories p)).

Section Write.
Context `{Zstd_ : ZstdLib}.

Definition write_mrs (type_tag : Z) (count : nat) (inner : bytes) : result MrsError bytes :=
  match encode_all inner with
  | Ok compressed => Ok (header_bytes type_tag (Z.of_nat count) ++ compressed)
  | Err e => Err (Zstd (OtherError e))
  end.

Definition write_geosite_mrs (p : GeositePayload) : result MrsError bytes :=
  write_mrs TYPE_DOMAIN (length (categories p)) (encode_geosite_payload p).

Definition write_ruleset_mrs (type_tag : Z) (entries : list bytes) : result MrsError bytes :=
  write_mrs type_tag (length entries) (mjoin (map encode_string entries)).

End Write.

(** ** Reading what was encoded *)

Definition string_ok (s : bytes) : Prop := (Z.of_nat (length s) < 65536)%Z /\ from_utf8_ok s = true.

Definition category_ok (c : bytes * list bytes) : Prop :=
  string_ok c.1 /\ has_uppercase c.1 = false /\
  (Z.of_nat (length c.2) < 4294967296)%Z /\ Forall string_ok c.2.

Definition payload_ok (p : GeositePayload) : Prop :=
  (Z.of_nat (length (categories p)) < 4294967296)%Z /\ Forall category_ok (categories p) /\
  (Z.of_nat (length (encode_geosite_payload p)) <= MAX_DECOMPRESSED_BYTES)%Z.

(** A string behind its length, read and passed on. *)
Lemma reads_string {A} what1 what2 (f : bytes -> Reading A) d a :
  string_ok d -> reads (f d) [] a ->
  reads (len ← read_u16_be what1; buf ← read_into what2 (Z.to_nat len); e ← utf8 what2 buf; f e)
    (encode_string d) a.
Proof.
  intros [Hl Hu] Hf. eapply reads_bind; [apply reads_u16; lia|].
  eapply reads_bind_r; [apply reads_fill_n; lia|]. eapply reads_bind_l; [by apply reads_utf8|done].
Qed.

Section Visit.
Context {S : Type} (on_item : S -> GeositeItem -> option (S * bool)).

(** The callback over the items of a payload. *)
Definition visit_domain (load : bool) (s : S) (d : bytes) : option S :=
  if load then fst <$> on_item s (Domain d) else Some s.

Definition visit_category (s : S) (c : bytes * list bytes) : option S :=
  x ← on_item s (Category c.1 (Z.of_nat (length c.2))); foldlM (visit_domain x.2) x.1 c.2.

Definition visit (s : S) (cats : list (bytes * list bytes)) : option S := foldlM visit_category s cats.

Lemma reads_domain load s d :
  string_ok d -> reads (stream_domain on_item load s) (encode_string d) (visit_domain load s d).
Proof.
  intros Hd. unfold stream_domain, visit_domain. destruct load.
  - eapply (reads_string _ _ (fun d => x ← callback (on_item s (Domain d)); mret x.1)); [done|].
    change (@nil ascii) with (@nil ascii ++ @nil ascii).
    replace (fst <$> on_item s (Domain d)) with (on_item s (Domain d) ≫= (fun x => Some x.1))
      by (by destruct (on_item s (Domain d))).
    eapply reads_bind_opt; [apply reads_callback|]. intros x _. apply reads_ret.
  - destruct Hd as [Hl Hu]. eapply reads_bind; [apply reads_u16; lia|].
    eapply reads_bind_r; [|apply reads_ret]. rewrite Nat2Z.id. apply reads_skip.
Qed.

(** A loop over encoded elements. *)
Lemma reads_domains load s ds :
  Forall string_ok ds ->
  reads (stream_domains on_item (length ds) load s) (mjoin (map encode_string ds))
    (foldlM (visit_domain load) s ds).
Proof.
  intros H. revert s. induction H as [|d ds Hd Hds IH]; intros s; cbn [length stream_domains map foldlM];
    [apply reads_ret|].
  cbn [mjoin list_join]. eapply reads_bind_opt; [by apply reads_domain|]. intros s' _. apply IH.
Qed.

Lemma reads_category s c :
  category_ok c -> reads (stream_category on_item s) (encode_category c) (visit_category s c).
Proof.
  destruct c as [name ds]. intros ([Hl Hu] & Hcase & Hn & Hds). cbn [fst snd] in *.
  unfold stream_category, encode_category, encode_string, visit_category. cbn [fst snd].
  rewrite <- app_assoc. eapply reads_bind; [apply reads_u16; lia|].
  eapply reads_bind; [apply reads_fill_n; lia|].
  eapply reads_bind_l; [by apply reads_utf8|]. rewrite lowercase_id by done.
  eapply reads_bind_l; [by apply reads_utf8|].
  eapply reads_bind; [apply reads_u32; lia|].
  rewrite <- (app_nil_l (mjoin _)). eapply reads_bind_opt; [apply reads_callback|].
  intros x _. rewrite Nat2Z.id. by apply reads_domains.
Qed.

Lemma reads_categories s cats :
  Forall category_ok cats ->
  reads (stream_categories on_item (length cats) s) (mjoin (map encode_category cats)) (visit s cats).
Proof.
  intros H. revert s. induction H as [|c cats Hc Hcs IH]; intros s;
    cbn [length stream_categories map visit foldlM]; [apply reads_ret|].
  cbn [mjoin list_join]. eapply reads_bind_opt; [by apply reads_category|]. intros s' _. apply IH.
Qed.

(** A stream of exactly these bytes. *)
Lemma run_reads {A} (m : Reading A) b a s :
  reads m b a -> stream_ok s -> contents s = (b, None) ->
  (Z.of_nat (length b) <= MAX_DECOMPRESSED_BYTES)%Z ->
  run_reading m s = Ok <$> a.
Proof.
  intros Hm Hs Hc Hb. unfold run_reading.
  specialize (Hm (frame_new s) [] None 0%Z). rewrite app_nil_r in Hm.
  specialize (Hm ltac:(by split) ltac:(lia) ltac:(lia)).
  destruct a as [a|]; [destruct Hm as (r' & -> & _)|rewrite Hm]; done.
Qed.

(** Any chunking of an encoded payload visits the payload. *)
Lemma stream_geosite_visit p s st :
  payload_ok p -> stream_ok s -> contents s = (encode_geosite_payload p, None) ->
  stream_geosite_payload on_item s st = Ok <$> visit st (categories p).
Proof.
  intros (Hn & Hcs & Hb) Hs Hc. eapply run_reads; [|done|done|done].
  eapply reads_bind; [apply reads_u32; lia|]. rewrite Nat2Z.id. by apply reads_categories.
Qed.

End Visit.

(** ** Materialised payloads *)

Definition lowercased (c : bytes * list bytes) : Prop := Forall (fun d => has_uppercase d = false) c.2.

Definition keeps (allowed : option (list bytes)) (c : bytes * list bytes) : bool :=
  match allowed with Some set => bool_decide (c.1 ∈ set) | None => true end.

Lemma push_domain_last cats name ds d :
  has_uppercase d = false -> push_domain (cats ++ [(name, ds)]) d = cats ++ [(name, ds ++ [d])].
Proof.
  intros Hd. unfold push_domain. rewrite last_snoc, length_app, Nat.add_sub, take_app_length.
  by rewrite lowercase_id.
Qed.

Lemma visit_payload_domains allowed cats name ds ds' :
  Forall (fun d => has_uppercase d = false) ds' ->
  foldlM (visit_domain (payload_item allowed) true) (cats ++ [(name, ds)]) ds' = Some (cats ++ [(name, ds ++ ds')]).
Proof.
  intros H. revert ds. induction H as [|d ds' Hd Hds IH]; intros ds; cbn [foldlM]; [by rewrite app_nil_r|].
  replace (visit_domain (payload_item allowed) true (cats ++ [(name, ds)]) d)
    with (Some (cats ++ [(name, ds ++ [d])])) by (by rewrite <- push_domain_last).
  cbn [mbind option_bind]. rewrite IH. by rewrite <- app_assoc.
Qed.

Lemma visit_skipped {S} (on_item : S -> GeositeItem -> option (S * bool)) s ds :
  foldlM (visit_domain on_item false) s ds = Some s.
Proof. by induction ds. Qed.

Lemma visit_payload_category allowed acc c :
  lowercased c ->
  visit_category (payload_item allowed) acc c = Some (acc ++ if keeps allowed c then [c] else []).
Proof.
  destruct c as [name ds]. intros Hl. unfold visit_category. cbn [fst snd].
  assert (E : payload_item allowed acc (Category name (Z.of_nat (length ds))) =
    Some (if keeps allowed (name, ds) then (acc ++ [(name, [])], true) else (acc, false))).
  { unfold payload_item, keeps. destruct allowed as [set|]; [|done]. cbn [fst]. by case_bool_decide. }
  rewrite E. destruct (keeps allowed (name, ds)); cbn [mbind option_bind fst snd].
  - by rewrite visit_payload_domains.
  - by rewrite visit_skipped, app_nil_r.
Qed.

Lemma visit_payload allowed acc cats :
  Forall lowercased cats ->
  visit (payload_item allowed) acc cats = Some (acc ++ List.filter (keeps allowed) cats).
Proof.
  unfold visit. intros H. revert acc. induction H as [|c cats Hc Hcs IH]; intros acc; cbn [foldlM List.filter].
  { by rewrite app_nil_r. }
  rewrite visit_payload_category by done. cbn [mbind option_bind]. rewrite IH, <- app_assoc.
  by destruct (keeps allowed c).
Qed.

Lemma parse_encode_geosite p allowed :
  payload_ok p -> Forall lowercased (categories p) ->
  parse_geosite_payload (encode_geosite_payload p) allowed =
  Some (Ok (mkPayload (List.filter (keeps allowed) (categories p)))).
Proof.
  intros Hp Hl. unfold parse_geosite_payload.
  rewrite (stream_geosite_visit _ p); [by rewrite visit_payload|done|..].
  - destruct (encode_geosite_payload p); by repeat constructor.
  - destruct (encode_geosite_payload p); cbn; by rewrite ?app_nil_r.
Qed.

(** ** Rule-set payloads *)

Lemma reads_string_entry {S} (on_entry : S -> bytes -> option S) s e :
  string_ok e -> reads (string_entry on_entry s) (encode_string e) (Some <$> on_entry s e).
Proof.
  intros [Hl Hu]. eapply reads_bind; [apply reads_u16_or_eof; lia|].
  eapply reads_bind_r; [apply reads_fill_n; lia|]. eapply reads_bind_l; [by apply reads_utf8|].
  replace (Some <$> on_entry s e) with (on_entry s e ≫= (fun x => Some (Some x))) by (by destruct (on_entry s e)).
  change (@nil ascii) with (@nil ascii ++ @nil ascii).
  eapply reads_bind_opt; [apply reads_callback|]. intros x _. apply reads_ret.
Qed.

Lemma string_entry_end {S} (on_entry : S -> bytes -> option S) s r p :
  holds r [] None p -> exists r', string_entry on_entry s r = Some (Ok (None, r')).
Proof.
  intros (Hok & Hc & _). unfold string_entry, mbind, reading_bind, read_u16_be_or_eof.
  destruct (read_pair_eof (b! "string length") (pos r) (inner r) Hok Hc) as [s' ->]. by eexists.
Qed.

(** A loop over encoded entries, up to the end of the stream. *)
Lemma repeat_reads {S E} (entry : S -> Reading (option S)) (encode : E -> bytes) (ok : E -> Prop)
    (step : S -> E -> option S) es s fuel r p :
  (forall s e, ok e -> reads (entry s) (encode e) (Some <$> step s e)) ->
  (forall s r p, holds r [] None p -> exists r', entry s r = Some (Ok (None, r'))) ->
  Forall ok es -> length es < fuel -> holds r (mjoin (map encode es)) None p -> (0 <= p)%Z ->
  (p + Z.of_nat (length (mjoin (map encode es))) <= MAX_DECOMPRESSED_BYTES)%Z ->
  match foldlM step s es with
  | Some s' => exists r', repeat_until_end entry fuel s r = Some (Ok (s', r'))
  | None => repeat_until_end entry fuel s r = None
  end.
Proof.
  intros Hentry Hend H. revert s fuel r p. induction H as [|e es He Hes IH]; intros s fuel r p Hf Hr Hp Hb;
    (destruct fuel as [|fuel]; [simpl in Hf; lia|]); cbn [repeat_until_end foldlM]; unfold mbind, reading_bind.
  - destruct (Hend s r p Hr) as [r' ->]. by exists r'.
  - change (mjoin (map encode (e :: es))) with (encode e ++ mjoin (map encode es)) in Hr, Hb.
    rewrite length_app in Hb. pose proof (Hentry s e He r _ None p Hr Hp ltac:(lia)) as Hstep.
    destruct (step s e) as [s'|]; cbn [fmap option_fmap option_map] in Hstep; [|by rewrite Hstep].
    destruct Hstep as (r' & -> & Hr'). cbn [option_bind].
    eapply (IH s' fuel r'); [simpl in Hf; lia|exact Hr'|lia|lia].
Qed.

Lemma stream_string_list_entries {S} (on_entry : S -> bytes -> option S) entries s st :
  Forall string_ok entries -> stream_ok s -> contents s = (mjoin (map encode_string entries), None) ->
  (Z.of_nat (length (mjoin (map encode_string entries))) <= MAX_DECOMPRESSED_BYTES)%Z ->
  stream_string_list on_entry s st = Ok <$> foldlM on_entry st entries.
Proof.
  intros He Hs Hc Hb. unfold stream_string_list, run_reading. rewrite Hc. cbn [fst].
  set (fuel := Datatypes.S _).
  assert (Hf : length entries < fuel).
  { unfold fuel. clear. induction entries as [|e es IH]; [simpl; lia|].
    change (mjoin (map encode_string (e :: es))) with (encode_string e ++ mjoin (map encode_string es)).
    unfold encode_string at 1. cbn [length]. rewrite !length_app, to_be_bytes_length. lia. }
  pose proof (repeat_reads (string_entry on_entry) encode_string string_ok on_entry entries st
    fuel (frame_new s) 0 (reads_string_entry on_entry) (string_entry_end on_entry)
    He Hf ltac:(by split) ltac:(lia) ltac:(lia)) as H.
  destruct (foldlM on_entry st entries) as [st'|]; [destruct H as [r' ->]|rewrite H]; done.
Qed.

(** ** The fuel is enough *)

Lemma repeat_fuel {S} (entry : S -> Reading (option S)) k s fuel r :
  (forall s, takes (entry s) 1 is_Some) -> stream_ok (inner r) -> size r < fuel ->
  repeat_until_end entry (fuel + k) s r = repeat_until_end entry fuel s r.
Proof.
  intros Hentry. revert s r. induction fuel as [|fuel IH]; intros s r Hok Hf; [lia|].
  cbn [Nat.add repeat_until_end]. unfold mbind, reading_bind.
  destruct (entry s r) as [[[[s'|] r']|]|] eqn:E; [|done..].
  destruct (Hentry s _ _ _ Hok E) as (Hok' & _ & Hlt). apply IH; [done|].
  specialize (Hlt ltac:(by eexists)). lia.
Qed.

Lemma takes_mono {A} (m : Reading A) k k' P : k' <= k -> takes m k P -> takes m k' P.
Proof. intros Hk Hm r a r' Hok H. destruct (Hm r a r' Hok H) as (? & ? & Hp). split_and!; [done|done|]. intros Ha. specialize (Hp Ha). lia. Qed.

(** A computation that keeps to the stream, whatever it returns. *)
Lemma takes_bind0 {A B} (m : Reading A) (f : A -> Reading B) k P :
  takes m k P -> (forall a, takes (f a) 0 (fun _ => True)) -> takes (m ≫= f) 0 (fun _ => True).
Proof.
  intros Hm Hf. apply (takes_bind m f 0 (fun _ => True)); [|done|done].
  intros r a r' Hok H. destruct (Hm r a r' Hok H) as (? & ? & _). split_and!; [done|done|lia].
Qed.

Lemma string_entry_takes {S} (on_entry : S -> bytes -> option S) s : takes (string_entry on_entry s) 1 is_Some.
Proof.
  apply (takes_mono _ 2); [lia|]. unfold string_entry. apply (takes_bind _ _ _ is_Some); [apply takes_u16_or_eof| |].
  - intros [len|]; [|apply takes_ret]. eapply takes_bind0; [apply takes_fill|]. intros buf.
    eapply takes_bind0; [apply takes_utf8|]. intros e. eapply takes_bind0; [apply takes_callback|].
    intros x. apply takes_ret.
  - intros [len|] r b r' H Hb; [done|]. injection H as <- <-. by destruct Hb.
Qed.

Lemma takes_family : takes read_family 1 is_Some.
Proof.
  intros r a r' Hok H. unfold read_family in H. unfold size.
  assert (Hb : forall s c s', stream_ok s -> read_family_byte s = Ok (c, s') ->
    stream_ok s' /\ length (contents s').1 + (if c then 1 else 0) <= length (contents s).1).
  { clear. induction s as [|[[|x c]| |] s IH]; intros o s' Hok H; cbn [read_family_byte] in H; try done.
    - by injection H as <- <-.
    - by apply Forall_cons in Hok as [? _].
    - apply Forall_cons in Hok as [_ Hok]. injection H as <- <-. destruct c as [|y c].
      + split; [done|]. cbn [contents]. destruct (contents s) as [b e]. cbn [fst]. rewrite length_app. simpl. lia.
      + split; [by constructor|]. cbn [contents]. destruct (contents s) as [b e]. cbn [fst]. rewrite !length_app. simpl. lia.
    - apply Forall_cons in Hok as [_ Hok]. by apply IH. }
  destruct (read_family_byte (inner r)) as [[[c|] s]|] eqn:E; [| |done];
    destruct (Hb _ _ _ Hok E) as [Hs Hle]; injection H as <- <-; cbn [inner]; split_and!; try done; try lia.
Qed.

Lemma ipcidr_entry_takes `{NN : IpNetNew} {S} (on_net : S -> IpNet -> option S) s :
  takes (ipcidr_entry on_net s) 1 is_Some.
Proof.
  assert (Hnet : forall f n w1 w2, takes (read_net f n w1 w2) 0 (fun _ => True)).
  { intros. eapply takes_bind0; [apply takes_fill|]. intros a. eapply takes_bind0.
    - eapply takes_bind0; [apply takes_fill|]. intros b. apply takes_ret.
    - intros p. case_match; [apply takes_ret|apply takes_throw]. }
  unfold ipcidr_entry. apply (takes_bind _ _ _ is_Some); [apply takes_family| |].
  - intros [f|]; [|apply takes_ret]. eapply takes_bind0; [do 2 (case_match; [apply Hnet|]); apply takes_throw|].
    intros net. eapply takes_bind0; [apply takes_callback|]. intros x. apply takes_ret.
  - intros [f|] r b r' H Hb; [done|]. injection H as <- <-. by destruct Hb.
Qed.

(** ** The header *)

Lemma parse_header_bytes tag n rest :
  (0 <= tag < 256)%Z ->
  parse_header (header_bytes tag n ++ rest) = Ok (mkHeader MRS_VERSION tag (n `mod` 4294967296), rest).
Proof.
  intros Ht. unfold parse_header.
  assert (Hlen : length (header_bytes tag n ++ rest) = 10 + length rest) by (by rewrite length_app).
  rewrite Hlen, (proj2 (Nat.ltb_ge _ 4)), (proj2 (Nat.ltb_ge _ 10)) by lia.
  rewrite bool_decide_eq_true_2 by done. cbn [negb].
  assert (Hd : forall k (a b : bytes), length a = k -> drop k (a ++ b) = b) by (intros k a b <-; apply drop_app_length).
  assert (Hk : forall k (a b : bytes), length a = k -> take k (a ++ b) = a) by (intros k a b <-; apply take_app_length).
  unfold header_bytes. rewrite <- !app_assoc.
  rewrite (Hd 4), (Hk 1) by (by rewrite ?to_be_bytes_length).
  rewrite (app_assoc MRS_MAGIC), (Hd 5), (Hk 1) by (by rewrite ?length_app, ?to_be_bytes_length).
  rewrite (app_assoc (MRS_MAGIC ++ _)), (Hd 6), (Hk 4) by (by rewrite ?length_app, ?to_be_bytes_length).
  rewrite (app_assoc ((MRS_MAGIC ++ _) ++ _)), (Hd 10) by (by rewrite ?length_app, ?to_be_bytes_length).
  rewrite !be_roundtrip. change (256 ^ Z.of_nat 1)%Z with 256%Z. change (256 ^ Z.of_nat 4)%Z with 4294967296%Z.
  rewrite (Z.mod_small tag) by done. reflexivity.
Qed.

End MrsCodec.
