(* ===== verification/RankSelect.v ===== *)
(** * Rank and select over a bitmap (crates/meow-rules/src/mrs_parser.rs)

    [DomainSetIndex]: the number of ones before each word, the count of zeros
    before a bit and the position of the n-th one. Both agree with counting
    over the bits one by one. *)

From S2P Require Import Prelude Strings Vec Bits.

Module RankSelect.

(** ** The index *)

Record DomainSetIndex := mkIndex { rank_ones_by_word : list nat }.

Fixpoint rank_loop (seen_ones : nat) (bits : list Z) : list nat :=
  match bits with
  | [] => [seen_ones]
  | word :: bits => seen_ones :: rank_loop (seen_ones + count_ones 64 word) bits
  end.

Definition index_new (bits : list Z) : DomainSetIndex := mkIndex (rank_loop 0 bits).

Definition count_zeros (ix : DomainSetIndex) (bits : list Z) (upto : nat) : nat :=
  let total_bits := length bits * 64 in
  let upto := Nat.min upto total_bits in
  let word := upto / 64 in
  let bit := upto mod 64 in
  let ones := default 0 (rank_ones_by_word ix !! word) in
  let ones :=
    if (0 <? bit) then
      match bits !! word with
      | Some v => ones + count_ones 64 (Z.land v (Z.shiftl 1 (Z.of_nat bit) - 1))
      | None => ones
      end
    else ones in
  upto - ones.

(** [remaining &= remaining.wrapping_sub(1)]. *)
Definition clear_lowest (w : Z) : Z := Z.land w (wrap64 (w - 1)).

Definition select_one (ix : DomainSetIndex) (bits : list Z) (nth : nat) : option nat :=
  match partition_point (fun ones => ones <=? nth) (rank_ones_by_word ix) with
  | 0 => None
  | S word =>
      w ← bits !! word;
      let remaining := Nat.iter (nth - default 0 (rank_ones_by_word ix !! word)) clear_lowest w in
      if (remaining =? 0)%Z then None else Some (word * 64 + Z.to_nat (trailing_zeros 64 remaining))
  end.

Definition get_bit (bits : list Z) (idx : nat) : bool :=
  match bits !! (idx / 64) with
  | Some word => negb (Z.land word (Z.shiftl 1 (Z.of_nat (idx mod 64))) =? 0)%Z
  | None => false
  end.

(** ** The bits one by one *)

Definition word_ok (w : Z) : Prop := is_u64 w.

(** The positions of the ones among the low [n] bits of a word. *)
Definition ones (n : nat) (w : Z) : list nat := List.filter (fun i => Z.testbit w (Z.of_nat i)) (seq 0 n).

(** The positions of the ones of a bitmap that starts at word [base]. *)
Fixpoint positions (base : nat) (bits : list Z) : list nat :=
  match bits with
  | [] => []
  | w :: bits => ((fun j => base * 64 + j) <$> ones 64 w) ++ positions (S base) bits
  end.

Definition bit_at (bits : list Z) (i : nat) : bool := from_option (fun w => Z.testbit w (Z.of_nat (i mod 64))) false (bits !! (i / 64)).

Lemma count_ones_length n w : count_ones n w = length (ones n w).
Proof.
  unfold ones. induction n as [|n IH]; [done|].
  rewrite seq_S, List.filter_app, length_app. cbn [Nat.add List.filter count_ones]. rewrite IH. case_match; simpl; lia.
Qed.

Lemma ones_mask n w : n <= 64 -> ones 64 (Z.land w (Z.shiftl 1 (Z.of_nat n) - 1)) = ones n w.
Proof.
  intros Hn. unfold ones. replace 64 with (n + (64 - n)) by lia. rewrite seq_app, List.filter_app.
  replace (Z.shiftl 1 (Z.of_nat n) - 1)%Z with (Z.ones (Z.of_nat n)).
  2: { rewrite Z.ones_equiv, Z.shiftl_1_l. lia. }
  assert (E : List.filter (fun i => Z.testbit (Z.land w (Z.ones (Z.of_nat n))) (Z.of_nat i)) (seq (0 + n) (64 - n)) = []).
  { assert (H : forall l, (forall i, In i l -> n <= i) ->
      List.filter (fun i => Z.testbit (Z.land w (Z.ones (Z.of_nat n))) (Z.of_nat i)) l = []).
    { induction l as [|i l IH]; intros Hl; [done|]. cbn [List.filter].
      pose proof (Hl i (or_introl eq_refl)). rewrite Z.land_spec, Z.ones_spec_high, andb_false_r by lia.
      apply IH. intros i' Hi'. apply Hl. by right. }
    apply H. intros i Hi%in_seq. lia. }
  rewrite E, app_nil_r.
  apply List.filter_ext_in. intros i Hi%in_seq. rewrite Z.land_spec, Z.ones_spec_low by lia. by rewrite andb_true_r.
Qed.

(** Clearing the lowest one drops the first position. *)
Lemma clear_lowest_bits w t :
  word_ok w -> (0 <= t < 64)%Z -> Z.testbit w t = true -> (forall j, (0 <= j < t)%Z -> Z.testbit w j = false) ->
  forall j, (0 <= j)%Z -> Z.testbit (clear_lowest w) j = Z.testbit w j && negb (j =? t)%Z.
Proof.
  intros Hw Ht Hbit Hlow j Hj. unfold word_ok, is_u64 in Hw.
  assert (H1 : (0 < w)%Z) by (destruct (Z.eq_dec w 0%Z) as [->|]; [by rewrite Z.bits_0 in Hbit|lia]).
  unfold clear_lowest, wrap64. rewrite Z.mod_small, Z.land_spec by lia.
  destruct (Z.lt_trichotomy j t) as [Hlt|[->|Hgt]].
  - by rewrite Hlow by lia.
  - rewrite Hbit, Z.eqb_refl. cbn [andb negb]. rewrite Z.testbit_odd, Z.shiftr_div_pow2 by lia.
    destruct (low_zero_divide w t ltac:(lia) Hlow) as [q Hq].
    assert (Hp : (0 < 2 ^ t)%Z) by (apply Z.pow_pos_nonneg; lia).
    rewrite Hq, Z.mul_pow2_bits, Z.sub_diag, Z.bit0_odd in Hbit by lia.
    assert (E : ((w - 1) / 2 ^ t = q - 1)%Z) by (symmetry; apply (Z.div_unique _ _ _ (2 ^ t - 1)); lia).
    by rewrite E, Z.odd_sub, Hbit.
  - rewrite (proj2 (Z.eqb_neq j t)), andb_true_r by lia. rewrite !(Z.testbit_odd _ j), !Z.shiftr_div_pow2 by lia.
    assert (Hp : (0 < 2 ^ j)%Z) by (apply Z.pow_pos_nonneg; lia).
    assert (Hm : (w `mod` 2 ^ j <> 0)%Z).
    { intros [q Hq]%Z.mod_divide; [|lia]. by rewrite Hq, Z.mul_pow2_bits_low in Hbit by lia. }
    pose proof (Z.mod_pos_bound w (2 ^ j) Hp). pose proof (Z.div_mod w (2 ^ j) ltac:(lia)).
    assert (E : ((w - 1) / 2 ^ j = w / 2 ^ j)%Z) by (symmetry; apply (Z.div_unique _ _ _ (w `mod` 2 ^ j - 1)); lia).
    rewrite E. by destruct (Z.odd _).
Qed.

Lemma clear_lowest_ok w : word_ok w -> word_ok (clear_lowest w).
Proof.
  unfold word_ok, is_u64, clear_lowest. intros Hw. split; [apply Z.land_nonneg; left; lia|].
  destruct (Z.eq_dec (Z.land w (wrap64 (w - 1))) 0%Z) as [->|Hn]; [lia|].
  apply Z.log2_lt_pow2; [pose proof (Z.land_nonneg w (wrap64 (w - 1))); lia|].
  eapply Z.le_lt_trans; [apply Z.log2_land; [lia|]|].
  - unfold wrap64. apply Z.mod_pos_bound. lia.
  - assert (w <> 0)%Z by (intros ->; by rewrite Z.land_0_l in Hn).
    eapply Z.le_lt_trans; [apply Z.le_min_l|]. apply Z.log2_lt_pow2; lia.
Qed.

(** The first one of a word is its trailing zeros. *)
Lemma ones_first w :
  word_ok w ->
  match ones 64 w with
  | [] => w = 0%Z
  | j :: rest => w <> 0%Z /\ j = Z.to_nat (trailing_zeros 64 w) /\ ones 64 (clear_lowest w) = rest
  end.
Proof.
  intros Hw. destruct (trailing_zeros_from_spec 64 0 w ltac:(lia)) as (Hb & Hlow & Hset).
  fold (trailing_zeros 64 w) in Hb, Hlow, Hset. set (t := trailing_zeros 64 w) in *.
  destruct (Z.lt_ge_cases t 64) as [Hlt|Hge].
  - assert (Hbit : Z.testbit w t = true) by (apply Hset; lia).
    assert (Hseq : seq 0 64 = seq 0 (Z.to_nat t) ++ Z.to_nat t :: seq (S (Z.to_nat t)) (63 - Z.to_nat t)).
    { replace 64 with (Z.to_nat t + S (63 - Z.to_nat t)) at 1 by lia. by rewrite seq_app. }
    assert (Hnil : forall f, (forall i, (0 <= i < t)%Z -> f i = false) ->
      List.filter (fun i => f (Z.of_nat i)) (seq 0 (Z.to_nat t)) = []).
    { intros f Hf. assert (H : forall l, (forall i, In i l -> i < Z.to_nat t) ->
        List.filter (fun i => f (Z.of_nat i)) l = []).
      { induction l as [|i l IH]; intros Hl; [done|]. cbn [List.filter]. pose proof (Hl i (or_introl eq_refl)).
        rewrite Hf by lia. apply IH. intros i' Hi'. apply Hl. by right. }
      apply H. intros i Hi%in_seq. lia. }
    pose proof (clear_lowest_bits w t Hw ltac:(lia) Hbit Hlow) as Hc.
    unfold ones. rewrite Hseq, !List.filter_app. cbn [List.filter].
    rewrite (Hnil (Z.testbit w)) by auto. rewrite Z2Nat.id, Hbit by lia. cbn [app].
    split; [intros ->; by rewrite Z.bits_0 in Hbit|]. split; [done|].
    rewrite (Hnil (Z.testbit (clear_lowest w))).
    2: { intros i Hi. rewrite Hc, Hlow by lia. done. }
    rewrite Hc, Z.eqb_refl, andb_false_r by lia. cbn [app].
    apply List.filter_ext_in. intros i Hi%in_seq. rewrite Hc by lia.
    rewrite (proj2 (Z.eqb_neq _ t)) by lia. apply andb_true_r.
  - assert (Hz : w = 0%Z).
    { unfold word_ok, is_u64 in Hw. apply Z.bits_inj'. intros j Hj. rewrite Z.bits_0.
      destruct (Z.lt_ge_cases j 64); [apply Hlow; lia|].
      rewrite <- (Z.mod_small w (2 ^ 64)) by lia. by apply Z.mod_pow2_bits_high. }
    rewrite Hz. reflexivity.
Qed.

Lemma ones_iter k w : word_ok w -> word_ok (Nat.iter k clear_lowest w) /\ ones 64 (Nat.iter k clear_lowest w) = drop k (ones 64 w).
Proof.
  intros Hw. induction k as [|k [IHw IH]]; [split; [exact Hw|by rewrite drop_0]|].
  change (Nat.iter (S k) clear_lowest w) with (clear_lowest (Nat.iter k clear_lowest w)). split; [by apply clear_lowest_ok|].
  pose proof (ones_first _ IHw) as H. rewrite IH in H.
  destruct (drop k (ones 64 w)) as [|j rest] eqn:E.
  - rewrite H. assert (Hd : drop (S k) (ones 64 w) = []).
    { apply drop_ge. apply (f_equal length) in E. rewrite length_drop in E. simpl in E. lia. }
    rewrite Hd. reflexivity.
  - destruct H as (_ & _ & ->). replace (S k) with (k + 1) by lia. by rewrite <- drop_drop, E.
Qed.

(** ** Ranks *)

Lemma positions_app base a b : positions base (a ++ b) = positions base a ++ positions (base + length a) b.
Proof.
  revert base. induction a as [|w a IH]; intros base; cbn [positions app length]; [by rewrite Nat.add_0_r|].
  rewrite IH, <- app_assoc. do 3 f_equal. lia.
Qed.

Lemma length_positions base w : length ((fun j => base * 64 + j) <$> ones 64 w) = count_ones 64 w.
Proof. by rewrite length_fmap, count_ones_length. Qed.

Lemma rank_loop_lookup s base bits i :
  i <= length bits -> rank_loop s bits !! i = Some (s + length (positions base (take i bits))).
Proof.
  revert s base i. induction bits as [|w bits IH]; intros s base i Hi; destruct i as [|i]; cbn [rank_loop take positions length] in *.
  1,3: cbn; f_equal; lia.
  - lia.
  - cbn [lookup list_lookup]. rewrite (IH _ (S base)) by lia. f_equal. rewrite length_app, length_positions. lia.
Qed.

Lemma rank_loop_length s bits : length (rank_loop s bits) = S (length bits).
Proof. revert s. induction bits as [|w bits IH]; intros s; cbn [rank_loop length]; [done|]. by rewrite IH. Qed.

Section Bitmap.
Variable bits : list Z.
Hypothesis bits_ok : Forall word_ok bits.

Let rank (i : nat) : nat := length (positions 0 (take i bits)).

Lemma rank_lookup i : i <= length bits -> rank_ones_by_word (index_new bits) !! i = Some (rank i).
Proof. intros Hi. cbn. by rewrite (rank_loop_lookup 0 0). Qed.

Lemma rank_step i w : bits !! i = Some w -> rank (S i) = rank i + length (ones 64 w).
Proof.
  intros H. unfold rank. rewrite (take_S_r _ _ _ H), positions_app, length_app. cbn [positions].
  by rewrite app_nil_r, length_fmap.
Qed.

Lemma rank_mono i j : i <= j -> j <= length bits -> rank i <= rank j.
Proof.
  intros Hij Hj. induction Hij as [|j Hij IH]; [done|].
  destruct (lookup_lt_is_Some_2 bits j) as [w Hw]; [lia|]. rewrite (rank_step _ _ Hw). specialize (IH ltac:(lia)). lia.
Qed.

(** The word that holds the n-th one, by binary search over the ranks. *)
Lemma rank_search nth :
  exists word, partition_point (fun r => r <=? nth) (rank_ones_by_word (index_new bits)) = S word /\
    word <= length bits /\ rank word <= nth /\ (word < length bits -> nth < rank (S word)).
Proof.
  pose proof (partition_point_spec (fun r => r <=? nth) (rank_ones_by_word (index_new bits))) as Hpp.
  assert (Hlen : length (rank_ones_by_word (index_new bits)) = S (length bits)) by apply rank_loop_length.
  destruct Hpp as (Hle & Hlo & Hhi).
  { intros i j x y Hij Hx Hy Hyn%Nat.leb_le. apply Nat.leb_le.
    assert (Hj : j <= length bits) by (apply lookup_lt_Some in Hy; lia).
    rewrite rank_lookup in Hx, Hy by lia. simplify_eq. pose proof (rank_mono i j ltac:(lia) Hj). lia. }
  set (pp := partition_point _ _) in *.
  destruct pp as [|word].
  { specialize (Hhi 0 (rank 0) ltac:(lia) ltac:(by apply rank_lookup; lia)).
    apply Nat.leb_gt in Hhi. unfold rank in Hhi. simpl in Hhi. lia. }
  exists word. split; [done|]. split; [lia|]. split.
  - apply Nat.leb_le, (Hlo word); [lia|]. apply rank_lookup. lia.
  - intros Hw. apply Nat.leb_gt, (Hhi (S word)); [lia|]. apply rank_lookup. lia.
Qed.

Lemma select_one_exact nth : select_one (index_new bits) bits nth = positions 0 bits !! nth.
Proof.
  unfold select_one. destruct (rank_search nth) as (word & -> & Hw & Hlo & Hhi).
  destruct (bits !! word) as [w|] eqn:Ew; cbn [mbind option_bind].
  2: { apply lookup_ge_None in Ew. symmetry. apply lookup_ge_None. unfold rank in Hlo. by rewrite take_ge in Hlo. }
  pose proof (lookup_lt_Some _ _ _ Ew) as Hlt. specialize (Hhi Hlt). rewrite (rank_step _ _ Ew) in Hhi.
  rewrite rank_lookup by lia. cbn [default from_option id].
  rewrite <- (take_drop_middle bits word w Ew). rewrite positions_app. cbn [positions].
  rewrite lookup_app_r by (fold (rank word); lia). fold (rank word).
  rewrite lookup_app_l by (rewrite length_fmap; lia).
  rewrite length_take, Nat.min_l, Nat.add_0_l by lia.
  rewrite list_lookup_fmap.
  rewrite Forall_forall in bits_ok. pose proof (bits_ok w (list_elem_of_lookup_2 _ _ _ Ew)) as Hwok.
  set (k := nth - rank word). destruct (ones_iter k w Hwok) as [Hk E]. pose proof (ones_first _ Hk) as Hf.
  rewrite E in Hf. destruct (drop k (ones 64 w)) as [|j rest] eqn:Ed.
  { apply (f_equal length) in Ed. rewrite length_drop in Ed. simpl in Ed. unfold k in Ed. lia. }
  destruct Hf as (Hne & Hj & _). rewrite (proj2 (Z.eqb_neq _ 0)) by done.
  assert (El : ones 64 w !! k = Some j) by (rewrite <- (Nat.add_0_r k), <- lookup_drop, Ed; done).
  rewrite El. cbn. by rewrite Hj.
Qed.

(** ** Counting *)

Lemma bit_at_word base j w : bits !! base = Some w -> j < 64 -> bit_at bits (base * 64 + j) = Z.testbit w (Z.of_nat j).
Proof.
  intros Hw Hj. unfold bit_at.
  replace ((base * 64 + j) / 64) with base by (rewrite Nat.div_add_l, Nat.div_small by lia; lia).
  replace ((base * 64 + j) mod 64) with j by (rewrite Nat.add_comm, Nat.Div0.mod_add, Nat.mod_small by lia; done).
  by rewrite Hw.
Qed.

Lemma ones_seq base n w :
  bits !! base = Some w -> n <= 64 ->
  List.filter (bit_at bits) (seq (base * 64) n) = ((fun j => base * 64 + j) <$> ones n w).
Proof.
  intros Hw Hn. rewrite <- (Nat.add_0_r (base * 64)) at 1. rewrite <- fmap_add_seq.
  change (Nat.add (base * 64) <$> seq 0 n) with (map (Nat.add (base * 64)) (seq 0 n)).
  rewrite List.filter_map_swap. unfold ones. f_equal. apply List.filter_ext_in.
  intros j Hj%in_seq. apply bit_at_word; [done|lia].
Qed.

Lemma positions_seq i : i <= length bits -> List.filter (bit_at bits) (seq 0 (i * 64)) = positions 0 (take i bits).
Proof.
  induction i as [|i IH]; intros Hi; [done|].
  destruct (lookup_lt_is_Some_2 bits i) as [w Hw]; [lia|].
  replace (S i * 64) with (i * 64 + 64) by lia. rewrite seq_app, List.filter_app, IH by lia.
  cbn [Nat.add]. rewrite (ones_seq _ _ _ Hw), (take_S_r _ _ _ Hw), positions_app by lia. cbn [positions].
  rewrite length_take, Nat.min_l, app_nil_r by lia. done.
Qed.

Lemma count_split (f : nat -> bool) l :
  length (List.filter f l) + length (List.filter (fun i => negb (f i)) l) = length l.
Proof. induction l as [|x l IH]; [done|]. cbn [List.filter length]. destruct (f x); cbn [negb length]; lia. Qed.

Lemma count_zeros_exact upto :
  count_zeros (index_new bits) bits upto =
  length (List.filter (fun i => negb (bit_at bits i)) (seq 0 (Nat.min upto (length bits * 64)))).
Proof.
  unfold count_zeros. set (n := Nat.min upto (length bits * 64)).
  pose proof (count_split (bit_at bits) (seq 0 n)) as Hs. rewrite length_seq in Hs.
  assert (Hn : n <= length bits * 64) by (unfold n; lia).
  pose proof (Nat.div_mod n 64 ltac:(lia)) as Hdm. pose proof (Nat.mod_upper_bound n 64 ltac:(lia)) as Hm.
  set (word := n / 64) in *. set (bit := n mod 64) in *.
  rewrite rank_lookup by lia. cbn [default from_option id].
  assert (Hones : length (List.filter (bit_at bits) (seq 0 n)) =
    if 0 <? bit then match bits !! word with
      | Some v => rank word + count_ones 64 (Z.land v (Z.shiftl 1 (Z.of_nat bit) - 1))
      | None => rank word end else rank word).
  { replace n with (word * 64 + bit) by lia.
    rewrite seq_app, List.filter_app, positions_seq, length_app by lia. fold (rank word). cbn [Nat.add].
    destruct (Nat.ltb_spec 0 bit) as [Hb|Hb].
    - destruct (lookup_lt_is_Some_2 bits word) as [w Hw]; [lia|].
      rewrite Hw, (ones_seq _ _ _ Hw), length_fmap, count_ones_length, ones_mask by lia. done.
    - replace bit with 0 by lia. simpl. lia. }
  rewrite <- Hones. lia.
Qed.

End Bitmap.

Lemma get_bit_exact bits idx : get_bit bits idx = bit_at bits idx.
Proof.
  unfold get_bit, bit_at. destruct (bits !! (idx / 64)) as [w|]; [|done]. cbn [from_option].
  set (k := Z.of_nat (idx mod 64)). assert (0 <= k)%Z by lia. rewrite Z.shiftl_1_l.
  destruct (Z.testbit w k) eqn:E.
  - apply negb_true_iff, Z.eqb_neq. intros H0. apply (f_equal (fun z => Z.testbit z k)) in H0.
    by rewrite Z.land_spec, E, Z.pow2_bits_true, Z.bits_0 in H0 by done.
  - apply negb_false_iff, Z.eqb_eq. apply Z.bits_inj'. intros j Hj. rewrite Z.land_spec, Z.bits_0.
    destruct (Z.eq_dec j k) as [->|Hne]; [by rewrite E|]. rewrite Z.pow2_bits_false by done. apply andb_false_r.
Qed.

Lemma count_zeros_bits bits n :
  count_zeros (index_new bits) bits n =
    length (List.filter (fun i => negb (get_bit bits i)) (seq 0 (Nat.min n (length bits * 64)))).
Proof. rewrite count_zeros_exact. f_equal. apply List.filter_ext. intros i. by rewrite get_bit_exact. Qed.

Lemma select_one_bits bits n :
  Forall word_ok bits ->
  select_one (index_new bits) bits n = List.filter (get_bit bits) (seq 0 (length bits * 64)) !! n.
Proof.
  intros Hok. rewrite select_one_exact by done. f_equal. rewrite (List.filter_ext (get_bit bits) (bit_at bits)).
  - rewrite positions_seq by done. by rewrite take_ge.
  - intros i. apply get_bit_exact.
Qed.

(** The rank index of a succinct domain set is exact. Over any bitmap of
    64-bit words [count_zeros] is the number of zero bits before a position,
    counted up to the end of the bitmap, and [select_one] the position of
    the n-th set bit, or nothing if there are fewer: the cached ranks, the
    masked word and the binary search give what counting bit by bit gives. *)
Theorem rank_select_exact bits n :
  Forall word_ok bits ->
  count_zeros (index_new bits) bits n =
    length (List.filter (fun i => negb (get_bit bits i)) (seq 0 (Nat.min n (length bits * 64)))) /\
  select_one (index_new bits) bits n = List.filter (get_bit bits) (seq 0 (length bits * 64)) !! n.
Proof. intros Hok. split; [apply count_zeros_bits|by apply select_one_bits]. Qed.

(** Ones at 1, 3 and 65. *)
Lemma rank_select_exact_witness :
  Forall word_ok [10; 2]%Z /\
  count_zeros (index_new [10; 2]%Z) [10; 2]%Z 4 = 2 /\ select_one (index_new [10; 2]%Z) [10; 2]%Z 2 = Some 65.
Proof.
  assert (Hok : Forall word_ok [10; 2]%Z) by (repeat constructor; done).
  split; [exact Hok|]. split.
  - rewrite (proj1 (rank_select_exact _ 4 Hok)). vm_compute. reflexivity.
  - rewrite (proj2 (rank_select_exact _ 2 Hok)). vm_compute. reflexivity.
Defined.

End RankSelect.
