(* ===== verification/DomainSet.v ===== *)
(** * Upstream rule sets (crates/meow-rules/src/mrs_parser.rs)

    [ByteReader], the frame of an upstream file, and the walk over a succinct
    domain set with its explicit stack. The walk is shown to be the recursive
    walk of the label graph, to end on any input, and to keep its bounds. *)

From S2P Require Import Prelude Strings Vec Bits Ip MrsRanges Stream MrsCodec RankSelect.

Module DomainSet.
Import Stream MrsCodec RankSelect.

(** ** [ByteReader] *)

Record ByteReader := mkBytes { br_data : bytes; br_pos : Z }.

(** [br_data] is what is left of the slice. *)
Definition bytes_new (data : bytes) : ByteReader := mkBytes data 0.

Definition need (r : ByteReader) (what : bytes) (n : Z) : result MrsError unit :=
  let have := Z.of_nat (length (br_data r)) in
  if (have <? n)%Z then Err (Truncated what (br_pos r) n have) else Ok tt.

Definition read_slice (r : ByteReader) (what : bytes) (n : Z) : result MrsError (bytes * ByteReader) :=
  _ ← need r what n;
  Ok (take (Z.to_nat n) (br_data r), mkBytes (drop (Z.to_nat n) (br_data r)) (br_pos r + n)).

Definition br_u8 (r : ByteReader) (what : bytes) : result MrsError (Z * ByteReader) :=
  '(b, r) ← read_slice r what 1; Ok (from_be_bytes b, r).
Definition br_u64 (r : ByteReader) (what : bytes) : result MrsError (Z * ByteReader) :=
  '(b, r) ← read_slice r what 8; Ok (from_be_bytes b, r).
Definition br_i64 (r : ByteReader) (what : bytes) : result MrsError (Z * ByteReader) :=
  '(b, r) ← read_slice r what 8; Ok (to_i64 (from_be_bytes b), r).

Fixpoint read_words (n : nat) (r : ByteReader) (what : bytes) : result MrsError (list Z * ByteReader) :=
  match n with
  | 0 => Ok ([], r)
  | S n => '(w, r) ← br_u64 r what; '(ws, r) ← read_words n r what; Ok (w :: ws, r)
  end.

(** [usize] is 64 bits wide: [checked_mul] overflows at 2^64. *)
Definition read_u64_vec (r : ByteReader) (what : bytes) : result MrsError (list Z * ByteReader) :=
  '(declared, r) ← br_i64 r what;
  if (declared <? 1)%Z then Err (InvalidLength what declared)
  else if (2 ^ 64 <=? declared * 8)%Z then Err (InvalidLength what declared)
  else
    _ ← need r what (declared * 8);
    read_words (Z.to_nat declared) r what.

(** ** The walk *)

Definition MAX_DOMAIN_SET_ENTRIES : Z := 4194304.
Definition MAX_DOMAIN_SET_BYTES : Z := 268435456.
Definition MAX_DOMAIN_SET_DEPTH : Z := 4096.

Record DomainSetTraversal := mkTraversal {
  leaves : list Z;
  label_bitmap : list Z;
  label_index : DomainSetIndex;
  labels : bytes;
}.

(** The top of the stack is its head. [emitted] are the keys handed over so
    far. *)
Record WalkState := mkWalk {
  stack : list (nat * nat);
  current : bytes;
  emitted : list bytes;
  out_count : Z;
  out_bytes : Z;
}.

(** [Stop keys r]: the keys handed over before the walk returned [r]. *)
Inductive Step := Continue (s : WalkState) | Stop (keys : list bytes) (r : result MrsError unit).

Section Walk.
Variable t : DomainSetTraversal.

(** The edge at bit [idx] of node [node_id]: its label, and the node it leads
    to with the bit its edges start at. *)
Definition child (node_id idx : nat) : option (ascii * nat * nat) :=
  if get_bit (label_bitmap t) idx then None
  else
    let label_idx := idx - node_id in
    let next_node_id := count_zeros (label_index t) (label_bitmap t) (idx + 1) in
    label ← labels t !! label_idx;
    prev_terminator ← select_one (label_index t) (label_bitmap t) (next_node_id - 1);
    Some (label, next_node_id, prev_terminator + 1).

Variables max_entries max_bytes max_depth : Z.

Definition walk_step (s : WalkState) : Step :=
  match stack s with
  | [] => Stop (emitted s) (Ok tt)
  | (node_id, idx) :: below =>
      match child node_id idx with
      | None =>
          Continue (mkWalk below (if below is [] then current s else take (length (current s) - 1) (current s))
            (emitted s) (out_count s) (out_bytes s))
      | Some (label, next_node_id, next_bm_idx) =>
          let cur := current s ++ [label] in
          let leaf := get_bit (leaves t) next_node_id in
          let keys := if leaf then emitted s ++ [cur] else emitted s in
          if leaf && ((max_entries <=? out_count s) || (max_bytes <? out_bytes s + Z.of_nat (length cur)))%Z then
            Stop (emitted s) (Err (InvalidLength (b! "domain_set_output") (out_count s)))
          else if (max_depth <=? Z.of_nat (length (stack s)))%Z then
            Stop keys (Err (InvalidLength (b! "domain_set_depth") (Z.of_nat (length (stack s)))))
          else
            Continue (mkWalk ((next_node_id, next_bm_idx) :: (node_id, idx + 1) :: below) cur keys
              (if leaf then out_count s + 1 else out_count s)%Z
              (if leaf then out_bytes s + Z.of_nat (length cur) else out_bytes s)%Z)
      end
  end.

Definition walk_start (root_node root_bm : nat) : WalkState :=
  if get_bit (leaves t) root_node then mkWalk [(root_node, root_bm)] [] [[]] 1 0
  else mkWalk [(root_node, root_bm)] [] [] 0 0.

(** Up to [2 ^ k] rounds. *)
Fixpoint walk_run (k : nat) (s : WalkState) : Step :=
  match k with
  | 0 => walk_step s
  | S k => match walk_run k s with Continue s => walk_run k s | stop => stop end
  end.

(** A frame has at most this many rounds left. *)
Definition frame_bound : nat := length (label_bitmap t) * 64 + length (labels t) + 1.
Definition walk_fuel : nat := Z.to_nat max_depth * Nat.log2_up (frame_bound + 1).

(** [None] is a walk that does not end. *)
Definition traverse_bounded (root_node root_bm : nat) : option (list bytes * result MrsError unit) :=
  match walk_run walk_fuel (walk_start root_node root_bm) with Stop keys r => Some (keys, r) | Continue _ => None end.

End Walk.

Definition traverse (t : DomainSetTraversal) : option (list bytes * result MrsError unit) :=
  traverse_bounded t MAX_DOMAIN_SET_ENTRIES MAX_DOMAIN_SET_BYTES MAX_DOMAIN_SET_DEPTH 0 0.

(** ** The walk ends *)

Section Ends.
Variable t : DomainSetTraversal.
Variables max_entries max_bytes max_depth : Z.
Hypothesis depth_pos : (1 <= max_depth)%Z.
Hypothesis index_ok : label_index t = index_new (label_bitmap t).

Let B : nat := frame_bound t.
Let D : nat := Z.to_nat max_depth.

(** The rounds a frame has left before its labels run out. *)
Definition frame_left (f : nat * nat) : nat := S (f.1 + length (labels t) - f.2).

(** Frames deeper down weigh more; the frame at depth [d] from the bottom
    weighs [(B + 1) ^ (D - d)]. *)
Fixpoint weight (st : list (nat * nat)) : nat :=
  match st with
  | [] => 0
  | f :: below => frame_left f * (B + 1) ^ (D - S (length below)) + weight below
  end.

Lemma count_zeros_le n : count_zeros (label_index t) (label_bitmap t) n <= length (label_bitmap t) * 64.
Proof.
  rewrite index_ok, count_zeros_exact by done. etrans; [apply List.filter_length_le|]. rewrite length_seq. lia.
Qed.

Lemma child_left node idx label next bm :
  child t node idx = Some (label, next, bm) ->
  frame_left (next, bm) <= B /\ S (frame_left (node, idx + 1)) = frame_left (node, idx).
Proof.
  unfold child. case_match; [done|].
  intros (l & Hl%lookup_lt_Some & (p & Hp & [= <- <- <-])%bind_Some)%bind_Some.
  pose proof (count_zeros_le (idx + 1)). unfold frame_left, B, frame_bound. cbn [fst snd]. lia.
Qed.

Definition shallow (s : WalkState) : Prop := length (stack s) <= D.

Lemma walk_step_weight s s' :
  shallow s -> walk_step t max_entries max_bytes max_depth s = Continue s' ->
  shallow s' /\ weight (stack s') < weight (stack s).
Proof.
  unfold shallow, walk_step. intros Hs. destruct (stack s) as [|[node idx] below] eqn:Est; [done|].
  assert (Hpow : forall k, 0 < (B + 1) ^ k) by (intros k; apply Nat.neq_0_lt_0, Nat.pow_nonzero; lia).
  destruct (child t node idx) as [[[label next] bm]|] eqn:Ec.
  - case_match; [done|]. case_match eqn:Ed; [done|]. intros [= <-]. cbn [stack length weight].
    apply Z.leb_gt in Ed. cbn [length] in Hs, Ed.
    destruct (child_left _ _ _ _ _ Ec) as [Hn Hi].
    assert (Hd : S (S (length below)) <= D) by (unfold D; lia). split; [lia|].
    assert (HD : D - S (length below) = S (D - S (S (length below)))) by lia.
    rewrite <- Hi, HD. set (e := D - S (S (length below))) in *. cbn [Nat.pow].
    specialize (Hpow e). nia.
  - intros [= <-]. cbn [stack length weight]. cbn [length] in Hs. split; [lia|].
    specialize (Hpow (D - S (length below))). unfold frame_left. nia.
Qed.

(** [2 ^ k] rounds end if the weight is not more. *)
Lemma walk_run_weight k s :
  shallow s ->
  match walk_run t max_entries max_bytes max_depth k s with
  | Continue s' => shallow s' /\ weight (stack s') + 2 ^ k <= weight (stack s)
  | Stop _ _ => True
  end.
Proof.
  revert s. induction k as [|k IH]; intros s Hs; cbn [walk_run].
  - destruct (walk_step _ _ _ _ s) as [s'|] eqn:E; [|done].
    destruct (walk_step_weight _ _ Hs E) as [? ?]. split; [done|]. simpl. lia.
  - pose proof (IH s Hs) as H1. destruct (walk_run _ _ _ _ k s) as [s1|]; [|done]. destruct H1 as [Hs1 Hw1].
    pose proof (IH s1 Hs1) as H2. destruct (walk_run _ _ _ _ k s1) as [s2|]; [|done]. destruct H2 as [Hs2 Hw2].
    split; [done|]. cbn [Nat.pow]. lia.
Qed.

Lemma start_stack root_node root_bm : stack (walk_start t root_node root_bm) = [(root_node, root_bm)].
Proof. unfold walk_start. by case_match. Qed.

Lemma traverse_ends root_bm :
  exists r, traverse_bounded t max_entries max_bytes max_depth 0 root_bm = Some r.
Proof.
  unfold traverse_bounded.
  pose proof (walk_run_weight (walk_fuel t max_depth) (walk_start t 0 root_bm)) as H.
  destruct (walk_run _ _ _ _ _ _) as [s'|keys r]; [|by exists (keys, r)]. exfalso.
  unfold shallow in H. rewrite start_stack in H. cbn [length weight] in H.
  specialize (H ltac:(unfold D; lia)) as [_ H].
  assert (Hf : frame_left (0, root_bm) <= B) by (unfold frame_left, B, frame_bound; cbn [fst snd]; lia).
  assert (Hp : (B + 1) ^ D <= 2 ^ walk_fuel t max_depth).
  { unfold walk_fuel. fold B. fold D. rewrite Nat.mul_comm, Nat.pow_mul_r.
    apply Nat.pow_le_mono_l. apply Nat.log2_up_spec. unfold B, frame_bound. lia. }
  assert (HD : D = S (D - 1)) by (unfold D; lia). rewrite HD in Hp at 1. cbn [Nat.pow] in Hp.
  assert (0 < (B + 1) ^ (D - 1)) by (apply Nat.neq_0_lt_0, Nat.pow_nonzero; lia). nia.
Qed.

End Ends.

(** ** The keys of the walk *)

Section Keys.
Variable t : DomainSetTraversal.

(** The recursive walk: the keys below bit [idx] of node [node], each as the
    labels from that node on, within [h] levels. *)
Inductive emits : nat -> nat -> nat -> list bytes -> Prop :=
| emits_end h node idx : child t node idx = None -> emits (S h) node idx []
| emits_edge h node idx label next bm sub rest :
    child t node idx = Some (label, next, bm) ->
    emits h next bm sub -> emits (S h) node (idx + 1) rest ->
    emits (S h) node idx ((if get_bit (leaves t) next then [[label]] else []) ++ (cons label <$> sub) ++ rest).

Definition root_key (node : nat) : list bytes := if get_bit (leaves t) node then [[]] else [].

Definition total (ks : list bytes) : nat := length (mjoin ks).

Variables max_entries max_bytes max_depth : Z.

Definition within (ks : list bytes) : Prop :=
  (Z.of_nat (length ks) <= max_entries /\ Z.of_nat (total ks) <= max_bytes)%Z.

(** [eventual s (keys, r)]: the rounds from [s] stop with them. *)
Inductive eventual : WalkState -> list bytes * result MrsError unit -> Prop :=
| eventual_stop s keys r :
    walk_step t max_entries max_bytes max_depth s = Stop keys r -> eventual s (keys, r)
| eventual_step s s' r :
    walk_step t max_entries max_bytes max_depth s = Continue s' -> eventual s' r -> eventual s r.

Lemma walk_run_eventual k s :
  match walk_run t max_entries max_bytes max_depth k s with
  | Stop keys r => eventual s (keys, r)
  | Continue s' => forall r, eventual s' r -> eventual s r
  end.
Proof.
  revert s. induction k as [|k IH]; intros s; cbn [walk_run].
  - destruct (walk_step _ _ _ _ s) eqn:E; [intros r; by apply eventual_step|by apply eventual_stop].
  - pose proof (IH s) as H1. destruct (walk_run _ _ _ _ k s) as [s1|]; [|done].
    pose proof (IH s1) as H2. destruct (walk_run _ _ _ _ k s1); auto.
Qed.

Let D : nat := Z.to_nat max_depth.

(** What the frames of a stack have left to hand over. *)
Fixpoint owed (st : list (nat * nat)) (path : bytes) (ks : list bytes) : Prop :=
  match st with
  | [] => ks = []
  | (node, idx) :: below =>
      exists k1 k2, ks = (app path <$> k1) ++ k2 /\ emits (D - length below) node idx k1 /\
        owed below (take (length path - 1) path) k2
  end.

(** [current] holds a label per frame above the root, and the counters are
    those of the keys handed over. *)
Record walk_inv (s : WalkState) : Prop := {
  inv_current : length (current s) = length (stack s) - 1;
  inv_depth : length (stack s) <= D;
  inv_count : out_count s = Z.of_nat (length (emitted s));
  inv_bytes : out_bytes s = Z.of_nat (total (emitted s));
  inv_within : within (emitted s);
}.

Lemma total_snoc ks k : total (ks ++ [k]) = total ks + length k.
Proof. unfold total. rewrite list.join_app, length_app. cbn. by rewrite app_nil_r. Qed.

Lemma within_app ks ks' : within (ks ++ ks') -> within ks.
Proof. unfold within, total. rewrite list.join_app, !length_app. lia. Qed.

(** The check before a key is handed over. *)
Lemma emit_within s next cur :
  walk_inv s ->
  get_bit (leaves t) next && ((max_entries <=? out_count s) || (max_bytes <? out_bytes s + Z.of_nat (length cur)))%Z = false ->
  within (if get_bit (leaves t) next then emitted s ++ [cur] else emitted s).
Proof.
  intros [_ _ Hn Hb Hw]. destruct (get_bit (leaves t) next); [|done]. cbn [andb].
  intros [E1%Z.leb_gt E2%Z.ltb_ge]%orb_false_iff.
  unfold within. rewrite total_snoc, length_app. cbn [length]. lia.
Qed.

Lemma walk_step_inv s s' :
  walk_inv s -> walk_step t max_entries max_bytes max_depth s = Continue s' -> walk_inv s'.
Proof.
  intros Hinv. pose proof Hinv as [Hc Hd Hn Hb Hw]. unfold walk_step.
  destruct (stack s) as [|[node idx] below]; [done|].
  cbn [length] in *. destruct (child t node idx) as [[[label next] bm]|].
  - case_match eqn:El; [done|]. case_match eqn:Ed; [done|]. intros [= <-].
    apply Z.leb_gt in Ed. cbn [length] in Ed.
    assert (Hlen : length (current s ++ [label]) = S (length (current s))) by (rewrite length_app; cbn; lia).
    constructor; cbn [stack current emitted out_count out_bytes length].
    + lia.
    + unfold D. lia.
    + case_match; [|done]. rewrite length_app. cbn [length]. lia.
    + case_match; [|done]. rewrite total_snoc. lia.
    + by apply emit_within.
  - intros [= <-]. constructor; cbn [stack current emitted out_count out_bytes length]; try done; [|lia].
    destruct below; cbn [length] in *; [lia|]. rewrite length_take. lia.
Qed.

(** A frame that ends owes nothing. *)
Lemma owed_end node idx below path ks :
  child t node idx = None -> S (length below) <= D ->
  owed ((node, idx) :: below) path ks <-> owed below (take (length path - 1) path) ks.
Proof.
  intros Hc Hd. cbn [owed]. split.
  - intros (k1 & k2 & -> & He & Ho). inversion He; subst; [done|congruence].
  - intros Ho. exists [], ks. split_and!; [done| |done].
    replace (D - length below) with (S (D - S (length below))) by lia. by constructor.
Qed.

(** An edge owes its own key, then what is below it, then the other edges. *)
Lemma owed_edge node idx label next bm below path ks :
  child t node idx = Some (label, next, bm) -> S (length below) <= D ->
  owed ((node, idx) :: below) path ks <->
  exists ks', ks = (if get_bit (leaves t) next then [path ++ [label]] else []) ++ ks' /\
    owed ((next, bm) :: (node, idx + 1) :: below) (path ++ [label]) ks'.
Proof.
  intros Hc Hd. cbn [owed].
  assert (Htake : take (length (path ++ [label]) - 1) (path ++ [label]) = path).
  { rewrite length_app. cbn [length]. rewrite take_app_length'; [done|lia]. }
  assert (HD : D - length below = S (D - S (length below))) by lia. rewrite Htake.
  assert (Happ : forall l : list bytes, app path <$> (cons label <$> l) = app (path ++ [label]) <$> l).
  { intros l. rewrite <- list_fmap_compose. apply list_fmap_ext. intros ?? _. cbn. by rewrite <- app_assoc. }
  split.
  - intros (k1 & k2 & -> & He & Ho). rewrite HD in He. inversion He; subst; [congruence|]. simplify_eq.
    eexists. split.
    { rewrite !fmap_app, Happ, <- !app_assoc. f_equal. by case_match. }
    cbn [length]. eexists _, _. split_and!; [reflexivity|done|].
    eexists _, _. split_and!; [reflexivity|by rewrite HD|done].
  - cbn [length]. intros (ks' & -> & sub & k2 & -> & Hs & rest & k3 & -> & Hr & Ho).
    rewrite HD in Hr |- *. eexists _, _. split_and!; [|by eapply emits_edge|done].
    rewrite !fmap_app, Happ, <- !app_assoc. f_equal. by case_match.
Qed.

Lemma eventual_within s r : eventual s r -> walk_inv s -> within r.1.
Proof.
  induction 1 as [s keys r Hstep|s s' r Hstep _ IH]; intros Hinv; [|eauto using walk_step_inv].
  revert Hstep. unfold walk_step. destruct (stack s) as [|[node idx] below].
  { intros [= <- <-]. apply Hinv. }
  destruct (child t node idx) as [[[label next] bm]|]; [|done].
  case_match eqn:El; [intros [= <- <-]; apply Hinv|]. case_match; [|done].
  intros [= <- <-]. by apply emit_within.
Qed.

Lemma eventual_exact s r :
  eventual s r -> walk_inv s ->
  forall out, r = (out, Ok tt) <-> exists ks, owed (stack s) (current s) ks /\ out = emitted s ++ ks /\ within out.
Proof.
  induction 1 as [s keys r Hstep|s s' r Hstep _ IH]; intros Hinv.
  - pose proof Hinv as [Hc Hd Hn Hb Hw]. revert Hstep. unfold walk_step.
    destruct (stack s) as [|[node idx] below].
    { intros [= <- <-] out. cbn [owed]. split.
      - intros [= <-]. exists []. by rewrite app_nil_r.
      - intros (? & -> & -> & _). by rewrite app_nil_r. }
    cbn [length] in *. destruct (child t node idx) as [[[label next] bm]|] eqn:Ec; [|done].
    case_match eqn:El; [|case_match eqn:Ed; [|done]]; intros [= <- <-] out; (split; [done|]).
    + intros (ks & (ks' & -> & _)%(owed_edge _ _ _ _ _ _ _ _ Ec) & -> & Hlim); [|lia].
      apply andb_true_iff in El as [Hleaf El]. rewrite Hleaf, app_assoc in Hlim.
      apply within_app in Hlim. unfold within in Hlim. rewrite total_snoc, length_app in Hlim. cbn [length] in Hlim.
      apply orb_true_iff in El as [El%Z.leb_le|El%Z.ltb_lt]; lia.
    + intros (ks & (ks' & -> & k1 & k2 & _ & He & _)%(owed_edge _ _ _ _ _ _ _ _ Ec) & _); [|lia].
      apply Z.leb_le in Ed. cbn [length] in Ed, He.
      replace (D - S (length below)) with 0 in He by (unfold D in *; lia). inversion He.
  - specialize (IH (walk_step_inv _ _ Hinv Hstep)). intros out. rewrite IH. clear IH.
    pose proof Hinv as [Hc Hd _ _ _]. revert Hstep. unfold walk_step.
    destruct (stack s) as [|[node idx] below]; [done|]. cbn [length] in *.
    destruct (child t node idx) as [[[label next] bm]|] eqn:Ec.
    + case_match; [done|]. case_match; [done|]. intros [= <-]. cbn [stack current emitted].
      setoid_rewrite (owed_edge _ _ _ _ _ _ (current s) _ Ec Hd). split.
      * intros (ks & Ho & -> & Hlim). eexists. split; [by exists ks|]. split; [|done].
        destruct (get_bit (leaves t) next); [by rewrite <- app_assoc|done].
      * intros (ks & (ks' & -> & Ho) & -> & Hlim). exists ks'. split; [done|]. split; [|done].
        destruct (get_bit (leaves t) next); [by rewrite <- app_assoc|done].
    + intros [= <-]. cbn [stack current emitted].
      setoid_rewrite (owed_end _ _ _ (current s) _ Ec Hd).
      replace (match below with [] => current s | _ => _ end) with (take (length (current s) - 1) (current s)); [done|].
      destruct below; [|done]. cbn [length] in Hc. by destruct (current s).
Qed.

End Keys.

Lemma start_inv t max_entries max_bytes max_depth :
  (1 <= max_entries)%Z -> (0 <= max_bytes)%Z -> (1 <= max_depth)%Z ->
  walk_inv max_entries max_bytes max_depth (walk_start t 0 0).
Proof.
  intros He Hb Hd. unfold walk_start.
  case_match; constructor; cbn [stack current emitted out_count out_bytes length]; try done; try lia;
    unfold within, total; cbn; lia.
Qed.

Lemma start_owed t max_entries max_bytes max_depth out :
  (exists ks, owed t max_depth (stack (walk_start t 0 0)) (current (walk_start t 0 0)) ks /\
     out = emitted (walk_start t 0 0) ++ ks /\ within max_entries max_bytes out) <->
  exists ks, emits t (Z.to_nat max_depth) 0 0 ks /\ out = root_key t 0 ++ ks /\ within max_entries max_bytes out.
Proof.
  rewrite start_stack. unfold root_key, walk_start. cbn [owed length].
  replace (Z.to_nat max_depth - 0) with (Z.to_nat max_depth) by lia.
  assert (Hid : forall l : list bytes, app [] <$> l = l) by (intros l; apply list_fmap_id).
  split.
  - intros (ks & (k1 & k2 & -> & Hk & ->) & -> & Hlim). exists k1. split; [done|].
    split; [|done]. rewrite app_nil_r. by case_match; cbn [current emitted]; rewrite Hid.
  - intros (ks & Hk & -> & Hlim). exists ks. split; [|split; [by case_match|done]].
    exists ks, []. split_and!; [|done|done]. rewrite app_nil_r. by case_match; cbn [current]; rewrite Hid.
Qed.

Lemma traverse_bounded_spec t max_entries max_bytes max_depth :
  label_index t = index_new (label_bitmap t) ->
  (1 <= max_entries)%Z -> (0 <= max_bytes)%Z -> (1 <= max_depth)%Z ->
  exists keys r, traverse_bounded t max_entries max_bytes max_depth 0 0 = Some (keys, r) /\
    within max_entries max_bytes keys /\
    forall out, (keys, r) = (out, Ok tt) <->
      exists ks, emits t (Z.to_nat max_depth) 0 0 ks /\ out = root_key t 0 ++ ks /\
        within max_entries max_bytes out.
Proof.
  intros Hi He Hb Hd. destruct (traverse_ends t max_entries max_bytes max_depth Hd Hi 0) as [[keys r] Hr].
  exists keys, r. split; [done|]. revert Hr. unfold traverse_bounded.
  pose proof (walk_run_eventual t max_entries max_bytes max_depth (walk_fuel t max_depth) (walk_start t 0 0)) as Hev.
  destruct (walk_run _ _ _ _ _ _) as [|keys' r']; [done|]. intros [= -> ->].
  pose proof (start_inv t _ _ _ He Hb Hd) as Hinv. split; [by apply (eventual_within _ _ _ _ _ _ Hev)|].
  intros out. rewrite (eventual_exact _ _ _ _ _ _ Hev Hinv).
  apply start_owed.
Qed.

(** C17: the walk of a domain set ends on any bitmap, label and leaf data. The
    keys it hands over stay within the entry and byte limits, also when it
    fails. It succeeds exactly when the recursive walk of the label graph from
    the root stays within [max_depth] levels and its keys within the limits,
    and it then has handed over the keys of the recursive walk, in their
    order. *)
Theorem traverse_exact t max_entries max_bytes max_depth :
  label_index t = index_new (label_bitmap t) ->
  (1 <= max_entries)%Z -> (0 <= max_bytes)%Z -> (1 <= max_depth)%Z ->
  exists keys r, traverse_bounded t max_entries max_bytes max_depth 0 0 = Some (keys, r) /\
    within max_entries max_bytes keys /\
    forall out, (keys, r) = (out, Ok tt) <->
      exists ks, emits t (Z.to_nat max_depth) 0 0 ks /\ out = root_key t 0 ++ ks /\
        within max_entries max_bytes out.
Proof. apply traverse_bounded_spec. Qed.

(** Labels "a", "b" below the root, "c" below "a"; the keys are "ac" and "b". *)
Definition small_set : DomainSetTraversal :=
  let bits := [116]%Z in
  mkTraversal [12]%Z bits (index_new bits) (b! "abc").

Lemma traverse_exact_witness :
  traverse small_set = Some ([b! "ac"; b! "b"], Ok tt) /\
  exists keys r, traverse_bounded small_set 10 10 10 0 0 = Some (keys, r) /\
    within 10 10 keys /\
    forall out, (keys, r) = (out, Ok tt) <->
      exists ks, emits small_set 10 0 0 ks /\ out = root_key small_set 0 ++ ks /\ within 10 10 out.
Proof. split; [by vm_compute|]. apply (traverse_exact small_set 10 10 10); [reflexivity|lia..]. Defined.

End DomainSet.
