(* ===== verification/Upstream.v ===== *)
(** * Upstream rule-set files (crates/meow-rules/src/mrs_parser.rs)

    An upstream file is one zstd frame: a header, then a domain set or a list
    of address ranges. [open] reads the header, [for_each_domain] walks the
    set and turns its keys into domains, [for_each_net] splits the ranges. A
    walk hands its items over one by one; here it returns the items it handed
    over beside its result. *)

From S2P Require Import Prelude Strings Vec Bits Ip IpSet MrsRanges Stream MrsCodec RankSelect DomainSet.

Module Upstream.
Import IpSet MrsRanges Stream MrsCodec RankSelect DomainSet.

(** ** Decompression *)

Section Open.
Context `{ZL : ZstdLib}.

Definition decompress_payload_bounded (compressed : bytes) (max : Z) : result MrsError bytes :=
  match decoder_new compressed with
  | Err e => Err (Zstd (OtherError e))
  | Ok decoder =>
      match read_to_end (max + 1) decoder with
      | Err e => Err (Zstd e)
      | Ok out =>
          if (max <? Z.of_nat (length out))%Z then Err (InvalidLength (b! "decompressed_payload") max) else Ok out
      end
  end.

Definition decompress_payload (compressed : bytes) : result MrsError bytes :=
  decompress_payload_bounded compressed MAX_DECOMPRESSED_BYTES.

(** ** The header *)

Record UpstreamRuleSetReader := mkReader {
  decompressed : bytes;
  body_offset : nat;
  behavior : Z;
  count : Z;
}.

Definition open (data : bytes) : result MrsError UpstreamRuleSetReader :=
  decompressed ← decompress_payload data;
  '(magic, r) ← read_slice (bytes_new decompressed) (b! "upstream_magic") 4;
  if negb (bool_decide (magic = UPSTREAM_MRS_MAGIC)) then Err (WrongFormat UPSTREAM_MRS_MAGIC)
  else
    '(behavior, r) ← br_u8 r (b! "behavior");
    if negb (behavior =? TYPE_DOMAIN)%Z && negb (behavior =? TYPE_IPCIDR)%Z then Err (InvalidBehavior behavior)
    else
      '(count, r) ← br_i64 r (b! "count");
      if (count <? 0)%Z then Err (InvalidLength (b! "count") count)
      else
        '(extra_len, r) ← br_i64 r (b! "extra_len");
        if (extra_len <? 0)%Z then Err (InvalidReservedLength extra_len)
        else
          '(_, r) ← read_slice r (b! "extra") extra_len;
          Ok (mkReader decompressed (length decompressed - length (br_data r)) behavior count).

End Open.

Definition body (rd : UpstreamRuleSetReader) : bytes := drop (body_offset rd) (decompressed rd).

(** ** Domains *)

(** The domain of a stored key: a trailing '+' is dropped and the characters
    are reversed. [None] is a key that is not UTF-8. *)
Definition decode_key (reversed : bytes) : option bytes :=
  let stored :=
    match last reversed with
    | Some c => if bool_decide (c = "+"%char) then take (length reversed - 1) reversed else reversed
    | None => reversed
    end in
  if from_utf8_ok stored then Some (rev_chars stored) else None.

Definition count_skipped (keys : list bytes) : nat :=
  length (List.filter (fun k => bool_decide (decode_key k = None)) keys).

(** The items handed over, and the result. *)
Definition walk_result (A B : Type) : Type := list A * result MrsError B.

Definition fail {A B} (e : MrsError) : option (walk_result A B) := Some ([], Err e).

Definition read_domain_set (data : bytes) : result MrsError DomainSetTraversal :=
  '(version, r) ← br_u8 (bytes_new data) (b! "domain_set_version");
  if negb (version =? 1)%Z then Err (InvalidDomainSetVersion version)
  else
    '(leaves, r) ← read_u64_vec r (b! "domain_set_leaves");
    '(label_bitmap, r) ← read_u64_vec r (b! "domain_set_label_bitmap");
    '(labels_len, r) ← br_i64 r (b! "domain_set_labels_len");
    if (labels_len <? 1)%Z then Err (InvalidLength (b! "domain_set_labels_len") labels_len)
    else
      '(labels, r) ← read_slice r (b! "domain_set_labels") labels_len;
      let node_count := sum_list (count_ones 64 <$> label_bitmap) in
      if (length labels + 1 <? node_count)
      then Err (InvalidLength (b! "domain_set_terminators") (Z.of_nat node_count))
      else Ok (mkTraversal leaves label_bitmap (index_new label_bitmap) labels).

Definition walk_upstream_domain_set (data : bytes) : option (walk_result bytes nat) :=
  match read_domain_set data with
  | Err e => fail e
  | Ok traversal =>
      '(keys, r) ← traverse traversal;
      Some (omap decode_key keys, match r with Ok _ => Ok (count_skipped keys) | Err e => Err e end)
  end.

Definition for_each_domain (rd : UpstreamRuleSetReader) : option (walk_result bytes nat) :=
  if negb (behavior rd =? TYPE_DOMAIN)%Z then fail (InvalidBehavior (behavior rd))
  else walk_upstream_domain_set (body rd).

(** ** Networks *)

Section Nets.
Context `{NN : IpNetNew}.

Definition read_range (r : ByteReader) : result MrsError (Z * Z * ByteReader) :=
  '(from, r) ← read_slice r (b! "ipcidr_from") 16;
  '(to, r) ← read_slice r (b! "ipcidr_to") 16;
  Ok (from_be_bytes from, from_be_bytes to, r).

(** [left] records are to come. A round takes 32 bytes, so [fuel] is the
    number of bytes; [None] is a loop that runs out of it. *)
Fixpoint net_loop (fuel : nat) (left : Z) (r : ByteReader) (nets : list IpNet) : option (walk_result IpNet unit) :=
  if (left <=? 0)%Z then Some (nets, Ok tt)
  else match read_range r with
  | Err e => Some (nets, Err e)
  | Ok (from, to, r) =>
      match fuel with
      | 0 => None
      | S fuel =>
          more ← push_range_prefixes from to;
          let nets := nets ++ more in
          let emitted := Z.of_nat (length nets) in
          if (MAX_DOMAIN_SET_ENTRIES <? emitted)%Z
          then Some (nets, Err (InvalidLength (b! "ipcidr_set_output") emitted))
          else net_loop fuel (left - 1) r nets
      end
  end.

Definition for_each_net (rd : UpstreamRuleSetReader) : option (walk_result IpNet unit) :=
  if negb (behavior rd =? TYPE_IPCIDR)%Z then fail (InvalidBehavior (behavior rd))
  else match '(version, r) ← br_u8 (bytes_new (body rd)) (b! "ipcidr_set_version");
             if negb (version =? 1)%Z then Err (InvalidIpCidrSetVersion version)
             else
               '(len, r) ← br_i64 r (b! "ipcidr_set_ranges_len");
               if (len <? 1)%Z then Err (InvalidLength (b! "ipcidr_set_ranges_len") len) else Ok (len, r) with
  | Err e => fail e
  | Ok (len, r) => net_loop (length (br_data r)) len r []
  end.

(** ** Entries as text *)

Record UpstreamRuleSetPayload := mkUpstream { up_behavior : Z; up_count : Z; up_entries : list bytes }.

Definition parse_upstream_ruleset_mrs `{ZL : ZstdLib} (data : bytes) :
    option (result MrsError UpstreamRuleSetPayload) :=
  match open data with
  | Err e => Some (Err e)
  | Ok reader =>
      let payload entries := mkUpstream (behavior reader) (count reader) entries in
      if (behavior reader =? TYPE_DOMAIN)%Z then
        '(entries, r) ← for_each_domain reader;
        Some (match r with Ok _ => Ok (payload entries) | Err e => Err e end)
      else if (behavior reader =? TYPE_IPCIDR)%Z then
        '(nets, r) ← for_each_net reader;
        Some (match r with Ok _ => Ok (payload (show_net <$> nets)) | Err e => Err e end)
      else Some (Err (InvalidBehavior (behavior reader)))
  end.

End Nets.

End Upstream.
