(* ===== verification/DomainSetLayout.v ===== *)
(** * The layout of a domain set (crates/meow-rules/src/mrs_parser.rs)

    The encoder of domain sets in the tests of mrs_parser.rs, which documents
    the format: the nodes of the label trie in breadth-first order, a zero bit
    per edge and a one at the end of each node. What it writes is walked back
    to the keys it was given. *)

From S2P Require Import Prelude Strings Vec Bits Ip Stream MrsCodec RankSelect DomainSet Upstream.
From stdpp Require Import sorting.

Module DomainSetLayout.
Import Stream MrsCodec RankSelect DomainSet Upstream.

(** ** Bitmaps laid out node by node *)

Section Layout.
Variable t : DomainSetTraversal.
(** The labels of the edges of each node, in order. *)
Variable kids : list (list ascii).

Let k (i : nat) : nat := length (default [] (kids !! i)).

(** The edges before node [i], and where its bits start. *)
Definition edges_before (i : nat) : nat := length (mjoin (take i kids)).
Definition start_bit (i : nat) : nat := i + edges_before i.

Hypothesis index_ok : label_index t = index_new (label_bitmap t).
Hypothesis words_ok : Forall word_ok (label_bitmap t).
Hypothesis labels_ok : labels t = mjoin kids.
Hypothesis nodes_ok : length kids = S (edges_before (length kids)).
Hypothesis room : start_bit (length kids) <= length (label_bitmap t) * 64.
Hypothesis zeros_ok : forall i e, i < length kids -> e < k i -> get_bit (label_bitmap t) (start_bit i + e) = false.
Hypothesis ones_ok : forall i, i < length kids -> get_bit (label_bitmap t) (start_bit i + k i) = true.

Lemma edges_before_S i : i < length kids -> edges_before (S i) = edges_before i + k i.
Proof.
  intros [x Hx]%lookup_lt_is_Some_2. unfold edges_before, k. rewrite (take_S_r _ _ _ Hx), list.join_app, length_app, Hx.
  cbn. by rewrite app_nil_r.
Qed.

Lemma start_bit_S i : i < length kids -> start_bit (S i) = S (start_bit i + k i).
Proof. intros. unfold start_bit. rewrite edges_before_S by done. lia. Qed.

Lemma edges_before_mono i j : i <= j -> j <= length kids -> edges_before i <= edges_before j.
Proof. induction 1 as [|j Hij IH]; intros Hj; [done|]. rewrite edges_before_S by lia. specialize (IH ltac:(lia)). lia. Qed.

Lemma kid_lt i e : i < length kids -> e < k i -> S (edges_before i + e) < length kids.
Proof.
  intros Hi He. rewrite nodes_ok. pose proof (edges_before_S i Hi).
  pose proof (edges_before_mono (S i) (length kids) ltac:(lia) ltac:(lia)). lia.
Qed.

Lemma filter_false {A} (f : A -> bool) l : Forall (fun x => f x = false) l -> List.filter f l = [].
Proof. induction 1 as [|x l Hx _ IH]; [done|]. cbn. by rewrite Hx. Qed.

(** The zeros of node [i] before its edge [e]. *)
Lemma node_zeros i e :
  i < length kids -> e <= k i ->
  List.filter (get_bit (label_bitmap t)) (seq (start_bit i) e) = [].
Proof.
  intros Hi He. apply filter_false, Forall_forall. intros x [H1 H2]%elem_of_seq.
  replace x with (start_bit i + (x - start_bit i)) by lia. apply zeros_ok; [done|lia].
Qed.

Lemma layout_ones i :
  i <= length kids ->
  List.filter (get_bit (label_bitmap t)) (seq 0 (start_bit i)) = (fun j => start_bit (S j) - 1) <$> seq 0 i.
Proof.
  induction i as [|i IH]; intros Hi; [done|]. rewrite (seq_S i 0), fmap_app, start_bit_S by lia.
  replace (S (start_bit i + k i)) with (start_bit i + (k i + 1)) by lia.
  rewrite !seq_app, !List.filter_app. cbn [Nat.add]. rewrite IH, node_zeros by lia. cbn [seq List.filter app].
  rewrite ones_ok by lia. cbn [fmap list_fmap Nat.add]. do 2 f_equal. rewrite start_bit_S by lia. lia.
Qed.

Lemma start_bit_le i e : i < length kids -> e <= k i -> start_bit i + e < length (label_bitmap t) * 64.
Proof.
  intros Hi He. eapply Nat.lt_le_trans; [|exact room]. unfold start_bit.
  pose proof (edges_before_S i Hi). pose proof (edges_before_mono (S i) (length kids) ltac:(lia) ltac:(lia)). lia.
Qed.

Lemma layout_zeros i e :
  i < length kids -> e <= k i ->
  count_zeros (label_index t) (label_bitmap t) (start_bit i + e) = edges_before i + e.
Proof.
  intros Hi He. pose proof (start_bit_le _ _ Hi He). rewrite index_ok, count_zeros_bits, Nat.min_l by lia.
  pose proof (count_split (get_bit (label_bitmap t)) (seq 0 (start_bit i + e))) as Hs.
  rewrite length_seq, seq_app, List.filter_app in Hs. cbn [Nat.add] in Hs. rewrite layout_ones, node_zeros in Hs by lia.
  rewrite app_nil_r, length_fmap, length_seq in Hs. rewrite seq_app. unfold start_bit in *. cbn [Nat.add] in *. lia.
Qed.

Lemma layout_select j :
  j < length kids -> select_one (label_index t) (label_bitmap t) j = Some (start_bit (S j) - 1).
Proof.
  intros Hj. rewrite index_ok, select_one_bits by done.
  replace (length (label_bitmap t) * 64)
    with (start_bit (length kids) + (length (label_bitmap t) * 64 - start_bit (length kids))) by lia.
  rewrite seq_app, List.filter_app, layout_ones by lia. apply lookup_app_l_Some.
  rewrite list_lookup_fmap, lookup_seq_lt by lia. done.
Qed.

(** The edges of a node are its labels, and the node an edge leads to is the
    one after the edges before it. *)
Lemma layout_end i : i < length kids -> child t i (start_bit i + k i) = None.
Proof. intros Hi. unfold child. by rewrite ones_ok. Qed.

Lemma layout_child i e label :
  i < length kids -> default [] (kids !! i) !! e = Some label ->
  child t i (start_bit i + e) = Some (label, S (edges_before i + e), start_bit (S (edges_before i + e))).
Proof.
  intros Hi Hlab. pose proof (lookup_lt_Some _ _ _ Hlab) as He. fold (k i) in He. unfold child. rewrite zeros_ok by done.
  replace (start_bit i + e + 1) with (start_bit i + S e) by lia. rewrite layout_zeros by lia.
  replace (start_bit i + e - i) with (edges_before i + e) by (unfold start_bit; lia).
  replace (edges_before i + S e - 1) with (edges_before i + e) by lia.
  pose proof (kid_lt _ _ Hi He). rewrite layout_select by lia. rewrite labels_ok.
  assert (Hl : mjoin kids !! (edges_before i + e) = default [] (kids !! i) !! e).
  { destruct (lookup_lt_is_Some_2 kids i Hi) as [x Hx]. unfold k in He. rewrite Hx in *. cbn [default from_option id] in *.
    rewrite <- (take_drop_middle _ _ _ Hx) at 1. rewrite list.join_app. unfold edges_before.
    rewrite lookup_app_r, Nat.add_comm, Nat.add_sub by lia. cbn. by rewrite lookup_app_l. }
  rewrite Hl, Hlab. cbn [mbind option_bind].
  replace (edges_before i + S e) with (S (edges_before i + e)) by lia.
  rewrite start_bit_S by lia. repeat f_equal. lia.
Qed.

(** ** Walking a laid out trie *)

(** The keys of each node, from that node on. *)
Variable sub : nat -> list bytes.

(** The keys below the edges [ls], the first of which leads to [next]. *)
Fixpoint below (ls : list ascii) (next : nat) : list bytes :=
  match ls with
  | [] => []
  | l :: ls => (cons l <$> sub next) ++ below ls (S next)
  end.

Hypothesis sub_ok : forall i ls, kids !! i = Some ls ->
  sub i = root_key t i ++ below ls (S (edges_before i)).
Hypothesis sub_ne : forall i, i < length kids -> sub i <> [].

Lemma emits_layout h i e ls :
  i < length kids -> drop e (default [] (kids !! i)) = ls -> e <= k i -> 0 < h ->
  (forall key, key ∈ below ls (S (edges_before i + e)) -> length key < h) ->
  emits t h i (start_bit i + e) (below ls (S (edges_before i + e))).
Proof.
  revert i e ls. induction h as [|h IHh]; intros i e ls Hi Hls He Hh Hlen; [lia|].
  revert e Hls He Hlen. induction ls as [|l ls IHls]; intros e Hls He Hlen.
  { apply (f_equal length) in Hls. rewrite length_drop in Hls. cbn [length] in Hls. unfold k in He.
    replace e with (k i) by (unfold k; lia). apply emits_end. by apply layout_end. }
  assert (Hl : default [] (kids !! i) !! e = Some l) by (rewrite <- (Nat.add_0_r e), <- lookup_drop, Hls; done).
  assert (Hrest : drop (S e) (default [] (kids !! i)) = ls)
    by (replace (S e) with (e + 1) by lia; rewrite <- drop_drop, Hls; done).
  pose proof (lookup_lt_Some _ _ _ Hl) as He'. fold (k i) in He'.
  pose proof (kid_lt _ _ Hi He') as Hkid. set (next := S (edges_before i + e)) in *.
  destruct (lookup_lt_is_Some_2 _ _ Hkid) as [ls' Hls'].
  cbn [below] in *. pose proof (sub_ok _ _ Hls') as Hsub. rewrite Hsub, fmap_app, <- app_assoc.
  replace (cons l <$> root_key t next) with (if get_bit (leaves t) next then [[l]] else [])
    by (unfold root_key; by case_match).
  assert (Hd : forall key, key ∈ sub next -> length key < h).
  { intros key Hk. assert (length (l :: key) < S h); [|cbn in *; lia]. apply Hlen, elem_of_app. left.
    by apply list_elem_of_fmap_2. }
  apply (emits_edge t h i _ l next (start_bit next)); [by apply layout_child| |].
  - rewrite <- (Nat.add_0_r (start_bit next)). rewrite <- (Nat.add_0_r (edges_before next)).
    apply IHh; [done|by rewrite Hls'|lia| |].
    + destruct (sub next) as [|x xs] eqn:E; [by apply sub_ne in E|]. pose proof (Hd x ltac:(left)). lia.
    + intros key Hk. apply Hd. rewrite Hsub, Nat.add_0_r in *. apply elem_of_app. by right.
  - replace (start_bit i + e + 1) with (start_bit i + S e) by lia.
    replace (S next) with (S (edges_before i + S e)) by (unfold next; lia). apply IHls; [done|lia|].
    intros key Hk. apply Hlen, elem_of_app. right. by replace (S next) with (S (edges_before i + S e)) by (unfold next; lia).
Qed.

Lemma emits_root h :
  (forall key, key ∈ sub 0 -> length key < h) -> 0 < h ->
  exists ks, emits t h 0 0 ks /\ sub 0 = root_key t 0 ++ ks.
Proof.
  intros Hlen Hh. assert (H0 : 0 < length kids) by (rewrite nodes_ok; lia).
  destruct (lookup_lt_is_Some_2 _ _ H0) as [ls Hls]. pose proof (sub_ok _ _ Hls) as Hs. cbn [edges_before take] in Hs.
  exists (below ls 1). split; [|done].
  apply (emits_layout h 0 0 ls); [done|by rewrite Hls|lia|done|].
  intros key Hk. apply Hlen. rewrite Hs. apply elem_of_app. by right.
Qed.

End Layout.

(** ** The encoder *)

Definition set_bit (bits : list Z) (idx : nat) (value : bool) : list Z :=
  let word := idx / 64 in
  let bits := if length bits <=? word then bits ++ replicate (word + 1 - length bits) 0%Z else bits in
  if value then alter (fun w => Z.lor w (Z.shiftl 1 (Z.of_nat (idx mod 64)))) word bits else bits.

Section Encode.
Variable keys : list bytes.

(** The keys [start .. end) from byte [col] on. *)
Abbreviation node := (nat * nat * nat)%type.

(** [while j < end && keys[j][col] == keys[from][col]]; [None] is an index out
    of range. *)
Fixpoint run_end (fuel : nat) (j stop col : nat) (c : ascii) : option nat :=
  if j <? stop then
    match fuel with
    | 0 => None
    | S fuel =>
        key ← keys !! j; d ← key !! col;
        if bool_decide (d = c) then run_end fuel (S j) stop col c else Some j
    end
  else Some j.

(** The edges of a node: a label and the node it leads to. *)
Fixpoint node_edges (fuel : nat) (j stop col : nat) : option (list (ascii * node)) :=
  if j <? stop then
    match fuel with
    | 0 => None
    | S fuel =>
        key ← keys !! j; c ← key !! col;
        j' ← run_end (stop - j) j stop col c;
        es ← node_edges fuel j' stop col;
        Some ((c, (j, j', S col)) :: es)
    end
  else Some [].

Record Enc := mkEnc {
  queue : list node;
  enc_leaves : list Z;
  enc_bitmap : list Z;
  enc_labels : bytes;
  label_idx : nat;
}.

Definition push_edge (st : Enc) (e : ascii * node) : Enc :=
  mkEnc (queue st ++ [e.2]) (enc_leaves st) (set_bit (enc_bitmap st) (label_idx st) false)
    (enc_labels st ++ [e.1]) (S (label_idx st)).

Definition encode_node (idx : nat) (st : Enc) : option Enc :=
  '(start, stop, col) ← queue st !! idx;
  key ← keys !! start;
  let leaf := col =? length key in
  let start := if leaf then S start else start in
  let ls := if leaf then set_bit (enc_leaves st) idx true else enc_leaves st in
  es ← node_edges (stop - start) start stop col;
  let st := foldl push_edge (mkEnc (queue st) ls (enc_bitmap st) (enc_labels st) (label_idx st)) es in
  Some (mkEnc (queue st) (enc_leaves st) (set_bit (enc_bitmap st) (label_idx st) true) (enc_labels st) (S (label_idx st))).

Fixpoint encode_loop (fuel : nat) (idx : nat) (st : Enc) : option Enc :=
  if idx <? length (queue st) then
    match fuel with
    | 0 => None
    | S fuel => st ← encode_node idx st; encode_loop fuel (S idx) st
    end
  else Some st.

End Encode.

Definition encode_domain_set_raw (leaves label_bitmap : list Z) (labels : bytes) : bytes :=
  z_byte 1 :: to_be_bytes 8 (Z.of_nat (length leaves)) ++ mjoin (to_be_bytes 8 <$> leaves) ++
  to_be_bytes 8 (Z.of_nat (length label_bitmap)) ++ mjoin (to_be_bytes 8 <$> label_bitmap) ++
  to_be_bytes 8 (Z.of_nat (length labels)) ++ labels.

(** A node is dequeued for each distinct prefix of a key at most. *)
Definition encode_fuel (keys : list bytes) : nat := S (length (mjoin keys)).

Definition encode_trie (keys : list bytes) : option Enc :=
  encode_loop keys (encode_fuel keys) 0 (mkEnc [(0, length keys, 0)] [] [] [] 0).

Definition sort_keys (keys : list bytes) : list bytes := merge_sort bytes_le keys.

Definition encode_domain_set_keys (keys : list bytes) : option bytes :=
  st ← encode_trie (sort_keys keys);
  Some (encode_domain_set_raw (enc_leaves st) (enc_bitmap st) (enc_labels st)).

Definition encode_domain_set (entries : list bytes) : option bytes :=
  encode_domain_set_keys (reverse <$> entries).
Definition encode_domain_set_runes (entries : list bytes) : option bytes :=
  encode_domain_set_keys (rev_chars <$> entries).

(** A whole file; [unwrap] panics if compression fails. *)
Definition upstream_inner (behavior count : Z) (body : bytes) : bytes :=
  UPSTREAM_MRS_MAGIC ++ [z_byte behavior] ++ to_be_bytes 8 count ++ to_be_bytes 8 0 ++ body.

Definition encode_upstream_mrs `{ZL : ZstdLib} (behavior count : Z) (body : bytes) : option bytes :=
  to_option (encode_all (upstream_inner behavior count body)).

End DomainSetLayout.
