(* ===== verification/DomainSetRoundtrip.v ===== *)
(** * Domain sets round trip (crates/meow-rules/src/mrs_parser.rs)

    The encoder keeps the layout of [DomainSetLayout] as it goes through the
    nodes, ends, and does not index out of range when the keys are distinct.
    Reading its bytes and walking them gives the keys back, sorted. *)

From S2P Require Import Prelude Strings Vec Bits Ip Stream MrsCodec RankSelect DomainSet Upstream DomainSetLayout.
From stdpp Require Import sorting.

Module DomainSetRoundtrip.
Import Stream MrsCodec RankSelect DomainSet Upstream DomainSetLayout.

(** ** Setting bits *)

Lemma get_bit_grow ws n p : get_bit (ws ++ replicate n 0%Z) p = get_bit ws p.
Proof.
  unfold get_bit. destruct (Nat.lt_ge_cases (p / 64) (length ws)) as [H|H].
  - by rewrite lookup_app_l.
  - rewrite lookup_app_r, (lookup_ge_None_2 ws) by done.
    destruct (replicate n 0%Z !! (p / 64 - length ws)) as [w|] eqn:E; [|done].
    apply lookup_replicate in E as [-> _]. by rewrite Z.land_0_l.
Qed.

Lemma set_bit_length ws idx v : length (set_bit ws idx v) = Nat.max (length ws) (S (idx / 64)).
Proof.
  unfold set_bit. destruct v; rewrite ?length_alter; case_match eqn:E;
    rewrite ?length_app, ?length_replicate; first [apply Nat.leb_le in E|apply Nat.leb_gt in E]; lia.
Qed.

Lemma get_bit_lor ws idx p :
  idx / 64 < length ws ->
  get_bit (alter (fun w => Z.lor w (Z.shiftl 1 (Z.of_nat (idx mod 64)))) (idx / 64) ws) p =
  (p =? idx) || get_bit ws p.
Proof.
  intros Hlt. rewrite !get_bit_exact. unfold bit_at.
  destruct (decide (p / 64 = idx / 64)) as [Hw|Hw].
  - rewrite Hw, list_lookup_alter, decide_True by done.
    destruct (lookup_lt_is_Some_2 ws _ Hlt) as [w ->]. cbn [fmap option_fmap option_map from_option].
    rewrite Z.lor_spec, Z.shiftl_1_l, Z.pow2_bits_eqb by lia. rewrite orb_comm. f_equal.
    pose proof (Nat.div_mod p 64 ltac:(lia)). pose proof (Nat.div_mod idx 64 ltac:(lia)).
    destruct (Nat.eqb_spec p idx) as [->|Hne]; [by rewrite Z.eqb_refl|]. apply Z.eqb_neq. lia.
  - rewrite list_lookup_alter, decide_False by congruence.
    destruct (Nat.eqb_spec p idx) as [->|Hne]; [done|]. done.
Qed.

Lemma set_bit_get ws idx v p : get_bit (set_bit ws idx v) p = v && (p =? idx) || get_bit ws p.
Proof.
  assert (Hg : forall b : bool, get_bit (if b then ws ++ replicate (idx / 64 + 1 - length ws) 0%Z else ws) p = get_bit ws p).
  { intros []; [apply get_bit_grow|done]. }
  unfold set_bit. destruct v; cbn [andb orb]; [|apply Hg].
  rewrite get_bit_lor, Hg; [done|]. case_match eqn:E; rewrite ?length_app, ?length_replicate;
    first [apply Nat.leb_le in E|apply Nat.leb_gt in E]; lia.
Qed.

Lemma set_bit_ok ws idx v : Forall word_ok ws -> Forall word_ok (set_bit ws idx v).
Proof.
  intros Hws. unfold set_bit.
  assert (Hg : Forall word_ok (if length ws <=? idx / 64 then ws ++ replicate (idx / 64 + 1 - length ws) 0%Z else ws)).
  { case_match; [|done]. apply Forall_app. split; [done|]. by apply Forall_replicate. }
  destruct v; [|done]. apply Forall_alter; [done|]. intros w Hw Hok. unfold word_ok, is_u64 in *.
  rewrite Z.shiftl_1_l. split; [apply Z.lor_nonneg; split; [lia|apply Z.pow_nonneg; lia]|].
  apply Z.log2_lt_cancel. change (2 ^ 64)%Z with (2 ^ 64)%Z.
  assert (0 <= 2 ^ Z.of_nat (idx mod 64))%Z by (apply Z.pow_nonneg; lia).
  rewrite Z.log2_lor by lia. rewrite !Z.log2_pow2 by lia.
  pose proof (Nat.mod_upper_bound idx 64 ltac:(lia)).
  destruct (Z.eq_dec w 0%Z) as [->|]; [cbn; lia|]. assert (Z.log2 w < 64)%Z by (apply Z.log2_lt_pow2; lia). lia.
Qed.

(** The bits of a bitmap are those of a list. *)
Definition bits_are (ws : list Z) (B : list bool) : Prop :=
  Forall word_ok ws /\ length B <= length ws * 64 /\ forall p, get_bit ws p = default false (B !! p).

Lemma set_bit_snoc ws B v : bits_are ws B -> bits_are (set_bit ws (length B) v) (B ++ [v]).
Proof.
  intros (Hok & Hlen & Hget). split; [by apply set_bit_ok|]. split.
  - rewrite set_bit_length, length_app. cbn [length].
    pose proof (Nat.div_mod (length B) 64 ltac:(lia)). pose proof (Nat.mod_upper_bound (length B) 64 ltac:(lia)). lia.
  - intros p. rewrite set_bit_get, Hget.
    destruct (Nat.lt_trichotomy p (length B)) as [Hp|[->|Hp]].
    + rewrite lookup_app_l, (proj2 (Nat.eqb_neq _ _)), andb_false_r by lia. done.
    + rewrite Nat.eqb_refl, list_lookup_middle, lookup_ge_None_2 by done. by destruct v.
    + rewrite (proj2 (Nat.eqb_neq _ _)), andb_false_r by lia. rewrite !lookup_ge_None_2; [done| |lia].
      rewrite length_app. cbn. lia.
Qed.

(** ** The edges of a node *)

Definition bytes_lt (a b : bytes) : Prop := bytes_cmp a b = Lt.

Lemma bytes_lt_nil a : ~ bytes_lt a [].
Proof. by destruct a. Qed.

Lemma bytes_lt_cons c a b : bytes_lt (c :: a) (c :: b) <-> bytes_lt a b.
Proof. unfold bytes_lt. cbn [bytes_cmp]. by rewrite N.compare_refl. Qed.

Lemma sorted_tails c l : StronglySorted bytes_lt (cons c <$> l) -> StronglySorted bytes_lt l.
Proof.
  induction l as [|a l IH]; [constructor|]. cbn. intros [H1 H2]%StronglySorted_inv. constructor; [by apply IH|].
  rewrite Forall_fmap in H2. eapply Forall_impl; [exact H2|]. intros b Hb. by apply bytes_lt_cons in Hb.
Qed.

Section Nodes.
Variable keys : list bytes.

Definition slice (start stop : nat) : list bytes := take (stop - start) (drop start keys).
Definition view (n : nat * nat * nat) : list bytes := drop n.2 <$> slice n.1.1 n.1.2.

Record node_ok (n : nat * nat * nat) : Prop := {
  node_ne : n.1.1 < n.1.2;
  node_range : n.1.2 <= length keys;
  node_col : Forall (fun key => n.2 <= length key) (slice n.1.1 n.1.2);
  node_sorted : StronglySorted bytes_lt (view n);
}.

Lemma slice_split a b c : a <= b -> b <= c -> slice a c = slice a b ++ slice b c.
Proof.
  intros Hab Hbc. unfold slice. replace (c - a) with ((b - a) + (c - b)) by lia.
  rewrite <- take_take_drop, drop_drop. by replace (a + (b - a)) with b by lia.
Qed.

Lemma slice_one j key : keys !! j = Some key -> slice j (S j) = [key].
Proof.
  intros H. unfold slice. replace (S j - j) with 1 by lia. by rewrite (drop_S _ _ _ H).
Qed.

Lemma slice_cons j stop key : keys !! j = Some key -> j < stop -> slice j stop = key :: slice (S j) stop.
Proof. intros Hk Hj. by rewrite (slice_split j (S j) stop), (slice_one _ _ Hk) by lia. Qed.

Lemma slice_empty j : slice j j = [].
Proof. unfold slice. by rewrite Nat.sub_diag. Qed.

(** The run of keys that go on with [c]. *)
Lemma run_end_spec fuel j stop col c :
  stop - j <= fuel -> j <= stop -> stop <= length keys -> Forall (fun key => col < length key) (slice j stop) ->
  exists j', run_end keys fuel j stop col c = Some j' /\ j <= j' /\ j' <= stop /\
    Forall (fun key => key !! col = Some c) (slice j j') /\
    (forall key, keys !! j = Some key -> key !! col = Some c -> j < stop -> j < j').
Proof.
  revert j. induction fuel as [|fuel IH]; intros j Hf Hj Hs Hlen; cbn [run_end].
  all: destruct (Nat.ltb_spec j stop) as [Hlt|Hge]; [|exists j; rewrite slice_empty; split_and!; (done || lia)].
  { lia. }
  destruct (lookup_lt_is_Some_2 keys j) as [key Hkey]; [lia|]. rewrite Hkey. cbn [mbind option_bind].
  rewrite (slice_cons _ _ _ Hkey Hlt), Forall_cons in Hlen. destruct Hlen as [Hcol Hlen].
  destruct (lookup_lt_is_Some_2 key col Hcol) as [d Hd]. rewrite Hd. cbn [mbind option_bind].
  case_bool_decide as Hdc.
  - subst d. destruct (IH (S j)) as (j' & -> & H1 & H2 & H3 & _); [lia..|done|].
    exists j'. split_and!; [done|lia|lia| |lia]. rewrite (slice_cons _ _ _ Hkey) by lia. by constructor.
  - exists j. rewrite slice_empty. split_and!; [done|lia|lia|constructor|].
    intros key' Hk Hc _. simplify_eq.
Qed.

(** The edges account for all keys of the node. *)
Definition edge_keys (e : ascii * (nat * nat * nat)) : list bytes := cons e.1 <$> view e.2.

Lemma view_run col c j j' :
  Forall (fun key => key !! col = Some c) (slice j j') -> view (j, j', col) = cons c <$> view (j, j', S col).
Proof.
  unfold view. cbn [fst snd]. generalize (slice j j'). induction 1 as [|key l Hk _ IH]; [done|].
  rewrite !fmap_cons, IH. f_equal. by apply drop_S.
Qed.

Lemma node_edges_spec fuel j stop col :
  stop - j <= fuel -> j <= stop -> stop <= length keys -> Forall (fun key => col < length key) (slice j stop) ->
  StronglySorted bytes_lt (view (j, stop, col)) ->
  exists es, node_edges keys fuel j stop col = Some es /\ view (j, stop, col) = mjoin (map edge_keys es) /\
    Forall (fun e => node_ok e.2) es.
Proof.
  revert j. induction fuel as [|fuel IH]; intros j Hf Hj Hs Hlen Hsort; cbn [node_edges].
  all: destruct (Nat.ltb_spec j stop) as [Hlt|Hge]; 
    [|exists []; unfold view; cbn [fst snd]; replace stop with j by lia; rewrite slice_empty; by repeat constructor].
  { lia. }
  destruct (lookup_lt_is_Some_2 keys j) as [key Hkey]; [lia|]. rewrite Hkey. cbn [mbind option_bind].
  pose proof Hlen as Hlen'. rewrite (slice_cons _ _ _ Hkey Hlt), Forall_cons in Hlen'. destruct Hlen' as [Hcol _].
  destruct (lookup_lt_is_Some_2 key col Hcol) as [c Hc]. rewrite Hc. cbn [mbind option_bind].
  destruct (run_end_spec (stop - j) j stop col c) as (j' & -> & H1 & H2 & Hrun & Hlt'); [done..|].
  specialize (Hlt' _ Hkey Hc Hlt). cbn [mbind option_bind].
  assert (Hv : view (j, stop, col) = edge_keys (c, (j, j', S col)) ++ view (j', stop, col)).
  { unfold edge_keys. cbn [fst snd]. rewrite <- view_run by done. unfold view. cbn [fst snd].
    by rewrite (slice_split j j' stop), fmap_app by lia. }
  rewrite Hv in Hsort |- *. apply StronglySorted_app in Hsort as (_ & Hs1 & Hs2).
  rewrite (slice_split j j' stop), Forall_app in Hlen by lia. destruct Hlen as [Hlen1 Hlen2].
  destruct (IH j') as (es & -> & -> & Hes); [lia..|done|done|]. cbn [mbind option_bind].
  eexists. split_and!; [done|done|]. constructor; [|done]. split; cbn [fst snd]; [lia|lia| |by eapply sorted_tails].
  eapply Forall_impl; [exact Hlen1|]. cbn. lia.
Qed.

(** ** What a node hands to its edges *)

Definition leaf_node (n : nat * nat * nat) : bool := bool_decide (head (view n) = Some []).

Lemma node_first n : node_ok n -> exists key, keys !! n.1.1 = Some key /\ n.2 <= length key /\
  view n = drop n.2 key :: view (S n.1.1, n.1.2, n.2).
Proof.
  intros [Hne Hr Hc _]. destruct n as [[start stop] col]. cbn [fst snd] in *.
  destruct (lookup_lt_is_Some_2 keys start) as [key Hkey]; [lia|]. exists key. unfold view. cbn [fst snd].
  rewrite (slice_cons _ _ _ Hkey) in Hc |- * by lia. apply Forall_cons in Hc as [? _]. done.
Qed.

Lemma leaf_first n key :
  node_ok n -> keys !! n.1.1 = Some key -> (n.2 =? length key) = leaf_node n.
Proof.
  intros Hok Hk. destruct (node_first _ Hok) as (key' & Hk' & Hlen & Hv). simplify_eq. unfold leaf_node.
  rewrite Hv. cbn [head]. apply eq_true_iff_eq. rewrite Nat.eqb_eq, bool_decide_eq_true. split.
  - intros ->. by rewrite drop_all.
  - intros [= H]. apply (f_equal length) in H. rewrite length_drop in H. cbn in H. lia.
Qed.

(** The keys of a node that go on. *)
Lemma node_rest n :
  node_ok n ->
  let start := if leaf_node n then S n.1.1 else n.1.1 in
  start <= n.1.2 /\ view n = (if leaf_node n then [[]] else []) ++ view (start, n.1.2, n.2) /\
  Forall (fun key => n.2 < length key) (slice start n.1.2) /\ StronglySorted bytes_lt (view (start, n.1.2, n.2)).
Proof.
  intros Hok start. destruct (node_first _ Hok) as (key & Hkey & Hlen & Hv). pose proof Hok as [Hne Hr Hc Hs].
  assert (Hrest : Forall (fun key => n.2 < length key) (slice (S n.1.1) n.1.2)).
  { rewrite Hv in Hs. apply StronglySorted_inv in Hs as [_ Hs]. unfold view in Hs. cbn [fst snd] in Hs.
    rewrite Forall_fmap in Hs. rewrite (slice_cons _ _ _ Hkey), Forall_cons in Hc by lia. destruct Hc as [_ Hc].
    rewrite Forall_forall in Hs, Hc |- *. intros k Hk. specialize (Hc k Hk). pose proof (Hs k Hk) as Hlt. cbn in Hlt.
    destruct (Nat.eq_dec n.2 (length k)) as [E|]; [|lia]. rewrite E, drop_all in Hlt. by apply bytes_lt_nil in Hlt. }
  unfold start. destruct (leaf_node n) eqn:El.
  - split; [lia|]. rewrite <- (leaf_first _ _ Hok Hkey) in El. apply Nat.eqb_eq in El.
    rewrite Hv, El, drop_all. split; [by rewrite <- El|]. split; [by rewrite <- El|].
    rewrite Hv in Hs. apply StronglySorted_inv in Hs as [Hs _]. by rewrite El in Hs.
  - split; [lia|]. assert (Hn : (n.1.1, n.1.2, n.2) = n) by by destruct n as [[? ?] ?]. rewrite Hn.
    split; [done|]. split; [|done]. rewrite (slice_cons _ _ _ Hkey) by lia. constructor; [|done].
    rewrite <- (leaf_first _ _ Hok Hkey) in El. apply Nat.eqb_neq in El. lia.
Qed.

(** The bytes of the keys below, and one for the node. *)
Definition node_work (n : nat * nat * nat) : nat := S (length (mjoin (view n))).

Lemma join_cons_length c (l : list bytes) : length (mjoin (cons c <$> l)) = length l + length (mjoin l).
Proof.
  induction l as [|a l IH]; [done|]. rewrite fmap_cons.
  change (mjoin ((c :: a) :: (cons c <$> l))) with ((c :: a) ++ mjoin (cons c <$> l)).
  change (mjoin (a :: l)) with (a ++ mjoin l). rewrite !length_app, IH. cbn [length]. lia.
Qed.

Lemma edges_work es :
  Forall (fun e => node_ok e.2) es ->
  sum_list (node_work <$> (snd <$> es)) <= length (mjoin (mjoin (map edge_keys es))).
Proof.
  induction 1 as [|e es He _ IH]; [done|].
  change (mjoin (map edge_keys (e :: es))) with (edge_keys e ++ mjoin (map edge_keys es)).
  rewrite list.join_app, length_app. cbn [fmap list_fmap sum_list]. unfold edge_keys at 1. rewrite join_cons_length.
  unfold node_work at 1. destruct (node_first _ He) as (key & _ & _ & Hv).
  assert (0 < length (view e.2)) by (rewrite Hv; cbn; lia).
  etrans; [|apply Nat.add_le_mono_l, IH]. simpl. lia.
Qed.

(** ** The invariant of the encoder *)

Definition sub_of (q : list (nat * nat * nat)) (i : nat) : list bytes := view (default (0, 0, 0) (q !! i)).

(** The bits of the nodes: a zero per edge, then a one. *)
Definition layout_bits (K : list (list ascii)) : list bool :=
  mjoin (map (fun ls => replicate (length ls) false ++ [true]) K).

Record enc_inv (st : Enc) (K : list (list ascii)) : Prop := {
  inv_labels : enc_labels st = mjoin K;
  inv_idx : label_idx st = length (layout_bits K);
  inv_queue : length (queue st) = S (length (mjoin K));
  inv_bitmap : bits_are (enc_bitmap st) (layout_bits K);
  inv_leaves_ok : Forall word_ok (enc_leaves st);
  inv_leaves : forall p, get_bit (enc_leaves st) p =
    (p <? length K) && leaf_node (default (0, 0, 0) (queue st !! p));
  inv_nodes : Forall node_ok (queue st);
  inv_sub : forall i ls, K !! i = Some ls ->
    sub_of (queue st) i = (if leaf_node (default (0, 0, 0) (queue st !! i)) then [[]] else []) ++
      below (sub_of (queue st)) ls (S (edges_before K i));
}.

Lemma layout_bits_snoc K ls :
  layout_bits (K ++ [ls]) = layout_bits K ++ replicate (length ls) false ++ [true].
Proof. unfold layout_bits. rewrite map_app, list.join_app. cbn. by rewrite app_nil_r. Qed.

Lemma push_edges st es B :
  bits_are (enc_bitmap st) B -> label_idx st = length B ->
  let st' := foldl push_edge st es in
  queue st' = queue st ++ (snd <$> es) /\ enc_leaves st' = enc_leaves st /\
  enc_labels st' = enc_labels st ++ (fst <$> es) /\
  label_idx st' = length (B ++ replicate (length es) false) /\
  bits_are (enc_bitmap st') (B ++ replicate (length es) false).
Proof.
  revert st B. induction es as [|e es IH]; intros st B Hb Hi; cbn [foldl].
  { cbn. by rewrite !app_nil_r. }
  destruct (IH (push_edge st e) (B ++ [false])) as (H1 & H2 & H3 & H4 & H5).
  - cbn [push_edge enc_bitmap]. rewrite Hi. by apply set_bit_snoc.
  - cbn [push_edge label_idx]. rewrite length_app, Hi. cbn. lia.
  - cbn [push_edge queue enc_leaves enc_labels label_idx] in *. rewrite <- app_assoc in H1, H3, H4, H5.
    by split_and!.
Qed.

Lemma below_ext sub sub' ls n :
  (forall i, n <= i < n + length ls -> sub i = sub' i) -> below sub ls n = below sub' ls n.
Proof.
  revert n. induction ls as [|l ls IH]; intros n H; [done|]. cbn [below length] in *.
  rewrite (H n) by lia. f_equal. apply IH. intros i Hi. apply H. lia.
Qed.

(** The edges lead to the nodes at the end of the queue. *)
Lemma below_edges q es :
  below (sub_of (q ++ (snd <$> es))) (fst <$> es) (length q) = mjoin (map edge_keys es).
Proof.
  revert q. induction es as [|e es IH]; intros q; [done|].
  change (mjoin (map edge_keys (e :: es))) with (edge_keys e ++ mjoin (map edge_keys es)). rewrite <- (IH (q ++ [e.2])).
  cbn [fmap list_fmap below]. rewrite length_app, <- app_assoc. cbn [length app]. rewrite Nat.add_1_r. f_equal.
  unfold edge_keys, sub_of. by rewrite list_lookup_middle.
Qed.

Lemma edges_before_app K K' i : i <= length K -> edges_before (K ++ K') i = edges_before K i.
Proof. intros. unfold edges_before. by rewrite take_app_le. Qed.

Lemma edges_before_all K : edges_before K (length K) = length (mjoin K).
Proof. unfold edges_before. by rewrite take_ge. Qed.

Lemma edges_before_le K i ls : K !! i = Some ls -> edges_before K i + length ls <= length (mjoin K).
Proof.
  intros H. unfold edges_before. rewrite <- (take_drop_middle _ _ _ H) at 2. rewrite list.join_app, length_app.
  cbn. rewrite length_app. lia.
Qed.

(** One node: its edges, and its work is more than that of its edges. *)
Lemma node_edges_ok n :
  node_ok n ->
  let start := if leaf_node n then S n.1.1 else n.1.1 in
  exists es, node_edges keys (n.1.2 - start) start n.1.2 n.2 = Some es /\
    view n = (if leaf_node n then [[]] else []) ++ mjoin (map edge_keys es) /\
    Forall (fun e => node_ok e.2) es /\ sum_list (node_work <$> (snd <$> es)) < node_work n.
Proof.
  intros Hok start. destruct (node_rest _ Hok) as (Hs & Hv & Hlen & Hsort). fold start in Hs, Hv, Hlen, Hsort.
  destruct (node_edges_spec (n.1.2 - start) start n.1.2 n.2) as (es & He & Hve & Hes); [done|done|apply Hok|done|done|].
  exists es. rewrite <- Hve. split_and!; [done|done|done|].
  eapply Nat.le_lt_trans; [by apply edges_work|]. rewrite <- Hve. unfold node_work. rewrite Hv.
  rewrite list.join_app, length_app. case_match; cbn; lia.
Qed.

Lemma old_sub q q' i : i < length q -> sub_of (q ++ q') i = sub_of q i.
Proof. intros. unfold sub_of. by rewrite lookup_app_l. Qed.

(** The keys of the nodes that are done, and those of the node at hand. *)
Lemma inv_sub_step st K n es i ls :
  enc_inv st K -> queue st !! length K = Some n ->
  view n = (if leaf_node n then [[]] else []) ++ mjoin (map edge_keys es) ->
  (K ++ [fst <$> es]) !! i = Some ls ->
  let q := queue st ++ (snd <$> es) in
  sub_of q i = (if leaf_node (default (0, 0, 0) (q !! i)) then [[]] else []) ++
    below (sub_of q) ls (S (edges_before (K ++ [fst <$> es]) i)).
Proof.
  intros Hinv Hn Hv Hls q. pose proof (lookup_lt_Some _ _ _ Hn) as Hlt.
  apply lookup_app_Some in Hls as [Hls|[Hge Hls]].
  - pose proof (lookup_lt_Some _ _ _ Hls) as Hi. unfold q. rewrite old_sub, lookup_app_l by lia.
    rewrite (inv_sub _ _ Hinv _ _ Hls), edges_before_app by lia. f_equal. apply below_ext. intros j Hj.
    pose proof (edges_before_le _ _ _ Hls). rewrite old_sub; [done|]. rewrite (inv_queue _ _ Hinv). lia.
  - apply list_lookup_singleton_Some in Hls as [Hi <-]. replace i with (length K) by lia.
    unfold q. rewrite old_sub, lookup_app_l, edges_before_app, edges_before_all, Hn by lia.
    rewrite <- (inv_queue _ _ Hinv), below_edges. unfold sub_of. by rewrite Hn.
Qed.

Lemma inv_leaves_step st K n q :
  enc_inv st K -> queue st !! length K = Some n ->
  forall p, get_bit (if leaf_node n then set_bit (enc_leaves st) (length K) true else enc_leaves st) p =
    (p <? S (length K)) && leaf_node (default (0, 0, 0) ((queue st ++ q) !! p)).
Proof.
  intros Hinv Hn p. pose proof (lookup_lt_Some _ _ _ Hn) as Hlt.
  assert (Hg : get_bit (if leaf_node n then set_bit (enc_leaves st) (length K) true else enc_leaves st) p =
    leaf_node n && (p =? length K) || get_bit (enc_leaves st) p).
  { destruct (leaf_node n); [by rewrite set_bit_get|done]. }
  rewrite Hg, (inv_leaves _ _ Hinv). destruct (Nat.lt_trichotomy p (length K)) as [Hp|[->|Hp]].
  - rewrite (proj2 (Nat.eqb_neq _ _)), andb_false_r, !(proj2 (Nat.ltb_lt _ _)) by lia. cbn.
    by rewrite lookup_app_l by lia.
  - rewrite Nat.eqb_refl, Nat.ltb_irrefl, (proj2 (Nat.ltb_lt _ _)), lookup_app_l, Hn by lia. cbn. by destruct (leaf_node n).
  - rewrite (proj2 (Nat.eqb_neq _ _)), andb_false_r, !(proj2 (Nat.ltb_ge _ _)) by lia. done.
Qed.

Lemma encode_node_step st K n :
  enc_inv st K -> queue st !! length K = Some n ->
  exists st' ls (es : list (ascii * (nat * nat * nat))), encode_node keys (length K) st = Some st' /\ enc_inv st' (K ++ [ls]) /\
    queue st' = queue st ++ (snd <$> es) /\ sum_list (node_work <$> (snd <$> es)) < node_work n.
Proof.
  intros Hinv Hn. pose proof Hinv as [Hlab Hidx Hq Hbits Hlok Hleaves Hnodes Hsub].
  assert (Hok : node_ok n) by (rewrite Forall_forall in Hnodes; eauto using list_elem_of_lookup_2).
  destruct (node_edges_ok n Hok) as (es & Hes & Hv & Heok & Hwork).
  destruct (node_first _ Hok) as (key & Hkey & _).
  set (ls := if leaf_node n then set_bit (enc_leaves st) (length K) true else enc_leaves st).
  set (st0 := mkEnc (queue st) ls (enc_bitmap st) (enc_labels st) (label_idx st)).
  destruct (push_edges st0 es (layout_bits K) Hbits Hidx) as (H1 & H2 & H3 & H4 & H5).
  change (queue st0) with (queue st) in H1. change (enc_leaves st0) with ls in H2.
  change (enc_labels st0) with (enc_labels st) in H3.
  pose proof (leaf_first _ _ Hok Hkey) as Hleaf. unfold encode_node. rewrite Hn.
  destruct n as [[start stop] col]. cbn [fst snd mbind option_bind] in *. rewrite Hkey. cbn [mbind option_bind].
  rewrite Hleaf, Hes. cbn [mbind option_bind]. fold ls. fold st0.
  eexists _, (fst <$> es), es. split; [reflexivity|]. split; [|by split].
  constructor; cbn [queue enc_leaves enc_bitmap enc_labels label_idx].
  - rewrite H3, list.join_app, <- Hlab. cbn. by rewrite app_nil_r.
  - rewrite H4, layout_bits_snoc, !length_app, !length_replicate, length_fmap. cbn. lia.
  - rewrite H1, list.join_app, !length_app, Hq. cbn. rewrite app_nil_r, !length_fmap. lia.
  - rewrite layout_bits_snoc, length_fmap, H4, app_assoc. by apply set_bit_snoc.
  - rewrite H2. unfold ls. case_match; [by apply set_bit_ok|done].
  - rewrite H1, H2, length_app, Nat.add_1_r. by apply inv_leaves_step.
  - rewrite H1. apply Forall_app. split; [done|]. by apply Forall_fmap.
  - rewrite H1. intros i ls' Hi. by eapply inv_sub_step.
Qed.

(** The loop ends: what is left of the queue is at most [fuel] work. *)
Lemma encode_loop_ok fuel st K :
  enc_inv st K -> length K <= length (queue st) ->
  sum_list (node_work <$> drop (length K) (queue st)) <= fuel ->
  exists st' K', encode_loop keys fuel (length K) st = Some st' /\ enc_inv st' K' /\
    length K' = length (queue st') /\ queue st' !! 0 = queue st !! 0.
Proof.
  revert st K. induction fuel as [|fuel IH]; intros st K Hinv Hle Hw; cbn [encode_loop].
  all: destruct (Nat.ltb_spec (length K) (length (queue st))) as [Hlt|Hge]; [|exists st, K; split_and!; (done || lia)].
  all: destruct (lookup_lt_is_Some_2 _ _ Hlt) as [n Hn].
  all: rewrite (drop_S _ _ _ Hn) in Hw; rewrite fmap_cons in Hw; cbn [sum_list] in Hw; unfold id at 1 in Hw.
  { unfold node_work in Hw. simpl in Hw. lia. }
  destruct (encode_node_step _ _ _ Hinv Hn) as (st1 & ls & es & -> & Hinv1 & Hq & Hes). cbn [mbind option_bind].
  destruct (IH st1 (K ++ [ls]) Hinv1) as (st' & K' & Hl & Hinv' & Hlen & H0).
  - rewrite Hq, !length_app. cbn. lia.
  - rewrite length_app, Hq, Nat.add_1_r, drop_app_le, fmap_app by lia.
    rewrite sum_list_with_app. lia.
  - exists st', K'. rewrite length_app, Nat.add_1_r in Hl. split_and!; [done..|].
    rewrite H0, Hq. apply lookup_app_l. lia.
Qed.

(** ** The layout of the encoder *)

Lemma layout_bits_start K i : i <= length K -> length (layout_bits (take i K)) = start_bit K i.
Proof.
  intros Hi. unfold start_bit, edges_before. assert (Hl : length (take i K) = i) by (rewrite length_take; lia).
  rewrite <- Hl at 2. generalize (take i K). clear. intros K.
  induction K as [|ls K IH] using rev_ind; [done|].
  rewrite layout_bits_snoc, list.join_app, !length_app, length_replicate, IH. cbn. rewrite app_nil_r. lia.
Qed.

Lemma layout_bits_node K i ls e :
  K !! i = Some ls ->
  layout_bits K !! (start_bit K i + e) =
    (replicate (length ls) false ++ [true] ++ layout_bits (drop (S i) K)) !! e.
Proof.
  intros H. pose proof (lookup_lt_Some _ _ _ H) as Hi. rewrite <- (layout_bits_start K i) by lia.
  assert (E : layout_bits K = layout_bits (take i K) ++ replicate (length ls) false ++ [true] ++ layout_bits (drop (S i) K)).
  { transitivity (layout_bits (take i K ++ ls :: drop (S i) K)); [by rewrite (take_drop_middle _ _ _ H)|].
    unfold layout_bits. rewrite map_app, list.join_app. cbn. by rewrite <- app_assoc. }
  rewrite E at 1. by rewrite lookup_app_r, Nat.add_comm, Nat.add_sub by lia.
Qed.

Lemma layout_zeros_ok ws K i e :
  bits_are ws (layout_bits K) -> i < length K -> e < length (default [] (K !! i)) ->
  get_bit ws (start_bit K i + e) = false.
Proof.
  intros (_ & _ & Hg) [ls Hls]%lookup_lt_is_Some_2. rewrite Hls. cbn. intros He.
  rewrite Hg, (layout_bits_node _ _ _ _ Hls), lookup_app_l by by rewrite length_replicate.
  by rewrite lookup_replicate_2.
Qed.

Lemma layout_ones_ok ws K i :
  bits_are ws (layout_bits K) -> i < length K -> get_bit ws (start_bit K i + length (default [] (K !! i))) = true.
Proof.
  intros (_ & _ & Hg) [ls Hls]%lookup_lt_is_Some_2. rewrite Hls. cbn.
  rewrite Hg, (layout_bits_node _ _ _ _ Hls). cbn [app].
  by rewrite list_lookup_middle by by rewrite length_replicate.
Qed.

(** The traversal of what the encoder wrote. *)
Definition encoded (st : Enc) : DomainSetTraversal :=
  mkTraversal (enc_leaves st) (enc_bitmap st) (index_new (enc_bitmap st)) (enc_labels st).

Lemma encoded_emits st K h :
  enc_inv st K -> length K = length (queue st) ->
  (forall key, key ∈ sub_of (queue st) 0 -> length key < h) -> 0 < h ->
  exists ks, emits (encoded st) h 0 0 ks /\ sub_of (queue st) 0 = root_key (encoded st) 0 ++ ks.
Proof.
  intros Hinv Hlen Hh H0. pose proof Hinv as [Hlab Hidx Hq Hbits Hlok Hleaves Hnodes Hsub].
  assert (Hroot : forall i, i < length K -> (if leaf_node (default (0, 0, 0) (queue st !! i)) then [[]] else []) = root_key (encoded st) i).
  { intros i Hi. unfold root_key. cbn [encoded leaves]. rewrite Hleaves, (proj2 (Nat.ltb_lt _ _)) by done. done. }
  apply (emits_root (encoded st) K); cbn [encoded label_index label_bitmap labels leaves]; try done.
  - apply Hbits.
  - rewrite edges_before_all. lia.
  - rewrite <- layout_bits_start, take_ge by lia. apply Hbits.
  - intros i e. by apply layout_zeros_ok.
  - intros i. by apply layout_ones_ok.
  - intros i ls Hls. rewrite (Hsub _ _ Hls), Hroot by eauto using lookup_lt_Some. done.
  - intros i Hi. rewrite Hlen in Hi. apply lookup_lt_is_Some_2 in Hi as [n Hn]. unfold sub_of. rewrite Hn. cbn [default from_option id].
    rewrite Forall_forall in Hnodes. destruct (node_first n) as (key & _ & _ & ->); [|done].
    eauto using list_elem_of_lookup_2.
Qed.

End Nodes.

Lemma sorted_view keys : view keys (0, length keys, 0) = keys.
Proof. unfold view, slice. cbn [fst snd]. rewrite Nat.sub_0_r, drop_0, take_ge by done. apply list_fmap_id. Qed.

(** Distinct keys encode, and the walk of the encoded trie has these keys. *)
Lemma encode_trie_ok keys h :
  StronglySorted bytes_lt keys -> keys <> [] -> (forall key, key ∈ keys -> length key < h) ->
  exists st K, encode_trie keys = Some st /\ enc_inv keys st K /\ length K = length (queue st) /\
    exists ks, emits (encoded st) h 0 0 ks /\ keys = root_key (encoded st) 0 ++ ks.
Proof.
  intros Hsort Hne Hh. set (st0 := mkEnc [(0, length keys, 0)] [] [] [] 0).
  assert (Hroot : node_ok keys (0, length keys, 0)).
  { split; cbn [fst snd]; [destruct keys; [done|cbn; lia]|done|apply Forall_forall; lia|by rewrite sorted_view]. }
  assert (Hinv : enc_inv keys st0 []).
  { constructor; cbn; done || by constructor. }
  destruct (encode_loop_ok keys (encode_fuel keys) st0 [] Hinv) as (st & K & Henc & HinvK & Hlen & H0).
  - cbn. lia.
  - cbn [st0 queue length drop fmap list_fmap sum_list_with]. unfold node_work, id. rewrite sorted_view.
    unfold encode_fuel. lia.
  - assert (Hsub : sub_of keys (queue st) 0 = keys) by (unfold sub_of; rewrite H0; apply sorted_view).
    exists st, K. split_and!; [done..|].
    destruct (encoded_emits keys st K h HinvK Hlen) as (ks & He & Hk).
    + by rewrite Hsub.
    + destruct keys as [|x ?]; [done|]. specialize (Hh x ltac:(left)). lia.
    + exists ks. by rewrite <- Hk, Hsub.
Qed.

(** ** Reading the bytes back *)

(** [f] reads [x] off the bytes [a]. *)
Definition reads_off {A} (f : ByteReader -> result MrsError (A * ByteReader)) (a : bytes) (x : A) : Prop :=
  forall rest pos, f (mkBytes (a ++ rest) pos) = Ok (x, mkBytes rest (pos + Z.of_nat (length a))).

Lemma off_slice what a : reads_off (fun r => read_slice r what (Z.of_nat (length a))) a a.
Proof.
  intros rest pos. unfold read_slice, need. cbn [br_data br_pos]. rewrite length_app.
  rewrite (proj2 (Z.ltb_ge _ _)) by lia. cbn. rewrite Nat2Z.id, take_app_length, drop_app_length. done.
Qed.

Lemma off_u8 what z : (0 <= z < 256)%Z -> reads_off (fun r => br_u8 r what) [z_byte z] z.
Proof.
  intros Hz rest pos. unfold br_u8. rewrite (off_slice what [z_byte z]). cbn [mbind result_bind length].
  do 2 f_equal. unfold from_be_bytes. cbn. rewrite byte_z_byte, Z.mod_small by done. done.
Qed.

Lemma off_u64 what z : word_ok z -> reads_off (fun r => br_u64 r what) (to_be_bytes 8 z) z.
Proof.
  intros Hz rest pos. unfold br_u64. pose proof (off_slice what (to_be_bytes 8 z) rest pos) as H.
  rewrite to_be_bytes_length in *. change (Z.of_nat 8) with 8%Z in *. rewrite H. cbn [mbind result_bind].
  rewrite be_roundtrip_small; [done|]. unfold word_ok, is_u64 in Hz. change (256 ^ Z.of_nat 8)%Z with (2 ^ 64)%Z. lia.
Qed.

Lemma off_i64 what z : (0 <= z < 2 ^ 63)%Z -> reads_off (fun r => br_i64 r what) (to_be_bytes 8 z) z.
Proof.
  intros Hz rest pos. unfold br_i64. pose proof (off_slice what (to_be_bytes 8 z) rest pos) as H.
  rewrite to_be_bytes_length in *. change (Z.of_nat 8) with 8%Z in *. rewrite H. cbn [mbind result_bind].
  rewrite be_roundtrip_small by (change (256 ^ Z.of_nat 8)%Z with (2 ^ 64)%Z; lia).
  unfold to_i64. by rewrite (proj2 (Z.ltb_lt _ _)) by lia.
Qed.

Lemma off_words what ws :
  Forall word_ok ws -> reads_off (fun r => read_words (length ws) r what) (mjoin (to_be_bytes 8 <$> ws)) ws.
Proof.
  induction 1 as [|w ws Hw _ IH]; intros rest pos; cbn [length read_words].
  { cbn. by rewrite Z.add_0_r. }
  rewrite fmap_cons. change (mjoin (to_be_bytes 8 w :: (to_be_bytes 8 <$> ws))) with (to_be_bytes 8 w ++ mjoin (to_be_bytes 8 <$> ws)).
  rewrite <- app_assoc, (off_u64 what w Hw). cbn [mbind result_bind]. rewrite IH. cbn [mbind result_bind].
  rewrite length_app. do 3 f_equal. lia.
Qed.

Lemma words_length ws : length (mjoin (to_be_bytes 8 <$> ws)) = 8 * length ws.
Proof.
  induction ws as [|w ws IH]; [done|]. rewrite fmap_cons.
  change (mjoin (to_be_bytes 8 w :: (to_be_bytes 8 <$> ws))) with (to_be_bytes 8 w ++ mjoin (to_be_bytes 8 <$> ws)).
  rewrite length_app, IH, to_be_bytes_length. cbn [length]. lia.
Qed.

Lemma off_u64_vec what ws :
  Forall word_ok ws -> ws <> [] -> (Z.of_nat (length ws) * 8 < 2 ^ 63)%Z ->
  reads_off (fun r => read_u64_vec r what)
    (to_be_bytes 8 (Z.of_nat (length ws)) ++ mjoin (to_be_bytes 8 <$> ws)) ws.
Proof.
  intros Hok Hne Hlen rest pos. assert (0 < length ws) by (destruct ws; [done|cbn; lia]).
  unfold read_u64_vec. rewrite <- app_assoc, (off_i64 what) by lia. cbn [mbind result_bind].
  rewrite (proj2 (Z.ltb_ge _ 1)), (proj2 (Z.leb_gt (2 ^ 64) _)) by lia.
  unfold need. cbn [br_data br_pos]. rewrite length_app, words_length, (proj2 (Z.ltb_ge _ _)) by lia. cbn [mbind result_bind].
  rewrite Nat2Z.id, (off_words what ws Hok), length_app. do 3 f_equal. lia.
Qed.

(** Opening a file that was encoded. *)
Lemma open_encoded `{ZL : ZstdLib} behavior count body file :
  encode_upstream_mrs behavior count body = Some file ->
  behavior = TYPE_DOMAIN \/ behavior = TYPE_IPCIDR -> (0 <= count < 2 ^ 63)%Z ->
  (Z.of_nat (length (upstream_inner behavior count body)) <= MAX_DECOMPRESSED_BYTES)%Z ->
  take 4 file = ZSTD_MAGIC /\
  exists rd, Upstream.open file = Ok rd /\ Upstream.behavior rd = behavior /\ Upstream.body rd = body /\ Upstream.count rd = count.
Proof.
  unfold encode_upstream_mrs. set (inner := upstream_inner behavior count body).
  destruct (encode_all inner) as [c|] eqn:Ec; [|done]. intros [= ->] Hbeh Hcount Hlen.
  split; [by eapply encode_magic|]. destruct (encode_decode _ _ Ec) as (s & Hd & Hs & Hc).
  unfold Upstream.open, decompress_payload, decompress_payload_bounded. rewrite Hd.
  rewrite (read_to_end_all _ _ inner) by (done || lia). rewrite (proj2 (Z.ltb_ge _ _)) by done. cbn [mbind result_bind].
  assert (Hmagic : forall rest pos, read_slice (mkBytes (UPSTREAM_MRS_MAGIC ++ rest) pos) (b! "upstream_magic") 4 =
    Ok (UPSTREAM_MRS_MAGIC, mkBytes rest (pos + 4))) by (intros; apply (off_slice _ UPSTREAM_MRS_MAGIC)).
  assert (Hextra : forall rest pos, read_slice (mkBytes rest pos) (b! "extra") 0 = Ok ([], mkBytes rest (pos + 0)))
    by (intros; apply (off_slice _ [])).
  unfold bytes_new. change (mkBytes inner 0) with (mkBytes (upstream_inner behavior count body) 0).
  unfold upstream_inner. rewrite Hmagic.
  cbn [mbind result_bind]. rewrite bool_decide_eq_true_2 by done. cbn [negb].
  rewrite (off_u8 _ behavior) by (destruct Hbeh as [-> | ->]; done). cbn [mbind result_bind].
  rewrite (proj2 (andb_false_iff _ _)) by (destruct Hbeh as [-> | ->]; [by left|by right]).
  rewrite off_i64 by done. cbn [mbind result_bind]. rewrite (proj2 (Z.ltb_ge _ _)) by lia.
  rewrite off_i64 by done. cbn [mbind result_bind]. rewrite Z.ltb_irrefl.
  rewrite Hextra. cbn [mbind result_bind]. eexists. split; [reflexivity|].
  unfold Upstream.body. cbn [Upstream.behavior Upstream.count body_offset decompressed br_data]. split_and!; try done.
  unfold inner, upstream_inner. rewrite !app_assoc. apply drop_app_length'. rewrite !length_app. lia.
Qed.

Lemma read_raw leaves bitmap labels :
  Forall word_ok leaves -> Forall word_ok bitmap -> leaves <> [] -> bitmap <> [] -> labels <> [] ->
  sum_list (count_ones 64 <$> bitmap) <= length labels + 1 ->
  (Z.of_nat (length (encode_domain_set_raw leaves bitmap labels)) < 2 ^ 63)%Z ->
  read_domain_set (encode_domain_set_raw leaves bitmap labels) =
    Ok (mkTraversal leaves bitmap (index_new bitmap) labels).
Proof.
  intros Hl Hb Hln Hbn Hlab Hcount. unfold encode_domain_set_raw.
  cbn [length]. rewrite !length_app, !words_length, !to_be_bytes_length. intros Hsize.
  assert (0 < length labels) by (destruct labels; [done|cbn; lia]).
  unfold read_domain_set, bytes_new. change (z_byte 1 :: ?x) with ([z_byte 1] ++ x).
  rewrite (off_u8 _ 1) by done. cbn [mbind result_bind Z.eqb Pos.eqb negb].
  rewrite (app_assoc (to_be_bytes 8 (Z.of_nat (length leaves)))), (off_u64_vec _ leaves) by (done || lia).
  cbn [mbind result_bind].
  rewrite (app_assoc (to_be_bytes 8 (Z.of_nat (length bitmap)))), (off_u64_vec _ bitmap) by (done || lia).
  cbn [mbind result_bind]. rewrite (off_i64 _ (Z.of_nat (length labels))) by lia. cbn [mbind result_bind].
  rewrite (proj2 (Z.ltb_ge _ 1)) by lia.
  assert (Hs : forall what pos, read_slice (mkBytes labels pos) what (Z.of_nat (length labels)) =
    Ok (labels, mkBytes [] (pos + Z.of_nat (length labels)))).
  { intros what pos. pose proof (off_slice what labels [] pos) as H'. by rewrite app_nil_r in H'. }
  rewrite Hs. cbn [mbind result_bind]. by rewrite (proj2 (Nat.ltb_ge _ _)).
Qed.

(** ** The walk of the encoded set *)

Lemma positions_length base ws : length (positions base ws) = sum_list (count_ones 64 <$> ws).
Proof.
  revert base. induction ws as [|w ws IH]; intros base; [done|]. cbn [positions]. rewrite length_app, length_positions, IH.
  done.
Qed.

Lemma count_nodes ws K :
  bits_are ws (layout_bits K) -> length K = S (length (mjoin K)) -> sum_list (count_ones 64 <$> ws) = length K.
Proof.
  intros Hb HK. rewrite <- (positions_length 0), <- (take_ge ws (length ws)), <- positions_seq by done.
  rewrite (List.filter_ext (bit_at ws) (get_bit ws)) by (intros; by rewrite get_bit_exact).
  pose proof Hb as (_ & Hlen & Hget). set (t := mkTraversal [] ws (index_new ws) []).
  assert (Hstart : start_bit K (length K) = length (layout_bits K)) by (rewrite <- layout_bits_start, take_ge by done; done).
  replace (length ws * 64) with (start_bit K (length K) + (length ws * 64 - start_bit K (length K))) by lia.
  rewrite seq_app, List.filter_app, length_app.
  assert (Hones : List.filter (get_bit ws) (seq 0 (start_bit K (length K))) = (fun j => start_bit K (S j) - 1) <$> seq 0 (length K)).
  { apply (layout_ones t K); [by rewrite edges_before_all|cbn; lia|intros i e; by apply layout_zeros_ok|intros i; by apply layout_ones_ok|done]. }
  rewrite Hones, length_fmap, length_seq, filter_false; [cbn; lia|]. apply Forall_forall. intros p [Hp _]%elem_of_seq.
  cbn. rewrite Hget, lookup_ge_None_2 by lia. done.
Qed.

Lemma emits_no_leaf t h node idx ks :
  (forall p, get_bit (leaves t) p = false) -> emits t h node idx ks -> ks = [].
Proof.
  intros Hl. induction 1 as [|h node idx label next bm sub rest Hc _ -> _ ->]; [done|]. by rewrite Hl.
Qed.

Lemma emits_no_label t h node idx ks : labels t = [] -> emits t h node idx ks -> ks = [].
Proof.
  intros Hl. induction 1 as [|h node idx label next bm sub rest Hc]; [done|]. exfalso. revert Hc. unfold child.
  case_match; [done|]. by rewrite Hl, lookup_nil.
Qed.

Lemma total_cons k ks : total (k :: ks) = length k + total ks.
Proof. unfold total. change (mjoin (k :: ks)) with (k ++ mjoin ks). apply length_app. Qed.

Lemma total_perm ks ks' : ks ≡ₚ ks' -> total ks = total ks'.
Proof. induction 1 as [|x l l' _ IH|x y l|]; rewrite ?total_cons; lia. Qed.

Lemma sort_keys_strict keys : NoDup keys -> StronglySorted bytes_lt (sort_keys keys).
Proof.
  intros Hnd. assert (Hs : StronglySorted bytes_le (sort_keys keys)) by apply (StronglySorted_merge_sort bytes_le).
  assert (Hnd' : NoDup (sort_keys keys)) by (unfold sort_keys; by rewrite merge_sort_Permutation).
  induction Hs as [|a l Hs IH Ha]; [constructor|]. apply NoDup_cons in Hnd' as [Hn Hnd']. constructor; [by apply IH|].
  rewrite Forall_forall in Ha |- *. intros b Hb. specialize (Ha b Hb). unfold bytes_le, bytes_lt in *.
  destruct (bytes_cmp a b) eqn:E; [|done|done]. apply bytes_cmp_eq in E. by subst.
Qed.

Lemma read_encoded keys st K h ks :
  enc_inv keys st K -> length K = length (queue st) ->
  emits (encoded st) h 0 0 ks -> keys = root_key (encoded st) 0 ++ ks ->
  keys <> [] -> keys <> [[]] ->
  (Z.of_nat (length (encode_domain_set_raw (enc_leaves st) (enc_bitmap st) (enc_labels st))) < 2 ^ 63)%Z ->
  read_domain_set (encode_domain_set_raw (enc_leaves st) (enc_bitmap st) (enc_labels st)) = Ok (encoded st).
Proof.
  intros Hinv HK Hem Hkeys Hne Hne' Hsize. pose proof Hinv as [Hlab _ Hq Hbits Hlok _ _ _]. apply read_raw; try done.
  - apply Hbits.
  - intros E. apply Hne. rewrite Hkeys. unfold root_key.
    assert (Hno : forall p, get_bit (leaves (encoded st)) p = false) by (intros p; cbn; by rewrite E).
    by rewrite Hno, (emits_no_leaf _ _ _ _ _ Hno Hem).
  - intros E. destruct Hbits as (_ & Hlen & _). rewrite E in Hlen. cbn in Hlen.
    destruct K as [|ls K]; [cbn in HK; lia|]. unfold layout_bits in Hlen. cbn in Hlen. rewrite !length_app in Hlen.
    cbn in Hlen. lia.
  - intros E. pose proof (emits_no_label (encoded st) _ _ _ _ E Hem) as ->. rewrite app_nil_r in Hkeys. unfold root_key in Hkeys.
    by case_match.
  - rewrite (count_nodes _ _ Hbits), Hlab by lia. lia.
Qed.

(** ** Keys of domains *)

(** An entry without the marker in front. *)
Definition plain (e : bytes) : bytes :=
  match e with c :: r => if bool_decide (c = "+"%char) then r else e | [] => [] end.

Lemma rev_chars_cons c e : char_ok c -> rev_chars (c ++ e) = rev_chars e ++ c.
Proof.
  intros Hc. unfold rev_chars. destruct (char_app c e Hc) as [_ ->].
  rewrite reverse_cons, list.join_app. cbn. by rewrite app_nil_r.
Qed.

(** The key of an entry is decoded to the entry. *)
Lemma decode_rev e : from_utf8_ok e = true -> decode_key (rev_chars e) = Some (plain e).
Proof.
  intros He. destruct (chars_valid e He) as [Hj Hc]. unfold decode_key.
  destruct (chars e) as [|c cs] eqn:Ech.
  { cbn in Hj. subst e. done. }
  apply Forall_cons in Hc as [Hc Hcs]. change (mjoin (c :: cs)) with (c ++ mjoin cs) in Hj.
  destruct (chars_join cs Hcs) as [Hv _]. rewrite <- Hj, (rev_chars_cons _ _ Hc) in *.
  assert (Hcne : c <> []) by (destruct Hc as [_ H]; intros ->; done).
  destruct (last c) as [x|] eqn:El; [|by apply last_None in El]. rewrite last_app, El.
  case_bool_decide as Hx.
  - subst x. assert (c = ["+"%char]) as -> by by apply char_last_ascii.
    cbn [plain app]. rewrite bool_decide_eq_true_2 by done. rewrite length_app. cbn [length].
    rewrite Nat.add_sub, take_app_length. destruct (rev_chars_valid _ Hv) as [-> ->]. done.
  - rewrite <- (rev_chars_cons _ _ Hc), Hj in *. destruct (rev_chars_valid _ He) as [-> ->]. f_equal.
    rewrite <- Hj. destruct c as [|a c]; [done|]. cbn [plain app]. case_bool_decide as Ha; [|done]. subst a.
    destruct (char_app ["+"%char] c ltac:(by split)) as [_ H]. destruct Hc as [_ Hc].
    change ("+"%char :: c) with (["+"%char] ++ c) in Hc. rewrite H in Hc. injection Hc as <-. by injection El as <-.
Qed.

Lemma decode_entries entries :
  Forall (fun e => from_utf8_ok e = true) entries ->
  omap decode_key (sort_keys (rev_chars <$> entries)) ≡ₚ plain <$> entries.
Proof.
  intros He. unfold sort_keys. rewrite merge_sort_Permutation.
  induction He as [|e entries He _ IH]; [done|]. rewrite !fmap_cons. cbn [omap list_omap].
  rewrite (decode_rev _ He). by constructor.
Qed.

Lemma count_skipped_perm ks ks' : ks ≡ₚ ks' -> count_skipped ks = count_skipped ks'.
Proof.
  unfold count_skipped. induction 1 as [|x l l' _ IH|x y l|]; [done| | |congruence]; cbn [List.filter];
    repeat case_match; cbn [length]; lia.
Qed.

Lemma domain_set_walks keys :
  NoDup keys -> (exists key, key ∈ keys /\ key <> []) ->
  within MAX_DOMAIN_SET_ENTRIES MAX_DOMAIN_SET_BYTES keys ->
  (forall key, key ∈ keys -> (Z.of_nat (length key) < MAX_DOMAIN_SET_DEPTH)%Z) ->
  exists body, encode_domain_set_keys keys = Some body /\
    ((Z.of_nat (length body) < 2 ^ 63)%Z ->
     walk_upstream_domain_set body = Some (omap decode_key (sort_keys keys), Ok (count_skipped keys))).
Proof.
  intros Hnd (key0 & Hk0 & Hne0) Hlim Hdepth.
  assert (Hperm : sort_keys keys ≡ₚ keys) by apply merge_sort_Permutation.
  assert (Hin : key0 ∈ sort_keys keys) by (by rewrite Hperm).
  assert (Hne : sort_keys keys <> []) by (intros E; rewrite E in Hin; by apply not_elem_of_nil in Hin).
  assert (Hne' : sort_keys keys <> [[]]) by (intros E; rewrite E in Hin; by apply list_elem_of_singleton in Hin).
  destruct (encode_trie_ok (sort_keys keys) (Z.to_nat MAX_DOMAIN_SET_DEPTH)) as (st & K & Henc & Hinv & HK & ks & Hem & Hks);
    [by apply sort_keys_strict|done| |].
  { intros key Hk. rewrite Hperm in Hk. specialize (Hdepth key Hk). lia. }
  unfold encode_domain_set_keys. rewrite Henc. cbn [mbind option_bind]. eexists. split; [done|]. intros Hsize.
  unfold walk_upstream_domain_set.
  rewrite (read_encoded _ _ _ _ ks Hinv HK Hem Hks Hne Hne' Hsize).
  cbn [mbind option_bind].
  destruct (traverse_bounded_spec (encoded st) MAX_DOMAIN_SET_ENTRIES MAX_DOMAIN_SET_BYTES MAX_DOMAIN_SET_DEPTH)
    as (out & r & Ht & _ & Hr); [done..|].
  fold (encoded st). unfold traverse. rewrite Ht. cbn [mbind option_bind].
  assert (Hout : (out, r) = (sort_keys keys, Ok tt)).
  { apply Hr. exists ks. split_and!; [done|done|]. unfold within in *. by rewrite (total_perm _ _ Hperm), Hperm. }
  injection Hout as -> ->. do 3 f_equal. apply count_skipped_perm, Hperm.
Qed.

(** C16: domain sets round trip. Distinct keys, one of which is not empty, are
    encoded without an index out of range; and what was encoded, as long as
    it is a slice of bytes, walks to the domains of exactly these keys, in
    sorted order, with the keys that are not UTF-8 skipped and counted. The
    keys stay within the limits of the walk. *)
Theorem domain_set_roundtrip keys :
  NoDup keys -> (exists key, key ∈ keys /\ key <> []) ->
  within MAX_DOMAIN_SET_ENTRIES MAX_DOMAIN_SET_BYTES keys ->
  (forall key, key ∈ keys -> (Z.of_nat (length key) < MAX_DOMAIN_SET_DEPTH)%Z) ->
  exists body, encode_domain_set_keys keys = Some body /\
    ((Z.of_nat (length body) < 2 ^ 63)%Z ->
     walk_upstream_domain_set body = Some (omap decode_key (sort_keys keys), Ok (count_skipped keys))).
Proof. apply domain_set_walks. Qed.

Definition demo_keys : list bytes := [b! "moc.a.+"; b! "gro"; b! "moc.a"; [z_byte 255]].

Lemma domain_set_roundtrip_witness :
  exists body, encode_domain_set_keys demo_keys = Some body /\
    walk_upstream_domain_set body = Some ([b! "org"; b! "a.com"; b! ".a.com"], Ok 1).
Proof.
  destruct (domain_set_roundtrip demo_keys) as (body & Henc & Hwalk).
  - apply (bool_decide_unpack _). by vm_compute.
  - exists (b! "gro"). split; [right; left|done].
  - split; vm_compute; discriminate.
  - apply (proj1 (Forall_forall _ _)). repeat constructor.
  - exists body. split; [exact Henc|].
    assert (Hsize : (Z.of_nat (length body) < 2 ^ 63)%Z) by (vm_compute in Henc; injection Henc as <-; reflexivity).
    specialize (Hwalk Hsize). rewrite Hwalk. by vm_compute.
Defined.

End DomainSetRoundtrip.
