(* ===== verification/Ports.v ===== *)
(** * Port lists

    The payload of the port rules (crates/meow-rules/src/port.rs and
    in_port.rs) and its compiled form (rule_ir.rs): the spans are sorted and
    merged into a canonical matcher, whose text is its fingerprint. *)

From stdpp Require Import sorting.
From S2P Require Import Prelude Strings Show Ip IpSet.

Module Ports.
Import IpSet.

(** ** Parsing a list *)

Definition dash : ascii := "-"%char.
Definition comma : ascii := ","%char.
Definition slash : ascii := "/"%char.

Definition parse_span (part : bytes) : option interval :=
  match split_once dash part with
  | Some (start, stop) =>
      start ← parse_u16 (trim start);
      stop ← parse_u16 (trim stop);
      if (stop <? start)%Z then None else Some (start, stop)
  | None => port ← parse_u16 part; Some (port, port)
  end.

(** The parts of the list; blank ones are skipped. *)
Definition port_parts (ports : bytes) : list bytes :=
  List.filter (fun part => negb (bool_decide (part = [])))
    (map trim (split_by (fun c => bool_decide (c = comma) || bool_decide (c = slash)) ports)).

Definition port_spans (ports : bytes) : option (list interval) := mapM parse_span (port_parts ports).

(** The list of a rule: not empty. *)
Definition rule_ports (ports : bytes) : option (list interval) :=
  spans ← port_spans ports; if bool_decide (spans = []) then None else Some spans.

Definition matches_port (ranges : list interval) (port : Z) : bool :=
  existsb (fun r => (r.1 <=? port) && (port <=? r.2))%Z ranges.

(** ** The compiled matcher *)

Inductive PortRange :=
  | RSingle (value : Z)
  | RRange (lo hi : Z).

Inductive PortMatcher :=
  | Single (value : Z)
  | Range (lo hi : Z)
  | Multiple (ranges : list PortRange).

Definition range_matches (r : PortRange) (port : Z) : bool :=
  match r with
  | RSingle value => (port =? value)%Z
  | RRange lo hi => ((lo <=? port) && (port <=? hi))%Z
  end.

Definition port_matches (m : PortMatcher) (port : Z) : bool :=
  match m with
  | Single value => (port =? value)%Z
  | Range lo hi => ((lo <=? port) && (port <=? hi))%Z
  | Multiple ranges => existsb (fun r => range_matches r port) ranges
  end.

(** One round of the merge loop. *)
Definition merge_span (merged : list interval) (span : interval) : list interval :=
  let '(lo, hi) := span in
  match last merged with
  | Some (last_lo, last_hi) =>
      if (lo <=? last_hi + 1)%Z
      then <[length merged - 1 := (last_lo, Z.max last_hi hi)]> merged
      else merged ++ [(lo, hi)]
  | None => merged ++ [(lo, hi)]
  end.

Definition merge_spans (spans : list interval) : list interval :=
  foldl merge_span [] (merge_sort pair_le spans).

Definition to_range (span : interval) : PortRange :=
  if (span.1 =? span.2)%Z then RSingle span.1 else RRange span.1 span.2.

Definition matcher_of (merged : list interval) : option PortMatcher :=
  match merged with
  | [] => None
  | [(lo, hi)] => Some (if (lo =? hi)%Z then Single lo else Range lo hi)
  | _ => Some (Multiple (map to_range merged))
  end.

Definition compile_port_matcher (payload : bytes) : option PortMatcher :=
  spans ← port_spans payload; matcher_of (merge_spans spans).

Definition show_range (r : PortRange) : bytes :=
  match r with
  | RSingle value => show_dec value
  | RRange lo hi => show_dec lo ++ [dash] ++ show_dec hi
  end.

Definition port_fingerprint (m : PortMatcher) : bytes :=
  match m with
  | Single value => show_dec value
  | Range lo hi => show_dec lo ++ [dash] ++ show_dec hi
  | Multiple ranges => join comma (map show_range ranges)
  end.

Example compile_ex :
  port_fingerprint <$> compile_port_matcher (b! "443, 90-100/80-91 ,101") = Some (b! "80-101,443").
Proof. vm_compute. reflexivity. Qed.

(** ** Merging *)

Lemma matches_port_covered l x : matches_port l x = true <-> covered l x.
Proof.
  unfold matches_port, covered. rewrite existsb_exists. setoid_rewrite list_elem_of_In.
  by setoid_rewrite andb_true_iff; setoid_rewrite Z.leb_le.
Qed.

Definition span_ok (p : interval) : Prop := (0 <= p.1 <= p.2)%Z.

Record merging (seen merged : list interval) : Prop := {
  mg_cover x : covered merged x <-> covered seen x;
  mg_sep : separated merged;
  mg_start p : p ∈ merged -> exists q, q ∈ seen /\ p.1 = q.1;
}.

Lemma merge_span_spec seen merged span :
  merging seen merged -> span_ok span -> (forall q, q ∈ seen -> q.1 <= span.1)%Z ->
  merging (seen ++ [span]) (merge_span merged span).
Proof.
  intros [Hc Hs Hst] Hok Hle. destruct span as [lo hi]. unfold span_ok in Hok. simpl in *.
  destruct (last merged) as [[l h]|] eqn:El.
  2:{ apply last_None in El as ->. simpl. split.
      - intros x. rewrite covered_app, <- Hc, covered_cons. naive_solver.
      - simpl. split_and!; [lia| |done]. by intros q ?%not_elem_of_nil.
      - intros p ->%list_elem_of_singleton. exists (lo, hi). set_solver. }
  apply last_Some in El as [init ->]. pose proof Hs as Hs0. apply separated_app in Hs as (Hsi & [Hlh _] & Hx).
  assert (Hl : (l <= lo)%Z).
  { destruct (Hst (l, h)) as (q & Hq & E); [set_solver|]. simpl in E. rewrite E. by apply Hle. }
  simpl in Hlh. destruct (Z.leb_spec lo (h + 1)).
  - rewrite length_app, Nat.add_sub.
    replace (length init) with (length init + 0) by lia. rewrite insert_app_r. simpl. split.
    + intros x. rewrite covered_app, covered_cons. rewrite (covered_app seen), <- Hc, !covered_app, !covered_cons.
      simpl. pose proof (covered_nil x).
      split; [intros [?|[?|?]]|intros [[?|[?|?]]|[?|?]]]; try tauto; try (right; left; lia).
      destruct (decide (x <= h)%Z); [left; right; left; lia|right; left; lia].
    + apply separated_app. simpl. split_and!; [done|lia|by intros q ?%not_elem_of_nil|done|].
      intros p q Hp ->%list_elem_of_singleton. simpl. by apply (Hx p (l, h) Hp); left.
    + intros p [Hp| ->%list_elem_of_singleton]%elem_of_app.
      * destruct (Hst p) as (q & ? & ?); [set_solver|]. exists q. set_solver.
      * destruct (Hst (l, h)) as (q & ? & ?); [set_solver|]. exists q. set_solver.
  - split.
    + intros x. by rewrite (covered_app seen), <- Hc, covered_app.
    + apply separated_app. split_and!; [done| |].
      * simpl. split_and!; [lia|by intros q ?%not_elem_of_nil|done].
      * intros p q Hp ->%list_elem_of_singleton. simpl.
        apply elem_of_app in Hp as [Hp| ->%list_elem_of_singleton]; [|simpl; lia].
        pose proof (Hx p (l, h) Hp ltac:(set_solver)). simpl in *. lia.
    + intros p [Hp| ->%list_elem_of_singleton]%elem_of_app.
      * destruct (Hst p) as (q & ? & ?); [set_solver|]. exists q. set_solver.
      * exists (lo, hi). set_solver.
Qed.

Lemma merge_spans_spec spans :
  Forall span_ok spans -> merging spans (merge_spans spans).
Proof.
  intros Hok. unfold merge_spans.
  pose proof (merge_sort_Permutation pair_le spans) as Hperm.
  pose proof (StronglySorted_merge_sort pair_le spans) as Hsort.
  set (l := merge_sort pair_le spans) in *. clearbody l.
  assert (Hl : forall seen acc k, seen ++ k = l -> merging seen acc -> merging l (foldl merge_span acc k)).
  { intros seen acc k. revert seen acc. induction k as [|p k IH]; intros seen acc E Hm.
    { rewrite app_nil_r in E. by subst. }
    simpl. apply (IH (seen ++ [p])); [by rewrite <- app_assoc|]. apply merge_span_spec; [done| |].
    - rewrite Forall_forall in Hok. apply Hok. rewrite <- Hperm, <- E. set_solver.
    - intros q Hq. rewrite <- E in Hsort. apply StronglySorted_app in Hsort as (Hx & _ & _).
      specialize (Hx q p Hq ltac:(set_solver)). destruct Hx; lia. }
  assert (Hm : merging l (foldl merge_span [] l)).
  { apply (Hl []); [done|]. split; [done|done|]. by intros p ?%not_elem_of_nil. }
  destruct Hm as [Hc Hs Hst]. split; [|done|].
  - intros x. rewrite Hc. by apply covered_perm.
  - intros p Hp. destruct (Hst p Hp) as (q & Hq & ?). exists q. by rewrite <- Hperm.
Qed.

Lemma parse_uint_bound max s z : parse_uint max s = Some z -> (0 <= z <= Z.max 0 max)%Z.
Proof.
  assert (H : forall s acc, (0 <= acc)%Z -> parse_digits max acc s = Some z -> (0 <= z <= Z.max acc max)%Z).
  { clear s. induction s as [|c s IH]; intros acc Ha E; simpl in E; [simplify_eq; lia|].
    destruct (is_ascii_digit c) eqn:Ed; [|done]. destruct (Z.leb_spec (acc * 10 + (Z.of_N (byte_val c) - 48)) max); [|done].
    unfold is_ascii_digit, in_range in Ed. apply andb_true_iff in Ed as [Ed _]. apply N.leb_le in Ed.
    apply IH in E; lia. }
  unfold parse_uint. destruct s as [|c s]; [done|].
  destruct (decide _); [destruct s; [done|]|]; intros E; by apply H in E.
Qed.

Lemma parse_span_ok part p : parse_span part = Some p -> span_ok p /\ (p.2 <= 65535)%Z.
Proof.
  unfold parse_span, span_ok, parse_u16. destruct (split_once dash part) as [[a b]|].
  - destruct (parse_uint _ (trim a)) as [lo|] eqn:E1; [|done].
    destruct (parse_uint _ (trim b)) as [hi|] eqn:E2; [|done].
    apply parse_uint_bound in E1, E2. cbn [mbind option_bind].
    destruct (Z.ltb_spec hi lo); [done|]. intros [= <-]. simpl. lia.
  - destruct (parse_uint _ part) as [v|] eqn:E1; [|done]. apply parse_uint_bound in E1.
    intros [= <-]. simpl. lia.
Qed.

Lemma port_spans_ok ports spans :
  port_spans ports = Some spans -> Forall (fun p => span_ok p /\ (p.2 <= 65535)%Z) spans.
Proof.
  unfold port_spans. intros H. apply mapM_Some in H.
  induction H as [|part p parts ps Hp _ IH]; constructor; [by eapply parse_span_ok|done].
Qed.

(** The spans a matcher tests. *)
Definition matcher_spans (m : PortMatcher) : list interval :=
  match m with
  | Single v => [(v, v)]
  | Range lo hi => [(lo, hi)]
  | Multiple rs => map (fun r => match r with RSingle v => (v, v) | RRange lo hi => (lo, hi) end) rs
  end.

Lemma port_matches_spans m x : port_matches m x = true <-> covered (matcher_spans m) x.
Proof.
  rewrite <- matches_port_covered. unfold matches_port. destruct m as [v|lo hi|rs]; simpl.
  - rewrite orb_false_r, andb_true_iff, !Z.leb_le, Z.eqb_eq. lia.
  - by rewrite orb_false_r.
  - induction rs as [|r rs IH]; [done|]. simpl. rewrite !orb_true_iff, IH.
    destruct r; simpl; rewrite ?Z.eqb_eq, ?andb_true_iff, ?Z.leb_le; [|done].
    split; intros [?|?]; auto; left; lia.
Qed.

Lemma to_range_span p : match to_range p with RSingle v => (v, v) | RRange lo hi => (lo, hi) end = p.
Proof. unfold to_range. destruct p as [lo hi]. simpl. by destruct (Z.eqb_spec lo hi) as [->|]. Qed.

Lemma compile_spans payload m :
  compile_port_matcher payload = Some m ->
  exists spans, rule_ports payload = Some spans /\ matcher_spans m = merge_spans spans /\
    merging spans (merge_spans spans) /\ Forall (fun p => (p.2 <= 65535)%Z) spans.
Proof.
  unfold compile_port_matcher, rule_ports. destruct (port_spans payload) as [spans|] eqn:E; [|done].
  apply port_spans_ok in E. cbn [mbind option_bind]. intros H. exists spans.
  assert (Hm : merging spans (merge_spans spans)).
  { apply merge_spans_spec. eapply Forall_impl; [done|]. naive_solver. }
  split_and!; [| |done|eapply Forall_impl; [done|]; naive_solver].
  - rewrite bool_decide_eq_false_2; [done|]. by intros ->.
  - unfold matcher_of in H. destruct (merge_spans spans) as [|[lo hi] [|q l]]; [done| |].
    + revert H. destruct (Z.eqb_spec lo hi) as [->|]; by intros [= <-].
    + injection H as <-. cbn [matcher_spans map]. rewrite !to_range_span. f_equal. f_equal. clear.
      induction l as [|p l IH]; [done|]. cbn [map]. by rewrite to_range_span, IH.
Qed.

Lemma compile_port_matches payload m spans x :
  compile_port_matcher payload = Some m -> rule_ports payload = Some spans ->
  port_matches m x = matches_port spans x.
Proof.
  intros Hm Hs. destruct (compile_spans _ _ Hm) as (spans' & Hs' & E & Hmg & _).
  rewrite Hs in Hs'. injection Hs' as <-. apply eq_bool_prop_intro.
  rewrite !Is_true_true, port_matches_spans, matches_port_covered, E. apply (mg_cover _ _ Hmg).
Qed.

Lemma merge_spans_nil spans : merging spans (merge_spans spans) -> Forall span_ok spans ->
  merge_spans spans = [] -> spans = [].
Proof.
  intros [Hc _ _] Hok E. destruct spans as [|p spans]; [done|]. exfalso.
  apply (covered_nil p.1). rewrite <- E. apply Hc. exists p. inversion Hok as [|? ? Hp _]; subst.
  unfold span_ok in Hp. split; [set_solver|lia].
Qed.

(** A payload compiles exactly when the rule accepts it. *)
Lemma compile_port_iff payload :
  is_Some (compile_port_matcher payload) <-> is_Some (rule_ports payload).
Proof.
  split.
  - intros [m (spans & -> & _)%compile_spans]. done.
  - unfold rule_ports, compile_port_matcher. destruct (port_spans payload) as [spans|] eqn:E; [|by intros []].
    apply port_spans_ok in E. cbn [mbind option_bind]. case_bool_decide as Hne; [by intros []|]. intros _.
    assert (Hok : Forall span_ok spans) by (eapply Forall_impl; [done|]; naive_solver).
    pose proof (merge_spans_nil _ (merge_spans_spec _ Hok) Hok).
    destruct (merge_spans spans) as [|[lo hi] [|q l]]; [naive_solver|done|done].
Qed.

(** ** Canonicity *)

Lemma gap_uncovered (p : interval) l x :
  (forall q, q ∈ l -> p.2 + 1 < q.1)%Z -> (x <= p.2 + 1)%Z -> ~ covered l x.
Proof. intros H Hle (q & Hin & ?). specialize (H q Hin). lia. Qed.

Lemma cover_head (p q : interval) l k :
  (p.1 <= p.2)%Z -> (q.1 <= q.2)%Z -> (forall r, r ∈ k -> q.2 + 1 < r.1)%Z ->
  (forall x, covered (p :: l) x -> covered (q :: k) x) -> (q.1 <= p.1)%Z.
Proof.
  intros Hp Hq Hk H.
  assert (Hc : covered (q :: k) p.1) by (apply H, covered_cons; left; lia).
  apply covered_cons in Hc as [?|(r & Hr & ?)]; [lia|]. specialize (Hk r Hr). lia.
Qed.

Lemma cover_end (p q : interval) l k :
  p.1 = q.1 -> (p.1 <= p.2)%Z -> (q.1 <= q.2)%Z -> (forall r, r ∈ k -> q.2 + 1 < r.1)%Z ->
  (forall x, covered (p :: l) x -> covered (q :: k) x) -> (p.2 <= q.2)%Z.
Proof.
  intros E Hp Hq Hk H. destruct (Z.le_gt_cases p.2 q.2) as [|Hgt]; [done|].
  assert (Hc : covered (q :: k) (q.2 + 1)) by (apply H, covered_cons; left; lia).
  apply covered_cons in Hc as [?|Hc]; [lia|]. exfalso. eapply gap_uncovered; [exact Hk| |exact Hc]. lia.
Qed.

(** Separated lists that cover the same points are the same. *)
Lemma separated_unique l k :
  separated l -> separated k -> (forall x, covered l x <-> covered k x) -> l = k.
Proof.
  revert k. induction l as [|p l IH]; intros [|q k] Hl Hk Hx; [done| | |].
  - exfalso. apply (covered_nil q.1), Hx, covered_cons. left. simpl in Hk. lia.
  - exfalso. apply (covered_nil p.1), Hx, covered_cons. left. simpl in Hl. lia.
  - destruct Hl as (Hp & Hpl & Hl), Hk as (Hq & Hqk & Hk).
    assert (H1 : forall x, covered (p :: l) x -> covered (q :: k) x) by (intros; by apply Hx).
    assert (H2 : forall x, covered (q :: k) x -> covered (p :: l) x) by (intros; by apply Hx).
    assert (E1 : p.1 = q.1).
    { pose proof (cover_head p q l k Hp Hq Hqk H1). pose proof (cover_head q p k l Hq Hp Hpl H2). lia. }
    assert (E2 : p.2 = q.2).
    { pose proof (cover_end p q l k E1 Hp Hq Hqk H1).
      pose proof (cover_end q p k l (eq_sym E1) Hq Hp Hpl H2). lia. }
    assert (p = q) as -> by (destruct p, q; simpl in *; congruence).
    f_equal. apply IH; [done|done|]. intros x. specialize (Hx x). rewrite !covered_cons in Hx.
    split; intros Hc.
    + destruct (proj1 Hx (or_intror Hc)) as [?|?]; [|done]. exfalso. eapply gap_uncovered; [exact Hpl| |exact Hc]. lia.
    + destruct (proj2 Hx (or_intror Hc)) as [?|?]; [|done]. exfalso. eapply gap_uncovered; [exact Hqk| |exact Hc]. lia.
Qed.

Lemma separated_starts_nonneg spans p :
  Forall span_ok spans -> merging spans (merge_spans spans) -> p ∈ merge_spans spans -> (0 <= p.1)%Z.
Proof.
  intros Hok Hm Hp. destruct (mg_start _ _ Hm p Hp) as (q & Hq & ->).
  rewrite Forall_forall in Hok. by apply Hok in Hq as [? _].
Qed.

(** The text of a matcher, span by span. *)
Definition show_span (p : interval) : bytes := show_range (to_range p).

Lemma port_fingerprint_spans l m :
  matcher_of l = Some m -> port_fingerprint m = join comma (map show_span l).
Proof.
  destruct l as [|[lo hi] [|q l]]; [done| |].
  - intros [= <-]. unfold show_span, to_range. simpl. by destruct (lo =? hi)%Z.
  - intros [= <-]. change (join comma (map show_range (map to_range ((lo, hi) :: q :: l))) =
      join comma (map show_span ((lo, hi) :: q :: l))). by rewrite map_map.
Qed.

Lemma show_span_inj p q :
  (0 <= p.1 <= p.2)%Z -> (0 <= q.1 <= q.2)%Z -> show_span p = show_span q -> p = q.
Proof.
  destruct p as [a b], q as [c d]. unfold show_span, to_range. simpl. intros Hp Hq.
  assert (Hno : forall z, dash ∉ show_dec z) by (intros z; by apply show_dec_alnum).
  assert (Hpos : forall z x y, show_dec z = show_dec x ++ dash :: show_dec y -> False).
  { intros z x y E. apply (Hno z). rewrite E. set_solver. }
  destruct (Z.eqb_spec a b) as [->|], (Z.eqb_spec c d) as [->|]; cbn [show_range]; intros E.
  - apply show_dec_inj in E; [by subst|lia|lia].
  - exfalso. eapply Hpos, E.
  - exfalso. eapply Hpos. symmetry. exact E.
  - apply (f_equal (split dash)) in E.
    assert (Hsplit : forall x y, split dash (show_dec x ++ [dash] ++ show_dec y) = [show_dec x; show_dec y]).
    { intros x y. cbn [app]. by rewrite split_app_sep, !split_no_sep. }
    rewrite !Hsplit in E. injection E as E1 E2.
    apply show_dec_inj in E1; [|lia..]. apply show_dec_inj in E2; [|lia..]. by subst.
Qed.

Lemma show_span_no_comma p : comma ∉ show_span p.
Proof.
  assert (H : forall z, comma ∉ show_dec z) by (intros z; by apply show_dec_alnum).
  unfold show_span, to_range. destruct (_ =? _)%Z; cbn [show_range]; [done|].
  rewrite !elem_of_app, list_elem_of_singleton. intros [?|[?|?]]; [by eapply H|done|by eapply H].
Qed.

Lemma map_show_inj l k :
  Forall (fun p => 0 <= p.1 <= p.2)%Z l -> Forall (fun p => 0 <= p.1 <= p.2)%Z k ->
  map show_span l = map show_span k -> l = k.
Proof.
  intros Hl. revert k. induction Hl as [|p l Hp _ IH]; intros k Hk E; destruct Hk as [|q k Hq Hk]; try done.
  simpl in E. injection E as E1 E2. apply show_span_inj in E1 as ->; [|done..]. f_equal. by apply IH.
Qed.

Lemma merged_spans_ok payload spans :
  port_spans payload = Some spans ->
  merging spans (merge_spans spans) /\ Forall (fun p => 0 <= p.1 <= p.2)%Z (merge_spans spans).
Proof.
  intros H%port_spans_ok. assert (Hok : Forall span_ok spans) by (eapply Forall_impl; [done|]; naive_solver).
  pose proof (merge_spans_spec _ Hok) as Hm. split; [done|]. apply Forall_forall. intros p Hp.
  pose proof (separated_starts_nonneg _ _ Hok Hm Hp). apply list_elem_of_lookup in Hp as [i Hi].
  pose proof (separated_lookup _ _ _ (mg_sep _ _ Hm) Hi). lia.
Qed.

(** Equal fingerprints come from equal matchers. *)
Lemma port_fingerprint_inj p q m m' :
  compile_port_matcher p = Some m -> compile_port_matcher q = Some m' ->
  port_fingerprint m = port_fingerprint m' -> m = m'.
Proof.
  unfold compile_port_matcher.
  destruct (port_spans p) as [sp|] eqn:Ep; [|done]. destruct (port_spans q) as [sq|] eqn:Eq; [|done].
  cbn [mbind option_bind]. intros Hm Hm' E.
  apply merged_spans_ok in Ep as [_ Hp], Eq as [_ Hq].
  rewrite (port_fingerprint_spans _ _ Hm), (port_fingerprint_spans _ _ Hm') in E.
  apply (f_equal (split comma)) in E.
  assert (Hsplit : forall l, l <> [] -> split comma (join comma (map show_span l)) = map show_span l).
  { intros l Hl. apply split_join; [by destruct l|]. apply Forall_forall. intros w Hw.
    apply list_elem_of_In, in_map_iff in Hw as (x & <- & _). apply show_span_no_comma. }
  rewrite !Hsplit in E by (intros H; rewrite H in *; done).
  apply map_show_inj in E; [|done|done]. rewrite E in Hm. congruence.
Qed.

(** A port list compiles exactly when the rule accepts it, and then the
    sorted and merged matcher accepts the ports the rule accepts. *)
Theorem port_matcher_exact payload :
  match rule_ports payload, compile_port_matcher payload with
  | Some spans, Some m => forall port, port_matches m port = matches_port spans port
  | None, None => True
  | _, _ => False
  end.
Proof.
  pose proof (compile_port_iff payload) as Hiff.
  destruct (rule_ports payload) as [spans|] eqn:Es, (compile_port_matcher payload) as [m|] eqn:Em.
  - intros port. by eapply compile_port_matches.
  - by destruct (proj2 Hiff ltac:(done)).
  - by destruct (proj1 Hiff ltac:(done)).
  - done.
Qed.

(** The compiled form is canonical. Lists that accept the same ports
    compile to the same matcher, and matchers with the same fingerprint are
    the same. *)
Theorem port_matcher_canonical p q m m' :
  compile_port_matcher p = Some m -> compile_port_matcher q = Some m' ->
  (forall port, port_matches m port = port_matches m' port) \/
    port_fingerprint m = port_fingerprint m' ->
  m = m'.
Proof.
  intros Hm Hm' [H|H]; [|by eapply port_fingerprint_inj].
  pose proof (compile_spans _ _ Hm) as (sp & Hs & E & Hg & _).
  pose proof (compile_spans _ _ Hm') as (sq & Hs' & E' & Hg' & _).
  assert (Hsame : merge_spans sp = merge_spans sq).
  { apply separated_unique; [apply Hg|apply Hg'|].
    intros x. by rewrite <- E, <- E', <- !port_matches_spans, H. }
  unfold compile_port_matcher, rule_ports in *.
  destruct (port_spans p) as [s1|]; [|done]. destruct (port_spans q) as [s2|]; [|done].
  cbn [mbind option_bind] in *. repeat case_bool_decide; simplify_eq. congruence.
Qed.

Lemma port_matcher_canonical_witness :
  exists m m', compile_port_matcher (b! "80-90/85-100") = Some m /\
    compile_port_matcher (b! "100,80-99") = Some m' /\ m = m'.
Proof.
  eexists _, _. split; [vm_compute; reflexivity|]. split; [vm_compute; reflexivity|].
  apply (port_matcher_canonical (b! "80-90/85-100") (b! "100,80-99"));
    [vm_compute; reflexivity|vm_compute; reflexivity|right; reflexivity].
Defined.

End Ports.
