(* ===== verification/Regex.v ===== *)
(** * The regex crate, as far as the rules use it

    Regular expressions are third-party code: an interface with the
    behaviour the rules rely on. The language of a wildcard pattern is given
    by [glob]; the interface promises that the anchored, case-insensitive
    expression built from an ASCII pattern decides it on ASCII hosts, and
    that an expression without metacharacters searches for itself. *)

From S2P Require Import Prelude Strings.

(** ** Wildcard patterns *)

Definition star : ascii := "*"%char.

(** [*] stands for one or more bytes other than a dot; other bytes match
    themselves up to ASCII case. *)
Fixpoint glob (p s : bytes) : bool :=
  match p with
  | [] => bool_decide (s = [])
  | c :: p =>
      if decide (c = star) then
        (fix run (s : bytes) : bool :=
           match s with
           | [] => false
           | d :: s => negb (bool_decide (d = dot)) && (glob p s || run s)
           end) s
      else
        match s with
        | [] => false
        | d :: s => bool_decide (byte_lower c = byte_lower d) && glob p s
        end
  end.

(** [str::replace] with a non-empty needle. *)
Fixpoint replace_fuel (needle by_ : bytes) (fuel : nat) (s : bytes) : bytes :=
  match fuel with
  | O => s
  | S fuel =>
      match strip_prefix needle s with
      | Some rest => by_ ++ replace_fuel needle by_ fuel rest
      | None => match s with [] => [] | c :: s => c :: replace_fuel needle by_ fuel s end
      end
  end.
Definition replace (needle by_ s : bytes) : bytes := replace_fuel needle by_ (S (length s)) s.

(** [is_regex_meta_byte]: the bytes with a meaning in an expression. *)
Definition is_regex_meta_byte (c : ascii) : bool :=
  existsb (fun d => bool_decide (c = d)) (b! "\.+*?()|[]{}^$").

Definition is_plain (p : bytes) : bool := negb (existsb is_regex_meta_byte p).

(** ** The interface *)

Class RegexOps := {
  Regex : Type;
  regex_new : bytes -> option Regex;
  is_match : Regex -> bytes -> bool;
  regex_escape : bytes -> bytes;
}.

(** [format!("^(?i){}$", escape(p).replace(r"\*", "[^.]+"))]. *)
Definition wildcard_regex `{RegexOps} (p : bytes) : bytes :=
  b! "^(?i)" ++ replace (b! "\*") (b! "[^.]+") (regex_escape p) ++ b! "$".

Class RegexLaws `{RegexOps} := {
  regex_plain p r s :
    is_plain p = true -> p <> [] -> regex_new p = Some r -> is_match r s = contains p s;
  regex_wildcard p r s :
    is_ascii p = true -> is_ascii s = true ->
    regex_new (wildcard_regex p) = Some r -> is_match r s = glob p s;
}.

(** ** A matcher that meets it

    Every byte is escaped, so that the wildcard expression reads back. *)

Definition esc : ascii := "\"%char.

Fixpoint escape_all (p : bytes) : bytes :=
  match p with [] => [] | c :: p => esc :: c :: escape_all p end.

Fixpoint unescape (s : bytes) (fuel : nat) : bytes :=
  match fuel with
  | O => []
  | S fuel =>
      match strip_prefix (b! "[^.]+") s with
      | Some rest => star :: unescape rest fuel
      | None => match s with _ :: c :: s => c :: unescape s fuel | _ => [] end
      end
  end.

Definition toy_is_match (r s : bytes) : bool :=
  match strip_prefix (b! "^(?i)") r with
  | Some body =>
      match strip_suffix (b! "$") body with
      | Some body => glob (unescape body (S (length body))) s
      | None => false
      end
  | None => contains r s
  end.

Lemma replace_escaped p fuel :
  2 * length p < fuel ->
  replace_fuel (b! "\*") (b! "[^.]+") fuel (escape_all p) =
  concat (map (fun c => if decide (c = star) then b! "[^.]+" else [esc; c]) p).
Proof.
  revert fuel. induction p as [|c p IH]; intros fuel Hf.
  { destruct fuel; [simpl in Hf; lia|done]. }
  cbn [escape_all length map concat] in *. destruct fuel as [|fuel]; [lia|]. cbn [replace_fuel].
  destruct (decide (c = star)) as [->|Hc].
  - assert (E : strip_prefix (b! "\*") (esc :: star :: escape_all p) = Some (escape_all p))
      by by apply strip_prefix_Some.
    rewrite E, IH by lia. done.
  - destruct (strip_prefix (b! "\*") (esc :: c :: escape_all p)) as [r|] eqn:E.
    { apply strip_prefix_Some in E. exfalso. apply Hc. by injection E. }
    destruct fuel as [|fuel]; [lia|]. cbn [replace_fuel].
    destruct (strip_prefix (b! "\*") (c :: escape_all p)) as [r|] eqn:E'.
    { apply strip_prefix_Some in E'. injection E' as _ E'. destruct p as [|d p]; [done|].
      cbn [escape_all] in E'. by injection E' as E' _. }
    rewrite IH by lia. done.
Qed.

Lemma unescape_escaped p fuel :
  length p < fuel ->
  unescape (concat (map (fun c => if decide (c = star) then b! "[^.]+" else [esc; c]) p)) fuel = p.
Proof.
  revert fuel. induction p as [|c p IH]; intros fuel Hf.
  { by destruct fuel. }
  simpl in Hf. destruct fuel as [|fuel]; [lia|]. cbn [map concat unescape].
  set (rest := concat _) in *. destruct (decide (c = star)) as [->|Hc].
  - assert (E : strip_prefix (b! "[^.]+") (b! "[^.]+" ++ rest) = Some rest)
      by by apply strip_prefix_Some.
    rewrite E. unfold rest. by rewrite IH by lia.
  - destruct (strip_prefix (b! "[^.]+") ([esc; c] ++ rest)) as [r|] eqn:E.
    { apply strip_prefix_Some in E. by injection E. }
    cbn [app]. unfold rest. by rewrite IH by lia.
Qed.

#[export] Instance toy_regex : RegexOps | 100 := {|
  Regex := bytes;
  regex_new p := Some p;
  is_match := toy_is_match;
  regex_escape := escape_all;
|}.

#[export] Instance toy_regex_laws : RegexLaws.
Proof.
  split.
  - intros p r s Hp Hne [= <-]. simpl. unfold toy_is_match.
    destruct (strip_prefix (b! "^(?i)") p) as [body|] eqn:E; [|done].
    apply strip_prefix_Some in E as ->. done.
  - intros p r s _ _ [= <-]. simpl. unfold toy_is_match, wildcard_regex.
    set (body := replace _ _ _).
    assert (E : strip_prefix (b! "^(?i)") (b! "^(?i)" ++ body ++ b! "$") = Some (body ++ b! "$"))
      by by apply strip_prefix_Some.
    rewrite E. assert (E' : strip_suffix (b! "$") (body ++ b! "$") = Some body)
      by by apply strip_suffix_Some.
    rewrite E'. f_equal. unfold body, replace. simpl (regex_escape p). rewrite replace_escaped.
    + apply unescape_escaped. clear. induction p as [|c p IH]; [simpl; lia|].
      cbn [map concat length]. rewrite length_app. destruct (decide (c = star)); cbn [length]; [|lia].
      change (length (b! "[^.]+")) with 5. lia.
    + clear. assert (length (escape_all p) = 2 * length p) as -> by (induction p; simpl; lia). lia.
Qed.
