(* ===== verification/Wildcard.v ===== *)
(** * Host matchers of the rule compiler (crates/meow-tunnel/src/rule_ir.rs)

    Suffix, keyword and wildcard matching on host names. The structural
    wildcard matcher places every piece at its earliest position; it is
    shown to decide the wildcard language. *)

From S2P Require Import Prelude Strings Regex.

Module Wildcard.

(** ** Suffix and keyword *)

Definition domain_suffix_matches (host suffix : bytes) : bool :=
  if length host =? length suffix then eq_ignore_ascii_case host suffix
  else if length suffix <? length host then
    let dot_pos := length host - length suffix - 1 in
    bool_decide (host !! dot_pos = Some dot) &&
    eq_ignore_ascii_case (drop (dot_pos + 1) host) suffix
  else false.

(** [slice::windows]. *)
Definition windows (n : nat) (s : bytes) : list bytes :=
  map (fun i => take n (drop i s)) (seq 0 (length s + 1 - n)).

Definition domain_keyword_matches (host keyword : bytes) : bool :=
  if bool_decide (keyword = []) then true
  else if length host <? length keyword then false
  else existsb (fun w => eq_ignore_ascii_case w keyword) (windows (length keyword) host).

(** ** [GlobMatcher] *)

Definition glob_compile (pattern : bytes) : option (list bytes) :=
  let parts := split star pattern in
  if (3 <=? length parts) && existsb (fun p => bool_decide (p = [])) (take (length parts - 2) (drop 1 parts))
  then None else Some parts.

(** [host[start..start + needle.len()].eq_ignore_ascii_case(needle)]. *)
Definition eq_at (host : bytes) (start : nat) (needle : bytes) : bool :=
  eq_ignore_ascii_case (take (length needle) (drop start host)) needle.

(** The loop of [find_after_dotfree_gap]; [start] only grows up to the host's
    length, which bounds the fuel. *)
Fixpoint find_gap (fuel : nat) (host : bytes) (start : nat) (needle : bytes) : option nat :=
  if start + length needle <=? length host then
    match fuel with
    | O => None
    | S fuel =>
        if bool_decide (host !! (start - 1) = Some dot) then None
        else if eq_at host start needle then Some start
        else find_gap fuel host (S start) needle
    end
  else None.

Definition find_after_dotfree_gap (host : bytes) (pos : nat) (needle : bytes) : option nat :=
  find_gap (length host) host (pos + 1) needle.

Fixpoint match_mids (host : bytes) (pos : nat) (mids : list bytes) : option nat :=
  match mids with
  | [] => Some pos
  | mid :: mids =>
      start ← find_after_dotfree_gap host pos mid;
      match_mids host (start + length mid) mids
  end.

Definition glob_tail (host : bytes) (pos : nat) (last : bytes) : bool :=
  if length host <? length last then false
  else
    let tail_start := length host - length last in
    if tail_start <=? pos then false
    else if negb (eq_ignore_ascii_case (drop tail_start host) last) then false
    else negb (contains_byte dot (take (tail_start - pos) (drop pos host))).

Definition glob_matches (pieces : list bytes) (host : bytes) : bool :=
  match pieces with
  | [] => false
  | [piece] => eq_ignore_ascii_case host piece
  | first :: rest =>
      if (length host <? length first) || negb (eq_at host 0 first) then false
      else
        match match_mids host (length first) (take (length rest - 1) rest) with
        | None => false
        | Some pos => glob_tail host pos (default [] (last rest))
        end
  end.

Section Matcher.
Context `{RL : RegexOps}.

Record RegexMatcher := mkRegexMatcher { rm_regex : Regex; required_literal : option bytes }.

Definition regex_matches (m : RegexMatcher) (host : bytes) : bool :=
  match required_literal m with
  | Some lit => if domain_keyword_matches host lit then is_match (rm_regex m) host else false
  | None => is_match (rm_regex m) host
  end.

Definition required_literal_from_plain_regex (pattern : bytes) : option bytes :=
  if bool_decide (pattern = []) || existsb is_regex_meta_byte pattern then None
  else Some (to_ascii_lowercase pattern).

(** [max_by_key] keeps the last of the longest parts. *)
Definition required_literal_from_wildcard (pattern : bytes) : option bytes :=
  to_ascii_lowercase <$>
  foldl (fun best part =>
      match best with
      | Some b => if length b <=? length part then Some part else Some b
      | None => Some part
      end) None (List.filter (fun part => negb (bool_decide (part = []))) (split star pattern)).

Definition compile_domain_regex (pattern : bytes) : option RegexMatcher :=
  r ← regex_new pattern;
  Some (mkRegexMatcher r (required_literal_from_plain_regex pattern)).

Inductive WildcardMatcher :=
  | Glob (pieces : list bytes)
  | WRegex (m : RegexMatcher).

Definition wildcard_matches (w : WildcardMatcher) (host : bytes) : bool :=
  match w with Glob pieces => glob_matches pieces host | WRegex m => regex_matches m host end.

Definition compile_domain_wildcard (pattern : bytes) : option WildcardMatcher :=
  match glob_compile pattern with
  | Some pieces => Some (Glob pieces)
  | None =>
      r ← regex_new (wildcard_regex pattern);
      Some (WRegex (mkRegexMatcher r (required_literal_from_wildcard pattern)))
  end.

End Matcher.

(** ** Suffix and keyword matching, on strings *)

Lemma domain_suffix_matches_spec host suffix :
  domain_suffix_matches host suffix = true <->
  to_ascii_lowercase host = to_ascii_lowercase suffix \/
  exists pre, to_ascii_lowercase host = pre ++ dot :: to_ascii_lowercase suffix.
Proof.
  unfold domain_suffix_matches.
  assert (Hlen : forall pre, to_ascii_lowercase host = pre ++ dot :: to_ascii_lowercase suffix ->
    length host = length pre + S (length suffix)).
  { intros pre H. apply (f_equal length) in H.
    by rewrite length_app, !length_lowercase in H; simpl in H; rewrite length_lowercase in H. }
  destruct (Nat.eqb_spec (length host) (length suffix)) as [E|E].
  { rewrite eq_ignore_ascii_case_spec. split; [by left|].
    intros [H|[pre H]]; [done|]. apply Hlen in H. lia. }
  destruct (Nat.ltb_spec (length suffix) (length host)) as [L|L].
  - set (d := length host - length suffix - 1).
    rewrite andb_true_iff, bool_decide_eq_true, eq_ignore_ascii_case_spec. split.
    + intros [Hd Hs]. right. exists (to_ascii_lowercase (take d host)).
      rewrite <- Hs. rewrite <- (take_drop_middle _ _ _ Hd) at 1.
      rewrite lowercase_app. f_equal. simpl. by rewrite Nat.add_1_r.
    + intros [H|[pre H]].
      { apply (f_equal length) in H. rewrite !length_lowercase in H. lia. }
      pose proof (Hlen pre H) as HL. assert (Hp : length pre = d) by (unfold d; lia).
      assert (Hd : to_ascii_lowercase host !! d = Some dot).
      { rewrite H. by apply list_lookup_middle. }
      unfold to_ascii_lowercase in Hd. rewrite list_lookup_fmap in Hd.
      destruct (host !! d) as [c|] eqn:Ec; [|done]. simpl in Hd.
      injection Hd as Hd. apply byte_lower_dot in Hd as ->. split; [done|].
      rewrite <- (take_drop_middle _ _ _ Ec), lowercase_app in H.
      apply app_inj_1 in H as [_ H].
      * simpl in H. injection H as H. by rewrite Nat.add_1_r.
      * rewrite length_lowercase, length_take. lia.
  - split; [done|]. intros [H|[pre H]]; [|apply Hlen in H; lia].
    apply (f_equal length) in H. rewrite !length_lowercase in H. lia.
Qed.

Lemma domain_keyword_matches_spec host keyword :
  domain_keyword_matches host keyword =
  contains (to_ascii_lowercase keyword) (to_ascii_lowercase host).
Proof.
  unfold domain_keyword_matches. case_bool_decide as Hk.
  { subst keyword. symmetry. apply contains_spec. by exists [], (to_ascii_lowercase host). }
  apply eq_bool_prop_intro. rewrite !Is_true_true, contains_spec.
  destruct (Nat.ltb_spec (length host) (length keyword)) as [L|L].
  { split; [done|]. intros (a & b & H). apply (f_equal length) in H.
    rewrite !length_app, !length_lowercase in H. lia. }
  unfold windows. rewrite existsb_exists. setoid_rewrite in_map_iff. split.
  - intros (w & (i & <- & Hi%in_seq) & Hw%eq_ignore_ascii_case_spec).
    exists (to_ascii_lowercase (take i host)),
      (to_ascii_lowercase (drop (i + length keyword) host)).
    rewrite <- Hw, <- !lowercase_app. f_equal.
    rewrite <- drop_drop, take_drop, take_drop. done.
  - intros (a & b & H). exists (take (length keyword) (drop (length a) host)). split.
    + exists (length a). split; [done|]. apply in_seq.
      apply (f_equal length) in H. rewrite !length_app, !length_lowercase in H. lia.
    + apply eq_ignore_ascii_case_spec. unfold to_ascii_lowercase in *.
      rewrite fmap_take, fmap_drop, H, drop_app_length.
      rewrite <- (length_fmap byte_lower keyword). by rewrite take_app_length.
Qed.

(** ** The language of a wildcard pattern, piece by piece *)

Definition same (a b : bytes) : Prop := to_ascii_lowercase a = to_ascii_lowercase b.

(** Pieces that are each preceded by a star, over the whole string. *)
Fixpoint starred (ps : list bytes) (s : bytes) : Prop :=
  match ps with
  | [] => s = []
  | p :: ps => exists g a s', s = g ++ a ++ s' /\ g <> [] /\ dot ∉ g /\ same a p /\ starred ps s'
  end.

Lemma glob_star q s :
  glob (star :: q) s = true <->
  exists g s', s = g ++ s' /\ g <> [] /\ dot ∉ g /\ glob q s' = true.
Proof.
  cbn [glob]. rewrite decide_True by done.
  set (run := fix run (s : bytes) : bool :=
    match s with [] => false | d :: s => negb (bool_decide (d = dot)) && (glob q s || run s) end).
  induction s as [|d s IH]; simpl.
  { split; [done|]. intros ([|? ?] & s' & ? & ? & _); done. }
  rewrite andb_true_iff, negb_true_iff, bool_decide_eq_false, orb_true_iff, IH. split.
  - intros [Hd [Hs|(g & s' & -> & Hg & Hdot & Hq)]].
    + exists [d], s. split_and!; [done|done|set_solver|done].
    + exists (d :: g), s'. split_and!; [done|done|set_solver|done].
  - intros (g & s' & E & Hg & Hdot & Hq). destruct g as [|c g]; [done|].
    simplify_eq/=. split; [set_solver|]. destruct g as [|c' g]; [by left|].
    right. exists (c' :: g), s'. split_and!; [done|done|set_solver|done].
Qed.

Lemma glob_literal p q s :
  star ∉ p ->
  glob (p ++ q) s = true <-> exists a s', s = a ++ s' /\ same a p /\ glob q s' = true.
Proof.
  revert s. induction p as [|c p IH]; intros s Hp.
  { simpl. split; [intros; by exists [], s|]. intros (a & s' & -> & Ha & ?).
    unfold same, to_ascii_lowercase in Ha. simpl in Ha. by apply fmap_nil_inv in Ha as ->. }
  cbn [app glob]. rewrite decide_False by set_solver. destruct s as [|d s].
  { split; [done|]. intros (a & s' & E & Ha & _). destruct a; [done|by simplify_eq/=]. }
  rewrite andb_true_iff, bool_decide_eq_true, IH by set_solver. split.
  - intros [Hcd (a & s' & -> & Ha & Hq)]. exists (d :: a), s'. split_and!; [done| |done].
    unfold same, to_ascii_lowercase in *. rewrite !fmap_cons. by rewrite Hcd, Ha.
  - intros (a & s' & E & Ha & Hq). destruct a as [|d' a]; [done|].
    unfold same, to_ascii_lowercase in Ha. rewrite !fmap_cons in Ha. injection Ha as H1 H2.
    simplify_eq/=. split; [done|]. by exists a, s'.
Qed.

Lemma glob_pieces p0 ps s :
  Forall (fun p => star ∉ p) (p0 :: ps) ->
  glob (join star (p0 :: ps)) s = true <->
  exists a s', s = a ++ s' /\ same a p0 /\ starred ps s'.
Proof.
  revert p0 s. induction ps as [|p ps IH]; intros p0 s Hall; inversion Hall as [|? ? Hp0 Hps]; subst.
  - cbn [join]. rewrite <- (app_nil_r p0) at 1. rewrite glob_literal by done.
    simpl. by setoid_rewrite bool_decide_eq_true.
  - rewrite join_cons by done. rewrite glob_literal by done.
    setoid_rewrite glob_star. setoid_rewrite IH; [|done]. cbn [starred]. split.
    + intros (a & s' & -> & Ha & g & s2 & -> & Hg & Hd & a2 & s3 & -> & Ha2 & Hst).
      exists a, (g ++ a2 ++ s3). split_and!; [done|done|]. by exists g, a2, s3.
    + intros (a & s' & -> & Ha & g & a2 & s3 & -> & Hg & Hd & Ha2 & Hst).
      exists a, (g ++ a2 ++ s3). split_and!; [done|done|]. exists g, (a2 ++ s3).
      split_and!; [done|done|done|]. by exists a2, s3.
Qed.

(** ** Greedy placement *)

Lemma same_length a p : same a p -> length a = length p.
Proof. intros H%(f_equal length). by rewrite !length_lowercase in H. Qed.

Lemma same_dot a p : same a p -> dot ∉ p -> dot ∉ a.
Proof.
  intros H Hp Ha. apply Hp. unfold same, to_ascii_lowercase in H.
  assert (Hd : dot ∈ byte_lower <$> p).
  { rewrite <- H. apply list_elem_of_fmap. by exists dot. }
  apply list_elem_of_fmap in Hd as (c & Hc & Hin).
  symmetry in Hc. by apply byte_lower_dot in Hc as ->.
Qed.

Lemma same_split a p1 p2 :
  same a (p1 ++ p2) -> exists a1 a2, a = a1 ++ a2 /\ same a1 p1 /\ same a2 p2.
Proof.
  unfold same. rewrite lowercase_app. intros H.
  unfold to_ascii_lowercase in *. apply fmap_app_inv in H as (a1 & a2 & H1 & H2 & ->).
  by exists a1, a2.
Qed.

Lemma first_dot_unique x y u v :
  dot ∉ x -> dot ∉ y -> x ++ dot :: u = y ++ dot :: v -> x = y.
Proof.
  revert y. induction x as [|c x IH]; intros [|d y] Hx Hy E; simplify_eq/=; [done|set_solver..|].
  f_equal. apply IH; set_solver.
Qed.

(** A piece that holds a dot has one place in the host. *)
Lemma dotted_place_unique g a s g' a' s' p :
  g ++ a ++ s = g' ++ a' ++ s' -> dot ∉ g -> dot ∉ g' -> same a p -> same a' p -> dot ∈ p ->
  g = g'.
Proof.
  intros E Hg Hg' Ha Ha' Hp.
  apply list_elem_of_split_l in Hp as (p1 & p2 & -> & Hp1).
  assert (Hd : forall b, same b (p1 ++ dot :: p2) ->
    exists b1 b2, b = b1 ++ dot :: b2 /\ dot ∉ b1 /\ length b1 = length p1).
  { intros b (b1 & b2 & -> & H1 & H2)%same_split. destruct b2 as [|c b2]; [done|].
    unfold same, to_ascii_lowercase in H2. rewrite !fmap_cons in H2. injection H2 as Hc _.
    change (byte_lower dot) with dot in Hc. apply byte_lower_dot in Hc as ->.
    exists b1, b2. split_and!; [done|by eapply same_dot|by apply same_length]. }
  apply Hd in Ha as (a1 & a2 & -> & Hd1 & HL1). apply Hd in Ha' as (b1 & b2 & -> & Hd2 & HL2).
  rewrite <- !app_assoc in E. cbn [app] in E.
  rewrite !(app_assoc _ _ (dot :: _)) in E.
  apply first_dot_unique in E; [|set_solver..].
  by apply app_inj_2 in E as [-> _]; [|lia].
Qed.

(** Placing a piece earlier leaves the pieces after it at least as free. *)
Lemma earlier_is_better g a s g' a' s' p ps :
  g ++ a ++ s = g' ++ a' ++ s' -> dot ∉ g -> dot ∉ g' -> same a p -> same a' p ->
  length g <= length g' -> ps <> [] -> starred ps s' -> starred ps s.
Proof.
  intros E Hg Hg' Ha Ha' Hlen Hps Hst.
  assert (HL : length a = length a') by by rewrite (same_length _ _ Ha), (same_length _ _ Ha').
  destruct (decide (dot ∈ p)) as [Hp|Hp].
  { pose proof (dotted_place_unique _ _ _ _ _ _ _ E Hg Hg' Ha Ha' Hp) as ->.
    apply app_inv_head, app_inj_1 in E as [-> ->]; done. }
  rewrite !app_assoc in E.
  assert (Hs : s = drop (length (g ++ a)) (g' ++ a') ++ s').
  { rewrite <- (drop_app_length (g ++ a) s), E, drop_app_le; [done|].
    rewrite !length_app. lia. }
  assert (Hd : dot ∉ drop (length (g ++ a)) (g' ++ a')).
  { intros Hin. assert (Hin' : dot ∈ g' ++ a').
    { rewrite <- (take_drop (length (g ++ a))). apply elem_of_app. by right. }
    apply elem_of_app in Hin' as [?|?]; [done|]. by apply (same_dot _ _ Ha' Hp). }
  destruct ps as [|q ps]; [done|]. destruct Hst as (h & b & r & -> & Hh & Hdh & Hb & Hr).
  rewrite Hs. exists (drop (length (g ++ a)) (g' ++ a') ++ h), b, r.
  split_and!; [by rewrite <- app_assoc|by destruct (drop _ _)|set_solver|done|done].
Qed.

(** A placement of [needle] in [t] after a gap of [k] bytes. *)
Definition placed (t : bytes) (k : nat) (needle : bytes) : Prop :=
  0 < k /\ k + length needle <= length t /\ dot ∉ take k t /\
  same (take (length needle) (drop k t)) needle.

Lemma placed_parts t k needle :
  placed t k needle ->
  exists g a, t = g ++ a ++ drop (k + length needle) t /\ g <> [] /\ dot ∉ g /\
    same a needle /\ length g = k.
Proof.
  intros (Hk & Hl & Hd & Hs). exists (take k t), (take (length needle) (drop k t)).
  split_and!; [|destruct t, k; simpl in *; (lia || done)|done|done|rewrite length_take; lia].
  by rewrite <- drop_drop, !take_drop.
Qed.

Lemma parts_placed g a s needle :
  g <> [] -> dot ∉ g -> same a needle -> placed (g ++ a ++ s) (length g) needle.
Proof.
  intros Hg Hd Ha. pose proof (same_length _ _ Ha) as HL. split_and!.
  - destruct g; simpl; [done|lia].
  - rewrite !length_app. lia.
  - by rewrite take_app_length.
  - by rewrite drop_app_length, <- HL, take_app_length.
Qed.

Lemma find_gap_spec host pos needle fuel j :
  0 < j -> length host < fuel + (pos + j) ->
  dot ∉ take (j - 1) (drop pos host) ->
  match find_gap fuel host (pos + j) needle with
  | Some start => exists k, start = pos + k /\ placed (drop pos host) k needle /\
      forall k', j <= k' -> placed (drop pos host) k' needle -> k <= k'
  | None => forall k, j <= k -> ~ placed (drop pos host) k needle
  end.
Proof.
  revert j. induction fuel as [|fuel IH]; intros j Hj Hf Hgap; cbn [find_gap];
    destruct (Nat.leb_spec (pos + j + length needle) (length host)) as [L|L];
    try (intros k Hk (_ & Hl & _); rewrite length_drop in Hl; lia).
  replace (pos + j - 1) with (pos + (j - 1)) by lia. rewrite <- lookup_drop.
  case_bool_decide as Hdot.
  { intros k Hk (_ & _ & Hd & _). apply Hd, list_elem_of_lookup. exists (j - 1).
    rewrite lookup_take_lt by lia. done. }
  assert (Hgap' : dot ∉ take j (drop pos host)).
  { replace j with (S (j - 1)) by lia.
    destruct (drop pos host !! (j - 1)) as [c|] eqn:E.
    - rewrite (take_S_r _ _ _ E). set_solver.
    - apply lookup_ge_None in E. rewrite length_drop in E. lia. }
  destruct (eq_at host (pos + j) needle) eqn:E.
  - unfold eq_at in E. apply eq_ignore_ascii_case_spec in E. rewrite <- drop_drop in E.
    exists j. split; [done|]. split; [|done]. split_and!; [done| |done|done].
    rewrite length_drop. lia.
  - replace (S (pos + j)) with (pos + S j) by lia.
    assert (Hno : ~ placed (drop pos host) j needle).
    { intros (_ & _ & _ & Hs). unfold eq_at in E. rewrite <- drop_drop in E.
      apply eq_ignore_ascii_case_spec in Hs. congruence. }
    specialize (IH (S j)). replace (S j - 1) with j in IH by lia.
    specialize (IH ltac:(lia) ltac:(lia) Hgap').
    destruct (find_gap fuel host (pos + S j) needle) as [start|].
    + destruct IH as (k & -> & Hp & Hmin). exists k. split_and!; [done|done|].
      intros k' Hk' Hp'. destruct (decide (k' = j)) as [->|]; [done|]. apply Hmin; [lia|done].
    + intros k Hk Hp. destruct (decide (k = j)) as [->|]; [done|]. apply (IH k); [lia|done].
Qed.

Lemma find_after_dotfree_gap_spec host pos needle :
  match find_after_dotfree_gap host pos needle with
  | Some start => exists k, start = pos + k /\ placed (drop pos host) k needle /\
      forall k', placed (drop pos host) k' needle -> k <= k'
  | None => forall k, ~ placed (drop pos host) k needle
  end.
Proof.
  unfold find_after_dotfree_gap.
  pose proof (find_gap_spec host pos needle (length host) 1 ltac:(lia) ltac:(lia)) as H.
  simpl in H. specialize (H ltac:(set_solver)).
  destruct (find_gap _ _ _ _) as [start|].
  - destruct H as (k & -> & Hp & Hmin). exists k. split_and!; [done|done|].
    intros k' Hk'. apply Hmin; [|done]. by destruct Hk'.
  - intros k Hk. apply (H k); [by destruct Hk|done].
Qed.

Lemma glob_tail_spec host pos last :
  pos <= length host -> glob_tail host pos last = true <-> starred [last] (drop pos host).
Proof.
  intros Hpos. unfold glob_tail. cbn [starred].
  destruct (Nat.ltb_spec (length host) (length last)) as [L|L].
  { split; [done|]. intros (g & a & ? & E & _ & _ & Ha & ->).
    apply (f_equal length) in E. rewrite length_drop, !length_app, (same_length _ _ Ha) in E.
    simpl in E. lia. }
  set (ts := length host - length last).
  destruct (Nat.leb_spec ts pos) as [L2|L2].
  { split; [done|]. intros (g & a & ? & E & Hg & _ & Ha & ->).
    apply (f_equal length) in E. rewrite length_drop, !length_app, (same_length _ _ Ha) in E.
    destruct g; [done|]. simpl in E. lia. }
  assert (Hsplit : drop pos host = take (ts - pos) (drop pos host) ++ drop ts host).
  { rewrite <- (take_drop (ts - pos) (drop pos host)) at 1. f_equal. rewrite drop_drop. f_equal. lia. }
  destruct (eq_ignore_ascii_case (drop ts host) last) eqn:E; simpl;
    [rewrite negb_true_iff, contains_byte_false; apply eq_ignore_ascii_case_spec in E|]; split.
  - intros Hd. exists (take (ts - pos) (drop pos host)), (drop ts host), [].
    rewrite app_nil_r. split_and!; [done| |done|done|done].
    intros H%(f_equal length). rewrite length_take, length_drop in H. simpl in H. lia.
  - intros (g & a & ? & Eq & Hg & Hd & Ha & ->). rewrite app_nil_r in Eq.
    rewrite Hsplit in Eq. apply app_inj_2 in Eq as [-> _]; [done|].
    rewrite length_drop, (same_length _ _ Ha). lia.
  - done.
  - intros (g & a & ? & Eq & Hg & Hd & Ha & ->). rewrite app_nil_r in Eq.
    rewrite Hsplit in Eq. apply app_inj_2 in Eq as [_ <-].
    + apply eq_ignore_ascii_case_spec in Ha. congruence.
    + rewrite length_drop, (same_length _ _ Ha). lia.
Qed.

(** Placing every inner piece at its first position decides the language. *)
Lemma match_mids_spec host mids last pos :
  pos <= length host ->
  match match_mids host pos mids with
  | Some pos' => glob_tail host pos' last
  | None => false
  end = true <-> starred (mids ++ [last]) (drop pos host).
Proof.
  revert pos. induction mids as [|mid mids IH]; intros pos Hpos.
  { by apply glob_tail_spec. }
  cbn [match_mids app]. pose proof (find_after_dotfree_gap_spec host pos mid) as F.
  destruct (find_after_dotfree_gap host pos mid) as [start|]; cbn [mbind option_bind].
  - destruct F as (k & -> & Hp & Hmin). pose proof Hp as (_ & Hl & _).
    rewrite length_drop in Hl. rewrite IH by lia.
    rewrite <- Nat.add_assoc, <- drop_drop.
    apply placed_parts in Hp as (g & a & E & Hg & Hd & Ha & Hk).
    cbn [starred]. split; [intros Hst; by exists g, a, (drop (k + length mid) (drop pos host))|].
    intros (g' & a' & s' & E' & Hg' & Hd' & Ha' & Hst).
    eapply (earlier_is_better g a _ g' a' s' mid); [congruence|done..| |by destruct mids|done].
    rewrite Hk. apply Hmin. rewrite E'. by apply parts_placed.
  - split; [done|]. intros (g' & a' & s' & E' & Hg' & Hd' & Ha' & Hst).
    exfalso. apply (F (length g')). rewrite E'. by apply parts_placed.
Qed.

Lemma glob_matches_pieces p0 ps host :
  Forall (fun p => star ∉ p) (p0 :: ps) ->
  glob_matches (p0 :: ps) host = glob (join star (p0 :: ps)) host.
Proof.
  intros Hall. apply eq_bool_prop_intro. rewrite !Is_true_true, glob_pieces by done.
  destruct ps as [|p ps].
  { cbn [glob_matches starred]. rewrite eq_ignore_ascii_case_spec. split.
    - intros H. exists host, []. by rewrite app_nil_r.
    - intros (a & ? & -> & Ha & ->). by rewrite app_nil_r. }
  cbn [glob_matches]. destruct (exists_last (l := p :: ps)) as (mids & lst & ->); [done|].
  rewrite last_snoc, length_app, Nat.add_sub, take_app_length. cbn [default].
  destruct (Nat.ltb_spec (length host) (length p0)) as [L|L]; simpl.
  { split; [done|]. intros (a & s' & -> & Ha & _). rewrite length_app, (same_length _ _ Ha) in L. lia. }
  assert (Hhead : forall a s', host = a ++ s' -> same a p0 ->
    a = take (length p0) host /\ s' = drop (length p0) host).
  { intros a s' -> Ha. rewrite <- (same_length _ _ Ha), take_app_length, drop_app_length. done. }
  unfold eq_at. rewrite drop_0.
  destruct (eq_ignore_ascii_case (take (length p0) host) p0) eqn:E; simpl.
  - apply eq_ignore_ascii_case_spec in E. rewrite match_mids_spec by done. split.
    + intros Hst. exists (take (length p0) host), (drop (length p0) host). by rewrite take_drop.
    + intros (a & s' & Eh & Ha & Hst). by destruct (Hhead _ _ Eh Ha) as [_ <-].
  - split; [done|]. intros (a & s' & Eh & Ha & Hst).
    destruct (Hhead _ _ Eh Ha) as [-> _]. apply eq_ignore_ascii_case_spec in Ha. congruence.
Qed.

Lemma glob_matches_compiled pattern pieces host :
  glob_compile pattern = Some pieces -> glob_matches pieces host = glob pattern host.
Proof.
  unfold glob_compile. destruct (_ && _); [done|]. intros [= <-].
  pose proof (split_pieces star pattern) as Hall. pose proof (split_ne star pattern) as Hne.
  rewrite <- (join_split star pattern) at 2.
  destruct (split star pattern) as [|p0 ps]; [done|]. by apply glob_matches_pieces.
Qed.

(** C40: the structural wildcard matcher accepts exactly the language of the
    pattern, although it never backtracks: a star stands for one or more
    bytes other than a dot and letters match without case. *)
Theorem glob_matcher_exact pattern pieces host :
  glob_compile pattern = Some pieces -> glob_matches pieces host = glob pattern host.
Proof. apply glob_matches_compiled. Qed.

Example glob_matcher_exact_witness :
  glob_compile (b! "a*.*.org") = Some [b! "a"; b! "."; b! ".org"] /\
  glob_matches [b! "a"; b! "."; b! ".org"] (b! "Abc.d.ORG") = glob (b! "a*.*.org") (b! "Abc.d.ORG").
Proof. split; [reflexivity|]. apply (glob_matcher_exact (b! "a*.*.org")). reflexivity. Defined.

(** ** The literal prefilter of the regex fallback *)

Lemma contains_infix needle a b : contains needle (a ++ needle ++ b) = true.
Proof. apply contains_spec. by exists a, b. Qed.

Lemma starred_contains ps s p :
  starred ps s -> p ∈ ps -> exists a b c, s = a ++ b ++ c /\ same b p.
Proof.
  revert s. induction ps as [|q ps IH]; intros s Hst Hin; [set_solver|].
  destruct Hst as (g & a & s' & -> & _ & _ & Ha & Hst).
  apply elem_of_cons in Hin as [->|Hin]; [by exists g, a, s'|].
  destruct (IH _ Hst Hin) as (x & y & z & -> & Hy).
  exists (g ++ a ++ x), y, z. by rewrite <- !app_assoc.
Qed.

Lemma glob_contains pattern part host :
  part ∈ split star pattern -> glob pattern host = true ->
  contains (to_ascii_lowercase part) (to_ascii_lowercase host) = true.
Proof.
  intros Hin Hg. pose proof (split_pieces star pattern) as Hall.
  rewrite <- (join_split star pattern) in Hg.
  destruct (split star pattern) as [|p0 ps]; [set_solver|].
  apply glob_pieces in Hg as (a & s' & -> & Ha & Hst); [|done].
  assert (exists x b y, a ++ s' = x ++ b ++ y /\ same b part) as (x & b & y & -> & Hb).
  { apply elem_of_cons in Hin as [->|Hin]; [by exists [], a, s'|].
    destruct (starred_contains _ _ _ Hst Hin) as (x & y & z & -> & Hy).
    exists (a ++ x), y, z. by rewrite <- app_assoc. }
  rewrite !lowercase_app, Hb. apply contains_infix.
Qed.

Lemma required_literal_is_part pattern lit :
  required_literal_from_wildcard pattern = Some lit ->
  exists part, part ∈ split star pattern /\ lit = to_ascii_lowercase part.
Proof.
  unfold required_literal_from_wildcard. set (parts := List.filter _ _).
  assert (Hsub : forall p, p ∈ parts -> p ∈ split star pattern).
  { intros p. unfold parts. rewrite !list_elem_of_In, filter_In. tauto. }
  set (f := fun (best : option bytes) (part : bytes) => _).
  assert (Hfold : forall l acc p, foldl f acc l = Some p -> acc = Some p \/ p ∈ l).
  { induction l as [|q l IH]; intros acc p H; [by left|]. simpl in H.
    apply IH in H as [H|H]; [|set_solver]. unfold f in H.
    destruct acc as [b|]; [destruct (_ <=? _)|]; simplify_eq; set_solver. }
  intros H. apply fmap_Some in H as (part & Hp & ->).
  apply Hfold in Hp as [?|Hp]; [done|]. exists part. auto.
Qed.

Lemma compiled_wildcard_glob `{RegexLaws} p w host :
  is_ascii p = true -> is_ascii host = true ->
  compile_domain_wildcard p = Some w -> wildcard_matches w host = glob p host.
Proof.
  intros Hp Hh. unfold compile_domain_wildcard. destruct (glob_compile p) as [pieces|] eqn:E.
  { intros [= <-]. by apply glob_matches_compiled. }
  destruct (regex_new (wildcard_regex p)) as [r|] eqn:Er; [|done]. intros [= <-].
  cbn. unfold regex_matches. cbn. rewrite (regex_wildcard _ _ _ Hp Hh Er).
  destruct (required_literal_from_wildcard p) as [lit|] eqn:El; [|done].
  apply required_literal_is_part in El as (part & Hin & ->).
  rewrite domain_keyword_matches_spec, to_ascii_lowercase_idemp.
  destruct (contains _ _) eqn:Ec; [done|]. destruct (glob p host) eqn:Eg; [|done].
  by rewrite (glob_contains _ _ _ Hin Eg) in Ec.
Qed.

(** The matcher compiled for a DOMAIN-WILDCARD rule, structural or a
    prefiltered regex, accepts the hosts the anchored case-insensitive regex
    of the uncompiled rule accepts. *)
Theorem compiled_wildcard_agrees `{RegexLaws} pattern r w host :
  is_ascii pattern = true -> is_ascii host = true ->
  regex_new (wildcard_regex pattern) = Some r ->
  compile_domain_wildcard pattern = Some w ->
  wildcard_matches w host = is_match r host.
Proof.
  intros Hp Hh Hr Hw. rewrite (regex_wildcard _ _ _ Hp Hh Hr). by apply compiled_wildcard_glob.
Qed.

Example compiled_wildcard_agrees_witness :
  exists w, compile_domain_wildcard (RL := toy_regex) (b! "**.org") = Some w /\
    wildcard_matches w (b! "abc.org") =
    is_match (RegexOps := toy_regex) (wildcard_regex (b! "**.org")) (b! "abc.org").
Proof.
  eexists. split; [reflexivity|].
  apply (@compiled_wildcard_agrees toy_regex toy_regex_laws (b! "**.org")); reflexivity.
Defined.

End Wildcard.
