(* ===== verification/Metadata.v ===== *)
(** * Connection metadata (crates/meow-common)

    The record the rule engine matches, the rule and target enumerations,
    and the probe that reports whether a target can be used. *)

From S2P Require Import Prelude Strings Ip.

Module Metadata.

Inductive Network := Tcp | Udp.

Inductive ConnType :=
  | Http | Https | Socks4 | Socks5 | Shadowsocks | Vmess | Vless | Redir | TProxy | Trojan
  | Tun | Tunnel | Tuic | Hysteria2 | Inner.

Inductive DnsMode := Normal | Mapping | FakeIp.

#[export] Instance Network_eq_dec : EqDecision Network.
Proof. solve_decision. Defined.
#[export] Instance ConnType_eq_dec : EqDecision ConnType.
Proof. solve_decision. Defined.
#[export] Instance DnsMode_eq_dec : EqDecision DnsMode.
Proof. solve_decision. Defined.

Definition mapping_enabled (m : DnsMode) : bool :=
  match m with Mapping | FakeIp => true | Normal => false end.

(** Ports, [uid] and [dscp] are the integers of their widths. *)
Record Metadata := mkMetadata {
  network : Network;
  conn_type : ConnType;
  src_ip : option IpAddr;
  dst_ip : option IpAddr;
  src_port : Z;
  dst_port : Z;
  host : bytes;
  dns_mode : DnsMode;
  process : bytes;
  process_path : bytes;
  uid : option Z;
  dscp : option Z;
  src_geo_ip : list bytes;
  dst_geo_ip : list bytes;
  sniff_host : bytes;
  in_name : bytes;
  in_port : Z;
  in_user : option bytes;
  special_proxy : bytes;
  internal : bool;
}.

(** [Metadata::default]. *)
Definition default_metadata : Metadata := {|
  network := Tcp; conn_type := Http; src_ip := None; dst_ip := None; src_port := 0; dst_port := 0;
  host := []; dns_mode := Normal; process := []; process_path := []; uid := None; dscp := None;
  src_geo_ip := []; dst_geo_ip := []; sniff_host := []; in_name := []; in_port := 0;
  in_user := None; special_proxy := []; internal := false;
|}.

Definition is_internal (m : Metadata) : bool :=
  internal m || bool_decide (conn_type m = Tunnel).

Definition swap_src_dst (m : Metadata) : Metadata := {|
  network := network m; conn_type := conn_type m; src_ip := dst_ip m; dst_ip := src_ip m;
  src_port := dst_port m; dst_port := src_port m; host := host m; dns_mode := dns_mode m;
  process := process m; process_path := process_path m; uid := uid m; dscp := dscp m;
  src_geo_ip := dst_geo_ip m; dst_geo_ip := src_geo_ip m; sniff_host := sniff_host m;
  in_name := in_name m; in_port := in_port m; in_user := in_user m;
  special_proxy := special_proxy m; internal := internal m;
|}.

Definition domain_udp_target (m : Metadata) : option (bytes * Z) :=
  if bool_decide (network m = Udp) && bool_decide (dst_ip m = None) && negb (bool_decide (host m = []))
  then Some (host m, dst_port m) else None.

Definition lower_host (s : bytes) : bytes := if has_uppercase s then to_ascii_lowercase s else s.

Definition rule_host (m : Metadata) : bytes :=
  if bool_decide (sniff_host m = []) then trim_end_byte dot (host m)
  else trim_end_byte dot (sniff_host m).

Definition resolved (m : Metadata) : bool := bool_decide (is_Some (dst_ip m)).

Definition pure (m : Metadata) : Metadata := {|
  network := network m; conn_type := conn_type m; src_ip := src_ip m; dst_ip := dst_ip m;
  src_port := src_port m; dst_port := dst_port m; host := host m; dns_mode := dns_mode m;
  process := process m; process_path := process_path m; uid := uid m; dscp := dscp m;
  src_geo_ip := []; dst_geo_ip := []; sniff_host := []; in_name := []; in_port := 0;
  in_user := None; special_proxy := []; internal := internal m;
|}.

(** ** Rules and targets *)

Inductive RuleType :=
  | TDomain | TDomainSuffix | TDomainKeyword | TDomainRegex | TGeoSite | TGeoIp | TSrcGeoIp
  | TIpCidr | TSrcIpCidr | TSrcPort | TDstPort | TInPort | TDscp | TProcessName | TProcessPath
  | TNetwork | TUid | TMatch | TRuleSet | TAnd | TOr | TNot | TDomainWildcard | TIpSuffix
  | TSrcIpSuffix | TIpAsn | TSrcIpAsn | TSubRule | TInName | TInType | TInUser.

#[export] Instance RuleType_eq_dec : EqDecision RuleType.
Proof. solve_decision. Defined.

Inductive TargetCheck := Usable | Missing | Pass.

#[export] Instance TargetCheck_eq_dec : EqDecision TargetCheck.
Proof. solve_decision. Defined.

(** The trait [TargetProbe]; a plain predicate is a probe without passes. *)
Record TargetProbe := mkProbe { check : bytes -> TargetCheck; is_pass_rule : bytes -> bool }.

Definition probe_of (f : bytes -> bool) : TargetProbe :=
  mkProbe (fun name => if f name then Usable else Missing) (fun _ => false).

(** ** What the platform can tell about a socket's owner *)

Inductive Os := Linux | MacOs | Windows | OtherOs.

#[export] Instance Os_eq_dec : EqDecision Os.
Proof. solve_decision. Defined.

Class Platform := { target_os : Os; inbound_process_info : bool }.

Section Platform.
Context `{Platform}.

Definition PROCESS_LOOKUP_SUPPORTED : bool :=
  match target_os with Linux | MacOs | Windows => true | OtherOs => false end.
Definition process_info_available : bool := PROCESS_LOOKUP_SUPPORTED || inbound_process_info.
Definition uid_info_available : bool := bool_decide (target_os = Linux) || inbound_process_info.

End Platform.

(** ** Facts *)

Lemma lower_host_spec s : lower_host s = to_ascii_lowercase s.
Proof. unfold lower_host. destruct (has_uppercase s) eqn:E; [done|]. by rewrite lowercase_id. Qed.

Lemma swap_src_dst_involutive m : swap_src_dst (swap_src_dst m) = m.
Proof. by destruct m. Qed.

Lemma rule_host_swap m : rule_host (swap_src_dst m) = rule_host m.
Proof. done. Qed.

Lemma rule_host_last m : last (rule_host m) <> Some dot.
Proof.
  unfold rule_host. case_bool_decide; destruct (trim_end_byte_spec dot (host m)) as (? & _ & ?);
    destruct (trim_end_byte_spec dot (sniff_host m)) as (? & _ & ?); done.
Qed.

End Metadata.
