(* ===== verification/Geosite.v ===== *)
(** * The geosite database (crates/meow-rules/src/geosite.rs)

    Category names map to a domain trie, a keyword list and a list of
    compiled expressions. A rule payload [base@attr1@attr2] asks for the
    intersection of the buckets [base@attr1] and [base@attr2]; the compiled
    form resolves the bucket keys once. *)

From S2P Require Import Prelude Strings Vec Trie TrieSealed DomainTrie TrieSpec TrieTheorems Regex.

Module Geosite.
Import Trie Sealed DomainTrie TrieSpec TrieTheorems.

(** The iteration order of a hash map's keys. *)
Class KeyOrder := {
  key_order {A} : gmap bytes A -> list bytes;
  key_order_perm {A} (m : gmap bytes A) : key_order m ≡ₚ (map_to_list m).*1;
}.

#[export] Program Instance default_key_order : KeyOrder | 100 :=
  {| key_order _ m := (map_to_list m).*1 |}.
Next Obligation. done. Qed.

Section Geosite.
Context `{HO : HashOrder, UL : UnicodeLower, RO : RegexOps, KO : KeyOrder}.

Record GeositeDB := mkDB {
  categories : gmap bytes (DomainTrie unit);
  counts : gmap bytes nat;
  regex_compiled : gmap bytes (list Regex);
  keywords : gmap bytes (list bytes);
}.

Definition empty : GeositeDB := mkDB ∅ ∅ ∅ ∅.

(** [None] is a panic of the trie. *)
Definition db_insert (db : GeositeDB) (cat domain : bytes) : option GeositeDB :=
  let cat_key := to_ascii_lowercase cat in
  let trie := default new (categories db !! cat_key) in
  '(inserted, trie) ← insert trie (to_ascii_lowercase domain) tt;
  Some (mkDB (<[cat_key := trie]> (categories db))
    (if (inserted : bool)
     then <[cat_key := default 0 (counts db !! cat_key) + 1]> (counts db) else counts db)
    (regex_compiled db) (keywords db)).

Definition at_sign : ascii := "@"%char.

Definition split_category_attrs (category : bytes) : bytes * list bytes :=
  match split at_sign (trim category) with
  | [] => ([], [])
  | base :: parts =>
      (trim base, map to_ascii_lowercase
        (List.filter (fun attr => negb (bool_decide (attr = []))) (map trim parts)))
  end.

(** A search of a trie built by inserts does not panic
    ([trie_search_most_specific]); a panic would count as a miss. *)
Definition trie_has (t : DomainTrie unit) (domain : bytes) : bool :=
  bool_decide (search t domain = Some (Some tt)).

Definition lookup_resolved (db : GeositeDB) (key domain : bytes) : bool :=
  (match categories db !! key with Some trie => trie_has trie domain | None => false end) ||
  (match keywords db !! key with
   | Some kws => existsb (fun kw => contains kw domain) kws
   | None => false
   end) ||
  (match regex_compiled db !! key with
   | Some compiled => existsb (fun re => is_match re domain) compiled
   | None => false
   end).

Definition category_key (db : GeositeDB) (category : bytes) : option bytes :=
  if negb (has_uppercase category) then Some category
  else List.find (fun key => eq_ignore_ascii_case key category)
    (key_order (categories db) ++ key_order (keywords db) ++ key_order (regex_compiled db)).

Definition lookup_one (db : GeositeDB) (category domain : bytes) : bool :=
  match category_key db category with
  | None => false
  | Some cat => lookup_resolved db cat domain
  end.

Definition lookup (db : GeositeDB) (category domain : bytes) : bool :=
  let '(base, attrs) := split_category_attrs category in
  if negb (bool_decide (attrs = [])) then
    forallb (fun attr => lookup_one db (base ++ [at_sign] ++ attr) domain) attrs
  else lookup_one db base domain.

Definition contains_key {A} (m : gmap bytes A) (k : bytes) : bool := bool_decide (is_Some (m !! k)).

Definition bucket_exists (db : GeositeDB) (key : bytes) : bool :=
  contains_key (categories db) key || contains_key (keywords db) key ||
  contains_key (regex_compiled db) key.

Definition resolve_keys (db : GeositeDB) (category : bytes) : option (list bytes) :=
  let '(base, attrs) := split_category_attrs category in
  if bool_decide (base = []) then None
  else
    let needed := if bool_decide (attrs = []) then [base]
                  else map (fun attr => base ++ [at_sign] ++ attr) attrs in
    mapM (fun key =>
      canon ← category_key db key;
      if bucket_exists db canon then Some canon else None) needed.

Definition category_count (db : GeositeDB) : nat := size (categories db).
Definition domain_count (db : GeositeDB) (category : bytes) : option nat :=
  counts db !! to_ascii_lowercase category.

(** [from_parts]: seal every trie, compile every pattern that compiles. *)
Definition from_parts (cats : gmap bytes (DomainTrie unit)) (cnts : gmap bytes nat)
    (patterns : gmap bytes (list bytes)) (kws : gmap bytes (list bytes)) : option GeositeDB :=
  if bool_decide (map_Forall (fun _ t => is_Some (seal t)) cats) then
    Some (mkDB (omap seal cats) cnts ((fun ps : list bytes => omap regex_new ps) <$> patterns) kws)
  else None.

(** ** Resolving a payload *)

Lemma elem_of_key_order {A} (m : gmap bytes A) k : k ∈ key_order m <-> is_Some (m !! k).
Proof.
  rewrite key_order_perm, list_elem_of_fmap. split.
  - intros ([k' v] & -> & H%elem_of_map_to_list). by exists v.
  - intros [v H]. exists (k, v). split; [done|]. by apply elem_of_map_to_list.
Qed.

Lemma lookup_resolved_none db key d : bucket_exists db key = false -> lookup_resolved db key d = false.
Proof.
  unfold bucket_exists, contains_key, lookup_resolved. rewrite !orb_false_iff, !bool_decide_eq_false.
  intros [[H1 H2] H3]. apply eq_None_not_Some in H1, H2, H3. by rewrite H1, H2, H3.
Qed.

Lemma elem_of_all_keys db k :
  k ∈ key_order (categories db) ++ key_order (keywords db) ++ key_order (regex_compiled db) <->
  bucket_exists db k = true.
Proof.
  rewrite !elem_of_app, !elem_of_key_order. unfold bucket_exists, contains_key.
  rewrite !orb_true_iff, !bool_decide_eq_true. tauto.
Qed.

Lemma category_key_upper db c :
  has_uppercase c = true ->
  match category_key db c with
  | Some k => bucket_exists db k = true /\ to_ascii_lowercase k = to_ascii_lowercase c
  | None => forall k, bucket_exists db k = true -> to_ascii_lowercase k <> to_ascii_lowercase c
  end.
Proof.
  intros Hu. unfold category_key. rewrite Hu. simpl. destruct (List.find _ _) as [k|] eqn:E.
  - apply find_some in E as [Hin%list_elem_of_In Heq%eq_ignore_ascii_case_spec].
    by apply elem_of_all_keys in Hin.
  - intros k Hk%elem_of_all_keys%list_elem_of_In Heq%eq_ignore_ascii_case_spec.
    by rewrite (find_none _ _ E _ Hk) in Heq.
Qed.

Definition needed_keys (category : bytes) : list bytes :=
  let '(base, attrs) := split_category_attrs category in
  if bool_decide (attrs = []) then [base] else map (fun attr => base ++ [at_sign] ++ attr) attrs.

Lemma lookup_needed db c d : lookup db c d = forallb (fun k => lookup_one db k d) (needed_keys c).
Proof.
  unfold lookup, needed_keys. destruct (split_category_attrs c) as [base attrs].
  case_bool_decide; simpl; [by rewrite andb_true_r|].
  induction attrs as [|a attrs IH]; [done|]. simpl. f_equal. clear.
  induction attrs as [|a attrs IH]; [done|]. simpl. by rewrite IH.
Qed.

(** Resolving a payload once answers as looking it up each time. *)
Lemma resolve_keys_lookup db c keys d :
  resolve_keys db c = Some keys -> lookup db c d = forallb (fun k => lookup_resolved db k d) keys.
Proof.
  rewrite lookup_needed. unfold resolve_keys, needed_keys.
  destruct (split_category_attrs c) as [base attrs]. case_bool_decide as Hb; [done|].
  set (needed := if bool_decide _ then _ else _). clearbody needed.
  revert keys. induction needed as [|k needed IH]; intros keys H.
  { by injection H as <-. }
  cbn [mapM mbind option_bind mret option_ret] in H.
  destruct (category_key db k) as [canon|] eqn:Ek; [|done]. cbn [mbind option_bind] in H.
  destruct (bucket_exists db canon) eqn:Eb; [|done].
  destruct (mapM _ needed) as [ks|] eqn:Em; [|done]. cbn [mbind option_bind] in H.
  injection H as <-. simpl. rewrite (IH ks eq_refl). f_equal. unfold lookup_one. by rewrite Ek.
Qed.

(** No bucket is named by an attribute alone. *)
Definition named_buckets (db : GeositeDB) : Prop :=
  forall k, bucket_exists db k = true -> k <> [] /\ head k <> Some at_sign.

(** A payload that does not resolve matches no domain. *)
Lemma resolve_keys_none db c d :
  named_buckets db -> resolve_keys db c = None -> lookup db c d = false.
Proof.
  intros Hn. rewrite lookup_needed. unfold resolve_keys, needed_keys.
  destruct (split_category_attrs c) as [base attrs] eqn:Es. case_bool_decide as Hb.
  - intros _. subst base.
    assert (Hmiss : forall k, k = [] \/ head k = Some at_sign -> has_uppercase k = false ->
      lookup_one db k d = false).
    { intros k Hk Hu. unfold lookup_one, category_key. rewrite Hu. simpl.
      apply lookup_resolved_none, not_true_iff_false. intros He. destruct (Hn k He). naive_solver. }
    case_bool_decide as Ha; [simpl; by rewrite Hmiss by (by auto)|].
    destruct attrs as [|a attrs]; [done|]. simpl. rewrite Hmiss; [done|by right|].
    unfold split_category_attrs in Es. destruct (split at_sign (trim c)) as [|b ps]; [done|].
    injection Es as _ Es. destruct (List.filter _ _) as [|x xs]; [done|]. injection Es as <- _.
    simpl. unfold has_uppercase, to_ascii_lowercase. apply not_true_iff_false.
    rewrite existsb_exists. intros (ch & Hin & Hu). apply list_elem_of_In, list_elem_of_fmap in Hin as (y & -> & _).
    by rewrite byte_lower_not_upper in Hu.
  - set (needed := if bool_decide _ then _ else _). clearbody needed.
    induction needed as [|k needed IH]; [done|]. intros H. simpl.
    cbn [mapM mbind option_bind mret option_ret] in H. unfold lookup_one at 1.
    destruct (category_key db k) as [canon|] eqn:Ek; [|done]. cbn [mbind option_bind] in H.
    destruct (bucket_exists db canon) eqn:Eb; [|by rewrite lookup_resolved_none].
    destruct (mapM _ needed) as [ks|] eqn:Em; [done|]. by rewrite IH, andb_false_r.
Qed.

(** ** A database built by inserts *)

Definition db_of (entries : list (bytes * bytes)) : option GeositeDB :=
  foldlM (fun db e => db_insert db e.1 e.2) empty entries.

(** The inserts that reach a bucket. *)
Definition bucket_domains (key : bytes) (entries : list (bytes * bytes)) : list bytes :=
  omap (fun e => if decide (to_ascii_lowercase e.1 = key) then Some (to_ascii_lowercase e.2) else None)
    entries.

Definition entries_small (entries : list (bytes * bytes)) : Prop :=
  small (build_ops ((fun e => to_ascii_lowercase e.2) <$> entries) tt).

Lemma bucket_domains_app key a b :
  bucket_domains key (a ++ b) = bucket_domains key a ++ bucket_domains key b.
Proof. apply omap_app. Qed.

Lemma bucket_small key entries :
  entries_small entries -> small (build_ops (bucket_domains key entries) tt).
Proof.
  unfold entries_small, small, build_ops, bucket_domains. intros H.
  assert (Hle : sum_list_with op_cost ((fun p => Insert p tt) <$>
      omap (fun e => if decide (to_ascii_lowercase e.1 = key) then Some (to_ascii_lowercase e.2) else None) entries)
    <= sum_list_with op_cost ((fun p => Insert p tt) <$> ((fun e : bytes * bytes => to_ascii_lowercase e.2) <$> entries))).
  { clear H. induction entries as [|e es IH]; [done|]. csimpl. case_decide; csimpl; lia. }
  lia.
Qed.

Record built_db (entries : list (bytes * bytes)) (db : GeositeDB) : Prop := {
  bd_trie key : run_ops (build_ops (bucket_domains key entries) tt) =
    Some (default new (categories db !! key));
  bd_some key : is_Some (categories db !! key) <-> bucket_domains key entries <> [];
  bd_keywords : keywords db = ∅;
  bd_regex : regex_compiled db = ∅;
}.

Lemma db_of_built entries : entries_small entries -> exists db, db_of entries = Some db /\ built_db entries db.
Proof.
  intros Hs. apply (foldlM_invariant built_db).
  { split; try done. intros key. simpl. rewrite lookup_empty. split; [by intros []|done]. }
  intros seen e rest db Hsplit Hdb. set (key := to_ascii_lowercase e.1).
  assert (Hseen : entries_small (seen ++ [e])).
  { unfold entries_small, small, build_ops in *. rewrite Hsplit in Hs.
    rewrite !fmap_app, !sum_list_with_app in Hs. rewrite !fmap_app, !sum_list_with_app. simpl in *. lia. }
  destruct (run_repr _ (bucket_small key _ Hseen)) as (t & b & Ht & _).
  pose proof Ht as Hrun. unfold bucket_domains in Ht. rewrite omap_app in Ht. simpl in Ht.
  rewrite decide_True in Ht by done. unfold build_ops, run_ops in Ht.
  rewrite fmap_app, foldlM_app in Ht. pose proof (bd_trie _ _ Hdb key) as Hk.
  unfold bucket_domains, build_ops, run_ops in Hk. rewrite Hk in Ht.
  cbn [fmap list_fmap foldlM mbind option_bind step] in Ht.
  destruct (insert _ _ _) as [[ok t']|] eqn:Ei; [|done]. simpl in Ht. injection Ht as ->.
  unfold db_insert. fold key. rewrite Ei. cbn [mbind option_bind]. eexists. split; [done|].
  split; simpl; [| |apply (bd_keywords _ _ Hdb)|apply (bd_regex _ _ Hdb)].
  - intros key'. destruct (decide (key = key')) as [<-|Hne].
    + rewrite lookup_insert_eq. apply Hrun.
    + rewrite lookup_insert_ne by done. rewrite bucket_domains_app. simpl.
      rewrite decide_False by done. rewrite app_nil_r. apply (bd_trie _ _ Hdb).
  - intros key'. rewrite bucket_domains_app. simpl. destruct (decide (key = key')) as [<-|Hne].
    + rewrite lookup_insert_eq, decide_True by done. split; [|done].
      intros _ H. by apply app_nil in H as [_ ?].
    + rewrite lookup_insert_ne, decide_False by done. rewrite app_nil_r. apply (bd_some _ _ Hdb).
Qed.

Lemma elem_of_bucket_domains key entries p :
  p ∈ bucket_domains key entries <->
  exists e, e ∈ entries /\ to_ascii_lowercase e.1 = key /\ p = to_ascii_lowercase e.2.
Proof.
  unfold bucket_domains. rewrite list_elem_of_omap. split.
  - intros (e & He & Hp). case_decide; simplify_eq. by exists e.
  - intros (e & He & Hk & ->). exists e. by rewrite decide_True.
Qed.

Lemma bucket_key_lower entries db key :
  built_db entries db -> bucket_exists db key = true -> to_ascii_lowercase key = key.
Proof.
  intros Hdb. unfold bucket_exists, contains_key.
  rewrite (bd_keywords _ _ Hdb), (bd_regex _ _ Hdb), !lookup_empty, !orb_false_r.
  rewrite bool_decide_eq_true, (bd_some _ _ Hdb). intros H.
  destruct (bucket_domains key entries) as [|p ps] eqn:E; [done|].
  assert (Hp : p ∈ bucket_domains key entries) by (rewrite E; set_solver).
  apply elem_of_bucket_domains in Hp as (e & _ & <- & _). apply to_ascii_lowercase_idemp.
Qed.

Lemma built_named entries db :
  built_db entries db -> Forall (fun e => e.1 <> [] /\ head e.1 <> Some at_sign) entries ->
  named_buckets db.
Proof.
  intros Hdb Hall key. unfold bucket_exists, contains_key.
  rewrite (bd_keywords _ _ Hdb), (bd_regex _ _ Hdb), !lookup_empty, !orb_false_r.
  rewrite bool_decide_eq_true, (bd_some _ _ Hdb). intros H.
  destruct (bucket_domains key entries) as [|p ps] eqn:E; [done|].
  assert (Hp : p ∈ bucket_domains key entries) by (rewrite E; set_solver).
  apply elem_of_bucket_domains in Hp as ([c d] & He & <- & _).
  rewrite Forall_forall in Hall. destruct (Hall _ He) as [Hne Hat]. simpl in *.
  destruct c as [|x c]; [done|]. split; [done|]. simpl in *. intros [= Hx]. apply Hat. f_equal.
  unfold byte_lower in Hx. destruct (is_ascii_uppercase x) eqn:Eu; [|done].
  by destruct x as [[] [] [] [] [] [] [] []].
Qed.

Lemma lookup_one_built entries db c d :
  built_db entries db -> lookup_one db c d = lookup_resolved db (to_ascii_lowercase c) d.
Proof.
  intros Hdb. unfold lookup_one. destruct (has_uppercase c) eqn:Hu.
  2: by unfold category_key; rewrite Hu, (lowercase_id c).
  pose proof (category_key_upper db c Hu) as Hk. destruct (category_key db c) as [k|].
  - destruct Hk as [He <-]. by rewrite (bucket_key_lower _ _ _ Hdb He).
  - symmetry. apply lookup_resolved_none, not_true_iff_false. intros He.
    apply (Hk _ He). by rewrite to_ascii_lowercase_idemp.
Qed.

Lemma lookup_resolved_built entries db key d :
  entries_small entries -> built_db entries db ->
  lookup_resolved db key d = true <->
  exists e, e ∈ entries /\ to_ascii_lowercase e.1 = key /\
    exists k, k ∈ key_slots (to_ascii_lowercase e.2) /\
      key_matches k (to_ascii_lowercase (trim_end_byte dot (trim d))).
Proof.
  intros Hs Hdb. unfold lookup_resolved.
  rewrite (bd_keywords _ _ Hdb), (bd_regex _ _ Hdb), !lookup_empty, !orb_false_r.
  set (q := to_ascii_lowercase _).
  assert (Hq : (exists p, p ∈ bucket_domains key entries /\ exists k, k ∈ key_slots p /\ key_matches k q) <->
    exists e, e ∈ entries /\ to_ascii_lowercase e.1 = key /\
      exists k, k ∈ key_slots (to_ascii_lowercase e.2) /\ key_matches k q).
  { setoid_rewrite elem_of_bucket_domains. naive_solver. }
  rewrite <- Hq. clear Hq. pose proof (bd_some _ _ Hdb key) as Hsome.
  destruct (categories db !! key) as [t|] eqn:Et.
  - pose proof (bd_trie _ _ Hdb key) as Hrun. rewrite Et in Hrun.
    destruct (run_repr _ (bucket_small key _ Hs)) as (t' & b & Ht' & Hr & _).
    rewrite Hrun in Ht'. injection Ht' as <-. unfold trie_has.
    rewrite bool_decide_eq_true, (search_run _ _ _ _ Hr). fold q.
    assert (Hb := best_match_Some (contents (build_ops (bucket_domains key entries) tt)) q).
    setoid_rewrite contents_build in Hb. destruct (best_match _ q) as [[]|]; split.
    + intros _. destruct (proj1 Hb ltac:(done)) as (k & Hm & p & Hp & Hk). by exists p; eauto.
    + done.
    + done.
    + intros (p & Hp & k & Hk & Hm). destruct (proj2 Hb) as [? ?]; [by eauto|done].
  - split; [done|]. intros (p & Hp & _). destruct (bucket_domains key entries) as [|x xs]; [set_solver|].
    destruct (proj2 Hsome) as [? ?]; done.
Qed.

(** A database built by inserts never panics, and a payload matches a
    domain exactly when every bucket it names, without case, holds an entry
    whose pattern matches the trimmed, folded domain. *)
Theorem geosite_lookup_exact entries :
  entries_small entries ->
  exists db, db_of entries = Some db /\
    forall category domain,
      lookup db category domain = true <->
      forall key, key ∈ needed_keys category ->
        exists e, e ∈ entries /\ to_ascii_lowercase e.1 = to_ascii_lowercase key /\
          exists k, k ∈ key_slots (to_ascii_lowercase e.2) /\
            key_matches k (to_ascii_lowercase (trim_end_byte dot (trim domain))).
Proof.
  intros Hs. destruct (db_of_built entries Hs) as (db & Hdb & Hb).
  exists db. split; [done|]. intros category domain.
  rewrite lookup_needed, forallb_forall. setoid_rewrite <- list_elem_of_In.
  by setoid_rewrite (lookup_one_built _ _ _ _ Hb); setoid_rewrite (lookup_resolved_built _ _ _ _ Hs Hb).
Qed.

(** resolving the bucket keys of a payload once and testing each of them
    answers as the full lookup; a payload that does not resolve matches
    nothing, provided no bucket's name is empty or starts with [@]. *)
Theorem geosite_resolved_agrees db category domain :
  named_buckets db ->
  lookup db category domain =
  match resolve_keys db category with
  | Some keys => forallb (fun key => lookup_resolved db key domain) keys
  | None => false
  end.
Proof.
  intros Hn. destruct (resolve_keys db category) as [keys|] eqn:E.
  - by apply resolve_keys_lookup.
  - by apply resolve_keys_none.
Qed.

End Geosite.

Lemma geosite_lookup_exact_witness :
  entries_small [(b! "CN", b! "+.baidu.com")] /\
  exists db, db_of (RO := toy_regex) [(b! "CN", b! "+.baidu.com")] = Some db /\
    lookup db (b! " cn ") (b! "Tieba.BAIDU.com.") = true.
Proof.
  assert (Hs : entries_small [(b! "CN", b! "+.baidu.com")]).
  { unfold entries_small, small. vm_compute. reflexivity. }
  split; [exact Hs|].
  destruct (geosite_lookup_exact (RO := toy_regex) _ Hs) as (db & Hdb & H).
  exists db. split; [exact Hdb|]. apply H. intros key Hk.
  exists (b! "CN", b! "+.baidu.com"). split; [left|].
  assert (key = b! "cn") as ->.
  { vm_compute in Hk. inversion Hk as [|? ? ? Hn]; subst; [reflexivity|inversion Hn]. }
  split; [reflexivity|]. exists (Dot, b! "baidu.com"). split; [vm_compute; right; left|].
  exists (b! "tieba"). reflexivity.
Defined.

Lemma geosite_resolved_agrees_witness :
  exists db, db_of (RO := toy_regex) [(b! "cn@ads", b! "ad.com")] = Some db /\
    named_buckets db /\
    lookup db (b! "CN@ADS") (b! "ad.com") =
    match resolve_keys db (b! "CN@ADS") with
    | Some keys => forallb (fun key => lookup_resolved db key (b! "ad.com")) keys
    | None => false
    end.
Proof.
  assert (Hs : entries_small [(b! "cn@ads", b! "ad.com")]) by (vm_compute; reflexivity).
  destruct (db_of_built (RO := toy_regex) _ Hs) as (db & Hdb & Hb).
  assert (Hn : named_buckets db) by (apply (built_named _ _ Hb); repeat constructor; done).
  exists db. split; [exact Hdb|]. split; [exact Hn|]. exact (geosite_resolved_agrees db _ _ Hn).
Defined.

End Geosite.
