(* ===== verification/GeositeLoad.v ===== *)
(** * Loading a geosite database
    (crates/meow-rules/src/geosite.rs, crates/meow-rules/src/geosite_dat.rs)

    [from_bytes] reads either an MRS file, streaming its items into tries, or
    a V2Ray protobuf file. The protobuf reader is a cursor over a slice; an
    outer [None] is a panic of the trie. Skip counters only feed the log and
    are left out. *)

From S2P Require Import Prelude Strings Trim Vec Bits Trie TrieSealed DomainTrie TrieSpec TrieTheorems Regex.
From S2P Require Import Stream MrsCodec Geosite.

Module GeositeLoad.
Import Sealed DomainTrie Stream MrsCodec Geosite.

(** ** The protobuf reader *)

Inductive DatError :=
  | DatTruncated (pos : Z)
  | VarintOverflow (pos : Z)
  | InvalidUtf8 (pos : Z)
  | UnknownWireType (pos wire : Z).

Record PbReader := mkPb { pb_rest : bytes; pb_pos : Z }.

Definition pb_new (buf : bytes) : PbReader := mkPb buf 0.
Definition is_at_end (r : PbReader) : bool := match pb_rest r with [] => true | _ => false end.
Definition remaining (r : PbReader) : Z := Z.of_nat (length (pb_rest r)).
Definition advance (n : nat) (r : PbReader) : PbReader := mkPb (drop n (pb_rest r)) (pb_pos r + Z.of_nat n).

Fixpoint varint_loop (start acc shift : Z) (s : bytes) (pos : Z) : result DatError (Z * PbReader) :=
  match s with
  | [] => Err (DatTruncated start)
  | c :: s =>
      let b := byte_z c in
      if (64 <=? shift)%Z then Err (VarintOverflow start)
      else
        let acc := Z.lor acc (wrap64 (Z.shiftl (Z.land b 127) shift)) in
        if (Z.land b 128 =? 0)%Z then Ok (acc, mkPb s (pos + 1))
        else varint_loop start acc (shift + 7) s (pos + 1)
  end.

Definition read_varint (r : PbReader) : result DatError (Z * PbReader) :=
  varint_loop (pb_pos r) 0 0 (pb_rest r) (pb_pos r).

Definition read_tag (r : PbReader) : result DatError (Z * Z * PbReader) :=
  '(tag, r) ← read_varint r;
  Ok (Z.shiftr tag 3 `mod` 2 ^ 32, Z.land tag 7, r)%Z.

Definition read_length_delimited (r : PbReader) : result DatError (bytes * PbReader) :=
  let start := pb_pos r in
  '(len, r) ← read_varint r;
  if (remaining r <? len)%Z then Err (DatTruncated start)
  else Ok (take (Z.to_nat len) (pb_rest r), advance (Z.to_nat len) r).

Definition WIRE_VARINT : Z := 0.
Definition WIRE_I64 : Z := 1.
Definition WIRE_LEN_DELIM : Z := 2.
Definition WIRE_I32 : Z := 5.

Definition skip_field (wire : Z) (r : PbReader) : result DatError PbReader :=
  let start := pb_pos r in
  if (wire =? WIRE_VARINT)%Z then '(_, r) ← read_varint r; Ok r
  else if (wire =? WIRE_LEN_DELIM)%Z then '(_, r) ← read_length_delimited r; Ok r
  else if (wire =? WIRE_I64)%Z then if (remaining r <? 8)%Z then Err (DatTruncated start) else Ok (advance 8 r)
  else if (wire =? WIRE_I32)%Z then if (remaining r <? 4)%Z then Err (DatTruncated start) else Ok (advance 4 r)
  else Err (UnknownWireType start wire).

(** [while !r.is_at_end() { let (field, wire) = r.read_tag()?; .. }]. A tag
    takes a byte at least: the fuel is the length of the message. *)
Fixpoint fields_loop {S} (step : S -> Z -> Z -> PbReader -> result DatError (S * PbReader))
    (fuel : nat) (s : S) (r : PbReader) : result DatError S :=
  if is_at_end r then Ok s
  else match fuel with
  | 0 => Ok s
  | Datatypes.S fuel =>
      '(field, wire, r) ← read_tag r;
      '(s, r) ← step s field wire r;
      fields_loop step fuel s r
  end.

Definition fields {S} (step : S -> Z -> Z -> PbReader -> result DatError (S * PbReader)) (s : S) (data : bytes) :
    result DatError S := fields_loop step (length data) s (pb_new data).

(** [(_, w) => r.skip_field(w)?]. *)
Definition skipped {S} (s : S) (wire : Z) (r : PbReader) : result DatError (S * PbReader) :=
  r ← skip_field wire r; Ok (s, r).

(** [from_utf8(bytes).map_err(|_| InvalidUtf8(r.pos))?]. *)
Definition pb_str (b : bytes) (r : PbReader) : result DatError bytes :=
  if from_utf8_ok b then Ok b else Err (InvalidUtf8 (pb_pos r)).

(** ** Domain entries *)

Definition FIELD_GEOSITELIST_ENTRY : Z := 1.
Definition FIELD_GEOSITE_COUNTRY_CODE : Z := 1.
Definition FIELD_GEOSITE_DOMAIN : Z := 2.
Definition FIELD_DOMAIN_TYPE : Z := 1.
Definition FIELD_DOMAIN_VALUE : Z := 2.
Definition FIELD_DOMAIN_ATTRIBUTE : Z := 3.
Definition FIELD_ATTRIBUTE_KEY : Z := 1.
Definition DOMAIN_TYPE_PLAIN : Z := 0.
Definition DOMAIN_TYPE_REGEX : Z := 1.
Definition DOMAIN_TYPE_DOMAIN : Z := 2.
Definition DOMAIN_TYPE_FULL : Z := 3.

Definition attribute_step (key : option bytes) (field wire : Z) (r : PbReader) :
    result DatError (option bytes * PbReader) :=
  if ((field =? FIELD_ATTRIBUTE_KEY) && (wire =? WIRE_LEN_DELIM))%Z then
    '(b, r) ← read_length_delimited r;
    s ← pb_str b r;
    let s := to_ascii_lowercase (trim s) in
    Ok (if bool_decide (s = []) then key else Some s, r)
  else skipped key wire r.

Definition parse_attribute_key (data : bytes) : result DatError (option bytes) := fields attribute_step None data.

Record ParsedDomainEntry := mkEntry { dom_type : Z; value : bytes; attrs : list bytes }.

(** The type once it is seen, the value, the attributes. *)
Definition domain_state : Type := option Z * option bytes * list bytes.

Definition domain_step (s : domain_state) (field wire : Z) (r : PbReader) : result DatError (domain_state * PbReader) :=
  let '(ty, val, ats) := s in
  if ((field =? FIELD_DOMAIN_TYPE) && (wire =? WIRE_VARINT))%Z then
    '(t, r) ← read_varint r; Ok ((Some t, val, ats), r)
  else if ((field =? FIELD_DOMAIN_VALUE) && (wire =? WIRE_LEN_DELIM))%Z then
    '(b, r) ← read_length_delimited r;
    v ← pb_str b r;
    Ok ((ty, Some (to_ascii_lowercase v), ats), r)
  else if ((field =? FIELD_DOMAIN_ATTRIBUTE) && (wire =? WIRE_LEN_DELIM))%Z then
    '(b, r) ← read_length_delimited r;
    key ← parse_attribute_key b;
    Ok ((ty, val, ats ++ option_list key), r)
  else skipped s wire r.

Definition parse_domain_entry (data : bytes) : result DatError (option ParsedDomainEntry) :=
  '(ty, val, ats) ← fields domain_step (None, None, []) data;
  Ok (match val with
      | None | Some [] => None
      | Some v => Some (mkEntry (default DOMAIN_TYPE_PLAIN ty) v ats)
      end).

(** ** The fuel is enough *)

Abbreviation left r := (length (pb_rest r)).

Lemma varint_loop_left start acc shift s pos v r :
  varint_loop start acc shift s pos = Ok (v, r) -> left r < length s.
Proof.
  revert acc shift pos. induction s as [|c s IH]; intros acc shift pos H; [done|]. cbn [varint_loop] in H.
  case_match; [done|]. case_match; [injection H as <- <-; simpl; lia|]. apply IH in H. simpl. lia.
Qed.

Lemma read_varint_left r v r' : read_varint r = Ok (v, r') -> left r' < left r.
Proof. apply varint_loop_left. Qed.

Lemma read_tag_left r f w r' : read_tag r = Ok (f, w, r') -> left r' < left r.
Proof. unfold read_tag. intros ([t r1] & H & [= <- <- <-])%bind_Ok. by apply read_varint_left in H. Qed.

Lemma read_len_left r b r' : read_length_delimited r = Ok (b, r') -> left r' < left r.
Proof.
  unfold read_length_delimited. intros ([n r1] & H%read_varint_left & E)%bind_Ok. case_match; [done|].
  injection E as <- <-. cbn. rewrite length_drop. lia.
Qed.

Lemma skip_field_left w r r' : skip_field w r = Ok r' -> left r' <= left r.
Proof.
  unfold skip_field. intros H. repeat case_match.
  - apply bind_Ok in H as ([v r1] & H%read_varint_left & [= <-]). lia.
  - apply bind_Ok in H as ([v r1] & H%read_len_left & [= <-]). lia.
  - done.
  - injection H as <-. cbn [pb_rest advance]. rewrite length_drop. lia.
  - done.
  - injection H as <-. cbn [pb_rest advance]. rewrite length_drop. lia.
  - done.
Qed.

(** A step that does not give bytes back. *)
Definition consumes {S} (step : S -> Z -> Z -> PbReader -> result DatError (S * PbReader)) : Prop :=
  forall s f w r s' r', step s f w r = Ok (s', r') -> left r' <= left r.

Lemma fields_fuel {S} (step : S -> Z -> Z -> PbReader -> result DatError (S * PbReader)) k fuel s r :
  consumes step -> left r <= fuel -> fields_loop step (fuel + k) s r = fields_loop step fuel s r.
Proof.
  intros Hstep. revert s r. induction fuel as [|fuel IH]; intros s r Hf.
  { destruct r as [[|c b] pos]; [by destruct k|simpl in Hf; lia]. }
  cbn [Nat.add fields_loop]. case_match; [done|].
  destruct (read_tag r) as [[[f w] r1]|] eqn:E1; [|done]. cbn [mbind result_bind]. apply read_tag_left in E1.
  destruct (step s f w r1) as [[s' r2]|] eqn:E2; [|done]. cbn [mbind result_bind]. apply Hstep in E2. apply IH. lia.
Qed.

Lemma skipped_left {S} (s s' : S) w r r' : skipped s w r = Ok (s', r') -> left r' <= left r.
Proof. unfold skipped. by intros (r1 & H%skip_field_left & [= <- <-])%bind_Ok. Qed.

Lemma attribute_step_consumes : consumes attribute_step.
Proof.
  intros s f w r s' r' H. unfold attribute_step in H. case_match; [|by eapply skipped_left].
  apply bind_Ok in H as ([b r1] & H%read_len_left & (v & _ & [= <- <-])%bind_Ok). lia.
Qed.

Lemma domain_step_consumes : consumes domain_step.
Proof.
  intros [[ty v] ats] f w r s' r' H. unfold domain_step in H. repeat case_match; [..|by eapply skipped_left].
  - apply bind_Ok in H as ([t r1] & H%read_varint_left & [= <- <-]). lia.
  - apply bind_Ok in H as ([b r1] & H%read_len_left & (x & _ & [= <- <-])%bind_Ok). lia.
  - apply bind_Ok in H as ([b r1] & H%read_len_left & (x & _ & [= <- <-])%bind_Ok). lia.
Qed.

(** ** Writing protobuf *)

(** The encoding of the format, least significant group first. Ten groups
    hold a 64-bit value. *)
Fixpoint varint_groups (fuel : nat) (n : Z) : bytes :=
  match fuel with
  | 0 => []
  | S fuel =>
      if (n <? 128)%Z then [z_byte n] else z_byte (n `mod` 128 + 128) :: varint_groups fuel (n / 128)
  end.
Definition enc_varint (n : Z) : bytes := varint_groups 10 n.

Definition enc_len (field : Z) (payload : bytes) : bytes :=
  enc_varint (field * 8 + WIRE_LEN_DELIM) ++ enc_varint (Z.of_nat (length payload)) ++ payload.
Definition enc_int (field v : Z) : bytes := enc_varint (field * 8 + WIRE_VARINT) ++ enc_varint v.

Definition enc_attribute (key : bytes) : bytes := enc_len FIELD_ATTRIBUTE_KEY key.

(** A type of zero is the default, which is not written. *)
Definition enc_type (t : Z) : bytes := if (t =? DOMAIN_TYPE_PLAIN)%Z then [] else enc_int FIELD_DOMAIN_TYPE t.
Definition enc_domain (d : ParsedDomainEntry) : bytes :=
  enc_type (dom_type d) ++ enc_len FIELD_DOMAIN_VALUE (value d) ++
  mjoin (map (fun a => enc_len FIELD_DOMAIN_ATTRIBUTE (enc_attribute a)) (attrs d)).
Definition enc_site (s : bytes * list ParsedDomainEntry) : bytes :=
  enc_len FIELD_GEOSITE_COUNTRY_CODE s.1 ++
  mjoin (map (fun d => enc_len FIELD_GEOSITE_DOMAIN (enc_domain d)) s.2).
Definition enc_sites (l : list (bytes * list ParsedDomainEntry)) : bytes :=
  mjoin (map (fun s => enc_len FIELD_GEOSITELIST_ENTRY (enc_site s)) l).

(** One group under the loop. *)
Lemma varint_group start acc shift c s pos :
  (0 <= shift < 64)%Z -> (0 <= acc < 2 ^ shift)%Z -> (byte_z c `mod` 128 < 2 ^ (64 - shift))%Z ->
  varint_loop start acc shift (c :: s) pos =
  if (byte_z c <? 128)%Z then Ok ((acc + byte_z c `mod` 128 * 2 ^ shift)%Z, mkPb s (pos + 1))
  else varint_loop start (acc + byte_z c `mod` 128 * 2 ^ shift) (shift + 7) s (pos + 1).
Proof.
  intros Hs Ha Hb. cbn [varint_loop]. rewrite (proj2 (Z.leb_gt 64 shift)) by lia.
  pose proof (byte_z_bound c) as Hc. pose proof (Z.mod_pos_bound (byte_z c) 128 ltac:(lia)) as Hm.
  change 127%Z with (Z.ones 7). rewrite Z.land_ones by lia. change (2 ^ 7)%Z with 128%Z.
  assert (Hw : wrap64 (Z.shiftl (byte_z c `mod` 128) shift) = (byte_z c `mod` 128 * 2 ^ shift)%Z).
  { unfold wrap64. rewrite Z.shiftl_mul_pow2 by lia. apply Z.mod_small.
    split; [apply Z.mul_nonneg_nonneg; lia|].
    replace (2 ^ 64)%Z with (2 ^ (64 - shift) * 2 ^ shift)%Z by (rewrite <- Z.pow_add_r by lia; f_equal; lia).
    apply Z.mul_lt_mono_pos_r; [|done]. apply Z.pow_pos_nonneg; lia. }
  by rewrite Hw, lor_high, byte_high_bit by lia.
Qed.

Lemma varint_groups_ok fuel start acc shift n rest pos :
  (0 <= shift < 64)%Z -> (0 <= acc < 2 ^ shift)%Z -> (0 <= n < 2 ^ (64 - shift))%Z ->
  (n < 2 ^ (7 * Z.of_nat fuel))%Z -> 0 < fuel ->
  varint_loop start acc shift (varint_groups fuel n ++ rest) pos =
  Ok ((acc + n * 2 ^ shift)%Z, mkPb rest (pos + Z.of_nat (length (varint_groups fuel n)))).
Proof.
  revert acc shift n pos. induction fuel as [|fuel IH]; intros acc shift n pos Hs Ha Hn Hf Hpos; [lia|].
  cbn [varint_groups]. destruct (Z.ltb_spec n 128) as [Hlt|Hge]; cbn [app].
  - rewrite varint_group; [|done|done|]; rewrite byte_z_byte, !(Z.mod_small n) by lia; [|lia].
    by rewrite (proj2 (Z.ltb_lt n 128)).
  - assert (Hb : byte_z (z_byte (n `mod` 128 + 128)) = (n `mod` 128 + 128)%Z).
    { rewrite byte_z_byte. apply Z.mod_small. pose proof (Z.mod_pos_bound n 128 ltac:(lia)). lia. }
    pose proof (Z.mod_pos_bound n 128 ltac:(lia)) as Hm.
    assert (Hshift : (shift + 7 < 64)%Z).
    { destruct (Z.lt_ge_cases (shift + 7) 64) as [|H]; [done|]. exfalso.
      assert (2 ^ (64 - shift) <= 2 ^ 7)%Z by (apply Z.pow_le_mono_r; lia). lia. }
    assert (Hmm : ((n `mod` 128 + 128) `mod` 128 = n `mod` 128)%Z).
    { rewrite <- Z.add_mod_idemp_r, Z.mod_same, Z.add_0_r, Z.mod_mod by lia. done. }
    assert (Hp7 : (2 ^ (64 - shift) = 2 ^ (64 - (shift + 7)) * 128)%Z).
    { replace 128%Z with (2 ^ 7)%Z by done. rewrite <- Z.pow_add_r by lia. f_equal. lia. }
    rewrite varint_group; [|done|done|rewrite Hb, Hmm; lia].
    rewrite Hb, Hmm, (proj2 (Z.ltb_ge _ 128)) by lia.
    assert (Hps : (2 ^ (shift + 7) = 128 * 2 ^ shift)%Z) by (rewrite Z.pow_add_r by lia; lia).
    rewrite IH.
    + f_equal. f_equal; [|f_equal; cbn [length]; lia]. rewrite Hps. pose proof (Z.div_mod n 128 ltac:(lia)). nia.
    + lia.
    + rewrite Hps. nia.
    + split; [apply Z.div_pos; lia|]. apply Z.div_lt_upper_bound; lia.
    + apply Z.div_lt_upper_bound; [lia|]. replace 128%Z with (2 ^ 7)%Z by done.
      rewrite <- Z.pow_add_r by lia. eapply Z.lt_le_trans; [exact Hf|]. apply Z.pow_le_mono_r; lia.
    + destruct fuel; [|lia]. change (2 ^ (7 * Z.of_nat 1))%Z with 128%Z in Hf. lia.
Qed.

Lemma read_varint_enc n rest pos :
  (0 <= n < 2 ^ 64)%Z ->
  read_varint (mkPb (enc_varint n ++ rest) pos) = Ok (n, mkPb rest (pos + Z.of_nat (length (enc_varint n)))).
Proof.
  intros Hn. unfold read_varint, enc_varint. cbn [pb_rest pb_pos].
  rewrite varint_groups_ok; [by rewrite Z.mul_1_r| | | | |]; try lia.
Qed.

(** A length-delimited field of 64-bit length, behind its tag. *)
Definition len_ok (b : bytes) : Prop := (Z.of_nat (length b) < 2 ^ 64)%Z.

Lemma read_tag_enc field wire rest pos :
  (0 <= field < 2 ^ 32)%Z -> (0 <= wire < 8)%Z ->
  read_tag (mkPb (enc_varint (field * 8 + wire) ++ rest) pos) =
  Ok (field, wire, mkPb rest (pos + Z.of_nat (length (enc_varint (field * 8 + wire))))).
Proof.
  intros Hf Hw. unfold read_tag. rewrite read_varint_enc by lia. cbn [mbind result_bind].
  assert (E1 : Z.shiftr (field * 8 + wire) 3 = field).
  { rewrite Z.shiftr_div_pow2 by lia. change (2 ^ 3)%Z with 8%Z. rewrite Z.div_add_l, Z.div_small by lia. lia. }
  assert (E2 : Z.land (field * 8 + wire) 7 = wire).
  { change 7%Z with (Z.ones 3). rewrite Z.land_ones by lia. change (2 ^ 3)%Z with 8%Z.
    rewrite Z.add_comm, Z.mod_add, Z.mod_small by lia. done. }
  by rewrite E1, E2, Z.mod_small.
Qed.

Lemma read_len_enc payload rest pos :
  len_ok payload ->
  exists pos', read_length_delimited (mkPb (enc_varint (Z.of_nat (length payload)) ++ payload ++ rest) pos) =
    Ok (payload, mkPb rest pos').
Proof.
  intros Hl. unfold read_length_delimited. rewrite read_varint_enc by (unfold len_ok in Hl; lia).
  cbn [mbind result_bind]. unfold remaining. cbn [pb_rest].
  rewrite (proj2 (Z.ltb_ge _ _)) by (rewrite length_app; lia).
  rewrite Nat2Z.id, take_app_length. unfold advance. cbn [pb_rest pb_pos].
  rewrite drop_app_length. by eexists.
Qed.

(** A field takes the state from [s] to [s'], whatever follows it. *)
Definition field_steps {S} (step : S -> Z -> Z -> PbReader -> result DatError (S * PbReader))
    (s : S) (b : bytes) (s' : S) : Prop :=
  b <> [] /\ forall rest pos, exists field wire r pos',
    read_tag (mkPb (b ++ rest) pos) = Ok (field, wire, r) /\ step s field wire r = Ok (s', mkPb rest pos').

Inductive message {S} (step : S -> Z -> Z -> PbReader -> result DatError (S * PbReader)) :
    S -> list bytes -> S -> Prop :=
  | message_nil s : message step s [] s
  | message_cons s b s' bs s'' : field_steps step s b s' -> message step s' bs s'' -> message step s (b :: bs) s''.

Lemma message_loop {S} (step : S -> Z -> Z -> PbReader -> result DatError (S * PbReader)) s bs s' fuel pos :
  message step s bs s' -> length bs <= fuel -> fields_loop step fuel s (mkPb (mjoin bs) pos) = Ok s'.
Proof.
  intros H. revert fuel pos. induction H as [s|s b s' bs s'' [Hne Hb] _ IH]; intros fuel pos Hf.
  { by destruct fuel. }
  destruct fuel as [|fuel]; [simpl in Hf; lia|].
  change (mjoin (b :: bs)) with (b ++ mjoin bs). destruct (Hb (mjoin bs) pos) as (f & w & r & pos' & E1 & E2).
  cbn [fields_loop]. replace (is_at_end (mkPb (b ++ mjoin bs) pos)) with false by (by destruct b).
  rewrite E1. cbn [mbind result_bind]. rewrite E2. cbn [mbind result_bind]. apply IH. simpl in Hf. lia.
Qed.

Lemma message_fields {S} (step : S -> Z -> Z -> PbReader -> result DatError (S * PbReader)) s bs s' data :
  data = mjoin bs -> message step s bs s' -> fields step s data = Ok s'.
Proof.
  intros -> H. apply (message_loop _ _ _ _ _ _ H). clear -H.
  induction H as [s|s b s' bs s'' [Hne _] _ IH]; [done|].
  change (mjoin (b :: bs)) with (b ++ mjoin bs). rewrite length_app. destruct b; [done|]. simpl in *. lia.
Qed.

Lemma varint_nonempty n : enc_varint n <> [].
Proof. unfold enc_varint. cbn [varint_groups]. by case_match. Qed.

Lemma enc_len_steps {S} (step : S -> Z -> Z -> PbReader -> result DatError (S * PbReader)) s s' field payload :
  (0 <= field < 2 ^ 32)%Z -> len_ok payload ->
  (forall r rest pos, read_length_delimited r = Ok (payload, mkPb rest pos) ->
    step s field WIRE_LEN_DELIM r = Ok (s', mkPb rest pos)) ->
  field_steps step s (enc_len field payload) s'.
Proof.
  intros Hf Hl Hstep. unfold enc_len. split.
  { intros [E _]%app_nil. by apply varint_nonempty in E. }
  intros rest pos. rewrite <- !app_assoc.
  set (r := mkPb (enc_varint (Z.of_nat (length payload)) ++ payload ++ rest)
    (pos + Z.of_nat (length (enc_varint (field * 8 + WIRE_LEN_DELIM))))).
  destruct (read_len_enc payload rest (pb_pos r) Hl) as [pos' E].
  exists field, WIRE_LEN_DELIM, r, pos'. split; [by rewrite read_tag_enc|]. by apply Hstep.
Qed.

Lemma len_ok_app a b : len_ok (a ++ b) <-> len_ok a /\ len_ok b /\ len_ok (a ++ b).
Proof. unfold len_ok. rewrite length_app. lia. Qed.

Lemma len_ok_field field b : len_ok (enc_len field b) -> len_ok b.
Proof. unfold enc_len. by intros (_ & (_ & ? & _)%len_ok_app & _)%len_ok_app. Qed.

Lemma len_ok_join {A} (f : A -> bytes) l x : len_ok (mjoin (map f l)) -> x ∈ l -> len_ok (f x).
Proof.
  induction l as [|y l IH]; intros Hl Hx; [by apply not_elem_of_nil in Hx|].
  apply len_ok_app in Hl as (Hy & Hl & _). apply elem_of_cons in Hx as [->|Hx]; [done|by apply IH].
Qed.

(** The strings of a message are UTF-8. *)
Definition text_ok (s : bytes) : Prop := from_utf8_ok s = true.
Definition domain_ok (d : ParsedDomainEntry) : Prop :=
  (0 <= dom_type d < 2 ^ 64)%Z /\ text_ok (value d) /\ Forall text_ok (attrs d).
Definition site_ok (s : bytes * list ParsedDomainEntry) : Prop := text_ok s.1 /\ Forall domain_ok s.2.

(** What the file means to the reader: names, values and attributes in lower
    case, whatever the type of the value; blank attributes and entries without
    a value are left out. *)
Definition normal_attr (a : bytes) : option bytes :=
  let a := to_ascii_lowercase (trim a) in if bool_decide (a = []) then None else Some a.
Definition normal_domain (d : ParsedDomainEntry) : option ParsedDomainEntry :=
  if bool_decide (value d = []) then None
  else Some (mkEntry (dom_type d) (to_ascii_lowercase (value d)) (omap normal_attr (attrs d))).
Definition normal_site (s : bytes * list ParsedDomainEntry) : bytes * list ParsedDomainEntry :=
  (to_ascii_lowercase s.1, omap normal_domain s.2).

Lemma parse_attribute_enc a : text_ok a -> len_ok a -> parse_attribute_key (enc_attribute a) = Ok (normal_attr a).
Proof.
  intros Hu Hl. apply (message_fields _ _ [enc_attribute a]).
  { unfold mjoin, list_join. by rewrite app_nil_r. }
  eapply message_cons; [|constructor]. apply enc_len_steps; [done|done|].
  intros r rest pos E. unfold attribute_step. cbn [Z.eqb andb FIELD_ATTRIBUTE_KEY WIRE_LEN_DELIM Pos.eqb].
  rewrite E. cbn [mbind result_bind]. unfold pb_str. by rewrite Hu.
Qed.

Lemma attrs_message t v ats l :
  Forall text_ok l -> len_ok (mjoin (map (fun a => enc_len FIELD_DOMAIN_ATTRIBUTE (enc_attribute a)) l)) ->
  message domain_step (t, v, ats) (map (fun a => enc_len FIELD_DOMAIN_ATTRIBUTE (enc_attribute a)) l)
    (t, v, ats ++ omap normal_attr l).
Proof.
  intros H. revert ats. induction H as [|a l Ha _ IH]; intros ats Hl; cbn [map].
  { rewrite app_nil_r. constructor. }
  apply len_ok_app in Hl as (Hla & Hl & _). pose proof (len_ok_field _ _ Hla) as Hattr.
  replace (ats ++ omap normal_attr (a :: l)) with ((ats ++ option_list (normal_attr a)) ++ omap normal_attr l)
    by (rewrite <- app_assoc; cbn; by destruct (normal_attr a)).
  eapply message_cons; [|by apply IH].
  apply enc_len_steps; [done|done|]. intros r rest pos E. unfold domain_step.
  cbn [Z.eqb andb Pos.eqb FIELD_DOMAIN_TYPE FIELD_DOMAIN_VALUE FIELD_DOMAIN_ATTRIBUTE WIRE_LEN_DELIM].
  rewrite E. cbn [mbind result_bind]. rewrite parse_attribute_enc by (try done; by apply len_ok_field in Hattr).
  done.
Qed.

(** The type field, where it is written. *)
Lemma type_message ty v ats :
  (0 <= ty < 2 ^ 64)%Z ->
  exists bs t, message domain_step (None, v, ats) bs (t, v, ats) /\ mjoin bs = enc_type ty /\
    default DOMAIN_TYPE_PLAIN t = ty.
Proof.
  intros Hty. unfold enc_type. destruct (Z.eqb_spec ty DOMAIN_TYPE_PLAIN) as [->|_]; [by exists [], None; split; [constructor|]|].
  exists [enc_int FIELD_DOMAIN_TYPE ty], (Some ty). split_and!; [|unfold mjoin, list_join; by rewrite app_nil_r|done].
  eapply message_cons; [|constructor]. split. { unfold enc_int. intros [E _]%app_nil. by apply varint_nonempty in E. }
  intros rest pos. unfold enc_int. rewrite <- app_assoc. eexists _, _, _, _. split; [by apply read_tag_enc|].
  unfold domain_step. cbn [Z.eqb andb FIELD_DOMAIN_TYPE WIRE_VARINT Pos.eqb].
  rewrite read_varint_enc by done. done.
Qed.

Lemma message_app {S} (step : S -> Z -> Z -> PbReader -> result DatError (S * PbReader)) s bs s' bs' s'' :
  message step s bs s' -> message step s' bs' s'' -> message step s (bs ++ bs') s''.
Proof. induction 1; [done|]. intros ?. econstructor; eauto. Qed.

Lemma parse_domain_enc d :
  domain_ok d -> len_ok (enc_domain d) -> parse_domain_entry (enc_domain d) = Ok (normal_domain d).
Proof.
  destruct d as [ty v ats]. intros (Hty & Hu & Hat) Hl. cbn [dom_type value attrs] in *.
  unfold enc_domain in *. cbn [dom_type value attrs] in *.
  apply len_ok_app in Hl as (_ & (Hlv & Hla & _)%len_ok_app & _).
  destruct (type_message ty None [] Hty) as (bs & t & Hbs & Hj & Ht).
  unfold parse_domain_entry. rewrite (message_fields domain_step _ (bs ++
    enc_len FIELD_DOMAIN_VALUE v :: map (fun a => enc_len FIELD_DOMAIN_ATTRIBUTE (enc_attribute a)) ats)
    (t, Some (to_ascii_lowercase v), omap normal_attr ats)).
  - unfold normal_domain. cbn [mbind result_bind dom_type value attrs]. rewrite Ht. by destruct v.
  - by rewrite list.join_app, Hj.
  - eapply message_app; [exact Hbs|]. eapply message_cons; [|by apply (attrs_message _ _ [])].
    apply enc_len_steps; [done|by apply len_ok_field in Hlv|]. intros r rest pos E. unfold domain_step.
    cbn [Z.eqb andb Pos.eqb FIELD_DOMAIN_TYPE FIELD_DOMAIN_VALUE WIRE_LEN_DELIM].
    rewrite E. cbn [mbind result_bind]. unfold pb_str. by rewrite Hu.
Qed.

Section GeositeLoad.
Context `{HO : HashOrder, UL : UnicodeLower, RO : RegexOps, KO : Geosite.KeyOrder, ZL : ZstdLib}.
#[local] Existing Instance DomainTrie.sized_unit.

(** ** Categories *)

(** The maps under construction. *)
Record Parts := mkParts {
  p_categories : gmap bytes (DomainTrie unit);
  p_counts : gmap bytes nat;
  p_regexes : gmap bytes (list bytes);
  p_keywords : gmap bytes (list bytes);
}.

Definition insert_domain_entry (entry : ParsedDomainEntry) (trie : DomainTrie unit) (regexes keywords : list bytes) :
    option (bool * DomainTrie unit * list bytes * list bytes) :=
  let v := value entry in
  if (dom_type entry =? DOMAIN_TYPE_PLAIN)%Z then Some (true, trie, regexes, keywords ++ [v])
  else if (dom_type entry =? DOMAIN_TYPE_REGEX)%Z then
    Some (match regex_new v with
          | Some _ => (true, trie, regexes ++ [v], keywords)
          | None => (false, trie, regexes, keywords)
          end)
  else if (dom_type entry =? DOMAIN_TYPE_DOMAIN)%Z then
    '(ok, trie) ← insert trie (b! "+." ++ v) tt; Some (ok, trie, regexes, keywords)
  else if (dom_type entry =? DOMAIN_TYPE_FULL)%Z then
    '(ok, trie) ← insert trie v tt; Some (ok, trie, regexes, keywords)
  else Some (false, trie, regexes, keywords).

(** One bucket gets the entry: [entry(key).or_default()] of the three maps,
    and the count if it was inserted. *)
Definition bucket_insert (entry : ParsedDomainEntry) (p : Parts) (key : bytes) : option Parts :=
  '(ok, trie, regexes, kws) ← insert_domain_entry entry
    (default new (p_categories p !! key)) (default [] (p_regexes p !! key)) (default [] (p_keywords p !! key));
  Some (mkParts (<[key := trie]> (p_categories p))
    (if ok : bool then <[key := default 0 (p_counts p !! key) + 1]> (p_counts p) else p_counts p)
    (<[key := regexes]> (p_regexes p)) (<[key := kws]> (p_keywords p))).

Definition at_sign : bytes := b! "@".

Definition entry_keys (country : bytes) (entry : ParsedDomainEntry) : list bytes :=
  country :: map (fun a => country ++ at_sign ++ a) (attrs entry).

Definition is_allowed (allowed : option (list bytes)) (name : bytes) : bool :=
  match allowed with None => true | Some set => bool_decide (name ∈ set) end.

(** The name, whether domains are still collected, the collected domains. *)
Definition entry_state : Type := option bytes * bool * list bytes.

Definition entry_step (allowed : option (list bytes)) (s : entry_state) (field wire : Z) (r : PbReader) :
    result DatError (entry_state * PbReader) :=
  let '(country, collect, deferred) := s in
  if ((field =? FIELD_GEOSITE_COUNTRY_CODE) && (wire =? WIRE_LEN_DELIM))%Z then
    '(b, r) ← read_length_delimited r;
    name ← pb_str b r;
    let name := to_ascii_lowercase name in
    Ok ((Some name, collect && is_allowed allowed name, deferred), r)
  else if ((field =? FIELD_GEOSITE_DOMAIN) && (wire =? WIRE_LEN_DELIM))%Z then
    '(b, r) ← read_length_delimited r;
    Ok ((country, collect, if collect : bool then deferred ++ [b] else deferred), r)
  else skipped s wire r.

Fixpoint apply_domains (country : bytes) (p : Parts) (deferred : list bytes) : option (result DatError Parts) :=
  match deferred with
  | [] => Some (Ok p)
  | b :: deferred =>
      match parse_domain_entry b with
      | Err e => Some (Err e)
      | Ok None => apply_domains country p deferred
      | Ok (Some entry) =>
          p ← foldlM (bucket_insert entry) p (entry_keys country entry);
          apply_domains country p deferred
      end
  end.

Definition parse_geosite_entry (allowed : option (list bytes)) (p : Parts) (data : bytes) :
    option (result DatError Parts) :=
  match fields (entry_step allowed) (None, true, []) data with
  | Err e => Some (Err e)
  | Ok (None, _, _) => Some (Ok p)
  | Ok (Some country, _, deferred) =>
      if is_allowed allowed country then apply_domains country p deferred else Some (Ok p)
  end.

Lemma entry_step_consumes allowed : consumes (entry_step allowed).
Proof.
  intros [[c col] def] f w r s' r' H. unfold entry_step in H. case_match; [|case_match; [|by eapply skipped_left]].
  - apply bind_Ok in H as ([b r1] & H%read_len_left & (x & _ & [= <- <-])%bind_Ok). lia.
  - apply bind_Ok in H as ([b r1] & H%read_len_left & [= <- <-]). lia.
Qed.

(** The loop over the list's entries; see [fields_loop] for the fuel. *)
Fixpoint dat_loop (allowed : option (list bytes)) (fuel : nat) (p : Parts) (r : PbReader) :
    option (result DatError Parts) :=
  if is_at_end r then Some (Ok p)
  else match fuel with
  | 0 => Some (Ok p)
  | Datatypes.S fuel =>
      match read_tag r with
      | Err e => Some (Err e)
      | Ok (field, wire, r) =>
          if ((field =? FIELD_GEOSITELIST_ENTRY) && (wire =? WIRE_LEN_DELIM))%Z then
            match read_length_delimited r with
            | Err e => Some (Err e)
            | Ok (entry_bytes, r) =>
                match parse_geosite_entry allowed p entry_bytes with
                | None => None
                | Some (Err e) => Some (Err e)
                | Some (Ok p) => dat_loop allowed fuel p r
                end
            end
          else match skip_field wire r with
          | Err e => Some (Err e)
          | Ok r => dat_loop allowed fuel p r
          end
      end
  end.

Definition from_dat_bytes (data : bytes) (allowed : option (list bytes)) : option (result DatError GeositeDB) :=
  match dat_loop allowed (length data) (mkParts ∅ ∅ ∅ ∅) (pb_new data) with
  | None => None
  | Some (Err e) => Some (Err e)
  | Some (Ok p) => Ok <$> from_parts (p_categories p) (p_counts p) (p_regexes p) (p_keywords p)
  end.

Lemma dat_fuel allowed k fuel p r :
  left r <= fuel -> dat_loop allowed (fuel + k) p r = dat_loop allowed fuel p r.
Proof.
  revert p r. induction fuel as [|fuel IH]; intros p r Hf.
  { destruct r as [[|c b] pos]; [by destruct k|simpl in Hf; lia]. }
  cbn [Nat.add dat_loop]. case_match; [done|].
  destruct (read_tag r) as [[[f w] r1]|] eqn:E1; [|done]. apply read_tag_left in E1. case_match.
  - destruct (read_length_delimited r1) as [[b r2]|] eqn:E2; [|done]. apply read_len_left in E2.
    destruct (parse_geosite_entry allowed p b) as [[p'|]|]; [|done..]. apply IH. lia.
  - destruct (skip_field w r1) as [r2|] eqn:E2; [|done]. apply skip_field_left in E2. apply IH. lia.
Qed.

(** ** MRS files *)

(** The loader's state over the streamed items: the open category with its
    trie and count, and the finished ones. *)
Record Load := mkLoad {
  current : option (bytes * DomainTrie unit * nat);
  l_categories : gmap bytes (DomainTrie unit);
  l_counts : gmap bytes nat;
}.

Definition finish (l : Load) : option Load :=
  match current l with
  | None => Some l
  | Some (name, trie, inserted) =>
      trie ← seal trie;
      Some (mkLoad None (<[name := trie]> (l_categories l)) (<[name := inserted]> (l_counts l)))
  end.

Definition load_item (allowed : option (list bytes)) (l : Load) (item : GeositeItem) : option (Load * bool) :=
  match item with
  | Category name _ =>
      l ← finish l;
      Some (if is_allowed allowed name
            then (mkLoad (Some (name, new, 0)) (l_categories l) (l_counts l), true) else (l, false))
  | Domain domain =>
      match current l with
      | None => Some (l, true)
      | Some (name, trie, inserted) =>
          '(ok, trie) ← insert trie domain tt;
          Some (mkLoad (Some (name, trie, if (ok : bool) then inserted + 1 else inserted))
            (l_categories l) (l_counts l), true)
      end
  end.

Inductive GeositeError :=
  | UnrecognisedFormat
  | MrsFailed (e : MrsError)
  | UnexpectedType (t : Z).

Definition from_mrs (rest : bytes) (allowed : option (list bytes)) : option (result GeositeError GeositeDB) :=
  match decoder_new rest with
  | Err e => Some (Err (MrsFailed (Zstd (OtherError e))))
  | Ok decoder =>
      match stream_geosite_payload (load_item allowed) decoder (mkLoad None ∅ ∅) with
      | None => None
      | Some (Err e) => Some (Err (MrsFailed e))
      | Some (Ok l) => l ← finish l; Some (Ok (mkDB (l_categories l) (l_counts l) ∅ ∅))
      end
  end.

Definition from_bytes (data : bytes) (allowed : option (list bytes)) : option (result GeositeError GeositeDB) :=
  match parse_header data with
  | Ok (header, rest) =>
      if negb (type_tag header =? TYPE_DOMAIN)%Z then Some (Err (UnexpectedType (type_tag header)))
      else from_mrs rest allowed
  | Err (WrongFormat _) =>
      match from_dat_bytes data allowed with
      | None => None
      | Some (Err _) => Some (Err UnrecognisedFormat)
      | Some (Ok db) => Some (Ok db)
      end
  | Err e => Some (Err (MrsFailed e))
  end.

(** ** What a protobuf file loads *)

(** The buckets a file's entries go to, in order. *)
Definition site_inserts (allowed : option (list bytes)) (s : bytes * list ParsedDomainEntry) :
    list (bytes * ParsedDomainEntry) :=
  if is_allowed allowed s.1 then mjoin (map (fun e => map (fun k => (k, e)) (entry_keys s.1 e)) s.2) else [].

Definition inserts (allowed : option (list bytes)) (l : list (bytes * list ParsedDomainEntry)) :
    list (bytes * ParsedDomainEntry) := mjoin (map (site_inserts allowed) l).

Definition insert_pair (p : Parts) (ke : bytes * ParsedDomainEntry) : option Parts := bucket_insert ke.2 p ke.1.

Lemma foldlM_keys e p keys :
  foldlM (bucket_insert e) p keys = foldlM insert_pair p (map (fun k => (k, e)) keys).
Proof.
  revert p. induction keys as [|k keys IH]; intros p; [done|]. cbn [foldlM map].
  change (insert_pair p (k, e)) with (bucket_insert e p k). destruct (bucket_insert e p k); [apply IH|done].
Qed.

Lemma apply_domains_enc country p l :
  Forall domain_ok l -> (forall d, d ∈ l -> len_ok (enc_domain d)) ->
  apply_domains country p (map enc_domain l) =
  Ok <$> foldlM insert_pair p (mjoin (map (fun e => map (fun k => (k, e)) (entry_keys country e)) (omap normal_domain l))).
Proof.
  intros H. revert p. induction H as [|d l Hd _ IH]; intros p Hl; [done|]. cbn [map apply_domains].
  assert (Hl' : forall d', d' ∈ l -> len_ok (enc_domain d')) by (intros d' Hd'; apply Hl; by right).
  rewrite parse_domain_enc by (try done; apply Hl; left). cbn [omap list_omap].
  destruct (normal_domain d) as [e|]; [|by apply IH]. cbn [map mjoin list_join]. rewrite foldlM_app, foldlM_keys.
  destruct (foldlM insert_pair p _) as [p'|]; [|done]. cbn [mbind option_bind].
  apply IH. intros d' Hd'. apply Hl. by right.
Qed.

Lemma domains_message allowed country collect deferred l :
  len_ok (mjoin (map (fun d => enc_len FIELD_GEOSITE_DOMAIN (enc_domain d)) l)) ->
  message (entry_step allowed) (country, collect, deferred)
    (map (fun d => enc_len FIELD_GEOSITE_DOMAIN (enc_domain d)) l)
    (country, collect, if collect then deferred ++ map enc_domain l else deferred).
Proof.
  revert deferred. induction l as [|d l IH]; intros deferred Hl; cbn [map].
  { rewrite app_nil_r. destruct collect; constructor. }
  apply len_ok_app in Hl as (Hld & Hl & _).
  eapply (message_cons _ _ _ (country, collect, if collect then deferred ++ [enc_domain d] else deferred)).
  - apply enc_len_steps; [done|by apply len_ok_field in Hld|]. intros r rest pos E. unfold entry_step.
    cbn [Z.eqb andb Pos.eqb FIELD_GEOSITE_COUNTRY_CODE FIELD_GEOSITE_DOMAIN WIRE_LEN_DELIM].
    by rewrite E.
  - destruct collect; [|by apply IH].
    replace (deferred ++ enc_domain d :: map enc_domain l) with ((deferred ++ [enc_domain d]) ++ map enc_domain l)
      by (by rewrite <- app_assoc). by apply IH.
Qed.

Lemma parse_site_enc allowed p s :
  site_ok s -> len_ok (enc_site s) ->
  parse_geosite_entry allowed p (enc_site s) = Ok <$> foldlM insert_pair p (site_inserts allowed (normal_site s)).
Proof.
  destruct s as [name l]. intros [Hu Hl] Hlen. cbn [fst snd] in *. set (low := to_ascii_lowercase name).
  unfold enc_site in Hlen. cbn [fst snd] in Hlen. apply len_ok_app in Hlen as (Hn & Hd & _).
  unfold parse_geosite_entry. rewrite (message_fields (entry_step allowed) _ (enc_len FIELD_GEOSITE_COUNTRY_CODE name ::
    map (fun d => enc_len FIELD_GEOSITE_DOMAIN (enc_domain d)) l)
    (Some low, is_allowed allowed low, if is_allowed allowed low then map enc_domain l else [])); [|done|].
  - unfold site_inserts, normal_site. cbn [fst snd]. fold low. destruct (is_allowed allowed low); [|done].
    apply apply_domains_enc; [done|]. intros d Hd'.
    apply (len_ok_field FIELD_GEOSITE_DOMAIN), (len_ok_join _ _ _ Hd Hd').
  - eapply (message_cons _ _ _ (Some low, is_allowed allowed low, [])).
    + apply enc_len_steps; [done|by apply len_ok_field in Hn|]. intros r rest pos E. unfold entry_step.
      cbn [Z.eqb andb Pos.eqb FIELD_GEOSITE_COUNTRY_CODE WIRE_LEN_DELIM].
      rewrite E. cbn [mbind result_bind]. unfold pb_str. by rewrite Hu.
    + pose proof (domains_message allowed (Some low) (is_allowed allowed low) [] l Hd) as H.
      by destruct (is_allowed allowed low).
Qed.

Lemma dat_loop_enc allowed l p fuel pos :
  Forall site_ok l -> len_ok (enc_sites l) -> length l <= fuel ->
  dat_loop allowed fuel p (mkPb (enc_sites l) pos) = Ok <$> foldlM insert_pair p (inserts allowed (map normal_site l)).
Proof.
  intros H. revert p fuel pos. induction H as [|s l Hs _ IH]; intros p fuel pos Hl Hf; [by destruct fuel|].
  destruct fuel as [|fuel]; [simpl in Hf; lia|].
  change (enc_sites (s :: l)) with (enc_len FIELD_GEOSITELIST_ENTRY (enc_site s) ++ enc_sites l) in *.
  apply len_ok_app in Hl as (Hls%len_ok_field & Hl & _).
  change (inserts allowed (map normal_site (s :: l))) with
    (site_inserts allowed (normal_site s) ++ inserts allowed (map normal_site l)). rewrite foldlM_app.
  cbn [dat_loop]. replace (is_at_end _) with false.
  2: { unfold enc_len. destruct (enc_varint (FIELD_GEOSITELIST_ENTRY * 8 + WIRE_LEN_DELIM)) eqn:E; [|done].
    by apply varint_nonempty in E. }
  unfold enc_len. rewrite <- !app_assoc, read_tag_enc by done.
  cbn [Z.eqb andb Pos.eqb FIELD_GEOSITELIST_ENTRY WIRE_LEN_DELIM].
  destruct (read_len_enc (enc_site s) (enc_sites l)
    (pos + Z.of_nat (length (enc_varint (1 * 8 + 2)))) Hls) as [pos' E].
  match goal with |- context [read_length_delimited ?r] => replace (read_length_delimited r)
    with (Ok (E := DatError) (enc_site s, mkPb (enc_sites l) pos')) by (symmetry; exact E) end.
  rewrite parse_site_enc by done. destruct (foldlM insert_pair p (site_inserts allowed (normal_site s))) as [p'|]; [|done].
  cbn [fmap option_fmap option_map mbind option_bind]. apply IH; [done|simpl in Hf; lia].
Qed.

(** What an entry adds to its bucket. *)
Definition pattern_of (e : ParsedDomainEntry) : option bytes :=
  if (dom_type e =? DOMAIN_TYPE_DOMAIN)%Z then Some (b! "+." ++ value e)
  else if (dom_type e =? DOMAIN_TYPE_FULL)%Z then Some (value e) else None.
Definition keyword_of (e : ParsedDomainEntry) : option bytes :=
  if (dom_type e =? DOMAIN_TYPE_PLAIN)%Z then Some (value e) else None.
Definition regex_of (e : ParsedDomainEntry) : option bytes :=
  if (dom_type e =? DOMAIN_TYPE_REGEX)%Z && bool_decide (is_Some (regex_new (value e))) then Some (value e) else None.

Definition collect (f : ParsedDomainEntry -> option bytes) (key : bytes) (l : list (bytes * ParsedDomainEntry)) :
    list bytes := omap (fun ke => if decide (ke.1 = key) then f ke.2 else None) l.

Lemma collect_snoc f key l k e :
  collect f key (l ++ [(k, e)]) = collect f key l ++ (if decide (k = key) then option_list (f e) else []).
Proof. unfold collect. rewrite omap_app. simpl. case_decide; [by destruct (f e)|done]. Qed.

Lemma elem_of_collect f key l x :
  x ∈ collect f key l <-> exists e, (key, e) ∈ l /\ f e = Some x.
Proof.
  unfold collect. rewrite list_elem_of_omap. split.
  - intros ([k e] & Hin & H). cbn in H. case_decide; [subst; by exists e|done].
  - intros (e & Hin & H). exists (key, e). cbn. by rewrite decide_True.
Qed.

(** The maps hold what the entries so far add. *)
Record parts_ok (seen : list (bytes * ParsedDomainEntry)) (p : Parts) : Prop := {
  po_trie key : TrieSpec.run_ops (TrieTheorems.build_ops (collect pattern_of key seen) tt) =
    Some (default new (p_categories p !! key));
  po_keywords key : default [] (p_keywords p !! key) = collect keyword_of key seen;
  po_regexes key : default [] (p_regexes p !! key) = collect regex_of key seen;
  po_none key : p_categories p !! key = None -> collect pattern_of key seen = [];
}.

(** One insert into a bucket, its trie given by its patterns. *)
Lemma insert_entry_spec e t t' regexes kws :
  foldlM TrieSpec.step t (TrieTheorems.build_ops (option_list (pattern_of e)) tt) = Some t' ->
  exists ok, insert_domain_entry e t regexes kws =
    Some (ok, t', regexes ++ option_list (regex_of e), kws ++ option_list (keyword_of e)).
Proof.
  unfold insert_domain_entry, pattern_of, regex_of, keyword_of.
  unfold DOMAIN_TYPE_PLAIN, DOMAIN_TYPE_REGEX, DOMAIN_TYPE_DOMAIN, DOMAIN_TYPE_FULL.
  destruct (Z.eqb_spec (dom_type e) 0) as [->|]; cbn.
  { intros [= ->]. rewrite app_nil_r. by eexists. }
  destruct (Z.eqb_spec (dom_type e) 1) as [->|]; cbn.
  { intros [= ->]. rewrite app_nil_r. destruct (regex_new (value e)); cbn; [by eexists|].
    rewrite app_nil_r. by eexists. }
  rewrite !app_nil_r. destruct (Z.eqb_spec (dom_type e) 2); cbn.
  { destruct (insert t _ tt) as [[ok t1]|]; cbn; [|done]. intros [= ->]. by eexists. }
  destruct (Z.eqb_spec (dom_type e) 3); cbn.
  { destruct (insert t _ tt) as [[ok t1]|]; cbn; [|done]. intros [= ->]. by eexists. }
  intros [= ->]. by eexists.
Qed.

Lemma parts_step seen p key e :
  parts_ok seen p ->
  TrieSpec.small (TrieTheorems.build_ops (collect pattern_of key (seen ++ [(key, e)])) tt) ->
  exists p', insert_pair p (key, e) = Some p' /\ parts_ok (seen ++ [(key, e)]) p'.
Proof.
  intros [Ht Hk Hr Hn] Hs. destruct (TrieSpec.run_repr _ Hs) as (t' & b & Hrun & _).
  pose proof Hrun as Hrun'. rewrite collect_snoc, decide_True in Hrun by done.
  unfold TrieTheorems.build_ops, TrieSpec.run_ops in Hrun. rewrite fmap_app, foldlM_app in Hrun.
  pose proof (Ht key) as Htk. unfold TrieTheorems.build_ops, TrieSpec.run_ops in Htk. rewrite Htk in Hrun.
  cbn [mbind option_bind] in Hrun.
  unfold insert_pair, bucket_insert. cbn [fst snd].
  destruct (insert_entry_spec e _ _ (default [] (p_regexes p !! key)) (default [] (p_keywords p !! key)) Hrun)
    as [ok ->]. cbn [mbind option_bind]. eexists. split; [done|].
  split; intros key'; cbn [p_categories p_keywords p_regexes].
  - destruct (decide (key = key')) as [<-|Hne]; [by rewrite lookup_insert_eq|].
    rewrite lookup_insert_ne, collect_snoc, decide_False, app_nil_r by done. apply Ht.
  - rewrite collect_snoc. destruct (decide (key = key')) as [<-|Hne].
    + by rewrite lookup_insert_eq, Hk.
    + by rewrite lookup_insert_ne, app_nil_r.
  - rewrite collect_snoc. destruct (decide (key = key')) as [<-|Hne].
    + by rewrite lookup_insert_eq, Hr.
    + by rewrite lookup_insert_ne, app_nil_r.
  - destruct (decide (key = key')) as [<-|Hne]; [by rewrite lookup_insert_eq|].
    rewrite lookup_insert_ne, collect_snoc, decide_False, app_nil_r by done. apply Hn.
Qed.

Definition buckets_ok (l : list (bytes * ParsedDomainEntry)) : Prop :=
  forall key, TrieSpec.small (TrieTheorems.build_ops (collect pattern_of key l) tt).

Lemma parts_run l :
  buckets_ok l -> exists p, foldlM insert_pair (mkParts ∅ ∅ ∅ ∅) l = Some p /\ parts_ok l p.
Proof.
  intros Hs. apply (foldlM_invariant parts_ok).
  { split; intros key; cbn; by rewrite ?lookup_empty. }
  intros seen [key e] rest p -> Hp. apply parts_step; [done|].
  specialize (Hs key). unfold collect in *. rewrite cons_middle, app_assoc, omap_app in Hs.
  unfold TrieTheorems.build_ops in *. rewrite fmap_app in Hs. by apply TrieTheorems.small_app in Hs.
Qed.

(** A domain matches an entry by the entry's type. *)
Definition entry_matches (e : ParsedDomainEntry) (domain : bytes) : Prop :=
  (exists k, keyword_of e = Some k /\ contains k domain = true) \/
  (exists x re, regex_of e = Some x /\ regex_new x = Some re /\ is_match re domain = true) \/
  (exists p, pattern_of e = Some p /\ TrieTheorems.pattern_matches p domain).

Lemma parts_db l p :
  buckets_ok l -> parts_ok l p ->
  exists db, from_parts (p_categories p) (p_counts p) (p_regexes p) (p_keywords p) = Some db /\
    forall key domain, lookup_resolved db key domain = true <->
      exists e, (key, e) ∈ l /\ entry_matches e domain.
Proof.
  intros Hs [Ht Hk Hr Hn].
  assert (Hseal : forall key t, p_categories p !! key = Some t -> exists t', seal t = Some t' /\
    forall domain, trie_has t' domain = true <->
      exists pat, pat ∈ collect pattern_of key l /\ TrieTheorems.pattern_matches pat domain).
  { intros key t Hkey. destruct (TrieTheorems.sealed_patterns _ _ (Hs key)) as (t0 & t' & Hr0 & Hs' & Hsearch).
    rewrite Ht, Hkey in Hr0. injection Hr0 as <-. exists t'. split; [done|]. intros domain.
    destruct (Hsearch domain) as (r & E & Hrd). unfold trie_has. rewrite E, bool_decide_eq_true, <- Hrd.
    destruct r as [[]|]; split; try done; by intros []. }
  unfold from_parts. rewrite bool_decide_eq_true_2.
  2: { intros key t Hkey. destruct (Hseal key t Hkey) as (t' & -> & _). by eexists. }
  eexists. split; [done|]. intros key domain. unfold lookup_resolved. cbn [Geosite.categories keywords regex_compiled].
  rewrite !orb_true_iff. unfold entry_matches.
  assert (E1 : match omap seal (p_categories p) !! key with Some t => trie_has t domain | None => false end = true <->
    exists pat, pat ∈ collect pattern_of key l /\ TrieTheorems.pattern_matches pat domain).
  { rewrite lookup_omap. destruct (p_categories p !! key) as [t|] eqn:Ek; cbn [mbind option_bind].
    - destruct (Hseal key t Ek) as (t' & -> & H). apply H.
    - rewrite (Hn _ Ek). split; [done|]. intros (pat & H & _). by apply not_elem_of_nil in H. }
  rewrite E1. setoid_rewrite elem_of_collect. clear E1.
  assert (E2 : match p_keywords p !! key with Some kws => existsb (fun kw => contains kw domain) kws | None => false end = true <->
    exists k, k ∈ collect keyword_of key l /\ contains k domain = true).
  { rewrite <- Hk. destruct (p_keywords p !! key) as [kws|]; cbn.
    - rewrite existsb_exists. by setoid_rewrite <- list_elem_of_In.
    - split; [done|]. intros (k & H & _). by apply not_elem_of_nil in H. }
  rewrite E2. setoid_rewrite elem_of_collect. clear E2.
  rewrite lookup_fmap.
  assert (E3 : match (fun ps : list bytes => omap regex_new ps) <$> p_regexes p !! key with
      Some compiled => existsb (fun re => is_match re domain) compiled | None => false end = true <->
    exists x re, x ∈ collect regex_of key l /\ regex_new x = Some re /\ is_match re domain = true).
  { rewrite <- Hr. destruct (p_regexes p !! key) as [ps|]; cbn.
    - rewrite existsb_exists. setoid_rewrite <- list_elem_of_In. setoid_rewrite list_elem_of_omap. naive_solver.
    - split; [done|]. intros (x & re & H & _). by apply not_elem_of_nil in H. }
  rewrite E3. setoid_rewrite elem_of_collect. clear. split.
  - intros [[(pat & (e & He & Hp) & Hm)|(k & (e & He & Hp) & Hm)]|(x & re & (e & He & Hp) & Hm)]; exists e; split; eauto 7.
  - intros (e & He & [(k & Hp & Hm)|[(x & re & Hp & Hm)|(pat & Hp & Hm)]]); eauto 8.
Qed.

(** A protobuf file is not taken for an MRS file. *)
Lemma enc_sites_header l : exists m, parse_header (enc_sites l) = Err (WrongFormat m).
Proof.
  unfold parse_header. case_match; [by eexists|]. destruct l as [|s l]; [done|].
  change (enc_sites (s :: l)) with (enc_len FIELD_GEOSITELIST_ENTRY (enc_site s) ++ enc_sites l).
  change (enc_len FIELD_GEOSITELIST_ENTRY (enc_site s)) with
    (z_byte 10 :: enc_varint (Z.of_nat (length (enc_site s))) ++ enc_site s).
  cbn [app take]. rewrite bool_decide_eq_false_2; [by eexists|]. by intros [= ?].
Qed.

(** C37: a protobuf geosite file is read as the message it encodes. For any
    list of categories with UTF-8 strings, shorter than 2^64 bytes in the
    format's encoding and whose patterns fit the node index of the tries,
    [from_bytes] neither fails nor panics. The bucket of a category, or of a
    category and an attribute, matches a domain exactly if one of the file's
    entries, in an allowed category, goes to that bucket and matches the domain
    by its type: keyword, regular expression, suffix or full name. Names,
    attributes and values count in lower case, regular expressions among them;
    blank attributes and empty values do not count. *)
Theorem geosite_dat_roundtrip sites allowed :
  Forall site_ok sites -> len_ok (enc_sites sites) -> buckets_ok (inserts allowed (map normal_site sites)) ->
  exists db, from_bytes (enc_sites sites) allowed = Some (Ok db) /\
    forall key domain, lookup_resolved db key domain = true <->
      exists name entries e, (name, entries) ∈ map normal_site sites /\ is_allowed allowed name = true /\ e ∈ entries /\
        key ∈ entry_keys name e /\ entry_matches e domain.
Proof.
  intros Hok Hlen Hb. destruct (parts_run _ Hb) as (p & Hp & Hpo). destruct (parts_db _ _ Hb Hpo) as (db & Hdb & H).
  exists db. split.
  - unfold from_bytes. destruct (enc_sites_header sites) as [m ->]. unfold from_dat_bytes, pb_new.
    rewrite dat_loop_enc; [|done|done|].
    + rewrite Hp. cbn [fmap option_fmap option_map]. by rewrite Hdb.
    + clear. induction sites as [|s l IH]; [done|].
      change (enc_sites (s :: l)) with (enc_len FIELD_GEOSITELIST_ENTRY (enc_site s) ++ enc_sites l).
      rewrite length_app. unfold enc_len at 1. rewrite length_app.
      destruct (enc_varint (FIELD_GEOSITELIST_ENTRY * 8 + WIRE_LEN_DELIM)) eqn:E; [by apply varint_nonempty in E|].
      simpl in *. lia.
  - intros key domain. rewrite H. unfold inserts. generalize (map normal_site sites). clear. intros sites. split.
    + intros (e & (l' & He & ([name l] & -> & Hin)%list_elem_of_fmap)%list_elem_of_join & Hm).
      unfold site_inserts in He. cbn [fst snd] in He. destruct (is_allowed allowed name) eqn:Ea; [|by apply not_elem_of_nil in He].
      apply list_elem_of_join in He as (l' & He & (e' & -> & He')%list_elem_of_fmap).
      apply list_elem_of_fmap in He as (k & [= -> ->] & Hk). by exists name, l, e'.
    + intros (name & l & e & Hin & Ha & He & Hk & Hm). exists e. split; [|done].
      apply list_elem_of_join. exists (site_inserts allowed (name, l)). split; [|by apply list_elem_of_fmap_2].
      unfold site_inserts. cbn [fst snd]. rewrite Ha. apply list_elem_of_join.
      eexists. split; [by apply (list_elem_of_fmap_2 (fun k => (k, e)) _ _ Hk)|].
      by apply (list_elem_of_fmap_2 (fun e => map (fun k => (k, e)) (entry_keys name e))).
Qed.

(** ** What an MRS file loads *)

Section Mrs.
Variable allowed : option (list bytes).

(** The domains of a category go into its open trie. *)
Lemma load_domains name cs ns ds t n t' :
  foldlM TrieSpec.step t (TrieTheorems.build_ops ds tt) = Some t' ->
  exists n', foldlM (visit_domain (load_item allowed) true) (mkLoad (Some (name, t, n)) cs ns) ds =
    Some (mkLoad (Some (name, t', n')) cs ns).
Proof.
  revert t n. induction ds as [|d ds IH]; intros t n H; [injection H as <-; by exists n|].
  unfold TrieTheorems.build_ops in H. rewrite fmap_cons in H. cbn [foldlM TrieSpec.step] in H |- *.
  destruct (insert t d tt) as [[ok t1]|] eqn:E; [|done]. cbn [fmap option_fmap option_map snd mbind option_bind] in H.
  assert (Hd : visit_domain (load_item allowed) true (mkLoad (Some (name, t, n)) cs ns) d =
    Some (mkLoad (Some (name, t1, if ok then n + 1 else n)) cs ns)).
  { cbn. by rewrite E. }
  rewrite Hd. cbn [mbind option_bind]. by apply IH.
Qed.

(** The finished categories after [seen]: those allowed, each with the
    sealed trie of its domains. *)
Record loaded (seen : list (bytes * list bytes)) (l : Load) : Prop := {
  ld_closed : current l = None;
  ld_trie name t : l_categories l !! name = Some t <->
    exists ds t0, (name, ds) ∈ seen /\ is_allowed allowed name = true /\
      TrieSpec.run_ops (TrieTheorems.build_ops ds tt) = Some t0 /\ seal t0 = Some t;
}.

Lemma finish_closed l : current l = None -> finish l = Some l.
Proof. intros H. unfold finish. by rewrite H. Qed.

Lemma load_category seen c l l0 :
  finish l = Some l0 -> loaded seen l0 -> c.1 ∉ seen.*1 -> TrieSpec.small (TrieTheorems.build_ops c.2 tt) ->
  exists l', visit_category (load_item allowed) l c = Some l' /\
    exists l1, finish l' = Some l1 /\ loaded (seen ++ [c]) l1.
Proof.
  destruct c as [name ds]. cbn [fst snd]. intros Hf [Hcl Htr] Hnew Hsmall.
  assert (Hold : forall ds', (name, ds') ∉ seen).
  { intros ds' Hin. apply Hnew. apply list_elem_of_fmap. by exists (name, ds'). }
  destruct (TrieTheorems.sealed_patterns _ _ Hsmall) as (t0 & t & Ht0 & Ht & _).
  unfold visit_category. cbn [fst snd load_item]. rewrite Hf. cbn [mbind option_bind].
  destruct (is_allowed allowed name) eqn:Ea; cbn [fst snd].
  - destruct (load_domains name (l_categories l0) (l_counts l0) ds new 0 t0 Ht0) as [n' ->].
    eexists. split; [done|]. unfold finish. cbn [current]. rewrite Ht. cbn [mbind option_bind l_categories l_counts].
    eexists. split; [done|]. split; [done|]. intros name' t'. cbn [l_categories].
    setoid_rewrite elem_of_app. setoid_rewrite list_elem_of_singleton.
    destruct (decide (name = name')) as [<-|Hne].
    + rewrite lookup_insert_eq. split.
      * intros [= <-]. exists ds, t0. split; [by right|done].
      * intros (ds' & t0' & [Hin|[= ->]] & _ & Hr & Hs'); [by apply Hold in Hin|congruence].
    + rewrite lookup_insert_ne, Htr by done. split; intros (ds' & t0' & H); exists ds', t0'; [naive_solver|].
      destruct H as ([?|?] & ?); [done|congruence].
  - rewrite visit_skipped. exists l0. split; [done|]. exists l0. split; [by apply finish_closed|].
    split; [done|]. intros name' t'. rewrite Htr. setoid_rewrite elem_of_app. setoid_rewrite list_elem_of_singleton.
    split; intros (ds' & t0' & H); exists ds', t0'; [naive_solver|].
    destruct H as ([?|[= -> ->]] & ? & ?); [done|congruence].
Qed.

Lemma load_categories cats :
  NoDup cats.*1 -> Forall (fun c => TrieSpec.small (TrieTheorems.build_ops c.2 tt)) cats ->
  exists l l1, visit (load_item allowed) (mkLoad None ∅ ∅) cats = Some l /\
    finish l = Some l1 /\ loaded cats l1.
Proof.
  intros Hnd Hsm. unfold visit.
  destruct (foldlM_invariant (fun seen l => exists l1, finish l = Some l1 /\ loaded seen l1)
    (visit_category (load_item allowed)) (mkLoad None ∅ ∅) cats) as (l & Hl & l1 & H1 & H2).
  - exists (mkLoad None ∅ ∅). split; [done|]. split; [done|]. intros name t. cbn. rewrite lookup_empty.
    split; [done|]. intros (ds & t0 & H & _). by apply not_elem_of_nil in H.
  - intros seen c rest l Hsplit (l0 & Hf & Hld). subst cats. eapply load_category; [done|done| |].
    + rewrite fmap_app, fmap_cons in Hnd. apply NoDup_app in Hnd as (_ & H & _). intros Hin. by apply (H _ Hin); left.
    + apply Forall_app in Hsm as [_ Hsm]. by apply Forall_cons in Hsm as [? _].
  - eauto 6.
Qed.

End Mrs.

(** A database file fits: its categories have different names and their
    tries fit the node index. *)
Definition tries_ok (p : GeositePayload) : Prop :=
  NoDup (MrsCodec.categories p).*1 /\
  Forall (fun c => TrieSpec.small (TrieTheorems.build_ops c.2 tt)) (MrsCodec.categories p).

(** A geosite file that [write_geosite_mrs] writes is read back. However
    the decompressor chops its output, [from_bytes] neither fails nor panics
    and the database it builds matches a domain in a category exactly if the
    category is one of the payload's, the allowlist names it, and one of
    its patterns matches the domain. *)
Theorem geosite_mrs_roundtrip p allowed compressed :
  payload_ok p -> tries_ok p -> encode_all (encode_geosite_payload p) = Ok compressed ->
  exists file db, write_geosite_mrs p = Ok file /\ from_bytes file allowed = Some (Ok db) /\
    forall name domain, lookup_resolved db name domain = true <->
      exists ds, (name, ds) ∈ MrsCodec.categories p /\ is_allowed allowed name = true /\
        exists e, e ∈ ds /\ TrieTheorems.pattern_matches e domain.
Proof.
  intros Hp [Hnd Hsm] Hz. unfold write_geosite_mrs, write_mrs. rewrite Hz.
  destruct (encode_decode _ _ Hz) as (s & Hdec & Hok & Hc).
  destruct (load_categories allowed _ Hnd Hsm) as (l & l1 & Hv & Hf & Hld).
  eexists _, (mkDB (l_categories l1) (l_counts l1) ∅ ∅). split; [done|]. split.
  { unfold from_bytes. rewrite parse_header_bytes by done. cbn [type_tag negb].
    unfold from_mrs. change (TYPE_DOMAIN =? TYPE_DOMAIN)%Z with true. cbn [negb].
    rewrite Hdec, (stream_geosite_visit _ p) by done. rewrite Hv. cbn [fmap option_fmap option_map].
    rewrite Hf. done. }
  intros name domain. unfold lookup_resolved. cbn [Geosite.categories keywords regex_compiled].
  rewrite !lookup_empty, !orb_false_r. rewrite Forall_forall in Hsm.
  destruct (l_categories l1 !! name) as [t|] eqn:Et.
  - apply (ld_trie _ _ _ Hld) in Et as (ds & t0 & Hin & Ha & Hr & Hs).
    destruct (TrieTheorems.sealed_patterns _ _ (Hsm _ Hin)) as (t0' & t' & Hr' & Hs' & Hsearch).
    cbn [snd] in *. assert (t' = t) as -> by congruence. destruct (Hsearch domain) as (r & E & Hrd).
    unfold trie_has. rewrite E, bool_decide_eq_true.
    trans (is_Some r); [destruct r as [[]|]; split; try done; by intros []|]. rewrite Hrd. split.
    + intros H. by exists ds.
    + intros (ds' & Hin' & _ & H). assert (ds' = ds) as ->; [|done].
      apply (NoDup_lookup_pairs _ _ _ _ Hnd Hin' Hin).
  - split; [done|]. intros (ds & Hin & Ha & _).
    destruct (TrieTheorems.sealed_patterns _ _ (Hsm _ Hin)) as (t0 & t & Hr & Hs & _).
    assert (l_categories l1 !! name = Some t); [|congruence]. apply (ld_trie _ _ _ Hld). eauto 7.
Qed.

End GeositeLoad.

(** ** Witnesses *)

#[local] Existing Instance Sealed.default_hash_order.
#[local] Existing Instance toy_regex.
#[local] Existing Instance raw_zstd.

Definition demo_payload : GeositePayload := mkPayload [(b! "cn", [b! "+.baidu.com"; b! "a.cn"]); (b! "ads", [b! "ad.com"])].

Lemma geosite_mrs_roundtrip_witness :
  exists file db, write_geosite_mrs demo_payload = Ok file /\
    from_bytes file (Some [b! "cn"]) = Some (Ok db) /\ lookup_resolved db (b! "cn") (b! "tieba.baidu.com") = true.
Proof.
  destruct (geosite_mrs_roundtrip demo_payload (Some [b! "cn"]) (ZSTD_MAGIC ++ encode_geosite_payload demo_payload))
    as (file & db & Hw & Hb & H).
  - unfold payload_ok. split; [done|]. split; [|done]. repeat constructor.
  - split; [by apply (bool_decide_unpack _); vm_compute|]. repeat constructor.
  - reflexivity.
  - exists file, db. split; [exact Hw|]. split; [exact Hb|]. apply H.
    exists [b! "+.baidu.com"; b! "a.cn"]. split; [left|]. split; [reflexivity|].
    exists (b! "+.baidu.com"). split; [left|]. exists (Trie.Dot, b! "baidu.com"). split; [vm_compute; right; left|].
    exists (b! "tieba"). reflexivity.
Defined.

Definition demo_sites : list (bytes * list ParsedDomainEntry) :=
  [(b! "CN", [mkEntry 2 (b! "Baidu.com") [b! " Ads"; b! " "]; mkEntry 0 (b! "qq") []; mkEntry 3 [] []])].

Definition normal_sites : list (bytes * list ParsedDomainEntry) :=
  [(b! "cn", [mkEntry 2 (b! "baidu.com") [b! "ads"]; mkEntry 0 (b! "qq") []])].

Lemma demo_sites_normal : map normal_site demo_sites = normal_sites.
Proof. vm_compute. reflexivity. Qed.

Lemma geosite_dat_roundtrip_witness :
  exists db, from_bytes (enc_sites demo_sites) None = Some (Ok db) /\
    lookup_resolved db (b! "cn@ads") (b! "x.baidu.com") = true.
Proof.
  destruct (geosite_dat_roundtrip demo_sites None) as (db & Hb & H).
  - repeat constructor; done.
  - reflexivity.
  - rewrite demo_sites_normal. intros key. unfold collect.
    cbn [inserts site_inserts normal_sites is_allowed map mjoin list_join fst snd entry_keys attrs app omap list_omap].
    repeat case_decide; vm_compute; reflexivity.
  - exists db. split; [exact Hb|]. apply H. rewrite demo_sites_normal.
    exists (b! "cn"), [mkEntry 2 (b! "baidu.com") [b! "ads"]; mkEntry 0 (b! "qq") []], (mkEntry 2 (b! "baidu.com") [b! "ads"]).
    split; [left|]. split; [reflexivity|]. split; [left|]. split; [vm_compute; right; left|].
    right. right. exists (b! "+.baidu.com"). split; [reflexivity|].
    exists (Trie.Dot, b! "baidu.com"). split; [vm_compute; right; left|]. exists (b! "x"). reflexivity.
Defined.

End GeositeLoad.
