(* ===== verification/Rules.v ===== *)
(** * The rules (crates/meow-rules)

    Every rule type with its constructor and its trait methods. Rule sets,
    the geosite database and the address ranges are shared through [Arc]:
    a rule holds the address of its object, and a store says what is there,
    so that handles are compared as the code compares them and a provider
    can be refreshed between building and matching. *)

From S2P Require Import Prelude Strings Ip IpSet Ports Regex Wildcard Metadata.
From S2P Require Import Trie TrieSealed DomainTrie Geosite.

#[local] Set Warnings "-register-all".

Module Rules.
Import IpSet Ports Metadata Geosite Wildcard.

Abbreviation ptr := N.

(** ** Objects behind handles *)

Inductive RuleSetBehavior := BDomain | BIpCidr | BClassical.

#[export] Instance RuleSetBehavior_eq_dec : EqDecision RuleSetBehavior.
Proof. solve_decision. Defined.

(** The trait object [dyn RuleSet]. *)
Record RuleSet := mkRuleSet {
  behavior : RuleSetBehavior;
  set_matches : Metadata -> bool;
  set_len : nat;
  set_resolve_ip : bool;
  set_find_process : bool;
  matches_domain : bytes -> bool;
}.

(** [str::to_uppercase], as [UnicodeLower]. *)
Class UnicodeUpper := {
  to_uppercase : bytes -> bytes;
  to_uppercase_ascii s : is_ascii s = true -> to_uppercase s = to_ascii_uppercase s;
}.

#[export] Program Instance ascii_only_upper : UnicodeUpper | 100 :=
  {| to_uppercase := to_ascii_uppercase |}.
Next Obligation. done. Qed.

Section Rules.
Context `{HO : Sealed.HashOrder, UL : UnicodeLower, UU : UnicodeUpper, RO : RegexOps, KO : KeyOrder}.
Context `{NL : IpNetLib, PF : Platform}.

Record Store := mkStore {
  sets : ptr -> RuleSet;
  dbs : ptr -> GeositeDB;
  range_sets : ptr -> IpRangeSet;
}.

Record RuleFlags := mkFlags { no_resolve_flag : bool; is_src_flag : bool }.

(** ** IP-SUFFIX *)

Inductive Family :=
  | FV4 (suffix mask : Z)
  | FV6 (suffix mask : Z).

Definition suffix_matches (f : Family) (ip : IpAddr) : bool :=
  match f, ip with
  | FV4 suffix mask, V4 v4 => (Z.land v4 mask =? suffix)%Z
  | FV6 suffix mask, V6 v6 => (Z.land v6 mask =? suffix)%Z
  | _, _ => false
  end.

(** The mask over the low [prefix] bits of a [width]-bit address. *)
Definition low_mask (width prefix : Z) : Z :=
  if (prefix =? 0)%Z then 0
  else if (width <=? prefix)%Z then (2 ^ width - 1)%Z
  else (Z.shiftl 1 prefix - 1)%Z.

Definition suffix_family (net : IpNet) : option Family :=
  let prefix := prefix_len net in
  let width := family_width (net_v6 net) in
  if (width <? prefix)%Z then None
  else
    let mask := low_mask width prefix in
    let suffix := Z.land (net_addr net) mask in
    Some (if net_v6 net then FV6 suffix mask else FV4 suffix mask).

(** ** PROCESS-PATH *)

Inductive MatchMode :=
  | MGlob (re : Regex)
  | MPrefix
  | MExact.

Definition backslash : ascii := "\"%char.

Definition process_path_regex (payload : bytes) : bytes :=
  b! "^(?i)" ++ replace (b! "\*") (b! "[^/\\]*") (regex_escape payload) ++ b! "$".

Definition starts_with_sep (s : bytes) : bool := starts_with [slash] s || starts_with [backslash] s.

Definition path_mode (payload : bytes) : option MatchMode :=
  if contains_byte star payload then re ← regex_new (process_path_regex payload); Some (MGlob re)
  else if starts_with_sep payload then Some MPrefix
  else Some MExact.

(** [Path::file_name] on Unix: the last component that is not [.], unless
    it is [..]. *)
Definition file_name (path : bytes) : option bytes :=
  match last (List.filter (fun c => negb (bool_decide (c = [])) && negb (bool_decide (c = b! ".")))
    (split slash path)) with
  | Some c => if bool_decide (c = b! "..") then None else Some c
  | None => None
  end.

Definition path_matches (mode : MatchMode) (payload process_path : bytes) : bool :=
  if bool_decide (process_path = []) then false
  else match mode with
  | MGlob re => is_match re process_path
  | MPrefix =>
      if bool_decide (process_path = payload) then true
      else match strip_prefix payload process_path with
      | Some rest => starts_with_sep rest
      | None => false
      end
  | MExact => bool_decide (default process_path (file_name process_path) = payload)
  end.

(** ** The rules *)

Inductive Rule :=
  | DomainRule (domain adapter : bytes)
  | DomainSuffixRule (suffix adapter : bytes)
  | DomainKeywordRule (keyword adapter : bytes)
  | DomainRegexRule (regex : Regex) (pattern adapter : bytes)
  | DomainWildcardRule (pattern : Regex) (raw adapter : bytes)
  | GeoSiteRule (category payload_raw adapter : bytes) (db : option ptr)
  | GeoIpRule (country adapter : bytes) (no_resolve : bool) (ranges : ptr)
  | SrcGeoIpRule (country adapter : bytes) (ranges : ptr)
  | IpCidrRule (cidr : IpNet) (cidr_str adapter : bytes) (is_src no_resolve : bool)
  | IpSuffixRule (payload_raw adapter : bytes) (family : Family) (src no_resolve : bool)
  | IpAsnRule (raw adapter : bytes) (ranges : ptr) (src no_resolve : bool)
  | PortRule (ranges : list interval) (raw adapter : bytes) (is_src : bool)
  | InPortRule (ranges : list interval) (raw adapter : bytes)
  | DscpRule (value : Z) (raw adapter : bytes)
  | ProcessRule (process_name adapter : bytes)
  | ProcessPathRule (payload : bytes) (mode : MatchMode) (adapter : bytes)
  | NetworkRule (net : Network) (raw adapter : bytes)
  | UidRule (uid : Z) (raw adapter : bytes)
  | InNameRule (name adapter : bytes)
  | InTypeRule (raw adapter : bytes) (http https socks5 tproxy inner : bool)
  | InUserRule (username adapter : bytes)
  | FinalRule (adapter : bytes)
  | RuleSetRule (name : bytes) (set : ptr) (adapter : bytes) (flags : RuleFlags)
  | AndRule (rules : list Rule) (adapter payload : bytes)
  | OrRule (rules : list Rule) (adapter payload : bytes)
  | NotRule (rule : Rule) (adapter payload : bytes)
  | SubRuleRule (block_name : bytes) (block : list Rule).

Definition rule_type (r : Rule) : RuleType :=
  match r with
  | DomainRule _ _ => TDomain
  | DomainSuffixRule _ _ => TDomainSuffix
  | DomainKeywordRule _ _ => TDomainKeyword
  | DomainRegexRule _ _ _ => TDomainRegex
  | DomainWildcardRule _ _ _ => TDomainWildcard
  | GeoSiteRule _ _ _ _ => TGeoSite
  | GeoIpRule _ _ _ _ => TGeoIp
  | SrcGeoIpRule _ _ _ => TSrcGeoIp
  | IpCidrRule _ _ _ is_src _ => if is_src then TSrcIpCidr else TIpCidr
  | IpSuffixRule _ _ _ src _ => if src then TSrcIpSuffix else TIpSuffix
  | IpAsnRule _ _ _ src _ => if src then TSrcIpAsn else TIpAsn
  | PortRule _ _ _ is_src => if is_src then TSrcPort else TDstPort
  | InPortRule _ _ _ => TInPort
  | DscpRule _ _ _ => TDscp
  | ProcessRule _ _ => TProcessName
  | ProcessPathRule _ _ _ => TProcessPath
  | NetworkRule _ _ _ => TNetwork
  | UidRule _ _ _ => TUid
  | InNameRule _ _ => TInName
  | InTypeRule _ _ _ _ _ _ _ => TInType
  | InUserRule _ _ => TInUser
  | FinalRule _ => TMatch
  | RuleSetRule _ _ _ _ => TRuleSet
  | AndRule _ _ _ => TAnd
  | OrRule _ _ _ => TOr
  | NotRule _ _ _ => TNot
  | SubRuleRule _ _ => TSubRule
  end.

Definition payload (r : Rule) : bytes :=
  match r with
  | DomainRule p _ | DomainSuffixRule p _ | DomainKeywordRule p _ | DomainRegexRule _ p _
  | DomainWildcardRule _ p _ | GeoSiteRule _ p _ _ | GeoIpRule p _ _ _ | SrcGeoIpRule p _ _
  | IpCidrRule _ p _ _ _ | IpSuffixRule p _ _ _ _ | IpAsnRule p _ _ _ _ | PortRule _ p _ _
  | InPortRule _ p _ | DscpRule _ p _ | ProcessRule p _ | ProcessPathRule p _ _
  | NetworkRule _ p _ | UidRule _ p _ | InNameRule p _ | InTypeRule p _ _ _ _ _ _
  | InUserRule p _ | RuleSetRule p _ _ _ | AndRule _ _ p | OrRule _ _ p | NotRule _ _ p
  | SubRuleRule p _ => p
  | FinalRule _ => []
  end.

(** A SUB-RULE reports its block's name. *)
Definition adapter (r : Rule) : bytes :=
  match r with
  | DomainRule _ a | DomainSuffixRule _ a | DomainKeywordRule _ a | DomainRegexRule _ _ a
  | DomainWildcardRule _ _ a | GeoSiteRule _ _ a _ | GeoIpRule _ a _ _ | SrcGeoIpRule _ a _
  | IpCidrRule _ _ a _ _ | IpSuffixRule _ a _ _ _ | IpAsnRule _ a _ _ _ | PortRule _ _ a _
  | InPortRule _ _ a | DscpRule _ _ a | ProcessRule _ a | ProcessPathRule _ _ a
  | NetworkRule _ _ a | UidRule _ _ a | InNameRule _ a | InTypeRule _ a _ _ _ _ _
  | InUserRule _ a | FinalRule a | RuleSetRule _ _ a _ | AndRule _ a _ | OrRule _ a _
  | NotRule _ a _ | SubRuleRule a _ => a
  end.

(** [Vec::join]. *)
Fixpoint join_with (sep : bytes) (ws : list bytes) : bytes :=
  match ws with
  | [] => []
  | [w] => w
  | w :: ws => w ++ sep ++ join_with sep ws
  end.

(** *** Constructors; [None] is an error *)

Definition new_domain (domain adapter : bytes) : Rule := DomainRule (to_lowercase domain) adapter.
Definition new_domain_suffix (suffix adapter : bytes) : Rule :=
  DomainSuffixRule (to_ascii_lowercase suffix) adapter.
Definition new_domain_keyword (keyword adapter : bytes) : Rule :=
  DomainKeywordRule (to_ascii_lowercase keyword) adapter.
Definition new_domain_regex (pattern adapter : bytes) : option Rule :=
  regex ← regex_new pattern; Some (DomainRegexRule regex pattern adapter).
Definition new_domain_wildcard (pattern adapter : bytes) : option Rule :=
  re ← regex_new (wildcard_regex pattern); Some (DomainWildcardRule re pattern adapter).
Definition new_geosite (payload adapter : bytes) (db : option ptr) : Rule :=
  GeoSiteRule (to_ascii_lowercase (trim payload)) payload adapter db.
Definition new_geoip (country adapter : bytes) (no_resolve : bool) (ranges : ptr) : Rule :=
  GeoIpRule (to_uppercase country) adapter no_resolve ranges.
Definition new_src_geoip (country adapter : bytes) (ranges : ptr) : Rule :=
  SrcGeoIpRule (to_uppercase country) adapter ranges.
Definition new_ip_cidr (cidr adapter : bytes) (is_src no_resolve : bool) : option Rule :=
  parsed ← parse_net cidr; Some (IpCidrRule parsed cidr adapter is_src no_resolve).
Definition new_ip_suffix (payload adapter : bytes) (src no_resolve : bool) : option Rule :=
  net ← parse_net payload;
  family ← suffix_family net;
  Some (IpSuffixRule payload adapter family src no_resolve).
Definition new_ip_asn (raw adapter : bytes) (ranges : ptr) (src no_resolve : bool) : Rule :=
  IpAsnRule raw adapter ranges src no_resolve.
Definition new_port (ports adapter : bytes) (is_src : bool) : option Rule :=
  ranges ← rule_ports ports; Some (PortRule ranges ports adapter is_src).
Definition new_in_port (ports adapter : bytes) : option Rule :=
  ranges ← rule_ports ports; Some (InPortRule ranges ports adapter).
Definition new_dscp (dscp adapter : bytes) : option Rule :=
  value ← parse_u8 (trim dscp);
  if (63 <? value)%Z then None else Some (DscpRule value dscp adapter).
Definition new_process (name adapter : bytes) : Rule := ProcessRule name adapter.
Definition new_process_path (payload adapter : bytes) : option Rule :=
  mode ← path_mode payload; Some (ProcessPathRule payload mode adapter).
Definition new_network (network adapter : bytes) : option Rule :=
  if bool_decide (to_lowercase network = b! "tcp") then Some (NetworkRule Tcp network adapter)
  else if bool_decide (to_lowercase network = b! "udp") then Some (NetworkRule Udp network adapter)
  else None.
Definition new_uid (uid adapter : bytes) : option Rule :=
  value ← parse_u32 (trim uid); Some (UidRule value uid adapter).
Definition new_in_name (name adapter : bytes) : Rule := InNameRule name adapter.
Definition new_in_type (type_str adapter : bytes) : option Rule :=
  let t := to_uppercase type_str in
  if bool_decide (t = b! "HTTP") then Some (InTypeRule type_str adapter true true false false false)
  else if bool_decide (t = b! "HTTPS") then Some (InTypeRule type_str adapter false true false false false)
  else if bool_decide (t = b! "SOCKS5") then Some (InTypeRule type_str adapter false false true false false)
  else if bool_decide (t = b! "TPROXY") then Some (InTypeRule type_str adapter false false false true false)
  else if bool_decide (t = b! "INNER") then Some (InTypeRule type_str adapter false false false false true)
  else None.
Definition new_in_user (username adapter : bytes) : Rule := InUserRule username adapter.
Definition new_final (adapter : bytes) : Rule := FinalRule adapter.
Definition new_rule_set (name : bytes) (set : ptr) (adapter : bytes) (flags : RuleFlags) : Rule :=
  RuleSetRule name set adapter flags.
Definition new_and (rules : list Rule) (adapter : bytes) : Rule :=
  AndRule rules adapter (join_with (b! " AND ") (map payload rules)).
Definition new_or (rules : list Rule) (adapter : bytes) : Rule :=
  OrRule rules adapter (join_with (b! " OR ") (map payload rules)).
Definition new_not (rule : Rule) (adapter : bytes) : Rule :=
  NotRule rule adapter (b! "NOT " ++ payload rule).
Definition new_sub_rule (block_name : bytes) (block : list Rule) : Rule := SubRuleRule block_name block.

(** *** The trait methods *)

Definition never_matches_leaf (σ : Store) (r : Rule) : bool :=
  match r with
  | GeoSiteRule category _ _ db =>
      bool_decide (category = []) ||
      match db with
      | None => true
      | Some p => bool_decide (resolve_keys (dbs σ p) category = None)
      end
  | GeoIpRule _ _ _ ranges | SrcGeoIpRule _ _ ranges | IpAsnRule _ _ ranges _ _ =>
      set_is_empty (range_sets σ ranges)
  | ProcessRule name _ => negb process_info_available && negb (bool_decide (name = []))
  | ProcessPathRule _ _ _ => negb process_info_available
  | UidRule _ _ _ => negb uid_info_available
  | _ => false
  end.

Fixpoint never_matches (σ : Store) (r : Rule) : bool :=
  match r with
  | AndRule rules _ _ => existsb (never_matches σ) rules
  | OrRule rules _ _ => forallb (never_matches σ) rules
  | SubRuleRule _ block => forallb (never_matches σ) block
  | r => never_matches_leaf σ r
  end.

Fixpoint should_resolve_ip (σ : Store) (r : Rule) : bool :=
  match r with
  | GeoIpRule _ _ no_resolve _ => negb no_resolve
  | IpCidrRule _ _ _ is_src no_resolve => negb is_src && negb no_resolve
  | IpSuffixRule _ _ _ src no_resolve => negb src && negb no_resolve
  | IpAsnRule _ _ _ src no_resolve => negb src && negb no_resolve
  | RuleSetRule _ set _ flags =>
      set_resolve_ip (sets σ set) && negb (no_resolve_flag flags) && negb (is_src_flag flags)
  | AndRule rules _ _ | OrRule rules _ _ | SubRuleRule _ rules =>
      existsb (fun r => negb (never_matches σ r) && should_resolve_ip σ r) rules
  | NotRule rule _ _ => negb (never_matches σ rule) && should_resolve_ip σ rule
  | _ => false
  end.

Fixpoint should_find_process (σ : Store) (r : Rule) : bool :=
  match r with
  | ProcessRule _ _ | ProcessPathRule _ _ _ => PROCESS_LOOKUP_SUPPORTED
  | UidRule _ _ _ => bool_decide (target_os = Linux)
  | RuleSetRule _ set _ _ => set_find_process (sets σ set)
  | AndRule rules _ _ | OrRule rules _ _ | SubRuleRule _ rules =>
      existsb (fun r => negb (never_matches σ r) && should_find_process σ r) rules
  | NotRule rule _ _ => negb (never_matches σ rule) && should_find_process σ rule
  | _ => false
  end.

Definition ip_in (o : option IpAddr) (f : IpAddr -> bool) : bool := from_option f false o.

Definition match_domain (domain : bytes) (m : Metadata) : bool := eq_ignore_ascii_case (rule_host m) domain.
Definition match_domain_suffix (suffix : bytes) (m : Metadata) : bool :=
  domain_suffix_matches (rule_host m) suffix.
Definition match_domain_keyword (keyword : bytes) (m : Metadata) : bool :=
  domain_keyword_matches (rule_host m) keyword.
Definition match_domain_regex (regex : Regex) (m : Metadata) : bool := is_match regex (rule_host m).
Definition match_domain_wildcard (pattern : Regex) (m : Metadata) : bool :=
  if bool_decide (rule_host m = []) then false else is_match pattern (rule_host m).
Definition match_geosite (σ : Store) (category : bytes) (db : option ptr) (m : Metadata) : bool :=
  match db with
  | None => false
  | Some p =>
      if bool_decide (category = []) then false
      else if bool_decide (rule_host m = []) then false
      else lookup (dbs σ p) category (rule_host m)
  end.
Definition match_geoip (σ : Store) (ranges : ptr) (m : Metadata) : bool :=
  ip_in (dst_ip m) (set_contains (range_sets σ ranges)).
Definition match_src_geoip (σ : Store) (ranges : ptr) (m : Metadata) : bool :=
  ip_in (src_ip m) (set_contains (range_sets σ ranges)).
Definition match_ip_cidr (cidr : IpNet) (is_src : bool) (m : Metadata) : bool :=
  ip_in (if is_src then src_ip m else dst_ip m) (net_contains cidr).
Definition match_ip_suffix (family : Family) (src : bool) (m : Metadata) : bool :=
  match (if src then src_ip m else dst_ip m) with
  | Some ip => suffix_matches family ip
  | None => false
  end.
Definition match_ip_asn (σ : Store) (ranges : ptr) (src : bool) (m : Metadata) : bool :=
  ip_in (if src then src_ip m else dst_ip m) (set_contains (range_sets σ ranges)).
Definition match_port (ranges : list interval) (is_src : bool) (m : Metadata) : bool :=
  matches_port ranges (if is_src then src_port m else dst_port m).
Definition match_in_port (ranges : list interval) (m : Metadata) : bool :=
  if (in_port m =? 0)%Z then false else matches_port ranges (in_port m).
Definition match_dscp (value : Z) (m : Metadata) : bool := bool_decide (dscp m = Some value).
Definition match_process (name : bytes) (m : Metadata) : bool := eq_ignore_ascii_case (process m) name.
Definition match_network (net : Network) (m : Metadata) : bool := bool_decide (network m = net).
Definition match_uid (value : Z) (m : Metadata) : bool :=
  uid_info_available && bool_decide (uid m = Some value).
Definition match_in_name (name : bytes) (m : Metadata) : bool :=
  negb (bool_decide (in_name m = [])) && bool_decide (in_name m = name).
Definition match_in_type (http https socks5 tproxy inner : bool) (m : Metadata) : bool :=
  match conn_type m with
  | Http => http | Https => https | Socks5 => socks5 | TProxy => tproxy | Inner => inner
  | _ => false
  end.
Definition match_in_user (username : bytes) (m : Metadata) : bool := bool_decide (in_user m = Some username).
Definition match_rule_set (σ : Store) (set : ptr) (flags : RuleFlags) (m : Metadata) : bool :=
  if negb (is_src_flag flags) || bool_decide (behavior (sets σ set) = BDomain)
  then set_matches (sets σ set) m
  else set_matches (sets σ set) (swap_src_dst m).

Definition match_leaf (σ : Store) (m : Metadata) (r : Rule) : bool :=
  match r with
  | DomainRule domain _ => match_domain domain m
  | DomainSuffixRule suffix _ => match_domain_suffix suffix m
  | DomainKeywordRule keyword _ => match_domain_keyword keyword m
  | DomainRegexRule regex _ _ => match_domain_regex regex m
  | DomainWildcardRule pattern _ _ => match_domain_wildcard pattern m
  | GeoSiteRule category _ _ db => match_geosite σ category db m
  | GeoIpRule _ _ _ ranges => match_geoip σ ranges m
  | SrcGeoIpRule _ _ ranges => match_src_geoip σ ranges m
  | IpCidrRule cidr _ _ is_src _ => match_ip_cidr cidr is_src m
  | IpSuffixRule _ _ family src _ => match_ip_suffix family src m
  | IpAsnRule _ _ ranges src _ => match_ip_asn σ ranges src m
  | PortRule ranges _ _ is_src => match_port ranges is_src m
  | InPortRule ranges _ _ => match_in_port ranges m
  | DscpRule value _ _ => match_dscp value m
  | ProcessRule name _ => match_process name m
  | ProcessPathRule payload mode _ => path_matches mode payload (process_path m)
  | NetworkRule net _ _ => match_network net m
  | UidRule value _ _ => match_uid value m
  | InNameRule name _ => match_in_name name m
  | InTypeRule _ _ http https socks5 tproxy inner => match_in_type http https socks5 tproxy inner m
  | InUserRule username _ => match_in_user username m
  | FinalRule _ => true
  | RuleSetRule _ set _ flags => match_rule_set σ set flags m
  | AndRule _ _ _ | OrRule _ _ _ | NotRule _ _ _ | SubRuleRule _ _ => false
  end.

Fixpoint match_metadata (σ : Store) (m : Metadata) (r : Rule) : bool :=
  match r with
  | AndRule rules _ _ => forallb (match_metadata σ m) rules
  | OrRule rules _ _ => existsb (match_metadata σ m) rules
  | NotRule rule _ _ => negb (match_metadata σ m rule)
  | SubRuleRule name block =>
      if should_resolve_ip σ (SubRuleRule name block) && negb (resolved m) then false
      else existsb (match_metadata σ m) block
  | r => match_leaf σ m r
  end.

(** The inner scan of a SUB-RULE: targets that pass the rule are skipped. *)
Fixpoint first_target (probe : TargetProbe) (targets : list (option bytes)) : option bytes :=
  match targets with
  | [] => None
  | Some target :: targets =>
      if bool_decide (target = b! "PASS-RULE") || is_pass_rule probe target
      then first_target probe targets else Some target
  | None :: targets => first_target probe targets
  end.

Fixpoint match_and_resolve (σ : Store) (m : Metadata) (probe : TargetProbe) (r : Rule) : option bytes :=
  match r with
  | SubRuleRule name block =>
      if should_resolve_ip σ (SubRuleRule name block) && negb (resolved m) then None
      else first_target probe (map (match_and_resolve σ m probe) block)
  | r => if match_metadata σ m r then Some (adapter r) else None
  end.

(** ** Induction over nested rules *)

Section Induction.
Variable P : Rule -> Prop.

Definition is_leaf (r : Rule) : bool :=
  match r with AndRule _ _ _ | OrRule _ _ _ | NotRule _ _ _ | SubRuleRule _ _ => false | _ => true end.

Hypothesis Hleaf : forall r, is_leaf r = true -> P r.
Hypothesis Hand : forall rs a p, Forall P rs -> P (AndRule rs a p).
Hypothesis Hor : forall rs a p, Forall P rs -> P (OrRule rs a p).
Hypothesis Hnot : forall r a p, P r -> P (NotRule r a p).
Hypothesis Hsub : forall n rs, Forall P rs -> P (SubRuleRule n rs).

Lemma Rule_nested_ind : forall r, P r.
Proof.
  fix IH 1.
  intros r. destruct r; try (apply Hleaf; reflexivity).
  - apply Hand. induction rules as [|x xs IHxs]; constructor; [apply IH|apply IHxs].
  - apply Hor. induction rules as [|x xs IHxs]; constructor; [apply IH|apply IHxs].
  - apply Hnot, IH.
  - apply Hsub. induction block as [|x xs IHxs]; constructor; [apply IH|apply IHxs].
Qed.

End Induction.

(** ** The invariant of constructed rules

    The parsed state of a rule is that of its payload. *)

Definition leaf_ok (r : Rule) : Prop :=
  match r with
  | DomainRegexRule re p _ => regex_new p = Some re
  | DomainWildcardRule re p _ => regex_new (wildcard_regex p) = Some re
  | GeoSiteRule category p _ _ => category = to_ascii_lowercase (trim p)
  | IpCidrRule net p _ _ _ => parse_net p = Some net
  | IpSuffixRule p _ family _ _ => (parse_net p ≫= suffix_family) = Some family
  | PortRule ranges p _ _ | InPortRule ranges p _ => rule_ports p = Some ranges
  | DscpRule value p _ => parse_u8 (trim p) = Some value /\ (value <= 63)%Z
  | ProcessPathRule p mode _ => path_mode p = Some mode
  | NetworkRule net p _ => to_lowercase p = match net with Tcp => b! "tcp" | Udp => b! "udp" end
  | UidRule value p _ => parse_u32 (trim p) = Some value
  | InTypeRule p a _ _ _ _ _ => new_in_type p a = Some r
  | _ => True
  end.

Definition all_of (P : Rule -> Prop) : list Rule -> Prop :=
  fix go rs := match rs with [] => True | r :: rs => P r /\ go rs end.

Fixpoint rule_ok (r : Rule) : Prop :=
  match r with
  | AndRule rules _ p => p = join_with (b! " AND ") (map payload rules) /\ all_of rule_ok rules
  | OrRule rules _ p => p = join_with (b! " OR ") (map payload rules) /\ all_of rule_ok rules
  | NotRule rule _ p => p = b! "NOT " ++ payload rule /\ rule_ok rule
  | SubRuleRule _ block => all_of rule_ok block
  | r => leaf_ok r
  end.

Lemma all_of_Forall P rs : all_of P rs <-> Forall P rs.
Proof.
  induction rs as [|r rs IH]; simpl; [split; constructor|]. rewrite IH, Forall_cons. done.
Qed.

Lemma leaf_rule_ok r : is_leaf r = true -> rule_ok r = leaf_ok r.
Proof. by destruct r. Qed.

(** Every way to make a rule. *)
Inductive Constructed : Rule -> Prop :=
  | C_domain d a : Constructed (new_domain d a)
  | C_suffix s a : Constructed (new_domain_suffix s a)
  | C_keyword k a : Constructed (new_domain_keyword k a)
  | C_regex p a r : new_domain_regex p a = Some r -> Constructed r
  | C_wildcard p a r : new_domain_wildcard p a = Some r -> Constructed r
  | C_geosite p a db : Constructed (new_geosite p a db)
  | C_geoip c a nr p : Constructed (new_geoip c a nr p)
  | C_src_geoip c a p : Constructed (new_src_geoip c a p)
  | C_cidr c a src nr r : new_ip_cidr c a src nr = Some r -> Constructed r
  | C_ip_suffix p a src nr r : new_ip_suffix p a src nr = Some r -> Constructed r
  | C_asn raw a p src nr : Constructed (new_ip_asn raw a p src nr)
  | C_port p a src r : new_port p a src = Some r -> Constructed r
  | C_in_port p a r : new_in_port p a = Some r -> Constructed r
  | C_dscp p a r : new_dscp p a = Some r -> Constructed r
  | C_process n a : Constructed (new_process n a)
  | C_process_path p a r : new_process_path p a = Some r -> Constructed r
  | C_network n a r : new_network n a = Some r -> Constructed r
  | C_uid u a r : new_uid u a = Some r -> Constructed r
  | C_in_name n a : Constructed (new_in_name n a)
  | C_in_type t a r : new_in_type t a = Some r -> Constructed r
  | C_in_user u a : Constructed (new_in_user u a)
  | C_final a : Constructed (new_final a)
  | C_rule_set n p a f : Constructed (new_rule_set n p a f)
  | C_and rs a : (forall r, r ∈ rs -> Constructed r) -> Constructed (new_and rs a)
  | C_or rs a : (forall r, r ∈ rs -> Constructed r) -> Constructed (new_or rs a)
  | C_not r a : Constructed r -> Constructed (new_not r a)
  | C_sub n rs : (forall r, r ∈ rs -> Constructed r) -> Constructed (new_sub_rule n rs).

Lemma in_type_ok t a r : new_in_type t a = Some r -> rule_ok r.
Proof.
  intros H. pose proof H as H'. unfold new_in_type in H.
  repeat case_bool_decide; simplify_eq/=; done.
Qed.

Lemma constructed_ok r : Constructed r -> rule_ok r.
Proof.
  assert (Hbind : forall {A} (o : option A) (f : A -> Rule) r,
    (o ≫= fun x => Some (f x)) = Some r -> exists x, o = Some x /\ r = f x).
  { intros A [x|] f r'; [|done]. intros [= <-]. by exists x. }
  induction 1 as [| | |p a r H|p a r H| | | |c a src nr r H|p a src nr r H| |p a src r H|p a r H|p a r H
    | |p a r H|n a r H|u a r H| |t a r H| | | |rs a _ IH|rs a _ IH|r a _ IH|n rs _ IH]; try done.
  - by apply Hbind in H as (x & ? & ->).
  - by apply Hbind in H as (x & ? & ->).
  - by apply Hbind in H as (x & ? & ->).
  - unfold new_ip_suffix in H. destruct (parse_net p) as [net|] eqn:E; [|done]. cbn [mbind option_bind] in H.
    destruct (suffix_family net) as [f|] eqn:Ef; [|done]. injection H as <-. simpl. by rewrite E.
  - by apply Hbind in H as (x & ? & ->).
  - by apply Hbind in H as (x & ? & ->).
  - unfold new_dscp in H. destruct (parse_u8 (trim p)) as [v|] eqn:E; [|done]. cbn [mbind option_bind] in H.
    destruct (Z.ltb_spec 63 v); [done|]. by injection H as <-.
  - by apply Hbind in H as (x & ? & ->).
  - unfold new_network in H. repeat case_bool_decide; by simplify_eq/=.
  - by apply Hbind in H as (x & ? & ->).
  - by eapply in_type_ok.
  - split; [done|]. by apply all_of_Forall, Forall_forall.
  - split; [done|]. by apply all_of_Forall, Forall_forall.
  - by apply all_of_Forall, Forall_forall.
Qed.

(** Every rule its constructors make has the parsed state of its
    payload, at every depth of nesting. *)
Theorem constructed_rules_ok r : Constructed r -> rule_ok r.
Proof. apply constructed_ok. Qed.

(** ** Rules that can never match *)

(** The shared data a store does not replace: providers may swap their rule
    sets, databases and ranges stay. *)
Definition refreshed (σ σ' : Store) : Prop :=
  (forall p, dbs σ' p = dbs σ p) /\ (forall p, range_sets σ' p = range_sets σ p).

Definition named_store (σ : Store) : Prop := forall p, named_buckets (dbs σ p).

(** Where nothing can name a socket's owner, the owner fields stay empty. *)
Definition owner_fields_ok (m : Metadata) : Prop :=
  process_info_available = false -> process m = [] /\ process_path m = [].

Lemma empty_set_contains s ip : set_is_empty s = true -> set_contains s ip = false.
Proof.
  unfold set_is_empty, intervals_is_empty, set_contains, contains_iv.
  destruct s as [[s4 e4] [s6 e6]]. simpl. destruct s4, s6; try done. by destruct ip.
Qed.

Section Sound.
Variables (σ σ' : Store) (m : Metadata) (probe : TargetProbe).
Hypothesis Hσ : refreshed σ σ'.
Hypothesis Hnamed : named_store σ.
Hypothesis Hm : owner_fields_ok m.

Lemma never_matches_leaf_sound r :
  never_matches_leaf σ r = true -> match_leaf σ' m r = false.
Proof.
  destruct Hσ as [Hdb Hrs].
  destruct r; try done; cbn [never_matches_leaf match_leaf];
    unfold match_geosite, match_geoip, match_src_geoip, match_ip_asn, match_process, match_uid; rewrite ?Hrs.
  - destruct db as [p|]; [|done]. rewrite Hdb. case_bool_decide; [done|]. intros Hk%bool_decide_eq_true.
    case_bool_decide; [done|]. by apply resolve_keys_none.
  - intros H. destruct (dst_ip m); [|done]. by apply empty_set_contains.
  - intros H. destruct (src_ip m); [|done]. by apply empty_set_contains.
  - intros H. destruct (if src then _ else _); [|done]. by apply empty_set_contains.
  - intros [H1%negb_true_iff H2%negb_true_iff%bool_decide_eq_false]%andb_true_iff.
    destruct (Hm H1) as [-> _]. apply not_true_iff_false. intros H%eq_ignore_ascii_case_spec.
    apply H2. symmetry in H. by apply fmap_nil_inv in H.
  - intros H1%negb_true_iff. destruct (Hm H1) as [_ ->]. done.
  - intros ->%negb_true_iff. done.
Qed.

Lemma never_matches_metadata r : never_matches σ r = true -> match_metadata σ' m r = false.
Proof.
  induction r as [r Hl|rs a p IH|rs a p IH|r a p IH|n rs IH] using Rule_nested_ind.
  - intros H. assert (E : match_metadata σ' m r = match_leaf σ' m r) by (by destruct r).
    rewrite E. apply never_matches_leaf_sound. by destruct r.
  - cbn [never_matches match_metadata]. rewrite existsb_exists. intros (r & Hin & Hr).
    apply not_true_iff_false. rewrite forallb_forall. intros H. specialize (H r Hin).
    rewrite Forall_forall in IH. rewrite (IH r) in H; [done|by apply list_elem_of_In|done].
  - cbn [never_matches match_metadata]. rewrite forallb_forall. intros H.
    apply not_true_iff_false. rewrite existsb_exists. intros (r & Hin & Hr).
    rewrite Forall_forall in IH. rewrite (IH r) in Hr; [done|by apply list_elem_of_In|by apply H].
  - done.
  - cbn [never_matches match_metadata]. rewrite forallb_forall. intros H. destruct (_ && _); [done|].
    apply not_true_iff_false. rewrite existsb_exists. intros (r & Hin & Hr).
    rewrite Forall_forall in IH. rewrite (IH r) in Hr; [done|by apply list_elem_of_In|by apply H].
Qed.

Lemma first_target_none targets : Forall (fun t => t = None) targets -> first_target probe targets = None.
Proof. by induction 1 as [|t ts -> _ IH]. Qed.

Lemma never_matches_resolve r : never_matches σ r = true -> match_and_resolve σ' m probe r = None.
Proof.
  induction r as [r Hl|rs a p IH|rs a p IH|r a p IH|n rs IH] using Rule_nested_ind; intros H;
    pose proof (never_matches_metadata _ H) as Hn.
  - assert (E : match_and_resolve σ' m probe r = if match_metadata σ' m r then Some (adapter r) else None)
      by (by destruct r).
    by rewrite E, Hn.
  - unfold match_and_resolve. by rewrite Hn.
  - unfold match_and_resolve. by rewrite Hn.
  - done.
  - cbn [match_and_resolve]. destruct (_ && _); [done|]. apply first_target_none.
    apply Forall_map. cbn [never_matches] in H. rewrite forallb_forall in H.
    rewrite Forall_forall in IH |- *. intros r Hr. apply IH; [done|]. by apply H, list_elem_of_In.
Qed.

(** A rule that reports [never_matches] when the table is built matches
    no connection and resolves to no target later, also after providers were
    refreshed, as long as owner fields the platform cannot fill stay empty. *)
Theorem never_matches_sound r :
  never_matches σ r = true -> match_metadata σ' m r = false /\ match_and_resolve σ' m probe r = None.
Proof. intros H. split; [by apply never_matches_metadata|by apply never_matches_resolve]. Qed.

End Sound.

Lemma resolve_leaf σ m probe r :
  rule_type r <> TSubRule ->
  match_and_resolve σ m probe r = if match_metadata σ m r then Some (adapter r) else None.
Proof. by destruct r. Qed.

(** ** IP-SUFFIX *)

Lemma low_mask_mod width prefix a :
  (0 <= prefix <= width)%Z -> Z.land a (low_mask width prefix) = (a `mod` 2 ^ prefix)%Z.
Proof.
  intros H. rewrite <- Z.land_ones by lia. f_equal. unfold low_mask.
  destruct (Z.eqb_spec prefix 0) as [->|]; [done|].
  destruct (Z.leb_spec width prefix).
  - replace prefix with width by lia. by rewrite Z.ones_equiv.
  - rewrite Z.ones_equiv, Z.shiftl_1_l. lia.
Qed.

(** An IP-SUFFIX payload that parses always makes a rule, and the rule
    matches the addresses of its family that agree with the payload's address
    in the low [prefix_len] bits. *)
Theorem ip_suffix_exact net :
  exists f, suffix_family net = Some f /\
    forall ip, suffix_matches f ip = true <->
      net_v6 net = is_v6 ip /\
      (addr_num ip `mod` 2 ^ prefix_len net = net_addr net `mod` 2 ^ prefix_len net)%Z.
Proof.
  pose proof (prefix_len_bounds net) as Hb. unfold suffix_family.
  destruct (Z.ltb_spec (family_width (net_v6 net)) (prefix_len net)); [lia|].
  eexists. split; [done|]. intros ip.
  destruct (net_v6 net), ip; simpl; rewrite ?low_mask_mod, ?Z.eqb_eq by done; naive_solver.
Qed.

End Rules.

(** ** Witnesses *)

Definition linux : Platform := {| target_os := Linux; inbound_process_info := false |}.
Definition bare : Platform := {| target_os := OtherOs; inbound_process_info := false |}.

Definition empty_store `{RO : RegexOps} : Store :=
  mkStore (fun _ => mkRuleSet BDomain (fun _ => false) 0 false false (fun _ => false))
    (fun _ => Geosite.empty) (fun _ => mkRangeSet (mkIntervals [] []) (mkIntervals [] [])).

Lemma constructed_rules_ok_witness :
  let r := new_and (NL := prefix_net_lib) (RO := toy_regex)
    [new_domain (b! "A.com") (b! "X"); new_in_user (b! "u") (b! "X")] (b! "DIRECT") in
  Constructed r /\ rule_ok r.
Proof.
  set (r := new_and _ _).
  assert (H : Constructed r).
  { apply C_and. intros x Hx. apply elem_of_cons in Hx as [->|Hx]; [apply C_domain|].
    apply elem_of_cons in Hx as [->|Hx]; [apply C_in_user|by apply not_elem_of_nil in Hx]. }
  split; [exact H|]. apply constructed_rules_ok. exact H.
Defined.

Lemma never_matches_sound_witness :
  let r := OrRule (NL := prefix_net_lib) (RO := toy_regex)
    [UidRule 7 (b! "7") (b! "X"); GeoIpRule (b! "ZZ") (b! "X") false 7%N] (b! "X") (b! "7 OR ZZ") in
  never_matches (PF := bare) empty_store r = true /\
  match_metadata (PF := bare) empty_store default_metadata r = false /\
  match_and_resolve (PF := bare) empty_store default_metadata (probe_of (fun _ => true)) r = None.
Proof.
  intros r. split; [reflexivity|].
  apply (never_matches_sound (PF := bare) empty_store empty_store default_metadata);
    [split; reflexivity|intros p k Hk; discriminate Hk|intros _; split; reflexivity|reflexivity].
Defined.

End Rules.
