(* ===== verification/RuleParser.v ===== *)
(** * The rule parser (crates/meow-rules/src/parser.rs)

    One line of text becomes a rule. Logic rules nest in parentheses; their
    inner rules have no target of their own, so a placeholder is spliced in.
    The recursion is on the levels of nesting that are left. *)

From S2P Require Import Prelude Strings Trim Ip IpSet Ports Regex Wildcard Metadata Geosite.
From S2P Require Import Trie TrieSealed DomainTrie Rules.

#[local] Set Warnings "-register-all".

Module RuleParser.
Import IpSet Ports Metadata Rules.

Section RuleParser.
Context `{HO : Sealed.HashOrder, UL : UnicodeLower, UU : UnicodeUpper, RO : RegexOps, KO : Geosite.KeyOrder}.
Context `{NL : IpNetLib, PF : Platform}.

Definition MAX_LOGIC_DEPTH : nat := 64.
Definition MAX_RULE_LINE_LEN : Z := 65536.

Definition comma : ascii := ","%char.
Definition open : ascii := "("%char.
Definition close : ascii := ")"%char.

(** The databases rules are built against: handles of the ranges of a
    country and of an autonomous system, and of the geosite database. *)
Record ParserContext := mkContext {
  geoip : option (bytes -> ptr);
  asn : option (Z -> ptr);
  geosite : option ptr;
}.

Definition empty_context : ParserContext := mkContext None None None.

Inductive LogicOp := And | Or | Not.

Inductive ParseError :=
  | LineTooLong
  | InvalidRule
  | MissingParts
  | InvalidPayload (rule_type : bytes)
  | NoDatabase (rule_type : bytes)
  | NoCategory
  | UnknownType (rule_type : bytes)
  | NestingTooDeep
  | ExpectedOpen
  | Unbalanced
  | ExpectedAdapter
  | MissingAdapter
  | ExpectedGroup (c : ascii)
  | UnbalancedGroup
  | EmptyGroups
  | MatchInGroup
  | MissingPayload
  | RegexComma
  | NotArity (n : nat).

(** ** Fields *)

Definition flag_step (flags : RuleFlags) (flag : bytes) : RuleFlags :=
  if eq_ignore_ascii_case flag (b! "no-resolve") then mkFlags true (is_src_flag flags)
  else if eq_ignore_ascii_case flag (b! "src") then mkFlags (no_resolve_flag flags) true
  else flags.

Definition parse_rule_flags (extra : option bytes) : RuleFlags :=
  let flags := match extra with
    | Some extra => foldl flag_step (mkFlags false false) (map trim (split comma extra))
    | None => mkFlags false false
    end in
  mkFlags (no_resolve_flag flags || is_src_flag flags) (is_src_flag flags).

Definition parse_asn_payload (payload : bytes) : result ParseError Z :=
  ok_or (InvalidPayload (b! "IP-ASN")) (parse_u32 (trim payload)).

Definition split_once_trimmed (s : bytes) (sep : ascii) : option (bytes * bytes) :=
  '(l, r) ← split_once sep s; Some (trim l, trim_start r).

Definition logic_of (upper : bytes) : option LogicOp :=
  if bool_decide (upper = b! "AND") then Some And
  else if bool_decide (upper = b! "OR") then Some Or
  else if bool_decide (upper = b! "NOT") then Some Not
  else None.

(** ** Leaves *)

Section Context_.
Variable ctx : ParserContext.

Definition make (ty : bytes) (r : option Rule) : result ParseError Rule := ok_or (InvalidPayload ty) r.

Definition build_leaf (ty payload adapter : bytes) (extra : option bytes) : result ParseError Rule :=
  let ty_is k := bool_decide (ty = k) in
  if ty_is (b! "DOMAIN") then Ok (new_domain payload adapter)
  else if ty_is (b! "DOMAIN-SUFFIX") then Ok (new_domain_suffix payload adapter)
  else if ty_is (b! "DOMAIN-KEYWORD") then Ok (new_domain_keyword payload adapter)
  else if ty_is (b! "DOMAIN-REGEX") then make ty (new_domain_regex payload adapter)
  else if ty_is (b! "IP-CIDR") || ty_is (b! "IP-CIDR6") then
    let flags := parse_rule_flags extra in
    make ty (new_ip_cidr payload adapter (is_src_flag flags) (no_resolve_flag flags))
  else if ty_is (b! "SRC-IP-CIDR") then make ty (new_ip_cidr payload adapter true true)
  else if ty_is (b! "SRC-PORT") then make ty (new_port payload adapter true)
  else if ty_is (b! "DST-PORT") then make ty (new_port payload adapter false)
  else if ty_is (b! "NETWORK") then make ty (new_network payload adapter)
  else if ty_is (b! "PROCESS-NAME") then Ok (new_process payload adapter)
  else if ty_is (b! "GEOIP") then
    ranges_for ← ok_or (NoDatabase ty) (geoip ctx);
    let flags := parse_rule_flags extra in
    let ranges := ranges_for payload in
    if is_src_flag flags then Ok (new_src_geoip payload adapter ranges)
    else Ok (new_geoip payload adapter (no_resolve_flag flags) ranges)
  else if ty_is (b! "SRC-GEOIP") then
    ranges_for ← ok_or (NoDatabase ty) (geoip ctx);
    Ok (new_src_geoip payload adapter (ranges_for payload))
  else if ty_is (b! "GEOSITE") then
    if bool_decide (trim (default [] (head (split "@"%char payload))) = []) then Err NoCategory
    else Ok (new_geosite payload adapter (geosite ctx))
  else if ty_is (b! "IN-PORT") then make ty (new_in_port payload adapter)
  else if ty_is (b! "IN-NAME") then Ok (new_in_name payload adapter)
  else if ty_is (b! "IN-TYPE") then make ty (new_in_type payload adapter)
  else if ty_is (b! "IN-USER") then Ok (new_in_user payload adapter)
  else if ty_is (b! "DSCP") then make ty (new_dscp payload adapter)
  else if ty_is (b! "UID") then make ty (new_uid payload adapter)
  else if ty_is (b! "PROCESS-PATH") then make ty (new_process_path payload adapter)
  else if ty_is (b! "DOMAIN-WILDCARD") then make ty (new_domain_wildcard payload adapter)
  else if ty_is (b! "IP-SUFFIX") then
    let flags := parse_rule_flags extra in
    make ty (new_ip_suffix payload adapter (is_src_flag flags) (no_resolve_flag flags))
  else if ty_is (b! "SRC-IP-SUFFIX") then make ty (new_ip_suffix payload adapter true true)
  else if ty_is (b! "IP-ASN") then
    ranges_for ← ok_or (NoDatabase ty) (asn ctx);
    n ← parse_asn_payload payload;
    let flags := parse_rule_flags extra in
    Ok (new_ip_asn payload adapter (ranges_for n) (is_src_flag flags) (no_resolve_flag flags))
  else if ty_is (b! "SRC-IP-ASN") then
    ranges_for ← ok_or (NoDatabase ty) (asn ctx);
    n ← parse_asn_payload payload;
    Ok (new_ip_asn payload adapter (ranges_for n) true true)
  else Err (UnknownType ty).

Definition parse_plain (line : bytes) : result ParseError Rule :=
  match splitn 4 comma line with
  | ty :: p1 :: more =>
      let rule_type := trim ty in
      if bool_decide (rule_type = b! "MATCH") then Ok (new_final (trim p1))
      else match more with
      | p2 :: more => build_leaf rule_type (trim p1) (trim p2) (trim <$> head more)
      | [] => Err MissingParts
      end
  | _ => Err InvalidRule
  end.

(** ** Logic rules *)

(** The index of the parenthesis that brings [depth] back to zero. *)
Fixpoint find_close (depth : Z) (s : bytes) : option nat :=
  match s with
  | [] => None
  | c :: s =>
      if decide (c = open) then S <$> find_close (depth + 1) s
      else if decide (c = close) then
        if (depth - 1 =? 0)%Z then Some 0 else S <$> find_close (depth - 1) s
      else S <$> find_close depth s
  end.

Definition is_filler (c : ascii) : bool := bool_decide (c = " "%char) || bool_decide (c = comma).

(** Every group takes two bytes at least, so the length is enough fuel. *)
Fixpoint split_logic_groups_fuel (fuel : nat) (s : bytes) : result ParseError (list bytes) :=
  match fuel with
  | 0 => Ok []
  | S fuel =>
      match drop_while is_filler s with
      | [] => Ok []
      | c :: rest =>
          if bool_decide (c = open) then
            stop ← ok_or UnbalancedGroup (find_close 1 rest);
            groups ← split_logic_groups_fuel fuel (drop (S stop) rest);
            Ok (take stop rest :: groups)
          else Err (ExpectedGroup c)
      end
  end.

Definition split_logic_groups (inner : bytes) : result ParseError (list bytes) :=
  split_logic_groups_fuel (S (length inner)) inner.

Definition splice_adapter (placeholder entry : bytes) : bytes :=
  if (if split_once comma entry is Some (ty, _) then bool_decide (is_Some (logic_of (to_ascii_uppercase (trim ty))))
      else false)
  then entry ++ [comma] ++ placeholder
  else match splitn 3 comma entry with
  | [ty; payload] => trim ty ++ [comma] ++ trim payload ++ [comma] ++ placeholder
  | [ty; payload; rest] =>
      trim ty ++ [comma] ++ trim payload ++ [comma] ++ placeholder ++ [comma] ++ trim rest
  | _ => entry
  end.

Definition INNER_PLACEHOLDER : bytes := b! "LOGIC-INNER-PLACEHOLDER".
Definition splice_inner_adapter : bytes -> bytes := splice_adapter INNER_PLACEHOLDER.

(** What an entry without a target must look like. *)
Definition check_entry (g : bytes) : result ParseError unit :=
  let fields := splitn 3 comma g in
  let first := trim (default [] (fields !! 0)) in
  if bool_decide (first = b! "MATCH") then Err MatchInGroup
  else if bool_decide (trim (default [] (fields !! 1)) = []) then Err MissingPayload
  else if bool_decide (first = b! "DOMAIN-REGEX") && bool_decide (is_Some (fields !! 2)) then Err RegexComma
  else Ok tt.

Section Logic.
Variable parse_inner : bytes -> result ParseError Rule.

Definition parse_group (g : bytes) : result ParseError Rule :=
  _ ← check_entry g; parse_inner (splice_inner_adapter (trim g)).

Definition parse_logic_rule (op : LogicOp) (rest : bytes) : result ParseError Rule :=
  let rest := trim_start rest in
  if negb (starts_with [open] rest) then Err ExpectedOpen
  else
    stop ← ok_or Unbalanced (find_close 0 rest);
    let inner := take (stop - 1) (drop 1 rest) in
    let tail := trim_start (drop (S stop) rest) in
    target ← ok_or ExpectedAdapter (strip_prefix [comma] tail);
    let adapter := trim (default [] (last (split comma target))) in
    if bool_decide (adapter = []) then Err MissingAdapter
    else
      groups ← split_logic_groups inner;
      if bool_decide (groups = []) then Err EmptyGroups
      else
        inner_rules ← try_map parse_group groups;
        match op with
        | And => Ok (new_and inner_rules adapter)
        | Or => Ok (new_or inner_rules adapter)
        | Not => match inner_rules with [rule] => Ok (new_not rule adapter) | _ => Err (NotArity (length inner_rules)) end
        end.
End Logic.

(** [remaining] is [MAX_LOGIC_DEPTH - logic_depth]. *)
Fixpoint parse_rule_depth (remaining : nat) (line : bytes) : result ParseError Rule :=
  if (MAX_RULE_LINE_LEN <? Z.of_nat (length line))%Z then Err LineTooLong
  else match ('(ty, rest) ← split_once_trimmed line comma; op ← logic_of (to_ascii_uppercase ty); Some (op, rest)) with
  | Some (op, rest) =>
      match remaining with
      | 0 => Err NestingTooDeep
      | S remaining => parse_logic_rule (parse_rule_depth remaining) op rest
      end
  | None => parse_plain line
  end.

Definition parse_rule (line : bytes) : result ParseError Rule := parse_rule_depth MAX_LOGIC_DEPTH line.

End Context_.
End RuleParser.
End RuleParser.
