(* ===== verification/RuleGrammar.v ===== *)
(** * What the rule parser accepts (crates/meow-rules/src/parser.rs)

    Soundness: every rule the parser returns was made by the constructors,
    nests at most [MAX_LOGIC_DEPTH] logic rules, and has no MATCH below a
    logic rule. Completeness: the printed form of a rule parses back to what
    it denotes. *)

From S2P Require Import Prelude Strings Trim Ip IpSet Ports Regex Wildcard Metadata Geosite.
From S2P Require Import Trie TrieSealed DomainTrie Rules RuleParser.

#[local] Set Warnings "-register-all".

Module RuleGrammar.
Import IpSet Ports Metadata Rules RuleParser.

Lemma comma_not_space a : spaces a -> comma ∉ a.
Proof.
  intros Ha. apply (spaces_not _ _ Ha). apply white_space_cases. repeat constructor; by apply contains_byte_false.
Qed.

(** White space around an entry does not change its first field. *)
Lemma first_field_trim n g :
  2 <= n -> trim (default [] (splitn n comma (trim g) !! 0)) = trim (default [] (splitn n comma g !! 0)).
Proof.
  intros Hn. destruct (trim_spec g) as (a & b & Ha & Hb & E). set (t := trim g) in *.
  destruct (split_once comma t) as [[f u]|] eqn:Et.
  - apply split_once_Some in Et as [Et Hf]. rewrite E, Et.
    replace (a ++ (f ++ comma :: u) ++ b) with ((a ++ f) ++ comma :: u ++ b) by (by rewrite <- !app_assoc).
    rewrite !splitn_sep; [|done|apply not_elem_of_app; auto using comma_not_space|done|done]. simpl.
    rewrite <- (app_nil_r (a ++ f)), <- app_assoc, trim_spaces by (done || apply spaces_nil). done.
  - apply split_once_None in Et. rewrite E, !splitn_none; [simpl|lia| |lia|done].
    + by rewrite trim_spaces.
    + rewrite !not_elem_of_app. auto using comma_not_space.
Qed.

(** ** Lines that end in a target *)

Section Target.
Variable target : bytes.
Hypothesis target_plain : comma ∉ target /\ close ∉ target.
Hypothesis target_trim : trim target = target.

Definition targeted (s : bytes) : Prop := exists y, s = y ++ comma :: target.

Lemma targeted_app x s : targeted s -> targeted (x ++ s).
Proof. intros [y ->]. exists (x ++ y). by rewrite <- app_assoc. Qed.

Lemma targeted_trim_start s : targeted s -> targeted (trim_start s).
Proof.
  intros [y E]. destruct (trim_start_spec s) as (_ & a & Ha & Es). rewrite E in Es at 1.
  apply app_eq_app in Es as (k & [[-> E']|[-> E']]).
  - by exists k.
  - destruct k as [|c k]; [simpl in E'; exists []; by rewrite <- E'|].
    injection E' as <- _. exfalso. apply (comma_not_space _ Ha). apply elem_of_app. right. left.
Qed.

Lemma find_close_spec depth s i : find_close depth s = Some i -> s !! i = Some close.
Proof.
  revert depth i. induction s as [|c s IH]; intros depth i; simpl; [done|].
  repeat case_decide; subst.
  - intros (j & Hj & ->)%fmap_Some. by apply IH in Hj.
  - destruct (_ =? 0)%Z; [by intros [= <-]|]. intros (j & Hj & ->)%fmap_Some. by apply IH in Hj.
  - intros (j & Hj & ->)%fmap_Some. by apply IH in Hj.
Qed.

Lemma targeted_after_close s depth i :
  targeted s -> find_close depth s = Some i -> targeted (drop (S i) s).
Proof.
  intros [y ->] H%find_close_spec. apply lookup_app_Some in H as [H|[_ H]].
  - apply lookup_lt_Some in H. rewrite drop_app_le by lia. by eexists.
  - exfalso. apply list_elem_of_lookup_2 in H. apply elem_of_cons in H as [H|H]; [done|]. by apply target_plain.
Qed.

Lemma targeted_last s t :
  targeted s -> strip_prefix [comma] s = Some t -> trim (default [] (last (split comma t))) = target.
Proof.
  intros [y ->] H%strip_prefix_Some. destruct y as [|c y]; simpl in H; simplify_eq.
  - by rewrite split_no_sep by apply target_plain.
  - rewrite split_app_sep, (split_no_sep comma target) by apply target_plain. by rewrite last_snoc.
Qed.

End Target.

(** ** Text without white space at its ends *)

Definition trimmed (s : bytes) : Prop :=
  strip_any white_space s = None /\ strip_any rev_space (reverse s) = None.

Lemma trimmed_trim s : trimmed s <-> trim s = s.
Proof.
  split.
  - intros [H1 H2]. rewrite <- (app_nil_r s) at 1. change (s ++ []) with ([] ++ s ++ []).
    unfold trim. rewrite (app_nil_r s). rewrite (trim_start_unique [] s spaces_nil H1).
    rewrite <- (app_nil_r s) at 1. by apply trim_end_unique; [apply spaces_nil|].
  - intros E. pose proof (trim_start_trim s E) as Es. split.
    + rewrite <- Es. apply trim_start_spec.
    + unfold trim in E. rewrite Es in E. rewrite <- E. apply trim_end_spec.
Qed.

(** A byte of no white space cuts its encodings. *)
Lemma strip_any_cut ps c r s :
  (forall p s, p ∈ ps -> strip_any ps (p ++ s) = Some s) -> (forall p, p ∈ ps -> p <> [] /\ c ∉ p) ->
  strip_any ps r = None -> strip_any ps (r ++ c :: s) = None.
Proof.
  intros Hfree Hc Hn. apply strip_any_None; [done|]. intros p x Hp E. rewrite (strip_any_None _ Hfree) in Hn.
  apply app_eq_app in E as (k & [[-> E]|[-> E]]); [by apply (Hn p k Hp)|].
  destruct k as [|d k].
  - rewrite app_nil_r in Hp. apply (Hn r [] Hp). by rewrite app_nil_r.
  - injection E as <- _. apply (Hc _ Hp). apply elem_of_app. right. left.
Qed.

Lemma comma_no_white p : p ∈ white_space -> p <> [] /\ comma ∉ p.
Proof.
  revert p. apply white_space_cases. repeat constructor; try done; by apply contains_byte_false.
Qed.

Lemma trimmed_comma a b : trimmed a -> trimmed b -> trimmed (a ++ comma :: b).
Proof.
  intros [Ha1 Ha2] [Hb1 Hb2]. split.
  - apply strip_any_cut; [apply white_free|apply comma_no_white|done].
  - rewrite reverse_app, reverse_cons, <- app_assoc. apply strip_any_cut; [apply rev_white_free| |done].
    intros p Hp. split; [by apply rev_white_ne|]. apply list_elem_of_fmap in Hp as (q & -> & Hq).
    rewrite elem_of_reverse. by apply comma_no_white.
Qed.

Lemma trimmed_paren s : trimmed (open :: s ++ [close]).
Proof.
  split; [by apply strip_any_ascii|]. rewrite app_comm_cons, reverse_snoc. by apply strip_any_ascii_rev.
Qed.

Section Sound.
Context `{HO : Sealed.HashOrder, UL : UnicodeLower, UU : UnicodeUpper, RO : RegexOps, KO : Geosite.KeyOrder}.
Context `{NL : IpNetLib, PF : Platform}.
Variable ctx : ParserContext.

(** ** Leaves *)

(** A rule with its own predicate, other than MATCH. *)
Definition proper_leaf (r : Rule) : Prop :=
  is_leaf r = true /\ rule_type r <> TMatch /\ rule_type r <> TRuleSet.

Lemma make_Ok ty o r : make ty o = Ok r <-> o = Some r.
Proof. apply ok_or_Ok. Qed.

(** Constructors that can fail keep their target. *)
Lemma bind_rule {A} (o : option A) (f : A -> Rule) r :
  (o ≫= fun x => Some (f x)) = Some r -> exists x, r = f x.
Proof. destruct o as [x|]; [|done]. intros [= <-]. by exists x. Qed.

Ltac solve_leaf := unfold proper_leaf; split_and!; first [done|simpl; by case_match].

Ltac made_leaf H :=
  first [ apply bind_rule in H as [? ->]
        | unfold new_ip_suffix, new_dscp, new_network, new_in_type in H;
          repeat (apply bind_Some in H as (? & _ & H));
          repeat case_bool_decide; repeat case_match; simplify_eq ]; solve_leaf.

Lemma build_leaf_sound ty p a e r :
  build_leaf ctx ty p a e = Ok r -> Constructed r /\ proper_leaf r /\ adapter r = a.
Proof.
  unfold build_leaf. intros H.
  repeat match type of H with (if ?b then _ else _) = _ => destruct b end;
    repeat match type of H with
    | _ ≫= _ = Ok _ => let x := fresh "x" in apply bind_Ok in H as (x & _ & H)
    end;
    repeat match type of H with (if ?b then _ else _) = _ => destruct b end;
    try discriminate H;
    try (injection H as <-; split; [once constructor|solve_leaf]);
    apply make_Ok in H; (split;
      [first [by eapply C_regex|by eapply C_cidr|by eapply C_port|by eapply C_network|by eapply C_in_port
             |by eapply C_in_type|by eapply C_dscp|by eapply C_uid|by eapply C_process_path
             |by eapply C_wildcard|by eapply C_ip_suffix]|made_leaf H]).
Qed.

(** ** Entries of a group *)

Lemma inner_plain : comma ∉ INNER_PLACEHOLDER /\ close ∉ INNER_PLACEHOLDER.
Proof. split; by apply contains_byte_false. Qed.

Lemma trim_no_comma w : comma ∉ w -> comma ∉ trim w.
Proof. intros H Hin%trim_incl. done. Qed.

Definition logic_head (line : bytes) : option (LogicOp * bytes) :=
  '(ty, rest) ← split_once_trimmed line comma; op ← logic_of (to_ascii_uppercase ty); Some (op, rest).

Lemma logic_head_sep ty rest :
  comma ∉ ty ->
  logic_head (ty ++ comma :: rest) = op ← logic_of (to_ascii_uppercase (trim ty)); Some (op, trim_start rest).
Proof.
  intros Hty. unfold logic_head, split_once_trimmed.
  by rewrite (proj2 (split_once_Some comma _ ty rest)).
Qed.

Lemma logic_head_Some line op rest :
  logic_head line = Some (op, rest) <->
  exists ty r, line = ty ++ comma :: r /\ comma ∉ ty /\ rest = trim_start r /\
    logic_of (to_ascii_uppercase (trim ty)) = Some op.
Proof.
  split.
  - intros H. destruct (split_once comma line) as [[ty r]|] eqn:E.
    + apply split_once_Some in E as [-> Hty]. rewrite logic_head_sep in H by done.
      destruct (logic_of _) eqn:E; simplify_eq/=. eauto 10.
    + unfold logic_head, split_once_trimmed in H. by rewrite E in H.
  - intros (ty & r & -> & Hty & -> & E). rewrite logic_head_sep by done. by rewrite E.
Qed.

(** A spliced entry is a logic line with the placeholder as its target, or a
    plain line with the placeholder as its third field. *)
Lemma splice_adapter_spec ph entry :
  2 <= length (splitn 3 comma entry) ->
  (exists op, (fst <$> logic_head entry) = Some op /\ splice_adapter ph entry = entry ++ comma :: ph /\
    (fst <$> logic_head (splice_adapter ph entry)) = Some op) \/
  (logic_head (splice_adapter ph entry) = None /\ exists ty p more,
    splitn 3 comma entry = ty :: p :: more /\ comma ∉ ty /\ comma ∉ p /\
    splice_adapter ph entry =
      trim ty ++ comma :: trim p ++ comma :: ph ++ match more with r :: _ => comma :: trim r | [] => [] end).
Proof.
  intros Hl. destruct (split_once comma entry) as [[ty r]|] eqn:E.
  2:{ apply split_once_None in E. rewrite splitn_none in Hl by (lia || done). simpl in Hl. lia. }
  pose proof E as E'. apply split_once_Some in E' as [-> Hty].
  unfold splice_adapter. rewrite E. rewrite !logic_head_sep by done.
  destruct (logic_of (to_ascii_uppercase (trim ty))) as [op|] eqn:Eop.
  - left. exists op. rewrite bool_decide_eq_true_2 by done. split_and!; [done|done|].
    rewrite <- app_assoc. simpl. rewrite logic_head_sep by done. by rewrite Eop.
  - right. rewrite bool_decide_eq_false_2 by (by intros [? ?]).
    rewrite splitn_sep by (lia || done). cbn [Nat.sub].
    assert (Hnone : forall rest, logic_head (trim ty ++ comma :: rest) = None).
    { intros rest. rewrite logic_head_sep by (by apply trim_no_comma). by rewrite trim_idemp, Eop. }
    destruct (split_once comma r) as [[p r']|] eqn:Er.
    + apply split_once_Some in Er as [-> Hp]. rewrite splitn_sep by (lia || done). cbn [Nat.sub splitn].
      split; [apply Hnone|]. exists ty, p, [r']. split_and!; try done.
    + apply split_once_None in Er. rewrite splitn_none by (lia || done).
      split; [apply Hnone|]. exists ty, r, []. split_and!; try done. by rewrite app_nil_r.
Qed.

(** ** Logic rules *)

Fixpoint logic_height (r : Rule) : nat :=
  match r with
  | AndRule rules _ _ | OrRule rules _ _ => S (list_max (map logic_height rules))
  | NotRule rule _ _ => S (logic_height rule)
  | _ => 0
  end.

(** What may stand below a logic rule: rules with the placeholder as their
    target, none of which is MATCH, RULE-SET or SUB-RULE. *)
Fixpoint nested_ok (r : Rule) : Prop :=
  let inner r := adapter r = INNER_PLACEHOLDER /\ rule_type r <> TMatch /\ rule_type r <> TRuleSet /\
    rule_type r <> TSubRule /\ nested_ok r in
  match r with
  | AndRule rules _ _ | OrRule rules _ _ => all_of inner rules
  | NotRule rule _ _ => inner rule
  | _ => True
  end.

Definition inner_ok (r : Rule) : Prop :=
  adapter r = INNER_PLACEHOLDER /\ rule_type r <> TMatch /\ rule_type r <> TRuleSet /\
    rule_type r <> TSubRule /\ nested_ok r.

Lemma list_max_bound {A} (f : A -> nat) l n : Forall (fun x => f x <= n) l -> list_max (map f l) <= n.
Proof. intros H. apply list_max_le. by apply Forall_map. Qed.

Lemma parse_depth_cases n line r :
  parse_rule_depth ctx n line = Ok r ->
  (logic_head line = None /\ parse_plain ctx line = Ok r) \/
  (exists op rest m, logic_head line = Some (op, rest) /\ n = S m /\
    parse_logic_rule (parse_rule_depth ctx m) op rest = Ok r).
Proof.
  intros H. destruct n as [|n]; cbn [parse_rule_depth] in H; destruct (_ <? _)%Z; try done;
    fold (logic_head line) in H; destruct (logic_head line) as [[op rest]|]; try done; [by left| |by left].
  right. by exists op, rest, n.
Qed.

Definition logic_rule (op : LogicOp) (rules : list Rule) (adapter : bytes) (r : Rule) : Prop :=
  match op with
  | And => r = new_and rules adapter
  | Or => r = new_or rules adapter
  | Not => exists rule, rules = [rule] /\ r = new_not rule adapter
  end.

Lemma parse_logic_cases pi op rest r :
  parse_logic_rule pi op rest = Ok r ->
  exists groups rules adapter, Forall2 (fun g r => parse_group pi g = Ok r) groups rules /\
    logic_rule op rules adapter r /\
    (forall target, comma ∉ target /\ close ∉ target -> trim target = target ->
      targeted target rest -> adapter = target).
Proof.
  unfold parse_logic_rule. destruct (starts_with _ _); [|done]. cbn [negb]. intros H.
  apply bind_Ok in H as (stop & Hstop%ok_or_Ok & H).
  apply bind_Ok in H as (target & Htarget%ok_or_Ok & H). case_bool_decide; [done|].
  apply bind_Ok in H as (groups & _ & H). case_bool_decide; [done|].
  apply bind_Ok in H as (rules & Hrules%try_map_Ok & H).
  exists groups, rules. eexists. split; [exact Hrules|]. split.
  - destruct op; [by injection H as <-|by injection H as <-|]. destruct rules as [|rule [|? ?]]; try done.
    injection H as <-. by exists rule.
  - intros t Ht Htrim Hr. eapply targeted_last; [done|done| |exact Htarget].
    apply targeted_trim_start. eapply targeted_after_close; [done| |exact Hstop]. by apply targeted_trim_start.
Qed.

Lemma logic_rule_type op rules a r :
  logic_rule op rules a r -> adapter r = a /\ rule_type r <> TMatch /\ rule_type r <> TRuleSet /\ rule_type r <> TSubRule.
Proof. destruct op; simpl; [by intros ->|by intros ->|]. by intros (? & -> & ->). Qed.

Lemma parse_plain_sound line r :
  parse_plain ctx line = Ok r ->
  Constructed r /\ is_leaf r = true /\
  (rule_type r = TMatch -> trim (default [] (splitn 4 comma line !! 0)) = b! "MATCH") /\
  rule_type r <> TRuleSet /\
  (rule_type r = TMatch \/ adapter r = trim (default [] (splitn 4 comma line !! 2))).
Proof.
  unfold parse_plain. destruct (splitn 4 comma line) as [|ty [|p1 more]]; [done..|].
  case_bool_decide as Hm.
  { intros [= <-]. split; [constructor|]. split_and!; try done. by left. }
  destruct more as [|p2 more]; [done|]. intros (Hc & (Hl & Ht & Hs) & Ha)%build_leaf_sound.
  split_and!; try done. by right.
Qed.

Lemma leaf_not_sub r : is_leaf r = true -> rule_type r <> TSubRule.
Proof. destruct r; try done; simpl; intros _; by case_match. Qed.

(** An entry of a group never becomes MATCH, and its target is the
    placeholder. *)
Lemma parse_group_inner n g r :
  parse_group (parse_rule_depth ctx n) g = Ok r -> nested_ok r -> inner_ok r.
Proof.
  unfold parse_group. intros (u & Hcheck & H)%bind_Ok Hn. unfold check_entry in Hcheck.
  case_bool_decide as Hfirst; [done|]. case_bool_decide as Hsecond; [done|].
  assert (Hlen : 2 <= length (splitn 3 comma (trim g))).
  { destruct (split_once comma (trim g)) as [[f x]|] eqn:E.
    - apply split_once_Some in E as [E Hf]. rewrite E, splitn_sep by (lia || done). cbn [Nat.sub].
      destruct (split_once comma x) as [[y z]|] eqn:Ex; cbn [splitn]; rewrite Ex; simpl; lia.
    - exfalso. apply split_once_None in E. apply Hsecond.
      destruct (trim_spec g) as (a & b & Ha & Hb & Eg). rewrite splitn_none; [done|lia|].
      rewrite Eg, !not_elem_of_app. auto using comma_not_space. }
  rewrite <- first_field_trim in Hfirst by lia.
  unfold splice_inner_adapter in H. unfold inner_ok.
  destruct (splice_adapter_spec INNER_PLACEHOLDER (trim g) Hlen)
    as [(op & Hop & Es & Hop')|(Hnone & ty & p & more & E & Hty & Hp & Es)].
  - apply parse_depth_cases in H as [[H _]|(op' & rest & m & Hh & _ & H)]; [by rewrite H in Hop'|].
    apply parse_logic_cases in H as (groups & rules & a & _ & Hr & Ha).
    destruct (logic_rule_type _ _ _ _ Hr) as (-> & ? & ? & ?). split_and!; try done.
    apply Ha; [apply inner_plain|done|]. apply logic_head_Some in Hh as (ty & x & E & Hty & -> & _).
    rewrite Es in E. apply targeted_trim_start. destruct (split_once comma (trim g)) as [[f y]|] eqn:Eg.
    2:{ unfold logic_head, split_once_trimmed in Hop. by rewrite Eg in Hop. }
    apply split_once_Some in Eg as [Eg Hf]. rewrite Eg, <- app_assoc in E. simpl in E.
    assert (Hs : split_once comma (f ++ comma :: y ++ comma :: INNER_PLACEHOLDER) = Some (f, y ++ comma :: INNER_PLACEHOLDER))
      by (by apply split_once_Some).
    rewrite E, (proj2 (split_once_Some comma _ ty x) (conj eq_refl Hty)) in Hs. injection Hs as -> ->. by eexists.
  - apply parse_depth_cases in H as [[_ H]|(op' & rest & m & Hh & _)]; [|by rewrite Hnone in Hh].
    apply parse_plain_sound in H as (_ & Hl & Hm & Hs & Ha). rewrite Es in Hm, Ha. rewrite E in Hfirst.
    rewrite splitn_sep in Hm, Ha by (lia || by apply trim_no_comma). cbn [Nat.sub] in Ha.
    rewrite splitn_sep in Ha by (lia || by apply trim_no_comma). cbn [Nat.sub] in Ha.
    assert (Hm' : rule_type r <> TMatch).
    { intros Hm'. apply Hfirst. specialize (Hm Hm'). simpl in Hm |- *. by rewrite trim_idemp in Hm. }
    destruct Ha as [|Ha]; [done|]. split_and!; try done; [|by apply leaf_not_sub].
    rewrite Ha. destruct more as [|x more]; [rewrite app_nil_r|].
    + rewrite splitn_none by (lia || apply inner_plain). done.
    + rewrite splitn_sep by (lia || apply inner_plain). done.
Qed.

Lemma parse_depth_sound n line r :
  parse_rule_depth ctx n line = Ok r -> Constructed r /\ logic_height r <= n /\ nested_ok r.
Proof.
  revert line r. induction n as [|n IH]; intros line r H;
    apply parse_depth_cases in H as [[_ H]|(op & rest & m & Hh & Hm & H)]; try done;
    try (apply parse_plain_sound in H as (Hc & Hl & _); split_and!; [done| |]; destruct r; simpl; done || lia).
  injection Hm as <-. apply parse_logic_cases in H as (groups & rules & a & Hg & Hr & _).
  assert (Hall : Forall (fun r => (Constructed r /\ logic_height r <= n) /\ inner_ok r) rules).
  { clear Hr. induction Hg as [|g r' groups rules Hg _ IHg]; constructor; [|done].
    pose proof Hg as Hg'. apply bind_Ok in Hg' as (u & _ & (Hc & Hh' & Hn)%IH).
    split; [done|]. by eapply parse_group_inner. }
  apply Forall_and in Hall as [[Hc Hh']%Forall_and Hi].
  destruct op; simpl in Hr.
  - subst r. split_and!; [|simpl; by apply le_n_S, list_max_bound|by apply all_of_Forall].
    apply C_and. by apply Forall_forall.
  - subst r. split_and!; [|simpl; by apply le_n_S, list_max_bound|by apply all_of_Forall].
    apply C_or. by apply Forall_forall.
  - destruct Hr as (rule & -> & ->). rewrite Forall_singleton in Hc, Hh', Hi.
    split_and!; [by apply C_not|simpl; lia|done].
Qed.

(** A line the parser accepts is at most [MAX_RULE_LINE_LEN] bytes long,
    and its rule holds the parsed state of its payloads, nests at most
    [MAX_LOGIC_DEPTH] logic rules, and below a logic rule has only rules with
    the placeholder target, none of them MATCH, RULE-SET or SUB-RULE. *)
Theorem parsed_rules_safe line r :
  parse_rule ctx line = Ok r ->
  (Z.of_nat (length line) <= MAX_RULE_LINE_LEN)%Z /\
  rule_ok r /\ logic_height r <= MAX_LOGIC_DEPTH /\ nested_ok r.
Proof.
  intros H. split.
  - unfold parse_rule, MAX_LOGIC_DEPTH in H. cbn [parse_rule_depth] in H.
    destruct (Z.ltb_spec MAX_RULE_LINE_LEN (Z.of_nat (length line))); [done|lia].
  - apply parse_depth_sound in H as (Hc & Hh & Hn). split; [by apply constructed_ok|done].
Qed.

(** ** Rules as text

    Rule lines as trees: the line a tree is written as, and the rule it stands
    for. The program itself only reads such lines. *)

Inductive Syn :=
  | SLeaf (ty payload : bytes) (extra : option bytes)
  | SLogic (op : LogicOp) (children : list Syn).

Definition op_name (op : LogicOp) : bytes :=
  match op with And => b! "AND" | Or => b! "OR" | Not => b! "NOT" end.

Definition extra_field (extra : option bytes) : bytes :=
  match extra with Some e => comma :: e | None => [] end.

Fixpoint groups_text (groups : list bytes) : bytes :=
  match groups with
  | [] => []
  | [g] => open :: g ++ [close]
  | g :: groups => open :: g ++ [close] ++ comma :: groups_text groups
  end.

Fixpoint print_entry (s : Syn) : bytes :=
  match s with
  | SLeaf ty payload extra => ty ++ comma :: payload ++ extra_field extra
  | SLogic op children => op_name op ++ comma :: open :: groups_text (map print_entry children) ++ [close]
  end.

Definition print_rule (target : bytes) (s : Syn) : bytes :=
  match s with
  | SLeaf ty payload extra => ty ++ comma :: payload ++ comma :: target ++ extra_field extra
  | SLogic _ _ => print_entry s ++ comma :: target
  end.

Fixpoint denote (target : bytes) (s : Syn) : result ParseError Rule :=
  match s with
  | SLeaf ty payload extra => build_leaf ctx ty payload target extra
  | SLogic op children =>
      rules ← try_map (denote INNER_PLACEHOLDER) children;
      match op with
      | And => Ok (new_and rules target)
      | Or => Ok (new_or rules target)
      | Not => match rules with [rule] => Ok (new_not rule target) | _ => Err (NotArity (length rules)) end
      end
  end.

Fixpoint syn_height (s : Syn) : nat :=
  match s with SLeaf _ _ _ => 0 | SLogic _ children => S (list_max (map syn_height children)) end.

(** The parentheses of [s] pair up. *)
Fixpoint pairs (depth : Z) (s : bytes) : option Z :=
  match s with
  | [] => Some depth
  | c :: s =>
      if decide (c = open) then pairs (depth + 1) s
      else if decide (c = close) then if (depth <=? 0)%Z then None else pairs (depth - 1) s
      else pairs depth s
  end.

Definition paired (s : bytes) : bool := bool_decide (pairs 0 s = Some 0%Z).

Definition leaf_wf (ty payload : bytes) (extra : option bytes) : bool :=
  bool_decide (trim ty = ty) && negb (contains_byte comma ty) && paired ty &&
  negb (bool_decide (ty = b! "MATCH")) && bool_decide (logic_of (to_ascii_uppercase ty) = None) &&
  bool_decide (trim payload = payload) && negb (contains_byte comma payload) && paired payload &&
  negb (bool_decide (payload = [])) &&
  match extra with
  | Some e => bool_decide (trim e = e) && paired e && negb (bool_decide (ty = b! "DOMAIN-REGEX"))
  | None => true
  end.

Fixpoint syn_wf (s : Syn) : bool :=
  match s with
  | SLeaf ty payload extra => leaf_wf ty payload extra
  | SLogic _ children => negb (bool_decide (children = [])) && forallb syn_wf children
  end.

Definition target_wf (target : bytes) : bool :=
  bool_decide (trim target = target) && negb (contains_byte comma target) && negb (bool_decide (target = [])).

(** *** Pairs of parentheses *)

Lemma pairs_shift d k s d' : (0 <= k)%Z -> pairs d s = Some d' -> pairs (d + k) s = Some (d' + k)%Z.
Proof.
  revert d. induction s as [|c s IH]; intros d Hk; simpl; [congruence|].
  repeat case_decide.
  - intros Hp%IH; [|done]. by replace (d + k + 1)%Z with (d + 1 + k)%Z by lia.
  - destruct (Z.leb_spec d 0); [done|]. destruct (Z.leb_spec (d + k) 0); [lia|].
    intros Hp%IH; [|done]. by replace (d + k - 1)%Z with (d - 1 + k)%Z by lia.
  - by apply IH.
Qed.

Lemma pairs_app d s t : pairs d (s ++ t) = d' ← pairs d s; pairs d' t.
Proof.
  revert d. induction s as [|c s IH]; intros d; simpl; [done|].
  repeat case_decide; try done. by destruct (_ <=? _)%Z.
Qed.

Lemma paired_app s t : paired s = true -> paired t = true -> paired (s ++ t) = true.
Proof. unfold paired. rewrite !bool_decide_eq_true. intros Hs Ht. by rewrite pairs_app, Hs. Qed.

Lemma paired_cons c s : c <> open -> c <> close -> paired (c :: s) = paired s.
Proof. intros Ho Hc. unfold paired. simpl. by rewrite !decide_False. Qed.

Lemma paired_wrap s : paired s = true -> paired (open :: s ++ [close]) = true.
Proof.
  unfold paired. rewrite !bool_decide_eq_true. intros H. simpl. rewrite pairs_app.
  by rewrite (pairs_shift 0 1 s 0).
Qed.

Lemma find_close_paired d s rest :
  (0 < d)%Z -> paired s = true -> find_close d (s ++ close :: rest) =
  if (d =? 1)%Z then Some (length s) else (fun i => length s + S i) <$> find_close (d - 1) rest.
Proof.
  unfold paired. rewrite bool_decide_eq_true. intros Hd Hs.
  assert (H : forall e d' s rest, (0 < d)%Z -> pairs e s = Some d' -> (0 <= e)%Z ->
    find_close (d + e) (s ++ rest) = (fun i => length s + i) <$> find_close (d + d') rest).
  { clear. intros e d' s rest Hd. revert e. induction s as [|c s IH]; intros e H He; simpl in *.
    { simplify_eq. by destruct (find_close _ rest). }
    repeat case_decide.
    - rewrite <- Z.add_assoc, IH by (done || lia). by destruct (find_close _ rest).
    - destruct (Z.leb_spec e 0); [done|]. destruct (Z.eqb_spec (d + e - 1) 0); [lia|].
      replace (d + e - 1)%Z with (d + (e - 1))%Z by lia. rewrite IH by (done || lia). by destruct (find_close _ rest).
    - rewrite IH by (done || lia). by destruct (find_close _ rest). }
  replace d with (d + 0)%Z at 1 by lia. rewrite (H 0%Z 0%Z) by (done || lia). rewrite Z.add_0_r. simpl.
  destruct (Z.eqb_spec d 1) as [->|Hne].
  - simpl. by rewrite Nat.add_0_r.
  - destruct (Z.eqb_spec (d - 1) 0); [lia|]. by destruct (find_close _ rest).
Qed.

(** *** Groups *)

Lemma paired_groups gs : Forall (fun g => paired g = true) gs -> paired (groups_text gs) = true.
Proof.
  induction gs as [|g gs IH]; intros H; [done|]. apply Forall_cons in H as [Hg Hgs].
  destruct gs as [|g' gs]; [by apply paired_wrap|].
  change (groups_text (g :: g' :: gs)) with (open :: g ++ [close] ++ comma :: groups_text (g' :: gs)).
  rewrite app_assoc, app_comm_cons. apply paired_app; [by apply paired_wrap|].
  rewrite paired_cons by done. by apply IH.
Qed.

Lemma split_groups gs fuel :
  Forall (fun g => paired g = true) gs -> length gs < fuel ->
  split_logic_groups_fuel fuel (groups_text gs) = Ok gs /\
  split_logic_groups_fuel fuel (comma :: groups_text gs) = Ok gs.
Proof.
  intros H. revert fuel. induction H as [|g gs Hg Hgs IH]; intros fuel Hf; (destruct fuel as [|fuel]; [simpl in Hf; lia|]).
  { done. }
  assert (E : exists rest, groups_text (g :: gs) = open :: g ++ close :: rest /\
    split_logic_groups_fuel fuel rest = Ok gs).
  { simpl in Hf. destruct gs as [|g' gs].
    - exists []. split; [done|]. by destruct fuel.
    - exists (comma :: groups_text (g' :: gs)). split; [done|]. apply IH. lia. }
  destruct E as (rest & E & Hrest).
  assert (Hgo : forall s, drop_while is_filler s = open :: g ++ close :: rest ->
    split_logic_groups_fuel (S fuel) s = Ok (g :: gs)).
  { intros s Es. cbn [split_logic_groups_fuel]. rewrite Es, bool_decide_eq_true_2 by done.
    rewrite find_close_paired by done. cbn [Z.eqb Pos.eqb ok_or mbind result_bind].
    rewrite take_app_length, drop_app_ge by lia.
    replace (S (length g) - length g) with 1 by lia. change (drop 1 (close :: rest)) with rest. by rewrite Hrest. }
  split; apply Hgo; rewrite E; done.
Qed.

Lemma length_groups gs : length gs <= length (groups_text gs).
Proof.
  induction gs as [|g gs IH]; [done|]. destruct gs as [|g' gs]; [simpl; lia|].
  change (groups_text (g :: g' :: gs)) with (open :: g ++ [close] ++ comma :: groups_text (g' :: gs)).
  cbn [length]. rewrite !length_app. cbn [length] in *. lia.
Qed.

Lemma length_group g gs : g ∈ gs -> length g < length (groups_text gs).
Proof.
  induction gs as [|h gs IH]; [by intros ?%not_elem_of_nil|]. intros Hg. destruct gs as [|h' gs].
  - apply list_elem_of_singleton in Hg as ->. simpl. rewrite length_app. simpl. lia.
  - change (groups_text (h :: h' :: gs)) with (open :: h ++ [close] ++ comma :: groups_text (h' :: gs)).
    cbn [length]. rewrite !length_app. apply elem_of_cons in Hg as [->|Hg]; [lia|].
    apply IH in Hg. cbn [length] in *. lia.
Qed.

(** *** Entries *)

Lemma leaf_wf_spec ty p e :
  leaf_wf ty p e = true ->
  trim ty = ty /\ comma ∉ ty /\ paired ty = true /\ ty <> b! "MATCH" /\ logic_of (to_ascii_uppercase ty) = None /\
  trim p = p /\ comma ∉ p /\ paired p = true /\ p <> [] /\
  forall e', e = Some e' -> trim e' = e' /\ paired e' = true /\ ty <> b! "DOMAIN-REGEX".
Proof.
  unfold leaf_wf. rewrite !andb_true_iff, !negb_true_iff, !bool_decide_eq_true, !bool_decide_eq_false, !contains_byte_false.
  intros [[[[[[[[[H1 H2] H3] H4] H5] H6] H7] H8] H9] He]. split_and!; try done.
  intros e' ->. rewrite !andb_true_iff, negb_true_iff, bool_decide_eq_true, bool_decide_eq_false in He.
  by destruct He as [[? ?] ?].
Qed.

Lemma print_entry_paired s : syn_wf s = true -> paired (print_entry s) = true.
Proof.
  revert s. fix IH 1. intros [ty p e|op cs]; cbn [syn_wf print_entry].
  - intros (_ & _ & Hty & _ & _ & _ & _ & Hp & _ & He)%leaf_wf_spec.
    apply paired_app; [done|]. rewrite paired_cons by done. apply paired_app; [done|].
    destruct e as [e|]; [|done]. cbn [extra_field]. rewrite paired_cons by done. by apply He.
  - intros [_ Hcs]%andb_true_iff. apply paired_app; [by destruct op|]. rewrite paired_cons by done.
    apply paired_wrap, paired_groups. induction cs as [|c cs IHcs]; cbn [map forallb] in *; [constructor|].
    apply andb_true_iff in Hcs as [Hc Hcs]. constructor; [by apply IH|by apply IHcs].
Qed.

Lemma print_entry_trimmed s : syn_wf s = true -> trimmed (print_entry s).
Proof.
  destruct s as [ty p e|op cs]; cbn [syn_wf print_entry].
  - intros (Hty & _ & _ & _ & _ & Hp & _ & _ & _ & He)%leaf_wf_spec. apply trimmed_trim in Hty, Hp.
    apply trimmed_comma; [done|]. destruct e as [e|]; cbn [extra_field]; [|by rewrite app_nil_r].
    apply trimmed_comma; [done|]. by apply trimmed_trim, He.
  - intros _. apply trimmed_comma; [by destruct op|apply trimmed_paren].
Qed.

Lemma trim_open x : open ∈ x -> trim x <> [].
Proof.
  intros Ho E. destruct (trim_spec x) as (a & b & Ha & Hb & Ex). rewrite E in Ex. rewrite Ex in Ho.
  assert (Hno : forall a, spaces a -> open ∉ a).
  { clear. intros a Ha. apply (spaces_not _ _ Ha), white_space_cases. repeat constructor; by apply contains_byte_false. }
  apply elem_of_app in Ho as [?|?]; [by eapply (Hno a)|by eapply (Hno b)].
Qed.

Lemma op_name_plain op : comma ∉ op_name op /\ trim (op_name op) = op_name op /\
  logic_of (to_ascii_uppercase (op_name op)) = Some op /\ op_name op <> b! "MATCH" /\ op_name op <> b! "DOMAIN-REGEX".
Proof. destruct op; (split; [by apply contains_byte_false|done]). Qed.

Lemma check_print s : syn_wf s = true -> check_entry (print_entry s) = Ok tt.
Proof.
  unfold check_entry. destruct s as [ty p e|op cs]; cbn [syn_wf print_entry].
  - intros (Hty & Hc & _ & Hm & _ & Hp & Hcp & _ & Hne & He)%leaf_wf_spec.
    rewrite splitn_sep by (lia || done). cbn [Nat.sub]. destruct e as [e|]; cbn [extra_field].
    + rewrite splitn_sep by (lia || done). simpl. rewrite Hty, Hp. rewrite !bool_decide_eq_false_2; [done| |done|done].
      by apply (He e).
    + rewrite app_nil_r, splitn_none by (lia || done). simpl. rewrite Hty, Hp.
      rewrite (bool_decide_eq_false_2 (ty = b! "MATCH")), (bool_decide_eq_false_2 (p = [])) by done.
      by rewrite andb_false_r.
  - intros _. destruct (op_name_plain op) as (Hc & Ht & _ & Hm & Hr).
    rewrite splitn_sep by (lia || done). cbn [Nat.sub].
    set (body := open :: groups_text (map print_entry cs) ++ [close]).
    assert (H : exists w ws, splitn 2 comma body = w :: ws /\ open ∈ w).
    { destruct (split_once comma body) as [[w ws]|] eqn:E.
      - apply split_once_Some in E as [E Hw]. rewrite E, splitn_sep by (lia || done). eexists _, _. split; [done|].
        destruct w as [|x w]; [done|]. injection E as <- _. left.
      - apply split_once_None in E. rewrite splitn_none by (lia || done). eexists _, _. split; [done|left]. }
    destruct H as (w & ws & -> & Hw). simpl. rewrite Ht.
    rewrite (bool_decide_eq_false_2 (op_name op = b! "MATCH")), (bool_decide_eq_false_2 (op_name op = b! "DOMAIN-REGEX")) by done.
    by rewrite bool_decide_eq_false_2 by (by apply trim_open).
Qed.

Lemma splice_print s : syn_wf s = true -> splice_inner_adapter (print_entry s) = print_rule INNER_PLACEHOLDER s.
Proof.
  unfold splice_inner_adapter, splice_adapter. destruct s as [ty p e|op cs]; cbn [syn_wf print_entry print_rule].
  - intros (Hty & Hc & _ & Hm & Hl & Hp & Hcp & _ & Hne & He)%leaf_wf_spec.
    rewrite (proj2 (split_once_Some comma _ ty _) (conj eq_refl Hc)), Hty, Hl.
    rewrite bool_decide_eq_false_2 by (by intros [? ?]).
    rewrite splitn_sep by (lia || done). cbn [Nat.sub]. destruct e as [e|]; cbn [extra_field].
    + rewrite splitn_sep by (lia || done). cbn [Nat.sub splitn]. rewrite Hty, Hp. destruct (He e) as [-> _]; done.
    + rewrite app_nil_r, splitn_none by (lia || done). rewrite Hty, Hp. by rewrite app_nil_r.
  - intros _. destruct (op_name_plain op) as (Hc & Ht & Hl & _).
    rewrite (proj2 (split_once_Some comma _ (op_name op) _) (conj eq_refl Hc)), Ht, Hl. done.
Qed.

(** *** Parsing what was printed *)

Lemma try_map_fmap {E A B C} (f : B -> result E C) (g : A -> B) (h : A -> result E C) l :
  (forall x, x ∈ l -> f (g x) = h x) -> try_map f (map g l) = try_map h l.
Proof.
  induction l as [|x l IH]; intros H; [done|]. cbn [map try_map]. rewrite H by left. rewrite IH; [done|].
  intros y Hy. apply H. by right.
Qed.

Lemma target_wf_spec t : target_wf t = true -> trim t = t /\ comma ∉ t /\ t <> [].
Proof.
  unfold target_wf.
  rewrite !andb_true_iff, !negb_true_iff, bool_decide_eq_true, bool_decide_eq_false, contains_byte_false.
  by intros [[? ?] ?].
Qed.

Lemma parse_print_leaf t ty p e :
  leaf_wf ty p e = true -> target_wf t = true ->
  logic_head (print_rule t (SLeaf ty p e)) = None /\
  parse_plain ctx (print_rule t (SLeaf ty p e)) = build_leaf ctx ty p t e.
Proof.
  intros (Hty & Hc & _ & Hm & Hl & Hp & Hcp & _ & Hne & He)%leaf_wf_spec (Ht & Htc & _)%target_wf_spec.
  cbn [print_rule]. split; [rewrite logic_head_sep by done; by rewrite Hty, Hl|].
  unfold parse_plain. rewrite splitn_sep by (lia || done). cbn [Nat.sub].
  rewrite splitn_sep by (lia || done). cbn [Nat.sub]. rewrite Hty, (bool_decide_eq_false_2 (ty = b! "MATCH")) by done.
  destruct e as [e|]; cbn [extra_field].
  - rewrite splitn_sep by (lia || done). cbn [Nat.sub splitn head fmap option_fmap option_map]. rewrite Hp, Ht.
    by destruct (He e eq_refl) as [-> _].
  - rewrite app_nil_r, splitn_none by (lia || done). cbn [head]. by rewrite Hp, Ht.
Qed.

Lemma parse_print_logic pi t op cs :
  forallb syn_wf cs = true -> cs <> [] -> target_wf t = true ->
  (forall c, c ∈ cs -> parse_group pi (print_entry c) = denote INNER_PLACEHOLDER c) ->
  (exists rest, logic_head (print_rule t (SLogic op cs)) = Some (op, rest) /\
    parse_logic_rule pi op rest = denote t (SLogic op cs)).
Proof.
  intros Hcs Hne (Ht & Htc & Htn)%target_wf_spec Hpi. destruct (op_name_plain op) as (Hc & Hn & Hl & _).
  set (G := groups_text (map print_entry cs)). exists (open :: G ++ close :: comma :: t).
  assert (Hline : print_rule t (SLogic op cs) = op_name op ++ comma :: open :: G ++ close :: comma :: t).
  { cbn [print_rule print_entry]. unfold G. rewrite <- app_assoc. simpl. by rewrite <- app_assoc. }
  rewrite Hline. split.
  { rewrite logic_head_sep by done. rewrite Hn, Hl. cbn [mbind option_bind]. by rewrite trim_start_head. }
  assert (HG : Forall (fun g => paired g = true) (map print_entry cs)).
  { apply Forall_map, Forall_forall. intros c Hin. apply print_entry_paired.
    rewrite forallb_forall in Hcs. by apply Hcs, list_elem_of_In. }
  unfold parse_logic_rule. rewrite trim_start_head by done.
  rewrite (proj2 (starts_with_spec [open] _)) by (by eexists). cbn [negb].
  assert (Hclose : find_close 0 (open :: G ++ close :: comma :: t) = Some (S (length G))).
  { cbn [find_close]. rewrite decide_True by done.
    rewrite find_close_paired; [done|done|]. by apply paired_groups. }
  rewrite Hclose. cbn [ok_or mbind result_bind Nat.sub drop].
  rewrite Nat.sub_0_r, drop_0, take_app_length.
  rewrite drop_app_ge by lia. replace (S (length G) - length G) with 1 by lia.
  change (drop 1 (close :: comma :: t)) with (comma :: t). rewrite trim_start_head by done.
  rewrite (proj2 (strip_prefix_Some [comma] (comma :: t) t) eq_refl). cbn [ok_or mbind result_bind].
  rewrite split_no_sep by done. cbn [last default]. unfold default, from_option, id. rewrite Ht.
  rewrite bool_decide_eq_false_2 by done. unfold split_logic_groups.
  destruct (split_groups (map print_entry cs) (S (length G)) HG) as [Hsplit _].
  { apply Nat.lt_succ_r, length_groups. }
  fold G in Hsplit. rewrite Hsplit.
  cbn [mbind result_bind]. rewrite bool_decide_eq_false_2 by (by destruct cs).
  rewrite (try_map_fmap _ _ _ _ Hpi). cbn [denote]. by destruct (try_map _ cs).
Qed.

Lemma parse_print_depth n t s :
  syn_wf s = true -> target_wf t = true -> syn_height s <= n ->
  (Z.of_nat (length (print_entry s) + S (Nat.max (length t) (length INNER_PLACEHOLDER))) <= MAX_RULE_LINE_LEN)%Z ->
  parse_rule_depth ctx n (print_rule t s) = denote t s.
Proof.
  revert t s. induction n as [|n IH]; intros t s Hwf Ht Hh Hlen.
  all: assert (Hshort : (MAX_RULE_LINE_LEN <? Z.of_nat (length (print_rule t s)))%Z = false).
  1,3: apply Z.ltb_ge; destruct s; cbn [print_rule print_entry] in *; revert Hlen;
       rewrite ?length_app; cbn [length]; rewrite ?length_app; cbn [length]; rewrite ?length_app; lia.
  all: destruct s as [ty p e|op cs].
  - destruct (parse_print_leaf t ty p e Hwf Ht) as [Hnone Hp]. cbn [parse_rule_depth].
    rewrite Hshort. fold (logic_head (print_rule t (SLeaf ty p e))). by rewrite Hnone.
  - simpl in Hh. lia.
  - destruct (parse_print_leaf t ty p e Hwf Ht) as [Hnone Hp]. cbn [parse_rule_depth].
    rewrite Hshort. fold (logic_head (print_rule t (SLeaf ty p e))). by rewrite Hnone.
  - cbn [syn_wf] in Hwf. apply andb_true_iff in Hwf as [Hne%negb_true_iff%bool_decide_eq_false Hcs].
    destruct (parse_print_logic (parse_rule_depth ctx n) t op cs Hcs Hne Ht) as (rest & Hhead & Hp).
    + intros c Hc. pose proof Hcs as Hwf. rewrite forallb_forall in Hwf.
      specialize (Hwf c (proj1 (list_elem_of_In _ _) Hc)).
      unfold parse_group. rewrite check_print by done. cbn [mbind result_bind].
      rewrite (proj1 (trimmed_trim _) (print_entry_trimmed c Hwf)), splice_print by done.
      apply IH; [done|done| |].
      * simpl in Hh. apply le_S_n in Hh. apply list_max_le in Hh. rewrite Forall_map, Forall_forall in Hh. by apply Hh.
      * assert (Hlt : length (print_entry c) < length (groups_text (map print_entry cs))).
        { apply length_group. by apply list_elem_of_fmap_2. }
        cbn [print_entry] in Hlen. revert Hlen. rewrite length_app. cbn [length]. rewrite length_app. lia.
    + cbn [parse_rule_depth]. rewrite Hshort. fold (logic_head (print_rule t (SLogic op cs))). by rewrite Hhead.
Qed.

(** C14: parsing the text of a rule, of any nesting up to [MAX_LOGIC_DEPTH]
    and a length the parser admits, gives what the rule denotes: each leaf
    built from its own type, payload and flags, the logic rules around them,
    and the target on top; and an error exactly when the rule denotes one. A
    rule is a tree of logic rules with at least one child each. A leaf has a
    type other than MATCH and the logic names and a non-empty payload, both
    without commas and with paired parentheses, and flags with paired
    parentheses, or none for DOMAIN-REGEX; the target is not empty and has no
    comma. No part has blanks at its ends. A regular expression with a comma is
    left out: the parser takes it at the top but not in a group. *)
Theorem parse_print_roundtrip target s :
  syn_wf s = true -> target_wf target = true -> syn_height s <= MAX_LOGIC_DEPTH ->
  (Z.of_nat (length (print_entry s) + S (Nat.max (length target) (length INNER_PLACEHOLDER))) <= MAX_RULE_LINE_LEN)%Z ->
  parse_rule ctx (print_rule target s) = denote target s.
Proof. apply parse_print_depth. Qed.

End Sound.

(** ** Witnesses *)

#[local] Existing Instance toy_regex.
#[local] Existing Instance prefix_net_lib.

Definition demo_syn : Syn :=
  SLogic And [SLeaf (b! "DOMAIN-SUFFIX") (b! "Example.com") None;
    SLogic Not [SLeaf (b! "NETWORK") (b! "udp") (Some (b! "no-resolve, src"))]].

Definition demo_rule : Rule :=
  new_and [new_domain_suffix (b! "Example.com") INNER_PLACEHOLDER;
    new_not (NetworkRule Udp (b! "udp") INNER_PLACEHOLDER) INNER_PLACEHOLDER] (b! "Proxy").

Definition demo_line : bytes :=
  b! "and , ((DOMAIN-SUFFIX, Example.com), (not,((NETWORK,udp)))) , x, Proxy".

Lemma parsed_rules_safe_witness :
  parse_rule empty_context demo_line = Ok demo_rule /\
  rule_ok demo_rule /\ logic_height demo_rule <= MAX_LOGIC_DEPTH /\ nested_ok demo_rule.
Proof.
  assert (H : parse_rule empty_context demo_line = Ok demo_rule) by reflexivity.
  split; [exact H|]. exact (proj2 (parsed_rules_safe empty_context demo_line demo_rule H)).
Defined.

Lemma parse_print_roundtrip_witness :
  print_rule (b! "Proxy") demo_syn = b! "AND,((DOMAIN-SUFFIX,Example.com),(NOT,((NETWORK,udp,no-resolve, src)))),Proxy" /\
  parse_rule empty_context (print_rule (b! "Proxy") demo_syn) = Ok demo_rule.
Proof.
  split; [reflexivity|].
  assert (H : denote empty_context (b! "Proxy") demo_syn = Ok demo_rule) by reflexivity.
  rewrite <- H. apply (parse_print_roundtrip empty_context (b! "Proxy") demo_syn).
  - vm_compute. reflexivity.
  - vm_compute. reflexivity.
  - apply Nat.leb_le. vm_compute. reflexivity.
  - vm_compute. discriminate.
Defined.

End RuleGrammar.
