(* ===== verification/RuleSets.v ===== *)
(** * Rule sets (crates/meow-rules/src/rule_set.rs)

    The three kinds of rule set with their builders. A builder takes entries
    one by one; the lenient loop skips an entry that is rejected, the checked
    loop stops there. Both loops are written once, over a class of builders
    whose errors depend on the entry alone. *)

From S2P Require Import Prelude Strings Trim Vec Ip IpSet Ports Regex Wildcard Metadata Geosite.
From S2P Require Import Trie TrieSealed TrieLayout DomainTrie TrieSpec TrieTheorems Rules RuleParser.

#[local] Set Warnings "-register-all".

Module RuleSets.
Import IpSet Ports Metadata Rules RuleParser.

(** ** Names of behaviours and formats *)

Definition behavior_from_str (s : bytes) : option RuleSetBehavior :=
  let s := to_ascii_lowercase s in
  if bool_decide (s = b! "domain") then Some BDomain
  else if bool_decide (s = b! "ipcidr") || bool_decide (s = b! "ip-cidr") then Some BIpCidr
  else if bool_decide (s = b! "classical") then Some BClassical
  else None.

Definition show_behavior (b : RuleSetBehavior) : bytes :=
  match b with BDomain => b! "Domain" | BIpCidr => b! "IPCIDR" | BClassical => b! "Classical" end.

Inductive RuleSetFormat := Yaml | Text | Mrs.

Definition format_from_str (s : bytes) : option RuleSetFormat :=
  let s := to_ascii_lowercase s in
  if bool_decide (s = b! "yaml") then Some Yaml
  else if bool_decide (s = b! "text") then Some Text
  else if bool_decide (s = b! "mrs") then Some Mrs
  else None.

(** ** Builders *)

Inductive SetError :=
  | InvalidPattern (entry : bytes)
  | InvalidCidr (entry : bytes)
  | InvalidEntry (entry : bytes) (e : ParseError).

(** [push_checked(&mut self, entry)]: the builder afterwards, and the error
    if there is one; [None] is a panic. *)
Class SetBuilder (B : Type) := {
  push_checked : B -> bytes -> option (B * option SetError);
  entry_error : bytes -> option SetError;
  push_checked_error b e b' err : push_checked b e = Some (b', err) -> err = entry_error e;
  push_checked_same b e b' err : push_checked b e = Some (b', Some err) -> b' = b;
}.

Section Builder.
Context `{SB : SetBuilder B}.

Definition push (b : B) (entry : bytes) : option B := fst <$> push_checked b entry.

Definition push_entries (b : B) (entries : list bytes) : option B := foldlM push b entries.

Fixpoint push_entries_checked (b : B) (entries : list bytes) : option (result SetError B) :=
  match entries with
  | [] => Some (Ok b)
  | e :: entries =>
      '(b, err) ← push_checked b e;
      match err with Some err => Some (Err err) | None => push_entries_checked b entries end
  end.

Definition entry_valid (e : bytes) : bool := bool_decide (entry_error e = None).

Lemma push_entries_cons b e entries :
  push_entries b (e :: entries) = '(b, _) ← push_checked b e; push_entries b entries.
Proof. unfold push_entries, push. cbn [foldlM]. by destruct (push_checked b e) as [[? ?]|]. Qed.

(** The lenient loop is the loop over the valid entries. *)
Lemma push_entries_valid b entries b' :
  push_entries b entries = Some b' -> push_entries b (List.filter entry_valid entries) = Some b'.
Proof.
  revert b. induction entries as [|e entries IH]; intros b H; [done|]. cbn [List.filter].
  rewrite push_entries_cons in H. destruct (push_checked b e) as [[b1 err]|] eqn:E; [|done].
  apply push_checked_error in E as Herr. unfold entry_valid at 1. rewrite <- Herr. destruct err as [err|].
  - apply push_checked_same in E as ->. by apply IH.
  - cbn [bool_decide decide]. rewrite bool_decide_eq_true_2 by done. rewrite push_entries_cons, E. by apply IH.
Qed.

(** The checked loop succeeds on valid entries, with the lenient result, and
    otherwise returns the error of the first entry that has one. *)
Lemma push_entries_checked_spec b entries b' :
  push_entries b entries = Some b' ->
  push_entries_checked b entries =
    Some (match head (omap entry_error entries) with Some err => Err err | None => Ok b' end).
Proof.
  revert b. induction entries as [|e entries IH]; intros b H.
  { unfold push_entries in H. cbn in *. by simplify_eq. }
  rewrite push_entries_cons in H. cbn [push_entries_checked omap list_omap].
  destruct (push_checked b e) as [[b1 err]|] eqn:E; [|done]. cbn in H |- *.
  apply push_checked_error in E as <-. destruct err as [err|]; [done|]. by apply IH.
Qed.

End Builder.

(** Host-only metadata of a DNS query. *)
Definition host_only (domain : bytes) : Metadata :=
  match default_metadata with
  | mkMetadata n c si di sp dp _ dm pr pp u ds sg dg sh inn inp iu spx i =>
      mkMetadata n c si di sp dp domain dm pr pp u ds sg dg sh inn inp iu spx i
  end.

Section RuleSets.
Context `{HO : Sealed.HashOrder, UL : UnicodeLower, UU : UnicodeUpper, RO : RegexOps, KO : Geosite.KeyOrder}.
Context `{NL : IpNetLib, PF : Platform}.
#[local] Existing Instance DomainTrie.sized_unit.

(** ** Domains *)

Record DomainRuleSet := mkDomainSet { ds_trie : DomainTrie.DomainTrie unit; ds_count : nat }.

Definition domain_new : DomainRuleSet := mkDomainSet DomainTrie.new 0.

Definition domain_push_checked (b : DomainRuleSet) (entry : bytes) : option (DomainRuleSet * option SetError) :=
  let entry := trim entry in
  if bool_decide (entry = []) then Some (b, None)
  else
    '(inserted, t) ← DomainTrie.insert (ds_trie b) entry tt;
    Some (if inserted : bool then (mkDomainSet t (S (ds_count b)), None)
          else (mkDomainSet t (ds_count b), Some (InvalidPattern entry))).

Definition domain_build (b : DomainRuleSet) : option DomainRuleSet :=
  t ← DomainTrie.seal (ds_trie b); Some (mkDomainSet t (ds_count b)).

Definition found (r : option (option unit)) : bool := match r with Some (Some _) => true | _ => false end.

Definition domain_matches (s : DomainRuleSet) (m : Metadata) : bool :=
  let host := rule_host m in
  if bool_decide (host = []) then false else found (DomainTrie.search (ds_trie s) host).

Definition domain_matches_domain (s : DomainRuleSet) (domain : bytes) : bool :=
  found (DomainTrie.search (ds_trie s) domain).

Definition domain_set (s : DomainRuleSet) : RuleSet :=
  mkRuleSet BDomain (domain_matches s) (ds_count s) false false (domain_matches_domain s).

(** ** Networks *)

Record IpCidrRuleSetBuilder := mkCidrBuilder { cb_set : IpRangeSetBuilder; cb_count : nat }.
Record IpCidrRuleSet := mkCidrSet { cs_set : IpRangeSet; cs_count : nat }.

Definition cidr_new : IpCidrRuleSetBuilder := mkCidrBuilder (mkSetBuilder [] []) 0.

Definition push_net (b : IpCidrRuleSetBuilder) (net : IpNet) : IpCidrRuleSetBuilder :=
  mkCidrBuilder (builder_add (cb_set b) net) (S (cb_count b)).

Definition cidr_push_checked (b : IpCidrRuleSetBuilder) (entry : bytes) :
    option (IpCidrRuleSetBuilder * option SetError) :=
  let entry := trim entry in
  Some (if bool_decide (entry = []) then (b, None)
    else match parse_net entry with
    | Some net => (push_net b net, None)
    | None => (b, Some (InvalidCidr entry))
    end).

Definition cidr_build (b : IpCidrRuleSetBuilder) : IpCidrRuleSet :=
  mkCidrSet (builder_build (cb_set b)) (cb_count b).

Definition cidr_set (s : IpCidrRuleSet) : RuleSet :=
  mkRuleSet BIpCidr (fun m => from_option (set_contains (cs_set s)) false (dst_ip m)) (cs_count s)
    true false (fun _ => false).

(** ** Rules *)

Definition SET_PLACEHOLDER : bytes := b! "RULE-SET-PLACEHOLDER".
Definition splice_placeholder_adapter : bytes -> bytes := splice_adapter SET_PLACEHOLDER.

Section Classical.
Variable ctx : ParserContext.

Definition classical_rule (entry : bytes) : result ParseError Rule :=
  _ ← check_entry entry; parse_rule ctx (splice_placeholder_adapter entry).

Definition classical_push_checked (rules : list Rule) (entry : bytes) :
    option (list Rule * option SetError) :=
  let entry := trim entry in
  Some (if bool_decide (entry = []) then (rules, None)
    else match classical_rule entry with
    | Ok rule => (rules ++ [rule], None)
    | Err e => (rules, Some (InvalidEntry entry e))
    end).
End Classical.

(** A set of rules answers against the databases its rules name. *)
Definition classical_set (σ : Store) (rules : list Rule) : RuleSet :=
  mkRuleSet BClassical (fun m => existsb (match_metadata σ m) rules) (length rules)
    (existsb (fun r => negb (never_matches σ r) && should_resolve_ip σ r) rules)
    (existsb (fun r => negb (never_matches σ r) && should_find_process σ r) rules)
    (fun domain => existsb (match_metadata σ (host_only domain)) rules).

(** ** The builders are builders *)

Definition domain_error (e : bytes) : option SetError :=
  if bool_decide (trim e = []) then None
  else if bool_decide (TrieSpec.key_slots (trim e) = []) then Some (InvalidPattern (trim e)) else None.

Definition cidr_error (e : bytes) : option SetError :=
  if bool_decide (trim e = []) then None
  else match parse_net (trim e) with Some _ => None | None => Some (InvalidCidr (trim e)) end.

Definition classical_error (ctx : ParserContext) (e : bytes) : option SetError :=
  if bool_decide (trim e = []) then None
  else match classical_rule ctx (trim e) with Ok _ => None | Err err => Some (InvalidEntry (trim e) err) end.

Lemma insert_bool (t : DomainTrie.DomainTrie unit) e ok t' :
  DomainTrie.insert t e tt = Some (ok, t') ->
  ok = negb (bool_decide (TrieSpec.key_slots e = [])) /\ (ok = false -> t' = t).
Proof.
  unfold DomainTrie.insert. rewrite TrieSpec.insert_inner_slots. case_bool_decide; simpl.
  - by intros [= <- <-].
  - destruct (DomainTrie.state t); [|by intros [= <- <-]]. intros (x & _ & E)%bind_Some. by simplify_eq.
Qed.

#[export] Program Instance domain_builder : SetBuilder DomainRuleSet :=
  {| push_checked := domain_push_checked; entry_error := domain_error |}.
Next Obligation.
  intros b e b' err. unfold domain_push_checked, domain_error. case_bool_decide; [by intros [= <- <-]|].
  intros ([ok t] & E%insert_bool & H')%bind_Some. destruct E as [-> _]. case_bool_decide; by simplify_eq/=.
Qed.
Next Obligation.
  intros b e b' err. unfold domain_push_checked. case_bool_decide; [by intros [= <- <-]|].
  intros ([ok t] & E%insert_bool & H')%bind_Some. destruct E as [_ Ht]. destruct ok; simplify_eq/=.
  rewrite Ht by done. by destruct b.
Qed.

#[export] Program Instance cidr_builder : SetBuilder IpCidrRuleSetBuilder :=
  {| push_checked := cidr_push_checked; entry_error := cidr_error |}.
Next Obligation.
  intros b e b' err. unfold cidr_push_checked, cidr_error. case_bool_decide; [by intros [= <- <-]|].
  destruct (parse_net (trim e)); by intros [= <- <-].
Qed.
Next Obligation.
  intros b e b' err. unfold cidr_push_checked. case_bool_decide; [done|].
  destruct (parse_net (trim e)); by intros [= <- <-].
Qed.

#[export] Program Instance classical_builder (ctx : ParserContext) : SetBuilder (list Rule) :=
  {| push_checked := classical_push_checked ctx; entry_error := classical_error ctx |}.
Next Obligation.
  intros ctx b e b' err. unfold classical_push_checked, classical_error. case_bool_decide; [by intros [= <- <-]|].
  destruct (classical_rule ctx (trim e)); by intros [= <- <-].
Qed.
Next Obligation.
  intros ctx b e b' err. unfold classical_push_checked. case_bool_decide; [done|].
  destruct (classical_rule ctx (trim e)); by intros [= <- <-].
Qed.

(** ** Building a set *)

Section Build.
Variables (σ : Store) (ctx : ParserContext).

Definition domain_from_entries (entries : list bytes) : option DomainRuleSet :=
  b ← push_entries domain_new entries; domain_build b.
Definition cidr_from_entries (entries : list bytes) : option IpCidrRuleSet :=
  b ← push_entries cidr_new entries; Some (cidr_build b).
Definition classical_from_entries (entries : list bytes) : option (list Rule) :=
  push_entries (SB := classical_builder ctx) [] entries.

Definition build_rule_set (behavior : RuleSetBehavior) (entries : list bytes) : option RuleSet :=
  match behavior with
  | BDomain => domain_set <$> domain_from_entries entries
  | BIpCidr => cidr_set <$> cidr_from_entries entries
  | BClassical => classical_set σ <$> classical_from_entries entries
  end.

(** A finished builder, or its error. *)
Definition finish {B} (r : option (result SetError B)) (f : B -> option RuleSet) :
    option (result SetError RuleSet) :=
  match r with
  | Some (Ok b) => match f b with Some s => Some (Ok s) | None => None end
  | Some (Err e) => Some (Err e)
  | None => None
  end.

Definition build_rule_set_checked (behavior : RuleSetBehavior) (entries : list bytes) :
    option (result SetError RuleSet) :=
  match behavior with
  | BDomain => finish (push_entries_checked domain_new entries) (fun b => domain_set <$> domain_build b)
  | BIpCidr => finish (push_entries_checked cidr_new entries) (fun b => Some (cidr_set (cidr_build b)))
  | BClassical =>
      finish (push_entries_checked (SB := classical_builder ctx) [] entries) (fun rules => Some (classical_set σ rules))
  end.

Definition first_error (behavior : RuleSetBehavior) (entries : list bytes) : option SetError :=
  head (omap (match behavior with
    | BDomain => domain_error | BIpCidr => cidr_error | BClassical => classical_error ctx end) entries).

(** Where the lenient build of a rule set does not panic, the checked
    build returns the same set if no entry is malformed, and otherwise the
    error of the first malformed entry; and the lenient build gives the set
    of its well-formed entries. *)
Theorem rule_set_strict_agrees behavior entries s :
  build_rule_set behavior entries = Some s ->
  build_rule_set_checked behavior entries =
    Some (match first_error behavior entries with Some e => Err e | None => Ok s end) /\
  build_rule_set behavior (List.filter (fun e => bool_decide (first_error behavior [e] = None)) entries) = Some s.
Proof.
  assert (Hfilter : forall (f : bytes -> option SetError),
    List.filter (fun e => bool_decide (head (omap f [e]) = None)) entries =
    List.filter (fun e => bool_decide (f e = None)) entries).
  { intros f. apply filter_ext. intros e. cbn. by destruct (f e). }
  intros H. unfold first_error. rewrite Hfilter. destruct behavior; cbn [build_rule_set build_rule_set_checked] in *.
  - unfold domain_from_entries in *. apply fmap_Some in H as (ds & (b & Hb & Hd)%bind_Some & ->).
    rewrite (push_entries_checked_spec _ _ _ Hb). cbn [entry_error domain_builder finish].
    split; [destruct (head _); [done|by rewrite Hd]|]. pose proof (push_entries_valid _ _ _ Hb) as Hv.
    unfold entry_valid in Hv. cbn [entry_error domain_builder] in Hv. rewrite Hv. cbn [mbind option_bind]. by rewrite Hd.
  - unfold cidr_from_entries in *. apply fmap_Some in H as (cs & (b & Hb & [= <-])%bind_Some & ->).
    rewrite (push_entries_checked_spec _ _ _ Hb). cbn [entry_error cidr_builder finish].
    split; [by destruct (head _)|]. pose proof (push_entries_valid _ _ _ Hb) as Hv.
    unfold entry_valid in Hv. cbn [entry_error cidr_builder] in Hv. by rewrite Hv.
  - unfold classical_from_entries in *. apply fmap_Some in H as (b & Hb & ->).
    rewrite (push_entries_checked_spec _ _ _ Hb). cbn [entry_error classical_builder finish].
    split; [by destruct (head _)|]. pose proof (push_entries_valid _ _ _ Hb) as Hv.
    unfold entry_valid in Hv. cbn [entry_error classical_builder] in Hv. by rewrite Hv.
Qed.

(** ** What a set matches *)

Definition domain_entries (entries : list bytes) : list bytes :=
  List.filter (fun e => negb (bool_decide (e = []))) (map trim entries).

Definition domain_ops (entries : list bytes) : list TrieSpec.op :=
  TrieTheorems.build_ops (domain_entries entries) tt.

Lemma domain_push_run b entries :
  ds_trie <$> push_entries b entries = foldlM TrieSpec.step (ds_trie b) (domain_ops entries).
Proof.
  revert b. induction entries as [|e entries IH]; intros b; [done|].
  rewrite push_entries_cons. unfold domain_ops, domain_entries. cbn [map List.filter].
  cbn [push_checked domain_builder]. unfold domain_push_checked. case_bool_decide as He; [apply IH|].
  cbn [negb]. unfold TrieTheorems.build_ops. rewrite fmap_cons.
  cbn [foldlM TrieSpec.step]. destruct (DomainTrie.insert (ds_trie b) (trim e) tt) as [[ok t]|]; [|done].
  cbn. destruct ok; apply (IH (mkDomainSet t _)).
Qed.

Lemma key_slots_trim e : TrieSpec.key_slots (trim e) = TrieSpec.key_slots e.
Proof. unfold TrieSpec.key_slots, TrieSpec.normal_key. by rewrite trim_idemp. Qed.

Abbreviation domain_entry_matches := TrieTheorems.pattern_matches.

Lemma domain_set_spec entries :
  TrieSpec.small (domain_ops entries) ->
  exists s, domain_from_entries entries = Some s /\
    forall host, found (DomainTrie.search (ds_trie s) host) = true <->
      exists e, e ∈ entries /\ domain_entry_matches e host.
Proof.
  intros Hsmall. destruct (TrieTheorems.sealed_patterns _ _ Hsmall) as (t0 & t & Ht0 & Ht & Hs).
  pose proof (domain_push_run domain_new entries) as Hp. cbn [ds_trie domain_new] in Hp.
  unfold TrieSpec.run_ops in Ht0. unfold domain_ops in Hp. rewrite Ht0 in Hp.
  apply fmap_Some in Hp as (b & Hb & ->). unfold domain_from_entries. rewrite Hb. cbn [mbind option_bind].
  unfold domain_build. rewrite Ht. cbn. eexists. split; [done|].
  intros host. cbn [ds_trie]. destruct (Hs host) as (r & -> & Hr).
  trans (is_Some r); [destruct r; [done|by split; [|intros [? ?]]]|]. rewrite Hr.
  unfold TrieTheorems.pattern_matches, domain_entries. split.
  - intros (p & Hp & k & Hks & Hk). apply list_elem_of_In, List.filter_In in Hp as [Hp _].
    apply list_elem_of_In, list_elem_of_fmap in Hp as (e & -> & He). rewrite key_slots_trim in Hks. eauto.
  - intros (e & He & k & Hks & Hk). exists (trim e). rewrite key_slots_trim. split; [|by exists k].
    apply list_elem_of_In, List.filter_In. split; [by apply list_elem_of_In, list_elem_of_fmap_2|].
    apply negb_true_iff, bool_decide_eq_false. intros E. rewrite <- key_slots_trim, E in Hks.
    by apply not_elem_of_nil in Hks.
Qed.

Definition entry_net (e : bytes) : option IpNet :=
  if bool_decide (trim e = []) then None else parse_net (trim e).

Lemma cidr_push_run b entries :
  push_entries b entries =
  Some (mkCidrBuilder (foldl builder_add (cb_set b) (omap entry_net entries))
    (cb_count b + length (omap entry_net entries))).
Proof.
  revert b. induction entries as [|e entries IH]; intros b.
  { unfold push_entries. cbn. rewrite Nat.add_0_r. by destruct b. }
  rewrite push_entries_cons. cbn [push_checked cidr_builder]. unfold cidr_push_checked.
  assert (E : omap entry_net (e :: entries) = match entry_net e with Some n => n :: omap entry_net entries | None => omap entry_net entries end)
    by (cbn; by destruct (entry_net e)).
  rewrite E. clear E. assert (Hn : entry_net e = if bool_decide (trim e = []) then None else parse_net (trim e)) by done.
  rewrite Hn. case_bool_decide; [apply IH|]. destruct (parse_net (trim e)); cbn; rewrite IH; [|done].
  cbn. by rewrite Nat.add_succ_r.
Qed.

Definition entry_rule (e : bytes) : option Rule :=
  if bool_decide (trim e = []) then None else to_option (classical_rule ctx (trim e)).

Lemma classical_push_run rules entries :
  push_entries (SB := classical_builder ctx) rules entries = Some (rules ++ omap entry_rule entries).
Proof.
  revert rules. induction entries as [|e entries IH]; intros rules; [by rewrite app_nil_r|].
  rewrite push_entries_cons. cbn [push_checked classical_builder]. unfold classical_push_checked.
  assert (E : omap entry_rule (e :: entries) = match entry_rule e with Some r => r :: omap entry_rule entries | None => omap entry_rule entries end)
    by (cbn; by destruct (entry_rule e)).
  rewrite E. clear E.
  assert (Hr : entry_rule e = if bool_decide (trim e = []) then None else to_option (classical_rule ctx (trim e))) by done.
  rewrite Hr. case_bool_decide; [apply IH|].
  destruct (classical_rule ctx (trim e)); cbn; rewrite IH; [|done]. by rewrite <- app_assoc.
Qed.

(** What one entry of a set matches. *)
Definition entry_matches (behavior : RuleSetBehavior) (e : bytes) (m : Metadata) : Prop :=
  match behavior with
  | BDomain => rule_host m <> [] /\ domain_entry_matches e (rule_host m)
  | BIpCidr => exists net ip, entry_net e = Some net /\ dst_ip m = Some ip /\ net_contains net ip = true
  | BClassical => exists r, entry_rule e = Some r /\ match_metadata σ m r = true
  end.

Definition entries_small (behavior : RuleSetBehavior) (entries : list bytes) : Prop :=
  match behavior with BDomain => TrieSpec.small (domain_ops entries) | _ => True end.

Lemma build_rule_set_total beh entries : entries_small beh entries -> is_Some (build_rule_set beh entries).
Proof.
  intros Hs. destruct beh; cbn [build_rule_set entries_small] in *; apply fmap_is_Some.
  - by destruct (domain_set_spec entries Hs) as (s & -> & _).
  - unfold cidr_from_entries. rewrite cidr_push_run. by eexists.
  - unfold classical_from_entries. rewrite classical_push_run. by eexists.
Qed.

(** C18: a rule set of any behaviour builds from any entries, for domains as
    long as their labels fit the trie, and then matches a connection exactly
    when one of its entries does; malformed entries match nothing. *)
Theorem rule_set_matches_exact beh entries :
  entries_small beh entries ->
  exists s, build_rule_set beh entries = Some s /\ behavior s = beh /\
    forall m, set_matches s m = true <-> exists e, e ∈ entries /\ entry_matches beh e m.
Proof.
  intros Hsmall. destruct beh; cbn [build_rule_set entry_matches entries_small] in *.
  - destruct (domain_set_spec entries Hsmall) as (s & -> & Hs). eexists. split_and!; [done|done|]. intros m.
    cbn [set_matches domain_set]. unfold domain_matches. case_bool_decide as Hh; [naive_solver|].
    rewrite Hs. naive_solver.
  - unfold cidr_from_entries. rewrite cidr_push_run. eexists. split_and!; [done|done|]. intros m.
    cbn [set_matches cidr_set cidr_build cs_set cb_set cidr_new]. fold (from_nets (omap entry_net entries)).
    destruct (dst_ip m) as [ip|]; cbn [from_option]; [|naive_solver].
    rewrite set_contains_nets. unfold nets_contain. rewrite existsb_exists.
    setoid_rewrite <- list_elem_of_In. setoid_rewrite list_elem_of_omap. naive_solver.
  - unfold classical_from_entries. rewrite classical_push_run. eexists. split_and!; [done|done|]. intros m.
    cbn [set_matches classical_set]. rewrite existsb_exists.
    setoid_rewrite <- list_elem_of_In. setoid_rewrite list_elem_of_omap. naive_solver.
Qed.

End Build.
End RuleSets.

(** ** Witnesses *)

#[local] Existing Instance Sealed.default_hash_order.
#[local] Existing Instance toy_regex.
#[local] Existing Instance prefix_net_lib.
#[local] Existing Instance Geosite.default_key_order.

Definition demo_entries : list bytes := [b! " +.Example.com "; b! ""; b! "+."; b! "a.org"].

Lemma rule_set_matches_exact_witness :
  exists s, build_rule_set (PF := linux) empty_store empty_context BDomain demo_entries = Some s /\
    set_matches s (host_only (b! "www.example.com")) = true.
Proof.
  destruct (rule_set_matches_exact (PF := linux) empty_store empty_context BDomain demo_entries) as (s & Hs & _ & H);
    [vm_compute; reflexivity|].
  exists s. split; [exact Hs|]. apply H. exists (b! " +.Example.com "). split; [left|].
  split; [discriminate|]. exists (Trie.Dot, b! "example.com"). split; [right; left|]. by exists (b! "www").
Defined.

Lemma rule_set_strict_agrees_witness :
  exists s, build_rule_set (PF := linux) empty_store empty_context BClassical [b! "MATCH,x"; b! "DOMAIN,a.com"] = Some s /\
    build_rule_set_checked (PF := linux) empty_store empty_context BClassical [b! "MATCH,x"; b! "DOMAIN,a.com"] =
      Some (Err (InvalidEntry (b! "MATCH,x") MatchInGroup)).
Proof.
  eexists. split; [reflexivity|].
  rewrite (proj1 (rule_set_strict_agrees (PF := linux) empty_store empty_context BClassical
    [b! "MATCH,x"; b! "DOMAIN,a.com"] _ eq_refl)).
  reflexivity.
Defined.

End RuleSets.
