(* ===== verification/MrsRuleSets.v ===== *)
(** * Rule sets from MRS files (crates/meow-rules/src/rule_set.rs)

    [build_rule_set_from_mrs_with_behavior]: the file's own format streams its
    entries into the builders of [RuleSets], an upstream file is opened and
    walked. In strict mode the first malformed entry is kept and reported at
    the end. *)

From S2P Require Import Prelude Strings Trim Vec Bits Ip IpSet MrsRanges Stream MrsCodec RankSelect DomainSet Upstream.
From S2P Require Import DomainSetLayout DomainSetRoundtrip.
From S2P Require Import Ports Regex Wildcard Metadata Geosite.
From S2P Require Import Trie TrieSealed TrieLayout DomainTrie TrieSpec TrieTheorems Rules RuleParser RuleSets.

#[local] Set Warnings "-register-all".

Module MrsRuleSets.
Import IpSet MrsRanges Stream MrsCodec RankSelect DomainSet Upstream DomainSetLayout DomainSetRoundtrip.
Import Metadata Rules RuleParser RuleSets.

Inductive MrsBuildError :=
  | OfMrs (e : MrsError)
  | OfEntry (e : SetError)
  | BehaviorMismatch (expected actual : RuleSetBehavior)
  | UnsupportedTag (tag : Z)
  | UpstreamClassical.

Definition is_mrs_bytes (data : bytes) : bool :=
  (4 <=? length data) && (bool_decide (take 4 data = MRS_MAGIC) || bool_decide (take 4 data = ZSTD_MAGIC)).

Definition behavior_from_type_tag (type_tag : Z) : result MrsBuildError RuleSetBehavior :=
  if (type_tag =? TYPE_DOMAIN)%Z then Ok BDomain
  else if (type_tag =? TYPE_IPCIDR)%Z then Ok BIpCidr
  else if (type_tag =? TYPE_CLASSICAL)%Z then Ok BClassical
  else Err (UnsupportedTag type_tag).

(** The configured behaviour, if there is one, is that of the file. *)
Definition check_behavior (expected : option RuleSetBehavior) (actual : RuleSetBehavior) : result MrsBuildError unit :=
  match expected with
  | Some expected => if bool_decide (expected = actual) then Ok tt else Err (BehaviorMismatch expected actual)
  | None => Ok tt
  end.

(** The callback of a stream of entries: the builder and the first error. *)
Definition collect `{SB : SetBuilder B} (strict : bool) (s : B * option SetError) (entry : bytes) :
    option (B * option SetError) :=
  match s.2 with
  | Some _ => Some s
  | None =>
      if strict then push_checked s.1 entry
      else b ← push s.1 entry; Some (b, None)
  end.

Section MrsRuleSets.
Context `{HO : Sealed.HashOrder, UL : UnicodeLower, UU : UnicodeUpper, RO : RegexOps, KO : Geosite.KeyOrder}.
Context `{NN : IpNetNew, PF : Platform, ZL : ZstdLib}.
Variables (σ : Store) (ctx : ParserContext).

(** The set, unless an entry was malformed. *)
Definition report (set : RuleSet) (first_err : option SetError) : result MrsBuildError RuleSet :=
  match first_err with Some e => Err (OfEntry e) | None => Ok set end.

(** ** Upstream files *)

Definition build_upstream_domains (reader : UpstreamRuleSetReader) (strict : bool) :
    option (result MrsBuildError RuleSet) :=
  '(domains, r) ← for_each_domain reader;
  '(builder, first_err) ← foldlM (collect strict) (domain_new, None) domains;
  match r with
  | Err e => Some (Err (OfMrs e))
  | Ok _ =>
      match first_err with
      | Some e => Some (Err (OfEntry e))
      | None => set ← domain_build builder; Some (Ok (domain_set set))
      end
  end.

Definition build_upstream_nets (reader : UpstreamRuleSetReader) : option (result MrsBuildError RuleSet) :=
  '(nets, r) ← for_each_net reader;
  let builder := foldl push_net cidr_new nets in
  Some (match r with Err e => Err (OfMrs e) | Ok _ => Ok (cidr_set (cidr_build builder)) end).

Definition build_upstream (data : bytes) (expected : option RuleSetBehavior) (strict : bool) :
    option (result MrsBuildError RuleSet) :=
  match Upstream.open data with
  | Err e => Some (Err (OfMrs e))
  | Ok reader =>
      match actual ← behavior_from_type_tag (Upstream.behavior reader); _ ← check_behavior expected actual; Ok actual with
      | Err e => Some (Err e)
      | Ok BDomain => build_upstream_domains reader strict
      | Ok BIpCidr => build_upstream_nets reader
      | Ok BClassical => Some (Err UpstreamClassical)
      end
  end.

(** ** The file's own format *)

(** The outcome of a stream, and what is built of the callback's state. *)
Definition finish_stream {S} (r : option (result MrsError S)) (build : S -> option (result MrsBuildError RuleSet)) :
    option (result MrsBuildError RuleSet) :=
  r ← r; match r with Err e => Some (Err (OfMrs e)) | Ok s => build s end.

Definition build_streamed (type_tag : Z) (decoder : stream) (strict : bool) : option (result MrsBuildError RuleSet) :=
  if (type_tag =? TYPE_DOMAIN)%Z then
    finish_stream (stream_string_list (collect strict) decoder (domain_new, None))
      (fun s => set ← domain_build s.1; Some (report (domain_set set) s.2))
  else if (type_tag =? TYPE_IPCIDR)%Z then
    finish_stream (stream_ipcidr_list (fun b net => Some (push_net b net)) decoder cidr_new)
      (fun b => Some (Ok (cidr_set (cidr_build b))))
  else if (type_tag =? TYPE_CLASSICAL)%Z then
    finish_stream (stream_string_list (collect (SB := classical_builder ctx) strict) decoder ([], None))
      (fun s => Some (report (classical_set σ s.1) s.2))
  else Some (Err (UnsupportedTag type_tag)).

Definition build_rule_set_from_mrs_with_behavior (data : bytes) (expected : option RuleSetBehavior) (strict : bool) :
    option (result MrsBuildError RuleSet) :=
  if (4 <=? length data) && bool_decide (take 4 data = ZSTD_MAGIC) then build_upstream data expected strict
  else match parse_header data with
  | Err e => Some (Err (OfMrs e))
  | Ok (hdr, compressed) =>
      match actual ← behavior_from_type_tag (type_tag hdr); check_behavior expected actual with
      | Err e => Some (Err e)
      | Ok _ =>
          match decoder_new compressed with
          | Err e => Some (Err (OfMrs (Zstd (OtherError e))))
          | Ok decoder => build_streamed (type_tag hdr) decoder strict
          end
      end
  end.

Definition build_rule_set_from_mrs (data : bytes) : option (result MrsBuildError RuleSet) :=
  build_rule_set_from_mrs_with_behavior data None false.

(** ** Collecting entries *)

Section Collect.
Context `{SB : SetBuilder B}.

Lemma collect_done strict (b : B) err entries :
  foldlM (collect strict) (b, Some err) entries = Some (b, Some err).
Proof. induction entries as [|e entries IH]; [done|]. cbn [foldlM collect snd mbind option_bind]. apply IH. Qed.

(** The lenient callback is the lenient loop. *)
Lemma collect_lenient (b : B) entries :
  foldlM (collect false) (b, None) entries = (fun b => (b, None)) <$> push_entries b entries.
Proof.
  revert b. induction entries as [|e entries IH]; intros b; [done|]. rewrite push_entries_cons.
  cbn [foldlM collect fst snd]. unfold push. destruct (push_checked b e) as [[b' err]|]; [|done].
  cbn [fmap option_fmap option_map fst mbind option_bind]. apply IH.
Qed.

(** The strict callback keeps the first error and the entries before it. *)
Lemma collect_strict (b : B) entries b' :
  push_entries b entries = Some b' ->
  exists b1 n, foldlM (collect true) (b, None) entries = Some (b1, head (omap entry_error entries)) /\
    push_entries b (take n entries) = Some b1 /\ (head (omap entry_error entries) = None -> b1 = b').
Proof.
  revert b. induction entries as [|e entries IH]; intros b H.
  { unfold push_entries in H. cbn in H. simplify_eq. by exists b', 0. }
  rewrite push_entries_cons in H. cbn [foldlM collect fst snd omap list_omap].
  destruct (push_checked b e) as [[b1 err]|] eqn:E; [|done]. cbn [mbind option_bind] in H |- *.
  pose proof (push_checked_error _ _ _ _ E) as <-. destruct err as [err|].
  - apply push_checked_same in E as ->. exists b, 0. rewrite collect_done. by split.
  - destruct (IH _ H) as (b2 & n & H1 & H2 & H3). exists b2, (S n). split; [done|]. split; [|done].
    cbn [take]. rewrite push_entries_cons, E. done.
Qed.

End Collect.
(** ** Own files *)

Definition type_tag_of (b : RuleSetBehavior) : Z :=
  match b with BDomain => TYPE_DOMAIN | BIpCidr => TYPE_IPCIDR | BClassical => TYPE_CLASSICAL end.

Lemma domain_ops_app es es' : domain_ops (es ++ es') = domain_ops es ++ domain_ops es'.
Proof.
  unfold domain_ops, domain_entries, TrieTheorems.build_ops. by rewrite map_app, List.filter_app, fmap_app.
Qed.

Lemma small_take n es : TrieSpec.small (domain_ops es) -> TrieSpec.small (domain_ops (take n es)).
Proof.
  rewrite <- (take_drop n es) at 1. rewrite domain_ops_app. apply TrieTheorems.small_app.
Qed.

(** The builder after some of the entries can be sealed. *)
Lemma domain_take_build n entries b :
  TrieSpec.small (domain_ops entries) -> push_entries domain_new (take n entries) = Some b -> is_Some (domain_build b).
Proof.
  intros Hs%(small_take n) Hb. destruct (domain_set_spec _ Hs) as (s & H & _). unfold domain_from_entries in H.
  rewrite Hb in H. by eexists.
Qed.

Lemma build_streamed_strings beh entries decoder strict set :
  beh <> BIpCidr -> entries_small beh entries -> build_rule_set σ ctx beh entries = Some set ->
  Forall string_ok entries -> stream_ok decoder -> contents decoder = (mjoin (map encode_string entries), None) ->
  (Z.of_nat (length (mjoin (map encode_string entries))) <= MAX_DECOMPRESSED_BYTES)%Z ->
  build_streamed (type_tag_of beh) decoder strict =
    Some (report set (if strict then first_error ctx beh entries else None)).
Proof.
  intros Hbeh Hsmall Hset He Hs Hc Hlen. unfold build_streamed, finish_stream, first_error.
  destruct beh; [|done|]; cbn [type_tag_of Z.eqb Pos.eqb TYPE_DOMAIN TYPE_IPCIDR TYPE_CLASSICAL first_error entries_small build_rule_set] in *;
    rewrite (stream_string_list_entries _ entries) by done.
  - unfold domain_from_entries in Hset. apply fmap_Some in Hset as (ds & (b & Hb & Hd)%bind_Some & ->).
    destruct strict; [|rewrite collect_lenient, Hb; cbn; by rewrite Hd].
    destruct (collect_strict _ _ _ Hb) as (b1 & n & -> & H1 & H2). cbn [mbind option_bind fst snd fmap option_fmap option_map].
    destruct (domain_take_build _ _ _ Hsmall H1) as [ds1 Hd1]. rewrite Hd1. cbn [mbind option_bind fst snd fmap option_fmap option_map].
    cbn [entry_error domain_builder] in H2 |- *. destruct (head (omap domain_error entries)) eqn:E; [done|].
    rewrite H2 in Hd1 by done. by simplify_eq.
  - unfold classical_from_entries in Hset. apply fmap_Some in Hset as (b & Hb & ->).
    destruct strict; [|rewrite collect_lenient, Hb; done].
    destruct (collect_strict _ _ _ Hb) as (b1 & n & -> & H1 & H2). cbn [mbind option_bind fst snd fmap option_fmap option_map].
    cbn [entry_error classical_builder] in H2 |- *. destruct (head (omap (classical_error ctx) entries)) eqn:E; [done|].
    by rewrite H2.
Qed.

Lemma family_byte_first st x b e :
  stream_ok st -> contents st = (x :: b, e) -> exists st', read_family_byte st = Ok (Some x, st').
Proof.
  induction st as [|[[|y c]| |err] st IH]; intros Hok Hc; cbn [contents read_family_byte] in *; try done.
  - by apply Forall_cons in Hok as [? _].
  - destruct (contents st) as [b' e']. injection Hc as -> _ _. by eexists.
  - apply Forall_cons in Hok as [_ Hok]. by apply IH.
Qed.

Lemma family_byte_end st :
  stream_ok st -> contents st = ([], None) -> exists st', read_family_byte st = Ok (None, st').
Proof.
  induction st as [|[[|y c]| |err] st IH]; intros Hok Hc; cbn [contents read_family_byte] in *; try done; try by eexists.
  - by destruct (contents st).
  - apply Forall_cons in Hok as [_ Hok]. by apply IH.
Qed.

(** A file of strings with the tag of networks: the high byte of the first
    length is read as an address family, which is 4 or 16 only for a string of
    1024 to 1279 or of 4096 to 4351 bytes. *)
Definition no_family (entries : list bytes) : Prop :=
  match entries with
  | [] => True
  | e :: _ => (Z.of_nat (length e) / 256 <> 4 /\ Z.of_nat (length e) / 256 <> 16)%Z
  end.

(** What loading such a file gives. *)
Definition read_as_nets (entries : list bytes) : result MrsBuildError RuleSet :=
  match entries with
  | [] => Ok (cidr_set (cidr_build cidr_new))
  | e :: _ => Err (OfMrs (InvalidBehavior (Z.of_nat (length e) / 256)))
  end.

Lemma build_streamed_ipcidr entries decoder strict :
  Forall string_ok entries -> no_family entries -> stream_ok decoder ->
  contents decoder = (mjoin (map encode_string entries), None) ->
  build_streamed TYPE_IPCIDR decoder strict = Some (read_as_nets entries).
Proof.
  intros He Hn Hs Hc. unfold build_streamed, finish_stream. cbn [Z.eqb Pos.eqb TYPE_DOMAIN TYPE_IPCIDR].
  unfold stream_ipcidr_list, run_reading, frame_new. rewrite Hc. cbn [fst repeat_until_end].
  unfold ipcidr_entry, mbind, reading_bind, read_family. cbn [inner pos]. destruct entries as [|e entries].
  { destruct (family_byte_end _ Hs Hc) as [st' ->]. done. }
  change (mjoin (map encode_string (e :: entries))) with (encode_string e ++ mjoin (map encode_string entries)) in Hc.
  unfold encode_string at 1 in Hc. cbn [to_be_bytes app] in Hc.
  destruct (family_byte_first _ _ _ _ Hs Hc) as [st' Hf]. rewrite Hf, byte_z_byte. change (256 ^ Z.of_nat 1)%Z with 256%Z.
  apply Forall_cons in He as [[Hl _] _]. rewrite Z.mod_small by (split; [apply Z.div_pos; lia|apply Z.div_lt_upper_bound; lia]).
  destruct Hn as [H4%Z.eqb_neq H16%Z.eqb_neq]. by rewrite H4, H16.
Qed.

Lemma type_tag_behavior beh : behavior_from_type_tag (type_tag_of beh) = Ok beh.
Proof. by destruct beh. Qed.

(** A written file is loaded from the decoder of its payload. *)
Lemma own_file_built beh entries file expected strict :
  write_ruleset_mrs (type_tag_of beh) entries = Ok file ->
  exists decoder, stream_ok decoder /\ contents decoder = (mjoin (map encode_string entries), None) /\
    build_rule_set_from_mrs_with_behavior file expected strict =
      match check_behavior expected beh with
      | Err e => Some (Err e)
      | Ok _ => build_streamed (type_tag_of beh) decoder strict
      end.
Proof.
  unfold write_ruleset_mrs, write_mrs. destruct (encode_all _) as [c|] eqn:Ec; [|done]. intros Hf.
  assert (file = header_bytes (type_tag_of beh) (Z.of_nat (length entries)) ++ c) as -> by congruence. clear Hf.
  destruct (encode_decode _ _ Ec) as (decoder & Hd & Hs & Hc). exists decoder. split_and!; [done|done|].
  unfold build_rule_set_from_mrs_with_behavior. rewrite andb_comm, bool_decide_eq_false_2 by done. cbn [andb].
  rewrite parse_header_bytes by by destruct beh. cbn [type_tag]. rewrite type_tag_behavior.
  cbn [mbind result_bind]. destruct (check_behavior expected beh); [|done]. by rewrite Hd.
Qed.

(** C38: rule sets in the container of the program round trip. Let a file be
    written from UTF-8 entries of less than 64 KiB each, within the size limit
    of a decompressed payload, whose domains fit the node index of the trie. A
    configured behaviour other than the file's is an error. Else a file of
    domains or rules loads to the set that is built from the entries
    themselves; in strict mode the first malformed entry is the error instead.
    For networks the written strings do not load: the loader expects binary
    networks and rejects the file of a non-empty list at its first byte, the
    high byte of the length of the first entry, unless that is 4 or 16, which
    takes an entry of at least 1024 bytes; an empty list loads. *)
Theorem mrs_ruleset_roundtrip beh entries expected strict file :
  Forall string_ok entries ->
  (Z.of_nat (length (mjoin (map encode_string entries))) <= MAX_DECOMPRESSED_BYTES)%Z ->
  entries_small beh entries -> (beh = BIpCidr -> no_family entries) ->
  write_ruleset_mrs (type_tag_of beh) entries = Ok file ->
  exists set, build_rule_set σ ctx beh entries = Some set /\
    build_rule_set_from_mrs_with_behavior file expected strict =
    Some (match check_behavior expected beh with
      | Err e => Err e
      | Ok _ =>
          match beh with
          | BIpCidr => match entries with [] => Ok set | _ => read_as_nets entries end
          | _ => report set (if strict then first_error ctx beh entries else None)
          end
      end).
Proof.
  intros He Hlen Hsmall Hn Hw. destruct (build_rule_set_total σ ctx beh entries Hsmall) as [set Hset].
  exists set. split; [done|]. destruct (own_file_built _ _ _ expected strict Hw) as (decoder & Hs & Hc & ->).
  destruct (check_behavior expected beh); [|done]. destruct (decide (beh = BIpCidr)) as [->|Hne].
  - cbn [type_tag_of]. rewrite (build_streamed_ipcidr entries) by auto. destruct entries; [|done]. by injection Hset as <-.
  - rewrite (build_streamed_strings beh entries _ _ set) by done. by destruct beh.
Qed.

(** ** Upstream files *)

Lemma upstream_dispatch file expected strict :
  take 4 file = ZSTD_MAGIC -> build_rule_set_from_mrs_with_behavior file expected strict = build_upstream file expected strict.
Proof.
  intros H. unfold build_rule_set_from_mrs_with_behavior. rewrite bool_decide_eq_true_2 by done.
  rewrite (proj2 (Nat.leb_le _ _)); [done|]. apply (f_equal length) in H. rewrite length_take in H.
  change (length ZSTD_MAGIC) with 4 in H. lia.
Qed.

Lemma small_perm es es' : es ≡ₚ es' -> TrieSpec.small (domain_ops es) -> TrieSpec.small (domain_ops es').
Proof.
  intros Hp. unfold TrieSpec.small.
  assert (E : sum_list_with TrieSpec.op_cost (domain_ops es) = sum_list_with TrieSpec.op_cost (domain_ops es')); [|by rewrite E].
  induction Hp as [|x l l' _ IH|x y l|]; [done| | |congruence].
  - change (x :: l) with ([x] ++ l). change (x :: l') with ([x] ++ l'). rewrite !domain_ops_app, !sum_list_with_app. lia.
  - change (y :: x :: l) with ([y] ++ [x] ++ l). change (x :: y :: l) with ([x] ++ [y] ++ l).
    rewrite !domain_ops_app, !sum_list_with_app. lia.
Qed.

(** The keys of entries are within the limits of the walk. *)
Definition entries_within (entries : list bytes) : Prop :=
  within MAX_DOMAIN_SET_ENTRIES MAX_DOMAIN_SET_BYTES (rev_chars <$> entries) /\
  Forall (fun e => Z.of_nat (length (rev_chars e)) < MAX_DOMAIN_SET_DEPTH)%Z entries.

(** C15: an upstream domain file loads to its domains. For distinct UTF-8
    entries within the limits, one of them not empty, the encoded file loads
    to a set that matches a connection exactly when its host matches an
    entry, where a leading '+' of an entry stands for the marker of the
    stored key and is dropped. *)
Theorem upstream_domains_exact entries body file :
  Forall (fun e => from_utf8_ok e = true) entries -> NoDup entries -> (exists e, e ∈ entries /\ e <> []) ->
  entries_within entries -> TrieSpec.small (domain_ops (plain <$> entries)) ->
  encode_domain_set_runes entries = Some body ->
  encode_upstream_mrs TYPE_DOMAIN (Z.of_nat (length entries)) body = Some file ->
  (Z.of_nat (length (upstream_inner TYPE_DOMAIN (Z.of_nat (length entries)) body)) <= MAX_DECOMPRESSED_BYTES)%Z ->
  exists set, build_rule_set_from_mrs file = Some (Ok set) /\ behavior set = BDomain /\
    forall m, set_matches set m = true <->
      rule_host m <> [] /\ exists e, e ∈ entries /\ TrieTheorems.pattern_matches (plain e) (rule_host m).
Proof.
  intros Hu Hnd (e0 & He0 & Hne) [Hlim Hdep] Hsmall Hbody Hfile Hlen.
  destruct (open_encoded _ _ _ _ Hfile) as (Hmagic & rd & Hopen & Hbeh & Hbd & _); [by left| |done|].
  { destruct Hlim as [Hn _]. rewrite length_fmap in Hn. unfold MAX_DOMAIN_SET_ENTRIES in Hn. lia. }
  assert (Hwalk : walk_upstream_domain_set body =
    Some (omap decode_key (sort_keys (rev_chars <$> entries)), Ok (count_skipped (rev_chars <$> entries)))).
  { destruct (domain_set_walks (rev_chars <$> entries)) as (body' & Henc & Hw).
    - apply NoDup_fmap_2_strong; [|done]. intros a b Ha Hb E. rewrite Forall_forall in Hu.
      rewrite <- (proj2 (rev_chars_valid a (Hu a Ha))), E. by apply rev_chars_valid, Hu.
    - exists (rev_chars e0). split; [by apply list_elem_of_fmap_2|]. intros E. apply Hne.
      rewrite Forall_forall in Hu. rewrite <- (proj2 (rev_chars_valid e0 (Hu e0 He0))), E. done.
    - done.
    - intros key (e & -> & He)%list_elem_of_fmap. rewrite Forall_forall in Hdep. by apply Hdep.
    - unfold encode_domain_set_runes in Hbody. assert (body' = body) as -> by congruence. apply Hw.
      unfold upstream_inner in Hlen. rewrite !length_app in Hlen. unfold MAX_DECOMPRESSED_BYTES in Hlen. lia. }
  unfold build_rule_set_from_mrs. rewrite (upstream_dispatch _ _ _ Hmagic). unfold build_upstream. rewrite Hopen, Hbeh.
  cbn [behavior_from_type_tag TYPE_DOMAIN Z.eqb mbind result_bind check_behavior].
  unfold build_upstream_domains, for_each_domain. rewrite Hbeh, Hbd, Hwalk.
  cbn [TYPE_DOMAIN Z.eqb negb mbind option_bind]. rewrite collect_lenient.
  pose proof (decode_entries _ Hu) as Hperm.
  destruct (domain_set_spec (omap decode_key (sort_keys (rev_chars <$> entries)))) as (ds & Hds & Hm).
  { by apply (small_perm (plain <$> entries)). }
  unfold domain_from_entries in Hds. apply bind_Some in Hds as (b & -> & Hds). cbn [fmap option_fmap option_map mbind option_bind].
  rewrite Hds. cbn [mbind option_bind]. exists (domain_set ds). split; [done|]. split; [done|]. intros m.
  cbn [set_matches domain_set]. unfold domain_matches. case_bool_decide as Hh; [naive_solver|].
  rewrite Hm. setoid_rewrite Hperm. setoid_rewrite list_elem_of_fmap. naive_solver.
Qed.

(** A body of address ranges. *)
Definition range_bytes (r : Z * Z) : bytes := to_be_bytes 16 r.1 ++ to_be_bytes 16 r.2.
Definition ranges_body (rs : list (Z * Z)) : bytes :=
  [z_byte 1] ++ to_be_bytes 8 (Z.of_nat (length rs)) ++ mjoin (map range_bytes rs).

Definition range_ok (r : Z * Z) : Prop := (0 <= r.1 <= u128_max /\ 0 <= r.2 <= u128_max)%Z.

Lemma read_range_off r rest pos :
  range_ok r -> read_range (mkBytes (range_bytes r ++ rest) pos) = Ok (r.1, r.2, mkBytes rest (pos + 32)).
Proof.
  intros [H1 H2]. unfold read_range, range_bytes. rewrite <- app_assoc.
  assert (Hs : forall what z rest pos, read_slice (mkBytes (to_be_bytes 16 z ++ rest) pos) what 16 =
    Ok (to_be_bytes 16 z, mkBytes rest (pos + 16))) by (intros; apply (off_slice _ (to_be_bytes 16 z))).
  assert (Hu : forall z, (0 <= z <= u128_max)%Z -> from_be_bytes (to_be_bytes 16 z) = z).
  { intros z Hz. apply be_roundtrip_small. change (256 ^ Z.of_nat 16)%Z with (u128_max + 1)%Z. lia. }
  rewrite Hs. cbn [mbind result_bind]. rewrite Hs. cbn [mbind result_bind]. rewrite !Hu by done. do 3 f_equal. lia.
Qed.

Lemma net_loop_ranges rs fuel pos nets :
  Forall range_ok rs -> length rs <= fuel ->
  (Z.of_nat (length nets + 258 * length rs) <= MAX_DOMAIN_SET_ENTRIES)%Z ->
  exists more, net_loop fuel (Z.of_nat (length rs)) (mkBytes (mjoin (map range_bytes rs)) pos) nets = Some (nets ++ more, Ok tt) /\
    forall addr, nets_contain more addr = existsb (fun r => range_holds r.1 r.2 addr) rs.
Proof.
  intros Hrs. revert fuel pos nets. induction Hrs as [|r rs Hr _ IH]; intros fuel pos nets Hf Hn.
  { exists []. split; [|done]. rewrite app_nil_r. by destruct fuel. }
  destruct fuel as [|fuel]; [cbn in Hf; lia|]. cbn [length] in *.
  change (mjoin (map range_bytes (r :: rs))) with (range_bytes r ++ mjoin (map range_bytes rs)).
  cbn [net_loop]. rewrite (proj2 (Z.leb_gt _ 0)), read_range_off by (done || lia).
  destruct (push_range_prefixes_spec r.1 r.2) as (ns & -> & Hl & _ & Hc); [apply Hr..|]. cbn [mbind option_bind].
  rewrite (proj2 (Z.ltb_ge _ _)) by (rewrite length_app; lia).
  replace (Z.of_nat (S (length rs)) - 1)%Z with (Z.of_nat (length rs)) by lia.
  destruct (IH fuel (pos + 32)%Z (nets ++ ns)) as (more & -> & Hm); [lia|rewrite length_app; lia|].
  exists (ns ++ more). split; [by rewrite <- app_assoc|]. intros addr. unfold nets_contain in *.
  rewrite existsb_app, Hc, Hm. done.
Qed.

Lemma push_nets nets b :
  foldl push_net b nets = mkCidrBuilder (foldl builder_add (cb_set b) nets) (cb_count b + length nets).
Proof.
  revert b. induction nets as [|n nets IH]; intros b; cbn [foldl length].
  - rewrite Nat.add_0_r. by destruct b.
  - rewrite IH. cbn. f_equal. lia.
Qed.

(** The loop over the records ends on any body. *)
Lemma net_loop_total fuel left r nets : length (br_data r) <= fuel -> is_Some (net_loop fuel left r nets).
Proof.
  assert (Hsl : forall r what n b r', read_slice r what n = Ok (b, r') -> (0 < n)%Z ->
    length b = Z.to_nat n /\ length (br_data r') < length (br_data r)).
  { intros r0 what n b r'. unfold read_slice, need. case_match eqn:E; [done|]. apply Z.ltb_ge in E. cbn.
    intros [= <- <-] Hn. cbn. rewrite length_take, length_drop. lia. }
  assert (Hbd : forall b, length b = 16 -> (0 <= from_be_bytes b <= u128_max)%Z).
  { intros b Hb. pose proof (from_be_bound b) as Hbb. rewrite Hb in Hbb.
    change (256 ^ Z.of_nat 16)%Z with (u128_max + 1)%Z in Hbb. lia. }
  revert left r nets. induction fuel as [|fuel IH]; intros left r nets Hf; cbn [net_loop].
  all: case_match; [done|]; unfold read_range.
  all: destruct (read_slice r _ 16) as [[f r1]|] eqn:E1; cbn [mbind result_bind]; [|done].
  all: destruct (read_slice r1 _ 16) as [[to r2]|] eqn:E2; cbn [mbind result_bind]; [|done].
  all: apply Hsl in E1 as [L1 D1], E2 as [L2 D2]; [|done..].
  { lia. }
  destruct (push_range_prefixes_spec (from_be_bytes f) (from_be_bytes to)) as (ns & -> & _); [by apply Hbd..|].
  cbn [mbind option_bind]. case_match; [done|]. apply IH. lia.
Qed.

(** C39: an upstream file of address ranges loads to its addresses. For at
    least one range of 128-bit addresses and at most a 258th of
    [MAX_DOMAIN_SET_ENTRIES], since a range may split into 258 networks, the
    encoded file loads to a set that matches a connection exactly when its
    destination address is in one of the ranges. *)
Theorem upstream_ranges_exact rs file :
  Forall range_ok rs -> rs <> [] -> (Z.of_nat (258 * length rs) <= MAX_DOMAIN_SET_ENTRIES)%Z ->
  encode_upstream_mrs TYPE_IPCIDR (Z.of_nat (length rs)) (ranges_body rs) = Some file ->
  exists set, build_rule_set_from_mrs file = Some (Ok set) /\ behavior set = BIpCidr /\
    forall m, set_matches set m = true <->
      exists ip r, dst_ip m = Some ip /\ r ∈ rs /\ range_holds r.1 r.2 ip = true.
Proof.
  intros Hrs Hne Hn Hfile. assert (0 < length rs) by (destruct rs; [done|cbn; lia]).
  unfold MAX_DOMAIN_SET_ENTRIES in Hn.
  assert (Hlen : length (mjoin (map range_bytes rs)) = 32 * length rs).
  { clear. induction rs as [|r rs IH]; [done|].
    change (mjoin (map range_bytes (r :: rs))) with (range_bytes r ++ mjoin (map range_bytes rs)).
    unfold range_bytes at 1. rewrite !length_app, !to_be_bytes_length, IH. cbn [length]. lia. }
  destruct (open_encoded _ _ _ _ Hfile) as (Hmagic & rd & Hopen & Hbeh & Hbd & _); [by right|lia| |].
  { unfold upstream_inner, ranges_body. rewrite !length_app, !to_be_bytes_length, Hlen.
    unfold MAX_DECOMPRESSED_BYTES. cbn [length UPSTREAM_MRS_MAGIC]. simpl. lia. }
  unfold build_rule_set_from_mrs. rewrite (upstream_dispatch _ _ _ Hmagic). unfold build_upstream. rewrite Hopen, Hbeh.
  cbn [behavior_from_type_tag TYPE_DOMAIN TYPE_IPCIDR Z.eqb mbind result_bind check_behavior].
  unfold build_upstream_nets, for_each_net. rewrite Hbeh, Hbd. cbn [TYPE_IPCIDR Z.eqb Pos.eqb negb].
  unfold ranges_body, bytes_new. rewrite (off_u8 _ 1) by done. cbn [mbind result_bind Z.eqb Pos.eqb negb].
  rewrite off_i64 by lia. cbn [mbind result_bind]. rewrite (proj2 (Z.ltb_ge _ _)) by lia. cbn [br_data].
  edestruct (net_loop_ranges rs (length (mjoin (map range_bytes rs)))) as (nets & -> & Hnets);
    [done|lia|cbn [length]; unfold MAX_DOMAIN_SET_ENTRIES; lia|].
  cbn [mbind option_bind app]. eexists. split; [done|]. split; [done|]. intros m. rewrite push_nets.
  cbn [set_matches cidr_set cidr_build cs_set cb_set cidr_new]. fold (from_nets nets).
  destruct (dst_ip m) as [ip|]; cbn [from_option]; [|naive_solver].
  rewrite set_contains_nets, Hnets, existsb_exists. setoid_rewrite <- list_elem_of_In. naive_solver.
Qed.

End MrsRuleSets.
(** ** Witnesses *)

#[local] Existing Instance Sealed.default_hash_order.
#[local] Existing Instance toy_regex.
#[local] Existing Instance prefix_net_lib.
#[local] Existing Instance prefix_net_new.
#[local] Existing Instance Geosite.default_key_order.
#[local] Existing Instance raw_zstd.

Definition mrs_entries : list bytes := [b! "ok.example"; b! "+."].

Lemma mrs_ruleset_roundtrip_witness :
  exists file set, write_ruleset_mrs TYPE_DOMAIN mrs_entries = Ok file /\
    build_rule_set_from_mrs_with_behavior (PF := linux) empty_store empty_context file (Some BDomain) false = Some (Ok set) /\
    build_rule_set_from_mrs_with_behavior (PF := linux) empty_store empty_context file None true =
      Some (Err (OfEntry (InvalidPattern (b! "+.")))).
Proof.
  assert (Hok : Forall string_ok mrs_entries) by (repeat constructor).
  pose proof (fun exp strict file => mrs_ruleset_roundtrip (PF := linux) empty_store empty_context BDomain mrs_entries exp strict file Hok) as H.
  destruct (write_ruleset_mrs TYPE_DOMAIN mrs_entries) as [file|] eqn:Ef; [|discriminate Ef].
  destruct (H (Some BDomain) false file) as (set & _ & H1); [vm_compute; discriminate|vm_compute; reflexivity|discriminate|exact Ef|].
  destruct (H None true file) as (set' & _ & H2); [vm_compute; discriminate|vm_compute; reflexivity|discriminate|exact Ef|].
  exists file, set. split; [done|]. rewrite H1, H2. split; reflexivity.
Defined.

Definition upstream_entries : list bytes := [b! "+.a.com"; b! "org"].

Lemma upstream_domains_exact_witness :
  exists file set, encode_domain_set_runes upstream_entries ≫= encode_upstream_mrs TYPE_DOMAIN 2 = Some file /\
    build_rule_set_from_mrs (PF := linux) empty_store empty_context file = Some (Ok set) /\
    set_matches set (host_only (b! "www.a.com")) = true.
Proof.
  destruct (encode_domain_set_runes upstream_entries) as [body|] eqn:Eb; [|vm_compute in Eb; discriminate Eb].
  destruct (encode_upstream_mrs TYPE_DOMAIN 2 body) as [file|] eqn:Ef; [|discriminate Ef].
  destruct (upstream_domains_exact (PF := linux) empty_store empty_context upstream_entries body file) as (set & Hs & _ & H).
  - repeat constructor.
  - apply (bool_decide_unpack _). by vm_compute.
  - exists (b! "org"). split; [right; left|done].
  - split; [split; vm_compute; discriminate|]. repeat constructor.
  - vm_compute. reflexivity.
  - exact Eb.
  - exact Ef.
  - vm_compute in Eb. injection Eb as <-. vm_compute. discriminate.
  - exists file, set. split; [exact Ef|]. split; [exact Hs|]. apply H. split; [discriminate|].
    exists (b! "+.a.com"). split; [left|]. exists (Trie.Dot, b! "a.com"). split; [vm_compute; left|]. by exists (b! "www").
Defined.

(** 192.168.0.0 to 192.168.0.255, mapped. *)
Definition demo_ranges : list (Z * Z) := [(281473913978880, 281473913979135)]%Z.

Lemma upstream_ranges_exact_witness :
  exists file set, encode_upstream_mrs TYPE_IPCIDR 1 (ranges_body demo_ranges) = Some file /\
    build_rule_set_from_mrs (PF := linux) empty_store empty_context file = Some (Ok set) /\ behavior set = BIpCidr.
Proof.
  destruct (encode_upstream_mrs TYPE_IPCIDR 1 (ranges_body demo_ranges)) as [file|] eqn:Ef; [|discriminate Ef].
  destruct (upstream_ranges_exact (PF := linux) empty_store empty_context demo_ranges file) as (set & Hs & Hb & _).
  - repeat constructor; vm_compute; discriminate.
  - discriminate.
  - vm_compute. discriminate.
  - exact Ef.
  - exists file, set. split; [done|]. split; [exact Hs|exact Hb].
Defined.

End MrsRuleSets.
