(* ===== verification/RuleOp.v ===== *)
(** * Lowering rules to native predicates (crates/meow-tunnel/src/rule_ir.rs)

    [RuleOp] with its compiler, its constant folding and its evaluation.
    Lowering and folding keep the meaning of the rule they start from. *)

From S2P Require Import Prelude Strings Ip IpSet Ports Regex Wildcard Metadata.
From S2P Require Import Trie TrieSealed DomainTrie Geosite Rules.

#[local] Set Warnings "-register-all".

Module RuleOp.
Import IpSet Ports Metadata Geosite Wildcard Rules.

Section RuleOp.
Context `{HO : Sealed.HashOrder, UL : UnicodeLower, UU : UnicodeUpper, RO : RegexOps, KO : KeyOrder}.
Context `{NL : IpNetLib, PF : Platform}.

Inductive ProcessPathOp :=
  | PPGlob (re : Regex)
  | PPPrefix (prefix : bytes)
  | PPExact (exact : bytes).

Record InTypeMask := mkMask {
  m_http : bool; m_https : bool; m_socks5 : bool; m_tproxy : bool; m_inner : bool }.

Inductive RuleOp :=
  | ODomain (domain : bytes)
  | ODomainSuffix (suf : bytes)
  | ODomainKeyword (keyword : bytes)
  | ODomainRegex (m : RegexMatcher)
  | ODomainWildcard (m : WildcardMatcher)
  | OIpCidr (net : IpNet) (src : bool)
  | OSrcPort (m : PortMatcher)
  | ODstPort (m : PortMatcher)
  | OInPort (m : PortMatcher)
  | ODscp (value : Z)
  | OProcessName (name : bytes)
  | OProcessPath (op : ProcessPathOp)
  | ONetwork (net : Network)
  | OUid (uid : Z)
  | OInName (name : bytes)
  | OInType (mask : InTypeMask)
  | OInUser (user : bytes)
  | OMatch
  | OGeoSite (db : ptr) (keys : list bytes)
  | ORuleSetRef (set : ptr)
  | OIpRanges (set : ptr) (src : bool)
  | OIpSuffix (matcher : Family) (src : bool)
  | OAllOf (children : list RuleOp)
  | OAnyOf (children : list RuleOp)
  | ONotOp (child : RuleOp)
  | OTrieOwned
  | OFallback.

(** ** Compiling *)

Definition compile_network (payload : bytes) : option RuleOp :=
  let p := to_ascii_lowercase payload in
  if bool_decide (p = b! "tcp") then Some (ONetwork Tcp)
  else if bool_decide (p = b! "udp") then Some (ONetwork Udp)
  else None.

Definition compile_in_type (payload : bytes) : option InTypeMask :=
  let p := to_ascii_uppercase payload in
  if bool_decide (p = b! "HTTP") then Some (mkMask true true false false false)
  else if bool_decide (p = b! "HTTPS") then Some (mkMask false true false false false)
  else if bool_decide (p = b! "SOCKS5") then Some (mkMask false false true false false)
  else if bool_decide (p = b! "TPROXY") then Some (mkMask false false false true false)
  else if bool_decide (p = b! "INNER") then Some (mkMask false false false false true)
  else None.

Definition compile_process_path (payload : bytes) : option ProcessPathOp :=
  if contains_byte star payload then PPGlob <$> regex_new (process_path_regex payload)
  else if starts_with_sep payload then Some (PPPrefix payload)
  else Some (PPExact payload).

Definition compile_in_port (payload : bytes) : option RuleOp := OInPort <$> compile_port_matcher payload.

Definition compile_op (t : RuleType) (payload : bytes) : option RuleOp :=
  match t with
  | TDomain => Some (ODomain (to_ascii_lowercase payload))
  | TDomainSuffix => Some (ODomainSuffix (to_ascii_lowercase payload))
  | TDomainKeyword => Some (ODomainKeyword (to_ascii_lowercase payload))
  | TDomainRegex => ODomainRegex <$> compile_domain_regex payload
  | TDomainWildcard => ODomainWildcard <$> compile_domain_wildcard payload
  | TIpCidr => (fun net => OIpCidr (trunc net) false) <$> parse_net payload
  | TSrcIpCidr => (fun net => OIpCidr (trunc net) true) <$> parse_net payload
  | TSrcPort => OSrcPort <$> compile_port_matcher payload
  | TDstPort => ODstPort <$> compile_port_matcher payload
  | TInPort => compile_in_port payload
  | TDscp =>
      v ← parse_u8 (trim payload); if (v <=? 63)%Z then Some (ODscp v) else None
  | TProcessName => Some (OProcessName payload)
  | TProcessPath => OProcessPath <$> compile_process_path payload
  | TNetwork => compile_network payload
  | TUid => OUid <$> parse_u32 (trim payload)
  | TInName => Some (OInName payload)
  | TInType => OInType <$> compile_in_type payload
  | TInUser => Some (OInUser payload)
  | TMatch => Some OMatch
  | TGeoSite | TGeoIp | TSrcGeoIp | TRuleSet | TAnd | TOr | TNot | TIpSuffix | TSrcIpSuffix
  | TIpAsn | TSrcIpAsn | TSubRule => None
  end.

Definition or_else {A} (o o' : option A) : option A := match o with Some _ => o | None => o' end.

(** Lowering by downcast, with [lower_rule] on the children. *)
Fixpoint lower_native (σ : Store) (r : Rule) : option RuleOp :=
  match r with
  | GeoSiteRule category _ _ db =>
      p ← db;
      keys ← resolve_keys (dbs σ p) category;
      Some (OGeoSite p keys)
  | RuleSetRule _ set _ flags => if is_src_flag flags then None else Some (ORuleSetRef set)
  | GeoIpRule _ _ _ ranges => Some (OIpRanges ranges false)
  | SrcGeoIpRule _ _ ranges => Some (OIpRanges ranges true)
  | IpAsnRule _ _ ranges src _ => Some (OIpRanges ranges src)
  | IpSuffixRule _ _ family src _ => Some (OIpSuffix family src)
  | AndRule rules _ _ =>
      OAllOf <$> mapM (fun r => or_else (compile_op (rule_type r) (payload r)) (lower_native σ r)) rules
  | OrRule rules _ _ =>
      OAnyOf <$> mapM (fun r => or_else (compile_op (rule_type r) (payload r)) (lower_native σ r)) rules
  | NotRule rule _ _ =>
      ONotOp <$> or_else (compile_op (rule_type rule) (payload rule)) (lower_native σ rule)
  | _ => None
  end.

Definition lower_rule (σ : Store) (r : Rule) : option RuleOp :=
  or_else (compile_op (rule_type r) (payload r)) (lower_native σ r).

(** ** Evaluation *)

Definition process_path_matches (op : ProcessPathOp) (process_path : bytes) : bool :=
  if bool_decide (process_path = []) then false
  else match op with
  | PPGlob re => is_match re process_path
  | PPPrefix prefix =>
      if bool_decide (process_path = prefix) then true
      else match strip_prefix prefix process_path with
      | Some rest => starts_with_sep rest
      | None => false
      end
  | PPExact exact => bool_decide (default process_path (file_name process_path) = exact)
  end.

Definition in_type_matches (mask : InTypeMask) (t : ConnType) : bool :=
  match t with
  | Http => m_http mask | Https => m_https mask | Socks5 => m_socks5 mask
  | TProxy => m_tproxy mask | Inner => m_inner mask
  | _ => false
  end.

Definition uid_matches (m : Metadata) (value : Z) : bool :=
  uid_info_available && bool_decide (uid m = Some value).

Fixpoint matches_op (σ : Store) (m : Metadata) (op : RuleOp) : bool :=
  let host := rule_host m in
  match op with
  | OGeoSite db keys =>
      negb (bool_decide (host = [])) && forallb (fun key => lookup_resolved (dbs σ db) key host) keys
  | ORuleSetRef set => set_matches (sets σ set) m
  | OIpRanges set src => ip_in (if src then src_ip m else dst_ip m) (set_contains (range_sets σ set))
  | OIpSuffix matcher src => ip_in (if src then src_ip m else dst_ip m) (suffix_matches matcher)
  | OAllOf children => forallb (matches_op σ m) children
  | OAnyOf children => existsb (matches_op σ m) children
  | ONotOp child => negb (matches_op σ m child)
  | ODomain domain => eq_ignore_ascii_case host domain
  | ODomainSuffix suffix => domain_suffix_matches host suffix
  | ODomainKeyword keyword => domain_keyword_matches host keyword
  | ODomainRegex regex => regex_matches regex host
  | ODomainWildcard matcher => wildcard_matches matcher host
  | OIpCidr net src => ip_in (if src then src_ip m else dst_ip m) (net_contains net)
  | OSrcPort matcher => port_matches matcher (src_port m)
  | ODstPort matcher => port_matches matcher (dst_port m)
  | OInPort matcher => negb (in_port m =? 0)%Z && port_matches matcher (in_port m)
  | ODscp value => bool_decide (dscp m = Some value)
  | OProcessName name => eq_ignore_ascii_case (process m) name
  | OProcessPath op => process_path_matches op (process_path m)
  | ONetwork net => bool_decide (network m = net)
  | OUid value => uid_matches m value
  | OInName name => negb (bool_decide (in_name m = [])) && bool_decide (in_name m = name)
  | OInType mask => in_type_matches mask (conn_type m)
  | OInUser user => bool_decide (in_user m = Some user)
  | OMatch => true
  | OTrieOwned | OFallback => false
  end.

(** ** Constant folding *)

Definition op_never_matches (σ : Store) (op : RuleOp) : bool :=
  match op with
  | OUid _ => negb uid_info_available
  | OIpRanges set _ => set_is_empty (range_sets σ set)
  | OProcessPath _ => negb process_info_available
  | OProcessName payload => negb process_info_available && negb (bool_decide (payload = []))
  | _ => false
  end.

Inductive Folded :=
  | Never
  | Always
  | FOp (op : RuleOp).

(** The loop over the children of an AND: [None] is the early return. *)
Fixpoint fold_all (children : list Folded) : option (list RuleOp) :=
  match children with
  | [] => Some []
  | Never :: _ => None
  | Always :: children => fold_all children
  | FOp op :: children => kept ← fold_all children; Some (op :: kept)
  end.

Fixpoint fold_any (children : list Folded) : option (list RuleOp) :=
  match children with
  | [] => Some []
  | Always :: _ => None
  | Never :: children => fold_any children
  | FOp op :: children => kept ← fold_any children; Some (op :: kept)
  end.

Fixpoint fold_op (σ : Store) (op : RuleOp) : Folded :=
  if op_never_matches σ op then Never
  else match op with
  | OMatch => Always
  | OAllOf children =>
      match fold_all (map (fold_op σ) children) with
      | None => Never
      | Some [] => Always
      | Some [op] => FOp op
      | Some kept => FOp (OAllOf kept)
      end
  | OAnyOf children =>
      match fold_any (map (fold_op σ) children) with
      | None => Always
      | Some [] => Never
      | Some [op] => FOp op
      | Some kept => FOp (OAnyOf kept)
      end
  | ONotOp child =>
      match fold_op σ child with
      | Never => Always
      | Always => Never
      | FOp folded => FOp (ONotOp folded)
      end
  | other => FOp other
  end.

(** ** What a connection and a rule must satisfy

    Wildcard payloads are not empty and, with the host, ASCII. *)

Definition wildcard_ok (r : Rule) : Prop :=
  match r with
  | DomainWildcardRule _ raw _ => is_ascii raw = true /\ raw <> []
  | _ => True
  end.

Fixpoint all_leaves (P : Rule -> Prop) (r : Rule) : Prop :=
  match r with
  | AndRule rules _ _ | OrRule rules _ _ | SubRuleRule _ rules => all_of (all_leaves P) rules
  | NotRule rule _ _ => all_leaves P rule
  | r => P r
  end.

Definition lowerable (r : Rule) : Prop := all_leaves (fun r => leaf_ok r /\ wildcard_ok r) r.

Lemma rule_ok_lowerable r : rule_ok r -> all_leaves wildcard_ok r -> lowerable r.
Proof.
  unfold lowerable.
  induction r as [r Hl|rs a p IH|rs a p IH|r a p IH|n rs IH] using Rule_nested_ind.
  - destruct r; done.
  - cbn [rule_ok all_leaves]. rewrite !all_of_Forall, !Forall_forall in *. intros [_ H1] H2 r Hr. auto.
  - cbn [rule_ok all_leaves]. rewrite !all_of_Forall, !Forall_forall in *. intros [_ H1] H2 r Hr. auto.
  - cbn [rule_ok all_leaves]. intros [_ H1] H2. auto.
  - cbn [rule_ok all_leaves]. rewrite !all_of_Forall, !Forall_forall in *. intros H1 H2 r Hr. auto.
Qed.

Lemma lower_ascii s : is_ascii (to_ascii_lowercase s) = true -> is_ascii s = true.
Proof.
  unfold is_ascii, to_ascii_lowercase. rewrite !forallb_forall. intros H c Hc.
  specialize (H (byte_lower c)). rewrite <- list_elem_of_In in *. 
  assert (Hb : byte_lower c ∈ byte_lower <$> s) by (apply list_elem_of_fmap; by exists c).
  specialize (H Hb). clear Hb Hc. by destruct c as [[] [] [] [] [] [] [] []].
Qed.

Section Sound.
Context `{RL : !RegexLaws}.
Variables (σ σ' : Store) (m : Metadata).
Hypothesis Hσ : refreshed σ σ'.
Hypothesis Hhost : is_ascii (rule_host m) = true.

Lemma eq_ignore_lower a b : eq_ignore_ascii_case a (to_ascii_lowercase b) = eq_ignore_ascii_case a b.
Proof.
  apply eq_bool_prop_intro. rewrite !Is_true_true, !eq_ignore_ascii_case_spec.
  by rewrite to_ascii_lowercase_idemp.
Qed.

Lemma suffix_lower a b : domain_suffix_matches a (to_ascii_lowercase b) = domain_suffix_matches a b.
Proof.
  unfold domain_suffix_matches. rewrite length_lowercase. by rewrite !eq_ignore_lower.
Qed.

Lemma keyword_lower a b : domain_keyword_matches a (to_ascii_lowercase b) = domain_keyword_matches a b.
Proof. by rewrite !domain_keyword_matches_spec, to_ascii_lowercase_idemp. Qed.

Lemma compiled_regex_sound p re rm host :
  regex_new p = Some re -> compile_domain_regex p = Some rm -> regex_matches rm host = is_match re host.
Proof.
  intros Hre. unfold compile_domain_regex. rewrite Hre. intros [= <-]. unfold regex_matches. cbn.
  unfold required_literal_from_plain_regex. case_bool_decide as Hp; [done|]. simpl.
  destruct (existsb is_regex_meta_byte p) eqn:Em; [done|].
  assert (Hplain : is_plain p = true) by (unfold is_plain; by rewrite Em).
  rewrite domain_keyword_matches_spec, to_ascii_lowercase_idemp.
  rewrite (regex_plain p re host Hplain Hp Hre).
  destruct (contains (to_ascii_lowercase p) _) eqn:Ec; [done|].
  destruct (contains p host) eqn:Eh; [|done].
  apply contains_spec in Eh as (a & b & ->). by rewrite !lowercase_app, contains_infix in Ec.
Qed.

Lemma glob_nil p : p <> [] -> glob p [] = false.
Proof. destruct p as [|c p]; [done|]. intros _. simpl. by destruct (decide _). Qed.

(** A wildcard rule accepts the language of its payload. *)
Lemma wildcard_rule_glob re p a :
  leaf_ok (DomainWildcardRule re p a) -> wildcard_ok (DomainWildcardRule re p a) ->
  match_leaf σ' m (DomainWildcardRule re p a) = glob p (rule_host m).
Proof.
  intros Hre [Hp Hne]. cbn [match_leaf leaf_ok] in *. unfold match_domain_wildcard. case_bool_decide as Hh.
  - by rewrite Hh, glob_nil.
  - by apply regex_wildcard.
Qed.

Lemma compiled_path_sound p mode op path :
  path_mode p = Some mode -> compile_process_path p = Some op ->
  process_path_matches op path = path_matches mode p path.
Proof.
  unfold path_mode, compile_process_path, process_path_matches, path_matches.
  destruct (contains_byte star p).
  - destruct (regex_new _) as [re|]; [|done]. intros [= <-] [= <-]. done.
  - destruct (starts_with_sep p); intros [= <-] [= <-]; done.
Qed.

Lemma compiled_network_sound p net op :
  to_lowercase p = match net with Tcp => b! "tcp" | Udp => b! "udp" end ->
  compile_network p = Some op -> op = ONetwork net.
Proof.
  unfold compile_network. intros Hl H.
  assert (Ha : forall x, is_ascii x = true -> to_ascii_lowercase p = x -> to_lowercase p = x).
  { intros x Hx Ex. rewrite to_lowercase_ascii; [done|]. apply lower_ascii. by rewrite Ex. }
  case_bool_decide as H1; [|case_bool_decide as H2; [|done]]; injection H as <-.
  - apply Ha in H1; [|done]. rewrite H1 in Hl. by destruct net.
  - apply Ha in H2; [|done]. rewrite H2 in Hl. by destruct net.
Qed.

Lemma compiled_in_type_sound p a h1 h2 h3 h4 h5 mask :
  new_in_type p a = Some (InTypeRule p a h1 h2 h3 h4 h5) ->
  compile_in_type p = Some mask -> mask = mkMask h1 h2 h3 h4 h5.
Proof.
  unfold new_in_type, compile_in_type. cbv zeta.
  assert (Ha : forall x, is_ascii x = true -> to_ascii_uppercase p = x -> to_uppercase p = x).
  { intros x Hx Ex. rewrite to_uppercase_ascii; [done|]. by rewrite <- upper_ascii, Ex. }
  intros H.
  repeat match goal with
  | |- (if bool_decide (?y = ?x) then _ else _) = _ -> _ =>
      destruct (decide (y = x)) as [E|E];
      [rewrite (bool_decide_eq_true_2 _ E); apply Ha in E; [|done]; rewrite E in H;
       intros [= <-]; by injection H as <- <- <- <- <-
      |rewrite (bool_decide_eq_false_2 _ E); clear E]
  end. done.
Qed.

Lemma trunc_contains net ip : net_contains (trunc net) ip = net_contains net ip.
Proof.
  apply eq_bool_prop_intro. rewrite !Is_true_true, !net_contains_spec.
  by destruct (trunc_net net) as (-> & -> & ->).
Qed.

Lemma compile_leaf_sound r op :
  leaf_ok r -> wildcard_ok r -> compile_op (rule_type r) (payload r) = Some op ->
  matches_op σ' m op = match_metadata σ' m r.
Proof.
  intros Hok Hw H. destruct r; try destruct is_src; try destruct src;
    cbn [rule_type payload compile_op] in H; try done.
  - injection H as <-. apply eq_ignore_lower.
  - injection H as <-. apply suffix_lower.
  - injection H as <-. apply keyword_lower.
  - apply fmap_Some in H as (rm & Hrm & ->). by apply (compiled_regex_sound pattern).
  - apply fmap_Some in H as (w & Hc & ->). cbn [match_metadata].
    rewrite wildcard_rule_glob by done. destruct Hw. by apply compiled_wildcard_glob.
  - apply fmap_Some in H as (net & Hn & ->). cbn in Hok |- *. rewrite Hok in Hn. injection Hn as <-.
    destruct (src_ip m); [|done]. apply trunc_contains.
  - apply fmap_Some in H as (net & Hn & ->). cbn in Hok |- *. rewrite Hok in Hn. injection Hn as <-.
    destruct (dst_ip m); [|done]. apply trunc_contains.
  - apply fmap_Some in H as (pm & Hp & ->). by eapply compile_port_matches.
  - apply fmap_Some in H as (pm & Hp & ->). by eapply compile_port_matches.
  - apply fmap_Some in H as (pm & Hp & ->). cbn. unfold match_in_port. destruct (in_port m =? 0)%Z; [done|].
    by eapply compile_port_matches.
  - cbn in Hok. destruct Hok as [Hv Hle]. rewrite Hv in H. cbn [mbind option_bind] in H.
    destruct (_ <=? _)%Z; [|done]. by injection H as <-.
  - by injection H as <-.
  - apply fmap_Some in H as (op' & Hp & ->). by eapply compiled_path_sound.
  - cbn in Hok. by rewrite (compiled_network_sound _ _ _ Hok H).
  - apply fmap_Some in H as (v & Hv & ->). cbn in Hok. rewrite Hok in Hv. by injection Hv as <-.
  - by injection H as <-.
  - apply fmap_Some in H as (mask & Hmask & ->). cbn in Hok.
    by rewrite (compiled_in_type_sound _ _ _ _ _ _ _ _ Hok Hmask).
  - by injection H as <-.
  - by injection H as <-.
Qed.

Lemma lower_leaf_sound r op :
  is_leaf r = true -> leaf_ok r -> lower_native σ r = Some op ->
  matches_op σ' m op = match_metadata σ' m r.
Proof.
  destruct Hσ as [Hdb _]. intros Hl Hok H. destruct r; try done; cbn [lower_native] in H.
  - destruct db as [p|]; [|done]. cbn [mbind option_bind] in H.
    destruct (resolve_keys (dbs σ p) category) as [keys|] eqn:E; [|done]. injection H as <-.
    cbn. unfold match_geosite. rewrite Hdb. destruct (decide (category = [])) as [Hc|Hc]; [exfalso; by rewrite Hc in E|].
    rewrite (bool_decide_eq_false_2 _ Hc). case_bool_decide; [done|]. simpl. symmetry. by apply resolve_keys_lookup.
  - by injection H as <-.
  - by injection H as <-.
  - injection H as <-. cbn. unfold match_ip_suffix. by destruct (if src then _ else _).
  - by injection H as <-.
  - destruct (is_src_flag flags) eqn:E; [done|]. injection H as <-. cbn. unfold match_rule_set. by rewrite E.
Qed.

(** The lowered form of a rule matches what the rule matches. *)
Lemma lower_rule_sound r op :
  lowerable r -> lower_rule σ r = Some op -> matches_op σ' m op = match_metadata σ' m r.
Proof.
  revert op. unfold lowerable.
  assert (Hmap : forall rs ops (f : bool -> bool -> bool) b,
    Forall (fun r => forall op, all_leaves (fun r => leaf_ok r /\ wildcard_ok r) r ->
      lower_rule σ r = Some op -> matches_op σ' m op = match_metadata σ' m r) rs ->
    all_of (all_leaves (fun r => leaf_ok r /\ wildcard_ok r)) rs ->
    mapM (fun r => or_else (compile_op (rule_type r) (payload r)) (lower_native σ r)) rs = Some ops ->
    foldr (fun op acc => f (matches_op σ' m op) acc) b ops =
    foldr (fun r acc => f (match_metadata σ' m r) acc) b rs).
  { intros rs ops f b IH Hok Hops. apply mapM_Some in Hops. apply all_of_Forall in Hok.
    induction Hops as [|r' op' rs ops Hr _ IHs]; [done|].
    inversion IH as [|? ? IHr IHrs]; subst. inversion Hok as [|? ? Hrok Hrsok]; subst. simpl.
    f_equal; [by apply IHr|by apply IHs]. }
  assert (Hall : forall {A} (f : A -> bool) l, forallb f l = foldr (fun x acc => f x && acc) true l).
  { intros A f l. by induction l as [|x l IH]; simpl; rewrite ?IH. }
  assert (Hany : forall {A} (f : A -> bool) l, existsb f l = foldr (fun x acc => f x || acc) false l).
  { intros A f l. by induction l as [|x l IH]; simpl; rewrite ?IH. }
  induction r as [r Hl|rs a p IH|rs a p IH|r a p IH|n rs IH] using Rule_nested_ind; intros op Hok H.
  - assert (Hleaf : leaf_ok r /\ wildcard_ok r) by (by destruct r). destruct Hleaf. unfold lower_rule, or_else in H.
    destruct (compile_op (rule_type r) (payload r)) eqn:Ec; [injection H as ->|];
      [by apply compile_leaf_sound|by apply lower_leaf_sound].
  - apply fmap_Some in H as (ops & Hops & ->). cbn [matches_op match_metadata]. rewrite !Hall.
    by apply (Hmap rs ops andb).
  - apply fmap_Some in H as (ops & Hops & ->). cbn [matches_op match_metadata]. rewrite !Hany.
    by apply (Hmap rs ops orb).
  - apply fmap_Some in H as (op' & Hop & ->). cbn [matches_op match_metadata]. f_equal. by apply IH.
  - done.
Qed.

(** ** Folding *)

Hypothesis Hm : owner_fields_ok m.

Lemma op_never_matches_sound op : op_never_matches σ op = true -> matches_op σ' m op = false.
Proof.
  destruct Hσ as [_ Hrs]. destruct op; try done; cbn [op_never_matches matches_op]; rewrite ?Hrs.
  - intros [H1%negb_true_iff H2%negb_true_iff%bool_decide_eq_false]%andb_true_iff.
    destruct (Hm H1) as [-> _]. apply not_true_iff_false. intros H%eq_ignore_ascii_case_spec.
    apply H2. symmetry in H. by apply fmap_nil_inv in H.
  - intros H1%negb_true_iff. destruct (Hm H1) as [_ ->]. done.
  - intros H%negb_true_iff. unfold uid_matches. by rewrite H.
  - intros H. destruct (if src then _ else _); [|done]. by apply empty_set_contains.
Qed.

Definition folded_matches (f : Folded) : bool :=
  match f with Never => false | Always => true | FOp op => matches_op σ' m op end.

Lemma fold_all_sound fs :
  forallb folded_matches fs =
  match fold_all fs with None => false | Some kept => forallb (matches_op σ' m) kept end.
Proof.
  induction fs as [|f fs IH]; [done|]. destruct f; simpl; [done|done|].
  rewrite IH. by destruct (fold_all fs); simpl; [|rewrite andb_false_r].
Qed.

Lemma fold_any_sound fs :
  existsb folded_matches fs =
  match fold_any fs with None => true | Some kept => existsb (matches_op σ' m) kept end.
Proof.
  induction fs as [|f fs IH]; [done|]. destruct f; simpl; [done|done|].
  rewrite IH. by destruct (fold_any fs); simpl; [|rewrite orb_true_r].
Qed.

Section Induction.
Variable P : RuleOp -> Prop.

Definition leaf_op (op : RuleOp) : bool :=
  match op with OAllOf _ | OAnyOf _ | ONotOp _ => false | _ => true end.

Hypothesis Hleaf : forall op, leaf_op op = true -> P op.
Hypothesis Hall : forall ops, Forall P ops -> P (OAllOf ops).
Hypothesis Hany : forall ops, Forall P ops -> P (OAnyOf ops).
Hypothesis Hnot : forall op, P op -> P (ONotOp op).

Lemma RuleOp_nested_ind : forall op, P op.
Proof.
  fix IH 1. intros op. destruct op; try (apply Hleaf; reflexivity).
  - apply Hall. induction children as [|x xs IHxs]; constructor; [apply IH|apply IHxs].
  - apply Hany. induction children as [|x xs IHxs]; constructor; [apply IH|apply IHxs].
  - apply Hnot, IH.
Qed.

End Induction.

Lemma fold_leaf op :
  leaf_op op = true ->
  fold_op σ op = if op_never_matches σ op then Never else match op with OMatch => Always | _ => FOp op end.
Proof. by destruct op. Qed.

(** Folding keeps the meaning of a predicate. *)
Lemma fold_op_sound op : folded_matches (fold_op σ op) = matches_op σ' m op.
Proof.
  induction op as [op Hl|ops IH|ops IH|op IH] using RuleOp_nested_ind.
  - rewrite fold_leaf by done. destruct (op_never_matches σ op) eqn:E.
    { symmetry. by apply op_never_matches_sound. }
    by destruct op.
  - assert (E : forallb (matches_op σ' m) ops = forallb folded_matches (map (fold_op σ) ops)).
    { induction IH as [|op ops Hop _ IHs]; [done|]. simpl. by rewrite Hop, IHs. }
    cbn [matches_op fold_op op_never_matches]. rewrite E, fold_all_sound.
    destruct (fold_all _) as [[|k1 [|k2 ks]]|]; [done| |done|done]. simpl. by rewrite andb_true_r.
  - assert (E : existsb (matches_op σ' m) ops = existsb folded_matches (map (fold_op σ) ops)).
    { induction IH as [|op ops Hop _ IHs]; [done|]. simpl. by rewrite Hop, IHs. }
    cbn [matches_op fold_op op_never_matches]. rewrite E, fold_any_sound.
    destruct (fold_any _) as [[|k1 [|k2 ks]]|]; [done| |done|done]. simpl. by rewrite orb_false_r.
  - cbn [matches_op fold_op op_never_matches]. rewrite <- IH. by destruct (fold_op σ op).
Qed.

(** Lowering a rule to native predicates and folding constants keeps its
    meaning for every connection, also when providers were refreshed after
    the lowering. *)
Theorem lowering_exact r op :
  lowerable r -> lower_rule σ r = Some op ->
  match_metadata σ' m r =
  match fold_op σ op with Never => false | Always => true | FOp op' => matches_op σ' m op' end.
Proof.
  intros Hok Hop. rewrite <- (lower_rule_sound r op Hok Hop). symmetry. apply fold_op_sound.
Qed.

End Sound.
End RuleOp.

Lemma lowering_exact_witness :
  let r := AndRule (NL := prefix_net_lib) (RO := toy_regex)
    [DomainRule (b! "a.com") (b! "X"); NotRule (UidRule 7 (b! "7") (b! "X")) (b! "X") (b! "NOT 7")]
    (b! "X") (b! "a.com AND NOT 7") in
  let op := OAllOf [ODomain (b! "a.com"); ONotOp (OUid 7)] in
  let m := default_metadata in
  lower_rule empty_store r = Some op /\ fold_op (PF := bare) empty_store op = FOp (ODomain (b! "a.com")) /\
  match_metadata (PF := bare) empty_store m r =
  match fold_op (PF := bare) empty_store op with
  | Never => false | Always => true | FOp op' => matches_op (PF := bare) empty_store m op'
  end.
Proof.
  intros r op m. split; [reflexivity|]. split; [reflexivity|].
  apply (lowering_exact (PF := bare) (RL := toy_regex_laws) empty_store empty_store m);
    [split; reflexivity|reflexivity|intros _; split; reflexivity| |reflexivity].
  split; [split; exact I|]. split; [|exact I]. split; [reflexivity|exact I].
Defined.

End RuleOp.
