(* ===== verification/RulePrune.v ===== *)
(** * Pruning rules that cannot win (crates/meow-tunnel/src/rule_ir.rs)

    Fingerprints of predicates, and the oracle that knows which hosts the
    earlier domain rules already claim. Equal fingerprints of rules of one
    type mean equal predicates; a rule the oracle shadows only matches hosts
    an earlier rule with the same target matches. *)

From S2P Require Import Prelude Strings Show Ip IpSet Ports Regex Wildcard Metadata.
From S2P Require Import Trie TrieSealed DomainTrie TrieSpec Geosite Rules RuleOp.

Module RulePrune.
Import IpSet Ports Metadata Geosite Wildcard Rules RuleOp.

Section RulePrune.
Context `{HO : Sealed.HashOrder, UL : UnicodeLower, UU : UnicodeUpper, RO : RegexOps, KO : KeyOrder}.
Context `{NL : IpNetLib, PF : Platform}.

(** ** Fingerprints *)

Definition bar : ascii := "|"%char.
Definition show_bit (b : bool) : bytes := if b then b! "1" else b! "0".

Definition dedup_fingerprint (payload : bytes) (op : RuleOp) : option bytes :=
  match op with
  | ODomain host | ODomainSuffix host | ODomainKeyword host => Some host
  | OProcessName _ | ODomainWildcard _ => Some (to_ascii_lowercase payload)
  | ODomainRegex _ | OProcessPath _ | OInName _ | OInUser _ | OMatch => Some payload
  | OIpCidr net _ => Some (show_net net)
  | OSrcPort matcher | ODstPort matcher | OInPort matcher => Some (port_fingerprint matcher)
  | ODscp value => Some (show_dec value)
  | OUid uid => Some (show_dec uid)
  | ONetwork net => Some (match net with Tcp => b! "Tcp" | Udp => b! "Udp" end)
  | OInType mask =>
      Some (show_bit (m_http mask) ++ show_bit (m_https mask) ++ show_bit (m_socks5 mask) ++
        show_bit (m_tproxy mask) ++ show_bit (m_inner mask))
  | OGeoSite db keys => Some (show_ptr db ++ [bar] ++ join comma keys)
  | ORuleSetRef set => Some (show_ptr set)
  | OIpRanges set src => Some (show_ptr set ++ [bar] ++ (if src then b! "true" else b! "false"))
  | OIpSuffix _ _ | OAllOf _ | OAnyOf _ | ONotOp _ | OTrieOwned | OFallback => None
  end.

(** ** The shadow oracle *)

Record ShadowOracle := mkOracle {
  suffixes : gmap bytes nat;
  star_rests : gmap bytes nat;
  keywords : list (bytes * nat);
}.

Definition oracle_default : ShadowOracle := mkOracle ∅ ∅ [].

Definition star_rest (payload : bytes) : option bytes :=
  rest ← strip_prefix (b! "*.") payload;
  if negb (bool_decide (rest = [])) && negb (contains_byte star rest)
  then Some (to_ascii_lowercase rest) else None.

Definition absorb (o : ShadowOracle) (op : RuleOp) (payload : bytes) (a : nat) : ShadowOracle :=
  match op with
  | ODomainSuffix suffix =>
      if bool_decide (suffix = []) then o
      else mkOracle (<[suffix := a]> (suffixes o)) (star_rests o) (keywords o)
  | ODomainKeyword keyword =>
      if bool_decide (keyword = []) then o
      else mkOracle (suffixes o) (star_rests o) (keywords o ++ [(keyword, a)])
  | ODomainWildcard _ =>
      match star_rest payload with
      | Some rest => mkOracle (suffixes o) (<[rest := a]> (star_rests o)) (keywords o)
      | None => o
      end
  | _ => o
  end.

(** The loop of [suffix_covers], on the rest of the pattern; every round
    drops a byte at least, so its length is fuel enough. *)
Fixpoint suffix_loop (fuel : nat) (m : gmap bytes nat) (pattern : bytes) (a : nat) : bool :=
  if bool_decide (m !! pattern = Some a) then true
  else match fuel with
  | O => false
  | S fuel =>
      match find_byte dot pattern with
      | Some d => suffix_loop fuel m (drop (d + 1) pattern) a
      | None => false
      end
  end.

Definition suffix_covers (o : ShadowOracle) (pattern : bytes) (a : nat) : bool :=
  if bool_decide (suffixes o = ∅) then false
  else suffix_loop (length pattern) (suffixes o) pattern a.

Definition keyword_covers (o : ShadowOracle) (pattern : bytes) (a : nat) : bool :=
  existsb (fun '(keyword, a') => (a' =? a) && contains keyword pattern) (keywords o).

Definition star_covers (o : ShadowOracle) (domain : bytes) (a : nat) : bool :=
  if bool_decide (star_rests o = ∅) then false
  else match split_once dot domain with
  | Some (label, rest) =>
      negb (bool_decide (label = [])) && bool_decide (star_rests o !! rest = Some a)
  | None => false
  end.

Definition shadows (o : ShadowOracle) (op : RuleOp) (payload : bytes) (a : nat) : bool :=
  match op with
  | ODomain domain => suffix_covers o domain a || keyword_covers o domain a || star_covers o domain a
  | ODomainSuffix suffix => suffix_covers o suffix a || keyword_covers o suffix a
  | ODomainKeyword keyword => keyword_covers o keyword a
  | ODomainWildcard _ =>
      match star_rest payload with
      | Some rest => suffix_covers o rest a || keyword_covers o rest a
      | None => false
      end
  | _ => false
  end.

(** ** Host sets *)

Lemma find_byte_Some c s i :
  find_byte c s = Some i <-> exists a b, s = a ++ c :: b /\ c ∉ a /\ length a = i.
Proof.
  revert i. induction s as [|d s IH]; intros i; simpl.
  { split; [done|]. by intros ([|? ?] & b & ? & _). }
  case_decide as Hd.
  - subst d. split.
    + intros [= <-]. exists [], s. split_and!; [done|set_solver|done].
    + intros ([|x a] & b & E & Hc & <-); simplify_eq/=; [done|set_solver].
  - destruct (find_byte c s) as [j|] eqn:E; simpl.
    + destruct (proj1 (IH j) eq_refl) as (a & b & -> & Hc & <-). split.
      * intros [= <-]. exists (d :: a), b. split_and!; [done|set_solver|done].
      * intros ([|x a'] & b' & E' & Hc' & <-); simplify_eq/=. f_equal. f_equal.
        assert (Some (length a) = Some (length a')) as [= ->]; [|done].
        apply IH. exists a', b'. split_and!; [done|set_solver|done].
    + split; [done|]. intros ([|x a'] & b' & E' & Hc' & <-); simplify_eq/=.
      assert (None = Some (length a')); [|done]. apply IH. exists a', b'. split_and!; [done|set_solver|done].
Qed.

(** [q] is [p] or a tail of [p] after a dot. *)
Definition tail_of (q p : bytes) : Prop := q = p \/ exists pre, p = pre ++ dot :: q.

Lemma suffix_loop_sound fuel m p a :
  suffix_loop fuel m p a = true -> exists q, m !! q = Some a /\ tail_of q p.
Proof.
  revert p. induction fuel as [|fuel IH]; intros p; cbn [suffix_loop]; case_bool_decide as Hm.
  1, 3: intros _; exists p; split; [done|by left].
  { done. }
  destruct (find_byte dot p) as [d|] eqn:E; [|done].
  apply find_byte_Some in E as (x & y & -> & _ & <-). intros H.
  replace (drop (length x + 1) (x ++ dot :: y)) with y in H by (by rewrite <- drop_drop, drop_app_length).
  destruct (IH _ H) as (q & Hq & Ht). exists q. split; [done|]. right.
  destruct Ht as [->|[pre ->]]; [by exists x|]. exists (x ++ dot :: pre). by rewrite <- app_assoc.
Qed.

Lemma tail_of_suffix q p host :
  tail_of q p -> domain_suffix_matches host p = true -> to_ascii_lowercase p = p ->
  domain_suffix_matches host q = true.
Proof.
  rewrite !domain_suffix_matches_spec. intros [->|[pre ->]]; [done|]. intros H Hl.
  rewrite lowercase_app in Hl. apply app_inj_1 in Hl as [_ Hl]; [|by rewrite length_lowercase].
  cbn in Hl. injection Hl as Hl. fold (to_ascii_lowercase q) in Hl. rewrite Hl.
  rewrite lowercase_app in H. cbn in H. fold (to_ascii_lowercase q) in H. rewrite Hl in H. right.
  change (byte_lower dot) with dot in H. destruct H as [->|[pre' ->]]; [by eexists|].
  exists (pre' ++ dot :: to_ascii_lowercase pre). by rewrite <- app_assoc.
Qed.

Lemma host_is_suffix host d : eq_ignore_ascii_case host d = true -> domain_suffix_matches host d = true.
Proof. rewrite eq_ignore_ascii_case_spec, domain_suffix_matches_spec. by left. Qed.

Lemma suffix_contains host s : domain_suffix_matches host s = true ->
  contains (to_ascii_lowercase s) (to_ascii_lowercase host) = true.
Proof.
  rewrite domain_suffix_matches_spec, contains_spec. intros [->|[pre ->]].
  - exists [], []. by rewrite app_nil_r.
  - exists (pre ++ [dot]), []. by rewrite app_nil_r, <- app_assoc.
Qed.

Lemma contains_trans a b c : contains a b = true -> contains b c = true -> contains a c = true.
Proof.
  rewrite !contains_spec. intros (x & y & ->) (z & w & ->).
  exists (z ++ x), (y ++ w). by rewrite <- !app_assoc.
Qed.

Lemma keyword_by_contains host keyword p :
  to_ascii_lowercase p = p -> contains keyword p = true ->
  contains p (to_ascii_lowercase host) = true -> domain_keyword_matches host keyword = true.
Proof.
  intros Hp H1 H2. rewrite domain_keyword_matches_spec.
  assert (Hk : to_ascii_lowercase keyword = keyword).
  { apply contains_spec in H1 as (x & y & ->). rewrite !lowercase_app in Hp.
    apply app_inj_1 in Hp as [_ Hp]; [|by rewrite length_lowercase].
    by apply app_inj_1 in Hp as [Hp _]; [|by rewrite length_lowercase]. }
  rewrite Hk. by eapply contains_trans.
Qed.

(** The hosts of [*.rest]: one label more. *)
Definition one_label (host rest : bytes) : Prop :=
  exists label, label <> [] /\ dot ∉ label /\ to_ascii_lowercase host = label ++ dot :: rest.

Lemma lower_dot_free s : dot ∉ to_ascii_lowercase s <-> dot ∉ s.
Proof.
  unfold to_ascii_lowercase. rewrite list_elem_of_fmap. split; intros H Hd; apply H.
  - by exists dot.
  - destruct Hd as (c & Hc & Hin). symmetry in Hc. by apply byte_lower_dot in Hc as ->.
Qed.

Lemma star_rest_glob payload rest host :
  star_rest payload = Some rest -> glob payload host = true <-> one_label host rest.
Proof.
  unfold star_rest. destruct (strip_prefix (b! "*.") payload) as [r|] eqn:E; [|done].
  apply strip_prefix_Some in E as ->. cbn [mbind option_bind].
  destruct (_ && _) eqn:Ec; [|done]. intros [= <-].
  apply andb_true_iff in Ec as [_ Hs%negb_true_iff%contains_byte_false].
  change (b! "*." ++ r) with (star :: dot :: r). rewrite glob_star.
  assert (Hlit : forall s, glob (dot :: r) s = true <-> to_ascii_lowercase s = dot :: to_ascii_lowercase r).
  { intros s. rewrite <- (app_nil_r (dot :: r)), glob_literal by set_solver. split.
    - intros (a & s' & -> & Ha & H). apply bool_decide_eq_true in H as ->. by rewrite app_nil_r.
    - intros H. exists s, []. rewrite app_nil_r. done. }
  setoid_rewrite Hlit. split.
  - intros (g & s' & -> & Hg & Hd & Hs'). exists (to_ascii_lowercase g). split_and!.
    + by destruct g.
    + by apply lower_dot_free.
    + by rewrite lowercase_app, Hs'.
  - intros (l & Hl & Hd & Hh). unfold to_ascii_lowercase in Hh.
    apply fmap_app_inv in Hh as (g & s' & -> & Hs' & ->). exists g, s'. split_and!; [done| | |done].
    + by destruct g.
    + by apply lower_dot_free.
Qed.

Lemma one_label_suffix host rest :
  to_ascii_lowercase rest = rest -> one_label host rest -> domain_suffix_matches host rest = true.
Proof.
  intros Hr (l & _ & _ & E). apply domain_suffix_matches_spec. right. exists l. by rewrite Hr.
Qed.

Lemma star_rest_lower payload rest : star_rest payload = Some rest -> to_ascii_lowercase rest = rest.
Proof.
  unfold star_rest. destruct (strip_prefix _ _); [|done]. cbn [mbind option_bind].
  destruct (_ && _); [|done]. intros [= <-]. apply to_ascii_lowercase_idemp.
Qed.

(** ** Soundness of the oracle

    For one connection: [hit a] says that an earlier rule with target [a]
    matches it. *)

Record oracle_ok (host : bytes) (hit : nat -> Prop) (o : ShadowOracle) : Prop := {
  ok_suffix q a : suffixes o !! q = Some a -> domain_suffix_matches host q = true -> hit a;
  ok_star q a : star_rests o !! q = Some a -> one_label host q -> hit a;
  ok_keyword k a : (k, a) ∈ keywords o -> domain_keyword_matches host k = true -> hit a;
}.

(** The predicate of a domain op, on hosts. *)
Definition domain_op_matches (op : RuleOp) (payload host : bytes) : Prop :=
  match op with
  | ODomain d => to_ascii_lowercase d = d /\ eq_ignore_ascii_case host d = true
  | ODomainSuffix s => to_ascii_lowercase s = s /\ domain_suffix_matches host s = true
  | ODomainKeyword k => to_ascii_lowercase k = k /\ domain_keyword_matches host k = true
  | ODomainWildcard _ => glob payload host = true
  | _ => False
  end.

Lemma suffix_covers_sound host hit o p a :
  oracle_ok host hit o -> to_ascii_lowercase p = p -> suffix_covers o p a = true ->
  domain_suffix_matches host p = true -> hit a.
Proof.
  intros Ho Hp. unfold suffix_covers. case_bool_decide; [done|]. intros (q & Hq & Ht)%suffix_loop_sound Hm.
  eapply ok_suffix; [done..|]. by eapply tail_of_suffix.
Qed.

Lemma keyword_covers_sound host hit o p a :
  oracle_ok host hit o -> to_ascii_lowercase p = p -> keyword_covers o p a = true ->
  contains p (to_ascii_lowercase host) = true -> hit a.
Proof.
  intros Ho Hp. unfold keyword_covers. rewrite existsb_exists.
  intros ([k a'] & Hin%list_elem_of_In & [->%Nat.eqb_eq Hk]%andb_true_iff) Hc.
  eapply ok_keyword; [done..|]. by eapply keyword_by_contains.
Qed.

Lemma shadows_sound host hit o op p a :
  oracle_ok host hit o -> shadows o op p a = true -> domain_op_matches op p host -> hit a.
Proof.
  intros Ho. destruct op; cbn [shadows domain_op_matches]; try done.
  - intros Hs [Hl Hm]. pose proof (host_is_suffix _ _ Hm) as Hsuf.
    pose proof (suffix_contains _ _ Hsuf) as Hc. rewrite Hl in Hc.
    rewrite !orb_true_iff in Hs. destruct Hs as [[Hs|Hs]|Hs].
    + by eapply suffix_covers_sound.
    + by eapply keyword_covers_sound.
    + unfold star_covers in Hs. case_bool_decide; [done|]. unfold split_once in Hs.
      destruct (find_byte dot domain) as [i|] eqn:Ei; [|done]. cbn [mbind option_bind] in Hs.
      apply find_byte_Some in Ei as (x & y & -> & Hx & <-).
      replace (drop (S (length x)) (x ++ dot :: y)) with y in Hs
        by (rewrite <- Nat.add_1_r, <- drop_drop, drop_app_length; done).
      rewrite take_app_length in Hs. apply andb_true_iff in Hs as [Hne%negb_true_iff Hr].
      apply bool_decide_eq_false in Hne. apply bool_decide_eq_true in Hr.
      eapply ok_star; [done..|]. exists x. split_and!; [done|done|].
      apply eq_ignore_ascii_case_spec in Hm. by rewrite Hm, Hl.
  - intros Hs [Hl Hm]. pose proof (suffix_contains _ _ Hm) as Hc. rewrite Hl in Hc.
    apply orb_true_iff in Hs as [Hs|Hs]; [by eapply suffix_covers_sound|by eapply keyword_covers_sound].
  - intros Hs [Hl Hm]. rewrite domain_keyword_matches_spec, Hl in Hm. by eapply keyword_covers_sound.
  - destruct (star_rest p) as [rest|] eqn:E; [|done]. intros Hs Hg.
    apply (star_rest_glob _ _ _ E) in Hg. pose proof (star_rest_lower _ _ E) as Hl.
    pose proof (one_label_suffix _ _ Hl Hg) as Hm.
    pose proof (suffix_contains _ _ Hm) as Hc. rewrite Hl in Hc.
    apply orb_true_iff in Hs as [Hs|Hs]; [by eapply suffix_covers_sound|by eapply keyword_covers_sound].
Qed.

Lemma absorb_ok host hit o op p a :
  oracle_ok host hit o ->
  (domain_op_matches op p host -> hit a) ->
  (match op with
   | ODomainSuffix s => to_ascii_lowercase s = s
   | ODomainKeyword k => to_ascii_lowercase k = k
   | _ => True end) ->
  oracle_ok host hit (absorb o op p a).
Proof.
  intros [H1 H2 H3] Hop Hlow. destruct op; try done; cbn [absorb domain_op_matches] in *.
  - case_bool_decide; [done|]. split; simpl; [|done|done].
    intros q b. destruct (decide (suf = q)) as [<-|Hne].
    + rewrite lookup_insert_eq. intros [= <-] Hm. by apply Hop.
    + rewrite lookup_insert_ne by done. apply H1.
  - case_bool_decide; [done|]. split; simpl; [done|done|].
    intros k b [Hin|Hin%list_elem_of_singleton]%elem_of_app Hm; [by eapply H3|]. simplify_eq. by apply Hop.
  - destruct (star_rest p) as [rest|] eqn:E; [|done]. split; simpl; [done| |done].
    intros q b. destruct (decide (rest = q)) as [<-|Hne].
    + rewrite lookup_insert_eq. intros [= <-] Hm. apply Hop. by apply (star_rest_glob _ _ _ E).
    + rewrite lookup_insert_ne by done. apply H2.
Qed.

(** ** Equal fingerprints *)

(** A GEOSITE payload comes from one field of a rule line. *)
Definition geosite_plain (r : Rule) : Prop :=
  match r with GeoSiteRule _ p _ _ => comma ∉ p | _ => True end.

Lemma split_incl sep s w c : w ∈ split sep s -> c ∈ w -> c ∈ s.
Proof.
  intros Hw Hc. rewrite <- (join_split sep s). induction (split sep s) as [|v vs IH]; [set_solver|].
  apply elem_of_cons in Hw as [->|Hw].
  - destruct vs; [done|]. rewrite join_cons by done. set_solver.
  - destruct vs as [|v' vs]; [set_solver|]. rewrite join_cons by done.
    apply elem_of_app. right. apply elem_of_cons. right. by apply IH.
Qed.

Lemma has_uppercase_false s : has_uppercase s = false <-> forall c, c ∈ s -> is_ascii_uppercase c = false.
Proof.
  unfold has_uppercase. rewrite <- not_true_iff_false, existsb_exists. setoid_rewrite list_elem_of_In. split.
  - intros H c Hc. apply not_true_iff_false. intros Hu. apply H. by exists c.
  - intros H (c & Hc & Hu). by rewrite H in Hu.
Qed.

Lemma has_uppercase_lower s : has_uppercase (to_ascii_lowercase s) = false.
Proof.
  apply has_uppercase_false. intros c Hc. apply list_elem_of_fmap in Hc as (d & -> & _).
  apply byte_lower_not_upper.
Qed.

(** The bytes of the keys a folded payload needs are its own. *)
Lemma needed_keys_bytes p key c :
  key ∈ needed_keys (to_ascii_lowercase p) -> c ∈ key ->
  c = at_sign \/ c ∈ to_ascii_lowercase p.
Proof.
  unfold needed_keys, split_category_attrs. set (s := to_ascii_lowercase p).
  destruct (split at_sign (trim s)) as [|base parts] eqn:E.
  { by apply split_ne in E. }
  assert (Hpart : forall w x, w ∈ split at_sign (trim s) -> x ∈ trim w -> x ∈ s).
  { intros w x Hw Hx%trim_incl. apply trim_incl. by eapply split_incl. }
  rewrite E in Hpart.
  set (attrs := map to_ascii_lowercase _). case_bool_decide as Ha.
  - intros ->%list_elem_of_singleton Hc. right. eapply Hpart; [left|done].
  - intros Hk Hc. apply list_elem_of_In, in_map_iff in Hk as (attr & <- & Hin).
    rewrite !elem_of_app, list_elem_of_singleton in Hc. destruct Hc as [Hc|[->|Hc]]; [|by left|].
    { right. eapply Hpart; [left|done]. }
    right. apply in_map_iff in Hin as (w & <- & Hin). apply filter_In in Hin as [Hin _].
    apply in_map_iff in Hin as (w' & <- & Hin%list_elem_of_In).
    assert (Hlow : to_ascii_lowercase (trim w') = trim w').
    { apply lowercase_id, has_uppercase_false. intros x Hx.
      assert (Hs : x ∈ s) by (eapply Hpart; [by right|done]).
      apply list_elem_of_fmap in Hs as (y & -> & _). apply byte_lower_not_upper. }
    rewrite Hlow in Hc. eapply Hpart; [by right|done].
Qed.

Lemma resolve_keys_lower db p keys :
  resolve_keys db (to_ascii_lowercase p) = Some keys -> keys = needed_keys (to_ascii_lowercase p).
Proof.
  pose proof (needed_keys_bytes p) as Hb. unfold resolve_keys, needed_keys in *.
  destruct (split_category_attrs (to_ascii_lowercase p)) as [base attrs]. destruct (bool_decide (base = [])); [done|].
  set (needed := if bool_decide _ then _ else _) in *. clearbody needed. intros Hk.
  apply mapM_Some in Hk. induction Hk as [|k canon needed ks Hk _ IH]; [done|]. f_equal.
  - unfold category_key in Hk.
    assert (Hu : has_uppercase k = false).
    { apply has_uppercase_false. intros c Hc. destruct (Hb k c ltac:(left) Hc) as [->|Hin]; [done|].
      apply list_elem_of_fmap in Hin as (y & -> & _). apply byte_lower_not_upper. }
    rewrite Hu in Hk. simpl in Hk. destruct (bucket_exists db k); [|done]. by injection Hk.
  - apply IH. intros key c Hkey. apply Hb. by right.
Qed.

Lemma geosite_keys_plain db p keys :
  comma ∉ p -> resolve_keys db (to_ascii_lowercase (trim p)) = Some keys ->
  keys <> [] /\ Forall (fun k => comma ∉ k) keys.
Proof.
  intros Hp Hk. pose proof (resolve_keys_lower _ _ _ Hk) as ->. split.
  - unfold needed_keys. destruct (split_category_attrs _) as [base attrs].
    case_bool_decide; [done|]. by destruct attrs.
  - apply Forall_forall. intros k Hin Hc. destruct (needed_keys_bytes _ _ _ Hin Hc) as [?|H]; [done|].
    apply list_elem_of_fmap in H as (c & Hcc & H%trim_incl). apply Hp.
    assert (c = comma) as <-; [|done]. clear -Hcc. by destruct c as [[] [] [] [] [] [] [] []].
Qed.

Lemma app_bar_inj a b c d : bar ∉ a -> bar ∉ c -> a ++ [bar] ++ b = c ++ [bar] ++ d -> a = c /\ b = d.
Proof.
  revert c. induction a as [|x a IH]; intros [|y c] Ha Hc E; simplify_eq/=.
  - done.
  - set_solver.
  - set_solver.
  - destruct (IH c) as [-> ->]; [set_solver|set_solver|done|done].
Qed.

Lemma show_ptr_bar p : bar ∉ show_ptr p.
Proof. by apply show_ptr_alnum. Qed.

Lemma byte_lower_star c : byte_lower c = star -> c = star.
Proof. by destruct c as [[] [] [] [] [] [] [] []]. Qed.

Lemma glob_lower p q host :
  to_ascii_lowercase p = to_ascii_lowercase q -> glob p host = glob q host.
Proof.
  revert q host. induction p as [|c p IH]; intros [|d q] host E; [done|done|done|].
  cbn in E. injection E as Ec E. destruct (decide (c = star)) as [->|Hc].
  - symmetry in Ec. apply byte_lower_star in Ec as ->. apply eq_bool_prop_intro.
    rewrite !Is_true_true, !glob_star. by setoid_rewrite (IH q _ E).
  - assert (Hd : d <> star) by (intros ->; by apply byte_lower_star in Ec).
    cbn [glob]. rewrite !decide_False by done. destruct host as [|x host]; [done|].
    by rewrite Ec, (IH q host E).
Qed.

Section Sound.
Context `{RL : !RegexLaws}.
Variables (σ σ' : Store) (m : Metadata).
Hypothesis Hhost : is_ascii (rule_host m) = true.

Lemma eq_ignore_same x a b :
  to_ascii_lowercase a = to_ascii_lowercase b -> eq_ignore_ascii_case x a = eq_ignore_ascii_case x b.
Proof.
  intros E. apply eq_bool_prop_intro. by rewrite !Is_true_true, !eq_ignore_ascii_case_spec, E.
Qed.

Lemma show_bit_inj a b c d : show_bit a ++ b = show_bit c ++ d -> a = c /\ b = d.
Proof. by destruct a, c; intros [=]. Qed.

Lemma or_else_none {A} (o : option A) : or_else o None = o.
Proof. by destruct o. Qed.

Lemma ranges_fingerprint_inj (p q : ptr) (b c : bool) :
  show_ptr p ++ [bar] ++ (if b then b! "true" else b! "false") =
  show_ptr q ++ [bar] ++ (if c then b! "true" else b! "false") -> p = q /\ b = c.
Proof.
  intros [E1 E2]%app_bar_inj; [|apply show_ptr_bar..]. apply show_ptr_inj in E1 as ->.
  by destruct b, c.
Qed.

Lemma geosite_fingerprint_inj d d' p p' db db' keys keys' :
  comma ∉ p -> comma ∉ p' ->
  resolve_keys d (to_ascii_lowercase (trim p)) = Some keys ->
  resolve_keys d' (to_ascii_lowercase (trim p')) = Some keys' ->
  show_ptr db ++ [bar] ++ join comma keys = show_ptr db' ++ [bar] ++ join comma keys' ->
  db = db' /\ keys = keys'.
Proof.
  intros Hp Hp' Hk Hk' [E1 E2]%app_bar_inj; [|apply show_ptr_bar..].
  apply show_ptr_inj in E1 as ->. split; [done|].
  apply geosite_keys_plain in Hk as [Hn Hc], Hk' as [Hn' Hc']; [|done..].
  by rewrite <- (split_join comma keys), <- (split_join comma keys'), E2.
Qed.

Lemma show_net_inj n n' : show_net n = show_net n' -> n = n'.
Proof. intros E. apply (f_equal parse_net) in E. rewrite !parse_show in E. by injection E. Qed.

Lemma mask_fingerprint_inj k k' :
  dedup_fingerprint [] (OInType k) = dedup_fingerprint [] (OInType k') -> k = k'.
Proof.
  destruct k, k'. cbn. intros [= E]. rewrite <- (app_nil_r (show_bit m_inner0)) in E.
  rewrite <- (app_nil_r (show_bit m_inner1)) in E.
  do 5 (apply show_bit_inj in E as [-> E]). done.
Qed.

(** Two leaves of one type with one fingerprint have one predicate. *)
Lemma leaf_fingerprint_sound r r' op op' fp :
  leaf_ok r -> leaf_ok r' -> wildcard_ok r -> wildcard_ok r' ->
  geosite_plain r -> geosite_plain r' -> is_leaf r = true ->
  rule_type r = rule_type r' -> lower_rule σ r = Some op -> lower_rule σ r' = Some op' ->
  dedup_fingerprint (payload r) op = Some fp -> dedup_fingerprint (payload r') op' = Some fp ->
  matches_op σ' m op = matches_op σ' m op'.
Proof.
  intros Ho Ho' Hw Hw' Hg Hg' Hl Ht. unfold lower_rule.
  destruct r; try done; try destruct src; try destruct is_src;
    destruct r'; try done; try destruct src; try destruct is_src; try done;
    cbn [rule_type payload compile_op lower_native] in *; rewrite ?or_else_none; cbn [or_else];
    intros L L'; try (apply fmap_Some in L as (x & Hx & ->));
    try (apply fmap_Some in L' as (x' & Hx' & ->)); simplify_eq; cbn [dedup_fingerprint];
    intros D D'; try discriminate D; rewrite <- D' in D; clear D'; try done; try (apply Some_inj in D).
  1-3: by rewrite D.
  - subst. congruence.
  - destruct Hw, Hw'. cbn [matches_op]. rewrite (compiled_wildcard_glob raw x) by done.
    rewrite (compiled_wildcard_glob raw0 x') by done. by apply glob_lower.
  - destruct db as [p|], db0 as [p'|]; try done. cbn [mbind option_bind leaf_ok] in *.
    destruct (resolve_keys (dbs σ p) category) as [keys|] eqn:E; [|done].
    destruct (resolve_keys (dbs σ p') category0) as [keys'|] eqn:E'; [|done].
    cbn [mbind option_bind] in *. injection L as <-. injection L' as <-. apply Some_inj in D. subst.
    apply (geosite_fingerprint_inj (dbs σ p) (dbs σ p') payload_raw payload_raw0) in D as [-> ->]; done.
  - by apply (ranges_fingerprint_inj _ _ false false) in D as [-> _].
  - by apply (ranges_fingerprint_inj _ _ true true) in D as [-> _].
  - apply show_net_inj in D. by rewrite D.
  - apply show_net_inj in D. by rewrite D.
  - by apply (ranges_fingerprint_inj _ _ true true) in D as [-> _].
  - by apply (ranges_fingerprint_inj _ _ false false) in D as [-> _].
  - by rewrite (port_fingerprint_inj _ _ _ _ Hx Hx' D).
  - by rewrite (port_fingerprint_inj _ _ _ _ Hx Hx' D).
  - by rewrite (port_fingerprint_inj _ _ _ _ Hx Hx' D).
  - cbn [leaf_ok] in *. destruct Ho as [Ho _], Ho' as [Ho' _]. rewrite Ho in L. rewrite Ho' in L'.
    cbn [mbind option_bind] in *. destruct (_ <=? _)%Z; [|done]. destruct (_ <=? _)%Z; [|done].
    injection L as <-. injection L' as <-. injection D as D.
    apply parse_uint_bound in Ho, Ho'. apply show_dec_inj in D as ->; [done|lia|lia].
  - cbn [matches_op]. by apply eq_ignore_same.
  - subst. congruence.
  - unfold compile_network in *. case_match; simplify_eq; case_match; simplify_eq;
      cbn [dedup_fingerprint] in D; repeat case_match; simplify_eq; try done; by apply Some_inj in D.
  - apply parse_uint_bound in Hx, Hx'. apply show_dec_inj in D as ->; [done|lia|lia].
  - by rewrite D.
  - apply (f_equal Some) in D. by apply (mask_fingerprint_inj x x') in D as ->.
  - by rewrite D.
  - destruct (is_src_flag flags), (is_src_flag flags0); try done. injection L as <-. injection L' as <-.
    apply Some_inj, show_ptr_inj in D. by rewrite D.
Qed.

End Sound.

End RulePrune.
End RulePrune.
