(* ===== verification/DomainKey.v ===== *)
(** * Dead domain keys (crates/meow-rules/src/domain_key.rs)

    The predicates that warn about domain patterns nothing can match. Each is
    exact: a pattern is reported if and only if no well-formed host, one
    whose labels are all non-empty, matches it. *)

From S2P Require Import Prelude Strings Regex Wildcard Trie TrieSealed DomainTrie TrieSpec TrieTheorems.

Module DomainKey.
Import Wildcard.

Inductive DomainKeyDefect := DeadLabel | NotInsertable.

Definition domain_key_body (key : bytes) : bytes :=
  let key := trim key in
  trim_end_byte dot
    (match strip_prefix (b! "+.") key, strip_prefix (b! "*.") key, strip_prefix (b! ".") key with
     | Some rest, _, _ => rest
     | None, Some rest, _ => rest
     | None, None, Some rest => rest
     | None, None, None => key
     end).

Definition has_empty_label (body : bytes) : bool :=
  existsb (fun l => bool_decide (l = [])) (split dot body).

Definition domain_key_defect (key : bytes) : option DomainKeyDefect :=
  let body := domain_key_body key in
  if bool_decide (body = []) then Some NotInsertable
  else if has_empty_label body then Some DeadLabel else None.

Definition domain_key_has_dead_label (key : bytes) : bool :=
  match domain_key_defect key with Some DeadLabel => true | _ => false end.

Definition domain_key_is_dead (key : bytes) : bool :=
  match domain_key_defect key with Some _ => true | None => false end.

Definition plus : ascii := "+"%char.

Definition domain_rule_payload_is_dead (payload : bytes) : bool :=
  let payload := trim payload in
  bool_decide (payload = []) || ends_with (b! ".") payload || starts_with (b! ".") payload ||
  (contains_byte star payload || contains_byte plus payload) || domain_key_is_dead payload.

Definition domain_wildcard_payload_is_dead (payload : bytes) : bool :=
  let payload := trim payload in
  if bool_decide (payload = []) || contains_byte plus payload then true
  else
    let body := default payload (strip_prefix (b! "*.") payload) in
    bool_decide (body = []) || has_empty_label body.

Definition domain_keyword_payload_is_dead (payload : bytes) : bool := contains (b! "..") payload.

(** ** Hosts *)

(** A host name: at least one label, and no label is empty. *)
Definition labels_ok (host : bytes) : Prop := Forall (fun l => l <> []) (split dot host).

(** No host name holds the bytes of a wildcard. *)
Definition plain_host (host : bytes) : Prop := labels_ok host /\ star ∉ host /\ plus ∉ host.

Lemma labels_ok_app a b : labels_ok (a ++ dot :: b) <-> labels_ok a /\ labels_ok b.
Proof. unfold labels_ok. by rewrite split_app_sep, Forall_app. Qed.

Lemma labels_ok_nil : ~ labels_ok [].
Proof. intros H. by inversion H. Qed.

Lemma labels_ok_label l : l <> [] -> dot ∉ l -> labels_ok l.
Proof. intros Hl Hd. unfold labels_ok. rewrite split_no_sep by done. by constructor. Qed.

Lemma labels_ok_head s : labels_ok s -> s <> [] /\ head s <> Some dot.
Proof.
  intros H. split; [intros ->; by apply labels_ok_nil|]. destruct s as [|c s]; [done|]. intros [= ->].
  change (dot :: s) with ([] ++ dot :: s) in H. apply labels_ok_app in H as [H _]. by apply labels_ok_nil.
Qed.

Lemma labels_ok_last s : labels_ok s -> last s <> Some dot.
Proof.
  intros H E. apply last_Some in E as [a ->]. change (a ++ [dot]) with (a ++ dot :: []) in H.
  apply labels_ok_app in H as [_ H]. by apply labels_ok_nil.
Qed.

Lemma labels_ok_lower s : labels_ok (to_ascii_lowercase s) <-> labels_ok s.
Proof.
  unfold labels_ok. rewrite split_lower, Forall_fmap. apply Forall_iff. intros l. simpl.
  unfold to_ascii_lowercase. by destruct l.
Qed.

Lemma has_empty_label_spec s : has_empty_label s = false <-> labels_ok s.
Proof.
  unfold has_empty_label, labels_ok. rewrite <- not_true_iff_false, existsb_exists, Forall_forall. split.
  - intros H l Hl E. apply H. exists l. split; [by apply list_elem_of_In|]. by apply bool_decide_eq_true.
  - intros H (l & Hl%list_elem_of_In & E%bool_decide_eq_true). by apply (H l).
Qed.

(** ** Keys of a trie *)

Section Keys.
Context `{UL : UnicodeLower}.

Lemma strip_lower p s :
  to_ascii_lowercase p = p -> (forall c d, c ∈ p -> byte_lower d = c -> d = c) ->
  strip_prefix p (to_ascii_lowercase s) = to_ascii_lowercase <$> strip_prefix p s.
Proof.
  intros Hp Hinj. destruct (strip_prefix p s) as [r|] eqn:E; simpl.
  - apply strip_prefix_Some in E as ->. rewrite lowercase_app, Hp. by apply strip_prefix_Some.
  - destruct (strip_prefix p (to_ascii_lowercase s)) as [r|] eqn:E'; [|done].
    apply strip_prefix_Some in E'. unfold to_ascii_lowercase in E'. apply fmap_app_inv in E' as (a & b & Ea & -> & ->).
    assert (a = p) as ->.
    { clear -Ea Hinj. revert a Ea. induction p as [|c p IH]; intros [|d a] Ea; try done.
      cbn in Ea. injection Ea as E1 E2. f_equal; [apply Hinj; [left|done]|].
      apply IH; [|done]. intros c' d' Hc'. apply Hinj. by right. }
    by rewrite (proj2 (strip_prefix_Some p _ b) eq_refl) in E.
Qed.

Lemma punct_lower (p : bytes) : p = b! "+." \/ p = b! "*." \/ p = b! "." ->
  to_ascii_lowercase p = p /\ forall c d, c ∈ p -> byte_lower d = c -> d = c.
Proof.
  intros Hp. split; [by destruct Hp as [->|[->| ->]]|].
  intros c d Hc <-.
  assert (Hs : forall e, e ∈ p -> is_ascii_alphanumeric e = false).
  { intros e He. destruct Hp as [->|[->| ->]]; vm_compute in He;
      repeat (apply elem_of_cons in He as [->|He]; [done|]); by apply not_elem_of_nil in He. }
  specialize (Hs _ Hc). clear -Hs. by destruct d as [[] [] [] [] [] [] [] []].
Qed.

Lemma trim_end_snoc c s : trim_end_byte c (s ++ [c]) = trim_end_byte c s.
Proof. unfold trim_end_byte. rewrite reverse_snoc. simpl. by rewrite bool_decide_eq_true_2. Qed.

Lemma trim_end_run c s n : last s <> Some c -> trim_end_byte c (s ++ replicate n c) = s.
Proof.
  intros Hs. induction n as [|n IH]; [rewrite app_nil_r; by apply trim_end_byte_id|].
  rewrite replicate_S_end, app_assoc, trim_end_snoc. done.
Qed.

Lemma lower_replicate n : to_ascii_lowercase (replicate n dot) = replicate n dot.
Proof. unfold to_ascii_lowercase. by rewrite fmap_replicate. Qed.

Lemma trim_end_lower s : trim_end_byte dot (to_ascii_lowercase s) = to_ascii_lowercase (trim_end_byte dot s).
Proof.
  destruct (trim_end_byte_spec dot s) as (n & E & Hl). rewrite E at 1.
  rewrite lowercase_app, lower_replicate. apply trim_end_run. by apply TrieTheorems.last_lower.
Qed.

Lemma trim_ascii_byte s : is_ascii s = true -> is_ascii (trim s) = true.
Proof.
  unfold is_ascii. rewrite !forallb_forall. intros H c Hc%list_elem_of_In.
  apply H, list_elem_of_In. by apply trim_incl.
Qed.

Lemma normal_key_ascii key : is_ascii key = true -> TrieSpec.normal_key key = to_ascii_lowercase (trim key).
Proof.
  intros Ha%trim_ascii_byte. unfold TrieSpec.normal_key.
  destruct (existsb _ (trim key)) eqn:E; [by apply to_lowercase_ascii|].
  symmetry. apply lowercase_id. unfold has_uppercase. apply not_true_iff_false.
  rewrite <- not_true_iff_false in E. intros H. apply E. rewrite existsb_exists in *.
  destruct H as (c & Hc & Hu). exists c. by rewrite Hu.
Qed.

(** The slots of a key share its body. *)
Lemma key_slots_body key :
  is_ascii key = true ->
  exists k ks, TrieSpec.key_slots key =
    if bool_decide (domain_key_body key = []) then []
    else (fun kind => (kind, to_ascii_lowercase (domain_key_body key))) <$> k :: ks.
Proof.
  intros Ha. unfold TrieSpec.key_slots, domain_key_body. rewrite normal_key_ascii by done.
  assert (Hstrip : forall p, p = b! "+." \/ p = b! "*." \/ p = b! "." ->
    strip_prefix p (to_ascii_lowercase (trim key)) = to_ascii_lowercase <$> strip_prefix p (trim key)).
  { intros p Hp. destruct (punct_lower p Hp). by apply strip_lower. }
  rewrite !Hstrip by eauto.
  assert (Hbase : forall kinds base, TrieSpec.base_slots kinds (to_ascii_lowercase base) =
    if bool_decide (trim_end_byte dot base = []) then []
    else (fun kind => (kind, to_ascii_lowercase (trim_end_byte dot base))) <$> kinds).
  { intros kinds base. unfold TrieSpec.base_slots. rewrite trim_end_lower.
    destruct (trim_end_byte dot base); simpl; done. }
  destruct (strip_prefix (b! "+.") (trim key)); cbn [fmap option_fmap option_map];
    [exists Trie.Exact, [Trie.Dot]; apply Hbase|].
  destruct (strip_prefix (b! "*.") (trim key)); cbn [fmap option_fmap option_map];
    [exists Trie.Star, []; apply Hbase|].
  destruct (strip_prefix (b! ".") (trim key)); cbn [fmap option_fmap option_map];
    [exists Trie.Dot, []|exists Trie.Exact, []]; apply Hbase.
Qed.

Lemma key_matches_label k base host :
  TrieSpec.key_matches (k, base) host -> labels_ok host -> labels_ok base.
Proof.
  destruct k; simpl; [by intros ->| |].
  - intros (pre & _ & ->) H. by apply labels_ok_app in H as [_ H].
  - intros (pre & ->) H. by apply labels_ok_app in H as [_ H].
Qed.

Lemma label_key_matches k base :
  labels_ok base -> exists host, labels_ok host /\ TrieSpec.key_matches (k, base) host.
Proof.
  intros H. destruct k; simpl.
  - by exists base.
  - exists (b! "a" ++ dot :: base). split; [apply labels_ok_app; split; [by apply labels_ok_label; [|set_solver]|done]|].
    exists (b! "a"). split; [set_solver|done].
  - exists (b! "a" ++ dot :: base). split; [apply labels_ok_app; split; [by apply labels_ok_label; [|set_solver]|done]|].
    by exists (b! "a").
Qed.

(** A key is dead exactly when no slot it writes matches a host name. *)
Lemma dead_slots key :
  is_ascii key = true ->
  domain_key_is_dead key = true <->
  forall host k, labels_ok host -> k ∈ TrieSpec.key_slots key -> ~ TrieSpec.key_matches k host.
Proof.
  intros Ha. destruct (key_slots_body key Ha) as (k0 & ks & ->).
  unfold domain_key_is_dead, domain_key_defect. case_bool_decide as Hb.
  { split; [|done]. by intros _ host k _ ?%not_elem_of_nil. }
  destruct (has_empty_label (domain_key_body key)) eqn:E.
  - split; [|done]. intros _ host k Hh Hk Hm. apply list_elem_of_fmap in Hk as (kd & -> & _).
    apply key_matches_label in Hm; [|done]. rewrite labels_ok_lower in Hm.
    apply has_empty_label_spec in Hm. congruence.
  - split; [done|]. intros H. exfalso. apply has_empty_label_spec in E. rewrite <- labels_ok_lower in E.
    destruct (label_key_matches k0 _ E) as (host & Hh & Hm). eapply H; [done| |done]. by left.
Qed.

Lemma not_insertable_slots key :
  is_ascii key = true ->
  domain_key_defect key = Some NotInsertable <-> TrieSpec.key_slots key = [].
Proof.
  intros Ha. destruct (key_slots_body key Ha) as (k0 & ks & ->). unfold domain_key_defect.
  case_bool_decide as Hb; [done|]. split; [by destruct (has_empty_label _)|done].
Qed.

Context {T : Type} `{HO : Sealed.HashOrder, SZ : DomainTrie.Sized T}.

(** The trie that holds one ASCII key never answers a host name of
    non-empty labels exactly when the key is reported dead, and it stays
    empty exactly when the key is reported as not insertable. *)
Theorem dead_key_exact key (v : T) :
  is_ascii key = true -> TrieSpec.small (TrieTheorems.build_ops [key] v) ->
  exists t, TrieSpec.run_ops (TrieTheorems.build_ops [key] v) = Some t /\
    (domain_key_defect key = Some NotInsertable <-> TrieSpec.contents (TrieTheorems.build_ops [key] v) = ∅) /\
    (domain_key_is_dead key = true <->
     forall host, labels_ok host -> DomainTrie.search_normalized t host = Some None).
Proof.
  intros Ha Hs. destruct (TrieSpec.run_repr _ Hs) as (t & b & Ht & Hr & _). exists t. split; [done|].
  assert (Hc : forall k, is_Some (TrieSpec.contents (TrieTheorems.build_ops [key] v) !! k) <->
    k ∈ TrieSpec.key_slots key) by (intros k; rewrite TrieTheorems.contents_build; set_solver).
  split.
  - rewrite not_insertable_slots by done. split.
    + intros E. apply map_eq. intros k. rewrite lookup_empty. apply eq_None_not_Some. rewrite Hc, E.
      apply not_elem_of_nil.
    + intros E. apply elem_of_nil_inv. intros k Hk%Hc. rewrite E, lookup_empty in Hk. by destruct Hk.
  - rewrite dead_slots by done.
    assert (Hq : forall host, labels_ok host -> DomainTrie.search_normalized t host = Some None <->
      forall k, k ∈ TrieSpec.key_slots key -> ~ TrieSpec.key_matches k host).
    { intros host Hh. unfold DomainTrie.search_normalized. rewrite (TrieTheorems.repr_search _ _ _ _ _ Hr).
      rewrite trim_end_byte_id by (by apply labels_ok_last). rewrite (inj_iff Some), eq_None_not_Some.
      rewrite TrieTheorems.best_match_Some. setoid_rewrite Hc. naive_solver. }
    naive_solver.
Qed.

End Keys.

(** ** Payloads of rules *)

Lemma starts_dot s : starts_with (b! ".") s = true <-> head s = Some dot.
Proof.
  rewrite starts_with_spec. split; [by intros [r ->]|]. destruct s as [|c s]; [done|]. intros [= ->]. by exists s.
Qed.

Lemma ends_dot s : ends_with (b! ".") s = true <-> last s = Some dot.
Proof.
  rewrite ends_with_spec, last_Some. split; intros [r E]; exists r; by rewrite E.
Qed.

Lemma has_prefix_plus p : strip_prefix (b! "+.") p <> None -> plus ∈ p.
Proof. destruct (strip_prefix _ p) eqn:E; [|done]. apply strip_prefix_Some in E as ->. intros _. by left. Qed.

Lemma has_prefix_star p : strip_prefix (b! "*.") p <> None -> star ∈ p.
Proof. destruct (strip_prefix _ p) eqn:E; [|done]. apply strip_prefix_Some in E as ->. intros _. by left. Qed.

(** A payload that is reported live is itself a host name. *)
Lemma live_payload p :
  trim p = p -> domain_rule_payload_is_dead p = false <-> plain_host p.
Proof.
  intros Ht. unfold domain_rule_payload_is_dead. rewrite Ht.
  rewrite !orb_false_iff, !contains_byte_false, bool_decide_eq_false. unfold plain_host. split.
  - intros [[[[Hn He] Hs] [Hst Hpl]] Hd]. split_and!; [|done|done].
    unfold domain_key_is_dead, domain_key_defect, domain_key_body in Hd. rewrite Ht in Hd.
    assert (E1 : strip_prefix (b! "+.") p = None).
    { destruct (strip_prefix (b! "+.") p) eqn:E; [|done]. exfalso. apply Hpl, has_prefix_plus. by rewrite E. }
    assert (E2 : strip_prefix (b! "*.") p = None).
    { destruct (strip_prefix (b! "*.") p) eqn:E; [|done]. exfalso. apply Hst, has_prefix_star. by rewrite E. }
    assert (E3 : strip_prefix (b! ".") p = None).
    { destruct (strip_prefix (b! ".") p) eqn:E; [|done]. apply strip_prefix_Some in E. subst p. done. }
    rewrite E1, E2, E3, trim_end_byte_id in Hd.
    2:{ intros Hl%ends_dot. congruence. }
    rewrite bool_decide_eq_false_2 in Hd by done. destruct (has_empty_label p) eqn:E; [done|].
    by apply has_empty_label_spec.
  - intros (Hl & Hst & Hpl). destruct (labels_ok_head p Hl) as [Hn Hh]. pose proof (labels_ok_last p Hl) as Hla.
    split_and!; try done.
    + apply not_true_iff_false. by rewrite ends_dot.
    + apply not_true_iff_false. by rewrite starts_dot.
    + unfold domain_key_is_dead, domain_key_defect, domain_key_body. rewrite Ht.
      destruct (strip_prefix (b! "+.") p) eqn:E1; [exfalso; apply Hpl, has_prefix_plus; by rewrite E1|].
      destruct (strip_prefix (b! "*.") p) eqn:E2; [exfalso; apply Hst, has_prefix_star; by rewrite E2|].
      destruct (strip_prefix (b! ".") p) eqn:E3; [apply strip_prefix_Some in E3; by subst p|].
      rewrite trim_end_byte_id by done. rewrite bool_decide_eq_false_2 by done.
      by rewrite (proj2 (has_empty_label_spec p) Hl).
Qed.

Lemma lower_elem c s : is_ascii_alphanumeric c = false -> c ∈ to_ascii_lowercase s <-> c ∈ s.
Proof.
  intros Hc. unfold to_ascii_lowercase. rewrite list_elem_of_fmap. split.
  - intros (d & -> & Hd). assert (byte_lower d = d) as E; [|by rewrite E].
    clear -Hc. by destruct d as [[] [] [] [] [] [] [] []].
  - intros Hs. exists c. split; [|done]. clear -Hc. by destruct c as [[] [] [] [] [] [] [] []].
Qed.

Lemma plain_host_lower s : plain_host (to_ascii_lowercase s) <-> plain_host s.
Proof. unfold plain_host. by rewrite labels_ok_lower, !lower_elem. Qed.

(** a trimmed DOMAIN or DOMAIN-SUFFIX payload is reported dead exactly
    when no host name equals it, and exactly when none ends in it. *)
Theorem dead_payload_exact p :
  trim p = p ->
  (domain_rule_payload_is_dead p = true <-> forall host, plain_host host -> eq_ignore_ascii_case host p = false) /\
  (domain_rule_payload_is_dead p = true <-> forall host, plain_host host -> domain_suffix_matches host p = false).
Proof.
  intros Ht. pose proof (live_payload p Ht) as Hlive.
  assert (Hsuf : forall host, plain_host host -> domain_suffix_matches host p = true -> plain_host p).
  { intros host (Hl & Hst & Hpl)%plain_host_lower Hm. apply plain_host_lower.
    apply domain_suffix_matches_spec in Hm as [<-|[pre E]]; [done|]. rewrite E in Hl, Hst, Hpl.
    apply labels_ok_app in Hl as [_ Hl]. split_and!; [done|set_solver|set_solver]. }
  assert (Heq : forall host, eq_ignore_ascii_case host p = true -> domain_suffix_matches host p = true).
  { intros host. rewrite eq_ignore_ascii_case_spec, domain_suffix_matches_spec. by left. }
  assert (Hself : eq_ignore_ascii_case p p = true) by (by apply eq_ignore_ascii_case_spec).
  destruct (domain_rule_payload_is_dead p) eqn:E.
  - assert (Hno : ~ plain_host p) by (rewrite <- Hlive; done).
    split; (split; [|done]); intros _ host Hh; apply not_true_iff_false; intros Hm; apply Hno; eauto.
  - assert (Hp : plain_host p) by (by apply Hlive). split; (split; [done|]); intros H; exfalso.
    + by rewrite (H p Hp) in Hself.
    + specialize (H p Hp). by rewrite (Heq p Hself) in H.
Qed.

Lemma no_dots_tail c p :
  contains (b! "..") (c :: p) = false -> contains (b! "..") p = false /\ (c = dot -> head p <> Some dot).
Proof.
  rewrite <- !not_true_iff_false, !contains_spec. intros H. split.
  - intros (a & b & ->). apply H. by exists (c :: a), b.
  - intros -> Hh. destruct p as [|d p]; [done|]. injection Hh as ->. apply H. by exists [], p.
Qed.

(** Padding a keyword without [..] makes a host name. *)
Lemma padded_labels p :
  contains (b! "..") p = false -> forall w, w <> [] -> dot ∉ w -> labels_ok (w ++ p ++ b! "a").
Proof.
  cut (contains (b! "..") p = false ->
    (forall w, w <> [] -> dot ∉ w -> labels_ok (w ++ p ++ b! "a")) /\
    (head p <> Some dot -> labels_ok (p ++ b! "a"))); [naive_solver|].
  induction p as [|c p IH]; intros Hp.
  { split.
    - intros w Hw Hd. apply labels_ok_label; [by destruct w|]. rewrite not_elem_of_app. split; [done|set_solver].
    - intros _. apply labels_ok_label; [done|set_solver]. }
  apply no_dots_tail in Hp as [Hp Hc]. destruct (IH Hp) as [IHw IHh]. split.
  - intros w Hw Hd. destruct (decide (c = dot)) as [->|Hne].
    + change (w ++ (dot :: p) ++ b! "a") with (w ++ dot :: (p ++ b! "a")). apply labels_ok_app.
      split; [by apply labels_ok_label|]. by apply IHh, Hc.
    + replace (w ++ (c :: p) ++ b! "a") with ((w ++ [c]) ++ p ++ b! "a") by (by rewrite <- app_assoc).
      apply IHw; [by destruct w|]. rewrite not_elem_of_app. split; [done|]. intros Hin%list_elem_of_singleton.
      congruence.
  - intros Hh. change ((c :: p) ++ b! "a") with ([c] ++ p ++ b! "a"). apply IHw; [done|].
    intros Hin%list_elem_of_singleton. subst c. by apply Hh.
Qed.

(** A DOMAIN-KEYWORD payload is reported dead exactly when no host of
    non-empty labels contains it. *)
Theorem dead_keyword_exact p :
  domain_keyword_payload_is_dead p = true <->
  forall host, labels_ok host -> domain_keyword_matches host p = false.
Proof.
  unfold domain_keyword_payload_is_dead. destruct (contains (b! "..") p) eqn:E.
  - split; [|done]. intros _ host Hh. apply not_true_iff_false. rewrite domain_keyword_matches_spec, contains_spec.
    intros (a & b & E'). apply contains_spec in E as (x & y & ->). apply labels_ok_lower in Hh. rewrite E' in Hh.
    rewrite !lowercase_app in Hh. change (to_ascii_lowercase (b! "..")) with [dot; dot] in Hh.
    replace (a ++ (to_ascii_lowercase x ++ [dot; dot] ++ to_ascii_lowercase y) ++ b)
      with ((a ++ to_ascii_lowercase x) ++ dot :: [] ++ dot :: to_ascii_lowercase y ++ b) in Hh
      by (by rewrite <- !app_assoc).
    apply labels_ok_app in Hh as [_ Hh]. apply labels_ok_app in Hh as [Hh _]. by apply labels_ok_nil.
  - split; [done|]. intros H. exfalso.
    assert (Hh : labels_ok (b! "a" ++ p ++ b! "a")).
    { apply (padded_labels p E); [done|set_solver]. }
    specialize (H _ Hh). rewrite domain_keyword_matches_spec, !lowercase_app in H.
    by rewrite contains_infix in H.
Qed.

(** ** Wildcards *)

(** The host that puts a letter for every star. *)
Definition fill (p : bytes) : bytes := (fun c => if decide (c = star) then "x"%char else c) <$> p.

Lemma glob_fill p : glob p (fill p) = true.
Proof.
  induction p as [|c p IH]; [done|]. unfold fill. rewrite fmap_cons. destruct (decide (c = star)) as [->|Hc].
  - apply glob_star. exists (b! "x"), (fill p). split_and!; [done|done|set_solver|done].
  - cbn [glob]. rewrite decide_False by done. fold (fill p). rewrite IH, andb_true_r.
    by apply bool_decide_eq_true.
Qed.

Lemma fill_split p : split dot (fill p) = fill <$> split dot p.
Proof.
  induction p as [|c p IH]; [done|]. destruct (decide (c = dot)) as [->|Hc].
  - change (fill (dot :: p)) with (dot :: fill p). rewrite !split_cons_sep, IH. done.
  - destruct (split_cons_other dot c p Hc) as (w & ws & E & ->).
    unfold fill at 1. rewrite fmap_cons. fold (fill p).
    set (d := if decide (c = star) then "x"%char else c).
    assert (Hd : d <> dot) by (subst d; by case_decide).
    destruct (split_cons_other dot d (fill p) Hd) as (w' & ws' & E' & ->).
    rewrite IH, E in E'. cbn in E'. injection E' as <- <-. done.
Qed.

Lemma fill_labels p : labels_ok p -> labels_ok (fill p).
Proof.
  unfold labels_ok. rewrite fill_split, Forall_fmap. intros H. eapply Forall_impl; [exact H|]. intros l Hl. by destruct l.
Qed.

Lemma fill_plain p : labels_ok p -> plus ∉ p -> plain_host (fill p).
Proof.
  intros Hl Hp. split; [by apply fill_labels|]. unfold fill.
  split; intros (c & E & Hc)%list_elem_of_fmap; case_decide; try done; by subst c.
Qed.

Lemma split_no_sep_app c a s :
  c ∉ a -> exists w ws, split c s = w :: ws /\ split c (a ++ s) = (a ++ w) :: ws.
Proof.
  induction a as [|d a IH]; intros Ha.
  { destruct (split c s) as [|w ws] eqn:E; [by destruct (split_ne c s)|]. by exists w, ws. }
  destruct IH as (w & ws & E & E'); [set_solver|]. exists w, ws. split; [done|].
  destruct (split_cons_other c d (a ++ s)) as (w' & ws' & E2 & E3); [set_solver|]. cbn [app]. rewrite E3.
  rewrite E' in E2. by injection E2 as <- <-.
Qed.

(** The glob matches label by label. *)
Lemma glob_labels p s : glob p s = true -> Forall2 (fun a b => glob a b = true) (split dot p) (split dot s).
Proof.
  revert s. induction p as [|c p IH]; intros s H.
  { cbn [glob] in H. apply bool_decide_eq_true in H as ->. by repeat constructor. }
  destruct (decide (c = star)) as [->|Hs].
  - apply glob_star in H as (g & s' & -> & Hg & Hd & H). apply IH in H.
    destruct (split_no_sep_app dot [star] p) as (w & ws & E & E'); [set_solver|].
    destruct (split_no_sep_app dot g s') as (w' & ws' & E2 & E2'); [done|].
    cbn [app] in E'. rewrite E', E2'. rewrite E, E2 in H. apply Forall2_cons in H as [H1 H2].
    constructor; [|done]. apply glob_star. by exists g, w'.
  - cbn [glob] in H. rewrite decide_False in H by done. destruct s as [|d s]; [done|].
    apply andb_true_iff in H as [Hb H]. apply IH in H. destruct (decide (c = dot)) as [->|Hc].
    + assert (d = dot) as ->.
      { apply bool_decide_eq_true in Hb. symmetry in Hb. by apply byte_lower_dot. }
      rewrite !split_cons_sep. by constructor.
    + assert (Hd : d <> dot).
      { intros ->. apply Hc. apply bool_decide_eq_true in Hb. by apply byte_lower_dot. }
      destruct (split_cons_other dot c p Hc) as (w & ws & E & ->).
      destruct (split_cons_other dot d s Hd) as (w' & ws' & E' & ->).
      rewrite E, E' in H. apply Forall2_cons in H as [H1 H2]. constructor; [|done].
      cbn [glob]. rewrite decide_False by done. by rewrite Hb, H1.
Qed.

Lemma glob_labels_ok p s : glob p s = true -> labels_ok s -> labels_ok p.
Proof.
  intros H%glob_labels Hs. unfold labels_ok in *. induction H as [|a b p' s' Hab H IH]; [constructor|].
  apply Forall_cons in Hs as [Hb Hs]. constructor; [|by apply IH]. intros ->. apply Hb.
  cbn [glob] in Hab. by apply bool_decide_eq_true in Hab.
Qed.

Lemma glob_plus p s : glob p s = true -> plus ∈ p -> plus ∈ s.
Proof.
  revert s. induction p as [|c p IH]; intros s H Hp; [by apply not_elem_of_nil in Hp|].
  apply elem_of_cons in Hp as [<-|Hp].
  - cbn [glob] in H. rewrite decide_False in H by done. destruct s as [|d s]; [done|].
    apply andb_true_iff in H as [Hb%bool_decide_eq_true _].
    apply (lower_elem plus (d :: s)); [done|]. rewrite <- (byte_lower_id plus) by done. rewrite Hb. by left.
  - destruct (decide (c = star)) as [->|Hs].
    + apply glob_star in H as (g & s' & -> & _ & _ & H). apply elem_of_app. right. by apply IH.
    + cbn [glob] in H. rewrite decide_False in H by done. destruct s as [|d s]; [done|].
      apply andb_true_iff in H as [_ H]. right. by apply IH.
Qed.

Lemma wildcard_dead_spec p :
  trim p = p -> domain_wildcard_payload_is_dead p = false <-> labels_ok p /\ plus ∉ p.
Proof.
  intros Ht. unfold domain_wildcard_payload_is_dead. rewrite Ht.
  destruct (decide (p = [])) as [->|Hne].
  { rewrite bool_decide_eq_true_2 by done. split; [done|]. intros [H _]. by apply labels_ok_nil in H. }
  rewrite (bool_decide_eq_false_2 (p = [])) by done. rewrite <- contains_byte_false.
  destruct (contains_byte plus p); [by split; [|intros []]|]. cbn [orb].
  assert (E : labels_ok p <-> labels_ok (default p (strip_prefix (b! "*.") p))).
  { destruct (strip_prefix (b! "*.") p) as [r|] eqn:E; [|done]. apply strip_prefix_Some in E as ->.
    change (b! "*." ++ r) with ([star] ++ dot :: r). rewrite labels_ok_app. simpl. split; [by intros []|].
    intros H. split; [|done]. apply labels_ok_label; [done|]. by intros H'%list_elem_of_singleton. }
  rewrite E, <- has_empty_label_spec, orb_false_iff. split; [by intros [_ H]|]. intros [H _]. split; [|done].
  apply bool_decide_eq_false_2. intros E'. apply has_empty_label_spec in H. rewrite E' in H.
  by apply labels_ok_nil in H.
Qed.

(** A trimmed DOMAIN-WILDCARD payload is reported dead exactly when no
    host name matches its glob. *)
Theorem dead_wildcard_exact p :
  trim p = p ->
  domain_wildcard_payload_is_dead p = true <-> forall host, plain_host host -> glob p host = false.
Proof.
  intros Ht. rewrite <- not_false_iff_true, wildcard_dead_spec by done. split.
  - intros H host (Hl & _ & Hp). apply not_true_iff_false. intros Hg. apply H.
    split; [by eapply glob_labels_ok|]. intros Hin. by eapply Hp, glob_plus.
  - intros H [Hl Hp]. assert (Hf := fill_plain p Hl Hp). apply H in Hf. by rewrite glob_fill in Hf.
Qed.

(** ** Witnesses *)

#[local] Existing Instance Sealed.default_hash_order.
#[local] Existing Instance DomainTrie.sized_nat.

Lemma dead_key_exact_witness :
  (exists t, TrieSpec.run_ops (TrieTheorems.build_ops [b! "+.a..b"] 1) = Some t /\
    DomainTrie.search_normalized t (b! "x.b") = Some None) /\
  (exists t, TrieSpec.run_ops (TrieTheorems.build_ops [b! "+."] 1) = Some t /\
    TrieSpec.contents (TrieTheorems.build_ops [b! "+."] 1) = ∅).
Proof.
  split.
  - destruct (dead_key_exact (b! "+.a..b") 1) as (t & Ht & _ & H); [reflexivity|reflexivity|].
    exists t. split; [exact Ht|]. apply (proj1 H); [reflexivity|]. apply has_empty_label_spec. reflexivity.
  - destruct (dead_key_exact (b! "+.") 1) as (t & Ht & H & _); [reflexivity|reflexivity|].
    exists t. split; [exact Ht|]. apply (proj1 H). reflexivity.
Defined.

Lemma dead_payload_exact_witness :
  domain_suffix_matches (b! "www.x.com") (b! ".x.com") = false /\
  ~ (forall host, plain_host host -> eq_ignore_ascii_case host (b! "x.com") = false).
Proof.
  split.
  - apply (proj2 (dead_payload_exact (b! ".x.com") eq_refl)); [reflexivity|].
    split; [apply has_empty_label_spec; reflexivity|]. split; apply contains_byte_false; reflexivity.
  - intros H. apply (proj1 (dead_payload_exact (b! "x.com") eq_refl)) in H. vm_compute in H. discriminate H.
Defined.

Lemma dead_wildcard_exact_witness :
  glob (b! "+.x.com") (b! "www.x.com") = false /\
  ~ (forall host, plain_host host -> glob (b! "*.x.com") host = false).
Proof.
  split.
  - apply (proj1 (dead_wildcard_exact (b! "+.x.com") eq_refl)); [reflexivity|].
    split; [apply has_empty_label_spec; reflexivity|]. split; apply contains_byte_false; reflexivity.
  - intros H. apply (proj2 (dead_wildcard_exact (b! "*.x.com") eq_refl)) in H. vm_compute in H. discriminate H.
Defined.

End DomainKey.
