(* ===== verification/RuleConfig.v ===== *)
(** * Loading the rules of a configuration (crates/meow-config)

    The [rules:] list (rule_parser.rs) and the named blocks of [sub-rules:]
    (sub_rules_parser.rs), whose references are ordered by a depth-first
    search that rejects cycles. *)

From stdpp Require Import sorting strings.
From S2P Require Import Prelude Strings Trim Ip IpSet Ports Regex Wildcard Metadata Geosite.
From S2P Require Import Trie TrieSealed DomainTrie Rules RuleParser DomainKey.

#[local] Set Warnings "-register-all".

Module RuleConfig.
Import IpSet Ports Metadata Rules RuleParser.

Section RuleConfig.
Context `{HO : Sealed.HashOrder, UL : UnicodeLower, UU : UnicodeUpper, RO : RegexOps, KO : Geosite.KeyOrder}.
Context `{NL : IpNetLib, PF : Platform}.

Inductive LineError :=
  | RuleSetParts
  | UnknownProvider (name : bytes)
  | TrailingFields
  | UnknownBlock (name : bytes)
  | BadRule (e : ParseError).

Inductive ConfigError :=
  | DeadPayload (line : bytes)
  | BadLine (line : bytes) (e : LineError).

Abbreviation Providers := (gmap bytes ptr).
Abbreviation SubRuleBlocks := (gmap bytes (list Rule)).

(** ** One line *)

Definition try_parse_rule_set (line : bytes) (providers : Providers) : option (result LineError Rule) :=
  let parts := map trim (splitn 4 comma line) in
  if negb (bool_decide (head parts = Some (b! "RULE-SET"))) then None
  else match parts with
  | _ :: name :: adapter :: more =>
      let flags := parse_rule_flags (head more) in
      match providers !! name with
      | None => Some (Err (UnknownProvider name))
      | Some set => Some (Ok (new_rule_set name set adapter flags))
      end
  | _ => Some (Err RuleSetParts)
  end.

Definition is_comment (line : bytes) : bool := bool_decide (line = []) || starts_with (b! "#") line.

Definition parse_sub_rule_reference (line : bytes) : option bytes :=
  let line := trim line in
  if is_comment line then None
  else match splitn 2 comma line with
  | [ty; rest] =>
      if negb (eq_ignore_ascii_case (trim ty) (b! "SUB-RULE")) then None
      else if bool_decide (trim rest = []) then None
      else first ← head (split comma (trim rest)); Some (trim first)
  | _ => None
  end.

Definition build_sub_rule_rule (block_name : bytes) (resolved : SubRuleBlocks) : result LineError Rule :=
  block ← ok_or (UnknownBlock block_name) (resolved !! block_name);
  Ok (new_sub_rule block_name block).

Definition parse_one_rule_or_subrule (ctx : ParserContext) (providers : Providers) (sub_rules : SubRuleBlocks)
    (line : bytes) : result LineError Rule :=
  match try_parse_rule_set line providers with
  | Some r => r
  | None =>
      match parse_sub_rule_reference line with
      | Some block_name =>
          let rest := trim (default [] (snd <$> split_once comma line)) in
          if contains_byte comma rest then Err TrailingFields
          else build_sub_rule_rule block_name sub_rules
      | None =>
          match parse_rule ctx line with Ok r => Ok r | Err e => Err (BadRule e) end
      end
  end.

(** ** The [rules:] list *)

Definition payload_dead (rule : Rule) : bool :=
  match rule_type rule with
  | TDomain | TDomainSuffix => DomainKey.domain_rule_payload_is_dead (payload rule)
  | TDomainWildcard => DomainKey.domain_wildcard_payload_is_dead (payload rule)
  | TDomainKeyword => DomainKey.domain_keyword_payload_is_dead (payload rule)
  | _ => false
  end.

Section Lists.
Variables (ctx : ParserContext) (providers : Providers) (sub_rules : SubRuleBlocks).

Definition rules_step (strict : bool) (rules : list Rule) (line : bytes) : result ConfigError (list Rule) :=
  let line := trim line in
  if is_comment line then Ok rules
  else match parse_one_rule_or_subrule ctx providers sub_rules line with
  | Ok rule => if payload_dead rule && strict then Err (DeadPayload line) else Ok (rules ++ [rule])
  | Err e => if strict then Err (BadLine line e) else Ok rules
  end.

Definition parse_rules_full (strict : bool) (raw_rules : list bytes) : result ConfigError (list Rule) :=
  try_fold (rules_step strict) [] raw_rules.
End Lists.

Definition parse_rules_with_providers (ctx : ParserContext) (providers : Providers) (strict : bool)
    (raw_rules : list bytes) : result ConfigError (list Rule) :=
  parse_rules_full ctx providers ∅ strict raw_rules.

Definition parse_rules (ctx : ParserContext) (strict : bool) (raw_rules : list bytes) :
    result ConfigError (list Rule) :=
  parse_rules_with_providers ctx ∅ strict raw_rules.

(** ** The blocks of [sub-rules:] *)

Inductive SubError :=
  | UndefinedBlock (target : bytes)
  | CycleDetected (path : list bytes)
  | InternalUndefined (node : bytes)
  | BlockLine (block : bytes) (e : LineError)
  | OutOfFuel.

Abbreviation RawBlocks := (gmap bytes (list bytes)).
Abbreviation Graph := (gmap bytes (list bytes)).

Definition references (lines : list bytes) : list bytes := omap parse_sub_rule_reference lines.

(** The error is that of some undefined reference: the map is visited in
    the order of its hashes. *)
Definition build_reference_graph (raw : RawBlocks) : result SubError Graph :=
  match head (List.filter (fun t => bool_decide (raw !! t = None)) (mjoin (references <$> (map_to_list raw).*2))) with
  | Some target => Err (UndefinedBlock target)
  | None => Ok (references <$> raw)
  end.

Inductive State := Fresh | OnStack | Done.

Abbreviation Search := (gmap bytes State * list bytes)%type.

(** [dfs]; the nodes on the stack are distinct, so one call more than there
    are blocks is enough fuel. *)
Fixpoint dfs (graph : Graph) (fuel : nat) (path : list bytes) (s : Search) (node : bytes) : result SubError Search :=
  match fuel with
  | 0 => Err OutOfFuel
  | S fuel =>
      match s.1 !! node with
      | Some Done => Ok s
      | Some OnStack => Err (CycleDetected (path ++ [node]))
      | None => Err (InternalUndefined node)
      | Some Fresh =>
          let s := (<[node := OnStack]> s.1, s.2) in
          s ← try_fold (dfs graph fuel (path ++ [node])) s (default [] (graph !! node));
          Ok (<[node := Done]> s.1, s.2 ++ [node])
      end
  end.

Definition topo_order_with_cycle_check (raw : RawBlocks) (graph : Graph) : result SubError (list bytes) :=
  let roots := merge_sort bytes_le (map_to_list raw).*1 in
  s ← try_fold (dfs graph (S (size raw)) []) ((fun _ => Fresh) <$> raw, []) roots;
  Ok s.2.

Definition block_rules (ctx : ParserContext) (providers : Providers) (resolved : SubRuleBlocks)
    (lines : list bytes) : result LineError (list Rule) :=
  try_map (parse_one_rule_or_subrule ctx providers resolved)
    (List.filter (fun l => negb (is_comment l)) (map trim lines)).

(** Names come from the map, so the lookup does not fail. *)
Definition resolve_block (ctx : ParserContext) (providers : Providers) (raw : RawBlocks)
    (resolved : SubRuleBlocks) (block_name : bytes) : result SubError SubRuleBlocks :=
  match raw !! block_name with
  | None => Err (InternalUndefined block_name)
  | Some lines =>
      match block_rules ctx providers resolved lines with
      | Ok rules => Ok (<[block_name := rules]> resolved)
      | Err e => Err (BlockLine block_name e)
      end
  end.

Definition parse_sub_rules (ctx : ParserContext) (providers : Providers) (raw : RawBlocks) :
    result SubError SubRuleBlocks :=
  graph ← build_reference_graph raw;
  order ← topo_order_with_cycle_check raw graph;
  try_fold (resolve_block ctx providers raw) ∅ order.

(** ** Strict and lenient loading *)

Definition relevant (raw : list bytes) : list bytes := List.filter (fun l => negb (is_comment l)) (map trim raw).

Section Load.
Variables (ctx : ParserContext) (providers : Providers) (sub_rules : SubRuleBlocks).
Abbreviation parse_line := (parse_one_rule_or_subrule ctx providers sub_rules).

Lemma relevant_cons l raw :
  relevant (l :: raw) = if is_comment (trim l) then relevant raw else trim l :: relevant raw.
Proof. unfold relevant. cbn. by destruct (is_comment (trim l)). Qed.

Lemma lenient_run rules raw :
  try_fold (rules_step ctx providers sub_rules false) rules raw =
  Ok (rules ++ omap (fun l => to_option (parse_line l)) (relevant raw)).
Proof.
  revert rules. induction raw as [|l raw IH]; intros rules; [cbn; by rewrite app_nil_r|].
  cbn [try_fold]. unfold rules_step at 2. rewrite relevant_cons. destruct (is_comment (trim l)); [apply IH|].
  cbn [omap list_omap]. destruct (parse_line (trim l)) as [r|e]; cbn [to_option];
    rewrite ?andb_false_r; cbn [mbind result_bind]; rewrite IH; [by rewrite <- app_assoc|done].
Qed.

Lemma strict_run rules raw out :
  try_fold (rules_step ctx providers sub_rules true) rules raw = Ok out <->
  exists new, out = rules ++ new /\
    Forall2 (fun l r => parse_line l = Ok r /\ payload_dead r = false) (relevant raw) new.
Proof.
  revert rules. induction raw as [|l raw IH]; intros rules.
  { cbn. split.
    - intros [= <-]. exists []. split; [by rewrite app_nil_r|constructor].
    - intros (new & -> & H). inversion H. by rewrite app_nil_r. }
  cbn [try_fold]. unfold rules_step at 2. rewrite relevant_cons. destruct (is_comment (trim l)); [apply IH|].
  destruct (parse_line (trim l)) as [r|e] eqn:E.
  2:{ split; [done|]. intros (new & -> & H). apply Forall2_cons_inv_l in H as (r' & ? & [Hr _] & _). congruence. }
  rewrite andb_true_r. destruct (payload_dead r) eqn:Ed.
  { split; [done|]. intros (new & -> & H). apply Forall2_cons_inv_l in H as (r' & ? & [Hr Hd] & _). congruence. }
  cbn [mbind result_bind]. rewrite IH. split.
  - intros (new & -> & H). exists (r :: new). split; [by rewrite <- app_assoc|by constructor].
  - intros (new & -> & H). inversion H as [|? r' ? new' [Hr _] Hnew]; subst.
    assert (r' = r) as -> by congruence. exists new'. split; [by rewrite <- app_assoc|done].
Qed.

(** Lenient loading keeps, in order, the rule of every line that parses;
    strict loading succeeds exactly when every line parses to a rule whose
    payload is not dead, and then loads the same rules. *)
Theorem rules_strict_lenient raw :
  parse_rules_full ctx providers sub_rules false raw =
    Ok (omap (fun l => to_option (parse_line l)) (relevant raw)) /\
  (forall rules, parse_rules_full ctx providers sub_rules true raw = Ok rules <->
    Forall2 (fun l r => parse_line l = Ok r /\ payload_dead r = false) (relevant raw) rules) /\
  (forall rules, parse_rules_full ctx providers sub_rules true raw = Ok rules ->
    parse_rules_full ctx providers sub_rules false raw = Ok rules).
Proof.
  unfold parse_rules_full. rewrite lenient_run. cbn [app]. split; [done|].
  assert (Hs : forall rules, try_fold (rules_step ctx providers sub_rules true) [] raw = Ok rules <->
    Forall2 (fun l r => parse_line l = Ok r /\ payload_dead r = false) (relevant raw) rules).
  { intros rules. rewrite strict_run. naive_solver. }
  split; [done|]. intros rules H%Hs. f_equal. clear Hs.
  induction H as [|l r ls rs [Hr _] _ IH]; [done|]. cbn [omap list_omap].
  rewrite Hr. cbn [to_option]. by f_equal.
Qed.

End Load.

(** ** The order of blocks *)

Section Topo.
Variables (raw : RawBlocks) (graph : Graph).
Hypothesis graph_dom : forall x, is_Some (graph !! x) <-> is_Some (raw !! x).
Hypothesis graph_closed : forall x ys y, graph !! x = Some ys -> y ∈ ys -> is_Some (raw !! y).

Definition edge (x y : bytes) : Prop := exists ys, graph !! x = Some ys /\ y ∈ ys.

(** A walk along references. *)
Fixpoint walk (p : list bytes) : Prop :=
  match p with
  | x :: (y :: _) as q => edge x y /\ walk q
  | _ => True
  end.

(** A walk that ends where one of its blocks was: a cycle. *)
Definition cyclic (p : list bytes) : Prop := exists q x, p = q ++ [x] /\ x ∈ q /\ walk p.

(** Every block stands behind the blocks it refers to. *)
Definition ordered (order : list bytes) : Prop :=
  forall i x y, order !! i = Some x -> edge x y -> y ∈ take i order.

Record search_ok (path : list bytes) (s : Search) : Prop := {
  ok_dom : forall x, is_Some (s.1 !! x) <-> is_Some (raw !! x);
  ok_done : forall x, s.1 !! x = Some Done <-> x ∈ s.2;
  ok_stack : forall x, s.1 !! x = Some OnStack <-> x ∈ path;
  ok_nodup : NoDup s.2;
  ok_order : ordered s.2;
}.

Lemma ref_walk_snoc p x y : walk (p ++ [x]) -> edge x y -> walk (p ++ [x; y]).
Proof.
  induction p as [|z p IH]; simpl; [done|]. destruct p as [|w p]; simpl in *; [naive_solver|].
  intros [Hz Hp] Hxy. split; [done|]. by apply IH.
Qed.

Lemma ordered_snoc order x :
  ordered order -> (forall y, edge x y -> y ∈ order) -> ordered (order ++ [x]).
Proof.
  intros Ho Hx i z y Hi Hzy. apply lookup_app_Some in Hi as [Hi|[Hlen Hi]].
  - rewrite take_app_le by (apply lookup_lt_Some in Hi; lia). by eapply Ho.
  - apply list_lookup_singleton_Some in Hi as [Hi <-].
    replace i with (length order) by lia. rewrite take_app_length. by apply Hx.
Qed.

Lemma path_bound path s : search_ok path s -> NoDup path -> length path <= size raw.
Proof.
  intros Hs Hp. rewrite <- (size_dom (D := gset bytes) raw).
  rewrite <- (size_list_to_set (C := gset bytes) path) by done. apply subseteq_size.
  intros x Hx%elem_of_list_to_set. apply elem_of_dom, (ok_dom _ _ Hs). eexists. by apply (ok_stack _ _ Hs).
Qed.

(** A block is entered: it goes on the stack. *)
Lemma search_enter path s node :
  search_ok path s -> s.1 !! node = Some Fresh -> search_ok (path ++ [node]) (<[node := OnStack]> s.1, s.2).
Proof.
  intros [Hd Hdone Hst Hn Ho] Hf. split; cbn [fst snd]; [| | |done|done].
  - intros x. destruct (decide (x = node)) as [->|Hne].
    + rewrite lookup_insert_eq. split; [intros _; apply Hd; by eexists|by eexists].
    + by rewrite lookup_insert_ne.
  - intros x. rewrite <- Hdone. destruct (decide (x = node)) as [->|Hne].
    + rewrite lookup_insert_eq, Hf. done.
    + by rewrite lookup_insert_ne.
  - intros x. rewrite elem_of_app, list_elem_of_singleton, <- Hst. destruct (decide (x = node)) as [->|Hne].
    + rewrite lookup_insert_eq. naive_solver.
    + rewrite lookup_insert_ne by done. naive_solver.
Qed.

(** A block is left: it is done, and follows what it refers to. *)
Lemma search_leave path s node :
  search_ok (path ++ [node]) s -> node ∉ path -> (forall y, edge node y -> y ∈ s.2) ->
  search_ok path (<[node := Done]> s.1, s.2 ++ [node]).
Proof.
  intros [Hd Hdone Hst Hn Ho] Hp He.
  assert (Hs : s.1 !! node = Some OnStack) by (apply Hst, elem_of_app; right; left).
  split; cbn [fst snd].
  - intros x. destruct (decide (x = node)) as [->|Hne].
    + rewrite lookup_insert_eq. split; [intros _; apply Hd; by eexists|by eexists].
    + by rewrite lookup_insert_ne.
  - intros x. rewrite elem_of_app, list_elem_of_singleton, <- Hdone. destruct (decide (x = node)) as [->|Hne].
    + rewrite lookup_insert_eq. naive_solver.
    + rewrite lookup_insert_ne by done. naive_solver.
  - intros x. destruct (decide (x = node)) as [->|Hne].
    + by rewrite lookup_insert_eq.
    + rewrite lookup_insert_ne, Hst, elem_of_app, list_elem_of_singleton by done. naive_solver.
  - apply NoDup_app. split_and!; [done| |apply NoDup_singleton].
    intros x Hx%Hdone ->%list_elem_of_singleton. congruence.
  - by apply ordered_snoc.
Qed.

Definition dfs_post (path : list bytes) (s : Search) (targets : list bytes) (r : result SubError Search) : Prop :=
  match r with
  | Ok s' => search_ok path s' /\ s.2 `prefix_of` s'.2 /\ forall y, y ∈ targets -> y ∈ s'.2
  | Err (CycleDetected p) => cyclic p
  | Err _ => False
  end.

Lemma dfs_loop f path s targets :
  search_ok path s ->
  (forall s y, search_ok path s -> y ∈ targets -> dfs_post path s [y] (f s y)) ->
  dfs_post path s targets (try_fold f s targets).
Proof.
  intros Hs Hf. revert s Hs. induction targets as [|y ys IH]; intros s Hs; cbn [try_fold].
  { split_and!; [done|done|]. by intros y ?%not_elem_of_nil. }
  pose proof (Hf s y Hs (list_elem_of_here _ _)) as Hy. destruct (f s y) as [s1|e]; [|done].
  destruct Hy as (Hs1 & Hp1 & Hy1). cbn [mbind result_bind].
  assert (H : dfs_post path s1 ys (try_fold f s1 ys)).
  { apply IH; [|done]. intros s' z Hs' Hz. apply Hf; [done|by right]. }
  destruct (try_fold f s1 ys) as [s2|e]; [|done]. destruct H as (Hs2 & Hp2 & Hy2).
  split_and!; [done|by trans s1.2|]. intros z [->|Hz]%elem_of_cons; [|by apply Hy2].
  destruct Hp2 as [k ->]. apply elem_of_app. left. apply Hy1. left.
Qed.

Lemma dfs_spec fuel path s node :
  search_ok path s -> NoDup path -> fuel + length path = S (size raw) ->
  is_Some (raw !! node) -> walk (path ++ [node]) ->
  dfs_post path s [node] (dfs graph fuel path s node).
Proof.
  revert path s node. induction fuel as [|fuel IH]; intros path s node Hs Hp Hf Hn Hw.
  { pose proof (path_bound _ _ Hs Hp). simpl in Hf. lia. }
  cbn [dfs]. destruct (s.1 !! node) as [[]|] eqn:E.
  - assert (Hnp : node ∉ path).
    { intros Hin%(ok_stack _ _ Hs). congruence. }
    pose proof (search_enter _ _ _ Hs E) as Hs1.
    destruct (proj2 (graph_dom node) Hn) as [ys Hys]. rewrite Hys. change (default [] (Some ys)) with ys.
    assert (H : dfs_post (path ++ [node]) (<[node := OnStack]> s.1, s.2) ys
      (try_fold (dfs graph fuel (path ++ [node])) (<[node := OnStack]> s.1, s.2) ys)).
    { apply dfs_loop; [done|]. intros s' y Hs' Hy. apply IH; [done| | | |].
      - apply NoDup_app. split_and!; [done| |apply NoDup_singleton]. by intros x Hx ->%list_elem_of_singleton.
      - rewrite length_app. simpl. lia.
      - by eapply graph_closed.
      - rewrite <- app_assoc. apply ref_walk_snoc; [done|]. by exists ys. }
    destruct (try_fold _ _ ys) as [s2|e]; [|exact H]. destruct H as (Hs2 & Hp2 & Hy2). cbn [mbind result_bind].
    split_and!.
    + apply search_leave; [done|done|]. intros y (ys' & Hys' & Hy). simplify_eq. by apply Hy2.
    + cbn [snd] in *. by apply prefix_app_r.
    + intros y ->%list_elem_of_singleton. cbn. apply elem_of_app. right. left.
  - exists path, node. split_and!; [done|by apply (ok_stack _ _ Hs)|done].
  - split_and!; [done|done|]. intros y ->%list_elem_of_singleton. by apply (ok_done _ _ Hs).
  - apply (ok_dom _ _ Hs) in Hn. rewrite E in Hn. by destruct Hn.
Qed.

Lemma search_start : search_ok [] ((fun _ => Fresh) <$> raw, []).
Proof.
  split; cbn [fst snd].
  - intros x. by rewrite lookup_fmap, fmap_is_Some.
  - intros x. rewrite lookup_fmap. split; [|by intros ?%not_elem_of_nil]. by destruct (raw !! x).
  - intros x. rewrite lookup_fmap. split; [|by intros ?%not_elem_of_nil]. by destruct (raw !! x).
  - constructor.
  - intros i x y Hi. by rewrite lookup_nil in Hi.
Qed.

Lemma elem_of_roots x : x ∈ merge_sort bytes_le (map_to_list raw).*1 <-> is_Some (raw !! x).
Proof.
  rewrite (merge_sort_Permutation bytes_le), list_elem_of_fmap. split.
  - intros ([y l] & -> & H%elem_of_map_to_list). by exists l.
  - intros [l H]. exists (x, l). split; [done|by apply elem_of_map_to_list].
Qed.

Lemma topo_spec :
  match topo_order_with_cycle_check raw graph with
  | Ok order => NoDup order /\ ordered order /\ forall x, x ∈ order <-> is_Some (raw !! x)
  | Err (CycleDetected p) => cyclic p
  | Err _ => False
  end.
Proof.
  unfold topo_order_with_cycle_check. set (roots := merge_sort _ _).
  pose proof (dfs_loop (dfs graph (S (size raw)) []) [] _ roots search_start) as H.
  destruct (try_fold _ _ roots) as [s|e]; cbn [mbind result_bind].
  - destruct H as (Hs & _ & Hr).
    { intros s' y Hs' Hy%elem_of_roots. apply dfs_spec; [done|constructor|simpl; lia|done|done]. }
    split_and!; [apply Hs|apply Hs|]. intros x. split.
    + intros Hx%(ok_done _ _ Hs). apply (ok_dom _ _ Hs). by eexists.
    + intros Hx%elem_of_roots. by apply Hr.
  - apply H. intros s' y Hs' Hy%elem_of_roots. apply dfs_spec; [done|constructor|simpl; lia|done|done].
Qed.

(** Blocks that can be ordered have no cycle. *)
Lemma ordered_acyclic order p :
  NoDup order -> ordered order -> (forall x, is_Some (raw !! x) -> x ∈ order) -> ~ cyclic p.
Proof.
  intros Hnd Ho Hall (q & x & -> & Hx & Hw).
  assert (Hpos : forall a p b, walk (a :: p ++ [b]) -> exists i j, order !! i = Some a /\ order !! j = Some b /\ j < i).
  { intros a p. revert a. induction p as [|c p IH]; intros a b Hw'; cbn [app walk] in Hw'.
    - destruct Hw' as [Hab _]. assert (Ha : a ∈ order).
      { apply Hall, graph_dom. destruct Hab as (ys & Hys & _). by eexists. }
      apply list_elem_of_lookup in Ha as [i Hi].
      destruct (proj1 (list_elem_of_lookup _ _) (Ho i a b Hi Hab)) as [j Hj].
      apply lookup_take_Some in Hj as [Hj Hlt]. eauto.
    - destruct Hw' as [Hac Hw']. destruct (IH c b Hw') as (k & j & Hk & Hj & Hlt).
      assert (Ha : a ∈ order).
      { apply Hall, graph_dom. destruct Hac as (ys & Hys & _). by eexists. }
      apply list_elem_of_lookup in Ha as [i Hi].
      destruct (proj1 (list_elem_of_lookup _ _) (Ho i a c Hi Hac)) as [k' Hk']. apply lookup_take_Some in Hk' as [Hk' Hlt'].
      assert (k' = k) as -> by (by eapply NoDup_lookup). exists i, j. split_and!; [done|done|lia]. }
  apply list_elem_of_split in Hx as (a & b & ->). rewrite <- app_assoc in Hw. cbn [app] in Hw.
  assert (Hw' : walk (x :: b ++ [x])).
  { revert Hw. clear. induction a as [|y a IH]; [done|]. intros Hw. apply IH.
    cbn [app] in Hw. destruct (a ++ x :: b ++ [x]); [done|]. by destruct Hw. }
  destruct (Hpos _ _ _ Hw') as (i & j & Hi & Hj & Hlt). assert (i = j) by (by eapply NoDup_lookup). lia.
Qed.

End Topo.

(** ** Resolving the blocks *)

Section Resolve.
Variables (ctx : ParserContext) (providers : Providers) (raw : RawBlocks).

Definition reference_graph : Graph := references <$> raw.

Lemma graph_spec :
  match build_reference_graph raw with
  | Ok graph => graph = reference_graph /\
      (forall x ys y, graph !! x = Some ys -> y ∈ ys -> is_Some (raw !! y))
  | Err (UndefinedBlock t) => raw !! t = None /\ exists x ys, reference_graph !! x = Some ys /\ t ∈ ys
  | Err _ => False
  end.
Proof.
  unfold build_reference_graph. set (l := mjoin _).
  assert (Hl : forall t, t ∈ l <-> exists x ys, reference_graph !! x = Some ys /\ t ∈ ys).
  { intros t. unfold l, reference_graph. rewrite list_elem_of_join. setoid_rewrite list_elem_of_fmap.
    setoid_rewrite list_elem_of_fmap. setoid_rewrite lookup_fmap. split.
    - intros (ys & Ht & ls & -> & [x ls'] & -> & Hx%elem_of_map_to_list). exists x, (references ls').
      by rewrite Hx.
    - intros (x & ys & (ls & Hx & ->)%fmap_Some & Ht). exists (references ls). split; [done|].
      exists ls. split; [done|]. exists (x, ls). split; [done|by apply elem_of_map_to_list]. }
  destruct (head (List.filter _ l)) as [t|] eqn:E.
  - apply head_Some_elem_of, list_elem_of_In, List.filter_In in E as [Ht Hn%bool_decide_eq_true].
    split; [done|]. by apply Hl, list_elem_of_In.
  - split; [done|]. intros x ys y Hx Hy. destruct (raw !! y) eqn:Ey; [by eexists|]. exfalso.
    assert (Hin : y ∈ List.filter (fun t => bool_decide (raw !! t = None)) l).
    { apply list_elem_of_In, List.filter_In. split; [apply list_elem_of_In, Hl; eauto|by apply bool_decide_eq_true]. }
    apply head_None in E. rewrite E in Hin. by apply not_elem_of_nil in Hin.
Qed.

Lemma parse_line_mono (small big : SubRuleBlocks) line r :
  small ⊆ big -> parse_one_rule_or_subrule ctx providers small line = Ok r ->
  parse_one_rule_or_subrule ctx providers big line = Ok r.
Proof.
  intros Hsub. unfold parse_one_rule_or_subrule. destruct (try_parse_rule_set line providers); [done|].
  destruct (parse_sub_rule_reference line) as [name|]; [|done]. destruct (contains_byte _ _); [done|].
  unfold build_sub_rule_rule. intros (block & Hb%ok_or_Ok & H)%bind_Ok.
  by rewrite (lookup_weaken _ _ _ _ Hb Hsub).
Qed.

Lemma block_rules_mono (small big : SubRuleBlocks) lines rules :
  small ⊆ big -> block_rules ctx providers small lines = Ok rules -> block_rules ctx providers big lines = Ok rules.
Proof.
  intros Hsub. unfold block_rules. rewrite !try_map_Ok. intros H. eapply Forall2_impl; [exact H|].
  intros l r Hl. by eapply parse_line_mono.
Qed.

Lemma reference_trim line : parse_sub_rule_reference (trim line) = parse_sub_rule_reference line.
Proof. unfold parse_sub_rule_reference. by rewrite trim_idemp. Qed.

(** The first element that fails gives the error. *)
Lemma try_map_Err {E A B} (f : A -> result E B) l e :
  try_map f l = Err e ->
  exists before x after, l = before ++ x :: after /\ Forall (fun y => is_Some (to_option (f y))) before /\ f x = Err e.
Proof.
  induction l as [|x l IH]; cbn [try_map]; [done|]. destruct (f x) as [y|e'] eqn:Ex; cbn [mbind result_bind].
  - destruct (try_map f l) as [ys|e'']; cbn [mbind result_bind]; [done|]. intros [= ->].
    destruct IH as (before & z & after & -> & Hb & Hf); [done|]. exists (x :: before), z, after. split_and!; [done| |done].
    constructor; [by rewrite Ex; eexists|done].
  - intros [= ->]. by exists [], x, l.
Qed.

(** The first line of a block that does not parse, given the blocks that the
    lines refer to. *)
Definition fails_at (resolved : SubRuleBlocks) (lines : list bytes) (e : LineError) : Prop :=
  exists before line after, relevant lines = before ++ line :: after /\
    Forall (fun l => is_Some (to_option (parse_one_rule_or_subrule ctx providers resolved l))) before /\
    parse_one_rule_or_subrule ctx providers resolved line = Err e /\ forall b, e <> UnknownBlock b.

Lemma block_fails_at (resolved : SubRuleBlocks) lines e :
  (forall y, y ∈ references lines -> is_Some (resolved !! y)) ->
  block_rules ctx providers resolved lines = Err e -> fails_at resolved lines e.
Proof.
  intros Href (before & line & after & Hl & Hb & H)%try_map_Err. exists before, line, after. split_and!; [done..|].
  intros b ->. assert (Hin : line ∈ relevant lines) by (unfold relevant; rewrite Hl; apply elem_of_app; right; left). clear Hl Hb.
  apply list_elem_of_In, List.filter_In in Hin as [Hin _]. apply list_elem_of_In, list_elem_of_fmap in Hin as (l0 & -> & Hl0).
  unfold parse_one_rule_or_subrule in H. destruct (try_parse_rule_set _ _) as [r|] eqn:Er.
  { unfold try_parse_rule_set in Er. destruct (negb _); [done|]. destruct (map trim _) as [|? [|? [|? ?]]]; try by simplify_eq.
    destruct (providers !! _); by simplify_eq. }
  rewrite reference_trim in H. destruct (parse_sub_rule_reference l0) as [name|] eqn:En.
  - destruct (contains_byte _ _); [done|]. unfold build_sub_rule_rule in H.
    destruct (Href name) as [block Hb0]; [apply list_elem_of_omap; eauto|]. by rewrite Hb0 in H.
  - by destruct (parse_rule ctx (trim l0)).
Qed.

(** What a block that failed leaves known: the blocks it refers to are
    resolved, and one of its lines does not parse against them. *)
Definition failed_block (name : bytes) (e : LineError) : Prop :=
  exists lines resolved, raw !! name = Some lines /\ fails_at resolved lines e /\
    (forall y, y ∈ references lines -> is_Some (resolved !! y)) /\
    forall x rules, resolved !! x = Some rules ->
      exists lines', raw !! x = Some lines' /\ block_rules ctx providers resolved lines' = Ok rules.

(** The blocks resolved so far: those of a prefix of the order, each parsed
    against them. *)
Definition resolved_ok (seen : list bytes) (resolved : SubRuleBlocks) : Prop :=
  forall x, (is_Some (resolved !! x) <-> x ∈ seen) /\
    forall rules, resolved !! x = Some rules ->
      exists lines, raw !! x = Some lines /\ block_rules ctx providers resolved lines = Ok rules.

Lemma resolve_step seen resolved name lines rules :
  resolved_ok seen resolved -> name ∉ seen -> raw !! name = Some lines ->
  block_rules ctx providers resolved lines = Ok rules -> resolved_ok (seen ++ [name]) (<[name := rules]> resolved).
Proof.
  intros Hok Hn Hr Hb x.
  assert (Hnone : resolved !! name = None).
  { apply eq_None_not_Some. by rewrite (proj1 (Hok name)). }
  assert (Hsub : resolved ⊆ <[name := rules]> resolved) by (by apply insert_subseteq).
  rewrite elem_of_app, list_elem_of_singleton. destruct (decide (x = name)) as [->|Hne].
  - rewrite lookup_insert_eq. split; [naive_solver|]. intros ? [= <-]. exists lines. split; [done|].
    by eapply block_rules_mono.
  - rewrite lookup_insert_ne by done. destruct (Hok x) as [Hx Hx']. split; [rewrite Hx; naive_solver|].
    intros rules' (lines' & Hl & Hb')%Hx'. exists lines'. split; [done|]. by eapply block_rules_mono.
Qed.

Lemma resolve_run seen rest resolved :
  NoDup (seen ++ rest) -> ordered reference_graph (seen ++ rest) ->
  (forall x, x ∈ seen ++ rest -> is_Some (raw !! x)) -> resolved_ok seen resolved ->
  match try_fold (resolve_block ctx providers raw) resolved rest with
  | Ok blocks => resolved_ok (seen ++ rest) blocks
  | Err (BlockLine name e) => failed_block name e
  | Err _ => False
  end.
Proof.
  revert seen resolved. induction rest as [|name rest IH]; intros seen resolved Hnd Ho Hraw Hok; cbn [try_fold].
  { by rewrite app_nil_r. }
  destruct (Hraw name) as [lines Hl]; [apply elem_of_app; right; left|].
  unfold resolve_block at 2. rewrite Hl. destruct (block_rules ctx providers resolved lines) as [rules|e] eqn:Eb.
  - cbn [mbind result_bind].
    assert (Hn : name ∉ seen).
    { apply NoDup_app in Hnd as (_ & Hd & _). intros Hin. by apply (Hd name Hin); left. }
    replace (seen ++ name :: rest) with ((seen ++ [name]) ++ rest) in * by (by rewrite <- app_assoc).
    apply IH; [done|done|done|]. by eapply resolve_step.
  - cbn [mbind result_bind].
    assert (Href : forall y, y ∈ references lines -> is_Some (resolved !! y)); [|by exists lines, resolved; split_and!;
      [done|by apply block_fails_at|done|intros x rules; apply Hok]].
    intros y Hy. apply Hok.
    assert (He : edge reference_graph name y).
    { exists (references lines). split; [|done]. unfold reference_graph. by rewrite lookup_fmap, Hl. }
    specialize (Ho (length seen) name y). rewrite take_app_length in Ho. apply Ho; [|done].
    by rewrite lookup_app_r, Nat.sub_diag by lia.
Qed.

(** C19: loading the named blocks ends in one of four ways. It succeeds, and
    then no references are cyclic and each block holds the rules of its lines
    parsed against all the blocks; or it reports a reference to a block that
    is not defined; or a path of references that ends in a cycle; or the error
    of the first line of a block that is neither blank nor a comment and does
    not parse, every block the lines refer to being loaded by then, so that the
    error is never that of an unknown block. *)
Theorem sub_rules_resolved :
  match parse_sub_rules ctx providers raw with
  | Ok blocks =>
      (forall p, ~ cyclic reference_graph p) /\
      (forall x, is_Some (blocks !! x) <-> is_Some (raw !! x)) /\
      forall x rules, blocks !! x = Some rules ->
        exists lines, raw !! x = Some lines /\ block_rules ctx providers blocks lines = Ok rules
  | Err (UndefinedBlock t) => raw !! t = None /\ exists x ys, reference_graph !! x = Some ys /\ t ∈ ys
  | Err (CycleDetected p) => cyclic reference_graph p
  | Err (BlockLine name e) => failed_block name e
  | Err (InternalUndefined _) | Err OutOfFuel => False
  end.
Proof.
  unfold parse_sub_rules. pose proof graph_spec as Hg.
  destruct (build_reference_graph raw) as [graph|[]]; try done. destruct Hg as [-> Hclosed]. cbn [mbind result_bind].
  assert (Hdom : forall x, is_Some (reference_graph !! x) <-> is_Some (raw !! x)).
  { intros x. unfold reference_graph. by rewrite lookup_fmap, fmap_is_Some. }
  pose proof (topo_spec raw reference_graph Hdom Hclosed) as Ht.
  destruct (topo_order_with_cycle_check raw reference_graph) as [order|[]]; try done.
  destruct Ht as (Hnd & Ho & Hall). cbn [mbind result_bind].
  pose proof (resolve_run [] order ∅ Hnd Ho (fun x => proj1 (Hall x))) as H. cbn [app] in H.
  assert (H0 : resolved_ok [] ∅).
  { intros x. rewrite lookup_empty. split; [|done]. split; [by intros [? ?]|by intros ?%not_elem_of_nil]. }
  specialize (H H0). destruct (try_fold _ ∅ order) as [blocks|[]]; try done.
  split_and!.
  - intros p. eapply (ordered_acyclic raw); [exact Hdom|done|done|]. intros x. by apply Hall.
  - intros x. rewrite <- Hall. apply H.
  - intros x. apply H.
Qed.

End Resolve.

End RuleConfig.
End RuleConfig.
