(* ===== verification/DomainIndex.v ===== *)
(** * The domain index and the linear engine
    (crates/meow-tunnel/src/match_engine.rs)

    DOMAIN, DOMAIN-SUFFIX and [*.]-shaped DOMAIN-WILDCARD rules with plain
    payloads go into a trie of rule indices; a search returns the least index
    whose pattern matches the host. The linear engine scans the rules before
    that index, and resumes after it when its target cannot be used. *)

From stdpp Require Import sorting.
From S2P Require Import Prelude Strings Vec Show Ip IpSet Ports Regex Wildcard Metadata.
From S2P Require Import Trie TrieSealed DomainTrie TrieSpec TrieTheorems Geosite Rules RuleOp RulePrune.

Module DomainIndex.
Import DomainTrie.DomainTrie IpSet Ports Metadata Geosite Wildcard Rules RuleOp RulePrune.

#[local] Existing Instance Trie.MatchKind_eq_dec.

Section DomainIndex.
Context `{HO : Sealed.HashOrder, UL : UnicodeLower, UU : UnicodeUpper, RO : RegexOps, KO : KeyOrder}.
Context `{NL : IpNetLib, PF : Platform}.

(** ** The index *)

Abbreviation DomainIndex := (DomainTrie.DomainTrie nat).

Definition index_empty : DomainIndex := DomainTrie.new.

Definition indexable_pattern (payload : bytes) : bool :=
  negb (bool_decide (payload = [])) && is_ascii payload &&
  negb (starts_with (b! ".") payload || starts_with (b! "*") payload || starts_with (b! "+") payload) &&
  negb (ends_with (b! ".") payload) && negb (contains (b! "..") payload).

Definition star_wildcard_indexable (payload : bytes) : bool :=
  match strip_prefix (b! "*.") payload with
  | Some rest => indexable_pattern rest && negb (contains_byte star rest)
  | None => false
  end.

(** The flag says that the index owns the rule; [None] is a panic. *)
Definition insert_rule (t : DomainIndex) (index : nat) (ty : RuleType) (payload : bytes) :
    option (bool * DomainIndex) :=
  index ← Trie.u32_try_from index;
  match ty with
  | TDomain => if indexable_pattern payload then DomainTrie.insert t payload index else Some (false, t)
  | TDomainSuffix =>
      if negb (indexable_pattern payload) then Some (false, t)
      else DomainTrie.insert t (b! "+." ++ payload) index
  | TDomainWildcard =>
      if star_wildcard_indexable payload then DomainTrie.insert t payload index else Some (false, t)
  | _ => Some (false, t)
  end.

Definition index_build (rules : list Rule) : option DomainIndex :=
  t ← foldlM (fun t '(i, r) => snd <$> insert_rule t i (rule_type r) (payload r))
    index_empty (imap pair rules);
  DomainTrie.seal t.

Definition index_search (t : DomainIndex) (host : bytes) : option (option nat) :=
  DomainTrie.search_min_normalized t host.

(** ** The linear engine *)

Record MatchResult := mkMatch {
  adapter_name : bytes;
  result_type : RuleType;
  result_payload : bytes;
}.

(** One scan: matched rules whose target cannot be used are skipped. *)
Fixpoint scan (σ : Store) (m : Metadata) (probe : TargetProbe) (rules : list Rule) : option MatchResult :=
  match rules with
  | [] => None
  | rule :: rules =>
      match match_and_resolve σ m probe rule with
      | Some name =>
          match check probe name with
          | Usable => Some (mkMatch name (rule_type rule) (payload rule))
          | Pass | Missing => scan σ m probe rules
          end
      | None => scan σ m probe rules
      end
  end.

Definition match_rules (σ : Store) (m : Metadata) (rules : list Rule) (index : DomainIndex)
    (probe : TargetProbe) : option (option MatchResult) :=
  let host := rule_host m in
  trie_hit ← (if bool_decide (host = []) then Some None else index_search index host);
  let scan_end := default (length rules) trie_hit in
  if length rules <? scan_end then None
  else match scan σ m probe (take scan_end rules) with
  | Some r => Some (Some r)
  | None =>
      match trie_hit with
      | Some trie_idx =>
          rule ← rules !! trie_idx;
          match check probe (adapter rule) with
          | Usable => Some (Some (mkMatch (adapter rule) (rule_type rule) (payload rule)))
          | Pass | Missing => Some (scan σ m probe (drop (trie_idx + 1) rules))
          end
      | None => Some (scan σ m probe (drop scan_end rules))
      end
  end.

(** ** Which patterns the index owns *)

Definition owned (ty : RuleType) (payload : bytes) : bool :=
  match ty with
  | TDomain | TDomainSuffix => indexable_pattern payload
  | TDomainWildcard => star_wildcard_indexable payload
  | _ => false
  end.

Definition index_key (ty : RuleType) (payload : bytes) : bytes :=
  match ty with TDomainSuffix => b! "+." ++ payload | _ => payload end.

(** The hosts a rule of an owned pattern matches. *)
Definition pattern_matches (ty : RuleType) (payload host : bytes) : bool :=
  match ty with
  | TDomain => eq_ignore_ascii_case host payload
  | TDomainSuffix => domain_suffix_matches host payload
  | TDomainWildcard => glob payload host
  | _ => false
  end.

(** A host as the inbounds normalize it: lower case, no leading dot; the
    accessor has dropped trailing ones. *)
Record normal_host (host : bytes) : Prop := {
  nh_lower : has_uppercase host = false;
  nh_head : head host <> Some dot;
  nh_last : last host <> Some dot;
}.

Lemma indexable_spec p :
  indexable_pattern p = true ->
  p <> [] /\ is_ascii p = true /\ head p <> Some dot /\ head p <> Some star /\
  head p <> Some "+"%char /\ last p <> Some dot.
Proof.
  unfold indexable_pattern. rewrite !andb_true_iff, !negb_true_iff, !orb_false_iff.
  intros [[[[Hn%bool_decide_eq_false Ha] [[H1 H2] H3]] H4] _].
  assert (Hh : forall c, starts_with [c] p = false -> head p <> Some c).
  { intros c Hc. destruct p as [|x p]; [done|]. intros [= ->].
    rewrite <- not_true_iff_false in Hc. apply Hc, starts_with_spec. by exists p. }
  split_and!; [done|done|by apply Hh..|].
  intros Hl. apply last_Some in Hl as [x ->]. rewrite <- not_true_iff_false in H4.
  apply H4, ends_with_spec. by exists x.
Qed.

Lemma clean_pattern_intro p :
  is_ascii p = true -> trim p = p -> last p <> Some dot -> TrieTheorems.clean_pattern p = true.
Proof.
  intros Ha Ht Hl. unfold TrieTheorems.clean_pattern. rewrite Ha. simpl.
  by rewrite !bool_decide_eq_true_2.
Qed.

Lemma head_lower s c :
  head (to_ascii_lowercase s) = Some c -> exists d, head s = Some d /\ byte_lower d = c.
Proof. destruct s as [|d s]; [done|]. intros [= <-]. by exists d. Qed.

Lemma strip_head_none p s c : head p = Some c -> head s <> Some c -> strip_prefix p s = None.
Proof.
  intros Hp Hs. destruct (strip_prefix p s) as [r|] eqn:E; [|done].
  apply strip_prefix_Some in E as ->. by destruct p.
Qed.

Lemma byte_lower_punct c d : is_ascii_alphanumeric d = false -> byte_lower c = d -> c = d.
Proof.
  intros Hd <-. destruct c as [[] [] [] [] [] [] [] []]; try reflexivity; discriminate Hd.
Qed.

Lemma head_lower_ne s d :
  is_ascii_alphanumeric d = false -> head s <> Some d -> head (to_ascii_lowercase s) <> Some d.
Proof. intros Ha Hh (c & Hc & Hl)%head_lower. by apply byte_lower_punct in Hl as ->. Qed.

Lemma key_slots_domain p :
  indexable_pattern p = true -> trim p = p ->
  TrieSpec.key_slots p = [(Trie.Exact, to_ascii_lowercase p)].
Proof.
  intros (Hn & Ha & H1 & H2 & H3 & Hl)%indexable_spec Ht. unfold TrieSpec.key_slots.
  rewrite TrieTheorems.normal_key_clean by (by apply clean_pattern_intro).
  rewrite (strip_head_none (b! "+.") _ "+"%char) by (done || by apply head_lower_ne).
  rewrite (strip_head_none (b! "*.") _ star) by (done || by apply head_lower_ne).
  rewrite (strip_head_none (b! ".") _ dot) by (done || by apply head_lower_ne).
  rewrite TrieTheorems.base_slots_clean; [done| |by destruct p].
  by apply TrieTheorems.last_lower.
Qed.

Lemma key_slots_suffix p :
  indexable_pattern p = true -> trim p = p ->
  TrieSpec.key_slots (b! "+." ++ p) =
  [(Trie.Exact, to_ascii_lowercase p); (Trie.Dot, to_ascii_lowercase p)].
Proof.
  intros (Hn & Ha & H1 & H2 & H3 & Hl)%indexable_spec Ht. unfold TrieSpec.key_slots.
  assert (Hlast : last (b! "+." ++ p) <> Some dot) by (destruct p; [done|by rewrite last_app_cons]).
  rewrite TrieTheorems.normal_key_clean.
  2:{ apply clean_pattern_intro; [unfold is_ascii in *; by rewrite forallb_app, Ha| |done].
      apply trim_app_ascii; try done. by intros c [= <-]. }
  rewrite lowercase_app. change (to_ascii_lowercase (b! "+.")) with (b! "+.").
  rewrite (proj2 (strip_prefix_Some _ _ _) eq_refl).
  rewrite TrieTheorems.base_slots_clean; [done| |by destruct p]. by apply TrieTheorems.last_lower.
Qed.

Lemma key_slots_star p rest :
  p = b! "*." ++ rest -> indexable_pattern rest = true -> trim p = p ->
  TrieSpec.key_slots p = [(Trie.Star, to_ascii_lowercase rest)].
Proof.
  intros -> (Hn & Ha & H1 & H2 & H3 & Hl)%indexable_spec Ht. unfold TrieSpec.key_slots.
  assert (Hlast : last (b! "*." ++ rest) <> Some dot) by (destruct rest; [done|by rewrite last_app_cons]).
  rewrite TrieTheorems.normal_key_clean.
  2:{ apply clean_pattern_intro; [unfold is_ascii in *; by rewrite forallb_app, Ha|done|done]. }
  rewrite lowercase_app. change (to_ascii_lowercase (b! "*.")) with (b! "*.").
  rewrite (strip_head_none (b! "+.") _ "+"%char) by done.
  rewrite (proj2 (strip_prefix_Some (b! "*.") _ _) eq_refl).
  rewrite TrieTheorems.base_slots_clean; [done| |by destruct rest]. by apply TrieTheorems.last_lower.
Qed.

(** The slots of an owned pattern match the hosts its rule matches. *)
Lemma owned_matches ty p host :
  owned ty p = true -> trim p = p -> normal_host host ->
  TrieSpec.key_slots (index_key ty p) <> [] /\
  (pattern_matches ty p host = true <->
   exists k, k ∈ TrieSpec.key_slots (index_key ty p) /\ TrieSpec.key_matches k host).
Proof.
  intros Ho Ht [Hlow Hhd Hlast]. apply lowercase_id in Hlow. destruct ty; try done; cbn [owned index_key pattern_matches] in *.
  - rewrite key_slots_domain by done. split; [done|]. rewrite eq_ignore_ascii_case_spec, Hlow.
    setoid_rewrite list_elem_of_singleton. split; [intros ->; by eexists|by intros (k & -> & ?)].
  - rewrite key_slots_suffix by done. split; [done|]. rewrite domain_suffix_matches_spec, Hlow. split.
    + intros [E|[pre E]].
      * exists (Trie.Exact, to_ascii_lowercase p). split; [set_solver|done].
      * exists (Trie.Dot, to_ascii_lowercase p). split; [set_solver|by exists pre].
    + intros (k & Hk & Hm). rewrite !elem_of_cons in Hk.
      destruct Hk as [->|[->|?%not_elem_of_nil]]; [by left|by right|done].
  - unfold star_wildcard_indexable in Ho. destruct (strip_prefix _ p) as [rest|] eqn:E; [|done].
    apply strip_prefix_Some in E. apply andb_true_iff in Ho as [Hr Hs%negb_true_iff].
    rewrite (key_slots_star p rest) by done. split; [done|].
    assert (Hsr : star_rest p = Some (to_ascii_lowercase rest)).
    { unfold star_rest. rewrite E, (proj2 (strip_prefix_Some _ _ _) eq_refl). cbn [mbind option_bind].
      rewrite Hs, bool_decide_eq_false_2; [done|]. by apply indexable_spec in Hr as [? _]. }
    rewrite (star_rest_glob _ _ _ Hsr). unfold one_label. rewrite Hlow.
    setoid_rewrite list_elem_of_singleton. split.
    + intros (l & _ & Hd & ->). eexists. split; [done|]. by exists l.
    + intros (k & -> & pre & Hd & Eh). exists pre. split_and!; [|done|done]. intros ->. by rewrite Eh in Hhd.
Qed.

(** ** The history of an index *)

Abbreviation entry := (nat * (RuleType * bytes))%type.

Definition entry_owned (e : entry) : bool := owned e.2.1 e.2.2.
Definition entry_matches (host : bytes) (e : entry) : bool := pattern_matches e.2.1 e.2.2 host.

Definition entry_keys (es : list entry) : list (bytes * nat) :=
  omap (fun e => if entry_owned e then Some (index_key e.2.1 e.2.2, e.1) else None) es.
Definition entry_ops (es : list entry) : list (TrieSpec.op (T := nat)) :=
  (fun e => TrieSpec.Insert e.1 e.2) <$> entry_keys es.

(** Indices fit [u32], and owned payloads carry no blanks around. *)
Definition entry_ok (e : entry) : Prop :=
  (Z.of_nat e.1 <= u32_max)%Z /\ (entry_owned e = true -> trim e.2.2 = e.2.2).

Definition ascending (es : list entry) : Prop := StronglySorted lt (fst <$> es).

Lemma entry_ops_app a b : entry_ops (a ++ b) = entry_ops a ++ entry_ops b.
Proof. unfold entry_ops, entry_keys. by rewrite omap_app, fmap_app. Qed.

(** One insert, owned or not. *)
Lemma insert_rule_spec t e :
  entry_ok e ->
  insert_rule t e.1 e.2.1 e.2.2 =
  if entry_owned e
  then t' ← TrieSpec.step t (TrieSpec.Insert (index_key e.2.1 e.2.2) e.1); Some (true, t')
  else Some (false, t).
Proof.
  destruct e as [i [ty p]]. intros [Hi Ht]. unfold insert_rule, entry_owned in *. simpl in *.
  assert (Hu : Trie.u32_try_from i = Some i).
  { unfold Trie.u32_try_from. destruct (Z.leb_spec (Z.of_nat i) u32_max); [done|lia]. }
  rewrite Hu. cbn [mbind option_bind].
  assert (Hins : forall key, TrieSpec.key_slots key <> [] ->
    DomainTrie.insert t key i = (t' ← TrieSpec.step t (TrieSpec.Insert key i); Some (true, t'))).
  { intros key Hk. unfold TrieSpec.step, DomainTrie.insert. rewrite TrieSpec.insert_inner_slots.
    rewrite bool_decide_eq_false_2 by done. destruct (state t) as [b|fz]; [|done].
    by destruct (TrieSpec.builder_inserts _ _ _ _). }
  assert (Hslots : owned ty p = true -> TrieSpec.key_slots (index_key ty p) <> []).
  { intros Ho. apply (owned_matches ty p [] Ho (Ht Ho)). done. }
  destruct ty; try done; cbn [owned index_key] in *.
  - destruct (indexable_pattern p); [|done]. by apply Hins, Hslots.
  - destruct (indexable_pattern p); [|done]. by apply Hins, Hslots.
  - destruct (star_wildcard_indexable p); [|done]. by apply Hins, Hslots.
Qed.

Lemma head_omap_ascending {A} (f : A -> option nat) (l : list A) x :
  StronglySorted lt (omap f l) -> head (omap f l) = Some x <->
  x ∈ omap f l /\ forall y, y ∈ omap f l -> x <= y.
Proof.
  intros Hs. destruct (omap f l) as [|y ys]; simpl.
  { split; [done|]. by intros [?%not_elem_of_nil _]. }
  inversion Hs as [|? ? _ Hall]; subst. rewrite Forall_forall in Hall. split.
  - intros [= <-]. split; [set_solver|]. intros z [->|Hz]%elem_of_cons; [done|]. specialize (Hall z Hz). lia.
  - intros [[->|Hx]%elem_of_cons Hmin]; [done|]. specialize (Hall x Hx). specialize (Hmin y ltac:(set_solver)). lia.
Qed.

Lemma sorted_omap {A} (f : A -> option nat) (g : A -> nat) (l : list A) :
  (forall x y, f x = Some y -> y = g x) -> StronglySorted lt (g <$> l) -> StronglySorted lt (omap f l).
Proof.
  intros Hf. induction l as [|x l IH]; intros Hs; [constructor|].
  cbn in Hs. inversion Hs as [|? ? Hl Hall]; subst. cbn. destruct (f x) as [y|] eqn:E; [|by apply IH].
  constructor; [by apply IH|]. apply Hf in E as ->. rewrite Forall_forall in *. intros z Hz.
  apply list_elem_of_omap in Hz as (w & Hw & Ez). apply Hf in Ez as ->. apply Hall.
  apply list_elem_of_fmap. by exists w.
Qed.

(** The first owned entry that matches the host. *)
Definition hit_of (host : bytes) (e : entry) : option nat :=
  if entry_owned e && entry_matches host e then Some e.1 else None.
Definition first_hit (host : bytes) (es : list entry) : option nat := head (omap (hit_of host) es).

Lemma hit_of_Some host e i :
  hit_of host e = Some i <-> i = e.1 /\ entry_owned e = true /\ entry_matches host e = true.
Proof. unfold hit_of. destruct (entry_owned e), (entry_matches host e); simpl; naive_solver. Qed.

Definition slot_values (k : Trie.MatchKind * bytes) (es : list entry) : list nat :=
  omap (fun e => if decide (k ∈ TrieSpec.key_slots e.1) then Some e.2 else None) (entry_keys es).

Lemma elem_of_slot_values k es i :
  i ∈ slot_values k es <->
  exists e, e ∈ es /\ e.1 = i /\ entry_owned e = true /\ k ∈ TrieSpec.key_slots (index_key e.2.1 e.2.2).
Proof.
  unfold slot_values, entry_keys. rewrite list_elem_of_omap. split.
  - intros ([key j] & He & Hj). apply list_elem_of_omap in He as (e & He & Eo).
    destruct (entry_owned e) eqn:Ew; simplify_eq/=. case_decide; simplify_eq. by exists e.
  - intros (e & He & <- & Eo & Hk). exists (index_key e.2.1 e.2.2, e.1). split; [|by rewrite decide_True].
    apply list_elem_of_omap. exists e. by rewrite Eo.
Qed.

Lemma slot_values_sorted k es : ascending es -> StronglySorted lt (slot_values k es).
Proof.
  intros Hasc. apply sorted_omap with (g := snd); [intros x y; case_decide; naive_solver|].
  unfold entry_keys. unfold ascending in Hasc. induction es as [|e es IH]; [constructor|].
  cbn in Hasc. inversion Hasc as [|? ? Hl Hall]; subst. cbn. destruct (entry_owned e); [|by apply IH].
  cbn. constructor; [by apply IH|]. rewrite Forall_forall in *. intros z Hz. apply Hall.
  apply list_elem_of_fmap in Hz as (w & -> & Hw). apply list_elem_of_omap in Hw as (e' & He' & Ew).
  destruct (entry_owned e'); simplify_eq. apply list_elem_of_fmap. by exists e'.
Qed.

Section Search.
Variables (es : list entry) (host : bytes).
Hypothesis Hok : Forall entry_ok es.
Hypothesis Hasc : ascending es.
Hypothesis Hh : normal_host host.

Lemma entry_hit e :
  e ∈ es -> entry_owned e = true ->
  entry_matches host e = true <->
  exists k, k ∈ TrieSpec.key_slots (index_key e.2.1 e.2.2) /\ TrieSpec.key_matches k host.
Proof.
  intros He Ho. rewrite Forall_forall in Hok. destruct (Hok e He) as [_ Ht].
  apply (owned_matches e.2.1 e.2.2 host Ho (Ht Ho) Hh).
Qed.

Lemma slot_value_hit k i :
  TrieSpec.key_matches k host -> head (slot_values k es) = Some i -> i ∈ omap (hit_of host) es.
Proof.
  intros Hk Hi%head_Some_elem_of. apply elem_of_slot_values in Hi as (e & He & <- & Ho & Hin).
  apply list_elem_of_omap. exists e. split; [done|]. apply hit_of_Some. split_and!; [done|done|].
  apply (entry_hit e He Ho). by exists k.
Qed.

Lemma hit_slot_value i :
  i ∈ omap (hit_of host) es ->
  exists j, j <= i /\ exists k, TrieSpec.key_matches k host /\ head (slot_values k es) = Some j.
Proof.
  intros (e & He & (-> & Ho & Hm)%hit_of_Some)%list_elem_of_omap.
  apply (entry_hit e He Ho) in Hm as (k & Hk & Hm).
  assert (Hin : e.1 ∈ slot_values k es) by (apply elem_of_slot_values; by exists e).
  pose proof (slot_values_sorted k es Hasc) as Hs.
  destruct (slot_values k es) as [|j js] eqn:E; [by apply not_elem_of_nil in Hin|].
  exists j. split; [|by exists k; rewrite E].
  apply elem_of_cons in Hin as [->|Hin]; [done|]. inversion Hs as [|? ? _ Hall]; subst.
  rewrite Forall_forall in Hall. specialize (Hall _ Hin). lia.
Qed.

(** A search returns the first owned rule that matches. *)
Lemma index_search_spec t b :
  TrieSpec.repr t (TrieSpec.contents (entry_ops es)) b ->
  index_search t host = Some (first_hit host es).
Proof.
  intros Hr. unfold index_search.
  destruct (TrieTheorems.search_min_run _ _ _ host Hr) as (r & -> & Hmin). f_equal.
  rewrite (trim_end_byte_id dot host) in Hmin by apply Hh. unfold first_hit.
  assert (Hc : forall k, TrieSpec.contents (entry_ops es) !! k = head (slot_values k es))
    by (intros k; apply TrieTheorems.contents_first).
  assert (Hs : StronglySorted lt (omap (hit_of host) es)).
  { apply sorted_omap with (g := fst); [|done]. intros x y Hy. by apply hit_of_Some in Hy as [-> _]. }
  destruct r as [x|]; simpl in Hmin.
  - destruct Hmin as [(k & Hk & Hx) Hmin]. rewrite Hc in Hx. symmetry. apply head_omap_ascending; [done|].
    split; [by eapply slot_value_hit|]. intros y (j & Hj & k' & Hk' & Hjk)%hit_slot_value.
    assert (Hle : (x <=? j) = true) by (apply Hmin; exists k'; by rewrite Hc). apply Nat.leb_le in Hle. lia.
  - destruct (omap (hit_of host) es) as [|y ys] eqn:E; [done|].
    destruct (hit_slot_value y) as (j & _ & k & Hk & Hj); [rewrite E; set_solver|].
    exfalso. apply (Hmin j). exists k. by rewrite Hc.
Qed.

End Search.

(** ** Building *)

Lemma foldlM_snoc {A S} (f : S -> A -> option S) s l x :
  foldlM f s (l ++ [x]) = s' ← foldlM f s l; f s' x.
Proof. rewrite foldlM_app. destruct (foldlM f s l) as [s'|]; [|done]. simpl. by destruct (f s' x). Qed.

(** Inserting the next rule of a small table never panics. *)
Lemma insert_rule_run es e t :
  entry_ok e -> TrieSpec.small (entry_ops (es ++ [e])) ->
  TrieSpec.run_ops (entry_ops es) = Some t ->
  exists t', insert_rule t e.1 e.2.1 e.2.2 = Some (entry_owned e, t') /\
    TrieSpec.run_ops (entry_ops (es ++ [e])) = Some t'.
Proof.
  intros He Hs Hrun. rewrite insert_rule_spec by done. rewrite entry_ops_app in *.
  unfold entry_ops at 2, entry_keys in Hs. unfold entry_ops at 2, entry_keys. cbn [omap list_omap] in *.
  destruct (entry_owned e); cbn [fmap list_fmap] in *.
  - destruct (TrieSpec.run_repr _ Hs) as (t' & b & Ht' & _). exists t'. split; [|done].
    unfold TrieSpec.run_ops in *. rewrite foldlM_snoc, Hrun in Ht'. cbn [mbind option_bind fst snd] in Ht'.
    by rewrite Ht'.
  - exists t. by rewrite app_nil_r.
Qed.

Lemma seal_run es t :
  TrieSpec.small (entry_ops es) -> TrieSpec.run_ops (entry_ops es) = Some t ->
  exists t' b, DomainTrie.seal t = Some t' /\ TrieSpec.repr t' (TrieSpec.contents (entry_ops es)) b.
Proof.
  intros Hs Hrun.
  assert (Hs' : TrieSpec.small (entry_ops es ++ [TrieSpec.Seal])).
  { unfold TrieSpec.small in *. rewrite sum_list_with_app. simpl. lia. }
  destruct (TrieSpec.run_repr _ Hs') as (t' & b & Ht' & Hr & _). exists t', b.
  unfold TrieSpec.run_ops in *. rewrite foldlM_snoc, Hrun in Ht'. split; [done|].
  by rewrite TrieTheorems.contents_seal in Hr.
Qed.

(** The entries of a list of rules. *)
Definition rule_entries (rules : list Rule) : list entry :=
  imap (fun i r => (i, (rule_type r, payload r))) rules.

Definition rule_index_ok (r : Rule) : Prop :=
  owned (rule_type r) (payload r) = true -> trim (payload r) = payload r.

Lemma rule_entries_lookup rules i : rule_entries rules !! i = (fun r => (i, (rule_type r, payload r))) <$> rules !! i.
Proof. unfold rule_entries. apply list_lookup_imap. Qed.

Lemma rule_entries_ok rules :
  (Z.of_nat (length rules) <= u32_max)%Z -> Forall rule_index_ok rules -> Forall entry_ok (rule_entries rules).
Proof.
  intros Hlen Hok. apply Forall_lookup. intros i e. rewrite rule_entries_lookup.
  intros (r & Hr & ->)%fmap_Some. apply lookup_lt_Some in Hr as Hi. split; simpl; [lia|].
  apply (Forall_lookup_1 _ _ _ _ Hok Hr).
Qed.

Lemma seq_sorted i n : StronglySorted lt (seq i n).
Proof.
  revert i. induction n as [|n IH]; intros i; simpl; constructor; [done|].
  apply Forall_forall. intros x Hx%elem_of_seq. lia.
Qed.

Lemma rule_entries_ascending rules : ascending (rule_entries rules).
Proof.
  unfold ascending, rule_entries. rewrite fmap_imap.
  replace (imap _ rules) with (seq 0 (length rules)); [apply seq_sorted|].
  apply list_eq. intros i. rewrite list_lookup_imap. destruct (rules !! i) as [r|] eqn:E; simpl.
  - apply lookup_seq. split; [lia|]. by apply lookup_lt_Some in E.
  - apply lookup_seq_ge. by apply lookup_ge_None.
Qed.

Definition index_small (rules : list Rule) : Prop := TrieSpec.small (entry_ops (rule_entries rules)).

(** The index of a small table builds, and finds the first owned match. *)
Lemma index_build_spec rules :
  (Z.of_nat (length rules) <= u32_max)%Z -> Forall rule_index_ok rules -> index_small rules ->
  exists t, index_build rules = Some t /\
    forall host, normal_host host -> index_search t host = Some (first_hit host (rule_entries rules)).
Proof.
  intros Hlen Hok Hs. pose proof (rule_entries_ok rules Hlen Hok) as Hes.
  assert (Hmap : rule_entries rules = (fun '(i, r) => (i, (rule_type r, payload r))) <$> imap pair rules).
  { unfold rule_entries. by rewrite fmap_imap. }
  unfold index_build.
  destruct (foldlM_invariant (fun seen t =>
      TrieSpec.run_ops (entry_ops ((fun '(i, r) => (i, (rule_type r, payload r))) <$> seen)) = Some t)
    (fun t '(i, r) => snd <$> insert_rule t i (rule_type r) (payload r))
    index_empty (imap pair rules)) as (t & -> & Ht).
  - done.
  - intros seen [i r] rest t Hsplit Ht. rewrite fmap_app.
    destruct (insert_rule_run ((fun '(i, r) => (i, (rule_type r, payload r))) <$> seen)
      (i, (rule_type r, payload r)) t) as (t' & Hi & Ht'); [| |done|].
    + rewrite Forall_forall in Hes. apply Hes. rewrite Hmap, Hsplit, fmap_app. set_solver.
    + apply (TrieTheorems.small_app _ (entry_ops ((fun '(i, r) => (i, (rule_type r, payload r))) <$> rest))).
      rewrite <- entry_ops_app, <- app_assoc. unfold index_small in Hs.
      by rewrite Hmap, Hsplit, fmap_app in Hs.
    + simpl in Hi. exists t'. by rewrite Hi.
  - rewrite <- Hmap in Ht. destruct (seal_run _ _ Hs Ht) as (t' & b & Hseal & Hr).
    exists t'. split; [done|]. intros host Hh.
    by apply (index_search_spec _ _ Hes (rule_entries_ascending rules) Hh _ b).
Qed.

(** ** The engine *)

(** What a rule contributes to a scan. *)
Definition usable (σ : Store) (m : Metadata) (probe : TargetProbe) (rule : Rule) : option MatchResult :=
  name ← match_and_resolve σ m probe rule;
  match check probe name with
  | Usable => Some (mkMatch name (rule_type rule) (payload rule))
  | _ => None
  end.

Lemma scan_spec σ m probe rules : scan σ m probe rules = head (omap (usable σ m probe) rules).
Proof.
  induction rules as [|r rules IH]; [done|]. cbn. unfold usable at 1.
  destruct (match_and_resolve σ m probe r) as [name|]; [|done]. cbn. by destruct (check probe name).
Qed.

Lemma scan_app σ m probe a b :
  scan σ m probe (a ++ b) = or_else (scan σ m probe a) (scan σ m probe b).
Proof. rewrite !scan_spec, omap_app. by destruct (omap _ a). Qed.

Section Engine.
Context `{RL : !RegexLaws}.
Variables (σ : Store) (m : Metadata) (probe : TargetProbe).
Hypothesis Hhost : is_ascii (rule_host m) = true.

Lemma owned_rule r :
  lowerable r -> owned (rule_type r) (payload r) = true ->
  match_metadata σ m r = pattern_matches (rule_type r) (payload r) (rule_host m).
Proof.
  intros Hl Ho. destruct r; try destruct is_src; try destruct src; try done.
  destruct Hl. by apply wildcard_rule_glob.
Qed.

Lemma owned_resolve r :
  lowerable r -> owned (rule_type r) (payload r) = true ->
  match_and_resolve σ m probe r =
  if pattern_matches (rule_type r) (payload r) (rule_host m) then Some (adapter r) else None.
Proof.
  intros Hl Ho. rewrite <- owned_rule by done. apply resolve_leaf. intros E. by rewrite E in Ho.
Qed.

Lemma first_hit_rule rules i :
  Forall lowerable rules -> first_hit (rule_host m) (rule_entries rules) = Some i ->
  exists r, rules !! i = Some r /\ match_and_resolve σ m probe r = Some (adapter r).
Proof.
  intros Hl Hi%head_Some_elem_of. apply list_elem_of_omap in Hi as (e & He & (-> & Ho & Hm)%hit_of_Some).
  apply list_elem_of_lookup in He as [j Hj]. rewrite rule_entries_lookup in Hj.
  apply fmap_Some in Hj as (r & Hr & ->). exists r. split; [done|].
  unfold entry_owned, entry_matches in *. simpl in *.
  rewrite owned_resolve by (done || by apply (Forall_lookup_1 _ _ _ _ Hl Hr)). by rewrite Hm.
Qed.

(** C5: over the index built from its rules the linear engine never panics
    and returns the first rule that matches with a usable target: stopping the
    scan at the index hit, and resuming behind it, loses nothing. This is for
    a host in ASCII and lower case with no dot at either end, and a table of at
    most [u32::MAX] rules that hold the parsed form of their payloads, with
    wildcards that are ASCII and not empty, indexed payloads without blanks at
    their ends, and labels that fit the node index of the trie. *)
Theorem legacy_engine_exact rules :
  Forall lowerable rules -> Forall rule_index_ok rules -> index_small rules ->
  (Z.of_nat (length rules) <= u32_max)%Z -> normal_host (rule_host m) ->
  exists index, index_build rules = Some index /\
    match_rules σ m rules index probe = Some (head (omap (usable σ m probe) rules)).
Proof.
  intros Hl Hok Hs Hlen Hh. destruct (index_build_spec rules Hlen Hok Hs) as (index & Hb & Hsearch).
  exists index. split; [done|]. rewrite <- scan_spec. unfold match_rules.
  assert (Hfull : (if length rules <? length rules then None
    else match scan σ m probe (take (length rules) rules) with
    | Some r => Some (Some r)
    | None => Some (scan σ m probe (drop (length rules) rules))
    end) = Some (scan σ m probe rules)).
  { rewrite Nat.ltb_irrefl, take_ge, drop_ge by done. by destruct (scan σ m probe rules). }
  case_bool_decide as Hn; cbn [mbind option_bind default from_option]; [done|]. rewrite Hsearch by done.
  destruct (first_hit _ _) as [i|] eqn:Ei; [|done]. cbn [mbind option_bind default from_option]. clear Hfull.
  destruct (first_hit_rule rules i Hl Ei) as (r & Hr & Hres). pose proof (lookup_lt_Some _ _ _ Hr) as Hi.
  unfold id. rewrite (proj2 (Nat.ltb_ge (length rules) i)), Hr by lia.
  assert (Hsplit : scan σ m probe rules = scan σ m probe (take i rules ++ r :: drop (S i) rules))
    by (by rewrite (take_drop_middle _ _ _ Hr)).
  rewrite Hsplit, scan_app. cbn [scan mbind option_bind]. clear Hsplit.
  destruct (scan σ m probe (take i rules)) as [x|]; [done|]. cbn [or_else].
  rewrite Hres, Nat.add_1_r. by destruct (check probe (adapter r)).
Qed.

End Engine.

End DomainIndex.

#[local] Existing Instance Sealed.default_hash_order.

Definition demo_rules : list (Rule (NL := prefix_net_lib) (RO := toy_regex)) :=
  [DomainSuffixRule (b! "example.com") (b! "GONE"); PortRule [(443, 443)%Z] (b! "443") (b! "A") false;
   DomainRule (b! "www.example.com") (b! "B"); FinalRule (b! "DIRECT")].

Definition demo_meta (host : bytes) (port : Z) : Metadata :=
  {| network := Tcp; conn_type := Http; src_ip := None; dst_ip := None; src_port := 0; dst_port := port;
     host := host; dns_mode := Normal; process := []; process_path := []; uid := None; dscp := None;
     src_geo_ip := []; dst_geo_ip := []; sniff_host := []; in_name := []; in_port := 0;
     in_user := None; special_proxy := []; internal := false |}.

Lemma legacy_engine_exact_witness :
  exists index, index_build demo_rules = Some index /\
    match_rules (PF := linux) empty_store (demo_meta (b! "www.example.com") 80) demo_rules index
      (probe_of (fun a => negb (bool_decide (a = b! "GONE")))) =
    Some (Some (mkMatch (b! "B") TDomain (b! "www.example.com"))).
Proof.
  set (m := demo_meta (b! "www.example.com") 80).
  set (probe := probe_of (fun a => negb (bool_decide (a = b! "GONE")))).
  destruct (legacy_engine_exact (PF := linux) (RL := toy_regex_laws) empty_store m probe eq_refl demo_rules)
    as (index & Hb & Hm).
  - repeat constructor.
  - repeat constructor.
  - vm_compute. reflexivity.
  - vm_compute. discriminate.
  - split; vm_compute; congruence.
  - exists index. split; [exact Hb|]. rewrite Hm. vm_compute. reflexivity.
Defined.

End DomainIndex.
