(* ===== verification/RuleIr.v ===== *)
(** * The compiled rule table (crates/meow-tunnel/src/rule_ir.rs)

    [CompiledRuleSet::build] lowers the rules to slots, drops the ones that
    cannot win, and above a size hands plain domain patterns to the index.
    [match_rules] then finds the first slot that matches with a usable
    target, and [match_rules_lazy] stops where a slot needs data the
    connection does not carry yet.

    The main theorem: for every connection the compiled table answers what
    the first matching source rule with a usable target answers. *)

From stdpp Require Import sorting.
From S2P Require Import Prelude Strings Vec Show Ip IpSet Ports Regex Wildcard Metadata.
From S2P Require Import Trie TrieSealed DomainTrie TrieSpec TrieTheorems Geosite Rules RuleOp RulePrune DomainIndex.

Module RuleIr.
Import DomainTrie.DomainTrie IpSet Ports Metadata Geosite Wildcard Rules RuleOp RulePrune DomainIndex.

Section RuleIr.
Context `{HO : Sealed.HashOrder, UL : UnicodeLower, UU : UnicodeUpper, RO : RegexOps, KO : KeyOrder}.
Context `{NL : IpNetLib, PF : Platform}.

Abbreviation DomainIndex := (DomainTrie.DomainTrie nat).

(** ** Slots and plans *)

Definition LINEAR_SCAN_RULE_LIMIT : nat := 64.

Inductive TargetPlan := StaticAdapter | DynamicAdapter.
Inductive ExecutionPlan := LinearScan | DomainIndexed.

Record CompiledRuleSlot := mkSlot {
  rule_index : nat;
  slot_type : RuleType;
  adapter_index : nat;
  slot_plan : TargetPlan;
  demands_ip : bool;
  demands_process : bool;
  slot_op : RuleOp;
}.

Record CompiledRuleSet := mkCompiled {
  slots : list CompiledRuleSlot;
  source_rule_count : nat;
  adapter_names : list bytes;
  adapter_lookup : gmap bytes nat;
  domain_index : DomainIndex;
  execution_plan : ExecutionPlan;
  needs_ip_resolution : bool;
  needs_process_lookup : bool;
}.

Definition compiled_empty : CompiledRuleSet :=
  mkCompiled [] 0 [] ∅ index_empty LinearScan false false.

Definition target_plan (t : RuleType) : TargetPlan :=
  match t with TSubRule => DynamicAdapter | _ => StaticAdapter end.

Definition select_execution_plan (rule_count : nat) : ExecutionPlan :=
  if rule_count <=? LINEAR_SCAN_RULE_LIMIT then LinearScan else DomainIndexed.

Definition is_compatible_with (c : CompiledRuleSet) (rules : list Rule) : bool :=
  source_rule_count c =? length rules.

Definition is_lowered (s : CompiledRuleSlot) : bool :=
  match slot_op s with OFallback => false | _ => true end.

Definition is_trie_owned (s : CompiledRuleSlot) : bool :=
  match slot_op s with OTrieOwned => true | _ => false end.

(** ** Building *)

Definition intern_adapter (names : list bytes) (lookup : gmap bytes nat) (name : bytes) :
    nat * (list bytes * gmap bytes nat) :=
  match lookup !! name with
  | Some index => (index, (names, lookup))
  | None => (length names, (names ++ [name], <[name := length names]> lookup))
  end.

(** The predicate of a rule with its demands; [None] drops the rule. *)
Definition compile_rule (σ : Store) (rule : Rule) : option (RuleOp * bool * bool) :=
  if never_matches σ rule then None
  else match fold_op σ (default OFallback (lower_rule σ rule)) with
  | Never => None
  | Always => Some (OMatch, false, false)
  | FOp op => Some (op, should_resolve_ip σ rule, should_find_process σ rule)
  end.

(** [seen_ops] is only asked for membership. *)
Abbreviation seen_key := (RuleType * bool * bool * bytes * nat)%type.

Record BuildState := mkBuild {
  b_slots : list CompiledRuleSlot;
  b_names : list bytes;
  b_lookup : gmap bytes nat;
  b_seen : list seen_key;
  b_oracle : ShadowOracle;
  b_dst : gmap nat CidrCoverage;
  b_src : gmap nat CidrCoverage;
  b_seen_ip : bool;
  b_needs_ip : bool;
  b_needs_process : bool;
}.

Definition build_start : BuildState :=
  mkBuild [] [] ∅ [] oracle_default ∅ ∅ false false false.

(** Covered-CIDR elimination; [None] drops the rule. *)
Definition coverage_step (st : BuildState) (op : RuleOp) (k : nat) (di : bool) :
    option (gmap nat CidrCoverage * gmap nat CidrCoverage) :=
  match op with
  | OIpCidr net src =>
      let coverages := if src then b_src st else b_dst st in
      let covered := from_option (fun c => coverage_covers c net) false (coverages !! k) in
      if covered && (negb di || b_seen_ip st) then None
      else
        let coverages' := <[k := coverage_absorb (default coverage_new (coverages !! k)) net]> coverages in
        Some (if src then (b_dst st, coverages') else (coverages', b_src st))
  | _ => Some (b_dst st, b_src st)
  end.

(** One round of the loop; the flag leaves the loop, [None] is a panic. *)
Definition build_step (σ : Store) (st : BuildState) (index : nat) (rule : Rule) :
    option (BuildState * bool) :=
  match compile_rule σ rule with
  | None => Some (st, false)
  | Some (op, di, dp) =>
      let '(k, (names, lookup)) := intern_adapter (b_names st) (b_lookup st) (adapter rule) in
      let fingerprint := dedup_fingerprint (payload rule) op in
      let key fp := (rule_type rule, di, dp, fp, k) in
      let duplicate := from_option (fun fp => bool_decide (key fp ∈ b_seen st)) false fingerprint in
      let seen := from_option (fun fp => key fp :: b_seen st) (b_seen st) fingerprint in
      let st := mkBuild (b_slots st) names lookup seen (b_oracle st) (b_dst st) (b_src st)
        (b_seen_ip st) (b_needs_ip st) (b_needs_process st) in
      if duplicate then Some (st, false)
      else if shadows (b_oracle st) op (payload rule) k then Some (st, false)
      else
        let oracle := absorb (b_oracle st) op (payload rule) k in
        match coverage_step st op k di with
        | None =>
            Some (mkBuild (b_slots st) names lookup seen oracle (b_dst st) (b_src st)
              (b_seen_ip st) (b_needs_ip st) (b_needs_process st), false)
        | Some (dst, src) =>
            index ← Trie.u32_try_from index;
            k ← Trie.u32_try_from k;
            let slot := mkSlot index (rule_type rule) k (target_plan (rule_type rule)) di dp op in
            let terminator := match op with OMatch => true | _ => false end in
            Some (mkBuild (b_slots st ++ [slot]) names lookup seen oracle dst src
              (b_seen_ip st || di) (b_needs_ip st || di) (b_needs_process st || dp),
              terminator && bool_decide (adapter rule = b! "DIRECT"))
        end
  end.

Fixpoint build_loop (σ : Store) (st : BuildState) (index : nat) (rules : list Rule) : option BuildState :=
  match rules with
  | [] => Some st
  | rule :: rules =>
      '(st, stop) ← build_step σ st index rule;
      if stop : bool then Some st else build_loop σ st (S index) rules
  end.

Definition is_domain_op (op : RuleOp) : bool :=
  match op with ODomain _ | ODomainSuffix _ | ODomainWildcard _ => true | _ => false end.

Definition set_op (op : RuleOp) (s : CompiledRuleSlot) : CompiledRuleSlot :=
  mkSlot (rule_index s) (slot_type s) (adapter_index s) (slot_plan s) (demands_ip s) (demands_process s) op.

(** Handing plain patterns over to the index. *)
Definition own_slot (rules : list Rule) (acc : DomainIndex * list CompiledRuleSlot) (s : CompiledRuleSlot) :
    option (DomainIndex * list CompiledRuleSlot) :=
  '(owned, index) ←
    (if is_domain_op (slot_op s)
     then rule ← rules !! rule_index s; insert_rule acc.1 (rule_index s) (slot_type s) (payload rule)
     else Some (false, acc.1));
  Some (index, acc.2 ++ [if owned : bool then set_op OTrieOwned s else s]).

Definition build (σ : Store) (rules : list Rule) : option CompiledRuleSet :=
  st ← build_loop σ build_start 0 rules;
  let plan := select_execution_plan (length (b_slots st)) in
  '(index, slots) ←
    match plan with
    | LinearScan => Some (index_empty, b_slots st)
    | DomainIndexed =>
        '(index, slots) ← foldlM (own_slot rules) (index_empty, []) (b_slots st);
        index ← DomainTrie.seal index;
        Some (index, slots)
    end;
  Some (mkCompiled slots (length rules) (b_names st) (b_lookup st) index plan
    (b_needs_ip st) (b_needs_process st)).

(** ** Matching *)

Record CompiledMatchResult := mkResult {
  r_adapter_name : bytes;
  r_adapter_index : option nat;
  r_type : RuleType;
  r_payload : bytes;
  r_index : nat;
}.

Inductive ScanOutcome :=
  | Matched (r : CompiledMatchResult)
  | Blocked (pos : nat)
  | Exhausted.

Inductive LazyMatchOutcome :=
  | LMatched (r : CompiledMatchResult)
  | NeedsEnrichment (needs_ip needs_process : bool) (blocked_rule : nat)
  | NoMatch.

Definition ip_missing (m : Metadata) : bool :=
  bool_decide (dst_ip m = None) && negb (bool_decide (host m = [])).

Definition process_missing (m : Metadata) : bool :=
  bool_decide (process m = []) && bool_decide (is_Some (src_ip m)) && negb (src_port m =? 0)%Z.

Definition slot_blocked (s : CompiledRuleSlot) (m : Metadata) : bool :=
  (demands_ip s && ip_missing m) || (demands_process s && process_missing m).

Section Match.
Variables (σ : Store) (m : Metadata) (probe : TargetProbe) (rules : list Rule) (c : CompiledRuleSet).

Definition make_match (s : CompiledRuleSlot) (name : bytes) (index : option nat) : CompiledMatchResult :=
  mkResult name index (slot_type s) (from_option payload [] (rules !! rule_index s)) (rule_index s).

(** Panics when the adapter index is out of range. *)
Definition static_match (s : CompiledRuleSlot) : option CompiledMatchResult :=
  name ← adapter_names c !! adapter_index s;
  Some (make_match s name (Some (adapter_index s))).

(** The evaluation of one slot; [Gone] ends the scan. *)
Inductive SlotEval := Gone | Missed | Hit (r : CompiledMatchResult).

Definition slot_match (eval_trie : bool) (s : CompiledRuleSlot) : option SlotEval :=
  let statically (b : bool) := if b then Hit <$> static_match s else Some Missed in
  match slot_op s with
  | OTrieOwned =>
      if eval_trie then
        match rules !! rule_index s with
        | Some rule => statically (match_metadata σ m rule)
        | None => Some Missed
        end
      else Some Missed
  | OFallback =>
      match rules !! rule_index s with
      | None => Some Gone
      | Some rule =>
          match slot_plan s with
          | StaticAdapter => statically (match_metadata σ m rule)
          | DynamicAdapter =>
              match match_and_resolve σ m probe rule with
              | Some name => Some (Hit (make_match s name (adapter_lookup c !! name)))
              | None => Some Missed
              end
          end
      end
  | op => statically (matches_op σ m op)
  end.

(** The scan, with the missing targets it reports. *)
Fixpoint scan_slots (stop_on_demand eval_trie : bool) (pos : nat) (ss : list CompiledRuleSlot) :
    option (ScanOutcome * list CompiledMatchResult) :=
  match ss with
  | [] => Some (Exhausted, [])
  | s :: ss =>
      if stop_on_demand && slot_blocked s m then Some (Blocked pos, [])
      else
        e ← slot_match eval_trie s;
        match e with
        | Gone => Some (Exhausted, [])
        | Missed => scan_slots stop_on_demand eval_trie (S pos) ss
        | Hit r =>
            match check probe (r_adapter_name r) with
            | Usable => Some (Matched r, [])
            | Pass => scan_slots stop_on_demand eval_trie (S pos) ss
            | Missing =>
                '(o, skipped) ← scan_slots stop_on_demand eval_trie (S pos) ss;
                Some (o, r :: skipped)
            end
        end
  end.

Definition scan_range_ctl (stop_on_demand eval_trie : bool) (start stop : nat) :
    option (ScanOutcome * list CompiledMatchResult) :=
  ss ← slice start stop (slots c); scan_slots stop_on_demand eval_trie start ss.

Definition scan_range (eval_trie : bool) (start stop : nat) :
    option (option CompiledMatchResult * list CompiledMatchResult) :=
  '(o, skipped) ← scan_range_ctl false eval_trie start stop;
  Some (match o with Matched r => Some r | Blocked _ | Exhausted => None end, skipped).

Definition trie_hit : option (option nat) :=
  if bool_decide (rule_host m = []) then Some None else index_search (domain_index c) (rule_host m).

(** Where the prefix scan ends, and the slot of the hit. *)
Definition hit_position (hit : option nat) : nat * option CompiledRuleSlot :=
  match hit with
  | Some rule_idx =>
      let pos := partition_point (fun s => rule_index s <? rule_idx) (slots c) in
      (pos, s ← slots c !! pos; if rule_index s =? rule_idx then Some s else None)
  | None => (length (slots c), None)
  end.

(** The matched rule and the missing targets that are warned about. *)
Definition compiled_match :
    option (option CompiledMatchResult * list CompiledMatchResult) :=
  match execution_plan c with
  | LinearScan => scan_range true 0 (length (slots c))
  | DomainIndexed =>
      hit ← trie_hit;
      let '(scan_end, hit_slot) := hit_position hit in
      '(o, skipped) ← scan_range false 0 scan_end;
      match o with
      | Some r => Some (Some r, skipped)
      | None =>
          let tail start skipped' :=
            '(o, skipped'') ← scan_range true start (length (slots c));
            Some (o, skipped ++ skipped' ++ skipped'') in
          match hit_slot with
          | None => tail scan_end []
          | Some s =>
              r ← static_match s;
              match check probe (r_adapter_name r) with
              | Usable => Some (Some r, skipped)
              | Pass => tail (scan_end + 1) []
              | Missing => tail (scan_end + 1) [r]
              end
          end
      end
  end.

Definition enrichment_needs (from_pos : nat) : option LazyMatchOutcome :=
  ss ← slice from_pos (length (slots c)) (slots c);
  s ← slots c !! from_pos;
  Some (NeedsEnrichment (existsb demands_ip ss && ip_missing m)
    (existsb demands_process ss && process_missing m) (rule_index s)).

Definition lazy_of (o : ScanOutcome) : option LazyMatchOutcome :=
  match o with
  | Matched r => Some (LMatched r)
  | Blocked pos => enrichment_needs pos
  | Exhausted => Some NoMatch
  end.

(** The outcome and the buffered missing targets. *)
Definition lazy_scan : option (LazyMatchOutcome * list CompiledMatchResult) :=
  let finish start skipped :=
    '(o, skipped') ← scan_range_ctl true true start (length (slots c));
    l ← lazy_of o;
    Some (l, skipped ++ skipped') in
  match execution_plan c with
  | LinearScan => finish 0 []
  | DomainIndexed =>
      hit ← trie_hit;
      let '(scan_end, hit_slot) := hit_position hit in
      '(o, skipped) ← scan_range_ctl true false 0 scan_end;
      match o with
      | Exhausted =>
          match hit_slot with
          | None => finish scan_end skipped
          | Some s =>
              r ← static_match s;
              match check probe (r_adapter_name r) with
              | Usable => Some (LMatched r, skipped)
              | Pass => finish (scan_end + 1) skipped
              | Missing => finish (scan_end + 1) (skipped ++ [r])
              end
          end
      | o => l ← lazy_of o; Some (l, skipped)
      end
  end.

(** Warnings are emitted unless a strict run will follow. *)
Definition compiled_match_lazy : option (LazyMatchOutcome * list CompiledMatchResult) :=
  '(l, skipped) ← lazy_scan;
  Some (l, match l with NeedsEnrichment _ _ _ => [] | _ => skipped end).

End Match.

End RuleIr.
End RuleIr.
