(* ===== verification/RuleIrCorrect.v ===== *)
(** * The compiled rule table answers like its rules

    Proofs about RuleIr.v: every slot means its rule, every rule the build
    drops could not have won, and the index skips nothing that matches. *)

From stdpp Require Import sorting.
From S2P Require Import Prelude Strings Vec Show Ip IpSet Ports Regex Wildcard Metadata.
From S2P Require Import Trie TrieSealed DomainTrie TrieSpec TrieTheorems Geosite Rules RuleOp RulePrune DomainIndex.
From S2P Require Import RuleIr.

Module RuleIrCorrect.
Import DomainTrie.DomainTrie IpSet Ports Metadata Geosite Wildcard Rules RuleOp RulePrune DomainIndex RuleIr.

Section Correct.
Context `{HO : Sealed.HashOrder, UL : UnicodeLower, UU : UnicodeUpper, RO : RegexOps, KO : KeyOrder}.
Context `{NL : IpNetLib, PF : Platform, RL : !RegexLaws}.

(** ** Predicates with no engine cases inside *)

Fixpoint plain_op (op : RuleOp) : bool :=
  match op with
  | OAllOf ops | OAnyOf ops => forallb plain_op ops
  | ONotOp op => plain_op op
  | OTrieOwned | OFallback => false
  | _ => true
  end.

Lemma compile_op_plain t p op : compile_op t p = Some op -> plain_op op = true.
Proof.
  destruct t; cbn [compile_op]; try done; intros H;
    try (apply fmap_Some in H as (? & _ & ->); done); try (injection H as <-; done).
  - destruct (parse_u8 _); [|done]. cbn in H. destruct (_ <=? _)%Z; [|done]. by injection H as <-.
  - unfold compile_network in H. repeat case_bool_decide; by simplify_eq.
Qed.

Lemma mapM_forallb {A B} (f : A -> option B) (p : B -> bool) l k :
  Forall (fun x => forall y, f x = Some y -> p y = true) l -> mapM f l = Some k -> forallb p k = true.
Proof.
  intros Hf Hk. apply mapM_Some in Hk. induction Hk as [|x y l k Hxy _ IH]; [done|].
  inversion Hf as [|? ? Hx Hl]; subst. simpl. by rewrite (Hx y Hxy), IH.
Qed.

Lemma lower_rule_plain σ r op : lower_rule σ r = Some op -> plain_op op = true.
Proof.
  revert op. induction r as [r Hl|rs a p IH|rs a p IH|r a p IH|n rs IH] using Rule_nested_ind; intros op.
  - unfold lower_rule, or_else. destruct (compile_op _ _) eqn:E.
    { intros [= ->]. by eapply compile_op_plain. }
    intros H. destruct r; try done; cbn [lower_native] in H; try (injection H as <-; done).
    + destruct db as [q|]; [|done]. cbn in H. destruct (resolve_keys _ _); [|done]. by injection H as <-.
    + destruct (is_src_flag _); [done|]. by injection H as <-.
  - intros (ops & Hops & ->)%fmap_Some. by apply (mapM_forallb _ _ _ _ IH Hops).
  - intros (ops & Hops & ->)%fmap_Some. by apply (mapM_forallb _ _ _ _ IH Hops).
  - intros (op' & Hop & ->)%fmap_Some. cbn. by apply IH.
  - done.
Qed.

Lemma lowered_static σ r op : lower_rule σ r = Some op -> rule_type r <> TSubRule.
Proof. intros H E. destruct r; try destruct src; try destruct is_src; done. Qed.

Definition plain_folded (f : Folded) : bool := match f with FOp op => plain_op op | _ => true end.

Lemma fold_children_plain fs ops :
  (fold_all fs = Some ops \/ fold_any fs = Some ops) ->
  forallb plain_folded fs = true -> forallb plain_op ops = true.
Proof.
  revert ops. induction fs as [|f fs IH]; intros ops; simpl.
  { intros [[= <-]|[= <-]]; done. }
  intros H [Hf Hfs]%andb_true_iff. destruct f; try (apply IH; naive_solver).
  destruct H as [H|H];
    [destruct (fold_all fs) as [kept|] eqn:E|destruct (fold_any fs) as [kept|] eqn:E]; try done;
    injection H as <-; simpl in *; rewrite Hf; apply IH; naive_solver.
Qed.

Lemma fold_op_plain σ op : plain_op op = true -> plain_folded (fold_op σ op) = true.
Proof.
  assert (Hmap : forall ops, Forall (fun op => plain_op op = true -> plain_folded (fold_op σ op) = true) ops ->
    forallb plain_op ops = true -> forallb plain_folded (map (fold_op σ) ops) = true).
  { induction 1 as [|op' ops Hop _ IH]; [done|]. simpl. rewrite !andb_true_iff. naive_solver. }
  induction op as [op Hl|ops IH|ops IH|op IH] using RuleOp_nested_ind.
  - intros H. rewrite fold_leaf by done. destruct (op_never_matches σ op); [done|]. by destruct op.
  - cbn [plain_op fold_op op_never_matches]. intros H. specialize (Hmap ops IH H).
    destruct (fold_all _) as [kept|] eqn:E; [|done].
    assert (Hk : forallb plain_op kept = true) by (eapply fold_children_plain; eauto).
    destruct kept as [|k1 [|k2 ks]]; [done| |done]. simpl in *. by rewrite andb_true_r in Hk.
  - cbn [plain_op fold_op op_never_matches]. intros H. specialize (Hmap ops IH H).
    destruct (fold_any _) as [kept|] eqn:E; [|done].
    assert (Hk : forallb plain_op kept = true) by (eapply fold_children_plain; eauto).
    destruct kept as [|k1 [|k2 ks]]; [done| |done]. simpl in *. by rewrite andb_true_r in Hk.
  - cbn [plain_op fold_op op_never_matches]. intros H%IH. by destruct (fold_op σ op).
Qed.

(** ** What the table assumes of its rules *)

(** No logic rule collapses to a single leaf predicate: the fingerprint of
    such a rule does not tell which leaf is meant. *)
Definition collapse_free (σ : Store) (r : Rule) : bool :=
  is_leaf r ||
  match fold_op σ (default OFallback (lower_rule σ r)) with
  | FOp op => bool_decide (dedup_fingerprint (payload r) op = None)
  | _ => true
  end.

Record rule_good (σ : Store) (r : Rule) : Prop := {
  rg_lowerable : lowerable r;
  rg_collapse : collapse_free σ r = true;
  rg_geosite : geosite_plain r;
  rg_index : rule_index_ok r;
}.

(** The reference: the first rule, with its index, that matches with a usable
    target. *)
Definition first_usable (σ : Store) (m : Metadata) (probe : TargetProbe) (rules : list Rule) :
    option (nat * MatchResult) :=
  head (omap (fun '(i, r) => pair i <$> usable σ m probe r) (imap pair rules)).

Definition result_of (r : CompiledMatchResult) : nat * MatchResult :=
  (r_index r, mkMatch (r_adapter_name r) (r_type r) (r_payload r)).

Section Fixed.
Variables (σ σ' : Store) (m : Metadata) (probe : TargetProbe) (rules : list Rule).
Hypothesis Hσ : refreshed σ σ'.
Hypothesis Hnamed : named_store σ.
Hypothesis Howner : owner_fields_ok m.
Hypothesis Hascii : is_ascii (rule_host m) = true.
Hypothesis Hgood : forall r, r ∈ rules -> rule_good σ r.

Abbreviation resolve := (match_and_resolve σ' m probe).
Abbreviation matches := (match_metadata σ' m).

(** A dropped rule resolves to nothing. *)
Lemma compile_rule_none r : rule_good σ r -> compile_rule σ r = None -> resolve r = None.
Proof.
  intros [Hl _ _ _]. unfold compile_rule. destruct (never_matches σ r) eqn:En.
  { intros _. by eapply never_matches_resolve. }
  destruct (lower_rule σ r) as [op|] eqn:El; simpl; [|done].
  pose proof (lower_rule_sound σ σ' m Hσ Hascii r op Hl El) as Hs.
  rewrite <- (fold_op_sound σ σ' m Hσ Howner) in Hs. destruct (fold_op σ op); try done.
  intros _. rewrite resolve_leaf; [by rewrite <- Hs|]. by eapply lowered_static.
Qed.

(** A kept predicate is the rule's, or the rule itself is asked. *)
Lemma compile_rule_some r op di dp :
  rule_good σ r -> compile_rule σ r = Some (op, di, dp) ->
  (lower_rule σ r = None /\ op = OFallback) \/
  (rule_type r <> TSubRule /\ plain_op op = true /\ matches_op σ' m op = matches r).
Proof.
  intros [Hl _ _ _]. unfold compile_rule. destruct (never_matches σ r) eqn:En; [done|].
  destruct (lower_rule σ r) as [op0|] eqn:El; simpl; [|intros [= <- _ _]; by left].
  pose proof (lower_rule_sound σ σ' m Hσ Hascii r op0 Hl El) as Hs.
  rewrite <- (fold_op_sound σ σ' m Hσ Howner) in Hs.
  pose proof (fold_op_plain σ op0 (lower_rule_plain _ _ _ El)) as Hp.
  assert (Ht : rule_type r <> TSubRule) by (by eapply lowered_static).
  destruct (fold_op σ op0); [done| |]; intros [= <- _ _]; by right.
Qed.

Lemma leaf_type r r' : rule_type r = rule_type r' -> is_leaf r = is_leaf r'.
Proof.
  intros E. destruct r; try destruct src; try destruct is_src;
    destruct r'; try destruct src; try destruct is_src; done.
Qed.

Lemma leaf_lowered r op : is_leaf r = true -> lower_rule σ r = Some op -> leaf_op op = true.
Proof.
  intros Hl H. unfold lower_rule, or_else in H. destruct (compile_op _ _) eqn:E.
  - injection H as ->. destruct (rule_type r); cbn [compile_op] in E; try done;
      try (apply fmap_Some in E as (? & _ & ->); done); try (injection E as <-; done).
    + destruct (parse_u8 _); [|done]. cbn in E. destruct (_ <=? _)%Z; [|done]. by injection E as <-.
    + unfold compile_network in E. repeat case_bool_decide; by simplify_eq.
  - destruct r; try done; cbn [lower_native] in H; try (injection H as <-; done).
    + destruct db as [q|]; [|done]. cbn in H. destruct (resolve_keys _ _); [|done]. by injection H as <-.
    + destruct (is_src_flag _); [done|]. by injection H as <-.
Qed.

(** The kept predicate of a leaf is its lowered form. *)
Lemma leaf_compiled r op di dp :
  is_leaf r = true -> compile_rule σ r = Some (op, di, dp) -> op <> OFallback -> lower_rule σ r = Some op.
Proof.
  intros Hl. unfold compile_rule. destruct (never_matches σ r); [done|].
  destruct (lower_rule σ r) as [op0|] eqn:El; simpl; [|by intros [= <- _ _]].
  rewrite (fold_leaf σ op0) by (by eapply leaf_lowered). destruct (op_never_matches σ op0); [done|].
  destruct op0; intros [= <- _ _]; done.
Qed.

(** A kept logic rule with a fingerprint always matches. *)
Lemma logic_compiled r op di dp fp :
  is_leaf r = false -> rule_good σ r -> compile_rule σ r = Some (op, di, dp) ->
  dedup_fingerprint (payload r) op = Some fp -> op = OMatch.
Proof.
  intros Hl [_ Hc _ _]. unfold collapse_free in Hc. rewrite Hl in Hc. unfold compile_rule.
  destruct (never_matches σ r); [done|]. destruct (fold_op _ _); [done| |]; intros [= <- _ _]; [done|].
  apply bool_decide_eq_true in Hc. by rewrite Hc.
Qed.

Lemma leaf_good r : is_leaf r = true -> rule_good σ r -> leaf_ok r /\ wildcard_ok r.
Proof. intros Hl [H _ _ _]. by destruct r. Qed.

Lemma fingerprint_not_fallback p op fp : dedup_fingerprint p op = Some fp -> op <> OFallback.
Proof. by intros H ->. Qed.

Lemma compiled_matches r op di dp :
  rule_good σ r -> compile_rule σ r = Some (op, di, dp) -> op <> OFallback ->
  rule_type r <> TSubRule /\ plain_op op = true /\ matches_op σ' m op = matches r.
Proof. intros Hg Hc Hop. by destruct (compile_rule_some r op di dp Hg Hc) as [[_ ?]|?]. Qed.

(** Rules of one type with one fingerprint match the same connections. *)
Lemma same_fingerprint r r' op op' di di' dp dp' fp :
  rule_good σ r -> rule_good σ r' -> rule_type r = rule_type r' ->
  compile_rule σ r = Some (op, di, dp) -> compile_rule σ r' = Some (op', di', dp') ->
  dedup_fingerprint (payload r) op = Some fp -> dedup_fingerprint (payload r') op' = Some fp ->
  matches r = matches r'.
Proof.
  intros Hg Hg' Ht Hc Hc' Hf Hf'.
  pose proof (fingerprint_not_fallback _ _ _ Hf) as Hn. pose proof (fingerprint_not_fallback _ _ _ Hf') as Hn'.
  destruct (compiled_matches _ _ _ _ Hg Hc Hn) as (_ & _ & <-).
  destruct (compiled_matches _ _ _ _ Hg' Hc' Hn') as (_ & _ & <-).
  destruct (is_leaf r) eqn:Hl; pose proof Hl as Hl'; rewrite (leaf_type r r' Ht) in Hl'.
  - destruct (leaf_good r Hl Hg), (leaf_good r' Hl' Hg').
    eapply (leaf_fingerprint_sound (RL := RL) σ σ' m Hascii r r' op op' fp); try done;
      [apply Hg|apply Hg'|by eapply leaf_compiled|by eapply leaf_compiled].
  - apply (logic_compiled r _ _ _ fp) in Hc; [|done..].
    apply (logic_compiled r' _ _ _ fp) in Hc'; [|done..]. by subst.
Qed.

(** Domain predicates come from domain rules. *)
Lemma domain_compiled r op di dp :
  rule_good σ r -> compile_rule σ r = Some (op, di, dp) ->
  is_domain_op op || (match op with ODomainKeyword _ => true | _ => false end) = true ->
  (domain_op_matches op (payload r) (rule_host m) <-> matches r = true) /\
  match op with
  | ODomainSuffix s => to_ascii_lowercase s = s
  | ODomainKeyword k => to_ascii_lowercase k = k
  | _ => True
  end.
Proof.
  intros Hg Hc Hd.
  assert (Hfp : exists fp, dedup_fingerprint (payload r) op = Some fp) by (destruct op; try done; by eexists).
  destruct Hfp as [fp Hfp]. destruct (is_leaf r) eqn:Hl.
  2:{ apply (logic_compiled r _ _ _ fp) in Hc; [|done..]. by subst. }
  destruct (leaf_good r Hl Hg) as [Hok Hw].
  pose proof (fingerprint_not_fallback _ _ _ Hfp) as Hn.
  destruct (compiled_matches _ _ _ _ Hg Hc Hn) as (_ & _ & <-).
  apply (leaf_compiled _ _ _ _ Hl) in Hc; [|done]. unfold lower_rule in Hc.
  destruct r; try done; try destruct src; try destruct is_src; cbn [rule_type payload compile_op or_else lower_native] in *;
    rewrite ?or_else_none in Hc; try (apply fmap_Some in Hc as (x & Hx & ->)); simplify_eq/=; try done.
  all: rewrite ?to_ascii_lowercase_idemp.
  - naive_solver.
  - naive_solver.
  - naive_solver.
  - split; [|done]. destruct Hw. by rewrite (compiled_wildcard_glob raw x).
  - destruct db as [q|]; [|done]. cbn in Hc. destruct (resolve_keys _ _); [|done]. by simplify_eq/=.
  - destruct (parse_u8 _); [|done]. cbn in Hc. destruct (_ <=? _)%Z; [|done]. by simplify_eq/=.
  - unfold compile_network in Hc. repeat case_bool_decide; by simplify_eq/=.
  - destruct (is_src_flag _); [done|]. by simplify_eq/=.
Qed.

(** ** The invariant of the build loop *)

(** Some rule before [n] resolves statically to [name]. *)
Definition claimed (n : nat) (name : bytes) : Prop :=
  exists j r, j < n /\ rules !! j = Some r /\ adapter r = name /\ resolve r = Some name.

Definition claimed_index (names : list bytes) (n k : nat) : Prop :=
  exists name, names !! k = Some name /\ claimed n name.

(** Some rule before [j] resolves to a usable target. *)
Definition preempted (j : nat) : Prop :=
  exists i r name, i < j /\ rules !! i = Some r /\ resolve r = Some name /\ check probe name = Usable.

Lemma claimed_mono n n' name : n <= n' -> claimed n name -> claimed n' name.
Proof. intros Hn (j & r & Hj & H). exists j, r. split; [lia|done]. Qed.

Lemma claimed_index_mono names names' n n' k :
  names `prefix_of` names' -> n <= n' -> claimed_index names n k -> claimed_index names' n' k.
Proof.
  intros Hp Hn (name & Hk & Hc). exists name. split; [by eapply prefix_lookup_Some|by eapply claimed_mono].
Qed.

Record names_ok (n : nat) (names : list bytes) (lookup : gmap bytes nat) : Prop := {
  no_iff name k : lookup !! name = Some k <-> names !! k = Some name;
  no_len : length names <= n;
}.

Abbreviation seen_key := (RuleType * bool * bool * bytes * nat)%type.

Definition seen_ok (n : nat) (names : list bytes) (seen : list seen_key) : Prop :=
  forall ty di dp fp k, (ty, di, dp, fp, k) ∈ seen ->
    exists j r op, j < n /\ rules !! j = Some r /\ names !! k = Some (adapter r) /\ rule_type r = ty /\
      compile_rule σ r = Some (op, di, dp) /\ dedup_fingerprint (payload r) op = Some fp.

Definition axis_ip (s : bool) : option IpAddr := if s then src_ip m else dst_ip m.

Definition cover_ok (n : nat) (names : list bytes) (s : bool) (cov : gmap nat CidrCoverage) : Prop :=
  forall k c, cov !! k = Some c ->
    exists nets, c = coverage_of nets /\
      forall net ip, net ∈ nets -> axis_ip s = Some ip -> net_contains net ip = true -> claimed_index names n k.

Definition slot_ok (names : list bytes) (s : CompiledRuleSlot) : Prop :=
  exists r op, rules !! rule_index s = Some r /\ compile_rule σ r = Some (op, demands_ip s, demands_process s) /\
    slot_op s = op /\ slot_type s = rule_type r /\ slot_plan s = target_plan (rule_type r) /\
    names !! adapter_index s = Some (adapter r).

(** Slots are in order, mean their rules, and what is missing cannot win. *)
Record slots_ok (n : nat) (names : list bytes) (ss : list CompiledRuleSlot) : Prop := {
  so_sorted : StronglySorted lt (rule_index <$> ss);
  so_bound s : s ∈ ss -> rule_index s < n;
  so_slots : Forall (slot_ok names) ss;
  so_dropped j r name : j < n -> rules !! j = Some r -> j ∉ rule_index <$> ss ->
    resolve r = Some name -> check probe name = Usable -> preempted j;
}.

Record build_ok (n : nat) (st : BuildState) : Prop := {
  bo_names : names_ok n (b_names st) (b_lookup st);
  bo_seen : seen_ok n (b_names st) (b_seen st);
  bo_oracle : oracle_ok (rule_host m) (claimed_index (b_names st) n) (b_oracle st);
  bo_dst : cover_ok n (b_names st) false (b_dst st);
  bo_src : cover_ok n (b_names st) true (b_src st);
  bo_slots : slots_ok n (b_names st) (b_slots st);
}.

Lemma intern_adapter_spec n names lookup name k names' lookup' :
  names_ok n names lookup -> intern_adapter names lookup name = (k, (names', lookup')) ->
  names_ok (S n) names' lookup' /\ names `prefix_of` names' /\ names' !! k = Some name /\ k <= n.
Proof.
  intros [Hi Hl]. unfold intern_adapter. destruct (lookup !! name) as [i|] eqn:E.
  - intros [= <- <- <-]. apply Hi in E as Ei. split_and!; [by split; [|lia]|done|done|].
    apply lookup_lt_Some in Ei. lia.
  - intros [= <- <- <-]. split_and!; [split|by exists [name]|by apply list_lookup_middle|done].
    + intros name' k. destruct (decide (name = name')) as [<-|Hne].
      * rewrite lookup_insert_eq. split.
        { intros [= <-]. by apply list_lookup_middle. }
        intros [Hk|[Hk Hk']]%lookup_app_Some; [apply Hi in Hk; congruence|].
        destruct (k - length names) as [|?] eqn:Ek; [|done]. f_equal. lia.
      * rewrite lookup_insert_ne, Hi by done. rewrite lookup_app_Some. split; [by left|].
        intros [Hk|[Hk Hk']]; [done|]. apply list_lookup_singleton_Some in Hk' as [_ ?]. done.
    + rewrite length_app. simpl. lia.
Qed.

Lemma slot_ok_mono names names' s : names `prefix_of` names' -> slot_ok names s -> slot_ok names' s.
Proof.
  intros Hp (r & op & H1 & H2 & H3 & H4 & H5 & H6). exists r, op. split_and!; try done.
  by eapply prefix_lookup_Some.
Qed.

(** A rule may be dropped when it resolves to nothing or is preempted. *)
Lemma slots_ok_drop n names names' ss r :
  rules !! n = Some r -> names `prefix_of` names' ->
  (forall name, resolve r = Some name -> check probe name = Usable -> preempted n) ->
  slots_ok n names ss -> slots_ok (S n) names' ss.
Proof.
  intros Hr Hp Hd [Hs Hb Hok Hdr]. split; [done| | |].
  - intros s Hin. specialize (Hb s Hin). lia.
  - eapply Forall_impl; [done|]. intros s. by apply slot_ok_mono.
  - intros j r' name Hj Hr' Hni Hres Hu. destruct (decide (j = n)) as [->|Hne].
    + rewrite Hr in Hr'. injection Hr' as <-. by eapply Hd.
    + eapply Hdr; [|done..]. lia.
Qed.

Lemma sorted_snoc (l : list nat) x : StronglySorted lt l -> Forall (fun y => y < x) l -> StronglySorted lt (l ++ [x]).
Proof.
  induction 1 as [|y l Hs IH Hall]; intros Hx; simpl; [by repeat constructor|].
  inversion Hx; subst. constructor; [by apply IH|]. apply Forall_app. split; [done|by constructor].
Qed.

Lemma slots_ok_keep n names names' ss s :
  names `prefix_of` names' -> rule_index s = n -> slot_ok names' s ->
  slots_ok n names ss -> slots_ok (S n) names' (ss ++ [s]).
Proof.
  intros Hp Hi Hs [Hsort Hb Hok Hdr]. split.
  - rewrite fmap_app. apply sorted_snoc; [done|]. apply Forall_forall.
    intros y (t & -> & Ht)%list_elem_of_fmap. rewrite Hi. by apply Hb.
  - intros t [Ht|Ht%list_elem_of_singleton]%elem_of_app; [specialize (Hb t Ht)|subst t]; lia.
  - apply Forall_app. split; [|by constructor]. eapply Forall_impl; [done|]. intros t. by apply slot_ok_mono.
  - intros j r name Hj Hr Hni Hres Hu. rewrite fmap_app, not_elem_of_app in Hni. destruct Hni as [Hni Hne].
    eapply Hdr; [|done..]. apply not_elem_of_cons in Hne as [Hne _]. lia.
Qed.

Lemma preempt_claimed n r :
  rules !! n = Some r -> rule_type r <> TSubRule -> (matches r = true -> claimed n (adapter r)) ->
  forall name, resolve r = Some name -> check probe name = Usable -> preempted n.
Proof.
  intros Hr Ht Hc name Hres Hu. rewrite resolve_leaf in Hres by done.
  destruct (matches r); [|done]. injection Hres as <-.
  destruct (Hc eq_refl) as (j & r' & Hj & Hr' & Ha & Hres'). by exists j, r', (adapter r).
Qed.

(** *** The parts of a round *)

Section Round.
Variables (n k : nat) (r : Rule) (names names' : list bytes) (op : RuleOp) (di dp : bool).
Hypothesis Hr : rules !! n = Some r.
Hypothesis Hprefix : names `prefix_of` names'.
Hypothesis Hk : names' !! k = Some (adapter r).
Hypothesis Hcomp : compile_rule σ r = Some (op, di, dp).

Lemma round_good : rule_good σ r.
Proof. apply Hgood. by eapply list_elem_of_lookup_2. Qed.

Lemma seen_ok_mono seen : seen_ok n names seen -> seen_ok (S n) names' seen.
Proof.
  intros H ty di' dp' fp k' Hin. destruct (H _ _ _ _ _ Hin) as (j & r' & op' & Hj & H1 & H2 & H3).
  exists j, r', op'. split_and!; [lia|done|by eapply prefix_lookup_Some|apply H3..].
Qed.

Lemma seen_ok_insert fp seen :
  dedup_fingerprint (payload r) op = Some fp -> seen_ok n names seen ->
  seen_ok (S n) names' ((rule_type r, di, dp, fp, k) :: seen).
Proof.
  intros Hf H ty di' dp' fp' k' [E|Hin]%elem_of_cons; [|by eapply seen_ok_mono].
  injection E as -> -> -> -> ->. exists n, r, op. split_and!; [lia|done..].
Qed.

Lemma oracle_ok_mono o :
  oracle_ok (rule_host m) (claimed_index names n) o -> oracle_ok (rule_host m) (claimed_index names' (S n)) o.
Proof.
  intros [H1 H2 H3]. split; intros; (apply (claimed_index_mono names names' n (S n)); [done|lia|eauto]).
Qed.

Lemma cover_ok_mono s cov : cover_ok n names s cov -> cover_ok (S n) names' s cov.
Proof.
  intros H k' c Hc. destruct (H _ _ Hc) as (nets & -> & Hn). exists nets. split; [done|].
  intros net ip H1 H2 H3. apply (claimed_index_mono names names' n (S n)); [done|lia|by eapply Hn].
Qed.

(** Once processed, the rule itself claims its target. *)
Lemma claim_self : rule_type r <> TSubRule -> matches r = true -> claimed_index names' (S n) k.
Proof.
  intros Ht Hm. exists (adapter r). split; [done|]. exists n, r. split_and!; [lia|done|done|].
  rewrite resolve_leaf by done. by rewrite Hm.
Qed.

(** The index of a claimed name claims the rule's target. *)
Lemma claimed_name : claimed_index names n k -> claimed n (adapter r).
Proof.
  intros (name & Hn & Hc). apply (prefix_lookup_Some _ names') in Hn; [|done].
  rewrite Hk in Hn. by injection Hn as <-.
Qed.

Lemma duplicate_claimed fp seen :
  dedup_fingerprint (payload r) op = Some fp -> seen_ok n names seen ->
  (rule_type r, di, dp, fp, k) ∈ seen -> rule_type r <> TSubRule /\ (matches r = true -> claimed n (adapter r)).
Proof.
  intros Hf Hs (j & r' & op' & Hj & Hr' & Hk' & Ht & Hc & Hf')%Hs.
  apply (prefix_lookup_Some _ names') in Hk'; [|done]. rewrite Hk in Hk'. injection Hk' as Ha.
  pose proof (fingerprint_not_fallback _ _ _ Hf) as Hn.
  destruct (compiled_matches _ _ _ _ round_good Hcomp Hn) as (Hsub & _ & _). split; [done|].
  assert (Hg' : rule_good σ r') by (apply Hgood; by eapply list_elem_of_lookup_2).
  rewrite (same_fingerprint r r' op op' di di dp dp fp) by (done || apply round_good).
  intros Hm. exists j, r'. split_and!; [done..|]. rewrite resolve_leaf by congruence. by rewrite Hm, Ha.
Qed.

Lemma shadowed_claimed o :
  oracle_ok (rule_host m) (claimed_index names n) o -> shadows o op (payload r) k = true ->
  rule_type r <> TSubRule /\ (matches r = true -> claimed n (adapter r)).
Proof.
  intros Ho Hsh.
  assert (Hd : is_domain_op op || (match op with ODomainKeyword _ => true | _ => false end) = true)
    by (by destruct op).
  assert (Hn : op <> OFallback) by (by destruct op).
  destruct (compiled_matches _ _ _ _ round_good Hcomp Hn) as (Hsub & _ & _). split; [done|].
  intros Hm. apply (domain_compiled _ _ _ _ round_good Hcomp Hd) in Hm.
  apply claimed_name. by eapply shadows_sound.
Qed.

Lemma absorb_round o :
  oracle_ok (rule_host m) (claimed_index names n) o ->
  oracle_ok (rule_host m) (claimed_index names' (S n)) (absorb o op (payload r) k).
Proof.
  intros Ho%oracle_ok_mono.
  destruct (is_domain_op op || (match op with ODomainKeyword _ => true | _ => false end)) eqn:Hd;
    [|by destruct op].
  assert (Hn : op <> OFallback) by (by destruct op).
  destruct (compiled_matches _ _ _ _ round_good Hcomp Hn) as (Hsub & _ & _).
  apply absorb_ok; [done| |].
  - intros Hm. apply claim_self; [done|]. by apply (domain_compiled _ _ _ _ round_good Hcomp Hd).
  - by apply (domain_compiled _ _ _ _ round_good Hcomp Hd).
Qed.

Lemma cidr_compiled net s :
  op = OIpCidr net s -> rule_type r <> TSubRule /\ matches r = ip_in (axis_ip s) (net_contains net).
Proof.
  intros ->. destruct (compiled_matches _ _ _ _ round_good Hcomp) as (Hsub & _ & <-); done.
Qed.

Lemma covered_claimed net s cov c :
  op = OIpCidr net s -> cover_ok n names s cov -> cov !! k = Some c -> coverage_covers c net = true ->
  rule_type r <> TSubRule /\ (matches r = true -> claimed n (adapter r)).
Proof.
  intros Hop Hcov Hc Hcv. destruct (cidr_compiled _ _ Hop) as [Hsub ->]. split; [done|].
  destruct (Hcov _ _ Hc) as (nets & -> & Hnets). destruct (axis_ip s) as [ip|] eqn:Eip; [|done].
  intros Hin. pose proof (proj1 (coverage_covers_iff nets net) Hcv ip Hin) as Hex.
  apply existsb_exists in Hex as (net' & Hn'%list_elem_of_In & Hin').
  apply claimed_name. by eapply Hnets.
Qed.

Lemma cover_insert net s cov :
  op = OIpCidr net s -> cover_ok n names s cov ->
  cover_ok (S n) names' s (<[k := coverage_absorb (default coverage_new (cov !! k)) net]> cov).
Proof.
  intros Hop Hcov k' c. destruct (decide (k = k')) as [<-|Hne].
  2:{ rewrite lookup_insert_ne by done. by apply cover_ok_mono. }
  rewrite lookup_insert_eq. intros [= <-].
  assert (Hold : exists nets, default coverage_new (cov !! k) = coverage_of nets /\
    forall net ip, net ∈ nets -> axis_ip s = Some ip -> net_contains net ip = true -> claimed_index names' (S n) k).
  { destruct (cov !! k) as [c|] eqn:E; [by apply (cover_ok_mono s cov Hcov)|].
    exists []. split; [done|]. by intros ? ? ?%not_elem_of_nil. }
  destruct Hold as (nets & -> & Hnets). exists (nets ++ [net]). split.
  { unfold coverage_of. by rewrite foldl_app. }
  intros net' ip [Hin|Hin%list_elem_of_singleton]%elem_of_app Hip Hc; [by eapply Hnets|]. subst net'.
  destruct (cidr_compiled _ _ Hop) as [Hsub Hm]. apply claim_self; [done|]. by rewrite Hm, Hip.
Qed.

Lemma coverage_step_case st o k' d :
  (exists net s, o = OIpCidr net s) \/ coverage_step st o k' d = Some (b_dst st, b_src st).
Proof. destruct o; try (by right). left. eauto. Qed.

(** Every branch of the coverage step. *)
Lemma coverage_round st :
  cover_ok n names false (b_dst st) -> cover_ok n names true (b_src st) ->
  match coverage_step st op k di with
  | None => rule_type r <> TSubRule /\ (matches r = true -> claimed n (adapter r))
  | Some (dst, src) => cover_ok (S n) names' false dst /\ cover_ok (S n) names' true src
  end.
Proof.
  intros Hd Hs. pose proof (cover_ok_mono _ _ Hd) as Hd'. pose proof (cover_ok_mono _ _ Hs) as Hs'.
  destruct (coverage_step_case st op k di) as [(net & s & Hop)| ->]; [|done].
  rewrite Hop. unfold coverage_step. destruct (from_option _ _ _ && _) eqn:Ec.
  - apply andb_true_iff in Ec as [Ec _].
    destruct ((if s then b_src st else b_dst st) !! k) as [c|] eqn:El; [|done].
    eapply covered_claimed; [done| |done..]. by destruct s.
  - destruct s; (split; [try done|try done]); by apply cover_insert.
Qed.

End Round.

Lemma u32_small i : (Z.of_nat i <= u32_max)%Z -> Trie.u32_try_from i = Some i.
Proof. intros H. unfold Trie.u32_try_from. by rewrite (proj2 (Z.leb_le _ _) H). Qed.

Definition stops (n : nat) (stop : bool) : Prop :=
  stop = true -> exists r, rules !! n = Some r /\ resolve r = Some (b! "DIRECT").

(** One round keeps the invariant and does not panic. *)
Lemma build_step_ok n st r :
  rules !! n = Some r -> (Z.of_nat n <= u32_max)%Z -> build_ok n st ->
  exists st' stop, build_step σ st n r = Some (st', stop) /\ build_ok (S n) st' /\ stops n stop.
Proof.
  intros Hr Hn [Hnames Hseen Hor Hdst Hsrc Hslots].
  assert (Hg : rule_good σ r) by (by eapply round_good). unfold build_step.
  destruct (compile_rule σ r) as [[[op di] dp]|] eqn:Hc.
  2:{ exists st, false. split; [done|]. split; [|done].
      pose proof (compile_rule_none r Hg Hc) as Hnone.
      split; [split; [apply Hnames|destruct Hnames; lia]|by eapply seen_ok_mono|by eapply oracle_ok_mono
        |by eapply cover_ok_mono|by eapply cover_ok_mono|].
      eapply slots_ok_drop; [done|done| |done]. intros name Hres. by rewrite Hnone in Hres. }
  destruct (intern_adapter _ _ _) as [k [names lookup]] eqn:Hi.
  destruct (intern_adapter_spec _ _ _ _ _ _ _ Hnames Hi) as (Hnames' & Hp & Hk & Hkn).
  set (fingerprint := dedup_fingerprint (payload r) op).
  set (seen := from_option (fun fp => (rule_type r, di, dp, fp, k) :: b_seen st) (b_seen st) fingerprint).
  assert (Hseen' : seen_ok (S n) names seen).
  { unfold seen. destruct fingerprint eqn:Ef; [by eapply seen_ok_insert|by eapply seen_ok_mono]. }
  pose proof (oracle_ok_mono n (b_names st) names Hp _ Hor) as Hor'.
  pose proof (cover_ok_mono n (b_names st) names Hp _ _ Hdst) as Hdst'.
  pose proof (cover_ok_mono n (b_names st) names Hp _ _ Hsrc) as Hsrc'.
  assert (Hdrop : rule_type r <> TSubRule /\ (matches r = true -> claimed n (adapter r)) ->
    slots_ok (S n) names (b_slots st)).
  { intros [Hsub Hcl]. eapply slots_ok_drop; [done|done| |done]. by eapply preempt_claimed. }
  cbv zeta. destruct (from_option _ false _) eqn:Hdup.
  { eexists _, false. split; [done|]. split; [|done]. split; simpl; try done. apply Hdrop.
    destruct fingerprint as [fp|] eqn:Ef; [|done]. apply bool_decide_eq_true in Hdup.
    by eapply duplicate_claimed. }
  cbn [b_oracle]. destruct (shadows (b_oracle st) op (payload r) k) eqn:Hsh.
  { eexists _, false. split; [done|]. split; [|done]. split; simpl; try done. apply Hdrop.
    by eapply shadowed_claimed. }
  pose proof (absorb_round n k r _ names op di dp Hr Hp Hk Hc _ Hor) as Hor''.
  set (st1 := mkBuild _ _ _ _ _ _ _ _ _ _).
  pose proof (coverage_round n k r _ names op di dp Hr Hp Hk Hc st1 Hdst Hsrc) as Hcov.
  destruct (coverage_step st1 op k di) as [[dst src]|].
  - destruct Hcov as [Hd Hs]. rewrite !u32_small by lia. cbn [mbind option_bind]. eexists _, _.
    split; [done|]. split.
    + split; simpl; try done. eapply slots_ok_keep; [done|done| |done]. by exists r, op.
    + intros [Hop Ha%bool_decide_eq_true]%andb_true_iff. exists r. split; [done|].
      assert (op = OMatch) as -> by (by destruct op).
      destruct (compiled_matches _ _ _ _ Hg Hc) as (Hsub & _ & Hm); [done|].
      rewrite resolve_leaf by done. by rewrite <- Hm, Ha.
  - eexists _, false. split; [done|]. split; [|done]. split; simpl; try done. by apply Hdrop.
Qed.

Hypothesis Hdirect : check probe (b! "DIRECT") = Usable.
Hypothesis Hlen : (Z.of_nat (length rules) <= u32_max)%Z.

(** After a terminator nothing can win. *)
Lemma slots_ok_stop n names ss :
  stops n true -> n < length rules -> slots_ok (S n) names ss -> slots_ok (length rules) names ss.
Proof.
  intros Hstop Hn [Hs Hb Hok Hdr]. split; [done| |done|].
  - intros s Hin. specialize (Hb s Hin). lia.
  - intros j r name Hj Hr Hni Hres Hu. destruct (decide (j < S n)) as [Hlt|Hge]; [by eapply Hdr|].
    destruct (Hstop eq_refl) as (r' & Hr' & Hres'). exists n, r', (b! "DIRECT"). split_and!; [lia|done..].
Qed.

Lemma build_loop_ok rest n st :
  drop n rules = rest -> build_ok n st ->
  exists st', build_loop σ st n rest = Some st' /\ slots_ok (length rules) (b_names st') (b_slots st') /\
    forall name k, b_lookup st' !! name = Some k <-> b_names st' !! k = Some name.
Proof.
  revert n st. induction rest as [|r rest IH]; intros n st Hd Hst.
  { exists st. split; [done|]. destruct Hst as [Hnm _ _ _ _ Hsl]. split; [|apply Hnm].
    assert (Hge : length rules <= n) by (apply (f_equal length) in Hd; rewrite length_drop in Hd; simpl in Hd; lia).
    destruct Hsl as [Hs Hb Hok Hdr]. split; [done| |done|].
    - intros s Hin. rewrite Forall_forall in Hok. destruct (Hok s Hin) as (r & op & Hr & _).
      by eapply lookup_lt_Some.
    - intros j r name Hj. apply Hdr. lia. }
  assert (Hr : rules !! n = Some r) by (rewrite <- (Nat.add_0_r n), <- lookup_drop, Hd; done).
  pose proof (lookup_lt_Some _ _ _ Hr) as Hn.
  destruct (build_step_ok n st r Hr ltac:(lia) Hst) as (st' & stop & Hstep & Hst' & Hstop).
  cbn [build_loop]. rewrite Hstep. cbn [mbind option_bind]. destruct stop.
  - exists st'. split; [done|]. destruct Hst' as [Hnm _ _ _ _ Hsl]. split; [|apply Hnm].
    by eapply slots_ok_stop.
  - apply IH; [|done]. rewrite <- Nat.add_1_r, <- drop_drop, Hd. done.
Qed.

Lemma build_start_ok : build_ok 0 build_start.
Proof.
  split; simpl.
  - split; [|done]. intros name k. by rewrite lookup_empty, lookup_nil.
  - by intros ? ? ? ? ? ?%not_elem_of_nil.
  - split; simpl; [intros q a; by rewrite lookup_empty|intros q a; by rewrite lookup_empty|].
    by intros ? ? ?%not_elem_of_nil.
  - intros k c. by rewrite lookup_empty.
  - intros k c. by rewrite lookup_empty.
  - split; simpl; [constructor|by intros ? ?%not_elem_of_nil|constructor|lia].
Qed.

(** ** The index of the slots *)

Definition slot_entry (s : CompiledRuleSlot) : option (nat * (RuleType * bytes)) :=
  if is_domain_op (slot_op s)
  then (fun r => (rule_index s, (slot_type s, payload r))) <$> rules !! rule_index s
  else None.

Definition slot_entries (ss : list CompiledRuleSlot) : list (nat * (RuleType * bytes)) := omap slot_entry ss.

Definition owned_slot (s : CompiledRuleSlot) : bool := from_option entry_owned false (slot_entry s).

Definition own (s : CompiledRuleSlot) : CompiledRuleSlot := if owned_slot s then set_op OTrieOwned s else s.

Lemma slot_entry_ok names s e : slot_ok names s -> slot_entry s = Some e -> entry_ok e.
Proof.
  intros (r & op & Hr & Hc & _ & Ht & _ & _). unfold slot_entry. rewrite Hr.
  destruct (is_domain_op _); [|done]. intros [= <-]. apply lookup_lt_Some in Hr as Hi. split; simpl; [lia|].
  unfold entry_owned. simpl. rewrite Ht. apply Hgood. by eapply list_elem_of_lookup_2.
Qed.

Lemma own_slot_step names seen s t acc :
  slot_ok names s -> TrieSpec.small (entry_ops (slot_entries (seen ++ [s]))) ->
  TrieSpec.run_ops (entry_ops (slot_entries seen)) = Some t ->
  exists t', own_slot rules (t, acc) s = Some (t', acc ++ [own s]) /\
    TrieSpec.run_ops (entry_ops (slot_entries (seen ++ [s]))) = Some t'.
Proof.
  intros Hs Hsm Hrun. unfold slot_entries in *. rewrite omap_app in *. cbn [omap list_omap] in *.
  unfold own_slot, own, owned_slot. cbn [fst snd]. destruct (slot_entry s) as [e|] eqn:Ee.
  - pose proof (slot_entry_ok names s e Hs Ee) as He.
    destruct (insert_rule_run _ _ t He Hsm Hrun) as (t' & Hi & Ht'). exists t'. split; [|done].
    unfold slot_entry in Ee. destruct (is_domain_op (slot_op s)); [|done].
    apply fmap_Some in Ee as (r & Hr & ->). rewrite Hr. cbn [mbind option_bind fst snd] in *. by rewrite Hi.
  - rewrite app_nil_r in *. exists t. split; [|done]. unfold slot_entry in Ee.
    destruct Hs as (r & op & Hr & _). rewrite Hr in Ee. by destruct (is_domain_op (slot_op s)).
Qed.

Lemma own_slots_run ss names :
  Forall (slot_ok names) ss -> TrieSpec.small (entry_ops (slot_entries ss)) ->
  exists t, foldlM (own_slot rules) (index_empty, []) ss = Some (t, own <$> ss) /\
    TrieSpec.run_ops (entry_ops (slot_entries ss)) = Some t.
Proof.
  intros Hok Hs.
  destruct (foldlM_invariant (fun seen acc => acc.2 = own <$> seen /\
      TrieSpec.run_ops (entry_ops (slot_entries seen)) = Some acc.1)
    (own_slot rules) (index_empty, []) ss) as ([t ss'] & Ht & E & Hrun); [done| |simpl in *; subst; by exists t].
  intros seen s rest [t acc] Hsplit [E Hrun]. simpl in E, Hrun. subst acc.
  destruct (own_slot_step names seen s t (own <$> seen)) as (t' & Hst & Ht'); [| |done|].
  - rewrite Forall_forall in Hok. apply Hok. rewrite Hsplit. set_solver.
  - apply (TrieTheorems.small_app _ (entry_ops (slot_entries rest))). rewrite <- entry_ops_app. unfold slot_entries.
    rewrite <- omap_app, <- app_assoc. by rewrite Hsplit in Hs.
  - rewrite Hst. eexists. split; [done|]. split; [|done]. by rewrite fmap_app.
Qed.

Lemma ascending_sublist {A} (f : A -> nat) (l es : list A) o :
  StronglySorted lt (f <$> es) -> (forall x, x ∈ es -> o <= f x /\ l !! (f x - o) = Some x) ->
  es `sublist_of` l.
Proof.
  revert es o. induction l as [|y l IH]; intros es o Hs Hes.
  { destruct es as [|x es]; [constructor|]. destruct (Hes x ltac:(left)) as [_ H]. by rewrite lookup_nil in H. }
  destruct es as [|x es]; [apply sublist_nil_l|]. cbn in Hs. inversion Hs as [|? ? Hs' Hall]; subst.
  rewrite Forall_forall in Hall. destruct (Hes x ltac:(left)) as [Hle Hx].
  assert (Htail : forall z, z ∈ es -> f x < f z).
  { intros z Hz. apply Hall, list_elem_of_fmap. by exists z. }
  assert (Hnext : forall z, o < f z -> (y :: l) !! (f z - o) = Some z -> S o <= f z /\ l !! (f z - S o) = Some z).
  { intros z Hz H. split; [lia|]. replace (f z - o) with (S (f z - S o)) in H by lia. done. }
  destruct (decide (f x = o)) as [E|Hne].
  - rewrite E, Nat.sub_diag in Hx. injection Hx as ->. apply sublist_skip, (IH es (S o)); [done|].
    intros z Hz. apply Hnext; [specialize (Htail z Hz); lia|]. by apply Hes; right.
  - apply sublist_cons, (IH (x :: es) (S o)); [done|]. intros z Hz. apply Hnext.
    + apply elem_of_cons in Hz as [->|Hz]; [lia|]. specialize (Htail z Hz). lia.
    + by apply Hes.
Qed.

Lemma entry_ops_sublist es es' :
  es `sublist_of` es' -> TrieSpec.small (entry_ops es') -> TrieSpec.small (entry_ops es).
Proof.
  unfold TrieSpec.small. intros Hsub.
  cut (sum_list_with TrieSpec.op_cost (entry_ops es) <= sum_list_with TrieSpec.op_cost (entry_ops es')); [lia|].
  unfold entry_ops, entry_keys. induction Hsub as [|x l k _ IH|x l k _ IH]; [done| |]; cbn [omap list_omap];
    destruct (entry_owned x); cbn [fmap list_fmap sum_list_with]; lia.
Qed.

(** The slots' patterns are among the rules'. *)
Lemma slot_entries_sublist ss names n :
  slots_ok n names ss -> ascending (slot_entries ss) /\ slot_entries ss `sublist_of` rule_entries rules.
Proof.
  intros [Hs _ Hok _].
  assert (Hasc : ascending (slot_entries ss)).
  { unfold ascending, slot_entries. clear Hok. induction ss as [|s ss IH]; [constructor|].
    cbn in Hs. inversion Hs as [|? ? Hs' Hall]; subst. specialize (IH Hs'). cbn [omap list_omap].
    destruct (slot_entry s) as [e|] eqn:Ee; [|done]. cbn [fmap list_fmap]. constructor; [done|].
    assert (Hfst : forall s e, slot_entry s = Some e -> e.1 = rule_index s).
    { clear. intros s e. unfold slot_entry. destruct (is_domain_op _); [|done].
      by intros (r & _ & ->)%fmap_Some. }
    rewrite (Hfst _ _ Ee). rewrite Forall_forall in *. intros x (e' & -> & He')%list_elem_of_fmap.
    apply list_elem_of_omap in He' as (s' & Hs'' & Ee'). rewrite (Hfst _ _ Ee'). apply Hall.
    apply list_elem_of_fmap. by exists s'. }
  split; [done|]. apply (ascending_sublist fst _ _ 0 Hasc). intros e He. split; [lia|]. rewrite Nat.sub_0_r.
  apply list_elem_of_omap in He as (s & Hin & Ee). rewrite Forall_forall in Hok.
  destruct (Hok s Hin) as (r & op & Hr & _ & _ & Ht & _). unfold slot_entry in Ee.
  destruct (is_domain_op _); [|done]. rewrite Hr in Ee. injection Ee as <-. cbn [fst].
  rewrite rule_entries_lookup, Hr. simpl. by rewrite Ht.
Qed.

(** What a finished table looks like, with its slots before the hand-over. *)
Record table_ok (c : CompiledRuleSet) (ss : list CompiledRuleSlot) : Prop := {
  to_slots : slots_ok (length rules) (adapter_names c) ss;
  to_lookup name k : adapter_lookup c !! name = Some k <-> adapter_names c !! k = Some name;
  to_plan : match execution_plan c with
    | LinearScan => slots c = ss
    | DomainIndexed => slots c = own <$> ss /\
        forall host, normal_host host -> index_search (domain_index c) host = Some (first_hit host (slot_entries ss))
    end;
}.

Lemma build_table :
  index_small rules -> exists c ss, build σ rules = Some c /\ table_ok c ss /\ source_rule_count c = length rules.
Proof.
  intros Hsm. destruct (build_loop_ok rules 0 build_start) as (st & Hst & Hslots & Hlook);
    [done|apply build_start_ok|].
  unfold build. rewrite Hst. cbn [mbind option_bind]. unfold select_execution_plan.
  destruct (length (b_slots st) <=? LINEAR_SCAN_RULE_LIMIT).
  { eexists _, (b_slots st). split; [done|]. split; [|done]. by split. }
  destruct (slot_entries_sublist _ _ _ Hslots) as [Hasc Hsub].
  pose proof (entry_ops_sublist _ _ Hsub Hsm) as Hsm'.
  destruct (own_slots_run _ _ (so_slots _ _ _ Hslots) Hsm') as (t & Hown & Hrun).
  destruct (seal_run _ _ Hsm' Hrun) as (t' & b & Hseal & Hrepr).
  rewrite Hown. cbn [mbind option_bind]. rewrite Hseal. cbn [mbind option_bind].
  eexists _, (b_slots st). split; [done|]. split; [|done]. split; [done|done|]. simpl. split; [done|].
  intros host Hh. eapply index_search_spec; [|done|done|done].
  apply Forall_forall. intros e (s & Hin & He)%list_elem_of_omap.
  eapply slot_entry_ok; [|done]. pose proof (so_slots _ _ _ Hslots) as Hok. rewrite Forall_forall in Hok. by apply Hok.
Qed.

(** ** Scanning *)

Section Scan.
Variables (c : CompiledRuleSet) (ss : list CompiledRuleSlot).
Hypothesis Hc : table_ok c ss.

(** What the rule of a slot resolves to. *)
Definition spec_result (s : CompiledRuleSlot) : option CompiledMatchResult :=
  r ← rules !! rule_index s;
  name ← resolve r;
  Some (make_match rules s name (adapter_lookup c !! name)).

Definition eval_of (o : option CompiledMatchResult) : SlotEval :=
  match o with Some r => Hit r | None => Missed end.

Fixpoint scan_list (es : list (option CompiledMatchResult)) :
    option CompiledMatchResult * list CompiledMatchResult :=
  match es with
  | [] => (None, [])
  | None :: es => scan_list es
  | Some r :: es =>
      match check probe (r_adapter_name r) with
      | Usable => (Some r, [])
      | Pass => scan_list es
      | Missing => let '(o, k) := scan_list es in (o, r :: k)
      end
  end.

Definition outcome_of (o : option CompiledMatchResult) : ScanOutcome :=
  match o with Some r => Matched r | None => Exhausted end.

Lemma scan_list_app a b :
  scan_list (a ++ b) =
  match scan_list a with
  | (Some r, k) => (Some r, k)
  | (None, k) => let '(o, k') := scan_list b in (o, k ++ k')
  end.
Proof.
  induction a as [|[r|] a IH]; simpl; [by destruct (scan_list b)| |done].
  rewrite IH. destruct (check probe (r_adapter_name r)); [done| |done].
  destruct (scan_list a) as [[x|] k]; [done|]. by destruct (scan_list b).
Qed.

Lemma scan_slots_spec eval_trie pos l es :
  Forall2 (fun s e => slot_match σ' m probe rules c eval_trie s = Some (eval_of e)) l es ->
  scan_slots σ' m probe rules c false eval_trie pos l =
  Some (let '(o, k) := scan_list es in (outcome_of o, k)).
Proof.
  intros H. revert pos. induction H as [|s e l es Hs _ IH]; intros pos; [done|].
  cbn [scan_slots andb]. rewrite Hs. cbn [mbind option_bind].
  destruct e as [r|]; cbn [eval_of scan_list]; [|apply IH].
  destruct (check probe (r_adapter_name r)); [done| |apply IH]. rewrite IH. cbn [mbind option_bind].
  by destruct (scan_list es).
Qed.

Lemma slot_static s r :
  s ∈ ss -> rules !! rule_index s = Some r -> rule_type r <> TSubRule ->
  static_match rules c s = Some (make_match rules s (adapter r) (adapter_lookup c !! adapter r)).
Proof.
  intros Hin Hr Ht. pose proof (so_slots _ _ _ (to_slots _ _ Hc)) as Hok. rewrite Forall_forall in Hok.
  destruct (Hok s Hin) as (r' & op & Hr' & _ & _ & _ & _ & Hn). rewrite Hr in Hr'. injection Hr' as <-.
  unfold static_match. rewrite Hn. cbn [mbind option_bind]. apply (to_lookup _ _ Hc) in Hn. by rewrite Hn.
Qed.

Lemma static_eval s r b :
  s ∈ ss -> rules !! rule_index s = Some r -> rule_type r <> TSubRule -> b = matches r ->
  (if b then Hit <$> static_match rules c s else Some Missed) = Some (eval_of (spec_result s)).
Proof.
  intros Hin Hr Ht ->. unfold spec_result. rewrite Hr. cbn [mbind option_bind]. rewrite resolve_leaf by done.
  destruct (matches r); [|done]. by rewrite (slot_static s r).
Qed.

Lemma plain_slot_match eval_trie s :
  plain_op (slot_op s) = true ->
  slot_match σ' m probe rules c eval_trie s =
  if matches_op σ' m (slot_op s) then Hit <$> static_match rules c s else Some Missed.
Proof. unfold slot_match. by destruct (slot_op s). Qed.

(** A slot answers what its rule resolves to. *)
Lemma slot_match_spec eval_trie s :
  s ∈ ss -> slot_match σ' m probe rules c eval_trie s = Some (eval_of (spec_result s)).
Proof.
  intros Hin. pose proof (so_slots _ _ _ (to_slots _ _ Hc)) as Hok. rewrite Forall_forall in Hok.
  destruct (Hok s Hin) as (r & op & Hr & Hcr & Hop & _ & Hpl & _).
  assert (Hg : rule_good σ r) by (apply Hgood; by eapply list_elem_of_lookup_2).
  destruct (compile_rule_some r op _ _ Hg Hcr) as [[_ ->]|(Ht & Hp & Hm)].
  - unfold slot_match. rewrite Hop, Hr, Hpl. destruct (decide (rule_type r = TSubRule)) as [Et|Et].
    + rewrite Et. cbn [target_plan]. unfold spec_result. rewrite Hr. cbn [mbind option_bind].
      by destruct (resolve r).
    + replace (target_plan (rule_type r)) with StaticAdapter by (by destruct (rule_type r)).
      by apply (static_eval s r).
  - rewrite plain_slot_match by (by rewrite Hop). apply (static_eval s r); [done..|]. by rewrite Hop.
Qed.

(** *** Slots the index owns *)

Lemma own_fields s : rule_index (own s) = rule_index s /\ static_match rules c (own s) = static_match rules c s /\
  demands_ip (own s) = demands_ip s /\ demands_process (own s) = demands_process s.
Proof. unfold own. by destruct (owned_slot s). Qed.

Lemma owned_slot_spec s :
  s ∈ ss -> owned_slot s = true ->
  exists r, rules !! rule_index s = Some r /\ rule_type r <> TSubRule /\
    slot_entry s = Some (rule_index s, (rule_type r, payload r)) /\
    matches r = pattern_matches (rule_type r) (payload r) (rule_host m) /\
    owned (rule_type r) (payload r) = true.
Proof.
  intros Hin Ho. pose proof (so_slots _ _ _ (to_slots _ _ Hc)) as Hok. rewrite Forall_forall in Hok.
  destruct (Hok s Hin) as (r & op & Hr & _ & _ & Ht & _). exists r. unfold owned_slot in Ho.
  destruct (slot_entry s) as [e|] eqn:E; [|done]. unfold slot_entry in E.
  destruct (is_domain_op _); [|done]. rewrite Hr, Ht in E. injection E as <-.
  unfold entry_owned in Ho. cbn in Ho. split_and!; [done| |done| |done].
  - intros Et. by rewrite Et in Ho.
  - apply owned_rule; [done| |done]. apply Hgood. by eapply list_elem_of_lookup_2.
Qed.

Lemma own_match_true s :
  s ∈ ss -> slot_match σ' m probe rules c true (own s) = Some (eval_of (spec_result s)).
Proof.
  intros Hin. unfold own. destruct (owned_slot s) eqn:Ho; [|by apply slot_match_spec].
  destruct (owned_slot_spec s Hin Ho) as (r & Hr & Ht & _). unfold slot_match. cbn [set_op slot_op rule_index].
  rewrite Hr. change (static_match rules c (set_op OTrieOwned s)) with (static_match rules c s).
  by apply (static_eval s r).
Qed.

Lemma own_match_false s :
  s ∈ ss -> (owned_slot s = true -> spec_result s = None) ->
  slot_match σ' m probe rules c false (own s) = Some (eval_of (spec_result s)).
Proof.
  intros Hin Hn. unfold own. destruct (owned_slot s) eqn:Ho; [|by apply slot_match_spec]. by rewrite Hn.
Qed.

(** An owned slot's rule resolves exactly when the index sees a hit. *)
Lemma owned_hit s :
  s ∈ ss -> owned_slot s = true ->
  exists e, slot_entry s = Some e /\ e.1 = rule_index s /\
    hit_of (rule_host m) e = if bool_decide (is_Some (spec_result s)) then Some (rule_index s) else None.
Proof.
  intros Hin Ho. destruct (owned_slot_spec s Hin Ho) as (r & Hr & Ht & He & Hm & How).
  eexists. split; [done|]. split; [done|]. unfold spec_result. rewrite Hr. cbn [mbind option_bind].
  rewrite resolve_leaf, Hm by done. unfold hit_of, entry_owned, entry_matches. cbn [fst snd]. rewrite How.
  by destruct (pattern_matches _ _ _).
Qed.

Lemma sorted_split_lt (a b : list CompiledRuleSlot) s t :
  StronglySorted lt (rule_index <$> a ++ s :: b) -> t ∈ a -> rule_index t < rule_index s.
Proof.
  rewrite fmap_app. induction a as [|x a IH]; [by intros _ ?%not_elem_of_nil|].
  cbn. intros Hs. inversion Hs as [|? ? Hs' Hall]; subst. rewrite Forall_forall in Hall.
  intros [->|Ht]%elem_of_cons; [|by apply IH]. apply Hall. set_solver.
Qed.

Lemma sorted_split_gt (a b : list CompiledRuleSlot) s t :
  StronglySorted lt (rule_index <$> a ++ s :: b) -> t ∈ b -> rule_index s < rule_index t.
Proof.
  rewrite fmap_app. induction a as [|x a IH]; cbn; intros Hs Ht;
    inversion Hs as [|? ? Hs' Hall]; subst; [|by apply IH].
  rewrite Forall_forall in Hall. apply Hall. apply list_elem_of_fmap. by exists t.
Qed.

(** The position of a hit among the slots. *)
Lemma hit_partition a s b :
  ss = a ++ s :: b ->
  partition_point (fun t => rule_index t <? rule_index s) (own <$> ss) = length a.
Proof.
  intros Hss. rewrite partition_point_fmap.
  assert (Hext : forall t, (rule_index (own t) <? rule_index s) = (rule_index t <? rule_index s)).
  { intros t. by rewrite (proj1 (own_fields t)). }
  pose proof (so_sorted _ _ _ (to_slots _ _ Hc)) as Hsort. rewrite Hss in Hsort.
  assert (Hlt : forall i t, ss !! i = Some t -> (rule_index t <? rule_index s) = (i <? length a)).
  { intros i t Ht. rewrite Hss in Ht. apply lookup_app_Some in Ht as [Ht|[Hi Ht]].
    - rewrite (proj2 (Nat.ltb_lt i _)) by (by eapply lookup_lt_Some). apply Nat.ltb_lt.
      eapply sorted_split_lt; [done|]. by eapply list_elem_of_lookup_2.
    - rewrite (proj2 (Nat.ltb_ge i _)) by done. apply Nat.ltb_ge.
      destruct (i - length a) as [|j]; [by injection Ht as ->|].
      apply Nat.lt_le_incl. eapply sorted_split_gt; [done|]. by eapply (list_elem_of_lookup_2 b j). }
  destruct (partition_point_spec (fun t => rule_index (own t) <? rule_index s) ss) as (Hle & Hlo & Hhi).
  { intros i j x y Hij Hx Hy. rewrite !Hext, (Hlt _ _ Hx), (Hlt _ _ Hy), !Nat.ltb_lt. lia. }
  set (pp := partition_point _ _) in *. destruct (Nat.lt_trichotomy pp (length a)) as [H|[H|H]]; [|done|].
  - destruct (lookup_lt_is_Some_2 ss pp) as [t Ht].
    { rewrite Hss, length_app. simpl. lia. }
    pose proof (Hhi pp t ltac:(lia) Ht) as E. rewrite Hext, (Hlt _ _ Ht) in E. apply Nat.ltb_ge in E. lia.
  - assert (Hs : ss !! length a = Some s) by (rewrite Hss; by apply list_lookup_middle).
    pose proof (Hlo _ _ H Hs) as E. rewrite Hext, (Hlt _ _ Hs) in E. apply Nat.ltb_lt in E. lia.
Qed.

Definition owned_index (s : CompiledRuleSlot) : option nat :=
  if owned_slot s && bool_decide (is_Some (spec_result s)) then Some (rule_index s) else None.

Lemma first_hit_slots : first_hit (rule_host m) (slot_entries ss) = head (omap owned_index ss).
Proof.
  unfold first_hit, slot_entries. f_equal.
  assert (Hsub : forall s, s ∈ ss -> s ∈ ss) by done. revert Hsub. generalize ss at 1 3 4 as l.
  induction l as [|s l IH]; intros Hsub; [done|].
  assert (IH' : omap (hit_of (rule_host m)) (omap slot_entry l) = omap owned_index l).
  { apply IH. intros t Ht. apply Hsub. by right. }
  cbn [omap list_omap]. unfold owned_index at 1. destruct (owned_slot s) eqn:Ho; cbn [andb].
  - destruct (owned_hit s (Hsub s ltac:(left)) Ho) as (e & -> & _ & Hh). cbn [omap list_omap]. rewrite Hh.
    destruct (bool_decide _); cbn [omap list_omap]; by rewrite IH'.
  - unfold owned_slot in Ho. destruct (slot_entry s) as [e|]; [|done]. cbn in Ho. cbn [omap list_omap].
    unfold hit_of at 1. rewrite Ho. done.
Qed.

Lemma head_omap_split {A B} (f : A -> option B) (l : list A) :
  match head (omap f l) with
  | Some y => exists a x b, l = a ++ x :: b /\ f x = Some y /\ Forall (fun t => f t = None) a
  | None => Forall (fun t => f t = None) l
  end.
Proof.
  induction l as [|x l IH]; [constructor|]. cbn [omap list_omap]. destruct (f x) as [y|] eqn:E.
  - exists [], x, l. by split_and!.
  - destruct (head (omap f l)) as [y|]; [|by constructor].
    destruct IH as (a & z & b & -> & Hz & Ha). exists (x :: a), z, b. split_and!; [done|done|by constructor].
Qed.

Lemma owned_index_none s : owned_index s = None -> owned_slot s = true -> spec_result s = None.
Proof.
  unfold owned_index. intros H Ho. rewrite Ho in H. cbn [andb] in H. case_bool_decide as Hs; [done|].
  by apply eq_None_not_Some.
Qed.

Lemma owned_nil ty p : owned ty p = true -> pattern_matches ty p [] = false.
Proof.
  assert (Hnil : forall q, indexable_pattern q = true -> to_ascii_lowercase q <> []).
  { intros q (Hn & _)%indexable_spec. by destruct q. }
  destruct ty; try done; cbn [owned pattern_matches]; intros Ho.
  - apply not_true_iff_false. rewrite eq_ignore_ascii_case_spec. intros H. by apply (Hnil p Ho).
  - apply not_true_iff_false. rewrite domain_suffix_matches_spec. intros [H|[[|? ?] H]]; [|done|done].
    by apply (Hnil p Ho).
  - apply glob_nil. intros ->. done.
Qed.

(** The search sees the first owned slot whose rule resolves. *)
Lemma trie_hit_spec :
  normal_host (rule_host m) -> execution_plan c = DomainIndexed ->
  trie_hit m c = Some (head (omap owned_index ss)).
Proof.
  intros Hh Hplan. pose proof (to_plan _ _ Hc) as Hp. rewrite Hplan in Hp. destruct Hp as [_ Hsearch].
  rewrite <- first_hit_slots. unfold trie_hit. case_bool_decide as He; [|by apply Hsearch].
  f_equal. rewrite first_hit_slots. pose proof (head_omap_split owned_index ss) as Hsp.
  destruct (head (omap owned_index ss)) as [i|]; [|done].
  destruct Hsp as (a & s & b & Hss & Hs & _). exfalso. unfold owned_index in Hs.
  assert (Hin : s ∈ ss) by (rewrite Hss; set_solver).
  destruct (owned_slot s) eqn:Ho; [|done]. cbn [andb] in Hs. case_bool_decide as Hsome; [|done].
  destruct (owned_slot_spec s Hin Ho) as (r & Hr & Ht & _ & Hm & How).
  unfold spec_result in Hsome. rewrite Hr in Hsome. cbn [mbind option_bind] in Hsome.
  rewrite resolve_leaf, Hm, He, owned_nil in Hsome by done. by destruct Hsome.
Qed.

Lemma own_scan_true pos l :
  (forall s, s ∈ l -> s ∈ ss) ->
  scan_slots σ' m probe rules c false true pos (own <$> l) =
  Some (let '(o, k) := scan_list (spec_result <$> l) in (outcome_of o, k)).
Proof.
  intros Hsub. apply scan_slots_spec. induction l as [|s l IH]; [constructor|].
  constructor; [apply own_match_true, Hsub; left|]. apply IH. intros t Ht. apply Hsub. by right.
Qed.

Lemma own_scan_false pos l :
  (forall s, s ∈ l -> s ∈ ss) -> Forall (fun s => owned_index s = None) l ->
  scan_slots σ' m probe rules c false false pos (own <$> l) =
  Some (let '(o, k) := scan_list (spec_result <$> l) in (outcome_of o, k)).
Proof.
  intros Hsub Hn. apply scan_slots_spec. induction l as [|s l IH]; [constructor|].
  inversion Hn as [|? ? Hs Hl]; subst. constructor.
  - apply own_match_false; [apply Hsub; left|]. by apply owned_index_none.
  - apply IH; [|done]. intros t Ht. apply Hsub. by right.
Qed.

Lemma plain_scan pos l eval_trie :
  (forall s, s ∈ l -> s ∈ ss) ->
  scan_slots σ' m probe rules c false eval_trie pos l =
  Some (let '(o, k) := scan_list (spec_result <$> l) in (outcome_of o, k)).
Proof.
  intros Hsub. apply scan_slots_spec. induction l as [|s l IH]; [constructor|].
  constructor; [apply slot_match_spec, Hsub; left|]. apply IH. intros t Ht. apply Hsub. by right.
Qed.

Lemma scan_range_run eval_trie start stop l es :
  slice start stop (slots c) = Some l ->
  scan_slots σ' m probe rules c false eval_trie start l = Some (let '(o, k) := scan_list es in (outcome_of o, k)) ->
  scan_range σ' m probe rules c eval_trie start stop = Some (scan_list es).
Proof.
  intros Hs Hl. unfold scan_range, scan_range_ctl. rewrite Hs. cbn [mbind option_bind]. rewrite Hl.
  cbn [mbind option_bind]. by destruct (scan_list es) as [[r|] k].
Qed.

Lemma slice_prefix {A} (a b : list A) : slice 0 (length a) (a ++ b) = Some a.
Proof.
  rewrite slice_Some; [|rewrite length_app; lia]. rewrite drop_0, Nat.sub_0_r. by rewrite take_app_length.
Qed.

Lemma slice_all {A} (l : list A) : slice 0 (length l) l = Some l.
Proof. pose proof (slice_prefix l []) as H. by rewrite app_nil_r in H. Qed.

Lemma slice_suffix {A} (a b : list A) : slice (length a) (length (a ++ b)) (a ++ b) = Some b.
Proof.
  rewrite slice_Some; [|rewrite length_app; lia]. rewrite drop_app_length, length_app.
  replace (length a + length b - length a) with (length b) by lia. by rewrite take_ge.
Qed.

Lemma owned_index_hit s i :
  s ∈ ss -> owned_index s = Some i ->
  i = rule_index s /\ owned_slot s = true /\ static_match rules c s = spec_result s /\ is_Some (spec_result s).
Proof.
  intros Hin. unfold owned_index. destruct (owned_slot s) eqn:Ho; [|done]. cbn [andb].
  case_bool_decide as Hs; [|done]. intros [= <-]. split_and!; [done|done| |done].
  destruct (owned_slot_spec s Hin Ho) as (r & Hr & Ht & _). rewrite (slot_static s r) by done.
  unfold spec_result in *. rewrite Hr in *. cbn [mbind option_bind] in *. rewrite resolve_leaf in * by done.
  destruct (matches r); [done|by destruct Hs].
Qed.

(** Both plans find what the rules of the slots, in order, resolve to. *)
Lemma compiled_match_spec :
  normal_host (rule_host m) ->
  compiled_match σ' m probe rules c = Some (scan_list (spec_result <$> ss)).
Proof.
  intros Hh. unfold compiled_match. pose proof (to_plan _ _ Hc) as Hp.
  destruct (execution_plan c) eqn:Eplan.
  { rewrite Hp. eapply scan_range_run; [|by apply plain_scan]. rewrite Hp. apply slice_all. }
  destruct Hp as [Hslots _]. rewrite trie_hit_spec by done. cbn [mbind option_bind].
  pose proof (head_omap_split owned_index ss) as Hsp. unfold hit_position.
  destruct (head (omap owned_index ss)) as [i|].
  - destruct Hsp as (a & s & b & Hss & Hs & Ha).
    assert (Hin : s ∈ ss) by (rewrite Hss; set_solver).
    destruct (owned_index_hit s i Hin Hs) as (-> & Ho & Hst & [x Hx]).
    assert (Hlk : (own <$> ss) !! length a = Some (own s)).
    { rewrite list_lookup_fmap, Hss. by rewrite list_lookup_middle. }
    rewrite Hslots, (hit_partition a s b Hss), Hlk. cbn [mbind option_bind].
    rewrite (proj1 (own_fields s)), Nat.eqb_refl.
    rewrite (scan_range_run false 0 (length a) (own <$> a) (spec_result <$> a)).
    2:{ rewrite Hslots, Hss, fmap_app. rewrite <- (length_fmap own a) at 1. apply slice_prefix. }
    2:{ apply own_scan_false; [|done]. intros t Ht. rewrite Hss. set_solver. }
    cbn [mbind option_bind].
    assert (Htail : scan_range σ' m probe rules c true (length a + 1) (length (own <$> ss)) =
      Some (scan_list (spec_result <$> b))).
    { apply (scan_range_run true _ _ (own <$> b)); [|apply own_scan_true; intros t Ht; rewrite Hss; set_solver].
      rewrite Hslots, Hss, fmap_app, fmap_cons, cons_middle, app_assoc.
      replace (length a + 1) with (length ((own <$> a) ++ [own s])) by (by rewrite length_app, length_fmap).
      apply slice_suffix. }
    rewrite (proj1 (proj2 (own_fields s))), Hst, Hx, Htail, Hss, fmap_app, fmap_cons, scan_list_app.
    destruct (scan_list (spec_result <$> a)) as [[y|] k]; [done|]. rewrite Hx. cbn [mbind option_bind scan_list].
    destruct (check probe (r_adapter_name x)); [by rewrite app_nil_r| |];
      by destruct (scan_list (spec_result <$> b)).
  - rewrite (scan_range_run false 0 _ (own <$> ss) (spec_result <$> ss)).
    2:{ rewrite Hslots. apply slice_all. }
    2:{ by apply own_scan_false. }
    cbn [mbind option_bind]. destruct (scan_list (spec_result <$> ss)) as [[y|] k]; [done|].
    rewrite (scan_range_run true _ _ [] []); [|by rewrite slice_Some, Nat.sub_diag by lia|done].
    by cbn; rewrite app_nil_r.
Qed.

Definition slot_usable (s : CompiledRuleSlot) : option CompiledMatchResult :=
  r ← spec_result s; match check probe (r_adapter_name r) with Usable => Some r | _ => None end.

Lemma scan_list_head l : fst (scan_list (spec_result <$> l)) = head (omap slot_usable l).
Proof.
  induction l as [|s l IH]; [done|]. rewrite fmap_cons. cbn [scan_list omap list_omap].
  unfold slot_usable at 1. destruct (spec_result s) as [r|]; cbn [mbind option_bind]; [|done].
  destruct (check probe (r_adapter_name r)); [done| |done]. by destruct (scan_list _).
Qed.

(** A slot contributes what its rule does. *)
Lemma slot_usable_rule s r :
  s ∈ ss -> rules !! rule_index s = Some r ->
  result_of <$> slot_usable s = pair (rule_index s) <$> usable σ' m probe r.
Proof.
  intros Hin Hr. pose proof (so_slots _ _ _ (to_slots _ _ Hc)) as Hok. rewrite Forall_forall in Hok.
  destruct (Hok s Hin) as (r' & op & Hr' & _ & _ & Ht & _). rewrite Hr in Hr'. injection Hr' as <-.
  unfold slot_usable, spec_result, usable, make_match. rewrite Hr. cbn [mbind option_bind].
  destruct (resolve r) as [name|]; [|done]. cbn [mbind option_bind r_adapter_name].
  destruct (check probe name); [|done|done]. unfold result_of. simpl. by rewrite Ht.
Qed.

Lemma first_usable_split :
  match first_usable σ' m probe rules with
  | Some (i, x) => exists r, rules !! i = Some r /\ usable σ' m probe r = Some x /\
      forall j r', j < i -> rules !! j = Some r' -> usable σ' m probe r' = None
  | None => forall j r, rules !! j = Some r -> usable σ' m probe r = None
  end.
Proof.
  unfold first_usable.
  pose proof (head_omap_split (fun '(i, r) => pair i <$> usable σ' m probe r) (imap pair rules)) as H.
  destruct (head _) as [[i x]|].
  - destruct H as (a & [i' r] & b & Hl & Hx & Ha). apply fmap_Some in Hx as (y & Hy & E). injection E as -> ->.
    assert (Hlook : forall j r, (imap pair rules) !! j = Some r -> exists r', rules !! j = Some r' /\ r = (j, r')).
    { intros j r' Hj. rewrite list_lookup_imap in Hj. apply fmap_Some in Hj as (z & Hz & ->). eauto. }
    destruct (Hlook (length a) (i', r)) as (r' & Hr' & E); [rewrite Hl; by apply list_lookup_middle|].
    injection E as -> ->. exists r'. split_and!; [done|done|]. intros j r'' Hj Hr''.
    assert (Hin : (j, r'') ∈ a).
    { apply (list_elem_of_lookup_2 _ j). rewrite <- (lookup_app_l a ((length a, r') :: b)) by done.
      rewrite <- Hl, list_lookup_imap, Hr''. done. }
    rewrite Forall_forall in Ha. specialize (Ha _ Hin). simpl in Ha. by destruct (usable σ' m probe r'').
  - intros j r Hr. rewrite Forall_forall in H. specialize (H (j, r)). simpl in H.
    destruct (usable σ' m probe r); [|done]. discriminate H. apply (list_elem_of_lookup_2 _ j).
    by rewrite list_lookup_imap, Hr.
Qed.

Lemma usable_preempts j r x : rules !! j = Some r -> usable σ' m probe r = Some x ->
  exists name, resolve r = Some name /\ check probe name = Usable.
Proof.
  intros Hr. unfold usable. destruct (resolve r) as [name|]; [|done]. cbn [mbind option_bind].
  intros H. exists name. split; [done|]. by destruct (check probe name).
Qed.

Lemma not_preempted i :
  (forall j r, j < i -> rules !! j = Some r -> usable σ' m probe r = None) -> ~ preempted i.
Proof.
  intros H (j & r & name & Hj & Hr & Hres & Hu). specialize (H j r Hj Hr). unfold usable in H.
  rewrite Hres in H. cbn [mbind option_bind] in H. by rewrite Hu in H.
Qed.

(** Dropping the pruned rules loses no winner. *)
Lemma slots_first_usable : result_of <$> head (omap slot_usable ss) = first_usable σ' m probe rules.
Proof.
  pose proof first_usable_split as H. pose proof (head_omap_split slot_usable ss) as Hs.
  pose proof (so_slots _ _ _ (to_slots _ _ Hc)) as Hok. rewrite Forall_forall in Hok.
  destruct (first_usable σ' m probe rules) as [[i x]|].
  - destruct H as (r & Hr & Hx & Hmin).
    assert (Hin : i ∈ rule_index <$> ss).
    { destruct (usable_preempts i r x Hr Hx) as (name & Hres & Hu).
      destruct (decide (i ∈ rule_index <$> ss)) as [?|Hni]; [done|]. exfalso.
      apply (not_preempted i Hmin). eapply (so_dropped _ _ _ (to_slots _ _ Hc)); try done.
      by eapply lookup_lt_Some. }
    apply list_elem_of_fmap in Hin as (s & -> & Hin).
    assert (Hsu : result_of <$> slot_usable s = Some (rule_index s, x))
      by (by rewrite (slot_usable_rule s r), Hx).
    destruct (head (omap slot_usable ss)) as [y|].
    + destruct Hs as (a & t & b & Hss & Ht & Ha). assert (Htin : t ∈ ss) by (rewrite Hss; set_solver).
      destruct (Hok t Htin) as (rt & opt & Hrt & _).
      pose proof (slot_usable_rule t rt Htin Hrt) as E. rewrite Ht in E. rewrite E.
      destruct (usable σ' m probe rt) as [z|] eqn:Ez; [|done].
      destruct (Nat.lt_trichotomy (rule_index t) (rule_index s)) as [Hlt|[Heq|Hgt]].
      * by rewrite (Hmin _ _ Hlt Hrt) in Ez.
      * rewrite Heq, Hr in Hrt. injection Hrt as ->. simpl. congruence.
      * pose proof (so_sorted _ _ _ (to_slots _ _ Hc)) as Hsort. rewrite Hss in Hsort, Hin.
        apply elem_of_app in Hin as [Hin|[->|Hin]%elem_of_cons].
        -- rewrite Forall_forall in Ha. by rewrite (Ha s Hin) in Hsu.
        -- lia.
        -- pose proof (sorted_split_gt a b t s Hsort Hin). lia.
    + rewrite Forall_forall in Hs. by rewrite (Hs s Hin) in Hsu.
  - destruct (head (omap slot_usable ss)) as [y|]; [|done].
    destruct Hs as (a & t & b & Hss & Ht & _). assert (Htin : t ∈ ss) by (rewrite Hss; set_solver).
    destruct (Hok t Htin) as (rt & opt & Hrt & _).
    pose proof (slot_usable_rule t rt Htin Hrt) as E. by rewrite Ht, (H _ _ Hrt) in E.
Qed.

End Scan.

(** C1: for every connection with a normalized ASCII host (lower case, no dot
    at either end) and, where the platform names no socket owners, without
    owner fields, the compiled table returns what the first source rule that
    matches with a usable target returns, with the same rule index, and the
    interned index of the adapter it names. Building and matching never panic;
    rule sets may be refreshed between the two. The table has at most
    [u32::MAX] rules and DIRECT is usable. Its rules hold the parsed form of
    their payloads; wildcards are ASCII and not empty, indexed payloads have no
    blanks at their ends, geosite payloads no comma, and the labels of the
    indexed patterns fit the node index of the trie. No logic rule folds to a
    single leaf that has a fingerprint, for such a rule can be taken for a
    duplicate of another. No geosite bucket has an empty name or one that
    starts with '@'. *)
Theorem compiled_table_exact :
  index_small rules -> normal_host (rule_host m) ->
  exists c o warned, build σ rules = Some c /\ compiled_match σ' m probe rules c = Some (o, warned) /\
    result_of <$> o = first_usable σ' m probe rules /\
    forall r k, o = Some r -> r_adapter_index r = Some k <-> adapter_names c !! k = Some (r_adapter_name r).
Proof.
  intros Hsm Hh. destruct (build_table Hsm) as (c & ss & Hb & Ht & _).
  pose proof (scan_list_head c ss) as Hhead.
  exists c, (fst (scan_list (spec_result c <$> ss))), (snd (scan_list (spec_result c <$> ss))).
  split_and!; [done| | |].
  - rewrite <- surjective_pairing. by apply compiled_match_spec.
  - rewrite Hhead. by apply slots_first_usable.
  - rewrite Hhead. intros r k Hr%head_Some_elem_of. apply list_elem_of_omap in Hr as (s & _ & Hs).
    unfold slot_usable, spec_result in Hs. destruct (rules !! rule_index s) as [rl|]; [|done].
    cbn [mbind option_bind] in Hs. destruct (resolve rl) as [name|]; [|done]. cbn [mbind option_bind] in Hs.
    cbn [make_match r_adapter_name] in Hs. destruct (check probe name); [|done|done]. injection Hs as <-. apply (to_lookup _ _ Ht).
Qed.

End Fixed.

(** ** The lazy scan *)

Section Lazy.
Variables (σ : Store) (m : Metadata) (probe : TargetProbe) (rules : list Rule) (c : CompiledRuleSet).

(** A demand-stop scan is the strict scan, or stops at a blocked slot. *)
Lemma lazy_scan_slots eval_trie l pos o k :
  scan_slots σ m probe rules c false eval_trie pos l = Some (o, k) ->
  (forall p, o <> Blocked p) /\
  (scan_slots σ m probe rules c true eval_trie pos l = Some (o, k) \/
   exists p s k', scan_slots σ m probe rules c true eval_trie pos l = Some (Blocked (pos + p), k') /\
     l !! p = Some s /\ slot_blocked s m = true).
Proof.
  revert pos o k. induction l as [|s l IH]; intros pos o k; cbn [scan_slots andb].
  { intros [= <- <-]. split; [done|by left]. }
  assert (Hrec : forall o k, scan_slots σ m probe rules c false eval_trie (S pos) l = Some (o, k) ->
    (forall p, o <> Blocked p) /\
    (scan_slots σ m probe rules c true eval_trie (S pos) l = Some (o, k) \/
     exists p t k', scan_slots σ m probe rules c true eval_trie (S pos) l = Some (Blocked (pos + p), k') /\
       (s :: l) !! p = Some t /\ slot_blocked t m = true)).
  { intros o' k' (Hne & [H|(p & t & k'' & H & Hl & Hb)])%IH; (split; [done|]); [by left|].
    right. exists (S p), t, k''. by rewrite Nat.add_succ_r. }
  destruct (slot_match σ m probe rules c eval_trie s) as [e|]; [|done]. cbn [mbind option_bind].
  intros H.
  assert (Hno : forall p, o <> Blocked p).
  { destruct e as [| |r]; [by injection H as <- _|by apply Hrec in H as [? _]|].
    destruct (check probe (r_adapter_name r)); [by injection H as <- _| |by apply Hrec in H as [? _]].
    destruct (scan_slots σ m probe rules c false eval_trie (S pos) l) as [[o' k']|] eqn:E; [|done]. injection H as <- _.
    by apply (Hrec _ _ eq_refl). }
  split; [done|]. destruct (slot_blocked s m) eqn:Eb.
  { right. exists 0, s, []. by rewrite Nat.add_0_r. }
  destruct e as [| |r]; [by left|by apply Hrec|].
  destruct (check probe (r_adapter_name r)); [by left| |by apply Hrec].
  destruct (scan_slots σ m probe rules c false eval_trie (S pos) l) as [[o' k']|] eqn:E; [|done].
  injection H as <- <-.
  destruct (Hrec _ _ eq_refl) as [_ [->|(p & t & k'' & -> & Hl & Hb)]]; [by left|].
  right. exists p, t, (r :: k''). done.
Qed.

Lemma enrichment_needs_ok pos s :
  slots c !! pos = Some s -> slot_blocked s m = true ->
  exists ip proc, enrichment_needs m c pos = Some (NeedsEnrichment ip proc (rule_index s)) /\
    ip || proc = true /\ (ip = true -> ip_missing m = true) /\ (proc = true -> process_missing m = true).
Proof.
  intros Hs Hb. pose proof (lookup_lt_Some _ _ _ Hs) as Hlt. unfold enrichment_needs.
  rewrite slice_Some by lia. cbn [mbind option_bind]. rewrite Hs. cbn [mbind option_bind].
  eexists _, _. split; [done|]. split_and!; [|by intros [_ ?]%andb_true_iff|by intros [_ ?]%andb_true_iff].
  rewrite take_ge by (rewrite length_drop; lia). rewrite (drop_S _ _ _ Hs). cbn [existsb].
  unfold slot_blocked in Hb. destruct (ip_missing m), (process_missing m);
    rewrite ?andb_true_r, ?andb_false_r, ?orb_false_r in *; simpl in *; try done.
  - apply orb_true_iff in Hb as [-> | ->]; [done|]. by rewrite !orb_true_r.
  - by rewrite Hb.
  - by rewrite Hb.
Qed.

Lemma lazy_range eval_trie start stop l o k :
  slice start stop (slots c) = Some l ->
  scan_slots σ m probe rules c false eval_trie start l = Some (o, k) ->
  scan_range_ctl σ m probe rules c true eval_trie start stop = Some (o, k) /\ (forall p, o <> Blocked p) \/
  exists p s k', scan_range_ctl σ m probe rules c true eval_trie start stop = Some (Blocked p, k') /\
    slots c !! p = Some s /\ slot_blocked s m = true.
Proof.
  intros Hl Hs. unfold scan_range_ctl. rewrite Hl. cbn [mbind option_bind].
  destruct (lazy_scan_slots _ _ _ _ _ Hs) as [Hne [->|(p & s & k' & -> & Hp & Hb)]]; [by left|].
  right. exists (start + p), s, k'. split_and!; [done| |done].
  destruct (slice_lookup _ _ _ _ Hl) as (_ & _ & Hlk). rewrite Hlk; [done|]. by eapply lookup_lt_Some.
Qed.

Definition lazy_ok (o : option CompiledMatchResult) (warned : list CompiledMatchResult)
    (l : LazyMatchOutcome) (w : list CompiledMatchResult) : Prop :=
  match l with
  | LMatched r => o = Some r /\ w = warned
  | NoMatch => o = None /\ w = warned
  | NeedsEnrichment ip proc rule =>
      ip || proc = true /\ (ip = true -> ip_missing m = true) /\ (proc = true -> process_missing m = true) /\
      exists s, s ∈ slots c /\ rule_index s = rule /\ slot_blocked s m = true
  end.

Lemma lazy_scan_range eval_trie start stop o k :
  scan_range σ m probe rules c eval_trie start stop = Some (o, k) ->
  scan_range_ctl σ m probe rules c true eval_trie start stop = Some (outcome_of o, k) \/
  exists p s k', scan_range_ctl σ m probe rules c true eval_trie start stop = Some (Blocked p, k') /\
    slots c !! p = Some s /\ slot_blocked s m = true.
Proof.
  unfold scan_range, scan_range_ctl at 1. destruct (slice start stop (slots c)) as [l|] eqn:Hl; [|done].
  cbn [mbind option_bind]. destruct (scan_slots σ m probe rules c false eval_trie start l) as [[o' k']|] eqn:Hs; [|done].
  cbn [mbind option_bind]. intros [= <- <-].
  destruct (lazy_range _ _ _ _ _ _ Hl Hs) as [[-> Hne]|H]; [left|by right].
  destruct o' as [r|p|]; [done|by destruct (Hne p)|done].
Qed.

Lemma blocked_ok o warned p s :
  slots c !! p = Some s -> slot_blocked s m = true ->
  exists l, enrichment_needs m c p = Some l /\ forall w, lazy_ok o warned l w.
Proof.
  intros Hs Hb. destruct (enrichment_needs_ok p s Hs Hb) as (ip & proc & -> & H1 & H2 & H3).
  eexists. split; [done|]. intros w. split_and!; [done..|]. exists s. split_and!; [|done|done].
  by eapply list_elem_of_lookup_2.
Qed.

(** The final scan of both lazy plans. *)
Lemma lazy_finish start skipped o k :
  scan_range σ m probe rules c true start (length (slots c)) = Some (o, k) ->
  exists l w, ('(o, skipped') ← scan_range_ctl σ m probe rules c true true start (length (slots c));
      l ← lazy_of m c o; Some (l, skipped ++ skipped')) = Some (l, w) /\
    lazy_ok o (skipped ++ k) l w.
Proof.
  intros [->|(p & s & k' & -> & Hs & Hb)]%lazy_scan_range; cbn [mbind option_bind].
  - destruct o as [r|]; cbn [outcome_of lazy_of mbind option_bind]; by eexists _, _.
  - destruct (blocked_ok o (skipped ++ k) p s Hs Hb) as (l & Hl & Hok). cbn [lazy_of]. rewrite Hl.
    cbn [mbind option_bind]. by eexists _, _.
Qed.

(** C2: wherever the strict scan does not panic, neither does the lazy one;
    a lazy match or miss is the strict answer with the strict warnings, and a
    request for enrichment names a field that is missing and can be found,
    at a slot that waits for it, with no warning emitted. *)
Theorem lazy_agrees_with_strict o warned :
  compiled_match σ m probe rules c = Some (o, warned) ->
  exists l w, compiled_match_lazy σ m probe rules c = Some (l, w) /\ lazy_ok o warned l w /\
    match l with NeedsEnrichment _ _ _ => w = [] | _ => True end.
Proof.
  intros H.
  cut (exists l w, lazy_scan σ m probe rules c = Some (l, w) /\ lazy_ok o warned l w).
  { intros (l & w & Hl & Hok). unfold compiled_match_lazy. rewrite Hl. cbn [mbind option_bind].
    eexists _, _. split; [done|]. by destruct l. }
  unfold lazy_scan. unfold compiled_match in H. destruct (execution_plan c).
  { by apply (lazy_finish _ []) in H. }
  destruct (trie_hit m c) as [hit|]; [|done]. cbn [mbind option_bind] in *.
  destruct (hit_position c hit) as [scan_end hit_slot].
  destruct (scan_range σ m probe rules c false 0 scan_end) as [[o1 k1]|] eqn:H1; [|done].
  cbn [mbind option_bind] in H.
  destruct (lazy_scan_range _ _ _ _ _ H1) as [->|(p & s & k' & -> & Hs & Hb)]; cbn [mbind option_bind].
  2:{ destruct (blocked_ok o warned p s Hs Hb) as (l & Hl & Hok). cbn [lazy_of]. rewrite Hl. by eexists _, _. }
  destruct o1 as [r|]; cbn [outcome_of lazy_of mbind option_bind].
  { injection H as <- <-. by eexists _, _. }
  assert (Htail : forall start skip,
    ('(o, skipped'') ← scan_range σ m probe rules c true start (length (slots c));
     Some (o, k1 ++ skip ++ skipped'')) = Some (o, warned) ->
    exists l w, ('(o, skipped') ← scan_range_ctl σ m probe rules c true true start (length (slots c));
      l ← lazy_of m c o; Some (l, (k1 ++ skip) ++ skipped')) = Some (l, w) /\ lazy_ok o warned l w).
  { intros start skip Ht. destruct (scan_range _ _ _ _ _ true start _) as [[o2 k2]|] eqn:H2; [|done].
    injection Ht as <- <-. rewrite app_assoc. by apply lazy_finish. }
  pose proof (fun start => Htail start []) as Htail'. rewrite app_nil_r in Htail'.
  destruct hit_slot as [s|]; [|by apply Htail'].
  destruct (static_match rules c s) as [r|]; [|done]. cbn [mbind option_bind] in *.
  destruct (check probe (r_adapter_name r)).
  - injection H as <- <-. by eexists _, _.
  - by apply Htail.
  - by apply Htail'.
Qed.

End Lazy.
End Correct.

(** ** Concrete tables *)

#[local] Existing Instance Sealed.default_hash_order.
#[local] Existing Instance toy_regex.
#[local] Existing Instance prefix_net_lib.

(** Seventy domain rules, enough for the index, around a suffix and a port. *)
Definition demo_table : list Rule :=
  ((fun i => DomainRule (b! "d" ++ show_dec (Z.of_nat i) ++ b! ".com") (b! "A")) <$> seq 0 70) ++
  [DomainSuffixRule (b! "example.com") (b! "GONE"); DomainRule (b! "www.example.com") (b! "GONE");
   PortRule [(443, 443)%Z] (b! "443") (b! "B") false; FinalRule (b! "DIRECT"); FinalRule (b! "A")].

Definition demo_probe : TargetProbe := probe_of (fun a => negb (bool_decide (a = b! "GONE"))).

Lemma demo_good r : r ∈ demo_table -> rule_good (PF := linux) empty_store r.
Proof.
  assert (Htrim : forallb (fun r => bool_decide (trim (payload r) = payload r)) demo_table = true)
    by (vm_compute; reflexivity).
  rewrite forallb_forall in Htrim. intros Hr.
  assert (Ht : trim (payload r) = payload r).
  { specialize (Htrim r (proj1 (list_elem_of_In _ _) Hr)). by apply bool_decide_eq_true in Htrim. }
  unfold demo_table in Hr. apply elem_of_app in Hr as [(i & -> & _)%list_elem_of_fmap|Hr].
  { split; [done|done|done|]. by intros _. }
  repeat (apply elem_of_cons in Hr as [->|Hr]; [split; [done|done|done|by intros _]|]).
  by apply not_elem_of_nil in Hr.
Qed.

Lemma compiled_table_exact_witness :
  exists c o warned, build (PF := linux) empty_store demo_table = Some c /\
    compiled_match (PF := linux) empty_store (demo_meta (b! "www.example.com") 443) demo_probe demo_table c =
      Some (o, warned) /\
    result_of <$> o = Some (72, mkMatch (b! "B") TDstPort (b! "443")).
Proof.
  set (m := demo_meta (b! "www.example.com") 443).
  destruct (compiled_table_exact (PF := linux) (RL := toy_regex_laws) empty_store empty_store m demo_probe
    demo_table) as (c & o & warned & Hb & Hm & Ho & _).
  - split; reflexivity.
  - intros p k Hk. discriminate Hk.
  - intros _. split; reflexivity.
  - reflexivity.
  - exact demo_good.
  - reflexivity.
  - vm_compute. discriminate.
  - vm_compute. reflexivity.
  - split; vm_compute; congruence.
  - exists c, o, warned. split; [exact Hb|]. split; [exact Hm|]. rewrite Ho. vm_compute. reflexivity.
Defined.

(** A table whose first rule waits for an address. *)
Definition ten_net : IpNet := mkNet false 167772160 8.
Definition waiting_table : list Rule :=
  [IpCidrRule ten_net (show_net ten_net) (b! "A") false false; FinalRule (b! "DIRECT")].

Lemma lazy_agrees_with_strict_witness :
  exists c l w, build (PF := linux) empty_store waiting_table = Some c /\
    compiled_match_lazy (PF := linux) empty_store (demo_meta (b! "a.com") 80) demo_probe waiting_table c =
      Some (l, w) /\ w = [].
Proof.
  assert (Hrun : (c ← build (PF := linux) empty_store waiting_table;
    compiled_match (PF := linux) empty_store (demo_meta (b! "a.com") 80) demo_probe waiting_table c) =
    Some (Some (mkResult (b! "DIRECT") (Some 1) TMatch [] 1), [])) by (vm_compute; reflexivity).
  destruct (build (PF := linux) empty_store waiting_table) as [c|]; [|discriminate Hrun].
  destruct (lazy_agrees_with_strict (PF := linux) empty_store _ _ _ _ _ _ Hrun) as (l & w & Hl & Hok & Hw).
  exists c, l, w. split; [reflexivity|]. split; [exact Hl|].
  destruct l; [exact (proj2 Hok)|exact Hw|exact (proj2 Hok)].
Defined.

(** The stop really happens, and a present address avoids it. *)
Example lazy_stops :
  (c ← build (PF := linux) empty_store waiting_table;
   compiled_match_lazy (PF := linux) empty_store (demo_meta (b! "a.com") 80) demo_probe waiting_table c) =
  Some (NeedsEnrichment true false 0, []).
Proof. vm_compute. reflexivity. Qed.

(** Two logic rules that fold to different leaves. This is why tables are
    assumed [collapse_free]. *)
Definition colliding_table : list Rule :=
  [OrRule [DomainRule (b! "x.com") (b! "A"); GeoIpRule (b! "ZZ") (b! "A") true 7%N] (b! "A") (b! "x.com OR ZZ");
   OrRule [DomainSuffixRule (b! "x.com") (b! "A"); GeoIpRule (b! "ZZ") (b! "A") true 7%N] (b! "A") (b! "x.com OR ZZ")].

(** Two logic rules that fold to different leaves share a fingerprint:
    the compiler drops the second as a duplicate, and a host that only the
    second one matches is lost. *)
Example collapsed_duplicate_lost :
  let m := demo_meta (b! "www.x.com") 80 in
  (c ← build (PF := linux) empty_store colliding_table;
   compiled_match (PF := linux) empty_store m demo_probe colliding_table c) = Some (None, []) /\
  first_usable (PF := linux) empty_store m demo_probe colliding_table =
    Some (1, mkMatch (b! "A") TOr (b! "x.com OR ZZ")).
Proof. vm_compute. split; reflexivity. Qed.

End RuleIrCorrect.
