(* ===== verification/ReplayWindow.v ===== *)
(** * The packet-ID replay filter (crates/meow-common/src/replay_window.rs) *)

From S2P Require Import Prelude.
Local Open Scope Z_scope.

Module ReplayWindow.

Definition WINDOW_LIMBS : nat := 32.
Definition WINDOW_BITS : Z := Z.of_nat WINDOW_LIMBS * 64.

Record t := mk { max_seen : Z; bits : list Z }.

Definition new : t := mk 0 (replicate WINDOW_LIMBS 0).

(** The value one iteration of the loop of [shift] stores in limb [i]. *)
Definition shift_limb (limbs : nat) (rem : Z) (bs : list Z) (i : nat) : Z :=
  let v := if (limbs <=? i)%nat then bs !!! (i - limbs)%nat else 0 in
  if rem =? 0 then v
  else
    let v := wrap64 (Z.shiftl v rem) in
    if (limbs <? i)%nat
    then Z.lor v (Z.shiftr (bs !!! (i - limbs - 1)%nat) (64 - rem))
    else v.

(** The loop updates the array in place, from limb 31 down to limb 0. *)
Definition shift_step (limbs : nat) (rem : Z) (bs : list Z) (i : nat) : list Z :=
  <[i := shift_limb limbs rem bs i]> bs.

Definition shift (bs : list Z) (by_ : Z) : list Z :=
  if WINDOW_BITS <=? by_ then replicate WINDOW_LIMBS 0
  else
    foldl (shift_step (Z.to_nat (by_ / 64)) (by_ `mod` 64)) bs
      (reverse (seq 0 WINDOW_LIMBS)).

Definition check_and_set (w : t) (id : Z) : bool * t :=
  if id =? u64_max then (false, w)
  else if max_seen w <? id then
    let bs := shift (bits w) (id - max_seen w) in
    (true, mk id (<[0%nat := Z.lor (bs !!! 0%nat) 1]> bs))
  else
    let diff := max_seen w - id in
    if WINDOW_BITS <=? diff then (false, w)
    else
      let limb := bits w !!! Z.to_nat (diff / 64) in
      let mask := Z.shiftl 1 (diff `mod` 64) in
      if negb (Z.land limb mask =? 0) then (false, w)
      else (true, mk (max_seen w)
                     (<[Z.to_nat (diff / 64) := Z.lor limb mask]> (bits w))).

(** ** The loop of [shift] is a shift of the bitmap *)

(** Position [p] of the bitmap, counted back from [max_seen]. *)
Definition bit (bs : list Z) (p : Z) : bool :=
  Z.testbit (bs !!! Z.to_nat (p / 64)) (p `mod` 64).

Lemma shift_limb_insert limbs rem bs k v j :
  (j < k)%nat -> shift_limb limbs rem (<[k := v]> bs) j = shift_limb limbs rem bs j.
Proof.
  intros Hj. unfold shift_limb.
  by rewrite !list_lookup_total_insert_ne by lia.
Qed.

Lemma shift_loop_lookup limbs rem k bs j :
  (k <= length bs)%nat ->
  foldl (shift_step limbs rem) bs (reverse (seq 0 k)) !!! j =
  if (j <? k)%nat then shift_limb limbs rem bs j else bs !!! j.
Proof.
  revert bs j. induction k as [|k IH]; intros bs j Hk; [done|].
  rewrite seq_S, reverse_app; simpl.
  unfold shift_step at 2. rewrite IH by (rewrite length_insert; lia).
  destruct (Nat.ltb_spec j k), (Nat.ltb_spec j (S k)); try lia.
  - by apply shift_limb_insert.
  - assert (j = k) as -> by lia. by rewrite list_lookup_total_insert_eq by lia.
  - by rewrite list_lookup_total_insert_ne by lia.
Qed.

Lemma shift_loop_length limbs rem l bs :
  length (foldl (shift_step limbs rem) bs l) = length bs.
Proof.
  revert bs. induction l as [|i l IH]; intros bs; [done|]; simpl.
  rewrite IH. apply length_insert.
Qed.

Definition wf_bits (bs : list Z) : Prop :=
  length bs = WINDOW_LIMBS /\ Forall is_u64 bs.

Lemma wf_bits_lookup bs i : Forall is_u64 bs -> is_u64 (bs !!! i).
Proof.
  intros H. destruct (bs !! i) as [z|] eqn:E.
  - rewrite (list_lookup_total_correct _ _ _ E).
    by eapply (Forall_lookup_1 is_u64).
  - rewrite list_lookup_total_alt, E. unfold is_u64; simpl; lia.
Qed.

Lemma shift_limb_u64 limbs rem bs i :
  Forall is_u64 bs -> 0 <= rem < 64 -> is_u64 (shift_limb limbs rem bs i).
Proof.
  intros Hbs Hrem. unfold shift_limb.
  destruct (Z.eqb_spec rem 0).
  - destruct (limbs <=? i)%nat; [by apply wf_bits_lookup|unfold is_u64; lia].
  - destruct (limbs <? i)%nat; [|apply is_u64_wrap64].
    apply is_u64_lor; [apply is_u64_wrap64|].
    apply is_u64_shiftr; [by apply wf_bits_lookup|lia].
Qed.

Lemma shift_wf bs by_ : wf_bits bs -> wf_bits (shift bs by_).
Proof.
  intros [Hlen Hbs]. unfold shift. destruct (WINDOW_BITS <=? by_).
  - split; [apply length_replicate|]. apply Forall_replicate. unfold is_u64; lia.
  - split; [by rewrite shift_loop_length|].
    apply Forall_lookup_2. intros i x Hi.
    apply list_lookup_total_correct in Hi. subst x.
    rewrite shift_loop_lookup by (rewrite Hlen; reflexivity).
    destruct (i <? WINDOW_LIMBS)%nat; [|by apply wf_bits_lookup].
    apply shift_limb_u64; [done|]. apply Z.mod_pos_bound; lia.
Qed.

(** Bit [q] of the limb the loop stores at [i], as a bit of the old bitmap. *)
Lemma shift_limb_testbit limbs rem bs i q :
  Forall is_u64 bs -> 0 <= rem < 64 -> 0 <= q < 64 ->
  Z.testbit (shift_limb limbs rem bs i) q =
  let p := Z.of_nat i * 64 + q - (Z.of_nat limbs * 64 + rem) in
  (0 <=? p) && bit bs p.
Proof.
  intros Hbs Hrem Hq. unfold shift_limb, bit. cbv zeta.
  set (p := Z.of_nat i * 64 + q - (Z.of_nat limbs * 64 + rem)).
  destruct (Z.lt_ge_cases q rem) as [Hlo|Hhi].
  - (* the bit comes from the next lower limb *)
    assert (Hp : p = (Z.of_nat i - Z.of_nat limbs - 1) * 64 + (q + 64 - rem)) by lia.
    destruct (div_mod_decomp _ _ _ _ Hp ltac:(lia)) as [-> ->].
    destruct (Z.eqb_spec rem 0) as [|Hrem0]; [lia|].
    assert (Hsh : forall v, Z.testbit (wrap64 (Z.shiftl v rem)) q = false).
    { intros v. rewrite testbit_wrap64, Z.shiftl_spec by lia.
      rewrite (Z.testbit_neg_r v) by lia. apply andb_false_r. }
    destruct (Nat.ltb_spec limbs i).
    + replace (0 <=? p) with true by lia.
      rewrite Z.lor_spec, Hsh, Z.shiftr_spec by lia. simpl.
      replace (Z.to_nat (Z.of_nat i - Z.of_nat limbs - 1)) with (i - limbs - 1)%nat by lia.
      f_equal; lia.
    + replace (0 <=? p) with false by lia. by rewrite Hsh.
  - (* the bit comes from limb [i - limbs] itself *)
    assert (Hp : p = (Z.of_nat i - Z.of_nat limbs) * 64 + (q - rem)) by lia.
    destruct (div_mod_decomp _ _ _ _ Hp ltac:(lia)) as [-> ->].
    assert (Hlimb :
      Z.testbit (if (limbs <=? i)%nat then bs !!! (i - limbs)%nat else 0) (q - rem) =
      (0 <=? p) && Z.testbit (bs !!! Z.to_nat (Z.of_nat i - Z.of_nat limbs)) (q - rem)).
    { destruct (Nat.leb_spec limbs i).
      - replace (0 <=? p) with true by lia. simpl. do 2 f_equal. lia.
      - replace (0 <=? p) with false by lia. by rewrite Z.bits_0. }
    destruct (Z.eqb_spec rem 0) as [->|Hrem0].
    + by rewrite <- Hlimb, Z.sub_0_r.
    + assert (Hsh : forall v, Z.testbit (wrap64 (Z.shiftl v rem)) q = Z.testbit v (q - rem)).
      { intros v. rewrite testbit_wrap64, Z.shiftl_spec by lia.
        by replace (q <? 64) with true by lia. }
      destruct (limbs <? i)%nat; [|by rewrite Hsh].
      rewrite Z.lor_spec, Hsh, Hlimb, Z.shiftr_spec by lia.
      rewrite (is_u64_testbit_high (bs !!! (i - limbs - 1)%nat));
        [apply orb_false_r|by apply wf_bits_lookup|lia].
Qed.

Lemma shift_bit bs by_ p :
  wf_bits bs -> 0 <= by_ -> 0 <= p < WINDOW_BITS ->
  bit (shift bs by_) p = (by_ <=? p) && bit bs (p - by_).
Proof.
  intros [Hlen Hbs] Hby Hp. unfold shift.
  pose proof (Z.mod_pos_bound p 64 ltac:(lia)).
  pose proof (Z.div_mod p 64 ltac:(lia)).
  destruct (Z.leb_spec WINDOW_BITS by_).
  - replace (by_ <=? p) with false by lia. unfold bit. cbn [andb].
    rewrite lookup_total_replicate_2; [apply Z.bits_0|].
    unfold WINDOW_BITS in Hp. lia.
  - unfold bit at 1. rewrite shift_loop_lookup by (rewrite Hlen; reflexivity).
    destruct (Nat.ltb_spec (Z.to_nat (p / 64)) WINDOW_LIMBS);
      [|unfold WINDOW_BITS in Hp; lia].
    pose proof (Z.mod_pos_bound by_ 64 ltac:(lia)).
    pose proof (Z.div_mod by_ 64 ltac:(lia)).
    rewrite shift_limb_testbit by done. cbv zeta.
    rewrite !Z2Nat.id by lia.
    replace (p / 64 * 64 + p `mod` 64 - (by_ / 64 * 64 + by_ `mod` 64)) with (p - by_) by lia.
    f_equal. lia.
Qed.

(** ** Setting one bit *)

Lemma set_bit_wf bs i m :
  wf_bits bs -> 0 <= m < 64 ->
  wf_bits (<[i := Z.lor (bs !!! i) (Z.shiftl 1 m)]> bs).
Proof.
  intros [Hlen Hbs] Hm. split; [by rewrite length_insert|].
  apply Forall_insert; [done|]. apply is_u64_lor; [by apply wf_bits_lookup|].
  rewrite Z.shiftl_1_l. split; [lia|]. apply Z.pow_lt_mono_r; lia.
Qed.

Lemma set_bit_bit bs d p :
  wf_bits bs -> 0 <= d < WINDOW_BITS -> 0 <= p < WINDOW_BITS ->
  bit (<[Z.to_nat (d / 64) :=
         Z.lor (bs !!! Z.to_nat (d / 64)) (Z.shiftl 1 (d `mod` 64))]> bs) p =
  (p =? d) || bit bs p.
Proof.
  intros [Hlen Hbs] Hd Hp. unfold bit.
  pose proof (Z.div_mod p 64 ltac:(lia)). pose proof (Z.mod_pos_bound p 64 ltac:(lia)).
  pose proof (Z.div_mod d 64 ltac:(lia)). pose proof (Z.mod_pos_bound d 64 ltac:(lia)).
  destruct (Z.eq_dec (p / 64) (d / 64)) as [E|E].
  - rewrite E, list_lookup_total_insert_eq
      by (rewrite Hlen; unfold WINDOW_BITS in Hd; lia).
    rewrite Z.lor_spec, orb_comm. f_equal. rewrite Z.shiftl_spec by lia.
    destruct (Z.eqb_spec p d) as [->|Hne]; [by rewrite Z.sub_diag|].
    destruct (Z.lt_ge_cases (p `mod` 64) (d `mod` 64)).
    + by apply Z.testbit_neg_r; lia.
    + apply Z.bits_above_log2; simpl; lia.
  - rewrite list_lookup_total_insert_ne
      by (intros E'; apply E; apply Z2Nat.inj in E'; unfold WINDOW_BITS in *; lia).
    destruct (Z.eqb_spec p d) as [->|]; [done|by rewrite orb_false_l].
Qed.

(** ** The abstract filter: the list of IDs accepted so far *)

Definition newest (accepted : list Z) : Z := foldr Z.max 0 accepted.

(** What SIP022 asks of the filter: never accept an ID twice, and forget
    nothing inside the trailing window. *)
Definition spec_accepts (accepted : list Z) (id : Z) : bool :=
  negb (id =? u64_max) && bool_decide (id ∉ accepted) &&
  (newest accepted - id <? WINDOW_BITS).

Fixpoint spec_run (accepted : list Z) (ids : list Z) : list bool :=
  match ids with
  | [] => []
  | id :: ids =>
      let b := spec_accepts accepted id in
      b :: spec_run (if b then id :: accepted else accepted) ids
  end.

(** Feeding a packet sequence to one session's window. *)
Fixpoint run (w : t) (ids : list Z) : list bool :=
  match ids with
  | [] => []
  | id :: ids => let '(b, w') := check_and_set w id in b :: run w' ids
  end.

(** The simulation relation between the bitmap and the accepted IDs. *)
Definition refines (w : t) (accepted : list Z) : Prop :=
  wf_bits (bits w) /\
  max_seen w = newest accepted /\
  Forall (fun id => 0 <= id) accepted /\
  forall p, 0 <= p < WINDOW_BITS ->
    bit (bits w) p = bool_decide (max_seen w - p ∈ accepted).

Lemma newest_ub accepted id : id ∈ accepted -> id <= newest accepted.
Proof.
  induction accepted as [|x l IH]; simpl; [set_solver|].
  intros [->|H]%elem_of_cons; [lia|]. specialize (IH H). lia.
Qed.

Lemma newest_nonneg accepted : 0 <= newest accepted.
Proof. induction accepted; simpl; lia. Qed.

Lemma refines_new : refines new [].
Proof.
  split_and!; [..|done|].
  - split; [apply length_replicate|]. apply Forall_replicate. unfold is_u64; lia.
  - done.
  - intros p Hp. rewrite bool_decide_eq_false_2 by set_solver.
    unfold bit, new. cbn [bits]. rewrite lookup_total_replicate_2.
    + apply Z.bits_0.
    + pose proof (Z.div_lt_upper_bound p 64 (Z.of_nat WINDOW_LIMBS)).
      unfold WINDOW_BITS in Hp. lia.
Qed.

(** Accepting an ID newer than every one before it. *)
Lemma refines_advance w accepted id :
  refines w accepted -> is_u64 id -> max_seen w < id ->
  let bs := shift (bits w) (id - max_seen w) in
  refines (mk id (<[0%nat := Z.lor (bs !!! 0%nat) 1]> bs)) (id :: accepted).
Proof.
  intros (Hwf & Hmax & Hnn & Hbit) Hid Hlt bs.
  assert (Hbs : wf_bits bs) by by apply shift_wf.
  split_and!; simpl.
  - apply (set_bit_wf bs 0 0); [done|lia].
  - lia.
  - constructor; [unfold is_u64 in *; lia|done].
  - intros p Hp. etrans; [apply (set_bit_bit bs 0 p Hbs); unfold WINDOW_BITS in *; lia|].
    unfold bs. rewrite shift_bit by (try done; lia).
    destruct (Z.eqb_spec p 0) as [->|Hp0]; simpl.
    { rewrite bool_decide_eq_true_2; [done|]. apply elem_of_cons; lia. }
    destruct (Z.leb_spec (id - max_seen w) p); simpl.
    + rewrite Hbit by lia. apply bool_decide_ext.
      replace (max_seen w - (p - (id - max_seen w))) with (id - p) by lia.
      rewrite elem_of_cons. intuition lia.
    + symmetry. apply bool_decide_eq_false_2.
      intros [?|Hin]%elem_of_cons; [lia|].
      apply newest_ub in Hin. lia.
Qed.

(** Accepting a fresh ID inside the window. *)
Lemma refines_fill w accepted id :
  refines w accepted -> is_u64 id -> id <= max_seen w ->
  max_seen w - id < WINDOW_BITS ->
  let d := max_seen w - id in
  refines (mk (max_seen w)
    (<[Z.to_nat (d / 64) :=
       Z.lor (bits w !!! Z.to_nat (d / 64)) (Z.shiftl 1 (d `mod` 64))]> (bits w)))
    (id :: accepted).
Proof.
  intros (Hwf & Hmax & Hnn & Hbit) Hid Hle Hwin d.
  split_and!; cbn [max_seen bits].
  - apply set_bit_wf; [done|]. apply Z.mod_pos_bound; lia.
  - simpl. lia.
  - constructor; [unfold is_u64 in *; lia|done].
  - intros p Hp. rewrite set_bit_bit by (try done; lia). rewrite Hbit by done.
    destruct (Z.eqb_spec p d) as [->|Hpd]; simpl.
    + rewrite bool_decide_eq_true_2; [done|]. apply elem_of_cons; lia.
    + apply bool_decide_ext. rewrite elem_of_cons. intuition lia.
Qed.

Lemma check_and_set_refines w accepted id :
  refines w accepted -> is_u64 id ->
  let '(b, w') := check_and_set w id in
  b = spec_accepts accepted id /\
  refines w' (if b then id :: accepted else accepted).
Proof.
  intros Hr Hid. destruct (Hr) as (Hwf & Hmax & Hnn & Hbit).
  unfold check_and_set, spec_accepts.
  destruct (Z.eqb_spec id u64_max) as [|Hnmax]; [done|].
  destruct (Z.ltb_spec (max_seen w) id) as [Hlt|Hge].
  - split; [|by apply refines_advance].
    rewrite bool_decide_eq_true_2 by (intros Hin%newest_ub; lia).
    assert (0 < WINDOW_BITS) by done.
    rewrite <- Hmax. by replace (max_seen w - id <? WINDOW_BITS) with true by lia.
  - destruct (Z.leb_spec WINDOW_BITS (max_seen w - id)) as [Hold|Hwin].
    { split; [|done]. rewrite <- Hmax.
      replace (max_seen w - id <? WINDOW_BITS) with false by lia. by rewrite andb_false_r. }
    assert (0 <= (max_seen w - id) `mod` 64 < 64) by (apply Z.mod_pos_bound; lia).
    rewrite land_pow2_eqb by lia.
    assert (Hseen := Hbit (max_seen w - id) ltac:(lia)). unfold bit in Hseen.
    rewrite Hseen. replace (max_seen w - (max_seen w - id)) with id by lia.
    rewrite <- Hmax. replace (max_seen w - id <? WINDOW_BITS) with true by lia.
    destruct (decide (id ∈ accepted)) as [Hin|Hnin].
    + rewrite bool_decide_eq_true_2, bool_decide_eq_false_2 by (done || by intros Hn).
      done.
    + rewrite bool_decide_eq_false_2, bool_decide_eq_true_2 by done.
      split; [done|]. apply refines_fill; [done|done|lia|lia].
Qed.

Lemma run_refines w accepted ids :
  refines w accepted -> Forall is_u64 ids -> run w ids = spec_run accepted ids.
Proof.
  intros Hr Hids. revert w accepted Hr.
  induction Hids as [|id ids Hid _ IH]; intros w accepted Hr; [done|]; simpl.
  pose proof (check_and_set_refines w accepted id Hr Hid) as Hstep.
  destruct (check_and_set w id) as [b w']. destruct Hstep as [-> Hr'].
  by rewrite (IH _ _ Hr').
Qed.

(** The IDs of [ids] whose verdict is [true]. *)
Fixpoint passed (ids : list Z) (verdicts : list bool) : list Z :=
  match ids, verdicts with
  | id :: ids, b :: verdicts =>
      if b then id :: passed ids verdicts else passed ids verdicts
  | _, _ => []
  end.

Lemma spec_run_nodup accepted ids :
  NoDup accepted -> NoDup (passed ids (spec_run accepted ids) ++ accepted).
Proof.
  revert accepted. induction ids as [|id ids IH]; intros accepted Hnd; [done|].
  cbn [spec_run passed]. cbv zeta.
  destruct (spec_accepts accepted id) eqn:E; [|by apply IH].
  unfold spec_accepts in E. rewrite !andb_true_iff, bool_decide_eq_true in E.
  destruct E as [[_ Hfresh] _].
  specialize (IH (id :: accepted) ltac:(by constructor)).
  change ((id :: passed ids (spec_run (id :: accepted) ids)) ++ accepted)
    with (id :: (passed ids (spec_run (id :: accepted) ids) ++ accepted)).
  eapply NoDup_Permutation_proper; [|exact IH].
  apply Permutation_middle.
Qed.

(** C4: the bitmap filter implements the abstract filter. On every sequence
    of 64-bit packet IDs, the verdicts of [check_and_set] from a fresh window
    are those of the specification that remembers every accepted ID: an ID
    is accepted exactly when it is not the reserved top ID, was not accepted
    before, and is less than [WINDOW_BITS] behind the newest accepted ID. *)
Theorem replay_window_refines_spec (ids : list Z) (Hids : Forall is_u64 ids) :
  run new ids = spec_run [] ids.
Proof. apply run_refines; [apply refines_new|done]. Qed.

Lemma replay_window_refines_spec_witness :
  Forall is_u64 [100; 50; 50; 2148; 100; 101; u64_max] /\
  run new [100; 50; 50; 2148; 100; 101; u64_max] =
    [true; true; false; true; false; true; false].
Proof.
  assert (H : Forall is_u64 [100; 50; 50; 2148; 100; 101; u64_max])
    by (repeat constructor; vm_compute; done).
  split; [exact H|]. etrans; [exact (replay_window_refines_spec _ H)|].
  vm_compute. reflexivity.
Defined.

(** Replay safety. However packets are ordered, delayed or repeated, no
    packet ID passes the filter twice. *)
Theorem replay_never_accepts_twice (ids : list Z) (Hids : Forall is_u64 ids) :
  NoDup (passed ids (run new ids)).
Proof.
  rewrite (run_refines new [] ids refines_new Hids).
  rewrite <- (app_nil_r (passed _ _)). apply spec_run_nodup, NoDup_nil_2.
Qed.

Lemma replay_never_accepts_twice_witness :
  passed [7; 7; 3; 7; 3] (run new [7; 7; 3; 7; 3]) = [7; 3] /\
  NoDup (passed [7; 7; 3; 7; 3] (run new [7; 7; 3; 7; 3])).
Proof.
  split; [vm_compute; reflexivity|].
  apply (replay_never_accepts_twice [7; 7; 3; 7; 3]).
  repeat constructor; vm_compute; done.
Defined.

End ReplayWindow.
