(* ===== verification/Kcp.v ===== *)
(** * KCP (crates/meow-transport/src/kcptun/kcp_go.rs)

    One end of a KCP conversation: the windows, the four queues, the
    retransmission timers and the datagrams it writes. The fields of [Kcp] are
    grouped by role. A [u32] is an integer below [2 ^ 32] with wrap-around
    written out, an [i32] one from [- 2 ^ 31]. An operation returns its
    [Result] and the state, which an error does not undo. The one sink of the
    code, [PacketSink], takes every datagram; the model keeps them in order. *)

From S2P Require Import Prelude Strings Bits.

Module Kcp.

(** ** 32-bit words *)

Definition w32 (z : Z) : Z := z `mod` 2 ^ 32.
Definition wadd (a b : Z) : Z := w32 (a + b).
Definition wsub (a b : Z) : Z := w32 (a - b).
Definition wmul (a b : Z) : Z := w32 (a * b).

(** The [i32] with the bits of a word. *)
Definition to_i32 (z : Z) : Z := (w32 (z + 2 ^ 31) - 2 ^ 31)%Z.

Definition timediff (later earlier : Z) : Z := to_i32 (later - earlier).

Definition bound (lower v upper : Z) : Z := Z.min (Z.max lower v) upper.

(** ** Constants *)

Definition KCP_RTO_NDL : Z := 30.
Definition KCP_RTO_MIN : Z := 100.
Definition KCP_RTO_DEF : Z := 200.
Definition KCP_RTO_MAX : Z := 60000.
Definition KCP_CMD_PUSH : Z := 81.
Definition KCP_CMD_ACK : Z := 82.
Definition KCP_CMD_WASK : Z := 83.
Definition KCP_CMD_WINS : Z := 84.
Definition KCP_ASK_SEND : Z := 1.
Definition KCP_ASK_TELL : Z := 2.
Definition KCP_WND_SND : Z := 32.
Definition KCP_WND_RCV : Z := 32.
Definition KCP_MTU_DEF : nat := 1400.
Definition KCP_INTERVAL : Z := 100.
Definition KCP_OVERHEAD : nat := 24.
Definition KCP_DEADLINK : Z := 20.
Definition KCP_THRESH_INIT : Z := 2.
Definition KCP_THRESH_MIN : Z := 2.
Definition KCP_PROBE_INIT : Z := 500.
Definition KCP_PROBE_LIMIT : Z := 120000.
Definition u32_MAX : Z := 4294967295.

(** [DivideByZero] stands for the panic of a division. *)
Inductive KcpError :=
  | ConvInconsistent (expected found : Z)
  | InvalidMtu (mtu : nat)
  | InvalidSegmentSize (n : nat)
  | InvalidMss (n : nat)
  | InvalidSegmentDataSize (expected found : Z)
  | NeedUpdate
  | RecvQueueEmpty
  | ExpectingFragment
  | UnsupportedCmd (cmd : Z)
  | UserBufTooBig
  | UserBufTooSmall
  | EmptySend
  | DivideByZero.

(** ** Segments *)

Record KcpSegment := mkSeg {
  seg_conv : Z;
  seg_cmd : Z;
  seg_frg : Z;
  seg_wnd : Z;
  seg_ts : Z;
  seg_sn : Z;
  seg_una : Z;
  resendts : Z;
  rto : Z;
  fastack : Z;
  xmit : Z;
  acked : bool;
  seg_data : bytes;
}.

Definition new_with_data (data : bytes) : KcpSegment := mkSeg 0 0 0 0 0 0 0 0 0 0 0 false data.

Definition encode (s : KcpSegment) : bytes :=
  to_le_bytes 4 (seg_conv s) ++ to_le_bytes 1 (seg_cmd s) ++ to_le_bytes 1 (seg_frg s) ++
  to_le_bytes 2 (seg_wnd s) ++ to_le_bytes 4 (seg_ts s) ++ to_le_bytes 4 (seg_sn s) ++
  to_le_bytes 4 (seg_una s) ++ to_le_bytes 4 (Z.of_nat (length (seg_data s))) ++ seg_data s.

Definition encoded_len (s : KcpSegment) : nat := KCP_OVERHEAD + length (seg_data s).

(** ** The control block *)

Record Config := mkConfig {
  conv : Z;
  mtu : nat;
  mss : nat;
  rx_minrto : Z;
  snd_wnd : Z;
  rcv_wnd : Z;
  interval : Z;
  nodelay : bool;
  dead_link : Z;
  fastresend : Z;
  nocwnd : bool;
  stream : bool;
  input_conv : bool;
}.

Record Sender := mkSender {
  snd_una : Z;
  snd_nxt : Z;
  snd_queue : list KcpSegment;
  snd_buf : list KcpSegment;
}.

Record Receiver := mkReceiver {
  rcv_nxt : Z;
  rcv_queue : list KcpSegment;
  rcv_buf : list KcpSegment;
  acklist : list (Z * Z);
}.

Record Rtt := mkRtt { rx_rttval : Z; rx_srtt : Z; rx_rto : Z }.

Record Congestion := mkCongestion { ssthresh : Z; rmt_wnd : Z; cwnd : Z; incr : Z }.

Record Clock := mkClock {
  probe : Z;
  current : Z;
  ts_flush : Z;
  updated : bool;
  ts_probe : Z;
  probe_wait : Z;
  link_state : Z;
}.

(** [buf] is the datagram being filled, [output] those written. *)
Record Out := mkOut { buf : bytes; output : list bytes }.

Record Kcp := mkKcp {
  cfg : Config;
  snd : Sender;
  rcv : Receiver;
  rtt : Rtt;
  cc : Congestion;
  clk : Clock;
  out : Out;
}.

Definition set_snd (k : Kcp) (s : Sender) : Kcp := mkKcp (cfg k) s (rcv k) (rtt k) (cc k) (clk k) (out k).
Definition set_rcv (k : Kcp) (r : Receiver) : Kcp := mkKcp (cfg k) (snd k) r (rtt k) (cc k) (clk k) (out k).
Definition set_cc (k : Kcp) (c : Congestion) : Kcp := mkKcp (cfg k) (snd k) (rcv k) (rtt k) c (clk k) (out k).
Definition set_clk (k : Kcp) (c : Clock) : Kcp := mkKcp (cfg k) (snd k) (rcv k) (rtt k) (cc k) c (out k).
Definition set_rtt (k : Kcp) (r : Rtt) : Kcp := mkKcp (cfg k) (snd k) (rcv k) r (cc k) (clk k) (out k).
Definition set_out (k : Kcp) (o : Out) : Kcp := mkKcp (cfg k) (snd k) (rcv k) (rtt k) (cc k) (clk k) o.
Definition set_cfg (k : Kcp) (c : Config) : Kcp := mkKcp c (snd k) (rcv k) (rtt k) (cc k) (clk k) (out k).

Definition set_queue (s : Sender) (q : list KcpSegment) : Sender := mkSender (snd_una s) (snd_nxt s) q (snd_buf s).
Definition set_buf (s : Sender) (b : list KcpSegment) : Sender := mkSender (snd_una s) (snd_nxt s) (snd_queue s) b.
Definition set_probe (c : Clock) (p : Z) : Clock :=
  mkClock p (current c) (ts_flush c) (updated c) (ts_probe c) (probe_wait c) (link_state c).

Definition construct (conv : Z) (stream : bool) : Kcp :=
  mkKcp
    (mkConfig conv KCP_MTU_DEF (KCP_MTU_DEF - KCP_OVERHEAD) KCP_RTO_MIN KCP_WND_SND KCP_WND_RCV KCP_INTERVAL
       false KCP_DEADLINK 0 false stream false)
    (mkSender 0 0 [] []) (mkReceiver 0 [] [] []) (mkRtt 0 0 KCP_RTO_DEF)
    (mkCongestion KCP_THRESH_INIT KCP_WND_RCV 0 0)
    (mkClock 0 0 KCP_INTERVAL false 0 0 0) (mkOut [] []).

Definition new (conv : Z) : Kcp := construct conv false.
Definition new_stream (conv : Z) : Kcp := construct conv true.

(** ** Receiving *)

(** [rcv_queue.len() < rcv_wnd as usize]. *)
Definition queue_has_room (k : Kcp) (q : list KcpSegment) : bool := (Z.of_nat (length q) <? rcv_wnd (cfg k))%Z.

Fixpoint move_loop (k : Kcp) (b q : list KcpSegment) (nxt : Z) : list KcpSegment * list KcpSegment * Z :=
  match b with
  | seg :: b' =>
      if (seg_sn seg =? nxt)%Z && queue_has_room k q then move_loop k b' (q ++ [seg]) (wadd nxt 1) else (b, q, nxt)
  | [] => ([], q, nxt)
  end.

Definition move_buf (k : Kcp) : Kcp :=
  let r := rcv k in
  let '(b, q, nxt) := move_loop k (rcv_buf r) (rcv_queue r) (rcv_nxt r) in
  set_rcv k (mkReceiver nxt q b (acklist r)).

(** The data up to the first segment that ends a message, and what follows. *)
Fixpoint merge (q : list KcpSegment) : bytes * list KcpSegment :=
  match q with
  | [] => ([], [])
  | seg :: q =>
      if (seg_frg seg =? 0)%Z then (seg_data seg, q)
      else let '(d, rest) := merge q in (seg_data seg ++ d, rest)
  end.

Definition peeksize (k : Kcp) : result KcpError nat :=
  match rcv_queue (rcv k) with
  | [] => Err RecvQueueEmpty
  | seg :: _ =>
      if (seg_frg seg =? 0)%Z then Ok (length (seg_data seg))
      else if (Z.of_nat (length (rcv_queue (rcv k))) <? seg_frg seg + 1)%Z then Err ExpectingFragment
      else Ok (length (merge (rcv_queue (rcv k))).1)
  end.

(** [recv] into a buffer of [room] bytes: the bytes it fills. *)
Definition recv (k : Kcp) (room : nat) : result KcpError bytes * Kcp :=
  if (length (rcv_queue (rcv k)) =? 0) then (Err RecvQueueEmpty, k)
  else match peeksize k with
  | Err e => (Err e, k)
  | Ok size =>
      if (room <? size) then (Err UserBufTooSmall, k)
      else
        let r := rcv k in
        let recover := negb (queue_has_room k (rcv_queue r)) in
        let '(d, q) := merge (rcv_queue r) in
        let k := move_buf (set_rcv k (mkReceiver (rcv_nxt r) q (rcv_buf r) (acklist r))) in
        let k :=
          if queue_has_room k (rcv_queue (rcv k)) && recover
          then set_clk k (set_probe (clk k) (Z.lor (probe (clk k)) KCP_ASK_TELL)) else k in
        (Ok d, k)
  end.

(** ** Sending *)

(** The segments of a buffer, [count] of them. *)
Fixpoint fragments (k : Kcp) (count : nat) (b : bytes) : list KcpSegment :=
  match count with
  | 0 => []
  | S count =>
      let frg := if stream (cfg k) then 0%Z else w8 (Z.of_nat count) in
      mkSeg 0 0 frg 0 0 0 0 0 0 0 0 false (take (mss (cfg k)) b) :: fragments k count (drop (mss (cfg k)) b)
  end.

(** Appending to the last queued segment: the queue and what is left. *)
Definition extend_last (m : nat) (q : list KcpSegment) (b : bytes) : list KcpSegment * bytes :=
  match last q with
  | Some old =>
      let l := length (seg_data old) in
      if l <? m then
        let n := Nat.min (length b) (m - l) in
        (take (length q - 1) q ++
           [mkSeg (seg_conv old) (seg_cmd old) 0 (seg_wnd old) (seg_ts old) (seg_sn old) (seg_una old)
              (resendts old) (rto old) (fastack old) (xmit old) (acked old) (seg_data old ++ take n b)],
         drop n b)
      else (q, b)
  | None => (q, b)
  end.

(** The number of bytes taken. *)
Definition send (k : Kcp) (b : bytes) : result KcpError nat * Kcp :=
  let m := mss (cfg k) in
  if (m =? 0) then (Err (InvalidMss 0), k)
  else if (length b =? 0) then (Err EmptySend, k)
  else
    let '(q, rest) := if stream (cfg k) then extend_last m (snd_queue (snd k)) b else (snd_queue (snd k), b) in
    let k := set_snd k (set_queue (snd k) q) in
    if stream (cfg k) && (length rest =? 0) then (Ok (length b), k)
    else
      let count := if (length rest <=? m) then 1 else (length rest + m - 1) / m in
      if (255 <? count) then (Err UserBufTooBig, k)
      else
        let count := Nat.max 1 count in
        (Ok (length b), set_snd k (set_queue (snd k) (q ++ fragments k count rest))).

(** ** Acknowledgements *)

Definition update_ack (k : Kcp) (sample : Z) : Kcp :=
  let r := rtt k in
  let '(srtt, rttval) :=
    if (rx_srtt r =? 0)%Z then (sample, Z.shiftr sample 1)
    else
      let delta := to_i32 (sample - rx_srtt r) in
      let srtt := to_i32 (rx_srtt r + Z.shiftr delta 3) in
      let delta := if (delta <? 0)%Z then to_i32 (- delta) else delta in
      let shift := if (sample <? to_i32 (srtt - rx_rttval r))%Z then 5%Z else 2%Z in
      (srtt, to_i32 (rx_rttval r + Z.shiftr (to_i32 (delta - rx_rttval r)) shift)) in
  let timeout := wadd (w32 srtt) (Z.max (interval (cfg k)) (w32 (Z.shiftl (w32 rttval) 2))) in
  set_rtt k (mkRtt rttval srtt (bound (rx_minrto (cfg k)) timeout KCP_RTO_MAX)).

Definition shrink_buf (s : Sender) : Sender :=
  mkSender (match snd_buf s with seg :: _ => seg_sn seg | [] => snd_nxt s end) (snd_nxt s) (snd_queue s) (snd_buf s).

(** Marked segments free their data. *)
Definition mark_acked (seg : KcpSegment) : KcpSegment :=
  mkSeg (seg_conv seg) (seg_cmd seg) (seg_frg seg) (seg_wnd seg) (seg_ts seg) (seg_sn seg) (seg_una seg)
    (resendts seg) (rto seg) (fastack seg) (xmit seg) true [].

Fixpoint ack_loop (sn : Z) (b : list KcpSegment) : list KcpSegment :=
  match b with
  | [] => []
  | seg :: b' =>
      if (sn =? seg_sn seg)%Z then mark_acked seg :: b'
      else if (timediff sn (seg_sn seg) <? 0)%Z then b
      else seg :: ack_loop sn b'
  end.

(** [sn] is outside of what is in flight. *)
Definition not_in_flight (s : Sender) (sn : Z) : bool :=
  (timediff sn (snd_una s) <? 0)%Z || (0 <=? timediff sn (snd_nxt s))%Z.

Definition parse_ack (s : Sender) (sn : Z) : Sender :=
  if not_in_flight s sn then s else set_buf s (ack_loop sn (snd_buf s)).

Fixpoint una_loop (una : Z) (b : list KcpSegment) (count : nat) : list KcpSegment * nat :=
  match b with
  | seg :: b' => if (0 <? timediff una (seg_sn seg))%Z then una_loop una b' (S count) else (b, count)
  | [] => ([], count)
  end.

Definition parse_una (s : Sender) (una : Z) : nat * Sender :=
  let '(b, count) := una_loop una (snd_buf s) 0 in (count, set_buf s b).

Definition set_fastack (seg : KcpSegment) (n : Z) : KcpSegment :=
  mkSeg (seg_conv seg) (seg_cmd seg) (seg_frg seg) (seg_wnd seg) (seg_ts seg) (seg_sn seg) (seg_una seg)
    (resendts seg) (rto seg) n (xmit seg) (acked seg) (seg_data seg).

Fixpoint fastack_loop (threshold sn ts : Z) (b : list KcpSegment) : bool * list KcpSegment :=
  match b with
  | [] => (false, [])
  | seg :: b' =>
      if (timediff sn (seg_sn seg) <? 0)%Z then (false, b)
      else
        let counts :=
          negb (sn =? seg_sn seg)%Z && (timediff (seg_ts seg) ts <=? 0)%Z && negb (fastack seg =? u32_MAX)%Z in
        let n := wadd (fastack seg) 1 in
        let '(tripped, rest) := fastack_loop threshold sn ts b' in
        if counts then ((threshold <=? n)%Z || tripped, set_fastack seg n :: rest) else (tripped, seg :: rest)
  end.

Definition parse_fastack (threshold : Z) (s : Sender) (sn ts : Z) : bool * Sender :=
  if not_in_flight s sn then (false, s)
  else let '(tripped, b) := fastack_loop threshold sn ts (snd_buf s) in (tripped, set_buf s b).

Definition ack_push (r : Receiver) (sn ts : Z) : Receiver :=
  mkReceiver (rcv_nxt r) (rcv_queue r) (rcv_buf r) (acklist r ++ [(sn, ts)]).

(** ** Data *)

(** The scan from the back, over the reversed buffer: [None] is a repeat,
    otherwise the index of the new segment. *)
Fixpoint insert_index (sn : Z) (rev_buf : list KcpSegment) : option nat :=
  match rev_buf with
  | [] => Some 0
  | seg :: rest =>
      if (seg_sn seg =? sn)%Z then None
      else if (0 <? timediff sn (seg_sn seg))%Z then Some (length rev_buf)
      else insert_index sn rest
  end.

Definition parse_data (k : Kcp) (seg : KcpSegment) : Kcp :=
  let r := rcv k in
  let sn := seg_sn seg in
  if (0 <=? timediff sn (wadd (rcv_nxt r) (rcv_wnd (cfg k))))%Z || (timediff sn (rcv_nxt r) <? 0)%Z then k
  else
    let b :=
      match insert_index sn (reverse (rcv_buf r)) with
      | Some i => take i (rcv_buf r) ++ seg :: drop i (rcv_buf r)
      | None => rcv_buf r
      end in
    move_buf (set_rcv k (mkReceiver (rcv_nxt r) (rcv_queue r) b (acklist r))).

(** ** Windows and timers *)

Definition wnd_unused (k : Kcp) : Z :=
  let n := w32 (Z.of_nat (length (rcv_queue (rcv k)))) in
  if (n <? rcv_wnd (cfg k))%Z then ((rcv_wnd (cfg k) - n) `mod` 65536)%Z else 0%Z.

Definition probe_wnd_size (k : Kcp) : Kcp :=
  let c := clk k in
  set_clk k
    (if (rmt_wnd (cc k) =? 0)%Z then
       if (probe_wait c =? 0)%Z then
         mkClock (probe c) (current c) (ts_flush c) (updated c) (wadd (current c) KCP_PROBE_INIT) KCP_PROBE_INIT (link_state c)
       else if (0 <=? timediff (current c) (ts_probe c))%Z then
         let w := Z.max (probe_wait c) KCP_PROBE_INIT in
         let w := Z.min (wadd w (w / 2)) KCP_PROBE_LIMIT in
         mkClock (Z.lor (probe c) KCP_ASK_SEND) (current c) (ts_flush c) (updated c) (wadd (current c) w) w (link_state c)
       else c
     else mkClock (probe c) (current c) (ts_flush c) (updated c) 0 0 (link_state c)).

(** The least time to a resend, [None] for one that is due. *)
Fixpoint resend_time (now : Z) (b : list KcpSegment) (tm : Z) : option Z :=
  match b with
  | [] => Some tm
  | seg :: b =>
      if acked seg || (xmit seg =? 0)%Z then resend_time now b tm
      else
        let diff := timediff (resendts seg) now in
        if (diff <=? 0)%Z then None else resend_time now b (Z.min tm diff)
  end.

Definition check (k : Kcp) (now : Z) : Z :=
  if negb (updated (clk k)) then 0
  else
    let ts := ts_flush (clk k) in
    let d := timediff now ts in
    let ts := if (10000 <=? d)%Z || (d <? -10000)%Z then now else ts in
    if (0 <=? timediff now ts)%Z then 0
    else match resend_time now (snd_buf (snd k)) u32_MAX with
    | None => 0
    | Some tm => Z.min (Z.min tm (timediff ts now)) (interval (cfg k))
    end.

(** ** Settings *)

Definition set_mtu (k : Kcp) (m : nat) : result KcpError unit * Kcp :=
  if (m <=? KCP_OVERHEAD) then (Err (InvalidMtu m), k)
  else
    let c := cfg k in
    (Ok tt, set_cfg k (mkConfig (conv c) m (m - KCP_OVERHEAD) (rx_minrto c) (snd_wnd c) (rcv_wnd c) (interval c)
       (nodelay c) (dead_link c) (fastresend c) (nocwnd c) (stream c) (input_conv c))).

Definition clamp_interval (i : Z) : Z := bound 10 i 5000.

Definition set_interval (k : Kcp) (i : Z) : Kcp :=
  let c := cfg k in
  set_cfg k (mkConfig (conv c) (mtu c) (mss c) (rx_minrto c) (snd_wnd c) (rcv_wnd c) (clamp_interval i)
    (nodelay c) (dead_link c) (fastresend c) (nocwnd c) (stream c) (input_conv c)).

Definition set_nodelay (k : Kcp) (nd : bool) (i resend : Z) (nc : bool) : Kcp :=
  let c := cfg k in
  set_cfg k (mkConfig (conv c) (mtu c) (mss c) (if nd then KCP_RTO_NDL else KCP_RTO_MIN) (snd_wnd c) (rcv_wnd c)
    (if (0 <=? i)%Z then clamp_interval i else interval c) nd (dead_link c)
    (if (0 <=? resend)%Z then resend else fastresend c) nc (stream c) (input_conv c)).

Definition set_wndsize (k : Kcp) (s r : Z) : Kcp :=
  let c := cfg k in
  set_cfg k (mkConfig (conv c) (mtu c) (mss c) (rx_minrto c) (if (0 <? s)%Z then s else snd_wnd c)
    (if (0 <? r)%Z then r else rcv_wnd c) (interval c)
    (nodelay c) (dead_link c) (fastresend c) (nocwnd c) (stream c) (input_conv c)).

Definition set_maximum_resend_times (k : Kcp) (d : Z) : Kcp :=
  let c := cfg k in
  set_cfg k (mkConfig (conv c) (mtu c) (mss c) (rx_minrto c) (snd_wnd c) (rcv_wnd c) (interval c)
    (nodelay c) d (fastresend c) (nocwnd c) (stream c) (input_conv c)).

Definition set_rx_minrto (k : Kcp) (r : Z) : Kcp :=
  let c := cfg k in
  set_cfg k (mkConfig (conv c) (mtu c) (mss c) r (snd_wnd c) (rcv_wnd c) (interval c)
    (nodelay c) (dead_link c) (fastresend c) (nocwnd c) (stream c) (input_conv c)).

Definition set_fast_resend (k : Kcp) (fr : Z) : Kcp :=
  let c := cfg k in
  set_cfg k (mkConfig (conv c) (mtu c) (mss c) (rx_minrto c) (snd_wnd c) (rcv_wnd c) (interval c)
    (nodelay c) (dead_link c) fr (nocwnd c) (stream c) (input_conv c)).

(** [set_conv], and the conversation taken over from the next input. *)
Definition take_conv (k : Kcp) (v : Z) (wait : bool) : Kcp :=
  let c := cfg k in
  set_cfg k (mkConfig v (mtu c) (mss c) (rx_minrto c) (snd_wnd c) (rcv_wnd c) (interval c)
    (nodelay c) (dead_link c) (fastresend c) (nocwnd c) (stream c) wait).

Definition set_conv (k : Kcp) (v : Z) : Kcp := take_conv k v (input_conv (cfg k)).
Definition set_input_conv (k : Kcp) : Kcp := take_conv k (conv (cfg k)) true.

Definition wait_snd (k : Kcp) : nat := length (snd_buf (snd k)) + length (snd_queue (snd k)).
Definition is_dead_link (k : Kcp) : bool := negb (link_state (clk k) =? 0)%Z.

(** ** Flushing *)

(** [output.write_all(&buf); buf.clear()]. *)
Definition write_out (o : Out) : Out := mkOut [] (output o ++ [buf o]).

(** Makes room for [need] bytes. *)
Definition make_room (m need : nat) (o : Out) : Out := if (m <? length (buf o) + need) then write_out o else o.

Definition put (seg : KcpSegment) (o : Out) : Out := mkOut (buf o ++ encode seg) (output o).

Definition set_sn_ts (seg : KcpSegment) (sn ts : Z) : KcpSegment :=
  mkSeg (seg_conv seg) (seg_cmd seg) (seg_frg seg) (seg_wnd seg) ts sn (seg_una seg)
    (resendts seg) (rto seg) (fastack seg) (xmit seg) (acked seg) (seg_data seg).

Definition set_cmd (seg : KcpSegment) (cmd : Z) : KcpSegment :=
  mkSeg (seg_conv seg) cmd (seg_frg seg) (seg_wnd seg) (seg_ts seg) (seg_sn seg) (seg_una seg)
    (resendts seg) (rto seg) (fastack seg) (xmit seg) (acked seg) (seg_data seg).

(** The pending acknowledgements; those the window already covers are left
    out, except the newest. [segment] keeps the number and time of the last. *)
Fixpoint ack_entries (m : nat) (nxt : Z) (acks : list (Z * Z)) (segment : KcpSegment) (o : Out) : KcpSegment * Out :=
  match acks with
  | [] => (segment, o)
  | (sn, ts) :: acks =>
      let o := make_room m KCP_OVERHEAD o in
      if (0 <=? timediff sn nxt)%Z || (if acks is [] then true else false) then
        let segment := set_sn_ts segment sn ts in
        ack_entries m nxt acks segment (put segment o)
      else ack_entries m nxt acks segment o
  end.

Definition flush_acks (k : Kcp) (segment : KcpSegment) : KcpSegment * Kcp :=
  let r := rcv k in
  let '(segment, o) := ack_entries (mtu (cfg k)) (rcv_nxt r) (acklist r) segment (out k) in
  (segment, set_out (set_rcv k (mkReceiver (rcv_nxt r) (rcv_queue r) (rcv_buf r) [])) o).

Definition flush_probe_command (cmd : Z) (segment : KcpSegment) (k : Kcp) : KcpSegment * Kcp :=
  let segment := set_cmd segment cmd in
  (segment, set_out k (put segment (make_room (mtu (cfg k)) KCP_OVERHEAD (out k)))).

Definition flush_probe_commands (segment : KcpSegment) (k : Kcp) : Kcp :=
  let '(segment, k) :=
    if negb (Z.land (probe (clk k)) KCP_ASK_SEND =? 0)%Z then flush_probe_command KCP_CMD_WASK segment k else (segment, k) in
  let '(segment, k) :=
    if negb (Z.land (probe (clk k)) KCP_ASK_TELL =? 0)%Z then flush_probe_command KCP_CMD_WINS segment k else (segment, k) in
  set_clk k (set_probe (clk k) 0).

(** Queued segments get their number and go in flight while the window has
    room: the sender and how many moved. *)
Definition number_segment (cv sn : Z) (seg : KcpSegment) : KcpSegment :=
  mkSeg cv KCP_CMD_PUSH (seg_frg seg) (seg_wnd seg) (seg_ts seg) sn (seg_una seg)
    (resendts seg) (rto seg) (fastack seg) (xmit seg) (acked seg) (seg_data seg).

Fixpoint slide_loop (cv window : Z) (una : Z) (q : list KcpSegment) (nxt : Z) (b : list KcpSegment) (moved : nat) :
    list KcpSegment * Z * list KcpSegment * nat :=
  match q with
  | seg :: q' =>
      if (timediff nxt (wadd una window) <? 0)%Z
      then slide_loop cv window una q' (wadd nxt 1) (b ++ [number_segment cv nxt seg]) (S moved)
      else (q, nxt, b, moved)
  | [] => ([], nxt, b, moved)
  end.

Definition slide (cv window : Z) (s : Sender) : Sender * nat :=
  let '(q, nxt, b, moved) := slide_loop cv window (snd_una s) (snd_queue s) (snd_nxt s) (snd_buf s) 0 in
  (mkSender (snd_una s) nxt q b, moved).

(** How a segment in flight goes out. *)
Inductive Resend := NotDue | First | Fast | Timeout.

Definition resend_kind (k : Kcp) (resent : Z) (new_segs : nat) (seg : KcpSegment) : Resend :=
  if (xmit seg =? 0)%Z then First
  else if (resent <=? fastack seg)%Z && negb (fastack seg =? u32_MAX)%Z then Fast
  else if (0 <? fastack seg)%Z && negb (fastack seg =? u32_MAX)%Z && (new_segs =? 0) then Fast
  else if (0 <=? timediff (current (clk k)) (resendts seg))%Z then Timeout
  else NotDue.

Definition schedule (k : Kcp) (kind : Resend) (seg : KcpSegment) : KcpSegment :=
  let now := current (clk k) in
  let timeout :=
    match kind with
    | Timeout => wadd (rto seg) (if nodelay (cfg k) then rx_rto (rtt k) / 2 else rx_rto (rtt k))%Z
    | _ => rx_rto (rtt k)
    end in
  let fa := match kind with Fast => u32_MAX | Timeout => 0%Z | _ => fastack seg end in
  mkSeg (seg_conv seg) (seg_cmd seg) (seg_frg seg) (wnd_unused k) now (seg_sn seg) (rcv_nxt (rcv k))
    (wadd now timeout) timeout fa (wadd (xmit seg) 1) (acked seg) (seg_data seg).

(** What the pass over the segments in flight leaves: the segments, the
    datagrams, whether one was lost, how many were resent early, and whether
    the link is dead. *)
Record Pass := mkPass { p_out : Out; p_lost : bool; p_change : nat; p_dead : bool }.

Fixpoint flush_segments (k : Kcp) (resent : Z) (new_segs : nat) (b : list KcpSegment) (p : Pass) : list KcpSegment * Pass :=
  match b with
  | [] => ([], p)
  | seg :: b =>
      if acked seg then let '(b, p) := flush_segments k resent new_segs b p in (seg :: b, p)
      else
        match resend_kind k resent new_segs seg with
        | NotDue => let '(b, p) := flush_segments k resent new_segs b p in (seg :: b, p)
        | kind =>
            let seg := schedule k kind seg in
            let o := put seg (make_room (mtu (cfg k)) (encoded_len seg) (p_out p)) in
            let p := mkPass o (p_lost p || match kind with Timeout => true | _ => false end)
              (p_change p + match kind with Fast => 1 | _ => 0 end)
              (p_dead p || (dead_link (cfg k) <=? xmit seg)%Z) in
            let '(b, p) := flush_segments k resent new_segs b p in (seg :: b, p)
        end
  end.

Inductive FlushType := AckOnly | Full.

(** The congestion window after a flush. *)
Definition flush_cwnd (k : Kcp) (resent window : Z) (lost : bool) (change : nat) : Congestion :=
  let m := w32 (Z.of_nat (mss (cfg k))) in
  let c := cc k in
  let c :=
    if (0 <? change) then
      let inflight := wsub (snd_nxt (snd k)) (snd_una (snd k)) in
      let th := Z.max (inflight / 2) KCP_THRESH_MIN in
      let w := wadd th resent in mkCongestion th (rmt_wnd c) w (wmul w m)
    else c in
  let c := if lost then mkCongestion (Z.max (window / 2) KCP_THRESH_MIN) (rmt_wnd c) 1 m else c in
  if (cwnd c <? 1)%Z then mkCongestion (ssthresh c) (rmt_wnd c) 1 m else c.

Definition flush_inner (k : Kcp) (flush_type : FlushType) : Kcp :=
  let segment := mkSeg (conv (cfg k)) KCP_CMD_ACK 0 (wnd_unused k) 0 0 (rcv_nxt (rcv k)) 0 0 0 0 false [] in
  let '(segment, k) := flush_acks k segment in
  let k := probe_wnd_size k in
  let k := flush_probe_commands segment k in
  let window := Z.min (snd_wnd (cfg k)) (rmt_wnd (cc k)) in
  let window := if nocwnd (cfg k) then window else Z.min (cwnd (cc k)) window in
  let '(s, new_segs) := slide (conv (cfg k)) window (snd k) in
  let k := set_snd k s in
  let resent := if (0 <? fastresend (cfg k))%Z then fastresend (cfg k) else u32_MAX in
  let start := mkPass (out k) false 0 false in
  let '(b, p) :=
    match flush_type with
    | Full => flush_segments k resent new_segs (snd_buf (snd k)) start
    | AckOnly => (snd_buf (snd k), start)
    end in
  let o := if (length (buf (p_out p)) =? 0) then p_out p else write_out (p_out p) in
  let k := set_out (set_snd k (set_buf (snd k) b)) o in
  let c := clk k in
  let k := if p_dead p then set_clk k (mkClock (probe c) (current c) (ts_flush c) (updated c) (ts_probe c) (probe_wait c) (-1)) else k in
  if nocwnd (cfg k) then k else set_cc k (flush_cwnd k resent window (p_lost p) (p_change p)).

Definition flush_ack (k : Kcp) : result KcpError unit * Kcp :=
  if negb (updated (clk k)) then (Err NeedUpdate, k) else (Ok tt, flush_inner k AckOnly).

Definition flush (k : Kcp) : result KcpError unit * Kcp :=
  if negb (updated (clk k)) then (Err NeedUpdate, k) else (Ok tt, flush_inner k Full).

Definition update (k : Kcp) (now : Z) : result KcpError unit * Kcp :=
  let c := clk k in
  let ts := if updated c then ts_flush c else now in
  let slap := timediff now ts in
  let '(ts, slap) := if (slap <? -10000)%Z || (10000 <=? slap)%Z then (now, 0%Z) else (ts, slap) in
  let set_ts ts := set_clk k (mkClock (probe c) now ts true (ts_probe c) (probe_wait c) (link_state c)) in
  if (0 <=? slap)%Z then
    let ts := wadd ts (interval (cfg k)) in
    let ts := if (0 <=? timediff now ts)%Z then wadd now (interval (cfg k)) else ts in
    flush (set_ts ts)
  else (Ok tt, set_ts ts).

(** ** Input *)

(** The header of a segment: its fields, the declared length and the rest. *)
Definition decode_header (b : bytes) : KcpSegment * Z * bytes :=
  let f off n := from_le_bytes (take n (drop off b)) in
  (mkSeg (f 0 4) (f 4 1) (f 5 1) (f 6 2) (f 8 4) (f 12 4) (f 16 4) 0 0 0 0 false [], f 20 4, drop KCP_OVERHEAD b).

Definition with_data (seg : KcpSegment) (d : bytes) : KcpSegment :=
  mkSeg (seg_conv seg) (seg_cmd seg) (seg_frg seg) (seg_wnd seg) (seg_ts seg) (seg_sn seg) (seg_una seg)
    (resendts seg) (rto seg) (fastack seg) (xmit seg) (acked seg) d.

(** The time of the newest acknowledgement, and whether to flush at once. *)
Record Scan := mkScan { latest : option Z; flush_now : bool }.

Definition known_cmd (cmd : Z) : bool :=
  (cmd =? KCP_CMD_PUSH)%Z || (cmd =? KCP_CMD_ACK)%Z || (cmd =? KCP_CMD_WASK)%Z || (cmd =? KCP_CMD_WINS)%Z.

(** A segment with a known command. *)
Definition input_segment (regular : bool) (seg : KcpSegment) (k : Kcp) (sc : Scan) : Kcp * Scan :=
  let c := cc k in
  let k := if regular then set_cc k (mkCongestion (ssthresh c) (seg_wnd seg) (cwnd c) (incr c)) else k in
  let '(count, s) := parse_una (snd k) (seg_una seg) in
  let sc := mkScan (latest sc) (flush_now sc || (0 <? count)) in
  let k := set_snd k (shrink_buf s) in
  let sn := seg_sn seg in
  if (seg_cmd seg =? KCP_CMD_ACK)%Z then
    let s := parse_ack (snd k) sn in
    let '(tripped, s) := parse_fastack (fastresend (cfg k)) s sn (seg_ts seg) in
    (set_snd k s, mkScan (Some (seg_ts seg)) (flush_now sc || tripped))
  else if (seg_cmd seg =? KCP_CMD_PUSH)%Z then
    if (timediff sn (wadd (rcv_nxt (rcv k)) (rcv_wnd (cfg k))) <? 0)%Z then
      let k := set_rcv k (ack_push (rcv k) sn (seg_ts seg)) in
      (if (0 <=? timediff sn (rcv_nxt (rcv k)))%Z then parse_data k seg else k, sc)
    else (k, sc)
  else if (seg_cmd seg =? KCP_CMD_WASK)%Z then
    (set_clk k (set_probe (clk k) (Z.lor (probe (clk k)) KCP_ASK_TELL)), sc)
  else (k, sc).

(** The segments of a datagram: an error leaves what was done before it. *)
Fixpoint input_loop (fuel : nat) (regular : bool) (b : bytes) (k : Kcp) (sc : Scan) :
    result KcpError (bytes * Scan) * Kcp :=
  if (length b <? KCP_OVERHEAD) then (Ok (b, sc), k)
  else match fuel with
  | 0 => (Ok (b, sc), k)
  | S fuel =>
      let '(seg, len, rest) := decode_header b in
      if negb (seg_conv seg =? conv (cfg k))%Z && negb (input_conv (cfg k))
      then (Err (ConvInconsistent (conv (cfg k)) (seg_conv seg)), k)
      else
        let k := if (seg_conv seg =? conv (cfg k))%Z then k else take_conv k (seg_conv seg) false in
        if (Z.of_nat (length rest) <? len)%Z then (Err (InvalidSegmentDataSize len (Z.of_nat (length rest))), k)
        else if negb (known_cmd (seg_cmd seg)) then (Err (UnsupportedCmd (seg_cmd seg)), k)
        else
          let n := Z.to_nat len in
          let '(k, sc) := input_segment regular (with_data seg (take n rest)) k sc in
          input_loop fuel regular (drop n rest) k sc
  end.

Definition sample_rtt (regular : bool) (latest : option Z) (k : Kcp) : Kcp :=
  match latest with
  | Some ts =>
      let sample := timediff (current (clk k)) ts in
      if regular && (0 <=? sample)%Z then update_ack k sample else k
  | None => k
  end.

(** The congestion window after an input: [None] is a division by zero. *)
Definition grow_cwnd (k : Kcp) (old_una : Z) : option Congestion :=
  let c := cc k in
  let m := w32 (Z.of_nat (mss (cfg k))) in
  if negb (nocwnd (cfg k)) && (0 <? timediff (snd_una (snd k)) old_una)%Z && (cwnd c <? rmt_wnd c)%Z then
    w ← (if (cwnd c <? ssthresh c)%Z then Some (cwnd c + 1, wadd (incr c) m)%Z
         else
           let acc := Z.max (incr c) m in
           if (acc =? 0)%Z then None
           else
             let acc := wadd acc (wadd (wmul m m / acc) (m / 16)) in
             if (wmul (wadd (cwnd c) 1) m <=? acc)%Z then
               if (m =? 0)%Z then None else Some (wsub (wadd acc m) 1 / m, acc)%Z
             else Some (cwnd c, acc));
    let '(cw, acc) := w in
    Some (if (rmt_wnd c <? cw)%Z then mkCongestion (ssthresh c) (rmt_wnd c) (rmt_wnd c) (wmul (rmt_wnd c) m)
          else mkCongestion (ssthresh c) (rmt_wnd c) cw acc)
  else Some c.

(** The number of bytes taken off the datagram. *)
Definition input (k : Kcp) (b : bytes) (regular ack_nodelay : bool) : result KcpError nat * Kcp :=
  if (length b <? KCP_OVERHEAD) then (Err (InvalidSegmentSize (length b)), k)
  else
    let old_una := snd_una (snd k) in
    match input_loop (length b) regular b k (mkScan None false) with
    | (Err e, k) => (Err e, k)
    | (Ok (rest, sc), k) =>
        let k := sample_rtt regular (latest sc) k in
        match grow_cwnd k old_una with
        | None => (Err DivideByZero, k)
        | Some c =>
            let k := set_cc k c in
            let backlog := length (acklist (rcv k)) in
            let k :=
              if flush_now sc then flush_inner k Full
              else if (mtu (cfg k) / KCP_OVERHEAD <=? backlog) || (ack_nodelay && negb (backlog =? 0))
              then flush_inner k AckOnly else k in
            (Ok (length b - length rest), k)
        end
    end.

End Kcp.
