(* ===== verification/KcpWire.v ===== *)
(** * KCP on the wire

    What a peer reads of the segments an endpoint writes: the header and the
    data of each, one after the other, until the datagram ends. *)

From S2P Require Import Prelude Strings Bits Kcp.

Module KcpWire.
Import Kcp.

(** The fields of a segment that its header can carry. *)
Record seg_range (s : KcpSegment) : Prop := mkRange {
  range_conv : (0 <= seg_conv s < 2 ^ 32)%Z;
  range_cmd : known_cmd (seg_cmd s) = true;
  range_frg : (0 <= seg_frg s < 256)%Z;
  range_wnd : (0 <= seg_wnd s < 65536)%Z;
  range_ts : (0 <= seg_ts s < 2 ^ 32)%Z;
  range_sn : (0 <= seg_sn s < 2 ^ 32)%Z;
  range_una : (0 <= seg_una s < 2 ^ 32)%Z;
  range_len : (Z.of_nat (length (seg_data s)) < 2 ^ 32)%Z;
}.

(** What arrives of a segment. *)
Definition wire (s : KcpSegment) : KcpSegment :=
  mkSeg (seg_conv s) (seg_cmd s) (seg_frg s) (seg_wnd s) (seg_ts s) (seg_sn s) (seg_una s) 0 0 0 0 false (seg_data s).

Definition encode_all (segs : list KcpSegment) : bytes := mjoin (encode <$> segs).

(** The segments of a datagram, one by one. *)
Fixpoint input_segments (regular : bool) (segs : list KcpSegment) (k : Kcp) (sc : Scan) : Kcp * Scan :=
  match segs with
  | [] => (k, sc)
  | seg :: segs => let '(k, sc) := input_segment regular (wire seg) k sc in input_segments regular segs k sc
  end.

Lemma known_cmd_range cmd : known_cmd cmd = true -> (0 <= cmd < 256)%Z.
Proof.
  unfold known_cmd, KCP_CMD_PUSH, KCP_CMD_ACK, KCP_CMD_WASK, KCP_CMD_WINS. rewrite !orb_true_iff, !Z.eqb_eq. lia.
Qed.

Lemma encode_length s : length (encode s) = KCP_OVERHEAD + length (seg_data s).
Proof. unfold encode. rewrite !length_app, !to_le_bytes_length. done. Qed.

Lemma encode_all_cons s segs : encode_all (s :: segs) = encode s ++ encode_all segs.
Proof. done. Qed.

Lemma encode_all_snoc segs s : encode_all (segs ++ [s]) = encode_all segs ++ encode s.
Proof. unfold encode_all. rewrite fmap_app, list.join_app. cbn. by rewrite app_nil_r. Qed.

Lemma decode_encode s rest :
  seg_range s ->
  decode_header (encode s ++ rest) = (with_data (wire s) [], Z.of_nat (length (seg_data s)), seg_data s ++ rest).
Proof.
  intros [H1 H2%known_cmd_range H3 H4 H5 H6 H7 H8]. unfold decode_header, with_data, wire. cbn [seg_conv seg_cmd seg_frg
    seg_wnd seg_ts seg_sn seg_una seg_data resendts rto fastack xmit acked].
  unfold encode. rewrite <- !app_assoc. f_equal; f_equal; [f_equal|].
  - exact (le_roundtrip_small 4 (seg_conv s) H1).
  - exact (le_roundtrip_small 1 (seg_cmd s) H2).
  - exact (le_roundtrip_small 1 (seg_frg s) H3).
  - exact (le_roundtrip_small 2 (seg_wnd s) H4).
  - exact (le_roundtrip_small 4 (seg_ts s) H5).
  - exact (le_roundtrip_small 4 (seg_sn s) H6).
  - exact (le_roundtrip_small 4 (seg_una s) H7).
  - apply (le_roundtrip_small 4 (Z.of_nat (length (seg_data s)))). lia.
Qed.

(** ** Input leaves the settings *)

Lemma move_buf_cfg k : cfg (move_buf k) = cfg k.
Proof. unfold move_buf. by destruct (move_loop _ _ _ _) as [[b q] nxt]. Qed.

Lemma parse_data_cfg k seg : cfg (parse_data k seg) = cfg k.
Proof. unfold parse_data. case_match; [done|]. by rewrite move_buf_cfg. Qed.

Lemma input_segment_cfg regular seg k sc : cfg (input_segment regular seg k sc).1 = cfg k.
Proof.
  unfold input_segment. destruct regular, (parse_una _ _) as [n s]; cbn [snd set_snd].
  all: repeat (case_match; cbn [fst cfg set_snd set_rcv set_clk set_cc]; try done).
  all: rewrite ?parse_data_cfg; done.
Qed.

(** ** Datagrams *)

Lemma input_segments_cfg regular segs k sc : cfg (input_segments regular segs k sc).1 = cfg k.
Proof.
  revert k sc. induction segs as [|seg segs IH]; intros k sc; [done|]. cbn [input_segments].
  pose proof (input_segment_cfg regular (wire seg) k sc) as Hc.
  destruct (input_segment _ _ _ _) as [k' sc']. by rewrite IH.
Qed.

(** The loop of [input] takes the segments of a datagram one by one, and all
    of them. *)
Lemma input_loop_encoded regular fuel segs k sc :
  Forall (fun seg => seg_range seg /\ seg_conv seg = conv (cfg k)) segs ->
  length (encode_all segs) <= fuel ->
  input_loop fuel regular (encode_all segs) k sc =
    let '(k, sc) := input_segments regular segs k sc in (Ok ([], sc), k).
Proof.
  revert fuel k sc. induction segs as [|seg segs IH]; intros fuel k sc Hall Hfuel; [by destruct fuel|].
  apply Forall_cons in Hall as [[Hr Hc] Hall]. rewrite encode_all_cons in *.
  rewrite length_app, encode_length in Hfuel. destruct fuel as [|fuel]; [unfold KCP_OVERHEAD in *; lia|].
  cbn [input_loop]. rewrite length_app, encode_length.
  destruct (Nat.ltb_spec (KCP_OVERHEAD + length (seg_data seg) + length (encode_all segs)) KCP_OVERHEAD); [lia|].
  rewrite decode_encode by done. cbn [with_data wire seg_conv seg_cmd]. rewrite Hc, Z.eqb_refl. cbn [negb andb].
  destruct (Z.ltb_spec (Z.of_nat (length (seg_data seg ++ encode_all segs))) (Z.of_nat (length (seg_data seg))));
    [rewrite length_app in *; lia|].
  rewrite (range_cmd _ Hr). cbn [negb input_segments]. rewrite Nat2Z.id, take_app_length, drop_app_length.
  change (with_data (mkSeg _ _ _ _ _ _ _ _ _ _ _ _ _) _) with (with_data (with_data (wire seg) []) (seg_data seg)).
  change (with_data (with_data (wire seg) []) (seg_data seg)) with (wire seg).
  pose proof (input_segment_cfg regular (wire seg) k sc) as Hk.
  destruct (input_segment _ _ _ _) as [k' sc']. cbn [fst] in Hk. apply IH; [|unfold KCP_OVERHEAD in *; lia].
  by rewrite Hk.
Qed.

End KcpWire.
