(* ===== verification/KcpInv.v ===== *)
(** * Invariants of a KCP endpoint

    The state of an endpoint relative to the payloads that it and its peer
    have numbered so far, the two [history] lists: segment [n] carries the
    [n]-th payload. The sender keeps what the peer lacks, the receiver holds
    what it acknowledges, and every datagram tells the truth about both.
    Sequence numbers stay below [seq_limit], so that none wraps. *)

From S2P Require Import Prelude Strings Bits Kcp KcpWire.

Module KcpInv.
Import Kcp KcpWire.

(** ** Words that do not wrap *)

Definition seq_limit : Z := 2 ^ 30.

Lemma timediff_small a b : (- 2 ^ 31 <= a - b < 2 ^ 31)%Z -> timediff a b = (a - b)%Z.
Proof. intros H. unfold timediff, to_i32, w32. rewrite Z.mod_small by lia. lia. Qed.

Lemma wadd_small a b : (0 <= a + b < 2 ^ 32)%Z -> wadd a b = (a + b)%Z.
Proof. apply Z.mod_small. Qed.

(** ** Histories *)

Definition payload (seg : KcpSegment) : Z * bytes := (seg_frg seg, seg_data seg).

Notation history := (list (Z * bytes)).

Definition nth_seg (H : history) (n : Z) : option (Z * bytes) := if (n <? 0)%Z then None else H !! Z.to_nat n.

Definition payload_ok (p : Z * bytes) : Prop :=
  (0 <= p.1 < 256)%Z /\ p.2 <> [] /\ (Z.of_nat (length p.2) < 2 ^ 32)%Z.

(** The receiver has segment [n]. *)
Definition has (r : Receiver) (n : Z) : Prop := (n < rcv_nxt r)%Z \/ exists seg, seg ∈ rcv_buf r /\ seg_sn seg = n.

(** A receiver later on. *)
Definition later (r r' : Receiver) : Prop := (rcv_nxt r <= rcv_nxt r')%Z /\ forall n, has r n -> has r' n.

#[export] Instance later_preorder : PreOrder later.
Proof. split; [done|]. intros r1 r2 r3 [H1 H2] [H3 H4]. split; [lia|auto]. Qed.

Lemma nth_seg_range H n p : nth_seg H n = Some p -> (0 <= n < Z.of_nat (length H))%Z.
Proof. unfold nth_seg. case_match; [done|]. intros ?%lookup_lt_Some. lia. Qed.

Lemma nth_seg_prefix H H' n p : H `prefix_of` H' -> nth_seg H n = Some p -> nth_seg H' n = Some p.
Proof. intros HH. unfold nth_seg. case_match; [done|]. intros. by eapply prefix_lookup_Some. Qed.

Lemma nth_seg_snoc H p : nth_seg (H ++ [p]) (Z.of_nat (length H)) = Some p.
Proof.
  unfold nth_seg. destruct (Z.ltb_spec (Z.of_nat (length H)) 0); [lia|].
  rewrite Nat2Z.id, lookup_app_r by done. by rewrite Nat.sub_diag.
Qed.

Lemma nth_seg_payload H n p : Forall payload_ok H -> nth_seg H n = Some p -> payload_ok p.
Proof. unfold nth_seg. case_match; [done|]. intros HH ?. by eapply Forall_lookup_1. Qed.

Lemma take_nth_seg H n p :
  nth_seg H n = Some p -> take (Z.to_nat (n + 1)) H = take (Z.to_nat n) H ++ [p].
Proof.
  unfold nth_seg. destruct (Z.ltb_spec n 0); [done|]. intros Hp.
  replace (Z.to_nat (n + 1)) with (S (Z.to_nat n)) by lia. by apply take_S_r.
Qed.

(** ** The three parts of an endpoint *)

Section Endpoint.
Context (cv : Z).

(** A segment in flight: one the peer has acknowledged, or one that can be
    sent again. *)
Definition flight_ok (H : history) (pr : Receiver) (n : Z) (seg : KcpSegment) : Prop :=
  seg_conv seg = cv /\ seg_cmd seg = KCP_CMD_PUSH /\ seg_sn seg = n /\
  if acked seg then has pr n else nth_seg H n = Some (payload seg).

Fixpoint in_flight (H : history) (pr : Receiver) (n : Z) (b : list KcpSegment) : Prop :=
  match b with
  | [] => n = Z.of_nat (length H)
  | seg :: b => flight_ok H pr n seg /\ in_flight H pr (n + 1) b
  end.

(** All that was accepted for sending. *)
Definition accepted (s : Sender) (H : history) : history := H ++ (payload <$> snd_queue s).

Record snd_ok (s : Sender) (H : history) (pr : Receiver) : Prop := mkSndOk {
  so_nxt : snd_nxt s = Z.of_nat (length H);
  so_una : (0 <= snd_una s <= rcv_nxt pr)%Z;
  so_buf : in_flight H pr (snd_una s) (snd_buf s);
  so_queue : Forall (fun seg => acked seg = false) (snd_queue s);
  so_payload : Forall payload_ok (accepted s H);
}.

(** The segments received ahead of order, from number [n] on. *)
Fixpoint ahead (G : history) (n : Z) (b : list KcpSegment) : Prop :=
  match b with
  | [] => True
  | seg :: b =>
      (n <= seg_sn seg)%Z /\ nth_seg G (seg_sn seg) = Some (payload seg) /\ ahead G (seg_sn seg + 1) b
  end.

Definition ack_ok (r : Receiver) (a : Z * Z) : Prop :=
  has r a.1 /\ (0 <= a.1 < 2 ^ 32)%Z /\ (0 <= a.2 < 2 ^ 32)%Z.

(** [D] is what was handed to the application. *)
Record rcv_ok (r : Receiver) (G D : history) : Prop := mkRcvOk {
  ro_nxt : (0 <= rcv_nxt r <= Z.of_nat (length G))%Z;
  ro_queue : D ++ (payload <$> rcv_queue r) = take (Z.to_nat (rcv_nxt r)) G;
  ro_buf : ahead G (rcv_nxt r) (rcv_buf r);
  ro_acks : Forall (ack_ok r) (acklist r);
}.

(** What an endpoint says in a segment is true, and stays so. *)
Record seg_ok (r : Receiver) (H : history) (seg : KcpSegment) : Prop := mkSegOk {
  sg_range : seg_range seg;
  sg_conv : seg_conv seg = cv;
  sg_una : (0 <= seg_una seg <= rcv_nxt r)%Z;
  sg_push : seg_cmd seg = KCP_CMD_PUSH -> nth_seg H (seg_sn seg) = Some (payload seg);
  sg_ack : seg_cmd seg = KCP_CMD_ACK -> has r (seg_sn seg);
}.

Definition datagram_ok (r : Receiver) (H : history) (d : bytes) : Prop :=
  exists segs, d = encode_all segs /\ Forall (seg_ok r H) segs.

Record out_ok (r : Receiver) (H : history) (o : Out) : Prop := mkOutOk {
  oo_buf : datagram_ok r H (buf o);
  oo_output : Forall (datagram_ok r H) (output o);
}.

Record cfg_ok (c : Config) : Prop := mkCfgOk {
  co_conv : conv c = cv;
  co_range : (0 <= cv < 2 ^ 32)%Z;
  co_input : input_conv c = false;
  co_wnd : (0 <= rcv_wnd c <= seq_limit)%Z;
  co_mss : (0 < Z.of_nat (mss c) < 2 ^ 32)%Z;
}.

(** An endpoint between two calls, with its history [H], that of its peer
    [G], what it delivered [D], and the state of the peer's receiver. *)
Record good (k : Kcp) (H G D : history) (pr : Receiver) : Prop := mkGood {
  g_cfg : cfg_ok (cfg k);
  g_now : (0 <= current (clk k) < 2 ^ 32)%Z;
  g_snd : snd_ok (snd k) H pr;
  g_rcv : rcv_ok (rcv k) G D;
  g_out : out_ok (rcv k) H (out k);
}.

(** ** Growth of the histories *)

Lemma in_flight_later H pr pr' n b : later pr pr' -> in_flight H pr n b -> in_flight H pr' n b.
Proof.
  intros [_ Hh]. revert n. induction b as [|seg b IH]; intros n; [done|]. intros [(?&?&?&Hs) Hb].
  split; [|by apply IH]. split_and!; [done..|]. destruct (acked seg); auto.
Qed.

Lemma snd_ok_later s H pr pr' : later pr pr' -> snd_ok s H pr -> snd_ok s H pr'.
Proof.
  intros Hl [H1 H2 H3 H4 H5]. split; [done| |by eapply in_flight_later|done..]. destruct Hl. lia.
Qed.

Lemma ahead_prefix G G' n b : G `prefix_of` G' -> ahead G n b -> ahead G' n b.
Proof.
  intros HG. revert n. induction b as [|seg b IH]; intros n; [done|]. intros (?&?&?).
  split_and!; [done|by eapply nth_seg_prefix|auto].
Qed.

Lemma rcv_ok_prefix r G G' D : G `prefix_of` G' -> rcv_ok r G D -> rcv_ok r G' D.
Proof.
  intros HG [H1 H2 H3 H4]. split; [|rewrite H2|by eapply ahead_prefix|done].
  - apply prefix_length in HG. lia.
  - destruct HG as [t ->]. rewrite take_app_le by lia. done.
Qed.

Lemma seg_ok_mono r r' H H' seg : later r r' -> H `prefix_of` H' -> seg_ok r H seg -> seg_ok r' H' seg.
Proof.
  intros [Hn Hh] HH [H1 H2 H3 H4 H5]. split; [done|done|lia| |auto]. intros ?. eapply nth_seg_prefix; eauto.
Qed.

Lemma datagram_ok_mono r r' H H' d : later r r' -> H `prefix_of` H' -> datagram_ok r H d -> datagram_ok r' H' d.
Proof.
  intros ?? (segs&->&Hs). exists segs. split; [done|]. eapply Forall_impl; [done|]. intros. by eapply seg_ok_mono.
Qed.

Lemma out_ok_mono r r' H H' o : later r r' -> H `prefix_of` H' -> out_ok r H o -> out_ok r' H' o.
Proof.
  intros ?? [H1 H2]. split; [by eapply datagram_ok_mono|]. eapply Forall_impl; [done|].
  intros. by eapply datagram_ok_mono.
Qed.

End Endpoint.

End KcpInv.
