(* ===== verification/KcpOps.v ===== *)
(** * The operations of a KCP endpoint

    Each operation keeps the endpoint's invariant: the receiving side, the
    sending side, flushing, taking in a datagram and queueing data. *)

From S2P Require Import Prelude Strings Bits Kcp KcpWire KcpInv.

(** ** The receiving side of KCP

    The operations on the receive queue and the buffer of segments ahead of
    order keep [rcv_ok], forget nothing the receiver has, and hand the data
    over in order. *)

Module KcpReceiver.
Import Kcp KcpWire KcpInv.

Lemma ack_ok_later r r' a : later r r' -> ack_ok r a -> ack_ok r' a.
Proof. intros [_ Hh] [? ?]. split; auto. Qed.

Lemma acks_later r r' l : later r r' -> Forall (ack_ok r) l -> Forall (ack_ok r') l.
Proof. intros Hl HF. eapply Forall_impl; [done|]. intros a. by apply ack_ok_later. Qed.

Lemma ahead_weaken G m n b : (m <= n)%Z -> ahead G n b -> ahead G m b.
Proof. destruct b; [done|]. cbn. intros ? (?&?&?). split_and!; [lia|done..]. Qed.

Lemma ahead_above G n b seg : ahead G n b -> seg ∈ b -> (n <= seg_sn seg)%Z.
Proof.
  revert n. induction b as [|s b IH]; intros n; [by intros ? ?%not_elem_of_nil|].
  intros (?&?&Hb) [->|Hin]%elem_of_cons; [done|]. specialize (IH _ Hb Hin). lia.
Qed.

(** ** [move_buf] *)

Lemma move_loop_ok k (G D : history) acks b q nxt b' q' nxt' :
  (Z.of_nat (length G) < 2 ^ 32)%Z ->
  move_loop k b q nxt = (b', q', nxt') ->
  rcv_ok (mkReceiver nxt q b acks) G D ->
  rcv_ok (mkReceiver nxt' q' b' acks) G D /\ later (mkReceiver nxt q b acks) (mkReceiver nxt' q' b' acks).
Proof.
  intros HG. revert q nxt. induction b as [|seg b IH]; intros q nxt; cbn [move_loop].
  { intros [= <- <- <-] ?. by split. }
  destruct (Z.eqb_spec (seg_sn seg) nxt) as [Hsn|]; [|by intros [= <- <- <-] ?; split].
  destruct (queue_has_room k q); [|by intros [= <- <- <-] ?; split]. cbn [andb]. intros Hm [H1 H2 H3 H4].
  cbn [rcv_nxt rcv_queue rcv_buf acklist] in *. destruct H3 as (_&Hp&Hb). rewrite Hsn in *.
  pose proof (nth_seg_range _ _ _ Hp). rewrite wadd_small in Hm by lia.
  set (r0 := mkReceiver nxt q (seg :: b) acks). set (r1 := mkReceiver (nxt + 1) (q ++ [seg]) b acks).
  assert (Hl : later r0 r1).
  { split; [cbn; lia|]. unfold has, r0, r1; cbn [rcv_nxt rcv_buf]. intros n [?|(s&[->|Hin]%elem_of_cons&Hn)]; [lia|lia|].
    right. by exists s. }
  destruct (IH _ _ Hm) as [Hok Hl'].
  - split; cbn [rcv_nxt rcv_queue rcv_buf acklist]; [lia| |done|by eapply acks_later].
    rewrite fmap_app, app_assoc, H2. by rewrite (take_nth_seg _ _ _ Hp).
  - split; [done|]. by transitivity r1.
Qed.

Lemma move_buf_ok k (G D : history) :
  (Z.of_nat (length G) < 2 ^ 32)%Z -> rcv_ok (rcv k) G D ->
  rcv_ok (rcv (move_buf k)) G D /\ later (rcv k) (rcv (move_buf k)).
Proof.
  intros HG Hr. unfold move_buf. destruct (move_loop _ _ _ _) as [[b q] nxt] eqn:Hm.
  destruct (rcv k) as [n q0 b0 acks]. cbn. by eapply move_loop_ok.
Qed.

(** ** [parse_data] *)

Lemma ahead_snoc G n b s :
  ahead G n (b ++ [s]) <->
  ahead G n b /\ Forall (fun x => (seg_sn x < seg_sn s)%Z) b /\ (n <= seg_sn s)%Z /\
  nth_seg G (seg_sn s) = Some (payload s).
Proof.
  revert n. induction b as [|x b IH]; intros n; cbn [app ahead]; [naive_solver|].
  rewrite IH, Forall_cons. split; [|intuition lia].
  intros (?&?&?&?&?&?). split_and!; try done; lia.
Qed.

Section Insert.
Context (G : history) (seg : KcpSegment) (n0 : Z).
Hypothesis Hseg : nth_seg G (seg_sn seg) = Some (payload seg).
Hypothesis Hlim : (Z.of_nat (length G) < 2 ^ 31)%Z.
Hypothesis Hn0 : (n0 <= seg_sn seg)%Z.

Definition insert_at (i : nat) (b : list KcpSegment) : list KcpSegment := take i b ++ seg :: drop i b.

(** The place found from the back splits the buffer in order. *)
Lemma insert_index_spec b :
  ahead G n0 b ->
  match insert_index (seg_sn seg) (reverse b) with
  | Some i => i <= length b /\ ahead G n0 (insert_at i b)
  | None => exists s, s ∈ b /\ seg_sn s = seg_sn seg
  end.
Proof.
  pose proof (nth_seg_range _ _ _ Hseg).
  induction b as [|s b IH] using rev_ind; [cbn; intuition|]. intros (Hb&Hlt&Hs&Hp)%ahead_snoc.
  pose proof (nth_seg_range _ _ _ Hp). rewrite reverse_snoc. cbn [insert_index].
  destruct (Z.eqb_spec (seg_sn s) (seg_sn seg)) as [|Hne].
  { exists s. split; [|done]. apply elem_of_app. right. by apply list_elem_of_singleton. }
  rewrite timediff_small by lia. destruct (Z.ltb_spec 0 (seg_sn seg - seg_sn s)) as [Hgt|Hle].
  { cbn [length]. rewrite length_reverse, length_app. split; [cbn; lia|]. unfold insert_at.
    rewrite take_ge, drop_ge by (rewrite length_app; cbn; lia). apply ahead_snoc. split_and!; [|apply Forall_app|..]; try done.
    - by apply ahead_snoc.
    - split; [|apply Forall_singleton; lia]. eapply Forall_impl; [done|]. cbn. intros; lia. }
  specialize (IH Hb). destruct (insert_index _ _) as [i|].
  - destruct IH as [Hi Ha]. rewrite length_app. split; [lia|]. unfold insert_at in *.
    rewrite take_app_le, drop_app_le by done. rewrite app_comm_cons, app_assoc. apply ahead_snoc. split_and!; try done.
    rewrite <- (take_drop i b) in Hlt. apply Forall_app in Hlt as [??]. apply Forall_app. split; [done|].
    constructor; [lia|done].
  - destruct IH as (x&Hx&?). exists x. split; [|done]. apply elem_of_app. by left.
Qed.
End Insert.

(** A segment of the peer within the window is had from then on. *)
Lemma parse_data_ok k (G D : history) seg :
  rcv_ok (rcv k) G D -> nth_seg G (seg_sn seg) = Some (payload seg) ->
  (Z.of_nat (length G) < seq_limit)%Z -> (0 <= rcv_wnd (cfg k) <= seq_limit)%Z ->
  let r := rcv (parse_data k seg) in
  rcv_ok r G D /\ later (rcv k) r /\
  ((seg_sn seg < rcv_nxt (rcv k) + rcv_wnd (cfg k))%Z -> has r (seg_sn seg)).
Proof.
  intros Hr Hp HG Hw. pose proof (nth_seg_range _ _ _ Hp). unfold seq_limit in *.
  pose proof (ro_nxt _ _ _ Hr). unfold parse_data. rewrite wadd_small, !timediff_small by lia.
  destruct (Z.leb_spec 0 (seg_sn seg - (rcv_nxt (rcv k) + rcv_wnd (cfg k)))) as [|Hin].
  { cbn. split_and!; [done|done|lia]. }
  destruct (Z.ltb_spec (seg_sn seg - rcv_nxt (rcv k)) 0) as [|Hnew].
  { cbn. split_and!; [done|done|]. intros _. left. lia. }
  cbn [orb]. set (b := match insert_index _ _ with Some i => _ | None => _ end).
  set (r1 := mkReceiver _ _ b _).
  assert (H1 : rcv_ok r1 G D /\ later (rcv k) r1 /\ has r1 (seg_sn seg)).
  { destruct Hr as [H1 H2 H3 H4]. pose proof (insert_index_spec G seg (rcv_nxt (rcv k)) Hp ltac:(lia) ltac:(lia) _ H3) as Hi.
    assert (Hsub : forall x, x ∈ rcv_buf (rcv k) -> x ∈ b).
    { intros x Hx. unfold b. destruct (insert_index _ _) as [i|]; [|done].
      rewrite <- (take_drop i (rcv_buf (rcv k))) in Hx. rewrite elem_of_app in *. rewrite elem_of_cons. tauto. }
    assert (Hl : later (rcv k) r1).
    { split; [done|]. intros n [?|(x&Hx&?)]; [by left|]. right. exists x. split; [by apply Hsub|done]. }
    split_and!; [|done|].
    - split; [done|done| |by eapply acks_later]. cbn. unfold b. destruct (insert_index _ _); [apply Hi|done].
    - right. unfold r1, b; cbn [rcv_buf]. destruct (insert_index _ _) as [i|]; [|done]. exists seg. split; [|done].
      rewrite elem_of_app, elem_of_cons. auto. }
  destruct H1 as (H1&H2&H3). destruct (move_buf_ok (set_rcv k r1) G D ltac:(lia) H1) as [H4 H5].
  cbn [rcv set_rcv] in *. split_and!; [done|by transitivity r1|]. intros _. by apply H5.
Qed.

(** ** [recv] *)

Lemma merge_payload q d rest :
  merge q = (d, rest) -> exists h, q = h ++ rest /\ d = mjoin (seg_data <$> h).
Proof.
  revert d. induction q as [|seg q IH]; intros d; cbn [merge]; [intros [= <- <-]; by exists []|].
  destruct (seg_frg seg =? 0)%Z.
  { intros [= <- <-]. exists [seg]. cbn. by rewrite app_nil_r. }
  destruct (merge q) as [d' rest']. intros [= <- ->]. destruct (IH _ eq_refl) as (h&->&->). by exists (seg :: h).
Qed.

(** What [recv] returns is the head of the queue, and nothing is lost. *)
Lemma recv_ok k (G D : history) room d k' :
  recv k room = (Ok d, k') -> rcv_ok (rcv k) G D -> (Z.of_nat (length G) < seq_limit)%Z ->
  exists h q, rcv_queue (rcv k) = h ++ q /\ merge (rcv_queue (rcv k)) = (d, q) /\ d = mjoin (seg_data <$> h) /\
    rcv_ok (rcv k') G (D ++ (payload <$> h)) /\ later (rcv k) (rcv k').
Proof.
  unfold recv. case_match; [done|]. destruct (peeksize k) as [n|]; [|done]. case_match; [done|].
  destruct (merge (rcv_queue (rcv k))) as [d' q] eqn:Hm. intros [= -> Hk] [H1 H2 H3 H4] HG. unfold seq_limit in *.
  pose proof (merge_payload _ _ _ Hm) as (h&Hq&Hd). set (r1 := mkReceiver (rcv_nxt (rcv k)) q (rcv_buf (rcv k)) (acklist (rcv k))).
  assert (Hr1 : rcv_ok r1 G (D ++ (payload <$> h))).
  { split; [done| |done|].
    - unfold r1; cbn. by rewrite <- app_assoc, <- fmap_app, <- Hq.
    - done. }
  destruct (move_buf_ok (set_rcv k r1) G _ ltac:(lia) Hr1) as [H5 H6].
  assert (Hr : rcv k' = rcv (move_buf (set_rcv k r1))) by (rewrite <- Hk; by case_match).
  rewrite Hr. exists h, q. split_and!; [done..|by transitivity r1].
Qed.

End KcpReceiver.

(** ** The sending side of KCP

    Acknowledgements drop or mark only what the peer has, the window hands
    numbers out in order, and every datagram that leaves tells the truth. *)

Module KcpSender.
Import Kcp KcpWire KcpInv.

Section Sender.
Context (cv : Z).
Implicit Types (H : history) (s : Sender) (pr : Receiver).

(** ** Acknowledgements *)

Lemma una_loop_spec H pr una n b c b' c' :
  (Z.of_nat (length H) < 2 ^ 31)%Z -> (0 <= una < 2 ^ 31)%Z -> (0 <= n)%Z ->
  in_flight cv H pr n b -> una_loop una b c = (b', c') ->
  exists n', (n <= n' <= Z.max n una)%Z /\ in_flight cv H pr n' b'.
Proof.
  intros HH Hu. revert n c. induction b as [|seg b IH]; intros n c Hn Hb; cbn [una_loop].
  { intros [= <- <-]. exists n. split; [lia|done]. }
  assert (Hlt : (n < Z.of_nat (length H))%Z).
  { clear -Hb. revert n Hb. induction b as [|x b IH] in seg |- *; cbn [in_flight]; intros n [_ Hb]; [lia|].
    specialize (IH x (n + 1)%Z Hb). lia. }
  destruct Hb as [Hs Hb]. destruct Hs as (?&?&Hsn&?). rewrite Hsn, timediff_small by lia.
  destruct (Z.ltb_spec 0 (una - n)).
  - intros He. destruct (IH (n + 1)%Z (S c) ltac:(lia) Hb He) as (n'&?&?). exists n'. split; [lia|done].
  - intros [= <- <-]. exists n. split; [lia|]. by repeat split.
Qed.

(** The window moves up to what the peer has received in order. *)
Lemma una_ok H pr s una c s' :
  snd_ok cv s H pr -> (Z.of_nat (length H) < 2 ^ 31)%Z -> (0 <= una <= rcv_nxt pr)%Z -> (rcv_nxt pr <= Z.of_nat (length H))%Z ->
  parse_una s una = (c, s') -> snd_ok cv (shrink_buf s') H pr.
Proof.
  intros [H1 H2 H3 H4 H5] HH Hu Hpr. unfold parse_una. destruct (una_loop _ _ _) as [b' c'] eqn:He. intros [= <- <-].
  destruct (una_loop_spec H pr una (snd_una s) _ _ _ _ HH ltac:(lia) ltac:(lia) H3 He) as (n'&Hn&Hb).
  assert (Hf : match b' with seg :: _ => seg_sn seg | [] => snd_nxt s end = n').
  { destruct b'; [by rewrite H1|]. destruct Hb as [(?&?&?&?) _]. done. }
  split; cbn; [done|rewrite Hf; lia|by rewrite Hf|done|done].
Qed.

Lemma ack_loop_ok H pr sn n b : has pr sn -> in_flight cv H pr n b -> in_flight cv H pr n (ack_loop sn b).
Proof.
  intros Hh. revert n. induction b as [|seg b IH]; intros n; [done|]. intros [Hs Hb]. cbn [ack_loop].
  destruct (Z.eqb_spec sn (seg_sn seg)) as [->|].
  - split; [|done]. destruct Hs as (?&?&<-&?). by repeat split.
  - case_match; [by split|]. split; [done|auto].
Qed.

Lemma parse_ack_ok H pr s sn : has pr sn -> snd_ok cv s H pr -> snd_ok cv (parse_ack s sn) H pr.
Proof.
  intros Hh Hs. unfold parse_ack. case_match; [done|]. destruct Hs. split; try done. by apply ack_loop_ok.
Qed.

Lemma fastack_loop_ok H pr th sn ts n b t b' :
  fastack_loop th sn ts b = (t, b') -> in_flight cv H pr n b -> in_flight cv H pr n b'.
Proof.
  revert n t b'. induction b as [|seg b IH]; intros n t b'; cbn [fastack_loop]; [by intros [= _ <-]|].
  destruct (timediff sn (seg_sn seg) <? 0)%Z; [by intros [= _ <-]|].
  destruct (fastack_loop th sn ts b) as [t' b1] eqn:Hf. case_match; intros [= _ <-] [Hs Hb]; (split; [done|by eapply IH]).
Qed.

Lemma parse_fastack_ok H pr th s sn ts t s' :
  parse_fastack th s sn ts = (t, s') -> snd_ok cv s H pr -> snd_ok cv s' H pr.
Proof.
  unfold parse_fastack. case_match; [by intros [= _ <-]|]. destruct (fastack_loop _ _ _ _) as [t' b] eqn:Hf.
  intros [= _ <-] []. split; try done. by eapply fastack_loop_ok.
Qed.

(** ** Numbering *)

Lemma in_flight_snoc H pr n b seg :
  acked seg = false -> in_flight cv H pr n b ->
  in_flight cv (H ++ [payload seg]) pr n (b ++ [number_segment cv (Z.of_nat (length H)) seg]).
Proof.
  intros Ha. revert n. induction b as [|x b IH]; intros n; cbn [in_flight app].
  - intros ->. rewrite length_app; cbn. split; [|lia]. unfold flight_ok. cbn. rewrite Ha.
    repeat split. apply (nth_seg_snoc H (payload seg)).
  - intros [(?&?&?&Hx) Hb]. split; [|auto]. split_and!; [done..|]. destruct (acked x); [done|].
    eapply nth_seg_prefix; [|done]. by apply prefix_app_r.
Qed.

Lemma slide_loop_ok H pr window una q nxt b m q' nxt' b' m' :
  slide_loop cv window una q nxt b m = (q', nxt', b', m') ->
  (Z.of_nat (length (H ++ (payload <$> q))) < seq_limit)%Z ->
  snd_ok cv (mkSender una nxt q b) H pr ->
  exists H', H `prefix_of` H' /\ snd_ok cv (mkSender una nxt' q' b') H' pr /\
    H' ++ (payload <$> q') = H ++ (payload <$> q).
Proof.
  unfold seq_limit. revert H nxt b m. induction q as [|seg q IH]; intros H nxt b m; cbn [slide_loop].
  { intros [= <- <- <- <-] _ Hs. by exists H. }
  destruct (timediff nxt (wadd una window) <? 0)%Z; [|by intros [= <- <- <- <-] _ Hs; exists H].
  intros Hl HH [H1 H2 H3 H4 H5]. cbn in H1, H2, H3, H4. unfold accepted in H5. cbn in H5.
  apply Forall_cons in H4 as [Ha Hq]. rewrite fmap_cons, length_app in HH. cbn in HH.
  rewrite wadd_small in Hl by lia.
  assert (Heq : forall l : history, (H ++ [payload seg]) ++ l = H ++ payload seg :: l) by (intros; by rewrite <- app_assoc).
  destruct (IH (H ++ [payload seg]) _ _ _ Hl) as (H'&Hp&Hs'&He).
  - rewrite Heq, length_app. cbn. lia.
  - split; cbn; [rewrite length_app; cbn; lia|done|rewrite H1; by apply in_flight_snoc|done|].
    unfold accepted; cbn. by rewrite Heq.
  - exists H'. split_and!; [|done|by rewrite He, Heq]. etransitivity; [|done]. by apply prefix_app_r.
Qed.

Lemma slide_ok H pr window s s' m :
  slide cv window s = (s', m) -> snd_ok cv s H pr -> (Z.of_nat (length (accepted s H)) < seq_limit)%Z ->
  exists H', H `prefix_of` H' /\ snd_ok cv s' H' pr /\ accepted s' H' = accepted s H.
Proof.
  unfold slide. destruct (slide_loop _ _ _ _ _ _ _) as [[[q nxt] b] n] eqn:Hl. intros [= <- <-] Hs HH.
  destruct s as [una nxt0 q0 b0]. by eapply slide_loop_ok.
Qed.

End Sender.

End KcpSender.

(** ** Flushing KCP

    [flush_inner] keeps the endpoint's invariant: the datagrams it writes are
    well formed and tell the truth about what was sent and received, and the
    queue only moves into the history. *)

Module KcpFlush.
Import Kcp KcpWire KcpInv KcpSender.

Section Flush.
Context (cv : Z).
Implicit Types (H G D : history) (r pr : Receiver) (o : Out) (k : Kcp).

(** ** The datagram being filled *)

Lemma write_out_ok r H o : out_ok cv r H o -> out_ok cv r H (write_out o).
Proof. intros [H1 H2]. split; [by exists []|]. cbn. apply Forall_app. split; [done|by apply Forall_singleton]. Qed.

Lemma make_room_ok r H m n o : out_ok cv r H o -> out_ok cv r H (make_room m n o).
Proof. unfold make_room. case_match; [apply write_out_ok|done]. Qed.

Lemma put_ok r H seg o : seg_ok cv r H seg -> out_ok cv r H o -> out_ok cv r H (put seg o).
Proof.
  intros Hs [(segs&Hb&HF) H2]. split; [|done]. exists (segs ++ [seg]). cbn. rewrite Hb, encode_all_snoc.
  split; [done|]. apply Forall_app. split; [done|by apply Forall_singleton].
Qed.

(** ** Segments without data *)

(** A control segment, whatever its number and time. *)
Record control_ok r (seg : KcpSegment) : Prop := mkControl {
  ct_range : seg_range seg;
  ct_conv : seg_conv seg = cv;
  ct_una : (0 <= seg_una seg <= rcv_nxt r)%Z;
}.

Lemma control_set_sn_ts r seg sn ts :
  control_ok r seg -> (0 <= sn < 2 ^ 32)%Z -> (0 <= ts < 2 ^ 32)%Z -> control_ok r (set_sn_ts seg sn ts).
Proof. intros [[] ??] ??. by split; [split|..]. Qed.

Lemma control_set_cmd r seg cmd : control_ok r seg -> known_cmd cmd = true -> control_ok r (set_cmd seg cmd).
Proof. intros [[] ??] ?. by split; [split|..]. Qed.

Lemma control_seg_ok r H seg :
  control_ok r seg -> seg_cmd seg = KCP_CMD_WASK \/ seg_cmd seg = KCP_CMD_WINS -> seg_ok cv r H seg.
Proof. intros [] [Hc|Hc]; split; try done; by rewrite Hc. Qed.

Lemma ack_entries_ok r H m nxt acks seg o seg' o' :
  ack_entries m nxt acks seg o = (seg', o') ->
  Forall (ack_ok r) acks -> control_ok r seg -> seg_cmd seg = KCP_CMD_ACK -> out_ok cv r H o ->
  control_ok r seg' /\ out_ok cv r H o'.
Proof.
  revert seg o. induction acks as [|[sn ts] acks IH]; intros seg o; cbn [ack_entries].
  { by intros [= <- <-]. }
  intros He [[Hh [Hsn Hts]] Hacks]%Forall_cons Hc Hcmd Ho. cbn in Hh, Hsn, Hts.
  pose proof (control_set_sn_ts r seg sn ts Hc Hsn Hts) as Hc'.
  revert He. case_match; intros He; eapply IH; try done; [|by apply make_room_ok].
  apply put_ok; [|by apply make_room_ok]. destruct Hc'. split; try done. by cbn; rewrite Hcmd.
Qed.

Lemma flush_probe_command_ok r H (c : bool) cmd seg k seg' k' :
  (if c then flush_probe_command cmd seg k else (seg, k)) = (seg', k') -> cmd = KCP_CMD_WASK \/ cmd = KCP_CMD_WINS ->
  control_ok r seg -> out_ok cv r H (out k) ->
  control_ok r seg' /\ k' = set_out k (out k') /\ out_ok cv r H (out k').
Proof.
  destruct c; intros [= <- <-] Hcmd Hc Ho; [|by destruct k].
  assert (Hc' : control_ok r (set_cmd seg cmd)) by (apply control_set_cmd; [done|destruct Hcmd as [-> | ->]; done]).
  split_and!; [done|done|]. apply put_ok; [by apply control_seg_ok|by apply make_room_ok].
Qed.

(** A step that touches only the output and the clock. *)
Record quiet k k' : Prop := mkQuiet {
  q_cfg : cfg k' = cfg k;
  q_snd : snd k' = snd k;
  q_rcv : rcv k' = rcv k;
  q_cc : cc k' = cc k;
  q_rtt : rtt k' = rtt k;
  q_now : current (clk k') = current (clk k);
}.

#[export] Instance quiet_preorder : PreOrder quiet.
Proof. split; [done|]. intros ??? [] []. split; congruence. Qed.

Lemma probe_wnd_size_quiet k : quiet k (probe_wnd_size k) /\ out (probe_wnd_size k) = out k.
Proof. unfold probe_wnd_size. split; [|done]. split; try done. cbn. by repeat case_match. Qed.

Lemma flush_probe_commands_ok H seg k :
  control_ok (rcv k) seg -> out_ok cv (rcv k) H (out k) ->
  quiet k (flush_probe_commands seg k) /\ out_ok cv (rcv k) H (out (flush_probe_commands seg k)).
Proof.
  intros Hc Ho. unfold flush_probe_commands.
  destruct (if negb (Z.land (probe (clk k)) KCP_ASK_SEND =? 0)%Z then _ else _) as [seg1 k1] eqn:H1.
  destruct (flush_probe_command_ok (rcv k) H _ _ _ _ _ _ H1) as (Hc1&Hk1&Ho1); [auto|done|done|].
  destruct (if negb (Z.land (probe (clk k1)) KCP_ASK_TELL =? 0)%Z then _ else _) as [seg2 k2] eqn:H2.
  destruct (flush_probe_command_ok (rcv k) H _ _ _ _ _ _ H2) as (Hc2&Hk2&Ho2); [auto|done|done|].
  split; [|done]. rewrite Hk2, Hk1. done.
Qed.

(** ** Data *)

Lemma schedule_flight H pr k kind n seg : flight_ok cv H pr n seg -> flight_ok cv H pr n (schedule k kind seg).
Proof. intros (?&?&?&?). done. Qed.

Lemma wnd_unused_range k : (0 <= wnd_unused k < 65536)%Z.
Proof. unfold wnd_unused. case_match; [|done]. by apply Z.mod_pos_bound. Qed.

(** The endpoint as [flush_inner] leaves it for the pass over the segments. *)
Record flushing k H G : Prop := mkFlushing {
  fl_now : (0 <= current (clk k) < 2 ^ 32)%Z;
  fl_nxt : (0 <= rcv_nxt (rcv k) <= Z.of_nat (length G))%Z;
  fl_lim : (Z.of_nat (length G) < seq_limit)%Z /\ (Z.of_nat (length H) < seq_limit)%Z;
  fl_payload : Forall payload_ok H;
  fl_conv : (0 <= cv < 2 ^ 32)%Z;
}.

Lemma schedule_seg_ok k H G pr kind n seg :
  flushing k H G -> flight_ok cv H pr n seg -> acked seg = false -> seg_ok cv (rcv k) H (schedule k kind seg).
Proof.
  intros [Hn Hr [HG HH] Hp Hcv] (Hc&Hcmd&Hsn&Ha) Hack. unfold seq_limit in *. rewrite Hack in Ha.
  pose proof (nth_seg_range _ _ _ Ha). destruct (nth_seg_payload _ _ _ Hp Ha) as (?&?&?).
  split; cbn; [|done|lia|by intros _; rewrite Hsn|by rewrite Hcmd].
  split; cbn; try done; [by rewrite Hc|by rewrite Hcmd|apply wnd_unused_range|lia|lia].
Qed.

Lemma flush_segments_ok k H G pr resent new n b p b' p' :
  flush_segments k resent new b p = (b', p') ->
  flushing k H G -> in_flight cv H pr n b -> out_ok cv (rcv k) H (p_out p) ->
  in_flight cv H pr n b' /\ out_ok cv (rcv k) H (p_out p').
Proof.
  intros Hf Hk. revert n p b' Hf. induction b as [|seg b IH]; intros n p b'; cbn [flush_segments].
  { by intros [= <- <-]. }
  destruct (acked seg) eqn:Ha.
  { destruct (flush_segments k resent new b p) as [b1 p1] eqn:Hf. intros [= <- <-] [Hs Hb] Ho.
    destruct (IH _ _ _ Hf Hb Ho). split; [by split|done]. }
  destruct (resend_kind k resent new seg) eqn:Hkind.
  { destruct (flush_segments k resent new b p) as [b1 p1] eqn:Hf. intros [= <- <-] [Hs Hb] Ho.
    destruct (IH _ _ _ Hf Hb Ho). split; [by split|done]. }
  all: destruct (flush_segments _ _ _ _ _) as [b1 p1] eqn:Hf; intros [= <- <-] [Hs Hb] Ho.
  all: destruct (IH _ _ _ Hf Hb) as [? ?]; cbn [p_out]; [|split; [split; [by apply schedule_flight|]|]; done].
  all: apply put_ok; [by eapply schedule_seg_ok|by apply make_room_ok].
Qed.

(** ** The whole flush *)

Lemma flush_acks_ok H G D k seg seg' k' :
  flush_acks k seg = (seg', k') -> rcv_ok (rcv k) G D -> out_ok cv (rcv k) H (out k) ->
  control_ok (rcv k) seg -> seg_cmd seg = KCP_CMD_ACK ->
  control_ok (rcv k') seg' /\ out_ok cv (rcv k') H (out k') /\ rcv_ok (rcv k') G D /\
  (cfg k' = cfg k /\ snd k' = snd k /\ clk k' = clk k /\ rcv_queue (rcv k') = rcv_queue (rcv k) /\
   rcv_buf (rcv k') = rcv_buf (rcv k) /\ rcv_nxt (rcv k') = rcv_nxt (rcv k)).
Proof.
  unfold flush_acks. destruct (ack_entries _ _ _ _ _) as [seg1 o] eqn:He. intros [= <- <-] Hr Ho Hc Hcmd.
  destruct (ack_entries_ok (rcv k) H _ _ _ _ _ _ _ He) as [Hc1 Ho1]; try done; [apply (ro_acks _ _ _ Hr)|].
  destruct Hr. cbn. split_and!; try done; [by destruct Hc1|].
  eapply out_ok_mono; [|done|done]. done.
Qed.

Lemma later_same r r' :
  rcv_buf r' = rcv_buf r -> rcv_nxt r' = rcv_nxt r -> later r r'.
Proof. intros Hb Hn. split; [lia|]. unfold has. by rewrite Hb, Hn. Qed.

(** The last steps: the queue slides, the segments in flight are gone over
    and the rest of the datagram leaves. *)
Lemma slide_flushing k H G D pr window s new :
  slide cv window (snd k) = (s, new) -> good cv k H G D pr ->
  (Z.of_nat (length (accepted (snd k) H)) < seq_limit)%Z -> (Z.of_nat (length G) < seq_limit)%Z ->
  exists H', H `prefix_of` H' /\ snd_ok cv s H' pr /\ out_ok cv (rcv k) H' (out k) /\
    accepted s H' = accepted (snd k) H /\ flushing (set_snd k s) H' G.
Proof.
  intros Hs [[Hcv Hcr _ _ _] Hn Hsnd Hr Ho] HA HG.
  destruct (slide_ok cv H pr _ _ _ _ Hs Hsnd HA) as (H'&Hp&Hs'&Hacc). exists H'.
  split_and!; [done|done|by eapply out_ok_mono|done|].
  pose proof (ro_nxt _ _ _ Hr). split; try done.
  - split; [done|]. rewrite <- Hacc in HA. unfold accepted in HA. rewrite length_app in HA. lia.
  - pose proof (so_payload _ _ _ _ Hs') as Hpay. unfold accepted in Hpay. by apply Forall_app in Hpay as [? _].
Qed.

Lemma flush_data_ok k H G D pr ft window resent s new b p :
  slide cv window (snd k) = (s, new) ->
  (if ft is Full then flush_segments (set_snd k s) resent new (snd_buf s) (mkPass (out k) false 0 false)
   else (snd_buf s, mkPass (out k) false 0 false)) = (b, p) ->
  good cv k H G D pr -> (Z.of_nat (length (accepted (snd k) H)) < seq_limit)%Z ->
  (Z.of_nat (length G) < seq_limit)%Z ->
  exists H', H `prefix_of` H' /\ snd_ok cv (set_buf s b) H' pr /\ out_ok cv (rcv k) H' (p_out p) /\
    accepted s H' = accepted (snd k) H.
Proof.
  intros Hs Hf Hg HA HG. destruct (slide_flushing _ _ _ _ _ _ _ _ Hs Hg HA HG) as (H'&Hp&Hs'&Ho'&Hacc&Hfl).
  exists H'. split_and!; [done| | |done].
  - destruct Hs'. split; try done. destruct ft; [by injection Hf as <- <-|].
    cbn. by eapply (flush_segments_ok (set_snd k s) H' G pr).
  - destruct ft; [by injection Hf as <- <-|]. by eapply (flush_segments_ok (set_snd k s) H' G pr); [| |apply Hs'|].
Qed.

(** Datagrams once written stay written. *)
Lemma make_room_output m need o : output o `prefix_of` output (make_room m need o).
Proof. unfold make_room. case_match; [by apply prefix_app_r|done]. Qed.

Lemma ack_entries_output m nxt acks seg o : output o `prefix_of` output (ack_entries m nxt acks seg o).2.
Proof.
  revert seg o. induction acks as [|[sn ts] acks IH]; intros seg o; cbn [ack_entries]; [done|].
  etrans; [apply (make_room_output m KCP_OVERHEAD)|]. case_match; [by etrans; [|apply IH]|apply IH].
Qed.

Lemma flush_acks_output k seg : output (out k) `prefix_of` output (out (flush_acks k seg).2).
Proof.
  unfold flush_acks. pose proof (ack_entries_output (mtu (cfg k)) (rcv_nxt (rcv k)) (acklist (rcv k)) seg (out k)) as Ha.
  by destruct (ack_entries _ _ _ _ _).
Qed.

Lemma flush_probe_commands_output seg k : output (out k) `prefix_of` output (out (flush_probe_commands seg k)).
Proof.
  unfold flush_probe_commands, flush_probe_command.
  destruct (negb (Z.land (probe (clk k)) KCP_ASK_SEND =? 0)%Z); destruct (negb _); cbn; [etrans|..]; try apply make_room_output; [|done].
  apply (make_room_output (mtu (cfg k)) KCP_OVERHEAD (put _ (make_room _ _ _))).
Qed.

(** The state the last steps start from, and what they leave. *)
Record parts k ft H G D pr k3 window resent s new b p : Prop := mkParts {
  pt_good : good cv k3 H G D pr;
  pt_snd : snd k3 = snd k;
  pt_cfg : cfg k3 = cfg k;
  pt_now : current (clk k3) = current (clk k);
  pt_queue : rcv_queue (rcv k3) = rcv_queue (rcv k);
  pt_later : later (rcv k) (rcv k3);
  pt_output : output (out k) `prefix_of` output (out k3);
  pt_slide : slide cv window (snd k3) = (s, new);
  pt_pass : (if ft is Full then flush_segments (set_snd k3 s) resent new (snd_buf s) (mkPass (out k3) false 0 false)
    else (snd_buf s, mkPass (out k3) false 0 false)) = (b, p);
  pt_cfg' : cfg (flush_inner k ft) = cfg k3;
  pt_snd' : snd (flush_inner k ft) = set_buf s b;
  pt_rcv' : rcv (flush_inner k ft) = rcv k3;
  pt_now' : current (clk (flush_inner k ft)) = current (clk k3);
  pt_out' : out (flush_inner k ft) = if length (buf (p_out p)) =? 0 then p_out p else write_out (p_out p);
}.

Lemma flush_inner_parts k H G D pr ft :
  good cv k H G D pr -> (Z.of_nat (length G) < seq_limit)%Z ->
  exists k3 window resent s new b p, parts k ft H G D pr k3 window resent s new b p.
Proof.
  intros [Hcfg Hn Hsnd Hr Ho] HG.
  set (seg0 := mkSeg (conv (cfg k)) KCP_CMD_ACK 0 (wnd_unused k) 0 0 (rcv_nxt (rcv k)) 0 0 0 0 false []).
  assert (Hc0 : control_ok (rcv k) seg0).
  { pose proof (ro_nxt _ _ _ Hr). unfold seq_limit in *. split; cbn; [|apply Hcfg|lia].
    split; cbn; try done; [rewrite (co_conv _ _ Hcfg); apply Hcfg|apply wnd_unused_range|lia]. }
  destruct (flush_acks k seg0) as [seg1 k1] eqn:H1.
  destruct (flush_acks_ok H G D _ _ _ _ H1 Hr Ho Hc0 eq_refl) as (Hc1&Ho1&Hr1&Hk1&Hs1&Hclk1&Hq1&Hb1&Hn1).
  destruct (probe_wnd_size_quiet k1) as [Hq2 Ho2]. set (k2 := probe_wnd_size k1) in *.
  destruct (flush_probe_commands_ok H seg1 k2) as [Hq3 Ho3]; [by rewrite (q_rcv _ _ Hq2)|by rewrite (q_rcv _ _ Hq2), Ho2|].
  set (k3 := flush_probe_commands seg1 k2) in *. pose proof (transitivity Hq2 Hq3) as [E1 E2 E3 E4 E5 E6].
  rewrite (q_rcv _ _ Hq2) in Ho3.
  assert (Hg3 : good cv k3 H G D pr) by (split; rewrite ?E1, ?E2, ?E3, ?E6, ?Hk1, ?Hs1, ?Hclk1; done).
  set (window := let w := Z.min (snd_wnd (cfg k3)) (rmt_wnd (cc k3)) in if nocwnd (cfg k3) then w else Z.min (cwnd (cc k3)) w).
  set (resent := if (0 <? fastresend (cfg k3))%Z then fastresend (cfg k3) else u32_MAX).
  destruct (slide (conv (cfg k3)) window (snd k3)) as [s new] eqn:Hs.
  destruct (match ft with AckOnly => (snd_buf s, mkPass (out k3) false 0 false)
    | Full => flush_segments (set_snd k3 s) resent new (snd_buf s) (mkPass (out k3) false 0 false) end) as [b p] eqn:Hf.
  assert (Hk : exists c cl, flush_inner k ft = mkKcp (cfg k3) (set_buf s b) (rcv k3) (rtt k3) c cl
      (if length (buf (p_out p)) =? 0 then p_out p else write_out (p_out p)) /\ current cl = current (clk k3)).
  { unfold flush_inner. fold seg0. rewrite H1. fold k2. fold k3. fold window. rewrite Hs.
    cbn [cfg set_snd snd]. fold resent. cbn [out set_snd]. rewrite Hf.
    destruct (p_dead p); cbn; destruct (nocwnd (cfg k3)); by eexists _, _. }
  destruct Hk as (c&cl&Hk&Hcl). exists k3, window, resent, s, new, b, p.
  split; try (rewrite Hk); try done; [by rewrite E2|by rewrite E1|by rewrite E6, Hclk1|by rewrite E3| | |].
  - rewrite E3. by apply later_same.
  - pose proof (flush_acks_output k seg0) as Hw. rewrite H1 in Hw. etrans; [exact Hw|]. cbn. rewrite <- Ho2. apply flush_probe_commands_output.
  - by rewrite <- (co_conv _ _ (g_cfg _ _ _ _ _ _ Hg3)).
Qed.

Lemma flush_inner_ok k H G D pr ft :
  good cv k H G D pr -> (Z.of_nat (length (accepted (snd k) H)) < seq_limit)%Z -> (Z.of_nat (length G) < seq_limit)%Z ->
  let k' := flush_inner k ft in
  exists H', H `prefix_of` H' /\ good cv k' H' G D pr /\ accepted (snd k') H' = accepted (snd k) H /\
    later (rcv k) (rcv k') /\ rcv_queue (rcv k') = rcv_queue (rcv k) /\ cfg k' = cfg k.
Proof.
  intros Hg HA HG k'. destruct (flush_inner_parts k H G D pr ft Hg HG) as (k3&w&rs&s&new&b&p&[Hg3 P1 P2 P3 P4 P5 _ Hs Hf F1 F2 F3 F4 F5]).
  destruct (flush_data_ok k3 H G D pr ft _ _ _ _ _ _ Hs Hf Hg3) as (H'&Hp&Hs'&Hout&Hacc); [by rewrite P1|done|].
  exists H'. unfold k'. rewrite F1, F2, F3. split_and!; [done| | |done|done|done].
  - destruct Hg3. split; rewrite ?F1, ?F2, ?F3, ?F4, ?F5; try done. case_match; [done|by apply write_out_ok].
  - by rewrite <- P1, <- Hacc.
Qed.

End Flush.

End KcpFlush.

(** ** Taking in a datagram

    [input] on a datagram of the peer: it is read to its end, whatever the
    order and the number of times datagrams arrive in, and the endpoint's
    invariant is kept. *)

Module KcpInput.
Import Kcp KcpWire KcpInv KcpReceiver KcpSender KcpFlush.

(** ** Frames of the receive operations *)

Lemma move_loop_cfg k k' b q nxt : cfg k' = cfg k -> move_loop k' b q nxt = move_loop k b q nxt.
Proof.
  intros Hc. revert q nxt. induction b as [|seg b IH]; intros q nxt; cbn [move_loop]; [done|].
  unfold queue_has_room. rewrite Hc. case_match; [apply IH|done].
Qed.

Lemma parse_data_ack_push k seg sn ts :
  parse_data (set_rcv k (ack_push (rcv k) sn ts)) seg =
  set_rcv (parse_data k seg) (ack_push (rcv (parse_data k seg)) sn ts).
Proof.
  unfold parse_data. cbn [rcv set_rcv ack_push rcv_nxt cfg rcv_buf rcv_queue acklist]. case_match; [by destruct k|].
  unfold move_buf. cbn [rcv set_rcv rcv_buf rcv_queue rcv_nxt acklist].
  rewrite (move_loop_cfg k (set_rcv (set_rcv k _) _)), !(move_loop_cfg k (set_rcv k _)) by done.
  by destruct (move_loop _ _ _ _) as [[b q] nxt].
Qed.

Lemma parse_data_frame k seg :
  let k' := parse_data k seg in
  cfg k' = cfg k /\ snd k' = snd k /\ clk k' = clk k /\ out k' = out k.
Proof.
  unfold parse_data. case_match; [done|]. unfold move_buf. by destruct (move_loop _ _ _ _) as [[b q] nxt].
Qed.

Section Input.
Context (cv : Z).
Implicit Types (H G D : history) (pr : Receiver) (k : Kcp).

(** ** One segment *)

(** The same endpoint but for its sender. *)
Lemma good_snd k H G D pr s : good cv k H G D pr -> snd_ok cv s H pr -> good cv (set_snd k s) H G D pr.
Proof. intros [] ?. by split. Qed.

Lemma good_same k k' H G D pr :
  cfg k' = cfg k -> current (clk k') = current (clk k) -> snd k' = snd k -> rcv k' = rcv k -> out k' = out k ->
  good cv k H G D pr -> good cv k' H G D pr.
Proof. intros E1 E2 E3 E4 E5 []. split; rewrite ?E1, ?E2, ?E3, ?E4, ?E5; done. Qed.

Lemma good_rcv k H G D pr r :
  good cv k H G D pr -> rcv_ok r G D -> later (rcv k) r -> good cv (set_rcv k r) H G D pr.
Proof. intros [] ??. split; try done. cbn. by eapply out_ok_mono. Qed.

(** A PUSH segment of the peer. *)
Lemma input_push_ok k H G D pr seg :
  good cv k H G D pr -> nth_seg G (seg_sn seg) = Some (payload seg) -> (0 <= seg_ts seg < 2 ^ 32)%Z ->
  (Z.of_nat (length G) < seq_limit)%Z ->
  (seg_sn seg < rcv_nxt (rcv k) + rcv_wnd (cfg k))%Z ->
  let k1 := set_rcv k (ack_push (rcv k) (seg_sn seg) (seg_ts seg)) in
  let k' := if (0 <=? timediff (seg_sn seg) (rcv_nxt (rcv k1)))%Z then parse_data k1 seg else k1 in
  good cv k' H G D pr /\ later (rcv k) (rcv k') /\ has (rcv k') (seg_sn seg) /\ snd k' = snd k.
Proof.
  intros Hg Hp Hts HG Hwnd k1 k'. pose proof (nth_seg_range _ _ _ Hp). unfold seq_limit in *.
  pose proof (co_wnd _ _ (g_cfg _ _ _ _ _ _ Hg)) as Hw. unfold seq_limit in Hw.
  assert (Hpush : forall k0, good cv k0 H G D pr -> has (rcv k0) (seg_sn seg) ->
    good cv (set_rcv k0 (ack_push (rcv k0) (seg_sn seg) (seg_ts seg))) H G D pr).
  { intros k0 Hg0 Hh. apply good_rcv; [done| |done]. destruct (g_rcv _ _ _ _ _ _ Hg0). split; try done.
    apply Forall_app. split; [done|]. apply Forall_singleton. split; [done|cbn; lia]. }
  subst k'. pose proof (ro_nxt _ _ _ (g_rcv _ _ _ _ _ _ Hg)). unfold k1. cbn [rcv set_rcv ack_push rcv_nxt].
  rewrite timediff_small by lia. destruct (Z.leb_spec 0 (seg_sn seg - rcv_nxt (rcv k))).
  - rewrite parse_data_ack_push. destruct (parse_data_ok k G D seg (g_rcv _ _ _ _ _ _ Hg) Hp) as (Hr&Hl&Hh); [done..|].
    destruct (parse_data_frame k seg) as (E1&E2&E3&E4).
    assert (Hg' : good cv (parse_data k seg) H G D pr).
    { apply (good_same (set_rcv k (rcv (parse_data k seg)))); cbn; try done; [by rewrite E3|]. by apply good_rcv. }
    split_and!; [apply Hpush; auto|done|by apply Hh|done].
  - split_and!; [|done|by left; cbn; lia|done]. apply Hpush; [done|]. left. lia.
Qed.

Lemma input_segment_ok k H G D pr regular seg sc k' sc' :
  input_segment regular (wire seg) k sc = (k', sc') ->
  good cv k H G D pr -> seg_ok cv pr G seg -> (rcv_nxt pr <= Z.of_nat (length H))%Z ->
  (Z.of_nat (length H) < seq_limit)%Z -> (Z.of_nat (length G) < seq_limit)%Z ->
  good cv k' H G D pr /\ later (rcv k) (rcv k') /\ accepted (snd k') H = accepted (snd k) H /\
  (seg_cmd seg = KCP_CMD_PUSH -> (seg_sn seg < rcv_nxt (rcv k) + rcv_wnd (cfg k))%Z -> has (rcv k') (seg_sn seg)).
Proof.
  intros Hi Hg [Hran Hcv Huna Hpush Hack] Hpr HH HG. unfold input_segment in Hi.
  set (k0 := if regular then _ else _) in Hi.
  assert (Hg0 : good cv k0 H G D pr) by (apply (good_same k); try done; unfold k0; by destruct regular).
  assert (Hr0 : rcv k0 = rcv k) by (unfold k0; by destruct regular).
  assert (Hs0 : snd k0 = snd k) by (unfold k0; by destruct regular).
  assert (Hc0 : cfg k0 = cfg k) by (unfold k0; by destruct regular).
  rewrite <- Hr0, <- Hs0, <- Hc0. clearbody k0. clear Hr0 Hs0 Hc0 Hg k.
  destruct (parse_una (snd k0) (seg_una (wire seg))) as [count s] eqn:Hu.
  pose proof (una_ok cv H pr _ _ _ _ (g_snd _ _ _ _ _ _ Hg0) ltac:(unfold seq_limit in *; lia) Huna Hpr Hu) as Hs.
  assert (Hacc : accepted (shrink_buf s) H = accepted (snd k0) H).
  { revert Hu. unfold parse_una. destruct (una_loop _ _ _). by intros [= _ <-]. }
  pose proof (good_snd _ _ _ _ _ _ Hg0 Hs) as Hg1. set (k1 := set_snd k0 (shrink_buf s)) in *.
  assert (Hr1 : rcv k1 = rcv k0) by done. assert (Hs1 : snd k1 = shrink_buf s) by done.
  assert (Hc1 : cfg k1 = cfg k0) by done.
  rewrite <- Hr1, <- Hacc, <- Hs1, <- Hc1. clearbody k1. clear Hu Hs Hg0 Hacc Hr1 Hs1 Hc1 s k0.
  cbn [wire seg_cmd seg_sn seg_ts] in Hi.
  destruct (Z.eqb_spec (seg_cmd seg) KCP_CMD_ACK) as [Hc|_].
  { destruct (parse_fastack _ _ _ _) as [t s] eqn:Hf. injection Hi as <- <-.
    pose proof (parse_ack_ok cv H pr _ _ (Hack Hc) (g_snd _ _ _ _ _ _ Hg1)) as Hs.
    split_and!; [apply good_snd; [done|]; by eapply parse_fastack_ok|done| |by rewrite Hc].
    clear -Hf. revert Hf. unfold parse_fastack. case_match; [intros [= _ <-]|destruct (fastack_loop _ _ _ _); intros [= _ <-]].
    all: unfold parse_ack; case_match; done. }
  destruct (Z.eqb_spec (seg_cmd seg) KCP_CMD_PUSH) as [Hc|Hnp].
  { specialize (Hpush Hc). pose proof (nth_seg_range _ _ _ Hpush). pose proof (ro_nxt _ _ _ (g_rcv _ _ _ _ _ _ Hg1)).
    pose proof (co_wnd _ _ (g_cfg _ _ _ _ _ _ Hg1)). unfold seq_limit in *.
    rewrite wadd_small in Hi by lia. rewrite (timediff_small (seg_sn seg) (rcv_nxt (rcv k1) + _)) in Hi by lia.
    destruct (Z.ltb_spec (seg_sn seg - (rcv_nxt (rcv k1) + rcv_wnd (cfg k1))) 0); [|injection Hi as <- <-; split_and!; try done; lia].
    injection Hi as <- <-.
    destruct (input_push_ok k1 H G D pr (wire seg) Hg1 Hpush (range_ts _ Hran) HG) as (?&?&?&Hsnd); [cbn; lia|].
    cbn [wire seg_sn seg_ts] in *. split_and!; [done|done|exact (f_equal (fun s => accepted s H) Hsnd)|done]. }
  destruct (seg_cmd seg =? KCP_CMD_WASK)%Z; injection Hi as <- <-; [|done].
  split_and!; [by apply (good_same k1)|done|done|done].
Qed.

(** ** The datagram *)

Lemma input_segments_ok k H G D pr regular segs sc k' sc' :
  input_segments regular segs k sc = (k', sc') ->
  good cv k H G D pr -> Forall (seg_ok cv pr G) segs -> (rcv_nxt pr <= Z.of_nat (length H))%Z ->
  (Z.of_nat (length H) < seq_limit)%Z -> (Z.of_nat (length G) < seq_limit)%Z ->
  good cv k' H G D pr /\ later (rcv k) (rcv k') /\ accepted (snd k') H = accepted (snd k) H.
Proof.
  intros Hi Hg Hall Hpr HH HG. revert k sc Hi Hg. induction Hall as [|seg segs Hseg Hall IH]; intros k sc; cbn [input_segments].
  { by intros [= <- <-]. }
  destruct (input_segment _ _ _ _) as [k1 sc1] eqn:H1. intros Hi Hg.
  destruct (input_segment_ok _ H G D pr _ _ _ _ _ H1) as (Hg1&Hl1&Ha1&_); try done.
  destruct (IH _ _ Hi Hg1) as (?&?&?). split_and!; [done|by etransitivity|congruence].
Qed.

Lemma grow_cwnd_total k old : (0 < Z.of_nat (mss (cfg k)) < 2 ^ 32)%Z -> is_Some (grow_cwnd k old).
Proof.
  intros Hm. unfold grow_cwnd.
  replace (w32 (Z.of_nat (mss (cfg k)))) with (Z.of_nat (mss (cfg k))) by (symmetry; apply Z.mod_small; lia).
  destruct (negb _ && _ && _); [|done]. destruct (cwnd (cc k) <? ssthresh (cc k))%Z; [done|].
  destruct (Z.eqb_spec (Z.max (incr (cc k)) (Z.of_nat (mss (cfg k)))) 0); [lia|].
  destruct (_ <=? _)%Z; [|by eexists]. destruct (Z.eqb_spec (Z.of_nat (mss (cfg k))) 0); [lia|by eexists].
Qed.

Lemma sample_rtt_frame regular l k :
  let k' := sample_rtt regular l k in
  cfg k' = cfg k /\ clk k' = clk k /\ snd k' = snd k /\ rcv k' = rcv k /\ out k' = out k.
Proof. unfold sample_rtt, update_ack. repeat case_match; done. Qed.

(** After its segments a datagram costs nothing: [input] may flush. *)
Lemma input_after k1 H G D pr regular sc old nodelay :
  good cv k1 H G D pr -> (Z.of_nat (length (accepted (snd k1) H)) < seq_limit)%Z -> (Z.of_nat (length G) < seq_limit)%Z ->
  let k := sample_rtt regular (latest sc) k1 in
  exists c H', grow_cwnd k old = Some c /\
    let k := set_cc k c in
    let backlog := length (acklist (rcv k)) in
    let k' := if flush_now sc then flush_inner k Full
      else if (mtu (cfg k) / KCP_OVERHEAD <=? backlog) || (nodelay && negb (backlog =? 0)) then flush_inner k AckOnly else k in
    H `prefix_of` H' /\ good cv k' H' G D pr /\ later (rcv k1) (rcv k') /\
    accepted (snd k') H' = accepted (snd k1) H /\ cfg k' = cfg k1.
Proof.
  intros Hg1 HA HG. destruct (sample_rtt_frame regular (latest sc) k1) as (E1&E2&E3&E4&E5). set (k2 := sample_rtt _ _ _) in *.
  assert (Hg2 : good cv k2 H G D pr) by (apply (good_same k1); rewrite ?E2; done).
  destruct (grow_cwnd_total k2 old) as [c Hc]; [apply Hg2|]. cbn zeta. rewrite <- E4, <- E3, <- E1. exists c.
  assert (Hg3 : good cv (set_cc k2 c) H G D pr) by by apply (good_same k2).
  assert (Hfl : forall ft, exists H', H `prefix_of` H' /\ good cv (flush_inner (set_cc k2 c) ft) H' G D pr /\
    later (rcv k2) (rcv (flush_inner (set_cc k2 c) ft)) /\
    accepted (snd (flush_inner (set_cc k2 c) ft)) H' = accepted (snd k2) H /\ cfg (flush_inner (set_cc k2 c) ft) = cfg k2).
  { intros ft. destruct (flush_inner_ok cv (set_cc k2 c) H G D pr ft Hg3) as (H'&?&?&Ha&?&_&Hcf); [by cbn; rewrite E3|done|].
    exists H'. by split_and!. }
  destruct (flush_now sc); [|case_match].
  - destruct (Hfl Full) as (H'&?). by exists H'.
  - destruct (Hfl AckOnly) as (H'&?). by exists H'.
  - exists H. by split_and!.
Qed.

(** A datagram of the peer is read to its end, segment by segment. *)
Lemma input_datagram k H G D pr segs regular nodelay :
  good cv k H G D pr -> Forall (seg_ok cv pr G) segs -> segs <> [] -> (rcv_nxt pr <= Z.of_nat (length H))%Z ->
  (Z.of_nat (length (accepted (snd k) H)) < seq_limit)%Z -> (Z.of_nat (length G) < seq_limit)%Z ->
  exists k1 sc k' H', input_segments regular segs k (mkScan None false) = (k1, sc) /\ later (rcv k1) (rcv k') /\
    input k (encode_all segs) regular nodelay = (Ok (length (encode_all segs)), k') /\
    H `prefix_of` H' /\ good cv k' H' G D pr /\
    later (rcv k) (rcv k') /\ accepted (snd k') H' = accepted (snd k) H /\ cfg k' = cfg k.
Proof.
  intros Hg Hall Hne Hpr HA HG. unfold input. destruct (Nat.ltb_spec (length (encode_all segs)) KCP_OVERHEAD) as [Hlen|_].
  { destruct segs; [done|]. rewrite encode_all_cons, length_app, encode_length in Hlen. lia. }
  rewrite (input_loop_encoded regular (length (encode_all segs)) segs); [|..|done].
  2:{ eapply Forall_impl; [done|]. intros s []. split; [done|]. by rewrite (co_conv _ _ (g_cfg _ _ _ _ _ _ Hg)). }
  destruct (input_segments _ _ _ _) as [k1 sc] eqn:Hi.
  assert (HH : (Z.of_nat (length H) < seq_limit)%Z) by (revert HA; unfold accepted; rewrite length_app; lia).
  destruct (input_segments_ok _ H G D pr _ _ _ _ _ Hi) as (Hg1&Hl1&Ha1); [done..|].
  pose proof (input_segments_cfg regular segs k (mkScan None false)) as Hcfg. rewrite Hi in Hcfg. cbn in Hcfg.
  destruct (input_after k1 H G D pr regular sc (snd_una (snd k)) nodelay Hg1) as (c&H'&Hc&Hp&Hg'&Hl'&Ha'&Hcf); [by rewrite Ha1|done|].
  rewrite Hc. cbn [length]. rewrite Nat.sub_0_r. eexists k1, sc, _, H'.
  split_and!; [done|exact Hl'|done|done|exact Hg'|by etransitivity|by rewrite <- Ha1|by rewrite <- Hcfg].
Qed.

End Input.

End KcpInput.

(** ** Queueing data

    [send] queues the bytes it reports, in order. In message mode the
    fragments of a buffer count down to zero, which is how [recv] finds where
    the message ends. *)

Module KcpSend.
Import Kcp KcpWire KcpInv.

Section Send.
Context (cv : Z).
Implicit Types (H : history) (pr : Receiver) (k : Kcp) (b : bytes).

Definition contents (h : history) : bytes := mjoin h.*2.

Lemma contents_app h1 h2 : contents (h1 ++ h2) = contents h1 ++ contents h2.
Proof. unfold contents. by rewrite fmap_app, list.join_app. Qed.

(** ** Fragments *)

Lemma fragments_cfg k k' count b : cfg k' = cfg k -> fragments k' count b = fragments k count b.
Proof. intros Hc. revert b. induction count as [|count IH]; intros b; cbn [fragments]; [done|]. by rewrite Hc, IH. Qed.

Lemma fragments_contents k count b :
  length b <= count * mss (cfg k) -> contents (payload <$> fragments k count b) = b.
Proof.
  revert b. induction count as [|count IH]; intros b Hb; cbn [fragments].
  { destruct b; [done|cbn in Hb; lia]. }
  rewrite fmap_cons. change (contents (?p :: ?h)) with (p.2 ++ contents h). rewrite IH.
  - apply take_drop.
  - rewrite length_drop. lia.
Qed.

(** Each fragment but the last is full, and the last one is not empty. *)
Lemma fragments_ok k count b :
  0 < mss (cfg k) -> (Z.of_nat (mss (cfg k)) < 2 ^ 32)%Z -> count * mss (cfg k) < length b + mss (cfg k) ->
  Forall payload_ok (payload <$> fragments k count b) /\ Forall (fun seg => acked seg = false) (fragments k count b).
Proof.
  intros Hm Hm2. revert b. induction count as [|count IH]; intros b Hb; cbn [fragments]; [by split|].
  cbn [Nat.mul] in Hb. destruct (IH (drop (mss (cfg k)) b)) as [H1 H2].
  { rewrite length_drop. lia. }
  split; [|by constructor]. rewrite fmap_cons. constructor; [|done]. split; [|split]; cbn.
  - case_match; [lia|]. unfold w8. by apply Z.mod_pos_bound.
  - intros Hn%(f_equal length). rewrite length_take in Hn. cbn in Hn. lia.
  - rewrite length_take. lia.
Qed.

(** Numbers that count down to zero. *)
Definition countdown (f : history) : Prop := f.*1 = reverse (Z.of_nat <$> seq 0 (length f)).

(** A message as its fragments. *)
Definition is_msg b (f : history) : Prop :=
  f <> [] /\ contents f = b /\ countdown f.

Lemma fragments_length k count b : length (fragments k count b) = count.
Proof. revert b. induction count as [|count IH]; intros b; cbn; [done|]. by rewrite IH. Qed.

Lemma fragments_countdown k count b :
  stream (cfg k) = false -> count <= 256 ->
  (payload <$> fragments k count b).*1 = reverse (Z.of_nat <$> seq 0 count).
Proof.
  intros Hs. revert b. induction count as [|count IH]; intros b Hc; [done|].
  rewrite seq_S, fmap_app, reverse_app. cbn [fragments]. rewrite !fmap_cons, Hs, IH by lia. cbn.
  f_equal. unfold w8. rewrite Z.mod_small; lia.
Qed.

(** ** The queue *)

Lemma extend_last_ok m (q : list KcpSegment) b q' rest :
  extend_last m q b = (q', rest) -> 0 < m -> (Z.of_nat m < 2 ^ 32)%Z ->
  Forall payload_ok (payload <$> q) -> Forall (fun seg => acked seg = false) q ->
  contents (payload <$> q') ++ rest = contents (payload <$> q) ++ b /\
  Forall payload_ok (payload <$> q') /\ Forall (fun seg => acked seg = false) q'.
Proof.
  intros He Hm Hm2 HP HA. unfold extend_last in He. destruct (last q) as [old|] eqn:Hl; [|by injection He as <- <-].
  destruct (Nat.ltb_spec (length (seg_data old)) m); [|by injection He as <- <-]. injection He as <- <-.
  apply last_Some in Hl as [q0 ->]. rewrite length_app. cbn [length]. replace (length q0 + 1 - 1) with (length q0) by lia.
  rewrite take_app_length. rewrite fmap_app, Forall_app in HP. destruct HP as [HP1 HP2]. apply Forall_app in HA as [HA1 HA2].
  rewrite !fmap_app, !contents_app, <- !app_assoc. apply Forall_singleton in HP2 as (Hf&Hd&Hlen).
  pose proof (Forall_inv HA2) as HA3. cbn in Hd, Hlen.
  set (n := Nat.min (length b) (m - length (seg_data old))).
  split_and!.
  - f_equal. unfold contents. cbn. rewrite !app_nil_r, <- app_assoc, take_drop. done.
  - apply Forall_app. split; [done|]. apply Forall_singleton. split; [|split]; cbn; [lia| |].
    + intros [? _]%app_nil. done.
    + rewrite length_app, length_take. lia.
  - apply Forall_app. split; [done|]. apply Forall_singleton; exact HA3.
Qed.

Lemma count_bounds (l m : nat) :
  0 < m -> 0 < l ->
  let count := Nat.max 1 (if l <=? m then 1 else (l + m - 1) / m) in l <= count * m /\ count * m < l + m.
Proof.
  intros Hm Hl. destruct (Nat.leb_spec l m); cbn zeta; [cbn; lia|].
  pose proof (Nat.div_mod (l + m - 1) m ltac:(lia)). pose proof (Nat.mod_upper_bound (l + m - 1) m ltac:(lia)).
  rewrite Nat.max_r by nia. nia.
Qed.

Lemma extend_last_grows m (q : list KcpSegment) b q' rest :
  extend_last m q b = (q', rest) -> length (contents (payload <$> q)) <= length (contents (payload <$> q')).
Proof.
  intros He. unfold extend_last in He. destruct (last q) as [old|] eqn:Hl; [|by injection He as <- <-].
  destruct (length (seg_data old) <? m); [|by injection He as <- <-]. injection He as <- _.
  apply last_Some in Hl as [q0 ->]. rewrite length_app. cbn [length]. replace (length q0 + 1 - 1) with (length q0) by lia.
  rewrite take_app_length, !fmap_app, !contents_app, !length_app. unfold contents. cbn. rewrite !length_app. lia.
Qed.

(** What [send] adds to what was accepted: the bytes it was given, and in
    message mode the fragments of one message. *)
Lemma send_ok k H pr b n k' :
  send k b = (Ok n, k') -> cfg_ok cv (cfg k) -> snd_ok cv (snd k) H pr ->
  snd_ok cv (snd k') H pr /\ n = length b /\
  contents (accepted (snd k') H) = contents (accepted (snd k) H) ++ b /\
  (stream (cfg k) = false -> exists f, is_msg b f /\ accepted (snd k') H = accepted (snd k) H ++ f) /\
  k' = set_snd k (snd k').
Proof.
  intros Hs [_ _ _ _ Hmss] [H1 H2 H3 H4 H5]. unfold send in Hs.
  destruct (Nat.eqb_spec (mss (cfg k)) 0); [done|]. destruct (Nat.eqb_spec (length b) 0); [done|].
  destruct (if stream (cfg k) then _ else _) as [q rest] eqn:He. cbn [cfg set_snd snd set_queue] in Hs.
  unfold accepted in H5. apply Forall_app in H5 as [H5 H6].
  assert (Hq : contents (payload <$> q) ++ rest = contents (payload <$> snd_queue (snd k)) ++ b /\
    Forall payload_ok (payload <$> q) /\ Forall (fun seg => acked seg = false) q).
  { destruct (stream (cfg k)); [eapply extend_last_ok; eauto; lia|]. by injection He as <- <-. }
  destruct Hq as (Hc&Hp&Ha).
  destruct (stream (cfg k) && (length rest =? 0)) eqn:Hdone.
  { injection Hs as <- <-. cbn. apply andb_true_iff in Hdone as [Hst Hr%Nat.eqb_eq]. destruct rest; [|done].
    rewrite app_nil_r in Hc. split_and!; [|done| |by rewrite Hst|done].
    - split; try done. apply Forall_app. by split.
    - unfold accepted. cbn. by rewrite !contents_app, Hc, app_assoc. }
  assert (Hr : 0 < length rest).
  { destruct (stream (cfg k)); [apply Nat.eqb_neq in Hdone; lia|]. injection He as <- <-. lia. }
  pose proof (count_bounds (length rest) (mss (cfg k)) ltac:(lia) Hr) as [Hc1 Hc2].
  destruct (Nat.ltb_spec 255 (if length rest <=? mss (cfg k) then 1 else (length rest + mss (cfg k) - 1) / mss (cfg k))); [done|].
  set (count := Nat.max 1 _) in *. injection Hs as <- <-. cbn [snd set_snd].
  rewrite (fragments_cfg k (set_snd k _)) by done.
  pose proof (fragments_contents k count rest Hc1) as Hfc. pose proof (fragments_ok k count rest ltac:(lia) ltac:(lia) Hc2) as [Hf1 Hf2].
  unfold accepted. cbn [set_queue snd_queue]. split_and!; [|done| | |done].
  - split; try done; cbn; [by apply Forall_app|]. unfold accepted. cbn. rewrite fmap_app. rewrite !Forall_app. done.
  - rewrite fmap_app, !contents_app, Hfc, Hc. by rewrite app_assoc.
  - intros Hst. rewrite Hst in He. injection He as <- <-. exists (payload <$> fragments k count b). split.
    + split_and!; [|done|].
      * intros Hn%(f_equal length). rewrite length_fmap, fragments_length in Hn. cbn in Hn. lia.
      * unfold countdown. rewrite length_fmap, fragments_length. apply fragments_countdown; [done|lia].
    + by rewrite fmap_app, app_assoc.
Qed.

(** The bytes waiting in the queue. *)
Definition queued (k : Kcp) : bytes := mjoin (seg_data <$> snd_queue (snd k)).

Lemma queued_contents k : queued k = contents (payload <$> snd_queue (snd k)).
Proof. unfold queued, contents. by rewrite <- list_fmap_compose. Qed.

(** What a buffer that [send] refuses leaves behind: in stream mode the last
    segment is filled up before the rest turns out to be too long. *)
Definition leftover (k k' : Kcp) (b : bytes) : bytes := take (length (queued k') - length (queued k)) b.

Lemma send_refused k H pr b e k' :
  send k b = (Err e, k') -> cfg_ok cv (cfg k) -> snd_ok cv (snd k) H pr ->
  snd_ok cv (snd k') H pr /\ k' = set_snd k (snd k') /\
  contents (accepted (snd k') H) = contents (accepted (snd k) H) ++ leftover k k' b /\
  (stream (cfg k) = false -> leftover k k' b = [] /\ accepted (snd k') H = accepted (snd k) H).
Proof.
  intros Hs [_ _ _ _ Hmss] Hok.
  assert (Hnop : k' = k -> snd_ok cv (snd k') H pr /\ k' = set_snd k (snd k') /\
    contents (accepted (snd k') H) = contents (accepted (snd k) H) ++ leftover k k' b /\
    (stream (cfg k) = false -> leftover k k' b = [] /\ accepted (snd k') H = accepted (snd k) H)).
  { intros ->. unfold leftover. rewrite Nat.sub_diag, take_0, app_nil_r. split_and!; [done|by destruct k|done|done]. }
  unfold send in Hs. destruct (Nat.eqb_spec (mss (cfg k)) 0); [injection Hs as _ <-; by apply Hnop|].
  destruct (Nat.eqb_spec (length b) 0); [injection Hs as _ <-; by apply Hnop|]. clear Hnop.
  destruct (if stream (cfg k) then _ else _) as [q rest] eqn:He. cbn [cfg set_snd snd set_queue] in Hs.
  destruct (stream (cfg k) && (length rest =? 0)); [done|]. destruct (255 <? _); [|done]. injection Hs as _ <-. cbn [snd set_snd].
  destruct Hok as [H1 H2 H3 H4 H5]. unfold accepted in H5. apply Forall_app in H5 as [H5 H6].
  assert (Hq : contents (payload <$> q) ++ rest = contents (payload <$> snd_queue (snd k)) ++ b /\
    Forall payload_ok (payload <$> q) /\ Forall (fun seg => acked seg = false) q).
  { destruct (stream (cfg k)); [eapply extend_last_ok; eauto; lia|]. by injection He as <- <-. }
  destruct Hq as (Hc&Hp&Ha). split_and!; [|by destruct k| |].
  - split; try done. apply Forall_app. by split.
  - unfold accepted, leftover. rewrite !queued_contents. cbn [set_queue snd_queue set_snd snd]. rewrite !contents_app, <- app_assoc. f_equal.
    pose proof (f_equal (take (length (contents (payload <$> q)))) Hc) as Ht. rewrite take_app_length in Ht.
    rewrite Ht at 1. rewrite take_app. f_equal. apply take_ge. assert (extends : length (contents (payload <$> snd_queue (snd k))) <= length (contents (payload <$> q))); [|lia].
    destruct (stream (cfg k)); [by eapply extend_last_grows|]. by injection He as <- <-.
  - intros Hst. rewrite Hst in He. injection He as <- <-. unfold leftover. rewrite !queued_contents. cbn [set_queue snd_queue set_snd snd].
    by rewrite Nat.sub_diag, take_0.
Qed.

End Send.

End KcpSend.
