(* ===== verification/KcpNet.v ===== *)
(** * Two KCP endpoints over a lossy network

    Two endpoints of one conversation call the operations of [Kcp] in any
    order. The network is what either side has written so far: a datagram may
    be taken in by the peer any number of times, in any order, or never. What
    the applications sent and got is kept beside the endpoints. *)

From S2P Require Import Prelude Strings Bits Kcp KcpWire KcpInv KcpOps.

Module KcpNet.
Import Kcp KcpWire KcpInv KcpReceiver KcpSender KcpFlush KcpInput KcpSend.

(** ** The system *)

(** One side: [sent] are the buffers [send] took, and of a buffer it refused
    the part it had queued by then; [got] are the buffers [recv] gave. *)
Record Peer := mkPeer { kcp : Kcp; sent : list bytes; got : list bytes }.

Record Net := mkNet { side_a : Peer; side_b : Peer }.

Inductive Call :=
  | CallSend (b : bytes)
  | CallRecv (room : nat)
  | CallInput (i : nat) (regular ack_nodelay : bool)
  | CallUpdate (now : Z)
  | CallFlush
  | CallFlushAck
  | CallMtu (m : nat)
  | CallWndsize (s r : Z)
  | CallNodelay (nd : bool) (i resend : Z) (nc : bool)
  | CallMaximumResendTimes (n : Z).

Definition is_u32 (z : Z) : bool := (0 <=? z)%Z && (z <? 2 ^ 32)%Z.

(** A call on one side, [net] being what the other side wrote. A call may be
    refused, and in stream mode a refused [send] still leaves something in the
    queue. There is no step for arguments out of range. *)
Definition perform (net : list bytes) (c : Call) (p : Peer) : option Peer :=
  let k := kcp p in
  let quiet k := Some (mkPeer k (sent p) (got p)) in
  match c with
  | CallSend b =>
      match send k b with
      | (Ok _, k) => Some (mkPeer k (sent p ++ [b]) (got p))
      | (Err _, k') =>
          match leftover k k' b with [] => quiet k' | part => Some (mkPeer k' (sent p ++ [part]) (got p)) end
      end
  | CallRecv room => match recv k room with (Ok d, k) => Some (mkPeer k (sent p) (got p ++ [d])) | (Err _, k) => quiet k end
  | CallInput i regular nd => d ← net !! i; quiet (input k d regular nd).2
  | CallUpdate now => if is_u32 now then quiet (update k now).2 else None
  | CallFlush => quiet (flush k).2
  | CallFlushAck => quiet (flush_ack k).2
  | CallMtu m => if (Z.of_nat m <? 2 ^ 32)%Z then quiet (set_mtu k m).2 else None
  | CallWndsize s r => if is_u32 s && (0 <=? r)%Z && (r <=? seq_limit)%Z then quiet (set_wndsize k s r) else None
  | CallNodelay nd i resend nc => quiet (set_nodelay k nd i resend nc)
  | CallMaximumResendTimes n => quiet (set_maximum_resend_times k n)
  end.

Definition net_step (n : Net) (e : bool * Call) : option Net :=
  let '(on_a, c) := e in
  if on_a then a ← perform (output (out (kcp (side_b n)))) c (side_a n); Some (mkNet a (side_b n))
  else b ← perform (output (out (kcp (side_a n)))) c (side_b n); Some (mkNet (side_a n) b).

Fixpoint run (n : Net) (es : list (bool * Call)) : option Net :=
  match es with
  | [] => Some n
  | e :: es => n ← net_step n e; run n es
  end.

Definition start (conv : Z) (stream_a stream_b : bool) : Net :=
  mkNet (mkPeer (construct conv stream_a) [] []) (mkPeer (construct conv stream_b) [] []).

(** ** The invariant *)

Section Invariant.
Context (cv : Z).
Implicit Types (p q : Peer) (H G D E : history).

Definition wrote p : bytes := mjoin (sent p).

(** The messages of [p] that [q] got, where [p] sends messages. *)
Definition messages_ok p q H E : Prop :=
  stream (cfg (kcp p)) = false ->
  exists F, Forall2 is_msg (sent p) F /\ accepted (snd (kcp p)) H = mjoin F /\
    exists j, j <= length F /\ E = mjoin (take j F) /\ got q = take j (sent p).

Record side_ok p q H G D : Prop := mkSideOk {
  sd_good : good cv (kcp p) H G D (rcv (kcp q));
  sd_sent : contents (accepted (snd (kcp p)) H) = wrote p;
  sd_got : contents D = mjoin (got p);
}.

Record pair_ok p q H G D E : Prop := mkPairOk {
  po_here : side_ok p q H G D;
  po_there : side_ok q p G H E;
  po_to : messages_ok p q H E;
  po_from : messages_ok q p G D;
}.

Lemma pair_ok_sym p q H G D E : pair_ok p q H G D E -> pair_ok q p G H E D.
Proof. by intros []. Qed.

Lemma contents_length h : Forall payload_ok h -> length h <= length (contents h).
Proof.
  induction 1 as [|x h (_&Hx&_) _ IH]; [done|]. change (contents (x :: h)) with (x.2 ++ contents h).
  rewrite length_app. destruct x as [f [|c d]]; [done|]. cbn in *. lia.
Qed.

Lemma accepted_limit p q H G D :
  side_ok p q H G D -> (Z.of_nat (length (wrote p)) < seq_limit)%Z ->
  (Z.of_nat (length (accepted (snd (kcp p)) H)) < seq_limit)%Z /\ (Z.of_nat (length H) < seq_limit)%Z.
Proof.
  intros [Hg Hs _] Hl. rewrite <- Hs in Hl. pose proof (contents_length _ (so_payload _ _ _ _ (g_snd _ _ _ _ _ _ Hg))).
  assert (length H <= length (accepted (snd (kcp p)) H)) by (unfold accepted; rewrite length_app; lia). lia.
Qed.

Lemma good_peer k G H H' D pr pr' :
  later pr pr' -> H `prefix_of` H' -> good cv k G H D pr -> good cv k G H' D pr'.
Proof. intros ?? []. split; try done; [by eapply snd_ok_later|by eapply rcv_ok_prefix]. Qed.

(** A step of [p] that neither takes new data nor delivers any. *)
Lemma pair_ok_quiet p q k H H' G D E :
  pair_ok p q H G D E -> H `prefix_of` H' -> good cv k H' G D (rcv (kcp q)) -> later (rcv (kcp p)) (rcv k) ->
  accepted (snd k) H' = accepted (snd (kcp p)) H -> stream (cfg k) = stream (cfg (kcp p)) ->
  pair_ok (mkPeer k (sent p) (got p)) q H' G D E.
Proof.
  intros [[H1 H2 H3] [H4 H5 H6] H7 H8] Hp Hg Hl Ha Hs. split.
  - split; cbn; [done|by rewrite Ha|done].
  - split; [|done..]. by eapply good_peer.
  - unfold messages_ok in *. cbn. rewrite Hs, Ha. done.
  - done.
Qed.

(** ** Each call keeps the invariant *)

Lemma send_keeps p q H G D E b n k :
  send (kcp p) b = (Ok n, k) -> pair_ok p q H G D E -> pair_ok (mkPeer k (sent p ++ [b]) (got p)) q H G D E.
Proof.
  intros Hs [[H1 H2 H3] [H4 H5 H6] H7 H8].
  destruct (send_ok cv _ H (rcv (kcp q)) _ _ _ Hs (g_cfg _ _ _ _ _ _ H1) (g_snd _ _ _ _ _ _ H1)) as (Hok&_&Hc&Hm&Hk).
  assert (Hr : rcv k = rcv (kcp p)) by by rewrite Hk. assert (Hcfg : cfg k = cfg (kcp p)) by by rewrite Hk.
  split.
  - split; cbn; [rewrite Hk; by apply good_snd| |done]. rewrite Hc, H2. unfold wrote. cbn [sent]. rewrite list.join_app. cbn. by rewrite app_nil_r.
  - split; cbn; [by rewrite Hr|done..].
  - intros Hst. cbn in *. rewrite Hcfg in Hst. destruct (H7 Hst) as (F&HF&HA&j&Hj&HE&Hgot). destruct (Hm Hst) as (f&Hf&Hacc).
    exists (F ++ [f]). split_and!; [by apply Forall2_app; [|constructor]| |].
    + rewrite Hacc, HA, list.join_app. cbn. by rewrite app_nil_r.
    + pose proof (Forall2_length _ _ _ HF). exists j. rewrite length_app, !take_app_le by lia. split_and!; [lia|done..].
  - done.
Qed.

(** A refused buffer counts with what it leaves in the queue. *)
Lemma refused_keeps p q H G D E b e k l :
  send (kcp p) b = (Err e, k) -> pair_ok p q H G D E ->
  l = match leftover (kcp p) k b with [] => [] | part => [part] end ->
  pair_ok (mkPeer k (sent p ++ l) (got p)) q H G D E.
Proof.
  intros Hs [[H1 H2 H3] [H4 H5 H6] H7 H8] Hl.
  destruct (send_refused cv _ H (rcv (kcp q)) _ _ _ Hs (g_cfg _ _ _ _ _ _ H1) (g_snd _ _ _ _ _ _ H1)) as (Hok&Hk&Hc&Hm).
  assert (Hr : rcv k = rcv (kcp p)) by by rewrite Hk. assert (Hcfg : cfg k = cfg (kcp p)) by by rewrite Hk.
  split.
  - split; cbn; [rewrite Hk; by apply good_snd| |done]. rewrite Hc, H2. unfold wrote. cbn [sent]. rewrite list.join_app. f_equal.
    subst l. destruct (leftover _ _ _); [done|]. cbn. by rewrite app_nil_r.
  - split; cbn; [by rewrite Hr|done..].
  - intros Hst. cbn in *. rewrite Hcfg in Hst. destruct (Hm Hst) as [E0 Ea]. rewrite E0 in Hl. subst l. rewrite app_nil_r, Ea. by apply H7.
  - done.
Qed.

Lemma recv_refused k room e k' : recv k room = (Err e, k') -> k' = k.
Proof. unfold recv. repeat case_match; congruence. Qed.

Lemma recv_frame k room d k' :
  recv k room = (Ok d, k') ->
  cfg k' = cfg k /\ snd k' = snd k /\ out k' = out k /\ current (clk k') = current (clk k).
Proof.
  unfold recv. case_match; [done|]. destruct (peeksize k); [|done]. case_match; [done|].
  destruct (merge _) as [d' q]. intros [= _ <-]. unfold move_buf. destruct (move_loop _ _ _ _) as [[b1 q1] n1].
  cbn. by case_match.
Qed.

Lemma countdown_cons (x : Z * bytes) f :
  countdown (x :: f) <-> x.1 = Z.of_nat (length f) /\ countdown f.
Proof.
  unfold countdown. cbn [length]. rewrite seq_S, fmap_app, reverse_app, fmap_cons. cbn.
  split; [intros [= H1 H2]; split; [lia|done]|intros [-> ->]; done].
Qed.

(** Merging stops where the message ends. *)
Lemma merge_message (f t : history) (q : list KcpSegment) :
  f <> [] -> countdown f -> payload <$> q = f ++ t ->
  merge q = (contents f, drop (length f) q).
Proof.
  revert q. induction f as [|x f IH]; intros q; [done|]. intros _ [Hx Hf]%countdown_cons Hq.
  destruct q as [|seg q]; [done|]. rewrite fmap_cons in Hq. injection Hq as Hseg Hq. cbn [merge].
  assert (Hfrg : seg_frg seg = x.1) by by rewrite <- Hseg. assert (Hdat : seg_data seg = x.2) by by rewrite <- Hseg.
  rewrite Hfrg, Hx, Hdat. destruct f as [|y f].
  - cbn. unfold contents. cbn. by rewrite app_nil_r.
  - rewrite (IH q) by done. done.
Qed.

Lemma recv_peek k room d k' :
  recv k room = (Ok d, k') ->
  exists seg rest, rcv_queue (rcv k) = seg :: rest /\ (seg_frg seg < Z.of_nat (length (rcv_queue (rcv k))) \/ seg_frg seg = 0)%Z.
Proof.
  unfold recv. destruct (Nat.eqb_spec (length (rcv_queue (rcv k))) 0); [done|]. destruct (peeksize k) eqn:Hp; [|done]. intros _.
  unfold peeksize in Hp. destruct (rcv_queue (rcv k)) as [|seg q]; [done|]. exists seg, q. split; [done|].
  destruct (Z.eqb_spec (seg_frg seg) 0); [by right|]. left.
  destruct (Z.ltb_spec (Z.of_nat (length (seg :: q))) (seg_frg seg + 1)); [done|lia].
Qed.

(** In message mode [recv] returns the next message. *)
Lemma recv_message p q H G D E room d k h rest :
  recv (kcp p) room = (Ok d, k) -> pair_ok p q H G D E -> rcv_queue (rcv (kcp p)) = h ++ rest ->
  merge (rcv_queue (rcv (kcp p))) = (d, rest) ->
  messages_ok q (mkPeer k (sent p) (got p ++ [d])) G (D ++ (payload <$> h)).
Proof.
  intros Hr [H1 H2 _ H8] Hq Hm Hst. destruct (H8 Hst) as (F&HF&HA&j&Hj&HD&Hgot).
  destruct (recv_peek _ _ _ _ Hr) as (seg&q0&Hq0&Hfrg).
  pose proof (ro_queue _ _ _ (g_rcv _ _ _ _ _ _ (sd_good _ _ _ _ _ H1))) as Hqueue.
  assert (Hpre : (payload <$> rcv_queue (rcv (kcp p))) `prefix_of` mjoin (drop j F)).
  { assert (Hp : (D ++ (payload <$> rcv_queue (rcv (kcp p)))) `prefix_of` mjoin F).
    { rewrite Hqueue, <- HA. unfold accepted. etransitivity; [apply prefix_take|]. by apply prefix_app_r. }
    rewrite <- (take_drop j F), list.join_app, <- HD in Hp. by apply prefix_app_inv in Hp. }
  assert (Hlt : j < length F).
  { destruct (decide (j < length F)); [done|]. rewrite drop_ge in Hpre by lia. rewrite Hq0 in Hpre. by apply prefix_nil_not in Hpre. }
  destruct (lookup_lt_is_Some_2 F j Hlt) as [f Hf]. destruct (Forall2_lookup_r _ _ _ _ _ HF Hf) as (b&Hb&Hne&Hc&Hcount).
  rewrite (drop_S _ _ _ Hf) in Hpre. cbn [mjoin list_join] in Hpre. destruct Hpre as [t Ht].
  assert (Hlen : length f <= length (rcv_queue (rcv (kcp p)))).
  { destruct f as [|x f]; [done|]. apply countdown_cons in Hcount as [Hx _]. rewrite Hq0 in Ht.
    cbn in Ht. injection Ht as Hx0 _. assert (seg_frg seg = x.1) by by rewrite Hx0. rewrite Hq0 in *. cbn in *. lia. }
  assert (Hsplit : exists t', payload <$> rcv_queue (rcv (kcp p)) = f ++ t').
  { apply (f_equal (take (length f))) in Ht. rewrite take_app_length, take_app_le in Ht by by rewrite length_fmap.
    exists (drop (length f) (payload <$> rcv_queue (rcv (kcp p)))). rewrite Ht at 1. by rewrite take_drop. }
  destruct Hsplit as [t' Ht']. pose proof (merge_message f t' _ Hne Hcount Ht') as Hmm. rewrite Hm in Hmm.
  injection Hmm as Hd Hrest. assert (Hh : payload <$> h = f).
  { rewrite Hq, fmap_app in Ht'. rewrite Hq in Hrest. apply (f_equal length) in Hrest. rewrite length_drop, length_app in Hrest.
    rewrite Hq, length_app in Hlen. apply app_inj_1 in Ht' as [? _]; [done|]. rewrite length_fmap. lia. }
  exists F. split_and!; [done|done|]. exists (S j). rewrite (take_S_r _ _ _ Hf), (take_S_r _ _ _ Hb). cbn. split_and!; [lia| |].
  - rewrite list.join_app, <- HD, Hh. cbn. by rewrite app_nil_r.
  - by rewrite Hgot, Hd, Hc.
Qed.

Lemma recv_keeps p q H G D E room d k :
  recv (kcp p) room = (Ok d, k) -> pair_ok p q H G D E -> (Z.of_nat (length G) < seq_limit)%Z ->
  exists D', pair_ok (mkPeer k (sent p) (got p ++ [d])) q H G D' E.
Proof.
  intros Hr Hp HG. destruct (recv_frame _ _ _ _ Hr) as (E1&E2&E3&E4). pose proof Hp as [[H1 H2 H3] [H4 H5 H6] H7 H8].
  destruct (recv_ok _ G D _ _ _ Hr (g_rcv _ _ _ _ _ _ H1) HG) as (h&rest&Hq&Hm&Hd&Hok&Hl).
  exists (D ++ (payload <$> h)). split.
  - split; cbn.
    + destruct H1. split; rewrite ?E1, ?E2, ?E3, ?E4; try done. by eapply out_ok_mono.
    + by rewrite E2.
    + rewrite contents_app, H3, list.join_app, Hd. cbn. rewrite app_nil_r. unfold contents. by rewrite <- list_fmap_compose.
  - split; cbn; [by eapply good_peer|done..].
  - unfold messages_ok in *. cbn. by rewrite E1, E2.
  - by eapply recv_message.
Qed.

Section Limits.
Context p q H G D E (Hp : pair_ok p q H G D E).
Hypothesis Hlp : (Z.of_nat (length (wrote p)) < seq_limit)%Z.
Hypothesis Hlq : (Z.of_nat (length (wrote q)) < seq_limit)%Z.

(** A call that only changes the endpoint keeps the invariant. *)
Definition keeps (k : Kcp) : Prop := exists H', pair_ok (mkPeer k (sent p) (got p)) q H' G D E.

Lemma keeps_same k :
  cfg_ok cv (cfg k) -> stream (cfg k) = stream (cfg (kcp p)) -> (0 <= current (clk k) < 2 ^ 32)%Z ->
  snd k = snd (kcp p) -> rcv k = rcv (kcp p) -> out k = out (kcp p) -> keeps k.
Proof.
  intros Hc Hst Hn E1 E2 E3. exists H. pose proof (sd_good _ _ _ _ _ (po_here _ _ _ _ _ _ Hp)) as Hg.
  eapply pair_ok_quiet; [exact Hp|done| |by rewrite E2|by rewrite E1|done].
  destruct Hg. split; rewrite ?E1, ?E2, ?E3; done.
Qed.

Lemma flush_inner_keeps k ft :
  good cv k H G D (rcv (kcp q)) -> snd k = snd (kcp p) -> rcv k = rcv (kcp p) -> cfg k = cfg (kcp p) ->
  keeps (flush_inner k ft).
Proof.
  intros Hg E1 E2 E3. destruct (accepted_limit _ _ _ _ _ (po_here _ _ _ _ _ _ Hp) Hlp) as [HA _].
  destruct (accepted_limit _ _ _ _ _ (po_there _ _ _ _ _ _ Hp) Hlq) as [_ HG].
  destruct (flush_inner_ok cv k H G D (rcv (kcp q)) ft Hg) as (H'&?&?&Ha&Hl&_&Hc); [by rewrite E1|done|].
  exists H'. eapply pair_ok_quiet; [exact Hp|done|done|by rewrite <- E2|by rewrite Ha, E1|by rewrite Hc, E3].
Qed.

Lemma flush_keeps k ft :
  good cv k H G D (rcv (kcp q)) -> snd k = snd (kcp p) -> rcv k = rcv (kcp p) -> cfg k = cfg (kcp p) -> out k = out (kcp p) ->
  keeps (if negb (updated (clk k)) then (Err NeedUpdate, k) else (Ok tt, flush_inner k ft) : result KcpError unit * Kcp).2.
Proof.
  intros Hg E1 E2 E3 E4. case_match; [|by apply flush_inner_keeps]. apply keeps_same; cbn; try done; [apply Hg|by rewrite E3|apply Hg].
Qed.

Lemma update_keeps now : (0 <= now < 2 ^ 32)%Z -> keeps (update (kcp p) now).2.
Proof.
  intros Hnow. pose proof (sd_good _ _ _ _ _ (po_here _ _ _ _ _ _ Hp)) as Hg.
  assert (Hset : forall ts, let k := set_clk (kcp p) (mkClock (probe (clk (kcp p))) now ts true (ts_probe (clk (kcp p)))
      (probe_wait (clk (kcp p))) (link_state (clk (kcp p)))) in good cv k H G D (rcv (kcp q))).
  { intros ts. destruct Hg. by split. }
  unfold update. destruct (if (_ <? _)%Z || _ then _ else _) as [ts slap]. case_match.
  - by apply (flush_keeps _ Full).
  - apply keeps_same; try done; apply Hg.
Qed.

Lemma input_keeps d regular nd : d ∈ output (out (kcp q)) -> keeps (input (kcp p) d regular nd).2.
Proof.
  intros Hd. pose proof (sd_good _ _ _ _ _ (po_here _ _ _ _ _ _ Hp)) as Hg.
  pose proof (sd_good _ _ _ _ _ (po_there _ _ _ _ _ _ Hp)) as Hg'.
  pose proof (oo_output _ _ _ _ (g_out _ _ _ _ _ _ Hg')) as HF. rewrite Forall_forall in HF. destruct (HF d Hd) as (segs&->&Hall).
  destruct (decide (segs = [])) as [->|Hne]; [apply keeps_same; try done; apply Hg|].
  destruct (accepted_limit _ _ _ _ _ (po_here _ _ _ _ _ _ Hp) Hlp) as [HA _].
  destruct (accepted_limit _ _ _ _ _ (po_there _ _ _ _ _ _ Hp) Hlq) as [_ HG].
  destruct (input_datagram cv (kcp p) H G D (rcv (kcp q)) segs regular nd Hg Hall Hne) as (_&_&k'&H'&_&_&Hi&Hpre&Hgk&Hl&Ha&Hc);
    [apply (g_rcv _ _ _ _ _ _ Hg')|done|done|].
  rewrite Hi. exists H'. cbn. eapply pair_ok_quiet; [exact Hp|done|done|done|done|by rewrite Hc].
Qed.

(** The settings. *)
Lemma setting_keeps c :
  cfg_ok cv c -> stream c = stream (cfg (kcp p)) -> keeps (set_cfg (kcp p) c).
Proof. intros Hc Hs. apply keeps_same; try done. apply (sd_good _ _ _ _ _ (po_here _ _ _ _ _ _ Hp)). Qed.

End Limits.

Lemma perform_ok p q H G D E c p' :
  perform (output (out (kcp q))) c p = Some p' -> pair_ok p q H G D E ->
  (Z.of_nat (length (wrote p')) < seq_limit)%Z -> (Z.of_nat (length (wrote q)) < seq_limit)%Z ->
  exists H' D', pair_ok p' q H' G D' E.
Proof.
  intros Hc Hp Hlp Hlq. pose proof (g_cfg _ _ _ _ _ _ (sd_good _ _ _ _ _ (po_here _ _ _ _ _ _ Hp))) as [C1 C2 C3 C4 C5].
  assert (Hk : forall k, Some (mkPeer k (sent p) (got p)) = Some p' ->
    ((Z.of_nat (length (wrote p)) < seq_limit)%Z -> keeps p q G D E k) -> exists H' D', pair_ok p' q H' G D' E).
  { intros k [= <-] Hkeep. destruct (Hkeep Hlp) as [H' HH]. by exists H', D. }
  destruct c as [b|room|i regular nd|now| | |m|s r|nd i resend nc|n]; cbn [perform] in Hc.
  - destruct (send (kcp p) b) as [[n|e] k] eqn:Hs; [injection Hc as <-; exists H, D; by eapply send_keeps|]. exists H, D.
    pose proof (refused_keeps p q H G D E b e k _ Hs Hp eq_refl) as Hr.
    destruct (leftover (kcp p) k b); injection Hc as <-; [by rewrite app_nil_r in Hr|done].
  - destruct (recv (kcp p) room) as [[d|e] k] eqn:Hs.
    + injection Hc as <-. exists H. eapply recv_keeps; [done..|]. by eapply accepted_limit; [apply Hp|].
    + apply recv_refused in Hs as ->. injection Hc as <-. exists H, D. by destruct p.
  - apply bind_Some in Hc as (d&Hd&Hc). eapply Hk; [done|]. intros Hl. eapply input_keeps; try done. by eapply list_elem_of_lookup_2.
  - destruct (is_u32 now) eqn:Hu; [|done]. eapply Hk; [done|]. intros Hl. eapply update_keeps; try done.
    unfold is_u32 in Hu. lia.
  - eapply Hk; [done|]. intros Hl. by eapply (flush_keeps p q H G D E); [..|apply Hp|done|done|done|done].
  - eapply Hk; [done|]. intros Hl. by eapply (flush_keeps p q H G D E); [..|apply Hp|done|done|done|done].
  - destruct (Z.ltb_spec (Z.of_nat m) (2 ^ 32)) as [Hm|]; [|done]. eapply Hk; [done|]. intros Hl. unfold set_mtu.
    destruct (Nat.leb_spec m KCP_OVERHEAD); [by eapply keeps_same; try done; apply Hp|].
    eapply setting_keeps; [done|split; cbn; try done; unfold KCP_OVERHEAD in *; lia|done].
  - destruct (is_u32 s && (0 <=? r)%Z && (r <=? seq_limit)%Z) eqn:Hu; [|done]. eapply Hk; [done|]. intros Hl.
    eapply setting_keeps; [done|split; cbn; try done|done]. destruct (0 <? r)%Z; [|done]. unfold is_u32 in Hu. lia.
  - eapply Hk; [done|]. intros Hl. eapply setting_keeps; [done|by split|done].
  - eapply Hk; [done|]. intros Hl. eapply setting_keeps; [done|by split|done].
Qed.

(** ** Runs *)

Lemma perform_wrote net c p p' : perform net c p = Some p' -> sent p `prefix_of` sent p'.
Proof.
  destruct c; cbn [perform]; intros Hc; [..|by injection Hc as <-|by injection Hc as <-].
  3: by apply bind_Some in Hc as (d&_&[= <-]).
  all: repeat case_match; simplify_eq; try done.
  all: by apply prefix_app_r.
Qed.

Lemma wrote_mono p p' : sent p `prefix_of` sent p' -> length (wrote p) <= length (wrote p').
Proof. intros [l Hl]. unfold wrote. rewrite Hl, list.join_app, length_app. lia. Qed.

Definition within_limit (n : Net) : Prop :=
  (Z.of_nat (length (wrote (side_a n))) < seq_limit)%Z /\ (Z.of_nat (length (wrote (side_b n))) < seq_limit)%Z.

Lemma net_step_limit n e n' : net_step n e = Some n' -> within_limit n' -> within_limit n.
Proof.
  destruct e as [[] c]; cbn [net_step]; intros (p&Hp%perform_wrote%wrote_mono&[= <-])%bind_Some [??]; split; cbn in *; lia.
Qed.

Lemma run_limit es n n' : run n es = Some n' -> within_limit n' -> within_limit n.
Proof.
  revert n. induction es as [|e es IH]; intros n; cbn [run]; [by intros [= <-]|].
  intros (n1&H1&H2)%bind_Some Hl. eapply net_step_limit; eauto.
Qed.

Definition net_ok (n : Net) : Prop := exists H G D E, pair_ok (side_a n) (side_b n) H G D E.

Lemma net_step_ok n e n' : net_step n e = Some n' -> within_limit n' -> net_ok n -> net_ok n'.
Proof.
  destruct e as [[] c]; cbn [net_step]; intros (p&Hc&[= <-])%bind_Some [La Lb] (H&G&D&E&Hp).
  - destruct (perform_ok _ _ _ _ _ _ _ _ Hc Hp) as (H'&D'&HH); [done..|]. by exists H', G, D', E.
  - destruct (perform_ok _ _ _ _ _ _ _ _ Hc (pair_ok_sym _ _ _ _ _ _ Hp)) as (G'&E'&HH); [done..|].
    exists H, G', D, E'. by apply pair_ok_sym.
Qed.

Lemma run_ok es n n' : run n es = Some n' -> within_limit n' -> net_ok n -> net_ok n'.
Proof.
  revert n. induction es as [|e es IH]; intros n; cbn [run]; [by intros [= <-]|].
  intros (n1&H1&H2)%bind_Some Hl Hn. eapply IH; [done..|]. eapply net_step_ok; [done| |done]. by eapply run_limit.
Qed.

Lemma construct_good st pr : (0 <= cv < 2 ^ 32)%Z -> rcv_nxt pr = 0%Z -> good cv (construct cv st) [] [] [] pr.
Proof.
  intros Hcv Hpr. split; [by split; [..|split]| |..]; try done.
  - by split; cbn; [|lia|..|constructor|constructor].
  - split; [by exists []|by apply Forall_nil_2].
Qed.

Lemma start_ok sa sb : (0 <= cv < 2 ^ 32)%Z -> net_ok (start cv sa sb).
Proof.
  intros Hcv. exists [], [], [], []. split; [split|split|..]; try done; [by apply construct_good..| |].
  all: intros _; exists []; split_and!; [constructor|done|]; by exists 0.
Qed.

Lemma reachable_ok sa sb es n :
  (0 <= cv < 2 ^ 32)%Z -> run (start cv sa sb) es = Some n -> within_limit n -> net_ok n.
Proof. intros. eapply run_ok; [done..|]. by apply start_ok. Qed.

End Invariant.

(** ** What arrives *)

(** The bytes [q] got are the first of those [p] sent; nothing is lost, for
    when [p] has nothing left to send, [q] has all of them. *)
Definition delivers (p q : Peer) : Prop :=
  mjoin (got q) `prefix_of` wrote p /\
  (wait_snd (kcp p) = 0 -> mjoin (got q) ++ mjoin (seg_data <$> rcv_queue (rcv (kcp q))) = wrote p).

Lemma pair_delivers cv p q H G D E : pair_ok cv p q H G D E -> delivers p q.
Proof.
  intros [[Hg Hs _] [Hg' _ Hgot] _ _]. destruct (g_rcv _ _ _ _ _ _ Hg') as [Hn Hq _ _].
  assert (Hcont : contents (E ++ (payload <$> rcv_queue (rcv (kcp q)))) =
    mjoin (got q) ++ mjoin (seg_data <$> rcv_queue (rcv (kcp q)))).
  { rewrite contents_app, Hgot. f_equal. unfold contents. by rewrite <- list_fmap_compose. }
  split.
  - rewrite <- Hs. unfold accepted. rewrite <- (take_drop (Z.to_nat (rcv_nxt (rcv (kcp q)))) H), <- Hq.
    rewrite !contents_app, Hgot, <- !app_assoc. by apply prefix_app_r.
  - intros Hw. unfold wait_snd in Hw. destruct (g_snd _ _ _ _ _ _ Hg) as [S1 S2 S3 S4 S5].
    destruct (snd_buf (snd (kcp p))) eqn:Hb; [|cbn in Hw; lia]. destruct (snd_queue (snd (kcp p))) eqn:Hqu; [|cbn in Hw; lia].
    cbn in S3. rewrite <- Hs, <- Hcont, Hq. unfold accepted. rewrite Hqu, take_ge by lia. by rewrite app_nil_r.
Qed.

(** ** A run

    Two buffers are sent, the datagrams arrive in the wrong order and one of
    them twice, and one acknowledgement comes back. *)

Definition demo : list (bool * Call) :=
  [(true, CallNodelay true 10 2 true); (true, CallUpdate 0);
   (true, CallSend (b! "hello")); (true, CallFlush); (true, CallSend (b! ", world")); (true, CallFlush);
   (false, CallUpdate 5); (false, CallInput 1 true false); (false, CallInput 0 true false);
   (false, CallInput 1 true false); (false, CallRecv 100); (false, CallFlush); (false, CallRecv 100);
   (true, CallInput 0 true false)].

Definition demo_net (stream : bool) : Net := default (start 7 stream stream) (run (start 7 stream stream) demo).

Lemma demo_runs stream : run (start 7 stream stream) demo = Some (demo_net stream).
Proof. by destruct stream; vm_compute. Qed.

Lemma demo_within stream : within_limit (demo_net stream).
Proof. by destruct stream; split; vm_compute. Qed.

(** ** Theorems *)

(** C7: KCP delivers a byte stream over a network that loses, repeats and
    reorders datagrams. However the two ends call send, recv, input, update,
    flush and their settings, refused calls included, with receive windows of
    at most [2 ^ 30] segments and fewer than [2 ^ 30] bytes sent either way, the
    bytes an application got are the first of those its peer sent, in order; and once
    a sender has nothing waiting, its peer holds all of them, got or ready to
    be read. In stream mode a refused send has filled up the last segment, and
    these bytes count as sent. *)
Theorem kcp_delivers cv sa sb es n :
  (0 <= cv < 2 ^ 32)%Z -> run (start cv sa sb) es = Some n -> within_limit n ->
  delivers (side_a n) (side_b n) /\ delivers (side_b n) (side_a n).
Proof.
  intros Hcv Hr Hl. destruct (reachable_ok cv sa sb es n Hcv Hr Hl) as (H&G&D&E&Hp).
  split; eapply pair_delivers; [done|by apply pair_ok_sym].
Qed.

Lemma kcp_delivers_witness :
  delivers (side_a (demo_net true)) (side_b (demo_net true)) /\ wait_snd (kcp (side_a (demo_net true))) = 0 /\
  mjoin (got (side_b (demo_net true))) = b! "hello, world".
Proof.
  split; [|by vm_compute]. apply (kcp_delivers 7 true true demo (demo_net true)); [done|apply demo_runs|apply demo_within].
Defined.

(** In stream mode the first bytes of a refused buffer reach the peer. *)
Example refused_send_arrives :
  (n ← run (start 7 true true)
     [(true, CallNodelay true 10 2 true); (true, CallUpdate 0); (true, CallMtu 32); (true, CallSend (b! "hello"));
      (true, CallSend (replicate 3000 "x"%char)); (true, CallFlush); (false, CallInput 0 true false); (false, CallRecv 100)];
   Some (sent (side_a n), got (side_b n))) = Some ([b! "hello"; b! "xxx"], [b! "helloxxx"]).
Proof. vm_compute. reflexivity. Qed.

(** C34: In message mode boundaries are kept. The buffers an application got
    are, one for one, the first of the buffers its peer sent, although each
    travels as fragments that are lost, repeated and reordered on their own. *)
Theorem kcp_messages cv sa sb es n :
  (0 <= cv < 2 ^ 32)%Z -> run (start cv sa sb) es = Some n -> within_limit n ->
  stream (cfg (kcp (side_a n))) = false -> got (side_b n) `prefix_of` sent (side_a n).
Proof.
  intros Hcv Hr Hl Hst. destruct (reachable_ok cv sa sb es n Hcv Hr Hl) as (H&G&D&E&Hp).
  destruct (po_to _ _ _ _ _ _ _ Hp Hst) as (F&_&_&j&_&_&->). apply prefix_take.
Qed.

Lemma kcp_messages_witness :
  got (side_b (demo_net false)) `prefix_of` sent (side_a (demo_net false)) /\
  got (side_b (demo_net false)) = [b! "hello"; b! ", world"].
Proof.
  split; [|by vm_compute].
  apply (kcp_messages 7 false false demo (demo_net false)); [done|apply demo_runs|apply demo_within|by vm_compute].
Defined.

(** A datagram a peer wrote is never refused, whenever it arrives:
    [input] reads it to its end, without an error and without a division by
    zero. *)
Theorem kcp_datagrams_accepted cv sa sb es n d regular nodelay :
  (0 <= cv < 2 ^ 32)%Z -> run (start cv sa sb) es = Some n -> within_limit n ->
  d ∈ output (out (kcp (side_a n))) ->
  d = [] \/ (input (kcp (side_b n)) d regular nodelay).1 = Ok (length d).
Proof.
  intros Hcv Hr Hl Hd. destruct (reachable_ok cv sa sb es n Hcv Hr Hl) as (H&G&D&E&Hp). destruct Hl as [La Lb].
  pose proof (sd_good _ _ _ _ _ _ (po_here _ _ _ _ _ _ _ Hp)) as Hg.
  pose proof (sd_good _ _ _ _ _ _ (po_there _ _ _ _ _ _ _ Hp)) as Hg'.
  pose proof (oo_output _ _ _ _ (g_out _ _ _ _ _ _ Hg)) as HF. rewrite Forall_forall in HF. destruct (HF d Hd) as (segs&->&Hall).
  destruct (accepted_limit _ _ _ _ _ _ (po_here _ _ _ _ _ _ _ Hp) La) as [_ HH].
  destruct (accepted_limit _ _ _ _ _ _ (po_there _ _ _ _ _ _ _ Hp) Lb) as [HA _].
  destruct (decide (segs = [])) as [->|Hne]; [by left|]. right.
  destruct (input_datagram cv (kcp (side_b n)) G H E (rcv (kcp (side_a n))) segs regular nodelay Hg' Hall Hne)
    as (_&_&k'&H'&_&_&Hi&_); [apply (g_rcv _ _ _ _ _ _ Hg)|done|done|by rewrite Hi].
Qed.

Lemma kcp_datagrams_accepted_witness :
  exists d, output (out (kcp (side_a (demo_net true)))) !! 1 = Some d /\
    (d = [] \/ (input (kcp (side_b (demo_net true))) d true true).1 = Ok (length d)).
Proof.
  eexists. split; [vm_compute; reflexivity|].
  apply (kcp_datagrams_accepted 7 true true demo (demo_net true)); [done|apply demo_runs|apply demo_within|].
  apply (list_elem_of_lookup_2 _ 1). by vm_compute.
Defined.

End KcpNet.
