(* ===== verification/KcpLive.v ===== *)
(** * KCP keeps sending what the peer lacks

    A segment in flight that is not acknowledged, and is new or past its
    deadline, is in a new datagram that a full flush writes; and a peer that
    takes this datagram in has the segment from then on. *)

From S2P Require Import Prelude Strings Bits Kcp KcpWire KcpInv KcpOps KcpNet.

Module KcpLive.
Import Kcp KcpWire KcpInv KcpReceiver KcpSender KcpFlush KcpInput KcpSend KcpNet.

Section Live.
Context (cv : Z).
Implicit Types (H G D : history) (r pr : Receiver) (o : Out) (k : Kcp).

(** A datagram with data segment [n] in it. *)
Definition carries_in r H (n : Z) (d : bytes) : Prop :=
  exists segs, d = encode_all segs /\ Forall (seg_ok cv r H) segs /\
    exists s, s ∈ segs /\ seg_cmd s = KCP_CMD_PUSH /\ seg_sn s = n.

(** It is among those written after the first ones [l], or about to be. *)
Definition carries (l : list bytes) r H n o : Prop :=
  exists new d, output o = l ++ new /\ d ∈ buf o :: new /\ carries_in r H n d.

Lemma carries_write_out l r H n o : carries l r H n o -> carries l r H n (write_out o).
Proof.
  intros (new&d&Ho&Hd&Hc). exists (new ++ [buf o]), d. cbn. rewrite Ho, app_assoc. split_and!; [done| |done].
  apply elem_of_cons in Hd. rewrite elem_of_cons, elem_of_app, list_elem_of_singleton. tauto.
Qed.

Lemma carries_make_room l r H n m need o : carries l r H n o -> carries l r H n (make_room m need o).
Proof. unfold make_room. case_match; [apply carries_write_out|done]. Qed.

Lemma carries_put l r H n o seg : seg_ok cv r H seg -> carries l r H n o -> carries l r H n (put seg o).
Proof.
  intros Hs (new&d&Ho&[->|Hd]%elem_of_cons&Hc).
  - exists new, (buf o ++ encode seg). split_and!; [done|apply elem_of_cons; by left|]. destruct Hc as (segs&->&Hall&s&Hin&Hc).
    exists (segs ++ [seg]). split_and!; [by rewrite encode_all_snoc|apply Forall_app; split; [done|by apply Forall_singleton]|].
    exists s. split; [|done]. apply elem_of_app. by left.
  - exists new, d. split_and!; [done|apply elem_of_cons; by right|done].
Qed.

(** What is put is carried. *)
Lemma put_carries l r H o seg :
  l `prefix_of` output o -> seg_ok cv r H seg -> seg_cmd seg = KCP_CMD_PUSH -> out_ok cv r H o ->
  carries l r H (seg_sn seg) (put seg o).
Proof.
  intros [new Ho] Hs Hc [(segs&Hb&Hall) _]. exists new, (buf o ++ encode seg). split_and!; [done|apply elem_of_cons; by left|].
  exists (segs ++ [seg]). split_and!; [by rewrite encode_all_snoc, Hb|apply Forall_app; split; [done|by apply Forall_singleton]|].
  exists seg. split; [|done]. apply elem_of_app. right. by apply list_elem_of_singleton.
Qed.

(** ** The pass over the segments in flight *)

Lemma flush_segments_carries l k H G pr resent new n b p b' p' m :
  flush_segments k resent new b p = (b', p') ->
  flushing cv k H G -> in_flight cv H pr n b -> carries l (rcv k) H m (p_out p) ->
  carries l (rcv k) H m (p_out p').
Proof.
  intros Hf Hk. revert n p b' Hf. induction b as [|seg b IH]; intros n p b'; cbn [flush_segments].
  { by intros [= <- <-]. }
  destruct (acked seg) eqn:Ha; [|destruct (resend_kind k resent new seg) eqn:Hkind].
  1,2: destruct (flush_segments k resent new b p) as [b1 p1] eqn:Hf; intros [= <- <-] [Hs Hb] Ho; by eapply IH.
  all: destruct (flush_segments _ _ _ _ _) as [b1 p1] eqn:Hf; intros [= <- <-] [Hs Hb] Ho.
  all: eapply IH; [done..|]; apply carries_put; [by eapply schedule_seg_ok|by apply carries_make_room].
Qed.

Lemma flush_segments_sends l k H G pr resent new n b p b' p' seg :
  flush_segments k resent new b p = (b', p') ->
  flushing cv k H G -> in_flight cv H pr n b -> out_ok cv (rcv k) H (p_out p) -> l `prefix_of` output (p_out p) ->
  seg ∈ b -> acked seg = false -> resend_kind k resent new seg <> NotDue ->
  carries l (rcv k) H (seg_sn seg) (p_out p').
Proof.
  intros Hf Hk Hb Ho Hpre Hin Ha Hdue. revert n p b' Hf Hb Ho Hpre. induction b as [|s b IH]; intros n p b'; [by apply not_elem_of_nil in Hin|].
  cbn [flush_segments in_flight]. apply elem_of_cons in Hin as [<-|Hin].
  - rewrite Ha. destruct (resend_kind k resent new seg) eqn:Hkind; [done|..].
    all: destruct (flush_segments _ _ _ _ _) as [b1 p1] eqn:Hf; intros [= <- <-] [Hs Hb] Ho Hpre.
    all: eapply flush_segments_carries; [done..|]; cbn [p_out].
    all: match goal with |- context [schedule ?k0 ?kd ?s0] => change (seg_sn s0) with (seg_sn (schedule k0 kd s0)) end.
    all: apply put_carries; [by etrans; [|apply make_room_output]|by eapply schedule_seg_ok|apply Hs|by apply make_room_ok].
  - destruct (acked s) eqn:Has; [|destruct (resend_kind k resent new s) eqn:Hkind].
    1,2: destruct (flush_segments k resent new b p) as [b1 p1] eqn:Hf; intros [= <- <-] [Hs Hb] Ho Hpre; by eapply IH.
    all: destruct (flush_segments _ _ _ _ _) as [b1 p1] eqn:Hf; intros [= <- <-] [Hs Hb] Ho Hpre.
    all: eapply IH; [done..| |by etrans; [|apply make_room_output]]; apply put_ok; [by eapply schedule_seg_ok|by apply make_room_ok].
Qed.

Lemma slide_loop_buf window una q nxt b m q' nxt' b' m' seg :
  slide_loop cv window una q nxt b m = (q', nxt', b', m') -> seg ∈ b -> seg ∈ b'.
Proof.
  revert nxt b m. induction q as [|s q IH]; intros nxt b m; cbn [slide_loop]; [by intros [= <- <- <- <-]|].
  case_match; [|by intros [= <- <- <- <-]]. intros Hl Hin. eapply IH; [done|]. apply elem_of_app. by left.
Qed.

(** ** A full flush *)

(** The segment is sent for the first time or its deadline has passed. *)
Definition due k (seg : KcpSegment) : Prop :=
  acked seg = false /\ (xmit seg = 0 \/ 0 <= timediff (current (clk k)) (resendts seg))%Z.

Lemma due_kind k resent new seg : due k seg -> resend_kind k resent new seg <> NotDue.
Proof.
  intros [_ Hd]. unfold resend_kind. destruct (Z.eqb_spec (xmit seg) 0); [done|]. case_match; [done|]. case_match; [done|].
  destruct (Z.leb_spec 0 (timediff (current (clk k)) (resendts seg))); [done|]. lia.
Qed.

Lemma flush_sends k H G D pr seg :
  good cv k H G D pr -> (Z.of_nat (length (accepted (snd k) H)) < seq_limit)%Z -> (Z.of_nat (length G) < seq_limit)%Z ->
  seg ∈ snd_buf (snd k) -> due k seg ->
  exists H' new d, H `prefix_of` H' /\ good cv (flush_inner k Full) H' G D pr /\
    later (rcv k) (rcv (flush_inner k Full)) /\ accepted (snd (flush_inner k Full)) H' = accepted (snd k) H /\
    output (out (flush_inner k Full)) = output (out k) ++ new /\ d ∈ new /\ carries_in (rcv (flush_inner k Full)) H' (seg_sn seg) d.
Proof.
  intros Hg HA HG Hin Hdue.
  destruct (flush_inner_parts cv k H G D pr Full Hg HG) as (k3&w&rs&s&new&b&p&[Hg3 P1 P2 P3 P4 P5 P6 Hs Hf F1 F2 F3 F4 F5]).
  rewrite <- P1 in HA, Hin. destruct (slide_flushing _ _ _ _ _ _ _ _ _ Hs Hg3 HA HG) as (H'&Hp&Hs'&Ho'&Hacc&Hfl).
  assert (Hin' : seg ∈ snd_buf s).
  { revert Hs. unfold slide. destruct (slide_loop _ _ _ _ _ _ _) as [[[q nxt] b0] m] eqn:Hl. intros [= <- <-].
    by eapply slide_loop_buf. }
  assert (Hc : carries (output (out k)) (rcv k3) H' (seg_sn seg) (p_out p)).
  { eapply (flush_segments_sends _ (set_snd k3 s)); [exact Hf|done|apply Hs'|done|done|done|apply Hdue|].
    apply due_kind. unfold due in *. cbn. by rewrite P3. }
  destruct (flush_segments_ok cv _ _ _ _ _ _ _ _ _ _ _ Hf Hfl (so_buf _ _ _ _ Hs') Ho') as [Hb' Ho3]. cbn in Ho3.
  destruct Hc as (fresh&d&Ho&Hd&Hc).
  assert (Hg' : good cv (flush_inner k Full) H' G D pr).
  { destruct Hg3, Hs'. split; rewrite ?F1, ?F2, ?F3, ?F4, ?F5; try done. case_match; [done|by apply write_out_ok]. }
  exists H'. rewrite F2, F3, F5. destruct (Nat.eqb_spec (length (buf (p_out p))) 0) as [He|_].
  - exists fresh, d. split_and!; [done|done|done|by rewrite <- P1, <- Hacc|done| |done].
    apply elem_of_cons in Hd as [->|Hd]; [|done]. destruct Hc as ([|s0 segs]&Hs0&_&s1&Hs1&_); [by apply not_elem_of_nil in Hs1|].
    rewrite Hs0, encode_all_cons, length_app, encode_length in He. unfold KCP_OVERHEAD in He. lia.
  - exists (fresh ++ [buf (p_out p)]), d. split_and!; [done|done|done|by rewrite <- P1, <- Hacc|cbn; by rewrite Ho, app_assoc| |done].
    rewrite elem_of_app, list_elem_of_singleton. apply elem_of_cons in Hd. tauto.
Qed.

(** ** The peer takes it in *)

Lemma input_segments_has k H G D pr regular segs sc k' sc' s :
  input_segments regular segs k sc = (k', sc') ->
  good cv k H G D pr -> Forall (seg_ok cv pr G) segs -> (rcv_nxt pr <= Z.of_nat (length H))%Z ->
  (Z.of_nat (length H) < seq_limit)%Z -> (Z.of_nat (length G) < seq_limit)%Z ->
  s ∈ segs -> seg_cmd s = KCP_CMD_PUSH -> (seg_sn s < rcv_nxt (rcv k) + rcv_wnd (cfg k))%Z ->
  has (rcv k') (seg_sn s).
Proof.
  intros Hi Hg Hall Hpr HH HG Hin Hcmd. revert k sc Hi Hg. induction Hall as [|seg segs Hseg Hall IH]; intros k sc.
  { by apply not_elem_of_nil in Hin. }
  cbn [input_segments]. destruct (input_segment _ _ _ _) as [k1 sc1] eqn:H1. intros Hi Hg Hw.
  destruct (input_segment_ok cv _ H G D pr _ _ _ _ _ H1) as (Hg1&Hl1&Ha1&Hhas); try done.
  pose proof (input_segment_cfg regular (wire seg) k sc) as Hcfg. rewrite H1 in Hcfg. cbn in Hcfg.
  apply elem_of_cons in Hin as [->|Hin].
  - destruct (input_segments_ok cv _ H G D pr _ _ _ _ _ Hi Hg1) as (_&Hl&_); try done. by apply Hl, Hhas.
  - eapply (IH Hin); [done..|]. rewrite Hcfg. destruct Hl1 as [Hn _]. lia.
Qed.

(** A peer that takes the datagram in has the segment. *)
Lemma input_has k H G D pr d regular nodelay n :
  good cv k H G D pr -> carries_in pr G n d -> (rcv_nxt pr <= Z.of_nat (length H))%Z ->
  (Z.of_nat (length (accepted (snd k) H)) < seq_limit)%Z -> (Z.of_nat (length G) < seq_limit)%Z ->
  (n < rcv_nxt (rcv k) + rcv_wnd (cfg k))%Z -> has (rcv (input k d regular nodelay).2) n.
Proof.
  intros Hg (segs&->&Hall&s&Hin&Hcmd&<-) Hpr HA HG Hw.
  assert (HH : (Z.of_nat (length H) < seq_limit)%Z) by (revert HA; unfold accepted; rewrite length_app; lia).
  assert (Hne : segs <> []) by (intros ->; by apply not_elem_of_nil in Hin).
  destruct (input_datagram cv k H G D pr segs regular nodelay Hg Hall Hne) as (k1&sc&k'&H'&Hi&Hl&Hi'&_); [done..|].
  rewrite Hi'. apply Hl. by eapply input_segments_has.
Qed.

End Live.

(** C33: What a peer lacks keeps being sent. In any state two endpoints reach
    with fewer than [2 ^ 30] bytes sent either way, a full flush writes, after
    what was written before, a new datagram with each segment in flight that is
    not acknowledged and was never sent or is past its deadline; and if the
    segment is within the window of the peer, the peer has it once it takes in
    that datagram. *)
Theorem kcp_resends cv sa sb es n seg regular nodelay :
  (0 <= cv < 2 ^ 32)%Z -> run (start cv sa sb) es = Some n -> within_limit n ->
  let k := kcp (side_a n) in let peer := kcp (side_b n) in
  seg ∈ snd_buf (snd k) -> due k seg -> (seg_sn seg < rcv_nxt (rcv peer) + rcv_wnd (cfg peer))%Z ->
  exists new d, output (out (flush_inner k Full)) = output (out k) ++ new /\ d ∈ new /\
    has (rcv (input peer d regular nodelay).2) (seg_sn seg).
Proof.
  intros Hcv Hr Hl k peer Hin Hdue Hw. destruct (reachable_ok cv sa sb es n Hcv Hr Hl) as (H&G&D&E&Hp). destruct Hl as [La Lb].
  destruct (accepted_limit _ _ _ _ _ _ (po_here _ _ _ _ _ _ _ Hp) La) as [HA HH].
  destruct (accepted_limit _ _ _ _ _ _ (po_there _ _ _ _ _ _ _ Hp) Lb) as [HB HG].
  destruct Hp as [[Hg _ _] [Hg' _ _] _ _].
  destruct (flush_sends cv k H G D (rcv peer) seg Hg HA HG Hin Hdue) as (H'&new&d&Hpre&Hgk&Hlat&Hacc&Ho&Hd&Hc).
  exists new, d. split_and!; [done..|]. eapply (input_has cv peer G H' E (rcv (flush_inner k Full))); [|done|..|done].
  - by eapply good_peer.
  - apply (g_rcv _ _ _ _ _ _ Hgk).
  - done.
  - fold k in HA. rewrite <- Hacc in HA. unfold accepted in HA. rewrite length_app in HA. lia.
Qed.

(** An endpoint whose one datagram was lost, and whose deadline has passed
    without a flush since. *)
Definition overdue : list (bool * Call) :=
  [(true, CallNodelay true 5000 0 true); (true, CallUpdate 0); (true, CallSend (b! "hello")); (true, CallFlush);
   (true, CallUpdate 1000)].

Definition overdue_net : Net := default (start 7 true true) (run (start 7 true true) overdue).

Definition overdue_segment : KcpSegment :=
  default (mkSeg 0 0 0 0 0 0 0 0 0 0 0 false []) (head (snd_buf (snd (kcp (side_a overdue_net))))).

Lemma kcp_resends_witness :
  length (output (out (kcp (side_a overdue_net)))) = 1 /\ xmit overdue_segment = 1%Z /\
  exists new d, output (out (flush_inner (kcp (side_a overdue_net)) Full)) = output (out (kcp (side_a overdue_net))) ++ new /\
    d ∈ new /\ has (rcv (input (kcp (side_b overdue_net)) d true false).2) (seg_sn overdue_segment).
Proof.
  split; [vm_compute; reflexivity|]. split; [vm_compute; reflexivity|].
  apply (kcp_resends 7 true true overdue overdue_net overdue_segment true false).
  - lia.
  - vm_compute. reflexivity.
  - split; vm_compute; reflexivity.
  - apply (list_elem_of_lookup_2 _ 0). vm_compute. reflexivity.
  - split; [vm_compute; reflexivity|right; vm_compute; discriminate].
  - vm_compute. reflexivity.
Defined.

End KcpLive.
