(* ===== verification/Lru.v ===== *)
(** * The lru crate, as far as the DNS code uses it

    An [LruCache] is a map whose entries are ordered by their last use. The
    interface gives its entries most recently used first, as [iter] does, and
    states what each operation does to that list. A list of entries is an
    instance. *)

From S2P Require Import Prelude.

(** ** Association lists *)

Section Assoc.
Context {K V : Type} `{EqDecision K}.
Implicit Types (k : K) (v : V) (l : list (K * V)).

Fixpoint assoc k l : option V :=
  match l with
  | [] => None
  | (k', v) :: l => if decide (k = k') then Some v else assoc k l
  end.

Definition remove_key k l : list (K * V) := filter (fun e => e.1 <> k) l.

(** The entry of [k] moves to the front. *)
Definition touch k l : list (K * V) :=
  match assoc k l with Some v => (k, v) :: remove_key k l | None => l end.

Lemma assoc_elem k v l : NoDup l.*1 -> assoc k l = Some v <-> (k, v) ∈ l.
Proof.
  induction l as [|[k' v'] l IH]; cbn [assoc]; [intros _; split; [done|by intros ?%not_elem_of_nil]|].
  rewrite fmap_cons. intros [Hn Hd]%NoDup_cons. rewrite elem_of_cons. destruct (decide (k = k')) as [->|Hne].
  - split; [intros [= ->]; by left|]. intros [[= ->]|Hin]; [done|]. destruct Hn. by apply (list_elem_of_fmap_2 fst) in Hin.
  - rewrite IH by done. naive_solver.
Qed.

Lemma assoc_None k l : assoc k l = None <-> k ∉ l.*1.
Proof.
  induction l as [|[k' v'] l IH]; cbn [assoc]; [split; [intros _; apply not_elem_of_nil|done]|].
  rewrite fmap_cons, not_elem_of_cons. cbn. destruct (decide (k = k')); [naive_solver|]. rewrite IH. naive_solver.
Qed.

Lemma assoc_remove_key k k' l : assoc k' (remove_key k l) = if decide (k' = k) then None else assoc k' l.
Proof.
  unfold remove_key. induction l as [|[k0 v0] l IH]; [by destruct (decide _)|].
  rewrite filter_cons. cbn [fst]. destruct (decide (k0 <> k)) as [Hne|Heq].
  - cbn [assoc]. rewrite IH. destruct (decide (k' = k0)), (decide (k' = k)); congruence.
  - rewrite IH. cbn [assoc]. destruct (decide (k' = k)), (decide (k' = k0)); try done. destruct Heq. congruence.
Qed.

Lemma assoc_touch k k' l : assoc k' (touch k l) = assoc k' l.
Proof.
  unfold touch. destruct (assoc k l) eqn:Hk; [|done]. cbn [assoc]. rewrite assoc_remove_key.
  destruct (decide (k' = k)); [congruence|done].
Qed.

Lemma remove_key_keys k l : (remove_key k l).*1 = filter (fun k' => k' <> k) l.*1.
Proof.
  unfold remove_key. induction l as [|[k0 v0] l IH]; [done|]. rewrite fmap_cons, !filter_cons. cbn.
  destruct (decide _); [by rewrite fmap_cons, IH|done].
Qed.

Lemma remove_key_NoDup k l : NoDup l.*1 -> NoDup (remove_key k l).*1.
Proof. rewrite remove_key_keys. apply NoDup_filter. Qed.

Lemma put_NoDup k v l : NoDup l.*1 -> NoDup ((k, v) :: remove_key k l).*1.
Proof.
  intros Hd. rewrite fmap_cons. apply NoDup_cons. split; [|by apply remove_key_NoDup].
  cbn. rewrite remove_key_keys, list_elem_of_filter. naive_solver.
Qed.

Lemma touch_NoDup k l : NoDup l.*1 -> NoDup (touch k l).*1.
Proof. intros Hd. unfold touch. destruct (assoc k l); [by apply put_NoDup|done]. Qed.

Lemma remove_key_not k l : k ∉ l.*1 -> remove_key k l = l.
Proof.
  unfold remove_key. induction l as [|[k0 v0] l IH]; [done|]. rewrite fmap_cons, not_elem_of_cons, filter_cons. cbn.
  intros [? ?]. rewrite decide_True by done. by rewrite IH.
Qed.

Lemma remove_key_le k l : length (remove_key k l) <= length l.
Proof. apply length_filter. Qed.

Lemma remove_key_length k v l : NoDup l.*1 -> assoc k l = Some v -> length l = S (length (remove_key k l)).
Proof.
  unfold remove_key. induction l as [|[k0 v0] l IH]; [done|]. rewrite fmap_cons, NoDup_cons, filter_cons. cbn.
  intros [Hn Hd]. destruct (decide (k = k0)) as [->|Hne].
  - intros _. rewrite decide_False by auto. f_equal. symmetry. f_equal. by apply remove_key_not.
  - intros Ha. rewrite decide_True by done. cbn. by rewrite <- IH.
Qed.

Lemma touch_length k l : NoDup l.*1 -> length (touch k l) = length l.
Proof.
  intros Hd. unfold touch. destruct (assoc k l) eqn:Ha; [|done]. cbn. symmetry. by eapply remove_key_length.
Qed.

Lemma elem_of_remove_key e k l : e ∈ remove_key k l <-> e ∈ l /\ e.1 <> k.
Proof. unfold remove_key. rewrite list_elem_of_filter. naive_solver. Qed.

End Assoc.

(** ** The interface *)

Class LruLib := {
  LruCache : Type -> Type -> Type;
  lru_unbounded {K V} : LruCache K V;
  lru_iter {K V} : LruCache K V -> list (K * V);
  lru_get {K V} `{EqDecision K} : K -> LruCache K V -> option V * LruCache K V;
  lru_peek {K V} `{EqDecision K} : K -> LruCache K V -> option V;
  lru_put {K V} `{EqDecision K} : K -> V -> LruCache K V -> LruCache K V;
  lru_pop {K V} `{EqDecision K} : K -> LruCache K V -> option V * LruCache K V;
  lru_pop_lru {K V} `{EqDecision K} : LruCache K V -> option (K * V) * LruCache K V;
  lru_len {K V} : LruCache K V -> nat;
  lru_clear {K V} : LruCache K V -> LruCache K V;
  iter_unbounded {K V} : lru_iter (lru_unbounded : LruCache K V) = [];
  get_spec {K V} `{EqDecision K} k (c : LruCache K V) :
    (lru_get k c).1 = assoc k (lru_iter c) /\ lru_iter (lru_get k c).2 = touch k (lru_iter c);
  peek_spec {K V} `{EqDecision K} k (c : LruCache K V) : lru_peek k c = assoc k (lru_iter c);
  put_spec {K V} `{EqDecision K} k v (c : LruCache K V) :
    lru_iter (lru_put k v c) = (k, v) :: remove_key k (lru_iter c);
  pop_spec {K V} `{EqDecision K} k (c : LruCache K V) :
    (lru_pop k c).1 = assoc k (lru_iter c) /\ lru_iter (lru_pop k c).2 = remove_key k (lru_iter c);
  pop_lru_spec {K V} `{EqDecision K} (c : LruCache K V) :
    (lru_pop_lru c).1 = last (lru_iter c) /\ lru_iter (lru_pop_lru c).2 = take (length (lru_iter c) - 1) (lru_iter c);
  len_spec {K V} (c : LruCache K V) : lru_len c = length (lru_iter c);
  clear_spec {K V} (c : LruCache K V) : lru_iter (lru_clear c) = [];
}.

Definition lru_contains `{LruLib} {K V} `{EqDecision K} (k : K) (c : LruCache K V) : bool :=
  bool_decide (is_Some (lru_peek k c)).

#[export] Program Instance list_lru : LruLib := {|
  LruCache K V := list (K * V);
  lru_unbounded _ _ := [];
  lru_iter _ _ l := l;
  lru_get _ _ _ k l := (assoc k l, touch k l);
  lru_peek _ _ _ k l := assoc k l;
  lru_put _ _ _ k v l := (k, v) :: remove_key k l;
  lru_pop _ _ _ k l := (assoc k l, remove_key k l);
  lru_pop_lru _ _ _ l := (last l, take (length l - 1) l);
  lru_len _ _ l := length l;
  lru_clear _ _ _ := [];
|}.
Solve All Obligations with done.
