(* ===== verification/FakeIp.v ===== *)
(** * The fake-IP pool (crates/meow-dns/src/fakeip.rs)

    A host name is given an address of a reserved range, the same one as long
    as it is remembered, so that a connection to the address can be traced
    back to the name. [Store] keeps the pairs, in memory or in a file; [Pool]
    hands the addresses of the range out in order and starts over at its end.
    [Skipper] names the hosts that keep their real addresses.

    An operation returns the new state. A lookup holds the pool's mutex from
    its read of the store to the new cursor, so it is one step; a flush clears
    the store before it takes the mutex, so it is two. The single calls of a
    file store are taken as atomic, which its locks do not ensure for a flush
    beside a lookup. The file of a [FileStore] is what was last written to it: a snapshot, or
    nothing when it is missing or corrupt. *)

From S2P Require Import Prelude Strings Ip Lru Vec Trie TrieSealed DomainTrie TrieSpec.
From stdpp Require Import countable.

#[export] Instance IpAddr_countable : Countable IpAddr.
Proof.
  refine (inj_countable' (fun a => match a with V4 z => inl z | V6 z => inr z end)
    (fun s => match s with inl z => V4 z | inr z => V6 z end) _). by intros [].
Defined.

Module FakeIp.
Import DomainTrie Sealed TrieSpec.

(** ** Stores *)

(** The trait. A read may reorder the store. *)
Class Store (S : Type) := {
  get_by_host : S -> bytes -> option IpAddr * S;
  get_by_ip : S -> IpAddr -> option bytes * S;
  put : S -> bytes -> IpAddr -> S;
  del_by_ip : S -> IpAddr -> S;
  exists_ip : S -> IpAddr -> bool;
  flush : S -> S;
  put_state : S -> IpAddr -> bool -> S;
  get_state : S -> option (IpAddr * bool);
  is_persistent : S -> bool;
}.

(** *** In memory *)

Section Memory.
Context `{LL : LruLib}.

Record MemoryStore := mkMemory {
  by_host : LruCache bytes IpAddr;
  by_ip : LruCache IpAddr bytes;
  cap : nat;
}.

Definition memory_new (size : nat) : MemoryStore := mkMemory lru_unbounded lru_unbounded (Nat.max size 1).

Definition memory_get_by_host (s : MemoryStore) (host : bytes) : option IpAddr * MemoryStore :=
  match lru_get host (by_host s) with
  | (Some ip, bh) => (Some ip, mkMemory bh (lru_get ip (by_ip s)).2 (cap s))
  | (None, bh) => (None, mkMemory bh (by_ip s) (cap s))
  end.

Definition memory_get_by_ip (s : MemoryStore) (ip : IpAddr) : option bytes * MemoryStore :=
  match lru_get ip (by_ip s) with
  | (Some host, bi) => (Some host, mkMemory (lru_get host (by_host s)).2 bi (cap s))
  | (None, bi) => (None, mkMemory (by_host s) bi (cap s))
  end.

(** Drops the entry of [k] while it is [v]. *)
Definition compare_and_pop {K V} `{EqDecision K, EqDecision V} (k : K) (v : V) (c : LruCache K V) : LruCache K V :=
  if bool_decide (lru_peek k c = Some v) then (lru_pop k c).2 else c.

Definition evict_by_ip (s : MemoryStore) : MemoryStore :=
  if (cap s <? lru_len (by_ip s)) then
    match lru_pop_lru (by_ip s) with
    | (Some (ip, host), bi) => mkMemory (compare_and_pop host ip (by_host s)) bi (cap s)
    | (None, bi) => mkMemory (by_host s) bi (cap s)
    end
  else s.

Definition evict_by_host (s : MemoryStore) : MemoryStore :=
  if (cap s <? lru_len (by_host s)) then
    match lru_pop_lru (by_host s) with
    | (Some (host, ip), bh) => mkMemory bh (compare_and_pop ip host (by_ip s)) (cap s)
    | (None, bh) => mkMemory bh (by_ip s) (cap s)
    end
  else s.

Definition memory_put (s : MemoryStore) (host : bytes) (ip : IpAddr) : MemoryStore :=
  evict_by_host (evict_by_ip (mkMemory (lru_put host ip (by_host s)) (lru_put ip host (by_ip s)) (cap s))).

Definition memory_del_by_ip (s : MemoryStore) (ip : IpAddr) : MemoryStore :=
  match lru_pop ip (by_ip s) with
  | (Some host, bi) => mkMemory (compare_and_pop host ip (by_host s)) bi (cap s)
  | (None, bi) => mkMemory (by_host s) bi (cap s)
  end.

Definition memory_exists (s : MemoryStore) (ip : IpAddr) : bool := lru_contains ip (by_ip s).

Definition memory_flush (s : MemoryStore) : MemoryStore :=
  mkMemory (lru_clear (by_host s)) (lru_clear (by_ip s)) (cap s).

#[export] Instance memory_store : Store MemoryStore := {|
  get_by_host := memory_get_by_host;
  get_by_ip := memory_get_by_ip;
  put := memory_put;
  del_by_ip := memory_del_by_ip;
  exists_ip := memory_exists;
  flush := memory_flush;
  put_state s _ _ := s;
  get_state _ := None;
  is_persistent _ := false;
|}.

End Memory.

(** *** In a file *)

Record PersistedSnapshot := mkSnapshot {
  entries : gmap bytes IpAddr;
  s_offset : option IpAddr;
  s_cycle : bool;
}.

Definition empty_snapshot : PersistedSnapshot := mkSnapshot ∅ None false.

(** [file] is the content of the file, if it can be read and decoded. *)
Record FileStore := mkFile {
  snapshot : PersistedSnapshot;
  reverse : gmap IpAddr bytes;
  dirty : bool;
  file : option PersistedSnapshot;
}.

(** The order in which the entries of a snapshot are visited. *)
Class EntryOrder := {
  entry_order : gmap bytes IpAddr -> list (bytes * IpAddr);
  entry_order_perm m : entry_order m ≡ₚ map_to_list m;
}.

#[export] Program Instance default_entry_order : EntryOrder | 100 := {| entry_order := map_to_list |}.
Next Obligation. done. Qed.

Section File.
Context `{EO : EntryOrder}.

Definition load_snapshot (file : option PersistedSnapshot) : PersistedSnapshot := default empty_snapshot file.

(** [collect]: a later entry replaces an earlier one. *)
Definition rebuild_reverse (m : gmap bytes IpAddr) : gmap IpAddr bytes :=
  foldl (fun r '(h, ip) => <[ip := h]> r) ∅ (entry_order m).

Definition from_snapshot (file : option PersistedSnapshot) (s : PersistedSnapshot) : FileStore :=
  mkFile s (rebuild_reverse (entries s)) false file.

Definition file_open (file : option PersistedSnapshot) : FileStore := from_snapshot file (load_snapshot file).

End File.

Definition serialise (s : PersistedSnapshot) : PersistedSnapshot := mkSnapshot (entries s) (s_offset s) (s_cycle s).

(** One round of the debounce task, and [Drop]. *)
Definition persist (s : FileStore) : FileStore :=
  if dirty s then mkFile (snapshot s) (reverse s) false (Some (serialise (snapshot s))) else s.

Definition file_get_by_host (s : FileStore) (host : bytes) : option IpAddr * FileStore :=
  (entries (snapshot s) !! host, s).

Definition file_get_by_ip (s : FileStore) (ip : IpAddr) : option bytes * FileStore := (reverse s !! ip, s).

Definition file_put (s : FileStore) (host : bytes) (ip : IpAddr) : FileStore :=
  mkFile (mkSnapshot (<[host := ip]> (entries (snapshot s))) (s_offset (snapshot s)) (s_cycle (snapshot s)))
    (<[ip := host]> (reverse s)) true (file s).

Definition file_del_by_ip (s : FileStore) (ip : IpAddr) : FileStore :=
  match reverse s !! ip with
  | None => s
  | Some host =>
      let snap := snapshot s in
      if bool_decide (entries snap !! host = Some ip)
      then mkFile (mkSnapshot (delete host (entries snap)) (s_offset snap) (s_cycle snap)) (delete ip (reverse s)) true (file s)
      else mkFile snap (delete ip (reverse s)) (dirty s) (file s)
  end.

Definition file_exists (s : FileStore) (ip : IpAddr) : bool := bool_decide (is_Some (reverse s !! ip)).

Definition file_flush (s : FileStore) : FileStore := mkFile (mkSnapshot ∅ None false) ∅ true (file s).

Definition file_put_state (s : FileStore) (offset : IpAddr) (cycle : bool) : FileStore :=
  mkFile (mkSnapshot (entries (snapshot s)) (Some offset) cycle) (reverse s) true (file s).

Definition file_get_state (s : FileStore) : option (IpAddr * bool) :=
  o ← s_offset (snapshot s); Some (o, s_cycle (snapshot s)).

#[export] Instance file_store : Store FileStore := {|
  get_by_host := file_get_by_host;
  get_by_ip := file_get_by_ip;
  put := file_put;
  del_by_ip := file_del_by_ip;
  exists_ip := file_exists;
  flush := file_flush;
  put_state := file_put_state;
  get_state := file_get_state;
  is_persistent _ := true;
|}.

(** ** Addresses *)

(** [wrapping_add(1)] and [wrapping_sub(1)] in the family. *)
Definition next_addr (ip : IpAddr) : IpAddr :=
  match ip with V4 n => V4 ((n + 1) `mod` 2 ^ 32) | V6 n => V6 ((n + 1) `mod` 2 ^ 128) end.

Definition prev_addr (ip : IpAddr) : IpAddr :=
  match ip with V4 n => V4 ((n - 1) `mod` 2 ^ 32) | V6 n => V6 ((n - 1) `mod` 2 ^ 128) end.

Definition addr_less (a b : IpAddr) : bool :=
  match a, b with
  | V4 a, V4 b => (a <? b)%Z
  | V6 a, V6 b => (a <? b)%Z
  | _, _ => false
  end.

Definition contained_in_range (ip first last : IpAddr) : bool := negb (addr_less ip first) && addr_less ip last.

(** ** The pool *)

Inductive PoolError := PrefixTooSmall | InvalidPrefix.

Section Pool.
Context `{NL : IpNetLib} {S : Type} `{ST : Store S}.

(** [network()] and [broadcast()] as addresses. *)
Definition net_ip (n : IpNet) (a : Z) : IpAddr := if net_v6 n then V6 a else V4 a.

Definition anchor_addrs (prefix : IpNet) : result PoolError (IpAddr * IpAddr * IpAddr) :=
  let net := net_ip prefix (network prefix) in
  let last := net_ip prefix (broadcast prefix) in
  let gateway := next_addr net in
  let first := next_addr (next_addr (next_addr gateway)) in
  if negb (addr_less first last) then Err PrefixTooSmall
  else if negb (bool_decide (is_v6 net = is_v6 last)) || negb (bool_decide (is_v6 net = is_v6 gateway)) ||
          negb (bool_decide (is_v6 net = is_v6 first)) then Err InvalidPrefix
  else Ok (gateway, first, last).

Record Pool := mkPool {
  ipnet : IpNet;
  gateway : IpAddr;
  first : IpAddr;
  last_ip : IpAddr;
  offset : IpAddr;
  cycle : bool;
  store : S;
}.

Definition pool_new (prefix : IpNet) (s : S) : result PoolError Pool :=
  '(gateway, first, last) ← anchor_addrs prefix;
  let '(offset, cycle) :=
    match get_state s with
    | Some (o, c) => if contained_in_range o first last then (o, c) else (prev_addr first, false)
    | None => (prev_addr first, false)
    end in
  Ok (mkPool prefix gateway first last offset cycle s).

Definition set_store (p : Pool) (s : S) : Pool :=
  mkPool (ipnet p) (gateway p) (first p) (last_ip p) (offset p) (cycle p) s.

Definition set_cursor (p : Pool) (offset : IpAddr) (cycle : bool) : Pool :=
  mkPool (ipnet p) (gateway p) (first p) (last_ip p) offset cycle (store p).

(** [if is_persistent { put_state }]. *)
Definition save_cursor (p : Pool) : Pool :=
  if is_persistent (store p) then set_store p (put_state (store p) (offset p) (cycle p)) else p.

Definition allocate (p : Pool) (host : bytes) : IpAddr * Pool :=
  let candidate := next_addr (offset p) in
  let '(candidate, c) := if negb (addr_less candidate (last_ip p)) then (first p, true) else (candidate, cycle p) in
  let s := if c || exists_ip (store p) candidate then del_by_ip (store p) candidate else store p in
  (candidate, save_cursor (set_cursor (set_store p (put s host candidate)) candidate c)).

Definition lookup (p : Pool) (host : bytes) : IpAddr * Pool :=
  let host := to_ascii_lowercase host in
  match get_by_host (store p) host with
  | (Some ip, s) => (ip, set_store p s)
  | (None, s) => allocate (set_store p s) host
  end.

Definition look_back (p : Pool) (ip : IpAddr) : option bytes * Pool :=
  if bool_decide (ip = gateway p) || bool_decide (ip = last_ip p) then (None, p)
  else let '(h, s) := get_by_ip (store p) ip in (h, set_store p s).

Definition is_fake_ip (p : Pool) (ip : IpAddr) : bool :=
  if negb (net_contains (ipnet p) ip) then false
  else if bool_decide (ip = gateway p) || bool_decide (ip = last_ip p) then false
  else exists_ip (store p) ip.

Definition in_range (p : Pool) (ip : IpAddr) : bool := net_contains (ipnet p) ip.

Definition clear_store (p : Pool) : Pool := set_store p (flush (store p)).

Definition reset_cursor (p : Pool) : Pool := save_cursor (set_cursor p (prev_addr (first p)) false).

Definition pool_flush (p : Pool) : Pool := reset_cursor (clear_store p).

End Pool.

(** ** The skipper *)

Inductive SkipperMode := BlackList | WhiteList.

Section Skipper.
Context `{HO : HashOrder, UL : UnicodeLower}.

Record Skipper := mkSkipper { trie : DomainTrie unit; mode : SkipperMode; empty : bool }.

(** One pattern: the trie and the number of those inserted; [None] is a
    panic of the trie. *)
Definition add_pattern (st : DomainTrie unit * nat) (raw : bytes) : option (DomainTrie unit * nat) :=
  let '(t, n) := st in
  let pat := trim raw in
  if bool_decide (pat = []) then Some (t, n)
  else '(ok, t) ← insert t pat tt; Some (t, if ok : bool then n + 1 else n).

Definition skipper_new (patterns : list bytes) (mode : SkipperMode) : option Skipper :=
  '(t, inserted) ← foldlM add_pattern (new, 0) patterns;
  Some (mkSkipper t mode (inserted =? 0)).

Definition should_skip (s : Skipper) (host : bytes) : option bool :=
  if empty s then Some false
  else
    r ← search (trie s) host;
    let matched := bool_decide (is_Some r) in
    Some match mode s with BlackList => matched | WhiteList => negb matched end.

End Skipper.

End FakeIp.
