(* ===== verification/FakeIpStores.v ===== *)
(** * What the fake-IP stores promise (crates/meow-dns/src/fakeip.rs)

    [StoreLaws] is the contract a pool relies on: a store is a one-to-one map
    from hosts to addresses. The memory store keeps its two LRU lists in step,
    the file store a map and its inverse; both meet the contract. *)

From S2P Require Import Prelude Strings Ip Lru FakeIp.

Module FakeIpStores.
Import FakeIp.

(** ** The contract *)

(** [capacity] is the number of pairs that are kept, if it is bounded. *)
Class StoreLaws (S : Type) `{ST : Store S} := {
  view : S -> gmap bytes IpAddr;
  store_ok : S -> Prop;
  capacity : S -> option nat;
  view_inj s h1 h2 ip : store_ok s -> view s !! h1 = Some ip -> view s !! h2 = Some ip -> h1 = h2;
  get_by_host_law s h :
    store_ok s ->
    (get_by_host s h).1 = view s !! h /\ store_ok (get_by_host s h).2 /\
    view (get_by_host s h).2 = view s /\ capacity (get_by_host s h).2 = capacity s /\
    get_state (get_by_host s h).2 = get_state s;
  get_by_ip_law s ip :
    store_ok s ->
    (forall h, (get_by_ip s ip).1 = Some h <-> view s !! h = Some ip) /\ store_ok (get_by_ip s ip).2 /\
    view (get_by_ip s ip).2 = view s /\ capacity (get_by_ip s ip).2 = capacity s /\
    get_state (get_by_ip s ip).2 = get_state s;
  exists_law s ip : store_ok s -> exists_ip s ip = true <-> exists h, view s !! h = Some ip;
  del_law s ip :
    store_ok s ->
    store_ok (del_by_ip s ip) /\ view (del_by_ip s ip) = filter (fun e => e.2 <> ip) (view s) /\
    capacity (del_by_ip s ip) = capacity s /\ get_state (del_by_ip s ip) = get_state s;
  put_law s h ip :
    store_ok s -> view s !! h = None -> (forall h', view s !! h' <> Some ip) ->
    store_ok (put s h ip) /\ view (put s h ip) !! h = Some ip /\ view (put s h ip) ⊆ <[h := ip]> (view s) /\
    (match capacity s with Some c => size (view s) < c | None => True end -> view (put s h ip) = <[h := ip]> (view s)) /\
    capacity (put s h ip) = capacity s /\ get_state (put s h ip) = get_state s;
  flush_law s : store_ok s -> store_ok (flush s) /\ view (flush s) = ∅ /\ capacity (flush s) = capacity s;
  put_state_law s o c :
    store_ok s ->
    store_ok (put_state s o c) /\ view (put_state s o c) = view s /\ capacity (put_state s o c) = capacity s /\
    get_state (put_state s o c) = if is_persistent s then Some (o, c) else get_state s;
}.

(** ** In memory *)

Section Memory.
Context `{LL : LruLib}.
Implicit Types (s : MemoryStore).

Definition swap (e : bytes * IpAddr) : IpAddr * bytes := (e.2, e.1).

(** The hosts, most recently used first, and their addresses. *)
Definition pairs s : list (bytes * IpAddr) := lru_iter (by_host s).

Record memory_ok s : Prop := mkMemoryOk {
  mo_sync : lru_iter (by_ip s) = swap <$> pairs s;
  mo_hosts : NoDup (pairs s).*1;
  mo_ips : NoDup (pairs s).*2;
  mo_len : length (pairs s) <= cap s;
  mo_cap : 1 <= cap s;
}.

Definition memory_view s : gmap bytes IpAddr := list_to_map (pairs s).

Lemma swap_keys l : (swap <$> l).*1 = l.*2.
Proof. rewrite <- list_fmap_compose. by apply list_fmap_ext. Qed.

Lemma list_to_map_assoc (l : list (bytes * IpAddr)) h : (list_to_map l : gmap bytes IpAddr) !! h = assoc h l.
Proof.
  induction l as [|[h' ip] l IH]; [done|]. cbn. destruct (decide (h = h')) as [->|Hne].
  - by rewrite lookup_insert_eq.
  - by rewrite lookup_insert_ne, IH.
Qed.

Lemma memory_view_lookup s h : memory_view s !! h = assoc h (pairs s).
Proof. apply list_to_map_assoc. Qed.

(** The address of a host and the host of an address. *)
Lemma assoc_swap (l : list (bytes * IpAddr)) h ip :
  NoDup l.*1 -> NoDup l.*2 -> assoc ip (swap <$> l) = Some h <-> assoc h l = Some ip.
Proof.
  intros H1 H2. rewrite assoc_elem by by rewrite swap_keys. rewrite (assoc_elem _ _ l) by done.
  rewrite list_elem_of_fmap. split; [intros ([h' ip']&[= -> ->]&?)|intros ?; exists (h, ip)]; done.
Qed.

(** Dropping a pair by its host is dropping it by its address. *)
Lemma remove_key_swap (l : list (bytes * IpAddr)) h ip :
  NoDup l.*1 -> NoDup l.*2 -> (h, ip) ∈ l -> remove_key ip (swap <$> l) = swap <$> remove_key h l.
Proof.
  unfold remove_key. induction l as [|[h' ip'] l IH]; [done|]. rewrite !fmap_cons, !filter_cons. cbn.
  intros [Hn1 Hd1]%NoDup_cons [Hn2 Hd2]%NoDup_cons [[= -> ->]|Hin]%elem_of_cons.
  - rewrite !decide_False by auto. fold (remove_key ip' (swap <$> l)) (remove_key h' l).
    rewrite (remove_key_not h' l) by done. by rewrite remove_key_not by by rewrite swap_keys.
  - assert (h' <> h) by (intros ->; apply Hn1; by apply (list_elem_of_fmap_2 fst) in Hin).
    assert (ip' <> ip) by (intros ->; apply Hn2; by apply (list_elem_of_fmap_2 snd) in Hin).
    rewrite !decide_True by done. rewrite fmap_cons. by rewrite IH.
Qed.

Lemma remove_key_ips (l : list (bytes * IpAddr)) h : NoDup l.*2 -> NoDup (remove_key h l).*2.
Proof.
  unfold remove_key. induction l as [|[h' ip] l IH]; [done|]. rewrite fmap_cons, filter_cons. cbn.
  intros [Hn Hd]%NoDup_cons. destruct (decide _); [|auto]. rewrite fmap_cons. apply NoDup_cons. split; [|auto]. cbn.
  intros (e&->&He)%list_elem_of_fmap. apply Hn. apply (list_elem_of_fmap_2 snd). by apply list_elem_of_filter in He as [_ ?].
Qed.

Lemma touch_swap (l : list (bytes * IpAddr)) h ip :
  NoDup l.*1 -> NoDup l.*2 -> assoc h l = Some ip -> touch ip (swap <$> l) = swap <$> touch h l.
Proof.
  intros H1 H2 Ha. unfold touch. rewrite Ha. rewrite (proj2 (assoc_swap l h ip H1 H2) Ha), fmap_cons.
  f_equal. apply remove_key_swap; [done..|]. by apply assoc_elem.
Qed.

Lemma touch_ips (l : list (bytes * IpAddr)) h : NoDup l.*1 -> NoDup l.*2 -> NoDup (touch h l).*2.
Proof.
  intros H1 H2. unfold touch. destruct (assoc h l) as [ip|] eqn:Ha; [|done]. rewrite fmap_cons. apply NoDup_cons.
  split; [|by apply remove_key_ips]. cbn. intros ([h' ip']&He&Hin)%list_elem_of_fmap. cbn in He. subst ip'.
  apply elem_of_remove_key in Hin as [Hin Hne]. apply Hne. cbn.
  apply assoc_elem in Hin; [|done]. apply (assoc_swap l) in Ha, Hin; [|done..]. congruence.
Qed.

Lemma memory_touch_ok s bh bi h ip :
  memory_ok s -> assoc h (pairs s) = Some ip -> lru_iter bh = touch h (pairs s) ->
  lru_iter bi = touch ip (lru_iter (by_ip s)) -> memory_ok (mkMemory bh bi (cap s)).
Proof.
  intros [H1 H2 H3 H4 H5] Ha Hbh Hbi. split; unfold pairs in *; cbn; rewrite ?Hbh, ?Hbi; try done.
  - rewrite H1. by apply touch_swap.
  - by apply touch_NoDup.
  - by apply touch_ips.
  - by rewrite touch_length.
Qed.

Lemma view_touch s bh bi h c : lru_iter bh = touch h (pairs s) -> memory_view (mkMemory bh bi c) = memory_view s.
Proof. intros Hbh. apply map_eq. intros h'. rewrite !memory_view_lookup. unfold pairs at 1. cbn. by rewrite Hbh, assoc_touch. Qed.

(** Both lists lose the pair. *)
Lemma memory_drop_ok s bh bi h ip :
  memory_ok s -> (h, ip) ∈ pairs s -> lru_iter bh = remove_key h (pairs s) ->
  lru_iter bi = remove_key ip (lru_iter (by_ip s)) -> memory_ok (mkMemory bh bi (cap s)).
Proof.
  intros [H1 H2 H3 H4 H5] Hin Hbh Hbi. split; unfold pairs in *; cbn; rewrite ?Hbh, ?Hbi; try done.
  - rewrite H1. by apply remove_key_swap.
  - by apply remove_key_NoDup.
  - by apply remove_key_ips.
  - etransitivity; [apply remove_key_le|done].
Qed.

Lemma compare_and_pop_hit (c : LruCache bytes IpAddr) h ip :
  assoc h (lru_iter c) = Some ip -> lru_iter (compare_and_pop h ip c) = remove_key h (lru_iter c).
Proof. intros Ha. unfold compare_and_pop. rewrite peek_spec, Ha, bool_decide_eq_true_2 by done. apply pop_spec. Qed.

Lemma memory_del_ok s ip :
  memory_ok s ->
  memory_ok (memory_del_by_ip s ip) /\ cap (memory_del_by_ip s ip) = cap s /\
  memory_view (memory_del_by_ip s ip) = filter (fun e => e.2 <> ip) (memory_view s).
Proof.
  intros Hok. pose proof Hok as [H1 H2 H3 H4 H5]. unfold memory_del_by_ip. pose proof (pop_spec ip (by_ip s)) as [Hp1 Hp2].
  destruct (lru_pop ip (by_ip s)) as [r bi]. cbn in Hp1, Hp2. rewrite H1 in Hp1. destruct r as [h|].
  - symmetry in Hp1. apply assoc_swap in Hp1; [|done..]. pose proof (compare_and_pop_hit _ _ _ Hp1) as Hbh.
    assert (Hin : (h, ip) ∈ pairs s) by by apply assoc_elem. split_and!; [by eapply memory_drop_ok|done|].
    apply map_eq. intros h'. rewrite map_lookup_filter, !memory_view_lookup. unfold pairs at 1. cbn. rewrite Hbh.
    fold (pairs s). rewrite assoc_remove_key. destruct (decide (h' = h)) as [->|Hne].
    + rewrite Hp1. cbn. by rewrite option_guard_False by auto.
    + destruct (assoc h' (pairs s)) as [ip'|] eqn:Ha; [|done]. cbn. rewrite option_guard_True; [done|].
      cbn. intros ->. apply Hne. apply (assoc_swap (pairs s)) in Ha, Hp1; [congruence|done..].
  - symmetry in Hp1. apply assoc_None in Hp1. rewrite remove_key_not in Hp2 by by rewrite H1.
    rewrite swap_keys in Hp1. split_and!; [|done|].
    + split; unfold pairs in *; cbn; try done. by rewrite Hp2.
    + apply map_eq. intros h'. rewrite map_lookup_filter. change (memory_view (mkMemory (by_host s) bi (cap s))) with (memory_view s).
      rewrite !memory_view_lookup. destruct (assoc h' (pairs s)) as [ip'|] eqn:Ha; [|done]. cbn. rewrite option_guard_True; [done|].
      cbn. intros ->. apply Hp1. apply assoc_elem in Ha; [|done]. by apply (list_elem_of_fmap_2 snd) in Ha.
Qed.

Lemma take_remove_last {K V} `{EqDecision K} (l : list (K * V)) k v :
  NoDup l.*1 -> last l = Some (k, v) -> take (length l - 1) l = remove_key k l.
Proof.
  intros Hd [l' ->]%last_Some. rewrite length_app, take_app_le by (cbn; lia). cbn. rewrite take_ge by lia.
  rewrite fmap_app, NoDup_app in Hd. destruct Hd as (_&Hn&_). unfold remove_key. rewrite filter_app.
  fold (remove_key k l'). rewrite remove_key_not.
  - rewrite filter_cons, decide_False by auto. cbn. by rewrite app_nil_r.
  - intros Hin. apply (Hn k Hin). by apply list_elem_of_singleton.
Qed.

(** A full store drops the pair used longest ago. *)
Lemma evict_by_ip_ok s :
  lru_iter (by_ip s) = swap <$> pairs s -> NoDup (pairs s).*1 -> NoDup (pairs s).*2 -> 1 <= cap s ->
  length (pairs s) <= S (cap s) ->
  memory_ok (evict_by_ip s) /\ cap (evict_by_ip s) = cap s /\ pairs (evict_by_ip s) = take (cap s) (pairs s).
Proof.
  intros H1 H2 H3 H4 H5. unfold evict_by_ip. rewrite len_spec, H1, length_fmap.
  destruct (Nat.ltb_spec (cap s) (length (pairs s))) as [Hgt|Hle].
  - pose proof (pop_lru_spec (by_ip s)) as [Hp1 Hp2]. destruct (lru_pop_lru (by_ip s)) as [r bi]. cbn in Hp1, Hp2.
    rewrite H1, fmap_last in Hp1. destruct (last (pairs s)) as [[h ip]|] eqn:Hl.
    2:{ apply last_None in Hl. rewrite Hl in Hgt. cbn in Hgt. lia. }
    cbn in Hp1. subst r. rewrite H1, length_fmap in Hp2.
    assert (Hin : (h, ip) ∈ pairs s) by (apply last_Some in Hl as [? ->]; apply elem_of_app; right; by apply list_elem_of_singleton).
    assert (Hbh : lru_iter (compare_and_pop h ip (by_host s)) = take (cap s) (pairs s)).
    { rewrite compare_and_pop_hit by by apply assoc_elem. fold (pairs s). rewrite <- (take_remove_last _ h ip) by done. f_equal. lia. }
    split_and!; [|done|by rewrite <- Hbh].
    assert (Hc : cap s = length (pairs s) - 1) by lia.
    split; unfold pairs; cbn; rewrite ?Hbh; try done.
    + rewrite Hp2, <- fmap_take. by rewrite Hc.
    + rewrite fmap_take. eapply sublist_NoDup; [|apply sublist_take]. done.
    + rewrite fmap_take. eapply sublist_NoDup; [|apply sublist_take]. done.
    + rewrite length_take. lia.
  - split_and!; [|done|by rewrite take_ge by lia]. by split.
Qed.

Lemma memory_put_ok s h ip :
  memory_ok s -> assoc h (pairs s) = None -> ip ∉ (pairs s).*2 ->
  memory_ok (memory_put s h ip) /\ cap (memory_put s h ip) = cap s /\
  pairs (memory_put s h ip) = take (cap s) ((h, ip) :: pairs s).
Proof.
  intros [H1 H2 H3 H4 H5] Hh Hip. unfold memory_put. set (s1 := mkMemory _ _ _).
  assert (Hp1 : pairs s1 = (h, ip) :: pairs s).
  { unfold pairs at 1, s1. cbn. rewrite put_spec. f_equal. apply remove_key_not. by apply assoc_None. }
  apply assoc_None in Hh.
  destruct (evict_by_ip_ok s1) as (Hok&Hcap&Hpairs); unfold s1; cbn [by_ip cap]; fold s1.
  - rewrite put_spec, H1, Hp1, fmap_cons. f_equal. apply remove_key_not. by rewrite swap_keys.
  - rewrite Hp1, fmap_cons. by apply NoDup_cons.
  - rewrite Hp1, fmap_cons. by apply NoDup_cons.
  - done.
  - rewrite Hp1. cbn. lia.
  - rewrite Hp1 in Hpairs. cbn [cap s1] in Hpairs, Hcap.
    assert (He : evict_by_host (evict_by_ip s1) = evict_by_ip s1).
    { unfold evict_by_host. rewrite len_spec. fold (pairs (evict_by_ip s1)). destruct Hok.
      destruct (Nat.ltb_spec (cap (evict_by_ip s1)) (length (pairs (evict_by_ip s1)))); [lia|done]. }
    by rewrite He.
Qed.

Lemma memory_get_host_ok s h :
  memory_ok s ->
  (memory_get_by_host s h).1 = memory_view s !! h /\ memory_ok (memory_get_by_host s h).2 /\
  memory_view (memory_get_by_host s h).2 = memory_view s /\ cap (memory_get_by_host s h).2 = cap s.
Proof.
  intros Hok. pose proof Hok as [H1 H2 H3 H4 H5]. unfold memory_get_by_host. rewrite memory_view_lookup.
  pose proof (get_spec h (by_host s)) as [Hg1 Hg2]. destruct (lru_get h (by_host s)) as [r bh]. cbn in Hg1, Hg2.
  fold (pairs s) in Hg1, Hg2. destruct r as [ip|]; cbn; split_and!; try done; [| |..].
  - eapply memory_touch_ok; [done|by symmetry|done|]. by rewrite (proj2 (get_spec ip (by_ip s))).
  - by eapply view_touch.
  - split; unfold pairs; cbn; try done; rewrite Hg2; unfold touch; by rewrite <- Hg1.
  - by eapply view_touch.
Qed.

Lemma memory_get_ip_ok s ip :
  memory_ok s ->
  (forall h, (memory_get_by_ip s ip).1 = Some h <-> memory_view s !! h = Some ip) /\
  memory_ok (memory_get_by_ip s ip).2 /\
  memory_view (memory_get_by_ip s ip).2 = memory_view s /\ cap (memory_get_by_ip s ip).2 = cap s.
Proof.
  intros Hok. pose proof Hok as [H1 H2 H3 H4 H5]. unfold memory_get_by_ip.
  pose proof (get_spec ip (by_ip s)) as [Hg1 Hg2]. destruct (lru_get ip (by_ip s)) as [r bi]. cbn in Hg1, Hg2.
  assert (Hr : forall h, r = Some h <-> memory_view s !! h = Some ip).
  { intros h. rewrite Hg1, H1, memory_view_lookup. by apply assoc_swap. }
  destruct r as [h|]; cbn; split_and!; try done.
  - eapply memory_touch_ok; [done| | |done].
    + rewrite <- memory_view_lookup. by apply Hr.
    + apply get_spec.
  - eapply view_touch. apply get_spec.
  - split; unfold pairs; cbn; try done. rewrite Hg2. unfold touch. by rewrite <- Hg1.
Qed.

Lemma memory_put_view s h ip :
  memory_ok s -> memory_view s !! h = None -> (forall h', memory_view s !! h' <> Some ip) ->
  memory_ok (memory_put s h ip) /\ memory_view (memory_put s h ip) !! h = Some ip /\
  memory_view (memory_put s h ip) ⊆ <[h := ip]> (memory_view s) /\
  (size (memory_view s) < cap s -> memory_view (memory_put s h ip) = <[h := ip]> (memory_view s)) /\
  cap (memory_put s h ip) = cap s.
Proof.
  intros Hok Hh Hip. pose proof Hok as [H1 H2 H3 H4 H5]. rewrite memory_view_lookup in Hh.
  assert (Hip' : ip ∉ (pairs s).*2).
  { intros ([h' ip']&He&Hin)%list_elem_of_fmap. cbn in He. subst ip'. apply (Hip h').
    rewrite memory_view_lookup. by apply assoc_elem. }
  destruct (memory_put_ok s h ip Hok Hh Hip') as (Hok'&Hcap&Hpairs).
  assert (Hsub : memory_view (memory_put s h ip) ⊆ <[h := ip]> (memory_view s)).
  { apply map_subseteq_spec. intros h' ip'. rewrite memory_view_lookup. intros Ha.
    apply assoc_elem in Ha; [|apply Hok']. rewrite Hpairs in Ha. apply elem_of_take in Ha as (i&Hi&_).
    apply list_elem_of_lookup_2 in Hi. change (<[h := ip]> (memory_view s)) with (list_to_map ((h, ip) :: pairs s) : gmap bytes IpAddr).
    rewrite list_to_map_assoc. apply assoc_elem; [|done]. rewrite fmap_cons. apply NoDup_cons. split; [|done]. by apply assoc_None. }
  split_and!; [done| |done| |done].
  - rewrite memory_view_lookup, Hpairs. destruct (cap s); [lia|]. cbn. by rewrite decide_True.
  - intros Hsz. unfold memory_view at 1. rewrite Hpairs, take_ge; [done|]. cbn.
    unfold memory_view in Hsz. rewrite map_size_list_to_map in Hsz by done. lia.
Qed.

#[export] Program Instance memory_laws : StoreLaws MemoryStore := {|
  view := memory_view; store_ok := memory_ok; capacity s := Some (cap s)
|}.
Next Obligation.
  intros s h1 h2 ip [H1 H2 H3 _ _]. rewrite !memory_view_lookup. intros Ha Hb. apply (assoc_swap (pairs s)) in Ha, Hb; [congruence|done..].
Qed.
Next Obligation. intros s h Hok. destruct (memory_get_host_ok s h Hok) as (?&?&?&Hc). cbn. by rewrite Hc. Qed.
Next Obligation. intros s ip Hok. destruct (memory_get_ip_ok s ip Hok) as (?&?&?&Hc). cbn. by rewrite Hc. Qed.
Next Obligation.
  intros s ip [H1 H2 H3 _ _]. cbn. unfold memory_exists, lru_contains. rewrite peek_spec, bool_decide_eq_true, H1.
  unfold is_Some. apply exist_proper. intros h. rewrite memory_view_lookup. by apply assoc_swap.
Qed.
Next Obligation. intros s ip Hok. destruct (memory_del_ok s ip Hok) as (?&Hc&?). cbn. by rewrite Hc. Qed.
Next Obligation. intros s h ip Hok Hh Hip. destruct (memory_put_view s h ip Hok Hh Hip) as (?&?&?&?&Hc). cbn. by rewrite Hc. Qed.
Next Obligation.
  intros s Hok. split_and!; [|unfold memory_view, pairs; cbn; by rewrite clear_spec|done].
  split; unfold pairs; cbn; rewrite ?clear_spec; cbn; try constructor; [lia|apply Hok].
Qed.
Next Obligation. done. Qed.

Lemma memory_new_ok size : memory_ok (memory_new size) /\ memory_view (memory_new size) = ∅.
Proof.
  split; [|unfold memory_view, pairs; cbn; by rewrite iter_unbounded].
  split; unfold pairs; cbn; rewrite ?iter_unbounded; cbn; try constructor; lia.
Qed.

End Memory.

(** ** In a file *)

Definition file_ok (s : FileStore) : Prop :=
  forall h ip, entries (snapshot s) !! h = Some ip <-> reverse s !! ip = Some h.

#[export] Program Instance file_laws : StoreLaws FileStore := {|
  view s := entries (snapshot s); store_ok := file_ok; capacity _ := None
|}.
Next Obligation. intros s h1 h2 ip Hok. rewrite (Hok h1), (Hok h2). congruence. Qed.
Next Obligation. done. Qed.
Next Obligation. intros s ip Hok. split_and!; try done. Qed.
Next Obligation.
  intros s ip Hok. cbn. unfold file_exists. rewrite bool_decide_eq_true. unfold is_Some. apply exist_proper.
  intros h. by rewrite (Hok h).
Qed.
Next Obligation.
  intros s ip Hok. cbn. unfold file_del_by_ip. destruct (reverse s !! ip) as [h|] eqn:Hr.
  - pose proof (proj2 (Hok h ip) Hr) as He. rewrite bool_decide_eq_true_2 by done. split_and!; try done.
    + intros h' ip'. cbn. rewrite !lookup_delete_Some, (Hok h' ip'). split; intros [Hne Hr']; (split; [|done]); intros Heq.
      * congruence.
      * subst h'. apply Hok in Hr'. congruence.
    + cbn. apply map_eq. intros h'. rewrite map_lookup_filter. destruct (decide (h' = h)) as [->|Hne].
      * rewrite lookup_delete_eq, He. cbn. by rewrite option_guard_False by auto.
      * rewrite lookup_delete_ne by done. destruct (entries (snapshot s) !! h') as [ip'|] eqn:Ha; [|done].
        cbn. rewrite option_guard_True; [done|]. cbn. intros ->. apply Hok in Ha. congruence.
  - split_and!; try done. symmetry. apply map_filter_id. intros h ip' Ha. cbn. intros ->. apply Hok in Ha. congruence.
Qed.
Next Obligation.
  intros s h ip Hok Hh Hip. cbn. split_and!; try done; [|by rewrite lookup_insert_eq].
  intros h' ip'. cbn. rewrite !lookup_insert_Some, (Hok h' ip'). split.
  - intros [[-> ->]|[Hne Hr]]; [by left|]. right. split; [|done]. intros <-. apply Hok in Hr. by apply Hip in Hr.
  - intros [[-> ->]|[Hne Hr]]; [by left|]. right. split; [|done]. intros <-. apply Hok in Hr. congruence.
Qed.
Next Obligation. intros s Hok. split_and!; try done. Qed.
Next Obligation. intros s o c Hok. split_and!; try done. Qed.

End FakeIpStores.
