(* ===== verification/FakeIpPool.v ===== *)
(** * The fake-IP pool hands out addresses one to one (crates/meow-dns/src/fakeip.rs)

    The pool is shown correct over any store that meets [StoreLaws]: every
    answer is an address of the range that leads back to the host, and a
    host keeps it while the range is not used up. *)

From S2P Require Import Prelude Strings Ip Lru FakeIp FakeIpStores.

Module FakeIpPool.
Import FakeIp FakeIpStores.
Local Open Scope Z_scope.

Section Pool.
Context `{NL : IpNetLib} {S : Type} `{SL : StoreLaws S}.
Implicit Types (p : Pool (S := S)) (n : IpNet).

(** ** The range *)

Definition pool_first n : Z := network n + 4.
Definition pool_size n : nat := Z.to_nat (broadcast n - pool_first n).

(** The addresses that are handed out. *)
Definition in_pool n (ip : IpAddr) : Prop := exists a, ip = net_ip n a /\ pool_first n <= a < broadcast n.

(** The first addresses of the network do not run over the end of the family. *)
Definition pool_fits n : Prop := pool_first n <= family_max (net_v6 n).

Lemma net_ip_inj n a b : net_ip n a = net_ip n b -> a = b.
Proof. unfold net_ip. destruct (net_v6 n); by intros [= ->]. Qed.

Lemma net_ip_v6 n a : is_v6 (net_ip n a) = net_v6 n.
Proof. unfold net_ip. by destruct (net_v6 n). Qed.

Lemma net_ip_num n a : addr_num (net_ip n a) = a.
Proof. unfold net_ip. by destruct (net_v6 n). Qed.

Lemma next_net_ip n a : 0 <= a < family_max (net_v6 n) -> next_addr (net_ip n a) = net_ip n (a + 1).
Proof.
  unfold net_ip, family_max, u128_max, u32_max. destruct (net_v6 n); cbn [next_addr]; intros ?; f_equal;
    apply Z.mod_small; lia.
Qed.

Lemma prev_net_ip n a : 0 < a <= family_max (net_v6 n) -> prev_addr (net_ip n a) = net_ip n (a - 1).
Proof.
  unfold net_ip, family_max, u128_max, u32_max. destruct (net_v6 n); cbn [prev_addr]; intros ?; f_equal;
    apply Z.mod_small; lia.
Qed.

Lemma less_net_ip n a b : addr_less (net_ip n a) (net_ip n b) = (a <? b).
Proof. unfold net_ip. by destruct (net_v6 n). Qed.

Lemma anchor_addrs_ok n g f l :
  pool_fits n -> anchor_addrs n = Ok (g, f, l) ->
  g = net_ip n (network n + 1) /\ f = net_ip n (pool_first n) /\ l = net_ip n (broadcast n) /\ pool_first n < broadcast n.
Proof.
  unfold pool_fits, pool_first, anchor_addrs. intros Hfit. destruct (network_bounds n) as [Hb1 Hb2].
  rewrite !(next_net_ip n) by lia. rewrite less_net_ip. destruct (Z.ltb_spec (network n + 1 + 1 + 1 + 1) (broadcast n)); [|done].
  cbn [negb]. rewrite !net_ip_v6, !bool_decide_eq_true_2 by done. cbn. intros [= <- <- <-].
  split_and!; [done| |done|lia]. f_equal. lia.
Qed.

Lemma in_range_inv n o :
  contained_in_range o (net_ip n (pool_first n)) (net_ip n (broadcast n)) = true -> in_pool n o.
Proof.
  unfold contained_in_range, in_pool, net_ip. rewrite andb_true_iff, negb_true_iff.
  destruct (net_v6 n), o as [a|a]; cbn [addr_less]; rewrite ?Z.ltb_lt, ?Z.ltb_ge; intros []; try done; eauto.
Qed.

Lemma in_pool_contains n ip :
  in_pool n ip -> net_contains n ip = true /\ ip <> net_ip n (network n + 1) /\ ip <> net_ip n (broadcast n).
Proof.
  intros (a&->&Ha). unfold pool_first in Ha. split_and!.
  - apply net_contains_spec. rewrite net_ip_v6, net_ip_num. split; [done|]. lia.
  - intros ?%net_ip_inj. lia.
  - intros ?%net_ip_inj. lia.
Qed.

(** ** The invariant *)

Record pool_ok n p : Prop := mkPoolOk {
  po_store : store_ok (store p);
  po_net : ipnet p = n;
  po_fits : pool_fits n;
  po_gateway : gateway p = net_ip n (network n + 1);
  po_first : first p = net_ip n (pool_first n);
  po_last : last_ip p = net_ip n (broadcast n);
  po_size : pool_first n < broadcast n;
  po_offset : exists o, offset p = net_ip n o /\ pool_first n - 1 <= o < broadcast n;
  po_view h ip : view (store p) !! h = Some ip -> in_pool n ip;
}.

Lemma pool_new_ok n (s : S) p :
  pool_fits n -> store_ok s -> (forall h ip, view s !! h = Some ip -> in_pool n ip) ->
  pool_new n s = Ok p -> pool_ok n p /\ store p = s.
Proof.
  intros Hfit Hs Hv. unfold pool_new. intros ([[g f] l]&Ha&Hp)%bind_Ok.
  destruct (anchor_addrs_ok n g f l Hfit Ha) as (->&->&->&Hlt).
  assert (Hprev : prev_addr (net_ip n (pool_first n)) = net_ip n (pool_first n - 1)).
  { apply prev_net_ip. pose proof (network_bounds n). unfold pool_fits, pool_first in *. lia. }
  assert (Ho0 : exists o, net_ip n (pool_first n - 1) = net_ip n o /\ pool_first n - 1 <= o < broadcast n) by (eexists; split; [done|lia]).
  destruct (get_state s) as [[o c]|]; [destruct (contained_in_range o _ _) eqn:Hc|];
    injection Hp as <-; rewrite ?Hprev; (split; [split|]; cbn; try done).
  apply in_range_inv in Hc as (a&->&?). eexists. split; [done|lia].
Qed.

(** The address after the cursor. *)
Definition after n (o : Z) : Z := if (o + 1 <? broadcast n) then o + 1 else pool_first n.

Lemma after_bounds n o : pool_first n < broadcast n -> pool_first n - 1 <= o < broadcast n -> pool_first n <= after n o < broadcast n.
Proof. unfold after. intros ? ?. destruct (Z.ltb_spec (o + 1) (broadcast n)); lia. Qed.

Lemma save_cursor_ok n p :
  pool_ok n p -> pool_ok n (save_cursor p) /\ view (store (save_cursor p)) = view (store p) /\
  offset (save_cursor p) = offset p /\ capacity (store (save_cursor p)) = capacity (store p).
Proof.
  intros Hok. unfold save_cursor. destruct (is_persistent (store p)); [|done].
  destruct (put_state_law (store p) (offset p) (cycle p) (po_store _ _ Hok)) as (Hs&Hv&Hc&_).
  split_and!; [|done..]. destruct Hok. split; cbn; try done. by rewrite Hv.
Qed.

Lemma set_store_ok n p s :
  pool_ok n p -> store_ok s -> (forall h ip, view s !! h = Some ip -> in_pool n ip) -> pool_ok n (set_store p s).
Proof. intros [] ? ?. by split. Qed.

Lemma set_cursor_ok n p o c :
  pool_ok n p -> pool_first n - 1 <= o < broadcast n -> pool_ok n (set_cursor p (net_ip n o) c).
Proof. intros [] ?. split; cbn; try done. by exists o. Qed.

(** ** Allocation *)

(** The pairs that keep their place when [ip] is handed out. *)
Definition others (ip : IpAddr) (m : gmap bytes IpAddr) : gmap bytes IpAddr := filter (fun e => e.2 <> ip) m.

Lemma others_id (ip : IpAddr) (m : gmap bytes IpAddr) : (forall h, m !! h <> Some ip) -> others ip m = m.
Proof. intros Hn. apply map_filter_id. intros h ip' Hh. cbn. intros ->. by apply Hn in Hh. Qed.

Lemma others_lookup (ip : IpAddr) (m : gmap bytes IpAddr) h ip' : others ip m !! h = Some ip' <-> m !! h = Some ip' /\ ip' <> ip.
Proof. unfold others. by rewrite map_lookup_filter_Some. Qed.

(** The store after the candidate's old pair is dropped. *)
Lemma release_ok (s : S) ip (c : bool) :
  store_ok s ->
  let s' := if c || exists_ip s ip then del_by_ip s ip else s in
  store_ok s' /\ view s' = others ip (view s) /\ capacity s' = capacity s.
Proof.
  intros Hs. destruct (c || exists_ip s ip) eqn:Hc.
  - destruct (del_law s ip Hs) as (?&?&?&?). done.
  - apply orb_false_iff in Hc as [_ Hc]. split_and!; [done| |done]. symmetry. apply others_id. intros h Hh.
    apply not_true_iff_false in Hc. apply Hc. apply exists_law; [done|]. by exists h.
Qed.

(** Enough room for every address of the range. *)
Definition roomy n (s : S) : Prop := match capacity s with Some c => (pool_size n <= c)%nat | None => True end.

(** Addresses of the range other than [ip] are fewer than the range holds. *)
Lemma others_size n (s : S) ip :
  store_ok s -> in_pool n ip -> (forall h ip, view s !! h = Some ip -> in_pool n ip) ->
  (size (others ip (view s)) < pool_size n)%nat.
Proof.
  intros Hs (a&->&Ha) Hv. rewrite <- length_map_to_list, <- (length_fmap snd).
  set (l := (map_to_list (others (net_ip n a) (view s))).*2).
  assert (Hl : NoDup (net_ip n a :: l)).
  { apply NoDup_cons. split.
    - intros ([h ip]&He&Hin)%list_elem_of_fmap. apply elem_of_map_to_list, others_lookup in Hin as [_ Hne]. cbn in He. congruence.
    - apply NoDup_fmap_2_strong; [|apply NoDup_map_to_list].
      intros [h1 ip1] [h2 ip2] H1%elem_of_map_to_list%others_lookup H2%elem_of_map_to_list%others_lookup He.
      cbn in He. subst ip2. f_equal. by eapply view_inj; [| apply H1 | apply H2]. }
  assert (Hsub : net_ip n a :: l ⊆ net_ip n <$> seqZ (pool_first n) (broadcast n - pool_first n)).
  { intros ip Hin. apply list_elem_of_fmap. setoid_rewrite elem_of_seqZ. apply elem_of_cons in Hin as [->|Hin]; [exists a; split; [done|lia]|].
    apply list_elem_of_fmap in Hin as ([h ip']&->&Hin). apply elem_of_map_to_list, others_lookup in Hin as [Hin _].
    apply Hv in Hin as (b&->&?). exists b. split; [done|lia]. }
  apply NoDup_submseteq in Hsub; [|done]. apply submseteq_length in Hsub. rewrite length_fmap, length_seqZ in Hsub.
  unfold pool_size. cbn in Hsub. lia.
Qed.

Lemma pool_put_ok n (s : S) h ip :
  store_ok s -> (forall h ip, view s !! h = Some ip -> in_pool n ip) -> in_pool n ip ->
  view s !! h = None -> forall s', store_ok s' -> view s' = others ip (view s) -> capacity s' = capacity s ->
  let s1 := put s' h ip in
  store_ok s1 /\ view s1 !! h = Some ip /\ view s1 ⊆ <[h := ip]> (others ip (view s)) /\
  (roomy n s -> view s1 = <[h := ip]> (others ip (view s))) /\ capacity s1 = capacity s.
Proof.
  intros Hs Hv Hip Hh s' Hs' Hv' Hc'. pose proof (others_size n s ip Hs Hip Hv) as Hsz.
  destruct (put_law s' h ip Hs') as (?&?&?&Hroom&?&_).
  - rewrite Hv'. apply map_lookup_filter_None. by left.
  - intros h' Hh'. rewrite Hv', others_lookup in Hh'. by destruct Hh'.
  - rewrite Hv', Hc' in *. split_and!; try done. unfold roomy. intros Hr. apply Hroom. destruct (capacity s); [lia|done].
Qed.

Lemma allocate_ok n p h o :
  pool_ok n p -> offset p = net_ip n o -> pool_first n - 1 <= o < broadcast n -> view (store p) !! h = None ->
  let ip := net_ip n (after n o) in let p1 := (allocate p h).2 in
  (allocate p h).1 = ip /\ pool_ok n p1 /\ offset p1 = ip /\ view (store p1) !! h = Some ip /\
  view (store p1) ⊆ <[h := ip]> (others ip (view (store p))) /\
  (roomy n (store p) -> view (store p1) = <[h := ip]> (others ip (view (store p)))) /\
  capacity (store p1) = capacity (store p).
Proof.
  intros Hok Ho Hb Hh. pose proof (after_bounds n o (po_size _ _ Hok) Hb) as Hab.
  assert (Hnext : exists c, (if negb (addr_less (next_addr (offset p)) (last_ip p)) then (first p, true) else (next_addr (offset p), cycle p))
    = (net_ip n (after n o), c)).
  { pose proof (network_bounds n). destruct Hok as [_ _ Hfit _ Hf Hl _ _ _]. unfold pool_fits, pool_first in *.
    rewrite Ho, next_net_ip, Hl, less_net_ip, Hf by lia. unfold after. destruct (Z.ltb_spec (o + 1) (broadcast n)); by eexists. }
  destruct Hnext as [c Hc]. unfold allocate. rewrite Hc. cbn [fst snd].
  assert (Hip : in_pool n (net_ip n (after n o))) by (by eexists).
  destruct (release_ok (store p) (net_ip n (after n o)) c (po_store _ _ Hok)) as (Hs'&Hv'&Hc').
  destruct (pool_put_ok n (store p) h _ (po_store _ _ Hok) (po_view _ _ Hok) Hip Hh _ Hs' Hv' Hc') as (H1&H2&H3&H4&H5).
  set (s1 := put _ _ _) in *. edestruct (save_cursor_ok n (set_cursor (set_store p s1) (net_ip n (after n o)) c)) as (K1&K2&K3&K4).
  - apply set_cursor_ok; [|lia]. apply set_store_ok; [done..|]. intros h' ip' Hin.
    eapply lookup_weaken in Hin; [|done]. apply lookup_insert_Some in Hin as [[_ <-]|[_ Hin]]; [done|].
    apply others_lookup in Hin as [Hin _]. by eapply po_view.
  - rewrite K2, K3, K4. split_and!; done.
Qed.

(** What a lookup does: a remembered host keeps its address, a new one gets
    the address after the cursor. *)
Lemma lookup_ok n p host :
  pool_ok n p ->
  let h := to_ascii_lowercase host in let ip := (lookup p host).1 in let p1 := (lookup p host).2 in
  pool_ok n p1 /\ view (store p1) !! h = Some ip /\ capacity (store p1) = capacity (store p) /\
  ((view (store p) !! h = Some ip /\ view (store p1) = view (store p) /\ offset p1 = offset p) \/
   (exists o, offset p = net_ip n o /\ pool_first n - 1 <= o < broadcast n /\ view (store p) !! h = None /\
    ip = net_ip n (after n o) /\ offset p1 = ip /\ view (store p1) ⊆ <[h := ip]> (others ip (view (store p))) /\
    (roomy n (store p) -> view (store p1) = <[h := ip]> (others ip (view (store p)))))).
Proof.
  intros Hok h. unfold lookup. fold h. destruct (get_by_host_law (store p) h (po_store _ _ Hok)) as (H1&H2&H3&H4&H5).
  destruct (get_by_host (store p) h) as [[ip|] s]; cbn [fst snd] in *.
  - cbn. rewrite H3, H4. split_and!; [|done..|by left]. apply set_store_ok; [done..|]. rewrite H3. apply po_view; done.
  - assert (Hok' : pool_ok n (set_store p s)) by (apply set_store_ok; [done..|]; rewrite H3; by apply po_view).
    destruct (po_offset _ _ Hok) as (o&Ho&Hb).
    destruct (allocate_ok n (set_store p s) h o Hok' Ho Hb) as (K1&K2&K3&K4&K5&K6&K7); [cbn; by rewrite H3|].
    cbn [store set_store] in *. rewrite H3, H4 in *. rewrite K1. split_and!; try done. right. exists o. split_and!; try done; [lia|lia|].
    intros Hr. apply K6. unfold roomy in *. by rewrite H4.
Qed.

Lemma look_back_ok n p ip :
  pool_ok n p ->
  let p1 := (look_back p ip).2 in
  pool_ok n p1 /\ view (store p1) = view (store p) /\ offset p1 = offset p /\ capacity (store p1) = capacity (store p) /\
  forall h, (look_back p ip).1 = Some h <-> view (store p) !! h = Some ip.
Proof.
  intros Hok. unfold look_back. destruct (bool_decide (ip = gateway p) || bool_decide (ip = last_ip p)) eqn:Hedge.
  - cbn. split_and!; try done. intros h. split; [done|]. intros Hin%(po_view _ _ Hok)%in_pool_contains.
    destruct Hok as [_ _ _ Hg _ Hl _ _ _]. rewrite Hg, Hl in Hedge. apply orb_true_iff in Hedge as [?%bool_decide_eq_true|?%bool_decide_eq_true]; naive_solver.
  - destruct (get_by_ip_law (store p) ip (po_store _ _ Hok)) as (H1&H2&H3&H4&H5).
    destruct (get_by_ip (store p) ip) as [r s]. cbn in *. split_and!; try done.
    apply set_store_ok; [done..|]. rewrite H3. by apply po_view.
Qed.

Lemma is_fake_ip_view n p ip : pool_ok n p -> is_fake_ip p ip = true <-> exists h, view (store p) !! h = Some ip.
Proof.
  intros Hok. rewrite <- (exists_law (store p) ip (po_store _ _ Hok)). unfold is_fake_ip.
  split; [by repeat case_match|]. intros He. pose proof He as [h Hh]%exists_law; [|apply Hok].
  apply (po_view _ _ Hok) in Hh. apply in_pool_contains in Hh as (Hc&Hg&Hl). destruct Hok as [_ -> _ -> _ -> _ _ _].
  rewrite Hc, !bool_decide_eq_false_2 by done. done.
Qed.

Lemma clear_store_ok n p :
  pool_ok n p -> pool_ok n (clear_store p) /\ capacity (store (clear_store p)) = capacity (store p).
Proof.
  intros Hok. destruct (flush_law (store p) (po_store _ _ Hok)) as (H1&H2&H3). split; [|done].
  apply set_store_ok; [done..|]. by rewrite H2.
Qed.

Lemma reset_cursor_ok n p :
  pool_ok n p -> pool_ok n (reset_cursor p) /\ capacity (store (reset_cursor p)) = capacity (store p).
Proof.
  intros Hok. unfold reset_cursor. assert (Hprev : prev_addr (first p) = net_ip n (pool_first n - 1)).
  { destruct Hok as [_ _ Hf _ -> _ _ _ _]. apply prev_net_ip. pose proof (network_bounds n). unfold pool_fits, pool_first in *. lia. }
  edestruct (save_cursor_ok n (set_cursor p (prev_addr (first p)) false)) as (K1&K2&K3&K4).
  - rewrite Hprev. apply set_cursor_ok; [done|pose proof (po_size _ _ Hok); lia].
  - by rewrite K4.
Qed.

(** ** Runs *)

(** The steps of the threads that share a pool; a flush is [ClearStore] and
    then [ResetCursor], with others in between. *)
Inductive Op := Lookup (host : bytes) | LookBack (ip : IpAddr) | ClearStore | ResetCursor.

Definition op_step p (op : Op) : Pool (S := S) :=
  match op with
  | Lookup host => (lookup p host).2
  | LookBack ip => (look_back p ip).2
  | ClearStore => clear_store p
  | ResetCursor => reset_cursor p
  end.

Definition run p (ops : list Op) : Pool (S := S) := foldl op_step p ops.

Definition is_lookup (op : Op) : bool := match op with Lookup _ => true | _ => false end.
Definition is_flush (op : Op) : bool := match op with ClearStore | ResetCursor => true | _ => false end.
Definition lookups (ops : list Op) : nat := length (filter is_lookup ops).

Lemma op_step_ok n p op : pool_ok n p -> pool_ok n (op_step p op) /\ capacity (store (op_step p op)) = capacity (store p).
Proof.
  intros Hok. destruct op; cbn [op_step].
  - destruct (lookup_ok n p host Hok) as (?&?&?&?). done.
  - destruct (look_back_ok n p ip Hok) as (?&?&?&?&?). done.
  - by apply clear_store_ok.
  - by apply reset_cursor_ok.
Qed.

Lemma pool_run_ok n p ops : pool_ok n p -> pool_ok n (run p ops) /\ capacity (store (run p ops)) = capacity (store p).
Proof.
  revert p. induction ops as [|op ops IH]; intros p Hok; [done|]. cbn. destruct (op_step_ok n p op Hok) as [Hok' Hc].
  destruct (IH _ Hok') as [Hr Hc']. split; [done|]. etransitivity; [exact Hc'|done].
Qed.

(** The number of allocations until the address [a] comes up again. *)
Definition ahead n (o a : Z) : Z := if (o <? a) then a - o else broadcast n - pool_first n - (o - a).

Lemma ahead_after n o a :
  pool_first n - 1 <= o < broadcast n -> pool_first n <= a < broadcast n -> 1 < ahead n o a ->
  after n o <> a /\ ahead n (after n o) a = ahead n o a - 1.
Proof.
  unfold ahead, after. intros ? ?. destruct (Z.ltb_spec o a), (Z.ltb_spec (o + 1) (broadcast n));
    destruct (Z.ltb_spec (o + 1) a), (Z.ltb_spec (pool_first n) a); lia.
Qed.

(** The host keeps its address and the cursor is [k] allocations away from it. *)
Definition kept n p (h : bytes) (a k : Z) : Prop :=
  pool_ok n p /\ roomy n (store p) /\ view (store p) !! h = Some (net_ip n a) /\
  exists o, offset p = net_ip n o /\ pool_first n - 1 <= o < broadcast n /\ pool_first n <= a < broadcast n /\ k < ahead n o a.

Lemma kept_mono n p h a k k' : kept n p h a k -> k' <= k -> kept n p h a k'.
Proof. intros (?&?&?&o&?&?&?&?) ?. split_and!; try done. exists o. split_and!; try done; lia. Qed.

Lemma kept_lookup n p h a k host : kept n p h a k -> 1 <= k -> kept n (lookup p host).2 h a (k - 1).
Proof.
  intros (Hok&Hr&Hh&o&Ho&Hb&Ha&Hk) Hk1. destruct (lookup_ok n p host Hok) as (K1&K2&K3&K4).
  split_and!; [done|unfold roomy in *; by rewrite K3|..].
  - destruct K4 as [(_&->&_)|(o'&Ho'&_&Hn&Hip&_&_&Hv)]; [done|]. rewrite Ho' in Ho. apply net_ip_inj in Ho as ->.
    rewrite (Hv Hr). rewrite lookup_insert_ne by congruence. apply others_lookup. split; [done|].
    rewrite Hip. intros Heq%net_ip_inj. destruct (ahead_after n o a) as [? _]; [lia..|]. congruence.
  - destruct K4 as [(_&_&Hoff)|(o'&Ho'&_&_&Hip&Hoff&_)].
    + exists o. rewrite Hoff. split_and!; try done; lia.
    + rewrite Ho' in Ho. apply net_ip_inj in Ho as ->. exists (after n o). rewrite Hoff, Hip.
      pose proof (after_bounds n o (po_size _ _ Hok) Hb). destruct (ahead_after n o a) as [? ?]; [lia..|]. split_and!; try done; lia.
Qed.

Lemma kept_run n ops p h a k :
  kept n p h a k -> Forall (fun op => is_flush op = false) ops -> Z.of_nat (lookups ops) <= k -> kept n (run p ops) h a (k - Z.of_nat (lookups ops)).
Proof.
  revert p k. induction ops as [|op ops IH]; intros p k Hkept Hf Hk; [cbn; by rewrite Z.sub_0_r|].
  apply Forall_cons in Hf as [Hop Hf]. cbn [run foldl]. destruct op as [host|ip| |]; [| |done..].
  - unfold lookups in *. rewrite filter_cons in *. cbn [is_lookup] in *. rewrite decide_True in * by done. cbn [length] in *.
    eapply kept_mono; [eapply IH; [apply kept_lookup; [done|lia]|done|lia]|lia].
  - unfold lookups in *. rewrite filter_cons in *. cbn [is_lookup] in *. rewrite decide_False in * by auto.
    apply IH; [|done..]. destruct Hkept as (Hok&Hr&Hh&o&Ho&?&?&?). destruct (look_back_ok n p ip Hok) as (K1&K2&K3&K4&_).
    cbn [op_step]. split_and!; [done|unfold roomy in *; by rewrite K4|by rewrite K2|]. exists o. by rewrite K3.
Qed.

End Pool.
End FakeIpPool.
