(* ===== verification/FakeIpTheorems.v ===== *)
(** * The fake-IP pool's guarantees (crates/meow-dns/src/fakeip.rs)

    Over any store that meets its contract an answer leads back to its host
    and stays while the range is not used up; with a file store a restart
    continues where the last run stopped. *)

From S2P Require Import Prelude Strings Vec Trie TrieSealed DomainTrie TrieSpec TrieTheorems Ip Lru FakeIp FakeIpStores FakeIpPool.

Module FakeIpTheorems.
Import FakeIp FakeIpStores FakeIpPool.

(** ** Any store *)

Section Pool.
Context `{NL : IpNetLib} {S : Type} `{SL : StoreLaws S}.

(** C12: a pool is made from a range that fits its address family and a
    consistent store whose pairs, if it has any, are of that range. After any
    steps on it, also with lookups between the two halves of a flush,
    [lookup] gives an address of the range, between the reserved first
    addresses and the broadcast address. The pool then takes that address
    for a fake one, [look_back] gives the lower-cased host, and any spelling
    of the host gets the same address. Every address the pool takes for a
    fake one belongs to the range and leads back to one host. *)
Theorem fakeip_lookup (n : IpNet) (s0 : S) (p0 : Pool) (ops : list Op) (host : bytes) :
  pool_fits n -> store_ok s0 -> (forall h ip, view s0 !! h = Some ip -> in_pool n ip) -> pool_new n s0 = Ok p0 ->
  let p := run p0 ops in
  let ip := (lookup p host).1 in
  let p1 := (lookup p host).2 in
  in_pool n ip /\ is_fake_ip p1 ip = true /\ (look_back p1 ip).1 = Some (to_ascii_lowercase host) /\
  (forall host', to_ascii_lowercase host' = to_ascii_lowercase host -> (lookup p1 host').1 = ip) /\
  (forall ip', is_fake_ip p1 ip' = true <-> in_pool n ip' /\ is_Some (look_back p1 ip').1).
Proof.
  intros Hfit Hs Hv Hp0 p ip p1. destruct (pool_new_ok n s0 p0 Hfit Hs Hv Hp0) as [Hok0 _].
  assert (Hok : pool_ok n p) by by apply pool_run_ok. destruct (lookup_ok n p host Hok) as (Hok1&Hh&_).
  fold ip p1 in Hok1, Hh. split_and!.
  - by eapply po_view.
  - apply (is_fake_ip_view n); [done|]. by eexists.
  - by apply (look_back_ok n p1 ip Hok1).
  - intros host' Hl. destruct (lookup_ok n p1 host' Hok1) as (_&Hh'&_&Hcase). rewrite Hl in *.
    destruct Hcase as [(Hin&_)|(o&_&_&Hn&_)]; congruence.
  - intros ip'. rewrite (is_fake_ip_view n p1 ip' Hok1). unfold is_Some. destruct (look_back_ok n p1 ip' Hok1) as (_&_&_&_&Hb).
    setoid_rewrite Hb. split; [intros [h Hh']|naive_solver]. split; [by eapply po_view|by exists h].
Qed.

(** C25: when the store has room for the range, a host that was just given
    an address keeps it, and the address leads back to the host, through any
    further calls that look up fewer hosts than the range has addresses and
    do not flush the pool. *)
Theorem fakeip_stable (n : IpNet) (s0 : S) (p0 : Pool) (ops : list Op) (host : bytes) (more : list Op) :
  pool_fits n -> store_ok s0 -> (forall h ip, view s0 !! h = Some ip -> in_pool n ip) -> roomy n s0 ->
  pool_new n s0 = Ok p0 ->
  (get_by_host (store (run p0 ops)) (to_ascii_lowercase host)).1 = None ->
  Forall (fun op => is_flush op = false) more -> lookups more < pool_size n ->
  let p1 := (lookup (run p0 ops) host).2 in
  let ip := (lookup (run p0 ops) host).1 in
  (lookup (run p1 more) host).1 = ip /\ (look_back (run p1 more) ip).1 = Some (to_ascii_lowercase host).
Proof.
  intros Hfit Hs Hv Hroom Hp0 Hnew Hf Hlen p1 ip. destruct (pool_new_ok n s0 p0 Hfit Hs Hv Hp0) as [Hok0 Hst].
  destruct (pool_run_ok n p0 ops Hok0) as [Hok Hcap]. set (p := run p0 ops) in *. rewrite (proj1 (get_by_host_law _ _ (po_store _ _ Hok))) in Hnew.
  destruct (lookup_ok n p host Hok) as (Hok1&Hh&Hcap1&Hcase). fold p1 ip in Hok1, Hh, Hcap1, Hcase.
  destruct Hcase as [(Hin&_)|(o&Ho&Hb&_&Hip&Hoff&_)]; [congruence|]. pose proof (after_bounds n o (po_size _ _ Hok) Hb) as Hab.
  rewrite Hip in *. destruct (kept_run n more p1 (to_ascii_lowercase host) (after n o) (broadcast n - pool_first n - 1)) as (Hok2&_&Hh2&_).
  - split_and!; [done|unfold roomy in *; by rewrite Hcap1, Hcap, Hst|done|]. exists (after n o). split_and!; try done; try lia.
    unfold ahead. rewrite Z.ltb_irrefl. lia.
  - done.
  - unfold pool_size in Hlen. lia.
  - split; [|by apply (look_back_ok n _ _ Hok2)]. destruct (lookup_ok n _ host Hok2) as (_&Hh3&_&Hcase).
    destruct Hcase as [(Hin&_)|(o'&_&_&Hn&_)]; congruence.
Qed.

End Pool.

(** ** Restarts *)

Section Restart.
Context `{NL : IpNetLib, EO : EntryOrder}.
Implicit Types (p : Pool (S := FileStore)) (n : IpNet).

(** A call of the pool, or a round of the task that writes the file. *)
Inductive FileOp := Answer (host : bytes) | Trace (ip : IpAddr) | FlushPool | Debounce.

Definition file_step p (op : FileOp) : Pool (S := FileStore) :=
  match op with
  | Answer host => (lookup p host).2
  | Trace ip => (look_back p ip).2
  | FlushPool => pool_flush p
  | Debounce => set_store p (persist (store p))
  end.

Definition file_run p (ops : list FileOp) : Pool (S := FileStore) := foldl file_step p ops.

(** A clean store agrees with its file. *)
Definition written (s : FileStore) : Prop := dirty s = false -> load_snapshot (file s) = snapshot s.

(** The cursor a pool would start with from the saved state. *)
Definition start_cursor p (st : option (IpAddr * bool)) : IpAddr * bool :=
  match st with
  | Some (o, c) => if contained_in_range o (first p) (last_ip p) then (o, c) else (prev_addr (first p), false)
  | None => (prev_addr (first p), false)
  end.

Definition resumable n p : Prop :=
  pool_ok n p /\ written (store p) /\ (offset p, cycle p) = start_cursor p (get_state (store p)).

Lemma foldl_reverse (l : list (bytes * IpAddr)) (r : gmap IpAddr bytes) ip h :
  NoDup l.*2 ->
  foldl (fun r '(h, ip) => <[ip := h]> r) r l !! ip = Some h <-> (h, ip) ∈ l \/ (ip ∉ l.*2 /\ r !! ip = Some h).
Proof.
  revert r. induction l as [|[h' ip'] l IH]; intros r; cbn.
  - intros _. split; [intros ?; right; split; [apply not_elem_of_nil|done]|]. by intros [?%not_elem_of_nil|[_ ?]].
  - intros [Hn Hd]%NoDup_cons. rewrite IH by done. rewrite elem_of_cons, not_elem_of_cons, lookup_insert_Some. cbn. split.
    + naive_solver.
    + intros [[[= -> ->]|?]|[[? ?] ?]]; [|naive_solver..]. right. auto.
Qed.

Lemma rebuild_reverse_inv s : file_ok s -> rebuild_reverse (entries (snapshot s)) = reverse s.
Proof.
  intros Hok. apply map_eq. intros ip. apply option_eq. intros h. unfold rebuild_reverse. rewrite foldl_reverse.
  - rewrite <- (Hok h ip), (entry_order_perm _), elem_of_map_to_list, lookup_empty. naive_solver.
  - rewrite (entry_order_perm _). apply NoDup_fmap_2_strong; [|apply NoDup_map_to_list].
    intros [h1 ip1] [h2 ip2] H1%elem_of_map_to_list%Hok H2%elem_of_map_to_list%Hok He. cbn in *. congruence.
Qed.

(** Reading back what was written gives the clean store. *)
Lemma file_reopen s : file_ok s -> written s -> file_open (file (persist s)) = persist s.
Proof.
  intros Hok Hw. unfold file_open, from_snapshot, persist. destruct s as [sn r d f]. cbn in *. destruct d; cbn.
  - destruct sn. unfold serialise. cbn. f_equal. exact (rebuild_reverse_inv _ Hok).
  - unfold written in Hw. cbn in Hw. rewrite (Hw eq_refl). f_equal. exact (rebuild_reverse_inv _ Hok).
Qed.

Lemma pool_ok_anchors n p : pool_ok n p -> anchor_addrs n = Ok (gateway p, first p, last_ip p).
Proof.
  intros [_ _ Hfit -> -> -> Hlt _ _]. destruct (network_bounds n) as [Hb1 Hb2]. unfold pool_fits, pool_first in *. unfold anchor_addrs.
  rewrite !(next_net_ip n) by lia. rewrite less_net_ip, (proj2 (Z.ltb_lt _ _)) by lia. rewrite !net_ip_v6, !bool_decide_eq_true_2 by done.
  cbn. by replace (network n + 1 + 1 + 1 + 1)%Z with (network n + 4)%Z by lia.
Qed.

Lemma written_dirty s : dirty s = true -> written s.
Proof. unfold written. congruence. Qed.

Lemma written_persist s : written s -> written (persist s).
Proof. unfold persist. destruct s as [[e o c] r [] f]; done. Qed.

Lemma pool_new_parts n s p :
  pool_new n s = Ok p -> store p = s /\ ipnet p = n /\ (offset p, cycle p) = start_cursor p (get_state s).
Proof.
  unfold pool_new, start_cursor. intros ([[g fi] l]&_&Hp)%bind_Ok. destruct (get_state s) as [[o c]|].
  - destruct (contained_in_range o fi l) eqn:Hc; injection Hp as <-; cbn; by rewrite Hc.
  - by injection Hp as <-.
Qed.

Lemma pool_new_resumable n f p :
  pool_ok n p -> pool_new n (file_open f) = Ok p -> resumable n p.
Proof. intros Hok (Hs&_&Hc)%pool_new_parts. split_and!; [done|..]; by rewrite Hs. Qed.

(** The cursor is saved after every allocation and flush. *)
Lemma saved_cursor_resumable n p :
  pool_ok n p -> offset p = prev_addr (first p) /\ cycle p = false \/ in_pool n (offset p) ->
  resumable n (save_cursor p).
Proof.
  intros Hok Hcur. destruct (save_cursor_ok n p Hok) as (Hok'&_). split_and!; [done|by apply written_dirty|]. cbn. unfold start_cursor. cbn.
  destruct Hcur as [[-> ->]|(a&->&Ha)]; [by destruct (contained_in_range _ _ _)|].
  destruct Hok as [_ _ _ _ -> -> _ _ _]. unfold contained_in_range. rewrite !less_net_ip.
  destruct (Z.ltb_spec a (pool_first n)), (Z.ltb_spec a (broadcast n)); by (lia || cbn).
Qed.

Lemma resumable_step n p op : resumable n p -> resumable n (file_step p op).
Proof.
  intros (Hok&Hw&Hc). destruct op as [host|ip| |]; cbn [file_step].
  - destruct (lookup_ok n p host Hok) as (Hok1&Hh&_). pose proof (po_view _ _ Hok1 _ _ Hh) as Hin. revert Hok1 Hin.
    unfold lookup. cbn [get_by_host file_store file_get_by_host]. destruct (entries _ !! _); [by destruct p|]. unfold allocate.
    destruct (if negb _ then _ else _) as [cand c]. cbn [fst snd]. intros Hok1 Hin. apply saved_cursor_resumable; [|by right].
    destruct Hok1. by split.
  - unfold look_back. destruct (_ || _); by destruct p.
  - apply saved_cursor_resumable; [|by left]. destruct (clear_store_ok n p Hok) as [Hcl _].
    destruct (reset_cursor_ok n _ Hcl) as [[] _]. by split.
  - split_and!; [|by apply written_persist|].
    + apply set_store_ok; [done|..]; unfold persist; destruct (dirty (store p)); cbn; try apply Hok.
    + unfold persist. by destruct (dirty (store p)).
Qed.

Lemma resumable_run n ops p : resumable n p -> resumable n (file_run p ops).
Proof. revert p. induction ops as [|op ops IH]; intros p Hr; [done|]. cbn. apply IH. by apply resumable_step. Qed.

(** C26: with the pairs in a file, a restart after any calls and any rounds
    of the task that writes it, once the last changes are written, gives the
    pool of before: the same pairs in both directions and the same cursor.
    With another range the remembered hosts still get the addresses of the
    old one, which the new pool does not take for fake ones. *)
Theorem fakeip_restart (n : IpNet) (f0 : option PersistedSnapshot) (p0 : Pool) (ops : list FileOp) :
  pool_fits n -> file_ok (file_open f0) ->
  (forall h ip, entries (load_snapshot f0) !! h = Some ip -> in_pool n ip) ->
  pool_new n (file_open f0) = Ok p0 ->
  let p := file_run p0 ops in
  let reopened := file_open (file (persist (store p))) in
  pool_new n reopened = Ok (set_store p (persist (store p))) /\
  (forall n' p' host ip, pool_new n' reopened = Ok p' ->
     (get_by_host (store p) (to_ascii_lowercase host)).1 = Some ip ->
     (lookup p' host).1 = ip /\ (net_contains n' ip = false -> is_fake_ip p' ip = false)).
Proof.
  intros Hfit Hfile Hv Hp0 p reopened. destruct (pool_new_ok (SL := file_laws) n (file_open f0) p0 Hfit Hfile Hv Hp0) as [Hok0 _].
  destruct (resumable_run n ops p0 (pool_new_resumable _ _ _ Hok0 Hp0)) as (Hok&Hw&Hc). fold p in Hok, Hw, Hc.
  assert (Hr : reopened = persist (store p)) by (apply file_reopen; [apply Hok|done]). rewrite Hr. split.
  - unfold pool_new. rewrite (pool_ok_anchors n p Hok). cbn [mbind result_bind].
    replace (get_state (persist (store p))) with (get_state (store p)) by (unfold persist; by case_match).
    unfold start_cursor in Hc. rewrite <- Hc. destruct Hok as [_ <- _ _ _ _ _ _ _]. done.
  - intros n' p' host ip Hp' Hh. apply pool_new_parts in Hp' as (Hs&Hn'&_). split.
    + unfold lookup. rewrite Hs. cbn in *. replace (snapshot (persist (store p))) with (snapshot (store p)) by (unfold persist; by case_match).
      by rewrite Hh.
    + intros Hnc. unfold is_fake_ip. by rewrite Hn', Hnc.
Qed.

End Restart.

(** *** Witnesses *)

(** 198.18.0.0/28: eleven addresses, the first of them 198.18.0.4. *)
Definition demo_net : IpNet := mkNet false 3323068416 28.
Definition demo_ops : list Op := [Lookup (b! "a.com"); LookBack (V4 3323068420); ClearStore; Lookup (b! "d.com"); ResetCursor; Lookup (b! "B.com")].

Definition demo_start : Pool (S := MemoryStore) :=
  mkPool demo_net (V4 3323068417) (V4 3323068420) (V4 3323068431) (V4 3323068419) false (memory_new 11).

Lemma fakeip_lookup_witness :
  (lookup (run demo_start demo_ops) (b! "C.com")).1 = V4 3323068421 /\
  (look_back (lookup (run demo_start demo_ops) (b! "C.com")).2 (V4 3323068421)).1 = Some (b! "c.com").
Proof.
  destruct (fakeip_lookup demo_net (memory_new 11) demo_start demo_ops (b! "C.com")) as (_&_&Hb&_).
  - vm_compute. discriminate.
  - apply memory_new_ok.
  - intros h ip Hin. vm_compute in Hin. discriminate.
  - reflexivity.
  - assert (Hip : (lookup (run demo_start demo_ops) (b! "C.com")).1 = V4 3323068421) by (vm_compute; reflexivity).
    rewrite Hip in Hb. split; [exact Hip|]. rewrite Hb. vm_compute. reflexivity.
Defined.

Lemma fakeip_stable_witness :
  (lookup (run (lookup (run demo_start demo_ops) (b! "c.com")).2 [Lookup (b! "d.com"); Lookup (b! "b.com"); Lookup (b! "e.com")]) (b! "c.com")).1
  = V4 3323068421.
Proof.
  destruct (fakeip_stable demo_net (memory_new 11) demo_start demo_ops (b! "c.com")
    [Lookup (b! "d.com"); Lookup (b! "b.com"); Lookup (b! "e.com")]) as [Hl _].
  - vm_compute. discriminate.
  - apply memory_new_ok.
  - intros h ip Hin. vm_compute in Hin. discriminate.
  - vm_compute. lia.
  - reflexivity.
  - vm_compute. reflexivity.
  - repeat constructor.
  - vm_compute. lia.
  - rewrite Hl. vm_compute. reflexivity.
Defined.

Definition demo_file : Pool (S := FileStore) :=
  mkPool demo_net (V4 3323068417) (V4 3323068420) (V4 3323068431) (V4 3323068419) false (file_open None).

Lemma fakeip_restart_witness :
  let p := file_run demo_file [Answer (b! "a.com"); Debounce; Answer (b! "b.com")] in
  pool_new demo_net (file_open (file (persist (store p)))) = Ok (set_store p (persist (store p))) /\
  offset p = V4 3323068421.
Proof.
  destruct (fakeip_restart demo_net None demo_file [Answer (b! "a.com"); Debounce; Answer (b! "b.com")]) as [Hp _].
  - vm_compute. discriminate.
  - intros h ip. vm_compute. split; discriminate.
  - intros h ip Hin. vm_compute in Hin. discriminate.
  - reflexivity.
  - split; [exact Hp|]. vm_compute. reflexivity.
Defined.

End FakeIpTheorems.

(** ** Hosts that keep their real addresses (crates/meow-dns/src/fakeip.rs)

    The skipper of the fake-IP pool over the domain trie: it decides by the
    patterns exactly, whatever the trie does with them. *)

Module FakeIpSkipper.
Import Trie DomainTrie Sealed TrieSpec TrieTheorems FakeIp.

Section Skipper.
Context `{HO : HashOrder, UL : UnicodeLower}.

(** The trie takes a pattern that has a slot to fill. *)
Definition accepted (raw : bytes) : Prop := key_slots (trim raw) <> [].

#[export] Instance accepted_dec raw : Decision (accepted raw).
Proof. unfold accepted. apply _. Defined.

Lemma key_slots_nil : key_slots [] = [].
Proof. apply key_slots_dots. unfold normal_key. by vm_compute. Qed.

Lemma add_pattern_step t n raw t' :
  step t (Insert (trim raw) tt) = Some t' ->
  add_pattern (t, n) raw = Some (t', if decide (accepted raw) then n + 1 else n).
Proof.
  unfold add_pattern, accepted. cbn [step]. unfold DomainTrie.insert. rewrite insert_inner_slots.
  destruct (decide (key_slots (trim raw) = [])) as [Hn|Hn].
  - rewrite bool_decide_eq_true_2 by done. intros [= <-]. rewrite decide_False by auto. by case_bool_decide.
  - rewrite bool_decide_eq_false_2 by done. rewrite decide_True by done.
    rewrite bool_decide_eq_false_2 by (intros Hr; by rewrite Hr, key_slots_nil in Hn).
    destruct (state t) as [b|s].
    + destruct (builder_inserts _ _ _ _) as [b'|]; [|done]. by intros [= <-].
    + by intros [= <-].
Qed.

Lemma add_patterns_run patterns t n t' :
  foldlM step t (build_ops (trim <$> patterns) tt) = Some t' ->
  foldlM add_pattern (t, n) patterns = Some (t', n + length (filter accepted patterns)).
Proof.
  revert t n. induction patterns as [|raw ps IH]; intros t n; cbn [build_ops fmap list_fmap foldlM].
  - intros [= ->]. cbn. by rewrite Nat.add_0_r.
  - intros (t1&H1&H2)%bind_Some. rewrite (add_pattern_step _ _ _ _ H1). cbn [mbind option_bind]. rewrite filter_cons.
    destruct (decide (accepted raw)); rewrite (IH t1 _ H2); [|done]. cbn [length]. do 2 f_equal. lia.
Qed.

(** Over patterns whose labels fit the trie, the skipper builds and
    decides without a panic. As a black list it skips the hosts that match a
    pattern. As a white list it skips those that match none, and skips
    nothing when every pattern was refused. *)
Theorem skipper_exact (patterns : list bytes) (mode : SkipperMode) :
  small (build_ops (trim <$> patterns) tt) ->
  exists s, skipper_new patterns mode = Some s /\
    forall host, exists b, should_skip s host = Some b /\
      (b = true <->
       match mode with
       | BlackList => Exists (fun raw => pattern_matches (trim raw) host) patterns
       | WhiteList => Exists accepted patterns /\ Forall (fun raw => ~ pattern_matches (trim raw) host) patterns
       end).
Proof.
  intros Hsmall. destruct (run_repr _ Hsmall) as (t&b&Ht&Hr&_).
  exists (mkSkipper t mode (length (filter accepted patterns) =? 0)). unfold skipper_new. split; [by rewrite (add_patterns_run _ _ 0 _ Ht)|].
  intros host. unfold should_skip. cbn [empty trie FakeIp.mode].
  assert (Hmatch : forall v, best_match (contents (build_ops (trim <$> patterns) tt))
      (to_ascii_lowercase (trim_end_byte dot (trim host))) = v ->
    is_Some v <-> Exists (fun raw => pattern_matches (trim raw) host) patterns).
  { intros v <-. rewrite best_match_Some, Exists_exists. setoid_rewrite contents_build. setoid_rewrite list_elem_of_fmap.
    unfold pattern_matches. naive_solver. }
  assert (Hacc : Exists (fun raw => pattern_matches (trim raw) host) patterns -> Exists accepted patterns).
  { intros Hex. eapply Exists_impl; [exact Hex|]. intros raw (k&Hk&_) Hn. rewrite Hn in Hk. by apply not_elem_of_nil in Hk. }
  destruct (Nat.eqb_spec (length (filter accepted patterns)) 0) as [He|He].
  - exists false. split; [done|]. apply nil_length_inv in He.
    assert (Hn : ~ Exists accepted patterns).
    { intros (raw&Hin&Ha)%Exists_exists. apply (not_elem_of_nil raw). rewrite <- He. by apply list_elem_of_filter. }
    split; [done|]. destruct mode; [intros ?%Hacc|intros [? _]]; done.
  - rewrite (search_run _ _ _ host Hr). cbn [mbind option_bind]. eexists. split; [done|].
    assert (Ha : Exists accepted patterns).
    { destruct (filter accepted patterns) as [|raw l] eqn:Hf; [done|]. apply Exists_exists. exists raw.
      assert (Hin : raw ∈ filter accepted patterns) by (rewrite Hf; by left). by apply list_elem_of_filter in Hin as [? ?]. }
    specialize (Hmatch _ eq_refl). destruct mode.
    + by rewrite bool_decide_eq_true.
    + rewrite negb_true_iff, bool_decide_eq_false, Hmatch, <- Forall_Exists_neg. naive_solver.
Qed.

End Skipper.

(** *** Witness *)

Lemma skipper_exact_witness :
  exists s, skipper_new [b! " +.lan"; b! "*.local"; b! ""] WhiteList = Some s /\
    should_skip s (b! "printer.lan") = Some false.
Proof.
  destruct (skipper_exact [b! " +.lan"; b! "*.local"; b! ""] WhiteList) as (s&Hs&Hskip); [vm_compute; reflexivity|].
  exists s. split; [exact Hs|]. destruct (Hskip (b! "printer.lan")) as (b&Hb&Hiff). rewrite Hb. f_equal.
  destruct b; [|reflexivity]. destruct (proj1 Hiff eq_refl) as [_ Hno]. apply Forall_inv in Hno. destruct Hno.
  exists (Dot, b! "lan"). split; [apply (list_elem_of_lookup_2 _ 1); vm_compute; reflexivity|].
  exists (b! "printer"). vm_compute. reflexivity.
Defined.

End FakeIpSkipper.
