(* ===== verification/DnsCache.v ===== *)
(** * The DNS cache (crates/meow-dns/src/cache.rs)

    Answers by name, with an expiry for each address family, and names by
    address, each in sixteen shards that forget what was used longest ago.
    A call is given the time it reads from the clock. Times and lifetimes are
    nanoseconds, kept as unbounded integers; the additions of the code would
    panic only past [2 ^ 63] seconds. Each shard has its own mutex; a call
    that takes several is one step here. *)

From S2P Require Import Prelude Strings Bits Ip Lru.
From stdpp Require Import sorting.

Module DnsCache.
Local Open Scope Z_scope.

(** ** Families *)

(** [QueryFamilies], a [u8]. *)
Notation QueryFamilies := Z (only parsing).

Definition NONE : QueryFamilies := 0.
Definition IPV4 : QueryFamilies := 1.
Definition IPV6 : QueryFamilies := 2.
Definition BOTH : QueryFamilies := Z.lor IPV4 IPV6.

Definition union (a b : QueryFamilies) : QueryFamilies := Z.lor a b.
Definition contains (a family : QueryFamilies) : bool := Z.land a family =? family.
Definition ip_family (ip : IpAddr) : QueryFamilies := if is_v6 ip then IPV6 else IPV4.
Definition from_ips (ips : list IpAddr) : QueryFamilies := foldl (fun fs ip => union fs (ip_family ip)) NONE ips.
Definition contains_ip (a : QueryFamilies) (ip : IpAddr) : bool := contains a (ip_family ip).
Definition other (a : QueryFamilies) : QueryFamilies := if a =? IPV4 then IPV6 else IPV4.

(** ** Negative answers *)

Inductive FamilyNeg := NegNone | NegNoData | NegNxDomain.

#[export] Instance FamilyNeg_eq_dec : EqDecision FamilyNeg.
Proof. solve_decision. Defined.

(** [NegKind], a [u8] with two bits a family. *)
Notation NegKind := Z (only parsing).

Definition KIND_NONE : Z := 0.
Definition KIND_NODATA : Z := 1.
Definition KIND_NXDOMAIN : Z := 2.

Definition family_shift (family : QueryFamilies) : Z := if family =? IPV4 then 0 else 2.

Definition neg_empty : NegKind := 0.

Definition neg_with (n : NegKind) (family : QueryFamilies) (kind : Z) : NegKind :=
  Z.lor (Z.land n (w8 (Z.lnot (Z.shiftl 3 (family_shift family))))) (Z.shiftl (Z.land kind 3) (family_shift family)).

Definition neg_get (n : NegKind) (family : QueryFamilies) : Z := Z.land (Z.shiftr n (family_shift family)) 3.

Definition family_kind (n : NegKind) (family : QueryFamilies) : FamilyNeg :=
  if neg_get n family =? KIND_NODATA then NegNoData
  else if neg_get n family =? KIND_NXDOMAIN then NegNxDomain
  else NegNone.

(** ** Entries *)

Record CacheEntry := mkEntry {
  ips : list IpAddr;
  expire_v4 : Z;
  expire_v6 : Z;
  source : option bytes;
  queried : QueryFamilies;
  neg : NegKind;
}.

Inductive FamilyCacheHit :=
  | Answer (ips : list IpAddr) (remaining : Z)
  | NoData
  | NxDomain
  | Miss.

Definition is_fresh (h : FamilyCacheHit) : bool := match h with Miss => false | _ => true end.

Record CacheLookup := mkLookup {
  l_ips : list IpAddr;
  l_ttl : Z;
  l_v4 : FamilyCacheHit;
  l_v6 : FamilyCacheHit;
}.

Record ReverseEntry := mkReverse { domain : bytes; expire_at : Z }.

Definition SECOND : Z := 10 ^ 9.
Definition DURATION_MAX : Z := (2 ^ 64 - 1) * SECOND + (SECOND - 1).
Definition REVERSE_CAP_MULTIPLIER : Z := 4.
Definition REVERSE_TTL_FLOOR : Z := 600 * SECOND.
Definition SHARDS : nat := 16.

Definition saturating_duration_since (later earlier : Z) : Z := Z.max 0 (later - earlier).

(** ** Shards *)

Definition fnv1a32 (s : bytes) : Z :=
  foldl (fun h b => (Z.lxor h (byte_z b) * 0x01000193) `mod` 2 ^ 32) 0x811c9dc5 s.

Definition shard_str (s : bytes) : nat := Z.to_nat (Z.land (fnv1a32 s) 15).

Definition octets (ip : IpAddr) : bytes := match ip with V4 a => to_be_bytes 4 a | V6 a => to_be_bytes 16 a end.

Definition shard_ip (ip : IpAddr) : nat := Z.to_nat (Z.land (fnv1a32 (octets ip)) 15).

Definition per_shard_cap (total min : Z) : Z := Z.max (total / 16) min.

Definition normalize_domain (domain : bytes) : bytes :=
  if existsb is_ascii_uppercase domain then to_ascii_lowercase domain else domain.

(** [Ord] of [IpAddr]: the families in order, then the numbers. *)
Definition ip_le (a b : IpAddr) : Prop :=
  match a, b with
  | V4 a, V4 b => a <= b
  | V6 a, V6 b => a <= b
  | V4 _, V6 _ => True
  | V6 _, V4 _ => False
  end.

#[export] Instance ip_le_dec : RelDecision ip_le.
Proof. intros [] []; cbn; apply _. Defined.

Section Cache.
Context `{LL : LruLib}.

Record DnsCache := mkCache {
  cache : list (LruCache bytes CacheEntry);
  reverse : list (LruCache IpAddr ReverseEntry);
  fwd_shard_cap : nat;
  rev_shard_cap : nat;
}.

(** The shard at an index, which the mask keeps below [SHARDS]. *)
Definition shard_at {K V} (l : list (LruCache K V)) (i : nat) : LruCache K V := default lru_unbounded (l !! i).

Definition set_cache (c : DnsCache) (i : nat) (s : LruCache bytes CacheEntry) : DnsCache :=
  mkCache (<[i := s]> (cache c)) (reverse c) (fwd_shard_cap c) (rev_shard_cap c).

Definition set_reverse (c : DnsCache) (i : nat) (s : LruCache IpAddr ReverseEntry) : DnsCache :=
  mkCache (cache c) (<[i := s]> (reverse c)) (fwd_shard_cap c) (rev_shard_cap c).

(** A put and the eviction that restores the cap. *)
Definition shard_put {K V} `{EqDecision K} (cap : nat) (k : K) (v : V) (s : LruCache K V) : LruCache K V :=
  let s := lru_put k v s in if (cap <? lru_len s)%nat then (lru_pop_lru s).2 else s.

(** [capacity] is a [usize] of 64 bits. *)
Definition new (capacity : Z) : DnsCache :=
  mkCache (replicate SHARDS lru_unbounded) (replicate SHARDS lru_unbounded)
    (Z.to_nat (per_shard_cap (Z.max capacity 16) 8))
    (Z.to_nat (per_shard_cap (Z.max (Z.min (capacity * REVERSE_CAP_MULTIPLIER) (2 ^ 64 - 1)) 16) 16)).

(** ** Reading *)

Definition expiry (e : CacheEntry) (family : QueryFamilies) : Z := if family =? IPV4 then expire_v4 e else expire_v6 e.

(** The family was asked for and its answer has not expired. *)
Definition fresh (e : CacheEntry) (family : QueryFamilies) (now : Z) : bool :=
  contains (queried e) family && (now <? expiry e family).

Definition family_ips (family : QueryFamilies) (l : list IpAddr) : list IpAddr := filter (contains_ip family) l.

Definition family_hit (e : CacheEntry) (family : QueryFamilies) (fresh : bool) (now : Z) : FamilyCacheHit :=
  if negb fresh then Miss
  else
    let remaining := saturating_duration_since (expiry e family) now in
    match family_ips family (ips e) with
    | [] => match family_kind (neg e) family with NegNxDomain => NxDomain | _ => NoData end
    | l => Answer l remaining
    end.

(** One round of the loop over the two families. *)
Definition add_hit (acc : list IpAddr * Z) (hit : FamilyCacheHit) : list IpAddr * Z :=
  match hit with
  | Answer l ttl => (acc.1 ++ l, if ttl <? acc.2 then ttl else acc.2)
  | _ => acc
  end.

Definition lookup_of (e : CacheEntry) (now : Z) : CacheLookup :=
  let v4 := family_hit e IPV4 (fresh e IPV4 now) now in
  let v6 := family_hit e IPV6 (fresh e IPV6 now) now in
  let '(l, min_remaining) := foldl add_hit ([], DURATION_MAX) [v4; v6] in
  mkLookup l (if min_remaining =? DURATION_MAX then 0 else min_remaining) v4 v6.

Definition get_lookup (c : DnsCache) (now : Z) (domain : bytes) : option CacheLookup * DnsCache :=
  let domain := normalize_domain domain in
  let i := shard_str domain in
  match lru_get domain (shard_at (cache c) i) with
  | (None, s) => (None, set_cache c i s)
  | (Some e, s) =>
      if fresh e IPV4 now || fresh e IPV6 now then (Some (lookup_of e now), set_cache c i s)
      else (None, set_cache c i (lru_pop domain s).2)
  end.

Definition get_with_ttl (c : DnsCache) (now : Z) (domain : bytes) : option (list IpAddr * Z) * DnsCache :=
  let '(r, c) := get_lookup c now domain in ((fun l => (l_ips l, l_ttl l)) <$> r, c).

Definition get (c : DnsCache) (now : Z) (domain : bytes) : option (list IpAddr) * DnsCache :=
  let '(r, c) := get_with_ttl c now domain in (fst <$> r, c).

(** ** Writing *)

Definition put_reverse (c : DnsCache) (name : bytes) (expire : Z) (ip : IpAddr) : DnsCache :=
  let i := shard_ip ip in
  set_reverse c i (shard_put (rev_shard_cap c) ip (mkReverse name expire) (shard_at (reverse c) i)).

Definition put_forward (c : DnsCache) (name : bytes) (e : CacheEntry) : DnsCache :=
  let i := shard_str name in
  set_cache c i (shard_put (fwd_shard_cap c) name e (shard_at (cache c) i)).

Definition put_replacing (c : DnsCache) (now : Z) (domain : bytes) (ips : list IpAddr) (ttl : Z)
    (source : option bytes) (queried : QueryFamilies) (neg : NegKind) : DnsCache :=
  let expire := now + ttl in
  let reverse_expire_at := now + Z.max ttl REVERSE_TTL_FLOOR in
  let domain := normalize_domain domain in
  let c := foldl (fun c ip => put_reverse c domain reverse_expire_at ip) c ips in
  put_forward c domain (mkEntry ips expire expire source queried neg).

Definition put_with_source (c : DnsCache) (now : Z) (domain : bytes) (ips : list IpAddr) (ttl : Z)
    (source : option bytes) : DnsCache :=
  let '(queried, neg) :=
    match ips with
    | [] => (BOTH, neg_with (neg_with neg_empty IPV4 KIND_NXDOMAIN) IPV6 KIND_NXDOMAIN)
    | _ => (from_ips ips, neg_empty)
    end in
  put_replacing c now domain ips ttl source queried neg.

Definition put (c : DnsCache) (now : Z) (domain : bytes) (ips : list IpAddr) (ttl : Z) : DnsCache :=
  put_with_source c now domain ips ttl None.

(** The [while] loop: [kept] is [merged[..i]]. *)
Fixpoint dedup (kept rest : list IpAddr) : list IpAddr :=
  match rest with
  | [] => kept
  | ip :: rest => if bool_decide (ip ∈ kept) then dedup kept rest else dedup (kept ++ [ip]) rest
  end.

Definition neg_kind (n : FamilyNeg) : Z :=
  match n with NegNone => KIND_NONE | NegNoData => KIND_NODATA | NegNxDomain => KIND_NXDOMAIN end.

(** A NODATA answer does not replace a fresh better one. *)
Definition preserve_existing (existing : CacheEntry) (now : Z) (family : QueryFamilies) (ips : list IpAddr)
    (neg : FamilyNeg) : bool :=
  fresh existing family now && bool_decide (neg = NegNoData) && bool_decide (ips = []) &&
  ((neg_get (DnsCache.neg existing) family =? KIND_NXDOMAIN) ||
   negb (bool_decide (family_ips family (DnsCache.ips existing) = []))).

(** The entry that replaces [existing]. *)
Definition merge_entry (existing : option CacheEntry) (now : Z) (family : QueryFamilies) (ips : list IpAddr) (ttl : Z)
    (source : option bytes) (neg : FamilyNeg) : CacheEntry :=
  let expire := now + ttl in
  let merged_neg := neg_with neg_empty family (neg_kind neg) in
  match existing with
  | None => mkEntry (dedup [] ips) expire expire source family merged_neg
  | Some e =>
      let preserve := preserve_existing e now family ips neg in
      let same_ips := family_ips family (DnsCache.ips e) in
      let merged := if preserve then same_ips else [] in
      let merged_neg :=
        if preserve then neg_with merged_neg family (if bool_decide (same_ips = []) then KIND_NXDOMAIN else KIND_NONE)
        else merged_neg in
      let expire_v4 := if preserve && (family =? IPV4) then DnsCache.expire_v4 e else expire in
      let expire_v6 := if preserve && negb (family =? IPV4) then DnsCache.expire_v6 e else expire in
      let other := other family in
      let keep := contains (queried e) other && (now <? expiry e other) in
      let merged_queried := if keep then union family other else family in
      let merged := if keep then merged ++ family_ips other (DnsCache.ips e) else merged in
      let expire_v4 := if keep && (other =? IPV4) then DnsCache.expire_v4 e else expire_v4 in
      let expire_v6 := if keep && negb (other =? IPV4) then DnsCache.expire_v6 e else expire_v6 in
      let merged_neg := if keep then neg_with merged_neg other (neg_get (DnsCache.neg e) other) else merged_neg in
      let merged_source := match source with None => DnsCache.source e | _ => source end in
      mkEntry (dedup [] (merged ++ ips)) expire_v4 expire_v6 merged_source merged_queried merged_neg
  end.

Definition merge_family (c : DnsCache) (now : Z) (domain : bytes) (family : QueryFamilies) (ips : list IpAddr) (ttl : Z)
    (source : option bytes) (neg : FamilyNeg) : DnsCache :=
  if negb (family =? IPV4) && negb (family =? IPV6) then c
  else
    let reverse_expire_at := now + Z.max ttl REVERSE_TTL_FLOOR in
    let domain := normalize_domain domain in
    let c := foldl (fun c ip => put_reverse c domain reverse_expire_at ip) c ips in
    let i := shard_str domain in
    let '(existing, s) := lru_get domain (shard_at (cache c) i) in
    put_forward (set_cache c i s) domain (merge_entry existing now family ips ttl source neg).

(** ** Names of addresses *)

Definition reverse_lookup (c : DnsCache) (now : Z) (ip : IpAddr) : option bytes * DnsCache :=
  let i := shard_ip ip in
  match lru_get ip (shard_at (reverse c) i) with
  | (None, s) => (None, set_reverse c i s)
  | (Some e, s) =>
      if now <? expire_at e then (Some (domain e), set_reverse c i s)
      else (None, set_reverse c i (lru_pop ip s).2)
  end.

Definition clear (c : DnsCache) : DnsCache :=
  mkCache (lru_clear <$> cache c) (lru_clear <$> reverse c) (fwd_shard_cap c) (rev_shard_cap c).

Definition forward_len (c : DnsCache) : nat := sum_list (lru_len <$> cache c).
Definition reverse_len (c : DnsCache) : nat := sum_list (lru_len <$> reverse c).

(** ** Snapshots *)

Record DnsCacheSnapshotEntry := mkSnapshotEntry {
  name : bytes;
  s_ips : list IpAddr;
  s_ttl : Z;
  s_source : option bytes;
}.

(** Pops the keys of the entries that [expired] holds of. *)
Definition sweep {K V} `{EqDecision K} (expired : V -> bool) (s : LruCache K V) : LruCache K V :=
  foldl (fun s k => (lru_pop k s).2) s (fst <$> filter (fun e => expired e.2) (lru_iter s)).

Definition dead (now : Z) (e : CacheEntry) : bool := negb (fresh e IPV4 now) && negb (fresh e IPV6 now).

Definition snapshot_entry (now : Z) (e : bytes * CacheEntry) : DnsCacheSnapshotEntry :=
  let '(name, e) := e in
  let v4_fresh := fresh e IPV4 now in
  let v6_fresh := fresh e IPV6 now in
  let latest := now in
  let latest := if v4_fresh && (latest <? expire_v4 e) then expire_v4 e else latest in
  let latest := if v6_fresh && (latest <? expire_v6 e) then expire_v6 e else latest in
  mkSnapshotEntry name (filter (fun ip => (if is_v6 ip then v6_fresh else v4_fresh) = true) (ips e))
    (saturating_duration_since latest now) (source e).

Definition by_name (a b : DnsCacheSnapshotEntry) : Prop := bytes_le (name a) (name b).

#[local] Instance by_name_dec : RelDecision by_name.
Proof. intros a b. apply bytes_le_dec. Defined.

Definition snapshot (c : DnsCache) (now : Z) : list DnsCacheSnapshotEntry * DnsCache :=
  let shards := sweep (dead now) <$> cache c in
  (merge_sort by_name (snapshot_entry now <$> mjoin (lru_iter <$> shards)),
   mkCache shards (reverse c) (fwd_shard_cap c) (rev_shard_cap c)).

Record ReverseSnapshotEntry := mkReverseSnapshot {
  r_ip : IpAddr;
  r_domain : bytes;
  r_remaining : Z;
}.

Definition by_ip (a b : ReverseSnapshotEntry) : Prop := ip_le (r_ip a) (r_ip b).

#[local] Instance by_ip_dec : RelDecision by_ip.
Proof. intros a b. apply ip_le_dec. Defined.

Definition reverse_entry (now : Z) (e : IpAddr * ReverseEntry) : ReverseSnapshotEntry :=
  mkReverseSnapshot e.1 (domain e.2) (saturating_duration_since (expire_at e.2) now).

Definition reverse_snapshot (c : DnsCache) (now : Z) : list ReverseSnapshotEntry * DnsCache :=
  let shards := sweep (fun e => expire_at e <=? now) <$> reverse c in
  (merge_sort by_ip (reverse_entry now <$> mjoin (lru_iter <$> shards)),
   mkCache (cache c) shards (fwd_shard_cap c) (rev_shard_cap c)).

Definition restore_entry (now : Z) (c : DnsCache) (e : ReverseSnapshotEntry) : DnsCache :=
  if r_remaining e =? 0 then c else put_reverse c (r_domain e) (now + r_remaining e) (r_ip e).

Definition restore_reverse (c : DnsCache) (now : Z) (entries : list ReverseSnapshotEntry) : DnsCache :=
  foldl (restore_entry now) c entries.

End Cache.
End DnsCache.
