(* ===== verification/DnsCacheRun.v ===== *)
(** * Shards of the DNS cache (crates/meow-dns/src/cache.rs)

    What a put, a read, a removal and a sweep do to the list of entries of a
    shard, how far down an entry can move, and the invariant of the cache:
    every key is in its shard once and no shard exceeds its cap. *)

From S2P Require Import Prelude Strings Ip Bits Lru DnsCache.

Module DnsCacheShards.
Import DnsCache.

(** ** Filters *)

Lemma filter_ext_in {A} (P Q : A -> Prop) `{!forall x, Decision (P x), !forall x, Decision (Q x)} (l : list A) :
  (forall x, x ∈ l -> P x <-> Q x) -> filter P l = filter Q l.
Proof.
  induction l as [|x l IH]; intros Hpq; [done|]. rewrite !filter_cons, (IH (fun y Hy => Hpq y (list_elem_of_further _ _ _ Hy))).
  specialize (Hpq x (list_elem_of_here _ _)). destruct (decide (P x)), (decide (Q x)); tauto || done.
Qed.

Lemma filter_true_in {A} (P : A -> Prop) `{!forall x, Decision (P x)} (l : list A) :
  (forall x, x ∈ l -> P x) -> filter P l = l.
Proof.
  induction l as [|x l IH]; intros HP; [done|]. rewrite filter_cons, decide_True by (apply HP; by left).
  by rewrite IH by (intros y Hy; apply HP; by right).
Qed.

Lemma filter_false_in {A} (P : A -> Prop) `{!forall x, Decision (P x)} (l : list A) :
  (forall x, x ∈ l -> ~ P x) -> filter P l = [].
Proof.
  induction l as [|x l IH]; intros HP; [done|]. rewrite filter_cons, decide_False by (apply HP; by left).
  apply IH. intros y Hy. apply HP. by right.
Qed.

Lemma filter_keys_NoDup {K V} (P : K * V -> Prop) `{!forall x, Decision (P x)} (l : list (K * V)) :
  NoDup l.*1 -> NoDup (filter P l).*1.
Proof.
  induction l as [|[k v] l IH]; [done|]. rewrite fmap_cons, NoDup_cons, filter_cons. intros [Hn Hd].
  destruct (decide _); [|auto]. rewrite fmap_cons. apply NoDup_cons. split; [|auto].
  intros (e&He&[_ Hin]%list_elem_of_filter)%list_elem_of_fmap. apply Hn. rewrite He. by apply (list_elem_of_fmap_2 fst).
Qed.

(** ** Lists of entries *)

Section Lists.
Context {K V : Type} `{EqDecision K}.
Implicit Types (k : K) (v : V) (l : list (K * V)).

(** A put with eviction. *)
Definition lput (cap : nat) k v l : list (K * V) := take cap ((k, v) :: remove_key k l).

(** The entry is among the first [n + 1]. *)
Definition near l k v (n : nat) : Prop := exists i, i <= n /\ l !! i = Some (k, v).

Lemma near_elem l k v n : near l k v n -> (k, v) ∈ l.
Proof. intros (i&_&Hi). by eapply list_elem_of_lookup_2. Qed.

Lemma near_mono l k v n m : near l k v n -> n <= m -> near l k v m.
Proof. intros (i&?&?) ?. exists i. split; [lia|done]. Qed.

Lemma near_remove l k v n k' : near l k v n -> k' <> k -> near (remove_key k' l) k v n.
Proof.
  intros (i&Hi&Hl) Hne. unfold remove_key. revert i n Hi Hl. induction l as [|[k0 v0] l IH]; intros i n Hi Hl; [done|].
  rewrite filter_cons. cbn [fst]. destruct i as [|i]; cbn in Hl.
  - injection Hl as -> ->. rewrite decide_True by auto. exists 0. split; [lia|done].
  - destruct n as [|n]; [lia|]. destruct (IH i n) as (j&?&?); [lia|done|]. destruct (decide _).
    + exists (S j). split; [lia|done].
    + exists j. split; [lia|done].
Qed.

Lemma near_cons l k v n e : near l k v n -> near (e :: l) k v (S n).
Proof. intros (i&?&?). exists (S i). split; [lia|done]. Qed.

Lemma near_lput cap l k v n k' v' : near l k v n -> k' <> k -> S n < cap -> near (lput cap k' v' l) k v (S n).
Proof.
  intros Hn Hne Hcap. apply (near_remove _ _ _ _ _ Hn) in Hne. apply (near_cons _ _ _ _ (k', v')) in Hne as (i&Hi&Hl).
  exists i. split; [done|]. unfold lput. by rewrite lookup_take_lt by lia.
Qed.

Lemma near_lput_same cap l k v : 1 <= cap -> near (lput cap k v l) k v 0.
Proof. intros Hc. exists 0. split; [done|]. unfold lput. by destruct cap; [lia|]. Qed.

Lemma near_touch l k v n k' : NoDup l.*1 -> near l k v n -> near (touch k' l) k v (if decide (k' = k) then 0 else S n).
Proof.
  intros Hd Hn. unfold touch. destruct (decide (k' = k)) as [->|Hne].
  - rewrite (proj2 (assoc_elem k v l Hd)) by by eapply near_elem. exists 0. done.
  - destruct (assoc k' l).
    + apply near_cons. by apply near_remove.
    + eapply near_mono; [done|lia].
Qed.

Lemma near_filter l k v n (P : K * V -> Prop) `{!forall e, Decision (P e)} :
  near l k v n -> P (k, v) -> near (filter P l) k v n.
Proof.
  intros (i&Hi&Hl) HP. revert i n Hi Hl. induction l as [|e l IH]; intros i n Hi Hl; [done|].
  rewrite filter_cons. destruct i as [|i]; cbn in Hl.
  - injection Hl as ->. rewrite decide_True by done. exists 0. split; [lia|done].
  - destruct n as [|n]; [lia|]. destruct (IH i n) as (j&?&?); [lia|done|]. destruct (decide _).
    + exists (S j). split; [lia|done].
    + exists j. split; [lia|done].
Qed.

Lemma remove_key_touch k l : remove_key k (touch k l) = remove_key k l.
Proof.
  unfold touch. destruct (assoc k l); [|done]. unfold remove_key. rewrite filter_cons, decide_False by auto.
  apply list_filter_filter_l. done.
Qed.

Lemma remove_key_ne_keys k l k' : k' ∈ (remove_key k l).*1 -> k' ∈ l.*1 /\ k' <> k.
Proof. rewrite remove_key_keys, list_elem_of_filter. naive_solver. Qed.

Lemma touch_keys k k' l : k' ∈ (touch k l).*1 -> k' ∈ l.*1.
Proof.
  unfold touch. destruct (assoc k l) eqn:Ha; [|done]. rewrite fmap_cons, elem_of_cons. intros [->|Hin].
  - cbn. destruct (decide (k ∈ l.*1)) as [|Hn]; [done|]. apply assoc_None in Hn. congruence.
  - by apply remove_key_ne_keys in Hin as [? _].
Qed.

(** What is found after a put is the new entry or an old one. *)
Lemma assoc_lput_same cap k v l : 1 <= cap -> assoc k (lput cap k v l) = Some v.
Proof. intros ?. unfold lput. destruct cap; [lia|]. cbn. by rewrite decide_True. Qed.

Lemma assoc_take n k v l : NoDup l.*1 -> assoc k (take n l) = Some v -> assoc k l = Some v.
Proof.
  intros Hd. rewrite !assoc_elem by (try rewrite fmap_take; try (eapply sublist_NoDup; [|apply sublist_take]); done).
  intros (i&Hi&_)%elem_of_take. by eapply list_elem_of_lookup_2.
Qed.

Lemma assoc_lput_other cap k v l k' v' :
  NoDup l.*1 -> k' <> k -> assoc k' (lput cap k v l) = Some v' -> assoc k' l = Some v'.
Proof.
  intros Hd Hne Ha. apply assoc_take in Ha; [|by apply put_NoDup]. cbn in Ha.
  by rewrite decide_False, assoc_remove_key, decide_False in Ha by done.
Qed.

Lemma assoc_filter (P : V -> Prop) `{!forall v, Decision (P v)} k l :
  NoDup l.*1 -> assoc k (filter (fun e => P e.2) l) = (v ← assoc k l; if decide (P v) then Some v else None).
Proof.
  induction l as [|[k' v'] l IH]; [done|]. rewrite fmap_cons. intros [Hn Hd]%NoDup_cons. rewrite filter_cons. cbn [assoc snd fst] in *.
  destruct (decide (P v')) as [HP|HP]; cbn [assoc]; destruct (decide (k = k')) as [->|]; rewrite ?IH by done; cbn.
  - by rewrite decide_True.
  - done.
  - rewrite decide_False by done. replace (assoc k' l) with (@None V); [done|]. symmetry. by apply assoc_None.
  - done.
Qed.

End Lists.

(** ** One shard *)

Section Shard.
Context `{LL : LruLib} {K V : Type} `{EqDecision K}.
Variables (cap : nat) (h : K -> nat) (i : nat).
Implicit Types (s : LruCache K V) (l : list (K * V)).

Definition shard_ok l : Prop := NoDup l.*1 /\ length l <= cap /\ forall k, k ∈ l.*1 -> h k = i.

Lemma shard_put_iter s k v :
  1 <= cap -> shard_ok (lru_iter s) -> lru_iter (shard_put cap k v s) = lput cap k v (lru_iter s).
Proof.
  intros Hc (Hd&Hl&_). unfold shard_put, lput. rewrite len_spec, put_spec. set (l := (k, v) :: remove_key k (lru_iter s)).
  pose proof (remove_key_le k (lru_iter s)). destruct (Nat.ltb_spec cap (length l)) as [Hgt|Hle].
  - rewrite (proj2 (pop_lru_spec _)), put_spec. fold l. f_equal. unfold l in *. cbn in *. lia.
  - rewrite put_spec. by rewrite take_ge.
Qed.

Lemma shard_ok_sub l l' : shard_ok l -> NoDup l'.*1 -> length l' <= length l -> (forall k, k ∈ l'.*1 -> k ∈ l.*1) -> shard_ok l'.
Proof. intros (?&?&Hh) ? ? Hsub. split_and!; [done|lia|]. intros k Hk. apply Hh. by apply Hsub. Qed.

Lemma lput_ok l k v : shard_ok l -> h k = i -> shard_ok (lput cap k v l).
Proof.
  intros (Hd&Hl&Hh) Hk. unfold lput. split_and!.
  - rewrite fmap_take. eapply sublist_NoDup; [|apply sublist_take]. by apply put_NoDup.
  - rewrite length_take. lia.
  - intros k' Hk'. rewrite fmap_take in Hk'. apply elem_of_take in Hk' as (j&Hj&_). apply list_elem_of_lookup_2 in Hj.
    rewrite fmap_cons in Hj. apply elem_of_cons in Hj as [->|Hj]; [done|]. apply Hh. by apply remove_key_ne_keys in Hj as [? _].
Qed.

Lemma touch_ok l k : shard_ok l -> shard_ok (touch k l).
Proof.
  intros Hok. pose proof Hok as (Hd&_). eapply shard_ok_sub; [done|by apply touch_NoDup|by rewrite touch_length|].
  intros k'. apply touch_keys.
Qed.

Lemma remove_ok l k : shard_ok l -> shard_ok (remove_key k l).
Proof.
  intros Hok. pose proof Hok as (Hd&_). eapply shard_ok_sub; [done|by apply remove_key_NoDup|apply remove_key_le|].
  intros k' Hk'. by apply remove_key_ne_keys in Hk' as [? _].
Qed.

Lemma foldl_pop_iter ks s :
  lru_iter (foldl (fun s k => (lru_pop k s).2) s ks) = filter (fun e => e.1 ∉ ks) (lru_iter s).
Proof.
  revert s. induction ks as [|k ks IH]; intros s; cbn [foldl].
  - symmetry. apply filter_true_in. intros e _. apply not_elem_of_nil.
  - rewrite IH, (proj2 (pop_spec k s)). unfold remove_key. rewrite list_filter_filter. apply list_filter_iff.
    intros e. rewrite not_elem_of_cons. naive_solver.
Qed.

Lemma sweep_iter (expired : V -> bool) s :
  NoDup (lru_iter s).*1 -> lru_iter (sweep expired s) = filter (fun e => expired e.2 = false) (lru_iter s).
Proof.
  intros Hd. unfold sweep. rewrite foldl_pop_iter. apply filter_ext_in. intros [k v] Hin. cbn. split.
  - intros Hk. apply not_true_iff_false. intros Hx. apply Hk. apply (list_elem_of_fmap_2 fst _ (k, v)), list_elem_of_filter.
    split; [by apply Is_true_true|done].
  - intros Hx ([k' v']&Hk&[Hx' Hin']%list_elem_of_filter)%list_elem_of_fmap. cbn in *. subst k'.
    apply assoc_elem in Hin, Hin'; [|done..]. assert (v = v') as -> by congruence. rewrite Hx in Hx'. done.
Qed.

Lemma sweep_ok (expired : V -> bool) s : shard_ok (lru_iter s) -> shard_ok (lru_iter (sweep expired s)).
Proof.
  intros Hok. pose proof Hok as (Hd&_). rewrite sweep_iter by done. eapply shard_ok_sub; [done|..].
  - by apply filter_keys_NoDup.
  - apply length_filter.
  - intros k ([k' v]&->&[_ Hin]%list_elem_of_filter)%list_elem_of_fmap. by apply (list_elem_of_fmap_2 fst) in Hin.
Qed.

End Shard.

(** ** All shards *)

Section Sharded.
Context {K V : Type} `{EqDecision K}.
Variables (cap : nat) (h : K -> nat).
Hypothesis h_lt : forall k, h k < SHARDS.
Implicit Types (ss : list (list (K * V))).

Definition shards_ok ss : Prop :=
  length ss = SHARDS /\ forall i l, ss !! i = Some l -> shard_ok cap h i l.

Definition shard ss (k : K) : list (K * V) := default [] (ss !! h k).
Definition find ss (k : K) : option V := assoc k (shard ss k).

Lemma shard_lookup ss k : length ss = SHARDS -> ss !! h k = Some (shard ss k).
Proof.
  intros Hl. unfold shard. destruct (ss !! h k) eqn:He; [done|]. apply lookup_ge_None in He. pose proof (h_lt k). lia.
Qed.

Lemma shards_ok_shard ss k : shards_ok ss -> shard_ok cap h (h k) (shard ss k).
Proof. intros [Hl Hs]. apply Hs. by apply shard_lookup. Qed.

Lemma find_NoDup ss k : shards_ok ss -> NoDup (shard ss k).*1.
Proof. intros Hok. apply (shards_ok_shard ss k Hok). Qed.

Lemma alter_ok f k ss :
  shards_ok ss -> shard_ok cap h (h k) (f (shard ss k)) -> shards_ok (alter f (h k) ss).
Proof.
  intros Hok Hf. pose proof Hok as [Hl Hs]. split; [by rewrite length_alter|]. intros i l Hi. destruct (decide (i = h k)) as [->|Hne].
  - rewrite list_lookup_alter_eq, (shard_lookup ss k Hl) in Hi. injection Hi as <-. done.
  - rewrite list_lookup_alter_ne in Hi by done. by apply Hs.
Qed.

Lemma shard_alter f k k' ss :
  length ss = SHARDS -> shard (alter f (h k) ss) k' = if decide (h k' = h k) then f (shard ss k') else shard ss k'.
Proof.
  intros Hl. unfold shard at 1. destruct (decide (h k' = h k)) as [He|Hne].
  - rewrite <- He, list_lookup_alter_eq. by rewrite (shard_lookup ss k' Hl).
  - by rewrite list_lookup_alter_ne by done.
Qed.

Lemma fmap_ok f ss : shards_ok ss -> (forall i l, shard_ok cap h i l -> shard_ok cap h i (f l)) -> shards_ok (f <$> ss).
Proof.
  intros [Hl Hs] Hf. split; [by rewrite length_fmap|]. intros i l Hi. rewrite list_lookup_fmap in Hi.
  apply fmap_Some in Hi as (l0&Hi&->). apply Hf. by apply Hs.
Qed.

Lemma shard_fmap f k ss : length ss = SHARDS -> shard (f <$> ss) k = f (shard ss k).
Proof. intros Hl. unfold shard at 1. by rewrite list_lookup_fmap, (shard_lookup ss k Hl). Qed.

(** *** What is found *)

Lemma find_touch k k' ss : shards_ok ss -> find (alter (touch k) (h k) ss) k' = find ss k'.
Proof. intros [Hl _]. unfold find. rewrite shard_alter by done. destruct (decide _); [apply assoc_touch|done]. Qed.

Lemma find_remove k k' ss : shards_ok ss -> find (alter (remove_key k) (h k) ss) k' = if decide (k' = k) then None else find ss k'.
Proof.
  intros [Hl _]. unfold find. rewrite shard_alter by done. destruct (decide (h k' = h k)) as [|Hne].
  - apply assoc_remove_key.
  - destruct (decide (k' = k)); [congruence|done].
Qed.

Lemma find_put_same k v ss : 1 <= cap -> shards_ok ss -> find (alter (lput cap k v) (h k) ss) k = Some v.
Proof. intros Hc [Hl _]. unfold find. rewrite shard_alter, decide_True by done. by apply assoc_lput_same. Qed.

Lemma find_put_other k v k' v' ss :
  shards_ok ss -> k' <> k -> find (alter (lput cap k v) (h k) ss) k' = Some v' -> find ss k' = Some v'.
Proof.
  intros Hok Hne. pose proof Hok as [Hl _]. unfold find. rewrite shard_alter by done. destruct (decide _); [|done].
  apply assoc_lput_other; [by apply find_NoDup|done].
Qed.

Lemma find_sweep (P : V -> Prop) `{!forall v, Decision (P v)} k ss :
  shards_ok ss -> find (filter (fun e => P e.2) <$> ss) k = (v ← find ss k; if decide (P v) then Some v else None).
Proof. intros Hok. pose proof Hok as [Hl _]. unfold find. rewrite shard_fmap by done. apply assoc_filter. by apply find_NoDup. Qed.

(** *** How far down an entry is *)

Definition near_in ss (k : K) (v : V) (n : nat) : Prop := near (shard ss k) k v n.

Lemma near_in_find ss k v n : shards_ok ss -> near_in ss k v n -> find ss k = Some v.
Proof. intros Hok Hn. apply assoc_elem; [by apply find_NoDup|]. by eapply near_elem. Qed.

Definition same_shard (k k' : K) : nat := if decide (h k = h k') then 1 else 0.

Lemma near_in_touch k k' v n ss : shards_ok ss -> near_in ss k v n -> near_in (alter (touch k') (h k') ss) k v (n + same_shard k' k).
Proof.
  intros Hok Hn. pose proof Hok as [Hl _]. unfold near_in, same_shard. rewrite shard_alter by done.
  destruct (decide (h k = h k')) as [He|Hne]; [rewrite decide_True by done|rewrite decide_False by done; by rewrite Nat.add_0_r].
  eapply near_mono; [apply near_touch; [by apply find_NoDup|done]|]. destruct (decide _); lia.
Qed.

Lemma near_in_put k k' v v' n ss :
  shards_ok ss -> near_in ss k v n -> k' <> k -> n + same_shard k' k < cap ->
  near_in (alter (lput cap k' v') (h k') ss) k v (n + same_shard k' k).
Proof.
  intros Hok Hn Hne Hc. pose proof Hok as [Hl _]. unfold near_in, same_shard in *. rewrite shard_alter by done.
  destruct (decide (h k = h k')) as [He|Hne']; [rewrite decide_True in * by done|rewrite decide_False by done; by rewrite Nat.add_0_r].
  rewrite Nat.add_1_r in *. by apply near_lput.
Qed.

Lemma near_in_put_same k v ss : 1 <= cap -> shards_ok ss -> near_in (alter (lput cap k v) (h k) ss) k v 0.
Proof. intros Hc [Hl _]. unfold near_in. rewrite shard_alter, decide_True by done. by apply near_lput_same. Qed.

Lemma near_in_remove k k' v n ss : shards_ok ss -> near_in ss k v n -> k' <> k -> near_in (alter (remove_key k') (h k') ss) k v n.
Proof.
  intros [Hl _] Hn Hne. unfold near_in. rewrite shard_alter by done. destruct (decide _); [|done]. by apply near_remove.
Qed.

Lemma near_in_sweep (P : V -> Prop) `{!forall v, Decision (P v)} k v n ss :
  shards_ok ss -> near_in ss k v n -> P v -> near_in (filter (fun e => P e.2) <$> ss) k v n.
Proof. intros [Hl _] Hn HP. unfold near_in. rewrite shard_fmap by done. by apply near_filter. Qed.

End Sharded.
End DnsCacheShards.

(** ** Histories of the DNS cache (crates/meow-dns/src/cache.rs)

    Every call as what it does to the lists of entries of the shards, and the
    invariant over any history: keys are in their shards and no shard grows
    past its cap. *)

Module DnsCacheRun.
Import DnsCache DnsCacheShards.

Lemma mask_lt z : Z.to_nat (Z.land z 15) < SHARDS.
Proof.
  change 15%Z with (Z.ones 4). rewrite Z.land_ones by lia. pose proof (Z.mod_pos_bound z (2 ^ 4) ltac:(lia)). unfold SHARDS. lia.
Qed.

Lemma shard_str_lt d : shard_str d < SHARDS.
Proof. apply mask_lt. Qed.

Lemma shard_ip_lt ip : shard_ip ip < SHARDS.
Proof. apply mask_lt. Qed.

(** ** Calls *)

Inductive Call :=
  | Get (now : Z) (d : bytes)
  | Put (now : Z) (d : bytes) (ips : list IpAddr) (ttl : Z) (source : option bytes)
  | Merge (now : Z) (d : bytes) (family : Z) (ips : list IpAddr) (ttl : Z) (source : option bytes) (neg : FamilyNeg)
  | Reverse (now : Z) (ip : IpAddr)
  | Clear
  | Snapshot (now : Z)
  | ReverseSnapshot (now : Z)
  | Restore (now : Z) (entries : list ReverseSnapshotEntry).

Section Run.
Context `{LL : LruLib}.
Implicit Types (c : DnsCache).

Definition call_step c (call : Call) : DnsCache :=
  match call with
  | Get now d => (get_lookup c now d).2
  | Put now d ips ttl source => put_with_source c now d ips ttl source
  | Merge now d family ips ttl source neg => merge_family c now d family ips ttl source neg
  | Reverse now ip => (reverse_lookup c now ip).2
  | Clear => clear c
  | Snapshot now => (snapshot c now).2
  | ReverseSnapshot now => (reverse_snapshot c now).2
  | Restore now entries => restore_reverse c now entries
  end.

Definition run c (calls : list Call) : DnsCache := foldl call_step c calls.

(** The entries of the shards, most recently used first. *)
Definition fl c : list (list (bytes * CacheEntry)) := lru_iter <$> cache c.
Definition rl c : list (list (IpAddr * ReverseEntry)) := lru_iter <$> reverse c.

Definition fwd c (d : bytes) : option CacheEntry := find shard_str (fl c) d.
Definition rev_of c (ip : IpAddr) : option ReverseEntry := find shard_ip (rl c) ip.

Record cache_ok c : Prop := mkCacheOk {
  ok_fwd : shards_ok (fwd_shard_cap c) shard_str (fl c);
  ok_rev : shards_ok (rev_shard_cap c) shard_ip (rl c);
  ok_fcap : 1 <= fwd_shard_cap c;
  ok_rcap : 1 <= rev_shard_cap c;
}.

Lemma new_ok capacity : cache_ok (new capacity).
Proof.
  split.
  1-2: split; [done|]; intros i l; unfold fl, rl; cbn [cache reverse new]; rewrite list_lookup_fmap, fmap_Some;
    intros (s&Hs&->); apply lookup_replicate in Hs as [-> _]; rewrite iter_unbounded; (split_and!; [constructor|cbn; lia|]);
    intros k Hk; by apply not_elem_of_nil in Hk.
  1-2: cbn; unfold per_shard_cap; lia.
Qed.

(** ** Steps on the lists *)

Lemma alter_insert {A} (f : A -> A) (l : list A) i x : l !! i = Some x -> alter f i l = <[i := f x]> l.
Proof.
  intros Hi. apply list_eq. intros j. destruct (decide (j = i)) as [->|Hne].
  - rewrite list_lookup_alter_eq, list_lookup_insert_eq, Hi; [done|]. by eapply lookup_lt_Some.
  - by rewrite list_lookup_alter_ne, list_lookup_insert_ne.
Qed.

Lemma alter_twice {A} (f g h : A -> A) (l : list A) i : (forall x, f (g x) = h x) -> alter f i (alter g i l) = alter h i l.
Proof.
  intros Hfg. apply list_eq. intros j. destruct (decide (j = i)) as [->|Hne].
  - rewrite !list_lookup_alter_eq. destruct (l !! i); [|done]. cbn. by rewrite Hfg.
  - by rewrite !list_lookup_alter_ne.
Qed.

Lemma shard_at_iter {K V} (h : K -> nat) (l : list (LruCache K V)) k :
  lru_iter (shard_at l (h k)) = shard h (lru_iter <$> l) k.
Proof. unfold shard_at, shard. rewrite list_lookup_fmap. destruct (l !! h k); [done|]. apply iter_unbounded. Qed.

(** Writing back a changed shard. *)
Lemma insert_shard {K V} (h : K -> nat) (f : list (K * V) -> list (K * V)) (l : list (LruCache K V)) k s :
  (forall k, h k < SHARDS) -> length l = SHARDS -> lru_iter s = f (shard h (lru_iter <$> l) k) ->
  lru_iter <$> <[h k := s]> l = alter f (h k) (lru_iter <$> l).
Proof.
  intros Hh Hl Hs. rewrite list_fmap_insert, Hs. symmetry. apply alter_insert. apply shard_lookup; [done|]. by rewrite length_fmap.
Qed.

Lemma fl_length c : cache_ok c -> length (cache c) = SHARDS.
Proof. intros Hok. destruct (ok_fwd _ Hok) as [Hl _]. unfold fl in Hl. by rewrite length_fmap in Hl. Qed.

Lemma rl_length c : cache_ok c -> length (reverse c) = SHARDS.
Proof. intros Hok. destruct (ok_rev _ Hok) as [Hl _]. unfold rl in Hl. by rewrite length_fmap in Hl. Qed.

Lemma fl_set c k s f :
  cache_ok c -> lru_iter s = f (shard shard_str (fl c) k) -> fl (set_cache c (shard_str k) s) = alter f (shard_str k) (fl c).
Proof. intros Hok Hs. apply insert_shard; [apply shard_str_lt|by apply fl_length|done]. Qed.

Lemma rl_set c k s f :
  cache_ok c -> lru_iter s = f (shard shard_ip (rl c) k) -> rl (set_reverse c (shard_ip k) s) = alter f (shard_ip k) (rl c).
Proof. intros Hok Hs. apply insert_shard; [apply shard_ip_lt|by apply rl_length|done]. Qed.

(** A forward shard is replaced by one that is in order. *)
Lemma set_cache_ok c k s :
  cache_ok c -> shard_ok (fwd_shard_cap c) shard_str (shard_str k) (lru_iter s) -> cache_ok (set_cache c (shard_str k) s).
Proof.
  intros Hok Hs. split; [|apply Hok..]. rewrite (fl_set c k s (fun _ => lru_iter s)) by done. cbn.
  apply alter_ok; [apply shard_str_lt|apply Hok|done].
Qed.

Lemma set_reverse_ok c k s :
  cache_ok c -> shard_ok (rev_shard_cap c) shard_ip (shard_ip k) (lru_iter s) -> cache_ok (set_reverse c (shard_ip k) s).
Proof.
  intros Hok Hs. split; [apply Hok| |apply Hok..]. rewrite (rl_set c k s (fun _ => lru_iter s)) by done. cbn.
  apply alter_ok; [apply shard_ip_lt|apply Hok|done].
Qed.

Lemma fwd_shard_ok c k : cache_ok c -> shard_ok (fwd_shard_cap c) shard_str (shard_str k) (shard shard_str (fl c) k).
Proof. intros Hok. apply shards_ok_shard; [apply shard_str_lt|apply Hok]. Qed.

Lemma rev_shard_ok c k : cache_ok c -> shard_ok (rev_shard_cap c) shard_ip (shard_ip k) (shard shard_ip (rl c) k).
Proof. intros Hok. apply shards_ok_shard; [apply shard_ip_lt|apply Hok]. Qed.

(** *** Reading *)

Lemma get_lookup_steps c now d :
  cache_ok c ->
  let k := normalize_domain d in let c' := (get_lookup c now d).2 in
  cache_ok c' /\ rl c' = rl c /\
  match fwd c k with
  | Some e =>
      if dead now e then (get_lookup c now d).1 = None /\ fl c' = alter (remove_key k) (shard_str k) (fl c)
      else (get_lookup c now d).1 = Some (lookup_of e now) /\ fl c' = alter (touch k) (shard_str k) (fl c)
  | None => (get_lookup c now d).1 = None /\ fl c' = alter (touch k) (shard_str k) (fl c)
  end.
Proof.
  intros Hok k. unfold get_lookup. fold k. pose proof (get_spec k (shard_at (cache c) (shard_str k))) as [Hg1 Hg2].
  pose proof (fwd_shard_ok c k Hok) as Hs. rewrite shard_at_iter in Hg1, Hg2. fold (fl c) in Hg1, Hg2.
  unfold fwd, find. rewrite <- Hg1. destruct (lru_get k _) as [r s]. cbn [fst snd] in *.
  assert (Htouch : cache_ok (set_cache c (shard_str k) s)) by (apply set_cache_ok; [done|]; rewrite Hg2; by apply touch_ok).
  destruct r as [e|]; [|split_and!; [done..|by apply fl_set]]. unfold dead.
  destruct (fresh e IPV4 now || fresh e IPV6 now) eqn:Hf.
  - replace (negb (fresh e IPV4 now) && negb (fresh e IPV6 now)) with false by (destruct (fresh e IPV4 now); by destruct (fresh e IPV6 now)).
    split_and!; [done..|by apply fl_set].
  - apply orb_false_iff in Hf as [-> ->]. cbn [negb andb]. pose proof (proj2 (pop_spec k s)) as Hp. rewrite Hg2, remove_key_touch in Hp.
    split_and!; [|done|done|by apply fl_set]. apply set_cache_ok; [done|]. cbn. rewrite Hp. by apply remove_ok.
Qed.

Lemma reverse_lookup_steps c now ip :
  cache_ok c ->
  let c' := (reverse_lookup c now ip).2 in
  cache_ok c' /\ fl c' = fl c /\
  match rev_of c ip with
  | Some e =>
      if (now <? expire_at e)%Z then (reverse_lookup c now ip).1 = Some (domain e) /\ rl c' = alter (touch ip) (shard_ip ip) (rl c)
      else (reverse_lookup c now ip).1 = None /\ rl c' = alter (remove_key ip) (shard_ip ip) (rl c)
  | None => (reverse_lookup c now ip).1 = None /\ rl c' = alter (touch ip) (shard_ip ip) (rl c)
  end.
Proof.
  intros Hok. unfold reverse_lookup. pose proof (get_spec ip (shard_at (reverse c) (shard_ip ip))) as [Hg1 Hg2].
  pose proof (rev_shard_ok c ip Hok) as Hs. rewrite shard_at_iter in Hg1, Hg2. fold (rl c) in Hg1, Hg2.
  unfold rev_of, find. rewrite <- Hg1. destruct (lru_get ip _) as [r s]. cbn [fst snd] in *.
  assert (Htouch : cache_ok (set_reverse c (shard_ip ip) s)) by (apply set_reverse_ok; [done|]; rewrite Hg2; by apply touch_ok).
  destruct r as [e|]; [|split_and!; [done..|by apply rl_set]].
  destruct (now <? expire_at e)%Z.
  - split_and!; [done..|by apply rl_set].
  - pose proof (proj2 (pop_spec ip s)) as Hp. rewrite Hg2, remove_key_touch in Hp.
    split_and!; [|done|done|by apply rl_set]. apply set_reverse_ok; [done|]. cbn. rewrite Hp. by apply remove_ok.
Qed.

(** *** Writing *)

Definition same_caps c c' : Prop := fwd_shard_cap c' = fwd_shard_cap c /\ rev_shard_cap c' = rev_shard_cap c.

Lemma put_reverse_steps c d expire ip :
  cache_ok c ->
  let c' := put_reverse c d expire ip in
  cache_ok c' /\ fl c' = fl c /\ same_caps c c' /\
  rl c' = alter (lput (rev_shard_cap c) ip (mkReverse d expire)) (shard_ip ip) (rl c).
Proof.
  intros Hok. unfold put_reverse. pose proof (rev_shard_ok c ip Hok) as Hs.
  assert (Hi : lru_iter (shard_put (rev_shard_cap c) ip (mkReverse d expire) (shard_at (reverse c) (shard_ip ip))) =
    lput (rev_shard_cap c) ip (mkReverse d expire) (shard shard_ip (rl c) ip)).
  { rewrite (shard_put_iter _ shard_ip (shard_ip ip)); [by rewrite shard_at_iter|apply Hok|by rewrite shard_at_iter]. }
  split_and!; [|done|done|by apply rl_set]. apply set_reverse_ok; [done|]. rewrite Hi. by apply lput_ok.
Qed.

Lemma put_forward_steps c k e :
  cache_ok c ->
  let c' := put_forward c k e in
  cache_ok c' /\ rl c' = rl c /\ same_caps c c' /\ fl c' = alter (lput (fwd_shard_cap c) k e) (shard_str k) (fl c).
Proof.
  intros Hok. unfold put_forward. pose proof (fwd_shard_ok c k Hok) as Hs.
  assert (Hi : lru_iter (shard_put (fwd_shard_cap c) k e (shard_at (cache c) (shard_str k))) =
    lput (fwd_shard_cap c) k e (shard shard_str (fl c) k)).
  { rewrite (shard_put_iter _ shard_str (shard_str k)); [by rewrite shard_at_iter|apply Hok|by rewrite shard_at_iter]. }
  split_and!; [|done|done|by apply fl_set]. apply set_cache_ok; [done|]. rewrite Hi. by apply lput_ok.
Qed.

(** Several addresses, in order. *)
Definition rput_all (cap : nat) (l : list (IpAddr * ReverseEntry)) (ss : list (list (IpAddr * ReverseEntry))) :
    list (list (IpAddr * ReverseEntry)) :=
  foldl (fun ss e => alter (lput cap e.1 e.2) (shard_ip e.1) ss) ss l.

Lemma foldl_put_reverse c d expire l :
  cache_ok c ->
  let c' := foldl (fun c ip => put_reverse c d expire ip) c l in
  cache_ok c' /\ fl c' = fl c /\ same_caps c c' /\
  rl c' = rput_all (rev_shard_cap c) ((fun ip => (ip, mkReverse d expire)) <$> l) (rl c).
Proof.
  revert c. induction l as [|ip l IH]; intros c Hok; [done|]. cbn.
  destruct (put_reverse_steps c d expire ip Hok) as (Hok1&Hf1&[Hc1 Hc2]&Hr1).
  destruct (IH _ Hok1) as (Hok2&Hf2&[Hc3 Hc4]&Hr2).
  split_and!; [done|by rewrite Hf2|split; [by rewrite Hc3|by rewrite Hc4]|]. by rewrite Hr2, Hr1, Hc2.
Qed.

Lemma restore_steps c now entries :
  cache_ok c ->
  let c' := restore_reverse c now entries in
  cache_ok c' /\ fl c' = fl c /\ same_caps c c' /\
  rl c' = rput_all (rev_shard_cap c)
    ((fun e => (r_ip e, mkReverse (r_domain e) (now + r_remaining e)%Z)) <$> filter (fun e => r_remaining e <> 0%Z) entries) (rl c).
Proof.
  unfold restore_reverse. revert c. induction entries as [|e es IH]; intros c Hok; [done|]. cbn [foldl].
  change (restore_entry now c e) with (if (r_remaining e =? 0)%Z then c else put_reverse c (r_domain e) (now + r_remaining e)%Z (r_ip e)).
  rewrite filter_cons. destruct (Z.eqb_spec (r_remaining e) 0) as [H0|H0].
  - rewrite decide_False by auto. by apply IH.
  - rewrite decide_True by done. destruct (put_reverse_steps c (r_domain e) (now + r_remaining e)%Z (r_ip e) Hok) as (Hok1&Hf1&[Hc1 Hc2]&Hr1).
    destruct (IH _ Hok1) as (Hok2&Hf2&[Hc3 Hc4]&Hr2). rewrite Hc1 in Hc3. rewrite Hc2 in Hc4.
    split_and!; [done|by rewrite Hf2|done|]. by rewrite Hr2, Hr1, Hc2.
Qed.

(** The entry that [put_with_source] writes. *)
Definition put_entry (now : Z) (ips : list IpAddr) (ttl : Z) (source : option bytes) : CacheEntry :=
  let '(queried, neg) :=
    match ips with
    | [] => (BOTH, neg_with (neg_with neg_empty IPV4 KIND_NXDOMAIN) IPV6 KIND_NXDOMAIN)
    | _ => (from_ips ips, neg_empty)
    end in
  mkEntry ips (now + ttl)%Z (now + ttl)%Z source queried neg.

(** The names a call gives to addresses, in order. *)
Definition rnames (now : Z) (d : bytes) (ips : list IpAddr) (ttl : Z) : list (IpAddr * ReverseEntry) :=
  (fun ip => (ip, mkReverse (normalize_domain d) (now + Z.max ttl REVERSE_TTL_FLOOR)%Z)) <$> ips.

Lemma put_steps c now d ips ttl source :
  cache_ok c ->
  let k := normalize_domain d in let c' := put_with_source c now d ips ttl source in
  cache_ok c' /\ same_caps c c' /\ fl c' = alter (lput (fwd_shard_cap c) k (put_entry now ips ttl source)) (shard_str k) (fl c) /\
  rl c' = rput_all (rev_shard_cap c) (rnames now d ips ttl) (rl c).
Proof.
  intros Hok k. unfold put_with_source, put_entry. destruct (match ips with [] => _ | _ => _ end) as [q n]. unfold put_replacing.
  destruct (foldl_put_reverse c k (now + Z.max ttl REVERSE_TTL_FLOOR)%Z ips Hok) as (Hok1&Hf1&[Hc1 Hc2]&Hr1).
  fold k. set (c1 := foldl _ _ _) in *. edestruct (put_forward_steps c1 k) as (Hok2&Hr2&[Hc3 Hc4]&Hf2); [done|].
  split_and!; [exact Hok2|split; congruence|by rewrite Hf2, Hf1, Hc1|by rewrite Hr2, Hr1].
Qed.

Definition single (family : Z) : Prop := family = IPV4 \/ family = IPV6.

Lemma merge_steps c now d family ips ttl source neg :
  cache_ok c -> single family ->
  let k := normalize_domain d in let c' := merge_family c now d family ips ttl source neg in
  cache_ok c' /\ same_caps c c' /\
  fl c' = alter (lput (fwd_shard_cap c) k (merge_entry (fwd c k) now family ips ttl source neg)) (shard_str k) (fl c) /\
  rl c' = rput_all (rev_shard_cap c) (rnames now d ips ttl) (rl c).
Proof.
  intros Hok Hsing k. unfold merge_family. replace (negb (family =? IPV4)%Z && negb (family =? IPV6)%Z) with false by (by destruct Hsing as [-> | ->]).
  destruct (foldl_put_reverse c k (now + Z.max ttl REVERSE_TTL_FLOOR)%Z ips Hok) as (Hok1&Hf1&[Hc1 Hc2]&Hr1).
  fold k. set (c1 := foldl _ _ _) in *. pose proof (get_spec k (shard_at (cache c1) (shard_str k))) as [Hg1 Hg2].
  rewrite shard_at_iter in Hg1, Hg2. fold (fl c1) in Hg1, Hg2. pose proof (fwd_shard_ok c1 k Hok1) as Hs.
  destruct (lru_get k _) as [r s]. cbn [fst snd] in *. rewrite Hf1 in Hg1. fold (find shard_str (fl c) k) in Hg1. fold (fwd c k) in Hg1. subst r.
  set (e := merge_entry _ _ _ _ _ _ _). assert (Hok2 : cache_ok (set_cache c1 (shard_str k) s)) by (apply set_cache_ok; [done|]; rewrite Hg2; by apply touch_ok).
  destruct (put_forward_steps _ k e Hok2) as (Hok3&Hr3&[Hc3 Hc4]&Hf3). split_and!; [exact Hok3| | |rewrite Hr3; exact Hr1].
  - split; [rewrite Hc3|rewrite Hc4]; done.
  - rewrite Hf3, (fl_set c1 k s (touch k)) by done. cbn [fwd_shard_cap set_cache]. rewrite Hf1, Hc1. apply alter_twice.
    intros l. unfold lput. by rewrite remove_key_touch.
Qed.

Lemma merge_refused c now d family ips ttl source neg : ~ single family -> merge_family c now d family ips ttl source neg = c.
Proof.
  intros Hn. unfold merge_family. destruct (Z.eqb_spec family IPV4); [by destruct Hn; left|].
  destruct (Z.eqb_spec family IPV6); [by destruct Hn; right|]. done.
Qed.

#[export] Instance single_dec family : Decision (single family).
Proof. unfold single. apply _. Defined.

(** *** Clearing and sweeping *)

Lemma nil_shard_ok {K V} cap (h : K -> nat) i : shard_ok cap h i ([] : list (K * V)).
Proof. split_and!; [constructor|cbn; lia|]. intros k Hk. by apply not_elem_of_nil in Hk. Qed.

Lemma clear_steps c :
  cache_ok c -> cache_ok (clear c) /\ fl (clear c) = (fun _ => []) <$> fl c /\ rl (clear c) = (fun _ => []) <$> rl c.
Proof.
  intros Hok. assert (Hf : fl (clear c) = (fun _ => []) <$> fl c).
  { unfold fl. cbn. rewrite <- !list_fmap_compose. apply list_fmap_ext. intros i s _. apply clear_spec. }
  assert (Hr : rl (clear c) = (fun _ => []) <$> rl c).
  { unfold rl. cbn. rewrite <- !list_fmap_compose. apply list_fmap_ext. intros i s _. apply clear_spec. }
  split_and!; [|done..]. split; [rewrite Hf|rewrite Hr|apply Hok..].
  all: apply fmap_ok; [apply Hok|]; intros i l _; apply nil_shard_ok.
Qed.

Lemma sweep_fmap {K V} `{EqDecision K} cap (h : K -> nat) (expired : V -> bool) (l : list (LruCache K V)) :
  shards_ok cap h (lru_iter <$> l) ->
  lru_iter <$> (sweep expired <$> l) = filter (fun e => expired e.2 = false) <$> (lru_iter <$> l) /\
  shards_ok cap h (lru_iter <$> (sweep expired <$> l)).
Proof.
  intros Hok. assert (Heq : lru_iter <$> (sweep expired <$> l) = filter (fun e => expired e.2 = false) <$> (lru_iter <$> l)).
  { rewrite <- !list_fmap_compose. apply list_fmap_ext. intros i s Hs. cbn. apply (sweep_iter h).
    assert (Hi : (lru_iter <$> l) !! i = Some (lru_iter s)) by by rewrite list_lookup_fmap, Hs. by apply Hok in Hi as [? _]. }
  split; [done|]. rewrite Heq. apply fmap_ok; [done|]. intros i l' Hl'. pose proof Hl' as (Hd&_). eapply shard_ok_sub; [done|..].
  - by apply filter_keys_NoDup.
  - apply length_filter.
  - intros k ([k' v]&->&[_ Hin]%list_elem_of_filter)%list_elem_of_fmap. by apply (list_elem_of_fmap_2 fst) in Hin.
Qed.

Lemma snapshot_steps c now :
  cache_ok c ->
  let c' := (snapshot c now).2 in
  cache_ok c' /\ rl c' = rl c /\ fl c' = filter (fun e => dead now e.2 = false) <$> fl c.
Proof. intros Hok. destruct (sweep_fmap _ _ (dead now) _ (ok_fwd _ Hok)) as [Heq Hs]. split_and!; [|done..]. by split; try apply Hok. Qed.

Lemma reverse_snapshot_steps c now :
  cache_ok c ->
  let c' := (reverse_snapshot c now).2 in
  cache_ok c' /\ fl c' = fl c /\ rl c' = filter (fun e => (expire_at e.2 <=? now)%Z = false) <$> rl c.
Proof.
  intros Hok. destruct (sweep_fmap _ _ (fun e => expire_at e <=? now)%Z _ (ok_rev _ Hok)) as [Heq Hs].
  split_and!; [|done..]. by split; try apply Hok.
Qed.

(** ** Any call *)

Lemma call_ok c call : cache_ok c -> cache_ok (call_step c call) /\ same_caps c (call_step c call).
Proof.
  intros Hok. destruct call as [now d|now d ips ttl source|now d family ips ttl source neg|now ip| |now|now|now es]; cbn [call_step].
  - destruct (get_lookup_steps c now d Hok) as (?&?&?). split; [done|]. unfold get_lookup. destruct (lru_get _ _) as [[e|] ?]; [|done].
    by destruct (fresh e IPV4 now || fresh e IPV6 now).
  - destruct (put_steps c now d ips ttl source Hok) as (?&?&_). done.
  - destruct (decide (single family)) as [Hs|Hs]; [|by rewrite merge_refused].
    destruct (merge_steps c now d family ips ttl source neg Hok Hs) as (?&?&_). done.
  - destruct (reverse_lookup_steps c now ip Hok) as (?&?&?). split; [done|]. unfold reverse_lookup. destruct (lru_get _ _) as [[e|] ?]; [|done].
    by destruct (now <? expire_at e)%Z.
  - split; [by apply clear_steps|done].
  - split; [by apply snapshot_steps|done].
  - split; [by apply reverse_snapshot_steps|done].
  - destruct (restore_steps c now es Hok) as (?&_&?&_). done.
Qed.

Lemma cache_run_ok c calls : cache_ok c -> cache_ok (run c calls) /\ same_caps c (run c calls).
Proof.
  revert c. induction calls as [|call calls IH]; intros c Hok; [done|]. cbn. destruct (call_ok c call Hok) as [Hok1 [Hc1 Hc2]].
  destruct (IH _ Hok1) as [Hok2 [Hc3 Hc4]]. split; [done|]. split; etransitivity; [exact Hc3|done|exact Hc4|done].
Qed.

Lemma sum_shards {K V} cap (h : K -> nat) (l : list (LruCache K V)) :
  shards_ok cap h (lru_iter <$> l) -> sum_list (lru_len <$> l) <= SHARDS * cap.
Proof.
  intros [Hl Hs]. rewrite length_fmap in Hl. rewrite <- Hl.
  assert (Hall : Forall (fun s => lru_len s <= cap) l).
  { apply Forall_lookup. intros i s Hi. rewrite len_spec. apply (Hs i). by rewrite list_lookup_fmap, Hi. }
  clear Hl Hs. induction Hall as [|s l Hs _ IH]; [done|]. cbn. lia.
Qed.

End Run.

(** C36: however it is used, the cache of a given capacity never holds more
    names than the capacity, or 128 if that is more, nor more addresses than
    four times the capacity, or 256. *)
Theorem dns_cache_bounded `{LL : LruLib} (capacity : Z) (calls : list Call) :
  (0 <= capacity < 2 ^ 64)%Z ->
  let c := run (new capacity) calls in
  (Z.of_nat (forward_len c) <= Z.max capacity 128)%Z /\ (Z.of_nat (reverse_len c) <= Z.max (4 * capacity) 256)%Z.
Proof.
  intros Hc c. destruct (cache_run_ok (new capacity) calls (new_ok capacity)) as [Hok [H1 H2]]. fold c in Hok, H1, H2.
  pose proof (sum_shards _ _ _ (ok_fwd _ Hok)) as Hf. pose proof (sum_shards _ _ _ (ok_rev _ Hok)) as Hr.
  fold (forward_len c) in Hf. fold (reverse_len c) in Hr. rewrite H1 in Hf. rewrite H2 in Hr. cbn [fwd_shard_cap rev_shard_cap new] in Hf, Hr.
  unfold per_shard_cap, SHARDS, REVERSE_CAP_MULTIPLIER in *.
  pose proof (Z.mul_div_le (Z.max capacity 16) 16 ltac:(lia)).
  pose proof (Z.mul_div_le (Z.max (Z.min (capacity * 4) (2 ^ 64 - 1)) 16) 16 ltac:(lia)). lia.
Qed.

(** *** Witness *)

Lemma dns_cache_bounded_witness :
  forward_len (run (new 4096) [Put 0 (b! "a.com") [V4 1; V4 2] SECOND None]) = 1 /\
  (Z.of_nat (reverse_len (run (new 4096) [Put 0 (b! "a.com") [V4 1; V4 2] SECOND None])) <= 16384)%Z.
Proof.
  split; [vm_compute; reflexivity|]. apply (dns_cache_bounded 4096 [Put 0 (b! "a.com") [V4 1; V4 2] SECOND None]). lia.
Defined.

End DnsCacheRun.

(** ** Entries of the DNS cache by family (crates/meow-dns/src/cache.rs)

    An entry as one record for each address family: the addresses without
    repetitions, whether the name does not exist, and the expiry. A merge
    replaces the record of its family, unless a NODATA answer meets a fresh
    better one, and leaves a fresh record of the other family alone. *)

Module DnsCacheEntries.
Import DnsCache DnsCacheShards DnsCacheRun.

(** ** Repetitions *)

Lemma dedup_filter (P : IpAddr -> Prop) `{!forall x, Decision (P x)} kept rest :
  filter P (dedup kept rest) = dedup (filter P kept) (filter P rest).
Proof.
  revert kept. induction rest as [|ip rest IH]; intros kept; [done|]. cbn [dedup]. rewrite (filter_cons P ip).
  destruct (bool_decide_reflect (ip ∈ kept)) as [Hin|Hin]; rewrite IH.
  - destruct (decide (P ip)) as [HP|]; [|done]. cbn [dedup]. by rewrite bool_decide_eq_true_2 by (by apply list_elem_of_filter).
  - rewrite filter_app, filter_cons. cbn [filter list_filter]. destruct (decide (P ip)) as [HP|].
    + cbn [dedup]. rewrite bool_decide_eq_false_2; [done|]. rewrite list_elem_of_filter. naive_solver.
    + by rewrite app_nil_r.
Qed.

Lemma elem_of_dedup ip kept rest : ip ∈ dedup kept rest <-> ip ∈ kept \/ ip ∈ rest.
Proof.
  revert kept. induction rest as [|ip' rest IH]; intros kept; cbn [dedup].
  - rewrite elem_of_nil. tauto.
  - rewrite elem_of_cons. destruct (bool_decide_reflect (ip' ∈ kept)); rewrite IH; [naive_solver|].
    rewrite elem_of_app, list_elem_of_singleton. tauto.
Qed.

Lemma dedup_NoDup kept rest : NoDup kept -> NoDup (dedup kept rest).
Proof.
  revert kept. induction rest as [|ip rest IH]; intros kept Hd; [done|]. cbn [dedup].
  destruct (bool_decide_reflect (ip ∈ kept)) as [|Hn]; apply IH; [done|]. apply NoDup_app. split_and!; [done| |apply NoDup_singleton].
  intros x Hx Hin%list_elem_of_singleton. congruence.
Qed.

Lemma dedup_id kept rest : NoDup (kept ++ rest) -> dedup kept rest = kept ++ rest.
Proof.
  revert kept. induction rest as [|ip rest IH]; intros kept Hd; cbn [dedup]; [by rewrite app_nil_r|].
  rewrite bool_decide_eq_false_2.
  - rewrite (IH (kept ++ [ip])); rewrite <- app_assoc; done.
  - intros Hin. apply NoDup_app in Hd as (_&Hd&_). apply (Hd ip Hin). by left.
Qed.

Lemma dedup_idem l : dedup [] (dedup [] l) = dedup [] l.
Proof. apply (dedup_id []). apply dedup_NoDup. constructor. Qed.

Lemma dedup_nil l : dedup [] l = [] <-> l = [].
Proof.
  split; [|by intros ->]. intros Hd. destruct l as [|ip l]; [done|]. exfalso. apply (not_elem_of_nil ip). rewrite <- Hd.
  apply elem_of_dedup. right. by left.
Qed.

(** ** Families *)

Lemma single_other f : single f -> single (other f).
Proof. unfold single. by intros [-> | ->]; [right|left]. Qed.

Lemma contains_ip_single f ip : single f -> contains_ip f ip = true <-> ip_family ip = f.
Proof. unfold contains_ip, ip_family. intros [-> | ->]; by destruct (is_v6 ip). Qed.

Lemma contains_ip_other f ip : single f -> contains_ip (other f) ip = negb (contains_ip f ip).
Proof. unfold contains_ip, ip_family. intros [-> | ->]; by destruct (is_v6 ip). Qed.

Lemma family_ips_idem f l : family_ips f (family_ips f l) = family_ips f l.
Proof. apply list_filter_filter_l. done. Qed.

Lemma family_ips_other f l : single f -> family_ips f (family_ips (other f) l) = [].
Proof.
  intros Hf. unfold family_ips. induction l as [|ip l IH]; [done|]. rewrite filter_cons.
  destruct (decide (contains_ip (other f) ip)) as [Hc|]; [|done]. rewrite filter_cons, decide_False; [done|].
  rewrite contains_ip_other in Hc by done. by apply negb_prop_elim in Hc.
Qed.

Lemma family_ips_all f l : Forall (contains_ip f) l -> family_ips f l = l.
Proof. intros Hl. apply filter_true_in. by apply Forall_forall. Qed.

Lemma family_ips_none f l : single f -> Forall (contains_ip f) l -> family_ips (other f) l = [].
Proof.
  intros Hf Hl. rewrite <- (family_ips_all f l Hl). pose proof (family_ips_other (other f) l (single_other f Hf)) as Ho.
  by replace (other (other f)) with f in Ho by (by destruct Hf as [-> | ->]).
Qed.

Lemma family_ips_app f a b : family_ips f (a ++ b) = family_ips f a ++ family_ips f b.
Proof. apply filter_app. Qed.

Lemma family_ips_dedup f l : family_ips f (dedup [] l) = dedup [] (family_ips f l).
Proof. apply dedup_filter. Qed.

(** ** Kinds *)

Lemma neg_get_with_same n f k : single f -> neg_get (neg_with n f k) f = Z.land k 3.
Proof.
  intros Hf. apply Z.bits_inj'. intros j Hj. unfold neg_get, neg_with, w8.
  destruct Hf as [-> | ->]; cbn [family_shift Z.eqb IPV4 IPV6 Pos.eqb].
  all: rewrite !Z.land_spec, Z.shiftr_spec, Z.lor_spec, Z.land_spec, Z.shiftl_spec, ?Z.land_spec by lia.
  all: destruct (decide (j = 0)%Z) as [->|]; [cbn; by rewrite ?andb_false_r, ?andb_true_r|].
  all: destruct (decide (j = 1)%Z) as [->|]; [cbn; by rewrite ?andb_false_r, ?andb_true_r|].
  all: assert (H3 : Z.testbit 3 j = false) by (apply Z.bits_above_log2; cbn; lia); by rewrite H3, !andb_false_r.
Qed.

Lemma neg_get_with_other n f k : single f -> neg_get (neg_with n f k) (other f) = neg_get n (other f).
Proof.
  intros Hf. apply Z.bits_inj'. intros j Hj. unfold neg_get, neg_with, w8.
  destruct Hf as [-> | ->]; cbn [family_shift other Z.eqb IPV4 IPV6 Pos.eqb].
  all: rewrite !Z.land_spec, !Z.shiftr_spec, Z.lor_spec, Z.land_spec, Z.shiftl_spec, ?Z.land_spec by lia.
  all: destruct (decide (j = 0)%Z) as [->|]; [cbn; by rewrite ?andb_false_r, ?andb_true_r, ?orb_false_r|].
  all: destruct (decide (j = 1)%Z) as [->|]; [cbn; by rewrite ?andb_false_r, ?andb_true_r, ?orb_false_r|].
  all: assert (H3 : Z.testbit 3 j = false) by (apply Z.bits_above_log2; cbn; lia); by rewrite H3, !andb_false_r.
Qed.

(** ** Records *)

Record Rec := mkRec { rc_ips : list IpAddr; rc_nx : bool; rc_expire : Z }.

Definition rec_of (e : CacheEntry) (f : Z) : option Rec :=
  if contains (queried e) f then
    let l := dedup [] (family_ips f (ips e)) in
    Some (mkRec l (bool_decide (l = []) && (neg_get (neg e) f =? KIND_NXDOMAIN)%Z) (expiry e f))
  else None.

(** The hit that a fresh record gives. *)
Definition hit_agrees (hit : FamilyCacheHit) (r : Rec) (now : Z) : Prop :=
  (now < rc_expire r)%Z /\
  match hit with
  | Answer l remaining => l <> [] /\ dedup [] l = rc_ips r /\ remaining = (rc_expire r - now)%Z
  | NoData => rc_ips r = [] /\ rc_nx r = false
  | NxDomain => rc_ips r = [] /\ rc_nx r = true
  | Miss => False
  end.

Lemma fresh_rec e f now : fresh e f now = true <-> exists r, rec_of e f = Some r /\ (now < rc_expire r)%Z.
Proof.
  unfold fresh, rec_of. destruct (contains (queried e) f); cbn [andb]; [|naive_solver].
  rewrite Z.ltb_lt. split; [intros ?; by eexists|]. by intros (r&[= <-]&?).
Qed.

Lemma family_hit_fresh e f now r :
  rec_of e f = Some r -> (now < rc_expire r)%Z -> hit_agrees (family_hit e f (fresh e f now) now) r now.
Proof.
  intros Hr Hnow. rewrite (proj2 (fresh_rec e f now)) by eauto. unfold family_hit. cbn [negb]. split; [done|].
  unfold rec_of in Hr. destruct (contains (queried e) f); [|done]. injection Hr as <-. cbn [rc_ips rc_nx rc_expire] in *.
  destruct (family_ips f (ips e)) as [|ip l] eqn:Hl.
  - cbn [dedup]. unfold family_kind. destruct (Z.eqb_spec (neg_get (neg e) f) KIND_NODATA) as [Hk|_]; [by rewrite Hk|].
    by destruct (neg_get (neg e) f =? KIND_NXDOMAIN)%Z.
  - split_and!; [done..|]. unfold saturating_duration_since. lia.
Qed.

Lemma family_hit_is_fresh e f now : is_fresh (family_hit e f (fresh e f now) now) = fresh e f now.
Proof.
  unfold family_hit. destruct (fresh e f now); [|done]. cbn. destruct (family_ips f (ips e)); [|done]. by destruct (family_kind (neg e) f).
Qed.

(** ** Merging *)

(** What a merge records for its family. *)
Definition merge_rec (now : Z) (ips : list IpAddr) (ttl : Z) (neg : FamilyNeg) : Rec :=
  mkRec (dedup [] ips) (bool_decide (ips = []) && bool_decide (neg = NegNxDomain)) (now + ttl).

(** A record that a NODATA answer leaves alone. *)
Definition better (r : Rec) (now : Z) : Prop := (now < rc_expire r)%Z /\ (rc_ips r <> [] \/ rc_nx r = true).

Lemma land_kind n : Z.land (neg_kind n) 3 = neg_kind n.
Proof. by destruct n. Qed.

Lemma neg_kind_nx n : (neg_kind n =? KIND_NXDOMAIN)%Z = bool_decide (n = NegNxDomain).
Proof. by destruct n. Qed.

Lemma contains_self f : single f -> contains f f = true.
Proof. by intros [-> | ->]. Qed.

Lemma contains_union f : single f -> contains (union f (other f)) f = true /\ contains (union f (other f)) (other f) = true.
Proof. by intros [-> | ->]. Qed.

Lemma contains_other f : single f -> contains f (other f) = false.
Proof. by intros [-> | ->]. Qed.

Lemma bool_decide_dedup l : bool_decide (dedup [] l = []) = bool_decide (l = []).
Proof. apply bool_decide_ext, dedup_nil. Qed.

Lemma preserve_better e now f ips neg :
  preserve_existing e now f ips neg = true ->
  neg = NegNoData /\ ips = [] /\ fresh e f now = true /\
  (family_ips f (DnsCache.ips e) = [] -> neg_get (DnsCache.neg e) f = KIND_NXDOMAIN) /\
  exists r, rec_of e f = Some r /\ better r now.
Proof.
  unfold preserve_existing. rewrite !andb_true_iff, !bool_decide_eq_true, orb_true_iff, Z.eqb_eq, negb_true_iff, bool_decide_eq_false.
  intros [[[Hf ->] ->] Hb]. split_and!; try done; [naive_solver|]. apply fresh_rec in Hf as (r&Hr&Hnow). exists r. split; [done|]. split; [done|].
  unfold rec_of in Hr. destruct (contains (queried e) f); [|done]. injection Hr as <-. cbn [rc_ips rc_nx].
  destruct (decide (family_ips f (DnsCache.ips e) = [])) as [Hn|Hn].
  - right. destruct Hb as [->|]; [|done]. by rewrite bool_decide_dedup, bool_decide_eq_true_2.
  - left. by rewrite dedup_nil.
Qed.

Lemma better_preserved e now f r :
  rec_of e f = Some r -> better r now -> preserve_existing e now f [] NegNoData = true.
Proof.
  intros Hr [Hnow Hb]. unfold preserve_existing. rewrite (proj2 (fresh_rec e f now)) by eauto. rewrite !bool_decide_eq_true_2 by done. cbn [andb].
  unfold rec_of in Hr. destruct (contains (queried e) f); [|done]. injection Hr as <-. cbn [rc_ips rc_nx] in Hb.
  apply orb_true_iff. destruct Hb as [Hb|[_ ?]%andb_true_iff]; [|by left].
  right. rewrite dedup_nil in Hb. by rewrite bool_decide_eq_false_2.
Qed.

(** *** The fields of a merged entry *)

Section Merge.
Context (e : CacheEntry) (now f : Z) (l : list IpAddr) (ttl : Z) (source : option bytes) (n : FamilyNeg).
Hypothesis f_single : single f.
Hypothesis l_family : Forall (contains_ip f) l.

Let m := merge_entry (Some e) now f l ttl source n.
Let preserve := preserve_existing e now f l n.
Let keep := fresh e (other f) now.

Lemma merged_queried : queried m = if keep then union f (other f) else f.
Proof. done. Qed.

Lemma merged_ips :
  ips m = dedup [] ((if preserve then family_ips f (ips e) else []) ++ (if keep then family_ips (other f) (ips e) else []) ++ l).
Proof.
  unfold m, merge_entry. cbn [ips]. fold preserve. change (contains (queried e) (other f) && (now <? expiry e (other f))%Z) with keep.
  destruct keep; [by rewrite <- app_assoc|done].
Qed.

Lemma merged_expiry : expiry m f = if preserve then expiry e f else (now + ttl)%Z.
Proof.
  unfold m, merge_entry, expiry. cbn [expire_v4 expire_v6]. fold preserve.
  change (contains (queried e) (other f) && (now <? (if (other f =? IPV4)%Z then expire_v4 e else expire_v6 e))%Z) with keep.
  destruct f_single as [-> | ->]; cbn; rewrite ?andb_false_r, ?andb_true_r; done.
Qed.

Lemma merged_expiry_other : keep = true -> expiry m (other f) = expiry e (other f).
Proof.
  intros Hk. unfold m, merge_entry, expiry. cbn [expire_v4 expire_v6].
  change (contains (queried e) (other f) && (now <? (if (other f =? IPV4)%Z then expire_v4 e else expire_v6 e))%Z) with keep.
  rewrite Hk. by destruct f_single as [-> | ->].
Qed.

Lemma merged_neg :
  neg_get (neg m) f = if preserve then (if bool_decide (family_ips f (ips e) = []) then KIND_NXDOMAIN else KIND_NONE) else neg_kind n.
Proof.
  unfold m, merge_entry. cbn [neg]. fold preserve. change (contains (queried e) (other f) && (now <? expiry e (other f))%Z) with keep.
  assert (Hkeep : forall x, neg_get (if keep then neg_with x (other f) (neg_get (neg e) (other f)) else x) f = neg_get x f).
  { intros x. destruct keep; [|done]. pose proof (neg_get_with_other x (other f) (neg_get (neg e) (other f)) (single_other f f_single)) as Ho.
    by replace (other (other f)) with f in Ho by (by destruct f_single as [-> | ->]). }
  rewrite Hkeep. destruct preserve; rewrite neg_get_with_same by done; [by destruct (bool_decide _)|apply land_kind].
Qed.

Lemma merged_neg_other : keep = true -> neg_get (neg m) (other f) = neg_get (neg e) (other f).
Proof.
  intros Hk. unfold m, merge_entry. cbn [neg]. change (contains (queried e) (other f) && (now <? expiry e (other f))%Z) with keep. rewrite Hk.
  rewrite neg_get_with_same by by apply single_other. unfold neg_get. by rewrite <- Z.land_assoc.
Qed.

(** The record of the family. *)
Lemma merged_rec : if preserve then rec_of m f = rec_of e f else rec_of m f = Some (merge_rec now l ttl n).
Proof.
  unfold rec_of. rewrite merged_queried, merged_ips, merged_expiry, merged_neg, family_ips_dedup, dedup_idem, !family_ips_app.
  replace (family_ips f (if keep then family_ips (other f) (ips e) else [])) with (@nil IpAddr)
    by (destruct keep; [by rewrite family_ips_other|done]). rewrite (family_ips_all f l l_family).
  replace (contains (if keep then union f (other f) else f) f) with true
    by (destruct keep; [by rewrite (proj1 (contains_union f f_single))|by rewrite contains_self]).
  destruct preserve eqn:Hp.
  - apply preserve_better in Hp as (_&Hl&Hf&Hnx&_). apply andb_true_iff in Hf as [-> _]. rewrite Hl, app_nil_r, family_ips_idem.
    rewrite !bool_decide_dedup. do 2 f_equal. destruct (bool_decide_reflect (family_ips f (ips e) = [])) as [Hn|Hn]; [|done]. by rewrite Hnx.
  - cbn. unfold merge_rec. by rewrite bool_decide_dedup, neg_kind_nx.
Qed.

(** The record of the other family. *)
Lemma merged_rec_other : rec_of m (other f) = if keep then rec_of e (other f) else None.
Proof.
  destruct keep eqn:Hk.
  - unfold rec_of. rewrite merged_expiry_other, merged_neg_other, merged_queried, merged_ips, Hk, family_ips_dedup, dedup_idem, !family_ips_app by done.
    replace (family_ips (other f) (if preserve then family_ips f (ips e) else [])) with (@nil IpAddr).
    2:{ destruct preserve; [|done]. pose proof (family_ips_other (other f) (ips e) (single_other f f_single)) as Ho.
        by replace (other (other f)) with f in Ho by (by destruct f_single as [-> | ->]). }
    rewrite family_ips_idem, (family_ips_none f l) by done. rewrite app_nil_r. cbn [app].
    rewrite (proj2 (contains_union f f_single)). unfold keep, fresh in Hk. by apply andb_true_iff in Hk as [-> _].
  - unfold rec_of. by rewrite merged_queried, Hk, contains_other.
Qed.

End Merge.

(** A merge into nothing. *)
Lemma merged_new now f l ttl source n :
  single f -> Forall (contains_ip f) l ->
  let m := merge_entry None now f l ttl source n in
  rec_of m f = Some (merge_rec now l ttl n) /\ rec_of m (other f) = None.
Proof.
  intros Hf Hl m. unfold rec_of, m. cbn [queried merge_entry ips neg]. rewrite (contains_other f Hf), (contains_self f Hf). split; [|done].
  rewrite family_ips_dedup, dedup_idem, (family_ips_all f l Hl), bool_decide_dedup, neg_get_with_same, land_kind, neg_kind_nx by done.
  unfold merge_rec. do 2 f_equal. by destruct Hf as [-> | ->].
Qed.

(** ** Putting *)

Definition put_rec (now f : Z) (l : list IpAddr) (ttl : Z) : option Rec :=
  if bool_decide (l = []) then Some (mkRec [] true (now + ttl))
  else if bool_decide (family_ips f l = []) then None
  else Some (mkRec (dedup [] (family_ips f l)) false (now + ttl)).

Lemma land_pow2 a i : (0 <= i)%Z -> Z.land a (2 ^ i) = if Z.testbit a i then (2 ^ i)%Z else 0%Z.
Proof.
  intros Hi. apply Z.bits_inj'. intros j Hj. rewrite Z.land_spec, Z.pow2_bits_eqb by lia.
  destruct (Z.eqb_spec i j) as [<-|Hne].
  - destruct (Z.testbit a i); [by rewrite Z.pow2_bits_true|by rewrite Z.bits_0].
  - rewrite andb_false_r. destruct (Z.testbit a i); [by rewrite Z.pow2_bits_false|by rewrite Z.bits_0].
Qed.

Lemma contains_bit a f : single f -> contains a f = Z.testbit a (if (f =? IPV4)%Z then 0 else 1).
Proof.
  intros [-> | ->].
  - change ((Z.land a (2 ^ 0) =? 2 ^ 0)%Z = Z.testbit a 0). rewrite land_pow2 by lia. by destruct (Z.testbit a 0).
  - change ((Z.land a (2 ^ 1) =? 2 ^ 1)%Z = Z.testbit a 1). rewrite land_pow2 by lia. by destruct (Z.testbit a 1).
Qed.

Lemma contains_union_or a b f : single f -> contains (union a b) f = contains a f || contains b f.
Proof. intros Hf. rewrite !contains_bit by done. apply Z.lor_spec. Qed.

Lemma from_ips_contains f l : single f -> contains (from_ips l) f = negb (bool_decide (family_ips f l = [])).
Proof.
  intros Hf. unfold from_ips. induction l as [|ip l IH] using rev_ind; [by destruct Hf as [-> | ->]|].
  rewrite foldl_app, family_ips_app. cbn [foldl]. rewrite contains_union_or, IH by done.
  assert (Hip : contains (ip_family ip) f = contains_ip f ip).
  { unfold contains_ip, ip_family. destruct Hf as [-> | ->]; by destruct (is_v6 ip). }
  rewrite Hip. assert (Hs : family_ips f [ip] = if contains_ip f ip then [ip] else []).
  { unfold family_ips. rewrite filter_cons. destruct (decide (contains_ip f ip)) as [Hc|Hc]; by destruct (contains_ip f ip). }
  rewrite Hs. destruct (contains_ip f ip).
  - rewrite orb_true_r. by destruct (family_ips f l).
  - by rewrite app_nil_r, orb_false_r.
Qed.

Lemma put_entry_rec now f l ttl source : single f -> rec_of (put_entry now l ttl source) f = put_rec now f l ttl.
Proof.
  intros Hf. unfold put_entry, put_rec, rec_of. destruct l as [|ip l]; [by destruct Hf as [-> | ->]|].
  cbn [queried ips neg]. rewrite (bool_decide_eq_false_2 (ip :: l = [])) by done. rewrite from_ips_contains by done.
  destruct (bool_decide_reflect (family_ips f (ip :: l) = [])) as [Hn|Hn]; [done|]. cbn [negb].
  rewrite bool_decide_dedup, bool_decide_eq_false_2 by done. do 2 f_equal. by destruct Hf as [-> | ->].
Qed.

End DnsCacheEntries.
