(* ===== verification/DnsCacheForward.v ===== *)
(** * What the DNS cache answers for a name (crates/meow-dns/src/cache.rs)

    Over any history, with the evictions it brings, an answer is one that was
    written for the name and family and not replaced since; and a written
    answer is given while few enough other names of its shard are used. *)

From S2P Require Import Prelude Strings Bits Ip Lru DnsCache DnsCacheRun.

Module DnsCacheForward.
Import DnsCache DnsCacheShards DnsCacheRun DnsCacheEntries.

(** ** What calls write *)

(** The record a call writes for a name and a family. *)
Definition written (call : Call) (k : bytes) (f : Z) : option Rec :=
  match call with
  | Put now d ips ttl _ => if decide (normalize_domain d = k) then put_rec now f ips ttl else None
  | Merge now d f' ips ttl _ neg => if decide (normalize_domain d = k /\ f' = f) then Some (merge_rec now ips ttl neg) else None
  | _ => None
  end.

(** The calls that replace the record of a name and a family. *)
Definition concerns (call : Call) (k : bytes) (f : Z) : bool :=
  match call with
  | Put _ d _ _ _ => bool_decide (normalize_domain d = k)
  | Merge _ d f' _ _ _ _ => bool_decide (normalize_domain d = k) && (f' =? f)%Z
  | Clear => true
  | _ => false
  end.

(** A merge is given addresses of its family. *)
Definition valid (call : Call) : Prop :=
  match call with Merge _ _ f ips _ _ _ => Forall (contains_ip f) ips | _ => True end.

Section Forward.
Context `{LL : LruLib}.
Implicit Types (c : DnsCache).

Definition hit (l : CacheLookup) (f : Z) : FamilyCacheHit := if (f =? IPV4)%Z then l_v4 l else l_v6 l.

(** The cache gives addresses of the family, or says that the name does not exist. *)
Definition answered c now d f : bool :=
  match (get_lookup c now d).1 with
  | Some l => match hit l f with Answer _ _ | NxDomain => true | _ => false end
  | None => false
  end.

(** The call takes effect on a record of the family: a NODATA merge does not
    where the cache has a better answer at that moment. *)
Definition effective c (call : Call) (f : Z) : Prop :=
  match call with Merge now d _ [] _ _ NegNoData => answered c now d f = false | _ => True end.

(** The record may be held after the calls. *)
Inductive recorded (capacity : Z) (k : bytes) (f : Z) : list Call -> Rec -> Prop :=
  | rec_write calls call r :
      written call k f = Some r -> effective (run (new capacity) calls) call f -> recorded capacity k f (calls ++ [call]) r
  | rec_keep calls call r :
      recorded capacity k f calls r -> concerns call k f = false -> recorded capacity k f (calls ++ [call]) r
  | rec_better calls r now d ttl source :
      recorded capacity k f calls r -> normalize_domain d = k -> better r now ->
      recorded capacity k f (calls ++ [Merge now d f [] ttl source NegNoData]) r.

Lemma hit_lookup_of e now f : single f -> hit (lookup_of e now) f = family_hit e f (fresh e f now) now.
Proof. intros [-> | ->]; unfold lookup_of; by destruct (foldl _ _ _). Qed.

(** An answer comes from a better record. *)
Lemma answered_better c now d f :
  cache_ok c -> single f -> answered c now d f = true ->
  exists e r, fwd c (normalize_domain d) = Some e /\ rec_of e f = Some r /\ better r now.
Proof.
  intros Hok Hf. unfold answered. destruct (get_lookup_steps c now d Hok) as (_&_&Hsteps).
  destruct (fwd c (normalize_domain d)) as [e|]; [destruct (dead now e)|]; destruct Hsteps as [Hl _]; rewrite Hl; try done.
  rewrite hit_lookup_of by done. intros Ha. exists e. destruct (fresh e f now) eqn:Hfr; [|done].
  apply fresh_rec in Hfr as Hr. destruct Hr as (r&Hr&Hnow). exists r. split_and!; [done..|]. split; [done|].
  pose proof (family_hit_fresh e f now r Hr Hnow) as [_ Hag]. rewrite Hfr in Hag.
  destruct (family_hit e f true now) as [l a| | |]; try done; [left|right; by destruct Hag].
  destruct Hag as (Hne&<-&_). by rewrite dedup_nil.
Qed.

Lemma other_of f f' : single f -> single f' -> f' <> f -> f = other f'.
Proof. intros [-> | ->] [-> | ->]; done. Qed.

(** Where the record of an entry comes from. *)
Definition origin c call k f r : Prop :=
  (written call k f = Some r /\ effective c call f) \/
  (exists e, fwd c k = Some e /\ rec_of e f = Some r /\
     (concerns call k f = false \/
      exists now d ttl source, call = Merge now d f [] ttl source NegNoData /\ normalize_domain d = k /\ better r now)).

Lemma origin_kept c call k f r e : concerns call k f = false -> fwd c k = Some e -> rec_of e f = Some r -> origin c call k f r.
Proof. intros ? ? ?. right. exists e. auto. Qed.

Lemma merge_effective c now d f ips ttl source neg :
  cache_ok c -> single f ->
  (forall e, fwd c (normalize_domain d) = Some e -> preserve_existing e now f ips neg = false) ->
  effective c (Merge now d f ips ttl source neg) f.
Proof.
  intros Hok Hf Hp. cbn. destruct ips; [|done]. destruct neg; try done. destruct (answered c now d f) eqn:Ha; [|done].
  apply answered_better in Ha as (e&r&He&Hr&Hb); [|done..]. specialize (Hp e He). by rewrite (better_preserved e now f r) in Hp.
Qed.

Lemma merge_origin c now d f' ips ttl source neg k f e r :
  cache_ok c -> single f -> single f' -> Forall (contains_ip f') ips ->
  fwd (merge_family c now d f' ips ttl source neg) k = Some e -> rec_of e f = Some r ->
  origin c (Merge now d f' ips ttl source neg) k f r.
Proof.
  intros Hok Hf Hf' Hips Hfwd Hrec. destruct (merge_steps c now d f' ips ttl source neg Hok Hf') as (_&_&Hfl&_).
  unfold fwd in Hfwd. rewrite Hfl in Hfwd. destruct (decide (normalize_domain d = k)) as [Hk|Hk].
  - rewrite Hk, find_put_same in Hfwd by (apply shard_str_lt || apply Hok). injection Hfwd as <-.
    destruct (decide (f' = f)) as [->|Hne].
    + destruct (fwd c k) as [e0|] eqn:He0.
      * pose proof (merged_rec e0 now f ips ttl source neg Hf Hips) as Hm. destruct (preserve_existing e0 now f ips neg) eqn:Hp.
        -- apply preserve_better in Hp as (->&->&_&_&r'&Hr'&Hb). rewrite Hm in Hrec. right. exists e0. split_and!; [done..|].
           right. exists now, d, ttl, source. split_and!; [done..|]. congruence.
        -- left. split; [cbn; rewrite decide_True by done; congruence|]. apply merge_effective; [done..|]. intros e1. rewrite Hk, He0. by intros [= <-].
      * left. split; [cbn; rewrite decide_True by done; rewrite <- Hrec; symmetry; by apply (merged_new now f ips ttl source neg)|].
        apply merge_effective; [done..|]. intros e0. by rewrite Hk, He0.
    + assert (Hc : concerns (Merge now d f' ips ttl source neg) k f = false).
      { cbn. destruct (Z.eqb_spec f' f); [done|]. apply andb_false_r. }
      pose proof (other_of f f' Hf Hf' Hne) as Ho. rewrite Ho in Hrec.
      destruct (fwd c k) as [e0|] eqn:He0.
      * rewrite merged_rec_other in Hrec by done. destruct (fresh e0 (other f') now); [|done].
        rewrite <- Ho in Hrec. by eapply origin_kept.
      * rewrite (proj2 (merged_new now f' ips ttl source neg Hf' Hips)) in Hrec. done.
  - apply find_put_other in Hfwd; [|apply shard_str_lt|apply Hok|by apply not_eq_sym]. eapply origin_kept; [|done..].
    cbn. by rewrite bool_decide_eq_false_2.
Qed.

Lemma call_origin c call k f e r :
  cache_ok c -> single f -> valid call -> fwd (call_step c call) k = Some e -> rec_of e f = Some r -> origin c call k f r.
Proof.
  intros Hok Hf Hv Hfwd Hrec. destruct call as [now d|now d ips ttl source|now d f' ips ttl source neg|now ip| |now|now|now es]; cbn [call_step] in Hfwd.
  - destruct (get_lookup_steps c now d Hok) as (_&_&Hsteps). unfold fwd in Hfwd. eapply origin_kept; [done| |exact Hrec].
    assert (Hfl : fl (get_lookup c now d).2 = alter (touch (normalize_domain d)) (shard_str (normalize_domain d)) (fl c) \/
      fl (get_lookup c now d).2 = alter (remove_key (normalize_domain d)) (shard_str (normalize_domain d)) (fl c)).
    { destruct (fwd c (normalize_domain d)) as [e0|]; [destruct (dead now e0)|]; destruct Hsteps; auto. }
    destruct Hfl as [Hfl|Hfl]; rewrite Hfl in Hfwd.
    + erewrite find_touch in Hfwd; [done|apply shard_str_lt|apply Hok].
    + erewrite find_remove in Hfwd; [|apply shard_str_lt|apply Hok]. by destruct (decide _).
  - destruct (put_steps c now d ips ttl source Hok) as (_&_&Hfl&_). unfold fwd in Hfwd. rewrite Hfl in Hfwd.
    destruct (decide (normalize_domain d = k)) as [<-|Hk].
    + rewrite find_put_same in Hfwd by (apply shard_str_lt || apply Hok). injection Hfwd as <-. left. split; [|done]. cbn. rewrite decide_True by done.
      by rewrite <- (put_entry_rec now f ips ttl source).
    + apply find_put_other in Hfwd; [|apply shard_str_lt|apply Hok|by apply not_eq_sym]. eapply origin_kept; [|done..].
      cbn. by rewrite bool_decide_eq_false_2.
  - destruct (decide (single f')) as [Hs|Hs]; [by eapply merge_origin|]. rewrite merge_refused in Hfwd by done.
    eapply origin_kept; [|done..]. cbn. destruct (Z.eqb_spec f' f) as [->|]; [done|]. apply andb_false_r.
  - destruct (reverse_lookup_steps c now ip Hok) as (_&Hfl&_). unfold fwd in Hfwd. rewrite Hfl in Hfwd. by eapply origin_kept.
  - destruct (clear_steps c Hok) as (_&Hfl&_). unfold fwd, find in Hfwd. rewrite Hfl in Hfwd.
    rewrite shard_fmap in Hfwd; [done|apply shard_str_lt|apply Hok].
  - destruct (snapshot_steps c now Hok) as (_&_&Hfl). unfold fwd in Hfwd. rewrite Hfl in Hfwd.
    pose proof (find_sweep _ _ shard_str_lt (fun e => dead now e = false) k (fl c) (ok_fwd c Hok)) as Hsw.
    pose proof (eq_trans (eq_sym Hsw) Hfwd) as Hfind. apply bind_Some in Hfind as (e0&He0&Hd). destruct (decide _); [|done]. injection Hd as ->. by eapply origin_kept.
  - destruct (reverse_snapshot_steps c now Hok) as (_&Hfl&_). unfold fwd in Hfwd. rewrite Hfl in Hfwd. by eapply origin_kept.
  - destruct (restore_steps c now es Hok) as (_&Hfl&_). unfold fwd in Hfwd. rewrite Hfl in Hfwd. by eapply origin_kept.
Qed.

Lemma run_snoc c calls call : run c (calls ++ [call]) = call_step (run c calls) call.
Proof. unfold run. by rewrite foldl_app. Qed.

Lemma run_recorded capacity calls k f e r :
  single f -> Forall valid calls -> fwd (run (new capacity) calls) k = Some e -> rec_of e f = Some r ->
  recorded capacity k f calls r.
Proof.
  intros Hf. revert e r. induction calls as [|call calls IH] using rev_ind; intros e r Hv Hfwd Hrec.
  - unfold fwd, find in Hfwd. destruct (ok_fwd _ (new_ok capacity)) as [Hl _]. unfold run in Hfwd. cbn [foldl] in Hfwd.
    pose proof (shard_lookup shard_str shard_str_lt _ k Hl) as Hs. unfold fl in Hs. rewrite list_lookup_fmap in Hs.
    apply fmap_Some in Hs as (s&Hs&He). cbn [cache new] in Hs. apply lookup_replicate in Hs as [-> _]. unfold fl in Hfwd. rewrite He, iter_unbounded in Hfwd. done.
  - apply Forall_app in Hv as [Hv Hcall]. apply Forall_inv in Hcall. rewrite run_snoc in Hfwd.
    pose proof (proj1 (cache_run_ok (new capacity) calls (new_ok capacity))) as Hok.
    destruct (call_origin _ _ _ _ _ _ Hok Hf Hcall Hfwd Hrec) as [[Hw Heff]|(e0&He0&Hr0&[Hc|(now&d&ttl&source&->&Hk&Hb)])].
    + by apply rec_write.
    + apply rec_keep; [by eapply IH|done].
    + apply rec_better; [by eapply IH|done..].
Qed.

Definition hit_ips (h : FamilyCacheHit) : list IpAddr := match h with Answer l _ => l | _ => [] end.

Definition min_ttl (h1 h2 : FamilyCacheHit) : Z :=
  match h1, h2 with
  | Answer _ a, Answer _ b => Z.min a b
  | Answer _ a, _ | _, Answer _ a => a
  | _, _ => 0
  end.

Lemma lookup_of_ips e now : l_ips (lookup_of e now) = hit_ips (l_v4 (lookup_of e now)) ++ hit_ips (l_v6 (lookup_of e now)).
Proof.
  unfold lookup_of. destruct (family_hit e IPV4 _ now), (family_hit e IPV6 _ now); cbn; rewrite ?app_nil_r; done.
Qed.

Lemma lookup_of_ttl e now :
  (forall f l a, hit (lookup_of e now) f = Answer l a -> (a < DURATION_MAX)%Z) ->
  l_ttl (lookup_of e now) = min_ttl (l_v4 (lookup_of e now)) (l_v6 (lookup_of e now)).
Proof.
  intros Hmax. pose proof (fun l a => Hmax IPV4 l a) as H4. pose proof (fun l a => Hmax IPV6 l a) as H6. clear Hmax.
  revert H4 H6. unfold lookup_of. destruct (family_hit e IPV4 _ now) as [l4 a4| | |], (family_hit e IPV6 _ now) as [l6 a6| | |]; cbn [foldl add_hit fst snd];
    intros H4 H6; cbn in H4, H6; try specialize (H4 _ _ eq_refl); try specialize (H6 _ _ eq_refl); cbn [l_ttl l_v4 l_v6 min_ttl]; try done.
  - destruct (Z.ltb_spec a4 DURATION_MAX); [|lia]. destruct (Z.ltb_spec a6 a4).
    + destruct (Z.eqb_spec a6 DURATION_MAX); lia.
    + destruct (Z.eqb_spec a4 DURATION_MAX); lia.
  - destruct (Z.ltb_spec a4 DURATION_MAX); [|lia]. destruct (Z.eqb_spec a4 DURATION_MAX); lia.
  - destruct (Z.ltb_spec a4 DURATION_MAX); [|lia]. destruct (Z.eqb_spec a4 DURATION_MAX); lia.
  - destruct (Z.ltb_spec a4 DURATION_MAX); [|lia]. destruct (Z.eqb_spec a4 DURATION_MAX); lia.
  - destruct (Z.ltb_spec a6 DURATION_MAX); [|lia]. destruct (Z.eqb_spec a6 DURATION_MAX); lia.
  - destruct (Z.ltb_spec a6 DURATION_MAX); [|lia]. destruct (Z.eqb_spec a6 DURATION_MAX); lia.
  - destruct (Z.ltb_spec a6 DURATION_MAX); [|lia]. destruct (Z.eqb_spec a6 DURATION_MAX); lia.
Qed.

(** C8: whatever was written, read and forgotten before, what the cache
    answers for a name was written for it. The hit of each family is a record
    some call wrote for that name and family, with the kind of a negative
    answer and the lifetime it has left, and no later call replaced it: one
    for the other family does not, and a NODATA answer counts as written only
    where the cache had no address of the family and no "does not exist" to
    answer at that moment. The addresses are those of the two hits, and the
    lifetime of the whole is the smaller one. *)
Theorem dns_cache_sound (capacity : Z) (calls : list Call) (now : Z) (d : bytes) (l : CacheLookup) :
  Forall valid calls -> (get_lookup (run (new capacity) calls) now d).1 = Some l ->
  (forall f, single f -> is_fresh (hit l f) = true ->
     exists r, recorded capacity (normalize_domain d) f calls r /\ hit_agrees (hit l f) r now) /\
  (is_fresh (l_v4 l) || is_fresh (l_v6 l) = true) /\
  l_ips l = hit_ips (l_v4 l) ++ hit_ips (l_v6 l) /\
  ((forall f ips a, hit l f = Answer ips a -> (a < DURATION_MAX)%Z) -> l_ttl l = min_ttl (l_v4 l) (l_v6 l)).
Proof.
  intros Hv Hget. pose proof (proj1 (cache_run_ok (new capacity) calls (new_ok capacity))) as Hok.
  destruct (get_lookup_steps _ now d Hok) as (_&_&Hsteps). destruct (fwd _ (normalize_domain d)) as [e|] eqn:He; [|destruct Hsteps; congruence].
  destruct (dead now e) eqn:Hd; destruct Hsteps as [Hl _]; rewrite Hl in Hget; [done|]. injection Hget as <-. split_and!.
  - intros f Hf. rewrite hit_lookup_of, family_hit_is_fresh by done. intros (r&Hr&Hnow)%fresh_rec. exists r.
    split; [by eapply run_recorded|by apply family_hit_fresh].
  - change (is_fresh (hit (lookup_of e now) IPV4) || is_fresh (hit (lookup_of e now) IPV6) = true).
    rewrite (hit_lookup_of e now IPV4 (or_introl eq_refl)), (hit_lookup_of e now IPV6 (or_intror eq_refl)), !family_hit_is_fresh.
    revert Hd. unfold dead. by destruct (fresh e IPV4 now), (fresh e IPV6 now).
  - apply lookup_of_ips.
  - apply lookup_of_ttl.
Qed.

(** ** How long a record is held *)

Definition is_nodata (call : Call) : bool :=
  match call with Merge _ _ _ [] _ _ NegNoData => true | _ => false end.

(** The call does not replace the record: it is about something else, or it is
    a NODATA answer and the record is a better one. *)
Definition leaves (call : Call) (k : bytes) (f : Z) (r : Rec) : Prop :=
  concerns call k f = false \/ (is_nodata call = true /\ (rc_ips r <> [] \/ rc_nx r = true)).

Definition not_after (t : Z) (call : Call) : Prop :=
  match call with
  | Clear => True
  | Get now _ | Put now _ _ _ _ | Merge now _ _ _ _ _ _ | Reverse now _ | Snapshot now | ReverseSnapshot now | Restore now _ => (now <= t)%Z
  end.

(** The calls that use a name of the shard of [k]. *)
Definition shard_use (k : bytes) (call : Call) : nat :=
  match call with
  | Get _ d | Put _ d _ _ _ | Merge _ d _ _ _ _ _ => same_shard shard_str (normalize_domain d) k
  | _ => 0
  end.

Definition shard_uses (k : bytes) (calls : list Call) : nat := sum_list (shard_use k <$> calls).

Definition held c k f r n : Prop := exists e, near_in shard_str (fl c) k e n /\ rec_of e f = Some r.

Lemma near_fwd c k e n : cache_ok c -> near_in shard_str (fl c) k e n -> fwd c k = Some e.
Proof. intros Hok Hn. eapply near_in_find; [apply shard_str_lt|apply Hok|exact Hn]. Qed.

Lemma held_mono c k f r n m : held c k f r n -> n <= m -> held c k f r m.
Proof. intros (e&Hn&Hr) ?. exists e. split; [by eapply near_mono|done]. Qed.

Lemma held_fl c c' k f r n : fl c' = fl c -> held c k f r n -> held c' k f r n.
Proof. intros Hfl (e&Hn&Hr). exists e. by rewrite Hfl. Qed.

Lemma fresh_alive e f now r : single f -> rec_of e f = Some r -> (now < rc_expire r)%Z -> dead now e = false.
Proof.
  intros Hf Hr Hnow. assert (Hfr : fresh e f now = true) by (apply fresh_rec; eauto). unfold dead.
  destruct Hf as [-> | ->]; rewrite Hfr; [done|apply andb_false_r].
Qed.

Lemma held_put c c' k f r n k' e' :
  cache_ok c -> k' <> k -> held c k f r n -> n + same_shard shard_str k' k < fwd_shard_cap c ->
  fl c' = alter (lput (fwd_shard_cap c) k' e') (shard_str k') (fl c) -> held c' k f r (n + same_shard shard_str k' k).
Proof.
  intros Hok Hne (e&Hn&Hr) Hcap Hfl. exists e. split; [|done]. rewrite Hfl.
  apply near_in_put; [apply shard_str_lt|apply Hok|done..].
Qed.

Lemma held_merge c now d f' ips ttl source neg k f r n :
  cache_ok c -> single f -> single f' -> Forall (contains_ip f') ips -> leaves (Merge now d f' ips ttl source neg) k f r ->
  (now < rc_expire r)%Z -> held c k f r n -> n + same_shard shard_str (normalize_domain d) k < fwd_shard_cap c ->
  held (merge_family c now d f' ips ttl source neg) k f r (n + same_shard shard_str (normalize_domain d) k).
Proof.
  intros Hok Hf Hf' Hips Hc Hnow Hheld Hcap. destruct (merge_steps c now d f' ips ttl source neg Hok Hf') as (_&_&Hfl&_).
  destruct (decide (normalize_domain d = k)) as [Hk|Hk]; [|by eapply held_put].
  destruct Hheld as (e&Hn&Hr). apply (held_mono _ _ _ _ 0); [|lia]. rewrite Hk in Hfl.
  pose proof (near_fwd c k e n Hok Hn) as He. rewrite He in Hfl.
  eexists. split; [rewrite Hfl; apply near_in_put_same; [apply shard_str_lt|apply Hok..]|].
  destruct (decide (f' = f)) as [->|Hne].
  { destruct Hc as [Hc|[Hnd Hb]]; [cbn in Hc; by rewrite bool_decide_eq_true_2, Z.eqb_refl in Hc by done|].
    cbn in Hnd. destruct ips; [|done]. destruct neg; try done.
    pose proof (merged_rec e now f [] ttl source NegNoData Hf Hips) as Hm. rewrite (better_preserved e now f r) in Hm by done. congruence. }
  pose proof (other_of f f' Hf Hf' Hne) as Ho.
  rewrite Ho, merged_rec_other by done. rewrite <- Ho. rewrite (proj2 (fresh_rec e f now)); [done|eauto].
Qed.

Lemma held_step c call k f r n t :
  cache_ok c -> single f -> valid call -> leaves call k f r -> not_after t call -> (t < rc_expire r)%Z ->
  held c k f r n -> n + shard_use k call < fwd_shard_cap c -> held (call_step c call) k f r (n + shard_use k call).
Proof.
  intros Hok Hf Hv Hc Ht Hexp Hheld Hcap. destruct call as [now d|now d ips ttl source|now d f' ips ttl source neg|now ip| |now|now|now es];
    cbn [call_step shard_use not_after] in *; rewrite ?Nat.add_0_r.
  - destruct (get_lookup_steps c now d Hok) as (_&_&Hsteps). destruct Hheld as (e&Hn&Hr). exists e. split; [|done].
    destruct (fwd c (normalize_domain d)) as [e0|] eqn:He0; [destruct (dead now e0) eqn:Hd|]; destruct Hsteps as [_ Hfl]; rewrite Hfl.
    + eapply near_mono; [eapply near_in_remove; [apply shard_str_lt|apply Hok|exact Hn|]|lia]. intros Hk. rewrite Hk in He0.
      pose proof (near_fwd c k e n Hok Hn) as He. rewrite He in He0. injection He0 as <-.
      rewrite (fresh_alive e f now r) in Hd by (done || lia). done.
    + eapply near_in_touch; [apply shard_str_lt|apply Hok|done].
    + eapply near_in_touch; [apply shard_str_lt|apply Hok|done].
  - destruct Hc as [Hc|[? _]]; [|done]. cbn in Hc. apply bool_decide_eq_false in Hc. destruct (put_steps c now d ips ttl source Hok) as (_&_&Hfl&_). by eapply held_put.
  - destruct (decide (single f')) as [Hs|Hs].
    + apply held_merge; try done. lia.
    + rewrite merge_refused by done. eapply held_mono; [done|lia].
  - eapply held_fl; [|done]. by apply reverse_lookup_steps.
  - by destruct Hc as [|[? _]].
  - destruct Hheld as (e&Hn&Hr). exists e. split; [|done]. destruct (snapshot_steps c now Hok) as (_&_&Hfl). rewrite Hfl.
    assert (Hd : dead now e = false) by (apply (fresh_alive e f now r); [done..|lia]).
    exact (near_in_sweep _ _ shard_str_lt (fun e => dead now e = false) k e n (fl c) (ok_fwd c Hok) Hn Hd).
  - eapply held_fl; [|done]. by apply reverse_snapshot_steps.
  - eapply held_fl; [|done]. by apply restore_steps.
Qed.

Lemma held_run calls c k f r n t :
  cache_ok c -> single f -> Forall valid calls -> Forall (fun call => leaves call k f r) calls -> Forall (not_after t) calls ->
  (t < rc_expire r)%Z -> held c k f r n -> n + shard_uses k calls < fwd_shard_cap c -> held (run c calls) k f r (n + shard_uses k calls).
Proof.
  revert c n. unfold shard_uses. induction calls as [|call calls IH]; intros c n Hok Hf Hv Hc Ht Hexp Hheld Hcap; [by rewrite Nat.add_0_r|].
  apply Forall_cons in Hv as [Hv1 Hv], Hc as [Hc1 Hc], Ht as [Ht1 Ht]. rewrite fmap_cons in *. cbn [sum_list sum_list_with run foldl] in *.
  destruct (call_ok c call Hok) as [Hok1 [Hcap1 _]]. rewrite Nat.add_assoc.
  apply (IH (call_step c call)); try done; [|rewrite Hcap1; cbn in *; lia]. eapply held_step; try done. cbn in *. lia.
Qed.

Lemma held_written c call k f r :
  cache_ok c -> single f -> valid call -> is_nodata call = false -> written call k f = Some r -> held (call_step c call) k f r 0.
Proof.
  intros Hok Hf Hv Hnd Hw. destruct call as [| now d ips ttl source|now d f' ips ttl source neg| | | | |]; try done; cbn in Hw.
  - destruct (decide (normalize_domain d = k)) as [<-|]; [|done]. destruct (put_steps c now d ips ttl source Hok) as (_&_&Hfl&_).
    eexists. split; [cbn [call_step]; rewrite Hfl; apply near_in_put_same; [apply shard_str_lt|apply Hok..]|]. by rewrite put_entry_rec.
  - destruct (decide (normalize_domain d = k /\ f' = f)) as [[<- ->]|]; [|done]. cbn [call_step valid] in *.
    destruct (merge_steps c now d f ips ttl source neg Hok Hf) as (_&_&Hfl&_).
    eexists. split; [rewrite Hfl; apply near_in_put_same; [apply shard_str_lt|apply Hok..]|]. rewrite <- Hw.
    destruct (fwd c (normalize_domain d)) as [e|]; [|by apply merged_new].
    pose proof (merged_rec e now f ips ttl source neg Hf Hv) as Hm. destruct (preserve_existing e now f ips neg) eqn:Hp; [|done].
    apply preserve_better in Hp as (->&->&_). done.
Qed.

(** C24: an answer that was written is given. After a call wrote a record
    for a name and a family, a positive answer or a name that does not exist,
    and while the record is fresh, the cache answers it for any spelling of
    the name, through any calls that do not replace it and of which fewer
    than the cap of a shard use names of its shard. A NODATA answer for the
    same name and family is among the calls that do not replace it. *)
Theorem dns_cache_retains (capacity : Z) (calls : list Call) (w : Call) (later : list Call) (now : Z) (d : bytes) (f : Z) (r : Rec) :
  single f -> Forall valid (w :: later) -> is_nodata w = false -> written w (normalize_domain d) f = Some r ->
  Forall (fun call => leaves call (normalize_domain d) f r) later -> Forall (not_after now) later ->
  (now < rc_expire r)%Z -> shard_uses (normalize_domain d) later < fwd_shard_cap (new capacity) ->
  exists l, (get_lookup (run (new capacity) (calls ++ w :: later)) now d).1 = Some l /\ hit_agrees (hit l f) r now.
Proof.
  intros Hf Hv Hnd Hw Hc Ht Hexp Huse. apply Forall_cons in Hv as [Hvw Hv]. destruct (cache_run_ok (new capacity) calls (new_ok capacity)) as [Hok [Hcap _]].
  destruct (call_ok _ w Hok) as [Hok1 [Hcap1 _]]. pose proof (held_written _ w _ f r Hok Hf Hvw Hnd Hw) as Hheld.
  assert (Hrun : run (new capacity) (calls ++ w :: later) = run (call_step (run (new capacity) calls) w) later) by (unfold run; by rewrite foldl_app).
  rewrite Hrun. destruct (held_run later _ _ f r 0 now Hok1 Hf Hv Hc Ht Hexp Hheld) as (e&Hn&Hr); [rewrite Hcap1, Hcap; exact Huse|].
  pose proof (proj1 (cache_run_ok _ later Hok1)) as Hok2. pose proof (near_fwd _ _ _ _ Hok2 Hn) as He.
  destruct (get_lookup_steps _ now d Hok2) as (_&_&Hsteps). rewrite He, (fresh_alive e f now r Hf Hr Hexp) in Hsteps. destruct Hsteps as [Hl _].
  eexists. split; [exact Hl|]. rewrite hit_lookup_of by done. by apply family_hit_fresh.
Qed.

End Forward.

(** *** Witnesses *)

Definition demo_calls : list Call :=
  [Merge 0 (b! "A.com") IPV4 [V4 1; V4 2; V4 1] (100 * SECOND) None NegNone;
   Merge SECOND (b! "a.com") IPV6 [] (10 * SECOND) None NegNxDomain;
   Merge (2 * SECOND) (b! "a.com") IPV6 [] (30 * SECOND) None NegNoData].

Lemma dns_cache_sound_witness :
  exists l, (get_lookup (run (new 4096) demo_calls) (5 * SECOND) (b! "a.COM")).1 = Some l /\
    l_v6 l = NxDomain /\ l_ips l = [V4 1; V4 2] /\ l_ttl l = (95 * SECOND)%Z.
Proof.
  destruct (get_lookup (run (new 4096) demo_calls) (5 * SECOND) (b! "a.COM")).1 as [l|] eqn:Hl; [|vm_compute in Hl; discriminate].
  destruct (dns_cache_sound 4096 demo_calls (5 * SECOND) (b! "a.COM") l) as (_&_&Hips&Httl).
  - repeat constructor.
  - exact Hl.
  - assert (He : l = mkLookup [V4 1; V4 2] (95 * SECOND) (Answer [V4 1; V4 2] (95 * SECOND)) NxDomain) by (vm_compute in Hl; vm_compute; congruence).
    exists l. split; [reflexivity|]. rewrite Hips, Httl, He; [repeat split|].
    intros f ips a. rewrite He. unfold hit. cbn [l_v4 l_v6]. destruct (f =? IPV4)%Z; [|discriminate]. intros [= _ <-]. vm_compute. reflexivity.
Defined.

Lemma dns_cache_retains_witness :
  exists l, (get_lookup (run (new 0) (demo_calls ++ Merge (3 * SECOND) (b! "B.com") IPV6 [] (60 * SECOND) None NegNxDomain ::
      [Get (4 * SECOND) (b! "c.com"); Merge (5 * SECOND) (b! "b.com") IPV4 [V4 7] SECOND None NegNone;
       Merge (6 * SECOND) (b! "b.com") IPV6 [] SECOND None NegNoData])) (20 * SECOND) (b! "b.com")).1 = Some l /\
    l_v6 l = NxDomain.
Proof.
  destruct (dns_cache_retains 0 demo_calls (Merge (3 * SECOND) (b! "B.com") IPV6 [] (60 * SECOND) None NegNxDomain)
    [Get (4 * SECOND) (b! "c.com"); Merge (5 * SECOND) (b! "b.com") IPV4 [V4 7] SECOND None NegNone;
     Merge (6 * SECOND) (b! "b.com") IPV6 [] SECOND None NegNoData]
    (20 * SECOND) (b! "b.com") IPV6 (mkRec [] true (63 * SECOND))) as (l&Hl&Hhit).
  - right. reflexivity.
  - repeat constructor.
  - reflexivity.
  - reflexivity.
  - repeat (constructor; [first [left; reflexivity|right; split; [reflexivity|right; reflexivity]]|]). constructor.
  - repeat constructor; vm_compute; discriminate.
  - vm_compute. reflexivity.
  - vm_compute. lia.
  - exists l. split; [exact Hl|]. destruct Hhit as [_ Hhit]. unfold hit in Hhit. cbn in Hhit. destruct (l_v6 l).
    + destruct Hhit as (Hne&Hd&_). exfalso. apply Hne. exact (proj1 (dedup_nil _) Hd).
    + destruct Hhit. discriminate.
    + reflexivity.
    + destruct Hhit.
Defined.

End DnsCacheForward.
