(* ===== verification/DnsCacheReverse.v ===== *)
(** * What the DNS cache answers for an address (crates/meow-dns/src/cache.rs)

    A name recovered from an address is the last one that was given the
    address; it is recovered while few enough addresses of its shard are
    used; and a snapshot of the names restores them. *)

From stdpp Require Import sorting.
From S2P Require Import Prelude Strings Bits Ip Lru DnsCache DnsCacheRun DnsCacheForward.

Module DnsCacheReverse.
Import DnsCache DnsCacheShards DnsCacheRun DnsCacheForward.

(** ** What calls write *)

Definition restored (now : Z) (entries : list ReverseSnapshotEntry) : list (IpAddr * ReverseEntry) :=
  (fun e => (r_ip e, mkReverse (r_domain e) (now + r_remaining e)%Z)) <$> filter (fun e => r_remaining e <> 0%Z) entries.

(** The names a call gives to addresses, in order. *)
Definition rwrites (call : Call) : list (IpAddr * ReverseEntry) :=
  match call with
  | Put now d ips ttl _ => rnames now d ips ttl
  | Merge now d f ips ttl _ _ => if decide (single f) then rnames now d ips ttl else []
  | Restore now entries => restored now entries
  | _ => []
  end.

(** The last of them for an address, or what there was before. *)
Definition name_after (old : option ReverseEntry) (l : list (IpAddr * ReverseEntry)) (ip : IpAddr) : option ReverseEntry :=
  foldl (fun acc e => if decide (e.1 = ip) then Some e.2 else acc) old l.

Definition name_step (ip : IpAddr) (old : option ReverseEntry) (call : Call) : option ReverseEntry :=
  match call with Clear => None | _ => name_after old (rwrites call) ip end.

(** The name last given to an address. *)
Definition last_name (calls : list Call) (ip : IpAddr) : option ReverseEntry := foldl (name_step ip) None calls.

Lemma name_after_last l ip old e :
  name_after old l ip = Some e ->
  (exists l1 l2, l = l1 ++ (ip, e) :: l2 /\ ip ∉ l2.*1) \/ (ip ∉ l.*1 /\ old = Some e).
Proof.
  unfold name_after. revert old. induction l as [|[ip0 e0] l IH]; intros old; cbn [foldl].
  - intros ->. right. split; [apply not_elem_of_nil|done].
  - intros [(l1&l2&->&Hn)|[Hn Ho]]%IH; [left; by exists ((ip0, e0) :: l1), l2|]. cbn in Ho.
    destruct (decide (ip0 = ip)) as [->|Hne].
    + injection Ho as <-. left. by exists [], l.
    + right. split; [|done]. rewrite fmap_cons. apply not_elem_of_cons. split; [by apply not_eq_sym|done].
Qed.

Section Reverse.
Context `{LL : LruLib}.
Implicit Types (c : DnsCache) (ss : list (list (IpAddr * ReverseEntry))).

(** ** Lists of writes *)

Lemma rput_all_ok cap l ss : shards_ok cap shard_ip ss -> shards_ok cap shard_ip (rput_all cap l ss).
Proof.
  unfold rput_all. revert ss. induction l as [|e l IH]; intros ss Hok; [done|]. cbn [foldl]. apply IH.
  apply alter_ok; [apply shard_ip_lt|done|]. apply lput_ok; [|done]. apply shards_ok_shard; [apply shard_ip_lt|done].
Qed.

Lemma rput_all_find cap l ss ip e old :
  1 <= cap -> shards_ok cap shard_ip ss -> (forall e, find shard_ip ss ip = Some e -> old = Some e) ->
  find shard_ip (rput_all cap l ss) ip = Some e -> name_after old l ip = Some e.
Proof.
  intros Hcap. unfold rput_all, name_after. revert ss old. induction l as [|[ip0 e0] l IH]; intros ss old Hok Hold Hfind; [by apply Hold|].
  cbn [foldl fst snd] in *. eapply IH; [| |exact Hfind].
  - by apply (rput_all_ok cap [(ip0, e0)]).
  - intros e1 He1. destruct (decide (ip0 = ip)) as [->|Hne].
    + rewrite find_put_same in He1 by (apply shard_ip_lt || done). done.
    + apply find_put_other in He1; [by apply Hold|apply shard_ip_lt|done|by apply not_eq_sym].
Qed.

Definition uses (l : list (IpAddr * ReverseEntry)) (ip : IpAddr) : nat := sum_list ((fun e => same_shard shard_ip e.1 ip) <$> l).

Lemma uses_app l1 l2 ip : uses (l1 ++ l2) ip = uses l1 ip + uses l2 ip.
Proof. unfold uses. rewrite fmap_app. apply sum_list_with_app. Qed.

Lemma rput_all_near cap l ss ip e n :
  shards_ok cap shard_ip ss -> near_in shard_ip ss ip e n -> ip ∉ l.*1 -> n + uses l ip < cap ->
  near_in shard_ip (rput_all cap l ss) ip e (n + uses l ip).
Proof.
  unfold rput_all, uses. revert ss n. induction l as [|[ip0 e0] l IH]; intros ss n Hok Hn Hnot Hcap; [by rewrite Nat.add_0_r|].
  rewrite fmap_cons in Hnot. apply not_elem_of_cons in Hnot as [Hne Hnot]. rewrite fmap_cons in *. cbn [sum_list sum_list_with foldl fst snd] in *.
  rewrite Nat.add_assoc in *. apply IH; [by apply (rput_all_ok cap [(ip0, e0)])| |done|cbn in *; lia].
  apply near_in_put; [apply shard_ip_lt|done..|by apply not_eq_sym|cbn in *; lia].
Qed.

(** The last write of an address is found if the shard has room for the list. *)
Lemma rput_all_written cap l1 l2 ss ip e :
  1 <= cap -> shards_ok cap shard_ip ss -> ip ∉ l2.*1 -> S (uses l2 ip) <= cap ->
  near_in shard_ip (rput_all cap (l1 ++ (ip, e) :: l2) ss) ip e (uses l2 ip).
Proof.
  intros Hcap Hok Hn Hu. unfold rput_all. rewrite foldl_app. cbn [foldl fst snd]. fold (rput_all cap l1 ss).
  assert (Hok1 : shards_ok cap shard_ip (rput_all cap l1 ss)) by by apply rput_all_ok.
  apply (rput_all_near cap l2 _ ip e 0); [by apply (rput_all_ok cap [(ip, e)])| |done|lia].
  apply near_in_put_same; [apply shard_ip_lt|done..].
Qed.

(** ** Calls *)

Lemma call_rl c call :
  cache_ok c ->
  match call with
  | Reverse now ip =>
      rl (call_step c call) = alter (touch ip) (shard_ip ip) (rl c) \/
      rl (call_step c call) = alter (remove_key ip) (shard_ip ip) (rl c) /\ exists e, rev_of c ip = Some e /\ (expire_at e <= now)%Z
  | Clear => rl (call_step c call) = (fun _ => []) <$> rl c
  | ReverseSnapshot now => rl (call_step c call) = filter (fun e => (expire_at e.2 <=? now)%Z = false) <$> rl c
  | _ => rl (call_step c call) = rput_all (rev_shard_cap c) (rwrites call) (rl c)
  end.
Proof.
  intros Hok. destruct call as [now d|now d ips ttl source|now d f' ips ttl source neg|now ip| |now|now|now es]; cbn [call_step rwrites].
  - by apply get_lookup_steps.
  - by apply put_steps.
  - destruct (decide (single f')) as [Hs|Hs]; [by apply merge_steps|by rewrite merge_refused].
  - destruct (reverse_lookup_steps c now ip Hok) as (_&_&Hsteps). destruct (rev_of c ip) as [e|]; [|left; apply Hsteps].
    destruct (Z.ltb_spec now (expire_at e)); [left; apply Hsteps|right]. split; [apply Hsteps|by exists e].
  - by apply clear_steps.
  - by apply snapshot_steps.
  - by apply reverse_snapshot_steps.
  - by apply restore_steps.
Qed.

Lemma call_name c call ip e old :
  cache_ok c -> (forall e, rev_of c ip = Some e -> old = Some e) -> rev_of (call_step c call) ip = Some e -> name_step ip old call = Some e.
Proof.
  intros Hok Hold Hrev. pose proof (call_rl c call Hok) as Hrl. unfold rev_of in *.
  assert (Hput : rl (call_step c call) = rput_all (rev_shard_cap c) (rwrites call) (rl c) -> name_after old (rwrites call) ip = Some e).
  { intros Heq. rewrite Heq in Hrev. eapply rput_all_find; [exact (ok_rcap c Hok)|apply Hok|exact Hold|done]. }
  destruct call as [now d|now d ips ttl source|now d f' ips ttl source neg|now ip'| |now|now|now es]; try (by apply Hput); cbn [name_step rwrites].
  - destruct Hrl as [Hrl|[Hrl _]]; rewrite Hrl in Hrev.
    + erewrite find_touch in Hrev; [by apply Hold|apply shard_ip_lt|apply Hok].
    + erewrite find_remove in Hrev; [|apply shard_ip_lt|apply Hok]. destruct (decide _); [done|by apply Hold].
  - unfold find in Hrev. rewrite Hrl, shard_fmap in Hrev; [done|apply shard_ip_lt|apply Hok].
  - rewrite Hrl in Hrev. pose proof (find_sweep _ _ shard_ip_lt (fun e => (expire_at e <=? now)%Z = false) ip (rl c) (ok_rev c Hok)) as Hsw.
    pose proof (eq_trans (eq_sym Hsw) Hrev) as Hfind. apply bind_Some in Hfind as (e0&He0&Hd). destruct (decide _); [|done].
    injection Hd as ->. by apply Hold.
Qed.

Lemma new_rev capacity ip : rev_of (new capacity) ip = None.
Proof.
  destruct (rev_of (new capacity) ip) as [e|] eqn:He; [|done]. unfold rev_of, find in He.
  destruct (ok_rev _ (new_ok capacity)) as [Hl _]. pose proof (shard_lookup shard_ip shard_ip_lt _ ip Hl) as Hs. unfold rl in Hs at 1.
  rewrite list_lookup_fmap in Hs. apply fmap_Some in Hs as (s&Hs&Heq). cbn [reverse new] in Hs. apply lookup_replicate in Hs as [-> _].
  by rewrite Heq, iter_unbounded in He.
Qed.

Lemma run_name capacity calls ip e : rev_of (run (new capacity) calls) ip = Some e -> last_name calls ip = Some e.
Proof.
  revert e. induction calls as [|call calls IH] using rev_ind; intros e He.
  - unfold run in He. cbn [foldl] in He. by rewrite new_rev in He.
  - unfold last_name. rewrite foldl_app. cbn [foldl]. fold (last_name calls ip). rewrite run_snoc in He.
    eapply call_name; [|apply IH|exact He]. by apply cache_run_ok, new_ok.
Qed.

(** ** How long a name is held *)

Definition rev_use (ip : IpAddr) (call : Call) : nat :=
  match call with Reverse _ ip' => same_shard shard_ip ip' ip | _ => uses (rwrites call) ip end.

(** The addresses of the shard that calls write or read. *)
Definition rev_uses (ip : IpAddr) (calls : list Call) : nat := sum_list (rev_use ip <$> calls).

(** The call leaves the name of the address. *)
Definition spares (ip : IpAddr) (call : Call) : Prop := call <> Clear /\ ip ∉ (rwrites call).*1.

Lemma near_rev c ip e n : cache_ok c -> near_in shard_ip (rl c) ip e n -> rev_of c ip = Some e.
Proof. intros Hok Hn. eapply near_in_find; [apply shard_ip_lt|apply Hok|exact Hn]. Qed.

Lemma rev_held_step c call ip e n t :
  cache_ok c -> spares ip call -> not_after t call -> (t < expire_at e)%Z ->
  near_in shard_ip (rl c) ip e n -> n + rev_use ip call < rev_shard_cap c ->
  near_in shard_ip (rl (call_step c call)) ip e (n + rev_use ip call).
Proof.
  intros Hok [Hclear Hs] Ht Hexp Hn Hcap. pose proof (call_rl c call Hok) as Hrl.
  assert (Hput : rl (call_step c call) = rput_all (rev_shard_cap c) (rwrites call) (rl c) -> rev_use ip call = uses (rwrites call) ip ->
    near_in shard_ip (rl (call_step c call)) ip e (n + rev_use ip call)).
  { intros Heq Hu. rewrite Heq, Hu in *. apply rput_all_near; [apply Hok|done..]. }
  destruct call as [now d|now d ips ttl source|now d f' ips ttl source neg|now ip'| |now|now|now es]; try (by apply Hput); cbn [rev_use not_after] in *.
  - destruct Hrl as [Hrl|[Hrl (e0&He0&Hdead)]]; rewrite Hrl.
    + eapply near_in_touch; [apply shard_ip_lt|apply Hok|done].
    + eapply near_mono; [eapply near_in_remove; [apply shard_ip_lt|apply Hok|exact Hn|]|lia].
      intros ->. rewrite (near_rev c ip e n Hok Hn) in He0. injection He0 as <-. lia.
  - rewrite Hrl. change (uses (rwrites (ReverseSnapshot now)) ip) with 0. rewrite Nat.add_0_r. assert (Hd : (expire_at e <=? now)%Z = false) by (apply Z.leb_gt; lia).
    exact (near_in_sweep _ _ shard_ip_lt (fun e => (expire_at e <=? now)%Z = false) ip e n (rl c) (ok_rev c Hok) Hn Hd).
Qed.

Lemma rev_held_run calls c ip e n t :
  cache_ok c -> Forall (spares ip) calls -> Forall (not_after t) calls -> (t < expire_at e)%Z ->
  near_in shard_ip (rl c) ip e n -> n + rev_uses ip calls < rev_shard_cap c ->
  near_in shard_ip (rl (run c calls)) ip e (n + rev_uses ip calls).
Proof.
  revert c n. unfold rev_uses. induction calls as [|call calls IH]; intros c n Hok Hs Ht Hexp Hn Hcap; [by rewrite Nat.add_0_r|].
  apply Forall_cons in Hs as [Hs1 Hs], Ht as [Ht1 Ht]. rewrite fmap_cons in *. cbn [sum_list sum_list_with run foldl] in *.
  destruct (call_ok c call Hok) as [Hok1 [_ Hcap1]]. rewrite Nat.add_assoc.
  apply (IH (call_step c call)); try done; [|rewrite Hcap1; cbn in *; lia]. eapply rev_held_step; try done. cbn in *. lia.
Qed.

(** The state right after the write. *)
Lemma rev_held_written c w ip e :
  cache_ok c -> name_after None (rwrites w) ip = Some e -> rev_use ip w <= rev_shard_cap c ->
  exists n, S n <= rev_use ip w /\ near_in shard_ip (rl (call_step c w)) ip e n.
Proof.
  intros Hok Hw Hcap. pose proof (call_rl c w Hok) as Hrl.
  assert (Heq : rl (call_step c w) = rput_all (rev_shard_cap c) (rwrites w) (rl c) /\ rev_use ip w = uses (rwrites w) ip)
    by (by destruct w).
  destruct Heq as [Heq Hu]. rewrite Hu in *. destruct (name_after_last _ _ _ _ Hw) as [(l1&l2&Hl&Hn)|[_ ?]]; [|done].
  assert (Hone : uses (rwrites w) ip = uses l1 ip + S (uses l2 ip)).
  { rewrite Hl, uses_app. f_equal. unfold uses. rewrite fmap_cons. cbn. unfold same_shard. by rewrite decide_True. }
  exists (uses l2 ip). split; [lia|]. rewrite Heq, Hl. apply rput_all_written; [apply Hok..|done|lia].
Qed.

(** C32: the name recovered from an address is the name last given to it,
    and only while that is fresh, at least ten minutes after an answer. It is
    recovered for certain as long as no call replaces it and its shard is not
    used for more addresses than its cap, from the write on. *)
Theorem dns_reverse_exact (capacity : Z) (calls : list Call) (now : Z) (ip : IpAddr) :
  let answer := (reverse_lookup (run (new capacity) calls) now ip).1 in
  (forall name, answer = Some name -> exists e, last_name calls ip = Some e /\ domain e = name /\ (now < expire_at e)%Z) /\
  (forall early w later e,
     calls = early ++ w :: later -> name_after None (rwrites w) ip = Some e -> Forall (spares ip) later ->
     Forall (not_after now) later -> (now < expire_at e)%Z -> rev_uses ip (w :: later) <= rev_shard_cap (new capacity) ->
     answer = Some (domain e)).
Proof.
  intros answer. pose proof (proj1 (cache_run_ok (new capacity) calls (new_ok capacity))) as Hok.
  destruct (reverse_lookup_steps _ now ip Hok) as (_&_&Hsteps). fold answer in Hsteps. split.
  - intros name Hname. destruct (rev_of _ ip) as [e|] eqn:He; [|destruct Hsteps; congruence].
    destruct (Z.ltb_spec now (expire_at e)); destruct Hsteps as [Ha _]; rewrite Ha in Hname; [|done]. injection Hname as <-.
    exists e. split; [by eapply run_name|done].
  - intros early w later e Hcalls Hw Hs Ht Hexp Huse.
    destruct (cache_run_ok (new capacity) early (new_ok capacity)) as [Hok1 [_ Hcap1]]. destruct (call_ok _ w Hok1) as [Hok2 [_ Hcap2]].
    assert (Hrun : run (new capacity) calls = run (call_step (run (new capacity) early) w) later) by (rewrite Hcalls; unfold run; by rewrite foldl_app).
    unfold rev_uses in Huse. rewrite fmap_cons in Huse. cbn [sum_list sum_list_with] in Huse.
    destruct (rev_held_written _ w ip e Hok1 Hw) as (n&Hn&Hnear); [rewrite Hcap1; cbn in *; lia|].
    assert (Hheld : near_in shard_ip (rl (run (call_step (run (new capacity) early) w) later)) ip e (n + rev_uses ip later)).
    { apply (rev_held_run later _ ip e n now Hok2 Hs Ht Hexp Hnear). rewrite Hcap2, Hcap1. unfold rev_uses. cbn in *. lia. }
    rewrite <- Hrun in Hheld. rewrite (near_rev _ _ _ _ Hok Hheld), (proj2 (Z.ltb_lt _ _) Hexp) in Hsteps. apply Hsteps.
Qed.

(** ** Snapshots *)

Definition hashed (k cap : nat) ss : Prop :=
  forall j l, ss !! j = Some l -> NoDup l.*1 /\ length l <= cap /\ forall ip, ip ∈ l.*1 -> shard_ip ip = k + j.

Lemma hashed_cons k cap l ss : hashed k cap (l :: ss) -> (NoDup l.*1 /\ length l <= cap /\ forall ip, ip ∈ l.*1 -> shard_ip ip = k) /\ hashed (S k) cap ss.
Proof.
  intros Hh. split.
  - destruct (Hh 0 l eq_refl) as (?&?&Hk). split_and!; [done..|]. intros ip Hip. rewrite (Hk ip Hip). lia.
  - intros j l' Hj. destruct (Hh (S j) l' Hj) as (?&?&Hk). split_and!; [done..|]. intros ip Hip. rewrite (Hk ip Hip). lia.
Qed.

Lemma hashed_join k cap ss ip : hashed k cap ss -> ip ∈ (mjoin ss).*1 -> k <= shard_ip ip.
Proof.
  intros Hh ([ip' e]&->&Hin)%list_elem_of_fmap. apply list_elem_of_join in Hin as (l&Hin&Hl). apply list_elem_of_lookup_1 in Hl as [j Hj].
  destruct (Hh j l Hj) as (_&_&Hk). apply (list_elem_of_fmap_2 fst) in Hin. cbn in *. rewrite (Hk ip' Hin). lia.
Qed.

Lemma hashed_NoDup k cap ss : hashed k cap ss -> NoDup (mjoin ss).*1.
Proof.
  revert k. induction ss as [|l ss IH]; intros k Hh; [constructor|]. apply hashed_cons in Hh as [(Hd&_&Hk) Hh].
  change (mjoin (l :: ss)) with (l ++ mjoin ss). rewrite fmap_app. apply NoDup_app. split_and!; [done| |by eapply IH].
  intros ip Hip Hin. apply Hk in Hip. eapply hashed_join in Hin; [|done]. lia.
Qed.

Lemma hashed_count k cap ss i : hashed k cap ss -> length (filter (fun e => shard_ip e.1 = i) (mjoin ss)) <= cap.
Proof.
  revert k. induction ss as [|l ss IH]; intros k Hh; [cbn; lia|]. apply hashed_cons in Hh as [(_&Hlen&Hk) Hh].
  change (mjoin (l :: ss)) with (l ++ mjoin ss). rewrite filter_app, length_app. destruct (decide (k = i)) as [->|Hne].
  - assert (Hnil : filter (fun e => shard_ip e.1 = i) (mjoin ss) = []).
    { apply filter_false_in. intros e He Heq. apply (list_elem_of_fmap_2 fst) in He. eapply hashed_join in He; [|done]. cbn in He. lia. }
    rewrite Hnil. cbn. pose proof (length_filter (fun e : IpAddr * ReverseEntry => shard_ip e.1 = i) l). lia.
  - assert (Hnil : filter (fun e => shard_ip e.1 = i) l = []).
    { apply filter_false_in. intros e He Heq. apply (list_elem_of_fmap_2 fst), Hk in He. cbn in *. congruence. }
    rewrite Hnil. cbn. by eapply IH.
Qed.

Lemma uses_filter l ip : uses l ip = length (filter (fun e => shard_ip e.1 = shard_ip ip) l).
Proof.
  unfold uses. induction l as [|e l IH]; [done|]. rewrite fmap_cons, filter_cons. cbn [sum_list sum_list_with]. unfold same_shard at 1.
  destruct (decide (shard_ip e.1 = shard_ip ip)); cbn in *; lia.
Qed.

(** The live entries of a cache. *)
Definition live c (now : Z) : list (IpAddr * ReverseEntry) := mjoin (filter (fun e => (expire_at e.2 <=? now)%Z = false) <$> rl c).

Lemma live_hashed c now :
  cache_ok c -> hashed 0 (rev_shard_cap c) (filter (fun e => (expire_at e.2 <=? now)%Z = false) <$> rl c).
Proof.
  intros Hok j l Hj. rewrite list_lookup_fmap in Hj. apply fmap_Some in Hj as (l0&Hl0&->). destruct (ok_rev c Hok) as [_ Hs].
  destruct (Hs j l0 Hl0) as (Hd&Hlen&Hk). split_and!; [by apply filter_keys_NoDup| |].
  - etransitivity; [apply length_filter|done].
  - intros ip ([ip' e]&->&[_ Hin]%list_elem_of_filter)%list_elem_of_fmap. apply Hk. by apply (list_elem_of_fmap_2 fst) in Hin.
Qed.

Lemma elem_of_live c now ip e : cache_ok c -> (ip, e) ∈ live c now <-> rev_of c ip = Some e /\ (now < expire_at e)%Z.
Proof.
  intros Hok. destruct (ok_rev c Hok) as [Hlen Hs]. unfold live, rev_of, find. rewrite list_elem_of_join.
  rewrite assoc_elem by (eapply find_NoDup; [apply shard_ip_lt|apply Hok]). split.
  - intros (l&Hin&Hl). apply list_elem_of_fmap in Hl as (l0&->&Hl0). apply list_elem_of_filter in Hin as [Hexp Hin].
    apply list_elem_of_lookup_1 in Hl0 as [j Hj]. destruct (Hs j l0 Hj) as (_&_&Hk).
    assert (Hip : shard_ip ip = j) by (apply Hk; by apply (list_elem_of_fmap_2 fst) in Hin). subst j.
    unfold shard. rewrite Hj. split; [done|]. cbn in Hexp. apply Z.leb_gt in Hexp. lia.
  - intros [Hin Hexp]. eexists. split; [|apply list_elem_of_fmap; eexists; split; [reflexivity|]].
    + apply list_elem_of_filter. split; [|exact Hin]. apply Z.leb_gt. cbn. lia.
    + eapply list_elem_of_lookup_2. apply shard_lookup; [apply shard_ip_lt|done].
Qed.

(** What is restored from a snapshot: the live entries, moved in time. *)
Definition moved (t t' : Z) (e : IpAddr * ReverseEntry) : IpAddr * ReverseEntry :=
  (e.1, mkReverse (domain e.2) (t' + (expire_at e.2 - t))).

Lemma restored_snapshot c t t' :
  cache_ok c -> restored t' (reverse_snapshot c t).1 ≡ₚ moved t t' <$> live c t.
Proof.
  intros Hok. unfold restored, reverse_snapshot. cbn [fst].
  rewrite (proj1 (sweep_fmap _ _ (fun e => expire_at e <=? t)%Z _ (ok_rev _ Hok))). fold (rl c) (live c t).
  rewrite merge_sort_Permutation, filter_true_in.
  - rewrite <- list_fmap_compose. apply reflexive_eq. apply list_fmap_ext. intros i [ip e] Hi. apply list_elem_of_lookup_2, elem_of_live in Hi as [_ ?]; [|done].
    unfold moved, reverse_entry, saturating_duration_since. cbn. do 2 f_equal. lia.
  - intros e (e0&->&He0)%list_elem_of_fmap. destruct e0 as [ip e0]. apply elem_of_live in He0 as [_ ?]; [|done].
    unfold reverse_entry, saturating_duration_since. cbn. lia.
Qed.

(** Addresses that fit their shard are all held. *)
Lemma rput_all_assoc cap l ss ip :
  1 <= cap -> shards_ok cap shard_ip ss -> find shard_ip ss ip = None -> NoDup l.*1 -> uses l ip <= cap ->
  find shard_ip (rput_all cap l ss) ip = assoc ip l.
Proof.
  intros Hcap Hok Hnone Hd Huse. destruct (assoc ip l) as [e|] eqn:Ha.
  - apply assoc_elem, list_elem_of_split in Ha as (l1&l2&->); [|done]. rewrite fmap_app, fmap_cons in Hd.
    apply NoDup_app in Hd as (_&_&[Hn _]%NoDup_cons). rewrite uses_app in Huse.
    assert (Hone : uses ((ip, e) :: l2) ip = S (uses l2 ip)) by (unfold uses; rewrite fmap_cons; cbn; unfold same_shard; by rewrite decide_True).
    eapply near_in_find; [apply shard_ip_lt|by apply rput_all_ok|]. apply rput_all_written; [done..|lia].
  - destruct (find shard_ip (rput_all cap l ss) ip) as [e|] eqn:He; [|done]. exfalso. apply assoc_None in Ha. apply Ha.
    eapply (rput_all_find cap l ss ip e None) in He; [|done..|congruence]. apply name_after_last in He as [(l1&l2&->&_)|[_ ?]]; [|done].
    rewrite fmap_app, fmap_cons. apply elem_of_app. right. by left.
Qed.

Lemma moved_assoc t t' ip l :
  assoc ip (moved t t' <$> l) = (fun e => mkReverse (domain e) (t' + (expire_at e - t))) <$> assoc ip l.
Proof. induction l as [|[ip' e] l IH]; [done|]. cbn. by destruct (decide (ip = ip')). Qed.

Lemma restored_rev c c0 t t' ip :
  cache_ok c -> cache_ok c0 -> rev_shard_cap c0 = rev_shard_cap c -> rev_of c0 ip = None ->
  rev_of (restore_reverse c0 t' (reverse_snapshot c t).1) ip =
  (e ← rev_of c ip; if (t <? expire_at e)%Z then Some (mkReverse (domain e) (t' + (expire_at e - t))) else None).
Proof.
  intros Hok Hok0 Hcap Hempty. destruct (restore_steps c0 t' (reverse_snapshot c t).1 Hok0) as (_&_&_&Hrl).
  fold (restored t' (reverse_snapshot c t).1) in Hrl. set (l := restored _ _) in *.
  pose proof (restored_snapshot c t t' Hok) as Hl. fold l in Hl. rewrite Hcap in Hrl.
  assert (Hkeys : (moved t t' <$> live c t).*1 = (live c t).*1) by (rewrite <- list_fmap_compose; by apply list_fmap_ext).
  assert (Hdl : NoDup (live c t).*1) by (eapply hashed_NoDup; by apply live_hashed).
  assert (Hd : NoDup l.*1) by (rewrite Hl, Hkeys; done).
  assert (Huse : uses l ip <= rev_shard_cap c).
  { rewrite uses_filter, Hl. etransitivity; [|apply (hashed_count 0 _ _ (shard_ip ip) (live_hashed c t Hok))]. fold (live c t).
    clear. induction (live c t) as [|e es IH]; [done|]. rewrite fmap_cons, !filter_cons. cbn [fst moved].
    destruct (decide (shard_ip e.1 = shard_ip ip)); cbn; lia. }
  unfold rev_of at 1. rewrite Hrl, rput_all_assoc; [|apply Hok|rewrite <- Hcap; apply Hok0|done..].
  assert (Hassoc : assoc ip l = assoc ip (moved t t' <$> live c t)).
  { apply option_eq. intros v. rewrite !assoc_elem by (done || by rewrite Hkeys). by rewrite Hl. }
  rewrite Hassoc, moved_assoc. apply option_eq. intros v. rewrite fmap_Some, bind_Some. split.
  - intros (e&Ha&->). apply assoc_elem, elem_of_live in Ha as [He Hlive]; [|done..]. exists e. split; [done|]. by rewrite (proj2 (Z.ltb_lt _ _) Hlive).
  - intros (e&He&Hv). destruct (Z.ltb_spec t (expire_at e)); [|done]. injection Hv as <-. exists e. split; [|done].
    apply assoc_elem; [done|]. by apply elem_of_live.
Qed.

(** Names survive a restart. A cache of the same capacity into which a
    snapshot of the names is restored answers, any time after that, as the
    old one would have the same time after the snapshot. *)
Theorem dns_reverse_roundtrip (capacity : Z) (calls : list Call) (t t' x : Z) (ip : IpAddr) :
  (0 <= x)%Z ->
  let c := run (new capacity) calls in
  (reverse_lookup (restore_reverse (new capacity) t' (reverse_snapshot c t).1) (t' + x) ip).1 = (reverse_lookup c (t + x) ip).1.
Proof.
  intros Hx c. destruct (cache_run_ok (new capacity) calls (new_ok capacity)) as [Hok [_ Hcap]]. fold c in Hok, Hcap.
  pose proof (restored_rev c (new capacity) t t' ip Hok (new_ok capacity) (eq_sym Hcap) (new_rev capacity ip)) as Hrev.
  destruct (restore_steps (new capacity) t' (reverse_snapshot c t).1 (new_ok capacity)) as (Hok1&_).
  set (c1 := restore_reverse _ _ _) in *. clearbody c1. destruct (reverse_lookup_steps c1 (t' + x)%Z ip Hok1) as (_&_&H1). destruct (reverse_lookup_steps c (t + x)%Z ip Hok) as (_&_&H2).
  rewrite Hrev in H1. destruct (rev_of c ip) as [e|]; cbn in H1; [|destruct H1 as [-> _], H2 as [-> _]; done].
  destruct (Z.ltb_spec t (expire_at e)); cbn in H1.
  - replace (t' + x <? t' + (expire_at e - t))%Z with (t + x <? expire_at e)%Z in H1
      by (destruct (Z.ltb_spec (t + x) (expire_at e)), (Z.ltb_spec (t' + x) (t' + (expire_at e - t))); lia || done).
    destruct (t + x <? expire_at e)%Z; destruct H1 as [-> _], H2 as [-> _]; done.
  - destruct (Z.ltb_spec (t + x) (expire_at e)); [lia|]. destruct H1 as [-> _], H2 as [-> _]. done.
Qed.

End Reverse.

(** *** Witnesses *)

Lemma dns_reverse_exact_witness :
  (reverse_lookup (run (new 0) (demo_calls ++ [Get (6 * SECOND) (b! "b.com"); Reverse (7 * SECOND) (V4 2)])) (599 * SECOND) (V4 1)).1 = Some (b! "a.com").
Proof.
  destruct (dns_reverse_exact 0 (demo_calls ++ [Get (6 * SECOND) (b! "b.com"); Reverse (7 * SECOND) (V4 2)]) (599 * SECOND) (V4 1)) as [_ Hheld].
  apply (Hheld [] (Merge 0 (b! "A.com") IPV4 [V4 1; V4 2; V4 1] (100 * SECOND) None NegNone) (tail demo_calls ++ [Get (6 * SECOND) (b! "b.com"); Reverse (7 * SECOND) (V4 2)])
    (mkReverse (b! "a.com") (600 * SECOND))).
  - reflexivity.
  - vm_compute. reflexivity.
  - repeat constructor; try discriminate; apply not_elem_of_nil.
  - repeat constructor; vm_compute; discriminate.
  - vm_compute. reflexivity.
  - vm_compute. lia.
Defined.

Lemma dns_reverse_roundtrip_witness :
  (reverse_lookup (restore_reverse (new 0) 0 (reverse_snapshot (run (new 0) demo_calls) (9 * SECOND)).1) (0 + 100 * SECOND) (V4 2)).1 = Some (b! "a.com").
Proof.
  rewrite (dns_reverse_roundtrip 0 demo_calls (9 * SECOND) 0 (100 * SECOND) (V4 2)); [|vm_compute; discriminate]. vm_compute. reflexivity.
Defined.

End DnsCacheReverse.
