(* ===== verification/HostNames.v ===== *)
(** * Addresses and host names as text (crates/meow-common/src/metadata.rs)

    [IpAddr::from_str] of the standard library, and the host names the
    program accepts. *)

From S2P Require Import Prelude Strings Bits Ip.

Module HostNames.
Local Open Scope Z_scope.

(** ** Parsing an address

    A parser takes the rest of the input and gives a value and what is left;
    on failure the input is not consumed. *)

Notation Parser A := (bytes -> option (A * bytes)) (only parsing).

Definition read_given_char (c : ascii) : Parser unit := fun s =>
  match s with d :: s => if bool_decide (d = c) then Some (tt, s) else None | [] => None end.

Definition to_digit (radix : Z) (c : ascii) : option Z :=
  let v := byte_z c in
  let d :=
    if (48 <=? v) && (v <=? 57) then v - 48
    else if (97 <=? v) && (v <=? 122) then v - 97 + 10
    else if (65 <=? v) && (v <=? 90) then v - 65 + 10
    else radix in
  if d <? radix then Some d else None.

(** The digits at the front; [None] with more than [max_digits]. *)
Fixpoint read_digits (radix : Z) (more : nat) (acc : Z) (count : nat) (s : bytes) : option (Z * nat * bytes) :=
  match s with
  | c :: rest =>
      match to_digit radix c with
      | Some d => match more with O => None | S more => read_digits radix more (acc * radix + d) (S count) rest end
      | None => Some (acc, count, s)
      end
  | [] => Some (acc, count, [])
  end.

Definition read_number (radix : Z) (max_digits : nat) (allow_zero_prefix : bool) (max : Z) : Parser Z := fun s =>
  '(v, count, rest) ← read_digits radix max_digits 0 0 s;
  let leading_zero := bool_decide (head s = Some "0"%char) in
  if (count =? 0)%nat then None
  else if negb allow_zero_prefix && leading_zero && (1 <? count)%nat then None
  else if v <=? max then Some (v, rest) else None.

Definition read_separator {A} (sep : ascii) (index : nat) (inner : Parser A) : Parser A := fun s =>
  if (0 <? index)%nat then '(_, s) ← read_given_char sep s; inner s else inner s.

(** The groups of an address from group [i] on. *)
Fixpoint read_octets (n i : nat) (acc : Z) : Parser Z := fun s =>
  match n with
  | O => Some (acc, s)
  | S n => '(v, s) ← read_separator "." i (read_number 10 3 false 255) s; read_octets n (S i) (acc * 256 + v) s
  end.

Definition read_ipv4_addr : Parser Z := read_octets 4 0 0.

(** [read_groups] with [more] groups of the slice to go: the groups read,
    whether they end in an IPv4 address, and the rest. *)
Fixpoint read_groups (more i : nat) (groups : list Z) (s : bytes) : list Z * bool * bytes :=
  match more with
  | O => (groups, false, s)
  | S more =>
      match (if (0 <? more)%nat then read_separator ":" i read_ipv4_addr s else None) with
      | Some (a, s) => (groups ++ [a / 65536; a `mod` 65536], true, s)
      | None =>
          match read_separator ":" i (read_number 16 4 true 65535) s with
          | Some (g, s) => read_groups more (S i) (groups ++ [g]) s
          | None => (groups, false, s)
          end
      end
  end.

Definition groups_addr (groups : list Z) : Z := foldl (fun acc g => acc * 65536 + g) 0 groups.

Definition read_ipv6_addr : Parser Z := fun s =>
  let '(head, head_ipv4, s) := read_groups 8 0 [] s in
  if (length head =? 8)%nat then Some (groups_addr head, s)
  else if head_ipv4 then None
  else
    '(_, s) ← read_given_char ":" s;
    '(_, s) ← read_given_char ":" s;
    let '(tail, _, s) := read_groups (8 - (length head + 1)) 0 [] s in
    Some (groups_addr (head ++ replicate (8 - length head - length tail) 0 ++ tail), s).

(** [parse::<IpAddr>()], which must use the whole input. *)
Definition parse_ip_addr (s : bytes) : option IpAddr :=
  match read_ipv4_addr s with
  | Some (a, rest) => if bool_decide (rest = []) then Some (V4 a) else None
  | None => '(a, rest) ← read_ipv6_addr s; if bool_decide (rest = []) then Some (V6 a) else None
  end.

(** ** Host names *)

Definition metadata_ip_literal (s : bytes) : option IpAddr :=
  match parse_ip_addr s with
  | Some a => Some a
  | None => s ← strip_prefix (b! "[") s; s ← strip_suffix (b! "]") s; parse_ip_addr s
  end.

Definition host_byte (b : ascii) : bool :=
  is_ascii_alphanumeric b || bool_decide (b = "-"%char) || bool_decide (b = "_"%char).

Definition label_ok (label : bytes) : bool :=
  negb (bool_decide (label = [])) && (length label <=? 63)%nat && forallb host_byte label.

(** The flag is read after all labels passed, so it has seen every byte. *)
Definition is_valid_host (host : bytes) : bool :=
  if bool_decide (is_Some (metadata_ip_literal host)) then true
  else
    let name := default host (strip_suffix (b! ".") host) in
    if bool_decide (name = []) || (253 <? length name)%nat then false
    else
      let labels := split dot name in
      forallb label_ok labels && existsb (existsb (fun b => negb (is_ascii_digit b))) labels.

Lemma parse_ip_tests :
  parse_ip_addr (b! "203.0.113.7") = Some (V4 3405803783) /\ parse_ip_addr (b! "1.2.3.04") = None /\
  parse_ip_addr (b! "1.2.3") = None /\ parse_ip_addr (b! "::") = Some (V6 0) /\
  parse_ip_addr (b! "2001:db8::1") = Some (V6 42540766411282592856903984951653826561) /\
  parse_ip_addr (b! "::ffff:1.2.3.4") = Some (V6 281470698652420) /\ parse_ip_addr (b! "1::2::3") = None /\
  parse_ip_addr (b! "1:2:3:4:5:6:7:8") = Some (V6 5192455318486707404433266433261576) /\
  parse_ip_addr (b! "1:2:3:4:5:6:7:8:9") = None /\ is_valid_host (b! "a@evil.com") = false /\
  is_valid_host (b! "2130706433") = false /\ is_valid_host (b! "Example.com.") = true /\ is_valid_host (b! "[::1]") = true.
Proof. vm_compute. done. Qed.

End HostNames.
