(* ===== verification/Sniffer.v ===== *)
(** * Names read from the first bytes of a connection

    The server name of a TLS ClientHello
    (crates/meow-common/src/sniffer/tls.rs), the Host header of an HTTP
    request (http.rs), and what the listener does with the name
    (crates/meow-listener/src/sniffer.rs). The outer [option] of the parser
    is a panic. The httparse crate is a parameter: the headers it finds, if
    the bytes look like a request. *)

From stdpp Require Import gmap.
From S2P Require Import Prelude Strings Bits Ip Metadata HostNames Vec Trie TrieSealed DomainTrie TrieSpec.

Module Sniffer.
Import DomainTrie Sealed HostNames Metadata.

(** ** Slices *)

(** [s[i]], which panics out of range. *)
Definition at_byte (s : bytes) (i : nat) : option Z := byte_z <$> s !! i.

(** [u16::from_be_bytes([s[i], s[i + 1]])]. *)
Definition be16 (s : bytes) (i : nat) : option Z := a ← at_byte s i; b ← at_byte s (i + 1); Some (a * 256 + b)%Z.

(** [s.get(a..b)]. *)
Definition get_range (s : bytes) (a b : nat) : option bytes :=
  if (a <=? b) && (b <=? length s) then Some (take (b - a) (drop a s)) else None.

(** [get(..)?] on an answer that may be missing. *)
Definition try_get {A B} (o : option A) (f : A -> option (option B)) : option (option B) :=
  match o with Some x => f x | None => Some None end.

Definition lower_name (s : bytes) : bytes := if has_uppercase s then to_ascii_lowercase s else s.

(** ** TLS *)

(** One name of the list. *)
Definition host_name (name : bytes) : option bytes :=
  if negb (from_utf8_ok name) then None else if negb (is_valid_host name) then None else Some (lower_name name).

Fixpoint name_loop (fuel : nat) (list : bytes) (pos : nat) : option (option bytes) :=
  if pos + 3 <=? length list then
    match fuel with
    | 0 => None
    | S fuel =>
        name_type ← at_byte list pos;
        name_len ← be16 list (pos + 1);
        let pos := pos + 3 in
        if (name_type =? 0)%Z then try_get (get_range list pos (pos + Z.to_nat name_len)) (fun name => Some (host_name name))
        else name_loop fuel list (pos + Z.to_nat name_len)
    end
  else Some None.

Definition parse_sni_extension (data : bytes) : option (option bytes) :=
  if length data <? 2 then Some None
  else
    list_len ← be16 data 0;
    try_get (get_range data 2 (2 + Z.to_nat list_len)) (fun list => name_loop (length list) list 0).

Fixpoint ext_loop (fuel : nat) (hello : bytes) (ext_end pos : nat) : option (option bytes) :=
  if (pos + 4 <=? ext_end) && (pos + 4 <=? length hello) then
    match fuel with
    | 0 => None
    | S fuel =>
        ext_type ← be16 hello pos;
        ext_data_len ← be16 hello (pos + 2);
        let pos := pos + 4 in
        if (ext_type =? 0)%Z then try_get (get_range hello pos (pos + Z.to_nat ext_data_len)) parse_sni_extension
        else ext_loop fuel hello ext_end (pos + Z.to_nat ext_data_len)
    end
  else Some None.

(** The ClientHello after its version and random. *)
Definition sniff_hello (hello : bytes) : option (option bytes) :=
  if length hello <? 34 then Some None
  else
    let pos := 34 in
    try_get (at_byte hello pos) (fun session_id_len =>
    let pos := pos + (1 + Z.to_nat session_id_len) in
    try_get (at_byte hello pos) (fun cs1 =>
    try_get (at_byte hello (pos + 1)) (fun cs2 =>
    let pos := pos + (2 + Z.to_nat (cs1 * 256 + cs2)) in
    try_get (at_byte hello pos) (fun comp_len =>
    let pos := pos + (1 + Z.to_nat comp_len) in
    if length hello <? pos + 2 then Some None
    else
      ext_len ← be16 hello pos;
      let pos := pos + 2 in
      ext_loop (length hello) hello (pos + Z.to_nat ext_len) pos)))).

Definition sniff_tls (buf : bytes) : option (option bytes) :=
  if length buf <? 5 then Some None
  else
    content_type ← at_byte buf 0;
    if negb (content_type =? 0x16)%Z then Some None
    else
      record_len ← be16 buf 3;
      try_get (get_range buf 5 (5 + Z.to_nat record_len)) (fun record =>
      if length record <? 4 then Some None
      else
        handshake_type ← at_byte record 0;
        if negb (handshake_type =? 1)%Z then Some None
        else
          l1 ← at_byte record 1;
          l2 ← at_byte record 2;
          l3 ← at_byte record 3;
          let handshake_len := Z.lor (Z.lor (Z.shiftl l1 16) (Z.shiftl l2 8)) l3 in
          try_get (get_range record 4 (4 + Z.to_nat handshake_len)) sniff_hello).

(** ** HTTP *)

(** [Request::parse] with room for 32 headers: their names and values, also
    of a partial request; [None] for an error. *)
Class HttpParse := { http_headers : bytes -> option (list (bytes * bytes)) }.

Definition header_host (value : bytes) : option bytes :=
  if negb (from_utf8_ok value) then None
  else
    let s := trim value in
    host ← match strip_prefix (b! "[") s with
           | Some rest => fin ← find_byte "]"%char rest; Some (take fin rest)
           | None => head (split ":"%char s)
           end;
    if bool_decide (host = []) || negb (is_valid_host host) then None else Some (lower_name host).

Fixpoint host_loop (headers : list (bytes * bytes)) (host_value : option bytes) : option bytes :=
  match headers with
  | [] => host_value
  | (name, value) :: headers =>
      if eq_ignore_ascii_case name (b! "host") then
        match host_value with
        | Some _ => None
        | None => h ← header_host value; host_loop headers (Some h)
        end
      else host_loop headers host_value
  end.

Definition sniff_http `{HttpParse} (buf : bytes) : option bytes :=
  headers ← http_headers buf; host_loop headers None.

(** ** The listener *)

Inductive Proto := Tls | Http.

(** [timeout] in milliseconds; the peeks it bounds are an argument below. *)
Record SnifferConfig := mkConfig {
  enable : bool;
  timeout : Z;
  parse_pure_ip : bool;
  override_destination : bool;
  tls_ports : list Z;
  http_ports : list Z;
  skip_domain : list bytes;
  force_domain : list bytes;
}.

Section Runtime.
Context `{HO : HashOrder, UL : UnicodeLower, HP : HttpParse}.

Record SnifferRuntime := mkRuntime {
  cfg : SnifferConfig;
  skip : DomainTrie unit;
  force : DomainTrie unit;
  port_map : gmap Z Proto;
}.

Definition insert_all (patterns : list bytes) : option (DomainTrie unit) :=
  foldlM (fun t d => snd <$> insert t d tt) new patterns.

Definition runtime_new (cfg : SnifferConfig) : option SnifferRuntime :=
  skip ← insert_all (skip_domain cfg);
  force ← insert_all (force_domain cfg);
  let ports := foldl (fun m p => <[p := Tls]> m) ∅ (tls_ports cfg) in
  let ports := foldl (fun m p => <[p := Http]> m) ports (http_ports cfg) in
  Some (mkRuntime cfg skip force ports).

Definition is_enabled (rt : SnifferRuntime) : bool := enable (cfg rt).

(** The flow has a domain of its own that is not on the force list. *)
Definition named (rt : SnifferRuntime) (m : Metadata) : option bool :=
  if negb (bool_decide (host m = [])) && bool_decide (metadata_ip_literal (host m) = None) then
    r ← search (force rt) (host m); Some (bool_decide (r = None))
  else Some false.

Definition set_sniff_host (m : Metadata) (name : bytes) : Metadata :=
  mkMetadata (network m) (conn_type m) (src_ip m) (dst_ip m) (src_port m) (dst_port m) (host m) (dns_mode m) (process m)
    (process_path m) (uid m) (dscp m) (src_geo_ip m) (dst_geo_ip m) name (in_name m) (in_port m) (in_user m)
    (special_proxy m) (internal m).

Definition set_host (m : Metadata) (name : bytes) : Metadata :=
  mkMetadata (network m) (conn_type m) (src_ip m) (dst_ip m) (src_port m) (dst_port m) name (dns_mode m) (process m)
    (process_path m) (uid m) (dscp m) (src_geo_ip m) (dst_geo_ip m) (sniff_host m) (in_name m) (in_port m) (in_user m)
    (special_proxy m) (internal m).

Definition maybe_apply_sniff (rt : SnifferRuntime) (name : bytes) (m : Metadata) : option Metadata :=
  if negb (enable (cfg rt)) then Some m
  else
    skipped ← search (skip rt) name;
    if bool_decide (is_Some skipped) then Some m
    else
      keep ← (if override_destination (cfg rt) then Some false else named rt m);
      if keep : bool then Some m
      else
        let m := set_sniff_host m name in
        Some (if override_destination (cfg rt) then set_host m name else m).

(** More of a TLS record may come. *)
Definition need_more (proto : Proto) (b : bytes) : bool :=
  match proto with
  | Http => false
  | Tls =>
      let n := length b in
      (n <? Z.to_nat 8192) && bool_decide (head b = Some (z_byte 0x16)) &&
      ((n <? 2) || bool_decide (b !! 1 = Some (z_byte 3))) &&
      ((n <? 5) || (n <? 5 + Z.to_nat (default 0%Z (be16 b 3))))
  end.

(** The peeks until the deadline, each with what is buffered so far, read
    into 8192 bytes. *)
Fixpoint gather (proto : Proto) (peeks : list (option bytes)) : option bytes :=
  match peeks with
  | [] | None :: _ => None
  | Some b :: peeks =>
      let b := take (Z.to_nat 8192) b in
      if bool_decide (b = []) then None else if need_more proto b then gather proto peeks else Some b
  end.

Definition sniff (rt : SnifferRuntime) (peeks : list (option bytes)) (m : Metadata) : option Metadata :=
  if negb (enable (cfg rt)) then Some m
  else
    keep ← (if parse_pure_ip (cfg rt) then named rt m else Some false);
    if keep : bool then Some m
    else
      match port_map rt !! dst_port m with
      | None => Some m
      | Some proto =>
          match gather proto peeks with
          | None => Some m
          | Some b =>
              sniffed ← (match proto with Tls => sniff_tls b | Http => Some (sniff_http b) end);
              match sniffed with Some name => maybe_apply_sniff rt name m | None => Some m end
          end
      end.

End Runtime.
End Sniffer.
