(* ===== verification/SnifferTls.v ===== *)
(** * The TLS sniffer

    [sniff_tls] indexes a slice of bytes a peer sent. It never panics, and a
    name it returns is a valid host cut out of those bytes. On the encoding
    of a ClientHello it returns the first host name of the first server-name
    extension, in whatever pieces the encoding arrives. *)

From stdpp Require Import gmap.
From S2P Require Import Prelude Strings Bits HostNames DomainTrie Sniffer.

Module SnifferTls.
Import HostNames Sniffer.

(** ** Slices *)

Definition slice (x s : bytes) : Prop := exists pre post, s = pre ++ x ++ post.

Lemma slice_trans x y z : slice x y -> slice y z -> slice x z.
Proof. intros (a & b & ->) (c & d & ->). exists (c ++ a), (b ++ d). by rewrite <- !(assoc_L (++)). Qed.

Lemma get_range_slice s a b x : get_range s a b = Some x -> slice x s.
Proof.
  unfold get_range. destruct (_ && _); [|done]. intros [= <-].
  exists (take a s), (drop (b - a) (drop a s)). by rewrite !take_drop.
Qed.

Lemma get_range_app s pre mid post a b :
  s = pre ++ mid ++ post -> a = length pre -> b = length pre + length mid -> get_range s a b = Some mid.
Proof.
  intros -> -> ->. unfold get_range. rewrite !length_app.
  rewrite (proj2 (Nat.leb_le _ _)), (proj2 (Nat.leb_le _ _)) by lia. simpl. f_equal.
  rewrite drop_app_length. apply take_app_length'. lia.
Qed.

Lemma at_byte_in s i : i < length s -> exists z, at_byte s i = Some z.
Proof. intros H. destruct (lookup_lt_is_Some_2 s i H) as [c E]. unfold at_byte. rewrite E. by eexists. Qed.

Lemma be16_in s i : i + 1 < length s -> exists z, be16 s i = Some z.
Proof.
  intros H. unfold be16. destruct (at_byte_in s i) as [a ->]; [lia|].
  destruct (at_byte_in s (i + 1)) as [b ->]; [lia|]. by eexists.
Qed.

Lemma at_byte_app s pre c post i : s = pre ++ c :: post -> i = length pre -> at_byte s i = Some (byte_z c).
Proof. intros -> ->. unfold at_byte. by rewrite list_lookup_middle. Qed.

Lemma be16_app s pre z post i :
  (0 <= z < 65536)%Z -> s = pre ++ to_be_bytes 2 z ++ post -> i = length pre -> be16 s i = Some z.
Proof.
  intros Hz E ->. pose proof (be_roundtrip_small 2 z Hz) as Hr. pose proof (to_be_bytes_length 2 z) as Hl.
  destruct (to_be_bytes 2 z) as [|a [|b [|]]]; try done. cbn in Hr. unfold be16.
  rewrite (at_byte_app s pre a (b :: post) _ E eq_refl). simpl.
  rewrite (at_byte_app s (pre ++ [a]) b post); [simpl; f_equal; lia|by rewrite E, <- (assoc_L (++))|].
  rewrite length_app. simpl. lia.
Qed.

(** ** Any bytes *)

(** A result that did not panic and, if a name, is a valid host of [s]. *)
Definition harmless (s : bytes) (r : option (option bytes)) : Prop :=
  exists o, r = Some o /\
    forall name, o = Some name -> exists raw, slice raw s /\ is_valid_host raw = true /\ name = to_ascii_lowercase raw.

Lemma harmless_none s : harmless s (Some None).
Proof. by exists None. Qed.

Lemma harmless_slice x s r : slice x s -> harmless x r -> harmless s r.
Proof.
  intros Hs (o & -> & H). exists o. split; [done|]. intros name E. destruct (H name E) as (raw & ? & ? & ?).
  exists raw. split_and!; [by eapply slice_trans|done|done].
Qed.

(** A byte read where the guard allows, and one read with [get]. *)
Lemma harmless_bind {A} s (o : option A) k :
  (exists z, o = Some z) -> (forall z, harmless s (k z)) -> harmless s (o ≫= k).
Proof. intros [z ->] H. apply H. Qed.

Lemma harmless_try {A} s (o : option A) k : (forall z, o = Some z -> harmless s (k z)) -> harmless s (try_get o k).
Proof. destruct o as [z|]; intros H; [by apply H|apply harmless_none]. Qed.

Lemma lower_name_eq s : lower_name s = to_ascii_lowercase s.
Proof. unfold lower_name. destruct (has_uppercase s) eqn:E; [done|]. symmetry. by apply lowercase_id. Qed.

Lemma host_name_harmless name : harmless name (Some (host_name name)).
Proof.
  exists (host_name name). split; [done|]. unfold host_name. intros x.
  destruct (from_utf8_ok name); [|done]. destruct (is_valid_host name) eqn:E; [|done]. intros [= <-].
  exists name. split_and!; [by exists [], []; rewrite app_nil_r|done|by apply lower_name_eq].
Qed.

Ltac harmless_step :=
  match goal with
  | |- harmless _ (Some None) => apply harmless_none
  | |- harmless _ (try_get _ _) => apply harmless_try; intros
  | |- harmless _ (at_byte _ _ ≫= _) => apply harmless_bind; [apply at_byte_in; lia|intros]
  | |- harmless _ (be16 _ _ ≫= _) => apply harmless_bind; [apply be16_in; lia|intros]
  | |- harmless _ (if ?a <? ?b then _ else _) => destruct (Nat.ltb_spec a b)
  | |- harmless _ (if ?b then _ else _) => destruct b
  end.

Lemma name_loop_harmless fuel l pos : length l <= fuel + pos -> harmless l (name_loop fuel l pos).
Proof.
  revert pos. induction fuel as [|fuel IH]; intros pos Hf; cbn [name_loop];
    destruct (Nat.leb_spec (pos + 3) (length l)); try apply harmless_none; [lia|].
  repeat harmless_step.
  - eapply harmless_slice; [by eapply get_range_slice|]. apply host_name_harmless.
  - apply IH. lia.
Qed.

Lemma parse_sni_harmless data : harmless data (parse_sni_extension data).
Proof.
  unfold parse_sni_extension. repeat harmless_step.
  eapply harmless_slice; [by eapply get_range_slice|]. apply name_loop_harmless. lia.
Qed.

Lemma ext_loop_harmless fuel hello ext_end pos :
  length hello <= fuel + pos -> harmless hello (ext_loop fuel hello ext_end pos).
Proof.
  revert pos. induction fuel as [|fuel IH]; intros pos Hf; cbn [ext_loop];
    destruct (Nat.leb_spec (pos + 4) ext_end), (Nat.leb_spec (pos + 4) (length hello)); simpl;
    try apply harmless_none; [lia|].
  repeat harmless_step.
  - eapply harmless_slice; [by eapply get_range_slice|]. apply parse_sni_harmless.
  - apply IH. lia.
Qed.

Lemma sniff_hello_harmless hello : harmless hello (sniff_hello hello).
Proof. unfold sniff_hello. repeat harmless_step. apply ext_loop_harmless. lia. Qed.

Lemma sniff_tls_harmless buf : harmless buf (sniff_tls buf).
Proof.
  unfold sniff_tls. repeat harmless_step.
  eapply harmless_slice; [|apply sniff_hello_harmless].
  eapply slice_trans; by eapply get_range_slice.
Qed.

(** ** The encoding of a ClientHello *)

(** An extension: the server names with their types, or any other. *)
Inductive Ext := Other (ty : Z) (data : bytes) | Sni (names : list (Z * bytes)).

Record ClientHello := mkHello {
  version_random : bytes;
  session_id : bytes;
  cipher_suites : bytes;
  compression : bytes;
  extensions : list Ext;
}.

Definition u16 (n : nat) : bytes := to_be_bytes 2 (Z.of_nat n).

Definition encode_name (e : Z * bytes) : bytes := z_byte e.1 :: u16 (length e.2) ++ e.2.
Definition encode_names (names : list (Z * bytes)) : bytes := mjoin (encode_name <$> names).

Definition ext_type (e : Ext) : Z := match e with Other ty _ => ty | Sni _ => 0%Z end.
Definition ext_data (e : Ext) : bytes :=
  match e with Other _ data => data | Sni names => u16 (length (encode_names names)) ++ encode_names names end.
Definition encode_ext (e : Ext) : bytes := to_be_bytes 2 (ext_type e) ++ u16 (length (ext_data e)) ++ ext_data e.
Definition encode_exts (exts : list Ext) : bytes := mjoin (encode_ext <$> exts).

Definition encode_hello (h : ClientHello) : bytes :=
  version_random h ++ z_byte (Z.of_nat (length (session_id h))) :: session_id h ++
  u16 (length (cipher_suites h)) ++ cipher_suites h ++
  z_byte (Z.of_nat (length (compression h))) :: compression h ++
  u16 (length (encode_exts (extensions h))) ++ encode_exts (extensions h).

Definition encode_handshake (h : ClientHello) : bytes :=
  z_byte 1 :: to_be_bytes 3 (Z.of_nat (length (encode_hello h))) ++ encode_hello h.

(** The record, of version 3.[minor]. *)
Definition encode_record (minor : ascii) (h : ClientHello) : bytes :=
  z_byte 0x16 :: z_byte 3 :: minor :: u16 (length (encode_handshake h)) ++ encode_handshake h.

(** The bounds of the encoding: the lengths have one or two bytes. *)
Definition name_fits (e : Z * bytes) : bool := (0 <=? e.1)%Z && (e.1 <? 256)%Z.
Definition ext_fits (e : Ext) : bool :=
  match e with Other ty _ => (0 <? ty)%Z && (ty <? 65536)%Z | Sni names => forallb name_fits names end.
Definition hello_fits (h : ClientHello) : bool :=
  (length (version_random h) =? 34) && (length (session_id h) <? 256) && (length (compression h) <? 256) &&
  forallb ext_fits (extensions h) && (Z.of_nat (length (encode_handshake h)) <? 65536)%Z.

(** What the hello names: the first host name of the first list. *)
Fixpoint first_host (names : list (Z * bytes)) : option bytes :=
  match names with
  | [] => None
  | (ty, name) :: names => if (ty =? 0)%Z then Some name else first_host names
  end.

Fixpoint server_name (exts : list Ext) : option bytes :=
  match exts with
  | [] => None
  | Sni names :: _ => first_host names ≫= host_name
  | Other _ _ :: exts => server_name exts
  end.

Ltac app_eq := unfold u16; repeat (rewrite <- ?(assoc_L (++)); cbn [app]); reflexivity.
Ltac app_len := unfold u16; repeat (progress (rewrite ?length_app, ?to_be_bytes_length; cbn [length])); lia.

Lemma name_loop_encode names l pre fuel :
  forallb name_fits names = true -> l = pre ++ encode_names names ->
  (Z.of_nat (length (encode_names names)) < 65536)%Z -> length names <= fuel ->
  name_loop fuel l (length pre) = Some (first_host names ≫= host_name).
Proof.
  revert pre fuel. induction names as [|[ty name] names IH]; intros pre fuel Hfit El Hlen Hf.
  - subst l. destruct fuel; cbn [name_loop]; destruct (Nat.leb_spec (length pre + 3) (length (pre ++ encode_names [])));
      try done; rewrite length_app in *; cbn in *; lia.
  - destruct fuel as [|fuel]; [cbn in Hf; lia|]. cbn [forallb] in Hfit. apply andb_true_iff in Hfit as [Hn Hfit].
    unfold name_fits in Hn. apply andb_true_iff in Hn as [H0 H1]. cbn [fst] in H0, H1.
    change (encode_names ((ty, name) :: names)) with ((z_byte ty :: u16 (length name) ++ name) ++ encode_names names) in *.
    rewrite !length_app in Hlen. cbn [length] in Hlen. rewrite length_app in Hlen.
    cbn [name_loop]. rewrite (proj2 (Nat.leb_le _ _)) by (subst l; app_len).
    rewrite (at_byte_app l pre (z_byte ty) (u16 (length name) ++ name ++ encode_names names)) by (done || (subst l; app_eq)).
    cbn [mbind option_bind]. rewrite byte_z_byte, Z.mod_small by lia.
    rewrite (be16_app l (pre ++ [z_byte ty]) (Z.of_nat (length name)) (name ++ encode_names names))
      by (lia || app_len || (subst l; app_eq)).
    cbn [first_host mbind option_bind]. rewrite Nat2Z.id. destruct (ty =? 0)%Z.
    + erewrite (get_range_app l (pre ++ z_byte ty :: u16 (length name)) name (encode_names names));
        [done|subst l; app_eq|app_len|app_len].
    + replace (length pre + 3 + length name) with (length (pre ++ z_byte ty :: u16 (length name) ++ name)) by app_len.
      apply IH; [done|subst l; app_eq|unfold u16 in *; lia|cbn in Hf; lia].
Qed.

Lemma encode_names_length names : length names <= length (encode_names names).
Proof.
  induction names as [|e names IH]; [done|]. change (encode_names (e :: names)) with (encode_name e ++ encode_names names).
  unfold encode_name. app_len.
Qed.

Lemma parse_sni_encode names :
  forallb name_fits names = true -> (Z.of_nat (length (encode_names names)) < 65536)%Z ->
  parse_sni_extension (ext_data (Sni names)) = Some (first_host names ≫= host_name).
Proof.
  intros Hfit Hlen. unfold parse_sni_extension, ext_data. set (x := encode_names names) in *.
  destruct (Nat.ltb_spec (length (u16 (length x) ++ x)) 2) as [H|_].
  { unfold u16 in H. rewrite length_app, to_be_bytes_length in H. lia. }
  rewrite (be16_app _ [] (Z.of_nat (length x)) x) by (lia || done). cbn [mbind option_bind]. rewrite Nat2Z.id.
  erewrite (get_range_app _ (u16 (length x)) x []); [|by rewrite app_nil_r|app_len|app_len].
  cbn [try_get]. apply (name_loop_encode names x []); [done|done|done|apply encode_names_length].
Qed.

Lemma encode_exts_length exts : length exts <= length (encode_exts exts).
Proof.
  induction exts as [|e exts IH]; [done|]. change (encode_exts (e :: exts)) with (encode_ext e ++ encode_exts exts).
  unfold encode_ext. app_len.
Qed.

Lemma ext_loop_encode exts hello pre fuel :
  forallb ext_fits exts = true -> hello = pre ++ encode_exts exts ->
  (Z.of_nat (length (encode_exts exts)) < 65536)%Z -> length exts <= fuel ->
  ext_loop fuel hello (length pre + length (encode_exts exts)) (length pre) = Some (server_name exts).
Proof.
  intros Hfit Eh Hlen Hf.
  assert (Hend : length pre + length (encode_exts exts) = length hello) by (subst hello; app_len).
  rewrite Hend. clear Hend. revert pre fuel Hfit Eh Hlen Hf.
  induction exts as [|e exts IH]; intros pre fuel Hfit Eh Hlen Hf.
  - subst hello. destruct fuel; cbn [ext_loop];
      destruct (Nat.leb_spec (length pre + 4) (length (pre ++ encode_exts []))); try done; rewrite length_app in *; cbn in *; lia.
  - destruct fuel as [|fuel]; [cbn in Hf; lia|]. cbn [forallb] in Hfit. apply andb_true_iff in Hfit as [He Hfit].
    change (encode_exts (e :: exts)) with ((to_be_bytes 2 (ext_type e) ++ u16 (length (ext_data e)) ++ ext_data e) ++ encode_exts exts) in *.
    rewrite !length_app in Hlen.
    assert (Hty : (0 <= ext_type e < 65536)%Z).
    { destruct e; cbn in *; [|lia]. apply andb_true_iff in He as [? ?]. lia. }
    cbn [ext_loop]. rewrite (proj2 (Nat.leb_le _ _)) by (subst hello; app_len). cbn [andb].
    rewrite (be16_app hello pre (ext_type e) (u16 (length (ext_data e)) ++ ext_data e ++ encode_exts exts) (length pre))
      by (lia || (subst hello; app_eq)). cbn [mbind option_bind].
    rewrite (be16_app hello (pre ++ to_be_bytes 2 (ext_type e)) (Z.of_nat (length (ext_data e))) (ext_data e ++ encode_exts exts))
      by (lia || app_len || (subst hello; app_eq)). cbn [mbind option_bind]. rewrite Nat2Z.id.
    destruct e as [ty data|names]; cbn [ext_type ext_fits server_name] in *.
    + apply andb_true_iff in He as [? ?]. rewrite (proj2 (Z.eqb_neq _ _)) by lia. cbn [ext_data] in *.
      replace (length pre + 4 + length data) with
        (length (pre ++ to_be_bytes 2 ty ++ u16 (length data) ++ data)) by app_len.
      apply IH; [done|subst hello; app_eq|unfold u16 in *; lia|cbn in Hf; lia].
    + rewrite (get_range_app hello (pre ++ to_be_bytes 2 0 ++ u16 (length (ext_data (Sni names)))) (ext_data (Sni names)) (encode_exts exts));
        [|subst hello; app_eq|app_len|app_len].
      apply parse_sni_encode; [done|]. cbn [ext_data] in Hlen. rewrite length_app in Hlen. lia.
Qed.

Lemma be16_at s i z :
  be16 s i = Some z -> exists a b, at_byte s i = Some a /\ at_byte s (i + 1) = Some b /\ z = (a * 256 + b)%Z.
Proof.
  unfold be16. intros (a & Ha & (b & Hb & [= <-])%bind_Some)%bind_Some. by exists a, b.
Qed.

Lemma sniff_hello_encode h :
  hello_fits h = true -> sniff_hello (encode_hello h) = Some (server_name (extensions h)).
Proof.
  destruct h as [vr sid cs comp exts]. unfold hello_fits, encode_handshake. cbn [version_random session_id compression extensions].
  rewrite !andb_true_iff. intros [[[[Hvr Hsid] Hcomp] Hexts] Hlen].
  apply Nat.eqb_eq in Hvr. apply Nat.ltb_lt in Hsid, Hcomp. apply Z.ltb_lt in Hlen.
  unfold sniff_hello. set (hello := encode_hello _) in *.
  set (p1 := vr). set (p2 := p1 ++ z_byte (Z.of_nat (length sid)) :: sid). set (p3 := p2 ++ u16 (length cs) ++ cs).
  set (p4 := p3 ++ z_byte (Z.of_nat (length comp)) :: comp). set (ext := encode_exts exts).
  assert (E : hello = p4 ++ u16 (length ext) ++ ext).
  { unfold hello, encode_hello, p4, p3, p2, p1, ext. cbn [version_random session_id cipher_suites compression extensions]. app_eq. }
  assert (Hbound : length p4 + 2 + length ext = length hello) by (rewrite E; app_len).
  assert (Hl : length p3 = length p2 + (2 + length cs) /\ length p2 = 34 + (1 + length sid) /\
    length p4 = length p3 + (1 + length comp)) by (unfold p4, p3, p2, p1; split_and!; app_len).
  assert (Hsmall : length hello < Z.to_nat 65536).
  { cbn [length] in Hlen. rewrite length_app in Hlen. lia. }
  destruct (Nat.ltb_spec (length hello) 34); [lia|].
  rewrite (at_byte_app hello p1 (z_byte (Z.of_nat (length sid))) (sid ++ u16 (length cs) ++ cs ++ z_byte (Z.of_nat (length comp)) :: comp ++ u16 (length ext) ++ ext))
    by (done || (rewrite E; unfold p4, p3, p2; app_eq)).
  cbn [try_get]. rewrite byte_z_byte, Z.mod_small, Nat2Z.id by lia.
  destruct (be16_at hello (length p2) (Z.of_nat (length cs))) as (a & b & Ha & Hb & Hab).
  { apply (be16_app _ p2 _ (cs ++ z_byte (Z.of_nat (length comp)) :: comp ++ u16 (length ext) ++ ext));
      [lia|rewrite E; unfold p4, p3; app_eq|done]. }
  destruct Hl as (H3 & H2 & H4). rewrite <- H2, Ha. cbn [try_get]. rewrite Hb. cbn [try_get]. rewrite <- Hab, Nat2Z.id, <- H3.
  rewrite (at_byte_app hello p3 (z_byte (Z.of_nat (length comp))) (comp ++ u16 (length ext) ++ ext))
    by (done || (rewrite E; unfold p4; app_eq)).
  cbn [try_get]. rewrite byte_z_byte, Z.mod_small, Nat2Z.id, <- H4 by lia.
  destruct (Nat.ltb_spec (length hello) (length p4 + 2)); [lia|].
  rewrite (be16_app hello p4 (Z.of_nat (length ext)) ext) by (done || lia). cbn [mbind option_bind]. rewrite Nat2Z.id.
  replace (length p4 + 2) with (length (p4 ++ u16 (length ext))) by app_len.
  apply ext_loop_encode; [done|rewrite E; app_eq|unfold ext in *; lia|].
  pose proof (encode_exts_length exts). unfold ext in *. lia.
Qed.

(** The three bytes of the handshake length. *)
Lemma lor_byte a b : (0 <= b < 256)%Z -> Z.lor (Z.shiftl a 8) b = (a * 256 + b)%Z.
Proof.
  intros Hb. change 256%Z with (2 ^ 8)%Z. rewrite <- Z.shiftl_mul_pow2, <- Z.add_lor_land by lia.
  assert (Z.land (Z.shiftl a 8) b = 0%Z) as ->; [|lia].
  apply Z.bits_inj_0. intros n. rewrite Z.land_spec. destruct (Z.lt_ge_cases n 8).
  - by rewrite Z.shiftl_spec_low.
  - rewrite <- (Z.mod_small b (2 ^ 8)), Z.mod_pow2_bits_high, andb_false_r by lia. done.
Qed.

Lemma handshake_len l1 l2 l3 :
  (0 <= l2 < 256)%Z -> (0 <= l3 < 256)%Z ->
  Z.lor (Z.lor (Z.shiftl l1 16) (Z.shiftl l2 8)) l3 = ((l1 * 256 + l2) * 256 + l3)%Z.
Proof.
  intros H2 H3. change 16%Z with (8 + 8)%Z. rewrite <- Z.shiftl_shiftl, <- Z.shiftl_lor, !lor_byte by lia. done.
Qed.

Lemma sniff_tls_encode minor h rest :
  hello_fits h = true -> sniff_tls (encode_record minor h ++ rest) = Some (server_name (extensions h)).
Proof.
  intros Hfit. assert (Hlen : (Z.of_nat (length (encode_handshake h)) < 65536)%Z).
  { unfold hello_fits in Hfit. rewrite !andb_true_iff in Hfit. lia. }
  unfold sniff_tls. set (buf := _ ++ rest). set (hs := encode_handshake h) in *.
  assert (E : buf = [z_byte 0x16; z_byte 3; minor] ++ u16 (length hs) ++ hs ++ rest).
  { unfold buf, encode_record. fold hs. app_eq. }
  destruct (Nat.ltb_spec (length buf) 5) as [H|_]; [rewrite E in H; unfold u16 in H; cbn in H; lia|].
  rewrite (at_byte_app buf [] (z_byte 0x16) ([z_byte 3; minor] ++ u16 (length hs) ++ hs ++ rest)) by done.
  cbn [mbind option_bind]. rewrite byte_z_byte. cbn [negb Z.eqb].
  change (negb (0x16 `mod` 256 =? 0x16)%Z) with false. cbv iota.
  rewrite (be16_app buf [z_byte 0x16; z_byte 3; minor] (Z.of_nat (length hs)) (hs ++ rest)) by (done || lia).
  cbn [mbind option_bind]. rewrite Nat2Z.id.
  rewrite (get_range_app buf ([z_byte 0x16; z_byte 3; minor] ++ u16 (length hs)) hs rest);
    [|rewrite E; app_eq|app_len|app_len]. cbn [try_get].
  unfold hs, encode_handshake in *. set (hello := encode_hello h) in *. clear E buf.
  pose proof (be_roundtrip_small 3 (Z.of_nat (length hello))) as Hr.
  pose proof (to_be_bytes_length 3 (Z.of_nat (length hello))) as Hl. cbn [length] in Hlen. rewrite length_app in Hlen.
  destruct (to_be_bytes 3 _) as [|a [|b [|c [|]]]]; try done. cbn in Hr. cbn [app].
  change (length (z_byte 1 :: a :: b :: c :: hello) <? 4) with false.
  change (at_byte (z_byte 1 :: a :: b :: c :: hello) 0) with (Some (byte_z (z_byte 1))).
  change (negb (byte_z (z_byte 1) =? 1)%Z) with false.
  cbn [at_byte lookup list_lookup fmap option_fmap option_map mbind option_bind].
  pose proof (byte_z_bound b). pose proof (byte_z_bound c). rewrite handshake_len by done.
  replace (Z.to_nat _) with (length hello) by lia.
  rewrite (get_range_app _ [z_byte 1; a; b; c] hello []); [|by rewrite app_nil_r|done|done].
  by apply sniff_hello_encode.
Qed.

(** ** Fragments *)

Lemma encode_record_length minor h : length (encode_record minor h) = 5 + length (encode_handshake h).
Proof. unfold encode_record. app_len. Qed.

(** A part of the record asks for more. *)
Lemma need_more_part minor h rest n :
  hello_fits h = true -> length (encode_record minor h) <= Z.to_nat 8192 ->
  0 < n < length (encode_record minor h) ->
  need_more Tls (take n (encode_record minor h ++ rest)) = true.
Proof.
  intros Hfit Hmax Hn. rewrite take_app_le by lia. rewrite encode_record_length in *. unfold encode_record.
  set (hs := encode_handshake h) in *.
  set (r := z_byte 0x16 :: z_byte 3 :: minor :: u16 (length hs) ++ hs).
  assert (Hr : length r = 5 + length hs) by (unfold r; app_len).
  unfold need_more. rewrite length_take, Nat.min_l by lia. rewrite (proj2 (Nat.ltb_lt n _)) by lia.
  rewrite bool_decide_eq_true_2 by (destruct n; [lia|done]). cbn [andb].
  apply andb_true_iff. split.
  - apply orb_true_iff. destruct n as [|[|n]]; [lia|by left|right]. by apply bool_decide_eq_true_2.
  - apply orb_true_iff. destruct (Nat.ltb_spec n 5); [by left|right].
    rewrite (be16_app _ [z_byte 0x16; z_byte 3; minor] (Z.of_nat (length hs)) (take (n - 5) hs)); [| | |done].
    + cbn [from_option]; unfold id; rewrite Nat2Z.id. apply Nat.ltb_lt. lia.
    + unfold hello_fits in Hfit. rewrite !andb_true_iff in Hfit. fold hs in Hfit. lia.
    + unfold r, u16. pose proof (to_be_bytes_length 2 (Z.of_nat (length hs))) as Hl.
      destruct (to_be_bytes 2 _) as [|a [|b [|]]]; try done. cbn [app].
      replace n with (5 + (n - 5)) at 1 by lia. done.
Qed.

Lemma need_more_whole minor h rest :
  hello_fits h = true -> need_more Tls (encode_record minor h ++ rest) = false.
Proof.
  intros Hfit. unfold need_more. rewrite length_app, encode_record_length.
  rewrite (be16_app _ [z_byte 0x16; z_byte 3; minor] (Z.of_nat (length (encode_handshake h)))
    (encode_handshake h ++ rest)); [| |unfold encode_record; app_eq|done].
  - simpl default. rewrite Nat2Z.id.
    rewrite (proj2 (Nat.ltb_ge (5 + length (encode_handshake h) + length rest) 5)) by lia.
    rewrite (proj2 (Nat.ltb_ge _ (5 + length (encode_handshake h)))) by lia. by rewrite andb_false_r.
  - unfold hello_fits in Hfit. rewrite !andb_true_iff in Hfit. lia.
Qed.

Lemma take_whole minor h rest n :
  length (encode_record minor h) <= n ->
  take n (encode_record minor h ++ rest) = encode_record minor h ++ take (n - length (encode_record minor h)) rest.
Proof. intros. by rewrite take_app, take_ge by lia. Qed.

Lemma gather_fragments minor h rest ns :
  hello_fits h = true -> length (encode_record minor h) <= Z.to_nat 8192 ->
  Forall (fun n => 0 < n) ns -> Exists (fun n => length (encode_record minor h) <= n) ns ->
  exists b, gather Tls ((fun n => Some (take n (encode_record minor h ++ rest))) <$> ns) = Some b /\
    sniff_tls b = Some (server_name (extensions h)).
Proof.
  intros Hfit Hmax. induction ns as [|n ns IH]; intros Hpos Hwhole; [by apply Exists_nil in Hwhole|].
  cbn [fmap list_fmap gather]. rewrite take_take. apply Forall_cons in Hpos as [Hn Hpos].
  pose proof (encode_record_length minor h) as Hlen.
  rewrite bool_decide_eq_false_2.
  2:{ intros E%(f_equal length). rewrite length_take, length_app in E. cbn [length] in E. lia. }
  destruct (Nat.le_gt_cases (length (encode_record minor h)) n) as [Hall|Hpart].
  - rewrite take_whole, need_more_whole by (done || lia). eexists. split; [done|]. by apply sniff_tls_encode.
  - rewrite Nat.min_r, need_more_part by (done || lia). apply IH; [done|].
    apply Exists_cons in Hwhole as [|]; [lia|done].
Qed.

(** C31: whatever bytes arrive, [sniff_tls] does not index out of range, and
    a name it returns is a valid host cut out of those bytes, in lower
    case. *)
Theorem sniff_tls_safe buf :
  exists o, sniff_tls buf = Some o /\
    forall name, o = Some name ->
      exists pre raw post, buf = pre ++ raw ++ post /\ is_valid_host raw = true /\ name = to_ascii_lowercase raw.
Proof.
  destruct (sniff_tls_harmless buf) as (o & Ho & H). exists o. split; [done|]. intros name E.
  destruct (H name E) as (raw & (pre & post & ?) & ? & ?). by exists pre, raw, post.
Qed.

Definition demo_hello : ClientHello :=
  mkHello (replicate 34 (z_byte 7)) (b! "session") (b! "ciphers!") [z_byte 0]
    [Other 16 (b! "alpn"); Sni [(1%Z, b! "x"); (0%Z, b! "WWW.Example.com")]; Other 43 (b! "v")].

Lemma demo_hello_fits :
  hello_fits demo_hello = true /\ length (encode_record (z_byte 1) demo_hello) = 106 /\
  server_name (extensions demo_hello) = Some (b! "www.example.com").
Proof. vm_compute. done. Qed.

End SnifferTls.
