(* ===== verification/SnifferFlow.v ===== *)
(** * What the listener does with a sniffed name

    [SnifferRuntime] holds the two domain lists as tries. A sniffed name is
    adopted exactly when the lists and the flow's own name allow it, and the
    rules never see another name than the one dialled for a flow that names a
    domain. *)

From stdpp Require Import gmap.
From S2P Require Import Prelude Strings Bits Ip Metadata HostNames Vec Trie TrieSealed DomainTrie TrieSpec TrieTheorems Sniffer SnifferTls.

Module SnifferFlow.
Import Sealed Metadata HostNames DomainTrie TrieSpec TrieTheorems Sniffer SnifferTls.

Section Flow.
Context `{HO : HashOrder, UL : UnicodeLower, HP : HttpParse}.

(** ** The lists *)

Definition listed (patterns : list bytes) (name : bytes) : Prop := exists p, p ∈ patterns /\ pattern_matches p name.

Lemma insert_all_run patterns : insert_all patterns = run_ops (build_ops patterns tt).
Proof.
  unfold insert_all, run_ops, build_ops. generalize (new (T := unit)) as t.
  induction patterns as [|p patterns IH]; intros t; [done|]. cbn [fmap list_fmap foldlM step].
  destruct (insert t p tt) as [[? t1]|]; [|done]. apply IH.
Qed.

Lemma insert_all_spec patterns :
  small (build_ops patterns tt) ->
  exists t, insert_all patterns = Some t /\
    forall name, exists r, search t name = Some r /\ (is_Some r <-> listed patterns name).
Proof.
  intros Hs. destruct (run_repr _ Hs) as (t & b & Ht & Hr & _). exists t. split; [by rewrite insert_all_run|].
  intros name. eexists. split; [by apply (search_run _ _ _ name Hr)|].
  rewrite best_match_Some. setoid_rewrite contents_build. unfold listed, pattern_matches. naive_solver.
Qed.

(** The later insertion wins, so a port on both lists is an HTTP port. *)
Lemma foldl_ports proto ports (m : gmap Z Proto) p :
  foldl (fun m p => <[p := proto]> m) m ports !! p = if decide (p ∈ ports) then Some proto else m !! p.
Proof.
  revert m. induction ports as [|q ports IH]; intros m; cbn [foldl].
  - by rewrite decide_False by apply not_elem_of_nil.
  - rewrite IH. destruct (decide (p ∈ ports)) as [H|H]; [by rewrite decide_True by set_solver|].
    destruct (decide (p = q)) as [->|Hne].
    + by rewrite lookup_insert_eq, decide_True by set_solver.
    + by rewrite lookup_insert_ne, decide_False by set_solver.
Qed.

(** ** Which names are adopted *)

(** The flow names a domain the force list does not cover. *)
Definition explicit (c : SnifferConfig) (m : Metadata) : Prop :=
  host m <> [] /\ metadata_ip_literal (host m) = None /\ ~ listed (force_domain c) (host m).

Definition adopts (c : SnifferConfig) (name : bytes) (m : Metadata) : Prop :=
  enable c = true /\ ~ listed (skip_domain c) name /\ (override_destination c = true \/ ~ explicit c m).

Definition adopted (c : SnifferConfig) (name : bytes) (m : Metadata) : Metadata :=
  if override_destination c then set_host (set_sniff_host m name) name else set_sniff_host m name.

(** What [SnifferRuntime::new] builds. *)
Record runtime_ok (rt : SnifferRuntime) (c : SnifferConfig) : Prop := {
  rt_cfg : cfg rt = c;
  rt_skip name : exists r, search (skip rt) name = Some r /\ (is_Some r <-> listed (skip_domain c) name);
  rt_force name : exists r, search (force rt) name = Some r /\ (is_Some r <-> listed (force_domain c) name);
  rt_ports p : port_map rt !! p =
    if decide (p ∈ http_ports c) then Some Http else if decide (p ∈ tls_ports c) then Some Tls else None;
}.

Lemma runtime_new_ok c :
  small (build_ops (skip_domain c) tt) -> small (build_ops (force_domain c) tt) ->
  exists rt, runtime_new c = Some rt /\ runtime_ok rt c.
Proof.
  intros (s & Es & Hs)%insert_all_spec (f & Ef & Hf)%insert_all_spec. unfold runtime_new. rewrite Es. cbn [mbind option_bind].
  rewrite Ef. cbn [mbind option_bind]. eexists. split; [done|]. split; cbn [cfg skip force port_map]; [done|done|done|].
  intros p. rewrite !foldl_ports, lookup_empty. done.
Qed.

Lemma named_ok rt c m : runtime_ok rt c -> exists b, named rt m = Some b /\ (b = true <-> explicit c m).
Proof.
  intros Hok. unfold named, explicit. destruct (decide (host m = [])) as [E|E].
  { rewrite (bool_decide_eq_true_2 (host m = [])) by done. cbn [negb andb]. exists false. split; [done|]. naive_solver. }
  rewrite (bool_decide_eq_false_2 (host m = [])) by done. cbn [negb andb].
  case_bool_decide as El; [|exists false; split; [done|]; naive_solver].
  destruct (rt_force _ _ Hok (host m)) as (r & -> & Hr). cbn [mbind option_bind]. eexists. split; [done|].
  rewrite bool_decide_eq_true, eq_None_not_Some, Hr. naive_solver.
Qed.

(** The name is adopted, or nothing changes. *)
Definition applied (c : SnifferConfig) (name : bytes) (m m' : Metadata) : Prop :=
  (adopts c name m /\ m' = adopted c name m) \/ (~ adopts c name m /\ m' = m).

Lemma maybe_apply_ok rt c name m :
  runtime_ok rt c -> exists m', maybe_apply_sniff rt name m = Some m' /\ applied c name m m'.
Proof.
  intros Hok. unfold maybe_apply_sniff, applied, adopts. rewrite (rt_cfg _ _ Hok).
  destruct (enable c); cbn [negb]; [|exists m; split; [done|right; naive_solver]].
  destruct (rt_skip _ _ Hok name) as (r & -> & Hr). cbn [mbind option_bind].
  case_bool_decide as Hsk; [exists m; split; [done|right; naive_solver]|].
  unfold adopted. destruct (override_destination c); cbn [mbind option_bind].
  { eexists. split; [done|]. left. naive_solver. }
  destruct (named_ok rt c m Hok) as ([] & -> & Hb); cbn [mbind option_bind]; eexists; (split; [done|]).
  - right. naive_solver.
  - left. split; [|done]. split_and!; [done|naive_solver|]. right. intros H. by apply Hb in H.
Qed.

(** ** HTTP *)

Definition is_host_header (h : bytes * bytes) : bool := eq_ignore_ascii_case h.1 (b! "host").

Lemma host_loop_once headers h : host_loop headers (Some h) = if existsb is_host_header headers then None else Some h.
Proof.
  induction headers as [|[n v] headers IH]; [done|]. cbn [host_loop existsb].
  change (is_host_header (n, v)) with (eq_ignore_ascii_case n (b! "host")).
  destruct (eq_ignore_ascii_case n (b! "host")); [done|exact IH].
Qed.

(** The one Host header of the request, if it is the only one. *)
Definition only_host (headers : list (bytes * bytes)) : option bytes :=
  match filter (fun h => is_host_header h = true) headers with [h] => Some h.2 | _ => None end.

Lemma host_loop_exact headers : host_loop headers None = only_host headers ≫= header_host.
Proof.
  unfold only_host. induction headers as [|[n v] headers IH]; [done|]. cbn [host_loop]. rewrite filter_cons.
  change (is_host_header (n, v)) with (eq_ignore_ascii_case n (b! "host")).
  destruct (eq_ignore_ascii_case n (b! "host")) eqn:E.
  - rewrite decide_True by done. destruct (header_host v) as [h|] eqn:Ev; cbn [mbind option_bind snd].
    + rewrite host_loop_once. destruct (existsb is_host_header headers) eqn:Ex.
      * apply existsb_exists in Ex as (x & Hx%list_elem_of_In & Hh).
        destruct (filter _ headers) as [|y l] eqn:Ef; [|done].
        assert (x ∈ filter (fun h => is_host_header h = true) headers) as Hin by (by apply list_elem_of_filter).
        rewrite Ef in Hin. by apply not_elem_of_nil in Hin.
      * destruct (filter _ headers) as [|y l] eqn:Ef; [cbn [mbind option_bind snd]; by rewrite Ev|].
        assert (y ∈ filter (fun h => is_host_header h = true) headers) as Hin by (rewrite Ef; by left).
        apply list_elem_of_filter in Hin as [Hh Hin%list_elem_of_In].
        by rewrite (proj2 (existsb_exists _ _)) in Ex by eauto.
    + destruct (filter _ headers); [cbn [mbind option_bind snd]; by rewrite Ev|done].
  - rewrite decide_False by congruence. apply IH.
Qed.

Lemma header_host_valid v name :
  header_host v = Some name -> exists raw, is_valid_host raw = true /\ name = to_ascii_lowercase raw.
Proof.
  unfold header_host. destruct (from_utf8_ok v); cbn [negb]; [|done]. intros (h & _ & H)%bind_Some.
  destruct (is_valid_host h) eqn:Eh; [|by rewrite orb_true_r in H].
  destruct (_ || _); [done|]. simplify_eq. exists h. split; [done|]. apply lower_name_eq.
Qed.

Lemma sniff_http_valid buf name :
  sniff_http buf = Some name -> exists raw, is_valid_host raw = true /\ name = to_ascii_lowercase raw.
Proof.
  unfold sniff_http. intros (hs & _ & H)%bind_Some. rewrite host_loop_exact in H.
  apply bind_Some in H as (v & _ & H). by eapply header_host_valid.
Qed.

(** ** The whole step *)

(** The bytes of one flow, by the protocol of its port. *)
Lemma sniffed_ok proto b :
  exists o, (match proto with Tls => sniff_tls b | Http => Some (sniff_http b) end) = Some o /\
    forall name, o = Some name -> exists raw, is_valid_host raw = true /\ name = to_ascii_lowercase raw.
Proof.
  destruct proto.
  - destruct (sniff_tls_harmless b) as (o & Ho & H). exists o. split; [done|]. naive_solver.
  - eexists. split; [done|]. intros name. apply sniff_http_valid.
Qed.

(** What a flow may become. *)
Definition sniff_outcome (c : SnifferConfig) (m m' : Metadata) : Prop :=
  m' = m \/ exists name, adopts c name m /\ m' = adopted c name m /\ (parse_pure_ip c = true -> ~ explicit c m) /\
    exists raw, is_valid_host raw = true /\ name = to_ascii_lowercase raw.

Lemma sniff_ok rt c peeks m :
  runtime_ok rt c -> exists m', sniff rt peeks m = Some m' /\ sniff_outcome c m m'.
Proof.
  intros Hok. assert (Hkeep : forall r, r = Some m -> exists m', r = Some m' /\ sniff_outcome c m m').
  { intros r ->. exists m. split; [done|by left]. }
  unfold sniff. rewrite (rt_cfg _ _ Hok). destruct (enable c); cbn [negb]; [|by apply Hkeep].
  assert (exists b, (if parse_pure_ip c then named rt m else Some false) = Some b /\
    (parse_pure_ip c = true -> b = false -> ~ explicit c m)) as (b & -> & Hb).
  { destruct (parse_pure_ip c); [|by exists false]. destruct (named_ok rt c m Hok) as (b & Eb & Hb). exists b.
    split; [done|]. intros _ -> H. by apply Hb in H. }
  cbn [mbind option_bind]. destruct b; [by apply Hkeep|].
  destruct (port_map rt !! dst_port m) as [proto|]; [|by apply Hkeep].
  destruct (gather proto peeks) as [buf|]; [|by apply Hkeep].
  destruct (sniffed_ok proto buf) as (o & -> & Ho). cbn [mbind option_bind]. destruct o as [name|]; [|by apply Hkeep].
  destruct (maybe_apply_ok rt c name m Hok) as (m' & Em & Hm). exists m'. split; [done|].
  destruct Hm as [[Ha ->]|[_ ->]]; [|by left]. right. exists name. split_and!; [done|done|auto|by apply Ho].
Qed.

(** A flow that names a domain is matched by the name it dials. *)
Lemma adopts_consistent c name m :
  adopts c name m -> explicit c m -> rule_host (adopted c name m) = trim_end_byte dot (host (adopted c name m)).
Proof.
  intros (_ & _ & [Ho|Hn]) He; [|done]. unfold adopted. rewrite Ho. unfold rule_host.
  cbn [set_host set_sniff_host sniff_host host]. by case_bool_decide.
Qed.

(** C27: [SnifferRuntime::new] builds both lists, and a name is adopted
    exactly when sniffing is on, the skip list does not have it, and either
    the flow names no domain outside the force list or the destination is to
    be overridden; otherwise the metadata stays as it was. [sniff] changes a
    flow in no other way, whatever it peeks, and only by a valid host. So a
    flow that names a domain outside the force list, and had no sniffed name,
    is matched by the rules under the name that is dialled. *)
Theorem sniff_priority c :
  small (build_ops (skip_domain c) tt) -> small (build_ops (force_domain c) tt) ->
  exists rt, runtime_new c = Some rt /\
    (forall name m, exists m', maybe_apply_sniff rt name m = Some m' /\ applied c name m m') /\
    (forall peeks m, exists m', sniff rt peeks m = Some m' /\ sniff_outcome c m m' /\
      (explicit c m -> sniff_host m = [] -> rule_host m' = trim_end_byte dot (host m'))).
Proof.
  intros Hs Hf. destruct (runtime_new_ok c Hs Hf) as (rt & Hrt & Hok). exists rt. split_and!; [done| |].
  - intros name m. by apply maybe_apply_ok.
  - intros peeks m. destruct (sniff_ok rt c peeks m Hok) as (m' & Em & Hm). exists m'. split_and!; [done|done|].
    intros He Hh. destruct Hm as [->|(name & Ha & -> & _)]; [|by apply adopts_consistent].
    unfold rule_host. by rewrite bool_decide_eq_true_2.
Qed.

(** C13: a flow without a domain of its own to a TLS port gets the name of
    its ClientHello, in whatever pieces the record arrives within the
    deadline and whatever follows it, unless the skip list has the name; a
    hello without a valid host name leaves the flow as it was. *)
Theorem sniff_end_to_end c minor h rest ns m :
  small (build_ops (skip_domain c) tt) -> small (build_ops (force_domain c) tt) ->
  enable c = true -> dst_port m ∈ tls_ports c -> dst_port m ∉ http_ports c -> ~ explicit c m ->
  hello_fits h = true -> length (encode_record minor h) <= Z.to_nat 8192 ->
  Forall (fun n => 0 < n) ns -> Exists (fun n => length (encode_record minor h) <= n) ns ->
  exists rt m', runtime_new c = Some rt /\
    sniff rt ((fun n => Some (take n (encode_record minor h ++ rest))) <$> ns) m = Some m' /\
    match server_name (extensions h) with
    | Some name => (listed (skip_domain c) name -> m' = m) /\ (~ listed (skip_domain c) name -> m' = adopted c name m)
    | None => m' = m
    end.
Proof.
  intros Hs Hf Hen Ht Hh He Hfit Hmax Hpos Hall. destruct (runtime_new_ok c Hs Hf) as (rt & Hrt & Hok). exists rt.
  destruct (gather_fragments minor h rest ns Hfit Hmax Hpos Hall) as (b & Hb & Hn).
  unfold sniff. rewrite (rt_cfg _ _ Hok), Hen. cbn [negb].
  assert ((if parse_pure_ip c then named rt m else Some false) = Some false) as ->.
  { destruct (parse_pure_ip c); [|done]. destruct (named_ok rt c m Hok) as ([] & Eb & Hx); [|done]. naive_solver. }
  cbn [mbind option_bind]. rewrite (rt_ports _ _ Hok), decide_False, decide_True by done. rewrite Hb, Hn. cbn [mbind option_bind].
  destruct (server_name (extensions h)) as [name|]; [|by exists m].
  destruct (maybe_apply_ok rt c name m Hok) as (m' & Em & Hm). exists m'. split_and!; [done|done| |];
    intros Hl; destruct Hm as [[Ha ->]|[Ha ->]]; try done; unfold adopts in Ha; naive_solver.
Qed.

End Flow.

(** ** Concrete flows *)

#[local] Instance no_http : HttpParse := {| http_headers _ := None |}.

Definition demo_config : SnifferConfig :=
  mkConfig true 100 true false [443; 8443]%Z [80]%Z [b! "+.apple.com"] [b! "+.cdn.net"].

Definition demo_flow : Metadata :=
  mkMetadata Tcp Socks5 None None 0 443 (b! "203.0.113.7") Normal [] [] None None [] [] [] [] 0 None [] false.

Lemma sniff_priority_witness :
  exists rt, runtime_new demo_config = Some rt /\
    (forall name m, exists m', maybe_apply_sniff rt name m = Some m' /\ applied demo_config name m m').
Proof.
  destruct (sniff_priority demo_config) as (rt & Hrt & H & _); [reflexivity|reflexivity|].
  exists rt. split; [exact Hrt|exact H].
Defined.

Lemma sniff_end_to_end_witness :
  exists rt m', runtime_new demo_config = Some rt /\
    sniff rt ((fun n => Some (take n (encode_record (z_byte 1) demo_hello ++ b! "more"))) <$> [1; 4; 60; 300]) demo_flow = Some m' /\
    (listed (skip_domain demo_config) (b! "www.example.com") -> m' = demo_flow) /\
    (~ listed (skip_domain demo_config) (b! "www.example.com") -> sniff_host m' = b! "www.example.com").
Proof.
  destruct demo_hello_fits as (Hfit & Hlen & Hname).
  destruct (sniff_end_to_end demo_config (z_byte 1) demo_hello (b! "more") [1; 4; 60; 300] demo_flow) as (rt & m' & H1 & H2 & H3);
    try reflexivity.
  - by left.
  - apply (bool_decide_unpack _). reflexivity.
  - by intros (_ & H & _).
  - rewrite Hlen. apply Nat.leb_le. reflexivity.
  - repeat constructor.
  - do 3 right. left. rewrite Hlen. lia.
  - rewrite Hname in H3. destruct H3 as [H3 H4]. exists rt, m'. split_and!; [exact H1|exact H2|exact H3|].
    intros H. by rewrite (H4 H).
Defined.

End SnifferFlow.
