(* ===== verification/KcpSized.v ===== *)
(** * The size of KCP datagrams

    No segment is longer than the segment size and no datagram longer than
    the MTU, through every operation of an endpoint whose MTU stays as it
    was set, and what was written stays written. *)

From S2P Require Import Prelude Strings Bits Kcp KcpWire.

Module KcpSized.
Import Kcp KcpWire.

Section Sized.
Context (m : nat) (base : list bytes).

Definition small (seg : KcpSegment) : Prop := length (seg_data seg) <= m - KCP_OVERHEAD.

Record out_sized (o : Out) : Prop := mkOutSized {
  os_buf : length (buf o) <= m;
  os_output : Forall (fun d => length d <= m) (output o);
  os_base : base `prefix_of` output o;
}.

Record snd_sized (s : Sender) : Prop := mkSndSized {
  ss_queue : Forall small (snd_queue s);
  ss_buf : Forall small (snd_buf s);
}.

Record sized (k : Kcp) : Prop := mkSized {
  sz_mtu : mtu (cfg k) = m;
  sz_mss : mss (cfg k) = m - KCP_OVERHEAD;
  sz_pos : KCP_OVERHEAD < m;
  sz_snd : snd_sized (snd k);
  sz_out : out_sized (out k);
}.

(** ** Writing segments *)

Lemma make_room_sized need o : out_sized o -> need <= m ->
  out_sized (make_room m need o) /\ length (buf (make_room m need o)) + need <= m.
Proof.
  intros [Hb Ho Hp] Hn. unfold make_room. destruct (Nat.ltb_spec m (length (buf o) + need)) as [H|H].
  - cbn [write_out buf output length]. split; [|lia]. split; cbn; [lia| |by apply prefix_app_r]. apply Forall_app. split; [done|]. by constructor.
  - split; [by split|lia].
Qed.

Lemma put_sized seg o : out_sized o -> length (buf o) + encoded_len seg <= m -> out_sized (put seg o).
Proof.
  intros [Hb Ho Hp] Hl. split; [|done|done]. cbn [put buf]. rewrite length_app, encode_length. unfold encoded_len in Hl. lia.
Qed.

Lemma put_room_sized seg need o : out_sized o -> encoded_len seg <= need -> need <= m -> out_sized (put seg (make_room m need o)).
Proof. intros Ho Hs Hn. destruct (make_room_sized need o Ho Hn) as [H1 H2]. apply put_sized; [done|lia]. Qed.

Lemma write_out_sized o : out_sized o -> out_sized (write_out o).
Proof.
  intros [Hb Ho Hp]. split; cbn; [lia| |by apply prefix_app_r]. apply Forall_app. split; [done|]. by constructor.
Qed.

Lemma ack_entries_sized nxt acks segment o :
  KCP_OVERHEAD < m -> seg_data segment = [] -> out_sized o ->
  seg_data (ack_entries m nxt acks segment o).1 = [] /\ out_sized (ack_entries m nxt acks segment o).2.
Proof.
  intros Hm. revert segment o. induction acks as [|[sn ts] acks IH]; intros segment o Hs Ho; [done|]. cbn [ack_entries].
  destruct (_ || _).
  - apply IH; [done|]. apply put_room_sized; [done| |lia]. unfold encoded_len. cbn [set_sn_ts set_cmd seg_data]. rewrite Hs. cbn [length]. lia.
  - apply IH; [done|]. apply make_room_sized; [done|lia].
Qed.

Lemma flush_segments_sized k resent new_segs b p :
  mtu (cfg k) = m -> KCP_OVERHEAD < m -> Forall small b -> out_sized (p_out p) ->
  Forall small (flush_segments k resent new_segs b p).1 /\ out_sized (p_out (flush_segments k resent new_segs b p).2).
Proof.
  intros Hk Hm Hb. revert p. induction Hb as [|seg b Hs Hb IH]; intros p Hp; [done|]. cbn [flush_segments].
  destruct (acked seg).
  { specialize (IH p Hp). destruct (flush_segments k resent new_segs b p) as [b' p']. cbn in *. split; [constructor; [done|]|]; apply IH. }
  destruct (resend_kind k resent new_segs seg) eqn:Hkind.
  { specialize (IH p Hp). destruct (flush_segments k resent new_segs b p) as [b' p']. cbn in *. split; [constructor; [done|]|]; apply IH. }
  all: match goal with |- context [flush_segments ?x ?y ?z ?l ?q] => specialize (IH q); destruct (flush_segments x y z l q) as [b' p'] end;
    cbn [fst Datatypes.snd p_out] in *; rewrite Hk in *; (destruct IH as [I1 I2];
    [apply put_room_sized; [done|done|]; unfold small, encoded_len in *; cbn [schedule seg_data]; lia|split; [by constructor|done]]).
Qed.

(** ** Flushing *)

Lemma slide_sized cv window s : snd_sized s -> snd_sized (slide cv window s).1.
Proof.
  intros [Hq Hb]. unfold slide.
  assert (H : forall q nxt b moved, Forall small q -> Forall small b ->
    Forall small (slide_loop cv window (snd_una s) q nxt b moved).1.1.1 /\
    Forall small (slide_loop cv window (snd_una s) q nxt b moved).1.2).
  { intros q. induction q as [|seg q IH]; intros nxt b moved H1 H2; [done|]. cbn [slide_loop]. destruct (_ <? 0)%Z; [|done].
    apply Forall_cons in H1 as [Hs H1]. apply IH; [done|]. apply Forall_app. split; [done|]. by constructor. }
  specialize (H (snd_queue s) (snd_nxt s) (snd_buf s) 0 Hq Hb).
  destruct (slide_loop _ _ _ _ _ _ _) as [[[q nxt] b] moved]. cbn in H. destruct H. by split.
Qed.

Lemma probe_sized k segment cmd : sized k -> seg_data segment = [] ->
  sized (flush_probe_command cmd segment k).2 /\ seg_data (flush_probe_command cmd segment k).1 = [].
Proof.
  intros [H1 H2 H3 H4 H5] Hs. split; [|done]. split; try done. cbn [flush_probe_command fst Datatypes.snd set_out out].
  rewrite H1. apply put_room_sized; [done| |lia]. unfold encoded_len. cbn [set_sn_ts set_cmd seg_data]. rewrite Hs. cbn [length]. lia.
Qed.

Lemma probes_sized k segment : sized k -> seg_data segment = [] -> sized (flush_probe_commands segment k).
Proof.
  intros Hk Hs. unfold flush_probe_commands.
  assert (H : forall (b : bool) cmd segment k, sized k -> seg_data segment = [] ->
    sized (if b then flush_probe_command cmd segment k else (segment, k)).2 /\
    seg_data (if b then flush_probe_command cmd segment k else (segment, k)).1 = []).
  { intros [] cmd sg k0 Hk0 Hs0; [by apply probe_sized|done]. }
  match goal with |- context [if ?b then flush_probe_command ?c _ _ else _] => destruct (H b c segment k Hk Hs) as [Hk1 Hs1] end.
  destruct (if negb (Z.land (probe (clk k)) KCP_ASK_SEND =? 0)%Z then _ else _) as [sg1 k1]. cbn in Hk1, Hs1.
  match goal with |- context [if ?b then flush_probe_command ?c _ _ else _] => destruct (H b c sg1 k1 Hk1 Hs1) as [Hk2 Hs2] end.
  destruct (if negb (Z.land (probe (clk k1)) KCP_ASK_TELL =? 0)%Z then _ else _) as [sg2 k2]. cbn in Hk2. by destruct Hk2.
Qed.

Lemma flush_inner_sized k ty : sized k -> sized (flush_inner k ty).
Proof.
  intros Hk. unfold flush_inner. set (segment := mkSeg _ _ _ _ _ _ _ _ _ _ _ _ _).
  assert (Ha : sized (flush_acks k segment).2 /\ seg_data (flush_acks k segment).1 = []).
  { destruct Hk as [H1 H2 H3 H4 H5]. unfold flush_acks. rewrite H1.
    destruct (ack_entries_sized (rcv_nxt (rcv k)) (acklist (rcv k)) segment (out k) H3 eq_refl H5) as [I1 I2].
    destruct (ack_entries _ _ _ _ _) as [sg o]. cbn in *. split; [by split|done]. }
  destruct (flush_acks k segment) as [sg k1]. cbn in Ha. destruct Ha as [Hk1 Hs1].
  assert (Hk2 : sized (flush_probe_commands sg (probe_wnd_size k1))).
  { apply probes_sized; [|done]. destruct Hk1. by split. }
  set (k2 := flush_probe_commands sg (probe_wnd_size k1)) in *. clearbody k2. clear Hk1 Hs1 k1.
  set (window := if nocwnd (cfg k2) then _ else _).
  pose proof (slide_sized (conv (cfg k2)) window (snd k2) (sz_snd _ Hk2)) as Hsl.
  destruct (slide (conv (cfg k2)) window (snd k2)) as [s new_segs]. cbn [fst] in Hsl.
  assert (Hk3 : sized (set_snd k2 s)) by (destruct Hk2; by split).
  set (k3 := set_snd k2 s) in *. clearbody k3. set (resent := if (0 <? fastresend (cfg k3))%Z then _ else _).
  assert (Hp : exists b p, match ty with Full => flush_segments k3 resent new_segs (snd_buf (snd k3)) (mkPass (out k3) false 0 false)
      | AckOnly => (snd_buf (snd k3), mkPass (out k3) false 0 false) end = (b, p) /\ Forall small b /\ out_sized (p_out p)).
  { destruct Hk3 as [H1 H2 H3 [H4 H4'] H5]. destruct ty; [by eexists _, _|].
    destruct (flush_segments_sized k3 resent new_segs (snd_buf (snd k3)) (mkPass (out k3) false 0 false) H1 H3 H4' H5) as [I1 I2].
    destruct (flush_segments _ _ _ _ _) as [b p]. by exists b, p. }
  destruct Hp as (b & p & -> & Hb & Hp).
  set (o := if length (buf (p_out p)) =? 0 then p_out p else write_out (p_out p)).
  assert (Ho : out_sized o) by (unfold o; destruct (_ =? 0); [done|by apply write_out_sized]).
  assert (Hk4 : sized (set_out (set_snd k3 (set_buf (snd k3) b)) o)).
  { destruct Hk3 as [H1 H2 H3 [H4 H4'] H5]. by split; [..|split|]. }
  set (k4 := set_out _ o) in *. clearbody k4. destruct (p_dead p), Hk4; cbn [set_clk cfg]; destruct (nocwnd (cfg k4)); by split.
Qed.

Lemma flush_sized k : sized k -> sized (flush k).2.
Proof. intros Hk. unfold flush. destruct (negb _); [done|]. by apply flush_inner_sized. Qed.

Lemma update_sized k now : sized k -> sized (update k now).2.
Proof.
  intros Hk. unfold update. destruct (if (_ : bool) then (now, 0%Z) else _) as [ts slap]. destruct (0 <=? slap)%Z.
  - apply flush_sized. destruct Hk. by split.
  - destruct Hk. by split.
Qed.

(** ** Sending *)

Lemma fragments_small k count b : mss (cfg k) = m - KCP_OVERHEAD -> Forall small (fragments k count b).
Proof.
  intros Hm. revert b. induction count as [|count IH]; intros b; [done|]. cbn [fragments]. constructor; [|apply IH].
  unfold small. cbn. rewrite Hm, length_take. lia.
Qed.

Lemma extend_last_small q b : Forall small q -> Forall small (extend_last (m - KCP_OVERHEAD) q b).1.
Proof.
  intros Hq. unfold extend_last. destruct (last q) as [old|] eqn:Hl; [|done].
  destruct (Nat.ltb_spec (length (seg_data old)) (m - KCP_OVERHEAD)); [|done]. cbn [fst].
  apply Forall_app. split; [by apply Forall_take|]. constructor; [|done]. unfold small. cbn.
  rewrite length_app, length_take. lia.
Qed.

Lemma send_sized k b : sized k -> sized (send k b).2.
Proof.
  intros [H1 H2 H3 [H4 H4'] H5]. unfold send. destruct (_ =? 0); [by split|]. destruct (_ =? 0); [by split|].
  assert (Hq : Forall small (if stream (cfg k) then extend_last (mss (cfg k)) (snd_queue (snd k)) b else (snd_queue (snd k), b)).1).
  { destruct (stream (cfg k)); [|done]. rewrite H2. by apply extend_last_small. }
  destruct (if stream (cfg k) then _ else _) as [q rest]. cbn in Hq. cbn [set_snd cfg].
  destruct (_ && _); [by split; [..|split|]|]. destruct (255 <? _); [by split; [..|split|]|].
  split; try done. split; [|done]. cbn. apply Forall_app. split; [done|]. by apply fragments_small.
Qed.

(** ** Receiving and input *)

Lemma move_buf_snd k : cfg (move_buf k) = cfg k /\ snd (move_buf k) = snd k /\ out (move_buf k) = out k.
Proof. unfold move_buf. by destruct (move_loop _ _ _ _) as [[b q] nxt]. Qed.

Lemma sized_same k k' : cfg k' = cfg k -> snd k' = snd k -> out k' = out k -> sized k -> sized k'.
Proof. intros E1 E2 E3 []. by split; rewrite ?E1, ?E2, ?E3. Qed.

Lemma recv_sized k room : sized k -> sized (recv k room).2.
Proof.
  intros Hk. unfold recv. destruct (_ =? 0); [done|]. destruct (peeksize k); [|done]. destruct (_ <? _); [done|].
  destruct (merge _) as [d q]. match goal with |- context [move_buf ?x] => destruct (move_buf_snd x) as (E1 & E2 & E3) end.
  destruct (_ && _); by apply (sized_same k).
Qed.

Lemma parse_data_same k seg : cfg (parse_data k seg) = cfg k /\ snd (parse_data k seg) = snd k /\ out (parse_data k seg) = out k.
Proof. unfold parse_data. destruct (_ || _); [done|]. apply (move_buf_snd (set_rcv _ _)). Qed.

Lemma ack_loop_small sn b : Forall small b -> Forall small (ack_loop sn b).
Proof.
  induction 1 as [|seg b Hs Hb IH]; [done|]. cbn [ack_loop]. destruct (_ =? _)%Z; [constructor; [|done]|].
  - unfold small. cbn. lia.
  - destruct (_ <? 0)%Z; by constructor.
Qed.

Lemma una_loop_small una b n : Forall small b -> Forall small (una_loop una b n).1.
Proof.
  intros Hb. revert n. induction Hb as [|seg b Hs Hb IH]; intros n; [done|]. cbn [una_loop].
  destruct (0 <? _)%Z; [apply IH|]. by constructor.
Qed.

Lemma fastack_loop_small th sn ts b : Forall small b -> Forall small (fastack_loop th sn ts b).2.
Proof.
  induction 1 as [|seg b Hs Hb IH]; [done|]. cbn [fastack_loop]. destruct (_ <? 0)%Z; [by constructor|].
  destruct (fastack_loop th sn ts b) as [t rest]. cbn in IH. destruct (_ && _); by constructor.
Qed.

Lemma parse_ack_sized s sn : snd_sized s -> snd_sized (parse_ack s sn).
Proof. intros [H1 H2]. unfold parse_ack. destruct (not_in_flight s sn); [done|]. split; [done|]. by apply ack_loop_small. Qed.

Lemma parse_fastack_sized th s sn ts : snd_sized s -> snd_sized (parse_fastack th s sn ts).2.
Proof.
  intros [H1 H2]. unfold parse_fastack. destruct (not_in_flight s sn); [done|].
  pose proof (fastack_loop_small th sn ts (snd_buf s) H2). destruct (fastack_loop _ _ _ _). by split.
Qed.

Lemma input_segment_sized regular seg k sc : sized k -> sized (input_segment regular seg k sc).1.
Proof.
  intros Hk. unfold input_segment.
  set (k0 := if regular then _ else _). assert (Hk0 : sized k0) by (unfold k0; destruct regular, Hk; by split).
  clearbody k0. clear Hk. destruct Hk0 as [H1 H2 H3 [H4 H4'] H5].
  unfold parse_una. pose proof (una_loop_small (seg_una seg) (snd_buf (snd k0)) 0 H4') as Hu.
  destruct (una_loop _ _ _) as [b count]. cbn in Hu.
  set (k1 := set_snd k0 (shrink_buf (set_buf (snd k0) b))). assert (Hk1 : sized k1) by (by split; [..|split|]).
  clearbody k1. destruct (seg_cmd seg =? KCP_CMD_ACK)%Z.
  { pose proof (parse_fastack_sized (fastresend (cfg k1)) _ (seg_sn seg) (seg_ts seg) (parse_ack_sized _ (seg_sn seg) (sz_snd _ Hk1))) as Hf.
    destruct (parse_fastack _ _ _ _) as [t s]. cbn in *. destruct Hk1. by split. }
  destruct (seg_cmd seg =? KCP_CMD_PUSH)%Z.
  { destruct (_ <? 0)%Z; [|done]. cbn [fst]. set (k2 := set_rcv k1 _).
    assert (Hk2 : sized k2) by (destruct Hk1; by split). destruct (0 <=? _)%Z; [|done].
    destruct (parse_data_same k2 seg) as (E1 & E2 & E3). by apply (sized_same k2). }
  destruct (_ =? _)%Z; [|done]. destruct Hk1. by split.
Qed.

Lemma input_loop_sized fuel regular b k sc : sized k -> sized (input_loop fuel regular b k sc).2.
Proof.
  revert b k sc. induction fuel as [|fuel IH]; intros b k sc Hk; cbn [input_loop].
  { by destruct (_ <? _). }
  destruct (_ <? _); [done|]. destruct (decode_header b) as [[seg len] rest]. destruct (_ && _); [done|].
  set (k0 := if (_ =? _)%Z then k else _). assert (Hk0 : sized k0) by (unfold k0; destruct (_ =? _)%Z, Hk; by split).
  clearbody k0. destruct (_ <? _)%Z; [done|]. destruct (negb _); [done|].
  pose proof (input_segment_sized regular (with_data seg (take (Z.to_nat len) rest)) k0 sc Hk0) as Hi.
  destruct (input_segment _ _ _ _) as [k1 sc1]. by apply IH.
Qed.

Lemma input_sized k b regular nd : sized k -> sized (input k b regular nd).2.
Proof.
  intros Hk. unfold input. destruct (_ <? _); [done|].
  pose proof (input_loop_sized (length b) regular b k (mkScan None false) Hk) as Hl.
  destruct (input_loop _ _ _ _ _) as [[[rest sc]|e] k0]; [|done]. cbn in Hl.
  set (k1 := sample_rtt regular (latest sc) k0).
  assert (Hk1 : sized k1).
  { unfold k1, sample_rtt. destruct (latest sc); [|done]. destruct (_ && _); [|done]. unfold update_ack.
    destruct (if (_ =? 0)%Z then _ else _) as [srtt rttval]. destruct Hl. by split. }
  clearbody k1. destruct (grow_cwnd k1 _) as [c|]; [|done]. cbn [Datatypes.snd].
  assert (Hk2 : sized (set_cc k1 c)) by (destruct Hk1; by split).
  destruct (flush_now sc); [by apply flush_inner_sized|]. destruct (_ || _); [by apply flush_inner_sized|done].
Qed.

End Sized.

(** What is known of the size lets the past be recalled. *)
Lemma sized_base m base base' k : sized m base k -> base' `prefix_of` output (out k) -> sized m base' k.
Proof. intros [H1 H2 H3 H4 [H5 H6 H7]] Hp. by split; [..|split]. Qed.

End KcpSized.
