(* ===== verification/KcpCrypt.v ===== *)
(** * Packet encryption of kcptun (crates/meow-transport/src/kcptun/crypt.rs)

    The envelope of a datagram and its transforms. The two ciphers written in
    the source and the CFB loop are modelled; the ciphers, digests and key
    derivations of third-party crates are functions of a class. Random bytes
    are an argument. The outer [option] of [seal] is a panic. *)

From S2P Require Import Prelude Strings Bits Kcp.

Module KcpCrypt.
Import Kcp.

(** ** Constants *)

Definition INITIAL_VECTOR : bytes :=
  map z_byte [167; 115; 79; 156; 18; 172; 27; 1; 164; 21; 242; 193; 252; 120; 230; 107]%Z.
Definition SALT_XOR : bytes := b! "sH3CIVoF#rWLtJo6".
Definition KDF_SALT : bytes := b! "kcp-go".
Definition KDF_ROUNDS : Z := 4096.
Definition NONCE_SIZE : nat := 16.
Definition CRC_SIZE : nat := 4.
Definition CRYPT_HEADER_SIZE : nat := NONCE_SIZE + CRC_SIZE.
Definition GCM_NONCE_SIZE : nat := 12.
Definition MTU_LIMIT : nat := Z.to_nat 1500.

(** ** Third-party crates *)

(** The block ciphers the crates provide. *)
Inductive LibCipher := Aes128 | Aes192 | Aes256 | Blowfish | Twofish | Cast5 | TdesEde3.

Class CryptoLib := {
  pbkdf2_hmac_sha1 : bytes -> bytes -> Z -> nat -> bytes;
  crc32 : bytes -> Z;
  salsa20_keystream : bytes -> bytes -> nat -> bytes;
  lib_encrypt : LibCipher -> bytes -> bytes -> bytes;
  gcm_encrypt : bytes -> bytes -> bytes -> bytes;
  gcm_decrypt : bytes -> bytes -> bytes -> option bytes;
}.

(** A checksum has 32 bits, and AES-GCM
    appends a tag of 16 bytes and opens what it sealed. *)
Class CryptoLaws `{CryptoLib} := {
  crc32_bound s : (0 <= crc32 s < 2 ^ 32)%Z;
  gcm_length key nonce msg : length (gcm_encrypt key nonce msg) = length msg + 16;
  gcm_open key nonce msg : gcm_decrypt key nonce (gcm_encrypt key nonce msg) = Some msg;
}.

(** ** XOR of bytes *)

Definition byte_xor (a b : ascii) : ascii :=
  match a, b with
  | Ascii a0 a1 a2 a3 a4 a5 a6 a7, Ascii b0 b1 b2 b3 b4 b5 b6 b7 =>
      Ascii (xorb a0 b0) (xorb a1 b1) (xorb a2 b2) (xorb a3 b3) (xorb a4 b4) (xorb a5 b5) (xorb a6 b6) (xorb a7 b7)
  end.

(** [for (b, t) in buf.iter_mut().zip(tbl) { *b ^= *t }]. *)
Fixpoint xor_zip (buf tbl : bytes) : bytes :=
  match buf, tbl with
  | b :: buf, t :: tbl => byte_xor b t :: xor_zip buf tbl
  | _, _ => buf
  end.

(** ** Block ciphers *)

(** The trait: the block size, and a block to its encryption. *)
Record BlockCipher := mkCipher { block_size : nat; encrypt_block : bytes -> bytes }.

(** The loop over the whole blocks, then the tail. *)
Fixpoint cfb_loop (fuel : nat) (c : BlockCipher) (decrypt : bool) (tbl buf : bytes) : option bytes :=
  if block_size c <=? length buf then
    match fuel with
    | 0 => None
    | S fuel =>
        let block := take (block_size c) buf in
        let out := xor_zip block tbl in
        let tbl := encrypt_block c (if decrypt then block else out) in
        rest ← cfb_loop fuel c decrypt tbl (drop (block_size c) buf);
        Some (out ++ rest)
    end
  else Some (xor_zip buf tbl).

Definition cfb (c : BlockCipher) (buf : bytes) (decrypt : bool) : option bytes :=
  cfb_loop (length buf) c decrypt (encrypt_block c (take (block_size c) INITIAL_VECTOR)) buf.

Definition u32_at (s : bytes) (i : nat) : Z := from_be_bytes (take 4 (drop i s)).

Definition key_words (key : bytes) : list Z := map (fun i => u32_at key (4 * i)) [0; 1; 2; 3].

Definition DELTA : Z := 0x9E3779B9.

Definition word (k : list Z) (i : Z) : Z := nth (Z.to_nat i) k 0%Z.

Definition shl (v n : Z) : Z := w32 (Z.shiftl v n).

Fixpoint tea_rounds (n : nat) (k : list Z) (v0 v1 sum : Z) : Z * Z :=
  match n with
  | 0 => (v0, v1)
  | S n =>
      let sum := wadd sum DELTA in
      let v0 := wadd v0 (Z.lxor (Z.lxor (wadd (shl v1 4) (word k 0)) (wadd v1 sum)) (wadd (Z.shiftr v1 5) (word k 1))) in
      let v1 := wadd v1 (Z.lxor (Z.lxor (wadd (shl v0 4) (word k 2)) (wadd v0 sum)) (wadd (Z.shiftr v0 5) (word k 3))) in
      tea_rounds n k v0 v1 sum
  end.

Definition tea16_encrypt (k : list Z) (block : bytes) : bytes :=
  let '(v0, v1) := tea_rounds 8 k (u32_at block 0) (u32_at block 4) 0 in to_be_bytes 4 v0 ++ to_be_bytes 4 v1.

Definition tea16 (key : bytes) : BlockCipher := mkCipher 8 (tea16_encrypt (key_words key)).

Fixpoint xtea_rounds (n : nat) (k : list Z) (v0 v1 sum : Z) : Z * Z :=
  match n with
  | 0 => (v0, v1)
  | S n =>
      let v0 := wadd v0 (Z.lxor (wadd (Z.lxor (shl v1 4) (Z.shiftr v1 5)) v1) (wadd sum (word k (Z.land sum 3)))) in
      let sum := wadd sum DELTA in
      let v1 := wadd v1 (Z.lxor (wadd (Z.lxor (shl v0 4) (Z.shiftr v0 5)) v0)
        (wadd sum (word k (Z.land (Z.shiftr sum 11) 3)))) in
      xtea_rounds n k v0 v1 sum
  end.

Definition xtea_encrypt (k : list Z) (block : bytes) : bytes :=
  let '(v0, v1) := xtea_rounds 32 k (u32_at block 0) (u32_at block 4) 0 in to_be_bytes 4 v0 ++ to_be_bytes 4 v1.

Definition xtea (key : bytes) : BlockCipher := mkCipher 8 (xtea_encrypt (key_words key)).

(** ** The envelope *)

Inductive Crypt :=
  | Null
  | None_
  | Xor (tbl : bytes)
  | Salsa20 (key : bytes)
  | Cfb (c : BlockCipher)
  | AesGcm (key : bytes).

Inductive CryptError := Unsupported | ShortAead | GcmOpen | ShortPacket | CrcMismatch.

Section Envelope.
Context `{CL : CryptoLib}.

Definition session_key (key : bytes) : bytes := pbkdf2_hmac_sha1 key KDF_SALT KDF_ROUNDS 32.

Definition lib_block_size (c : LibCipher) : nat :=
  match c with Aes128 | Aes192 | Aes256 | Twofish => 16 | Blowfish | Cast5 | TdesEde3 => 8 end.

Definition blk (c : LibCipher) (key : bytes) : BlockCipher := mkCipher (lib_block_size c) (lib_encrypt c key).

Definition crypt_new (name key : bytes) : result CryptError Crypt :=
  let pass := session_key key in
  if bool_decide (name = b! "null") then Ok Null
  else if bool_decide (name = b! "tea") then Ok (Cfb (tea16 (take 16 pass)))
  else if bool_decide (name = b! "xor") then Ok (Xor (pbkdf2_hmac_sha1 pass SALT_XOR 32 MTU_LIMIT))
  else if bool_decide (name = b! "none") then Ok None_
  else if bool_decide (name = b! "aes-128") then Ok (Cfb (blk Aes128 (take 16 pass)))
  else if bool_decide (name = b! "aes-192") then Ok (Cfb (blk Aes192 (take 24 pass)))
  else if bool_decide (name = b! "blowfish") then Ok (Cfb (blk Blowfish pass))
  else if bool_decide (name = b! "twofish") then Ok (Cfb (blk Twofish pass))
  else if bool_decide (name = b! "cast5") then Ok (Cfb (blk Cast5 (take 16 pass)))
  else if bool_decide (name = b! "3des") then Ok (Cfb (blk TdesEde3 (take 24 pass)))
  else if bool_decide (name = b! "xtea") then Ok (Cfb (xtea (take 16 pass)))
  else if bool_decide (name = b! "salsa20") then Ok (Salsa20 pass)
  else if bool_decide (name = b! "aes-128-gcm") then Ok (AesGcm (take 16 pass))
  else if bool_decide (name = b! "sm4") then Err Unsupported
  else Ok (Cfb (blk Aes256 pass)).

Definition header_size (c : Crypt) : nat :=
  match c with Null => 0 | AesGcm _ => GCM_NONCE_SIZE | _ => CRYPT_HEADER_SIZE end.

Definition aead_overhead (c : Crypt) : nat := match c with AesGcm _ => 16 | _ => 0 end.

Definition transform (c : Crypt) (buf : bytes) (decrypt : bool) : option bytes :=
  match c with
  | Null | None_ => Some buf
  | Xor tbl => Some (xor_zip (take MTU_LIMIT buf) tbl ++ drop MTU_LIMIT buf)
  | Salsa20 key =>
      if length buf <? 8 then Some buf
      else Some (take 8 buf ++ xor_zip (drop 8 buf) (salsa20_keystream key (take 8 buf) (length buf - 8)))
  | Cfb c => cfb c buf decrypt
  | AesGcm _ => None
  end.

(** [rng n] is what [fill_bytes] writes into [n] bytes. *)
Definition seal (c : Crypt) (rng : nat -> bytes) (buf : bytes) : option bytes :=
  match c with
  | Null => Some buf
  | AesGcm key =>
      if length buf <? GCM_NONCE_SIZE then None
      else
        let nonce := rng GCM_NONCE_SIZE in
        Some (nonce ++ gcm_encrypt key nonce (drop GCM_NONCE_SIZE buf))
  | _ =>
      if length buf <? CRYPT_HEADER_SIZE then None
      else
        let payload := drop CRYPT_HEADER_SIZE buf in
        transform c (rng NONCE_SIZE ++ to_le_bytes 4 (crc32 payload) ++ payload) false
  end.

Definition open (c : Crypt) (buf : bytes) : option (result CryptError bytes) :=
  match c with
  | Null => Some (Ok buf)
  | AesGcm key =>
      if length buf <? GCM_NONCE_SIZE + 16 then Some (Err ShortAead)
      else Some (ok_or GcmOpen (gcm_decrypt key (take GCM_NONCE_SIZE buf) (drop GCM_NONCE_SIZE buf)))
  | _ =>
      if length buf <? CRYPT_HEADER_SIZE then Some (Err ShortPacket)
      else
        buf ← transform c buf true;
        let stored := from_le_bytes (take CRC_SIZE (drop NONCE_SIZE buf)) in
        if negb (stored =? crc32 (drop CRYPT_HEADER_SIZE buf))%Z then Some (Err CrcMismatch)
        else Some (Ok (drop CRYPT_HEADER_SIZE buf))
  end.

End Envelope.

(** ** The test vectors of the source *)

Definition demo_key : bytes := map (fun i => z_byte (Z.of_nat i)) (seq 0 16).

Lemma tea_vectors :
  encrypt_block (tea16 demo_key) (b! "ABCDEFGH") = map z_byte [0x1c; 0x5f; 0x50; 0xd6; 0xf3; 0xd8; 0xed; 0xb9]%Z /\
  encrypt_block (xtea demo_key) (b! "ABCDEFGH") = map z_byte [0x49; 0x7d; 0xf3; 0xd0; 0x72; 0x61; 0x2c; 0xb5]%Z.
Proof. vm_compute. done. Qed.

(** ** Lemmas *)

Lemma byte_xor_twice a b : byte_xor (byte_xor a b) b = a.
Proof. destruct a, b. cbn. by rewrite !xorb_assoc, !xorb_nilpotent, !xorb_false_r. Qed.

Lemma xor_zip_twice buf tbl : xor_zip (xor_zip buf tbl) tbl = buf.
Proof.
  revert tbl. induction buf as [|b buf IH]; intros [|t tbl]; [done|done|done|]. cbn [xor_zip].
  by rewrite byte_xor_twice, IH.
Qed.

Lemma xor_zip_length buf tbl : length (xor_zip buf tbl) = length buf.
Proof. revert tbl. induction buf as [|b buf IH]; intros [|t tbl]; cbn [xor_zip length]; auto. Qed.

(** Encryption feeds back the block it wrote, decryption the one it read. *)
Lemma cfb_loop_roundtrip c fuel tbl buf :
  0 < block_size c -> length buf <= fuel ->
  exists ct, cfb_loop fuel c false tbl buf = Some ct /\ length ct = length buf /\
    cfb_loop fuel c true tbl ct = Some buf.
Proof.
  intros Hbs. revert tbl buf. induction fuel as [|fuel IH]; intros tbl buf Hf; cbn [cfb_loop];
    destruct (Nat.leb_spec (block_size c) (length buf)) as [Hb|Hb].
  - lia.
  - exists (xor_zip buf tbl). rewrite xor_zip_length. split_and!; [done|done|].
    by rewrite (proj2 (Nat.leb_gt _ _)), xor_zip_twice by lia.
  - set (out := xor_zip (take (block_size c) buf) tbl).
    assert (Hout : length out = block_size c) by (unfold out; rewrite xor_zip_length, length_take; lia).
    destruct (IH (encrypt_block c out) (drop (block_size c) buf)) as (rest & -> & Hl & Hd).
    { rewrite length_drop. lia. }
    exists (out ++ rest). rewrite length_app, Hl, length_drop, Hout. split_and!; [done|lia|].
    rewrite (proj2 (Nat.leb_le _ _)) by lia. rewrite take_app_length', drop_app_length' by done. rewrite Hd.
    cbn [mbind option_bind]. unfold out. by rewrite xor_zip_twice, take_drop.
  - exists (xor_zip buf tbl). rewrite xor_zip_length. split_and!; [done|done|].
    by rewrite (proj2 (Nat.leb_gt _ _)), xor_zip_twice by lia.
Qed.

Section Roundtrip.
Context `{CL : CryptoLib, LW : !CryptoLaws}.

(** The ciphers [crypt_new] builds have blocks. *)
Definition crypt_ok (c : Crypt) : Prop := match c with Cfb c => 0 < block_size c | _ => True end.

Lemma crypt_new_ok name key : name <> b! "sm4" -> exists c, crypt_new name key = Ok c /\ crypt_ok c.
Proof.
  intros Hn. unfold crypt_new. repeat (case_bool_decide; [eexists; split; [reflexivity|]; cbn; lia || done|]).
  rewrite bool_decide_eq_false_2 by done. eexists. split; [reflexivity|]. cbn. lia.
Qed.

Lemma transform_roundtrip c buf :
  crypt_ok c -> match c with AesGcm _ => False | _ => True end ->
  exists ct, transform c buf false = Some ct /\ length ct = length buf /\ transform c ct true = Some buf.
Proof.
  intros Hok Hc. destruct c as [| |tbl|key|c|key]; cbn [transform] in *; try done; try by exists buf.
  - eexists. split; [done|]. rewrite length_app, xor_zip_length, length_take, length_drop. split; [lia|].
    f_equal. destruct (Nat.le_gt_cases MTU_LIMIT (length buf)) as [H|H].
    + rewrite take_app_length', drop_app_length' by (rewrite xor_zip_length, length_take; lia).
      by rewrite xor_zip_twice, take_drop.
    + rewrite !(take_ge buf), !(drop_ge buf), !app_nil_r by lia.
      by rewrite take_ge, drop_ge, app_nil_r, xor_zip_twice by (rewrite xor_zip_length; lia).
  - destruct (Nat.ltb_spec (length buf) 8) as [H|H].
    { exists buf. by rewrite (proj2 (Nat.ltb_lt _ _)) by done. }
    eexists. split; [done|]. rewrite length_app, xor_zip_length, length_take, length_drop. split; [lia|].
    rewrite (proj2 (Nat.ltb_ge _ _)) by lia.
    rewrite take_app_length', drop_app_length' by (rewrite length_take; lia).
    replace (8 `min` length buf + (length buf - 8) - 8) with (length buf - 8) by lia. by rewrite xor_zip_twice, take_drop.
  - unfold cfb. destruct (cfb_loop_roundtrip c (length buf) (encrypt_block c (take (block_size c) INITIAL_VECTOR)) buf)
      as (ct & H1 & H2 & H3); [done|done|]. exists ct. by rewrite H2.
Qed.

(** What [seal] wrote, [open] reads. *)
Lemma seal_open c rng head payload :
  crypt_ok c -> (forall n, length (rng n) = n) -> length head = header_size c ->
  exists wire, seal c rng (head ++ payload) = Some wire /\
    length wire = header_size c + length payload + aead_overhead c /\ open c wire = Some (Ok payload).
Proof.
  intros Hok Hrng Hh. destruct c as [| |tbl|key|c|key].
  { exists payload. cbn in *. destruct head; [|done]. split_and!; [done|lia|done]. }
  5:{ cbn [seal open header_size aead_overhead] in *. rewrite (proj2 (Nat.ltb_ge _ _)) by (rewrite length_app; lia).
    rewrite drop_app_length' by done. eexists. split; [done|]. rewrite length_app, Hrng, gcm_length. split; [lia|].
    rewrite (proj2 (Nat.ltb_ge _ _)) by lia. rewrite take_app_length', drop_app_length' by (by rewrite Hrng).
    by rewrite gcm_open. }
  all: cbn [seal open header_size aead_overhead] in *; rewrite (proj2 (Nat.ltb_ge _ _)) by (rewrite length_app; lia);
    rewrite drop_app_length' by done;
    set (plain := rng NONCE_SIZE ++ to_le_bytes 4 (crc32 payload) ++ payload);
    assert (Hlen : length plain = CRYPT_HEADER_SIZE + length payload)
      by (unfold plain; rewrite !length_app, Hrng, to_le_bytes_length; done);
    match goal with |- exists wire, transform ?c _ _ = _ /\ _ =>
      destruct (transform_roundtrip c plain Hok I) as (wire & H1 & H2 & H3) end;
    exists wire; rewrite (proj2 (Nat.ltb_ge (length wire) _)) by lia;
    split; [exact H1|]; split; [lia|]; rewrite H3; cbn [mbind option_bind];
    assert (Hd : drop CRYPT_HEADER_SIZE plain = payload)
      by (unfold plain; rewrite (assoc_L (++)); apply drop_app_length';
          rewrite length_app, Hrng, to_le_bytes_length; done);
    rewrite Hd; unfold plain; rewrite drop_app_length' by (by rewrite Hrng);
    rewrite take_app_length' by (by rewrite to_le_bytes_length);
    rewrite le_roundtrip_small by apply crc32_bound; rewrite Z.eqb_refl; done.
Qed.

(** C35: every cipher name but [sm4] gives a cipher; sealing a datagram of
    any size with it never panics, adds the header and the tag, and opening
    the result gives the datagram back. *)
Theorem crypt_roundtrip name key rng head payload :
  name <> b! "sm4" -> (forall n, length (rng n) = n) ->
  exists c, crypt_new name key = Ok c /\
    (length head = header_size c ->
     exists wire, seal c rng (head ++ payload) = Some wire /\
       length wire = header_size c + length payload + aead_overhead c /\ open c wire = Some (Ok payload)).
Proof.
  intros Hn Hrng. destruct (crypt_new_ok name key Hn) as (c & Hc & Hok). exists c. split; [done|].
  intros Hh. by apply seal_open.
Qed.

End Roundtrip.

(** ** A concrete library *)

#[export] Instance toy_lib : CryptoLib := {|
  pbkdf2_hmac_sha1 pass salt rounds n := take n (pass ++ salt ++ replicate n (z_byte rounds));
  crc32 s := Z.of_nat (length s) `mod` 2 ^ 32;
  salsa20_keystream key nonce n := replicate n (z_byte 5);
  lib_encrypt c key block := xor_zip (reverse block) key;
  gcm_encrypt key nonce msg := xor_zip msg key ++ replicate 16 (z_byte 9);
  gcm_decrypt key nonce ct := Some (xor_zip (take (length ct - 16) ct) key);
|}%Z.

#[export] Instance toy_laws : CryptoLaws.
Proof.
  split; cbn [crc32 gcm_encrypt gcm_decrypt toy_lib].
  - intros s. apply Z.mod_pos_bound. lia.
  - intros key nonce msg. by rewrite length_app, xor_zip_length, length_replicate.
  - intros key nonce msg. rewrite length_app, length_replicate, xor_zip_length.
    replace (length msg + 16 - 16) with (length (xor_zip msg key)) by (rewrite xor_zip_length; lia).
    by rewrite take_app_length, xor_zip_twice.
Qed.

Lemma crypt_roundtrip_witness :
  exists c, crypt_new (b! "xtea") (b! "secret") = Ok c /\
    exists wire, seal c (fun n => replicate n "r"%char) (replicate 20 "0"%char ++ b! "a datagram") = Some wire /\
      open c wire = Some (Ok (b! "a datagram")).
Proof.
  destruct (crypt_roundtrip (b! "xtea") (b! "secret") (fun n => replicate n "r"%char) (replicate 20 "0"%char) (b! "a datagram"))
    as (c & Hc & H); [done|intros n; apply length_replicate|].
  exists c. split; [exact Hc|]. destruct H as (wire & H1 & _ & H3).
  - assert (E : crypt_new (b! "xtea") (b! "secret") = Ok (Cfb (xtea (take 16 (session_key (b! "secret")))))) by reflexivity.
    rewrite E in Hc. injection Hc as <-. reflexivity.
  - exists wire. by split.
Defined.

End KcpCrypt.
