(* ===== verification/Fec.v ===== *)
(** * Forward error correction of kcptun (crates/meow-transport/src/kcptun/fec.rs)

    The encoder, the decoder and the probe for the shard counts of the peer.
    The Reed-Solomon crate is a class. Clocks are arguments, in nanoseconds.
    The outer [option] of [encode] is a panic; nothing in [decode] indexes out
    of range, because its first test is on the length of the packet and a row
    index is a remainder by the number of rows. *)

From stdpp Require Import gmap.
From S2P Require Import Prelude Strings Bits Kcp KcpCrypt.

Module Fec.
Import Kcp KcpCrypt.

(** ** Constants *)

Definition FEC_HEADER_SIZE : nat := 6.
Definition FEC_HEADER_SIZE_PLUS2 : nat := FEC_HEADER_SIZE + 2.
Definition TYPE_DATA : Z := 0xf1.
Definition TYPE_PARITY : Z := 0xf2.
Definition MAX_SHARD_SETS : Z := 3.

(** ** The reed-solomon-erasure crate *)

(** [ReedSolomon::new] for the numbers of data and parity shards, [encode]
    on all rows, and [reconstruct_data] on the rows that are there; [None] is
    an error, which leaves the rows as they were. *)
Class RsLib := {
  ReedSolomon : Type;
  rs_new : nat -> nat -> option ReedSolomon;
  rs_encode : ReedSolomon -> list bytes -> option (list bytes);
  reconstruct_data : ReedSolomon -> list (option bytes) -> option (list (option bytes));
}.

Definition itimediff (a b : Z) : Z := to_i32 (wsub a b).

(** [u32::MAX / shard_size * shard_size]. *)
Definition paws_of (shard_size : nat) : Z := wmul ((2 ^ 32 - 1) / Z.of_nat shard_size) (Z.of_nat shard_size).

(** ** Slices *)

(** [buf[off..off + x.len()].copy_from_slice(&x)]. *)
Definition write_at (buf : bytes) (off : nat) (x : bytes) : option bytes :=
  if off + length x <=? length buf then Some (take off buf ++ x ++ drop (off + length x) buf) else None.

(** [Vec::resize(n, 0)]. *)
Definition resize0 (n : nat) (row : bytes) : bytes := take n row ++ replicate (n - length row) (z_byte 0).

Section Codec.
Context `{RS : RsLib}.

(** ** The encoder *)

Record FecEncoder := mkEncoder {
  data_shards : nat;
  parity_shards : nat;
  shard_size : nat;
  paws : Z;
  next : Z;
  shard_count : nat;
  max_size : nat;
  header_offset : nat;
  payload_offset : nat;
  shard_cache : list bytes;
  ts_latest : option Z;
  codec : ReedSolomon;
}.

Definition encoder_new (data_shards parity_shards header_offset : nat) : option FecEncoder :=
  if (data_shards =? 0) || (parity_shards =? 0) || (256 <? data_shards + parity_shards) then None
  else
    codec ← rs_new data_shards parity_shards;
    let shard_size := data_shards + parity_shards in
    Some (mkEncoder data_shards parity_shards shard_size (paws_of shard_size) 0 0 0 header_offset
      (header_offset + FEC_HEADER_SIZE) (replicate shard_size (replicate MTU_LIMIT (z_byte 0))) None codec).

Definition set_next (e : FecEncoder) (next : Z) : FecEncoder :=
  mkEncoder (data_shards e) (parity_shards e) (shard_size e) (paws e) next (shard_count e) (max_size e) (header_offset e)
    (payload_offset e) (shard_cache e) (ts_latest e) (codec e).

Definition set_rows (e : FecEncoder) (count size : nat) (rows : list bytes) : FecEncoder :=
  mkEncoder (data_shards e) (parity_shards e) (shard_size e) (paws e) (next e) count size (header_offset e)
    (payload_offset e) rows (ts_latest e) (codec e).

Definition set_latest (e : FecEncoder) (now : Z) : FecEncoder :=
  mkEncoder (data_shards e) (parity_shards e) (shard_size e) (paws e) (next e) (shard_count e) (max_size e)
    (header_offset e) (payload_offset e) (shard_cache e) (Some now) (codec e).

(** [self.next = self.next.wrapping_add(n) % self.paws]. *)
Definition advance (e : FecEncoder) (n : Z) : FecEncoder := set_next e (wadd (next e) n `mod` paws e).

Definition skip_parity (e : FecEncoder) : FecEncoder := advance e (w32 (Z.of_nat (parity_shards e))).

(** The sequence number and the type before the payload. *)
Definition write_header (e : FecEncoder) (buf : bytes) (ty : Z) : option bytes :=
  buf ← write_at buf (header_offset e) (to_le_bytes 4 (next e));
  write_at buf (header_offset e + 4) (to_le_bytes 2 ty).

(** The parity rows from [k] on become packets. *)
Fixpoint seal_parity (n k : nat) (e : FecEncoder) : option (FecEncoder * list bytes) :=
  match n with
  | 0 => Some (e, [])
  | S n =>
      row ← shard_cache e !! k;
      row ← write_header e row TYPE_PARITY;
      if length row <? max_size e then None
      else
        let packet := take (max_size e) row in
        let e := advance (set_rows e (shard_count e) (max_size e) (<[k := row]> (shard_cache e))) 1 in
        '(e, packets) ← seal_parity n (S k) e;
        Some (e, packet :: packets)
  end.

(** The rows of one generation, coded in place. *)
Definition encode_rows (e : FecEncoder) : option (FecEncoder * list bytes) :=
  if max_size e <? payload_offset e then None
  else
    let rows := resize0 (max_size e) <$> shard_cache e in
    let e := set_rows e (shard_count e) (max_size e) rows in
    match rs_encode (codec e) (drop (payload_offset e) <$> rows) with
    | Some coded =>
        let rows := zip_with (fun row x => take (payload_offset e) row ++ x) rows coded in
        seal_parity (shard_size e - data_shards e) (data_shards e) (set_rows e (shard_count e) (max_size e) rows)
    | None => Some (skip_parity e, [])
    end.

Definition continuous (e : FecEncoder) (now rto_ms : Z) : bool :=
  match ts_latest e with Some t => (Z.max 0 (now - t) / 1000000 <? rto_ms)%Z | None => false end.

(** A generation that is full is coded, or its parity is skipped. *)
Definition finish_generation (e : FecEncoder) (now rto_ms : Z) : option (FecEncoder * list bytes) :=
  if shard_count e =? data_shards e then
    '(e, parity) ← (if continuous e now rto_ms then encode_rows e else Some (skip_parity e, []));
    Some (set_rows e 0 0 (shard_cache e), parity)
  else Some (e, []).

(** The packet, its parity packets and the state after them. *)
Definition encode (e : FecEncoder) (buf : bytes) (now rto_ms : Z) : option (FecEncoder * bytes * list bytes) :=
  buf ← write_header e buf TYPE_DATA;
  let e := advance e 1 in
  if length buf <? payload_offset e then None
  else
    let payload_len := length buf - payload_offset e in
    buf ← write_at buf (payload_offset e) (to_le_bytes 2 (Z.of_nat payload_len `mod` 65536));
    if length (shard_cache e) <=? shard_count e then None
    else
      let rows := <[shard_count e := buf]> (shard_cache e) in
      let e := set_rows e (S (shard_count e)) (Nat.max (max_size e) (length buf)) rows in
      '(e, parity) ← finish_generation e now rto_ms;
      Some (set_latest e now, buf, parity).

(** ** The probe *)

Record AutoTune := mkTune { pulses : list (bool * Z); tune_head : nat; tune_tail : nat; tune_count : nat }.

Definition tune_new : AutoTune := mkTune (replicate 258 (false, 0%Z)) 0 0 0.

Definition sample (t : AutoTune) (bit : bool) (seq : Z) : AutoTune :=
  let pulses := <[tune_tail t := (bit, seq)]> (pulses t) in
  let tail := (tune_tail t + 1) `mod` 258 in
  if tune_count t <? 258 then mkTune pulses (tune_head t) tail (tune_count t + 1)
  else mkTune pulses ((tune_head t + 1) `mod` 258) tail (tune_count t).

Definition samples (t : AutoTune) : list (bool * Z) :=
  map (fun i => default (false, 0%Z) (pulses t !! ((tune_head t + i) `mod` 258))) (seq 0 (tune_count t)).

(** [sort_by_key], which is stable. *)
Fixpoint insert_by {A} (key : A -> Z) (x : A) (l : list A) : list A :=
  match l with
  | [] => [x]
  | y :: l' => if (key x <=? key y)%Z then x :: l else y :: insert_by key x l'
  end.
Definition sort_by_key {A} (key : A -> Z) (l : list A) : list A := foldr (insert_by key) [] l.

Definition serial_min (l : list (bool * Z)) : Z :=
  foldl (fun acc x => if (itimediff x.2 acc <? 0)%Z then x.2 else acc) (default (false, 0%Z) (head l)).2 l.

(** The first edge from one value to another: how many samples are before it,
    and what follows from it on; nothing if a gap comes first. *)
Fixpoint edge (is_edge : bool -> bool -> bool) (prev : bool * Z) (l : list (bool * Z)) (n : nat) :
    option (nat * (bool * Z) * list (bool * Z)) :=
  match l with
  | [] => None
  | cur :: l =>
      if (wadd prev.2 1 =? cur.2)%Z then
        if is_edge prev.1 cur.1 then Some (n, cur, l) else edge is_edge cur l (S n)
      else None
  end.

Definition find_period (t : AutoTune) (bit : bool) : option nat :=
  if tune_count t <? 3 then None
  else
    let l := samples t in
    let origin := serial_min l in
    match sort_by_key (fun x => wsub x.2 origin) l with
    | [] => None
    | first :: rest =>
        '(_, cur, rest) ← edge (fun p c => negb (Bool.eqb p bit) && Bool.eqb c bit) first rest 1;
        '(width, _, _) ← edge (fun p c => Bool.eqb p bit && negb (Bool.eqb c bit)) cur rest 1;
        Some width
    end.

(** ** The decoder *)

Record ShardSet := mkSet { seqids : gset Z; packets : list bytes }.

Record FecDecoder := mkDecoder {
  dec_data : nat;
  dec_parity : nat;
  dec_size : nat;
  dec_paws : Z;
  should_tune : bool;
  shard_set : gmap Z ShardSet;
  newest_shard_id : Z;
  auto_tune : AutoTune;
  dec_codec : ReedSolomon;
}.

Definition decoder_new (data_shards parity_shards : nat) : option FecDecoder :=
  let '(ds, ps) :=
    if (data_shards =? 0) || (parity_shards =? 0) || (256 <? data_shards + parity_shards) then (1, 1)
    else (data_shards, parity_shards) in
  codec ← rs_new ds ps;
  Some (mkDecoder ds ps (ds + ps) (paws_of (ds + ps)) false ∅ 0 tune_new codec).

Definition seqid (pkt : bytes) : Z := from_le_bytes (take 4 pkt).
Definition flag (pkt : bytes) : Z := from_le_bytes (take 2 (drop 4 pkt)).

Definition with_tune (d : FecDecoder) (t : AutoTune) (b : bool) : FecDecoder :=
  mkDecoder (dec_data d) (dec_parity d) (dec_size d) (dec_paws d) b (shard_set d) (newest_shard_id d) t (dec_codec d).

Definition with_sets (d : FecDecoder) (sets : gmap Z ShardSet) (newest : Z) : FecDecoder :=
  mkDecoder (dec_data d) (dec_parity d) (dec_size d) (dec_paws d) (should_tune d) sets newest (auto_tune d) (dec_codec d).

(** The type does not fit the position. *)
Definition mismatch (d : FecDecoder) (pkt : bytes) : bool :=
  if (seqid pkt `mod` Z.of_nat (dec_size d) <? Z.of_nat (dec_data d))%Z then negb (flag pkt =? TYPE_DATA)%Z
  else negb (flag pkt =? TYPE_PARITY)%Z.

(** Take over the shard counts of the peer, once both are known. *)
Definition retune (d : FecDecoder) : FecDecoder :=
  match find_period (auto_tune d) true, find_period (auto_tune d) false with
  | Some ds, Some ps =>
      if (0 <? ds) && (0 <? ps) && (ds + ps <=? 256) then
        if negb (ds =? dec_data d) || negb (ps =? dec_parity d) then
          mkDecoder ds ps (ds + ps) (paws_of (ds + ps)) false ∅ (newest_shard_id d) (auto_tune d)
            (default (dec_codec d) (rs_new ds ps))
        else with_tune d (auto_tune d) false
      else d
  | _, _ => d
  end.

(** The row of a packet. *)
Definition row_index (size : nat) (pkt : bytes) : nat := Z.to_nat (seqid pkt `mod` Z.of_nat size).

(** The packets of a generation as rows, which of them are data, how many,
    and the longest row. *)
Record Rows := mkRows { shards : list (option bytes); present_data : list bool; num_data : nat; maxlen : nat }.

Definition add_row (size : nat) (r : Rows) (pkt : bytes) : Rows :=
  let idx := row_index size pkt in
  let is_data := (flag pkt =? TYPE_DATA)%Z in
  mkRows (<[idx := Some (drop FEC_HEADER_SIZE pkt)]> (shards r))
    (if is_data then <[idx := true]> (present_data r) else present_data r)
    (if is_data then S (num_data r) else num_data r)
    (Nat.max (maxlen r) (length pkt - FEC_HEADER_SIZE)).

Definition collect (size : nat) (pkts : list bytes) : Rows :=
  foldl (add_row size) (mkRows (replicate size None) (replicate size false) 0 0) pkts.

(** The data rows that were not there. *)
Definition missing_rows (data : nat) (present : list bool) (rows : list (option bytes)) : list bytes :=
  omap (fun '(p, row) => if p : bool then None else row) (zip (take data present) (take data rows)).

Definition recover (d : FecDecoder) (pkts : list bytes) : list bytes :=
  let r := collect (dec_size d) pkts in
  if num_data r <? dec_data d then
    match reconstruct_data (dec_codec d) (option_map (resize0 (maxlen r)) <$> shards r) with
    | Some rows => missing_rows (dec_data d) (present_data r) rows
    | None => []
    end
  else [].

(** Generations that are too old. *)
Definition discard (size newest : Z) (sets : gmap Z ShardSet) : gmap Z ShardSet :=
  filter (fun '(sid, _) => (itimediff (wmul newest size) (wmul sid size) <=? MAX_SHARD_SETS * size)%Z = true) sets.

(** A packet that fits joins its generation. *)
Definition add_packet (d : FecDecoder) (pkt : bytes) : FecDecoder * list bytes :=
  let size := Z.of_nat (dec_size d) in
  let shard_id := (seqid pkt / size)%Z in
  let shard := default (mkSet ∅ []) (shard_set d !! shard_id) in
  if bool_decide (seqid pkt ∈ seqids shard) then (d, [])
  else
    let shard := mkSet ({[seqid pkt]} ∪ seqids shard) (packets shard ++ [pkt]) in
    let '(shard, recovered) :=
      if dec_data d <=? length (packets shard) then (mkSet ∅ [], recover d (packets shard)) else (shard, []) in
    let newest :=
      if (0 <? itimediff (wmul shard_id size) (wmul (newest_shard_id d) size))%Z then shard_id else newest_shard_id d in
    (with_sets d (discard size newest (<[shard_id := shard]> (shard_set d))) newest, recovered).

Definition decode (d : FecDecoder) (pkt : bytes) : FecDecoder * list bytes :=
  if length pkt <? FEC_HEADER_SIZE_PLUS2 then (d, [])
  else
    let d := with_tune d (sample (auto_tune d) (flag pkt =? TYPE_DATA)%Z (seqid pkt)) (should_tune d) in
    if (dec_paws d <=? seqid pkt)%Z then (d, [])
    else
      let d := with_tune d (auto_tune d) (should_tune d || mismatch d pkt) in
      if should_tune d then (retune d, []) else add_packet d pkt.

End Codec.
End Fec.
