(* ===== verification/FecEncode.v ===== *)
(** * What the FEC encoder sends

    The laws of the Reed-Solomon crate, and the encoder against a list of
    generations: every packet it emits is a shard of the generation and the
    position its sequence number says. *)

From stdpp Require Import gmap.
From S2P Require Import Prelude Strings Bits Kcp KcpCrypt Fec.

Module FecEncode.
Import Kcp KcpCrypt Fec.

(** Coding keeps the data rows and writes parity rows of the same length, and
    any rows that are at least as many as the data rows give the data rows
    back. *)
Class RsLaws `{RS : RsLib} := {
  rs_parity : ReedSolomon -> list bytes -> list bytes;
  rs_encode_ok ds ps c n data junk :
    rs_new ds ps = Some c -> 0 < n -> length data = ds -> length junk = ps ->
    Forall (fun row => length row = n) data -> Forall (fun row => length row = n) junk ->
    rs_encode c (data ++ junk) = Some (data ++ rs_parity c data);
  rs_parity_shape ds ps c n data :
    rs_new ds ps = Some c -> 0 < n -> length data = ds -> Forall (fun row => length row = n) data ->
    length (rs_parity c data) = ps /\ Forall (fun row => length row = n) (rs_parity c data);
  reconstruct_ok ds ps c n data shards :
    rs_new ds ps = Some c -> 0 < n -> length data = ds -> Forall (fun row => length row = n) data ->
    Forall2 (fun s row => s = None \/ s = Some row) shards (data ++ rs_parity c data) ->
    ds <= length (filter is_Some shards) ->
    exists rows, reconstruct_data c shards = Some rows /\ take ds rows = Some <$> data;
}.

(** ** Generations *)

(** The datagrams of a generation, and whether its parity was sent. *)
Record Gen := mkGen { pays : list bytes; has_parity : bool }.

(** The length, which counts itself, and the datagram. *)
Definition data_row (p : bytes) : bytes := to_le_bytes 2 (Z.of_nat (length p + 2)) ++ p.

Definition gen_size (ps : list bytes) : nat := max_list_with (fun p => length (data_row p)) ps.

Definition gen_rows (ps : list bytes) : list bytes := (fun p => resize0 (gen_size ps) (data_row p)) <$> ps.

Definition header (seq ty : Z) : bytes := to_le_bytes 4 seq ++ to_le_bytes 2 ty.

Lemma data_row_length p : length (data_row p) = length p + 2.
Proof. unfold data_row. rewrite length_app, to_le_bytes_length. lia. Qed.

Lemma header_length seq ty : length (header seq ty) = 6.
Proof. unfold header. by rewrite length_app, !to_le_bytes_length. Qed.

Lemma resize0_length n row : length (resize0 n row) = n.
Proof. unfold resize0. rewrite length_app, length_take, length_replicate. lia. Qed.

Lemma resize0_ge n row : length row <= n -> resize0 n row = row ++ replicate (n - length row) (z_byte 0).
Proof. intros H. unfold resize0. by rewrite take_ge. Qed.

Lemma drop_resize0 k n row : k <= n -> drop k (resize0 n row) = resize0 (n - k) (drop k row).
Proof.
  intros Hk. unfold resize0. rewrite drop_app, length_take, skipn_firstn_comm, length_drop. f_equal.
  rewrite drop_replicate. f_equal. lia.
Qed.

Lemma gen_size_le p ps : p ∈ ps -> length (data_row p) <= gen_size ps.
Proof. unfold gen_size. induction 1; cbn [max_list_with]; lia. Qed.

Lemma gen_size_app ps p : gen_size (ps ++ [p]) = Nat.max (gen_size ps) (length (data_row p)).
Proof.
  unfold gen_size. induction ps as [|q ps IH]; cbn [app max_list_with]; [lia|]. rewrite IH. lia.
Qed.

Lemma gen_rows_shape ps : Forall (fun row => length row = gen_size ps) (gen_rows ps).
Proof. unfold gen_rows. apply Forall_fmap, Forall_forall. intros p _. apply resize0_length. Qed.

Lemma write_at_app a old rest x off :
  off = length a -> length x = length old -> write_at (a ++ old ++ rest) off x = Some (a ++ x ++ rest).
Proof.
  intros -> Hx. unfold write_at. rewrite (proj2 (Nat.leb_le _ _)) by (rewrite !length_app; lia).
  rewrite take_app_length, Hx. rewrite (assoc_L (++) a old), drop_app_length' by (rewrite length_app; done). done.
Qed.

Section Encode.
Context `{RS : RsLib, RL : !RsLaws}.
Context (ds ps : nat) (c : ReedSolomon).

Definition parity_rows (g : Gen) : list bytes := rs_parity c (gen_rows (pays g)).

(** The packet at a position of a generation. *)
Definition packet_at (gens : list Gen) (gi i : nat) : option bytes :=
  g ← gens !! gi;
  let seq := (Z.of_nat gi * Z.of_nat (ds + ps) + Z.of_nat i)%Z in
  if i <? ds then p ← pays g !! i; Some (header seq TYPE_DATA ++ data_row p)
  else if has_parity g then row ← parity_rows g !! (i - ds); Some (header seq TYPE_PARITY ++ row)
  else None.

Definition gen_ok (g : Gen) : Prop :=
  length (pays g) <= ds /\ (has_parity g = true -> length (pays g) = ds) /\
  Forall (fun p => (Z.of_nat (length p) + 2 < 65536)%Z) (pays g).

Definition gens_ok (gens : list Gen) : Prop :=
  Forall gen_ok gens /\ (Z.of_nat (length gens) * Z.of_nat (ds + ps) <= 2 ^ 31)%Z.

(** ** Sequence numbers *)

Hypothesis Hds : 0 < ds.
Hypothesis Hps : 0 < ps.
Hypothesis Hmax : ds + ps <= 256.
Hypothesis Hnew : rs_new ds ps = Some c.

Lemma paws_of_eq : paws_of (ds + ps) = ((2 ^ 32 - 1) / Z.of_nat (ds + ps) * Z.of_nat (ds + ps))%Z.
Proof.
  unfold paws_of, wmul, w32. apply Z.mod_small.
  pose proof (Z.div_mod (2 ^ 32 - 1) (Z.of_nat (ds + ps))) as H.
  pose proof (Z.mod_pos_bound (2 ^ 32 - 1) (Z.of_nat (ds + ps))). lia.
Qed.

Lemma paws_big : (2 ^ 31 + 256 < paws_of (ds + ps) < 2 ^ 32)%Z.
Proof.
  rewrite paws_of_eq. pose proof (Z.div_mod (2 ^ 32 - 1) (Z.of_nat (ds + ps))) as H.
  pose proof (Z.mod_pos_bound (2 ^ 32 - 1) (Z.of_nat (ds + ps))). lia.
Qed.

(** ** The state of the encoder *)

Context (ho : nat).

(** What never changes. *)
Record enc_static (e : FecEncoder) : Prop := {
  st_data : data_shards e = ds;
  st_parity : parity_shards e = ps;
  st_size : shard_size e = ds + ps;
  st_paws : paws e = paws_of (ds + ps);
  st_header : header_offset e = ho;
  st_payload : payload_offset e = ho + 6;
  st_codec : codec e = c;
  st_rows : length (shard_cache e) = ds + ps;
}.

(** The rows of the datagrams of the generation so far. *)
Record enc_rows (e : FecEncoder) (cur : list bytes) : Prop := {
  er_count : shard_count e = length cur;
  er_max : max_size e = match cur with [] => 0 | _ => ho + 6 + gen_size cur end;
  er_row i p : cur !! i = Some p -> exists h, length h = ho + 6 /\ shard_cache e !! i = Some (h ++ data_row p);
}.

Record enc_ok (e : FecEncoder) (full : list Gen) (cur : list bytes) : Prop := {
  eo_static : enc_static e;
  eo_rows : enc_rows e cur;
  eo_next : next e = (Z.of_nat (length full) * Z.of_nat (ds + ps) + Z.of_nat (length cur))%Z;
  eo_room : length cur < ds;
  eo_full : Forall (fun g => length (pays g) = ds) full;
}.

Lemma encoder_new_ok : exists e, encoder_new ds ps ho = Some e /\ enc_ok e [] [].
Proof.
  unfold encoder_new. rewrite (proj2 (Nat.eqb_neq ds 0)), (proj2 (Nat.eqb_neq ps 0)), (proj2 (Nat.ltb_ge _ _)) by lia.
  cbn [orb]. rewrite Hnew. cbn [mbind option_bind]. eexists. split; [done|].
  split; [|by split|done|done|done]. split; try done. apply length_replicate.
Qed.

Lemma advance_small e n :
  enc_static e -> (0 <= next e)%Z -> (0 <= n)%Z -> (next e + n <= 2 ^ 31 + 256)%Z -> advance e n = set_next e (next e + n).
Proof.
  intros He H0 Hn Hle. unfold advance, wadd, w32. rewrite (st_paws _ He). pose proof paws_big.
  rewrite (Z.mod_small _ (2 ^ 32)) by lia. by rewrite Z.mod_small by lia.
Qed.

Lemma write_header_ok e a old rest ty :
  enc_static e -> length a = ho -> length old = 6 ->
  write_header e (a ++ old ++ rest) ty = Some (a ++ header (next e) ty ++ rest).
Proof.
  intros He Ha Ho. unfold write_header. rewrite (st_header _ He).
  rewrite <- (take_drop 4 old), <- !(assoc_L (++)), write_at_app; [|done|by rewrite to_le_bytes_length, length_take, Ho].
  cbn [mbind option_bind]. rewrite (assoc_L (++) a). rewrite write_at_app.
  - unfold header. by rewrite <- !(assoc_L (++)).
  - rewrite length_app, to_le_bytes_length. lia.
  - rewrite to_le_bytes_length, length_drop. lia.
Qed.

(** The packet of a datagram and the rows after it. *)
Lemma encode_datagram e full cur scratch raw now rto :
  enc_ok e full cur -> length scratch = ho + 8 -> (Z.of_nat (length raw) + 2 < 65536)%Z ->
  (Z.of_nat (S (length full)) * Z.of_nat (ds + ps) <= 2 ^ 31)%Z ->
  exists e1, enc_static e1 /\ enc_rows e1 (cur ++ [raw]) /\ next e1 = (next e + 1)%Z /\
    encode e (scratch ++ raw) now rto =
      '(e2, parity) ← finish_generation e1 now rto;
      Some (set_latest e2 now, take ho scratch ++ header (next e) TYPE_DATA ++ data_row raw, parity).
Proof.
  intros [Hst Hr Hn Hroom _] Hs Hraw Hlim. unfold encode.
  set (a := take ho scratch). assert (Ha : length a = ho) by (unfold a; rewrite length_take; lia).
  set (b := take 6 (drop ho scratch)). set (d := drop 6 (drop ho scratch)).
  assert (Es : scratch = a ++ b ++ d) by (unfold a, b, d; by rewrite !take_drop).
  assert (Hb : length b = 6) by (unfold b; rewrite length_take, length_drop; lia).
  assert (Hd : length d = 2) by (unfold d; rewrite !length_drop; lia).
  rewrite Es, <- !(assoc_L (++)), write_header_ok by done. cbn [mbind option_bind].
  rewrite advance_small by (done || lia).
  cbn [set_next payload_offset shard_cache shard_count max_size]. rewrite (st_payload _ Hst).
  rewrite (proj2 (Nat.ltb_ge _ _)) by (rewrite !length_app, header_length; lia).
  replace (length (a ++ header (next e) TYPE_DATA ++ d ++ raw) - (ho + 6)) with (length raw + 2)
    by (rewrite !length_app, header_length; lia).
  rewrite Z.mod_small by lia. rewrite (assoc_L (++) a).
  rewrite write_at_app; [|by rewrite length_app, header_length, Ha|by rewrite to_le_bytes_length].
  cbn [mbind option_bind]. rewrite <- (assoc_L (++) a). fold (data_row raw).
  set (buf := a ++ header (next e) TYPE_DATA ++ data_row raw).
  rewrite (st_rows _ Hst), (er_count _ _ Hr), (proj2 (Nat.leb_gt _ _)) by lia.
  eexists. split; [|split; [|split; [|reflexivity]]]; [| |done].
  - destruct Hst. split; try done. cbn [set_rows set_next shard_cache]. by rewrite length_insert.
  - assert (Hbuf : length buf = ho + 6 + length (data_row raw)).
    { unfold buf. rewrite !length_app, header_length. lia. }
    split; cbn [set_rows set_next shard_count max_size shard_cache].
    + rewrite length_app. cbn. lia.
    + rewrite gen_size_app, Hbuf, (er_max _ _ Hr). destruct cur; cbn [app gen_size max_list_with]; lia.
    + intros i p Hi. apply lookup_app_Some in Hi as [Hi|[Hge Hi]].
      * destruct (er_row _ _ Hr i p Hi) as (h & Hh & Hrow). exists h. split; [done|].
        apply lookup_lt_Some in Hi. by rewrite list_lookup_insert_ne by lia.
      * apply list_lookup_singleton_Some in Hi as [Hi <-]. assert (i = length cur) as -> by lia.
        exists (a ++ header (next e) TYPE_DATA). rewrite length_app, header_length. split; [lia|].
        rewrite list_lookup_insert_eq by (rewrite (st_rows _ Hst); lia). unfold buf. by rewrite (assoc_L (++)).
Qed.

(** ** Parity *)

Fixpoint parity_packets (seq : Z) (rows : list bytes) : list bytes :=
  match rows with
  | [] => []
  | row :: rows => (header seq TYPE_PARITY ++ row) :: parity_packets (seq + 1) rows
  end.

Lemma parity_packets_lookup seq rows j :
  parity_packets seq rows !! j = (fun row => header (seq + Z.of_nat j) TYPE_PARITY ++ row) <$> rows !! j.
Proof.
  revert seq j. induction rows as [|row rows IH]; intros seq [|j]; cbn; [done|done|by rewrite Z.add_0_r|].
  rewrite IH. by replace (seq + 1 + Z.of_nat j)%Z with (seq + Z.of_nat (S j))%Z by lia.
Qed.

(** The state with other rows and a later sequence number. *)
Definition moved (e e' : FecEncoder) (n : Z) : Prop :=
  exists rows, length rows = length (shard_cache e) /\
    e' = set_next (set_rows e (shard_count e) (max_size e) rows) n.

Lemma moved_static e e' n : moved e e' n -> enc_static e -> enc_static e'.
Proof. intros (rows & Hl & ->) []. split; try done. cbn. congruence. Qed.

Lemma seal_parity_ok prows k e :
  enc_static e -> (0 <= next e)%Z -> (next e + Z.of_nat (length prows) <= 2 ^ 31)%Z ->
  (forall j row, prows !! j = Some row ->
    exists h, length h = ho + 6 /\ shard_cache e !! (k + j) = Some (h ++ row) /\ max_size e = ho + 6 + length row) ->
  exists e' pkts, seal_parity (length prows) k e = Some (e', pkts) /\ moved e e' (next e + Z.of_nat (length prows)) /\
    drop ho <$> pkts = parity_packets (next e) prows.
Proof.
  revert k e. induction prows as [|row prows IH]; intros k e Hst H0 Hlim Hrows.
  { exists e, []. split; [done|]. split; [|done]. exists (shard_cache e). split; [done|]. cbn. rewrite Z.add_0_r. by destruct e. }
  destruct (Hrows 0 row eq_refl) as (h & Hh & Hrow & Hm). rewrite Nat.add_0_r in Hrow.
  cbn [length seal_parity]. rewrite Hrow. cbn [mbind option_bind].
  assert (Ha : length (take ho h) = ho) by (rewrite length_take; lia).
  rewrite <- (take_drop ho h), <- (assoc_L (++)), write_header_ok; [|done|done|rewrite length_drop; lia].
  cbn [mbind option_bind]. set (full := take ho h ++ header (next e) TYPE_PARITY ++ row).
  assert (Hfull : length full = max_size e) by (unfold full; rewrite !length_app, header_length; lia).
  rewrite (proj2 (Nat.ltb_ge _ _)) by lia.
  set (e0 := set_rows e (shard_count e) (max_size e) (<[k := full]> (shard_cache e))).
  assert (Hst0 : enc_static e0).
  { destruct Hst. split; try done. cbn [e0 set_rows shard_cache]. by rewrite length_insert. }
  cbn [length] in Hlim. rewrite (advance_small e0) by (done || (cbn [e0 set_rows next]; lia)).
  destruct (IH (S k) (set_next e0 (next e0 + 1))) as (e' & pkts & -> & Hmv & Hp).
  - destruct Hst0. by split.
  - cbn. lia.
  - cbn. lia.
  - intros j r Hj. destruct (Hrows (S j) r Hj) as (h' & ? & Hr & ?). exists h'. split_and!; [done| |done].
    cbn [set_next e0 set_rows shard_cache]. rewrite list_lookup_insert_ne by lia.
    by replace (S k + j) with (k + S j) by lia.
  - cbn [mbind option_bind]. eexists _, _. split; [done|]. split.
    + destruct Hmv as (rows & Hl & ->). exists rows. cbn [set_next e0 set_rows shard_cache next length] in *.
      split; [by rewrite Hl, length_insert|]. unfold set_next, set_rows. cbn. f_equal. lia.
    + cbn [fmap list_fmap parity_packets]. f_equal; [|exact Hp]. rewrite take_ge by lia. unfold full.
      apply drop_app_length'. lia.
Qed.

(** The rows as the coder sees them: the data, padded, and what the parity
    rows hold. *)
Lemma coder_rows e cur :
  enc_static e -> enc_rows e cur -> length cur = ds ->
  exists junk, drop (ho + 6) <$> (resize0 (max_size e) <$> shard_cache e) = gen_rows cur ++ junk /\
    length junk = ps /\ Forall (fun row => length row = gen_size cur) junk.
Proof.
  intros Hst Hr Hlen. set (rows := drop (ho + 6) <$> _).
  assert (Hm : max_size e = ho + 6 + gen_size cur) by (rewrite (er_max _ _ Hr); destruct cur; [cbn in *; lia|done]).
  assert (Hrows : length rows = ds + ps) by (unfold rows; by rewrite !length_fmap, (st_rows _ Hst)).
  exists (drop ds rows). split_and!.
  - rewrite <- (take_drop ds rows) at 1. f_equal. apply list_eq. intros i. destruct (decide (i < ds)) as [Hi|Hi].
    + rewrite lookup_take_lt by done. destruct (lookup_lt_is_Some_2 cur i) as [p Hp]; [lia|].
      destruct (er_row _ _ Hr i p Hp) as (h & Hh & Hrow). unfold rows, gen_rows. rewrite !list_lookup_fmap, Hrow, Hp.
      cbn [fmap option_fmap option_map]. f_equal. rewrite drop_resize0 by lia. rewrite drop_app_length' by done.
      f_equal. lia.
    + rewrite lookup_take_ge by lia. symmetry. apply lookup_ge_None. unfold gen_rows. rewrite length_fmap. lia.
  - rewrite length_drop. lia.
  - apply Forall_drop. unfold rows. apply Forall_fmap, Forall_fmap, Forall_forall. intros row _. cbn.
    rewrite length_drop, resize0_length. lia.
Qed.

Lemma encode_rows_ok e cur :
  enc_static e -> enc_rows e cur -> length cur = ds -> (0 <= next e)%Z -> (next e + Z.of_nat ps <= 2 ^ 31)%Z ->
  exists e' pkts, Fec.encode_rows e = Some (e', pkts) /\ moved e e' (next e + Z.of_nat ps) /\
    drop ho <$> pkts = parity_packets (next e) (rs_parity c (gen_rows cur)).
Proof.
  intros Hst Hr Hlen H0 Hlim.
  assert (Hm : max_size e = ho + 6 + gen_size cur) by (rewrite (er_max _ _ Hr); destruct cur; [cbn in *; lia|done]).
  assert (Hpos : 0 < gen_size cur).
  { destruct cur as [|p cur]; [cbn in Hlen; lia|]. pose proof (gen_size_le p (p :: cur) ltac:(by left)) as H.
    rewrite data_row_length in H. lia. }
  unfold Fec.encode_rows. rewrite (st_payload _ Hst), (proj2 (Nat.ltb_ge _ _)) by lia.
  destruct (coder_rows e cur Hst Hr Hlen) as (junk & Hrows & Hj & Hjl).
  cbn [set_rows codec payload_offset]. rewrite (st_codec _ Hst), (st_payload _ Hst), Hrows.
  assert (Hg : length (gen_rows cur) = ds) by (unfold gen_rows; by rewrite length_fmap).
  rewrite (rs_encode_ok ds ps c (gen_size cur)) by (done || apply gen_rows_shape).
  destruct (rs_parity_shape ds ps c (gen_size cur) (gen_rows cur) Hnew Hpos Hg (gen_rows_shape cur)) as [Hpl Hps'].
  set (rows := resize0 (max_size e) <$> shard_cache e) in *.
  assert (Hrl : length rows = ds + ps) by (unfold rows; by rewrite length_fmap, (st_rows _ Hst)).
  set (rows' := zip_with _ rows _).
  assert (Hrl' : length rows' = ds + ps) by (unfold rows'; rewrite length_zip_with, length_app; lia).
  cbn [set_rows shard_size data_shards shard_count max_size]. rewrite (st_size _ Hst), (st_data _ Hst).
  replace (ds + ps - ds) with (length (rs_parity c (gen_rows cur))) by lia.
  destruct (seal_parity_ok (rs_parity c (gen_rows cur)) ds (set_rows e (shard_count e) (max_size e) rows'))
    as (e' & pkts & He & Hmv & Hp).
  - destruct Hst. split; try done.
  - done.
  - cbn [set_rows next]. lia.
  - intros j row Hj'. cbn [set_rows shard_cache max_size].
    destruct (lookup_lt_is_Some_2 rows (ds + j)) as [r Hrr]; [apply lookup_lt_Some in Hj'; lia|].
    exists (take (ho + 6) r). assert (Hlr : length r = max_size e).
    { unfold rows in Hrr. rewrite list_lookup_fmap in Hrr. apply fmap_Some in Hrr as (x & _ & ->). apply resize0_length. }
    rewrite length_take. split_and!; [lia| |].
    + unfold rows'. rewrite lookup_zip_with, Hrr. cbn [mbind option_bind]. rewrite lookup_app_r by lia.
      replace (ds + j - length (gen_rows cur)) with j by lia. by rewrite Hj'.
    + rewrite Forall_forall in Hps'. rewrite (Hps' row) by (by eapply list_elem_of_lookup_2). lia.
  - exists e', pkts. split; [exact He|]. split; [|exact Hp].
    destruct Hmv as (rs & Hl & ->). exists rs. cbn [set_rows shard_cache next] in *. rewrite Hl, Hrl', (st_rows _ Hst).
    split; [done|]. unfold set_next, set_rows. cbn. by rewrite Hpl.
Qed.

(** ** One datagram *)

(** The generations: those that are full, and the one being filled. *)
Definition gens_of (full : list Gen) (cur : list bytes) : list Gen := full ++ [mkGen cur false].

(** Every datagram, in order. *)
Definition datagrams (gens : list Gen) : list bytes := mjoin (pays <$> gens).

(** What was sent stays what it was. *)
Definition extends (gens gens' : list Gen) : Prop :=
  forall gi i w, packet_at gens gi i = Some w -> packet_at gens' gi i = Some w.

Lemma packet_at_full full g rest gi i :
  gi < length full -> packet_at (full ++ g :: rest) gi i = packet_at full gi i.
Proof. intros H. unfold packet_at. by rewrite lookup_app_l. Qed.

Lemma extends_last full cur cur' par rest :
  cur `prefix_of` cur' -> extends (gens_of full cur) (full ++ mkGen cur' par :: rest).
Proof.
  intros [more ->] gi i w Hw. unfold gens_of in Hw. destruct (Nat.lt_trichotomy gi (length full)) as [H|[->|H]].
  - rewrite packet_at_full in Hw by done. by rewrite packet_at_full.
  - unfold packet_at in *. rewrite list_lookup_middle in Hw by done. rewrite list_lookup_middle by done.
    cbn [mbind option_bind pays has_parity] in *. destruct (i <? ds); [|done].
    apply bind_Some in Hw as (p & Hp & [= <-]). by rewrite (lookup_app_l_Some _ _ _ _ Hp).
  - unfold packet_at in Hw. rewrite lookup_ge_None_2 in Hw by (rewrite length_app; cbn; lia). done.
Qed.

Lemma datagrams_app a b : datagrams (a ++ b) = datagrams a ++ datagrams b.
Proof. unfold datagrams. by rewrite fmap_app, list.join_app. Qed.

(** What a call of [encode] leaves and sends. *)
Record encoded (e' : FecEncoder) (buf : bytes) (parity : list bytes) (full : list Gen) (cur : list bytes) (raw : bytes)
    (full' : list Gen) (cur' : list bytes) : Prop := {
  en_ok : enc_ok e' full' cur';
  en_extends : extends (gens_of full cur) (gens_of full' cur');
  en_datagrams : datagrams (gens_of full' cur') = datagrams (gens_of full cur) ++ [raw];
  en_data : packet_at (gens_of full' cur') (length full) (length cur) = Some (drop ho buf);
  en_parity : Forall (fun w => exists i, packet_at (gens_of full' cur') (length full) i = Some (drop ho w)) parity;
  en_more : length full <= length full' <= S (length full);
}.

Lemma datagrams_snoc full cur raw par :
  datagrams (full ++ mkGen (cur ++ [raw]) par :: [mkGen [] false]) = datagrams (gens_of full cur) ++ [raw].
Proof. unfold gens_of. rewrite !datagrams_app. unfold datagrams. cbn. rewrite !app_nil_r. by rewrite (assoc_L (++)). Qed.

(** A full generation becomes the last of the full ones. *)
Lemma finish_full e1 e2 full cur raw par pkts now :
  enc_static e1 -> moved e1 e2 (next e1 + Z.of_nat ps) ->
  length (cur ++ [raw]) = ds ->
  next e1 = (Z.of_nat (length full) * Z.of_nat (ds + ps) + Z.of_nat ds)%Z ->
  Forall (fun g => length (pays g) = ds) full ->
  drop ho <$> pkts = (if par : bool then parity_packets (next e1) (rs_parity c (gen_rows (cur ++ [raw]))) else []) ->
  forall buf, drop ho buf = header (next e1 - 1) TYPE_DATA ++ data_row raw ->
  encoded (set_latest (set_rows e2 0 0 (shard_cache e2)) now) buf pkts full cur raw
    (full ++ [mkGen (cur ++ [raw]) par]) [].
Proof.
  intros Hst Hmv Hlen Hn Hfull Hp buf Hbuf. pose proof (moved_static _ _ _ Hmv Hst) as Hst2.
  assert (Eg : gens_of (full ++ [mkGen (cur ++ [raw]) par]) [] = full ++ mkGen (cur ++ [raw]) par :: [mkGen [] false]).
  { unfold gens_of. by rewrite <- (assoc_L (++)). }
  assert (Hc : length cur < ds) by (rewrite length_app in Hlen; cbn in Hlen; lia).
  split; [| | | | |rewrite length_app; cbn; lia]; rewrite ?Eg.
  - destruct Hst2. split; [by split|by split| |done|].
    + destruct Hmv as (rows & _ & ->). cbn. rewrite Hn, length_app. cbn. lia.
    + apply Forall_app. split; [done|]. by constructor.
  - apply extends_last. by exists [raw].
  - apply datagrams_snoc.
  - unfold packet_at. rewrite list_lookup_middle by done. cbn [mbind option_bind pays].
    rewrite (proj2 (Nat.ltb_lt _ _)) by done. rewrite list_lookup_middle by done. cbn [mbind option_bind]. rewrite Hbuf.
    do 3 f_equal. rewrite length_app in Hlen. cbn in Hlen. lia.
  - apply Forall_forall. intros w Hw. apply list_elem_of_lookup_1 in Hw as [j Hj].
    assert (Hd : (drop ho <$> pkts) !! j = Some (drop ho w)) by (by rewrite list_lookup_fmap, Hj).
    rewrite Hp in Hd. destruct par; [|done]. rewrite parity_packets_lookup in Hd. apply fmap_Some in Hd as (row & Hrow & ->).
    exists (ds + j). unfold packet_at. rewrite list_lookup_middle by done. cbn [mbind option_bind pays has_parity].
    rewrite (proj2 (Nat.ltb_ge _ _)) by lia. replace (ds + j - ds) with j by lia. unfold parity_rows. cbn [pays].
    rewrite Hrow. cbn [mbind option_bind]. do 3 f_equal. lia.
Qed.

Lemma encode_ok e full cur scratch raw now rto :
  enc_ok e full cur -> length scratch = ho + 8 -> (Z.of_nat (length raw) + 2 < 65536)%Z ->
  (Z.of_nat (S (length full)) * Z.of_nat (ds + ps) <= 2 ^ 31)%Z ->
  exists e' buf parity full' cur', encode e (scratch ++ raw) now rto = Some (e', buf, parity) /\
    length buf = length scratch + length raw /\ encoded e' buf parity full cur raw full' cur'.
Proof.
  intros Hok Hs Hraw Hlim. destruct (encode_datagram e full cur scratch raw now rto Hok Hs Hraw Hlim)
    as (e1 & Hst & Hr & Hn & ->). destruct Hok as [_ _ Hnext Hroom Hfull]. rewrite Hnext in Hn.
  set (buf := take ho scratch ++ _).
  assert (Hlen : length buf = length scratch + length raw).
  { unfold buf. rewrite !length_app, header_length, length_take, data_row_length. lia. }
  assert (Hbuf : drop ho buf = header (next e) TYPE_DATA ++ data_row raw).
  { unfold buf. apply drop_app_length'. rewrite length_take. lia. }
  assert (Hl1 : length (cur ++ [raw]) = S (length cur)) by (rewrite length_app; cbn; lia).
  unfold finish_generation. rewrite (er_count _ _ Hr), (st_data _ Hst), Hl1.
  destruct (Nat.eqb_spec (S (length cur)) ds) as [Heq|Hne].
  - assert (Hn1 : next e1 = (Z.of_nat (length full) * Z.of_nat (ds + ps) + Z.of_nat ds)%Z) by lia.
    assert (Hb : drop ho buf = header (next e1 - 1) TYPE_DATA ++ data_row raw).
    { rewrite Hbuf. do 2 f_equal. lia. }
    destruct (continuous e1 now rto).
    + destruct (encode_rows_ok e1 (cur ++ [raw])) as (e2 & pkts & -> & Hmv & Hp); [done|done|lia|lia|lia|].
      cbn [mbind option_bind]. eexists _, _, _, _, _. split; [done|]. split; [done|].
      by eapply (finish_full e1 e2 full cur raw true); [done|done|lia|..].
    + cbn [mbind option_bind]. eexists _, _, _, _, _. split; [done|]. split; [done|].
      eapply (finish_full e1 _ full cur raw false); [done| |lia|done..].
      exists (shard_cache e1). split; [done|]. unfold skip_parity. rewrite (st_parity _ Hst).
      unfold w32. rewrite Z.mod_small by lia. rewrite advance_small by (done || lia). by destruct e1.
  - cbn [mbind option_bind]. eexists _, _, _, full, (cur ++ [raw]). split; [done|]. split; [done|].
    split; [| | | |constructor|lia].
    + split; [by destruct Hst|by destruct Hr|cbn; rewrite Hl1; lia|lia|done].
    + apply (extends_last full cur (cur ++ [raw]) false []). by exists [raw].
    + unfold gens_of. rewrite !datagrams_app. unfold datagrams. cbn. rewrite !app_nil_r. by rewrite (assoc_L (++)).
    + unfold packet_at, gens_of. rewrite list_lookup_middle by done. cbn [mbind option_bind pays].
      rewrite (proj2 (Nat.ltb_lt _ _)) by done. rewrite list_lookup_middle by done. cbn [mbind option_bind].
      rewrite Hbuf. do 3 f_equal. lia.
Qed.

End Encode.
End FecEncode.

(** ** An erasure code with one parity row

    The exclusive or of the data rows is a parity row that replaces any one of
    them. It satisfies the laws of the Reed-Solomon crate for one parity shard,
    so the theorems about error correction run on it. *)

Module FecXor.
Import KcpCrypt Fec FecEncode.

Definition zero_row (n : nat) : bytes := replicate n (z_byte 0).

(** The sum of rows of [n] bytes. *)
Definition row_sum (n : nat) (rows : list bytes) : bytes := foldr xor_zip (zero_row n) rows.

Lemma byte_xor_comm a b : byte_xor a b = byte_xor b a.
Proof. destruct a, b. cbn. f_equal; apply xorb_comm. Qed.

Lemma byte_xor_assoc a b c : byte_xor a (byte_xor b c) = byte_xor (byte_xor a b) c.
Proof. destruct a, b, c. cbn. f_equal; by rewrite xorb_assoc. Qed.

Lemma byte_xor_zero a : byte_xor a (z_byte 0) = a.
Proof.
  assert (z_byte 0 = Ascii false false false false false false false false) as -> by reflexivity.
  destruct a. cbn. by rewrite !xorb_false_r.
Qed.

Lemma xor_zip_swap a b x : length a = length b -> length b = length x -> xor_zip a (xor_zip b x) = xor_zip b (xor_zip a x).
Proof.
  revert b x. induction a as [|u a IH]; intros [|v b] [|w x] H1 H2; try done. cbn in *. f_equal; [|apply IH; lia].
  by rewrite byte_xor_assoc, (byte_xor_comm u v), byte_xor_assoc.
Qed.

Lemma xor_zip_self a x : length a = length x -> xor_zip a (xor_zip a x) = x.
Proof.
  revert x. induction a as [|u a IH]; intros [|w x] H; try done. cbn in *. f_equal; [|apply IH; lia].
  by rewrite (byte_xor_comm u (byte_xor u w)), (byte_xor_comm u w), byte_xor_twice.
Qed.

Lemma xor_zip_zero a n : length a = n -> xor_zip a (zero_row n) = a.
Proof.
  revert n. induction a as [|u a IH]; intros n <-; [done|]. unfold zero_row in *. cbn. rewrite byte_xor_zero. f_equal. by apply IH.
Qed.

Lemma row_sum_length n rows : Forall (fun r => length r = n) rows -> length (row_sum n rows) = n.
Proof.
  induction 1 as [|r rows Hr _ _]; cbn; [apply length_replicate|]. by rewrite xor_zip_length.
Qed.

Lemma row_sum_middle n l1 r l2 :
  Forall (fun r => length r = n) l1 -> length r = n -> Forall (fun r => length r = n) l2 ->
  row_sum n (l1 ++ r :: l2) = xor_zip r (row_sum n (l1 ++ l2)).
Proof.
  intros H1 Hr H2. induction H1 as [|x l1 Hx H1 IH]; [done|]. cbn. fold (row_sum n (l1 ++ r :: l2)). rewrite IH.
  apply xor_zip_swap; [lia|]. fold (row_sum n (l1 ++ l2)). rewrite row_sum_length; [done|]. by apply Forall_app.
Qed.

(** ** The code *)

Definition row_len (rows : list bytes) : nat := length (default [] (head rows)).

#[export] Instance xor_lib : RsLib := {|
  ReedSolomon := nat;
  rs_new ds ps := if (0 <? ds) && (ps =? 1) then Some ds else None;
  rs_encode ds rows := let data := take ds rows in Some (data ++ [row_sum (row_len data) data]);
  reconstruct_data ds shards :=
    let present := omap id shards in
    if length present <? ds then None
    else Some ((fun s => match s with Some x => Some x | None => Some (row_sum (row_len present) present) end) <$> shards);
|}.

Lemma row_len_all n rows : rows <> [] -> Forall (fun r => length r = n) rows -> row_len rows = n.
Proof. destruct rows as [|r rows]; [done|]. intros _ H. by apply Forall_cons in H as [H _]. Qed.

(** The parity of the data makes the sum zero. *)
Lemma sum_with_parity n data :
  Forall (fun r => length r = n) data -> row_sum n (data ++ [row_sum n data]) = zero_row n.
Proof.
  intros H. rewrite (row_sum_middle n data (row_sum n data) []) by (done || by apply row_sum_length).
  rewrite app_nil_r. rewrite <- (xor_zip_zero (row_sum n data) n) at 2 by (by apply row_sum_length).
  apply xor_zip_self. rewrite row_sum_length by done. symmetry. apply length_replicate.
Qed.

(** The rows that are there. *)
Definition fits (s : option bytes) (row : bytes) : Prop := s = None \/ s = Some row.

Lemma present_le shards rows : Forall2 fits shards rows -> length (omap id shards) <= length rows.
Proof. induction 1 as [|s row shards rows [-> | ->] _ IH]; cbn in *; lia. Qed.

Lemma all_present shards rows :
  Forall2 fits shards rows -> length rows <= length (omap id shards) -> shards = Some <$> rows /\ omap id shards = rows.
Proof.
  induction 1 as [|s row shards rows [-> | ->] H2 IH]; [done| |]; cbn; intros Hl.
  - pose proof (present_le _ _ H2). lia.
  - destruct IH as [-> E]; [lia|]. split; [done|]. f_equal. exact E.
Qed.

Lemma one_missing shards rows :
  Forall2 fits shards rows -> length rows = S (length (omap id shards)) ->
  exists l1 r l2, rows = l1 ++ r :: l2 /\ shards = (Some <$> l1) ++ None :: (Some <$> l2) /\ omap id shards = l1 ++ l2.
Proof.
  induction 1 as [|s row shards rows [-> | ->] H2 IH]; cbn; intros Hl; [lia| |].
  - destruct (all_present _ _ H2) as [-> E]; [lia|]. by exists [], row, rows.
  - destruct IH as (l1 & r & l2 & -> & -> & E); [lia|]. exists (row :: l1), r, l2. split_and!; [done|done|]. cbn. f_equal. exact E.
Qed.

(** Where at most one row is missing, the sum of the others is that row. *)
Lemma fill_ok n shards rows :
  Forall2 fits shards rows -> Forall (fun r => length r = n) rows -> row_sum n rows = zero_row n ->
  length rows <= S (length (omap id shards)) ->
  (fun s => match s with Some y => Some y | None => Some (row_sum n (omap id shards)) end) <$> shards = Some <$> rows.
Proof.
  intros H2 Hn Hzero Hlen. destruct (decide (length rows <= length (omap id shards))) as [Hall|Hmiss].
  - destruct (all_present _ _ H2 Hall) as [-> _]. by rewrite <- list_fmap_compose.
  - destruct (one_missing _ _ H2) as (l1 & r & l2 & -> & -> & E); [lia|]. rewrite E.
    apply Forall_app in Hn as [H1 Hr]. apply Forall_cons in Hr as [Hr Hl2].
    assert (row_sum n (l1 ++ l2) = r) as ->.
    { rewrite row_sum_middle in Hzero by done. rewrite <- (xor_zip_self r (row_sum n (l1 ++ l2))).
      - rewrite Hzero. by apply xor_zip_zero.
      - rewrite row_sum_length; [done|]. by apply Forall_app. }
    rewrite !fmap_app. cbn. by rewrite <- !list_fmap_compose.
Qed.

Lemma count_present shards : length (filter is_Some shards) = length (omap id shards : list bytes).
Proof.
  induction shards as [|[x|] shards IH]; [done| |]; rewrite filter_cons.
  - rewrite decide_True by eauto. cbn. by rewrite IH.
  - rewrite decide_False by (by intros [? ?]). exact IH.
Qed.

Lemma xor_new ds ps c : rs_new ds ps = Some c -> 0 < ds /\ ps = 1 /\ c = ds.
Proof.
  unfold rs_new, xor_lib. destruct (Nat.ltb_spec 0 ds), (Nat.eqb_spec ps 1); cbn [andb]; intros [= <-]; by split_and!.
Qed.

#[export] Program Instance xor_laws : RsLaws := {| rs_parity ds data := [row_sum (row_len data) data] |}.
Next Obligation.
  intros ds ps c n data junk (E1 & -> & ->)%xor_new Hn Hl Hj Hd _. cbn.
  by rewrite take_app_length' by done.
Qed.
Next Obligation.
  intros ds ps c n data (E1 & -> & ->)%xor_new Hn Hl Hd. split; [done|]. constructor; [|done].
  rewrite (row_len_all n data) by (done || (intros ->; cbn in Hl; lia)). by apply row_sum_length.
Qed.
Next Obligation.
  intros ds ps c n data shards (E1 & -> & ->)%xor_new Hn Hl Hd H2 Hcount. unfold reconstruct_data, xor_lib.
  rewrite count_present in Hcount. rewrite (proj2 (Nat.ltb_ge _ _)) by done. eexists. split; [done|].
  assert (Hrow : row_len data = n) by (apply row_len_all; [intros ->; cbn in Hl; lia|done]). rewrite Hrow in H2.
  assert (Hall : Forall (fun r => length r = n) (data ++ [row_sum n data])).
  { apply Forall_app. split; [done|]. constructor; [by apply row_sum_length|done]. }
  assert (Hpres : row_len (omap id shards) = n).
  { apply row_len_all; [intros E; rewrite E in Hcount; cbn in Hcount; lia|].
    clear -H2 Hall. induction H2 as [|s row shards rows [-> | ->] H2 IH]; [done| |]; apply Forall_cons in Hall as [Hr Hall]; cbn.
    - by apply IH.
    - constructor; [done|]. by apply IH. }
  rewrite Hpres, (fill_ok n shards (data ++ [row_sum n data])).
  - rewrite <- fmap_take. by rewrite take_app_length' by done.
  - exact H2.
  - done.
  - by apply sum_with_parity.
  - rewrite length_app. cbn. lia.
Qed.

End FecXor.
