(* ===== verification/FecDecode.v ===== *)
(** * What the FEC decoder recovers

    The decoder against the generations of an encoder with the same shard
    counts, whatever part of the packets arrives, in whatever order and how
    often. *)

From stdpp Require Import gmap.
From S2P Require Import Prelude Strings Bits Kcp KcpCrypt Fec FecEncode.

Module FecDecode.
Import Kcp KcpCrypt Fec FecEncode.

(** ** Lists *)

Lemma filter_insert {A} (l : list (option A)) i x :
  l !! i = Some None -> length (filter is_Some (<[i := Some x]> l)) = S (length (filter is_Some l)).
Proof.
  revert i. induction l as [|y l IH]; intros [|i] H; cbn in H; simplify_eq; cbn [insert list_insert].
  - rewrite !filter_cons, decide_True, decide_False by (eauto || by intros [? ?]). done.
  - rewrite !filter_cons. destruct (decide (is_Some y)); cbn [length]; by rewrite IH.
Qed.

Lemma max_list_snoc {A} (f : A -> nat) l x : max_list_with f (l ++ [x]) = Nat.max (max_list_with f l) (f x).
Proof. induction l as [|y l IH]; cbn; [lia|]. rewrite IH. lia. Qed.

Lemma filter_none n : length (filter is_Some (replicate n (@None bytes))) = 0.
Proof. induction n as [|n IH]; [done|]. cbn [replicate]. rewrite filter_cons_False by (by intros [? ?]). done. Qed.

Lemma omap_none {A B} (f : A -> option B) (l : list A) : (forall x, x ∈ l -> f x = None) -> omap f l = [].
Proof.
  induction l as [|x l IH]; intros H; [done|]. cbn. rewrite (H x) by (by left). apply IH. intros y Hy. apply H. by right.
Qed.

Lemma omap_zip {A B C D} (f : A -> B) (h : A -> C) (k : B * C -> option D) (l : list A) :
  omap k (zip (f <$> l) (h <$> l)) = omap (fun x => k (f x, h x)) l.
Proof. induction l as [|x l IH]; [done|]. cbn. destruct (k (f x, h x)); [f_equal|]; apply IH. Qed.

Lemma omap_ext_in {A B} (f h : A -> option B) (l : list A) : (forall x, x ∈ l -> f x = h x) -> omap f l = omap h l.
Proof.
  induction l as [|x l IH]; intros H; [done|]. cbn. rewrite (H x) by (by left).
  destruct (h x); [f_equal|]; apply IH; intros y Hy; apply H; by right.
Qed.

Lemma max_list_bound {A} (f : A -> nat) l n : (forall x, x ∈ l -> f x <= n) -> max_list_with f l <= n.
Proof.
  induction l as [|x l IH]; cbn; intros H; [lia|]. pose proof (H x ltac:(by left)). specialize (IH ltac:(intros; apply H; by right)). lia.
Qed.

Lemma max_list_ge {A} (f : A -> nat) l x : x ∈ l -> f x <= max_list_with f l.
Proof. induction 1; cbn; lia. Qed.

Lemma count_padded (f : bytes -> bytes) (l : list (option bytes)) :
  length (filter is_Some (option_map f <$> l)) = length (filter is_Some l).
Proof.
  induction l as [|[x|] l IH]; [done| |]; cbn [fmap list_fmap option_map]; rewrite !filter_cons.
  - rewrite !decide_True by eauto. cbn. by rewrite IH.
  - rewrite !decide_False by (by intros [? ?]). done.
Qed.

Section Decode.
Context `{RS : RsLib, RL : !RsLaws}.
Context (ds ps : nat) (c : ReedSolomon).
Hypothesis Hds : 0 < ds.
Hypothesis Hps : 0 < ps.
Hypothesis Hmax : ds + ps <= 256.
Hypothesis Hnew : rs_new ds ps = Some c.
Implicit Types gens : list Gen.

#[local] Notation ss := (ds + ps) (only parsing).
#[local] Notation packet := (packet_at ds ps c).

(** ** Packets *)

(** The row of a packet, without its header. *)
Definition row_at (g : Gen) (i : nat) : option bytes :=
  if i <? ds then data_row <$> pays g !! i
  else if has_parity g then parity_rows c g !! (i - ds) else None.

Record is_packet gens (gi i : nat) (w : bytes) (g : Gen) : Prop := {
  ip_gen : gens !! gi = Some g;
  ip_ok : gen_ok ds g;
  ip_pos : i < ss;
  ip_seq : seqid w = (Z.of_nat gi * Z.of_nat ss + Z.of_nat i)%Z;
  ip_small : (seqid w < 2 ^ 31)%Z;
  ip_flag : flag w = if i <? ds then TYPE_DATA else TYPE_PARITY;
  ip_row : row_at g i = Some (drop FEC_HEADER_SIZE w);
  ip_long : 8 <= length w;
}.

Lemma header_fields seq ty row :
  (0 <= seq < 2 ^ 32)%Z -> (0 <= ty < 65536)%Z ->
  seqid (header seq ty ++ row) = seq /\ flag (header seq ty ++ row) = ty /\ drop FEC_HEADER_SIZE (header seq ty ++ row) = row.
Proof.
  intros Hs Ht. unfold seqid, flag, header. rewrite <- !(assoc_L (++)). split_and!.
  - rewrite take_app_length' by (by rewrite to_le_bytes_length). by apply le_roundtrip_small.
  - rewrite drop_app_length' by (by rewrite to_le_bytes_length). rewrite take_app_length' by (by rewrite to_le_bytes_length).
    by apply le_roundtrip_small.
  - rewrite (assoc_L (++)). apply drop_app_length'. by rewrite length_app, !to_le_bytes_length.
Qed.

Lemma gen_size_pos p pl : p ∈ pl -> 2 <= gen_size pl.
Proof. intros H%gen_size_le. rewrite data_row_length in H. lia. Qed.

(** The parity of a full generation. *)
Lemma parity_shape g :
  gen_ok ds g -> has_parity g = true ->
  length (parity_rows c g) = ps /\ Forall (fun row => length row = gen_size (pays g)) (parity_rows c g) /\
  2 <= gen_size (pays g).
Proof.
  intros (_ & Hfull & _) Hp. specialize (Hfull Hp).
  assert (H2 : 2 <= gen_size (pays g)).
  { destruct (pays g) as [|p pl]; [cbn in Hfull; lia|]. apply (gen_size_pos p). by left. }
  destruct (rs_parity_shape ds ps c (gen_size (pays g)) (gen_rows (pays g))) as [H1 H3].
  - done.
  - lia.
  - unfold gen_rows. by rewrite length_fmap.
  - apply gen_rows_shape.
  - by split_and!.
Qed.

Lemma packet_is gens gi i w : gens_ok ds ps gens -> packet gens gi i = Some w -> exists g, is_packet gens gi i w g.
Proof.
  intros [Hok Hlim] Hw. unfold packet_at in Hw. apply bind_Some in Hw as (g & Hg & Hw). exists g.
  assert (Hgok : gen_ok ds g) by (by eapply Forall_lookup_1). pose proof (lookup_lt_Some _ _ _ Hg) as Hgi.
  set (seq := (Z.of_nat gi * Z.of_nat ss + Z.of_nat i)%Z) in *.
  assert (Hseq : i < ss -> (0 <= seq < 2 ^ 31)%Z) by (unfold seq; nia).
  assert (Hrow : exists row, i < ss /\ row_at g i = Some row /\ 2 <= length row /\
    w = header seq (if i <? ds then TYPE_DATA else TYPE_PARITY) ++ row).
  { unfold row_at. destruct (Nat.ltb_spec i ds) as [Hi|Hi].
    - apply bind_Some in Hw as (p & Hp & [= <-]). exists (data_row p). rewrite Hp, data_row_length. split_and!; [lia|done|lia|done].
    - destruct (has_parity g) eqn:Hpar; [|done]. apply bind_Some in Hw as (row & Hrow & [= <-]). exists row.
      destruct (parity_shape g Hgok Hpar) as (Hl & Hf & H2). rewrite Forall_forall in Hf.
      rewrite (Hf row) by (by eapply list_elem_of_lookup_2). apply lookup_lt_Some in Hrow as Hlt. split_and!; [lia|done|lia|done]. }
  destruct Hrow as (row & Hi & Hr & H2 & ->).
  destruct (header_fields seq (if i <? ds then TYPE_DATA else TYPE_PARITY) row) as (H3 & H4 & H5).
  { specialize (Hseq Hi). lia. }
  { by destruct (i <? ds). }
  split; rewrite ?H3, ?H4, ?H5; try done; [by apply Hseq|]. rewrite length_app, header_length. lia.
Qed.

Lemma packet_index gens gi i w g : is_packet gens gi i w g -> row_index ss w = i /\ (seqid w / Z.of_nat ss)%Z = Z.of_nat gi.
Proof.
  intros H. unfold row_index. rewrite (ip_seq _ _ _ _ _ H). pose proof (ip_pos _ _ _ _ _ H). split.
  - rewrite Z.add_comm, Z.mod_add, Z.mod_small, Nat2Z.id by lia. done.
  - rewrite Z.add_comm, Z.div_add, Z.div_small by lia. lia.
Qed.

(** ** The rows of a generation *)

(** The packets of [pkts] are those at the positions [ix]. *)
Definition at_positions gens gi g (ix : list nat) (pkts : list bytes) : Prop :=
  Forall2 (fun i w => is_packet gens gi i w g) ix pkts.

Record collected g (ix : list nat) (pkts : list bytes) (r : Rows) : Prop := {
  co_shards i : i < ss -> shards r !! i = Some (if decide (i ∈ ix) then row_at g i else None);
  co_len : length (shards r) = ss;
  co_present i : i < ss -> present_data r !! i = Some (bool_decide (i ∈ ix /\ i < ds));
  co_plen : length (present_data r) = ss;
  co_num : num_data r = length (filter (fun i => i < ds) ix);
  co_max : maxlen r = max_list_with (fun w => length (drop FEC_HEADER_SIZE w)) pkts;
  co_count : length (filter is_Some (shards r)) = length ix;
}.

Lemma collect_ok gens gi g ix pkts :
  NoDup ix -> at_positions gens gi g ix pkts -> collected g ix pkts (collect ss pkts).
Proof.
  unfold collect. revert ix. induction pkts as [|w pkts IH] using rev_ind; intros ix Hnd Hpos.
  - apply Forall2_nil_inv_r in Hpos as ->. split; cbn [foldl shards present_data num_data maxlen].
    + intros i Hi. rewrite lookup_replicate_2 by done. by rewrite decide_False by apply not_elem_of_nil.
    + apply length_replicate.
    + intros i Hi. rewrite lookup_replicate_2 by done. by rewrite bool_decide_eq_false_2 by (intros [?%not_elem_of_nil _]; done).
    + apply length_replicate.
    + done.
    + done.
    + apply filter_none.
  - apply Forall2_app_inv_r in Hpos as (ix0 & ix1 & H0 & H1 & ->).
    apply Forall2_cons_inv_r in H1 as (i & ix2 & Hi & H2 & ->). apply Forall2_nil_inv_r in H2 as ->.
    apply NoDup_app in Hnd as (Hnd0 & Hnot & _).
    assert (Hni : i ∉ ix0) by (intros Hin; apply (Hnot i Hin); by left).
    specialize (IH ix0 Hnd0 H0). rewrite foldl_snoc. set (r := foldl _ _ pkts) in *. destruct IH as [I1 I2 I3 I4 I5 I6 I7].
    pose proof (ip_pos _ _ _ _ _ Hi) as Hp. destruct (packet_index _ _ _ _ _ Hi) as [Hidx _].
    unfold add_row. rewrite Hidx, (ip_flag _ _ _ _ _ Hi).
    split; cbn [shards present_data num_data maxlen].
    + intros j Hj. destruct (decide (j = i)) as [->|Hne].
      * rewrite list_lookup_insert_eq by lia. rewrite decide_True by set_solver. by rewrite (ip_row _ _ _ _ _ Hi).
      * rewrite list_lookup_insert_ne, I1 by done. destruct (decide (j ∈ ix0)), (decide (j ∈ ix0 ++ [i])); set_solver.
    + by rewrite length_insert.
    + intros j Hj. assert (Hsame : j <> i \/ ds <= i -> bool_decide (j ∈ ix0 /\ j < ds) = bool_decide (j ∈ ix0 ++ [i] /\ j < ds)).
      { intros H. apply bool_decide_ext. rewrite elem_of_app, list_elem_of_singleton. naive_solver lia. }
      destruct (Nat.ltb_spec i ds).
      * rewrite Z.eqb_refl. destruct (decide (j = i)) as [->|Hne].
        -- rewrite list_lookup_insert_eq by lia. by rewrite bool_decide_eq_true_2 by set_solver.
        -- rewrite list_lookup_insert_ne, I3, Hsame by auto. done.
      * change (TYPE_PARITY =? TYPE_DATA)%Z with false. rewrite I3, Hsame by auto. done.
    + destruct (Nat.ltb_spec i ds); [rewrite Z.eqb_refl|]; [by rewrite length_insert|done].
    + rewrite filter_app, length_app, filter_cons, filter_nil. destruct (Nat.ltb_spec i ds).
      * rewrite decide_True by done. rewrite Z.eqb_refl. cbn. lia.
      * rewrite decide_False by lia. change (TYPE_PARITY =? TYPE_DATA)%Z with false. cbn. lia.
    + rewrite max_list_snoc, I6, length_drop. done.
    + rewrite filter_insert, I7, length_app by (by rewrite I1, decide_False). cbn. lia.
Qed.

(** ** Recovery *)

(** The padded row of each datagram that is not there. *)
Definition lost (g : Gen) (ix : list nat) : list bytes :=
  omap (fun i => if decide (i ∈ ix) then None else (fun p => resize0 (gen_size (pays g)) (data_row p)) <$> pays g !! i)
    (seq 0 ds).

(** With as many data packets as data rows, each is there. *)
Lemma all_there (ix : list nat) i :
  NoDup ix -> ds <= length (filter (fun i => i < ds) ix) -> i < ds -> i ∈ ix.
Proof.
  intros Hnd Hlen Hi. apply list_elem_of_In.
  assert (Hincl : incl (seq 0 ds) (filter (fun i => i < ds) ix)).
  { apply NoDup_length_incl.
    - by apply NoDup_ListNoDup, NoDup_filter.
    - by rewrite length_seq.
    - intros j Hj%list_elem_of_In. apply list_elem_of_filter in Hj as [Hj _]. apply in_seq. lia. }
  specialize (Hincl i). rewrite in_seq in Hincl. specialize (Hincl ltac:(lia)).
  apply list_elem_of_In, list_elem_of_filter in Hincl as [_ H]. by apply list_elem_of_In.
Qed.

(** A packet that is not data shows that the parity was sent. *)
Lemma parity_there gens gi g ix pkts :
  at_positions gens gi g ix pkts -> length (filter (fun i => i < ds) ix) < length ix ->
  exists i w, i ∈ ix /\ ds <= i /\ w ∈ pkts /\ is_packet gens gi i w g /\ has_parity g = true.
Proof.
  induction 1 as [|i w ix pkts Hi Hrest IH]; cbn [length]; [cbn; lia|]. rewrite filter_cons.
  destruct (decide (i < ds)) as [Hlt|Hge]; cbn [length]; intros H.
  - destruct IH as (j & w' & ? & ? & ? & ? & ?); [lia|]. exists j, w'. split_and!; try done; by right.
  - exists i, w. split_and!; [by left|lia|by left|done|]. pose proof (ip_row _ _ _ _ _ Hi) as Hr. unfold row_at in Hr.
    rewrite (proj2 (Nat.ltb_ge _ _)) in Hr by lia. by destruct (has_parity g).
Qed.

(** No row is longer than the parity rows. *)
Lemma row_size g i row : gen_ok ds g -> row_at g i = Some row -> length row <= gen_size (pays g).
Proof.
  intros Hok. unfold row_at. destruct (i <? ds).
  - intros (p & Hp & ->)%fmap_Some. by eapply gen_size_le, list_elem_of_lookup_2.
  - destruct (has_parity g) eqn:Hp; [|done]. intros H. destruct (parity_shape g Hok Hp) as (_ & Hf & _).
    rewrite Forall_forall in Hf. by rewrite (Hf row) by (by eapply list_elem_of_lookup_2).
Qed.

Lemma longest gens gi g ix pkts :
  gen_ok ds g -> at_positions gens gi g ix pkts -> length (filter (fun i => i < ds) ix) < length ix ->
  max_list_with (fun w => length (drop FEC_HEADER_SIZE w)) pkts = gen_size (pays g) /\ has_parity g = true.
Proof.
  intros Hok Hpos Hlt. destruct (parity_there _ _ _ _ _ Hpos Hlt) as (i & w & _ & Hge & Hw & Hi & Hp). split; [|done].
  apply Nat.le_antisymm.
  - apply max_list_bound. intros x Hx. apply list_elem_of_lookup_1 in Hx as [j Hj].
    destruct (Forall2_lookup_r _ _ _ _ _ Hpos Hj) as (k & _ & Hk). eapply row_size; [done|]. apply (ip_row _ _ _ _ _ Hk).
  - destruct (parity_shape g Hok Hp) as (_ & Hf & _). rewrite Forall_forall in Hf.
    pose proof (ip_row _ _ _ _ _ Hi) as Hr. unfold row_at in Hr. rewrite (proj2 (Nat.ltb_ge _ _)), Hp in Hr by lia.
    rewrite <- (Hf (drop FEC_HEADER_SIZE w)) by (by eapply list_elem_of_lookup_2).
    by apply (max_list_ge (fun w => length (drop FEC_HEADER_SIZE w))).
Qed.

(** The rows as [reconstruct_data] gets them. *)
Lemma padded_rows g ix pkts r :
  gen_ok ds g -> has_parity g = true -> collected g ix pkts r ->
  Forall2 (fun s row => s = None \/ s = Some row) (option_map (resize0 (gen_size (pays g))) <$> shards r)
    (gen_rows (pays g) ++ parity_rows c g).
Proof.
  intros Hok Hp Hc. destruct (parity_shape g Hok Hp) as (Hl & Hf & _). destruct Hok as (_ & Hfull & _). specialize (Hfull Hp).
  assert (Hg : length (gen_rows (pays g)) = ds) by (unfold gen_rows; by rewrite length_fmap).
  apply Forall2_same_length_lookup_2; [rewrite length_fmap, length_app, (co_len _ _ _ _ Hc); lia|].
  intros i s row Hs Hrow. rewrite list_lookup_fmap in Hs. apply fmap_Some in Hs as (o & Ho & ->).
  assert (Hi : i < ss) by (apply lookup_lt_Some in Ho; by rewrite (co_len _ _ _ _ Hc) in Ho).
  rewrite (co_shards _ _ _ _ Hc i Hi) in Ho. injection Ho as <-. destruct (decide (i ∈ ix)); [|by left].
  unfold row_at. destruct (Nat.ltb_spec i ds).
  - rewrite lookup_app_l in Hrow by lia. unfold gen_rows in Hrow. rewrite list_lookup_fmap in Hrow.
    apply fmap_Some in Hrow as (p & -> & ->). by right.
  - rewrite lookup_app_r in Hrow by lia. rewrite Hg in Hrow. rewrite Hp, Hrow. right. cbn [option_map]. f_equal.
    rewrite Forall_forall in Hf. rewrite resize0_ge by (rewrite (Hf row); [done|by eapply list_elem_of_lookup_2]).
    rewrite (Hf row) by (by eapply list_elem_of_lookup_2). rewrite Nat.sub_diag. cbn. by rewrite app_nil_r.
Qed.

Lemma gen_rows_seq g :
  length (pays g) = ds ->
  Some <$> gen_rows (pays g) = (fun i => (fun p => resize0 (gen_size (pays g)) (data_row p)) <$> pays g !! i) <$> seq 0 ds.
Proof.
  intros Hl. apply list_eq. intros i. unfold gen_rows. rewrite !list_lookup_fmap. destruct (decide (i < ds)) as [Hi|Hi].
  - rewrite lookup_seq_lt by done. destruct (lookup_lt_is_Some_2 (pays g) i) as [p Hp]; [lia|]. cbn. by rewrite Hp.
  - rewrite lookup_ge_None_2 by lia. rewrite lookup_ge_None_2 by (rewrite length_seq; lia). done.
Qed.

Lemma recover_ok d gens gi g ix pkts :
  dec_data d = ds -> dec_size d = ss -> dec_codec d = c -> gen_ok ds g ->
  NoDup ix -> at_positions gens gi g ix pkts -> ds <= length ix ->
  recover d pkts = lost g ix.
Proof.
  intros Hd Hs Hc Hok Hnd Hpos Hlen. unfold recover. rewrite Hd, Hs, Hc.
  pose proof (collect_ok gens gi g ix pkts Hnd Hpos) as Hcol. set (r := collect ss pkts) in *.
  destruct (Nat.ltb_spec (num_data r) ds) as [Hlt|Hge]; rewrite (co_num _ _ _ _ Hcol) in *.
  2:{ symmetry. apply omap_none. intros i Hi%list_elem_of_In%in_seq. rewrite decide_True; [done|]. apply all_there; [done|done|lia]. }
  destruct (longest gens gi g ix pkts Hok Hpos) as [Hmx Hp]; [lia|].
  rewrite (co_max _ _ _ _ Hcol), Hmx. pose proof Hok as (_ & Hfull & _). specialize (Hfull Hp).
  destruct (parity_shape g Hok Hp) as (_ & _ & H2).
  destruct (reconstruct_ok ds ps c (gen_size (pays g)) (gen_rows (pays g))
    (option_map (resize0 (gen_size (pays g))) <$> shards r)) as (rows & Hrec & Htake).
  - done.
  - lia.
  - unfold gen_rows. by rewrite length_fmap.
  - apply gen_rows_shape.
  - by eapply padded_rows.
  - rewrite count_padded, (co_count _ _ _ _ Hcol). done.
  - rewrite Hrec. unfold missing_rows, lost. rewrite Htake, gen_rows_seq by done.
    assert (take ds (present_data r) = (fun i => bool_decide (i ∈ ix)) <$> seq 0 ds) as ->.
    { apply list_eq. intros i. rewrite list_lookup_fmap. destruct (decide (i < ds)) as [Hi|Hi].
      - rewrite lookup_take_lt, lookup_seq_lt, (co_present _ _ _ _ Hcol) by lia. cbn. f_equal. apply bool_decide_ext. naive_solver.
      - rewrite lookup_take_ge by lia. by rewrite lookup_ge_None_2 by (rewrite length_seq; lia). }
    rewrite omap_zip. apply omap_ext_in. intros i _. destruct (decide (i ∈ ix)).
    + by rewrite bool_decide_eq_true_2.
    + by rewrite bool_decide_eq_false_2.
Qed.

(** ** The state of the decoder *)

Definition set_ok gens (sid : Z) (s : ShardSet) : Prop :=
  exists gi, sid = Z.of_nat gi /\ gi < length gens /\ NoDup (row_index ss <$> packets s) /\
    Forall (fun w => packet gens gi (row_index ss w) = Some w) (packets s) /\
    seqids s = list_to_set (seqid <$> packets s) /\ length (packets s) < ds.

Record dec_ok (d : FecDecoder) gens : Prop := {
  do_data : dec_data d = ds;
  do_parity : dec_parity d = ps;
  do_size : dec_size d = ss;
  do_paws : dec_paws d = paws_of ss;
  do_tune : should_tune d = false;
  do_codec : dec_codec d = c;
  do_sets : map_Forall (set_ok gens) (shard_set d);
  do_newest : (0 <= newest_shard_id d /\ newest_shard_id d * Z.of_nat ss < 2 ^ 31)%Z;
}.

(** The positions of a generation that are held back. *)
Definition held (d : FecDecoder) (gi : nat) : list nat :=
  match shard_set d !! Z.of_nat gi with Some s => row_index ss <$> packets s | None => [] end.

Lemma decoder_new_ok gens : exists d, decoder_new ds ps = Some d /\ dec_ok d gens /\ (forall gi, held d gi = []).
Proof.
  unfold decoder_new. rewrite (proj2 (Nat.eqb_neq ds 0)), (proj2 (Nat.eqb_neq ps 0)), (proj2 (Nat.ltb_ge _ _)) by lia.
  cbn [orb]. rewrite Hnew. cbn [mbind option_bind]. eexists. split; [done|]. split; [|done]. by split.
Qed.

Lemma dec_ok_extends d gens gens' : extends ds ps c gens gens' -> length gens <= length gens' -> dec_ok d gens -> dec_ok d gens'.
Proof.
  intros He Hl []. split; try done. intros sid s Hs. destruct (do_sets0 sid s Hs) as (gi & ? & ? & ? & Hf & ? & ?).
  exists gi. split_and!; try done; [lia|]. eapply Forall_impl; [done|]. intros w. apply He.
Qed.

(** Serial numbers of generations compare as they are. *)
Lemma itimediff_gens a b :
  (0 <= a)%Z -> (0 <= b)%Z -> (a * Z.of_nat ss < 2 ^ 31)%Z -> (b * Z.of_nat ss < 2 ^ 31)%Z ->
  itimediff (wmul a (Z.of_nat ss)) (wmul b (Z.of_nat ss)) = ((a - b) * Z.of_nat ss)%Z.
Proof.
  intros Ha Hb Ha' Hb'. unfold itimediff, to_i32, wsub, wmul, w32.
  rewrite (Z.mod_small (a * _)), (Z.mod_small (b * _)) by nia. rewrite Zplus_mod_idemp_l.
  rewrite Z.mod_small by nia. lia.
Qed.

Lemma set_positions gens gi g s :
  gens_ok ds ps gens -> gens !! gi = Some g -> set_ok gens (Z.of_nat gi) s ->
  at_positions gens gi g (row_index ss <$> packets s) (packets s).
Proof.
  intros Hok Hg (gj & Ej & _ & _ & Hf & _ & _). assert (gj = gi) as -> by lia.
  unfold at_positions. rewrite Forall2_fmap_l. apply Forall_Forall2_diag. eapply Forall_impl; [done|]. intros w Hw.
  destruct (packet_is _ _ _ _ Hok Hw) as (g' & Hi). pose proof (ip_gen _ _ _ _ _ Hi) as Hg'. cbn. congruence.
Qed.

Lemma held_set_ok gens d gi :
  dec_ok d gens -> gi < length gens ->
  set_ok gens (Z.of_nat gi) (default (mkSet ∅ []) (shard_set d !! Z.of_nat gi)) /\
  row_index ss <$> packets (default (mkSet ∅ []) (shard_set d !! Z.of_nat gi)) = held d gi.
Proof.
  intros Hd Hgi. unfold held. destruct (shard_set d !! Z.of_nat gi) as [s|] eqn:Hs; cbn [default from_option id].
  - split; [by apply (do_sets _ _ Hd)|done].
  - split; [|done]. exists gi. split_and!; try done. constructor.
Qed.

(** A packet is held already when its sequence number is. *)
Lemma seqid_held gens gi i w s :
  gens_ok ds ps gens -> packet gens gi i = Some w -> set_ok gens (Z.of_nat gi) s ->
  seqid w ∈ seqids s <-> i ∈ row_index ss <$> packets s.
Proof.
  intros Hok Hw (gj & Ej & _ & _ & Hf & -> & _). assert (gj = gi) as -> by lia.
  destruct (packet_is _ _ _ _ Hok Hw) as (g & Hi). rewrite elem_of_list_to_set, !list_elem_of_fmap.
  split; intros (w' & E & Hin); exists w'; (split; [|done]); rewrite Forall_forall in Hf; pose proof (Hf w' Hin) as Hw';
    destruct (packet_is _ _ _ _ Hok Hw') as (g' & Hi'); pose proof (ip_seq _ _ _ _ _ Hi); pose proof (ip_seq _ _ _ _ _ Hi'); lia.
Qed.

(** What is held after a packet at position [i] of generation [gi]. *)
Definition held_after (old : list nat) (i : nat) : list nat :=
  if decide (i ∈ old) then old else if ds <=? length (old ++ [i]) then [] else old ++ [i].

(** What a packet brings back. *)
Definition recovered (g : Gen) (old : list nat) (i : nat) : list bytes :=
  if decide (i ∈ old) then [] else if ds <=? length (old ++ [i]) then lost g (old ++ [i]) else [].

Lemma add_packet_new gens d gi i w s :
  gens_ok ds ps gens -> dec_ok d gens -> packet gens gi i = Some w ->
  s = default (mkSet ∅ []) (shard_set d !! Z.of_nat gi) -> i ∉ held d gi ->
  set_ok gens (Z.of_nat gi) (if ds <=? length (packets s ++ [w]) then mkSet ∅ []
    else mkSet ({[seqid w]} ∪ seqids s) (packets s ++ [w])).
Proof.
  intros Hok Hd Hw -> Hni. destruct (packet_is _ _ _ _ Hok Hw) as (g & Hi).
  pose proof (lookup_lt_Some _ _ _ (ip_gen _ _ _ _ _ Hi)) as Hgi.
  destruct (packet_index _ _ _ _ _ Hi) as [Hidx _].
  destruct (held_set_ok gens d gi Hd Hgi) as [(gj & Ej & _ & Hnd & Hf & Hsq & Hl) Hh]. assert (gj = gi) as -> by lia.
  destruct (Nat.leb_spec ds (length (packets (default (mkSet ∅ []) (shard_set d !! Z.of_nat gi)) ++ [w]))) as [H|H];
    exists gi; cbn [packets seqids]; split_and!; try done; try (by constructor).
  - rewrite fmap_app. cbn. rewrite Hidx. apply NoDup_app. split_and!; [done| |apply NoDup_singleton].
    intros j Hj ->%list_elem_of_singleton. apply Hni. by rewrite <- Hh.
  - apply Forall_app. split; [done|]. constructor; [by rewrite Hidx|constructor].
  - rewrite fmap_app, list_to_set_app_L, Hsq. cbn. set_solver.
Qed.

(** ** One packet *)

Record decoded gens (d d' : FecDecoder) (gi i : nat) : Prop := {
  dd_ok : dec_ok d' gens;
  dd_newest : (newest_shard_id d' <= Z.max (newest_shard_id d) (Z.of_nat gi))%Z;
  dd_held gj : (newest_shard_id d' <= Z.of_nat gj + 3)%Z ->
    held d' gj = if decide (gj = gi) then held_after (held d gi) i else held d gj;
}.

Lemma gen_seq gens gi : gens_ok ds ps gens -> gi < length gens -> (Z.of_nat gi * Z.of_nat ss < 2 ^ 31)%Z.
Proof. intros [_ H] Hgi. nia. Qed.

(** The sets after one of them changed and the old ones were dropped. *)
Lemma discard_lookup gens d gi s newest sid :
  gens_ok ds ps gens -> dec_ok d gens -> gi < length gens ->
  (0 <= newest /\ newest * Z.of_nat ss < 2 ^ 31)%Z -> (0 <= sid /\ sid * Z.of_nat ss < 2 ^ 31)%Z ->
  discard (Z.of_nat ss) newest (<[Z.of_nat gi := s]> (shard_set d)) !! sid =
  if decide (newest <= sid + 3)%Z then if decide (sid = Z.of_nat gi) then Some s else shard_set d !! sid else None.
Proof.
  intros Hok Hd Hgi [Hn Hn'] [Hs Hs']. unfold discard. rewrite map_lookup_filter.
  destruct (decide (sid = Z.of_nat gi)) as [->|Hne]; [rewrite lookup_insert_eq|rewrite lookup_insert_ne by done].
  - cbn. rewrite itimediff_gens by done. destruct (decide (newest <= Z.of_nat gi + 3)%Z).
    + rewrite option_guard_True; [done|]. apply Z.leb_le. unfold MAX_SHARD_SETS. nia.
    + rewrite option_guard_False; [done|]. intros H%Z.leb_le. unfold MAX_SHARD_SETS in H. nia.
  - destruct (shard_set d !! sid) as [x|] eqn:Hx; cbn; [|by destruct (decide _)].
    rewrite itimediff_gens by done. destruct (decide (newest <= sid + 3)%Z).
    + rewrite option_guard_True; [done|]. apply Z.leb_le. unfold MAX_SHARD_SETS. nia.
    + rewrite option_guard_False; [done|]. intros H%Z.leb_le. unfold MAX_SHARD_SETS in H. nia.
Qed.

Lemma discard_sets gens d gi s newest :
  dec_ok d gens -> set_ok gens (Z.of_nat gi) s ->
  map_Forall (set_ok gens) (discard (Z.of_nat ss) newest (<[Z.of_nat gi := s]> (shard_set d))).
Proof.
  intros Hd Hs sid x Hx. unfold discard in Hx. apply map_lookup_filter_Some in Hx as [Hx _].
  apply lookup_insert_Some in Hx as [[<- <-]|[_ Hx]]; [done|]. by apply (do_sets _ _ Hd).
Qed.

Lemma add_packet_ok gens d gi i w g :
  gens_ok ds ps gens -> dec_ok d gens -> is_packet gens gi i w g -> packet gens gi i = Some w ->
  exists d', add_packet d w = (d', recovered g (held d gi) i) /\ decoded gens d d' gi i.
Proof.
  intros Hok Hd Hi Hw. pose proof (lookup_lt_Some _ _ _ (ip_gen _ _ _ _ _ Hi)) as Hgi.
  destruct (packet_index _ _ _ _ _ Hi) as [Hidx Hdiv]. destruct (held_set_ok gens d gi Hd Hgi) as [Hs Hh].
  unfold add_packet. rewrite (do_size _ _ Hd), Hdiv. set (s := default _ _) in *.
  unfold recovered. pose proof (seqid_held gens gi i w s Hok Hw Hs) as Hiff. rewrite Hh in Hiff.
  destruct (decide (i ∈ held d gi)) as [Hin|Hni].
  { rewrite bool_decide_eq_true_2 by tauto. exists d. split; [done|]. split; [done|lia|]. intros gj _.
    destruct (decide (gj = gi)) as [->|]; [|done]. unfold held_after. by rewrite decide_True. }
  rewrite bool_decide_eq_false_2 by tauto. rewrite (do_data _ _ Hd). cbn [packets].
  assert (Hlen : length (held d gi ++ [i]) = length (packets s ++ [w])) by (rewrite <- Hh, !length_app, length_fmap; done).
  pose proof (add_packet_new gens d gi i w s Hok Hd Hw eq_refl Hni) as Hset. rewrite Hlen.
  set (s' := if ds <=? _ then _ else _) in Hset.
  assert (Hheld : row_index ss <$> packets s' = held_after (held d gi) i).
  { unfold s', held_after. rewrite decide_False by done. rewrite Hlen. destruct (ds <=? _); [done|]. cbn [packets].
    rewrite fmap_app, Hh. cbn. by rewrite Hidx. }
  assert (Hrec : (if ds <=? length (packets s ++ [w]) then (mkSet ∅ [], recover d (packets s ++ [w]))
      else (mkSet ({[seqid w]} ∪ seqids s) (packets s ++ [w]), [])) =
    (s', if ds <=? length (packets s ++ [w]) then lost g (held d gi ++ [i]) else [])).
  { unfold s'. destruct (Nat.leb_spec ds (length (packets s ++ [w]))) as [Hle|]; [|done]. f_equal.
    destruct Hs as (gj & Ej & _ & Hnd & _). eapply (recover_ok d gens gi g); try apply Hd.
    - apply (ip_ok _ _ _ _ _ Hi).
    - rewrite <- Hh. apply NoDup_app. split_and!; [done| |apply NoDup_singleton].
      intros j Hj ->%list_elem_of_singleton. apply Hni. by rewrite <- Hh.
    - apply Forall2_app; [|by constructor; [|constructor]]. rewrite <- Hh. eapply set_positions; [done|apply Hi|].
      by apply (held_set_ok gens d gi Hd Hgi).
    - lia. }
  rewrite Hrec. pose proof (gen_seq gens gi Hok Hgi) as Hgs. pose proof (do_newest _ _ Hd) as [Hn Hn'].
  rewrite itimediff_gens by (done || lia). set (newest := if (0 <? _)%Z then _ else _).
  assert (Hnew' : newest = Z.max (newest_shard_id d) (Z.of_nat gi)).
  { unfold newest. destruct (Z.ltb_spec 0 ((Z.of_nat gi - newest_shard_id d) * Z.of_nat ss)); nia. }
  eexists. split; [done|]. split; cbn [with_sets newest_shard_id].
  - destruct Hd. split; try done; cbn [with_sets shard_set newest_shard_id]; [by apply discard_sets|].
    rewrite Hnew'. destruct (Z.max_spec (newest_shard_id d) (Z.of_nat gi)) as [[_ ->]|[_ ->]]; lia.
  - lia.
  - intros gj Hgj. unfold held at 1. cbn [with_sets shard_set].
    destruct (decide (Z.of_nat gj * Z.of_nat ss < 2 ^ 31)%Z) as [Hsm|Hbig].
    + rewrite (discard_lookup gens d gi s') by (done || lia || (split; lia)). rewrite decide_True by lia.
      destruct (decide (gj = gi)) as [->|Hne]; [by rewrite decide_True|]. by rewrite decide_False by lia.
    + assert (Hnone : forall m : gmap Z ShardSet, map_Forall (set_ok gens) m -> m !! Z.of_nat gj = None).
      { intros m Hm. apply eq_None_not_Some. intros [x Hx]. destruct (Hm _ _ Hx) as (gk & Ek & Hk & _).
        pose proof (gen_seq gens gk Hok Hk). assert (gk = gj) as -> by lia. lia. }
      rewrite Hnone by (by apply discard_sets). rewrite decide_False by (intros ->; lia).
      unfold held. by rewrite (Hnone _ (do_sets _ _ Hd)).
Qed.

Lemma decode_ok gens d gi i w :
  gens_ok ds ps gens -> dec_ok d gens -> packet gens gi i = Some w ->
  exists d' g, gens !! gi = Some g /\ decode d w = (d', recovered g (held d gi) i) /\ decoded gens d d' gi i.
Proof.
  intros Hok Hd Hw. destruct (packet_is _ _ _ _ Hok Hw) as (g & Hi). pose proof (ip_long _ _ _ _ _ Hi) as Hlong.
  unfold decode. rewrite (proj2 (Nat.ltb_ge _ _)) by done. cbn [with_tune dec_paws]. rewrite (do_paws _ _ Hd).
  pose proof (paws_big ds ps Hds Hps Hmax). pose proof (ip_small _ _ _ _ _ Hi).
  rewrite (proj2 (Z.leb_gt _ _)) by lia.
  assert (Hmis : forall t b, mismatch (with_tune d t b) w = false).
  { intros t b. unfold mismatch. cbn [with_tune dec_size dec_data]. rewrite (do_size _ _ Hd), (do_data _ _ Hd).
    rewrite (ip_flag _ _ _ _ _ Hi). destruct (packet_index _ _ _ _ _ Hi) as [Hidx _]. unfold row_index in Hidx.
    pose proof (Z.mod_pos_bound (seqid w) (Z.of_nat ss)).
    destruct (Nat.ltb_spec i ds), (Z.ltb_spec (seqid w `mod` Z.of_nat ss) (Z.of_nat ds)); try done; lia. }
  rewrite (Hmis (sample (auto_tune d) (flag w =? TYPE_DATA)%Z (seqid w)) (should_tune d)). cbn [with_tune should_tune]. rewrite (do_tune _ _ Hd). cbn [orb].
  match goal with |- context [add_packet ?x w] => set (d0 := x) end.
  assert (Hd0 : dec_ok d0 gens) by (destruct Hd; by split).
  destruct (add_packet_ok gens d0 gi i w g Hok Hd0 Hi Hw) as (d' & Ha & Hdec). exists d', g.
  split; [apply Hi|]. split; [exact Ha|]. destruct Hdec. by split.
Qed.

End Decode.
End FecDecode.
