(* ===== verification/KcpStream.v ===== *)
(** * The kcptun stream (crates/meow-transport/src/kcptun/conn.rs and mod.rs)

    A KCP endpoint behind forward error correction and encryption. Polling is
    cut into the steps that change state: writing, pumping, taking in a
    datagram, staging what arrived, reading. Clocks, random bytes and how many
    datagrams the socket and the rate limiter let through are arguments;
    wakers and the timer carry no data and are left out. The outer [option] is
    a panic. *)

From stdpp Require Import gmap.
From S2P Require Import Prelude Strings Bits Kcp KcpCrypt Fec.

Module KcpStream.
Import Kcp KcpCrypt Fec.

Definition OUTBOX_CAP : nat := 512.

(** The bound of the channel from KCP to the stream. *)
Definition SINK_CAP : nat := 512.

(** The latency up to which a generation gets its parity. *)
Definition FEC_LATENCY : Z := 500.

(** What a step reads from outside: the clock before an operation and before
    [check], the clock and the random bytes for the [k]th datagram, [j] counting
    the packets of one datagram, and whether the socket takes datagrams without
    an error. *)
Record Env := mkEnv {
  now_ms : Z;
  check_ms : Z;
  instant : nat -> Z;
  rng : nat -> nat -> nat -> bytes;
  socket_ok : bool;
}.

(** ** The configuration (mod.rs) *)

Record KcpConfig := mkKcpConfig {
  config_key : bytes;
  config_crypt : bytes;
  config_mode : bytes;
  config_conn : Z;
  auto_expire : Z;
  scavenge_ttl : Z;
  config_mtu : Z;
  rate_limit : Z;
  config_snd_wnd : Z;
  config_rcv_wnd : Z;
  data_shard : nat;
  parity_shard : nat;
  dscp : Z;
  no_comp : bool;
  config_ack_nodelay : bool;
  config_nodelay : Z;
  config_interval : Z;
  config_resend : Z;
  config_nc : Z;
  sock_buf : Z;
  smux_ver : Z;
  smux_buf : Z;
  frame_size : Z;
  stream_buf : Z;
  keep_alive : Z;
}.

Definition blank : KcpConfig :=
  mkKcpConfig [] [] [] 0 0 0 0 0 0 0 0 0 0 false false 0 0 0 0 0 0 0 0 0 0.

Definition or_bytes (v d : bytes) : bytes := if bool_decide (v = []) then d else v.
Definition or_num (v d : Z) : Z := if (v =? 0)%Z then d else v.
Definition or_count (v d : nat) : nat := if v =? 0 then d else v.

(** The tuning a mode stands for: [nodelay], [interval], [resend], [nc]. *)
Definition mode_preset (mode : bytes) (tuning : Z * Z * Z * Z) : Z * Z * Z * Z :=
  if bool_decide (mode = b! "normal") then (0, 40, 2, 1)%Z
  else if bool_decide (mode = b! "fast") then (0, 30, 2, 1)%Z
  else if bool_decide (mode = b! "fast2") then (1, 20, 2, 1)%Z
  else if bool_decide (mode = b! "fast3") then (1, 10, 2, 1)%Z
  else tuning.

Definition fill_defaults (c : KcpConfig) : KcpConfig :=
  let mode := or_bytes (config_mode c) (b! "fast") in
  let '(nodelay, interval, resend, nc) :=
    mode_preset mode (config_nodelay c, or_num (config_interval c) 50, config_resend c, config_nc c)%Z in
  mkKcpConfig (or_bytes (config_key c) (b! "it's a secrect")) (or_bytes (config_crypt c) (b! "aes")) mode
    (or_num (config_conn c) 1) (auto_expire c) (or_num (scavenge_ttl c) 600) (or_num (config_mtu c) 1350) (rate_limit c)
    (or_num (config_snd_wnd c) 128) (or_num (config_rcv_wnd c) 512) (or_count (data_shard c) 10)
    (or_count (parity_shard c) 3) (dscp c) (no_comp c) (config_ack_nodelay c) nodelay (bound 10 interval 5000) resend nc
    (or_num (sock_buf c) 4194304) (or_num (smux_ver c) 1) (or_num (smux_buf c) 4194304) (or_num (frame_size c) 8192)
    (or_num (stream_buf c) 2097152) (or_num (keep_alive c) 10).

(** ** The stream *)

Inductive ConnectError := CryptError_ (e : CryptError) | NoRoom | MtuError (e : KcpError).

Section Stream.
Context `{CL : CryptoLib, RS : RsLib}.

(** [taken] counts the datagrams of [kcp] the channel has passed on. *)
Record KcpStream := mkStream {
  kcp : Kcp;
  crypt : Crypt;
  fec_enc : option FecEncoder;
  fec_dec : FecDecoder;
  taken : nat;
  outbox : list bytes;
  inbox : bytes;
  dead : bool;
  ack_nodelay : bool;
}.

Definition connect (conv : Z) (config : KcpConfig) : option (result ConnectError KcpStream) :=
  match crypt_new (config_crypt config) (config_key config) with
  | Err e => Some (Err (CryptError_ e))
  | Ok crypt =>
      let enc := encoder_new (data_shard config) (parity_shard config) (header_size crypt) in
      let header := header_size crypt + if bool_decide (is_Some enc) then FEC_HEADER_SIZE_PLUS2 else 0 in
      dec ← decoder_new (data_shard config) (parity_shard config);
      let k := new_stream conv in
      let k := set_nodelay k (negb (config_nodelay config =? 0)%Z) (bound 10 (config_interval config) 5000)
        (config_resend config) (negb (config_nc config =? 0)%Z) in
      let k := set_wndsize k (config_snd_wnd config) (config_rcv_wnd config) in
      let overhead := header + aead_overhead crypt in
      let mtu := Nat.min (Z.to_nat (config_mtu config)) MTU_LIMIT in
      if mtu <=? overhead then Some (Err NoRoom)
      else
        match set_mtu k (mtu - overhead) with
        | (Err e, _) => Some (Err (MtuError e))
        | (Ok _, k) =>
            Some (Ok (mkStream (set_maximum_resend_times k 20) crypt enc dec 0 [] [] false (config_ack_nodelay config)))
        end
  end.

Definition set_kcp (s : KcpStream) (k : Kcp) : KcpStream :=
  mkStream k (crypt s) (fec_enc s) (fec_dec s) (taken s) (outbox s) (inbox s) (dead s) (ack_nodelay s).
Definition set_dec (s : KcpStream) (d : FecDecoder) : KcpStream :=
  mkStream (kcp s) (crypt s) (fec_enc s) d (taken s) (outbox s) (inbox s) (dead s) (ack_nodelay s).
Definition set_sending (s : KcpStream) (e : option FecEncoder) (box : list bytes) : KcpStream :=
  mkStream (kcp s) (crypt s) e (fec_dec s) (taken s) box (inbox s) (dead s) (ack_nodelay s).
Definition set_taken (s : KcpStream) (n : nat) : KcpStream :=
  mkStream (kcp s) (crypt s) (fec_enc s) (fec_dec s) n (outbox s) (inbox s) (dead s) (ack_nodelay s).
Definition set_inbox (s : KcpStream) (b : bytes) : KcpStream :=
  mkStream (kcp s) (crypt s) (fec_enc s) (fec_dec s) (taken s) (outbox s) b (dead s) (ack_nodelay s).
Definition set_dead (s : KcpStream) : KcpStream :=
  mkStream (kcp s) (crypt s) (fec_enc s) (fec_dec s) (taken s) (outbox s) (inbox s) true (ack_nodelay s).

(** ** Sending *)

Fixpoint seal_all (c : Crypt) (rng : nat -> nat -> bytes) (j : nat) (bufs : list bytes) : option (list bytes) :=
  match bufs with
  | [] => Some []
  | buf :: bufs => wire ← seal c (rng j) buf; wires ← seal_all c rng (S j) bufs; Some (wire :: wires)
  end.

Definition zeros (n : nat) : bytes := replicate n (z_byte 0).

Definition encode_packet (env : Env) (k : nat) (s : KcpStream) (raw : bytes) : option KcpStream :=
  if OUTBOX_CAP <=? length (outbox s) then Some s
  else
    let crypt_hdr := header_size (crypt s) in
    match fec_enc s with
    | Some enc =>
        '(enc, buf, parity) ← Fec.encode enc (zeros (crypt_hdr + FEC_HEADER_SIZE_PLUS2) ++ raw) (instant env k) FEC_LATENCY;
        wires ← seal_all (crypt s) (rng env k) 0 (buf :: parity);
        Some (set_sending s (Some enc) (outbox s ++ wires))
    | None =>
        wire ← seal (crypt s) (rng env k 0) (zeros crypt_hdr ++ raw);
        Some (set_sending s None (outbox s ++ [wire]))
    end.

Fixpoint encode_packets (env : Env) (k : nat) (s : KcpStream) (raws : list bytes) : option KcpStream :=
  match raws with
  | [] => Some s
  | raw :: raws => s ← encode_packet env k s raw; encode_packets env (S k) s raws
  end.

(** The channel held the first of what KCP wrote since it was emptied. *)
Definition drain_sink (env : Env) (s : KcpStream) : option KcpStream :=
  let written := output (out (kcp s)) in
  s ← encode_packets env 0 s (take SINK_CAP (drop (taken s) written));
  Some (set_taken s (length written)).

(** The state, the datagrams that left, and whether there was no error;
    [room] bounds what leaves. *)
Definition pump (env : Env) (room : nat) (s : KcpStream) : option (KcpStream * list bytes * bool) :=
  match update (kcp s) (now_ms env) with
  | (Err _, k) => Some (set_kcp s k, [], false)
  | (Ok _, k) =>
      match (if (check k (check_ms env) =? 0)%Z then flush k else (Ok tt, k)) with
      | (Err _, k) => Some (set_kcp s k, [], false)
      | (Ok _, k) =>
          let s := set_kcp s k in
          if is_dead_link k then Some (set_dead s, [], false)
          else
            s ← drain_sink env s;
            Some (set_sending s (fec_enc s) (drop room (outbox s)), take room (outbox s), socket_ok env)
      end
  end.

(** ** Receiving *)

(** A row that was recovered: its length field, then the datagram. *)
Definition row_payload (r : bytes) : option bytes :=
  if length r <? 2 then None
  else
    let sz := Z.to_nat (from_le_bytes (take 2 r)) in
    if (2 <=? sz) && (sz <=? length r) then Some (take (sz - 2) (drop 2 r)) else None.

Definition is_fec (ty : Z) : bool := (ty =? TYPE_DATA)%Z || (ty =? TYPE_PARITY)%Z.

(** The datagrams a packet hands to KCP, each with whether it came itself,
    and the decoder after it; [None] for a packet that is dropped. *)
Definition packet_inputs (d : FecDecoder) (pkt : bytes) : option (FecDecoder * list (bytes * bool)) :=
  if (6 <=? length pkt) && is_fec (flag pkt) then
    if length pkt <? FEC_HEADER_SIZE_PLUS2 then None
    else
      let direct := if (flag pkt =? TYPE_DATA)%Z then [(drop FEC_HEADER_SIZE_PLUS2 pkt, true)] else [] in
      let '(d, rows) := decode d pkt in
      Some (d, direct ++ ((fun p => (p, false)) <$> omap row_payload rows))
  else Some (d, [(pkt, true)]).

Definition kcp_inputs (nd : bool) (k : Kcp) (l : list (bytes * bool)) : Kcp :=
  foldl (fun k '(p, regular) => (input k p regular nd).2) k l.

Definition input_packet (env : Env) (s : KcpStream) (pkt : bytes) : option KcpStream :=
  r ← open (crypt s) pkt;
  match r with
  | Err _ => Some s
  | Ok pkt =>
      let k := (update (kcp s) (now_ms env)).2 in
      match packet_inputs (fec_dec s) pkt with
      | None => Some (set_kcp s k)
      | Some (d, l) => drain_sink env (set_dec (set_kcp s (kcp_inputs (ack_nodelay s) k l)) d)
      end
  end.

(** One datagram off the socket, read into a buffer of [MTU_LIMIT] bytes. *)
Definition receive (env : Env) (s : KcpStream) (datagram : bytes) : option KcpStream :=
  let pkt := take MTU_LIMIT datagram in
  if length pkt =? 0 then Some s else input_packet env s pkt.

Definition inbox_cap (k : Kcp) : nat := Nat.max (Z.to_nat (rcv_wnd (cfg k)) * mss (cfg k)) (mss (cfg k)).

(** What KCP has ready moves to the inbox; every round takes a segment, so
    the fuel is enough (KcpStreamRun.stage_enough). *)
Fixpoint stage_loop (fuel : nat) (s : KcpStream) : KcpStream :=
  if length (inbox s) <? inbox_cap (kcp s) then
    match fuel with
    | 0 => s
    | S fuel =>
        match peeksize (kcp s) with
        | Err _ => s
        | Ok want =>
            match recv (kcp s) want with
            | (Err _, k) => set_kcp s k
            | (Ok d, k) => stage_loop fuel (set_inbox (set_kcp s k) (inbox s ++ d))
            end
        end
    end
  else s.

Definition stage (s : KcpStream) : KcpStream :=
  stage_loop (S (length (rcv_queue (rcv (kcp s))) + length (rcv_buf (rcv (kcp s))))) s.

(** [poll_read] with something in the inbox. *)
Definition read (room : nat) (s : KcpStream) : KcpStream * bytes :=
  (set_inbox s (drop room (inbox s)), take room (inbox s)).

(** ** Writing *)

(** [Failed] says how many bytes KCP had taken by then. *)
Inductive WriteResult := Wrote (n : nat) | Stalled | BrokenPipe | Failed (n : nat).

(** One attempt of [poll_write]; the passes of a stalled writer are steps of
    their own. *)
Definition write (env : Env) (room : nat) (s : KcpStream) (b : bytes) : option (KcpStream * list bytes * WriteResult) :=
  if dead s then Some (s, [], BrokenPipe)
  else if length b =? 0 then Some (s, [], Wrote 0)
  else if Z.to_nat (snd_wnd (cfg (kcp s))) <=? wait_snd (kcp s) then Some (s, [], Stalled)
  else
    let cap := 255 * mss (cfg (kcp s)) in
    match send (kcp s) (take (Nat.min (length b) cap) b) with
    | (Err _, k) => Some (set_kcp s k, [], Failed 0)
    | (Ok n, k) =>
        let k := (update k (now_ms env)).2 in
        let k := (flush k).2 in
        '(s, wires, ok) ← pump env room (set_kcp s k);
        Some (s, wires, if ok : bool then Wrote n else Failed n)
    end.

(** One pass of [poll_flush]. *)
Definition poll_flush (env : Env) (room : nat) (s : KcpStream) : option (KcpStream * list bytes * bool) :=
  let k := (update (kcp s) (now_ms env)).2 in
  let k := (flush k).2 in
  pump env room (set_kcp s k).

(** A flush that leaves nothing ends the stream. *)
Definition shutdown (env : Env) (room : nat) (s : KcpStream) : option (KcpStream * list bytes * bool) :=
  '(s, wires, ok) ← poll_flush env room s;
  Some (if (ok : bool) && (length (outbox s) =? 0) then set_dead s else s, wires, ok).

End Stream.
End KcpStream.
