(* ===== verification/KcpStreamNet.v ===== *)
(** * Two kcptun streams over a lossy network

    Every step of a stream is a series of calls on its KCP endpoint, and what
    it hands to KCP is a datagram the other endpoint wrote: encryption gives
    back what was sealed, and error correction only what was sent. So two
    streams deliver bytes as two endpoints do. *)

From stdpp Require Import gmap.
From S2P Require Import Prelude Strings Bits Kcp KcpWire KcpInv KcpNet KcpSized KcpCrypt Fec FecEncode FecDecode KcpStream.

Module KcpStreamNet.
Import Kcp KcpSized KcpCrypt Fec FecEncode FecDecode KcpStream.

(** ** Calls on the endpoints *)

(** An endpoint with the bytes its application wrote and got. *)
Record End := mkEnd { e_kcp : Kcp; e_wrote : bytes; e_got : bytes }.

Definition is_peer (p : KcpNet.Peer) (e : End) : Prop :=
  KcpNet.kcp p = e_kcp e /\ mjoin (KcpNet.sent p) = e_wrote e /\ mjoin (KcpNet.got p) = e_got e.

Section Reach.
Context (cv : Z).

(** The two endpoints come from a run of the two KCP endpoints. *)
Definition reach (a b : End) : Prop :=
  exists es n, KcpNet.run (KcpNet.start cv true true) es = Some n /\ is_peer (KcpNet.side_a n) a /\ is_peer (KcpNet.side_b n) b.

Definition reach_side (on_a : bool) (p q : End) : Prop := if on_a then reach p q else reach q p.

Lemma run_app n es es' : KcpNet.run n (es ++ es') = n' ← KcpNet.run n es; KcpNet.run n' es'.
Proof.
  revert n. induction es as [|e es IH]; intros n; [done|]. cbn [app KcpNet.run].
  destruct (KcpNet.net_step n e); [apply IH|done].
Qed.

Lemma reach_call on_a p q e c :
  reach_side on_a p q ->
  (forall P, is_peer P p -> exists P', KcpNet.perform (output (out (e_kcp q))) c P = Some P' /\ is_peer P' e) ->
  reach_side on_a e q.
Proof.
  intros Hr Hc. destruct on_a; destruct Hr as (es & n & Hrun & Ha & Hb).
  - destruct (Hc _ Ha) as (P' & HP & He). exists (es ++ [(true, c)]), (KcpNet.mkNet P' (KcpNet.side_b n)).
    rewrite run_app, Hrun. cbn [mbind option_bind KcpNet.run KcpNet.net_step]. rewrite (proj1 Hb), HP. by split_and!.
  - destruct (Hc _ Hb) as (P' & HP & He). exists (es ++ [(false, c)]), (KcpNet.mkNet (KcpNet.side_a n) P').
    rewrite run_app, Hrun. cbn [mbind option_bind KcpNet.run KcpNet.net_step]. rewrite (proj1 Ha), HP. by split_and!.
Qed.

Lemma reach_sym on_a p q : reach_side on_a p q -> reach_side (negb on_a) q p.
Proof. by destruct on_a. Qed.

Ltac call c := eapply (reach_call _ _ _ _ c); [done|]; intros P (Hk & Hs & Hg); cbn [KcpNet.perform]; rewrite Hk; cbn [e_kcp].

Lemma reach_update on_a k w g q now :
  (0 <= now < 2 ^ 32)%Z -> reach_side on_a (mkEnd k w g) q -> reach_side on_a (mkEnd (update k now).2 w g) q.
Proof.
  intros Hn Hr. call (KcpNet.CallUpdate now). unfold KcpNet.is_u32.
  rewrite (proj2 (Z.leb_le _ _)), (proj2 (Z.ltb_lt _ _)) by lia. eexists. split; [done|]. by split_and!.
Qed.

Lemma reach_flush on_a k w g q : reach_side on_a (mkEnd k w g) q -> reach_side on_a (mkEnd (flush k).2 w g) q.
Proof. intros Hr. call KcpNet.CallFlush. eexists. split; [done|]. by split_and!. Qed.

Lemma reach_input on_a k w g q d regular nd :
  d ∈ output (out (e_kcp q)) -> reach_side on_a (mkEnd k w g) q -> reach_side on_a (mkEnd (input k d regular nd).2 w g) q.
Proof.
  intros [i Hi]%list_elem_of_lookup_1 Hr. call (KcpNet.CallInput i regular nd). rewrite Hi. cbn [mbind option_bind].
  eexists. split; [done|]. by split_and!.
Qed.

Lemma reach_send on_a k w g q b n k' :
  send k b = (Ok n, k') -> reach_side on_a (mkEnd k w g) q -> reach_side on_a (mkEnd k' (w ++ b) g) q.
Proof.
  intros Hsend Hr. call (KcpNet.CallSend b). rewrite Hsend. eexists. split; [done|]. split_and!; [done| |done].
  cbn [KcpNet.sent]. rewrite list.join_app, Hs. cbn. by rewrite app_nil_r.
Qed.

Lemma reach_recv on_a k w g q room d k' :
  recv k room = (Ok d, k') -> reach_side on_a (mkEnd k w g) q -> reach_side on_a (mkEnd k' w (g ++ d)) q.
Proof.
  intros Hrecv Hr. call (KcpNet.CallRecv room). rewrite Hrecv. eexists. split; [done|]. split_and!; [done|done|].
  cbn [KcpNet.got]. rewrite list.join_app, Hg. cbn. by rewrite app_nil_r.
Qed.

(** ** What is known of the endpoints *)

Hypothesis Hcv : (0 <= cv < 2 ^ 32)%Z.

Definition short (e : End) : Prop := (Z.of_nat (length (e_wrote e)) < KcpInv.seq_limit)%Z.

Lemma reach_ok on_a p q :
  reach_side on_a p q -> short p -> short q -> exists P Q H G D E, is_peer P p /\ is_peer Q q /\ KcpNet.pair_ok cv P Q H G D E.
Proof.
  intros Hr Hp Hq. destruct on_a; destruct Hr as (es & n & Hrun & Ha & Hb).
  - destruct (KcpNet.reachable_ok cv true true es n Hcv Hrun) as (H & G & D & E & Hok).
    { split; unfold KcpNet.wrote; [rewrite (proj1 (proj2 Ha))|rewrite (proj1 (proj2 Hb))]; done. }
    by exists (KcpNet.side_a n), (KcpNet.side_b n), H, G, D, E.
  - destruct (KcpNet.reachable_ok cv true true es n Hcv Hrun) as (H & G & D & E & Hok).
    { split; unfold KcpNet.wrote; [rewrite (proj1 (proj2 Ha))|rewrite (proj1 (proj2 Hb))]; done. }
    exists (KcpNet.side_b n), (KcpNet.side_a n), G, H, E, D. split_and!; [done|done|]. by apply KcpNet.pair_ok_sym.
Qed.

(** The bytes that arrive. *)
Lemma reach_delivers on_a p q :
  reach_side on_a p q -> short p -> short q ->
  e_got q `prefix_of` e_wrote p /\
  (wait_snd (e_kcp p) = 0 -> e_got q ++ mjoin (seg_data <$> rcv_queue (rcv (e_kcp q))) = e_wrote p).
Proof.
  intros Hr Hp Hq. destruct (reach_ok on_a p q Hr Hp Hq) as (P & Q & H & G & D & E & (K1 & W1 & G1) & (K2 & W2 & G2) & Hok).
  apply KcpNet.pair_delivers in Hok as [D1 D2]. unfold KcpNet.wrote in *. rewrite K1, K2, W1, G2 in *. done.
Qed.

Lemma segment_not_fec seg rest : KcpWire.seg_range seg -> is_fec (flag (Kcp.encode seg ++ rest)) = false.
Proof.
  intros Hs. assert (Hc : (81 <= seg_cmd seg <= 84)%Z).
  { destruct Hs. unfold known_cmd, KCP_CMD_PUSH, KCP_CMD_ACK, KCP_CMD_WASK, KCP_CMD_WINS in *. lia. }
  unfold flag, Kcp.encode. rewrite <- !(assoc_L (++)). rewrite drop_app_length' by (by rewrite to_le_bytes_length).
  cbn [to_le_bytes app take from_le_bytes]. rewrite !byte_z_byte. unfold is_fec, TYPE_DATA, TYPE_PARITY.
  pose proof (Z.mod_pos_bound (seg_frg seg) 256). rewrite (Z.mod_small (seg_cmd seg)) by lia. lia.
Qed.

(** A datagram of KCP is not taken for one of error correction. *)
Lemma reach_not_fec on_a p q d :
  reach_side on_a p q -> short p -> short q -> d ∈ output (out (e_kcp p)) -> 6 <= length d -> is_fec (flag d) = false.
Proof.
  intros Hr Hp Hq Hd Hl. destruct (reach_ok on_a p q Hr Hp Hq) as (P & Q & H & G & D & E & (K1 & W1 & G1) & _ & Hok).
  pose proof (KcpInv.oo_output _ _ _ _ (KcpInv.g_out _ _ _ _ _ _ (KcpNet.sd_good _ _ _ _ _ _ (KcpNet.po_here _ _ _ _ _ _ _ Hok)))) as Ho.
  rewrite K1, Forall_forall in Ho. destruct (Ho d Hd) as (segs & -> & Hs).
  destruct segs as [|seg segs]; [cbn in Hl; lia|]. apply Forall_cons in Hs as [Hs _].
  apply KcpInv.sg_range in Hs. rewrite KcpWire.encode_all_cons. by apply segment_not_fec.
Qed.

End Reach.

(** ** What a stream sends *)

(** A row that was padded still says where its datagram ends. *)
Lemma row_payload_data p n :
  (Z.of_nat (length p) + 2 < 65536)%Z -> length (data_row p) <= n -> row_payload (resize0 n (data_row p)) = Some p.
Proof.
  intros Hp Hn. unfold row_payload. rewrite resize0_length. rewrite data_row_length in Hn.
  rewrite (proj2 (Nat.ltb_ge _ _)) by lia. rewrite resize0_ge by (rewrite data_row_length; lia).
  set (z := replicate _ _). unfold data_row. rewrite <- !(assoc_L (++)).
  rewrite take_app_length', drop_app_length' by (by rewrite to_le_bytes_length).
  rewrite le_roundtrip_small by lia. rewrite Nat2Z.id.
  rewrite (proj2 (Nat.leb_le _ _)), (proj2 (Nat.leb_le _ _)) by lia. cbn [andb]. f_equal.
  apply take_app_length'. lia.
Qed.

Section Link.
Context `{CL : CryptoLib, LW : !CryptoLaws, RS : RsLib, RL : !RsLaws}.
Context (cr : Crypt) (m ds ps : nat) (c : ReedSolomon).
Hypothesis Hcr : crypt_ok cr.
Hypothesis Hds : 0 < ds.
Hypothesis Hps : 0 < ps.
Hypothesis Hmax : ds + ps <= 256.
Hypothesis Hnew : rs_new ds ps = Some c.

Definition env_ok (env : Env) : Prop :=
  (0 <= now_ms env < 2 ^ 32)%Z /\ forall k j n, length (rng env k j n) = n.

#[local] Notation packet := (packet_at ds ps c).

(** The generations whose datagrams KCP wrote, fewer than [n] full ones. *)
Record sends (outs : list bytes) (e : FecEncoder) (full : list Gen) (cur : list bytes) (n : nat) : Prop := {
  sn_enc : enc_ok ds ps c (header_size cr) e full cur;
  sn_from d : d ∈ datagrams (gens_of full cur) -> d ∈ outs;
  sn_count : length full <= n;
}.

Lemma sends_gens outs e full cur n :
  sends outs e full cur n -> Forall (fun d => length d <= m) outs -> m <= MTU_LIMIT ->
  (Z.of_nat (S n) * Z.of_nat (ds + ps) <= 2 ^ 31)%Z ->
  gens_ok ds ps (gens_of full cur) /\
  (forall g, g ∈ gens_of full cur -> Forall (fun p => length p <= m) (pays g)).
Proof.
  intros [He Hfrom Hn] Hsz Hm Hlim. destruct He as [_ _ _ Hroom Hfull].
  assert (Hp : forall g, g ∈ gens_of full cur -> Forall (fun p => length p <= m) (pays g)).
  { intros g Hg. apply Forall_forall. intros p Hp. rewrite Forall_forall in Hsz. apply Hsz, Hfrom.
    unfold datagrams. apply list_elem_of_join. exists (pays g). split; [done|]. by apply list_elem_of_fmap_2. }
  split; [|done]. split.
  - apply Forall_forall. intros g Hg. specialize (Hp g Hg). unfold gens_of in Hg.
    assert (Hlen : length (pays g) <= ds /\ (has_parity g = true -> length (pays g) = ds)).
    { apply elem_of_app in Hg as [Hg|Hg].
      - rewrite Forall_forall in Hfull. by rewrite (Hfull g Hg).
      - apply list_elem_of_singleton in Hg as ->. cbn. split; [lia|done]. }
    split_and!; [apply Hlen|apply Hlen|]. eapply Forall_impl; [done|]. intros p Hl. cbn in Hl. unfold MTU_LIMIT in Hm. lia.
  - unfold gens_of. rewrite length_app. cbn [length]. nia.
Qed.

(** A wire datagram opens to a packet of the generations. *)
Definition fec_wire (gens : list Gen) (w : bytes) : Prop :=
  length w <= MTU_LIMIT /\ exists gi i p, packet gens gi i = Some p /\ open cr w = Some (Ok p).

Lemma fec_wire_extends gens gens' w : extends ds ps c gens gens' -> fec_wire gens w -> fec_wire gens' w.
Proof. intros He (Hl & gi & i & p & Hp & Ho). split; [done|]. exists gi, i, p. split; [by apply He|done]. Qed.

Lemma packet_size gens gi i p :
  gens_ok ds ps gens -> (forall g, g ∈ gens -> Forall (fun p => length p <= m) (pays g)) ->
  packet gens gi i = Some p -> 8 <= length p <= m + 8.
Proof.
  intros Hok Hsz Hp. destruct (packet_is ds ps c Hds Hps Hmax Hnew _ _ _ _ Hok Hp) as (g & Hi). split; [apply (ip_long _ _ _ _ _ _ _ _ Hi)|].
  pose proof (row_size ds ps c Hds Hps Hmax Hnew g i _ (ip_ok _ _ _ _ _ _ _ _ Hi) (ip_row _ _ _ _ _ _ _ _ Hi)) as Hr.
  assert (Hg : gen_size (pays g) <= m + 2).
  { unfold gen_size. apply max_list_bound. intros x Hx. rewrite data_row_length.
    assert (Hin : g ∈ gens) by (eapply list_elem_of_lookup_2, (ip_gen _ _ _ _ _ _ _ _ Hi)). specialize (Hsz g Hin). rewrite Forall_forall in Hsz.
    specialize (Hsz x Hx). lia. }
  rewrite length_drop in Hr. unfold FEC_HEADER_SIZE in Hr. lia.
Qed.

Lemma seal_packet r w :
  (forall n, length (r n) = n) -> header_size cr + m + 8 + aead_overhead cr <= MTU_LIMIT ->
  header_size cr + 8 <= length w -> length (drop (header_size cr) w) <= m + 8 ->
  exists wire, seal cr r w = Some wire /\ length wire <= MTU_LIMIT /\ open cr wire = Some (Ok (drop (header_size cr) w)).
Proof.
  intros Hr Hroom Hl Hd.
  destruct (seal_open cr r (take (header_size cr) w) (drop (header_size cr) w) Hcr Hr) as (wire & H1 & H2 & H3).
  - rewrite length_take. lia.
  - rewrite take_drop in H1. exists wire. split_and!; [done|lia|done].
Qed.

Lemma seal_all_ok r j bufs gens gi :
  (forall j n, length (r j n) = n) -> header_size cr + m + 8 + aead_overhead cr <= MTU_LIMIT ->
  gens_ok ds ps gens -> (forall g, g ∈ gens -> Forall (fun p => length p <= m) (pays g)) ->
  Forall (fun w => exists i, packet gens gi i = Some (drop (header_size cr) w)) bufs ->
  exists wires, seal_all cr r j bufs = Some wires /\ Forall (fec_wire gens) wires.
Proof.
  intros Hr Hroom Hok Hsz Hb. revert j. induction Hb as [|w bufs [i Hi] Hb IH]; intros j; [by exists []|]. cbn [seal_all].
  pose proof (packet_size _ _ _ _ Hok Hsz Hi) as Hl.
  destruct (seal_packet (r j) w) as (wire & -> & H2 & H3); [done|done|rewrite length_drop in Hl; lia|lia|].
  cbn [mbind option_bind]. destruct (IH (S j)) as (wires & -> & Hw). cbn [mbind option_bind]. eexists. split; [done|].
  constructor; [|done]. split; [done|]. by exists gi, i, (drop (header_size cr) w).
Qed.

(** ** One datagram through error correction *)

(** Only what sending changes. *)
Definition resent (s s' : KcpStream) : Prop := exists e box, s' = set_sending s e box.

Lemma encode_packet_fec env k s raw e full cur n wires outs :
  env_ok env -> crypt s = cr -> fec_enc s = Some e -> sends outs e full cur n ->
  raw ∈ outs -> Forall (fun d => length d <= m) outs -> header_size cr + m + 8 + aead_overhead cr <= MTU_LIMIT ->
  (Z.of_nat (S (S n)) * Z.of_nat (ds + ps) <= 2 ^ 31)%Z ->
  Forall (fec_wire (gens_of full cur)) (outbox s ++ wires) ->
  exists s' e' full' cur', encode_packet env k s raw = Some s' /\ resent s s' /\ fec_enc s' = Some e' /\
    sends outs e' full' cur' (S n) /\ extends ds ps c (gens_of full cur) (gens_of full' cur') /\
    length (gens_of full cur) <= length (gens_of full' cur') /\
    Forall (fec_wire (gens_of full' cur')) (outbox s' ++ wires).
Proof.
  intros [_ Hrng] Hc He Hs Hraw Hsz Hroom Hlim Hw. unfold encode_packet. destruct (OUTBOX_CAP <=? length (outbox s)).
  { exists s, e, full, cur. split_and!; [done| |done| |by intros ???|done|done].
    - exists (fec_enc s), (outbox s). by destruct s.
    - destruct Hs. split; [done|done|lia]. }
  rewrite He, Hc. rewrite Forall_forall in Hsz. pose proof (Hsz raw Hraw) as Hlen. rewrite <- Forall_forall in Hsz.
  destruct (FecEncode.encode_ok ds ps c Hds Hps Hmax Hnew (header_size cr) e full cur
    (zeros (header_size cr + FEC_HEADER_SIZE_PLUS2)) raw (instant env k) FEC_LATENCY) as (e' & buf & parity & full' & cur' & -> & Hbl & Hen).
  { apply (sn_enc _ _ _ _ _ Hs). }
  { unfold zeros. by rewrite length_replicate. }
  { unfold MTU_LIMIT in Hroom. lia. }
  { pose proof (sn_count _ _ _ _ _ Hs). nia. }
  cbn [mbind option_bind].
  assert (Hs' : sends outs e' full' cur' (S n)).
  { split; [apply (en_ok _ _ _ _ _ _ _ _ _ _ _ _ Hen)| |].
    - intros d Hd. rewrite (en_datagrams _ _ _ _ _ _ _ _ _ _ _ _ Hen) in Hd. apply elem_of_app in Hd as [Hd|Hd].
      + by apply (sn_from _ _ _ _ _ Hs).
      + by apply list_elem_of_singleton in Hd as ->.
    - pose proof (sn_count _ _ _ _ _ Hs). pose proof (en_more _ _ _ _ _ _ _ _ _ _ _ _ Hen). lia. }
  destruct (sends_gens outs e' full' cur' (S n) Hs' Hsz) as [Hok Hp]; [lia|done|].
  destruct (seal_all_ok (rng env k) 0 (buf :: parity) (gens_of full' cur') (length full)) as (ws & -> & Hws); try done.
  { constructor; [by exists (length cur); apply (en_data _ _ _ _ _ _ _ _ _ _ _ _ Hen)|apply (en_parity _ _ _ _ _ _ _ _ _ _ _ _ Hen)]. }
  cbn [mbind option_bind]. eexists _, e', full', cur'. split; [done|]. split_and!; [by eexists _, _|done|done|apply (en_extends _ _ _ _ _ _ _ _ _ _ _ _ Hen)| |].
  - pose proof (en_more _ _ _ _ _ _ _ _ _ _ _ _ Hen). unfold gens_of. rewrite !length_app. cbn. lia.
  - cbn [set_sending outbox]. apply Forall_app in Hw as [Hw1 Hw2]. rewrite !Forall_app. split_and!; [|done|].
    + eapply Forall_impl; [done|]. intros w. apply fec_wire_extends, (en_extends _ _ _ _ _ _ _ _ _ _ _ _ Hen).
    + eapply Forall_impl; [done|]. intros w. apply fec_wire_extends, (en_extends _ _ _ _ _ _ _ _ _ _ _ _ Hen).
Qed.

(** ** Any datagram *)

Definition raw_wire (outs : list bytes) (w : bytes) : Prop :=
  length w <= MTU_LIMIT /\ exists d, d ∈ outs /\ open cr w = Some (Ok d).

(** The packets on their way carry datagrams of [outs], and the decoder of
    the other side agrees with the encoder on what was sent. *)
Definition carries (outs : list bytes) (enc : option FecEncoder) (box : list bytes) (dec : FecDecoder) (n : nat) : Prop :=
  match enc with
  | Some e =>
      header_size cr + m + 8 + aead_overhead cr <= MTU_LIMIT /\
      exists full cur, sends outs e full cur n /\ dec_ok ds ps c dec (gens_of full cur) /\
        Forall (fec_wire (gens_of full cur)) box
  | None => header_size cr + m + aead_overhead cr <= MTU_LIMIT /\ Forall (raw_wire outs) box
  end.

Lemma carries_more outs outs' enc box dec n n' :
  (forall d, d ∈ outs -> d ∈ outs') -> n <= n' -> carries outs enc box dec n -> carries outs' enc box dec n'.
Proof.
  intros Ho Hn. destruct enc as [e|]; cbn [carries].
  - intros (Hr & full & cur & [H1 H2 H3] & H4 & H5). split; [done|]. exists full, cur. split_and!; [split|done|done]; [done| |lia]. auto.
  - intros [Hr Hb]. split; [done|]. eapply Forall_impl; [done|]. intros w (Hl & d & Hd & Hw). split; [done|]. exists d. auto.
Qed.

Lemma carries_box outs enc box box' dec n :
  (forall w, w ∈ box' -> w ∈ box) -> carries outs enc box dec n -> carries outs enc box' dec n.
Proof.
  intros Hb. destruct enc as [e|]; cbn [carries].
  - intros (Hr & full & cur & H1 & H2 & H3). split; [done|]. exists full, cur. split_and!; [done|done|].
    rewrite Forall_forall in *. auto.
  - intros [Hr H]. split; [done|]. rewrite Forall_forall in *. auto.
Qed.

Lemma encode_packet_ok env k s raw outs wires dec n :
  env_ok env -> crypt s = cr -> raw ∈ outs -> Forall (fun d => length d <= m) outs ->
  (Z.of_nat (S (S n)) * 256 <= 2 ^ 31)%Z -> carries outs (fec_enc s) (outbox s ++ wires) dec n ->
  exists s', encode_packet env k s raw = Some s' /\ resent s s' /\ carries outs (fec_enc s') (outbox s' ++ wires) dec (S n).
Proof.
  intros Henv Hc Hraw Hsz Hlim Hcar. destruct (fec_enc s) as [e|] eqn:He; cbn [carries] in Hcar.
  - destruct Hcar as (Hroom & full & cur & Hs & Hd & Hw).
    destruct (encode_packet_fec env k s raw e full cur n wires outs) as (s' & e' & full' & cur' & H1 & H2 & H3 & H4 & H5 & H6 & H7);
      try done; [nia|]. exists s'. split_and!; [done|done|]. rewrite H3. cbn [carries]. split; [done|]. exists full', cur'.
    split_and!; [done| |done]. by eapply dec_ok_extends.
  - destruct Hcar as [Hroom Hw]. unfold encode_packet. destruct (OUTBOX_CAP <=? length (outbox s)).
    { exists s. split_and!; [done| |by rewrite He]. exists (fec_enc s), (outbox s). by destruct s. }
    rewrite He, Hc. rewrite Forall_forall in Hsz. specialize (Hsz raw Hraw). cbn in Hsz. destruct Henv as [_ Hrng].
    destruct (seal_open cr (rng env k 0) (zeros (header_size cr)) raw Hcr (Hrng k 0)) as (wire & -> & H2 & H3).
    { unfold zeros. by rewrite length_replicate. }
    cbn [mbind option_bind]. eexists. split; [done|]. split; [by eexists _, _|]. cbn [set_sending fec_enc outbox carries].
    split; [done|]. apply Forall_app in Hw as [Hw1 Hw2]. rewrite !Forall_app. split_and!; [done| |done].
    constructor; [|done]. split; [lia|]. by exists raw.
Qed.

Lemma encode_packets_ok env k s raws outs wires dec n :
  env_ok env -> crypt s = cr -> (forall d, d ∈ raws -> d ∈ outs) -> Forall (fun d => length d <= m) outs ->
  (Z.of_nat (S (S (n + length raws))) * 256 <= 2 ^ 31)%Z -> carries outs (fec_enc s) (outbox s ++ wires) dec n ->
  exists s', encode_packets env k s raws = Some s' /\ resent s s' /\
    carries outs (fec_enc s') (outbox s' ++ wires) dec (n + length raws).
Proof.
  intros Henv Hc. revert k s n Hc. induction raws as [|raw raws IH]; intros k s n Hc Hin Hsz Hlim Hcar.
  { exists s. split_and!; [done| |by rewrite Nat.add_0_r]. exists (fec_enc s), (outbox s). by destruct s. }
  cbn [encode_packets length] in *.
  destruct (encode_packet_ok env k s raw outs wires dec n) as (s1 & -> & (e1 & b1 & ->) & H1); try done; [apply Hin; by left|lia|].
  cbn [mbind option_bind].
  destruct (IH (S k) (set_sending s e1 b1) (S n)) as (s2 & -> & (e2 & b2 & ->) & H2); try done; [|lia|].
  { intros d Hd. apply Hin. by right. }
  eexists. split; [done|]. split; [by exists e2, b2|]. by replace (n + S (length raws)) with (S n + length raws) by lia.
Qed.

(** ** The state of a stream *)

(** [s] with what it sent, against the decoder of its peer. *)
Record link_ok (s : KcpStream) (wires : list bytes) (dec : FecDecoder) : Prop := {
  lk_crypt : crypt s = cr;
  lk_sized : sized m [] (kcp s);
  lk_taken : taken s <= length (output (out (kcp s)));
  lk_carries : carries (output (out (kcp s))) (fec_enc s) (outbox s ++ wires) dec (taken s);
}.

(** How many datagrams an endpoint may write. *)
Definition few (k : Kcp) : Prop := (Z.of_nat (length (output (out k))) < 2 ^ 22)%Z.

Lemma link_kcp s wires dec k :
  sized m (output (out (kcp s))) k -> link_ok s wires dec -> link_ok (set_kcp s k) wires dec.
Proof.
  intros Hk [H1 H2 H3 H4]. pose proof (os_base _ _ _ (sz_out _ _ _ Hk)) as Hp.
  split; cbn [set_kcp crypt kcp taken fec_enc outbox]; [done| | |].
  - by eapply sized_base; [done|]; exists (output (out k)).
  - apply prefix_length in Hp. lia.
  - eapply carries_more; [|done|done]. intros d Hd. destruct Hp as [l ->]. apply elem_of_app. by left.
Qed.

(** A stream whose KCP state, inbox and decoder may differ. *)
Lemma link_other s s' wires dec :
  kcp s' = kcp s -> crypt s' = crypt s -> fec_enc s' = fec_enc s -> taken s' = taken s -> outbox s' = outbox s ->
  link_ok s wires dec -> link_ok s' wires dec.
Proof. intros E1 E2 E3 E4 E5 []. by split; rewrite ?E1, ?E2, ?E3, ?E4, ?E5. Qed.

(** What [drain_sink] leaves as it was. *)
Definition drained (s s' : KcpStream) : Prop := exists e box n, s' = set_taken (set_sending s e box) n.

Lemma drain_sink_ok env s wires dec :
  env_ok env -> (Z.of_nat (taken s) < 2 ^ 22)%Z -> link_ok s wires dec ->
  exists s', drain_sink env s = Some s' /\ drained s s' /\ link_ok s' wires dec.
Proof.
  intros Henv Hfew [H1 H2 H3 H4]. unfold drain_sink. set (outs := output (out (kcp s))) in *.
  set (raws := take SINK_CAP (drop (taken s) outs)).
  assert (Hlen : taken s + length raws <= length outs) by (unfold raws; rewrite length_take, length_drop; lia).
  assert (Hlen' : length raws <= 512) by (unfold raws; rewrite length_take; unfold SINK_CAP; lia).
  destruct (encode_packets_ok env 0 s raws outs wires dec (taken s)) as (s' & -> & (e & b & ->) & Hc); try done.
  - intros d Hd. rewrite <- (take_drop (taken s) outs), <- (take_drop SINK_CAP (drop (taken s) outs)), !elem_of_app.
    right. by left.
  - apply (os_output _ _ _ (sz_out _ _ _ H2)).
  - lia.
  - cbn [mbind option_bind]. eexists. split; [done|]. split; [by eexists _, _, _|].
    split; cbn [set_taken set_sending crypt kcp taken fec_enc outbox]; [done|done|done|].
    eapply carries_more; [|exact Hlen|exact Hc]. done.
Qed.

(** ** What a stream takes in *)

(** A recovered row is the row of a datagram. *)
Lemma recovered_rows g old i r :
  gen_ok ds g -> r ∈ recovered ds g old i -> exists p, p ∈ pays g /\ row_payload r = Some p.
Proof.
  intros (_ & _ & Hsm) Hr. unfold recovered in Hr. destruct (decide _); [by apply not_elem_of_nil in Hr|].
  destruct (_ <=? _); [|by apply not_elem_of_nil in Hr]. unfold lost in Hr.
  apply list_elem_of_omap in Hr as (j & _ & Hj). destruct (decide _); [done|]. apply fmap_Some in Hj as (p & Hp & ->).
  apply list_elem_of_lookup_2 in Hp. exists p. split; [done|]. rewrite Forall_forall in Hsm.
  apply row_payload_data; [by apply Hsm|by apply gen_size_le].
Qed.

(** The datagram of a data packet. *)
Lemma direct_payload gens gi i w g :
  is_packet ds ps c gens gi i w g -> i < ds -> drop FEC_HEADER_SIZE_PLUS2 w ∈ pays g.
Proof.
  intros Hi Hlt. pose proof (ip_row _ _ _ _ _ _ _ _ Hi) as Hr. unfold row_at in Hr.
  rewrite (proj2 (Nat.ltb_lt _ _)) in Hr by done. apply fmap_Some in Hr as (p & Hp & Hd).
  assert (drop FEC_HEADER_SIZE_PLUS2 w = p) as ->; [|by eapply list_elem_of_lookup_2].
  change FEC_HEADER_SIZE_PLUS2 with (FEC_HEADER_SIZE + 2). rewrite <- drop_drop, Hd. unfold data_row.
  apply drop_app_length'. by rewrite to_le_bytes_length.
Qed.

Lemma pays_datagrams gens gi g p : gens !! gi = Some g -> p ∈ pays g -> p ∈ datagrams gens.
Proof.
  intros Hg Hp. unfold datagrams. apply list_elem_of_join. exists (pays g). split; [done|].
  apply list_elem_of_fmap_2. by eapply list_elem_of_lookup_2.
Qed.

(** Everything a packet hands to KCP was written by the peer's KCP. *)
Lemma packet_inputs_fec outs e full cur n dec gi i w :
  sends outs e full cur n -> gens_ok ds ps (gens_of full cur) -> dec_ok ds ps c dec (gens_of full cur) ->
  packet (gens_of full cur) gi i = Some w ->
  exists dec' l, packet_inputs dec w = Some (dec', l) /\ dec_ok ds ps c dec' (gens_of full cur) /\
    Forall (fun x => x.1 ∈ outs) l.
Proof.
  intros Hs Hok Hd Hw. destruct (packet_is ds ps c Hds Hps Hmax Hnew _ _ _ _ Hok Hw) as (g & Hi).
  pose proof (ip_long _ _ _ _ _ _ _ _ Hi) as Hl. pose proof (ip_flag _ _ _ _ _ _ _ _ Hi) as Hf.
  pose proof (ip_gen _ _ _ _ _ _ _ _ Hi) as Hg. pose proof (ip_ok _ _ _ _ _ _ _ _ Hi) as Hgok.
  unfold packet_inputs. rewrite (proj2 (Nat.leb_le _ _)) by lia.
  assert (is_fec (flag w) = true) as -> by (rewrite Hf; by destruct (i <? ds)). cbn [andb].
  rewrite (proj2 (Nat.ltb_ge _ _)) by done.
  destruct (decode_ok ds ps c Hds Hps Hmax Hnew _ dec gi i w Hok Hd Hw) as (dec' & g' & Hg' & -> & Hdec).
  assert (g' = g) as -> by congruence. eexists _, _. split; [done|]. split; [apply (dd_ok _ _ _ _ _ _ _ _ Hdec)|].
  assert (Hin : forall p, p ∈ pays g -> p ∈ outs).
  { intros p Hp. apply (sn_from _ _ _ _ _ Hs). by eapply pays_datagrams. }
  apply Forall_app. split.
  - rewrite Hf. destruct (Nat.ltb_spec i ds) as [Hlt|_]; [|by cbn]. rewrite Z.eqb_refl. constructor; [|done]. cbn.
    apply Hin. by eapply direct_payload.
  - apply Forall_fmap, Forall_forall. intros p Hp. cbn. apply list_elem_of_omap in Hp as (r & Hr & Hrp).
    destruct (recovered_rows g _ _ r Hgok Hr) as (p' & Hp' & E). apply Hin. congruence.
Qed.

Lemma packet_inputs_ok outs enc box dec n w :
  carries outs enc box dec n -> w ∈ box -> Forall (fun d => length d <= m) outs ->
  (Z.of_nat (S n) * 256 <= 2 ^ 31)%Z -> (forall d, d ∈ outs -> 6 <= length d -> is_fec (flag d) = false) ->
  exists p dec' l, open cr w = Some (Ok p) /\ packet_inputs dec p = Some (dec', l) /\
    carries outs enc box dec' n /\ Forall (fun x => x.1 ∈ outs) l.
Proof.
  intros Hc Hw Hsz Hlim Hnf. destruct enc as [e|]; cbn [carries] in *.
  - destruct Hc as (Hroom & full & cur & Hs & Hd & Hbox). rewrite Forall_forall in Hbox.
    destruct (Hbox w Hw) as (_ & gi & i & p & Hp & Ho). rewrite <- Forall_forall in Hbox.
    destruct (sends_gens outs e full cur n Hs Hsz) as [Hok _]; [lia|nia|].
    destruct (packet_inputs_fec outs e full cur n dec gi i p Hs Hok Hd Hp) as (dec' & l & H1 & H2 & H3).
    exists p, dec', l. split; [done|]. split; [done|]. split; [|done]. split; [done|]. by exists full, cur.
  - destruct Hc as [Hroom Hbox]. pose proof Hbox as Hbox'. rewrite Forall_forall in Hbox. destruct (Hbox w Hw) as (_ & d & Hd & Ho).
    exists d, dec, [(d, true)]. split; [done|]. split; [|split; [done|by constructor]].
    unfold packet_inputs. destruct (Nat.leb_spec 6 (length d)); [|done]. by rewrite Hnf.
Qed.

Lemma wire_size outs enc box dec n w : carries outs enc box dec n -> w ∈ box -> length w <= MTU_LIMIT.
Proof.
  intros Hc Hw. destruct enc as [e|]; cbn [carries] in Hc.
  - destruct Hc as (_ & full & cur & _ & _ & Hbox). rewrite Forall_forall in Hbox. by destruct (Hbox w Hw).
  - destruct Hc as [_ Hbox]. rewrite Forall_forall in Hbox. by destruct (Hbox w Hw).
Qed.

End Link.
End KcpStreamNet.
