(* ===== verification/FecTheorems.v ===== *)
(** * Error correction gives the datagrams back

    Datagrams through the encoder of one side and, in whatever order and
    number their packets arrive, through the decoder of the other. *)

From stdpp Require Import gmap.
From S2P Require Import Prelude Strings Bits Kcp KcpCrypt Fec FecEncode FecDecode KcpStream KcpStreamNet.

Module FecTheorems.
Import Kcp KcpCrypt Fec FecEncode FecDecode KcpStream KcpStreamNet.

Section Transfer.
Context `{RS : RsLib, RL : !RsLaws}.

(** Datagrams, each with the time it is sent at, through the encoder: the
    packets without the [ho] bytes in front that encryption fills. *)
Fixpoint send_all (ho : nat) (e : FecEncoder) (l : list (bytes * Z)) : option (list bytes) :=
  match l with
  | [] => Some []
  | (raw, now) :: l =>
      '(e, buf, parity) ← Fec.encode e (zeros (ho + FEC_HEADER_SIZE_PLUS2) ++ raw) now FEC_LATENCY;
      rest ← send_all ho e l;
      Some ((drop ho <$> buf :: parity) ++ rest)
  end.

(** The datagrams the packets that arrive hand over. *)
Fixpoint take_all (d : FecDecoder) (arrivals : list bytes) : option (list bytes) :=
  match arrivals with
  | [] => Some []
  | w :: arrivals =>
      '(d, l) ← packet_inputs d w;
      rest ← take_all d arrivals;
      Some (l.*1 ++ rest)
  end.

Context (ds ps : nat) (c : ReedSolomon).
Hypothesis Hds : 0 < ds.
Hypothesis Hps : 0 < ps.
Hypothesis Hmax : ds + ps <= 256.
Hypothesis Hnew : rs_new ds ps = Some c.

#[local] Notation packet := (packet_at ds ps c).
#[local] Notation ss := (Z.of_nat (ds + ps)).

(** ** Sending *)

Record sent_as (gens : list Gen) (sent : list bytes) : Prop := {
  sa_ok : gens_ok ds ps gens;
  sa_packets w : w ∈ sent -> exists gi i, packet gens gi i = Some w;
}.

Lemma gens_of_ok full cur :
  Forall (fun g => length (pays g) = ds) full -> length cur < ds ->
  Forall (fun p => (Z.of_nat (length p) + 2 < 65536)%Z) (datagrams (gens_of full cur)) ->
  (Z.of_nat (S (length full)) * ss <= 2 ^ 31)%Z -> gens_ok ds ps (gens_of full cur).
Proof.
  intros Hfull Hcur Hsz Hlim. split.
  - apply Forall_forall. intros g Hg. split_and!.
    + unfold gens_of in Hg. apply elem_of_app in Hg as [Hg|Hg]; [rewrite Forall_forall in Hfull; by rewrite Hfull|].
      apply list_elem_of_singleton in Hg as ->. cbn. lia.
    + unfold gens_of in Hg. apply elem_of_app in Hg as [Hg|Hg]; [rewrite Forall_forall in Hfull; by rewrite Hfull|].
      by apply list_elem_of_singleton in Hg as ->.
    + rewrite Forall_forall in Hsz |- *. intros p Hp. apply list_elem_of_lookup_1 in Hg as [gi Hg]. apply Hsz. by eapply pays_datagrams.
  - unfold gens_of. rewrite length_app. cbn [length]. by rewrite Nat.add_1_r.
Qed.

Lemma send_all_ok ho e full cur l :
  enc_ok ds ps c ho e full cur -> Forall (fun x => (Z.of_nat (length x.1) + 2 < 65536)%Z) l ->
  (Z.of_nat (S (length full + length l)) * ss <= 2 ^ 31)%Z ->
  exists sent full' cur', send_all ho e l = Some sent /\ extends ds ps c (gens_of full cur) (gens_of full' cur') /\
    Forall (fun g => length (pays g) = ds) full' /\ length cur' < ds /\ length full' <= length full + length l /\
    datagrams (gens_of full' cur') = datagrams (gens_of full cur) ++ l.*1 /\
    (forall w, w ∈ sent -> exists gi i, packet (gens_of full' cur') gi i = Some w).
Proof.
  revert e full cur. induction l as [|[raw now] l IH]; intros e full cur He Hsz Hlim.
  { exists [], full, cur. split_and!; [done|by intros ???|apply He|apply He|cbn; lia|by rewrite app_nil_r|].
    intros w Hw. by apply not_elem_of_nil in Hw. }
  apply Forall_cons in Hsz as [Hraw Hsz]. cbn [fst length] in *. cbn [send_all].
  destruct (FecEncode.encode_ok ds ps c Hds Hps Hmax Hnew ho e full cur (zeros (ho + FEC_HEADER_SIZE_PLUS2)) raw now FEC_LATENCY)
    as (e1 & buf & parity & full1 & cur1 & -> & _ & Hen); [done|unfold zeros; by rewrite length_replicate|done|nia|].
  cbn [mbind option_bind]. pose proof (en_more _ _ _ _ _ _ _ _ _ _ _ _ Hen) as Hm.
  destruct (IH e1 full1 cur1) as (rest & full2 & cur2 & -> & H2 & H3 & H4 & H5 & H6 & H7);
    [apply (en_ok _ _ _ _ _ _ _ _ _ _ _ _ Hen)|done|nia|].
  cbn [mbind option_bind]. eexists _, full2, cur2. split; [done|]. split_and!; [|done|done|lia| |].
  - intros gi i w Hw. apply H2, (en_extends _ _ _ _ _ _ _ _ _ _ _ _ Hen), Hw.
  - rewrite H6, (en_datagrams _ _ _ _ _ _ _ _ _ _ _ _ Hen), fmap_cons, <- (assoc_L (++)). done.
  - intros w. rewrite elem_of_app. intros [Hw|Hw]; [|by apply H7]. apply list_elem_of_fmap in Hw as (b & -> & Hb).
    apply elem_of_cons in Hb as [->|Hb].
    + eexists _, _. apply H2. apply (en_data _ _ _ _ _ _ _ _ _ _ _ _ Hen).
    + pose proof (en_parity _ _ _ _ _ _ _ _ _ _ _ _ Hen) as Hp. rewrite Forall_forall in Hp. destruct (Hp b Hb) as [i Hi].
      eexists _, i. by apply H2.
Qed.

(** The datagrams of a full generation. *)
Lemma datagrams_at full cur gi g :
  Forall (fun g => length (pays g) = ds) full -> gens_of full cur !! gi = Some g ->
  forall k, k < ds -> datagrams (gens_of full cur) !! (gi * ds + k) = pays g !! k.
Proof.
  unfold gens_of. intros Hfull. revert gi. induction Hfull as [|h full Hh Hfull IH]; intros gi Hg k Hk; cbn [app] in *.
  - destruct gi as [|gi]; [|done]. simplify_eq/=. unfold datagrams. cbn. by rewrite app_nil_r.
  - unfold datagrams in *. cbn [fmap list_fmap mjoin list_join]. destruct gi as [|gi].
    + simplify_eq/=. by rewrite lookup_app_l.
    + cbn [lookup list_lookup] in Hg. rewrite lookup_app_r by lia. rewrite <- (IH gi Hg k Hk). f_equal. lia.
Qed.

(** ** One packet of the generation *)

Lemma direct_at gens gi i w g :
  is_packet ds ps c gens gi i w g -> i < ds -> pays g !! i = Some (drop FEC_HEADER_SIZE_PLUS2 w).
Proof.
  intros Hi Hlt. pose proof (ip_row _ _ _ _ _ _ _ _ Hi) as Hr. unfold row_at in Hr.
  rewrite (proj2 (Nat.ltb_lt _ _)) in Hr by done. apply fmap_Some in Hr as (p & -> & Hd). f_equal.
  change FEC_HEADER_SIZE_PLUS2 with (FEC_HEADER_SIZE + 2). rewrite <- drop_drop, Hd. unfold data_row.
  symmetry. apply drop_app_length'. by rewrite to_le_bytes_length.
Qed.

Lemma lost_payload g ix k p : gen_ok ds g -> k < ds -> k ∉ ix -> pays g !! k = Some p -> p ∈ omap row_payload (lost ds g ix).
Proof.
  intros (_ & _ & Hsm) Hk Hni Hp. apply list_elem_of_omap. exists (resize0 (gen_size (pays g)) (data_row p)).
  pose proof (list_elem_of_lookup_2 _ _ _ Hp) as Hin. split.
  - unfold lost. apply list_elem_of_omap. exists k. rewrite decide_False, Hp by done. split; [apply elem_of_seq; lia|done].
  - rewrite Forall_forall in Hsm. apply row_payload_data; [by apply Hsm|by apply gen_size_le].
Qed.

(** Either every datagram of the generation came, or all positions seen are
    held back and the datagrams among them came. *)
Definition progress (gi : nat) (g : Gen) (d : FecDecoder) (seen : list nat) (out : list bytes) : Prop :=
  (forall k p, pays g !! k = Some p -> p ∈ out) \/
  (forall i, i ∈ seen -> i ∈ held ds ps d gi) /\
  (forall i, i ∈ held ds ps d gi -> forall p, i < ds -> pays g !! i = Some p -> p ∈ out).

Lemma progress_hit gens gi g d d' i w seen out :
  gens_ok ds ps gens -> is_packet ds ps c gens gi i w g ->
  held ds ps d' gi = held_after ds (held ds ps d gi) i -> progress gi g d seen out ->
  forall out', (forall p, p ∈ out -> p ∈ out') -> (i < ds -> drop FEC_HEADER_SIZE_PLUS2 w ∈ out') ->
  (forall p, p ∈ omap row_payload (recovered ds g (held ds ps d gi) i) -> p ∈ out') ->
  progress gi g d' (i :: seen) out'.
Proof.
  intros Hok Hi Hh Hp out' Hout Hdir Hrec. pose proof (ip_ok _ _ _ _ _ _ _ _ Hi) as Hg.
  destruct Hp as [Hdone|[Hseen Hcame]]; [left; eauto|]. unfold progress. rewrite Hh. unfold held_after, recovered in *.
  assert (Hnew' : forall j, j ∈ held ds ps d gi ++ [i] -> forall p, j < ds -> pays g !! j = Some p -> p ∈ out').
  { intros j Hj p Hlt Hp. apply elem_of_app in Hj as [Hj| ->%list_elem_of_singleton]; [by eauto|].
    pose proof (direct_at _ _ _ _ _ Hi Hlt) as E. rewrite Hp in E. injection E as ->. by apply Hdir. }
  destruct (decide (i ∈ held ds ps d gi)) as [Hin|Hni].
  { right. split; [|by eauto]. intros j [->|Hj]%elem_of_cons; [done|by apply Hseen]. }
  destruct (Nat.leb_spec ds (length (held ds ps d gi ++ [i]))) as [Hfull|Hroom].
  - left. intros k p Hp. assert (k < ds) by (apply lookup_lt_Some in Hp; destruct Hg; lia).
    destruct (decide (k ∈ held ds ps d gi ++ [i])) as [Hk|Hk]; [by eapply Hnew'|]. apply Hrec. by eapply lost_payload.
  - right. split; [|exact Hnew']. intros j [->|Hj]%elem_of_cons; apply elem_of_app; [right; by left|left; by apply Hseen].
Qed.

Lemma progress_miss gi g d d' seen out out' :
  held ds ps d' gi = held ds ps d gi -> (forall p, p ∈ out -> p ∈ out') -> progress gi g d seen out -> progress gi g d' seen out'.
Proof. intros Hh Ho [H|[H1 H2]]; [left; eauto|right]. rewrite Hh. split; eauto. Qed.

(** What a packet hands over. *)
Lemma packet_inputs_at gens d gi i w :
  gens_ok ds ps gens -> dec_ok ds ps c d gens -> packet gens gi i = Some w ->
  exists d' g l, packet_inputs d w = Some (d', l) /\ is_packet ds ps c gens gi i w g /\ decoded ds ps c gens d d' gi i /\
    (i < ds -> drop FEC_HEADER_SIZE_PLUS2 w ∈ l.*1) /\
    (forall p, p ∈ omap row_payload (recovered ds g (held ds ps d gi) i) -> p ∈ l.*1) /\
    (forall p, p ∈ l.*1 -> p ∈ pays g).
Proof.
  intros Hok Hd Hw. destruct (packet_is ds ps c Hds Hps Hmax Hnew _ _ _ _ Hok Hw) as (g & Hi).
  destruct (decode_ok ds ps c Hds Hps Hmax Hnew _ d gi i w Hok Hd Hw) as (d' & g' & Hg' & Hdec & Hdd).
  assert (g' = g) as -> by (pose proof (ip_gen _ _ _ _ _ _ _ _ Hi); congruence).
  pose proof (ip_long _ _ _ _ _ _ _ _ Hi) as Hl. pose proof (ip_flag _ _ _ _ _ _ _ _ Hi) as Hf.
  unfold packet_inputs. rewrite (proj2 (Nat.leb_le _ _)) by lia.
  assert (is_fec (flag w) = true) as -> by (rewrite Hf; by destruct (i <? ds)). cbn [andb].
  rewrite (proj2 (Nat.ltb_ge _ _)) by done. rewrite Hdec. eexists d', g, _. split; [done|]. split_and!; [done|done| | |].
  - intros Hlt. rewrite Hf, (proj2 (Nat.ltb_lt _ _)) by done. rewrite Z.eqb_refl. by left.
  - intros p Hp. rewrite fmap_app, elem_of_app. right. rewrite <- list_fmap_compose.
    apply list_elem_of_fmap. by exists p.
  - intros p. rewrite fmap_app, elem_of_app. intros [Hp|Hp].
    + rewrite Hf in Hp. destruct (Nat.ltb_spec i ds) as [Hlt|_]; cbn in Hp; [|by apply not_elem_of_nil in Hp].
      apply list_elem_of_singleton in Hp as ->. eapply list_elem_of_lookup_2. by eapply direct_at.
    + rewrite <- list_fmap_compose in Hp. apply list_elem_of_fmap in Hp as (q & -> & Hq). cbn.
      apply list_elem_of_omap in Hq as (r & Hr & Hrq).
      destruct (recovered_rows ds g _ _ r (ip_ok _ _ _ _ _ _ _ _ Hi) Hr) as (p' & Hp' & E). congruence.
Qed.

(** ** All packets *)

Lemma take_all_sound gens d arrivals :
  gens_ok ds ps gens -> dec_ok ds ps c d gens -> (forall w, w ∈ arrivals -> exists gi i, packet gens gi i = Some w) ->
  exists out, take_all d arrivals = Some out /\ (forall p, p ∈ out -> p ∈ datagrams gens).
Proof.
  intros Hok. revert d. induction arrivals as [|w arrivals IH]; intros d Hd Hin.
  { exists []. split; [done|]. intros p Hp. by apply not_elem_of_nil in Hp. }
  destruct (Hin w) as (gi & i & Hw); [by left|]. cbn [take_all].
  destruct (packet_inputs_at gens d gi i w Hok Hd Hw) as (d' & g & l & -> & Hi & Hdd & _ & _ & Hs). cbn [mbind option_bind].
  destruct (IH d') as (rest & -> & Hr); [apply (dd_ok _ _ _ _ _ _ _ _ Hdd)|intros w' Hw'; apply Hin; by right|].
  eexists. split; [done|]. intros p. rewrite elem_of_app. intros [Hp|Hp]; [|by apply Hr].
  eapply pays_datagrams; [apply (ip_gen _ _ _ _ _ _ _ _ Hi)|by apply Hs].
Qed.

(** The positions of a generation among the packets. *)
Definition positions (gi : nat) (l : list bytes) : list nat :=
  row_index (ds + ps) <$> filter (fun w => (seqid w / ss)%Z = Z.of_nat gi) l.

Lemma take_all_progress gens gi g d arrivals seen out0 out :
  gens_ok ds ps gens -> gens !! gi = Some g -> dec_ok ds ps c d gens -> (newest_shard_id d <= Z.of_nat gi + 3)%Z ->
  (forall w, w ∈ arrivals -> exists gj i, packet gens gj i = Some w) ->
  Forall (fun w => seqid w / ss <= Z.of_nat gi + 3)%Z arrivals ->
  progress gi g d seen out0 -> take_all d arrivals = Some out ->
  exists d' seen', dec_ok ds ps c d' gens /\ progress gi g d' seen' (out0 ++ out) /\
    (forall i, i ∈ positions gi arrivals -> i ∈ seen') /\ (forall i, i ∈ seen -> i ∈ seen').
Proof.
  intros Hok Hg. revert d seen out0 out. induction arrivals as [|w arrivals IH]; intros d seen out0 out Hd Hn Hin Hnew' Hp Ht.
  { simplify_eq/=. exists d, seen. rewrite app_nil_r. split_and!; [done|done| |done]. intros i Hi. by apply not_elem_of_nil in Hi. }
  apply Forall_cons in Hnew' as [Hw3 Hnew']. destruct (Hin w) as (gj & i & Hw); [by left|]. cbn [take_all] in Ht.
  destruct (packet_inputs_at gens d gj i w Hok Hd Hw) as (d' & g' & l & E & Hi & Hdd & Hdir & Hrec & _). rewrite E in Ht.
  cbn [mbind option_bind] in Ht. apply bind_Some in Ht as (rest & Ht & [= <-]).
  destruct (packet_index ds ps c Hds Hps Hmax _ _ _ _ _ Hi) as [Hidx Hdiv]. rewrite Hdiv in Hw3.
  pose proof (dd_newest _ _ _ _ _ _ _ _ Hdd) as Hn'. assert (Hn3 : (newest_shard_id d' <= Z.of_nat gi + 3)%Z) by lia.
  pose proof (dd_held _ _ _ _ _ _ _ _ Hdd gi Hn3) as Hh.
  assert (Hp' : exists seen', progress gi g d' seen' (out0 ++ l.*1) /\ (forall j, j ∈ seen -> j ∈ seen') /\ (gj = gi -> i ∈ seen')).
  { destruct (decide (gi = gj)) as [->|Hne].
    - assert (g' = g) as -> by (pose proof (ip_gen _ _ _ _ _ _ _ _ Hi); congruence). exists (i :: seen).
      split_and!; [|by right|by left]. eapply (progress_hit gens gj g d d' i w); try done.
      + intros p Hp0. apply elem_of_app. by left.
      + intros Hlt. apply elem_of_app. right. by apply Hdir.
      + intros p Hp0. apply elem_of_app. right. by apply Hrec.
    - exists seen. split_and!; [|done|done]. eapply progress_miss; [exact Hh| |done]. intros p Hp0. apply elem_of_app. by left. }
  destruct Hp' as (seen' & Hp' & Hss & Hi').
  destruct (IH d' seen' (out0 ++ l.*1) rest) as (d2 & seen2 & H1 & H2 & H3 & H4); try done.
  { apply (dd_ok _ _ _ _ _ _ _ _ Hdd). }
  { intros w' Hw'. apply Hin. by right. }
  exists d2, seen2. rewrite (assoc_L (++)). split_and!; [done|done| |by eauto].
  intros j. unfold positions. rewrite filter_cons. destruct (decide ((seqid w / ss)%Z = Z.of_nat gi)) as [Hq|]; [|by apply H3].
  rewrite fmap_cons, elem_of_cons. intros [->|Hj]; [|by apply H3]. apply H4. rewrite Hidx. apply Hi'. lia.
Qed.

(** Enough of them leave none held back. *)
Lemma progress_all gens gi g d seen out l :
  gens_ok ds ps gens -> gens !! gi = Some g -> dec_ok ds ps c d gens -> progress gi g d seen out ->
  (forall w, w ∈ l -> exists gj i, packet gens gj i = Some w) -> NoDup l -> ds <= length l ->
  Forall (fun w => (seqid w / ss)%Z = Z.of_nat gi) l -> (forall i, i ∈ positions gi l -> i ∈ seen) ->
  forall k p, pays g !! k = Some p -> p ∈ out.
Proof.
  intros Hok Hg Hd Hp Hin Hnd Hlen Hgi Hseen. destruct Hp as [Hdone|[Hs _]]; [exact Hdone|]. exfalso.
  assert (Hpos : positions gi l = row_index (ds + ps) <$> l).
  { unfold positions. f_equal. clear -Hgi. induction Hgi as [|w l Hw Hl IH]; [done|]. rewrite filter_cons, decide_True by done. by rewrite IH. }
  assert (Hheld : length (held ds ps d gi) < ds).
  { unfold held. destruct (shard_set d !! _) as [s|] eqn:Es; [|done].
    destruct (do_sets _ _ _ _ _ Hd _ _ Es) as (? & _ & _ & _ & _ & _ & Hl). by rewrite length_fmap. }
  assert (Hnd' : NoDup (positions gi l)).
  { rewrite Hpos. apply NoDup_fmap_2_strong; [|done]. intros x y Hx Hy E. rewrite Forall_forall in Hgi.
    destruct (Hin x Hx) as (gx & ix & Px), (Hin y Hy) as (gy & iy & Py).
    destruct (packet_is ds ps c Hds Hps Hmax Hnew _ _ _ _ Hok Px) as (g1 & I1).
    destruct (packet_is ds ps c Hds Hps Hmax Hnew _ _ _ _ Hok Py) as (g2 & I2).
    destruct (packet_index ds ps c Hds Hps Hmax _ _ _ _ _ I1) as [X1 X2].
    destruct (packet_index ds ps c Hds Hps Hmax _ _ _ _ _ I2) as [Y1 Y2].
    pose proof (Hgi x Hx). pose proof (Hgi y Hy). assert (gx = gy) as -> by lia. assert (ix = iy) as -> by lia. congruence. }
  assert (Hsub : length (positions gi l) <= length (held ds ps d gi)).
  { apply submseteq_length, NoDup_submseteq; [done|]. intros i Hi. by apply Hs, Hseen. }
  rewrite Hpos, length_fmap in Hsub. lia.
Qed.

End Transfer.

(** C23: datagrams that go through the encoder and whose packets then arrive
    in any order, some of them repeated and some never: encoding and decoding
    do not panic, everything the decoder hands over is one of the datagrams, and
    of any generation of which as many different packets arrive as it has
    datagrams, data or parity, every datagram is handed over, unless a packet
    of a generation more than three newer arrives. *)
Theorem fec_recovers `{RS : RsLib, RL : !RsLaws} ds ps ho e d (l : list (bytes * Z)) :
  encoder_new ds ps ho = Some e -> decoder_new ds ps = Some d ->
  Forall (fun x => (Z.of_nat (length x.1) + 2 < 65536)%Z) l -> (Z.of_nat (S (length l)) * 256 <= 2 ^ 31)%Z ->
  exists sent, send_all ho e l = Some sent /\
    forall arrivals, (forall w, w ∈ arrivals -> w ∈ sent) ->
      exists out, take_all d arrivals = Some out /\ (forall p, p ∈ out -> p ∈ l.*1) /\
        forall gi l', NoDup l' -> ds <= length l' ->
          Forall (fun w => w ∈ arrivals /\ (seqid w / Z.of_nat (ds + ps))%Z = Z.of_nat gi) l' ->
          Forall (fun w => seqid w / Z.of_nat (ds + ps) <= Z.of_nat gi + 3)%Z arrivals ->
          forall k p, k < ds -> l.*1 !! (gi * ds + k) = Some p -> p ∈ out.
Proof.
  intros He Hd Hsz Hlim.
  assert (Hsh : 0 < ds /\ 0 < ps /\ ds + ps <= 256 /\ exists c, rs_new ds ps = Some c).
  { unfold encoder_new in He. destruct (Nat.eqb_spec ds 0), (Nat.eqb_spec ps 0), (Nat.ltb_spec 256 (ds + ps)); try done.
    apply bind_Some in He as (c & Hc & _). split_and!; [lia|lia|lia|by eexists]. }
  destruct Hsh as (H1 & H2 & H3 & c & Hc).
  destruct (encoder_new_ok ds ps c H1 H2 H3 Hc ho) as (e' & He' & Heok). assert (e' = e) as -> by congruence.
  destruct (send_all_ok ds ps c H1 H2 H3 Hc ho e [] [] l Heok Hsz) as (sent & full & cur & Hs & _ & Hf & Hcur & Hl & Hdg & Hpk); [cbn; nia|].
  cbn in Hdg, Hl. exists sent. split; [done|]. intros arrivals Harr. set (gens := gens_of full cur) in *.
  assert (Hok : gens_ok ds ps gens).
  { apply (gens_of_ok ds ps H1 H2 H3); [done|done| |nia]. change (gens_of full cur) with gens. rewrite Hdg. by apply Forall_fmap. }
  destruct (decoder_new_ok ds ps c H1 H2 H3 Hc gens) as (d' & Hd' & Hdok & Hheld). assert (d' = d) as -> by congruence.
  destruct (take_all_sound ds ps c H1 H2 H3 Hc gens d arrivals Hok Hdok) as (out & Ht & Hout); [by auto|].
  exists out. split; [done|]. split; [intros p Hp; rewrite <- Hdg; by apply Hout|].
  intros gi l' Hnd Hlen Hl' Hnew k p Hk Hp.
  assert (Hgi : exists g, gens !! gi = Some g).
  { destruct l' as [|w l']; [cbn in Hlen; lia|]. apply Forall_cons in Hl' as [[Hw Hwg] _].
    destruct (Hpk w (Harr w Hw)) as (gj & i & Pw). destruct (packet_is ds ps c H1 H2 H3 Hc _ _ _ _ Hok Pw) as (g & Ig).
    destruct (packet_index ds ps c H1 H2 H3 _ _ _ _ _ Ig) as [_ Hdiv]. assert (gj = gi) as -> by lia.
    exists g. apply (ip_gen _ _ _ _ _ _ _ _ Ig). }
  destruct Hgi as [g Hg].
  destruct (take_all_progress ds ps c H1 H2 H3 Hc gens gi g d arrivals [] [] out) as (d2 & seen & D2 & P2 & S2 & _); try done.
  { unfold decoder_new in Hd. destruct (_ || _) in Hd; apply bind_Some in Hd as (? & _ & [= <-]); cbn; lia. }
  { auto. }
  { right. rewrite Hheld. split; intros i Hi; by apply not_elem_of_nil in Hi. }
  cbn [app] in P2. rewrite Forall_forall in Hl'.
  eapply (progress_all ds ps c H1 H2 H3 Hc gens gi g d2 seen out l'); try done.
  - intros w Hw. by apply Hpk, Harr, Hl'.
  - apply Forall_forall. intros w Hw. by apply Hl'.
  - intros i Hi. apply S2. unfold positions in *. apply list_elem_of_fmap in Hi as (w & -> & Hw).
    apply list_elem_of_fmap_2. apply list_elem_of_filter in Hw as [Hq Hw]. apply list_elem_of_filter. split; [done|]. by apply Hl'.
  - rewrite <- (datagrams_at ds ps c H1 H2 H3 Hc full cur gi g Hf Hg k) by done. fold gens. by rewrite Hdg.
Qed.

Section Example.
Import FecXor.

Definition three : list (bytes * Z) := [(b! "one", 0%Z); (b! "second", 1000%Z); (b! "x", 2000%Z)].

(** The parity of the first generation and its second packet. *)
Lemma fec_recovers_witness :
  exists e d sent out, encoder_new 2 1 20 = Some e /\ decoder_new 2 1 = Some d /\ send_all 20 e three = Some sent /\
    length sent = 4 /\ take_all d [nth 2 sent []; nth 1 sent []] = Some out /\ b! "one" ∈ out.
Proof.
  destruct (encoder_new 2 1 20) as [e|] eqn:He; [|done]. destruct (decoder_new 2 1) as [d|] eqn:Hd; [|done].
  destruct (fec_recovers 2 1 20 e d three He Hd) as (sent & Hs & Hall); [repeat constructor|cbn; lia|].
  assert (E : encoder_new 2 1 20 ≫= (fun e => send_all 20 e three) = Some sent) by (by rewrite He).
  vm_compute in E. injection E as <-.
  match type of Hs with _ = Some ?l => set (sent := l) in * end.
  destruct (Hall [nth 2 sent []; nth 1 sent []]) as (out & Ht & _ & Hrec).
  { intros w [->| ->%list_elem_of_singleton]%elem_of_cons; apply list_elem_of_In, nth_In; cbn; lia. }
  exists e, d, sent, out. split_and!; [done|done|done|done|done|].
  apply (Hrec 0 [nth 2 sent []; nth 1 sent []]) with (k := 0); [|done| | |lia|done].
  - constructor; [|apply NoDup_singleton]. intros H%list_elem_of_singleton. vm_compute in H. done.
  - constructor; [split; [by left|vm_compute; reflexivity]|]. constructor; [|constructor].
    split; [right; by left|vm_compute; reflexivity].
  - repeat constructor; by vm_compute.
Defined.

End Example.
End FecTheorems.
