(* ===== verification/KcpStreamTheorems.v ===== *)
(** * Runs of two kcptun streams

    Two streams with one configuration call their operations in any order.
    The network is what either side has sent so far: a datagram may arrive any
    number of times, in any order, or never. *)

From stdpp Require Import gmap.
From S2P Require Import Prelude Strings Bits Kcp KcpWire KcpInv KcpNet KcpSized KcpCrypt Fec FecEncode FecDecode KcpStream KcpStreamNet.

Module KcpStreamRun.
Import Kcp KcpSized KcpCrypt Fec FecEncode FecDecode KcpStream KcpStreamNet.

Section Run.
Context `{CL : CryptoLib, LW : !CryptoLaws, RS : RsLib, RL : !RsLaws}.

(** ** The system *)

(** A stream, the bytes its application wrote and read, and the datagrams
    that left. *)
Record Side := mkSide { str : KcpStream; written : bytes; got : bytes; wires : list bytes }.

Inductive Step :=
  | DoWrite (env : Env) (room : nat) (b : bytes)
  | DoPump (env : Env) (room : nat)
  | DoFlush (env : Env) (room : nat)
  | DoReceive (env : Env) (i : nat)
  | DoStage
  | DoRead (room : nat)
  | DoShutdown (env : Env) (room : nat).

(** How much of a buffer KCP took. *)
Definition accepted_len (r : WriteResult) : nat := match r with Wrote n | Failed n => n | _ => 0 end.

(** A step of one side, [net] being what the other side sent; [None] is a
    panic. *)
Definition perform (net : list bytes) (st : Step) (p : Side) : option Side :=
  match st with
  | DoWrite env room b =>
      '(s, ws, r) ← write env room (str p) b;
      Some (mkSide s (written p ++ take (accepted_len r) b) (got p) (wires p ++ ws))
  | DoPump env room => '(s, ws, _) ← pump env room (str p); Some (mkSide s (written p) (got p) (wires p ++ ws))
  | DoFlush env room => '(s, ws, _) ← poll_flush env room (str p); Some (mkSide s (written p) (got p) (wires p ++ ws))
  | DoReceive env i =>
      match net !! i with
      | Some w => s ← receive env (str p) w; Some (mkSide s (written p) (got p) (wires p))
      | None => Some p
      end
  | DoStage => Some (mkSide (stage (str p)) (written p) (got p) (wires p))
  | DoRead room => let '(s, d) := read room (str p) in Some (mkSide s (written p) (got p ++ d) (wires p))
  | DoShutdown env room => '(s, ws, _) ← shutdown env room (str p); Some (mkSide s (written p) (got p) (wires p ++ ws))
  end.

Definition step (n : Side * Side) (e : bool * Step) : option (Side * Side) :=
  let '(a, b) := n in
  let '(on_a, st) := e in
  if on_a then a ← perform (wires b) st a; Some (a, b) else b ← perform (wires a) st b; Some (a, b).

(** The limits of the theorems: bytes written, and datagrams. *)
Definition below_limit (p : Side) : bool :=
  (Z.of_nat (length (written p)) <? KcpInv.seq_limit)%Z && (Z.of_nat (length (output (out (kcp (str p))))) <? 2 ^ 22)%Z.

(** A run that goes on while both sides are below the limits. *)
Fixpoint run (n : Side * Side) (es : list (bool * Step)) : option (Side * Side) :=
  match es with
  | [] => Some n
  | e :: es => if below_limit n.1 && below_limit n.2 then n ← step n e; run n es else None
  end.

Definition step_env (st : Step) : Prop :=
  match st with DoWrite env _ _ | DoPump env _ | DoFlush env _ | DoReceive env _ | DoShutdown env _ => env_ok env | _ => True end.

(** ** Staging ends *)

Definition waiting (s : KcpStream) : nat := length (rcv_queue (rcv (kcp s))) + length (rcv_buf (rcv (kcp s))).

Lemma move_loop_length k b q nxt b' q' nxt' : move_loop k b q nxt = (b', q', nxt') -> length q' + length b' = length q + length b.
Proof.
  revert q nxt. induction b as [|seg b IH]; intros q nxt; cbn [move_loop]; [by intros [= <- <- <-]|].
  destruct (_ && _); [|by intros [= <- <- <-]]. intros H%IH. rewrite length_app in H. cbn in *. lia.
Qed.

Lemma merge_shorter q : q <> [] -> length (merge q).2 < length q.
Proof.
  induction q as [|seg q IH]; [done|]. intros _. cbn [merge]. destruct (_ =? 0)%Z; [cbn; lia|].
  destruct q as [|x q]; [cbn; lia|]. specialize (IH ltac:(done)). destruct (merge (x :: q)) as [d rest]. cbn in *. lia.
Qed.

Lemma recv_fewer k room d k' :
  recv k room = (Ok d, k') ->
  length (rcv_queue (rcv k')) + length (rcv_buf (rcv k')) < length (rcv_queue (rcv k)) + length (rcv_buf (rcv k)).
Proof.
  unfold recv. destruct (Nat.eqb_spec (length (rcv_queue (rcv k))) 0) as [|Hne]; [done|].
  destruct (peeksize k); [|done]. destruct (_ <? _); [done|].
  assert (Hm : length (merge (rcv_queue (rcv k))).2 < length (rcv_queue (rcv k))) by (apply merge_shorter; intros E; by rewrite E in Hne).
  destruct (merge (rcv_queue (rcv k))) as [d' q]. cbn [Datatypes.snd] in Hm. unfold move_buf. cbn [rcv set_rcv rcv_buf rcv_queue rcv_nxt acklist].
  destruct (move_loop _ _ _ _) as [[b' q'] n'] eqn:E. apply move_loop_length in E. intros [= _ <-]. case_match; cbn; lia.
Qed.

(** More fuel changes nothing: the loop of the code ends as [stage] does. *)
Lemma stage_enough fuel s : waiting s < fuel -> stage_loop fuel s = stage s.
Proof.
  unfold stage. change (S _) with (S (waiting s)). intros Hf.
  assert (H : forall n f s, waiting s < f -> waiting s < n -> stage_loop f s = stage_loop n s); [|apply H; lia].
  clear. induction n as [|n IH]; intros f s Hf Hn; [lia|]. destruct f as [|f]; [lia|]. cbn [stage_loop].
  destruct (_ <? _); [|done]. destruct (peeksize _); [|done]. destruct (recv _ _) as [[d|?] k] eqn:E; [|done].
  apply recv_fewer in E. apply IH; unfold waiting in *; cbn [set_inbox set_kcp kcp]; lia.
Qed.

(** ** The invariant *)

Definition end_of (p : Side) : End := mkEnd (kcp (str p)) (written p) (got p ++ inbox (str p)).

Definition within (p : Side) : Prop := short (end_of p) /\ few (kcp (str p)).

Lemma below_within p : below_limit p = true -> within p.
Proof. unfold below_limit, within, short, few. rewrite andb_true_iff. intros [? ?]. cbn. lia. Qed.

Context (cv : Z) (cr : Crypt) (m ds ps : nat) (c : ReedSolomon).
Hypothesis Hcv : (0 <= cv < 2 ^ 32)%Z.
Hypothesis Hcr : crypt_ok cr.
Hypothesis Hds : 0 < ds.
Hypothesis Hps : 0 < ps.
Hypothesis Hmax : ds + ps <= 256.
Hypothesis Hnew : rs_new ds ps = Some c.
Context (on_a : bool).

#[local] Notation link := (link_ok cr m ds ps c).

Record inv (p q : Side) : Prop := mkInv {
  iv_reach : reach_side cv on_a (end_of p) (end_of q);
  iv_out : link (str p) (wires p) (fec_dec (str q));
  iv_in : link (str q) (wires q) (fec_dec (str p));
}.

Lemma set_kcp_twice s k k' : set_kcp (set_kcp s k) k' = set_kcp s k'.
Proof. done. Qed.

(** KCP moves on, and with it what the application has or gets. *)
Lemma inv_kcp p q k w g ib :
  inv p q -> reach_side cv on_a (mkEnd k w (g ++ ib)) (end_of q) -> sized m (output (out (kcp (str p)))) k ->
  inv (mkSide (set_inbox (set_kcp (str p) k) ib) w g (wires p)) q.
Proof.
  intros [H1 H2 H3] Hr Hk. split; [exact Hr| |exact H3]. cbn [str wires].
  eapply (link_other cr m ds ps c (set_kcp (str p) k)); try done. by apply link_kcp.
Qed.

(** A call that only concerns KCP. *)
Lemma inv_quiet p q k :
  inv p q -> (reach_side cv on_a (end_of p) (end_of q) -> reach_side cv on_a (mkEnd k (written p) (got p ++ inbox (str p))) (end_of q)) ->
  sized m (output (out (kcp (str p)))) k ->
  inv (mkSide (set_kcp (str p) k) (written p) (got p) (wires p)) q.
Proof.
  intros Hi Hr Hk. pose proof (inv_kcp p q k (written p) (got p) (inbox (str p)) Hi (Hr (iv_reach _ _ Hi)) Hk) as H.
  by destruct p as [[] ???].
Qed.

(** The size of what a side has written. *)
Lemma inv_sized p q : inv p q -> sized m (output (out (kcp (str p)))) (kcp (str p)).
Proof. intros Hi. eapply sized_base; [apply (lk_sized _ _ _ _ _ _ _ _ (iv_out _ _ Hi))|done]. Qed.

Lemma inv_update p q now :
  (0 <= now < 2 ^ 32)%Z -> inv p q -> inv (mkSide (set_kcp (str p) (update (kcp (str p)) now).2) (written p) (got p) (wires p)) q.
Proof.
  intros Hn Hi. apply inv_quiet; [done| |by apply update_sized; eapply inv_sized]. intros Hr. by apply reach_update.
Qed.

Lemma inv_flush p q : inv p q -> inv (mkSide (set_kcp (str p) (flush (kcp (str p))).2) (written p) (got p) (wires p)) q.
Proof.
  intros Hi. apply inv_quiet; [done| |by apply flush_sized; eapply inv_sized]. intros Hr. by apply reach_flush.
Qed.

(** What [drain_sink] does is no concern of KCP. *)
Lemma inv_drain env p q :
  env_ok env -> (Z.of_nat (taken (str p)) < 2 ^ 22)%Z -> inv p q ->
  exists s', drain_sink env (str p) = Some s' /\ inv (mkSide s' (written p) (got p) (wires p)) q.
Proof.
  intros He Hf [H1 H2 H3].
  destruct (drain_sink_ok cr m ds ps c Hcr Hds Hps Hmax Hnew env (str p) (wires p) (fec_dec (str q)) He Hf H2)
    as (s' & Hs & (e & box & n & ->) & Hl).
  eexists. split; [done|]. by split.
Qed.

(** The socket takes some of the outbox. *)
Lemma inv_send room p q :
  inv p q ->
  inv (mkSide (set_sending (str p) (fec_enc (str p)) (drop room (outbox (str p)))) (written p) (got p)
    (wires p ++ take room (outbox (str p)))) q.
Proof.
  intros [H1 [L1 L2 L3 L4] H3]. split; [exact H1| |exact H3]. split; try done. cbn [str set_sending fec_enc outbox wires taken kcp].
  eapply carries_box; [|exact L4]. intros w. rewrite !elem_of_app. intros [Hw|[Hw|Hw]]; [left|by right|left].
  - rewrite <- (take_drop room (outbox (str p))), elem_of_app. by right.
  - rewrite <- (take_drop room (outbox (str p))), elem_of_app. by left.
Qed.

Lemma inv_dead p q : inv p q -> inv (mkSide (set_dead (str p)) (written p) (got p) (wires p)) q.
Proof. intros [H1 [L1 L2 L3 L4] H3]. by split; [|split|]. Qed.

Lemma pump_ok env room p q :
  env_ok env -> (Z.of_nat (taken (str p)) < 2 ^ 22)%Z -> inv p q ->
  exists s ws ok, pump env room (str p) = Some (s, ws, ok) /\ inv (mkSide s (written p) (got p) (wires p ++ ws)) q.
Proof.
  intros He Hf Hi. unfold pump. pose proof (inv_update p q (now_ms env) (proj1 He) Hi) as Hu.
  destruct (update (kcp (str p)) (now_ms env)) as [[?|?] k]; cbn [Datatypes.snd] in Hu.
  2:{ eexists _, _, _. split; [done|]. by rewrite app_nil_r. }
  set (p1 := mkSide _ _ _ _) in Hu.
  assert (Hfl : exists r k', (if (check k (check_ms env) =? 0)%Z then flush k else (Ok tt, k)) = (r, k') /\
    inv (mkSide (set_kcp (str p) k') (written p) (got p) (wires p)) q).
  { destruct (check k (check_ms env) =? 0)%Z; [|by eexists _, _].
    pose proof (inv_flush p1 q Hu) as H. cbn [p1 str kcp set_kcp] in H. destruct (flush k) as [r k']. by exists r, k'. }
  destruct Hfl as (r & k' & -> & Hi2). destruct r as [?|?].
  2:{ eexists _, _, _. split; [done|]. by rewrite app_nil_r. }
  destruct (is_dead_link k').
  { eexists _, _, _. split; [done|]. rewrite app_nil_r. by apply (inv_dead _ _ Hi2). }
  destruct (inv_drain env (mkSide (set_kcp (str p) k') (written p) (got p) (wires p)) q He Hf Hi2) as (s' & Hs & Hi3). cbn [str] in Hs. rewrite Hs. cbn [mbind option_bind].
  eexists _, _, _. split; [done|]. by apply (inv_send room _ _ Hi3).
Qed.

(** ** Writing *)

Lemma send_all_taken k b :
  sized m [] k -> 0 < length b <= 255 * mss (cfg k) -> exists k', send k b = (Ok (length b), k').
Proof.
  intros Hk Hb. pose proof (sz_mss _ _ _ Hk) as Hm. pose proof (sz_pos _ _ _ Hk) as Hp. unfold send.
  set (mm := mss (cfg k)) in *. assert (Hmm : 0 < mm) by lia.
  rewrite (proj2 (Nat.eqb_neq mm 0)), (proj2 (Nat.eqb_neq (length b) 0)) by lia.
  assert (Hrest : exists q rest, (if stream (cfg k) then extend_last mm (snd_queue (snd k)) b else (snd_queue (snd k), b)) = (q, rest) /\
    length rest <= length b).
  { destruct (stream (cfg k)); [|by eexists _, _]. unfold extend_last. destruct (last _); [|by eexists _, _].
    destruct (_ <? mm); [|by eexists _, _]. eexists _, _. split; [done|]. rewrite length_drop. lia. }
  destruct Hrest as (q & rest & -> & Hr). cbn [set_snd cfg]. destruct (_ && _); [by eexists|].
  assert (Hc : (if length rest <=? mm then 1 else (length rest + mm - 1) / mm) <= 255).
  { destruct (_ <=? mm); [lia|]. apply Nat.lt_succ_r, Nat.Div0.div_lt_upper_bound. nia. }
  rewrite (proj2 (Nat.ltb_ge _ _)) by done. by eexists.
Qed.

Lemma write_ok env room p q b :
  env_ok env -> (Z.of_nat (taken (str p)) < 2 ^ 22)%Z -> inv p q ->
  exists s ws r, write env room (str p) b = Some (s, ws, r) /\
    inv (mkSide s (written p ++ take (accepted_len r) b) (got p) (wires p ++ ws)) q.
Proof.
  intros He Hf Hi. unfold write.
  assert (Hsame : inv (mkSide (str p) (written p ++ []) (got p) (wires p ++ [])) q) by (rewrite !app_nil_r; by destruct p).
  destruct (dead (str p)); [by eexists _, _, _|]. destruct (length b =? 0) eqn:Hb; [by eexists _, _, _|].
  destruct (_ <=? wait_snd _); [by eexists _, _, _|]. apply Nat.eqb_neq in Hb.
  set (cap := 255 * mss (cfg (kcp (str p)))). set (b' := take (Nat.min (length b) cap) b).
  pose proof (lk_sized _ _ _ _ _ _ _ _ (iv_out _ _ Hi)) as Hk.
  assert (Hcap : 0 < cap) by (unfold cap; pose proof (sz_mss _ _ _ Hk); pose proof (sz_pos _ _ _ Hk); lia).
  assert (Hb' : length b' = Nat.min (length b) cap) by (unfold b'; rewrite length_take; lia).
  destruct (send_all_taken (kcp (str p)) b') as [k Hs]; [done|unfold cap in *; lia|]. rewrite Hs.
  assert (Hi1 : inv (mkSide (set_kcp (str p) k) (written p ++ b') (got p) (wires p)) q).
  { pose proof (send_sized m (output (out (kcp (str p)))) (kcp (str p)) b' (inv_sized _ _ Hi)) as Hsz. rewrite Hs in Hsz.
    pose proof (reach_send cv on_a (kcp (str p)) (written p) (got p ++ inbox (str p)) (end_of q) b' _ k Hs (iv_reach _ _ Hi)) as Hr.
    pose proof (inv_kcp p q k (written p ++ b') (got p) (inbox (str p)) Hi Hr Hsz) as H. by destruct p as [[] ???]. }
  pose proof (inv_flush _ _ (inv_update _ _ (now_ms env) (proj1 He) Hi1)) as Hi2. cbn [str kcp set_kcp written got wires] in Hi2. rewrite ?set_kcp_twice in Hi2.
  match type of Hi2 with inv ?x _ => destruct (pump_ok env room x q He Hf Hi2) as (s & ws & ok & Hp & Hi3) end.
  cbn [str] in Hp. rewrite Hp. cbn [mbind option_bind]. eexists _, _, _. split; [done|].
  assert (take (accepted_len (if ok then Wrote (length b') else Failed (length b'))) b = b') as ->; [|exact Hi3].
  destruct ok; cbn [accepted_len]; by rewrite Hb'.
Qed.

Lemma poll_flush_ok env room p q :
  env_ok env -> (Z.of_nat (taken (str p)) < 2 ^ 22)%Z -> inv p q ->
  exists s ws ok, poll_flush env room (str p) = Some (s, ws, ok) /\ inv (mkSide s (written p) (got p) (wires p ++ ws)) q.
Proof.
  intros He Hf Hi. unfold poll_flush.
  pose proof (inv_flush _ _ (inv_update _ _ (now_ms env) (proj1 He) Hi)) as Hi2. cbn [str kcp set_kcp written got wires] in Hi2. rewrite ?set_kcp_twice in Hi2.
  match type of Hi2 with inv ?x _ => destruct (pump_ok env room x q He Hf Hi2) as (s & ws & ok & Hp & Hi3) end.
  by eexists _, _, _.
Qed.

(** ** Receiving *)

Lemma inv_inputs l p q :
  inv p q -> Forall (fun x => x.1 ∈ output (out (kcp (str q)))) l ->
  inv (mkSide (set_kcp (str p) (kcp_inputs (ack_nodelay (str p)) (kcp (str p)) l)) (written p) (got p) (wires p)) q.
Proof.
  revert p. induction l as [|[d regular] l IH]; intros p Hi Hl; [by destruct p as [[] ???]|].
  apply Forall_cons in Hl as [Hd Hl]. cbn [fst] in Hd.
  assert (Hi1 : inv (mkSide (set_kcp (str p) (input (kcp (str p)) d regular (ack_nodelay (str p))).2) (written p) (got p) (wires p)) q).
  { apply inv_quiet; [done| |by apply input_sized; eapply inv_sized]. intros Hr. by apply reach_input. }
  specialize (IH _ Hi1 Hl). exact IH.
Qed.

Lemma receive_ok env p q w :
  env_ok env -> within p -> within q -> inv p q -> w ∈ wires q ->
  exists s, receive env (str p) w = Some s /\ inv (mkSide s (written p) (got p) (wires p)) q.
Proof.
  intros He Hwp Hwq Hi Hw. pose proof (iv_in _ _ Hi) as [L1 L2 L3 L4].
  assert (Hbox : w ∈ outbox (str q) ++ wires q) by (apply elem_of_app; by right).
  pose proof (lk_taken _ _ _ _ _ _ _ _ (iv_out _ _ Hi)) as Htp. destruct Hwp as [Hsp Hfp], Hwq as [Hsq Hfq]. unfold few in *.
  unfold receive. rewrite take_ge by (by eapply wire_size). destruct (length w =? 0).
  { exists (str p). split; [done|]. by destruct p. }
  destruct (packet_inputs_ok cr m ds ps c Hds Hps Hmax Hnew _ _ _ _ _ w L4 Hbox) as (pk & dec & l & Ho & Hin & Hc & Hl).
  { apply (os_output _ _ _ (sz_out _ _ _ L2)). }
  { lia. }
  { intros d Hd Hlen. eapply (reach_not_fec cv Hcv (negb on_a) (end_of q) (end_of p)); try done.
    apply reach_sym, (iv_reach _ _ Hi). }
  unfold input_packet. rewrite (lk_crypt _ _ _ _ _ _ _ _ (iv_out _ _ Hi)), Ho. cbn [mbind option_bind]. rewrite Hin.
  pose proof (inv_inputs l _ q (inv_update p q (now_ms env) (proj1 He) Hi) Hl) as Hi1. cbn [str kcp set_kcp written got wires ack_nodelay] in Hi1.
  rewrite ?set_kcp_twice in Hi1.
  set (k := kcp_inputs _ _ _) in *.
  assert (Hi2 : inv (mkSide (set_dec (set_kcp (str p) k) dec) (written p) (got p) (wires p)) q).
  { destruct Hi1 as [I1 [J1 J2 J3 J4] I3]. split; [exact I1|by split|]. by split. }
  destruct (inv_drain env (mkSide (set_dec (set_kcp (str p) k) dec) (written p) (got p) (wires p)) q He) as (s & Hs & Hi3);
    [cbn; lia|done|]. by exists s.
Qed.

(** ** Staging and reading *)

Lemma stage_ok fuel p q : inv p q -> inv (mkSide (stage_loop fuel (str p)) (written p) (got p) (wires p)) q.
Proof.
  revert p. induction fuel as [|fuel IH]; intros p Hi; cbn [stage_loop].
  { destruct (_ <? _); by destruct p. }
  destruct (_ <? _); [|by destruct p]. destruct (peeksize (kcp (str p))) as [want|]; [|by destruct p].
  pose proof (recv_sized m _ (kcp (str p)) want (inv_sized _ _ Hi)) as Hsz.
  destruct (recv (kcp (str p)) want) as [[d|e] k] eqn:Hrecv; cbn [Datatypes.snd] in Hsz.
  - assert (Hi1 : inv (mkSide (set_inbox (set_kcp (str p) k) (inbox (str p) ++ d)) (written p) (got p) (wires p)) q).
    { apply inv_kcp; [done| |done]. rewrite (assoc_L (++)). eapply reach_recv; [done|]. apply (iv_reach _ _ Hi). }
    exact (IH _ Hi1).
  - assert (k = kcp (str p)) as ->; [|by destruct p as [[] ???]].
    unfold recv in Hrecv. destruct (_ =? 0); [by simplify_eq|]. destruct (peeksize _); [|by simplify_eq].
    destruct (_ <? _); [by simplify_eq|]. by destruct (merge _) as [? ?].
Qed.

Lemma stream_perform_ok st p q :
  step_env st -> within p -> within q -> inv p q -> exists p', perform (wires q) st p = Some p' /\ inv p' q.
Proof.
  intros He Hp Hq Hi. pose proof (lk_taken _ _ _ _ _ _ _ _ (iv_out _ _ Hi)) as Ht. pose proof (proj2 Hp) as Hf. unfold few in Hf.
  assert (Hf' : (Z.of_nat (taken (str p)) < 2 ^ 22)%Z) by lia.
  destruct st as [env room b|env room|env room|env i| |room|env room]; cbn [perform step_env] in *.
  - destruct (write_ok env room p q b He Hf' Hi) as (s & ws & r & -> & H). by eexists.
  - destruct (pump_ok env room p q He Hf' Hi) as (s & ws & r & -> & H). by eexists.
  - destruct (poll_flush_ok env room p q He Hf' Hi) as (s & ws & r & -> & H). by eexists.
  - destruct (wires q !! i) as [w|] eqn:Hw; [|by eexists].
    destruct (receive_ok env p q w He Hp Hq Hi) as (s & -> & H); [by eapply list_elem_of_lookup_2|]. by eexists.
  - eexists. split; [done|]. by apply stage_ok.
  - eexists. split; [done|]. destruct Hi as [I1 [J1 J2 J3 J4] I3]. split; [|by split|exact I3]. unfold end_of. cbn.
    rewrite <- (assoc_L (++)), take_drop. exact I1.
  - unfold shutdown. destruct (poll_flush_ok env room p q He Hf' Hi) as (s & ws & ok & -> & H). eexists. split; [done|].
    destruct (_ && _); [by apply (inv_dead _ _ H)|done].
Qed.

End Run.
End KcpStreamRun.

(** ** Two kcptun streams deliver bytes

    The invariant of KcpStreamRun holds from [connect] on, so what KCP promises
    holds for the streams: with encryption and error correction between them,
    on a network that loses, repeats and reorders datagrams. *)

Module KcpStreamTheorems.
Import Kcp KcpSized KcpCrypt Fec FecEncode FecDecode KcpStream KcpStreamNet KcpStreamRun.

Section Theorems.
Context `{CL : CryptoLib, LW : !CryptoLaws, RS : RsLib, RL : !RsLaws}.

(** ** Connecting *)

(** The windows fit. *)
Definition config_ok (config : KcpConfig) : bool :=
  (0 <=? config_snd_wnd config)%Z && (config_snd_wnd config <? 2 ^ 32)%Z &&
  (0 <=? config_rcv_wnd config)%Z && (config_rcv_wnd config <=? KcpInv.seq_limit)%Z.

Lemma crypt_new_inv name key cr : crypt_new name key = Ok cr -> crypt_ok cr.
Proof.
  intros H. destruct (decide (name = b! "sm4")) as [->|Hn]; [done|].
  destruct (crypt_new_ok name key Hn) as (c & Hc & Hok). congruence.
Qed.

(** The endpoint of a new stream. *)
Definition new_kcp (cv : Z) (config : KcpConfig) (m : nat) : Kcp :=
  set_maximum_resend_times (set_mtu (set_wndsize (set_nodelay (new_stream cv) (negb (config_nodelay config =? 0)%Z)
    (bound 10 (config_interval config) 5000) (config_resend config) (negb (config_nc config =? 0)%Z))
    (config_snd_wnd config) (config_rcv_wnd config)) m).2 20.

Lemma new_kcp_sized cv config m : KCP_OVERHEAD < m -> sized m [] (new_kcp cv config m).
Proof.
  intros Hm. unfold new_kcp, set_mtu. rewrite (proj2 (Nat.leb_gt _ _)) by done.
  split; cbn; [done|done|done|by split|split; cbn; [lia|done|done]].
Qed.

Lemma new_kcp_reach on_a cv config m q :
  config_ok config = true -> (Z.of_nat m < 2 ^ 32)%Z ->
  reach_side cv on_a (mkEnd (new_stream cv) [] []) q -> reach_side cv on_a (mkEnd (new_kcp cv config m) [] []) q.
Proof.
  intros Hc Hm Hr. unfold config_ok in Hc. rewrite !andb_true_iff in Hc. destruct Hc as [[[H1 H2] H3] H4].
  assert (H : forall k k' cl, reach_side cv on_a (mkEnd k [] []) q ->
    (forall sent got, KcpNet.perform (output (out (e_kcp q))) cl (KcpNet.mkPeer k sent got) = Some (KcpNet.mkPeer k' sent got)) ->
    reach_side cv on_a (mkEnd k' [] []) q).
  { intros k k' cl Hk Hcall. eapply (reach_call cv _ _ _ _ cl); [exact Hk|]. intros [k0 sent got] (E1 & E2 & E3). cbn in *. subst k0.
    eexists. split; [apply Hcall|]. by split_and!. }
  eapply (H _ _ (KcpNet.CallMaximumResendTimes 20)); [|done].
  eapply (H _ _ (KcpNet.CallMtu m)); [|intros; cbn [KcpNet.perform]; by rewrite (proj2 (Z.ltb_lt _ _)) by done].
  eapply (H _ _ (KcpNet.CallWndsize (config_snd_wnd config) (config_rcv_wnd config)));
    [|intros; cbn [KcpNet.perform]; unfold KcpNet.is_u32; by rewrite H1, H2, H3, H4].
  by eapply (H _ _ (KcpNet.CallNodelay _ _ _ _)).
Qed.

Lemma reach_start cv on_a : reach_side cv on_a (mkEnd (new_stream cv) [] []) (mkEnd (new_stream cv) [] []).
Proof. destruct on_a; exists [], (KcpNet.start cv true true); by split_and!. Qed.

(** The parts of a new stream. *)
Record connected (cv : Z) (config : KcpConfig) (s : KcpStream) (cr : Crypt) (m ds ps : nat) (c : ReedSolomon) : Prop := {
  cn_crypt : crypt_ok cr;
  cn_shards : 0 < ds /\ 0 < ps /\ ds + ps <= 256 /\ rs_new ds ps = Some c;
  cn_stream : exists enc dec, s = mkStream (new_kcp cv config m) cr enc dec 0 [] [] false (config_ack_nodelay config) /\
    dec_ok ds ps c dec [mkGen [] false] /\
    match enc with
    | Some e => header_size cr + m + 8 + aead_overhead cr <= MTU_LIMIT /\ enc_ok ds ps c (header_size cr) e [] []
    | None => header_size cr + m + aead_overhead cr <= MTU_LIMIT
    end;
  cn_mtu : KCP_OVERHEAD < m <= MTU_LIMIT;
}.

(** The shard counts the decoder runs on: those of the configuration, or one
    of each. *)
Lemma shards_connected config cr :
  is_Some (decoder_new (data_shard config) (parity_shard config)) ->
  exists ds ps c dec, 0 < ds /\ 0 < ps /\ ds + ps <= 256 /\ rs_new ds ps = Some c /\
    decoder_new (data_shard config) (parity_shard config) = Some dec /\ dec_ok ds ps c dec [mkGen [] false] /\
    match encoder_new (data_shard config) (parity_shard config) (header_size cr) with
    | Some e => enc_ok ds ps c (header_size cr) e [] []
    | None => True
    end.
Proof.
  set (d := data_shard config). set (p := parity_shard config).
  destruct ((d =? 0) || (p =? 0) || (256 <? d + p)) eqn:E; intros [dec Hdec].
  - assert (Hd11 : decoder_new d p = decoder_new 1 1) by (unfold decoder_new; by rewrite E).
    destruct (rs_new 1 1) as [c|] eqn:Hc; [|rewrite Hd11 in Hdec; unfold decoder_new in Hdec; cbn in Hdec; by rewrite Hc in Hdec].
    destruct (decoder_new_ok 1 1 c ltac:(lia) ltac:(lia) ltac:(lia) Hc [mkGen [] false]) as (dec' & Hn & Hok & _).
    exists 1, 1, c, dec'. split_and!; [lia|lia|lia|done|by rewrite Hd11|done|]. unfold encoder_new. by rewrite E.
  - rewrite !orb_false_iff, !Nat.eqb_neq, Nat.ltb_ge in E. destruct E as [[E1 E2] E3].
    assert (Hd0 : 0 < d) by lia. assert (Hp0 : 0 < p) by lia.
    destruct (rs_new d p) as [c|] eqn:Hc.
    + destruct (decoder_new_ok d p c Hd0 Hp0 E3 Hc [mkGen [] false]) as (dec' & Hn & Hok & _).
      destruct (encoder_new_ok d p c Hd0 Hp0 E3 Hc (header_size cr)) as (e & He & Heok).
      exists d, p, c, dec'. split_and!; try done. by rewrite He.
    + unfold decoder_new in Hdec. rewrite (proj2 (Nat.eqb_neq d 0)), (proj2 (Nat.eqb_neq p 0)), (proj2 (Nat.ltb_ge 256 (d + p))) in Hdec by done.
      cbn [orb] in Hdec. by rewrite Hc in Hdec.
Qed.

(** Two configurations that agree on what travels. *)
Definition same_wire (a b : KcpConfig) : Prop :=
  config_key a = config_key b /\ config_crypt a = config_crypt b /\ config_mtu a = config_mtu b /\
  data_shard a = data_shard b /\ parity_shard a = parity_shard b.

Lemma connect_inv cv config s :
  connect cv config = Some (Ok s) ->
  exists cr m ds ps c, forall config' s', same_wire config config' -> connect cv config' = Some (Ok s') ->
    connected cv config' s' cr m ds ps c.
Proof.
  unfold connect. destruct (crypt_new _ _) as [cr|e] eqn:Hcr; [|done]. intros Hs. apply bind_Some in Hs as (dec & Hdec & _).
  destruct (shards_connected config cr) as (ds & ps & c & dec' & H1 & H2 & H3 & H4 & H5 & H6 & H7); [by eexists|].
  set (enc := encoder_new (data_shard config) (parity_shard config) (header_size cr)) in *.
  set (overhead := header_size cr + (match enc with Some _ => 8 | None => 0 end) + aead_overhead cr).
  set (mtu := Nat.min (Z.to_nat (config_mtu config)) MTU_LIMIT). assert (Hmtu : mtu <= MTU_LIMIT) by (unfold mtu; lia).
  exists cr, (mtu - overhead), ds, ps, c. intros config' s' (E1 & E2 & E3 & E4 & E5) Hs.
  rewrite <- E1, <- E2, <- E3, <- E4, <- E5, Hcr, H5 in Hs. fold enc in Hs. cbn [mbind option_bind] in Hs. fold mtu in Hs.
  assert (Hov : header_size cr + (if bool_decide (is_Some enc) then FEC_HEADER_SIZE_PLUS2 else 0) + aead_overhead cr = overhead).
  { unfold overhead. destruct enc; [rewrite bool_decide_eq_true_2 by eauto|rewrite bool_decide_eq_false_2 by (by intros [? ?])]; done. }
  rewrite Hov in Hs. destruct (Nat.leb_spec mtu overhead); [done|].
  destruct (Nat.leb_spec (mtu - overhead) KCP_OVERHEAD) as [Hle|Hgt].
  { unfold set_mtu in Hs. by rewrite (proj2 (Nat.leb_le _ _)) in Hs by done. }
  assert (Hset : forall k, exists k', set_mtu k (mtu - overhead) = (Ok tt, k') /\ k' = (set_mtu k (mtu - overhead)).2).
  { intros k. unfold set_mtu. rewrite (proj2 (Nat.leb_gt _ _)) by done. by eexists. }
  match type of Hs with context [set_mtu ?k _] => destruct (Hset k) as (k' & Ek & Ek') end. rewrite Ek in Hs.
  injection Hs as <-. split; [by eapply crypt_new_inv|done| |lia].
  exists enc, dec'. split; [subst k'; reflexivity|]. split; [done|]. unfold overhead in *. destruct enc as [e|]; [split; [lia|done]|lia].
Qed.

(** ** Runs from the start *)

(** A side that has just connected. *)
Definition fresh (s : KcpStream) : Side := mkSide s [] [] [].

Section Start.
Context (cv : Z) (cr : Crypt) (m ds ps : nat) (c : ReedSolomon).
Hypothesis Hcv : (0 <= cv < 2 ^ 32)%Z.

Lemma fresh_link ca cb sa sb :
  connected cv ca sa cr m ds ps c -> connected cv cb sb cr m ds ps c -> link_ok cr m ds ps c sa [] (fec_dec sb).
Proof.
  intros [_ _ (enc & dec & -> & _ & He) Hm] [_ _ (enc' & dec' & -> & Hd & _) _].
  split; cbn; [done|apply new_kcp_sized; lia|lia|]. destruct enc as [e|]; [|by split].
  destruct He as [Hroom He]. split; [done|]. exists [], []. split_and!; [|done|done].
  split; [done| |done]. intros d Hin. by apply not_elem_of_nil in Hin.
Qed.

Lemma fresh_inv ca cb sa sb :
  config_ok ca = true -> config_ok cb = true -> connected cv ca sa cr m ds ps c -> connected cv cb sb cr m ds ps c ->
  inv cv cr m ds ps c true (fresh sa) (fresh sb).
Proof.
  intros Ha Hb Ca Cb. pose proof (cn_mtu _ _ _ _ _ _ _ _ Ca) as Hm. split.
  - pose proof (cn_stream _ _ _ _ _ _ _ _ Ca) as (? & ? & -> & _). pose proof (cn_stream _ _ _ _ _ _ _ _ Cb) as (? & ? & -> & _).
    unfold end_of, fresh. cbn [str kcp written got inbox app].
    assert (Z.of_nat m < 2 ^ 32)%Z by (unfold MTU_LIMIT in Hm; lia).
    apply (new_kcp_reach true); [done|done|]. apply (reach_sym cv false). apply (new_kcp_reach false); [done|done|].
    apply (reach_start cv false).
  - by eapply fresh_link.
  - by eapply fresh_link.
Qed.

Lemma inv_sym on_a p q : inv cv cr m ds ps c on_a p q -> inv cv cr m ds ps c (negb on_a) q p.
Proof. intros [H1 H2 H3]. split; [by apply reach_sym|done|done]. Qed.

Hypothesis Hcr : crypt_ok cr.
Hypothesis Hsh : 0 < ds /\ 0 < ps /\ ds + ps <= 256 /\ rs_new ds ps = Some c.

Lemma step_ok n e :
  step_env e.2 -> below_limit n.1 = true -> below_limit n.2 = true -> inv cv cr m ds ps c true n.1 n.2 ->
  exists n', step n e = Some n' /\ inv cv cr m ds ps c true n'.1 n'.2.
Proof.
  destruct n as [a b], e as [on_a st]. cbn [fst Datatypes.snd]. intros He Ha%below_within Hb%below_within Hi.
  destruct Hsh as (S1 & S2 & S3 & S4). destruct on_a; cbn [step].
  - destruct (stream_perform_ok cv cr m ds ps c Hcv Hcr S1 S2 S3 S4 true st a b He Ha Hb Hi) as (a' & -> & H). by eexists.
  - apply inv_sym in Hi.
    destruct (stream_perform_ok cv cr m ds ps c Hcv Hcr S1 S2 S3 S4 false st b a He Hb Ha Hi) as (b' & -> & H). eexists. split; [done|].
    by apply inv_sym in H.
Qed.

Lemma stream_run_ok es n n' :
  Forall (fun e => step_env e.2) es -> inv cv cr m ds ps c true n.1 n.2 -> run n es = Some n' -> inv cv cr m ds ps c true n'.1 n'.2.
Proof.
  revert n. induction es as [|e es IH]; intros n Hes Hi Hr; cbn [run] in Hr; [by simplify_eq|].
  apply Forall_cons in Hes as [He Hes]. destruct (below_limit n.1) eqn:H1, (below_limit n.2) eqn:H2; cbn [andb] in Hr; try done.
  destruct (step_ok n e He H1 H2 Hi) as (n1 & E & Hi1). rewrite E in Hr. by eapply IH.
Qed.

Lemma inv_delivers on_a p q :
  below_limit p = true -> below_limit q = true -> inv cv cr m ds ps c on_a p q ->
  got q ++ inbox (str q) `prefix_of` written p /\
  (wait_snd (kcp (str p)) = 0 -> got q ++ inbox (str q) ++ mjoin (seg_data <$> rcv_queue (rcv (kcp (str q)))) = written p).
Proof.
  intros [Hp _]%below_within [Hq _]%below_within Hi.
  destruct (reach_delivers cv Hcv on_a _ _ (iv_reach _ _ _ _ _ _ _ _ _ Hi) Hp Hq) as [H1 H2]. split; [exact H1|].
  intros Hw. rewrite (assoc_L (++)). by apply H2.
Qed.

End Start.

(** C6: Two kcptun streams with one key, cipher, MTU and shard configuration
    that run their operations in any order never panic, on a network that
    loses, repeats and reorders their datagrams. What a side has read is a
    prefix of what the other wrote, and once a side's KCP has nothing left to
    send or to have acknowledged, all it wrote is with the peer. The encryption
    and the error correction in between, its recovered datagrams included,
    change none of the bytes. *)
Theorem stream_delivers cv ca cb sa sb es a b :
  (0 <= cv < 2 ^ 32)%Z -> config_ok ca = true -> config_ok cb = true -> same_wire ca cb ->
  connect cv ca = Some (Ok sa) -> connect cv cb = Some (Ok sb) ->
  Forall (fun e => step_env e.2) es -> run (fresh sa, fresh sb) es = Some (a, b) ->
  below_limit a = true -> below_limit b = true ->
  (forall e, step_env e.2 -> is_Some (step (a, b) e)) /\
  (got b ++ inbox (str b) `prefix_of` written a /\ got a ++ inbox (str a) `prefix_of` written b) /\
  (wait_snd (kcp (str a)) = 0 ->
    got b ++ inbox (str b) ++ mjoin (seg_data <$> rcv_queue (rcv (kcp (str b)))) = written a) /\
  (wait_snd (kcp (str b)) = 0 ->
    got a ++ inbox (str a) ++ mjoin (seg_data <$> rcv_queue (rcv (kcp (str a)))) = written b).
Proof.
  intros Hcv Ha Hb Hw Ca Cb Hes Hrun La Lb. destruct (connect_inv cv ca sa Ca) as (cr & m & ds & ps & c & Hc).
  pose proof (Hc ca sa ltac:(done) Ca) as Na. pose proof (Hc cb sb Hw Cb) as Nb.
  pose proof (cn_crypt _ _ _ _ _ _ _ _ Na) as Hcr. pose proof (cn_shards _ _ _ _ _ _ _ _ Na) as Hsh.
  pose proof (stream_run_ok cv cr m ds ps c Hcv Hcr Hsh es (fresh sa, fresh sb) (a, b) Hes (fresh_inv cv cr m ds ps c ca cb sa sb Ha Hb Na Nb) Hrun) as Hi.
  cbn [fst Datatypes.snd] in Hi.
  destruct (inv_delivers cv cr m ds ps c Hcv true a b La Lb Hi) as [P1 W1].
  destruct (inv_delivers cv cr m ds ps c Hcv false b a Lb La (inv_sym _ _ _ _ _ _ _ _ _ Hi)) as [P2 W2].
  split; [|by split_and!]. intros e He.
  destruct (step_ok cv cr m ds ps c Hcv Hcr Hsh (a, b) e He La Lb Hi) as (n' & -> & _). by eexists.
Qed.

End Theorems.

(** ** A run with a lost datagram *)

Section Example.
Import FecXor.

(** The defaults, but for the cipher, the mode and the shard counts. *)
Definition options (mode : bytes) (ack_nodelay : bool) : KcpConfig :=
  fill_defaults (mkKcpConfig (b! "secret") (b! "xtea") mode 0 0 0 0 0 0 0 2 1 0 false ack_nodelay 0 0 0 0 0 0 0 0 0 0).

Definition config_a : KcpConfig := options (b! "fast2") false.
Definition config_b : KcpConfig := options (b! "normal") true.

Definition env_at (t : Z) : Env := mkEnv t t (fun _ => t) (fun _ _ n => replicate n "r"%char) true.

(** Two writes; the first datagram is lost and comes back from the second and
    the parity; the acknowledgements return, the later one first. *)
Definition lossy_run : list (bool * Step) :=
  [(true, DoWrite (env_at 100) 9 (b! "hello")); (true, DoWrite (env_at 105) 9 (b! " world"));
   (false, DoReceive (env_at 130) 1); (false, DoReceive (env_at 131) 2); (false, DoStage); (false, DoRead 7);
   (false, DoPump (env_at 175) 9); (true, DoReceive (env_at 190) 1); (true, DoReceive (env_at 191) 0)].

Lemma lossy_run_env : Forall (fun e => step_env e.2) lossy_run.
Proof. repeat constructor; cbn; try lia; intros; apply length_replicate. Qed.

Lemma stream_delivers_witness :
  exists sa sb a b, connect 7 config_a = Some (Ok sa) /\ connect 7 config_b = Some (Ok sb) /\
    run (fresh sa, fresh sb) lossy_run = Some (a, b) /\
    got b ++ inbox (str b) ++ mjoin (seg_data <$> rcv_queue (rcv (kcp (str b)))) = written a /\
    is_Some (step (a, b) (true, DoStage)).
Proof.
  assert (H : match connect 7 config_a, connect 7 config_b with
    | Some (Ok sa), Some (Ok sb) =>
        match run (fresh sa, fresh sb) lossy_run with
        | Some (a, b) => below_limit a && below_limit b && (wait_snd (kcp (str a)) =? 0)
        | None => false
        end
    | _, _ => false
    end = true) by (vm_compute; reflexivity).
  destruct (connect 7 config_a) as [[sa|?]|] eqn:Ea; try done. destruct (connect 7 config_b) as [[sb|?]|] eqn:Eb; try done.
  destruct (run _ _) as [[a b]|] eqn:Er; [|done]. rewrite !andb_true_iff, Nat.eqb_eq in H. destruct H as [[La Lb] Hw].
  destruct (stream_delivers 7 config_a config_b sa sb lossy_run a b ltac:(lia) eq_refl eq_refl ltac:(done) Ea Eb lossy_run_env Er La Lb)
    as (Hstep & _ & Hall & _).
  exists sa, sb, a, b. split_and!; [done|done|done|by apply Hall|by apply Hstep].
Defined.

End Example.
End KcpStreamTheorems.
