(* ===== verification/Errors.v ===== *)
(** * Errors and their classes (crates/meow-common/src/error.rs, backoff.rs)

    The error type of dials, the classes that decide whether a failure counts
    against a member of a group, the boundary to [io::Error] and back, and the
    delay of loops that retry. What the operating system and the standard
    library say of an errno is a parameter; the code is that of Linux. *)

From S2P Require Import Prelude Strings Show.

Module Errors.

(** The kinds of [io::ErrorKind] the code names; the others are numbered. *)
Inductive ErrorKind :=
  | ConnectionRefused | ConnectionReset | ConnectionAborted | HostUnreachable | NetworkUnreachable | NetworkDown
  | Interrupted | WouldBlock | TimedOut | Unsupported | OutOfMemory | OtherKind | Uncategorized | Kind (n : nat).

#[export] Instance ErrorKind_eq_dec : EqDecision ErrorKind.
Proof. solve_decision. Defined.

(** [io::Error]: an errno, a kind alone, a kind with a message, or the
    admission limit, whose type is private and has this one constructor. *)
Inductive IoError :=
  | Os (code : Z)
  | Simple (k : ErrorKind)
  | Custom (k : ErrorKind) (message : bytes)
  | Limit (reason : bytes).

Definition local_resource_limit (reason : bytes) : IoError := Limit reason.

Definition is_local_limit (e : IoError) : bool := match e with Limit _ => true | _ => false end.

Definition raw_os_error (e : IoError) : option Z := match e with Os code => Some code | _ => None end.

Definition EMFILE : Z := 24.
Definition ENFILE : Z := 23.
Definition ENOBUFS : Z := 105.
Definition ENOMEM : Z := 12.

Definition local_errno (code : Z) : bool :=
  existsb (Z.eqb code) [EMFILE; ENFILE; ENOBUFS; ENOMEM].

(** What is known of an errno: its kind and its text. None of those that mean
    a local shortage decodes to [Unsupported]. *)
Class OsErrors := {
  os_kind : Z -> ErrorKind;
  os_text : Z -> bytes;
  kind_text : ErrorKind -> bytes;
  os_kind_local code : local_errno code = true -> os_kind code <> Unsupported;
}.

Section WithOs.
Context `{OE : OsErrors}.

Definition kind (e : IoError) : ErrorKind :=
  match e with Os code => os_kind code | Simple k => k | Custom k _ => k | Limit _ => WouldBlock end.

Definition io_to_string (e : IoError) : bytes :=
  match e with
  | Os code => os_text code ++ b! " (os error " ++ show_dec code ++ b! ")"
  | Simple k => kind_text k
  | Custom _ m => m
  | Limit r => r
  end.

Inductive MeowError :=
  | Io (e : IoError)
  | Config (s : bytes)
  | Dns (s : bytes)
  | Proxy (s : bytes)
  | NotSupported (s : bytes)
  | ProxyAuthFailed
  | HttpConnectFailed (status : Z)
  | Socks5ConnectFailed (reply : Z)
  | NoAcceptableMethod
  | NoProxyAvailable
  | RelayHopFailed (hop : Z) (source : MeowError)
  | UdpNotSupported
  | Other (s : bytes).

(** [{:#04x}]. *)
Definition show_hex04 (n : Z) : bytes :=
  let d := show_radix 16 (Z.to_N n) in
  b! "0x" ++ (if length d =? 1 then b! "0" ++ d else d).

Fixpoint to_string (e : MeowError) : bytes :=
  match e with
  | Io e => b! "IO error: " ++ io_to_string e
  | Config s => b! "Config error: " ++ s
  | Dns s => b! "DNS error: " ++ s
  | Proxy s => b! "Proxy error: " ++ s
  | NotSupported s => b! "Not supported: " ++ s
  | ProxyAuthFailed => b! "proxy authentication failed"
  | HttpConnectFailed n => b! "HTTP CONNECT failed with status " ++ show_dec n
  | Socks5ConnectFailed n => b! "SOCKS5 connect failed with reply code " ++ show_hex04 n
  | NoAcceptableMethod => b! "SOCKS5: no acceptable authentication method"
  | NoProxyAvailable => b! "no proxy available"
  | RelayHopFailed hop e => b! "relay chain failed at hop " ++ show_dec hop ++ b! ": " ++ to_string e
  | UdpNotSupported => b! "UDP not supported by this relay chain"
  | Other s => s
  end.

Fixpoint is_capability_error (e : MeowError) : bool :=
  match e with
  | NotSupported _ | UdpNotSupported => true
  | Io e => bool_decide (kind e = Unsupported)
  | RelayHopFailed _ e => is_capability_error e
  | _ => false
  end.

Definition is_local_resource_io_error (e : IoError) : bool :=
  is_local_limit e || bool_decide (kind e = OutOfMemory) ||
  match raw_os_error e with Some code => local_errno code | None => false end.

Fixpoint is_local_resource_error (e : MeowError) : bool :=
  match e with
  | Io e => is_local_resource_io_error e
  | RelayHopFailed _ e => is_local_resource_error e
  | _ => false
  end.

Definition io_errno_backed (e : IoError) : bool :=
  bool_decide (is_Some (raw_os_error e)) || bool_decide (kind e = OutOfMemory).

Fixpoint is_errno_backed (e : MeowError) : bool :=
  match e with
  | Io e => io_errno_backed e
  | RelayHopFailed _ e => is_errno_backed e
  | _ => false
  end.

Definition prefer_errno (prev : option MeowError) (next : MeowError) : option MeowError :=
  if from_option is_errno_backed false prev && negb (is_errno_backed next) then prev else Some next.

Definition prefer_errno_io (prev : option IoError) (next : IoError) : option IoError :=
  if from_option io_errno_backed false prev && negb (io_errno_backed next) then prev else Some next.

(** The innermost [Io], or the error as it was. *)
Fixpoint innermost_io (e : MeowError) : IoError + MeowError :=
  match e with
  | Io e => inl e
  | RelayHopFailed hop source =>
      match innermost_io source with inl e => inl e | inr source => inr (RelayHopFailed hop source) end
  | e => inr e
  end.

Definition into_io_error (e : MeowError) (context : bytes) : IoError :=
  if is_capability_error e then Custom Unsupported (context ++ b! ": " ++ to_string e)
  else match innermost_io e with
    | inl e => e
    | inr e => Custom OtherKind (context ++ b! ": " ++ to_string e)
    end.

Definition io_with (context : bytes) (e : IoError) : MeowError :=
  if io_errno_backed e || is_local_limit e || bool_decide (kind e = Unsupported) then Io e
  else Proxy (context ++ b! ": " ++ io_to_string e).

(** ** Delays of retries (backoff.rs) *)

Definition INITIAL_DELAY : Z := 10.
Definition MAX_DELAY : Z := 1000.

Definition EPROTO : Z := 71.
Definition ENOPROTOOPT : Z := 92.
Definition EHOSTDOWN : Z := 112.
Definition EOPNOTSUPP : Z := 95.
Definition ENONET : Z := 64.

Definition is_pending_errno (e : IoError) : bool :=
  match raw_os_error e with
  | Some code => existsb (Z.eqb code) [EPROTO; ENOPROTOOPT; EHOSTDOWN; EOPNOTSUPP; ENONET]
  | None => false
  end.

Definition is_per_connection (e : IoError) : bool :=
  match kind e with
  | ConnectionAborted | ConnectionReset | ConnectionRefused | Interrupted | NetworkUnreachable | HostUnreachable
  | NetworkDown => true
  | _ => is_pending_errno e
  end.

(** The delay in milliseconds, and after a failure what was slept, if
    anything. *)
Definition failed (delay : Z) (e : IoError) : Z * option Z :=
  if is_per_connection e then (delay, None) else (Z.min (delay * 2) MAX_DELAY, Some delay).

Definition succeeded (delay : Z) : Z := INITIAL_DELAY.

(** ** Classes survive the boundary *)

Definition innermost_class (e : MeowError) : Prop :=
  match innermost_io e with
  | inl x => is_capability_error e = is_capability_error (Io x) /\ is_local_resource_error e = is_local_resource_error (Io x) /\
             is_errno_backed e = io_errno_backed x
  | inr _ => is_local_resource_error e = false /\ is_errno_backed e = false
  end.

Lemma innermost_io_class e : innermost_class e.
Proof. induction e as [| | | | | | | | | |hop e IH| |]; unfold innermost_class in *; try done. cbn. by destruct (innermost_io e). Qed.

Lemma unsupported_not_local x : kind x = Unsupported -> is_local_resource_io_error x = false.
Proof.
  unfold is_local_resource_io_error. destruct x as [code|k|k m|r]; cbn [kind is_local_limit raw_os_error orb]; intros H.
  - rewrite bool_decide_eq_false_2 by congruence. cbn. destruct (local_errno code) eqn:E; [|done]. by apply os_kind_local in E.
  - by subst.
  - by subst.
  - done.
Qed.

Lemma io_with_class context x :
  is_capability_error (io_with context x) = is_capability_error (Io x) /\
  is_local_resource_error (io_with context x) = is_local_resource_error (Io x).
Proof.
  unfold io_with. destruct (_ || _) eqn:E; [done|]. rewrite !orb_false_iff in E. destruct E as [[E1 E2] E3]. cbn. rewrite E3. split; [done|].
  unfold is_local_resource_io_error, io_errno_backed in *. rewrite E2. apply orb_false_iff in E1 as [E1 E4]. rewrite E4. cbn.
  destruct (raw_os_error x); [|done]. apply bool_decide_eq_false in E1. exfalso. apply E1. by eexists.
Qed.

Lemma capability_not_local e : is_capability_error e = true -> is_local_resource_error e = false.
Proof. induction e; cbn; intros H; try done; [|auto]. apply bool_decide_eq_true in H. by apply unsupported_not_local. Qed.

(** C22: an error that crosses the boundary of a transport keeps its class,
    whatever its nesting and the contexts: turned into an [io::Error] and
    wrapped again by the adapter above, it is a refusal for lack of a
    capability exactly if it was one before, and a local shortage exactly if
    it was one before. So a group never counts such a failure against a
    member, however many hops it came through. *)
Theorem error_class_survives (e : MeowError) (inner outer : bytes) :
  is_capability_error (io_with outer (into_io_error e inner)) = is_capability_error e /\
  is_local_resource_error (io_with outer (into_io_error e inner)) = is_local_resource_error e.
Proof.
  destruct (io_with_class outer (into_io_error e inner)) as [-> ->]. unfold into_io_error. destruct (is_capability_error e) eqn:E.
  - split; [done|]. by rewrite (capability_not_local e E).
  - pose proof (innermost_io_class e) as H. unfold innermost_class in H. destruct (innermost_io e) as [x|x].
    + destruct H as (H1 & H2 & _). by rewrite <- H1, <- H2, E.
    + by destruct H as [-> _].
Qed.

Definition fold_errors (prefer : option IoError -> IoError -> option IoError) (es : list IoError) : option IoError :=
  foldl prefer None es.

(** A dial over several candidates reports an error with an errno if any of
    them met one, the last of these, and the last error otherwise. *)
Theorem prefer_errno_last (es : list IoError) :
  fold_errors prefer_errno_io es =
    match last (filter (fun e => io_errno_backed e = true) es) with Some e => Some e | None => last es end.
Proof.
  unfold fold_errors. induction es as [|e es IH] using rev_ind; [done|]. rewrite foldl_snoc, IH, list.filter_app, last_snoc. clear IH.
  unfold prefer_errno_io. rewrite filter_cons, filter_nil. destruct (io_errno_backed e) eqn:E.
  - rewrite andb_false_r, decide_True by done. by rewrite last_snoc.
  - rewrite decide_False by congruence. rewrite app_nil_r. cbn [negb]. rewrite andb_true_r.
    destruct (last (filter _ es)) as [x|] eqn:Hl.
    + apply last_Some_elem_of in Hl. apply list_elem_of_filter in Hl as [Hx _]. cbn. by rewrite Hx.
    + destruct (last es) as [y|] eqn:Hy; [|done]. cbn. destruct (io_errno_backed y) eqn:Ey; [|done]. exfalso.
      apply last_Some_elem_of in Hy. assert (Hin : y ∈ filter (fun e => io_errno_backed e = true) es) by (by apply list_elem_of_filter).
      apply last_None in Hl. rewrite Hl in Hin. by apply not_elem_of_nil in Hin.
Qed.

(** The delays slept over failures in a row. *)
Fixpoint slept (delay : Z) (es : list IoError) : list Z :=
  match es with
  | [] => []
  | e :: es => let '(d, s) := failed delay e in match s with Some s => s :: slept d es | None => slept d es end
  end.

Lemma slept_from k es :
  (0 <= k)%Z ->
  slept (Z.min (INITIAL_DELAY * 2 ^ k) MAX_DELAY) es =
    (fun i => Z.min (INITIAL_DELAY * 2 ^ (k + Z.of_nat i)) MAX_DELAY) <$> seq 0 (length (filter (fun e => is_per_connection e = false) es)).
Proof.
  revert k. induction es as [|e es IH]; intros k Hk; [done|]. cbn [slept]. unfold failed. rewrite filter_cons.
  destruct (is_per_connection e) eqn:E; [by rewrite decide_False; [apply IH|]|]. rewrite decide_True by done. cbn [length seq fmap list_fmap].
  f_equal; [by rewrite Z.add_0_r|]. rewrite <- seq_shift. rewrite <- list_fmap_compose.
  assert (Hm : Z.min (Z.min (INITIAL_DELAY * 2 ^ k) MAX_DELAY * 2) MAX_DELAY = Z.min (INITIAL_DELAY * 2 ^ (k + 1)) MAX_DELAY).
  { rewrite Z.pow_add_r by lia. unfold INITIAL_DELAY, MAX_DELAY. assert (0 < 2 ^ k)%Z by (apply Z.pow_pos_nonneg; lia). lia. }
  rewrite Hm, IH by lia. apply list_fmap_ext. intros i x _. unfold compose. do 3 f_equal. lia.
Qed.

(** The [n]-th socket failure in a row sleeps ten milliseconds doubled at
    each one before, a second at most; failures of single connections between
    them cost nothing and change nothing. *)
Theorem backoff_doubles (es : list IoError) :
  slept INITIAL_DELAY es =
    (fun i => Z.min (INITIAL_DELAY * 2 ^ Z.of_nat i) MAX_DELAY) <$> seq 0 (length (filter (fun e => is_per_connection e = false) es)).
Proof. exact (slept_from 0 es ltac:(done)). Qed.

End WithOs.

(** The errnos of Linux as the standard library decodes them. *)
#[export] Program Instance linux_errors : OsErrors | 100 := {|
  os_kind code :=
    if (code =? 12)%Z then OutOfMemory else if (code =? 95)%Z then Unsupported else if (code =? 111)%Z then ConnectionRefused
    else if (code =? 110)%Z then TimedOut else if (code =? 104)%Z then ConnectionReset else if (code =? 11)%Z then WouldBlock
    else Uncategorized;
  os_text code := if (code =? 111)%Z then b! "Connection refused" else b! "error";
  kind_text k := b! "error";
|}.
Next Obligation.
  intros code H. unfold local_errno, EMFILE, ENFILE, ENOBUFS, ENOMEM in H. cbn in H.
  repeat (apply orb_true_iff in H as [H|H]; [apply Z.eqb_eq in H; by subst|]). done.
Qed.

(** A front that ran out of descriptors, and one that cannot carry UDP, seen
    from an adapter above. *)
Lemma error_class_survives_witness :
  is_local_resource_error (io_with (b! "ss") (into_io_error (RelayHopFailed 1 (Io (Os EMFILE))) (b! "dialer-proxy"))) = true /\
  is_capability_error (io_with (b! "ss") (into_io_error (RelayHopFailed 2 (NotSupported (b! "udp"))) (b! "dialer-proxy"))) = true.
Proof.
  split.
  - destruct (error_class_survives (OE := linux_errors) (RelayHopFailed 1 (Io (Os EMFILE))) (b! "dialer-proxy") (b! "ss")) as [_ H].
    by etransitivity; [exact H|vm_compute].
  - destruct (error_class_survives (OE := linux_errors) (RelayHopFailed 2 (NotSupported (b! "udp"))) (b! "dialer-proxy") (b! "ss")) as [H _].
    by etransitivity; [exact H|vm_compute].
Defined.

End Errors.
