(* ===== verification/ChainHealth.v ===== *)
(** * Verdicts on front hops (crates/meow-common/src/chain_health.rs)

    Which members of a group failed to carry a chain to which server. A
    moment is a number of nanoseconds, and the clock an argument of what reads
    it. An operation that looks under a read lock first and then takes the
    write lock is one function here; the half under the write lock decides
    again, and has a definition of its own where the first half differs. *)

From stdpp Require Import gmap.
From S2P Require Import Prelude Strings Ip Metadata HostNames.

Module ChainHealth.
Import Metadata HostNames.

Definition secs (n : Z) : Z := n * 1000000000.

Definition PASSIVE_STRIKES : Z := 2.
Definition BASE_BLOCK : Z := secs (5 * 60).
Definition MAX_BLOCK : Z := secs (6 * 60 * 60).
Definition BLAMED_MEMBERS : nat := 3.
Definition MAX_TARGETS : nat := 64.
Definition MAX_OWNERS : nat := 4.

(** ** Targets *)

Inductive ChainTarget := Addr (ip : IpAddr) (port : Z) | Host (host : bytes) (port : Z).

#[export] Instance ChainTarget_eq_dec : EqDecision ChainTarget.
Proof. solve_decision. Defined.

#[export] Program Instance ChainTarget_countable : Countable ChainTarget :=
  inj_countable'
    (fun t => match t with Addr ip p => (inl (is_v6 ip, addr_num ip), p) | Host h p => (inr h, p) end)
    (fun x => match x with
              | (inl (v6, a), p) => Addr (if v6 : bool then V6 a else V4 a) p
              | (inr h, p) => Host h p
              end) _.
Next Obligation. by intros [[]|]. Qed.

(** A server name and a port. *)
Definition chain_target (host : bytes) (port : Z) : ChainTarget :=
  match metadata_ip_literal host with Some ip => Addr ip port | None => Host host port end.

Definition from_metadata (m : Metadata) : option ChainTarget :=
  let port := dst_port m in
  if negb (bool_decide (host m = [])) then Some (chain_target (host m) port)
  else (fun ip => Addr ip port) <$> dst_ip m.

(** [str::rsplit_once]. *)
Definition rsplit_once (c : ascii) (s : bytes) : option (bytes * bytes) :=
  '(b, a) ← split_once c (reverse s);
  Some (reverse a, reverse b).

Definition from_server_addr (addr : bytes) : option ChainTarget :=
  '(host, port) ← rsplit_once ":" addr;
  port ← parse_u16 port;
  if bool_decide (host = []) then None else Some (chain_target host port).

(** ** Members *)

Inductive ChainVerdict := Passive | Probe (hold : Z).

Inductive Blame := BlameMember | BlameTarget.

#[export] Instance Blame_eq_dec : EqDecision Blame.
Proof. solve_decision. Defined.

Record MemberState := mkMember { strikes : Z; level : Z; blocked_until : option Z; reason : bytes }.

Definition default_member : MemberState := mkMember 0 0 None [].

Definition blocked_at (m : MemberState) (now : Z) : bool :=
  match blocked_until m with Some until => (now <? until)%Z | None => false end.

(** [u8::saturating_add(1)]. *)
Definition sat_succ8 (n : Z) : Z := Z.min 255 (n + 1).

(** No product here comes near the end of [Duration]. *)
Definition block_length (level : Z) : Z :=
  let doublings := Z.min (Z.max 0 (level - 1)) 8 in
  Z.min (BASE_BLOCK * Z.shiftl 1 doublings) MAX_BLOCK.

Definition block (m : MemberState) (now hold : Z) : MemberState * Z :=
  let level := sat_succ8 (level m) in
  let length := Z.max (block_length level) hold in
  (mkMember 0 level (Some (now + length)%Z) (reason m), length).

(** ** The table *)

Record TargetState := mkTarget {
  owners : list bytes;
  members : gmap bytes MemberState;
  failing : list bytes;
  carrier : option bytes;
  used : Z;
}.

Definition new_target (now : Z) : TargetState := mkTarget [] ∅ [] None now.

Definition set_owners (s : TargetState) (l : list bytes) : TargetState :=
  mkTarget l (members s) (failing s) (carrier s) (used s).
Definition set_members (s : TargetState) (m : gmap bytes MemberState) : TargetState :=
  mkTarget (owners s) m (failing s) (carrier s) (used s).
Definition set_failing (s : TargetState) (l : list bytes) : TargetState :=
  mkTarget (owners s) (members s) l (carrier s) (used s).
Definition set_carrier (s : TargetState) (c : bytes) : TargetState :=
  mkTarget (owners s) (members s) (failing s) (Some c) (used s).
Definition set_used (s : TargetState) (now : Z) : TargetState :=
  mkTarget (owners s) (members s) (failing s) (carrier s) now.

Definition state_blocked_at (s : TargetState) (member : bytes) (now : Z) : bool :=
  match members s !! member with Some m => blocked_at m now | None => false end.

Definition state_blame (s : TargetState) (member : bytes) : TargetState * Blame :=
  let failing' :=
    if (length (failing s) <=? BLAMED_MEMBERS) && negb (bool_decide (member ∈ failing s)) then failing s ++ [member]
    else failing s in
  (set_failing s failing', if BLAMED_MEMBERS <? length failing' then BlameTarget else BlameMember).

Record CarrierChange := mkChange { from : bytes; why : option bytes; owner : option bytes }.

Inductive Reach := Dial | ByProbe | OverDownCarrier.

#[export] Instance Reach_eq_dec : EqDecision Reach.
Proof. solve_decision. Defined.

Definition CARRIER_DOWN : bytes := b! "down".

Record ChainHealth := mkHealth { targets : gmap ChainTarget TargetState; carriers : bool }.

Definition new : ChainHealth := mkHealth ∅ false.
Definition tracking_carriers : ChainHealth := mkHealth ∅ true.

(** The order in which the entries of a hash map are visited. *)
Class HealthOrder := {
  target_order : gmap ChainTarget TargetState -> list (ChainTarget * TargetState);
  target_order_perm m : target_order m ≡ₚ map_to_list m;
  member_order : gmap bytes MemberState -> list (bytes * MemberState);
  member_order_perm m : member_order m ≡ₚ map_to_list m;
}.

#[export] Program Instance default_health_order : HealthOrder | 100 :=
  {| target_order := map_to_list; member_order := map_to_list |}.
Solve All Obligations with done.

Section Table.
Context `{HO : HealthOrder}.

(** [min_by_key] on the time of use: the first of the least. *)
Fixpoint oldest (l : list (ChainTarget * TargetState)) : option (ChainTarget * TargetState) :=
  match l with
  | [] => None
  | x :: l => match oldest l with
              | Some y => Some (if (used y.2 <? used x.2)%Z then y else x)
              | None => Some x
              end
  end.

(** The entry of a target and the table with it. *)
Definition entry (ts : gmap ChainTarget TargetState) (target : ChainTarget) (now : Z) :
    gmap ChainTarget TargetState * TargetState :=
  let ts :=
    if bool_decide (ts !! target = None) && (MAX_TARGETS <=? size ts) then
      match oldest (target_order ts) with Some (t, _) => delete t ts | None => ts end
    else ts in
  let state := set_used (default (new_target now) (ts !! target)) now in
  (<[target := state]> ts, state).

Definition with_state (h : ChainHealth) (ts : gmap ChainTarget TargetState) (target : ChainTarget) (s : TargetState) :
    ChainHealth := mkHealth (<[target := s]> ts) (carriers h).

Definition carrier_of (h : ChainHealth) (target : ChainTarget) : option bytes := s ← targets h !! target; carrier s.

(** Under the write lock. *)
Definition add_owner (h : ChainHealth) (target : ChainTarget) (owner : bytes) (now : Z) : ChainHealth :=
  let '(ts, s) := entry (targets h) target now in
  if bool_decide (owner ∈ owners s) then with_state h ts target s
  else
    let kept := if MAX_OWNERS <=? length (owners s) then drop 1 (owners s) else owners s in
    with_state h ts target (set_owners s (kept ++ [owner])).

Definition note_owner (h : ChainHealth) (target : ChainTarget) (owner : bytes) (now : Z) : ChainHealth :=
  match targets h !! target with
  | Some s => if bool_decide (owner ∈ owners s) then h else add_owner h target owner now
  | None => add_owner h target owner now
  end.

Definition known_targets (h : ChainHealth) : list (ChainTarget * list bytes) :=
  (fun '(t, s) => (t, owners s)) <$> target_order (targets h).

Definition is_blocked_at (h : ChainHealth) (target : ChainTarget) (member : bytes) (now : Z) : bool :=
  match targets h !! target with Some s => state_blocked_at s member now | None => false end.

Definition blocked (h : ChainHealth) (target : ChainTarget) (now : Z) : list (bytes * Z) :=
  match targets h !! target with
  | Some s => omap (fun '(name, m) => match blocked_until m with
                                      | Some until => if (now <? until)%Z then Some (name, until - now)%Z else None
                                      | None => None
                                      end) (member_order (members s))
  | None => []
  end.

(** Whether a reach changes nothing, as seen under the read lock. *)
Definition nothing_to_do (h : ChainHealth) (target : ChainTarget) (member : bytes) (reach : Reach) (now : Z) : bool :=
  let s := targets h !! target in
  let recorded :=
    match s with
    | Some s => bool_decide (is_Some (members s !! member)) || negb (length (failing s) =? 0)
    | None => false
    end in
  let settled :=
    negb (carriers h) ||
    match s with
    | Some s => match carrier s with
                | Some c => if bool_decide (c = member) then true
                            else bool_decide (reach = ByProbe) && negb (state_blocked_at s c now)
                | None => false
                end
    | None => false
    end in
  negb recorded && settled.

(** Under the write lock. *)
Definition settle_reach (h : ChainHealth) (target : ChainTarget) (member : bytes) (reach : Reach) (now : Z) :
    ChainHealth * option CarrierChange :=
  let found :=
    if carriers h then Some (entry (targets h) target now) else (fun s => (targets h, s)) <$> targets h !! target in
  match found with
  | None => (h, None)
  | Some (ts, s) =>
      let s := set_failing (set_members s (delete member (members s))) [] in
      if negb (carriers h) || bool_decide (carrier s = Some member) then (with_state h ts target s, None)
      else
        let adopt := negb (bool_decide (reach = ByProbe)) ||
          match carrier s with Some c => state_blocked_at s c now | None => true end in
        if negb adopt then (with_state h ts target s, None)
        else
          let h' := with_state h ts target (set_carrier s member) in
          match carrier s with
          | None => (h', None)
          | Some c =>
              let reason :=
                match (match members s !! c with Some m => if blocked_at m now then Some (reason m) else None | None => None end) with
                | Some r => Some r
                | None => if bool_decide (reach = OverDownCarrier) then Some CARRIER_DOWN else None
                end in
              (h', Some (mkChange c reason (last (owners s))))
          end
  end.

Definition reached_at (h : ChainHealth) (target : ChainTarget) (member : bytes) (reach : Reach) (now : Z) :
    ChainHealth * option CarrierChange :=
  if nothing_to_do h target member reach now then (h, None) else settle_reach h target member reach now.

Definition record_reached (h : ChainHealth) (target : ChainTarget) (member : bytes) (now : Z) :
    ChainHealth * option CarrierChange := reached_at h target member Dial now.

Definition record_probe_reached (h : ChainHealth) (target : ChainTarget) (member : bytes) (carrier_down : bool) (now : Z) :
    ChainHealth * option CarrierChange :=
  reached_at h target member (if carrier_down then OverDownCarrier else ByProbe) now.

Definition blame (h : ChainHealth) (target : ChainTarget) (member : bytes) (now : Z) : ChainHealth * Blame :=
  let '(ts, s) := entry (targets h) target now in
  let '(s, b) := state_blame s member in
  (with_state h ts target s, b).

(** A failure of one member. *)
Definition member_failed (m : MemberState) (verdict : ChainVerdict) (reason : bytes) (now : Z) : MemberState * option Z :=
  let m := mkMember (strikes m) (level m) (blocked_until m) reason in
  match verdict with
  | Probe hold =>
      if blocked_at m now then
        (mkMember (strikes m) (level m)
           (Some (match blocked_until m with Some u => Z.max u (now + hold) | None => now + hold end)%Z) reason, None)
      else let '(m, length) := block m now hold in (m, Some length)
  | Passive =>
      if blocked_at m now then (m, None)
      else
        let m := mkMember (sat_succ8 (strikes m)) (level m) (blocked_until m) reason in
        if (0 <? level m)%Z || (PASSIVE_STRIKES <=? strikes m)%Z then let '(m, length) := block m now 0 in (m, Some length)
        else (m, None)
  end.

Definition failed_at (h : ChainHealth) (target : ChainTarget) (member : bytes) (verdict : ChainVerdict) (reason : bytes)
    (now : Z) : ChainHealth * option Z :=
  let '(ts, s) := entry (targets h) target now in
  let '(m, length) := member_failed (default default_member (members s !! member)) verdict reason now in
  (with_state h ts target (set_members s (<[member := m]> (members s))), length).

End Table.

(** ** Reasons *)

Definition CLOSED_BEFORE_REPLY : bytes := b! "closed before any reply".

Definition failure_reason (error : bytes) : bytes :=
  let error := to_ascii_lowercase error in
  let has := existsb (fun w => contains w error) in
  if has [b! "timed out"; b! "timeout"; b! "deadline"] then b! "timed out"
  else if has [b! "refused"] then b! "connection refused"
  else if has [b! "reset"; b! "aborted"] then b! "connection reset"
  else if has [b! "unexpected status"] then b! "unexpected HTTP status"
  else if has [b! "tls"; b! "ssl"; b! "certificate"; b! "handshake"] then b! "TLS handshake failed"
  else if has [b! "eof"; b! "closed"; b! "broken pipe"] then CLOSED_BEFORE_REPLY
  else if has [b! "resolve"; b! "dns"; b! "lookup"; b! "no address"] then b! "name resolution failed"
  else if has [b! "unreachable"] then b! "network unreachable"
  else b! "connection failed".

End ChainHealth.
