(* ===== verification/ChainTheorems.v ===== *)
(** * The verdict table

    Every target has a machine of its own: the table answers as these
    machines do, each fed with the calls about its target. Of a machine it is
    then shown when a member is blocked and for how long, and whom a failure is
    put down to. *)

From stdpp Require Import gmap.
From S2P Require Import Prelude Strings Ip Metadata HostNames ChainHealth.

Module ChainTheorems.
Import ChainHealth.

(** ** Calls *)

Inductive Op :=
  | NoteOwner (owner : bytes)
  | Reached (member : bytes) (reach : Reach)
  | Blamed (member : bytes)
  | Failed (member : bytes) (verdict : ChainVerdict) (reason : bytes).

Inductive Answer := Nothing | Change (c : option CarrierChange) | Blames (b : Blame) | Blocks (length : option Z).

(** A call about a target, and when. *)
Record Call := mkCall { c_target : ChainTarget; c_op : Op; c_now : Z }.

Section Table.
Context `{HO : HealthOrder}.

Definition exec (h : ChainHealth) (c : Call) : ChainHealth * Answer :=
  let t := c_target c in
  let now := c_now c in
  match c_op c with
  | NoteOwner o => (note_owner h t o now, Nothing)
  | Reached m r => let '(h, x) := reached_at h t m r now in (h, Change x)
  | Blamed m => let '(h, b) := blame h t m now in (h, Blames b)
  | Failed m v why => let '(h, x) := failed_at h t m v why now in (h, Blocks x)
  end.

Fixpoint run (h : ChainHealth) (cs : list Call) : ChainHealth * list Answer :=
  match cs with
  | [] => (h, [])
  | c :: cs => let '(h, a) := exec h c in let '(h, l) := run h cs in (h, a :: l)
  end.

(** ** The machine of a target *)

Record Own := mkOwn {
  o_owners : list bytes;
  o_members : gmap bytes MemberState;
  o_failing : list bytes;
  o_carrier : option bytes;
}.

Definition fresh : Own := mkOwn [] ∅ [] None.

Definition o_blocked (s : Own) (member : bytes) (now : Z) : bool :=
  match o_members s !! member with Some m => blocked_at m now | None => false end.

(** The member reached the target: its record and the failing members go,
    and it may take over as the carrier. *)
Definition own_reached (tracks : bool) (s : Own) (m : bytes) (r : Reach) (now : Z) : Own * option CarrierChange :=
  let s := mkOwn (o_owners s) (delete m (o_members s)) [] (o_carrier s) in
  let taken := mkOwn (o_owners s) (o_members s) [] (Some m) in
  if negb tracks then (s, None)
  else match o_carrier s with
    | None => (taken, None)
    | Some c =>
        if bool_decide (c = m) || bool_decide (r = ByProbe) && negb (o_blocked s c now) then (s, None)
        else
          let down := if bool_decide (r = OverDownCarrier) then Some CARRIER_DOWN else None in
          let why := match o_members s !! c with Some x => if blocked_at x now then Some (reason x) else down | None => down end in
          (taken, Some (mkChange c why (last (o_owners s))))
    end.

Definition own_step (tracks : bool) (s : option Own) (op : Op) (now : Z) : option Own * Answer :=
  let some := default fresh s in
  match op with
  | NoteOwner o =>
      let kept := if MAX_OWNERS <=? length (o_owners some) then drop 1 (o_owners some) else o_owners some in
      (Some (if bool_decide (o ∈ o_owners some) then some
             else mkOwn (kept ++ [o]) (o_members some) (o_failing some) (o_carrier some)), Nothing)
  | Reached m r =>
      if tracks || bool_decide (is_Some s) then let '(s, x) := own_reached tracks some m r now in (Some s, Change x)
      else (None, Change None)
  | Blamed m =>
      let l := if (length (o_failing some) <=? BLAMED_MEMBERS) && negb (bool_decide (m ∈ o_failing some))
        then o_failing some ++ [m] else o_failing some in
      (Some (mkOwn (o_owners some) (o_members some) l (o_carrier some)),
       Blames (if BLAMED_MEMBERS <? length l then BlameTarget else BlameMember))
  | Failed m v why =>
      let '(x, l) := member_failed (default default_member (o_members some !! m)) v why now in
      (Some (mkOwn (o_owners some) (<[m := x]> (o_members some)) (o_failing some) (o_carrier some)), Blocks l)
  end.

Fixpoint own_run (tracks : bool) (s : option Own) (l : list (Op * Z)) : option Own * list Answer :=
  match l with
  | [] => (s, [])
  | (op, now) :: l => let '(s, a) := own_step tracks s op now in let '(s, as_) := own_run tracks s l in (s, a :: as_)
  end.

(** ** The table is these machines *)

Definition view (s : TargetState) : Own := mkOwn (owners s) (members s) (failing s) (carrier s).

Definition own_of (h : ChainHealth) (t : ChainTarget) : option Own := view <$> targets h !! t.

(** The calls about a target, and their answers. *)
Definition calls_of (t : ChainTarget) (cs : list Call) : list (Op * Z) :=
  omap (fun c => if decide (c_target c = t) then Some (c_op c, c_now c) else None) cs.

Definition answers_of (t : ChainTarget) (cs : list Call) (l : list Answer) : list Answer :=
  omap (fun '(c, a) => if decide (c_target c = t) then Some a else None) (zip cs l).

(** The targets known are among those of [known], which has room. *)
Definition fits (known : gset ChainTarget) (h : ChainHealth) : Prop := dom (targets h) ⊆ known.

Lemma entry_fits (known : gset ChainTarget) ts t now :
  dom ts ⊆ known -> t ∈ known -> size known <= MAX_TARGETS ->
  entry ts t now = (<[t := set_used (default (new_target now) (ts !! t)) now]> ts, set_used (default (new_target now) (ts !! t)) now).
Proof.
  intros Hd Ht Hs. unfold entry.
  assert (E : bool_decide (ts !! t = None) && (MAX_TARGETS <=? size ts) = false); [|by rewrite E].
  apply andb_false_iff. destruct (decide (ts !! t = None)) as [Hn|Hn]; [right|left; by apply bool_decide_eq_false].
  apply Nat.leb_gt. rewrite <- size_dom. assert (dom ts ⊂ known).
  { split; [done|]. intros H. apply H in Ht. by apply elem_of_dom in Ht as [? ?]; simplify_eq. }
  apply subset_size in H. lia.
Qed.

Lemma view_default now (x : option TargetState) : view (set_used (default (new_target now) x) now) = default fresh (view <$> x).
Proof. by destruct x. Qed.

Lemma view_used s now : view (set_used s now) = view s.
Proof. done. Qed.

Section Step.
Context (known : gset ChainTarget) (h : ChainHealth) (t : ChainTarget) (now : Z).
Hypothesis Hfit : fits known h.
Hypothesis Ht : t ∈ known.
Hypothesis Hsize : size known <= MAX_TARGETS.

(** What a step leaves: the machine of its target in [x], the others as they
    were. *)
Definition stepped (h' : ChainHealth) (x : option Own) : Prop :=
  carriers h' = carriers h /\ own_of h' t = x /\ fits known h' /\ forall t', t' <> t -> targets h' !! t' = targets h !! t'.

Lemma stepped_same : stepped h (own_of h t).
Proof. by split_and!. Qed.

Lemma stepped_with ts s x : ts = targets h \/ (exists y, ts = <[t := y]> (targets h)) -> view s = x -> stepped (with_state h ts t s) (Some x).
Proof.
  intros Hts <-. split_and!; [done| | |].
  - unfold own_of. cbn. by rewrite lookup_insert_eq.
  - unfold fits in *. cbn. rewrite dom_insert. destruct Hts as [->|[y ->]]; [set_solver|]. rewrite dom_insert. set_solver.
  - intros t' Hne. cbn. rewrite lookup_insert_ne by done. destruct Hts as [->|[y ->]]; [done|]. by rewrite lookup_insert_ne.
Qed.

Lemma note_owner_step o : stepped (note_owner h t o now) (own_step (carriers h) (own_of h t) (NoteOwner o) now).1.
Proof.
  assert (Ha : stepped (add_owner h t o now) (own_step (carriers h) (own_of h t) (NoteOwner o) now).1).
  { unfold add_owner. rewrite (entry_fits known) by done. set (s := set_used _ _).
    assert (Hv : view s = default fresh (own_of h t)) by apply view_default. cbn [own_step fst]. rewrite <- Hv.
    cbn [view o_owners]. case_bool_decide; (apply stepped_with; [right; by eexists|]); [done|]. by cbn. }
  unfold note_owner. destruct (targets h !! t) as [s|] eqn:Hs; [|exact Ha]. case_bool_decide as Ho; [|exact Ha].
  pose proof stepped_same as H0. unfold own_of in *. rewrite Hs in *. cbn [fmap option_fmap option_map] in *. cbn [own_step fst default from_option id].
  cbn [view o_owners]. by rewrite bool_decide_eq_true_2.
Qed.

Lemma blame_step m :
  exists h' b, blame h t m now = (h', b) /\ stepped h' (own_step (carriers h) (own_of h t) (Blamed m) now).1 /\
    (own_step (carriers h) (own_of h t) (Blamed m) now).2 = Blames b.
Proof.
  unfold blame. rewrite (entry_fits known) by done. set (s := set_used _ _).
  assert (Hv : view s = default fresh (own_of h t)) by apply view_default.
  unfold state_blame. eexists _, _. split; [done|]. cbn [own_step fst snd]. rewrite <- Hv. cbn [view o_failing o_owners o_members o_carrier].
  split; [|done]. apply stepped_with; [right; by eexists|done].
Qed.

Lemma failed_step m v why :
  exists h' l, failed_at h t m v why now = (h', l) /\ stepped h' (own_step (carriers h) (own_of h t) (Failed m v why) now).1 /\
    (own_step (carriers h) (own_of h t) (Failed m v why) now).2 = Blocks l.
Proof.
  unfold failed_at. rewrite (entry_fits known) by done. set (s := set_used _ _).
  assert (Hv : view s = default fresh (own_of h t)) by apply view_default. cbn [own_step]. rewrite <- Hv. cbn [view o_members].
  destruct (member_failed _ _ _ _) as [x l]. eexists _, _. split; [done|]. split; [|done]. apply stepped_with; [right; by eexists|done].
Qed.

Lemma settle_step s ts m r :
  (if carriers h then Some (entry (targets h) t now) else (fun s => (targets h, s)) <$> targets h !! t) = Some (ts, s) ->
  ts = targets h \/ (exists y, ts = <[t := y]> (targets h)) ->
  exists h' x, settle_reach h t m r now = (h', x) /\ stepped h' (Some (own_reached (carriers h) (view s) m r now).1) /\
    (own_reached (carriers h) (view s) m r now).2 = x.
Proof.
  intros Hfound Hts. unfold settle_reach. rewrite Hfound. set (s' := set_failing _ _). unfold own_reached.
  cbn [view o_owners o_members o_failing o_carrier]. destruct (carriers h); cbn [negb orb].
  2:{ eexists _, _. split; [done|]. split; [|done]. by apply stepped_with. }
  change (carrier s') with (carrier s). destruct (carrier s) as [c|] eqn:Hc.
  2:{ rewrite bool_decide_eq_false_2 by done. cbn [negb]. rewrite orb_true_r. cbn [negb]. eexists _, _. split; [done|]. split; [|done]. by apply stepped_with. }
  destruct (decide (c = m)) as [->|Hne].
  { rewrite !bool_decide_eq_true_2 by done. cbn [orb]. eexists _, _. split; [done|]. split; [|done]. apply stepped_with; [done|]. by rewrite <- Hc. }
  rewrite (bool_decide_eq_false_2 (Some c = Some m)) by congruence. rewrite (bool_decide_eq_false_2 (c = m)) by done. cbn [orb].
  change (state_blocked_at s' c now) with (o_blocked (mkOwn (owners s) (delete m (members s)) [] (Some c)) c now).
  destruct (bool_decide (r = ByProbe)) eqn:Hr; cbn [negb orb andb].
  - destruct (o_blocked _ c now); cbn [negb].
    + eexists _, _. split; [done|]. split; [by apply stepped_with|]. cbn. change (members s') with (delete m (members s)).
      do 2 f_equal. destruct (_ !! c) as [x|]; [by destruct (blocked_at x now)|done].
    + eexists _, _. split; [done|]. split; [|done]. apply stepped_with; [done|]. by rewrite <- Hc.
  - eexists _, _. split; [done|]. split; [by apply stepped_with|]. cbn. change (members s') with (delete m (members s)).
    do 2 f_equal. destruct (_ !! c) as [x|]; [by destruct (blocked_at x now)|done].
Qed.

(** Nothing is lost when the read lock shows that there is nothing to do. *)
Lemma nothing_to_do_own m r s :
  nothing_to_do h t m r now = true -> targets h !! t = Some s -> own_reached (carriers h) (view s) m r now = (view s, None).
Proof.
  unfold nothing_to_do, own_reached. intros H Hs. rewrite Hs in H.
  rewrite !andb_true_iff, negb_true_iff, orb_false_iff, negb_false_iff, bool_decide_eq_false, Nat.eqb_eq in H.
  destruct H as [[Hm Hf] Hset]. apply nil_length_inv in Hf.
  assert (Hdel : delete m (members s) = members s).
  { apply delete_id. destruct (members s !! m); [|done]. exfalso. apply Hm. by eexists. }
  cbn [view o_owners o_members o_carrier]. rewrite Hdel. destruct (carriers h); cbn [negb orb] in *.
  - destruct (carrier s) as [c|] eqn:Hc; [|done].
    assert (E : bool_decide (c = m) || bool_decide (r = ByProbe) && negb (o_blocked (mkOwn (owners s) (members s) [] (Some c)) c now) = true).
    { destruct (bool_decide (c = m)); [done|]. exact Hset. }
    rewrite E. f_equal. unfold view. by rewrite Hf, Hc.
  - f_equal. unfold view. by rewrite Hf.
Qed.

Lemma reached_step m r :
  exists h' x, reached_at h t m r now = (h', x) /\ stepped h' (own_step (carriers h) (own_of h t) (Reached m r) now).1 /\
    (own_step (carriers h) (own_of h t) (Reached m r) now).2 = Change x.
Proof.
  unfold reached_at. destruct (nothing_to_do h t m r now) eqn:Hn.
  - exists h, None. split; [done|]. cbn [own_step]. destruct (targets h !! t) as [s|] eqn:Hs.
    + assert (Ho : own_of h t = Some (view s)) by (unfold own_of; by rewrite Hs). rewrite Ho.
      rewrite bool_decide_eq_true_2 by eauto. rewrite orb_true_r. cbn [default from_option id].
      rewrite (nothing_to_do_own m r s Hn Hs). cbn [fst snd]. split; [|done]. rewrite <- Ho. apply stepped_same.
    + assert (Ho : own_of h t = None) by (unfold own_of; by rewrite Hs). rewrite Ho.
      unfold nothing_to_do in Hn. rewrite Hs in Hn. destruct (carriers h); [done|].
      rewrite bool_decide_eq_false_2 by (by intros [? ?]). cbn [orb fst snd]. split; [|done]. rewrite <- Ho. apply stepped_same.
  - destruct (carriers h) eqn:Hc.
    + destruct (settle_step (set_used (default (new_target now) (targets h !! t)) now) (<[t := set_used (default (new_target now) (targets h !! t)) now]> (targets h)) m r) as (h' & x & -> & H1 & H2).
      * rewrite Hc. by rewrite (entry_fits known).
      * right. by eexists.
      * exists h', x. split; [done|]. cbn [own_step orb]. rewrite view_default, Hc in *. change (view <$> targets h !! t) with (own_of h t) in *.
        destruct (own_reached _ _ _ _ _). cbn in *. by subst.
    + unfold own_of. destruct (targets h !! t) as [s|] eqn:Hs; cbn [fmap option_fmap option_map own_step].
      * rewrite bool_decide_eq_true_2 by eauto. cbn [orb default from_option id].
        destruct (settle_step s (targets h) m r) as (h' & x & -> & H1 & H2).
        { rewrite Hc. by rewrite Hs. }
        { by left. }
        rewrite Hc in *. exists h', x. split; [done|]. destruct (own_reached _ _ _ _ _). cbn in *. by subst.
      * rewrite bool_decide_eq_false_2 by (by intros [? ?]). cbn [orb fst snd]. exists h, None.
        unfold settle_reach. rewrite Hc, Hs. cbn. split; [done|]. split; [|done].
        pose proof stepped_same as H0. unfold own_of in H0. by rewrite Hs in H0.
Qed.

Lemma exec_step op :
  exists h' a, exec h (mkCall t op now) = (h', a) /\ stepped h' (own_step (carriers h) (own_of h t) op now).1 /\
    (own_step (carriers h) (own_of h t) op now).2 = a.
Proof.
  destruct op as [o|m r|m|m v why]; unfold exec; cbn [c_target c_op c_now].
  - eexists _, _. split; [done|]. split; [apply note_owner_step|done].
  - destruct (reached_step m r) as (h' & x & -> & H1 & H2). by eexists _, _.
  - destruct (blame_step m) as (h' & b & -> & H1 & H2). by eexists _, _.
  - destruct (failed_step m v why) as (h' & l & -> & H1 & H2). by eexists _, _.
Qed.

End Step.

Lemma run_own known cs h t :
  fits known h -> size known <= MAX_TARGETS -> Forall (fun c => c_target c ∈ known) cs ->
  (carriers (run h cs).1 = carriers h /\ fits known (run h cs).1) /\
  own_run (carriers h) (own_of h t) (calls_of t cs) = (own_of (run h cs).1 t, answers_of t cs (run h cs).2).
Proof.
  intros Hf Hs Hk. revert h Hf. induction Hk as [|[t' op now] cs Hc Hk IH]; intros h Hf; [done|]. cbn [c_target] in Hc.
  destruct (exec_step known h t' now Hf Hc Hs op) as (h' & a & E & (K1 & K2 & K3 & K4) & Ha). cbn [run]. rewrite E.
  destruct (IH h' K3) as [I1 I2]. rewrite K1 in I1, I2. destruct (run h' cs) as [h2 l]. cbn [fst snd] in *. split; [done|].
  unfold calls_of, answers_of in *. cbn [omap list_omap zip zip_with c_target]. destruct (decide (t' = t)) as [->|Hne].
  - cbn [own_run c_op c_now]. destruct (own_step _ _ _ _) as [x b]. cbn in K2, Ha. subst x b. by rewrite I2.
  - assert (E' : own_of h t = own_of h' t) by (unfold own_of; by rewrite K4). by rewrite E', I2.
Qed.


Lemma run_fits track (known : gset ChainTarget) cs :
  size known <= MAX_TARGETS -> Forall (fun c => c_target c ∈ known) cs -> fits known (run (mkHealth ∅ track) cs).1.
Proof. intros Hs Hk. apply (run_own known cs (mkHealth ∅ track) (Host [] 0)); [|done|done]. unfold fits. cbn. set_solver. Qed.

Lemma run_own_new track (known : gset ChainTarget) cs t :
  size known <= MAX_TARGETS -> Forall (fun c => c_target c ∈ known) cs ->
  own_run track None (calls_of t cs) = (own_of (run (mkHealth ∅ track) cs).1 t, answers_of t cs (run (mkHealth ∅ track) cs).2).
Proof. intros Hs Hk. by destruct (run_own known cs (mkHealth ∅ track) t) as [_ H]. Qed.

Lemma run_own_state track (known : gset ChainTarget) cs t :
  size known <= MAX_TARGETS -> Forall (fun c => c_target c ∈ known) cs ->
  own_of (run (mkHealth ∅ track) cs).1 t = (own_run track None (calls_of t cs)).1.
Proof. intros Hs Hk. by rewrite (run_own_new track known). Qed.

(** C10: a table that is asked about no more than 64 targets keeps them apart:
    what it holds of a target, and every answer it gave about it, is what the
    machine of this target alone gives on the calls about it. The eviction,
    the fast path under the read lock and the last-used times do not show. *)
Theorem chain_targets_independent (track : bool) (known : gset ChainTarget) (cs : list Call) (t : ChainTarget) :
  size known <= MAX_TARGETS -> Forall (fun c => c_target c ∈ known) cs ->
  own_run track None (calls_of t cs) = (own_of (run (mkHealth ∅ track) cs).1 t, answers_of t cs (run (mkHealth ∅ track) cs).2).
Proof. apply run_own_new. Qed.

(** ** How long a member is blocked *)

(** What the calls about a target say of a member: it failed, or it reached. *)
Inductive Event := EvFailed (v : ChainVerdict) (why : bytes) (at_ : Z) | EvReached.

Definition event (m : bytes) (c : Op * Z) : option Event :=
  match c.1 with
  | Reached m' _ => if decide (m' = m) then Some EvReached else None
  | Failed m' v why => if decide (m' = m) then Some (EvFailed v why c.2) else None
  | _ => None
  end.

Definition member_step (x : option MemberState) (e : Event) : option MemberState :=
  match e with
  | EvReached => None
  | EvFailed v why now => Some (member_failed (default default_member x) v why now).1
  end.

Definition member_of (s : option Own) (m : bytes) : option MemberState := s ≫= fun s => o_members s !! m.

Lemma own_reached_members track s m r now : o_members (own_reached track s m r now).1 = delete m (o_members s).
Proof. unfold own_reached. destruct track; [|done]. cbn. destruct (o_carrier s); [|done]. by destruct (_ || _). Qed.

Lemma own_step_member track s op now m :
  member_of (own_step track s op now).1 m = from_option (member_step (member_of s m)) (member_of s m) (event m (op, now)).
Proof.
  assert (Hd : o_members (default fresh s) !! m = member_of s m) by (by destruct s).
  destruct op as [o|m' r|m'|m' v why]; cbn [own_step event fst from_option].
  - cbn. case_bool_decide; exact Hd.
  - destruct (track || bool_decide (is_Some s)) eqn:E.
    + pose proof (own_reached_members track (default fresh s) m' r now) as H. destruct (own_reached _ _ _ _ _) as [x c]. cbn in *. rewrite H.
      destruct (decide (m' = m)) as [->|]; [by rewrite lookup_delete_eq|]. by rewrite lookup_delete_ne.
    + apply orb_false_iff in E as [_ E]. apply bool_decide_eq_false in E. destruct s; [exfalso; apply E; by eexists|].
      by destruct (decide (m' = m)).
  - exact Hd.
  - destruct (decide (m' = m)) as [->|Hne]; cbn [from_option member_step].
    + rewrite Hd. destruct (member_failed _ _ _ _). cbn. by rewrite lookup_insert_eq.
    + destruct (member_failed _ _ _ _). cbn. by rewrite lookup_insert_ne.
Qed.

Lemma own_run_member track l s m : member_of (own_run track s l).1 m = foldl member_step (member_of s m) (omap (event m) l).
Proof.
  revert s. induction l as [|[op now] l IH]; intros s; [done|]. cbn [own_run].
  pose proof (own_step_member track s op now m) as H. destruct (own_step _ _ _ _) as [s' a]. specialize (IH s').
  destruct (own_run _ s' l). cbn [fst] in *. rewrite IH, H. cbn [omap list_omap]. by destruct (event m (op, now)).
Qed.

(** The failures of a member since it last reached the target. *)
Definition failures_step (acc : list (ChainVerdict * Z)) (e : Event) : list (ChainVerdict * Z) :=
  match e with EvReached => [] | EvFailed v _ now => acc ++ [(v, now)] end.

(** The block the [n]-th failure brings, from the second on: five minutes,
    doubled at each failure, six hours at most. *)
Definition backoff (n : nat) : Z := Z.min (secs 300 * 2 ^ (Z.of_nat n - 2)) (secs 21600).

(** The failures that count, and when the block they brought ends. A passive
    failure during a block does not count; the failure of a probe during a
    block only prolongs it, and otherwise is never the first. *)
Definition strike (acc : nat * option Z) (failure : ChainVerdict * Z) : nat * option Z :=
  let '(n, until) := acc in
  let now := failure.2 in
  let up := match until with Some u => (now <? u)%Z | None => false end in
  match failure.1 with
  | Passive => if up then acc else (S n, if Nat.eqb n 0 then None else Some (now + backoff (S n))%Z)
  | Probe hold =>
      if up then (n, Z.max (now + hold) <$> until)
      else (Nat.max 2 (S n), Some (now + Z.max (backoff (Nat.max 2 (S n))) hold)%Z)
  end.

Definition block_end (failures : list (ChainVerdict * Z)) : option Z := (foldl strike (0, None) failures).2.

(** The record of a member and its count. *)
Definition counted (x : option MemberState) (acc : nat * option Z) : Prop :=
  match x with
  | None => acc = (0, None)
  | Some x =>
      blocked_until x = acc.2 /\
      match acc.1 with
      | 0 => False
      | 1 => strikes x = 1%Z /\ level x = 0%Z /\ acc.2 = None
      | n => strikes x = 0%Z /\ level x = Z.min 255 (Z.of_nat n - 1) /\ is_Some acc.2
      end
  end.

Lemma block_length_doubles k : (0 <= k)%Z -> block_length (Z.min 255 (k + 1)) = Z.min (secs 300 * 2 ^ k) (secs 21600).
Proof.
  intros Hk. unfold block_length, BASE_BLOCK, MAX_BLOCK, secs.
  destruct (decide (k < 8)%Z) as [H|H].
  - assert (k ∈ [0;1;2;3;4;5;6;7]%Z) as Hin by (rewrite !elem_of_cons; lia).
    repeat (apply elem_of_cons in Hin as [->|Hin]; [by vm_compute|]). by apply not_elem_of_nil in Hin.
  - replace (Z.min (Z.max 0 (Z.min 255 (k + 1) - 1)) 8)%Z with 8%Z by lia. rewrite Z.shiftl_1_l.
    assert (2 ^ 8 <= 2 ^ k)%Z by (apply Z.pow_le_mono_r; lia). lia.
Qed.

Lemma block_length_backoff n : block_length (sat_succ8 (Z.min 255 (Z.of_nat n))) = backoff (2 + n).
Proof.
  unfold backoff, sat_succ8. replace (Z.min 255 (Z.min 255 (Z.of_nat n) + 1))%Z with (Z.min 255 (Z.of_nat n + 1)) by lia.
  rewrite block_length_doubles by lia. do 2 f_equal. f_equal. lia.
Qed.

Lemma backoff_nonneg n : (0 <= backoff n)%Z.
Proof. unfold backoff, secs. apply Z.min_glb; [|lia]. apply Z.mul_nonneg_nonneg; [lia|]. by apply Z.pow_nonneg. Qed.

Lemma counted_step x acc e failures :
  acc = foldl strike (0, None) failures -> counted x acc ->
  counted (member_step x e) (foldl strike (0, None) (failures_step failures e)).
Proof.
  destruct e as [v why now|]; [|done]. intros Ha Hx. cbn [failures_step member_step]. rewrite foldl_snoc, <- Ha. clear Ha failures.
  destruct acc as [n until]. unfold counted in Hx. cbn [fst snd] in Hx.
  assert (Hb : block_length (sat_succ8 0) = backoff 2) by apply (block_length_backoff 0).
  destruct x as [[st lv bu rs]|]; cbn [blocked_until strikes level] in Hx.
  - destruct Hx as [-> Hx]. destruct n as [|[|n]]; [done| |].
    + destruct Hx as (-> & -> & ->). destruct v as [|hold]; cbn; rewrite Hb; done.
    + destruct Hx as (-> & -> & [u ->]). pose proof (block_length_backoff (S n)) as Hn.
      replace (Z.of_nat (S (S n)) - 1)%Z with (Z.of_nat (S n)) by lia.
      assert (Hl : sat_succ8 (Z.min 255 (Z.of_nat (S n))) = Z.min 255 (Z.of_nat (S (S (S n))) - 1)) by (unfold sat_succ8; lia).
      destruct v as [|hold]; unfold member_failed, strike, blocked_at; cbn [default from_option id blocked_until strikes level fst snd].
      * destruct (now <? u)%Z eqn:E; cbn [fst counted blocked_until snd strikes level].
        { split; [done|]. split_and!; [done|lia|by eexists]. }
        assert (E2 : (0 <? Z.min 255 (Z.of_nat (S n)))%Z = true) by (apply Z.ltb_lt; lia). rewrite E2. cbn [orb]. unfold block. cbn [level].
        rewrite Hn. cbn [fst counted blocked_until strikes level snd]. rewrite Z.max_l by apply backoff_nonneg.
        split; [done|]. cbn [Nat.add]. split_and!; [done|done|by eexists].
      * destruct (now <? u)%Z eqn:E; cbn [fst counted blocked_until snd strikes level].
        { cbn. split; [f_equal; lia|]. split_and!; [done|lia|by eexists]. }
        unfold block. cbn [level]. rewrite Hn. cbn [fst counted blocked_until strikes level snd]. replace (Nat.max 2 (S (S (S n)))) with (2 + S n) by lia.
        split; [done|]. cbn [Nat.add]. split_and!; [done|done|by eexists].
  - simplify_eq. destruct v as [|hold]; cbn; [done|]. by rewrite Hb.
Qed.

Lemma counted_run l x failures :
  counted x (foldl strike (0, None) failures) -> counted (foldl member_step x l) (foldl strike (0, None) (foldl failures_step failures l)).
Proof. revert x failures. induction l as [|e l IH]; intros x failures H; [done|]. cbn. apply IH. by eapply counted_step. Qed.

Lemma is_blocked_own h t m now :
  is_blocked_at h t m now = match member_of (own_of h t) m with Some x => blocked_at x now | None => false end.
Proof. unfold is_blocked_at, own_of. by destruct (targets h !! t) as [s|]. Qed.

(** The failures of a member on a target since it last reached it. *)
Definition failures_of (t : ChainTarget) (m : bytes) (cs : list Call) : list (ChainVerdict * Z) :=
  foldl failures_step [] (omap (event m) (calls_of t cs)).

(** C20: a member is blocked for a target exactly until the end of the block
    that its failures since it last reached the target brought. The first
    passive failure brings none; from the second on, and at the failure of a
    probe, the block is five minutes doubled at each further failure, six
    hours at most, and for a probe no shorter than its hold. Failures on other
    targets and of other members do not matter, nor does the width of the
    counters. *)
Theorem chain_block_backs_off (track : bool) (known : gset ChainTarget) (cs : list Call) (t : ChainTarget) (m : bytes) (now : Z) :
  size known <= MAX_TARGETS -> Forall (fun c => c_target c ∈ known) cs ->
  is_blocked_at (run (mkHealth ∅ track) cs).1 t m now =
    match block_end (failures_of t m cs) with Some until => (now <? until)%Z | None => false end.
Proof.
  intros Hs Hk. rewrite is_blocked_own, (run_own_state track known), own_run_member by done.
  pose proof (counted_run (omap (event m) (calls_of t cs)) None [] eq_refl) as Hc. unfold block_end, failures_of.
  cbn [member_of mbind option_bind]. destruct (foldl member_step _ _) as [x|]; cbn in Hc; [|by rewrite Hc].
  destruct Hc as [Hc _]. unfold blocked_at. by rewrite Hc.
Qed.

(** ** Whom a failure is put down to *)

(** The members a failure was put down to since one reached the target. *)
Definition blamed_step (acc : list bytes) (c : Op * Z) : list bytes :=
  match c.1 with Reached _ _ => [] | Blamed m => acc ++ [m] | _ => acc end.

Definition blamed_of (t : ChainTarget) (cs : list Call) : list bytes := foldl blamed_step [] (calls_of t cs).

(** The failing members kept are distinct, and all of them while they are
    few. *)
Definition keeps (f l : list bytes) : Prop :=
  NoDup f /\ f ⊆ l /\ (length f <= BLAMED_MEMBERS -> l ⊆ f).

Lemma keeps_nil : keeps [] [].
Proof. split_and!; [constructor|by intros x|by intros _ x]. Qed.

Lemma keeps_many f l : keeps f l -> (BLAMED_MEMBERS <? length f) = (BLAMED_MEMBERS <? length (remove_dups l)).
Proof.
  intros (Hn & Hi & Hc). apply eq_true_iff_eq. rewrite !Nat.ltb_lt. split; intros H.
  - assert (f ⊆+ remove_dups l); [|by apply submseteq_length in H0; lia].
    apply NoDup_submseteq; [done|]. intros x Hx. apply elem_of_remove_dups. auto.
  - destruct (decide (length f <= BLAMED_MEMBERS)) as [Hf|Hf]; [|lia].
    assert (remove_dups l ⊆+ f); [|by apply submseteq_length in H0; lia].
    apply NoDup_submseteq; [apply NoDup_remove_dups|]. intros x Hx. rewrite elem_of_remove_dups in Hx. exact (Hc Hf x Hx).
Qed.

Lemma keeps_snoc f l m :
  keeps f l ->
  keeps (if (length f <=? BLAMED_MEMBERS) && negb (bool_decide (m ∈ f)) then f ++ [m] else f) (l ++ [m]).
Proof.
  intros (Hn & Hi & Hc). destruct (length f <=? BLAMED_MEMBERS) eqn:Hf; cbn [andb].
  - apply Nat.leb_le in Hf. case_bool_decide as Hm; cbn [negb].
    + split_and!; [done|set_solver|]. intros _. specialize (Hc Hf). set_solver.
    + split_and!; [|set_solver|]; [|intros _; specialize (Hc Hf); set_solver].
      apply NoDup_app. split_and!; [done| |apply NoDup_singleton]. intros x Hx Hx2. apply list_elem_of_singleton in Hx2. by subst.
  - apply Nat.leb_gt in Hf. split_and!; [done|set_solver|lia].
Qed.

Lemma own_reached_failing track s m r now : o_failing (own_reached track s m r now).1 = [].
Proof. unfold own_reached. destruct track; [|done]. cbn. destruct (o_carrier s); [|done]. by destruct (_ || _). Qed.

Lemma own_run_failing track l s acc :
  keeps (o_failing (default fresh s)) acc -> keeps (o_failing (default fresh (own_run track s l).1)) (foldl blamed_step acc l).
Proof.
  revert s acc. induction l as [|[op now] l IH]; intros s acc H; [done|]. cbn [own_run foldl].
  destruct (own_step track s op now) as [s' a] eqn:E. specialize (IH s' (blamed_step acc (op, now))).
  destruct (own_run track s' l) as [s2 l2]. apply IH. clear IH. destruct op as [o|m r|m|m v why]; cbn [own_step blamed_step fst] in *.
  - simplify_eq. cbn. by case_bool_decide.
  - pose proof keeps_nil. destruct (track || bool_decide (is_Some s)).
    + pose proof (own_reached_failing track (default fresh s) m r now) as Hf. destruct (own_reached _ _ _ _ _). simplify_eq. cbn in *. by rewrite Hf.
    + by simplify_eq.
  - simplify_eq. by apply keeps_snoc.
  - destruct (member_failed _ _ _ _). by simplify_eq.
Qed.

(** C29: a failure is put down to the target exactly when, with this one, more
    than three members failed it since one last reached it, however often each
    failed, and to the member otherwise. *)
Theorem chain_blame_exact (track : bool) (known : gset ChainTarget) (cs : list Call) (t : ChainTarget) (m : bytes) (now : Z) :
  size known <= MAX_TARGETS -> Forall (fun c => c_target c ∈ known) cs -> t ∈ known ->
  (blame (run (mkHealth ∅ track) cs).1 t m now).2 =
    if 3 <? length (remove_dups (blamed_of t cs ++ [m])) then BlameTarget else BlameMember.
Proof.
  intros Hs Hk Ht. set (h := (run _ _).1).
  assert (Hfit : fits known h) by (by apply run_fits).
  destruct (blame_step known h t now Hfit Ht Hs m) as (h' & b & -> & _ & Hb). cbn [snd].
  assert (E : own_of h t = (own_run track None (calls_of t cs)).1) by (by apply (run_own_state track known)).
  rewrite E in Hb. cbn [own_step snd] in Hb.
  pose proof (own_run_failing track (calls_of t cs) None []) as Hf. apply (keeps_snoc _ _ m) in Hf.
  - apply keeps_many in Hf. rewrite Hf in Hb. by injection Hb as <-.
  - apply keeps_nil.
Qed.

(** ** The shape of the table *)

Record member_ok (x : MemberState) : Prop := {
  ok_strikes : (0 <= strikes x < PASSIVE_STRIKES)%Z;
  ok_level : (0 <= level x < 256)%Z;
  ok_blocked : is_Some (blocked_until x) <-> (0 < level x)%Z;
  ok_rest : (0 < level x)%Z -> strikes x = 0%Z;
}.

Record state_ok (s : TargetState) : Prop := {
  ok_owners : NoDup (owners s) /\ length (owners s) <= MAX_OWNERS;
  ok_failing : NoDup (failing s) /\ length (failing s) <= S BLAMED_MEMBERS;
  ok_members : map_Forall (fun _ x => member_ok x) (members s);
}.

Record health_ok (h : ChainHealth) : Prop := {
  ok_size : size (targets h) <= MAX_TARGETS;
  ok_states : map_Forall (fun _ s => state_ok s) (targets h);
  ok_carriers : carriers h = false -> map_Forall (fun _ s => carrier s = None) (targets h);
}.

Lemma new_target_ok now : state_ok (new_target now).
Proof. split; [by split; [constructor|cbn; unfold MAX_OWNERS; lia]|by split; [constructor|cbn; lia]|apply map_Forall_empty]. Qed.

Lemma set_used_ok s now : state_ok s -> state_ok (set_used s now).
Proof. by intros [? ? ?]. Qed.

Lemma oldest_in l : l <> [] -> exists x, oldest l = Some x /\ x ∈ l.
Proof.
  induction l as [|x l IH]; [done|]. intros _. cbn. destruct (decide (l = [])) as [->|Hl].
  - exists x. cbn. split; [done|]. apply list_elem_of_here.
  - destruct IH as (y & -> & Hy); [done|]. eexists. split; [done|].
    destruct (_ <? _)%Z; [by apply list_elem_of_further|apply list_elem_of_here].
Qed.

Definition states_ok (track : bool) (ts : gmap ChainTarget TargetState) : Prop :=
  map_Forall (fun _ s => state_ok s) ts /\ (track = false -> map_Forall (fun _ s => carrier s = None) ts).

(** A table with the state [s] for its target, the others in order. *)
Definition table_with (track : bool) (ts : gmap ChainTarget TargetState) (t : ChainTarget) (s : TargetState) : Prop :=
  size ts <= MAX_TARGETS /\ exists rest, ts = <[t := s]> rest /\ states_ok track rest.

(** The entry of a target, in a table that had room or made it. *)
Lemma entry_ok h t now ts s :
  health_ok h -> entry (targets h) t now = (ts, s) ->
  state_ok s /\ (carriers h = false -> carrier s = None) /\
  table_with (carriers h) ts t s.
Proof.
  intros [Hsz Hst Hca]. unfold entry. match goal with |- context [<[t := _]> ?x] => set (rest := x) end. intros [= <- <-].
  assert (Hsub : rest ⊆ targets h).
  { unfold rest. destruct (_ && _); [|done]. destruct (oldest _) as [[? ?]|]; [apply delete_subseteq|done]. }
  assert (states_ok (carriers h) rest) as [Hr Hr2].
  { split; [intros k x Hx; apply (Hst k)|intros Hc k x Hx; apply (Hca Hc k)]; by eapply lookup_weaken. }
  split_and!.
  - apply set_used_ok. destruct (rest !! t) eqn:E; [by eapply Hr|apply new_target_ok].
  - intros Hc. destruct (rest !! t) eqn:E; cbn; [by eapply (Hr2 Hc)|done].
  - split; [|by exists rest]. destruct (decide (rest !! t = None)) as [Hn|Hn].
    + rewrite map_size_insert_None by done. unfold rest in *. destruct (decide (targets h !! t = None)) as [Ht|Ht].
      * rewrite bool_decide_eq_true_2 by done. cbn [andb]. destruct (MAX_TARGETS <=? size (targets h)) eqn:El; [|apply Nat.leb_gt in El; lia].
        apply Nat.leb_le in El. destruct (oldest_in (target_order (targets h))) as ([t' x] & -> & Hin).
        { intros E0. assert (Hp := target_order_perm (targets h)). rewrite E0 in Hp. apply Permutation_nil_l in Hp.
          symmetry in Hp. apply map_to_list_empty_iff in Hp. rewrite Hp, map_size_empty in El. unfold MAX_TARGETS in El. lia. }
        rewrite target_order_perm, elem_of_map_to_list in Hin. rewrite map_size_delete_Some by (by eexists). unfold MAX_TARGETS in *. lia.
      * rewrite bool_decide_eq_false_2 in Hn by done. by cbn in Hn.
    + rewrite map_size_insert_Some by (destruct (rest !! t); [by eexists|done]). apply map_subseteq_size in Hsub. lia.
Qed.

Lemma with_state_ok h ts t s y :
  table_with (carriers h) ts t y ->
  state_ok s -> (carriers h = false -> carrier s = None) -> health_ok (with_state h ts t s).
Proof.
  intros (Hsz & rest & -> & Hr & Hr2) Hs Hc. unfold with_state. split; cbn [targets carriers].
  - by rewrite map_size_insert_Some by (rewrite lookup_insert_eq; by eexists).
  - rewrite insert_insert_eq. by apply map_Forall_insert_2.
  - intros E. rewrite insert_insert_eq. apply map_Forall_insert_2; auto.
Qed.

Lemma block_ok x now hold : (0 <= level x < 256)%Z -> member_ok (block x now hold).1.
Proof.
  intros H. unfold block. split; cbn [fst strikes level blocked_until]; unfold sat_succ8, PASSIVE_STRIKES; [lia|lia| |lia].
  split; [intros _; lia|intros _; by eexists].
Qed.

Lemma member_failed_ok x v why now : member_ok x -> member_ok (member_failed x v why now).1.
Proof.
  intros Hok. unfold member_failed. set (m := mkMember (strikes x) (level x) (blocked_until x) why).
  assert (Hm : member_ok m) by (by destruct Hok; split). destruct v as [|hold].
  - destruct (blocked_at m now); [done|]. cbn [level strikes].
    destruct ((0 <? level m)%Z || (PASSIVE_STRIKES <=? sat_succ8 (strikes m))%Z) eqn:E.
    + set (m' := mkMember _ _ _ _). assert (Hb : member_ok (block m' now 0).1) by apply block_ok, (ok_level m Hm).
      by destruct (block m' now 0).
    + apply orb_false_iff in E as [E1 E2]. apply Z.ltb_ge in E1. apply Z.leb_gt in E2. destruct Hm as [H1 H2 H3 H4].
      split; cbn [strikes level blocked_until fst]; [unfold sat_succ8 in *; lia|done|done|lia].
  - destruct (blocked_at m now) eqn:E.
    + destruct Hm as [H1 H2 H3 H4]. split; cbn [fst strikes level blocked_until]; [done|done| |done].
      split; [intros _; apply H3|intros _; by eexists]. unfold blocked_at in E. by destruct (blocked_until m).
    + pose proof (block_ok m now hold (ok_level m Hm)). by destruct (block m now hold).
Qed.

Lemma add_owner_ok h t o now : health_ok h -> health_ok (add_owner h t o now).
Proof.
  intros Hok. unfold add_owner. destruct (entry (targets h) t now) as [ts s] eqn:E.
  destruct (entry_ok h t now ts s Hok E) as (Hs & Hc & Hr). case_bool_decide as Ho; eapply with_state_ok; eauto.
  destruct Hs as [[Hn Hl] Hf Hm]. split; [|done|done]. cbn [owners set_owners].
  match goal with |- context [?x ++ [o]] => set (kept := x) end. assert (Hk : kept `sublist_of` owners s).
  { unfold kept. destruct (_ <=? _); [apply sublist_drop|done]. }
  split.
  - apply NoDup_app. split_and!; [by eapply sublist_NoDup| |apply NoDup_singleton]. intros x Hx Hx2. apply list_elem_of_singleton in Hx2. subst.
    apply Ho. by eapply elem_of_sublist.
  - rewrite length_app. cbn. unfold kept, MAX_OWNERS in *. destruct (4 <=? length (owners s)) eqn:E2; [rewrite length_drop|apply Nat.leb_gt in E2]; lia.
Qed.

Lemma settle_reach_ok h t m r now : health_ok h -> health_ok (settle_reach h t m r now).1.
Proof.
  intros Hok. unfold settle_reach. destruct (if carriers h then _ else _) as [[ts s]|] eqn:E; [|done].
  assert (state_ok s /\ (carriers h = false -> carrier s = None) /\
    table_with (carriers h) ts t s) as (Hs & Hc & Hr).
  { destruct (carriers h) eqn:Hc; [simplify_eq|].
    - destruct (entry_ok h t now ts s Hok) as (H1 & _ & H2); [done|]. rewrite Hc in H2. by split_and!.
    - destruct (targets h !! t) as [s'|] eqn:Ht; cbn in E; simplify_eq. destruct Hok as [H1 H2 H3].
      split_and!; [by eapply H2|intros _; by eapply H3|]. split; [done|]. exists (targets h). rewrite insert_id by done. split; [done|]. by split; [|intros _; apply H3]. }
  assert (Hs' : forall c, state_ok (mkTarget (owners s) (delete m (members s)) [] c (used s))).
  { intros c. destruct Hs as [H1 H2 H3]. split; cbn; [done|split; [constructor|lia]|by apply map_Forall_delete]. }
  destruct (negb (carriers h) || _) eqn:En; [eapply with_state_ok; eauto; apply Hs'|].
  apply orb_false_iff in En as [En _]. apply negb_false_iff in En. destruct (negb _); [eapply with_state_ok; eauto; apply Hs'|].
  destruct (carrier _); cbn [fst]; eapply with_state_ok; eauto; try apply Hs'; congruence.
Qed.

Lemma exec_ok h c : health_ok h -> health_ok (exec h c).1.
Proof.
  intros Hok. destruct c as [t op now]. unfold exec. cbn [c_target c_op c_now]. destruct op as [o|m r|m|m v why].
  - cbn [fst]. unfold note_owner. destruct (targets h !! t); [case_bool_decide|]; auto using add_owner_ok.
  - pose proof (settle_reach_ok h t m r now Hok) as H. unfold reached_at. destruct (nothing_to_do h t m r now); [done|].
    by destruct (settle_reach h t m r now).
  - unfold blame. destruct (entry (targets h) t now) as [ts s] eqn:E. destruct (entry_ok h t now ts s Hok E) as (Hs & Hc & Hr).
    unfold state_blame. cbn [fst]. eapply with_state_ok; eauto. destruct Hs as [H1 [H2 H3] H4]. split; [done| |done]. cbn [failing set_failing].
    destruct (length (failing s) <=? BLAMED_MEMBERS) eqn:El; cbn [andb]; [|done]. case_bool_decide as Hm; cbn [negb]; [done|].
    apply Nat.leb_le in El. split; [|rewrite length_app; cbn; lia].
    apply NoDup_app. split_and!; [done| |apply NoDup_singleton]. intros x Hx Hx2. apply list_elem_of_singleton in Hx2. by subst.
  - unfold failed_at. destruct (entry (targets h) t now) as [ts s] eqn:E. destruct (entry_ok h t now ts s Hok E) as (Hs & Hc & Hr).
    set (x := default default_member (members s !! m)). assert (Hx : member_ok x).
    { unfold x. destruct (members s !! m) eqn:Em; [by eapply (ok_members s Hs)|]. split; cbn; unfold PASSIVE_STRIKES; try lia.
      split; [by intros [? ?]|lia]. }
    pose proof (member_failed_ok x v why now Hx) as Hf. destruct (member_failed x v why now) as [x' l]. cbn [fst] in *.
    eapply with_state_ok; eauto. destruct Hs as [H1 H2 H3]. split; [done|done|]. cbn. by apply map_Forall_insert_2.
Qed.

(** C30: whatever is recorded, a table stays well formed: at most 64 targets,
    of each at most four distinct owners and four distinct failing members;
    the counters of a member within their width, a level exactly when it was
    blocked, and no strike kept beside a level; and no carrier in a table that
    does not track them. *)
Theorem chain_table_well_formed (track : bool) (cs : list Call) : health_ok (run (mkHealth ∅ track) cs).1.
Proof.
  assert (H0 : health_ok (mkHealth ∅ track)).
  { split; cbn; [rewrite map_size_empty; unfold MAX_TARGETS; lia|apply map_Forall_empty|intros _; apply map_Forall_empty]. }
  revert H0. generalize (mkHealth ∅ track). induction cs as [|c cs IH]; intros h H; [done|]. cbn [run].
  pose proof (exec_ok h c H) as He. destruct (exec h c) as [h1 a]. specialize (IH h1 He). by destruct (run h1 cs).
Qed.

End Table.

(** ** Two servers and three members *)

Definition srv : ChainTarget := Host (b! "srv.example") 443.
Definition other : ChainTarget := Host (b! "other.example") 443.
Definition both : gset ChainTarget := {[srv; other]}.

Definition failed (t : ChainTarget) (m : bytes) (now : Z) : Call := mkCall t (Failed m Passive (b! "timed out")) (secs now).
Definition blames (t : ChainTarget) (m : bytes) (now : Z) : Call := mkCall t (Blamed m) (secs now).

(** Three failures of one member, the second one block long before the
    third, with failures of others and elsewhere between them. *)
Definition sample_calls : list Call :=
  [ mkCall srv (NoteOwner (b! "exit")) 0; failed srv (b! "hk") 0; failed other (b! "hk") 1; failed srv (b! "hk") 10;
    failed srv (b! "hk") 20; failed srv (b! "jp") 30; mkCall srv (Reached (b! "jp") Dial) (secs 40); failed srv (b! "hk") 400 ].

Lemma both_room : size both <= MAX_TARGETS.
Proof. by apply Nat.leb_le; vm_compute. Qed.

Lemma chain_targets_independent_witness :
  (own_run true None (calls_of srv sample_calls)).2 =
    [Nothing; Blocks None; Blocks (Some (secs 300)); Blocks None; Blocks None; Change None; Blocks (Some (secs 600))] /\
  answers_of srv sample_calls (run (mkHealth ∅ true) sample_calls).2 = (own_run true None (calls_of srv sample_calls)).2.
Proof.
  split; [by vm_compute|]. rewrite (chain_targets_independent true both sample_calls srv); [done|apply both_room|].
  repeat constructor; set_solver.
Defined.

Lemma chain_block_backs_off_witness :
  is_blocked_at (run (mkHealth ∅ true) sample_calls).1 srv (b! "hk") (secs 999) = true /\
  is_blocked_at (run (mkHealth ∅ true) sample_calls).1 srv (b! "hk") (secs 1000) = false /\
  is_blocked_at (run (mkHealth ∅ true) sample_calls).1 other (b! "hk") (secs 401) = false.
Proof.
  split_and!; rewrite (chain_block_backs_off true both); try (by vm_compute); try apply both_room; repeat constructor; set_solver.
Defined.

Lemma chain_table_well_formed_witness :
  let h := (run (mkHealth ∅ true) sample_calls).1 in health_ok h /\ size (targets h) = 2 /\ carrier_of h srv = Some (b! "jp").
Proof. split; [apply (chain_table_well_formed true sample_calls)|]. by vm_compute. Defined.

(** The fourth member to fail a server is not the one at fault. *)
Definition blamed_calls : list Call := [blames srv (b! "a") 1; blames srv (b! "b") 2; blames srv (b! "a") 3; blames srv (b! "c") 4].

Lemma chain_blame_exact_witness :
  (blame (run (mkHealth ∅ true) blamed_calls).1 srv (b! "d") (secs 5)).2 = BlameTarget /\
  (blame (run (mkHealth ∅ true) blamed_calls).1 srv (b! "b") (secs 5)).2 = BlameMember.
Proof.
  split; rewrite (chain_blame_exact true both); try (by vm_compute); try apply both_room; try set_solver; repeat constructor; set_solver.
Defined.

End ChainTheorems.
