(* ===== verification/SelectorStore.v ===== *)
(** * The persistent choices (crates/meow-proxy/src/group/selector_store.rs)

    The map from groups to chosen members, the file behind it, and concurrent
    calls of [set], each a sequence of atomic steps: the look and the update
    under the lock of the map, and the snapshot and the write under the lock of
    the writers. The file is what it decodes to; a write replaces it or fails,
    as the rename does. *)

From stdpp Require Import gmap.
From S2P Require Import Prelude Strings.

Module SelectorStore.

Definition Choices := gmap bytes bytes.

(** [Choices] decoded from the file; a file missing, unreadable or malformed
    counts as empty. *)
Definition decoded (file : option (option Choices)) : Choices :=
  match file with Some (Some m) => m | _ => ∅ end.

(** Where a call of [set] is. *)
Inductive Phase :=
  | Started (group selected : bytes)
  | Inserting (group selected : bytes)
  | Marking
  | Waiting
  | Holding
  | Writing (snapshot : Choices)
  | Wrote (ok : bool).

(** The store, its locks by holder, the file, and the calls in flight. *)
Record Store := mkStore {
  choices : Choices;
  dirty : bool;
  map_lock : option nat;
  write_lock : option nat;
  disk : Choices;
  calls : gmap nat Phase;
}.

Definition open (file : option (option Choices)) : Store := mkStore (decoded file) false None None (decoded file) ∅.

Definition get (s : Store) (group : bytes) : option bytes := choices s !! group.

(** One step of the call [i]; a write that ends reports whether it succeeded.
    [None] where the step waits for a lock. *)
Definition advance (s : Store) (i : nat) (ph : Phase) (write_ok : bool) : option Store :=
  match ph with
  | Started g v =>
      match map_lock s with
      | Some _ => None
      | None =>
          if bool_decide (choices s !! g = Some v) && negb (dirty s)
          then Some (mkStore (choices s) (dirty s) None (write_lock s) (disk s) (delete i (calls s)))
          else Some (mkStore (choices s) (dirty s) (Some i) (write_lock s) (disk s) (<[i := Inserting g v]> (calls s)))
      end
  | Inserting g v =>
      Some (mkStore (<[g := v]> (choices s)) (dirty s) (map_lock s) (write_lock s) (disk s) (<[i := Marking]> (calls s)))
  | Marking => Some (mkStore (choices s) true None (write_lock s) (disk s) (<[i := Waiting]> (calls s)))
  | Waiting =>
      match write_lock s with
      | Some _ => None
      | None => Some (mkStore (choices s) (dirty s) (map_lock s) (Some i) (disk s) (<[i := Holding]> (calls s)))
      end
  | Holding =>
      match map_lock s with
      | Some _ => None
      | None => Some (mkStore (choices s) (dirty s) None (write_lock s) (disk s) (<[i := Writing (choices s)]> (calls s)))
      end
  | Writing snapshot =>
      Some (mkStore (choices s) (dirty s) (map_lock s) (write_lock s) (if write_ok then snapshot else disk s)
              (<[i := Wrote write_ok]> (calls s)))
  | Wrote ok => Some (mkStore (choices s) (negb ok) (map_lock s) None (disk s) (delete i (calls s)))
  end.

(** A call that starts, or a step of one in flight, with how the last write
    to the file ended. *)
Inductive step : Store * option bool -> Store * option bool -> Prop :=
  | step_call s w i g v :
      calls s !! i = None ->
      step (s, w) (mkStore (choices s) (dirty s) (map_lock s) (write_lock s) (disk s) (<[i := Started g v]> (calls s)), w)
  | step_advance s w i ph ok s' :
      calls s !! i = Some ph -> advance s i ph ok = Some s' ->
      step (s, w) (s', match ph with Writing _ => Some ok | _ => w end).

(** ** Invariant *)

(** The calls that will still take a snapshot of what is there now. *)
Definition pending (ph : Phase) : bool := match ph with Marking | Waiting | Holding => true | _ => false end.

Definition holds_map (ph : Phase) : bool := match ph with Inserting _ _ | Marking => true | _ => false end.
Definition holds_write (ph : Phase) : bool := match ph with Holding | Writing _ | Wrote _ => true | _ => false end.
Definition wrote (ph : Phase) : bool := match ph with Writing _ | Wrote _ => true | _ => false end.

(** A lock is held by the one call in a phase that holds it. *)
Definition holder (P : Phase -> bool) (l : option nat) (cs : gmap nat Phase) : Prop :=
  forall i, l = Some i <-> exists ph, cs !! i = Some ph /\ P ph = true.

Definition locks_ok (s : Store) : Prop :=
  holder holds_map (map_lock s) (calls s) /\ holder holds_write (write_lock s) (calls s).

(** Nobody takes a snapshot any more: what a writer has, or the file, is the
    map. *)
Definition settled (s : Store) (w : option bool) : Prop :=
  (forall i snapshot, calls s !! i = Some (Writing snapshot) -> snapshot = choices s) /\
  (forall i ok, calls s !! i = Some (Wrote ok) -> w = Some ok /\ (ok = true -> disk s = choices s)) /\
  ((forall i ph, calls s !! i = Some ph -> wrote ph = false) ->
    (dirty s = false -> disk s = choices s) /\ (forall ok, w = Some ok -> dirty s = negb ok)).

Definition store_ok (x : Store * option bool) : Prop :=
  locks_ok x.1 /\ ((exists i ph, calls x.1 !! i = Some ph /\ pending ph = true) \/ settled x.1 x.2).

(** The call [i] moves to [new], or ends, and its lock with it. *)
Definition moved (P : Phase -> bool) (i : nat) (old new : option Phase) (l : option nat) : option nat :=
  match from_option P false old, from_option P false new with
  | false, true => Some i
  | true, false => None
  | _, _ => l
  end.

Lemma in_phase (P : Phase -> bool) (o : option Phase) : (exists ph, o = Some ph /\ P ph = true) <-> from_option P false o = true.
Proof. destruct o as [ph|]; cbn; [|by split; [intros (? & ? & _)|]]. split; [by intros (? & [= ->] & ?)|by eexists]. Qed.

Lemma holder_moved P l cs i new :
  holder P l cs -> (from_option P false (cs !! i) = false -> from_option P false new = true -> l = None) ->
  holder P (moved P i (cs !! i) new l) (partial_alter (fun _ => new) i cs).
Proof.
  intros H Hl j. unfold moved. pose proof (H i) as Hi. pose proof (H j) as Hj. rewrite in_phase in *. destruct (decide (i = j)) as [<-|Hne].
  - rewrite lookup_partial_alter_eq. destruct (from_option P false (cs !! i)), (from_option P false new); [done|done|done|done].
  - rewrite lookup_partial_alter_ne by done. rewrite <- Hj. destruct (from_option P false (cs !! i)), (from_option P false new); try done.
    + destruct Hi as [_ Hi]. rewrite Hi by done. split; [done|congruence].
    + rewrite Hl by done. split; [congruence|done].
Qed.

Lemma locks_moved s i new c d f :
  locks_ok s ->
  (from_option holds_map false (calls s !! i) = false -> from_option holds_map false new = true -> map_lock s = None) ->
  (from_option holds_write false (calls s !! i) = false -> from_option holds_write false new = true -> write_lock s = None) ->
  locks_ok (mkStore c d (moved holds_map i (calls s !! i) new (map_lock s)) (moved holds_write i (calls s !! i) new (write_lock s)) f
              (partial_alter (fun _ => new) i (calls s))).
Proof. intros [H1 H2] Hm Hw. split; cbn; by apply holder_moved. Qed.

Lemma step_locks x y : step x y -> locks_ok x.1 -> locks_ok y.1.
Proof.
  intros [s w i g v Hi|s w i ph ok s' Hi Ha] H; cbn [fst] in *.
  - pose proof (locks_moved s i (Some (Started g v)) (choices s) (dirty s) (disk s) H) as L. rewrite Hi in L. by apply L.
  - assert (Hb : exists new c d f, s' = mkStore c d (moved holds_map i (Some ph) new (map_lock s)) (moved holds_write i (Some ph) new (write_lock s)) f
                (partial_alter (fun _ => new) i (calls s)) /\
              (holds_map ph = false -> from_option holds_map false new = true -> map_lock s = None) /\
              (holds_write ph = false -> from_option holds_write false new = true -> write_lock s = None)).
    { destruct ph; cbn [advance] in Ha;
        [destruct (map_lock s); [done|]; destruct (_ && _)| | |destruct (write_lock s); [done|]|destruct (map_lock s); [done|]| |]; injection Ha as <-;
        [exists None|exists (Some (Inserting group selected))|exists (Some Marking)|exists (Some Waiting)|exists (Some Holding)
        |exists (Some (Writing (choices s)))|exists (Some (Wrote ok))|exists None]; eexists _, _, _; (split; [reflexivity|done]). }
    destruct Hb as (new & c & d & f & -> & Hm & Hw). rewrite <- Hi. apply locks_moved; [done| |]; rewrite Hi; by cbn.
Qed.

Lemma one_writer s i j ph ph' :
  locks_ok s -> calls s !! i = Some ph -> holds_write ph = true -> calls s !! j = Some ph' -> holds_write ph' = true -> i = j.
Proof.
  intros [_ H] Hi Hp Hj Hp'. assert (write_lock s = Some i) by (apply H; by eexists).
  assert (write_lock s = Some j) by (apply H; by eexists). congruence.
Qed.

Definition has_pending (cs : gmap nat Phase) : Prop := exists i ph, cs !! i = Some ph /\ pending ph = true.

Lemma pending_stays cs i new :
  has_pending cs -> from_option pending false (cs !! i) = false -> has_pending (partial_alter (fun _ => new) i cs).
Proof.
  intros (j & ph & Hj & Hp) Hi. exists j, ph. split; [|done]. rewrite lookup_partial_alter_ne; [done|].
  intros ->. rewrite Hj in Hi. cbn in Hi. congruence.
Qed.

(** A call that neither writes nor wrote moves without writing. *)
Lemma settled_stays s w i new ml wl :
  settled s w -> from_option wrote false (calls s !! i) = false -> from_option wrote false new = false ->
  settled (mkStore (choices s) (dirty s) ml wl (disk s) (partial_alter (fun _ => new) i (calls s))) w.
Proof.
  intros (H1 & H2 & H3) Ho Hn. unfold settled. cbn.
  assert (Hl : forall j ph, wrote ph = true -> partial_alter (fun _ => new) i (calls s) !! j = Some ph -> calls s !! j = Some ph).
  { intros j ph Hw Hj. destruct (decide (i = j)) as [<-|Hne]; [|by rewrite lookup_partial_alter_ne in Hj].
    rewrite lookup_partial_alter_eq in Hj. subst. cbn in Hn. congruence. }
  split_and!; [eauto|eauto|]. intros Hq. apply H3. intros j ph Hj. destruct (decide (i = j)) as [<-|Hne].
  - by rewrite Hj in Ho.
  - apply (Hq j). by rewrite lookup_partial_alter_ne.
Qed.

(** What follows the moves of the one writer. *)
Lemma settled_snapshot s w i ml wl :
  locks_ok s -> calls s !! i = Some Holding ->
  settled (mkStore (choices s) (dirty s) ml wl (disk s) (<[i := Writing (choices s)]> (calls s))) w.
Proof.
  intros Hl Hi. unfold settled. cbn.
  assert (Hj : forall j ph, wrote ph = true -> <[i := Writing (choices s)]> (calls s) !! j = Some ph -> j = i /\ ph = Writing (choices s)).
  { intros j ph Hw [[-> ->]|[Hne Hj]]%lookup_insert_Some; [done|]. exfalso. apply Hne. eapply (one_writer s); eauto. by destruct ph. }
  split_and!.
  - intros j x Hx. by apply Hj in Hx as [_ [= ->]].
  - intros j ok Hx. by apply Hj in Hx as [_ ?].
  - intros Hq. specialize (Hq i (Writing (choices s)) (lookup_insert_eq _ _ _)). done.
Qed.

Lemma settled_wrote s w i (ok : bool) snapshot ml wl :
  locks_ok s -> calls s !! i = Some (Writing snapshot) -> settled s w ->
  settled (mkStore (choices s) (dirty s) ml wl (if ok then snapshot else disk s) (<[i := Wrote ok]> (calls s))) (Some ok).
Proof.
  intros Hl Hi (H1 & _ & _). pose proof (H1 i snapshot Hi) as Hs. unfold settled. cbn.
  assert (Hj : forall j ph, wrote ph = true -> <[i := Wrote ok]> (calls s) !! j = Some ph -> j = i /\ ph = Wrote ok).
  { intros j ph Hw [[-> ->]|[Hne Hj]]%lookup_insert_Some; [done|]. exfalso. apply Hne. eapply (one_writer s); eauto. by destruct ph. }
  split_and!.
  - intros j x Hx. by apply Hj in Hx as [_ ?].
  - intros j ok' Hx. apply Hj in Hx as [_ [= ->]]; [|done]. split; [done|]. by intros ->.
  - intros Hq. specialize (Hq i (Wrote ok) (lookup_insert_eq _ _ _)). done.
Qed.

Lemma settled_released s w i ok ml wl :
  locks_ok s -> calls s !! i = Some (Wrote ok) -> settled s w ->
  settled (mkStore (choices s) (negb ok) ml wl (disk s) (delete i (calls s))) w.
Proof.
  intros Hl Hi (_ & H2 & _). destruct (H2 i ok Hi) as [-> Hd].
  assert (Hj : forall j ph, wrote ph = true -> delete i (calls s) !! j <> Some ph).
  { intros j ph Hw [Hne Hj]%lookup_delete_Some. apply Hne. eapply (one_writer s); eauto. by destruct ph. }
  unfold settled. cbn. split_and!.
  - intros j x Hx. by apply Hj in Hx.
  - intros j x Hx. by apply Hj in Hx.
  - intros _. split; [intros E; apply Hd; by destruct ok|by intros ? [= ->]].
Qed.

Lemma store_step_ok x y : step x y -> store_ok x -> store_ok y.
Proof.
  intros Hs [Hl Hx]. split; [by eapply step_locks|]. destruct Hs as [s w i g v Hi|s w i ph ok s' Hi Ha]; cbn [fst snd] in *.
  - destruct Hx as [Hx|Hx]; [left; apply (pending_stays (calls s) i (Some (Started g v))); [done|by rewrite Hi]|].
    right. apply (settled_stays s w i (Some (Started g v))); [done|by rewrite Hi|done].
  - destruct ph as [g v|g v| | | |snapshot|b]; cbn [advance] in Ha.
    + destruct (map_lock s); [done|]. destruct (_ && _); injection Ha as <-.
      * destruct Hx as [Hx|Hx]; [left; apply (pending_stays (calls s) i None); [done|by rewrite Hi]|].
        right. apply (settled_stays s w i None); [done|by rewrite Hi|done].
      * destruct Hx as [Hx|Hx]; [left; apply (pending_stays (calls s) i (Some (Inserting g v))); [done|by rewrite Hi]|].
        right. apply (settled_stays s w i (Some (Inserting g v))); [done|by rewrite Hi|done].
    + injection Ha as <-. left. exists i, Marking. cbn. by rewrite lookup_insert_eq.
    + injection Ha as <-. left. exists i, Waiting. cbn. by rewrite lookup_insert_eq.
    + destruct (write_lock s); [done|]. injection Ha as <-. left. exists i, Holding. cbn. by rewrite lookup_insert_eq.
    + destruct (map_lock s); [done|]. injection Ha as <-. right. by apply settled_snapshot.
    + injection Ha as <-. destruct Hx as [Hx|Hx]; [left; apply (pending_stays (calls s) i (Some (Wrote ok))); [done|by rewrite Hi]|].
      right. by eapply settled_wrote.
    + injection Ha as <-. destruct Hx as [Hx|Hx]; [left; apply (pending_stays (calls s) i None); [done|by rewrite Hi]|].
      right. by apply settled_released.
Qed.

Lemma open_ok file : store_ok (open file, None).
Proof.
  split.
  - split; intros i; cbn; (split; [done|]); intros (? & H & _); by rewrite lookup_empty in H.
  - right. unfold settled. cbn. by split_and!; intros *; rewrite ?lookup_empty.
Qed.

(** C9: choices survive concurrent calls of [set], whatever their
    interleaving and the failures of writes. Once no call is in flight, a
    store that is not marked dirty has in its file what it has in memory, so
    opening the file again gives every choice back; if the last write to the
    file succeeded, that is so; and if it failed, the store is marked dirty,
    so that choosing the same again is not skipped. *)
Theorem choices_persist (file : option (option Choices)) (s : Store) (w : option bool) :
  rtc step (open file, None) (s, w) -> calls s = ∅ ->
  (dirty s = false -> forall g, get (open (Some (Some (disk s)))) g = get s g) /\
  (w = Some true -> disk s = choices s) /\
  (w = Some false -> dirty s = true).
Proof.
  intros Hr He. assert (Hok : store_ok (s, w)).
  { assert (H0 : store_ok (open file, None)) by apply open_ok. induction Hr; eauto using store_step_ok. }
  destruct Hok as [_ [(i & ph & Hi & _)|(_ & _ & H)]]; cbn in *; rewrite He in *; [by rewrite lookup_empty in Hi|].
  destruct H as [H1 H2]; [intros i ph Hi; by rewrite lookup_empty in Hi|]. split_and!.
  - intros Hd g. unfold get. cbn. by rewrite H1.
  - intros ->. apply H1. exact (H2 true eq_refl).
  - intros ->. exact (H2 false eq_refl).
Qed.

(** ** A schedule *)

Inductive Act := Call (i : nat) (group selected : bytes) | Next (i : nat) (write_ok : bool).

Definition act (x : Store * option bool) (a : Act) : option (Store * option bool) :=
  let '(s, w) := x in
  match a with
  | Call i g v =>
      match calls s !! i with
      | Some _ => None
      | None => Some (mkStore (choices s) (dirty s) (map_lock s) (write_lock s) (disk s) (<[i := Started g v]> (calls s)), w)
      end
  | Next i ok =>
      ph ← calls s !! i;
      s' ← advance s i ph ok;
      Some (s', match ph with Writing _ => Some ok | _ => w end)
  end.

Fixpoint schedule (x : Store * option bool) (l : list Act) : option (Store * option bool) :=
  match l with [] => Some x | a :: l => y ← act x a; schedule y l end.

Lemma schedule_steps l x y : schedule x l = Some y -> rtc step x y.
Proof.
  revert x. induction l as [|a l IH]; intros x H; [by injection H as ->|]. cbn in H.
  destruct (act x a) as [z|] eqn:E; [|done]. eapply rtc_l; [|by apply IH]. destruct x as [s w], a as [i g v|i ok]; cbn in E.
  - destruct (calls s !! i) eqn:Hi; [done|]. injection E as <-. by constructor.
  - destruct (calls s !! i) as [ph|] eqn:Hi; [|done]. cbn in E. destruct (advance s i ph ok) as [s'|] eqn:Ha; [|done].
    injection E as <-. by econstructor.
Qed.

(** Two calls overlap: the second choice is made while the first is being
    written, and its own write fails; a third call of the same choice is not
    skipped, and repairs the file. *)
Definition overlap : list Act :=
  [ Call 1 (b! "g") (b! "a"); Next 1 true; Next 1 true; Next 1 true; Next 1 true; Next 1 true;
    Call 2 (b! "g") (b! "b"); Next 2 true; Next 2 true; Next 2 true;
    Next 1 true; Next 1 true; Next 2 true; Next 2 true; Next 2 false; Next 2 true;
    Call 3 (b! "g") (b! "b"); Next 3 true; Next 3 true; Next 3 true; Next 3 true; Next 3 true; Next 3 true; Next 3 true ].

Definition overlapped : Store * option bool := default (open None, None) (schedule (open None, None) overlap).

Lemma choices_persist_witness :
  overlapped.2 = Some true /\ dirty overlapped.1 = false /\ get (open (Some (Some (disk overlapped.1)))) (b! "g") = Some (b! "b").
Proof.
  assert (Hr : rtc step (open None, None) (overlapped.1, overlapped.2)) by (apply (schedule_steps overlap); by vm_compute).
  split_and!; [by vm_compute|by vm_compute|].
  destruct (choices_persist None _ _ Hr) as [H _]; [by vm_compute|]. rewrite H; by vm_compute.
Defined.

End SelectorStore.
