(* ===== verification/Groups.v ===== *)
(** * What proxy groups share (crates/meow-proxy/src/group/mod.rs)

    Members, the count of uses, the escalation of dial failures, the choice of
    a member for a front hop, and the stream that judges the member on its
    first read. A member is what its methods answer while a choice is made; the
    clock is an argument, read once where the code reads it for each test. *)

From stdpp Require Import gmap.
From S2P Require Import Prelude Strings Ip Metadata HostNames ChainHealth Errors.

Module Groups.
Import Metadata ChainHealth Errors.

Inductive AdapterType :=
  | Direct | Reject | RejectDrop | Selector | Fallback | UrlTest | LoadBalance | Relay | AShadowsocks | ASocks5 | AHttp
  | AVmess | AVless | ATrojan | AHysteria2 | TrustTunnel | Anytls | Snell | Pass | PassRule | Compatible.

(** [dyn Proxy]: name, kind, liveness, last delay, UDP, and whether it is an
    automatic group itself. *)
Record Member := mkMemberProxy {
  p_name : bytes;
  p_type : AdapterType;
  p_alive : bool;
  p_alive_for : bytes -> bool;
  p_delay : Z;
  p_udp : bool;
  p_judges : bool;
}.

(** The static members, and those of each provider slot. Every loop over the
    members goes through them in this order. *)
Record Members := mkMembers { static_proxies : list Member; provider_slots : list (list Member) }.

Definition member_proxy_list (m : Members) : list Member := static_proxies m ++ concat (provider_slots m).

Definition member_names (m : Members) : list bytes := p_name <$> member_proxy_list m.

Definition named (name : bytes) (p : Member) : bool := bool_decide (p_name p = name).

Definition find_member (m : Members) (name : bytes) : option Member := List.find (named name) (member_proxy_list m).

Definition contains_name (m : Members) (name : bytes) : bool := existsb (named name) (member_proxy_list m).

Definition or_else {A} (a b : option A) : option A := match a with Some x => Some x | None => b end.

(** A group and the member a dial takes, with the front hop's target. *)
Definition Picked (G : Type) : Type := (G * option (Member * option ChainTarget))%type.

Definition GROUP_TEST_URL : bytes := b! "https://www.gstatic.com/generate_204".

(** The call of the store that saves a choice: the group and the member. *)
Definition StoreCall : Type := option (bytes * bytes).

(** ** Uses *)

(** An atomic counter of 64 bits, which wraps. *)
Definition touch (usage : Z) : Z := (usage + 1) mod 2 ^ 64.

Definition touch_user_traffic (usage : Z) (m : Metadata) : Z := if is_internal m then usage else touch usage.

(** ** Dial failures *)

Definition DIAL_FAILURE_THRESHOLD : Z := 5.
Definition DIAL_FAILURE_WINDOW : Z := secs 5.

Record DialFailureState := mkFailures { count : Z; first_at : option Z }.

Definition no_failures : DialFailureState := mkFailures 0 None.

Definition on_success (s : DialFailureState) : DialFailureState := no_failures.

Section Failures.
Context `{OE : OsErrors}.

(** A failure that may count: not the member's lack of a capability, and not a
    shortage of ours. *)
Definition on_failure (s : DialFailureState) (err : MeowError) (now : Z) : DialFailureState * bool :=
  if is_capability_error err || is_local_resource_error err then (s, false)
  else if contains (b! "refused") (to_string err) then (s, true)
  else
    let n := (count s + 1)%Z in
    if (n =? 1)%Z then (mkFailures n (Some now), false)
    else if match first_at s with Some at_ => (DIAL_FAILURE_WINDOW <? now - at_)%Z | None => false end then (no_failures, false)
    else if (DIAL_FAILURE_THRESHOLD <=? n)%Z then (no_failures, true)
    else (mkFailures n (first_at s), false).

(** Whether the member is marked dead. *)
Definition record_dial_failure (s : DialFailureState) (member : Member) (err : MeowError) (now : Z) : DialFailureState * bool :=
  match p_type member with
  | Direct | Compatible | Reject | RejectDrop | Pass | PassRule => (s, false)
  | _ => on_failure s err now
  end.

(** How a dial of a member ended: it returned, or it was dropped, with the
    deadline of the dial. [front_failed] is what the front hops on its path
    reported. *)
Inductive Outcome :=
  | Dialled
  | DialFailed (err : MeowError) (front_failed : bool)
  | Dropped (deadline : option Z).

Definition deadline_error : MeowError := Io (Custom TimedOut (b! "outbound dial deadline elapsed")).

Definition attempt (s : DialFailureState) (member : Member) (o : Outcome) (now : Z) : DialFailureState * bool :=
  match o with
  | Dialled => (on_success s, false)
  | DialFailed _ true => (s, false)
  | DialFailed err false => record_dial_failure s member err now
  | Dropped (Some deadline) => if (deadline <=? now)%Z then record_dial_failure s member deadline_error now else (s, false)
  | Dropped None => (s, false)
  end.

End Failures.

(** ** Front hops *)

(** The front hop in flight on the task: the server, and the outbound that
    dials it (crates/meow-proxy/src/dialer.rs). *)
Record FrontHop := mkHop { hop_target : ChainTarget; hop_owner : option bytes }.

Definition front_hop_for (hop : option FrontHop) (m : Metadata) : option FrontHop :=
  hop ← hop;
  target ← from_metadata m;
  if bool_decide (target = hop_target hop) then Some hop else None.

Section Hops.
Context `{HO : HealthOrder}.

Definition front_hop_target (h : ChainHealth) (hop : option FrontHop) (m : Metadata) (dial : bool) (now : Z) :
    ChainHealth * option ChainTarget :=
  match front_hop_for hop m with
  | None => (h, None)
  | Some hop =>
      (match hop_owner hop with
       | Some o => if dial then note_owner h (hop_target hop) o now else h
       | None => h
       end, Some (hop_target hop))
  end.

Definition front_hop_pick (h : ChainHealth) (target : ChainTarget) (pick : Member) (carrier : option Member)
    (members : list Member) (usable : Member -> bool) (now : Z) : Member :=
  match (c ← carrier; if usable c && negb (is_blocked_at h target (p_name c) now) then Some c else None) with
  | Some c => c
  | None =>
      if negb (is_blocked_at h target (p_name pick) now) then pick
      else
        let blocked := blocked h target now in
        match List.find (fun p => usable p && negb (existsb (fun '(name, _) => bool_decide (name = p_name p)) blocked)) members with
        | Some p => p
        | None => pick
        end
  end.

(** What the front hop in flight is told: the group took its last resort. *)
Definition note_front_hop_member (h : ChainHealth) (target : ChainTarget) (member : Member) (now : Z) : bool :=
  is_blocked_at h target (p_name member) now.

(** ** The stream of a front hop *)

Record PendingVerdict := mkPending {
  v_target : ChainTarget;
  v_member : bytes;
  v_carrier : bool;
  v_last_resort : bool;
  v_wrote : bool;
  v_shut : bool;
}.

(** Watched, when the member does not judge its own. *)
Definition watch_front_hop (h : ChainHealth) (target : ChainTarget) (member : Member) (last_resort : bool) :
    option PendingVerdict :=
  if p_judges member then None
  else Some (mkPending target (p_name member) (bool_decide (carrier_of h target = Some (p_name member))) last_resort false false).

(** The verdict, the table of the group, and whether the dial of the chained
    outbound is told that the front hop failed it. *)
Definition settle (v : option PendingVerdict) (h : ChainHealth) (failure : option bytes) (now : Z) : ChainHealth * bool :=
  match v with
  | None => (h, false)
  | Some v =>
      match failure with
      | None => ((record_reached h (v_target v) (v_member v) now).1, false)
      | Some reason =>
          let '(h, b) := blame h (v_target v) (v_member v) now in
          if bool_decide (b = BlameTarget) || v_last_resort v then (h, false)
          else ((failed_at h (v_target v) (v_member v) Passive reason now).1, negb (v_carrier v))
      end
  end.

(** What happens on the stream: a write, a read into a buffer with room or
    without, our shutdown, and the end of the stream. A read reports the
    number of bytes, and an error its text. *)
Inductive StreamEvent :=
  | Written (n : Z)
  | WriteFailed (e : bytes)
  | Read (capacity n : Z)
  | ReadFailed (e : bytes)
  | Shutdown
  | Closed (past_deadline : bool).

Definition judged (v : PendingVerdict) : bool := v_wrote v && negb (v_shut v).

Definition on_event (v : option PendingVerdict) (h : ChainHealth) (e : StreamEvent) (now : Z) :
    option PendingVerdict * (ChainHealth * bool) :=
  match v with
  | None => (None, (h, false))
  | Some p =>
      let keep := (v, (h, false)) in
      match e with
      | Written n =>
          if (0 <? n)%Z then (Some (mkPending (v_target p) (v_member p) (v_carrier p) (v_last_resort p) true (v_shut p)), (h, false))
          else keep
      | WriteFailed e => (None, settle v h (Some (failure_reason e)) now)
      | Read capacity n =>
          if (0 <? n)%Z then (None, settle v h None now)
          else if (capacity =? 0)%Z then keep
          else if judged p then (None, settle v h (Some CLOSED_BEFORE_REPLY) now)
          else (None, (h, false))
      | ReadFailed e => if judged p then (None, settle v h (Some (failure_reason e)) now) else (None, (h, false))
      | Shutdown => (Some (mkPending (v_target p) (v_member p) (v_carrier p) (v_last_resort p) (v_wrote p) true), (h, false))
      | Closed past_deadline =>
          if judged p && past_deadline then (None, settle v h (Some (failure_reason (b! "timed out"))) now) else keep
      end
  end.

End Hops.
End Groups.
