(* ===== verification/Fallback.v ===== *)
(** * Fallback groups (crates/meow-proxy/src/group/fallback.rs)

    The first alive member, or the member pinned while it is alive; for a
    front hop the first alive one not blocked. A change of the saved choice is
    the call that the store is sent. *)

From stdpp Require Import gmap.
From S2P Require Import Prelude Strings Ip Metadata HostNames ChainHealth Errors Groups.

Module Fallback.
Import Metadata ChainHealth Errors Groups.

Record FallbackGroup := mkFallback {
  g_name : bytes;
  members : Members;
  fixed : option bytes;
  stored : bool;
  test_url : bytes;
  healthy : bool;
  usage : Z;
  failures : DialFailureState;
  chain_health : ChainHealth;
}.

Definition new_with_providers (name : bytes) (m : Members) : FallbackGroup :=
  mkFallback name m None false GROUP_TEST_URL true 0 no_failures tracking_carriers.

Definition set_fixed (g : FallbackGroup) (f : option bytes) : FallbackGroup :=
  mkFallback (g_name g) (members g) f (stored g) (test_url g) (healthy g) (usage g) (failures g) (chain_health g).
Definition set_health (g : FallbackGroup) (h : ChainHealth) : FallbackGroup :=
  mkFallback (g_name g) (members g) (fixed g) (stored g) (test_url g) (healthy g) (usage g) (failures g) h.
Definition set_usage (g : FallbackGroup) (u : Z) : FallbackGroup :=
  mkFallback (g_name g) (members g) (fixed g) (stored g) (test_url g) (healthy g) u (failures g) (chain_health g).

(** [saved] is what the store has of the group, if there is a store. *)
Definition with_runtime_options (g : FallbackGroup) (url : bytes) (store : option (option bytes)) : FallbackGroup :=
  let f := match store with
           | Some (Some prev) => if bool_decide (prev = []) then fixed g else Some prev
           | _ => fixed g
           end in
  mkFallback (g_name g) (members g) f (match store with Some _ => true | None => stored g end) url (healthy g) (usage g)
    (failures g) (chain_health g).

(** The first alive member, or the first of any kind. *)
Fixpoint scan (fallback : option Member) (l : list Member) : option Member :=
  match l with
  | [] => fallback
  | p :: l =>
      let fallback := match fallback with None => Some p | f => f end in
      if p_alive p then Some p else scan fallback l
  end.

Definition first_alive (g : FallbackGroup) : FallbackGroup * option Member :=
  let scanned := scan None (member_proxy_list (members g)) in
  match fixed g with
  | Some name =>
      match find_member (members g) name with
      | Some p => if p_alive_for p (test_url g) then (g, Some p) else (set_fixed g None, scanned)
      | None => (set_fixed g None, scanned)
      end
  | None => (g, scanned)
  end.

Section Hops.
Context `{HO : HealthOrder}.

Definition pick_for (g : FallbackGroup) (hop : option FrontHop) (m : Metadata) (dial : bool) (now : Z) : Picked FallbackGroup :=
  match first_alive g with
  | (g, None) => (g, None)
  | (g, Some pick) =>
      match front_hop_target (chain_health g) hop m dial now with
      | (h, None) => (set_health g h, Some (pick, None))
      | (h, Some target) =>
          let pick := front_hop_pick h target pick None (member_proxy_list (members g)) p_alive now in
          (set_health g h, Some (pick, Some target))
      end
  end.

(** A dial over TCP, up to the dial of the member: the member, the target of
    a front hop and whether the member is its last resort. *)
Definition start_dial (g : FallbackGroup) (hop : option FrontHop) (m : Metadata) (now : Z) :
    FallbackGroup * result MeowError (Member * option (ChainTarget * bool)) :=
  let g := set_usage g (touch_user_traffic (usage g) m) in
  match pick_for g hop m true now with
  | (g, None) => (g, Err (Proxy (b! "no proxy available")))
  | (g, Some (p, t)) => (g, Ok (p, (fun t => (t, note_front_hop_member (chain_health g) t p now)) <$> t))
  end.

Definition unwrap_proxy (g : FallbackGroup) (hop : option FrontHop) (m : Metadata) (touch : bool) (now : Z) :
    FallbackGroup * option Member :=
  let g := if touch then set_usage g (touch_user_traffic (usage g) m) else g in
  let '(g, p) := pick_for g hop m false now in (g, fst <$> p).

End Hops.

Definition start_dial_udp (g : FallbackGroup) (m : Metadata) : FallbackGroup * result MeowError Member :=
  let g := set_usage g (touch_user_traffic (usage g) m) in
  match first_alive g with (g, Some p) => (g, Ok p) | (g, None) => (g, Err (Proxy (b! "no proxy available"))) end.

Definition alive (g : FallbackGroup) : FallbackGroup * bool :=
  if healthy g then let '(g, p) := first_alive g in (g, from_option p_alive false p) else (g, false).

Definition last_delay (g : FallbackGroup) : FallbackGroup * Z := let '(g, p) := first_alive g in (g, from_option p_delay 0%Z p).

Definition support_udp (g : FallbackGroup) : FallbackGroup * bool := let '(g, p) := first_alive g in (g, from_option p_udp false p).

Definition force_set (g : FallbackGroup) (name : option bytes) : FallbackGroup * StoreCall :=
  (set_fixed g name, if stored g then Some (g_name g, default [] name) else None).

(** The member to probe first, if the one chosen looks dead. *)
Definition set (g : FallbackGroup) (name : bytes) : result MeowError (FallbackGroup * StoreCall * option Member) :=
  match find_member (members g) name with
  | None => Err (Proxy (b! "proxy not exist"))
  | Some p => Ok (force_set g (Some name), if p_alive_for p (test_url g) then None else Some p)
  end.

Definition fixed_name (g : FallbackGroup) : bytes := default [] (fixed g).

End Fallback.
