(* ===== verification/UrlTest.v ===== *)
(** * Url-test groups (crates/meow-proxy/src/group/urltest.rs)

    The fastest member, with a tolerance in favour of the incumbent, or the
    member pinned while it is alive; for a front hop the carrier of the
    target's chains. *)

From stdpp Require Import gmap.
From S2P Require Import Prelude Strings Ip Metadata HostNames ChainHealth Errors Groups.

Module UrlTest.
Import Metadata ChainHealth Errors Groups.

Record UrlTestGroup := mkUrlTest {
  g_name : bytes;
  members : Members;
  tolerance : Z;
  fixed : option bytes;
  stored : bool;
  test_url : bytes;
  fastest : option bytes;
  healthy : bool;
  usage : Z;
  failures : DialFailureState;
  chain_health : ChainHealth;
}.

Definition new_with_providers (name : bytes) (m : Members) (tol : Z) : UrlTestGroup :=
  mkUrlTest name m tol None false GROUP_TEST_URL None true 0 no_failures tracking_carriers.

Definition set_fixed (g : UrlTestGroup) (f : option bytes) : UrlTestGroup :=
  mkUrlTest (g_name g) (members g) (tolerance g) f (stored g) (test_url g) (fastest g) (healthy g) (usage g) (failures g) (chain_health g).
Definition set_fastest (g : UrlTestGroup) (f : option bytes) : UrlTestGroup :=
  mkUrlTest (g_name g) (members g) (tolerance g) (fixed g) (stored g) (test_url g) f (healthy g) (usage g) (failures g) (chain_health g).
Definition set_usage (g : UrlTestGroup) (u : Z) : UrlTestGroup :=
  mkUrlTest (g_name g) (members g) (tolerance g) (fixed g) (stored g) (test_url g) (fastest g) (healthy g) u (failures g) (chain_health g).
Definition set_health (g : UrlTestGroup) (h : ChainHealth) : UrlTestGroup :=
  mkUrlTest (g_name g) (members g) (tolerance g) (fixed g) (stored g) (test_url g) (fastest g) (healthy g) (usage g) (failures g) h.

Definition with_runtime_options (g : UrlTestGroup) (url : bytes) (store : option (option bytes)) : UrlTestGroup :=
  let f := match store with
           | Some (Some prev) => if bool_decide (prev = []) then fixed g else Some prev
           | _ => fixed g
           end in
  mkUrlTest (g_name g) (members g) (tolerance g) f (match store with Some _ => true | None => stored g end) url (fastest g)
    (healthy g) (usage g) (failures g) (chain_health g).

Definition fixed_proxy_if_alive (g : UrlTestGroup) : option Member :=
  name ← fixed g;
  List.find (fun p => named name p && p_alive_for p (test_url g)) (member_proxy_list (members g)).

(** The variables of the loop. *)
Record Scan := mkScan {
  best_proxy : option Member;
  best_delay : Z;
  current_proxy : option Member;
  current_delay : Z;
  current_alive : bool;
  first_any : option Member;
}.

Definition scan0 : Scan := mkScan None 65535 None 65535 false None.

Definition visit (current_name : option bytes) (s : Scan) (p : Member) : Scan :=
  let first := match first_any s with None => Some p | f => f end in
  if negb (p_alive p) then mkScan (best_proxy s) (best_delay s) (current_proxy s) (current_delay s) (current_alive s) first
  else
    let d := p_delay p in
    let cur := match current_name with Some n => named n p | None => false end in
    let better := (0 <? d)%Z && (d <? best_delay s)%Z in
    mkScan (if better then Some p else best_proxy s) (if better then d else best_delay s)
      (if cur then Some p else current_proxy s) (if cur then d else current_delay s) (cur || current_alive s) first.

Definition scan (g : UrlTestGroup) : Scan := foldl (visit (fastest g)) scan0 (member_proxy_list (members g)).

Definition pick_for_dial (g : UrlTestGroup) : UrlTestGroup * option Member :=
  match fixed_proxy_if_alive g with
  | Some p => (g, Some p)
  | None =>
      let s := scan g in
      let kept := (g, or_else (or_else (current_proxy s) (best_proxy s)) (first_any s)) in
      match best_proxy s with
      | Some bp =>
          if (Z.min 65535 (best_delay s + tolerance g) <? current_delay s)%Z || negb (current_alive s)
          then (set_fastest g (Some (p_name bp)), Some bp) else kept
      | None => if negb (current_alive s) then (set_fastest g (p_name <$> first_any s), first_any s) else kept
      end
  end.

(** [sort_by_key], which is stable. *)
Fixpoint insert_by (key : Member -> Z) (p : Member) (l : list Member) : list Member :=
  match l with [] => [p] | q :: l' => if (key p <=? key q)%Z then p :: l else q :: insert_by key p l' end.

Definition sort_by_key (key : Member -> Z) (l : list Member) : list Member := foldr (insert_by key) [] l.

Definition delay_key (p : Member) : Z := if (p_delay p =? 0)%Z then 65535 else p_delay p.

Definition carrier_for (g : UrlTestGroup) (h : ChainHealth) (target : ChainTarget) : option Member :=
  match fixed_proxy_if_alive g with
  | Some _ => None
  | None => name ← carrier_of h target; find_member (members g) name
  end.

Section Hops.
Context `{HO : HealthOrder}.

Definition pick_for (g : UrlTestGroup) (hop : option FrontHop) (m : Metadata) (dial : bool) (now : Z) : Picked UrlTestGroup :=
  match pick_for_dial g with
  | (g, None) => (g, None)
  | (g, Some pick) =>
      match front_hop_target (chain_health g) hop m dial now with
      | (h, None) => (set_health g h, Some (pick, None))
      | (h, Some target) =>
          let pick := front_hop_pick h target pick (carrier_for g h target)
                        (sort_by_key delay_key (member_proxy_list (members g))) p_alive now in
          (set_health g h, Some (pick, Some target))
      end
  end.

Definition start_dial (g : UrlTestGroup) (hop : option FrontHop) (m : Metadata) (now : Z) :
    UrlTestGroup * result MeowError (Member * option (ChainTarget * bool)) :=
  let g := set_usage g (touch_user_traffic (usage g) m) in
  match pick_for g hop m true now with
  | (g, None) => (g, Err (Proxy (b! "no proxy available")))
  | (g, Some (p, t)) => (g, Ok (p, (fun t => (t, note_front_hop_member (chain_health g) t p now)) <$> t))
  end.

Definition unwrap_proxy (g : UrlTestGroup) (hop : option FrontHop) (m : Metadata) (touch : bool) (now : Z) :
    UrlTestGroup * option Member :=
  let g := if touch then set_usage g (touch_user_traffic (usage g) m) else g in
  let '(g, p) := pick_for g hop m false now in (g, fst <$> p).

End Hops.

Definition start_dial_udp (g : UrlTestGroup) (m : Metadata) : UrlTestGroup * result MeowError Member :=
  let g := set_usage g (touch_user_traffic (usage g) m) in
  match pick_for_dial g with (g, Some p) => (g, Ok p) | (g, None) => (g, Err (Proxy (b! "no proxy available"))) end.

(** What the group reports of itself, without a new choice. *)
Definition fastest_proxy (g : UrlTestGroup) : option Member :=
  match fixed_proxy_if_alive g with
  | Some p => Some p
  | None =>
      match fastest g with
      | Some n => or_else (find_member (members g) n) (head (member_proxy_list (members g)))
      | None => head (member_proxy_list (members g))
      end
  end.

Definition alive (g : UrlTestGroup) : bool := healthy g && from_option p_alive false (fastest_proxy g).
Definition last_delay (g : UrlTestGroup) : Z := from_option p_delay 0%Z (fastest_proxy g).
Definition support_udp (g : UrlTestGroup) : UrlTestGroup * bool := let '(g, p) := pick_for_dial g in (g, from_option p_udp false p).

Definition force_set (g : UrlTestGroup) (name : option bytes) : UrlTestGroup * StoreCall :=
  (set_fixed g name, if stored g then Some (g_name g, default [] name) else None).

Definition set (g : UrlTestGroup) (name : bytes) : result MeowError (UrlTestGroup * StoreCall) :=
  if negb (contains_name (members g) name) then Err (Proxy (b! "proxy not exist")) else Ok (force_set g (Some name)).

End UrlTest.
