(* ===== verification/SelectorGroup.v ===== *)
(** * Selector groups (crates/meow-proxy/src/group/selector.rs)

    The member chosen by hand, by name, which need not be there any more. *)

From stdpp Require Import gmap.
From S2P Require Import Prelude Strings Ip Metadata HostNames ChainHealth Errors Groups.

Module SelectorGroup.
Import Metadata ChainHealth Errors Groups.

Record SelectorGroup := mkSelector {
  g_name : bytes;
  members : Members;
  selected : option bytes;
  stored : bool;
  healthy : bool;
}.

Definition new_with_providers (name : bytes) (m : Members) : SelectorGroup := mkSelector name m None false true.

Definition with_store (g : SelectorGroup) (saved : option bytes) : SelectorGroup :=
  mkSelector (g_name g) (members g) (match saved with Some prev => Some prev | None => selected g end) true (healthy g).

Definition select (g : SelectorGroup) (name : bytes) : SelectorGroup * StoreCall * bool :=
  if contains_name (members g) name then
    (mkSelector (g_name g) (members g) (Some name) (stored g) (healthy g), if stored g then Some (g_name g, name) else None, true)
  else (g, None, false).

Definition selected_proxy (g : SelectorGroup) : option Member :=
  match selected g with
  | Some name => or_else (find_member (members g) name) (head (member_proxy_list (members g)))
  | None => head (member_proxy_list (members g))
  end.

Definition start_dial (g : SelectorGroup) : result MeowError Member :=
  match selected_proxy g with Some p => Ok p | None => Err (Proxy (b! "no proxy selected")) end.

Definition alive (g : SelectorGroup) : bool := healthy g && from_option p_alive false (selected_proxy g).
Definition support_udp (g : SelectorGroup) : bool := from_option p_udp false (selected_proxy g).

Definition set (g : SelectorGroup) (name : bytes) : result MeowError (SelectorGroup * StoreCall) :=
  let '(g, c, ok) := select g name in if ok : bool then Ok (g, c) else Err (Proxy (b! "proxy not exist")).

(** Clearing the choice does nothing. *)
Definition force_set (g : SelectorGroup) (name : option bytes) : SelectorGroup * StoreCall :=
  match name with
  | Some name =>
      (mkSelector (g_name g) (members g) (Some name) (stored g) (healthy g), if stored g then Some (g_name g, name) else None)
  | None => (g, None)
  end.

End SelectorGroup.
