(* ===== verification/LoadBalance.v ===== *)
(** * Load-balance groups (crates/meow-proxy/src/group/load_balance.rs)

    Round robin and consistent hashing over the members, with the key of a
    destination, its hash, and the jump hash with its [f64] arithmetic. *)

From stdpp Require Import gmap.
From S2P Require Import Prelude Strings Show Ip Metadata HostNames ChainHealth Errors Groups.

Module LoadBalance.
Import Metadata HostNames ChainHealth Errors Groups.

(** ** Printed addresses *)

Definition join_with (sep : bytes) (l : list bytes) : bytes :=
  match l with [] => [] | x :: l => x ++ concat ((fun y => sep ++ y) <$> l) end.

Definition show_v4 (a : Z) : bytes :=
  join_with (b! ".") (show_dec <$> [(a / 2 ^ 24) mod 256; (a / 2 ^ 16) mod 256; (a / 2 ^ 8) mod 256; a mod 256]%Z).

Definition segments (a : Z) : list Z := (fun i => (a / 2 ^ (16 * i)) mod 65536)%Z <$> [7; 6; 5; 4; 3; 2; 1; 0]%Z.

(** The longest run of zeros, the first of them: start and length. *)
Fixpoint zeros (i : nat) (l : list Z) (start len : nat) (longest : nat * nat) : nat * nat :=
  match l with
  | [] => longest
  | x :: l =>
      if (x =? 0)%Z then
        let start := if len =? 0 then i else start in
        zeros (S i) l start (S len) (if longest.2 <? S len then (start, S len) else longest)
      else zeros (S i) l 0 0 longest
  end.

Definition show_groups (l : list Z) : bytes := join_with (b! ":") ((fun x => show_radix 16 (Z.to_N x)) <$> l).

Definition show_v6 (a : Z) : bytes :=
  if (a / 2 ^ 32 =? 65535)%Z then b! "::ffff:" ++ show_v4 (a mod 2 ^ 32)
  else
    let l := segments a in
    let '(start, len) := zeros 0 l 0 0 (0, 0) in
    if 1 <? len then show_groups (take start l) ++ b! "::" ++ show_groups (drop (start + len) l) else show_groups l.

Definition show_ip (a : IpAddr) : bytes := match a with V4 a => show_v4 a | V6 a => show_v6 a end.

Lemma show_ip_tests :
  show_ip (V4 3405803783) = b! "203.0.113.7" /\ show_ip (V6 0) = b! "::" /\
  show_ip (V6 42540766411282592856903984951653826561) = b! "2001:db8::1" /\
  show_ip (V6 281470698652420) = b! "::ffff:1.2.3.4" /\ show_ip (V6 5192455318486707404433266433261576) = b! "1:2:3:4:5:6:7:8".
Proof. by vm_compute. Qed.

(** ** Keys *)

(** The public suffix list, of the psl crate where it is built in. *)
Class PublicSuffix := { registrable_domain : bytes -> option bytes }.

(** Without it, the last two labels. *)
Definition last_two_labels (host : bytes) : option bytes :=
  let host := default host (strip_suffix (b! ".") host) in
  '(front, label) ← rsplit_once "." host;
  if bool_decide (front = []) || bool_decide (label = []) then None
  else match rsplit_once "." front with
    | Some (_, l) => Some (l ++ b! "." ++ label)
    | None => Some host
    end.

#[export] Instance minimal_suffix : PublicSuffix | 100 := {| registrable_domain := last_two_labels |}.

Section Keys.
Context `{PS : PublicSuffix}.

Definition get_key (m : Metadata) : bytes :=
  let by_ip := from_option show_ip [] (dst_ip m) in
  if bool_decide (host m = []) then by_ip
  else if bool_decide (is_Some (parse_ip_addr (host m))) then host m
  else
    let lower := to_ascii_lowercase (host m) in
    if contains_byte ":" lower then by_ip
    else match registrable_domain lower with Some d => d | None => by_ip end.

End Keys.

(** ** Hashes *)

Definition wrap64 (z : Z) : Z := z mod 2 ^ 64.

Definition fnv1a64 (data : bytes) : Z :=
  foldl (fun hash byte => wrap64 (Z.lxor hash (Z.of_N (byte_val byte)) * 0x100000001b3)) 0xcbf29ce484222325%Z data.

(** A positive [f64] is [f_m * 2 ^ -f_s], with a significand of 53 bits, or
    [2 ^ 53] where rounding carries. *)
Record F64 := mkF64 { f_m : Z; f_s : Z }.

(** The nearest integer to [a / b], the even one of two. *)
Definition nearest (a b : Z) : Z :=
  let q := (a / b)%Z in
  let r := (a mod b)%Z in
  if (2 * r <? b)%Z then q else if (b <? 2 * r)%Z then (q + 1)%Z else if Z.even q then q else (q + 1)%Z.

(** The [f64] nearest to [a / b], for [b <= a]. *)
Definition round_f64 (a b : Z) : F64 :=
  let s := (52 - Z.log2 (a / b))%Z in
  mkF64 (if (0 <=? s)%Z then nearest (a * 2 ^ s) b else nearest a (b * 2 ^ (- s))) s.

(** The product of two, each at least one. *)
Definition f64_mul (x y : F64) : F64 :=
  let s := (f_s x + f_s y)%Z in
  if (0 <=? s)%Z then round_f64 (f_m x * f_m y) (2 ^ s) else round_f64 (f_m x * f_m y * 2 ^ (- s)) 1.

(** [as i64], which truncates and saturates. *)
Definition f64_as_i64 (x : F64) : Z :=
  Z.min (2 ^ 63 - 1) (if (0 <=? f_s x)%Z then f_m x / 2 ^ f_s x else f_m x * 2 ^ (- f_s x)).

Definition next_key (key : Z) : Z := wrap64 (wrap64 (key * 2862933555777941757) + 1).

(** The bucket count at which the key jumps away from [b]. *)
Definition jump_to (key b : Z) : Z :=
  f64_as_i64 (f64_mul (round_f64 (b + 1) 1) (round_f64 (2 ^ 31) (Z.shiftr key 33 + 1))).

(** As many turns as buckets are enough: each moves on by one at least. *)
Fixpoint jump (fuel : nat) (key b j buckets : Z) : Z :=
  match fuel with
  | O => b
  | S fuel =>
      if (j <? buckets)%Z then let key := next_key key in jump fuel key j (jump_to key j) buckets else b
  end.

Definition jump_hash (key : Z) (buckets : nat) : Z :=
  if buckets =? 0 then 0%Z else (jump buckets key (-1) 0 (Z.of_nat buckets) mod 2 ^ 32)%Z.

Lemma jump_hash_tests :
  (jump_hash 0 1, jump_hash 42 57, jump_hash 0xDEAD10CC 1, jump_hash 0xDEAD10CC 666, jump_hash 256 1024) = (0, 43, 0, 361, 520)%Z.
Proof. by vm_compute. Qed.

(** ** The group *)

Inductive LbStrategy := RoundRobin | ConsistentHashing.

Record LoadBalanceGroup := mkLb {
  g_name : bytes;
  members : Members;
  strategy : LbStrategy;
  counter : Z;
  test_url : bytes;
  healthy : bool;
  usage : Z;
  failures : DialFailureState;
  chain_health : ChainHealth;
}.

Definition new_with_providers (name : bytes) (m : Members) (st : LbStrategy) : LoadBalanceGroup :=
  mkLb name m st 0 GROUP_TEST_URL true 0 no_failures new.

Definition set_counter (g : LoadBalanceGroup) (c : Z) : LoadBalanceGroup :=
  mkLb (g_name g) (members g) (strategy g) c (test_url g) (healthy g) (usage g) (failures g) (chain_health g).
Definition set_health (g : LoadBalanceGroup) (h : ChainHealth) : LoadBalanceGroup :=
  mkLb (g_name g) (members g) (strategy g) (counter g) (test_url g) (healthy g) (usage g) (failures g) h.
Definition set_usage (g : LoadBalanceGroup) (u : Z) : LoadBalanceGroup :=
  mkLb (g_name g) (members g) (strategy g) (counter g) (test_url g) (healthy g) u (failures g) (chain_health g).

Definition any_member (g : LoadBalanceGroup) (pred : Member -> bool) : bool := existsb pred (member_proxy_list (members g)).

Definition first_alive_member (g : LoadBalanceGroup) : option Member := List.find p_alive (member_proxy_list (members g)).

Definition min_alive_delay (g : LoadBalanceGroup) (delay : Member -> Z) : Z :=
  foldl (fun best p =>
    if p_alive p then let d := delay p in if (0 <? d)%Z && ((best =? 0)%Z || (d <? best)%Z) then d else best else best)
    0%Z (member_proxy_list (members g)).

Definition eligible (g : LoadBalanceGroup) (p : Member) (udp_only : bool) : bool :=
  p_alive_for p (test_url g) && (negb udp_only || p_udp p).

Definition usable (g : LoadBalanceGroup) (udp_only : bool) (blocked : list (bytes * Z)) (p : Member) : bool :=
  eligible g p udp_only && negb (existsb (fun '(name, _) => bool_decide (name = p_name p)) blocked).

(** Up to five members by the hash, each for the next key; the index is in
    range. *)
Fixpoint hashed (tries : nat) (key : Z) (l : list Member) (ok : Member -> bool) : option Member :=
  match tries with
  | O => None
  | S tries =>
      match l !! Z.to_nat (jump_hash key (length l)) with
      | Some p => if ok p then Some p else hashed tries (wrap64 (key + 1)) l ok
      | None => None
      end
  end.

Section Picks.
Context `{HO : HealthOrder} `{PS : PublicSuffix}.

Definition pick_excluding (g : LoadBalanceGroup) (m : Metadata) (udp_only advance : bool) (blocked : list (bytes * Z)) :
    LoadBalanceGroup * option Member :=
  let ok := usable g udp_only blocked in
  let l := member_proxy_list (members g) in
  match strategy g with
  | RoundRobin =>
      let el := List.filter ok l in
      if length el =? 0 then (g, None)
      else (if advance then set_counter g (wrap64 (counter g + 1)) else g, el !! Z.to_nat (counter g mod Z.of_nat (length el)))
  | ConsistentHashing =>
      if length l =? 0 then (g, None)
      else (g, match hashed 5 (fnv1a64 (get_key m)) l ok with Some p => Some p | None => List.find ok l end)
  end.

Definition pick (g : LoadBalanceGroup) (m : Metadata) (udp_only advance : bool) : LoadBalanceGroup * option Member :=
  pick_excluding g m udp_only advance [].

Definition pick_for (g : LoadBalanceGroup) (hop : option FrontHop) (m : Metadata) (advance : bool) (now : Z) :
    Picked LoadBalanceGroup :=
  match front_hop_target (chain_health g) hop m advance now with
  | (h, None) => let '(g, p) := pick (set_health g h) m false advance in (g, (fun p => (p, None)) <$> p)
  | (h, Some target) =>
      let g := set_health g h in
      let blocked := blocked h target now in
      let '(g, p) := if length blocked =? 0 then (g, None) else pick_excluding g m false advance blocked in
      match p with
      | Some p => (g, Some (p, Some target))
      | None => let '(g, p) := pick g m false advance in (g, (fun p => (p, Some target)) <$> p)
      end
  end.

Definition start_dial (g : LoadBalanceGroup) (hop : option FrontHop) (m : Metadata) (now : Z) :
    LoadBalanceGroup * result MeowError (Member * option (ChainTarget * bool)) :=
  let g := set_usage g (touch_user_traffic (usage g) m) in
  match pick_for g hop m true now with
  | (g, None) => (g, Err NoProxyAvailable)
  | (g, Some (p, t)) => (g, Ok (p, (fun t => (t, note_front_hop_member (chain_health g) t p now)) <$> t))
  end.

Definition start_dial_udp (g : LoadBalanceGroup) (m : Metadata) : LoadBalanceGroup * result MeowError Member :=
  let g := set_usage g (touch_user_traffic (usage g) m) in
  match pick g m true true with
  | (g, Some p) => (g, Ok p)
  | (g, None) =>
      (g, Err (if any_member g (fun p => eligible g p false)
               then NotSupported (b! "load-balance " ++ g_name g ++ b! ": no alive member can carry UDP") else NoProxyAvailable))
  end.

Definition unwrap_proxy (g : LoadBalanceGroup) (hop : option FrontHop) (m : Metadata) (touch : bool) (now : Z) :
    LoadBalanceGroup * option Member :=
  let g := if touch then set_usage g (touch_user_traffic (usage g) m) else g in
  if bool_decide (network m = Udp) then pick g m true touch
  else let '(g, p) := pick_for g hop m touch now in (g, fst <$> p).

End Picks.

Definition support_udp (g : LoadBalanceGroup) : bool := any_member g (fun p => eligible g p true).
Definition alive (g : LoadBalanceGroup) : bool := healthy g && any_member g p_alive.
Definition last_delay (g : LoadBalanceGroup) : Z := min_alive_delay g p_delay.

End LoadBalance.
