(* ===== verification/GroupTheorems.v ===== *)
(** * Proxy groups: the choice of a member

    A blocked member is taken for a front hop only when there is nothing else,
    url-test stays within its tolerance and with its incumbent, the jump hash
    moves keys only to a new bucket, round robin is fair, and a burst of
    failures marks a member dead. *)

From stdpp Require Import gmap sorting.
From S2P Require Import Prelude Strings Ip Metadata HostNames ChainHealth Errors Groups Fallback UrlTest LoadBalance.

Module GroupTheorems.
Import Metadata ChainHealth Errors Groups.

(** ** The jump hash *)

Module Jump.
Import LoadBalance.

Lemma nearest_ge a b c : (0 < b)%Z -> (c * b <= a)%Z -> (c <= nearest a b)%Z.
Proof.
  intros Hb Hc. assert (c <= a / b)%Z by (apply Z.div_le_lower_bound; lia). unfold nearest.
  destruct (_ <? _)%Z; [done|]. destruct (_ <? _)%Z; [lia|]. destruct (Z.even _); lia.
Qed.

(** The integral part of a float. *)
Definition floor_f64 (x : F64) : Z := if (0 <=? f_s x)%Z then (f_m x / 2 ^ f_s x)%Z else (f_m x * 2 ^ (- f_s x))%Z.

Lemma round_f64_m a b c :
  (0 < b)%Z -> (0 < c)%Z -> (c * b <= a)%Z -> (0 <= 52 - Z.log2 (a / b))%Z ->
  f_s (round_f64 a b) = (52 - Z.log2 (a / b))%Z /\ (c * 2 ^ f_s (round_f64 a b) <= f_m (round_f64 a b))%Z.
Proof.
  intros Hb Hc Ha Hs. split; [done|]. unfold round_f64. cbn [f_m f_s]. set (s := (52 - _)%Z) in *.
  assert (E : (0 <=? s)%Z = true) by lia. rewrite E. apply nearest_ge; [done|].
  assert (0 < 2 ^ s)%Z by (apply Z.pow_pos_nonneg; lia). nia.
Qed.

Lemma round_f64_floor a b c : (0 < b)%Z -> (0 < c <= 2 ^ 52)%Z -> (c * b <= a)%Z -> (c <= floor_f64 (round_f64 a b))%Z.
Proof.
  intros Hb Hc Ha. destruct (decide (0 <= 52 - Z.log2 (a / b))%Z) as [Hs|Hs].
  - destruct (round_f64_m a b c) as [E Hm]; [lia..|]. unfold floor_f64. rewrite E in *.
    assert (El : (0 <=? 52 - Z.log2 (a / b))%Z = true) by lia. rewrite El. apply Z.div_le_lower_bound; [apply Z.pow_pos_nonneg; lia|lia].
  - unfold floor_f64, round_f64. cbn [f_m f_s]. set (l := Z.log2 (a / b)) in *.
    assert (El : (0 <=? 52 - l)%Z = false) by lia. rewrite El.
    assert (Hq : (0 < a / b)%Z) by (apply Z.div_str_pos; nia).
    assert (Hl : (2 ^ l <= a / b)%Z) by (by apply Z.log2_spec).
    assert (Hal : (2 ^ l * b <= a)%Z) by (pose proof (Z.mul_div_le a b Hb); nia).
    assert (Hp : (2 ^ l = 2 ^ 52 * 2 ^ (- (52 - l)))%Z) by (rewrite <- Z.pow_add_r by lia; f_equal; lia).
    assert (Hpos : (0 < 2 ^ (- (52 - l)))%Z) by (apply Z.pow_pos_nonneg; lia).
    assert (2 ^ 52 <= nearest a (b * 2 ^ (- (52 - l))))%Z by (apply nearest_ge; nia). nia.
Qed.

Lemma log2_range q k : (0 < q)%Z -> (q < 2 ^ k)%Z -> (0 <= k)%Z -> (Z.log2 q < k)%Z.
Proof. intros Hq Hk H. by apply Z.log2_lt_pow2. Qed.

(** The key leaves a bucket only for a later one. *)
Lemma jump_to_later key b : (0 <= key < 2 ^ 64)%Z -> (0 <= b < 2 ^ 32)%Z -> (b + 1 <= jump_to key b)%Z.
Proof.
  intros Hk Hb. unfold jump_to. set (k := (Z.shiftr key 33 + 1)%Z).
  assert (Hk2 : (1 <= k <= 2 ^ 31)%Z).
  { unfold k. rewrite Z.shiftr_div_pow2 by lia. assert (0 <= key / 2 ^ 33)%Z by (apply Z.div_pos; lia).
    assert (key / 2 ^ 33 < 2 ^ 31)%Z by (apply Z.div_lt_upper_bound; lia). lia. }
  assert (Hq : (0 < 2 ^ 31 / k)%Z) by (apply Z.div_str_pos; lia).
  assert (Hq2 : (2 ^ 31 / k < 2 ^ 32)%Z) by (apply Z.div_lt_upper_bound; nia).
  destruct (round_f64_m (2 ^ 31) k 1) as [Ey Hy]; [lia..| |].
  { pose proof (log2_range (2 ^ 31 / k) 32 Hq Hq2). lia. }
  assert (Hl : (Z.log2 (b + 1) < 33)%Z) by (apply log2_range; lia).
  destruct (round_f64_m (b + 1) 1 (b + 1)) as [Ex Hx]; [lia..| |].
  { rewrite Z.div_1_r. lia. }
  rewrite Z.div_1_r in Ex. unfold f64_mul. set (x := round_f64 (b + 1) 1) in *. set (y := round_f64 (2 ^ 31) k) in *.
  pose proof (log2_range (2 ^ 31 / k) 32 Hq Hq2) as Hl2. pose proof (Z.log2_nonneg (b + 1)). pose proof (Z.log2_nonneg (2 ^ 31 / k)).
  assert (El : (0 <=? f_s x + f_s y)%Z = true) by lia. rewrite El.
  assert (Hf : (b + 1 <= floor_f64 (round_f64 (f_m x * f_m y) (2 ^ (f_s x + f_s y))))%Z).
  { apply round_f64_floor; [apply Z.pow_pos_nonneg; lia|lia|]. rewrite Z.pow_add_r by lia.
    assert (0 < 2 ^ f_s x)%Z by (apply Z.pow_pos_nonneg; lia). assert (0 < 2 ^ f_s y)%Z by (apply Z.pow_pos_nonneg; lia). nia. }
  unfold f64_as_i64. unfold floor_f64 in Hf. lia.
Qed.

Lemma next_key_range key : (0 <= next_key key < 2 ^ 64)%Z.
Proof. unfold next_key, wrap64. by apply Z.mod_pos_bound. Qed.

Lemma jump_range fuel key b j n :
  (0 <= j)%Z -> (-1 <= b < n)%Z -> (b < j)%Z -> (n <= 2 ^ 32)%Z ->
  (-1 <= jump fuel key b j n < n)%Z /\ (0 < fuel -> (j < n)%Z -> (0 <= jump fuel key b j n)%Z).
Proof.
  revert key b j. induction fuel as [|fuel IH]; intros key b j Hj Hb Hbj Hn; [cbn; lia|]. cbn [jump].
  destruct (Z.ltb_spec j n) as [Hlt|Hge]; [|lia].
  pose proof (jump_to_later (next_key key) j (next_key_range key) ltac:(lia)) as Hl.
  destruct (IH (next_key key) j (jump_to (next_key key) j)) as [H1 H2]; [lia..|]. split; [lia|]. intros _ _.
  destruct fuel as [|fuel]; [cbn; lia|]. destruct (decide (jump_to (next_key key) j < n)%Z); [apply H2; lia|].
  cbn [jump]. destruct (Z.ltb_spec (jump_to (next_key key) j) n); lia.
Qed.

Lemma jump_grows fuel fuel' key b j n :
  (0 <= j)%Z -> (n < 2 ^ 32)%Z -> (n - j <= Z.of_nat fuel)%Z -> (n + 1 - j <= Z.of_nat fuel')%Z ->
  jump fuel' key b j (n + 1) = jump fuel key b j n \/ jump fuel' key b j (n + 1) = n.
Proof.
  revert fuel key b j. induction fuel' as [|fuel' IH]; intros fuel key b j Hj Hn Hf Hf'.
  - left. destruct fuel; cbn; [done|]. by destruct (Z.ltb_spec j n); [lia|].
  - cbn [jump]. destruct (Z.ltb_spec j (n + 1)) as [Hlt|Hge].
    + destruct (decide (j = n)) as [->|Hne].
      * right. destruct fuel' as [|fuel']; [done|]. cbn [jump].
        pose proof (jump_to_later (next_key key) n (next_key_range key) ltac:(lia)).
        by destruct (Z.ltb_spec (jump_to (next_key key) n) (n + 1)); [lia|].
      * destruct fuel as [|fuel]; [lia|]. cbn [jump]. destruct (Z.ltb_spec j n); [|lia].
        pose proof (jump_to_later (next_key key) j (next_key_range key) ltac:(lia)). apply IH; lia.
    + left. destruct fuel; cbn; [done|]. by destruct (Z.ltb_spec j n); [lia|].
Qed.

Lemma jump_hash_range key n : 0 < n -> (Z.of_nat n <= 2 ^ 32)%Z -> (0 <= jump_hash key n < Z.of_nat n)%Z /\
  jump_hash key n = jump n key (-1) 0 (Z.of_nat n).
Proof.
  intros H0 Hn. unfold jump_hash. destruct (Nat.eqb_spec n 0); [lia|].
  destruct (jump_range n key (-1) 0 (Z.of_nat n)) as [H1 H2]; [lia..|]. rewrite Z.mod_small by lia. lia.
Qed.

(** C21: the jump hash gives a member of the list, and is consistent: when one
    more member is added at the end, a key stays where it was or moves to the
    new member, never between the others. Rounding in the floating-point
    arithmetic does not break this, and as many turns of the loop as members
    are enough. *)
Theorem jump_hash_consistent (key : Z) (n : nat) :
  0 < n -> (Z.of_nat n < 2 ^ 32)%Z ->
  (0 <= jump_hash key n < Z.of_nat n)%Z /\
  (jump_hash key (S n) = jump_hash key n \/ jump_hash key (S n) = Z.of_nat n).
Proof.
  intros H0 Hn. destruct (jump_hash_range key n) as [H1 H2]; [lia..|]. destruct (jump_hash_range key (S n)) as [_ H3]; [lia..|].
  split; [done|]. rewrite H2, H3. replace (Z.of_nat (S n)) with (Z.of_nat n + 1)%Z by lia. apply jump_grows; lia.
Qed.

Lemma jump_hash_consistent_witness :
  (jump_hash 42 57 = 43 /\ jump_hash 42 58 = 43)%Z /\ (jump_hash 42 58 = jump_hash 42 57 \/ jump_hash 42 58 = 57)%Z.
Proof. split; [by vm_compute|]. apply (jump_hash_consistent 42 57); lia. Defined.

End Jump.

(** ** The last resort *)

Section Hops.
Context `{HO : HealthOrder}.

Lemma blocked_names h t now name :
  existsb (fun '(n, _) => bool_decide (n = name)) (blocked h t now) = is_blocked_at h t name now.
Proof.
  apply eq_true_iff_eq. rewrite existsb_exists. unfold blocked, is_blocked_at. destruct (targets h !! t) as [s|]; [|split; [by intros (? & [] & _)|done]].
  unfold state_blocked_at. split.
  - intros ([n d] & Hin & Hn). apply list_elem_of_In, list_elem_of_omap in Hin as ([n' x] & Hin & Hx). apply bool_decide_eq_true in Hn as ->.
    rewrite member_order_perm, elem_of_map_to_list in Hin. unfold blocked_at.
    destruct (blocked_until x) as [u|] eqn:Hu; [|done]. destruct (now <? u)%Z eqn:E; simplify_eq. by rewrite Hin, Hu.
  - destruct (ChainHealth.members s !! name) as [x|] eqn:Hx; [|done]. unfold blocked_at. destruct (blocked_until x) as [u|] eqn:Hu; [|done].
    intros E. exists (name, u - now)%Z. split; [|by apply bool_decide_eq_true]. apply list_elem_of_In, list_elem_of_omap.
    exists (name, x). split; [by rewrite member_order_perm, elem_of_map_to_list|]. by rewrite Hu, E.
Qed.

(** The members a group could take are all blocked. *)
Definition all_blocked (h : ChainHealth) (t : ChainTarget) (members : list Member) (usable : Member -> bool) (now : Z) : Prop :=
  Forall (fun q => usable q = true -> is_blocked_at h t (p_name q) now = true) members.

(** A pick of [members], blocked only with all of them. *)
Definition fair_pick (h : ChainHealth) (t : ChainTarget) (members : list Member) (usable : Member -> bool) (now : Z) (p : Member) : Prop :=
  p ∈ members /\ (is_blocked_at h t (p_name p) now = true -> all_blocked h t members usable now).

Lemma find_ok_None {A} (f g : A -> bool) l :
  List.find (fun p => f p && negb (g p)) l = None -> Forall (fun p => f p = true -> g p = true) l.
Proof.
  intros H. apply Forall_forall. intros q Hq Hf. assert (E := List.find_none _ _ H q ltac:(by apply list_elem_of_In)). cbn in E. rewrite Hf in E. by destruct (g q).
Qed.

Lemma front_hop_pick_fair h t pick carrier members members' usable now :
  (forall x, x ∈ members' -> x ∈ members) -> (forall x, x ∈ members -> x ∈ members') ->
  pick ∈ members -> from_option (fun c => c ∈ members) True carrier ->
  fair_pick h t members usable now (front_hop_pick h t pick carrier members' usable now).
Proof.
  intros Hsub Hsup Hp Hc. unfold front_hop_pick.
  destruct (carrier ≫= _) as [c|] eqn:Ec.
  { destruct carrier as [c'|]; [|done]. cbn in Ec. destruct (usable c' && _) eqn:E; simplify_eq. apply andb_true_iff in E as [_ E].
    apply negb_true_iff in E. split; [done|]. congruence. }
  destruct (is_blocked_at h t (p_name pick) now) eqn:Eb; cbn [negb]; [|by split; [|congruence]].
  destruct (List.find _ members') as [p|] eqn:Ef.
  - apply List.find_some in Ef as [Hin E]. apply andb_true_iff in E as [_ E]. rewrite blocked_names in E. apply negb_true_iff in E.
    split; [apply Hsub; by apply list_elem_of_In|congruence].
  - split; [done|]. intros _. apply find_ok_None in Ef. unfold all_blocked. rewrite Forall_forall in *. intros q Hq Hu.
    specialize (Ef q (Hsup q Hq) Hu). by rewrite blocked_names in Ef.
Qed.

Lemma find_in (f : Member -> bool) l p : List.find f l = Some p -> p ∈ l.
Proof. intros H. apply List.find_some in H as [H _]. by apply list_elem_of_In. Qed.

Lemma scan_in l f p : Fallback.scan f l = Some p -> f = Some p \/ p ∈ l.
Proof.
  revert f. induction l as [|q l IH]; intros f H; [by left|]. cbn in H. destruct (p_alive q); [simplify_eq; right; apply list_elem_of_here|].
  apply IH in H as [H|H]; [|right; by apply list_elem_of_further]. destruct f; [by left|]. simplify_eq. right. apply list_elem_of_here.
Qed.

Lemma first_alive_in g g' p :
  Fallback.first_alive g = (g', Some p) -> p ∈ member_proxy_list (Fallback.members g) /\ Fallback.members g' = Fallback.members g.
Proof.
  unfold Fallback.first_alive. intros H. assert (Hs : forall q, Fallback.scan None (member_proxy_list (Fallback.members g)) = Some q ->
    q ∈ member_proxy_list (Fallback.members g)) by (intros q Hq; by apply scan_in in Hq as [?|?]).
  destruct (Fallback.fixed g) as [n|]; [|simplify_eq; auto]. destruct (find_member _ n) as [q|] eqn:E; [|simplify_eq; auto].
  destruct (p_alive_for q _); simplify_eq; [|auto]. split; [by apply find_in in E|done].
Qed.

Lemma insert_by_in k q l x : x ∈ UrlTest.insert_by k q l <-> x = q \/ x ∈ l.
Proof.
  induction l as [|y l IH]; cbn; [by rewrite elem_of_cons|]. destruct (_ <=? _)%Z; rewrite ?elem_of_cons, ?IH; [done|]. tauto.
Qed.

Lemma sort_in k l x : x ∈ UrlTest.sort_by_key k l <-> x ∈ l.
Proof. induction l as [|y l IH]; [done|]. cbn. by rewrite insert_by_in, elem_of_cons, IH. Qed.

End Hops.

(** ** The scan of url-test *)

Module Scan.
Import UrlTest.

(** A member whose delay counts. *)
Definition measured (p : Member) : Prop := p_alive p = true /\ (0 < p_delay p < 65535)%Z.

Definition best_ok (s : Scan) (l : list Member) : Prop :=
  (forall q, q ∈ l -> measured q -> is_Some (best_proxy s) /\ (best_delay s <= p_delay q)%Z) /\
  match best_proxy s with
  | Some b => b ∈ l /\ measured b /\ best_delay s = p_delay b
  | None => best_delay s = 65535%Z
  end.

Definition incumbent (name : option bytes) (p : Member) : Prop := p_alive p = true /\ name = Some (p_name p).

Definition current_ok (name : option bytes) (s : Scan) (l : list Member) : Prop :=
  match current_proxy s with
  | Some c => c ∈ l /\ incumbent name c /\ current_delay s = p_delay c /\ current_alive s = true
  | None => current_delay s = 65535%Z /\ current_alive s = false /\ (forall q, q ∈ l -> ~ incumbent name q)
  end.

Definition first_ok (s : Scan) (l : list Member) : Prop :=
  match first_any s with Some f => f ∈ l | None => l = [] end.

Lemma visit_best name s l p : best_ok s l -> best_ok (visit name s p) (l ++ [p]).
Proof.
  intros [H1 H2]. unfold visit. destruct (p_alive p) eqn:Ha; cbn [negb]; unfold best_ok; cbn [best_proxy best_delay].
  - destruct ((0 <? p_delay p)%Z && (p_delay p <? best_delay s)%Z) eqn:E.
    + apply andb_true_iff in E as [E1 E2]. apply Z.ltb_lt in E1, E2. assert (best_delay s <= 65535)%Z.
      { destruct (best_proxy s); [|lia]. destruct H2 as (_ & [_ ?] & ?). lia. }
      split; [|split_and!; [set_solver|split; [done|lia]|done]]. intros q [Hq|Hq]%elem_of_app Hm; [|by apply list_elem_of_singleton in Hq as ->; split; [eauto|]].
      destruct (H1 q Hq Hm). split; [eauto|lia].
    + split.
      * intros q [Hq|Hq]%elem_of_app Hm; [by apply H1|]. apply list_elem_of_singleton in Hq as ->. destruct Hm as [_ Hm].
        apply andb_false_iff in E as [E|E]; [apply Z.ltb_ge in E; lia|]. apply Z.ltb_ge in E. split; [|done].
        destruct (best_proxy s); [eauto|lia].
      * destruct (best_proxy s); [|done]. destruct H2 as (? & ? & ?). split_and!; [set_solver|done|done].
  - split.
    + intros q [Hq|Hq]%elem_of_app Hm; [by apply H1|]. apply list_elem_of_singleton in Hq as ->. destruct Hm. congruence.
    + destruct (best_proxy s); [|done]. destruct H2 as (? & ? & ?). split_and!; [set_solver|done|done].
Qed.

Lemma visit_current name s l p : current_ok name s l -> current_ok name (visit name s p) (l ++ [p]).
Proof.
  intros H. unfold visit, current_ok in *. destruct (p_alive p) eqn:Ha; cbn [negb current_proxy current_delay current_alive].
  - destruct (match name with Some n => named n p | None => false end) eqn:E.
    + split_and!; [set_solver|split; [done|]|done|done]. destruct name as [n|]; [|done]. unfold named in E. by apply bool_decide_eq_true in E as ->.
    + destruct (current_proxy s) as [c|]; [destruct H as (? & ? & ? & ?); split_and!; [set_solver|done|done|done]|].
      destruct H as (? & ? & Hq). split_and!; [done|done|]. intros q [Hin|Hin]%elem_of_app; [by apply Hq|]. apply list_elem_of_singleton in Hin as ->.
      intros [_ ->]. unfold named in E. by apply bool_decide_eq_false in E.
  - destruct (current_proxy s) as [c|]; [destruct H as (? & ? & ? & ?); split_and!; [set_solver|done|done|done]|].
    destruct H as (? & ? & Hq). split_and!; [done|done|]. intros q [Hin|Hin]%elem_of_app; [by apply Hq|]. apply list_elem_of_singleton in Hin as ->.
    intros [? _]. congruence.
Qed.

Lemma visit_first name s l p : first_ok s l -> first_ok (visit name s p) (l ++ [p]).
Proof.
  intros H. assert (E : first_any (visit name s p) = match first_any s with None => Some p | f => f end) by (unfold visit; by destruct (negb _)).
  unfold first_ok in *. rewrite E. destruct (first_any s); set_solver.
Qed.

Lemma scan_ok g : let l := member_proxy_list (members g) in best_ok (scan g) l /\ current_ok (fastest g) (scan g) l /\ first_ok (scan g) l.
Proof.
  unfold scan. cbn. induction (member_proxy_list (members g)) as [|p l IH] using rev_ind.
  - split_and!; [|by split_and!; [| |intros ? ?%not_elem_of_nil]|done]. split; [|done]. by intros q ?%not_elem_of_nil.
  - rewrite foldl_snoc. destruct IH as (? & ? & ?). split_and!; [by apply visit_best|by apply visit_current|by apply visit_first].
Qed.

(** The delay of [p] is within the tolerance of [q]'s. *)
Definition within (g : UrlTestGroup) (p q : Member) : Prop := (p_delay p <= Z.min 65535 (p_delay q + tolerance g))%Z.

(** The pick, when no pinned member is in force. *)
Lemma pick_for_dial_ok g g' p :
  fixed_proxy_if_alive g = None -> pick_for_dial g = (g', Some p) -> (0 <= tolerance g)%Z ->
  let l := member_proxy_list (members g) in
  p ∈ l /\ g' = set_fastest g (Some (p_name p)) /\
  (forall q, q ∈ l -> measured q -> p_alive p = true /\ within g p q) /\
  ((exists c, c ∈ l /\ incumbent (fastest g) c) -> (forall c q, c ∈ l -> incumbent (fastest g) c -> q ∈ l -> measured q -> within g c q) ->
    incumbent (fastest g) p).
Proof.
  intros Hf Hp Ht l. unfold pick_for_dial in Hp. rewrite Hf in Hp. destruct (scan_ok g) as ([B1 B2] & C & F). fold l in B1, B2, C, F.
  unfold current_ok, first_ok in *. set (s := scan g) in *. assert (Hid : forall n, fastest g = n -> g = set_fastest g n) by (intros n <-; by destruct g).
  destruct (best_proxy s) as [bp|] eqn:Eb.
  - destruct B2 as (Hin & [Ha Hd] & Ed).
    destruct ((Z.min 65535 (best_delay s + tolerance g) <? current_delay s)%Z || negb (current_alive s)) eqn:E.
    + injection Hp as <- <-. split_and!; [done|done| |].
      * intros q Hq Hm. split; [done|]. unfold within. destruct (B1 q Hq Hm). destruct Hm as [_ Hm]. lia.
      * intros (c & Hc & Hi) Hw. destruct (current_proxy s) as [cp|]; [|by destruct C as (_ & _ & C); destruct (C c Hc)].
        destruct C as (Hcp & Hic & Edc & Eac). rewrite Eac, orb_false_r in E. apply Z.ltb_lt in E. exfalso.
        specialize (Hw cp bp Hcp Hic Hin). unfold within in Hw. rewrite Edc, Ed in E. assert (measured bp) by done. specialize (Hw H). lia.
    + apply orb_false_iff in E as [E1 E2]. apply negb_false_iff in E2. apply Z.ltb_ge in E1.
      destruct (current_proxy s) as [cp|]; [|by destruct C as (_ & ? & _); congruence]. cbn in Hp. injection Hp as <- <-.
      destruct C as (Hcp & Hic & Edc & Eac). split_and!; [done|apply Hid, Hic| |done].
      intros q Hq Hm. split; [apply Hic|]. unfold within. destruct (B1 q Hq Hm). lia.
  - assert (Hno : forall q, q ∈ l -> ~ measured q) by (intros q Hq Hm; by destruct (B1 q Hq Hm) as [[? ?] _]).
    destruct (current_proxy s) as [cp|].
    + destruct C as (Hcp & Hic & _ & Eac). rewrite Eac in Hp. cbn in Hp. injection Hp as <- <-.
      split_and!; [done|apply Hid, Hic|by intros q Hq ?%Hno|done].
    + destruct C as (_ & Eac & C). rewrite Eac in Hp. cbn in Hp. destruct (first_any s) as [f|]; [|done]. injection Hp as <- <-.
      split_and!; [done|done|by intros q Hq ?%Hno|]. intros (c & Hc & Hi). by destruct (C c Hc).
Qed.

(** C28: with no pinned member in force, url-test takes a member whose delay
    is within the tolerance of that of every live member with a measured delay
    (1 to 65534 ms), and is itself alive if there is such a member. It
    remembers the pick, and stays with a live incumbent that is within the
    tolerance of all of them. *)
Theorem urltest_pick_exact (g g' : UrlTestGroup) (p : Member) :
  fixed_proxy_if_alive g = None -> pick_for_dial g = (g', Some p) -> (0 <= tolerance g)%Z ->
  let l := member_proxy_list (members g) in
  p ∈ l /\ g' = set_fastest g (Some (p_name p)) /\
  (forall q, q ∈ l -> measured q -> p_alive p = true /\ within g p q) /\
  ((exists c, c ∈ l /\ incumbent (fastest g) c) -> (forall c q, c ∈ l -> incumbent (fastest g) c -> q ∈ l -> measured q -> within g c q) ->
    incumbent (fastest g) p).
Proof. apply pick_for_dial_ok. Qed.

End Scan.

(** ** Every group takes a blocked member only with all of them *)

Section LastResort.
Context `{HO : HealthOrder} `{PS : LoadBalance.PublicSuffix}.

Lemma pick_for_dial_in g g' p :
  UrlTest.pick_for_dial g = (g', Some p) ->
  p ∈ member_proxy_list (UrlTest.members g) /\ UrlTest.members g' = UrlTest.members g.
Proof.
  unfold UrlTest.pick_for_dial. destruct (UrlTest.fixed_proxy_if_alive g) as [q|] eqn:Hq.
  { intros [= <- <-]. split; [|done]. unfold UrlTest.fixed_proxy_if_alive in Hq. destruct (UrlTest.fixed g); [|done]. by apply find_in in Hq. }
  destruct (Scan.scan_ok g) as ([_ B] & C & F). unfold Scan.current_ok, Scan.first_ok in *. set (s := UrlTest.scan g) in *.
  destruct (UrlTest.best_proxy s) as [bp|].
  - destruct B as (Hb & _). destruct (_ || _); [by intros [= <- <-]|]. intros [= <- Hp]. split; [|done].
    destruct (UrlTest.current_proxy s); cbn in Hp; simplify_eq; [apply C|done].
  - destruct (negb _); intros [= <- Hp]; (split; [|done]); [by destruct (UrlTest.first_any s); simplify_eq|].
    destruct (UrlTest.current_proxy s); cbn in Hp; simplify_eq; [apply C|]. by destruct (UrlTest.first_any s); simplify_eq.
Qed.

Lemma carrier_for_in g h t : from_option (fun c => c ∈ member_proxy_list (UrlTest.members g)) True (UrlTest.carrier_for g h t).
Proof.
  unfold UrlTest.carrier_for. destruct (UrlTest.fixed_proxy_if_alive g); [done|]. destruct (carrier_of h t) as [n|]; [|done]. cbn.
  destruct (find_member _ n) eqn:E; [|done]. by apply find_in in E.
Qed.

Lemma hashed_ok tries key l ok p : LoadBalance.hashed tries key l ok = Some p -> p ∈ l /\ ok p = true.
Proof.
  revert key. induction tries as [|tries IH]; intros key H; [done|]. cbn in H. destruct (l !! _) as [q|] eqn:E; [|done].
  destruct (ok q) eqn:Hq; [simplify_eq; split; [by eapply list_elem_of_lookup_2|done]|by eapply IH].
Qed.

Lemma pick_excluding_ok g m udp advance bl g' r :
  LoadBalance.pick_excluding g m udp advance bl = (g', r) ->
  LoadBalance.members g' = LoadBalance.members g /\ LoadBalance.chain_health g' = LoadBalance.chain_health g /\
  LoadBalance.test_url g' = LoadBalance.test_url g /\
  match r with
  | Some p => p ∈ member_proxy_list (LoadBalance.members g) /\ LoadBalance.usable g udp bl p = true
  | None => Forall (fun q => LoadBalance.usable g udp bl q = false) (member_proxy_list (LoadBalance.members g))
  end.
Proof.
  unfold LoadBalance.pick_excluding. set (l := member_proxy_list _). set (ok := LoadBalance.usable g udp bl).
  assert (Hnil : l = [] -> Forall (fun q => ok q = false) l) by (intros ->; constructor).
  destruct (LoadBalance.strategy g).
  - destruct (Nat.eqb_spec (length (List.filter ok l)) 0) as [E|E].
    + intros [= <- <-]. split_and!; [done..|]. apply nil_length_inv in E. apply Forall_forall. intros q Hq. destruct (ok q) eqn:Hok; [|done].
      assert (H : In q (List.filter ok l)) by (apply filter_In; by rewrite <- list_elem_of_In). by rewrite E in H.
    + intros [= <- <-]. split_and!; [by destruct advance..|]. destruct (_ !! _) as [p|] eqn:Ep.
      * apply list_elem_of_lookup_2, list_elem_of_In, filter_In in Ep as [Hin Hok]. by rewrite list_elem_of_In.
      * apply lookup_ge_None in Ep. pose proof (Z.mod_pos_bound (LoadBalance.counter g) (Z.of_nat (length (List.filter ok l))) ltac:(lia)). lia.
  - destruct (Nat.eqb_spec (length l) 0) as [E|E]; [intros [= <- <-]; split_and!; [done..|]; apply Hnil; by apply nil_length_inv|].
    destruct (LoadBalance.hashed _ _ _ _) as [p|] eqn:Eh; [intros [= <- <-]; by apply hashed_ok in Eh|].
    destruct (List.find ok l) as [p|] eqn:Ef; intros [= <- <-]; do 3 (split; [done|]).
    + apply List.find_some in Ef as [Hin Hok]. by rewrite list_elem_of_In.
    + apply Forall_forall. intros q Hq. apply (List.find_none _ _ Ef q). by apply list_elem_of_In.
Qed.

Lemma lb_usable_unblocked g h t now p :
  LoadBalance.usable g false (blocked h t now) p = LoadBalance.eligible g p false && negb (is_blocked_at h t (p_name p) now).
Proof. unfold LoadBalance.usable. by rewrite blocked_names. Qed.

Lemma lb_pick_for_fair g hop m dial now g' p t :
  LoadBalance.pick_for g hop m dial now = (g', Some (p, Some t)) ->
  fair_pick (LoadBalance.chain_health g') t (member_proxy_list (LoadBalance.members g)) (fun q => LoadBalance.eligible g q false) now p.
Proof.
  unfold LoadBalance.pick_for. destruct (front_hop_target _ _ _ _ _) as [h [t'|]]; [|by destruct (LoadBalance.pick _ _ _ _) as [? []]].
  set (g1 := LoadBalance.set_health g h). assert (Hpick : forall g2 r, LoadBalance.pick_excluding g1 m false dial (blocked h t' now) = (g2, r) ->
    LoadBalance.chain_health g2 = h /\ LoadBalance.members g2 = LoadBalance.members g /\ LoadBalance.test_url g2 = LoadBalance.test_url g /\
    match r with
    | Some p => p ∈ member_proxy_list (LoadBalance.members g) /\ is_blocked_at h t' (p_name p) now = false
    | None => all_blocked h t' (member_proxy_list (LoadBalance.members g)) (fun q => LoadBalance.eligible g q false) now
    end).
  { intros g2 r E. apply pick_excluding_ok in E as (E1 & E2 & E3 & E4). split_and!; [done..|]. destruct r as [q|].
    - rewrite lb_usable_unblocked in E4. destruct E4 as [? E4]. apply andb_true_iff in E4 as [_ E4]. by apply negb_true_iff in E4.
    - unfold all_blocked. rewrite Forall_forall in *. intros q Hq Hel. specialize (E4 q Hq). rewrite lb_usable_unblocked in E4.
      change (LoadBalance.eligible g1 q false) with (LoadBalance.eligible g q false) in E4. rewrite Hel in E4. by apply negb_false_iff in E4. }
  assert (Hplain : forall g2, LoadBalance.chain_health g2 = h -> LoadBalance.members g2 = LoadBalance.members g ->
    (forall q, q ∈ member_proxy_list (LoadBalance.members g) -> is_blocked_at h t' (p_name q) now = true ->
      all_blocked h t' (member_proxy_list (LoadBalance.members g)) (fun q => LoadBalance.eligible g q false) now) ->
    (let '(g, p) := LoadBalance.pick g2 m false dial in (g, (fun p => (p, Some t')) <$> p)) = (g', Some (p, Some t)) ->
    fair_pick (LoadBalance.chain_health g') t (member_proxy_list (LoadBalance.members g)) (fun q => LoadBalance.eligible g q false) now p).
  { intros g2 Eh Em Hall. unfold LoadBalance.pick. destruct (LoadBalance.pick_excluding g2 m false dial []) as [g3 [q|]] eqn:E; [|done].
    apply pick_excluding_ok in E as (E1 & E2 & _ & E4 & _). cbn. intros [= <- <- <-]. rewrite E2, Eh, Em in *. split; [done|]. by apply Hall. }
  destruct (Nat.eqb_spec (length (blocked h t' now)) 0) as [E|E].
  - apply Hplain; [done|done|]. intros q _ Hq. rewrite <- blocked_names in Hq. apply nil_length_inv in E. by rewrite E in Hq.
  - destruct (LoadBalance.pick_excluding g1 m false dial (blocked h t' now)) as [g2 [q|]] eqn:Ep.
    + destruct (Hpick g2 (Some q) eq_refl) as (Eh & _ & _ & Hq & Hb). intros [= <- <- <-]. rewrite Eh. split; [done|congruence].
    + destruct (Hpick g2 None eq_refl) as (Eh & Em & _ & Hb). by apply Hplain.
Qed.

(** C11: a group that dials a front hop takes one of its members, says that it
    is the last resort exactly when it is blocked for the server, and takes a
    blocked member only if every member it could use is blocked. So it is for
    fallback, for url-test with its carrier, and for load-balance with either
    strategy. *)
Theorem last_resort_only (fb fb' : Fallback.FallbackGroup) (ut ut' : UrlTest.UrlTestGroup) (lb lb' : LoadBalance.LoadBalanceGroup)
    (hop : option FrontHop) (m : Metadata) (now : Z) (p : Member) (t : ChainTarget) (last : bool) :
  (Fallback.start_dial fb hop m now = (fb', Ok (p, Some (t, last))) ->
    last = is_blocked_at (Fallback.chain_health fb') t (p_name p) now /\
    fair_pick (Fallback.chain_health fb') t (member_proxy_list (Fallback.members fb)) p_alive now p) /\
  (UrlTest.start_dial ut hop m now = (ut', Ok (p, Some (t, last))) ->
    last = is_blocked_at (UrlTest.chain_health ut') t (p_name p) now /\
    fair_pick (UrlTest.chain_health ut') t (member_proxy_list (UrlTest.members ut)) p_alive now p) /\
  (LoadBalance.start_dial lb hop m now = (lb', Ok (p, Some (t, last))) ->
    last = is_blocked_at (LoadBalance.chain_health lb') t (p_name p) now /\
    fair_pick (LoadBalance.chain_health lb') t (member_proxy_list (LoadBalance.members lb)) (fun q => LoadBalance.eligible lb q false) now p).
Proof.
  split_and!.
  - unfold Fallback.start_dial, Fallback.pick_for. destruct (Fallback.first_alive _) as [g1 [q|]] eqn:E; [|done].
    apply first_alive_in in E as [Hq Em]. destruct (front_hop_target _ _ _ _ _) as [h [t'|]]; [|done].
    assert (Hf := front_hop_pick_fair h t' q None _ _ p_alive now (fun x H => H) (fun x H => H) Hq I). rewrite Em.
    revert Hf. generalize (front_hop_pick h t' q None (member_proxy_list (Fallback.members fb)) p_alive now). intros x Hf.
    cbn. intros [= <- <- <- <-]. by split; [|apply Hf].
  - unfold UrlTest.start_dial, UrlTest.pick_for. destruct (UrlTest.pick_for_dial _) as [g1 [q|]] eqn:E; [|done].
    apply pick_for_dial_in in E as [Hq Em]. destruct (front_hop_target _ _ _ _ _) as [h [t'|]]; [|done].
    pose proof (carrier_for_in g1 h t') as Hc. change (UrlTest.members (UrlTest.set_usage ut _)) with (UrlTest.members ut) in *. rewrite Em in *.
    assert (Hf := front_hop_pick_fair h t' q (UrlTest.carrier_for g1 h t') (member_proxy_list (UrlTest.members ut)) _ p_alive now
      (fun x => proj1 (sort_in UrlTest.delay_key _ x)) (fun x => proj2 (sort_in UrlTest.delay_key _ x)) Hq Hc).
    revert Hf. generalize (front_hop_pick h t' q (UrlTest.carrier_for g1 h t')
      (UrlTest.sort_by_key UrlTest.delay_key (member_proxy_list (UrlTest.members ut))) p_alive now). intros x Hf.
    cbn. intros [= <- <- <- <-]. by split; [|apply Hf].
  - unfold LoadBalance.start_dial. destruct (LoadBalance.pick_for _ _ _ _ _) as [g1 [[q [t'|]]|]] eqn:E; cbn; [|done|done]. intros [= <- <- <- <-].
    split; [done|]. by apply lb_pick_for_fair in E.
Qed.

(** ** Round robin *)

Fixpoint rr_picks (g : LoadBalance.LoadBalanceGroup) (m : Metadata) (n : nat) : list (option Member) :=
  match n with O => [] | S n => let '(g, p) := LoadBalance.pick g m false true in p :: rr_picks g m n end.

Definition rr_members (g : LoadBalance.LoadBalanceGroup) : list Member :=
  List.filter (LoadBalance.usable g false []) (member_proxy_list (LoadBalance.members g)).

Lemma rr_picks_seq g m n :
  LoadBalance.strategy g = LoadBalance.RoundRobin -> rr_members g <> [] -> (0 <= LoadBalance.counter g)%Z ->
  (LoadBalance.counter g + Z.of_nat n <= 2 ^ 64)%Z ->
  rr_picks g m n = (fun i => rr_members g !! Z.to_nat ((LoadBalance.counter g + Z.of_nat i) mod Z.of_nat (length (rr_members g)))) <$> seq 0 n.
Proof.
  revert g. induction n as [|n IH]; intros g Hs Hne Hc Hw; [done|]. cbn [rr_picks]. unfold LoadBalance.pick, LoadBalance.pick_excluding. rewrite Hs.
  fold (rr_members g). destruct (Nat.eqb_spec (length (rr_members g)) 0) as [E|_]; [by apply nil_length_inv in E|].
  set (g2 := LoadBalance.set_counter g _). change (rr_members g) with (rr_members g2). cbn [seq fmap list_fmap]. f_equal; [by rewrite Z.add_0_r|].
  destruct (decide (n = 0)) as [->|Hn]; [done|].
  assert (Ec : LoadBalance.counter g2 = (LoadBalance.counter g + 1)%Z) by (cbn; unfold LoadBalance.wrap64; apply Z.mod_small; lia).
  rewrite IH; [|done|done|lia|lia]. rewrite <- seq_shift, <- list_fmap_compose. apply list_fmap_ext. intros i x _. unfold compose.
  rewrite Ec. do 3 f_equal. lia.
Qed.

(** Round robin is fair: as many dials in a row as members that can be used
    go through each of them once. *)
Theorem round_robin_fair (g : LoadBalance.LoadBalanceGroup) (m : Metadata) :
  LoadBalance.strategy g = LoadBalance.RoundRobin -> rr_members g <> [] -> (0 <= LoadBalance.counter g)%Z ->
  (LoadBalance.counter g + Z.of_nat (length (rr_members g)) <= 2 ^ 64)%Z ->
  rr_picks g m (length (rr_members g)) ≡ₚ Some <$> rr_members g.
Proof.
  intros Hs Hne Hc Hw. rewrite rr_picks_seq by done. set (l := rr_members g) in *. set (n := length l).
  assert (Hn : 0 < n) by (unfold n; destruct l; [done|cbn; lia]). set (r := Z.to_nat (LoadBalance.counter g mod Z.of_nat n)).
  assert (Hr : r < n) by (unfold r; pose proof (Z.mod_pos_bound (LoadBalance.counter g) (Z.of_nat n) ltac:(lia)); lia).
  assert (E : (fun i => l !! Z.to_nat ((LoadBalance.counter g + Z.of_nat i) mod Z.of_nat n)) <$> seq 0 n = Some <$> (drop r l ++ take r l)).
  { apply list_eq. intros i. rewrite !list_lookup_fmap. destruct (decide (i < n)) as [Hi|Hi].
    - rewrite lookup_seq_lt by done. cbn. assert (Hm : Z.to_nat ((LoadBalance.counter g + Z.of_nat i) mod Z.of_nat n) = if decide (r + i < n) then r + i else r + i - n).
      { assert (Hcr : (LoadBalance.counter g = Z.of_nat n * (LoadBalance.counter g / Z.of_nat n) + Z.of_nat r)%Z).
        { unfold r. rewrite Z2Nat.id by (apply Z.mod_pos_bound; lia). apply Z.div_mod. lia. }
        set (k := (LoadBalance.counter g / Z.of_nat n)%Z) in *. destruct (decide (r + i < n)).
        - rewrite <- (Z.mod_unique_pos _ _ k (Z.of_nat (r + i))) by lia. lia.
        - rewrite <- (Z.mod_unique_pos _ _ (k + 1) (Z.of_nat (r + i - n))) by lia. lia. }
      rewrite Hm. destruct (decide (r + i < n)) as [Hlt|Hge].
      + rewrite lookup_app_l by (rewrite length_drop; lia). rewrite lookup_drop. destruct (l !! (r + i)) eqn:El; [done|].
        apply lookup_ge_None in El. fold n in El. lia.
      + rewrite lookup_app_r by (rewrite length_drop; fold n; lia). rewrite length_drop. fold n. rewrite lookup_take_lt by lia.
        replace (i - (n - r)) with (r + i - n) by lia. destruct (l !! (r + i - n)) eqn:El; [done|].
        apply lookup_ge_None in El. fold n in El. lia.
    - rewrite lookup_seq_ge by lia. rewrite lookup_ge_None_2; [done|]. rewrite length_app, length_drop, length_take. fold n. lia. }
  rewrite E. apply Permutation_map. rewrite Permutation_app_comm. by rewrite take_drop.
Qed.

End LastResort.

(** ** Bursts of failures *)

Section Bursts.
Context `{OE : OsErrors}.

(** A failure that counts: not excused, and not an immediate verdict. *)
Definition counted (e : MeowError) : bool :=
  negb (is_capability_error e || is_local_resource_error e) && negb (contains (b! "refused") (to_string e)).

Fixpoint failures_run (s : DialFailureState) (l : list (MeowError * Z)) : list bool :=
  match l with [] => [] | (e, now) :: l => let '(s, b) := on_failure s e now in b :: failures_run s l end.

Definition tracker_ok (s : DialFailureState) : Prop := (0 <= count s < 5)%Z /\ (is_Some (first_at s) <-> (0 < count s)%Z).

Lemma on_failure_ok s e now : tracker_ok s -> tracker_ok (on_failure s e now).1.
Proof.
  intros [Hc Hf]. assert (H0 : tracker_ok no_failures) by (split; cbn; [lia|split; [by intros [? ?]|lia]]).
  unfold on_failure. destruct (_ || _); [exact (conj Hc Hf)|]. destruct (contains _ _); [exact (conj Hc Hf)|]. destruct (Z.eqb_spec (count s + 1) 1).
  - split; cbn; [lia|]. split; [lia|intros _; by eexists].
  - destruct (match first_at s with Some _ => _ | None => _ end); [exact H0|]. destruct (Z.leb_spec DIAL_FAILURE_THRESHOLD (count s + 1)) as [H|H]; [exact H0|].
    unfold DIAL_FAILURE_THRESHOLD in H. split; cbn; [lia|]. rewrite Hf. lia.
Qed.

Lemma on_failure_counted s e now :
  counted e = true ->
  on_failure s e now =
    if (count s + 1 =? 1)%Z then (mkFailures 1 (Some now), false)
    else if match first_at s with Some a => (DIAL_FAILURE_WINDOW <? now - a)%Z | None => false end then (no_failures, false)
    else if (DIAL_FAILURE_THRESHOLD <=? count s + 1)%Z then (no_failures, true)
    else (mkFailures (count s + 1) (first_at s), false).
Proof.
  unfold counted, on_failure. intros H. apply andb_true_iff in H as [H1 H2]. apply negb_true_iff in H1, H2. rewrite H1, H2.
  destruct (Z.eqb_spec (count s + 1) 1) as [->|]; done.
Qed.

(** From a count on, within a window that began with it, five in all. *)
Lemma burst_from l s a z :
  count s = z -> (0 < z < 5)%Z -> first_at s = Some a -> Forall (fun x => counted x.1 = true /\ (a <= x.2 <= a + DIAL_FAILURE_WINDOW)%Z) l ->
  (5 - z <= Z.of_nat (length l))%Z -> true ∈ failures_run s l.
Proof.
  revert s z. induction l as [|[e now] l IH]; intros s z Hc Hz Hf Hl Hn; [cbn in Hn; lia|]. apply Forall_cons in Hl as [[He Ht] Hl]. cbn in He, Ht.
  cbn [failures_run]. rewrite on_failure_counted, Hc, Hf by done. destruct (Z.eqb_spec (z + 1) 1); [lia|].
  assert (E : (DIAL_FAILURE_WINDOW <? now - a)%Z = false) by (apply Z.ltb_ge; lia). rewrite E.
  destruct (Z.leb_spec DIAL_FAILURE_THRESHOLD (z + 1)) as [H|H]; [apply list_elem_of_here|]. apply list_elem_of_further.
  unfold DIAL_FAILURE_THRESHOLD in H. apply (IH _ (z + 1)%Z); [done|lia|done|done|cbn in Hn; lia].
Qed.

(** From nothing, five failures within the window. *)
Lemma burst_fresh l a :
  Forall (fun x => counted x.1 = true /\ (a <= x.2 <= a + DIAL_FAILURE_WINDOW)%Z) l -> StronglySorted (fun x y => (x.2 <= y.2)%Z) l ->
  5 <= length l -> true ∈ failures_run no_failures l.
Proof.
  intros Hl Hs Hn. destruct l as [|[e now] l]; [cbn in Hn; lia|]. apply Forall_cons in Hl as [[He Ht] Hl]. apply StronglySorted_inv in Hs as [_ Hs].
  cbn [failures_run]. rewrite on_failure_counted by done. cbn [count no_failures]. apply list_elem_of_further.
  apply (burst_from l _ now 1); [done|lia|done| |cbn in Hn; lia]. apply Forall_and. split; [by eapply Forall_impl; [exact Hl|intros x [? _]]|].
  cbn in Ht. rewrite Forall_forall in *. intros x Hx. specialize (Hl x Hx). specialize (Hs x Hx). cbn in Hs. lia.
Qed.

(** From any state, the streak ends, by a verdict or for its age, within four
    failures. *)
Lemma burst_any l s a n :
  tracker_ok s -> Forall (fun x => counted x.1 = true /\ (a <= x.2 <= a + DIAL_FAILURE_WINDOW)%Z) l -> StronglySorted (fun x y => (x.2 <= y.2)%Z) l ->
  (5 - Z.max 1 (count s) <= Z.of_nat n)%Z -> n + 5 <= length l -> true ∈ failures_run s l.
Proof.
  revert s n. induction l as [|[e now] l IH]; intros s n Hok Hl Hs Hn Hlen; [cbn in Hlen; lia|].
  destruct (decide (count s = 0%Z)) as [H0|H0].
  - destruct Hok as [_ Hf]. assert (s = no_failures) as ->.
    { destruct s as [c f]. cbn in *. subst. unfold no_failures. f_equal. destruct f; [|done]. assert (0 < 0)%Z by (apply Hf; by eexists). lia. }
    apply (burst_fresh _ a); [done|done|lia].
  - pose proof (on_failure_ok s e now Hok) as Hok'. apply Forall_cons in Hl as [[He _] Hl]. apply StronglySorted_inv in Hs as [Hs _]. cbn in He.
    destruct Hok as [Hc _]. cbn [failures_run]. rewrite on_failure_counted in * by done. destruct (Z.eqb_spec (count s + 1) 1); [lia|].
    destruct (match first_at s with Some _ => _ | None => _ end); [apply list_elem_of_further; apply (burst_fresh l a); [done|done|cbn in Hlen; lia]|].
    destruct (Z.leb_spec DIAL_FAILURE_THRESHOLD (count s + 1)) as [H|H]; [apply list_elem_of_here|]. apply list_elem_of_further.
    apply (IH _ (n - 1)); [done|done|done|cbn; lia|]. cbn in Hlen. destruct n; [lia|]. lia.
Qed.

(** Whatever went before, nine dials in a row that fail within five seconds
    mark the member dead, unless the failures are excused: the streak they
    continue may be dropped for its age, but then the next five count. *)
Theorem burst_marks_dead (s : DialFailureState) (l : list (MeowError * Z)) (a : Z) :
  tracker_ok s -> Forall (fun x => counted x.1 = true /\ (a <= x.2 <= a + DIAL_FAILURE_WINDOW)%Z) l ->
  StronglySorted (fun x y => (x.2 <= y.2)%Z) l -> 9 <= length l -> true ∈ failures_run s l.
Proof.
  intros Hok Hl Hs Hn. apply (burst_any l s a 4); [done|done|done| |lia]. destruct Hok. lia.
Qed.

End Bursts.

(** ** Two members *)

Definition node (name : bytes) (live : bool) (delay : Z) : Member := mkMemberProxy name AVmess live (fun _ => live) delay true false.

(** The incumbent is slower, but within the tolerance; a dead member is
    faster. *)
Definition sample_ut : UrlTest.UrlTestGroup :=
  UrlTest.set_fastest
    (UrlTest.new_with_providers (b! "auto") (mkMembers [node (b! "a") true 140; node (b! "b") true 100] [[node (b! "c") false 10]]) 50)
    (Some (b! "a")).

Lemma urltest_pick_exact_witness :
  exists g' p, UrlTest.pick_for_dial sample_ut = (g', Some p) /\ p_name p = b! "a" /\ Scan.within sample_ut p (node (b! "b") true 100) /\
    Scan.incumbent (UrlTest.fastest sample_ut) p.
Proof.
  eexists _, (node (b! "a") true 140). split; [by vm_compute|]. split; [done|].
  destruct (Scan.urltest_pick_exact sample_ut (UrlTest.pick_for_dial sample_ut).1 (node (b! "a") true 140)) as (_ & _ & H1 & H2);
    [by vm_compute|by vm_compute|by vm_compute|].
  split.
  - apply H1; [cbn; set_solver|]. by split; [|cbn; lia].
  - apply H2; [exists (node (b! "a") true 140); split; [cbn; set_solver|done]|]. intros c q Hc Hi Hq [Ha Hm].
    cbn in Hc, Hq. repeat (apply elem_of_cons in Hc as [->|Hc]; [|]); [| | |by apply not_elem_of_nil in Hc];
      repeat (apply elem_of_cons in Hq as [->|Hq]; [|]); try (by apply not_elem_of_nil in Hq); try (by destruct Hi); unfold Scan.within; cbn in *; try lia; done.
Defined.

Definition front_server : ChainTarget := Host (b! "srv.example") 443.
Definition front_dial : Metadata :=
  mkMetadata Tcp Http None None 0 443 (b! "srv.example") Normal [] [] None None [] [] [] [] 0 None [] false.
Definition front_hop : option FrontHop := Some (mkHop front_server (Some (b! "exit"))).

(** Twice the chain through the first member is closed before a reply. *)
Definition closed_chain (h : ChainHealth) (m : Member) (now : Z) : ChainHealth :=
  let '(v, _) := on_event (watch_front_hop h front_server m false) h (Written 517) now in (on_event v h (Read 4096 0) now).2.1.

Definition two_failures : ChainHealth :=
  closed_chain (closed_chain tracking_carriers (node (b! "a") true 20) (secs 1)) (node (b! "a") true 20) (secs 2).

Definition sample_fb : Fallback.FallbackGroup :=
  Fallback.set_health (Fallback.new_with_providers (b! "front") (mkMembers [node (b! "a") true 20; node (b! "b") true 90] [])) two_failures.

Lemma last_resort_only_witness :
  exists fb' p, Fallback.start_dial sample_fb front_hop front_dial (secs 3) = (fb', Ok (p, Some (front_server, false))) /\ p_name p = b! "b" /\
    is_blocked_at (Fallback.chain_health fb') front_server (b! "a") (secs 3) = true /\
    false = is_blocked_at (Fallback.chain_health fb') front_server (p_name p) (secs 3).
Proof.
  eexists (Fallback.start_dial sample_fb front_hop front_dial (secs 3)).1, (node (b! "b") true 90).
  split; [by vm_compute|]. split; [done|]. split; [by vm_compute|].
  destruct (last_resort_only (PS := LoadBalance.minimal_suffix) sample_fb (Fallback.start_dial sample_fb front_hop front_dial (secs 3)).1 sample_ut sample_ut
    (LoadBalance.new_with_providers [] (mkMembers [] []) LoadBalance.RoundRobin) (LoadBalance.new_with_providers [] (mkMembers [] []) LoadBalance.RoundRobin)
    front_hop front_dial (secs 3) (node (b! "b") true 90) front_server false) as [H _].
  apply H. by vm_compute.
Defined.

End GroupTheorems.
